(* ===== verification/_CoqProject ===== *)
-Q . S2P
Prelude.v
Bytes.v
JsDate.v
Programs.v
Text.v
Json.v
Errors.v
Contracts.v
Ids.v
Scopes.v
Policy.v
Reveal.v
Seals.v
SealDelta.v
SealSigning.v
SealManager.v
Credentials.v
CredentialSpec.v
Registries.v
CredentialService.v
Mcp.v
Elevation.v
AdminServer.v
HttpServer.v
Surfaces.v
RequestHandler.v
Ws.v
WsServer.v
WsInvalidation.v
CoreStores.v
CoreWorld.v
MessageActions.v
InboxActions.v
CoreQueries.v
SearchActions.v
Invites.v
InviteHost.v
Profiles.v
InviteEffects.v
InviteListener.v
Join.v
SignetCore.v
Runtime.v
ConversationActions.v
Base64.v
Jwt.v
Bip39Words.v
KeyDerivation.v
Vault.v
VaultSpec.v
DaemonFiles.v
VaultSecret.v
KeyBackend.v
KeyManager.v
KeyActions.v
SdkParts.v
SdkHandler.v
SdkSession.v
Der.v
Verifier.v
