(* ===== verification/Prelude.v ===== *)
(** * xmtp-signet: verification library

    xmtp-signet runs a daemon (the "signet") that holds an owner's XMTP
    identity and lets agents act through it with limited, revocable rights.
    An operator (an agent's registration) is issued credentials: bearer tokens
    bound to chats and to a set of permission scopes, possibly taken from a
    named policy.  Agents connect over a WebSocket, or call actions over MCP
    and HTTP; the owner administers the daemon over a local socket.  Hidden
    content can be revealed to a credential.  What an agent may do in a chat
    is published there as a signed seal, and seals form a chain per credential
    and chat; a verifier checks them from outside.  The daemon also creates
    and joins conversations by signed invites, and keeps the owner's keys in
    an encrypted vault.  All paths below are under [src/packages/].

    ** Files, and what they model

    Shared ground:
    - [Prelude]: results ([better-result]'s [Result]), numbers with NaN,
      JavaScript [Set]s (duplicate-free lists) and [Map]s (insertion-ordered
      association lists, [omap], with [om_get], [om_set], [om_delete]),
      template strings, tactics, the [signet] hint database.
    - [Bytes], [Text], [Base64]: byte arrays and their big-endian values,
      JavaScript's string methods, base64.
    - [JsDate]: the interface [JsDate] of [Date] that the components use, with
      its laws, and the calendar implementation [iso_date] that discharges
      them and that the witnesses run on.
    - [Programs]: async functions as trees over a shared world, their runs
      and weakest preconditions, and systems of interleaved jobs.

    Rights, credentials and seals:
    - [Json], [Errors], [Ids], [Scopes]: canonical JSON
      ([seals/src/canonicalize.ts]), the error taxonomy, resource identifiers
      and permission scopes of [schemas/src].
    - [Policy], [Reveal]: the [policy] package, [sessions/src/materiality.ts],
      the event projector and the replay of [cli/src/ws].
    - [Seals], [SealDelta], [SealSigning], [SealManager]: the [seals] package
      and the schemas it uses.
    - [Credentials], [CredentialSpec]: [sessions/src/credential-manager.ts]
      and what it guarantees.
    - [Registries]: operators, policies and pending actions of [sessions/src].
    - [CredentialService]: [sessions/src/service.ts] and the actions that
      change scopes or request reveals, over [Credentials] and [Registries].
    - [Der], [Verifier]: the [verifier] package: binary formats, the six
      checks, the verdict, the rate limiter and the service.

    Transports:
    - [RequestHandler]: [cli/src/ws/request-handler.ts], over the above.
    - [Ws], [WsServer], [WsInvalidation]: the [ws] package.
    - [SdkParts], [SdkHandler], [SdkSession]: the agent's SDK ([sdk/src]), and
      its handler against the server's replay buffer.
    - [Contracts]: the action registry of [contracts/src] and what each
      transport derives from it.
    - [Mcp]: the MCP server.  [Elevation], [AdminServer], [HttpServer],
      [Surfaces]: the owner's read elevation, the admin socket and the HTTP
      API of [cli/src], and both servers as one system.

    The core and the Convos protocol:
    - [CoreStores], [CoreWorld]: identities, id mappings and clients of
      [core/src], and the world and effects of the core's actions.
    - [MessageActions], [InboxActions], [SearchActions],
      [ConversationActions]: the actions of the files of these names;
      [CoreQueries]: the consent and lookup actions.
    - [Invites], [InviteHost], [InviteListener], [Join]: making and reading
      invites, answering join requests ([core/src/schemes]), the daemon's
      listener ([cli/src/invite-host-listener.ts]) and joining.
    - [Profiles], [InviteEffects]: the members' profiles a history of messages
      stands for, and the audit entries and the snapshot of profiles after a
      join request ([cli/src/invite-host-effects.ts]).
    - [SignetCore]: [core/src/signet-core.ts], the core's life cycle: start,
      registration and attachment of identities, streams and timers, stop.

    The daemon:
    - [Runtime]: the composition root of [cli/src/runtime.ts] (start-up with
      roll-back, shut-down, status), the generic life cycle and the lazy
      upgrade of the core.
    - [DaemonFiles]: the audit log and the file with the process id.

    Keys ([keys/src]):
    - [Jwt]: administrator tokens.  [Bip39Words], [KeyDerivation]: mnemonics
      and the keys derived from them.
    - [Vault], [VaultSpec]: the vault in memory and in files, the abstract
      vault and the class [VaultContract] that both implement.
    - [KeyBackend]: wallets, accounts and signatures over any vault that
      meets the contract.  [KeyManager]: the daemon's key manager over both.
    - [VaultSecret]: where the vault's secret comes from, a file or a box
      sealed to the Secure Enclave.  [KeyActions]: the key and wallet actions,
      over [KeyManager] and the operators of [Registries].

    A definition has the name of the function it translates, with a prefix
    where one file holds several objects ([op_], [pol_], [pa_], [svc_],
    [bp_], [mem_], [file_]); record fields keep the field names, prefixed
    where they clash.

    ** How state, time and concurrency are modelled

    An object with private state (a manager, a store, the server) is a record
    of its [Map]s; each method is a function from the state to the new state
    and its result, on every branch, errors included.  Methods that throw
    return [None].  SQLite tables are lists of rows, a directory is its files
    by name.  The clock, fresh identifiers, random bytes, signers, the XMTP
    client and zod's messages are arguments, so every theorem holds for all
    their answers.  Libraries (hashes, ciphers, curves, parsers) are classes
    of functions; what their documentation promises is a second class of laws
    ([InviteLaws], [JwtLibLaws], [KeyLibLaws], [VaultLaws]), and a
    concrete instance in the witnesses shows the laws can hold together.
    Hashes and tags are taken as collision free, the usual idealisation.

    JavaScript runs one synchronous stretch at a time.  A method without an
    [await] is one transition.  A method with awaits that matter is split at
    them ([SealManager.issue_prepare], [Registries.op_remove_begin], the
    [_begin]/[_end] pairs of [WsServer], [KeyBackend.derive_start]), or
    written as a program tree whose runs let the environment change the world
    at every await ([RequestHandler], and [Programs] for everything after
    it; in [KeyManager] and [KeyActions] the stamper, the keys made on first
    use and [keys.init], while the other calls of the keys are atomic).  Where requests share state and overlap, they are the jobs of
    [sys_step].  The transition relations are [cred_step], [manager_step],
    [async_step], [op_step], [pol_step], [pa_step], [server_step],
    [burst_step], [hstep], [tracker_step], [sstep], [cache_step], [im_step],
    [is_step], [sys_step], [backend_step] and [key_step]; invariants are proved
    on what is reachable by them.

    ** What the theorems show

    - Rights: deny always wins ([Scopes.deny_wins]); on none of three paths
      does a credential gain a scope without reauthorization
      ([CredentialService.no_silent_escalation]); requests and events pass
      exactly with the scopes that allow them ([Policy.permissions_spec],
      [Reveal.projector_spec]).
    - Credentials: agreement of the stores, token soundness and finality of
      revocation, the concurrency limit, and specifications of issuance,
      sweep, renewal, heartbeat and update ([CredentialSpec]).
    - Requests: whatever happens while a request waits, at most one message
      is sent and only with authority ([RequestHandler.send_safety]); an
      action runs only for the owner's token or a live credential
      ([Surfaces.invocation_authorised], [Mcp.mcp_call_spec]); an elevation
      was approved, logged and has the cache key of the asking session and
      chat ([Elevation.elevation_safe]).
    - Seals: signed bytes determine the payload, deltas are complete, built
      chains verify, the manager keeps the chains, history is complete,
      revocation is final for whole operations; the verifier's checks say
      what they mean ([Verifier.seal_checks_spec]), its parsers terminate
      where they do and return the key of the certificate
      ([Der.extractP256PublicKey_spec]).
    - Transport: resumption is exact on the server ([Ws.resume_exact]) and,
      with the SDK, end to end ([SdkSession.lossless_resumption]); a broadcast
      reaches exactly the entitled connections, the latest of concurrent
      invalidations wins, reconnection gives up after its attempts, and
      disconnecting is final.
    - Core: reads are authorised ([MessageActions], [SearchActions]); an
      invite made by the generator is read back as it was made, admits the
      joiner, and nothing else adds a member ([Invites], [InviteHost]); a
      message is accepted at most once ([InviteListener]); a failed join
      leaves nothing behind ([Join]); chat actions do what they say on the
      right group ([ConversationActions]); linking and removing an inbox
      change exactly the link or the inbox asked for ([InboxActions]); a
      lookup finds what has the name and nothing else, consent is set once
      ([CoreQueries]); the profiles of a history are each member's latest
      ([Profiles.profiles_latest]); what became of a join request and its
      snapshot is logged ([InviteEffects]).
    - Life cycle: a start of the core, a registration of an identity and a
      start of the daemon do everything or leave nothing behind, and what has
      been stopped is silent ([SignetCore], [Runtime]).
    - Keys: a token is accepted exactly within its window ([Jwt]); mnemonics
      determine their entropy, derived keys are those of BIP-32 and SLIP-10
      ([KeyDerivation]); both vaults refine the abstract one, whatever the
      file system throws as long as no write is cut short ([VaultSpec]);
      accounts are numbered without gaps and signatures are by the account
      asked for ([KeyBackend]); the secret store is one map across its two
      layouts as long as the files work, the administrator's key survives
      restarts, and a stamp verifies under the key it names unless that key
      is rotated meanwhile ([KeyManager]); an operator initialised twice gets
      nothing new, its identity key included ([KeyActions]); the vault's secret, once given out, is
      the one given out later ([VaultSecret]).
    - Where an interleaving or an edge case does not do what the code or its
      comments intend, a lemma exhibits it on concrete values, among them
      [SealManager.issue_commits_after_revocation],
      [CredentialSpec.expired_credential_renewed],
      [Registries.remove_loses_update],
      [RequestHandler.confirmed_send_after_revocation],
      [SdkHandler.closed_handler_revived], [SdkSession.first_events_lost],
      [Der.findSpki_diverges], [Elevation.cache_key_collision],
      [Mcp.shadowed_tool], [Jwt.null_header_throws],
      [KeyBackend.overlapping_derivations_collide],
      [KeyManager.rotation_splits_stamp], [KeyManager.first_uses_race],
      [KeyManager.migration_race], [CredentialSpec.setStatus_reactivates],
      [InboxActions.stale_mapping_stays], [SignetCore.late_stream],
      [Runtime.rejected_startup], [InboxActions.links_race],
      [InviteEffects.picture_blocks_snapshot], [VaultSecret.lost_secret],
      [KeyActions.init_race], and the last section of [WsInvalidation].

    ** Bounds and fuel

    Loops over collections are folds.  Fuel is taken by the walk along
    predecessor links ([SealManager.history_walk]: the number of stored
    seals) and the retries of [SealSigning.attempt_loop] (the attempts left);
    [history_spec] and [republishToChats_spec] show that both suffice.  The
    string loops of [Text] and [Invites] that cut a string piece by piece
    take its length, and each piece is not empty.  [Der.findSpki] is the loop
    that can diverge: enough fuel is given for every input on which it ends,
    and [findSpki_diverges] is an input on which it does not.
    [InviteListener]'s pages of a conversation are as many as the fuel says,
    for any fuel, which covers every finite prefix of the unbounded loop;
    [InviteEffects.load_bounded] shows that its loop over pages runs out of
    fuel only after as many full pages.
    Sequence numbers, counters and buffer positions are [nat]; milliseconds,
    seconds and limits are [Z].  The counters of the program stay far below
    2^53, where JavaScript numbers are exact, so no wrap-around is modelled
    for them; 32-bit operators are written out where their operands can
    exceed the width ([Der], [KeyDerivation.harden]).  Strings are UTF-8 byte
    strings.

    ** What is not modelled

    Text parsing by zod beyond the refinements stated in the schemas, timers
    as such (a timer firing is a step that can happen at any time), sockets,
    cryptographic primitives, SQLite itself, the file system beyond the files
    of the vault, its secret and the daemon.  Of the packages, [cli]'s
    commands, with their argument parsing and output, its configuration, its
    clients of the daemon and [start.ts], which wires the packages together,
    are left; so is the registration of the action specs in [runtime.ts] and
    [core]'s wrapper of the XMTP client.  The subprocess of the Secure Enclave
    bridge, the native signer and the integration fixtures are I/O and stay
    out. *)
From stdpp Require Export base list strings pretty gmap sets sorting.
From Stdlib Require Export ZArith Lia Ascii.
From Stdlib Require String.

(** The library's own scope and hint database. *)
Declare Scope signet_scope.
Delimit Scope signet_scope with signet.
Open Scope signet_scope.
Create HintDb signet.

(** ** Results: the [Result<T, E>] of the [better-result] package, used by
    every handler of the program ([Result.ok], [Result.err]). *)
Inductive result (E A : Type) : Type :=
  | Ok (a : A)
  | Err (e : E).
Arguments Ok {E A} a.
Arguments Err {E A} e.

#[export] Instance result_bind {E} : MBind (result E) := λ A B f r,
  match r with Ok a => f a | Err e => Err e end.
#[export] Instance result_ret {E} : MRet (result E) := λ A a, Ok a.
#[export] Instance result_fmap {E} : FMap (result E) := λ A B f r,
  match r with Ok a => Ok (f a) | Err e => Err e end.
#[export] Instance result_eq_dec `{EqDecision E, EqDecision A} :
  EqDecision (result E A).
Proof. solve_decision. Defined.

Definition isOk {E A} (r : result E A) : bool :=
  match r with Ok _ => true | Err _ => false end.

Lemma result_bind_ok {E A B} (r : result E A) (f : A → result E B) b :
  r ≫= f = Ok b ↔ ∃ a, r = Ok a ∧ f a = Ok b.
Proof. destruct r; split; naive_solver. Qed.

(** ** Tactics *)

(** Split every match, decision and conditional of the goal and hypotheses. *)
Ltac js_cases :=
  repeat (case_match || case_decide || case_bool_decide); simplify_eq/=.

(** Destruct conjunctions and existentials, then close by [naive_solver]. *)
Ltac js_solve := destruct_and?; simplify_eq/=; naive_solver.

(** ** Numbers with NaN

    [Date.getTime()] yields a number or [NaN]; [NaN] is [None].  Every
    comparison with [NaN] is false. *)
Abbreviation num := (option Z).

Definition num_leb (a b : num) : bool :=
  match a, b with Some x, Some y => Z.leb x y | _, _ => false end.
Definition num_ltb (a b : num) : bool :=
  match a, b with Some x, Some y => Z.ltb x y | _, _ => false end.
Definition num_add (a : num) (z : Z) : num := (λ x, x + z)%Z <$> a.

Lemma num_leb_spec a b :
  num_leb a b = true ↔ ∃ x y, a = Some x ∧ b = Some y ∧ (x ≤ y)%Z.
Proof.
  destruct a as [x|], b as [y|]; simpl; split; try done.
  - intros ?%Z.leb_le. eauto.
  - intros (?&?&[=->]&[=->]&?). by apply Z.leb_le.
  - by intros (?&?&?&?&?).
  - by intros (?&?&?&?&?).
  - by intros (?&?&?&?&?).
Qed.

Lemma num_ltb_spec a b :
  num_ltb a b = true ↔ ∃ x y, a = Some x ∧ b = Some y ∧ (x < y)%Z.
Proof.
  destruct a as [x|], b as [y|]; simpl; split; try done.
  - intros ?%Z.ltb_lt. eauto.
  - intros (?&?&[=->]&[=->]&?). by apply Z.ltb_lt.
  - by intros (?&?&?&?&?).
  - by intros (?&?&?&?&?).
  - by intros (?&?&?&?&?).
Qed.

(** ** JavaScript [Set]: insertion-ordered, without duplicates *)
Section jsset.
Context {A : Type} `{EqDecision A}.
Implicit Types (x y : A) (s l : list A).

Definition set_has (s : list A) (x : A) : bool := bool_decide (x ∈ s).
Definition set_add (s : list A) (x : A) : list A :=
  if decide (x ∈ s) then s else s ++ [x].
(** [new Set(iterable)] adds the elements from left to right. *)
Definition js_set (l : list A) : list A := foldl set_add [] l.

Lemma set_has_spec s x : set_has s x = true ↔ x ∈ s.
Proof. apply bool_decide_eq_true. Qed.
Lemma set_has_false s x : set_has s x = false ↔ x ∉ s.
Proof. apply bool_decide_eq_false. Qed.

Lemma elem_of_set_add s x y : y ∈ set_add s x ↔ y ∈ s ∨ y = x.
Proof. unfold set_add. case_decide; set_solver. Qed.
Lemma NoDup_set_add s x : NoDup s → NoDup (set_add s x).
Proof.
  unfold set_add. case_decide; [done|]. intros. apply NoDup_app.
  split; [done|]. split; [set_solver|apply NoDup_singleton].
Qed.
Lemma set_add_in s x : x ∈ s → set_add s x = s.
Proof. unfold set_add. by case_decide. Qed.
Lemma set_add_notin s x : x ∉ s → set_add s x = s ++ [x].
Proof. unfold set_add. by case_decide. Qed.

Lemma elem_of_foldl_set_add l s y : y ∈ foldl set_add s l ↔ y ∈ s ∨ y ∈ l.
Proof.
  revert s; induction l as [|x l IH]; intros s; simpl; [set_solver|].
  rewrite IH, elem_of_set_add. set_solver.
Qed.
Lemma NoDup_foldl_set_add l s : NoDup s → NoDup (foldl set_add s l).
Proof.
  revert s; induction l; intros; simpl; auto using NoDup_set_add.
Qed.
Lemma elem_of_js_set l y : y ∈ js_set l ↔ y ∈ l.
Proof. unfold js_set. rewrite elem_of_foldl_set_add. set_solver. Qed.
Lemma NoDup_js_set l : NoDup (js_set l).
Proof. apply NoDup_foldl_set_add, NoDup_nil_2. Qed.
Lemma js_set_has l y : set_has (js_set l) y = set_has l y.
Proof. apply bool_decide_ext, elem_of_js_set. Qed.

Lemma foldl_set_add_NoDup l s :
  NoDup (s ++ l) → foldl set_add s l = s ++ l.
Proof.
  revert s; induction l as [|x l IH]; intros s Hnd; simpl.
  { by rewrite app_nil_r. }
  rewrite set_add_notin; [rewrite IH, <-(assoc_L (++)); [done|]|].
  - by rewrite <-(assoc_L (++)).
  - apply NoDup_app in Hnd as (_&Hd&_). intros Hx. apply (Hd x Hx). left.
Qed.
Lemma js_set_NoDup l : NoDup l → js_set l = l.
Proof. apply (foldl_set_add_NoDup l []). Qed.
End jsset.
#[export] Hint Resolve NoDup_js_set NoDup_set_add : signet.

(** ** JavaScript [Map]: insertion-ordered association list

    [set] on a present key keeps its position, [set] on a fresh key appends,
    [delete] removes the entry. *)
Abbreviation omap K V := (list (K * V)).

Section omap.
Context {K V : Type} `{EqDecision K}.
Implicit Types (m : omap K V) (k : K) (v : V).

Fixpoint om_get (k : K) (m : omap K V) : option V :=
  match m with
  | [] => None
  | (k', v) :: m => if decide (k = k') then Some v else om_get k m
  end.
Fixpoint om_set (k : K) (v : V) (m : omap K V) : omap K V :=
  match m with
  | [] => [(k, v)]
  | (k', v') :: m =>
      if decide (k = k') then (k', v) :: m else (k', v') :: om_set k v m
  end.
Definition om_delete (k : K) (m : omap K V) : omap K V :=
  filter (λ kv, kv.1 ≠ k) m.
Definition om_has (k : K) (m : omap K V) : bool := bool_decide (is_Some (om_get k m)).

Lemma om_get_set_eq k v m : om_get k (om_set k v m) = Some v.
Proof.
  induction m as [|[k' v'] m IH]; simpl; [by rewrite decide_True|].
  case_decide; simpl; [by rewrite decide_True|by rewrite decide_False].
Qed.
Lemma om_get_set_ne k k' v m :
  k ≠ k' → om_get k' (om_set k v m) = om_get k' m.
Proof.
  intros Hne. induction m as [|[k2 v2] m IH]; simpl.
  { by rewrite decide_False by done. }
  case_decide; simplify_eq/=; case_decide; simplify_eq/=; done.
Qed.
Lemma om_get_set k k' v m :
  om_get k' (om_set k v m) = if decide (k = k') then Some v else om_get k' m.
Proof.
  case_decide; [subst; apply om_get_set_eq|by apply om_get_set_ne].
Qed.
Lemma om_get_delete k k' m :
  om_get k' (om_delete k m) = if decide (k = k') then None else om_get k' m.
Proof.
  unfold om_delete. induction m as [|[k2 v2] m IH]; [by case_decide|].
  rewrite filter_cons. simpl. repeat (case_decide; simplify_eq/=); naive_solver.
Qed.
Lemma om_get_elem k v m : om_get k m = Some v → (k, v) ∈ m.
Proof.
  induction m as [|[k' v'] m IH]; simpl; [done|].
  case_decide; intros; simplify_eq; [left|right; auto].
Qed.
Lemma om_get_None k m : om_get k m = None ↔ k ∉ m.*1.
Proof.
  induction m as [|[k' v'] m IH]; simpl; [set_solver|].
  case_decide; set_solver.
Qed.
Lemma om_get_NoDup k v m : NoDup m.*1 → (k, v) ∈ m → om_get k m = Some v.
Proof.
  induction m as [|[k' v'] m IH]; simpl; [set_solver|].
  rewrite NoDup_cons. intros [Hk Hnd] [[= -> ->]|Hin]%elem_of_cons.
  - by rewrite decide_True.
  - case_decide as Heq; [|auto]. subst.
    destruct Hk. apply list_elem_of_fmap. by exists (k', v).
Qed.
Lemma om_set_keys k v m :
  (om_set k v m).*1 = set_add m.*1 k.
Proof.
  unfold set_add.
  induction m as [|[k' v'] m IH]; [done|]. cbn [om_set].
  destruct (decide (k = k')) as [->|Hne]; cbn.
  - rewrite decide_True; [done|left].
  - rewrite IH. repeat case_decide; set_solver.
Qed.
Lemma om_set_NoDup k v m : NoDup m.*1 → NoDup (om_set k v m).*1.
Proof. rewrite om_set_keys. apply (NoDup_set_add m.*1). Qed.
Lemma om_delete_keys k m : (om_delete k m).*1 = filter (λ k', k' ≠ k) m.*1.
Proof.
  unfold om_delete. induction m as [|[k' v'] m IH]; [done|].
  rewrite fmap_cons, !filter_cons. cbn.
  case_decide; cbn; by rewrite IH.
Qed.
Lemma om_delete_absent k m : k ∉ m.*1 → om_delete k m = m.
Proof.
  unfold om_delete. induction m as [|[p x] m IH]; [done|].
  rewrite fmap_cons, not_elem_of_cons, filter_cons. intros [Hk Hn].
  rewrite decide_True by (cbn in *; congruence). by rewrite IH.
Qed.
Lemma om_delete_NoDup k m : NoDup m.*1 → NoDup (om_delete k m).*1.
Proof. rewrite om_delete_keys. apply NoDup_filter. Qed.
Lemma om_set_fresh k v m : om_get k m = None → om_set k v m = m ++ [(k, v)].
Proof.
  induction m as [|[k' v'] m IH]; simpl; [done|].
  case_decide; [done|]. intros. by rewrite IH.
Qed.
Lemma om_set_set k v v' m : om_set k v (om_set k v' m) = om_set k v m.
Proof.
  induction m as [|[k' w] m IH]; simpl; [by rewrite decide_True|].
  case_decide; simpl; [by rewrite decide_True|]. rewrite decide_False by done. by rewrite IH.
Qed.
Lemma om_set_id k v m : om_get k m = Some v → om_set k v m = m.
Proof.
  induction m as [|[k' v'] m IH]; simpl; [done|].
  case_decide; intros; simplify_eq; [done|]. by rewrite IH.
Qed.
Lemma om_values_In k v m : om_get k m = Some v → v ∈ m.*2.
Proof. intros ?%om_get_elem. apply list_elem_of_fmap. by exists (k, v). Qed.
Lemma om_elem_set k v k' v' m :
  NoDup m.*1 →
  (k', v') ∈ om_set k v m ↔ (k' = k ∧ v' = v) ∨ (k' ≠ k ∧ (k', v') ∈ m).
Proof.
  intros Hnd. split.
  - intros Hin%om_get_NoDup; [|by apply om_set_NoDup].
    rewrite om_get_set in Hin. case_decide; simplify_eq; [by left|].
    right. split; [done|]. by apply om_get_elem.
  - intros [[-> ->]|[? Hin]]; apply om_get_elem; rewrite om_get_set.
    + by rewrite decide_True.
    + rewrite decide_False by done. by apply om_get_NoDup.
Qed.
Lemma om_set_cases k v k' v' m : (k', v') ∈ om_set k v m → (k' = k ∧ v' = v) ∨ (k', v') ∈ m.
Proof.
  induction m as [|[k0 v0] m IH]; cbn.
  - intros [= -> ->]%list_elem_of_singleton. by left.
  - case_decide; rewrite elem_of_cons.
    + intros [[= -> ->]|?]; [by left|]. right. by right.
    + intros [[= -> ->]|[?|?]%IH]; [right; by left|by left|]. right. by right.
Qed.
End omap.
#[export] Hint Resolve om_set_NoDup om_delete_NoDup : signet.
#[export] Hint Rewrite @om_get_set @om_get_delete : signet.

(** ** [Array.prototype.sort] with a comparator: stable insertion *)
Section js_sort.
Context {A : Type} (cmp : A → A → Z).

Fixpoint js_insert (x : A) (l : list A) : list A :=
  match l with
  | [] => [x]
  | y :: l' => if (cmp y x <=? 0)%Z then y :: js_insert x l' else x :: l
  end.
Definition js_sort (l : list A) : list A := foldl (λ acc x, js_insert x acc) [] l.

Lemma js_insert_perm x l : js_insert x l ≡ₚ x :: l.
Proof.
  induction l as [|y l IH]; simpl; [done|]. case_match; [|done].
  rewrite IH. constructor.
Qed.
Lemma js_sort_perm l : js_sort l ≡ₚ l.
Proof.
  unfold js_sort. change l with ([] ++ l) at 2.
  generalize (@nil A) as acc. induction l as [|x l IH]; intros acc; simpl.
  { by rewrite app_nil_r. }
  rewrite IH, js_insert_perm. by rewrite <-Permutation_middle.
Qed.
Lemma elem_of_js_sort x l : x ∈ js_sort l ↔ x ∈ l.
Proof. by rewrite js_sort_perm. Qed.
Lemma length_js_sort l : length (js_sort l) = length l.
Proof. by rewrite js_sort_perm. Qed.

(** For a consistent comparator (a total preorder) the result is sorted. *)
Definition cmp_le (x y : A) : Prop := (cmp x y ≤ 0)%Z.
Context (Htot : ∀ x y, cmp_le x y ∨ cmp_le y x)
        (Htrans : ∀ x y z, cmp_le x y → cmp_le y z → cmp_le x z).

Lemma js_insert_sorted x l :
  StronglySorted cmp_le l → StronglySorted cmp_le (js_insert x l).
Proof using Htot Htrans.
  induction 1 as [|y l Hs IH Hall]; simpl; [repeat constructor|].
  case_match eqn:Hc.
  - constructor; [done|]. rewrite js_insert_perm. constructor; [|done].
    apply Z.leb_le, Hc.
  - assert (cmp_le x y).
    { destruct (Htot x y) as [|Hyx]; [done|]. apply Z.leb_gt in Hc.
      unfold cmp_le in Hyx. lia. }
    constructor; [by constructor|]. constructor; [done|].
    eapply Forall_impl; [done|]. eauto.
Qed.
Lemma js_sort_sorted l : StronglySorted cmp_le (js_sort l).
Proof using Htot Htrans.
  unfold js_sort. assert (StronglySorted cmp_le []) as Hs by constructor.
  revert Hs. generalize (@nil A) as acc.
  induction l; simpl; auto using js_insert_sorted.
Qed.
(** The first element of a sorted array is a minimum. *)
Lemma js_sort_head l x : head (js_sort l) = Some x → x ∈ l ∧ ∀ y, y ∈ l → cmp_le x y.
Proof using Htot Htrans.
  intros Hh. pose proof (js_sort_sorted l) as Hs.
  assert (Hperm := js_sort_perm l).
  destruct (js_sort l) as [|x' l']; [done|]. simplify_eq/=.
  split; [rewrite <-Hperm; left|]. intros y. rewrite <-Hperm.
  apply StronglySorted_inv in Hs as [_ Hs]. rewrite Forall_forall in Hs.
  intros [->|?]%elem_of_cons; [|auto].
  by destruct (Htot x x).
Qed.
(** When the comparator tells the elements apart, the result does not depend
    on the order they came in. *)
Lemma js_sort_unique l l' :
  (∀ x y, x ∈ l → y ∈ l → cmp_le x y → cmp_le y x → x = y) → l ≡ₚ l' → js_sort l = js_sort l'.
Proof using Htot Htrans.
  intros Hanti Hp. apply (StronglySorted_unique_strong cmp_le); [|apply js_sort_sorted..|].
  - intros x y. rewrite !elem_of_js_sort, <- Hp. auto.
  - by rewrite !js_sort_perm.
Qed.
End js_sort.

(** A key-based comparator [(a, b) => key(a) - key(b)] is a total preorder. *)
Lemma cmp_sub_total {A} (key : A → Z) x y :
  cmp_le (λ a b, key a - key b)%Z x y ∨ cmp_le (λ a b, key a - key b)%Z y x.
Proof. unfold cmp_le. lia. Qed.
Lemma cmp_sub_trans {A} (key : A → Z) x y z :
  cmp_le (λ a b, key a - key b)%Z x y → cmp_le (λ a b, key a - key b)%Z y z →
  cmp_le (λ a b, key a - key b)%Z x z.
Proof. unfold cmp_le. lia. Qed.

(** ** Strings: the JavaScript string operations the program uses *)
Fixpoint startsWith (p s : string) : bool :=
  match p, s with
  | EmptyString, _ => true
  | String c p, String c' s => bool_decide (c = c') && startsWith p s
  | String _ _, EmptyString => false
  end.
Fixpoint str_drop (n : nat) (s : string) : string :=
  match n, s with
  | O, _ => s
  | S n, String _ s => str_drop n s
  | S _, EmptyString => EmptyString
  end.
Fixpoint str_take (n : nat) (s : string) : string :=
  match n, s with
  | O, _ => EmptyString
  | S n, String c s => String c (str_take n s)
  | S _, EmptyString => EmptyString
  end.
(** [s.indexOf(c)], [None] for [-1]. *)
Fixpoint str_indexOf (c : ascii) (s : string) : option nat :=
  match s with
  | EmptyString => None
  | String c' s => if decide (c' = c) then Some 0 else S <$> str_indexOf c s
  end.
Fixpoint str_forallb (f : ascii → bool) (s : string) : bool :=
  match s with EmptyString => true | String c s => f c && str_forallb f s end.
Lemma str_forallb_impl (f g : ascii → bool) s :
  (∀ c, f c = true → g c = true) → str_forallb f s = true → str_forallb g s = true.
Proof. intros Hfg. induction s as [|c s IH]; [done|]. cbn. rewrite !andb_true_iff. intros [? ?]; auto. Qed.
(** [Array.join]. *)
Fixpoint str_join (sep : string) (l : list string) : string :=
  match l with
  | [] => ""
  | [s] => s
  | s :: l => s +:+ sep +:+ str_join sep l
  end.

Lemma str_cons_app c (a b : string) : String c a +:+ b = String c (a +:+ b).
Proof. done. Qed.
Lemma str_nil_app (b : string) : "" +:+ b = b.
Proof. done. Qed.
Lemma str_app_assoc (a b c : string) : (a +:+ b) +:+ c = a +:+ (b +:+ c).
Proof. induction a as [|x a IH]; [done|]. by rewrite !str_cons_app, IH. Qed.
Lemma str_app_nil_r (a : string) : a +:+ "" = a.
Proof. induction a as [|x a IH]; [done|]. by rewrite str_cons_app, IH. Qed.
Lemma str_length_app (a b : string) :
  String.length (a +:+ b) = String.length a + String.length b.
Proof. induction a as [|x a IH]; [done|]. rewrite str_cons_app. cbn. by rewrite IH. Qed.
Lemma str_drop_app (p s : string) : str_drop (String.length p) (p +:+ s) = s.
Proof. induction p as [|c p IH]; [done|]. apply IH. Qed.
Lemma str_app_inj_l (p a b : string) : p +:+ a = p +:+ b → a = b.
Proof. induction p as [|c p IH]; [done|]. rewrite !str_cons_app. intros [= ?]. auto. Qed.
Lemma startsWith_spec p s : startsWith p s = true ↔ ∃ t, s = p +:+ t.
Proof.
  revert s. induction p as [|c p IH]; intros s; [split; [by exists s|done]|].
  destruct s as [|c' s]; cbn [startsWith]; [split; [done|by intros [? ?]]|].
  rewrite andb_true_iff, bool_decide_eq_true, IH. split.
  - intros [<- [t ->]]. by exists t.
  - intros [t Ht]. rewrite str_cons_app in Ht. simplify_eq. eauto.
Qed.
Lemma startsWith_app p s : startsWith p (p +:+ s) = true.
Proof. apply startsWith_spec. by exists s. Qed.
