(* ===== verification/Bytes.v ===== *)
(** * Bytes

    [Uint8Array]s as lists of bytes: numbers stored in them, their slices and
    their big-endian values, and strings as UTF-8. *)
From S2P Require Import Prelude.
From Stdlib Require Import NArith ZArith.

Abbreviation bytes := (list Byte.byte).
Definition nat_of_byte (b : Byte.byte) : nat := N.to_nat (Byte.to_N b).
(** Storing a number in a [Uint8Array]. *)
Definition to_byte (n : nat) : Byte.byte := default Byte.x00 (Byte.of_N (N.of_nat (n mod 256))).
(** [TextEncoder.encode]: strings are UTF-8. *)
Definition utf8 (s : string) : bytes := String.list_byte_of_string s.
(** [bytes.slice(i, j)]. *)
Definition slice (i j : nat) (l : bytes) : bytes := take (j - i) (drop i l).
Definition str_slice (i j : nat) (s : string) : string := str_take (j - i) (str_drop i s).

(** ** Lemmas *)
Lemma nat_of_to_byte n : nat_of_byte (to_byte n) = (n mod 256)%nat.
Proof.
  unfold nat_of_byte, to_byte. destruct (Byte.of_N (N.of_nat (n mod 256))) as [b|] eqn:Hb; cbn.
  - apply Byte.to_of_N in Hb. rewrite Hb. apply Nat2N.id.
  - apply Byte.of_N_None_iff in Hb. pose proof (Nat.mod_upper_bound n 256). lia.
Qed.
Lemma length_str_take n s : (n ≤ String.length s)%nat → String.length (str_take n s) = n.
Proof. revert s. induction n as [|n IH]; intros [|c s] Hl; cbn in *; try lia. rewrite IH; lia. Qed.
Lemma length_utf8 s : length (utf8 s) = String.length s.
Proof.
  unfold utf8, String.list_byte_of_string. rewrite length_map.
  induction s as [|c s IH]; [done|]. cbn. by rewrite IH.
Qed.

(** ** Bytes as integers *)
Local Open Scope Z_scope.
Definition Zb (b : Byte.byte) : Z := Z.of_N (Byte.to_N b).
Definition byte_Z (z : Z) : Byte.byte := default Byte.x00 (Byte.of_N (Z.to_N (z mod 256))).
(** The big-endian value, and its [n] bytes. *)
Definition be_value (l : bytes) : Z := foldl (λ a b, a * 256 + Zb b) 0 l.
Fixpoint be_bytes (n : nat) (z : Z) : bytes :=
  match n with O => [] | S n => be_bytes n (z / 256) ++ [byte_Z z] end.

Lemma Zb_bound b : 0 <= Zb b < 256.
Proof. by destruct b. Qed.
Lemma Zb_byte_Z z : Zb (byte_Z z) = z mod 256.
Proof.
  unfold byte_Z. pose proof (Z.mod_pos_bound z 256 ltac:(lia)) as Hz.
  destruct (Byte.of_N (Z.to_N (z mod 256))) as [b|] eqn:Hb.
  - apply Byte.to_of_N in Hb. change (default Byte.x00 (Some b)) with b. unfold Zb. rewrite Hb. lia.
  - apply Byte.of_N_None_iff in Hb. lia.
Qed.
Lemma Zb_inj b c : Zb b = Zb c → b = c.
Proof.
  unfold Zb. intros H%N2Z.inj. pose proof (Byte.of_to_N b) as Hb. pose proof (Byte.of_to_N c) as Hc.
  rewrite H in Hb. rewrite Hb in Hc. by injection Hc.
Qed.
Lemma byte_Z_Zb b : byte_Z (Zb b) = b.
Proof. apply Zb_inj. rewrite Zb_byte_Z. apply Z.mod_small, Zb_bound. Qed.
Lemma byte_Z_mod a b : a mod 256 = b mod 256 → byte_Z a = byte_Z b.
Proof. intros H. unfold byte_Z. by rewrite H. Qed.

Lemma be_value_snoc l b : be_value (l ++ [b]) = be_value l * 256 + Zb b.
Proof. unfold be_value. by rewrite foldl_app. Qed.
Lemma be_value_app l k : be_value (l ++ k) = be_value l * 256 ^ Z.of_nat (length k) + be_value k.
Proof.
  induction k as [|b k IH] using rev_ind.
  - rewrite app_nil_r. cbn. lia.
  - rewrite app_assoc, !be_value_snoc, IH, length_app. cbn [length].
    rewrite Nat2Z.inj_add, Z.pow_add_r by lia. lia.
Qed.
Lemma be_value_bound l : 0 <= be_value l < 256 ^ Z.of_nat (length l).
Proof.
  induction l as [|b l IH] using rev_ind; [cbn; lia|].
  rewrite be_value_snoc, length_app, Nat2Z.inj_add, Z.pow_add_r by lia. cbn [length].
  pose proof (Zb_bound b). lia.
Qed.
Lemma length_be_bytes n z : length (be_bytes n z) = n.
Proof. revert z. induction n as [|n IH]; intros z; [done|]. cbn. rewrite length_app, IH. cbn. lia. Qed.
Lemma be_value_be_bytes n z : be_value (be_bytes n z) = z mod 256 ^ Z.of_nat n.
Proof.
  revert z. induction n as [|n IH]; intros z; [cbn; by rewrite Z.mod_1_r|].
  cbn [be_bytes]. rewrite be_value_snoc, IH, Zb_byte_Z.
  rewrite Nat2Z.inj_succ, Z.pow_succ_r by lia.
  rewrite (Z.rem_mul_r z 256 (256 ^ Z.of_nat n)) by lia. lia.
Qed.
Lemma be_bytes_be_value l : be_bytes (length l) (be_value l) = l.
Proof.
  induction l as [|b l IH] using rev_ind; [done|].
  rewrite length_app, Nat.add_comm. cbn [length Nat.add be_bytes].
  rewrite be_value_snoc. pose proof (Zb_bound b).
  rewrite Z.div_add_l, (Z.div_small (Zb b)), Z.add_0_r, IH by lia.
  do 2 f_equal. transitivity (byte_Z (Zb b)); [|apply byte_Z_Zb].
  apply byte_Z_mod. by rewrite Z.add_comm, Z.mod_add by lia.
Qed.
Lemma be_value_inj l k : length l = length k → be_value l = be_value k → l = k.
Proof. intros Hl H. by rewrite <- (be_bytes_be_value l), <- (be_bytes_be_value k), Hl, H. Qed.

Lemma lor_add a b : 0 <= a -> 0 <= b < 256 -> Z.lor (Z.shiftl a 8) b = a * 256 + b.
Proof.
  intros Ha Hb. rewrite Z.shiftl_mul_pow2 by lia. change (2 ^ 8) with 256.
  assert (Z.land (a * 256) b = 0) as H0.
  { apply Z.bits_inj'. intros n Hn. rewrite Z.bits_0, Z.land_spec. change 256 with (2 ^ 8).
    destruct (Z.ltb_spec n 8); [by rewrite Z.mul_pow2_bits_low|].
    assert (Z.testbit b n = false) as ->; [|by rewrite andb_false_r].
    destruct (decide (b = 0)) as [->|?]; [apply Z.bits_0|].
    apply Z.bits_above_log2; [lia|]. apply Z.log2_lt_pow2; [lia|].
    assert (256 <= 2 ^ n); [|lia]. change 256 with (2 ^ 8). apply Z.pow_le_mono_r; lia. }
  pose proof (Z.add_lor_land (a * 256) b). lia.
Qed.

(** Bit [j] of the value is bit [j mod 8] of byte [j / 8] from the end. *)
Lemma be_value_bit l (i : nat) b j : l !! i = Some b → 0 <= j < 8 →
  Z.testbit (be_value l) (8 * (Z.of_nat (length l) - 1 - Z.of_nat i) + j) = Z.testbit (Zb b) j.
Proof.
  intros Hi Hj. apply list_elem_of_split_length in Hi as (l1 & l2 & -> & ->).
  change (b :: l2) with ([b] ++ l2). rewrite app_assoc, be_value_app, be_value_snoc.
  rewrite !length_app. cbn [length].
  replace (8 * (Z.of_nat (length l1 + 1 + length l2) - 1 - Z.of_nat (length l1)) + j)
    with (j + 8 * Z.of_nat (length l2)) by lia.
  set (m := Z.of_nat (length l2)).
  replace (256 ^ m) with (2 ^ (8 * m)) by (rewrite Z.pow_mul_r by lia; done).
  rewrite <- Z.div_pow2_bits by lia.
  pose proof (be_value_bound l2) as Hb. fold m in Hb.
  replace (256 ^ m) with (2 ^ (8 * m)) in Hb by (rewrite Z.pow_mul_r by lia; done).
  rewrite Z.div_add_l, (Z.div_small (be_value l2)), Z.add_0_r by lia.
  rewrite <- (Z.mod_pow2_bits_low _ 8) by lia. change (2 ^ 8) with 256.
  rewrite Z.add_comm, Z.mod_add, Z.mod_small by (try lia; apply Zb_bound). done.
Qed.
