(* ===== verification/JsDate.v ===== *)
(** * Timestamps: the part of JavaScript's [Date] the program uses

    Every stored timestamp is a string written by [Date.prototype.toISOString]
    and read back with [new Date(s).getTime()].  [JsDate] is the interface the
    components use; [iso_date] implements it for the ISO 8601 form that
    [toISOString] prints, with the proleptic Gregorian calendar. *)
From S2P Require Import Prelude.
Open Scope Z_scope.

(** A time value is valid within 8.64e15 ms of the epoch (ECMA-262 TimeClip). *)
Definition time_valid (t : Z) : bool := (-8640000000000000 <=? t) && (t <=? 8640000000000000).

(** [None] of [date_getTime] is [NaN]; [None] of [date_toISOString] is the
    [RangeError] thrown for an invalid time value. *)
Class JsDate := {
  date_getTime : string → option Z;
  date_toISOString : Z → option string;
  date_toISO_valid : ∀ t, is_Some (date_toISOString t) ↔ time_valid t = true;
  date_roundtrip : ∀ t s, date_toISOString t = Some s → date_getTime s = Some t
}.

(** ** Fixed-width decimals *)
Definition digit_char (d : Z) : ascii := ascii_of_nat (48 + Z.to_nat d).
Definition digit_val (c : ascii) : option Z :=
  let n := Z.of_nat (nat_of_ascii c) in
  if (48 <=? n) && (n <=? 57) then Some (n - 48) else None.

Fixpoint pad (n : nat) (z : Z) : string :=
  match n with
  | O => ""
  | S n => String (digit_char (z / 10 ^ Z.of_nat n)) (pad n (z mod 10 ^ Z.of_nat n))
  end.
Fixpoint read (n : nat) (acc : Z) (s : string) : option (Z * string) :=
  match n with
  | O => Some (acc, s)
  | S n =>
      match s with
      | String c s => d ← digit_val c; read n (10 * acc + d) s
      | EmptyString => None
      end
  end.
Definition expect (c : ascii) (s : string) : option string :=
  match s with
  | String c' s => if decide (c = c') then Some s else None
  | EmptyString => None
  end.

Lemma digit_val_char d : 0 ≤ d < 10 → digit_val (digit_char d) = Some d.
Proof.
  intros Hd.
  assert (forallb (λ d, bool_decide (digit_val (digit_char d) = Some d)) (seqZ 0 10) = true)
    as Hall by (vm_compute; reflexivity).
  rewrite forallb_forall in Hall.
  eapply bool_decide_eq_true, Hall, list_elem_of_In, elem_of_seqZ. lia.
Qed.

Lemma read_pad n z acc r :
  0 ≤ z < 10 ^ Z.of_nat n →
  read n acc (pad n z +:+ r) = Some (acc * 10 ^ Z.of_nat n + z, r).
Proof.
  revert z acc. induction n as [|n IH]; intros z acc Hz.
  { cbn in *. f_equal. f_equal. lia. }
  cbn [pad read]. rewrite str_cons_app.
  rewrite Nat2Z.inj_succ, Z.pow_succ_r in Hz by lia.
  assert (0 < 10 ^ Z.of_nat n) by (apply Z.pow_pos_nonneg; lia).
  rewrite digit_val_char; cbn [mbind option_bind].
  - rewrite IH by (apply Z.mod_pos_bound; lia).
    rewrite Nat2Z.inj_succ, Z.pow_succ_r by lia.
    f_equal. f_equal. pose proof (Z.div_mod z (10 ^ Z.of_nat n)). nia.
  - split; [apply Z.div_pos; lia|apply Z.div_lt_upper_bound; lia].
Qed.
Lemma pad_length n z : String.length (pad n z) = n.
Proof. revert z. induction n; intros; cbn; auto. Qed.

(** ** Civil calendar *)
Definition days_from_civil (y m d : Z) : Z :=
  let y := if m <=? 2 then y - 1 else y in
  let era := y / 400 in
  let yoe := y - era * 400 in
  let doy := (153 * (if 2 <? m then m - 3 else m + 9) + 2) / 5 + d - 1 in
  let doe := yoe * 365 + yoe / 4 - yoe / 100 + doy in
  era * 146097 + doe - 719468.

(** Month (counted from March) and day of the month of a day of the year. *)
Definition md_of_doy (doy : Z) : Z * Z :=
  let mp := (5 * doy + 2) / 153 in
  (if mp <? 10 then mp + 3 else mp - 9, doy - (153 * mp + 2) / 5 + 1).
(** Year of the era and day of the year of a day of a 400-year era starting
    1 March: centuries of 36524 days, then 4-year cycles of 1461 days. *)
Definition yd_of_doe (doe : Z) : Z * Z :=
  let cent := Z.min (doe / 36524) 3 in
  let doc := doe - cent * 36524 in
  let quad := doc / 1461 in
  let doq := doc - quad * 1461 in
  let yq := Z.min (doq / 365) 3 in
  (100 * cent + 4 * quad + yq, doq - yq * 365).
Definition civil_of_doe (doe : Z) : Z * Z * Z :=
  let '(yoe, doy) := yd_of_doe doe in
  let '(m, d) := md_of_doy doy in
  (if m <=? 2 then yoe + 1 else yoe, m, d).
Definition civil_from_days (z : Z) : Z * Z * Z :=
  let z := z + 719468 in
  let '(y, m, d) := civil_of_doe (z mod 146097) in
  (y + z / 146097 * 400, m, d).

(** Floor division as a bound on the remainder. *)
Lemma div_bounds a b : 0 < b → 0 <= a - a / b * b < b.
Proof.
  intros. pose proof (Z.div_mod a b ltac:(lia)).
  pose proof (Z.mod_pos_bound a b ltac:(lia)). lia.
Qed.
Lemma yd_of_doe_spec doe :
  0 <= doe < 146097 →
  let '(yoe, doy) := yd_of_doe doe in
  0 <= yoe < 400 ∧ 0 <= doy < 366 ∧ yoe * 365 + yoe / 4 - yoe / 100 + doy = doe.
Proof.
  intros Hd. unfold yd_of_doe.
  pose proof (div_bounds doe 36524 ltac:(lia)) as Hc.
  set (cent := Z.min _ 3).
  assert (0 <= cent <= 3 ∧ 0 <= doe - cent * 36524 < 36525) as [Hcent Hdoc] by lia.
  clearbody cent. set (doc := doe - cent * 36524) in *.
  pose proof (div_bounds doc 1461 ltac:(lia)) as Hq.
  set (quad := doc / 1461) in *.
  assert (0 <= quad <= 24) as Hquad by lia.
  clearbody quad. set (doq := doc - quad * 1461) in *.
  pose proof (div_bounds doq 365 ltac:(lia)) as Hyq.
  set (yq := Z.min _ 3).
  assert (0 <= yq <= 3 ∧ 0 <= doq - yq * 365 < 366) as [Hyq3 Hdoy] by lia.
  clearbody yq.
  assert ((100 * cent + 4 * quad + yq) / 4 = 25 * cent + quad) as ->
    by (symmetry; apply (Z.div_unique _ 4 _ yq); lia).
  assert ((100 * cent + 4 * quad + yq) / 100 = cent) as ->
    by (symmetry; apply (Z.div_unique _ 100 _ (4 * quad + yq)); lia).
  lia.
Qed.

(** The days of a year, checked by evaluation. *)
Definition md_ok (doy : Z) : bool :=
  let '(m, d) := md_of_doy doy in
  ((153 * (if 2 <? m then m - 3 else m + 9) + 2) / 5 + d - 1 =? doy) &&
  (1 <=? m) && (m <=? 12) && (1 <=? d) && (d <=? 31).
Lemma md_of_doy_ok doy : 0 <= doy < 366 → md_ok doy = true.
Proof.
  intros Hd. assert (forallb md_ok (seqZ 0 366) = true) as Hall by (vm_compute; reflexivity).
  rewrite forallb_forall in Hall. apply Hall, list_elem_of_In, elem_of_seqZ. lia.
Qed.

Lemma civil_of_doe_spec doe :
  0 <= doe < 146097 →
  let '(y, m, d) := civil_of_doe doe in
  days_from_civil y m d = doe - 719468 ∧ 1 <= m <= 12 ∧ 1 <= d <= 31 ∧ 0 <= y <= 400.
Proof.
  intros Hd. unfold civil_of_doe. pose proof (yd_of_doe_spec doe Hd) as Hyd.
  destruct (yd_of_doe doe) as [yoe doy]. destruct Hyd as (Hy & Hdoy & Hdoe).
  apply md_of_doy_ok in Hdoy. unfold md_ok in Hdoy.
  destruct (md_of_doy _) as [m d].
  rewrite !andb_true_iff, !Z.leb_le, Z.eqb_eq in Hdoy. destruct_and!.
  unfold days_from_civil.
  assert (yoe / 400 = 0) as E by (apply Z.div_small; lia).
  case (m <=? 2); [replace (yoe + 1 - 1) with yoe by lia|]; rewrite E, Z.sub_0_r; lia.
Qed.

Lemma days_from_civil_era y m d k :
  days_from_civil (y + k * 400) m d = days_from_civil y m d + k * 146097.
Proof.
  unfold days_from_civil.
  assert (∀ y, (y + k * 400) / 400 = y / 400 + k) as E by (intros; apply Z.div_add; lia).
  case (m <=? 2).
  - replace (y + k * 400 - 1) with (y - 1 + k * 400) by lia. rewrite E.
    replace (y - 1 + k * 400 - ((y - 1) / 400 + k) * 400)
      with (y - 1 - (y - 1) / 400 * 400) by lia. lia.
  - rewrite E. replace (y + k * 400 - (y / 400 + k) * 400)
      with (y - y / 400 * 400) by lia. lia.
Qed.

Lemma civil_from_days_spec z :
  let '(y, m, d) := civil_from_days z in
  days_from_civil y m d = z ∧ 1 <= m <= 12 ∧ 1 <= d <= 31 ∧
  (z + 719468) / 146097 * 400 <= y <= (z + 719468) / 146097 * 400 + 400.
Proof.
  unfold civil_from_days.
  pose proof (civil_of_doe_spec _ (Z.mod_pos_bound (z + 719468) 146097 ltac:(lia))) as Hok.
  destruct (civil_of_doe ((z + 719468) mod 146097)) as [[y m] d].
  destruct_and!. rewrite days_from_civil_era.
  pose proof (Z.div_mod (z + 719468) 146097 ltac:(lia)). lia.
Qed.

(** ** ISO 8601 strings *)
Definition ms_per_day : Z := 86400000.

(** Years outside 0..9999 are printed with a sign and six digits. *)
Definition print_year (y : Z) : string :=
  if (0 <=? y) && (y <=? 9999) then pad 4 y
  else if 0 <=? y then String "+" (pad 6 y) else String "-" (pad 6 (- y)).
Definition read_year (s : string) : option (Z * string) :=
  match s with
  | String "+" s => read 6 0 s
  | String "-" s => '(y, s) ← read 6 0 s; if y =? 0 then None else Some (- y, s)
  | _ => read 4 0 s
  end.

Definition iso_print (t : Z) : string :=
  let '(y, m, d) := civil_from_days (t / ms_per_day) in
  let ms := t mod ms_per_day in
  print_year y +:+ String "-" (pad 2 m +:+ String "-" (pad 2 d +:+ String "T" (
    pad 2 (ms / 3600000) +:+ String ":" (pad 2 (ms / 60000 mod 60) +:+ String ":" (
    pad 2 (ms / 1000 mod 60) +:+ String "." (pad 3 (ms mod 1000) +:+ "Z")))))).

Definition iso_parse (s : string) : option Z :=
  '(y, s) ← read_year s; s ← expect "-" s;
  '(m, s) ← read 2 0 s; s ← expect "-" s;
  '(d, s) ← read 2 0 s; s ← expect "T" s;
  '(h, s) ← read 2 0 s; s ← expect ":" s;
  '(mi, s) ← read 2 0 s; s ← expect ":" s;
  '(sec, s) ← read 2 0 s; s ← expect "." s;
  '(ms, s) ← read 3 0 s; s ← expect "Z" s;
  let days := days_from_civil y m d in
  let t := days * ms_per_day + h * 3600000 + mi * 60000 + sec * 1000 + ms in
  if bool_decide (s = "" ∧ civil_from_days days = (y, m, d)) &&
     (h <? 24) && (mi <? 60) && (sec <? 60) && time_valid t
  then Some t else None.

Definition iso_toISOString (t : Z) : option string :=
  if time_valid t then Some (iso_print t) else None.

Lemma expect_cons c s : expect c (String c s) = Some s.
Proof. cbn. by rewrite decide_True. Qed.
Lemma digit_char_not_sign d : 0 <= d < 10 → digit_char d ≠ "+"%char ∧ digit_char d ≠ "-"%char.
Proof.
  intros Hd. split; intros Heq;
    pose proof (digit_val_char d Hd) as Hv; rewrite Heq in Hv; discriminate.
Qed.

Lemma read_year_print y r :
  -999999 <= y <= 999999 → read_year (print_year y +:+ r) = Some (y, r).
Proof.
  intros Hy. unfold print_year. case_match eqn:H1; [|case_match eqn:H2].
  - apply andb_true_iff in H1 as [H0 H9].
    rewrite Z.leb_le in H0, H9.
    pose proof (read_pad 4 y 0 r ltac:(lia)) as Hr. cbn [pad] in *.
    rewrite str_cons_app in *.
    destruct (digit_char_not_sign (y / 10 ^ Z.of_nat 3)) as [Hp Hm].
    { split; [apply Z.div_pos; lia|apply Z.div_lt_upper_bound; lia]. }
    unfold read_year. destruct (digit_char _) as [[] [] [] [] [] [] [] []]; try done.
  - apply Z.leb_le in H2. cbn [read_year]. rewrite str_cons_app. cbn [read_year].
    by rewrite read_pad by lia.
  - apply Z.leb_gt in H2. rewrite str_cons_app. cbn [read_year].
    rewrite read_pad by lia. cbn -[Z.mul]. case_match eqn:E.
    + apply Z.eqb_eq in E. lia.
    + f_equal. f_equal. lia.
Qed.

Lemma iso_roundtrip t : time_valid t = true → iso_parse (iso_print t) = Some t.
Proof.
  intros Hv. unfold iso_print. pose proof (civil_from_days_spec (t / ms_per_day)) as Hc.
  destruct (civil_from_days (t / ms_per_day)) as [[y m] d] eqn:Hciv.
  destruct Hc as (Hdays & Hm & Hd & Hy). unfold time_valid in Hv.
  rewrite andb_true_iff, !Z.leb_le in Hv.
  assert (-100000000 <= t / ms_per_day <= 100000000) as Ht
    by (unfold ms_per_day; split; [apply Z.div_le_lower_bound|apply Z.div_le_upper_bound]; lia).
  pose proof (div_bounds (t / ms_per_day + 719468) 146097 ltac:(lia)).
  pose proof (Z.mod_pos_bound t ms_per_day ltac:(done)) as Hms.
  pose proof (Z.div_mod t ms_per_day ltac:(done)) as Hdm.
  set (ms := t mod ms_per_day) in *. unfold ms_per_day in Hms.
  pose proof (div_bounds ms 3600000 ltac:(lia)). pose proof (div_bounds ms 60000 ltac:(lia)).
  pose proof (div_bounds ms 1000 ltac:(lia)).
  pose proof (Z.mod_pos_bound (ms / 60000) 60 ltac:(lia)).
  pose proof (Z.mod_pos_bound (ms / 1000) 60 ltac:(lia)).
  pose proof (Z.mod_pos_bound ms 1000 ltac:(lia)).
  unfold iso_parse. rewrite read_year_print by lia.
  cbn [mbind option_bind]. rewrite expect_cons. cbn [mbind option_bind].
  do 5 (rewrite read_pad by lia; cbn [mbind option_bind];
        rewrite expect_cons; cbn [mbind option_bind]).
  rewrite read_pad by lia. cbn [mbind option_bind]. rewrite expect_cons.
  cbn [mbind option_bind]. rewrite !Z.add_0_l, Hdays, Hciv.
  rewrite bool_decide_eq_true_2 by done. cbn [andb].
  assert (t / ms_per_day * ms_per_day + ms / 3600000 * 3600000 + (ms / 60000) mod 60 * 60000 +
    (ms / 1000) mod 60 * 1000 + ms mod 1000 = t) as ->.
  { rewrite (Z.mul_comm (t / ms_per_day)).
    assert (ms = ms / 3600000 * 3600000 + (ms / 60000) mod 60 * 60000 +
      (ms / 1000) mod 60 * 1000 + ms mod 1000) as Hsplit; [|lia].
    clear. Z.to_euclidean_division_equations. lia. }
  unfold time_valid. rewrite !(proj2 (Z.ltb_lt _ _)) by lia.
  by rewrite !(proj2 (Z.leb_le _ _)) by lia.
Qed.

(** The calendar above implements the interface. *)
#[export] Program Instance iso_date : JsDate := {|
  date_getTime := iso_parse; date_toISOString := iso_toISOString |}.
Next Obligation.
  intros t. unfold iso_toISOString. case_match; split; done || by intros [? ?].
Qed.
Next Obligation.
  intros t s. unfold iso_toISOString. case_match; [|done].
  intros [= <-]. by apply iso_roundtrip.
Qed.

Example iso_ex : iso_toISOString 1735689600123 = Some "2025-01-01T00:00:00.123Z".
Proof. vm_compute. reflexivity. Qed.
Example iso_ex_parse : iso_parse "2024-02-30T00:00:00.000Z" = None.
Proof. vm_compute. reflexivity. Qed.
