(* ===== verification/Programs.v ===== *)
(** * Programs with awaits

    An [async] function as a tree: synchronous stretches act on the shared
    world, an await starts an effect and continues with its answer.  Between
    the two the rest of the system runs: a run of the program lets the
    environment change the world at every await, by any steps the relation
    [env] allows. *)
From Stdlib Require Import FunctionalExtensionality.
From S2P Require Import Prelude.

Section programs.
Context (W : Type) (eff : Type → Type).
Inductive prog (R : Type) : Type :=
  | Ret (r : R)
  | Await (X : Type) (e : eff X) (k : X → prog R)
  | Sync (X : Type) (f : W → W * X) (k : X → prog R).
(** What happened at an await: the effect, the world when it was started
    and the answer. *)
Record event := Event { ev_type : Type; ev_eff : eff ev_type; ev_world : W; ev_answer : ev_type }.
(** Runs: a synchronous part acts on the world as it is; an await lets the
    environment move the world, and continues with any answer. *)
Fixpoint run {R} (env : W → W → Prop) (w : W) (p : prog R) (t : list event) (w2 : W) (r : R) : Prop :=
  match p with
  | Ret _ x => t = [] ∧ w2 = w ∧ r = x
  | Await _ X e k =>
      ∃ w' x t', env w w' ∧ t = Event X e w x :: t' ∧ run env w' (k x) t' w2 r
  | Sync _ X f k => run env (f w).1 (k (f w).2) t w2 r
  end.
End programs.
Arguments Ret {W eff R}.
Arguments Await {W eff R X}.
Arguments Sync {W eff R X}.
Arguments Event {W eff}.
Arguments ev_world {W eff}.
Arguments ev_eff {W eff}.
Arguments run {W eff R}.
Declare Scope prog_scope.
Delimit Scope prog_scope with prog.
Notation "'await' x <- e ;; k" := (Await e (λ x, k))
  (at level 200, x name, e at level 99, k at level 200, right associativity) : prog_scope.
Notation "'sync' x <- f ;; k" := (Sync f (λ x, k))
  (at level 200, x name, f at level 99, k at level 200, right associativity) : prog_scope.
Open Scope prog_scope.

#[global] Arguments ev_answer {W eff}.
#[global] Arguments ev_type {W eff}.

(** Sequencing, and the runs of a sequence. *)
Fixpoint bind {W eff A B} (p : prog W eff A) (f : A → prog W eff B) : prog W eff B :=
  match p with
  | Ret a => f a
  | Await e k => Await e (λ x, bind (k x) f)
  | Sync g k => Sync g (λ x, bind (k x) f)
  end.
Notation "'do' x <- p ;; k" := (bind p (λ x, k))
  (at level 200, x name, p at level 99, k at level 200, right associativity) : prog_scope.

Lemma bind_assoc {W eff A B C} (p : prog W eff A) (f : A → prog W eff B) (g : B → prog W eff C) :
  bind (bind p f) g = bind p (λ a, bind (f a) g).
Proof.
  induction p as [a|X e k IH|X h k IH]; cbn; [done| |]; f_equal; apply functional_extensionality; intros x; apply IH.
Qed.
Lemma run_bind {W} {eff : Type → Type} {A B} (env : W → W → Prop) w (p : prog W eff A)
  (f : A → prog W eff B) t w2 r :
  run env w (bind p f) t w2 r ↔
  ∃ t1 t2 w1 a, t = t1 ++ t2 ∧ run env w p t1 w1 a ∧ run env w1 (f a) t2 w2 r.
Proof.
  revert w t. induction p as [a|X e k IH|X g k IH]; intros w t; cbn.
  - split.
    + intros Hr. by exists [], t, w, a.
    + by intros (? & ? & ? & ? & -> & (-> & -> & ->) & ?).
  - split.
    + intros (w' & x & t' & Hw & -> & (t1 & t2 & w1 & a & -> & H1 & H2)%IH).
      exists (Event X e w x :: t1), t2, w1, a. split_and!; [done| |done]. by exists w', x, t1.
    + intros (t1 & t2 & w1 & a & -> & (w' & x & t' & Hw & -> & H1) & H2).
      exists w', x, (t' ++ t2). split_and!; [done..|]. apply IH. by exists t', t2, w1, a.
  - apply IH.
Qed.

(** ** Concurrent programs

    Jobs run on one thread: a job runs from one await to the next without
    interruption ([settle]); awaits are answered in any order and with any
    answer, and the environment moves the world in between.  The log keeps
    every job when it starts, and every answered effect with the job that
    awaited it and the world in which it was started. *)
Section concurrent.
Context {W : Type} {eff : Type → Type} {J : Type}.
Definition Log : Type := list (nat * (J + event W eff)).

Fixpoint settle {R} (w : W) (p : prog W eff R) : W * prog W eff R :=
  match p with
  | Sync f k => settle (f w).1 (k (f w).2)
  | p => (w, p)
  end.

(** What a job must guarantee to keep an invariant [I] of the log and the
    world: at every await [I] holds; it may assume [I] when the answer comes;
    it returns only what [Q] allows. *)
Fixpoint stretch {R} (I : Log → W → Prop) (tid : nat) (Q : Log → W → R → Prop) (L : Log) (w : W)
  (p : prog W eff R) : Prop :=
  match p with
  | Ret r => Q L w r
  | Sync f k => stretch I tid Q L (f w).1 (k (f w).2)
  | Await e k =>
      I L w ∧ ∀ L' w' x, L `prefix_of` L' → I L' w' →
        stretch I tid Q (L' ++ [(tid, inr (Event _ e w x))]) w' (k x)
  end.

Context {R : Type} (body : J → prog W eff R) (env : W → W → Prop).
Record Sys := mkSys { s_world : W; s_log : Log; s_jobs : list (J * W * prog W eff R) }.
Inductive sys_step : Sys → Sys → Prop :=
  | sys_spawn w L ts j :
      sys_step (mkSys w L ts)
        (mkSys (settle w (body j)).1 (L ++ [(length ts, inl j)])
           (ts ++ [(j, (settle w (body j)).1, (settle w (body j)).2)]))
  | sys_answer w L ts i j w0 X (e : eff X) k x :
      ts !! i = Some (j, w0, Await e k) →
      sys_step (mkSys w L ts)
        (mkSys (settle w (k x)).1 (L ++ [(i, inr (Event _ e w0 x))])
           (<[i := (j, (settle w (k x)).1, (settle w (k x)).2)]> ts))
  | sys_env w w' L ts : env w w' → sys_step (mkSys w L ts) (mkSys w' L ts).

Lemma stretch_settle I tid (Q : Log → W → R → Prop) L w p :
  stretch I tid Q L w p → stretch I tid Q L (settle w p).1 (settle w p).2.
Proof. revert w. by induction p as [r|X e k IH|X f k IH]; cbn; auto. Qed.
Lemma settle_done w (p : prog W eff R) :
  match (settle w p).2 with Sync _ _ => False | _ => True end.
Proof. revert w. induction p as [r|X e k IH|X f k IH]; intros w; cbn; [done|done|apply IH]. Qed.

(** The state of a suspended or finished job. *)
Definition job_ok (I : Log → W → Prop) (post : J → nat → Log → R → Prop) (L : Log) (i : nat)
  (t : J * W * prog W eff R) : Prop :=
  match t with
  | (j, w0, Ret r) => ∃ L0, L0 `prefix_of` L ∧ post j i L0 r
  | (j, w0, Await e k) => ∃ L0, L0 `prefix_of` L ∧ ∀ L' w' x, L0 `prefix_of` L' → I L' w' →
      stretch I i (λ L w r, I L w ∧ post j i L r) (L' ++ [(i, inr (Event _ e w0 x))]) w' (k x)
  | _ => False
  end.

Context (I : Log → W → Prop) (post : J → nat → Log → R → Prop).
Context (Henv : ∀ L w w', I L w → env w w' → I L w')
        (Hjobs : ∀ j tid L w, I L w → (∀ x, (tid, x) ∉ L) →
           stretch I tid (λ L w r, I L w ∧ post j tid L r) (L ++ [(tid, inl j)]) w (body j)).

Lemma job_ok_prefix L L' i t : L `prefix_of` L' → job_ok I post L i t → job_ok I post L' i t.
Proof.
  destruct t as [[j w0] [r|X e k|X f k]]; cbn; [| |done]; intros Hp (L0 & H0 & H);
    exists L0; (split; [by etrans|done]).
Qed.
Lemma stretch_job L w j i p :
  stretch I i (λ L w r, I L w ∧ post j i L r) L w p →
  I L (settle w p).1 ∧ job_ok I post L i (j, (settle w p).1, (settle w p).2).
Proof.
  intros H%stretch_settle. pose proof (settle_done w p) as Hd.
  destruct (settle w p) as [w' [r|X e k|X f k]]; cbn in *; [| |done].
  - destruct H as [? ?]. split; [done|]. by exists L.
  - destruct H as [? ?]. split; [done|]. by exists L.
Qed.

(** Invariants of the jobs are invariants of the system, whatever the
    interleaving; and every finished job returned what it promises. *)
Lemma sys_safe w0 s : I [] w0 → rtc sys_step (mkSys w0 [] []) s →
  I (s_log s) (s_world s) ∧
  ∀ i t, s_jobs s !! i = Some t → job_ok I post (s_log s) i t.
Proof using Henv Hjobs.
  set (ok := λ s, I (s_log s) (s_world s) ∧
    (∀ i t, s_jobs s !! i = Some t → job_ok I post (s_log s) i t) ∧
    ∀ i x, (i, x) ∈ s_log s → (i < length (s_jobs s))%nat).
  intros H0 Hs. enough (∀ s0, rtc sys_step s0 s → ok s0 → ok s) as Hall.
  { destruct (Hall _ Hs) as (? & ? & _); [|done]. split_and!; [done..|]. by intros i x ?%not_elem_of_nil. }
  clear w0 H0 Hs. intros s0 Hs.
  induction Hs as [s|s1 s2 s3 Hst _ IH]; [done|]. intros (HI & HT & HF). apply IH. clear IH.
  destruct Hst as [w L ts j|w L ts i j w0 X e k x Hi|w w' L ts He]; cbn in *.
  - destruct (stretch_job (L ++ [(length ts, inl j)]) w j (length ts) (body j)) as [HI' Ht].
    { apply Hjobs; [done|]. intros x Hx%HF. lia. }
    split_and!; [done| |]; cbn.
    + intros i t [Hl|[Hge Hl]]%lookup_app_Some.
      { eapply job_ok_prefix; [|by apply HT]. by apply prefix_app_r. }
      apply list_lookup_singleton_Some in Hl as [Hz <-]. replace i with (length ts) by lia. done.
    + intros i x. rewrite length_app. cbn.
      intros [?%HF|[= -> _]%list_elem_of_singleton]%elem_of_app; lia.
  - pose proof (HT i _ Hi) as (L0 & HL0 & Hk). specialize (Hk L w x HL0 HI).
    apply stretch_job in Hk as [HI' Ht]. split_and!; [done| |]; cbn.
    + intros i' t Hl. destruct (decide (i = i')) as [<-|Hne].
      * rewrite list_lookup_insert_eq in Hl by (by eapply lookup_lt_Some). by simplify_eq.
      * rewrite list_lookup_insert_ne in Hl by done. eapply job_ok_prefix; [|by apply HT].
        by apply prefix_app_r.
    + intros i' y. rewrite length_insert.
      intros [?%HF|[= -> _]%list_elem_of_singleton]%elem_of_app; [done|by eapply lookup_lt_Some].
  - split_and!; [by eapply Henv|done|done].
Qed.
End concurrent.
Arguments Log W eff J : clear implicits.
Arguments Sys W eff J R : clear implicits.

(** Proving [stretch] piece by piece. *)
Lemma stretch_bind {W eff J A B} I tid (Q : Log W eff J → W → B → Prop) L w (p : prog W eff A) f :
  stretch I tid (λ L w a, stretch I tid Q L w (f a)) L w p → stretch I tid Q L w (bind p f).
Proof.
  revert L w. induction p as [a|X e k IH|X g k IH]; intros L w; cbn; [done| |apply IH].
  intros [HI Hk]. split; [done|]. intros L' w' x HL HI'. apply IH. by apply Hk.
Qed.
Lemma stretch_mono {W eff J A} I tid (Q Q' : Log W eff J → W → A → Prop) L w (p : prog W eff A) :
  (∀ L' w' a, L `prefix_of` L' → Q L' w' a → Q' L' w' a) →
  stretch I tid Q L w p → stretch I tid Q' L w p.
Proof.
  revert L w. induction p as [a|X e k IH|X g k IH]; intros L w HQ; cbn.
  - by apply HQ.
  - intros [HI Hk]. split; [done|]. intros L' w' x HL HI'. apply IH; [|by apply Hk].
    intros L'' w'' a HL'. apply HQ. etrans; [done|]. etrans; [|done]. by apply prefix_app_r.
  - intros H. eapply IH; [|done]. done.
Qed.

(** Two invariants are guaranteed together. *)
Lemma stretch_and {W eff J A} I I' tid (Q Q' : Log W eff J → W → A → Prop) L w (p : prog W eff A) :
  stretch I tid Q L w p → stretch I' tid Q' L w p →
  stretch (λ L w, I L w ∧ I' L w) tid (λ L w a, Q L w a ∧ Q' L w a) L w p.
Proof.
  revert L w. induction p as [a|X e k IH|X g k IH]; intros L w; cbn; [done| |apply IH].
  intros [HI Hk] [HI' Hk']. split; [done|]. intros L' w' x HL [? ?]. apply IH; auto.
Qed.

(** ** Verification conditions

    [wp env p w pre Q]: every run of [p] from the world [w], after the events
    [pre], ends in a world and with a result that satisfy [Q], which also
    sees all the events. *)
Fixpoint wp {W eff R} (env : W → W → Prop) (p : prog W eff R) (w : W) (pre : list (event W eff))
  (Q : list (event W eff) → W → R → Prop) : Prop :=
  match p with
  | Ret r => Q pre w r
  | Sync f k => wp env (k (f w).2) (f w).1 pre Q
  | Await e k => ∀ w' x, env w w' → wp env (k x) w' (pre ++ [Event _ e w x]) Q
  end.
Lemma wp_run {W eff R} env (p : prog W eff R) w pre Q t w2 r :
  wp env p w pre Q → run env w p t w2 r → Q (pre ++ t) w2 r.
Proof.
  revert w pre t. induction p as [a|X e k IH|X f k IH]; intros w pre t; cbn.
  - intros ? (-> & -> & ->). by rewrite app_nil_r.
  - intros Hp (w' & x & t' & Hw & -> & Hr). specialize (IH x w' _ t' (Hp _ _ Hw) Hr).
    by rewrite <-app_assoc in IH.
  - apply IH.
Qed.
Lemma wp_mono {W eff R} env (p : prog W eff R) w pre (Q Q' : list (event W eff) → W → R → Prop) :
  (∀ t w r, Q t w r → Q' t w r) → wp env p w pre Q → wp env p w pre Q'.
Proof.
  intros HQ. revert w pre. induction p as [a|X e k IH|X f k IH]; intros w pre; cbn; [auto| |apply IH].
  intros Hp w' x Hw. apply IH. auto.
Qed.
Lemma wp_bind {W eff A B} env (p : prog W eff A) (f : A → prog W eff B) w pre Q :
  wp env p w pre (λ t w' a, wp env (f a) w' t Q) → wp env (bind p f) w pre Q.
Proof.
  revert w pre. induction p as [a|X e k IH|X g k IH]; intros w pre; cbn; [done| |apply IH].
  intros Hp w' x Hw. by apply IH, Hp.
Qed.
(** The events so far stay. *)
Lemma wp_prefix {W eff R} env (p : prog W eff R) w pre (Q : list (event W eff) → W → R → Prop) :
  wp env p w pre Q → wp env p w pre (λ t w' r, Q t w' r ∧ pre `prefix_of` t).
Proof.
  enough (∀ pre0, pre0 `prefix_of` pre → wp env p w pre Q →
    wp env p w pre (λ t w' r, Q t w' r ∧ pre0 `prefix_of` t)) as H by by apply H.
  revert w pre. induction p as [a|X e k IH|X f k IH]; intros w pre pre0 Hp; cbn; [auto| |by apply IH].
  intros Hk w' x Hw. apply IH; [|by apply Hk]. etrans; [done|]. by apply prefix_app_r.
Qed.

(** Programs that fail with an error, and stop at the first one. *)
Definition bind_ok {W eff E A B} (p : prog W eff (result E A)) (k : A → prog W eff (result E B))
  : prog W eff (result E B) :=
  bind p (λ r, match r with Ok a => k a | Err e => Ret (Err e) end).
Notation "'ok' x <- p ;; k" := (bind_ok p (λ x, k))
  (at level 200, x name, p at level 99, k at level 200, right associativity) : prog_scope.
Definition fail_unless {W eff E A B} (o : option A) (e : E) (k : A → prog W eff (result E B))
  : prog W eff (result E B) := match o with Some a => k a | None => Ret (Err e) end.
Lemma wp_bind_ok {W eff E A B} env (p : prog W eff (result E A)) (k : A → prog W eff (result E B)) w pre Q :
  wp env p w pre (λ t w' r, match r with Ok a => wp env (k a) w' t Q | Err e => Q t w' (Err e) end) →
  wp env (bind_ok p k) w pre Q.
Proof. intros H. apply wp_bind. eapply wp_mono; [|exact H]. by intros t w' []. Qed.

(** ** Invariants of one program

    [syncs_in P p]: every synchronous part of [p] moves the world by [P]. *)
Fixpoint syncs_in {W eff R} (P : W → W → Prop) (p : prog W eff R) : Prop :=
  match p with
  | Ret _ => True
  | Await _ k => ∀ x, syncs_in P (k x)
  | Sync f k => ∀ w, P w (f w).1 ∧ syncs_in P (k (f w).2)
  end.
Lemma syncs_bind {W eff A B} P (p : prog W eff A) (f : A → prog W eff B) :
  syncs_in P p → (∀ a, syncs_in P (f a)) → syncs_in P (bind p f).
Proof. induction p as [a|X e k IH|X g k IH]; cbn; intros Hp Hf; [auto|auto|]. intros w. destruct (Hp w). auto. Qed.
Lemma syncs_bind_ok {W eff E A B} P (p : prog W eff (result E A)) (k : A → prog W eff (result E B)) :
  syncs_in P p → (∀ a, syncs_in P (k a)) → syncs_in P (bind_ok p k).
Proof. intros Hp Hk. apply syncs_bind; [done|]. by intros []. Qed.
(** What the synchronous parts and the environment keep, a run keeps. *)
Lemma wp_keeps {W eff R} (I : W → Prop) (P env : W → W → Prop) (p : prog W eff R) w pre :
  (∀ w w', env w w' → I w → I w') → (∀ w w', P w w' → I w → I w') → syncs_in P p → I w →
  wp env p w pre (λ _ w' _, I w').
Proof.
  intros He HP. revert w pre. induction p as [a|X e k IH|X f k IH]; intros w pre; cbn; [done| |].
  - intros Hs HI w' x Hw. apply IH; [auto|]. by eapply He.
  - intros Hs HI. destruct (Hs w) as [H1 H2]. apply IH; [done|]. by eapply HP.
Qed.

(** ** Up to the next await

    [settle] of a sequence, and what the synchronous parts of a program make
    of the world until it waits or ends. *)
Lemma settle_bind {W eff A B} (p : prog W eff A) (f : A → prog W eff B) w :
  settle w (bind p f) =
  match (settle w p).2 with
  | Ret a => settle (settle w p).1 (f a)
  | q => ((settle w p).1, bind q f)
  end.
Proof. revert w. induction p as [a|X e k IH|X g k IH]; intros w; cbn; [done|done|apply IH]. Qed.
Lemma syncs_settle {W eff R} (P : W → W → Prop) `{!PreOrder P} (p : prog W eff R) w :
  syncs_in P p → P w (settle w p).1 ∧ syncs_in P (settle w p).2.
Proof.
  revert w. induction p as [a|X e k IH|X f k IH]; intros w; cbn; [by split|by split|].
  intros Hs. destruct (Hs w) as [H1 H2]. destruct (IH _ (f w).1 H2) as [H3 H4]. split; [by etrans|done].
Qed.
Lemma syncs_mono {W eff R} (P Q : W → W → Prop) (p : prog W eff R) :
  (∀ w w', P w w' → Q w w') → syncs_in P p → syncs_in Q p.
Proof.
  intros HPQ. induction p as [a|X e k IH|X f k IH]; cbn; intros Hs; [done|auto|].
  intros w. destruct (Hs w). auto.
Qed.
Definition ended {W eff R} (p : prog W eff R) : bool := match p with Ret _ => true | _ => false end.
