(* ===== verification/Text.v ===== *)
(** * String operations of JavaScript

    The [String.prototype] methods and the small regular-expression
    replacements that the action contracts, the admin surface and the
    commands use, on strings of UTF-8 bytes. *)
From S2P Require Import Prelude.

(** The white space and line terminators that [trim] removes, as UTF-8. *)
Definition bytes_str (l : list nat) : string :=
  foldr (λ n s, String (ascii_of_nat n) s) "" l.
Definition WHITESPACE : list string := map bytes_str
  ([[9]; [10]; [11]; [12]; [13]; [32]; [194; 160]; [225; 154; 128]] ++
   map (λ n, [226; 128; n]) (seq 128 11) ++
   [[226; 128; 168]; [226; 128; 169]; [226; 128; 175]; [226; 129; 159]; [227; 128; 128];
    [239; 187; 191]])%nat.

Fixpoint str_rev_app (s acc : string) : string :=
  match s with
  | EmptyString => acc
  | String c s => str_rev_app s (String c acc)
  end.
Definition str_rev (s : string) : string := str_rev_app s "".

(** Removing one of the given prefixes as long as there is one. *)
Fixpoint drop_prefixes (fuel : nat) (prefixes : list string) (s : string) : string :=
  match fuel with
  | O => s
  | S fuel =>
      match List.find (λ p, startsWith p s) prefixes with
      | None => s
      | Some p => drop_prefixes fuel prefixes (str_drop (String.length p) s)
      end
  end.
Definition trimStart (s : string) : string := drop_prefixes (String.length s) WHITESPACE s.
Definition trimEnd (s : string) : string :=
  str_rev (drop_prefixes (String.length s) (map str_rev WHITESPACE) (str_rev s)).
Definition trim (s : string) : string := trimEnd (trimStart s).

(** [s.replaceAll(c, r)] for a one-character pattern. *)
Fixpoint replaceAll (c : ascii) (r s : string) : string :=
  match s with
  | EmptyString => ""
  | String c' s => if decide (c' = c) then r +:+ replaceAll c r s else String c' (replaceAll c r s)
  end.
(** [s.split(c)] for a one-character separator: never empty. *)
Fixpoint str_split (c : ascii) (s : string) : list string :=
  match s with
  | EmptyString => [""]
  | String c' s =>
      if decide (c' = c) then "" :: str_split c s
      else match str_split c s with
           | [] => [String c' ""]
           | p :: ps => String c' p :: ps
           end
  end.
(** [s.replace(/c+$/, "")] and [s.replace(/c{2,}/g, c)]. *)
Definition strip_trailing (c : ascii) (s : string) : string :=
  str_rev (drop_prefixes (String.length s) [String c ""] (str_rev s)).
Fixpoint collapse (c : ascii) (s : string) : string :=
  match s with
  | String c1 (String c2 _ as s') =>
      if decide (c1 = c ∧ c2 = c) then collapse c s' else String c1 (collapse c s')
  | s => s
  end.
(** [s.includes(c)]. *)
Definition str_has (c : ascii) (s : string) : bool := bool_decide (is_Some (str_indexOf c s)).
(** [s.includes(p)]. *)
Fixpoint str_includes (p s : string) : bool :=
  startsWith p s ||
  match s with EmptyString => false | String _ s => str_includes p s end.
(** [toLowerCase] on ASCII. *)
Definition lower_char (c : ascii) : ascii :=
  let n := nat_of_ascii c in
  if ((65 <=? n)%nat && (n <=? 90)%nat)%bool then ascii_of_nat (n + 32) else c.
Fixpoint toLowerCase (s : string) : string :=
  match s with EmptyString => "" | String c s => String (lower_char c) (toLowerCase s) end.

Definition slash : ascii := "/"%char.

Example trim_ex : trim (String "009" "  a b " +:+ bytes_str [194; 160; 10]%nat) = "a b".
Proof. reflexivity. Qed.
Example collapse_ex : collapse slash "//a///b/" = "/a/b/".
Proof. reflexivity. Qed.
Example strip_ex : strip_trailing slash "/a//" = "/a".
Proof. reflexivity. Qed.

(** No two [c] in a row. *)
Fixpoint no_double (c : ascii) (s : string) : bool :=
  match s with
  | String c1 (String c2 _ as s') => negb (bool_decide (c1 = c ∧ c2 = c)) && no_double c s'
  | _ => true
  end.

(** The first character survives, and no two in a row do. *)
Lemma collapse_cons c a s : ∃ t, collapse c (String a s) = String a t.
Proof.
  revert a. induction s as [|b s IH]; intros a; [by eexists|]. cbn [collapse].
  case_decide as Hd; [|by eexists]. destruct Hd as [-> ->]. apply IH.
Qed.
Lemma collapse_no_double c s : no_double c (collapse c s) = true.
Proof.
  induction s as [|a [|b s] IH]; [done..|]. cbn [collapse].
  case_decide as Hd; [done|].
  destruct (collapse_cons c b s) as [t Ht]. cbn [collapse] in Ht, IH. rewrite Ht in IH |- *.
  cbn [no_double]. rewrite bool_decide_false by done. exact IH.
Qed.

Lemma replaceAll_absent c r s : str_forallb (λ x, negb (bool_decide (x = c))) s = true →
  replaceAll c r s = s.
Proof.
  induction s as [|a s IH]; [done|]. cbn. rewrite andb_true_iff, negb_true_iff, bool_decide_eq_false.
  intros [? ?]. rewrite decide_False by done. by rewrite IH.
Qed.

(** [split] and [join] are inverse. *)
Lemma str_split_join c s : str_join (String c "") (str_split c s) = s.
Proof.
  induction s as [|a s IH]; [done|]. cbn [str_split].
  assert (str_split c s ≠ []) as Hne by (destruct s as [|b s']; cbn; [done|]; case_decide; [done|];
    by destruct (str_split c s')).
  destruct (str_split c s) as [|p ps] eqn:E; [done|]. case_decide as Hd.
  - subst a. rewrite <- IH. by destruct ps.
  - rewrite <- IH. by destruct ps.
Qed.

(** More on [str_forallb], prefixes and reversal. *)
Lemma drop_prefixes_none fuel prefixes s :
  forallb (λ p, negb (startsWith p s)) prefixes = true → drop_prefixes fuel prefixes s = s.
Proof.
  intros H. destruct fuel as [|fuel]; [done|]. cbn. destruct (List.find _ _) as [p|] eqn:Hf; [|done].
  apply List.find_some in Hf as [Hin Hp]. rewrite forallb_forall in H. specialize (H p Hin). by rewrite Hp in H.
Qed.
Lemma str_rev_app_forallb f s acc :
  str_forallb f s = true → str_forallb f acc = true → str_forallb f (str_rev_app s acc) = true.
Proof.
  revert acc. induction s as [|c s IH]; intros acc; cbn; [done|].
  intros [Hc Hs]%andb_true_iff Ha. apply IH; [done|]. cbn. by rewrite Hc, Ha.
Qed.
Lemma str_rev_app_rev s acc acc' :
  str_rev_app (str_rev_app s acc) acc' = str_rev_app acc (s +:+ acc').
Proof.
  revert acc acc'. induction s as [|c s IH]; intros acc acc'; [done|]. cbn [str_rev_app]. rewrite IH. done.
Qed.
Lemma str_rev_rev s : str_rev (str_rev s) = s.
Proof. unfold str_rev. rewrite str_rev_app_rev. cbn. apply str_app_nil_r. Qed.

(** Splitting at a character that the pieces do not have. *)
Definition str_without (c : ascii) (s : string) : bool := str_forallb (λ x, negb (bool_decide (x = c))) s.
Lemma str_split_clean c s : str_without c s = true → str_split c s = [s].
Proof.
  unfold str_without. induction s as [|d s IH]; [done|]. cbn. intros [Hd Hs]%andb_true_iff.
  destruct (decide (d = c)) as [->|]; [by rewrite bool_decide_true in Hd|]. by rewrite IH.
Qed.
Lemma str_split_app c s t : str_without c s = true → str_split c (s +:+ String c t) = s :: str_split c t.
Proof.
  unfold str_without. induction s as [|d s IH]; cbn [str_forallb].
  { intros _. rewrite str_nil_app. cbn. by rewrite decide_True. }
  intros [Hd Hs]%andb_true_iff. rewrite str_cons_app. cbn.
  destruct (decide (d = c)) as [->|]; [by rewrite bool_decide_true in Hd|]. by rewrite IH.
Qed.
Lemma str_split_join_back c s l : Forall (λ s, str_without c s = true) (s :: l) →
  str_split c (str_join (String c "") (s :: l)) = s :: l.
Proof.
  revert s. induction l as [|s2 l IH]; intros s Hl; apply Forall_cons in Hl as [Hs Hl].
  - by apply str_split_clean.
  - change (str_join (String c "") (s :: s2 :: l)) with (s +:+ String c "" +:+ str_join (String c "") (s2 :: l)).
    rewrite str_cons_app, str_nil_app, str_split_app by done. by rewrite IH.
Qed.
