(* ===== verification/Json.v ===== *)
(** * JSON values and canonical serialization

    The values the program serializes, [JSON.stringify], and the two copies
    of [canonicalize]/[sortKeys] ([seals/src/canonicalize.ts] and
    [verifier/src/canonicalize.ts]) that produce the bytes to sign.  Strings
    are sequences of UTF-8 bytes, so the text and its [TextEncoder] encoding
    coincide; numbers are integers.  Property names are compared bytewise and
    kept in insertion order, which is JavaScript's behaviour for names that
    are ASCII and not array indices, as all names in the program are. *)
From S2P Require Import Prelude.

Inductive json : Type :=
  | JUndef
  | JNull
  | JBool (b : bool)
  | JNum (z : Z)
  | JStr (s : string)
  | JArr (l : list json)
  | JObj (o : list (string * json)).

(** Induction through the nested lists. *)
Section json_rect.
Context (P : json → Prop)
  (Hundef : P JUndef) (Hnull : P JNull) (Hbool : ∀ b, P (JBool b))
  (Hnum : ∀ z, P (JNum z)) (Hstr : ∀ s, P (JStr s))
  (Harr : ∀ l, Forall P l → P (JArr l))
  (Hobj : ∀ o, Forall (λ kv, P kv.2) o → P (JObj o)).
Fixpoint json_nested_ind (v : json) : P v :=
  match v with
  | JUndef => Hundef
  | JNull => Hnull
  | JBool b => Hbool b
  | JNum z => Hnum z
  | JStr s => Hstr s
  | JArr l =>
      Harr l ((fix go l : Forall P l :=
        match l with
        | [] => Forall_nil_2 _
        | v :: l => Forall_cons_2 _ _ _ (json_nested_ind v) (go l)
        end) l)
  | JObj o =>
      Hobj o ((fix go o : Forall (λ kv, P kv.2) o :=
        match o with
        | [] => Forall_nil_2 _
        | (k, v) :: o => Forall_cons_2 (λ kv, P kv.2) (k, v) _ (json_nested_ind v) (go o)
        end) o)
  end.
End json_rect.

(** ** Printing *)
Definition dquote : ascii := ascii_of_nat 34.
Definition backslash : ascii := ascii_of_nat 92.
Definition hex_char (n : nat) : ascii :=
  ascii_of_nat (if n <? 10 then 48 + n else 87 + n)%nat.

(** One character inside a JSON string literal. *)
Definition json_escape (c : ascii) : string :=
  let n := nat_of_ascii c in
  if (n =? 34)%nat then String backslash (String c "")
  else if (n =? 92)%nat then String backslash (String c "")
  else if (n =? 8)%nat then String backslash "b"
  else if (n =? 9)%nat then String backslash "t"
  else if (n =? 10)%nat then String backslash "n"
  else if (n =? 12)%nat then String backslash "f"
  else if (n =? 13)%nat then String backslash "r"
  else if (n <? 32)%nat then
    String backslash ("u00" +:+ String (hex_char (n / 16)) (String (hex_char (n mod 16)) ""))
  else String c "".
Fixpoint json_escapes (s : string) : string :=
  match s with EmptyString => "" | String c s => json_escape c +:+ json_escapes s end.
Definition json_quote (s : string) : string :=
  String dquote (json_escapes s +:+ String dquote "").

Fixpoint print (v : json) : string :=
  match v with
  | JUndef => ""
  | JNull => "null"
  | JBool true => "true"
  | JBool false => "false"
  | JNum z => pretty z
  | JStr s => json_quote s
  | JArr l => String "[" (str_join "," (map print l) +:+ "]")
  | JObj o =>
      String "{" (str_join "," (map (λ kv : string * json,
        match kv with (k, v) => json_quote k +:+ String ":" (print v) end) o) +:+ "}")
  end.

(** [JSON.stringify] drops undefined properties and prints undefined array
    elements as [null]. *)
Definition is_undef (v : json) : bool := match v with JUndef => true | _ => false end.
Fixpoint strip (v : json) : json :=
  match v with
  | JArr l => JArr (map (λ x, match x with JUndef => JNull | _ => strip x end) l)
  | JObj o =>
      JObj (filter (λ kv, is_undef kv.2 = false)
        (map (λ kv : string * json, match kv with (k, v) => (k, strip v) end) o))
  | v => v
  end.

(** ** [sortKeys] and [canonicalize] *)
Definition key_le (a b : string * json) : Prop := String.le a.1 b.1.
#[export] Instance key_le_dec : RelDecision key_le.
Proof. intros a b. unfold key_le. apply _. Defined.

Fixpoint sortKeys (v : json) : json :=
  match v with
  | JArr l => JArr (map sortKeys l)
  | JObj o =>
      JObj (merge_sort key_le
        (map (λ kv : string * json, match kv with (k, v) => (k, sortKeys v) end) o))
  | v => v
  end.

(** [new TextEncoder().encode(JSON.stringify(sortKeys(value)))]; for
    [undefined] the encoder is called without an argument and yields no bytes. *)
Definition canonicalize (v : json) : string :=
  match v with JUndef => "" | _ => print (strip (sortKeys v)) end.

(** ** Reading parsed values *)
(** [v[k]] and [k in v] on a parsed value ([null] is excluded by the callers). *)
Definition jget (k : string) (v : json) : json :=
  match v with JObj o => default JUndef (om_get k o) | _ => JUndef end.
Definition jhas (k : string) (v : json) : bool :=
  match v with JObj o => om_has k o | _ => false end.
Definition nullish (v : json) : bool := match v with JUndef | JNull => true | _ => false end.
(** [v?.k] *)
Definition jopt (k : string) (v : json) : json := if nullish v then JUndef else jget k v.
Definition truthy (v : json) : bool :=
  match v with
  | JUndef | JNull => false
  | JBool b => b
  | JNum z => negb (z =? 0)%Z
  | JStr s => negb (bool_decide (s = ""))
  | JArr _ | JObj _ => true
  end.
Fixpoint toString (v : json) : string :=
  match v with
  | JUndef => "undefined" | JNull => "null"
  | JBool true => "true" | JBool false => "false"
  | JNum z => pretty z | JStr s => s
  | JArr l => str_join "," (map (λ x, match x with JUndef | JNull => "" | _ => toString x end) l)
  | JObj _ => "[object Object]"
  end.

Example canonicalize_ex :
  canonicalize (JObj [("sealId", JStr "seal_1"); ("gone", JUndef); ("a", JArr [JNum 3; JUndef])])
  = String "{" (json_quote "a" +:+ ":[3,null]," +:+ json_quote "sealId" +:+ ":" +:+
      json_quote "seal_1" +:+ "}").
Proof. vm_compute. reflexivity. Qed.

(** ** Unambiguity of the printed form *)
Definition is_numchar (c : ascii) : bool :=
  let n := nat_of_ascii c in (n =? 45)%nat || ((48 <=? n) && (n <=? 57))%nat.
Definition num_free (s : string) : Prop :=
  match s with EmptyString => True | String c _ => is_numchar c = false end.

Lemma pretty_N_char_num n : is_numchar (pretty_N_char n) = true.
Proof. destruct n as [|p]; [done|]. do 4 (destruct p as [p|p|]; try done). Qed.
Lemma pretty_N_go_num x s :
  str_forallb is_numchar s = true → str_forallb is_numchar (pretty_N_go x s) = true.
Proof.
  revert s. induction (N.lt_wf_0 x) as [x _ IH]; intros s Hs.
  destruct (decide (x = 0)%N) as [->|]; [by rewrite pretty_N_go_0|].
  rewrite pretty_N_go_step by lia. apply IH; [apply N.div_lt; lia|].
  cbn. by rewrite pretty_N_char_num.
Qed.
Lemma pretty_N_num (x : N) : str_forallb is_numchar (pretty x) = true.
Proof. unfold pretty, pretty_N. case_decide; [done|]. by apply pretty_N_go_num. Qed.
Lemma pretty_Z_num (z : Z) : str_forallb is_numchar (pretty z) = true.
Proof.
  destruct z; [done|apply (pretty_N_num (N.pos p))|].
  apply (pretty_N_num (N.pos p)).
Qed.
Lemma pretty_N_go_nonempty x c s : pretty_N_go x (String c s) ≠ "".
Proof.
  revert c s. induction (N.lt_wf_0 x) as [x _ IH]; intros c s.
  destruct (decide (x = 0)%N) as [->|]; [by rewrite pretty_N_go_0|].
  rewrite pretty_N_go_step by lia. apply IH, N.div_lt; lia.
Qed.
Lemma pretty_N_nonempty (x : N) : pretty x ≠ "".
Proof.
  unfold pretty, pretty_N. case_decide; [done|].
  rewrite pretty_N_go_step by lia. apply pretty_N_go_nonempty.
Qed.
Lemma pretty_Z_nonempty (z : Z) : ∃ c s, pretty z = String c s ∧ is_numchar c = true.
Proof.
  pose proof (pretty_Z_num z) as Hn. assert (pretty z ≠ "").
  { destruct z as [|p|p]; [done|apply (pretty_N_nonempty (N.pos p))|done]. }
  destruct (pretty z) as [|c s]; [done|].
  exists c, s. cbn in Hn. by apply andb_true_iff in Hn as [??].
Qed.

Lemma numstr_app_inj a b r1 r2 :
  str_forallb is_numchar a = true → str_forallb is_numchar b = true →
  num_free r1 → num_free r2 → a +:+ r1 = b +:+ r2 → a = b ∧ r1 = r2.
Proof.
  revert b. induction a as [|c a IH]; intros [|c' b]; rewrite ?str_cons_app; cbn;
    rewrite ?andb_true_iff; try done.
  - intros _ [Hc _] Hr _ Heq. rewrite str_nil_app in Heq. subst r1. cbn in Hr. congruence.
  - intros [Hc _] _ _ Hr Heq. rewrite str_nil_app in Heq. subst r2. cbn in Hr. congruence.
  - intros [_ Ha] [_ Hb] ?? [= -> Heq]. destruct (IH b) as [-> ->]; auto.
Qed.

(** Escapes can be read back one character at a time. *)
Definition hex_val (c : ascii) : nat :=
  let n := nat_of_ascii c in if (n <=? 57)%nat then n - 48 else n - 87.
Definition json_unescape (s : string) : option (ascii * string) :=
  match s with
  | String c s =>
      if decide (c = backslash) then
        match s with
        | String "b" s => Some (ascii_of_nat 8, s)
        | String "t" s => Some (ascii_of_nat 9, s)
        | String "n" s => Some (ascii_of_nat 10, s)
        | String "f" s => Some (ascii_of_nat 12, s)
        | String "r" s => Some (ascii_of_nat 13, s)
        | String "u" (String _ (String _ (String a (String b s)))) =>
            Some (ascii_of_nat (16 * hex_val a + hex_val b), s)
        | String c s => Some (c, s)
        | EmptyString => None
        end
      else Some (c, s)
  | EmptyString => None
  end.
Lemma json_unescape_escape c r : json_unescape (json_escape c +:+ r) = Some (c, r).
Proof. destruct c as [[] [] [] [] [] [] [] []]; reflexivity. Qed.
Lemma json_escape_head c r s : json_escape c +:+ r ≠ String dquote s.
Proof. destruct c as [[] [] [] [] [] [] [] []]; discriminate. Qed.

Lemma json_escapes_inj s1 s2 r1 r2 :
  json_escapes s1 +:+ String dquote r1 = json_escapes s2 +:+ String dquote r2 →
  s1 = s2 ∧ r1 = r2.
Proof.
  revert s2. induction s1 as [|c s1 IH]; intros [|c' s2]; cbn [json_escapes];
    rewrite ?str_app_assoc, ?str_nil_app; intros Heq.
  - by simplify_eq.
  - by destruct (json_escape_head c' (json_escapes s2 +:+ String dquote r2) r1).
  - by destruct (json_escape_head c (json_escapes s1 +:+ String dquote r1) r2).
  - assert (Some (c, json_escapes s1 +:+ String dquote r1) =
            Some (c', json_escapes s2 +:+ String dquote r2)) as [= -> Heq'].
    { by rewrite <-!json_unescape_escape, Heq. }
    by destruct (IH _ Heq') as [-> ->].
Qed.
Lemma json_quote_inj s1 s2 r1 r2 :
  json_quote s1 +:+ r1 = json_quote s2 +:+ r2 → s1 = s2 ∧ r1 = r2.
Proof.
  unfold json_quote. rewrite !str_cons_app, !str_app_assoc. intros [= Heq].
  by apply json_escapes_inj.
Qed.

(** The separator-joined lists. *)
Definition join_tail (c : ascii) (l : list string) (r : string) : string :=
  match l with [] => String c r | _ => String "," (str_join "," l +:+ String c r) end.
Lemma str_join_cons x l c r :
  str_join "," (x :: l) +:+ String c r = x +:+ join_tail c l r.
Proof. destruct l; [done|]. cbn [str_join]. by rewrite str_app_assoc. Qed.

Lemma join_inj {A} (pr : A → string) (ok : A → Prop) (c : ascii) l1 l2 r1 r2 :
  is_numchar c = false → c ≠ ","%char →
  Forall (λ x, ∀ y s t, ok x → ok y → num_free s → num_free t →
    pr x +:+ s = pr y +:+ t → x = y ∧ s = t) l1 →
  (∀ x s t, ok x → pr x +:+ s ≠ String c t) →
  Forall ok l1 → Forall ok l2 →
  str_join "," (map pr l1) +:+ String c r1 = str_join "," (map pr l2) +:+ String c r2 →
  l1 = l2 ∧ r1 = r2.
Proof.
  intros Hnum Hcomma Hinj Hhead Hok1. revert l2.
  induction Hinj as [|x l1 Hx _ IH]; intros [|y l2] Hok2;
    cbn [map]; rewrite ?str_join_cons; cbn [str_join].
  - rewrite !str_nil_app. by intros [= ->].
  - rewrite str_nil_app. intros Heq. apply Forall_cons in Hok2 as [??].
    by destruct (Hhead y (join_tail c (map pr l2) r2) r1).
  - rewrite str_nil_app. intros Heq. apply Forall_cons in Hok1 as [??].
    by destruct (Hhead x (join_tail c (map pr l1) r1) r2).
  - apply Forall_cons in Hok1 as [Hx1 Hok1], Hok2 as [Hy Hok2]. intros Heq.
    assert (∀ l r, num_free (join_tail c (map pr l) r)) by (by intros [] ?).
    destruct (Hx y _ _ Hx1 Hy ltac:(auto) ltac:(auto) Heq) as [-> Htl].
    unfold join_tail in Htl.
    destruct l1 as [|x1 l1], l2 as [|y2 l2]; cbn [map] in *; simplify_eq.
    + done.
    + destruct (IH Hok1 (y2 :: l2)) as [? ->]; [done|done|]. by simplify_eq.
Qed.

(** A value without [undefined] inside: what [JSON.stringify] prints. *)
Fixpoint clean (v : json) : bool :=
  match v with
  | JUndef => false
  | JArr l => forallb clean l
  | JObj o => forallb (λ kv : string * json, match kv with (_, v) => clean v end) o
  | _ => true
  end.

Lemma forallb_Forall_true {A} (f : A → bool) l :
  forallb f l = true → Forall (λ x, f x = true) l.
Proof. intros H. apply Forall_forall. intros x Hx%list_elem_of_In. revert x Hx. by apply forallb_forall. Qed.

(** The first character tells the kind of the value. *)
Definition kind_char (v : json) (c : ascii) : Prop :=
  match v with
  | JUndef => False
  | JNull => c = "n"%char
  | JBool true => c = "t"%char
  | JBool false => c = "f"%char
  | JNum _ => is_numchar c = true
  | JStr _ => c = dquote
  | JArr _ => c = "["%char
  | JObj _ => c = "{"%char
  end.
Lemma print_head v : clean v = true → ∃ c s, print v = String c s ∧ kind_char v c.
Proof.
  destruct v as [| |[]|z| | |]; intros; try done; try (by eexists _, _).
  apply pretty_Z_nonempty.
Qed.
Lemma print_app_head v r c s :
  clean v = true → print v +:+ r = String c s → kind_char v c.
Proof.
  intros (c' & s' & -> & Hk)%print_head. rewrite str_cons_app. by intros [= <- _].
Qed.
Lemma kind_char_eq c v w :
  kind_char v c → kind_char w c →
  match v, w with
  | JNull, JNull | JNum _, JNum _ | JStr _, JStr _ | JArr _, JArr _ | JObj _, JObj _ => True
  | JBool a, JBool b => a = b
  | _, _ => False
  end.
Proof. destruct v as [| |[]| | | |], w as [| |[]| | | |]; cbn; intros; by simplify_eq. Qed.

Definition print_entry (kv : string * json) : string :=
  match kv with (k, v) => json_quote k +:+ String ":" (print v) end.
Definition entry_clean (kv : string * json) : bool := match kv with (_, v) => clean v end.
Lemma print_entry_app k v s :
  print_entry (k, v) +:+ s = json_quote k +:+ String ":" (print v +:+ s).
Proof. unfold print_entry. by rewrite str_app_assoc, str_cons_app. Qed.

Lemma print_inj v w r s :
  clean v = true → clean w = true → num_free r → num_free s →
  print v +:+ r = print w +:+ s → v = w ∧ r = s.
Proof.
  revert w r s. induction v as [| |b|z|t|l IH|o IH] using json_nested_ind;
    intros w r s Hv Hw Hr Hs Heq; [done|..].
  all: destruct (print_head _ Hv) as (c & t1 & Hp & Hk);
    assert (kind_char w c) as Hk'
      by (eapply (print_app_head _ s); [done|rewrite <-Heq, Hp; apply str_cons_app]);
    pose proof (kind_char_eq _ _ _ Hk Hk') as HK; destruct w as [| |b'|z'|t'|l'|o']; try done.
  - split; [done|]. by apply str_app_inj_l in Heq.
  - subst b'. split; [done|]. by apply str_app_inj_l in Heq.
  - cbn in Heq. apply numstr_app_inj in Heq as [Hz ->]; auto using pretty_Z_num.
    by apply (inj pretty) in Hz as ->.
  - by apply json_quote_inj in Heq as [-> ->].
  - cbn [print] in Heq. rewrite !str_cons_app, !str_app_assoc in Heq. simplify_eq.
    destruct (join_inj print (λ x, clean x = true) "]"%char l l' r s) as [-> ->]; try done.
    + intros x u u' Hx Hxe. eapply print_app_head in Hxe; [|done].
      by destruct x as [| |[]| | | |].
    + by apply forallb_Forall_true.
    + by apply forallb_Forall_true.
  - cbn [print] in Heq. rewrite !str_cons_app, !str_app_assoc in Heq. simplify_eq.
    destruct (join_inj print_entry (λ x, entry_clean x = true) "}"%char o o' r s)
      as [-> ->]; try done.
    + refine (Forall_impl _ _ _ IH _). intros [k x] Hx [k' y] u u' Hx1 Hy1 Hu Hu' He.
      rewrite !print_entry_app in He. apply json_quote_inj in He as [-> He]. simplify_eq.
      by destruct (Hx y u u') as [[= ->] ->].
    + intros [k x] u u' _ He. rewrite print_entry_app in He. done.
    + by apply forallb_Forall_true.
    + by apply forallb_Forall_true.
Qed.

Lemma strip_clean v : v ≠ JUndef → clean (strip v) = true.
Proof.
  induction v as [| |b|z|t|l IH|o IH] using json_nested_ind; intros Hv; try done; cbn.
  - apply forallb_forall. intros x (y & <- & Hy)%in_map_iff.
    rewrite Forall_forall in IH. apply list_elem_of_In in Hy. specialize (IH _ Hy).
    destruct y; auto; apply IH; done.
  - apply forallb_forall. intros [k x] Hx. apply list_elem_of_In, list_elem_of_filter in Hx as [Hu Hx].
    apply list_elem_of_In, in_map_iff in Hx as ([k' y] & [= -> <-] & Hy).
    rewrite Forall_forall in IH. apply list_elem_of_In in Hy. apply (IH _ Hy).
    intros E. cbn in E. by subst y.
Qed.

(** Two values have the same canonical bytes exactly when they print the same
    tree once keys are sorted and [undefined] is dropped. *)
Lemma canonicalize_strip v w :
  v ≠ JUndef → w ≠ JUndef →
  canonicalize v = canonicalize w ↔ strip (sortKeys v) = strip (sortKeys w).
Proof.
  assert (∀ u, u ≠ JUndef →
    canonicalize u = print (strip (sortKeys u)) ∧ clean (strip (sortKeys u)) = true) as Hc.
  { intros u Hu. split; [by destruct u|]. apply strip_clean. by destruct u. }
  intros [-> Hv]%Hc [-> Hw]%Hc. split; [|by intros ->]. intros Heq.
  apply (print_inj _ _ "" "" Hv Hw); [done..|]. by rewrite !str_app_nil_r.
Qed.

(** ** Equality up to the order of properties *)
Inductive json_equiv : json → json → Prop :=
  | je_undef : json_equiv JUndef JUndef
  | je_null : json_equiv JNull JNull
  | je_bool b : json_equiv (JBool b) (JBool b)
  | je_num z : json_equiv (JNum z) (JNum z)
  | je_str s : json_equiv (JStr s) (JStr s)
  | je_arr l l' : Forall2 json_equiv l l' → json_equiv (JArr l) (JArr l')
  | je_obj o o1 o' :
      Forall2 (λ a b, a.1 = b.1 ∧ json_equiv a.2 b.2) o o1 → o1 ≡ₚ o' →
      json_equiv (JObj o) (JObj o').

(** A JavaScript object has one value per property. *)
Fixpoint json_wf (v : json) : bool :=
  match v with
  | JArr l => forallb json_wf l
  | JObj o => bool_decide (NoDup (map fst o)) &&
      forallb (λ kv : string * json, match kv with (_, v) => json_wf v end) o
  | _ => true
  end.

Definition sort_entry (kv : string * json) : string * json :=
  match kv with (k, v) => (k, sortKeys v) end.
Definition strip_entry (kv : string * json) : string * json :=
  match kv with (k, v) => (k, strip v) end.
Definition entry_wf (kv : string * json) : bool := match kv with (_, v) => json_wf v end.
Definition strip_elem (x : json) : json := match x with JUndef => JNull | _ => strip x end.

Lemma sort_entry_keys o : map fst (map sort_entry o) = map fst o.
Proof. induction o as [|[k v] o IH]; [done|]. cbn. by rewrite IH. Qed.
Lemma strip_entry_keys o : map fst (map strip_entry o) = map fst o.
Proof. induction o as [|[k v] o IH]; [done|]. cbn. by rewrite IH. Qed.

#[export] Instance key_le_trans : Transitive key_le.
Proof. intros a b c. unfold key_le. apply transitivity. Qed.
#[export] Instance key_le_total : Total key_le.
Proof. intros a b. apply String.le_total. Qed.

(** Sorting by unique keys depends only on the set of entries. *)
Lemma key_unique (o : list (string * json)) a b :
  NoDup (map fst o) → a ∈ o → b ∈ o → a.1 = b.1 → a = b.
Proof.
  destruct a as [k x], b as [k' y]. cbn. intros Hnd Ha Hb ->.
  apply (om_get_NoDup _ _ _ Hnd) in Ha, Hb. congruence.
Qed.
Lemma sorted_keys_unique (l o : list (string * json)) :
  NoDup (map fst o) → StronglySorted key_le l → l ≡ₚ o → l = merge_sort key_le o.
Proof.
  intros Hnd Hl Hp. apply (StronglySorted_unique_strong key_le); [|done| |].
  - intros a b Ha Hb Hab Hba. rewrite Hp in Ha. rewrite merge_sort_Permutation in Hb.
    apply (key_unique o); [done..|]. by apply (anti_symm String.le).
  - apply StronglySorted_merge_sort; apply _.
  - by rewrite merge_sort_Permutation.
Qed.
Lemma merge_sort_keys_perm (o o' : list (string * json)) :
  NoDup (map fst o) → o' ≡ₚ o → merge_sort key_le o' = merge_sort key_le o.
Proof.
  intros Hnd Hp. apply sorted_keys_unique; [done|apply StronglySorted_merge_sort; apply _|].
  by rewrite merge_sort_Permutation.
Qed.

Lemma Forall2_map_eq {A B} (f : A → B) l l' :
  Forall2 (λ x y, f x = f y) l l' ↔ map f l = map f l'.
Proof.
  split; [induction 1; cbn; congruence|].
  revert l'. induction l; intros [|? ?]; cbn; intros; simplify_eq; auto.
Qed.
Lemma Forall2_Forall_impl {A B} (P : A → Prop) (Q R : A → B → Prop) l l' :
  Forall P l → Forall2 Q l l' → (∀ x y, P x → Q x y → R x y) → Forall2 R l l'.
Proof. intros HP HQ HR. induction HQ; inversion HP; subst; auto. Qed.
Lemma Forall_and_true {A} (P : A → Prop) (f : A → bool) l :
  Forall P l → forallb f l = true → Forall (λ x, P x ∧ f x = true) l.
Proof. intros ? ?%forallb_Forall_true. by apply Forall_and. Qed.

Lemma sortKeys_equiv v w : json_wf v = true → sortKeys v = sortKeys w ↔ json_equiv v w.
Proof.
  revert w. induction v as [| |b|z|t|l IH|o IH] using json_nested_ind; intros w Hwf.
  1-5: destruct w; cbn; split; intros H; try inversion H; subst; try constructor; done.
  - cbn in Hwf. pose proof (Forall_and_true _ _ _ IH Hwf) as HF. split.
    + destruct w as [| | | | |l'|]; cbn; intros H; simplify_eq. constructor.
      apply Forall2_map_eq in H. eapply Forall2_Forall_impl; [apply HF|apply H|].
      intros x y [Hx ?]. by apply Hx.
    + inversion 1; subst. cbn. f_equal. apply Forall2_map_eq.
      eapply Forall2_Forall_impl; [apply HF|done|]. intros x y [Hx ?]. by apply Hx.
  - cbn in Hwf. apply andb_true_iff in Hwf as [Hnd%bool_decide_eq_true Hwf].
    pose proof (Forall_and_true _ _ _ IH Hwf) as HF. change (sortKeys (JObj o)) with
      (JObj (merge_sort key_le (map sort_entry o))).
    rewrite <-sort_entry_keys in Hnd. split.
    + destruct w as [| | | | | |o']; cbn; intros H; simplify_eq.
      assert (map sort_entry o ≡ₚ map sort_entry o') as Hp.
      { rewrite <-(merge_sort_Permutation key_le (map sort_entry o)), H.
        by rewrite merge_sort_Permutation. }
      apply Permutation_map_inv in Hp as (o1 & Ho1 & Hp). apply (je_obj _ o1); [|done].
      apply Forall2_map_eq in Ho1. eapply Forall2_Forall_impl; [apply HF|apply Ho1|].
      intros [k x] [k' y] [Hx ?]. cbn. intros [= -> Hxy]. by apply Hx in Hxy.
    + inversion 1 as [| | | | | |? o1 o' Ho1 Hp]; subst. cbn. f_equal.
      assert (map sort_entry o = map sort_entry o1) as Heq.
      { apply Forall2_map_eq. eapply Forall2_Forall_impl; [apply HF|apply Ho1|].
        intros [k x] [k' y] [Hx ?]. cbn in *. intros [-> Hxy]. apply Hx in Hxy; [|done].
        by rewrite Hxy. }
      symmetry. apply merge_sort_keys_perm; [done|].
      rewrite Heq. by apply Permutation_map.
Qed.

(** Dropping [undefined] and sorting commute. *)
Definition entry_kept (kv : string * json) : Prop := is_undef kv.2 = false.
#[export] Instance entry_kept_dec kv : Decision (entry_kept kv).
Proof. unfold entry_kept. apply _. Defined.

Lemma strip_undef v : is_undef (strip v) = is_undef v.
Proof. by destruct v. Qed.
Lemma sortKeys_undef v : is_undef (sortKeys v) = is_undef v.
Proof. by destruct v. Qed.
Lemma StronglySorted_filter {A} (R : relation A) (P : A → Prop) `{∀ x, Decision (P x)} l :
  StronglySorted R l → StronglySorted R (filter P l).
Proof.
  induction 1 as [|x l Hl IH Hx]; [constructor|]. rewrite filter_cons. case_decide; [|done].
  constructor; [done|]. rewrite Forall_forall in *.
  intros y [_ Hy]%list_elem_of_filter. auto.
Qed.
Lemma StronglySorted_keys (f : string * json → string * json) l :
  (∀ a, (f a).1 = a.1) → StronglySorted key_le l → StronglySorted key_le (map f l).
Proof.
  intros Hf. induction 1 as [|x l Hl IH Hx]; constructor; [done|].
  apply Forall_map. eapply Forall_impl; [done|]. intros y. unfold key_le. cbn. by rewrite !Hf.
Qed.

Lemma sortKeys_strip v : json_wf v = true → strip (sortKeys v) = sortKeys (strip v).
Proof.
  induction v as [| |b|z|t|l IH|o IH] using json_nested_ind; intros Hwf; try done.
  - cbn in Hwf |- *. f_equal. rewrite !map_map. apply map_ext_in.
    pose proof (Forall_and_true _ _ _ IH Hwf) as HF. rewrite Forall_forall in HF.
    intros x Hx%list_elem_of_In. destruct (HF _ Hx) as [Hs Hw]. by destruct x; auto.
  - cbn in Hwf. apply andb_true_iff in Hwf as [Hnd%bool_decide_eq_true Hwf].
    pose proof (Forall_and_true _ _ _ IH Hwf) as HF. rewrite Forall_forall in HF.
    change (JObj (filter entry_kept (map strip_entry (merge_sort key_le (map sort_entry o))))
      = JObj (merge_sort key_le (map sort_entry (filter entry_kept (map strip_entry o))))).
    f_equal. apply sorted_keys_unique.
    + rewrite sort_entry_keys. apply (sublist_NoDup _ (map fst (map strip_entry o))).
      * by rewrite strip_entry_keys.
      * apply fmap_sublist, sublist_filter.
    + apply StronglySorted_filter, StronglySorted_keys; [by intros []|].
      apply StronglySorted_merge_sort; apply _.
    + rewrite merge_sort_Permutation. clear Hnd Hwf IH.
      induction o as [|[k x] o IHo]; [done|]. cbn [map sort_entry strip_entry].
      destruct (HF (k, x)) as [Hs Hw]; [left|]. cbn [snd entry_wf] in Hs, Hw.
      assert (map sort_entry (filter entry_kept (map strip_entry o)) ≡ₚ
        filter entry_kept (map strip_entry (map sort_entry o))) as IH'.
      { symmetry. apply IHo; intros; apply HF; by right. }
      rewrite !filter_cons. destruct (is_undef x) eqn:Hu.
      * rewrite !decide_False; [by rewrite IH'|..];
          unfold entry_kept; cbn; by rewrite ?strip_undef, ?sortKeys_undef, Hu.
      * rewrite !decide_True; [cbn [map sort_entry]; by rewrite IH', (Hs Hw)|..];
          unfold entry_kept; cbn; by rewrite ?strip_undef, ?sortKeys_undef, Hu.
Qed.

Lemma strip_wf v : json_wf v = true → json_wf (strip v) = true.
Proof.
  induction v as [| |b|z|t|l IH|o IH] using json_nested_ind; intros Hwf; try done; cbn in *.
  - pose proof (Forall_and_true _ _ _ IH Hwf) as HF. rewrite Forall_forall in HF.
    apply forallb_forall. intros y (x & <- & Hx)%in_map_iff. apply list_elem_of_In in Hx.
    destruct (HF _ Hx) as [Hs Hw]. by destruct x; auto.
  - apply andb_true_iff in Hwf as [Hnd%bool_decide_eq_true Hwf].
    pose proof (Forall_and_true _ _ _ IH Hwf) as HF. rewrite Forall_forall in HF.
    apply andb_true_iff. split.
    + apply bool_decide_eq_true.
      apply (sublist_NoDup _ (map fst (map strip_entry o))); [by rewrite strip_entry_keys|].
      apply fmap_sublist, sublist_filter.
    + apply forallb_forall. intros [k x] Hx%list_elem_of_In.
      apply list_elem_of_filter in Hx as [_ Hx].
      apply list_elem_of_In, in_map_iff in Hx as ([k' y] & [= -> <-] & Hy).
      apply list_elem_of_In in Hy. destruct (HF _ Hy) as [Hs Hw]. by apply Hs.
Qed.

(** ** Reading fields back through canonicalization

    [json_same v w]: the two values print to the same canonical tree. *)
Definition json_same (v w : json) : Prop := json_equiv (strip v) (strip w).

Lemma om_get_perm {A} k (o o' : list (string * A)) :
  NoDup (map fst o) → o ≡ₚ o' → om_get k o = om_get k o'.
Proof.
  intros Hnd Hp. assert (NoDup (map fst o')) as Hnd' by (by rewrite <-Hp).
  apply option_eq. intros v. split; intros Hv%om_get_elem; apply om_get_NoDup; try done.
  - by rewrite <-Hp.
  - by rewrite Hp.
Qed.
Lemma json_equiv_get o o' k :
  NoDup (map fst o) → json_equiv (JObj o) (JObj o') →
  option_Forall2 json_equiv (om_get k o) (om_get k o').
Proof.
  intros Hnd. inversion 1 as [| | | | | |? o1 ? Hf Hp]; subst.
  assert (map fst o = map fst o1) as Hk.
  { clear -Hf. induction Hf as [|[k x] [k' y] ? ? [? _]]; [done|]. cbn in *. congruence. }
  rewrite <-(om_get_perm k o1 o') by (by rewrite <-?Hk).
  clear -Hf. induction Hf as [|[k1 x] [k2 y] ? ? [Hk ?]]; cbn in *; [constructor|].
  subst. case_decide; [by constructor|done].
Qed.
Lemma strip_get o k :
  NoDup (map fst o) →
  om_get k (filter entry_kept (map strip_entry o)) =
  match om_get k o with
  | Some v => if is_undef v then None else Some (strip v)
  | None => None
  end.
Proof.
  induction o as [|[k' v] o IH]; [done|]. cbn [map fst strip_entry om_get].
  rewrite NoDup_cons. intros [Hk Hnd]. rewrite filter_cons.
  destruct (is_undef v) eqn:Hu.
  - rewrite decide_False by (unfold entry_kept; cbn [snd]; by rewrite strip_undef, Hu).
    rewrite IH by done. case_decide; [subst|done].
    assert (om_get k' o = None) as ->; [by apply om_get_None|by rewrite Hu].
  - rewrite decide_True by (unfold entry_kept; cbn [snd]; by rewrite strip_undef, Hu).
    cbn [om_get]. case_decide; [by rewrite Hu|]. by apply IH.
Qed.
(** Equal canonical trees have equal fields, absent and [undefined] alike. *)
Lemma json_same_field o o' k :
  NoDup (map fst o) → NoDup (map fst o') → json_same (JObj o) (JObj o') →
  json_same (default JUndef (om_get k o)) (default JUndef (om_get k o')).
Proof.
  intros Hnd Hnd' Hs. unfold json_same in *.
  change (json_equiv (JObj (filter entry_kept (map strip_entry o)))
                     (JObj (filter entry_kept (map strip_entry o')))) in Hs.
  apply (json_equiv_get _ _ k) in Hs.
  2: { apply (sublist_NoDup _ (map fst (map strip_entry o))); [by rewrite strip_entry_keys|].
       apply fmap_sublist, sublist_filter. }
  rewrite !strip_get in Hs by done.
  destruct (om_get k o) as [v|], (om_get k o') as [w|]; cbn in *.
  - destruct v, w; cbn in *; inversion Hs; subst; auto using je_undef.
  - destruct v; cbn in *; inversion Hs; auto using je_undef.
  - destruct w; cbn in *; inversion Hs; auto using je_undef.
  - constructor.
Qed.
Lemma json_same_str a b : json_same (JStr a) (JStr b) → a = b.
Proof. by inversion 1. Qed.
Lemma json_same_strs a b : json_same (JArr (map JStr a)) (JArr (map JStr b)) → a = b.
Proof.
  inversion 1 as [| | | | |? ? Hf|]; subst. clear H. revert b Hf.
  induction a as [|x a IH]; intros [|y b] Hf; cbn in Hf; inversion Hf as [|? ? ? ? Hx Hr]; subst;
    [done|].
  inversion Hx; subst. f_equal. by apply IH.
Qed.
Definition opt_json {A} (f : A → json) (o : option A) : json :=
  match o with Some a => f a | None => JUndef end.
Lemma json_same_opt {A} (f : A → json) a b :
  (∀ x, is_undef (f x) = false) → (∀ x y, json_same (f x) (f y) → x = y) →
  json_same (opt_json f a) (opt_json f b) → a = b.
Proof.
  intros Hu Hf. destruct a as [x|], b as [y|]; cbn; intros Hs; try done.
  - f_equal. by apply Hf.
  - specialize (Hu x). unfold json_same in Hs. destruct (f x); cbn in Hs; inversion Hs; done.
  - specialize (Hu y). unfold json_same in Hs. destruct (f y); cbn in Hs; inversion Hs; done.
Qed.

Lemma canonicalize_same v w :
  json_wf v = true → json_wf w = true → v ≠ JUndef → w ≠ JUndef →
  canonicalize v = canonicalize w ↔ json_same v w.
Proof.
  intros Hv Hw Hv' Hw'. rewrite canonicalize_strip by done. rewrite !sortKeys_strip by done.
  apply sortKeys_equiv. by apply strip_wf.
Qed.

(** C35: canonicalization is sound and complete for signing: two JavaScript
    values (one value per property name) have the same canonical bytes if and
    only if, once [undefined] members are dropped, they are the same tree up to
    the order of object properties at every depth.  So neither a reordering of
    a payload's properties invalidates a signature, nor do two different
    payloads share their signed bytes. *)
Theorem canonicalize_iff v w :
  json_wf v = true → json_wf w = true → v ≠ JUndef → w ≠ JUndef →
  canonicalize v = canonicalize w ↔ json_equiv (strip v) (strip w).
Proof. apply canonicalize_same. Qed.
Lemma canonicalize_iff_witness :
  canonicalize (JObj [("b", JNum 1); ("a", JUndef)]) = canonicalize (JObj [("b", JNum 1)]) ↔
  json_equiv (strip (JObj [("b", JNum 1); ("a", JUndef)])) (strip (JObj [("b", JNum 1)])).
Proof. apply canonicalize_iff; [vm_compute; reflexivity..|discriminate|discriminate]. Defined.
