(* ===== verification/Errors.v ===== *)
(** * The error taxonomy

    [schemas/src/errors/*.ts]: the ten error classes, their codes and
    categories, the transport metadata of a category, and the [create]
    factories with the messages and contexts they build. *)
From S2P Require Import Prelude Json.

Inductive ErrorCategory :=
  | validation | not_found | permission | auth | internal | timeout | cancelled | network.
#[export] Instance ErrorCategory_eq_dec : EqDecision ErrorCategory.
Proof. solve_decision. Defined.
Definition ErrorCategory_values : list ErrorCategory :=
  [validation; not_found; permission; auth; internal; timeout; cancelled; network].

Record ErrorCategoryMeta := {
  exitCode : Z; statusCode : Z; jsonRpcCode : Z; retryable : bool
}.

Definition ERROR_CATEGORY_META (c : ErrorCategory) : ErrorCategoryMeta :=
  let meta x s j r := {| exitCode := x; statusCode := s; jsonRpcCode := j; retryable := r |} in
  match c with
  | validation => meta 1%Z 400%Z (-32602)%Z false
  | not_found => meta 2%Z 404%Z (-32007)%Z false
  | permission => meta 4%Z 403%Z (-32003)%Z false
  | auth => meta 9%Z 401%Z (-32000)%Z false
  | internal => meta 8%Z 500%Z (-32603)%Z false
  | timeout => meta 5%Z 504%Z (-32001)%Z true
  | cancelled => meta 130%Z 499%Z (-32006)%Z false
  | network => meta 6%Z 503%Z (-32002)%Z true
  end.
Definition errorCategoryMeta (category : ErrorCategory) : ErrorCategoryMeta :=
  ERROR_CATEGORY_META category.

(** The classes, by their [_tag]. *)
Inductive ErrorTag :=
  | ValidationError | NotFoundError | PermissionError | AuthError
  | CredentialExpiredError | InternalError | TimeoutError | CancelledError
  | SealError | NetworkError.
#[export] Instance ErrorTag_eq_dec : EqDecision ErrorTag.
Proof. solve_decision. Defined.

Definition tag_code (t : ErrorTag) : Z :=
  match t with
  | ValidationError => 1000 | SealError => 1010 | NotFoundError => 1100
  | PermissionError => 1200 | AuthError => 1300 | CredentialExpiredError => 1310
  | InternalError => 1400 | TimeoutError => 1500 | CancelledError => 1600
  | NetworkError => 1700
  end%Z.
Definition tag_category (t : ErrorTag) : ErrorCategory :=
  match t with
  | ValidationError | SealError => validation
  | NotFoundError => not_found
  | PermissionError => permission
  | AuthError | CredentialExpiredError => auth
  | InternalError => internal
  | TimeoutError => timeout
  | CancelledError => cancelled
  | NetworkError => network
  end.

(** [Record<string, unknown>] *)
Abbreviation context := (omap string json).

Record SignetError := mkErr {
  _tag : ErrorTag; message : string; err_context : option context
}.
Definition code (e : SignetError) : Z := tag_code (_tag e).
Definition category (e : SignetError) : ErrorCategory := tag_category (_tag e).
#[export] Instance json_eq_dec : EqDecision json.
Proof.
  refine (fix go (x y : json) {struct x} : Decision (x = y) :=
    match x, y with
    | JUndef, JUndef | JNull, JNull => left eq_refl
    | JBool a, JBool b => cast_if (decide (a = b))
    | JNum a, JNum b => cast_if (decide (a = b))
    | JStr a, JStr b => cast_if (decide (a = b))
    | JArr a, JArr b => cast_if (decide (a = b))
    | JObj a, JObj b => cast_if (decide (a = b))
    | _, _ => right _
    end); try (abstract congruence).
  - clear -go. revert b. induction a as [|x a IH]; intros [|y b]; try (right; abstract congruence).
    + by left.
    + destruct (go x y); [destruct (IH b)|]; [left|right|right]; abstract congruence.
  - clear -go. revert b. induction a as [|[k x] a IH]; intros [|[k' y] b];
      try (right; abstract congruence).
    + by left.
    + destruct (decide (k = k')); [destruct (go x y); [destruct (IH b)|]|];
        [left|right|right|right]; abstract congruence.
Defined.
#[export] Instance SignetError_eq_dec : EqDecision SignetError.
Proof. solve_decision. Defined.

(** Object spread [{...base, ...extra}]. *)
Definition spread (base : context) (extra : option context) : context :=
  match extra with
  | None => base
  | Some l => foldl (λ m kv, om_set kv.1 kv.2 m) base l
  end.

(** [matchError]: one handler per tag. *)
Definition matchError {T} (error : SignetError) (handlers : ErrorTag → SignetError → T) : T :=
  handlers (_tag error) error.

Definition q (s : string) : string := "'" +:+ s +:+ "'".

Definition ValidationError_create (field reason : string) (extra : option context) : SignetError :=
  mkErr ValidationError ("Validation failed on " +:+ q field +:+ ": " +:+ reason)
    (Some (spread [("field", JStr field); ("reason", JStr reason)] extra)).
Definition SealError_create (sealId reason : string) : SignetError :=
  mkErr SealError ("Seal " +:+ q sealId +:+ ": " +:+ reason)
    (Some [("sealId", JStr sealId); ("reason", JStr reason)]).
Definition NotFoundError_create (resourceType resourceId : string) : SignetError :=
  mkErr NotFoundError (resourceType +:+ " " +:+ q resourceId +:+ " not found")
    (Some [("resourceType", JStr resourceType); ("resourceId", JStr resourceId)]).
Definition PermissionError_create (msg : string) (ctx : option context) : SignetError :=
  mkErr PermissionError msg ctx.
Definition AuthError_create (msg : string) (ctx : option context) : SignetError :=
  mkErr AuthError msg ctx.
Definition CredentialExpiredError_create (credentialId : string) : SignetError :=
  mkErr CredentialExpiredError ("Credential " +:+ q credentialId +:+ " has expired")
    (Some [("credentialId", JStr credentialId)]).
Definition InternalError_create (msg : string) (ctx : option context) : SignetError :=
  mkErr InternalError msg ctx.
Definition TimeoutError_create (operation : string) (timeoutMs : Z) : SignetError :=
  mkErr TimeoutError
    ("Operation " +:+ q operation +:+ " timed out after " +:+ pretty timeoutMs +:+ "ms")
    (Some [("operation", JStr operation); ("timeoutMs", JNum timeoutMs)]).
Definition CancelledError_create (msg : string) : SignetError := mkErr CancelledError msg None.
Definition NetworkError_create (endpoint reason : string) (extra : option context) : SignetError :=
  mkErr NetworkError ("Network error reaching " +:+ q endpoint +:+ ": " +:+ reason)
    (Some (spread [("endpoint", JStr endpoint)] extra)).

(** ** Properties *)
Lemma ErrorCategory_values_full c : c ∈ ErrorCategory_values.
Proof. destruct c; set_solver. Qed.

Lemma spread_get base extra k v :
  NoDup extra.*1 → om_get k extra = Some v → om_get k (spread base (Some extra)) = Some v.
Proof.
  cbn. revert base. induction extra as [|[k' v'] extra IH]; intros base; [done|]. cbn.
  rewrite NoDup_cons. intros [Hk Hnd]. case_decide as Hd; [|by apply IH].
  intros [= <-]. subst k'. clear IH Hnd.
  assert (∀ m, om_get k m = Some v' →
    om_get k (foldl (λ m kv, om_set kv.1 kv.2 m) m extra) = Some v') as H.
  { induction extra as [|[k2 v2] extra IH]; intros m Hm; [done|]. cbn. apply IH.
    - set_solver.
    - cbn in Hk. rewrite om_get_set, decide_False by set_solver. done. }
  apply H. apply om_get_set_eq.
Qed.

(** the transport mapping is unambiguous: exit codes, HTTP statuses and
    JSON-RPC codes each determine the category of an error (so a client can
    recover it), no category maps to success, and exactly the timeout and
    network errors are retryable. *)
Theorem error_mapping_injective (e1 e2 : SignetError) :
  let m1 := errorCategoryMeta (category e1) in
  let m2 := errorCategoryMeta (category e2) in
  (exitCode m1 = exitCode m2 ↔ category e1 = category e2) ∧
  (statusCode m1 = statusCode m2 ↔ category e1 = category e2) ∧
  (jsonRpcCode m1 = jsonRpcCode m2 ↔ category e1 = category e2) ∧
  (code e1 = code e2 ↔ _tag e1 = _tag e2) ∧
  (0 < exitCode m1 < 256)%Z ∧ (400 ≤ statusCode m1 < 600)%Z ∧
  (retryable m1 = true ↔ _tag e1 = TimeoutError ∨ _tag e1 = NetworkError).
Proof.
  destruct e1 as [[] ? ?], e2 as [[] ? ?]; vm_compute; intuition discriminate.
Qed.
