(* ===== verification/Contracts.v ===== *)
(** * Action contracts

    [contracts/src/action-spec.ts], [action-derive.ts], [action-validate.ts],
    [action-registry.ts] and [action-surface-map.ts]: the declarations of the
    actions, the routes, names and annotations each transport derives from
    them, the registry that every transport reads, and the fingerprint of the
    public surface; also the handler contexts and result envelopes of
    [handler-types.ts] and [result-envelope.ts].

    The handler of an action and its input schema are an opaque value of type
    [H]: nothing here looks at them.  [auth] is declared as always present but
    read as possibly absent ([Partial<HttpSurface>]), so it is an option. *)
From S2P Require Import Prelude Text Json Errors.

Inductive ActionSurface := as_cli | as_mcp | as_http.
Inductive ActionIntent := ai_read | ai_write | ai_destroy.
Inductive HttpMethod := hm_GET | hm_POST | hm_DELETE.
Inductive HttpAuth := ha_admin | ha_credential.
Inductive HttpInputSource := is_query | is_body.
Inductive OutputFormat := of_table | of_json | of_text.
#[export] Instance ActionSurface_eq_dec : EqDecision ActionSurface.
Proof. solve_decision. Defined.
#[export] Instance ActionIntent_eq_dec : EqDecision ActionIntent.
Proof. solve_decision. Defined.
#[export] Instance HttpMethod_eq_dec : EqDecision HttpMethod.
Proof. solve_decision. Defined.

Definition ACTION_SURFACES : list ActionSurface := [as_cli; as_mcp; as_http].
Definition surface_name (s : ActionSurface) : string :=
  match s with as_cli => "cli" | as_mcp => "mcp" | as_http => "http" end.
Definition intent_name (i : ActionIntent) : string :=
  match i with ai_read => "read" | ai_write => "write" | ai_destroy => "destroy" end.
Definition method_name (m : HttpMethod) : string :=
  match m with hm_GET => "GET" | hm_POST => "POST" | hm_DELETE => "DELETE" end.
Definition auth_name (a : HttpAuth) : string :=
  match a with ha_admin => "admin" | ha_credential => "credential" end.
Definition source_name (s : HttpInputSource) : string :=
  match s with is_query => "query" | is_body => "body" end.
Definition format_name (f : OutputFormat) : string :=
  match f with of_table => "table" | of_json => "json" | of_text => "text" end.

Record CliOption := mkCliOption {
  co_flag : string; co_description : string; co_field : string; co_required : option bool
}.
Record CliSurface := mkCli {
  cli_command : option string; cli_aliases : option (list string);
  cli_options : option (list CliOption); cli_outputFormat : option OutputFormat;
  cli_group : option string
}.
Record McpSurface := mkMcp {
  mcp_toolName : option string; mcp_annotations : option context
}.
Record HttpSurface := mkHttp {
  http_path : option string; http_method : option HttpMethod;
  http_auth : option HttpAuth; http_expose : option bool
}.
Record ActionExample := mkExample {
  ex_name : string; ex_input : json; ex_expected : option json; ex_error : option string
}.

(** ** Handler contexts and result envelopes
    ([handler-types.ts], [result-envelope.ts]) *)
Record AdminReadElevation := mkElevation {
  ae_approvalId : string; ae_chatIds : list string; ae_approvedAt : string;
  ae_expiresAt : string; ae_approvalKeyFingerprint : string
}.
#[export] Instance AdminReadElevation_eq_dec : EqDecision AdminReadElevation.
Proof. solve_decision. Defined.
Record HandlerContext := mkContext {
  hx_signetId : string; hx_requestId : string; hx_adminAuth : option string;
  hx_operatorId : option string; hx_credentialId : option string;
  hx_adminReadElevation : option AdminReadElevation
}.
(** What a handler's promise settles to. *)
Inductive HandlerAnswer := Returned (r : result SignetError json) | Threw (text : string).

Record ActionResultMeta := mkMeta { am_requestId : string; am_timestamp : string; am_durationMs : Z }.
Inductive ActionResult :=
  | ar_ok (data : json) (meta : ActionResultMeta) (pagination : option json)
  | ar_err (error : SignetError) (meta : ActionResultMeta).
Definition toActionResult (r : result SignetError json) (meta : ActionResultMeta)
  (pagination : option json) : ActionResult :=
  match r with
  | Ok data => ar_ok data meta pagination
  | Err e => ar_err e meta
  end.
Definition ar_isOk (r : ActionResult) : bool := match r with ar_ok _ _ _ => true | _ => false end.
Definition tag_name (t : ErrorTag) : string :=
  match t with
  | ValidationError => "ValidationError" | NotFoundError => "NotFoundError"
  | PermissionError => "PermissionError" | AuthError => "AuthError"
  | CredentialExpiredError => "CredentialExpiredError" | InternalError => "InternalError"
  | TimeoutError => "TimeoutError" | CancelledError => "CancelledError"
  | SealError => "SealError" | NetworkError => "NetworkError"
  end.
Definition category_name (c : ErrorCategory) : string :=
  match c with
  | validation => "validation" | not_found => "not_found" | permission => "permission"
  | auth => "auth" | internal => "internal" | timeout => "timeout" | cancelled => "cancelled"
  | network => "network"
  end.
Definition error_json (e : SignetError) : json :=
  JObj [("_tag", JStr (tag_name (_tag e))); ("category", JStr (category_name (category e)));
        ("message", JStr (message e));
        ("context", match err_context e with Some c => JObj c | None => JNull end)].
Definition meta_json (m : ActionResultMeta) : json :=
  JObj [("requestId", JStr (am_requestId m)); ("timestamp", JStr (am_timestamp m));
        ("durationMs", JNum (am_durationMs m))].
Definition ActionResult_json (r : ActionResult) : json :=
  match r with
  | ar_ok data meta p =>
      JObj ([("ok", JBool true); ("data", data); ("meta", meta_json meta)] ++
            match p with Some p => [("pagination", p)] | None => [] end)
  | ar_err e meta => JObj [("ok", JBool false); ("error", error_json e); ("meta", meta_json meta)]
  end.

(** A zod schema, as [safeParse]: the issues or the parsed value. *)
Record ZodIssue := mkZodIssue { zi_path : list string; zi_message : string }.
Definition Schema : Type := json → list ZodIssue + json.

Section contracts.
Context {H : Type}.

Record ActionSpec := mkSpec {
  as_id : string; as_handler : H; as_description : option string;
  as_examples : option (list ActionExample); as_intent : option ActionIntent;
  as_idempotent : option bool; as_cliS : option CliSurface; as_mcpS : option McpSurface;
  as_httpS : option HttpSurface
}.

(** ** Derivation *)
Definition DEFAULT_HTTP_BASE_PATH : string := "/v1/actions".
Definition normalizeBasePath (basePath : string) : string :=
  let trimmed := trim basePath in
  if bool_decide (trimmed = "") || bool_decide (trimmed = "/") then ""
  else
    let withLeadingSlash := if startsWith "/" trimmed then trimmed else "/" +:+ trimmed in
    strip_trailing slash withLeadingSlash.
Definition normalizePath (path : string) : string :=
  let trimmed := trim path in
  if bool_decide (trimmed = "") then "/"
  else
    let withLeadingSlash := if startsWith "/" trimmed then trimmed else "/" +:+ trimmed in
    collapse slash withLeadingSlash.

Definition deriveCliCommand (spec : ActionSpec) : string :=
  default (replaceAll "." ":" (as_id spec)) (as_cliS spec ≫= cli_command).
Definition deriveRpcMethod (spec : ActionSpec) : string := as_id spec.
Definition intent_of (spec : ActionSpec) : ActionIntent := default ai_write (as_intent spec).
Definition deriveStandardMcpAnnotations (spec : ActionSpec) : context :=
  let annotations : context := [] in
  let intent := intent_of spec in
  let annotations := if bool_decide (intent = ai_read)
                     then om_set "readOnlyHint" (JBool true) annotations else annotations in
  let annotations := if bool_decide (intent = ai_destroy)
                     then om_set "destructiveHint" (JBool true) annotations else annotations in
  let annotations := if bool_decide (as_idempotent spec = Some true)
                     then om_set "idempotentHint" (JBool true) annotations else annotations in
  match as_description spec with
  | Some d => om_set "title" (JStr d) annotations
  | None => annotations
  end.
Definition deriveMcpToolName (prefix : string) (spec : ActionSpec) : string :=
  default (prefix +:+ "/" +:+ replaceAll "." "/" (as_id spec)) (as_mcpS spec ≫= mcp_toolName).
Definition deriveMcpAnnotations (spec : ActionSpec) : context :=
  spread (default [] (as_mcpS spec ≫= mcp_annotations)) (Some (deriveStandardMcpAnnotations spec)).
Definition deriveHttpMethod (spec : ActionSpec) : HttpMethod :=
  match as_httpS spec ≫= http_method with
  | Some m => m
  | None => if bool_decide (as_intent spec = Some ai_read) then hm_GET else hm_POST
  end.
Definition deriveHttpPath (basePath : string) (spec : ActionSpec) : string :=
  match as_httpS spec ≫= http_path with
  | Some p => normalizePath p
  | None =>
      normalizePath (normalizeBasePath basePath +:+ "/" +:+ replaceAll "." "/" (as_id spec))
  end.
Definition deriveHttpInputSource (method : HttpMethod) : HttpInputSource :=
  if bool_decide (method = hm_GET) then is_query else is_body.

(** ** Validation *)
Record ActionContractIssue := mkIssue {
  iss_actionId : string; iss_rule : string; iss_message : string; iss_surface : string
}.
Definition STANDARD_MCP_ANNOTATION_KEYS : list string :=
  ["readOnlyHint"; "destructiveHint"; "idempotentHint"; "title"].
Definition STANDARD_BOOLEAN_MCP_ANNOTATION_KEYS : list string :=
  ["readOnlyHint"; "destructiveHint"; "idempotentHint"].
Definition isHttpExposed (spec : ActionSpec) : bool :=
  match as_httpS spec with
  | Some h => negb (bool_decide (http_expose h = Some false))
  | None => false
  end.
Definition RESERVED_HTTP_ROUTE_PREFIXES : list string := ["/v1/admin/"; "/v1/credential/"].
Definition RESERVED_HTTP_ROUTE_PATHS : list string := ["/v1/health"].

Definition validateUniqueIds (specs : list ActionSpec) : list ActionContractIssue :=
  (foldl (λ '(issues, seen) spec,
    if set_has seen (as_id spec) then
      (issues ++ [mkIssue (as_id spec) "unique-action-id"
         ("Action " +:+ q (as_id spec) +:+ " is registered more than once") "registry"], seen)
    else (issues, set_add seen (as_id spec)))
    ([], []) specs).1.

Definition validateHttpAuth (specs : list ActionSpec) : list ActionContractIssue :=
  foldl (λ issues spec,
    if negb (isHttpExposed spec) then issues
    else if bool_decide ((as_httpS spec ≫= http_auth) = None) then
      issues ++ [mkIssue (as_id spec) "http-auth-required"
        ("HTTP-exposed action " +:+ q (as_id spec) +:+ " must declare http.auth") "http"]
    else issues) [] specs.

Definition route_of (spec : ActionSpec) : string :=
  method_name (deriveHttpMethod spec) +:+ " " +:+ deriveHttpPath DEFAULT_HTTP_BASE_PATH spec.
Definition validateUniqueHttpRoutes (specs : list ActionSpec) : list ActionContractIssue :=
  (foldl (λ '(issues, seenRoutes) spec,
    if negb (isHttpExposed spec) then (issues, seenRoutes)
    else
      let routeKey := route_of spec in
      match om_get routeKey seenRoutes with
      | Some existingId =>
          (issues ++ [mkIssue (as_id spec) "unique-http-route"
             ("Action " +:+ q (as_id spec) +:+ " collides with " +:+ q existingId +:+
              " on derived route " +:+ routeKey) "http"], seenRoutes)
      | None => (issues, om_set routeKey (as_id spec) seenRoutes)
      end) ([], []) specs).1.

Definition validateReservedHttpRoutes (specs : list ActionSpec) : list ActionContractIssue :=
  foldl (λ issues spec,
    if negb (isHttpExposed spec) then issues
    else
      let path := deriveHttpPath DEFAULT_HTTP_BASE_PATH spec in
      let collidesWithPrefix :=
        List.find (λ prefix, startsWith prefix path) RESERVED_HTTP_ROUTE_PREFIXES in
      let collidesWithExactPath := bool_decide (path ∈ RESERVED_HTTP_ROUTE_PATHS) in
      match collidesWithPrefix with
      | Some prefix =>
          issues ++ [mkIssue (as_id spec) "reserved-http-route"
            ("Action " +:+ q (as_id spec) +:+ " derives reserved HTTP path " +:+ q path +:+
             " under " +:+ q prefix) "http"]
      | None =>
          if collidesWithExactPath then
            issues ++ [mkIssue (as_id spec) "reserved-http-route"
              ("Action " +:+ q (as_id spec) +:+ " derives reserved HTTP path " +:+ q path) "http"]
          else issues
      end) [] specs.

(** [JSON.stringify] inside a template. *)
Definition stringify (v : json) : string :=
  match v with JUndef => "undefined" | _ => print (strip v) end.
(** The issue of one annotation key of one action, if any.  A derived value is
    never an object, so [!==] is inequality. *)
Definition annotation_issue (spec : ActionSpec) (authored derived : context) (key : string)
  : list ActionContractIssue :=
  match om_get key authored with
  | None => []
  | Some authoredValue =>
      let derivedValue := default JUndef (om_get key derived) in
      if bool_decide (key ∈ STANDARD_BOOLEAN_MCP_ANNOTATION_KEYS) &&
         bool_decide (authoredValue = JBool false) && bool_decide (derivedValue = JUndef)
      then []
      else if bool_decide (authoredValue = derivedValue) then []
      else [mkIssue (as_id spec) "mcp-annotation-consistency"
             ("Action " +:+ q (as_id spec) +:+ " authors MCP annotation " +:+ q key +:+ " as " +:+
              stringify authoredValue +:+ ", but the derived value is " +:+ stringify derivedValue)
             "mcp"]
  end.
Definition validateMcpAnnotations (specs : list ActionSpec) : list ActionContractIssue :=
  foldl (λ issues spec,
    match as_mcpS spec ≫= mcp_annotations with
    | None => issues
    | Some authored =>
        let derived := deriveStandardMcpAnnotations spec in
        foldl (λ issues key, issues ++ annotation_issue spec authored derived key)
          issues STANDARD_MCP_ANNOTATION_KEYS
    end) [] specs.

Definition issue_json (i : ActionContractIssue) : json :=
  JObj [("actionId", JStr (iss_actionId i)); ("message", JStr (iss_message i));
        ("rule", JStr (iss_rule i)); ("surface", JStr (iss_surface i))].
Definition contract_issues (specs : list ActionSpec) : list ActionContractIssue :=
  validateUniqueIds specs ++ validateHttpAuth specs ++ validateUniqueHttpRoutes specs ++
  validateReservedHttpRoutes specs ++ validateMcpAnnotations specs.
Definition validateActionSpecs (specs : list ActionSpec) : result SignetError unit :=
  let issues := contract_issues specs in
  if (length issues =? 0)%nat then Ok tt
  else Err (ValidationError_create "actionRegistry" "Action contract validation failed"
              (Some [("issues", JArr (map issue_json issues))])).

(** ** The registry: [createActionRegistry] *)
Definition ActionRegistry : Type := omap string ActionSpec.
(** What [register] throws: an [Error] with a text, or the validation error. *)
Inductive RegisterError := re_duplicate (text : string) | re_invalid (e : SignetError).
Definition register (spec : ActionSpec) (specs : ActionRegistry)
  : result RegisterError ActionRegistry :=
  if om_has (as_id spec) specs then
    Err (re_duplicate ("Action " +:+ q (as_id spec) +:+ " is already registered"))
  else match validateActionSpecs (specs.*2 ++ [spec]) with
       | Err e => Err (re_invalid e)
       | Ok _ => Ok (om_set (as_id spec) spec specs)
       end.
Definition lookup_spec (id : string) (specs : ActionRegistry) : option ActionSpec := om_get id specs.
Definition list_specs (specs : ActionRegistry) : list ActionSpec := specs.*2.
Definition has_surface (surface : ActionSurface) (spec : ActionSpec) : bool :=
  match surface with
  | as_cli => bool_decide (is_Some (as_cliS spec))
  | as_mcp => bool_decide (is_Some (as_mcpS spec))
  | as_http => bool_decide (is_Some (as_httpS spec))
  end.
(** The argument is a string at run time. *)
Definition listForSurface (surface : string) (specs : ActionRegistry) : list ActionSpec :=
  match List.find (λ s, bool_decide (surface_name s = surface)) ACTION_SURFACES with
  | None => []
  | Some s => List.filter (has_surface s) specs.*2
  end.
Definition registry_validate (specs : ActionRegistry) : result SignetError unit :=
  validateActionSpecs specs.*2.

(** ** The surface map *)
Definition isSurfaceExposed (spec : ActionSpec) (surface : ActionSurface) : bool :=
  match surface with
  | as_http => isHttpExposed spec
  | _ => has_surface surface spec
  end.
(** [ACTION_SURFACES.filter(...).toSorted()]: the names in string order. *)
Definition surface_order (a b : ActionSurface) : Z :=
  let rank s := match s with as_cli => 0 | as_http => 1 | as_mcp => 2 end%Z in (rank a - rank b)%Z.
Definition getSurfaces (spec : ActionSpec) : list ActionSurface :=
  js_sort surface_order (List.filter (isSurfaceExposed spec) ACTION_SURFACES).

Definition opt_str (o : option string) : json := default JUndef (JStr <$> o).
Definition toEntry (spec : ActionSpec) : json :=
  let entry : context :=
    [("exampleCount", JNum (Z.of_nat (default 0%nat (length <$> as_examples spec))));
     ("id", JStr (as_id spec)); ("intent", JStr (intent_name (intent_of spec)));
     ("surfaces", JArr (map (λ s, JStr (surface_name s)) (getSurfaces spec)))] in
  let entry := match as_description spec with
               | Some d => om_set "description" (JStr d) entry | None => entry end in
  let entry := if bool_decide (as_idempotent spec = Some true)
               then om_set "idempotent" (JBool true) entry else entry in
  let entry := match as_cliS spec with
               | Some c => om_set "cli" (sortKeys (JObj
                   [("command", JStr (deriveCliCommand spec)); ("rpcMethod", JStr (deriveRpcMethod spec));
                    ("aliases", default JUndef ((λ l, JArr (map JStr l)) <$> cli_aliases c));
                    ("outputFormat", opt_str (format_name <$> cli_outputFormat c));
                    ("group", opt_str (cli_group c))])) entry
               | None => entry end in
  let entry := match as_mcpS spec with
               | Some _ => om_set "mcp" (sortKeys (JObj
                   [("toolName", JStr (deriveMcpToolName "signet" spec));
                    ("annotations", JObj (deriveMcpAnnotations spec))])) entry
               | None => entry end in
  let entry := match as_httpS spec with
               | Some h =>
                   if isHttpExposed spec then
                     let method := deriveHttpMethod spec in
                     om_set "http" (sortKeys (JObj
                       [("method", JStr (method_name method));
                        ("path", JStr (deriveHttpPath DEFAULT_HTTP_BASE_PATH spec));
                        ("inputSource", JStr (source_name (deriveHttpInputSource method)));
                        ("auth", opt_str (auth_name <$> http_auth h))])) entry
                   else entry
               | None => entry end in
  sortKeys (JObj entry).
Definition entry_id (e : json) : string := toString (jget "id" e).

Record ActionSurfaceMap := mkSurfaceMap {
  asm_version : string; asm_generatedAt : string; asm_entries : list json
}.
(** [localeCompare] is ICU's; [sha256] is Bun's hasher. *)
Definition generateActionSurfaceMap (localeCompare : string → string → Z) (now : string)
  (specs : list ActionSpec) : ActionSurfaceMap :=
  mkSurfaceMap "1.0" now
    (js_sort (λ a b, localeCompare (entry_id a) (entry_id b)) (map toEntry specs)).
Definition hashActionSurfaceMap (sha256 : string → string) (m : ActionSurfaceMap) : string :=
  let rest := JObj [("version", JStr (asm_version m)); ("entries", JArr (asm_entries m))] in
  sha256 (print (strip (sortKeys rest))).

(** ** What a valid set of actions is *)
Definition reserved_route (path : string) : Prop :=
  (∃ p, p ∈ RESERVED_HTTP_ROUTE_PREFIXES ∧ startsWith p path = true) ∨
  path ∈ RESERVED_HTTP_ROUTE_PATHS.
(** An authored standard annotation repeats the derived one, or denies a hint
    that is not derived. *)
Definition annotation_agrees (derived : context) (key : string) (v : json) : Prop :=
  v = default JUndef (om_get key derived) ∨
  (key ∈ STANDARD_BOOLEAN_MCP_ANNOTATION_KEYS ∧ v = JBool false ∧
   default JUndef (om_get key derived) = JUndef).
Definition annotations_agree (spec : ActionSpec) : Prop :=
  ∀ authored key v, as_mcpS spec ≫= mcp_annotations = Some authored →
    key ∈ STANDARD_MCP_ANNOTATION_KEYS → om_get key authored = Some v →
    annotation_agrees (deriveStandardMcpAnnotations spec) key v.
Definition exposed (specs : list ActionSpec) : list ActionSpec := List.filter isHttpExposed specs.
Definition contract_ok (specs : list ActionSpec) : Prop :=
  NoDup (as_id <$> specs) ∧ NoDup (route_of <$> exposed specs) ∧
  (∀ s, s ∈ exposed specs → is_Some (as_httpS s ≫= http_auth) ∧
     ¬ reserved_route (deriveHttpPath DEFAULT_HTTP_BASE_PATH s)) ∧
  (∀ s, s ∈ specs → annotations_agree s).

(** Passes that append the issues of each action. *)
Lemma foldl_issues {A B} (f : list B → A → list B) (g : A → list B) l acc :
  (∀ acc x, f acc x = acc ++ g x) → foldl f acc l = acc ++ concat (g <$> l).
Proof.
  intros Hf. revert acc. induction l as [|x l IH]; intros acc; cbn; [by rewrite app_nil_r|].
  by rewrite Hf, IH, <- app_assoc.
Qed.
Lemma no_issues {A B} (f : list B → A → list B) (g : A → list B) l :
  (∀ acc x, f acc x = acc ++ g x) → foldl f [] l = [] ↔ ∀ x, x ∈ l → g x = [].
Proof.
  intros Hf. rewrite (foldl_issues f g l [] Hf). cbn. induction l as [|x l IH]; cbn; [set_solver|].
  split.
  - intros [Hx Hl]%app_eq_nil y [->|Hy]%elem_of_cons; [done|]. by apply IH.
  - intros Hall. rewrite (Hall x) by set_solver. apply IH. intros y Hy. apply Hall. set_solver.
Qed.

Lemma unique_ids_spec specs : validateUniqueIds specs = [] ↔ NoDup (as_id <$> specs).
Proof.
  unfold validateUniqueIds. set (f := λ '(_, _) _, _).
  assert (∀ issues seen, (foldl f (issues, seen) specs).1 = [] ↔
    issues = [] ∧ NoDup (as_id <$> specs) ∧ ∀ x, x ∈ as_id <$> specs → x ∉ seen) as Hf.
  { induction specs as [|s specs IH]; intros issues seen; cbn.
    { split; [intros ->; split_and!; [done|constructor|set_solver]|by intros (? & _)]. }
    destruct (set_has seen (as_id s)) eqn:Hs.
    - rewrite IH. rewrite set_has_spec in Hs. split.
      + intros [[_ [=]]%app_eq_nil _].
      + intros (_ & _ & Hx). exfalso. apply (Hx (as_id s)); set_solver.
    - rewrite IH. apply set_has_false in Hs. rewrite NoDup_cons. setoid_rewrite elem_of_cons.
      setoid_rewrite elem_of_set_add. naive_solver. }
  rewrite Hf. set_solver.
Qed.

Lemma unique_routes_spec specs : validateUniqueHttpRoutes specs = [] ↔ NoDup (route_of <$> exposed specs).
Proof.
  unfold validateUniqueHttpRoutes, exposed. set (f := λ '(_, _) _, _).
  assert (∀ issues seen, (foldl f (issues, seen) specs).1 = [] ↔
    issues = [] ∧ NoDup (route_of <$> List.filter isHttpExposed specs) ∧
    ∀ x, x ∈ route_of <$> List.filter isHttpExposed specs → om_get x seen = None) as Hf.
  { induction specs as [|s specs IH]; intros issues seen; cbn.
    { split; [intros ->; split_and!; [done|constructor|set_solver]|by intros (? & _)]. }
    destruct (isHttpExposed s); cbn; [|apply IH].
    destruct (om_get (route_of s) seen) as [id|] eqn:Hs; rewrite IH.
    - split; [intros [[_ [=]]%app_eq_nil _]|].
      intros (_ & _ & Hx). rewrite (Hx (route_of s)) in Hs; set_solver.
    - rewrite NoDup_cons. setoid_rewrite elem_of_cons. setoid_rewrite om_get_set.
      split.
      + intros (-> & Hnd & Hx). split_and!; [done| |done|].
        * intros Hin%Hx. by rewrite decide_True in Hin.
        * intros x [->|Hin]; [done|]. specialize (Hx x Hin). by case_decide.
      + intros (-> & [Hni Hnd] & Hx). split_and!; [done..|]. intros x Hin. rewrite decide_False.
        { apply Hx. by right. } intros <-. done. }
  rewrite Hf. set_solver.
Qed.

Lemma elem_of_exposed s specs : s ∈ exposed specs ↔ isHttpExposed s = true ∧ s ∈ specs.
Proof. unfold exposed. rewrite !list_elem_of_In, List.filter_In. naive_solver. Qed.

Lemma http_auth_spec specs :
  validateHttpAuth specs = [] ↔ ∀ s, s ∈ exposed specs → is_Some (as_httpS s ≫= http_auth).
Proof.
  unfold validateHttpAuth. erewrite (no_issues _ (λ spec, if negb (isHttpExposed spec) then []
    else if bool_decide ((as_httpS spec ≫= http_auth) = None) then [_] else [])).
  2:{ intros acc x. repeat case_match; by rewrite ?app_nil_r. }
  setoid_rewrite elem_of_exposed. split.
  - intros Hall s [He Hs]. specialize (Hall s Hs). rewrite He in Hall. cbn [negb] in Hall.
    case_bool_decide; [done|]. by apply not_eq_None_Some.
  - intros Hall s Hs. destruct (isHttpExposed s) eqn:He; [|done]. cbn [negb].
    rewrite bool_decide_false; [done|]. by apply not_eq_None_Some, Hall.
Qed.

Lemma find_reserved path :
  (∃ p, List.find (λ prefix, startsWith prefix path) RESERVED_HTTP_ROUTE_PREFIXES = Some p) ↔
  ∃ p, p ∈ RESERVED_HTTP_ROUTE_PREFIXES ∧ startsWith p path = true.
Proof.
  split.
  - intros [p Hp]. exists p. rewrite list_elem_of_In. by apply List.find_some in Hp.
  - intros (p & Hin & Hp). destruct (List.find _ _) as [p'|] eqn:E; [by eexists|].
    rewrite list_elem_of_In in Hin. by rewrite (List.find_none _ _ E p Hin) in Hp.
Qed.
Lemma reserved_spec specs : validateReservedHttpRoutes specs = [] ↔
  ∀ s, s ∈ exposed specs → ¬ reserved_route (deriveHttpPath DEFAULT_HTTP_BASE_PATH s).
Proof.
  unfold validateReservedHttpRoutes.
  erewrite (no_issues _ (λ spec, if negb (isHttpExposed spec) then [] else
    match List.find (λ prefix, startsWith prefix (deriveHttpPath DEFAULT_HTTP_BASE_PATH spec))
            RESERVED_HTTP_ROUTE_PREFIXES with
    | Some prefix => [_]
    | None => if bool_decide (deriveHttpPath DEFAULT_HTTP_BASE_PATH spec ∈ RESERVED_HTTP_ROUTE_PATHS)
              then [_] else [] end)).
  2:{ intros acc x. cbv zeta. repeat case_match; rewrite ?app_nil_r; reflexivity. }
  setoid_rewrite elem_of_exposed. unfold reserved_route. setoid_rewrite <- find_reserved. split.
  - intros Hall s [He Hs]. specialize (Hall s Hs). rewrite He in Hall. cbn [negb] in Hall.
    destruct (List.find _ _) eqn:E; [done|]. case_bool_decide; [done|]. by intros [[p ?]|].
  - intros Hall s Hs. destruct (isHttpExposed s) eqn:He; [|done]. cbn [negb].
    destruct (List.find _ _) as [p|] eqn:E.
    + exfalso. apply (Hall s); [done|]. rewrite E. by left; eexists.
    + rewrite bool_decide_false; [done|]. intros Hin. apply (Hall s); [done|]. by right.
Qed.

Lemma annotation_issue_spec spec authored derived key :
  annotation_issue spec authored derived key = [] ↔
  ∀ v, om_get key authored = Some v → annotation_agrees derived key v.
Proof.
  unfold annotation_issue, annotation_agrees. destruct (om_get key authored) as [v|]; [|naive_solver].
  set (d := default JUndef _). split.
  - intros Hi v' [= <-].
    destruct (_ && _) eqn:Hb in Hi; [|case_bool_decide; [by left|done]].
    rewrite !andb_true_iff, !bool_decide_eq_true in Hb. naive_solver.
  - intros Ha. destruct (Ha v eq_refl) as [->|(Hk & -> & Hd)].
    + rewrite (bool_decide_true (d = d)) by done. by destruct (_ && _).
    + by rewrite (bool_decide_true _ Hk), (bool_decide_true _ eq_refl), (bool_decide_true _ Hd).
Qed.
Lemma annotations_spec specs : validateMcpAnnotations specs = [] ↔ ∀ s, s ∈ specs → annotations_agree s.
Proof.
  unfold validateMcpAnnotations. erewrite (no_issues _ (λ spec,
    match as_mcpS spec ≫= mcp_annotations with
    | None => []
    | Some authored => concat ((λ key, annotation_issue spec authored
        (deriveStandardMcpAnnotations spec) key) <$> STANDARD_MCP_ANNOTATION_KEYS)
    end)).
  2:{ intros acc x. destruct (_ ≫= mcp_annotations) as [a|]; [|by rewrite app_nil_r].
      by rewrite (foldl_issues _ (annotation_issue x a (deriveStandardMcpAnnotations x))). }
  enough (∀ s, match as_mcpS s ≫= mcp_annotations with None => [] | Some authored =>
      concat ((λ key, annotation_issue s authored (deriveStandardMcpAnnotations s) key)
        <$> STANDARD_MCP_ANNOTATION_KEYS) end = [] ↔ annotations_agree s) as Hs by (by setoid_rewrite Hs).
  intros s. unfold annotations_agree. destruct (_ ≫= mcp_annotations) as [a|]; [|naive_solver].
  trans (∀ key, key ∈ STANDARD_MCP_ANNOTATION_KEYS →
    annotation_issue s a (deriveStandardMcpAnnotations s) key = []).
  - rewrite <- (no_issues (λ acc key, acc ++ annotation_issue s a (deriveStandardMcpAnnotations s) key)
      _ STANDARD_MCP_ANNOTATION_KEYS) by done. by rewrite (foldl_issues _ _ _ _ (λ _ _, eq_refl)).
  - setoid_rewrite annotation_issue_spec. naive_solver.
Qed.

(** validation accepts a set of actions exactly when the ids are
    distinct, no two actions exposed over HTTP have the same method and path,
    every exposed action says who may call it and stays off the reserved
    routes, and no authored MCP annotation contradicts the action's intent. *)
Theorem validateActionSpecs_spec specs : validateActionSpecs specs = Ok tt ↔ contract_ok specs.
Proof.
  unfold validateActionSpecs, contract_ok, contract_issues.
  rewrite <- unique_ids_spec, <- unique_routes_spec, <- annotations_spec.
  trans (validateUniqueIds specs = [] ∧ validateHttpAuth specs = [] ∧
    validateUniqueHttpRoutes specs = [] ∧ validateReservedHttpRoutes specs = [] ∧
    validateMcpAnnotations specs = []).
  - destruct (validateUniqueIds specs), (validateHttpAuth specs), (validateUniqueHttpRoutes specs),
      (validateReservedHttpRoutes specs), (validateMcpAnnotations specs); cbn; naive_solver.
  - rewrite http_auth_spec, reserved_spec. naive_solver.
Qed.

(** ** Routes *)
Lemma normalizePath_canonical path :
  (∃ t, normalizePath path = String slash t) ∧ no_double slash (normalizePath path) = true.
Proof.
  unfold normalizePath. case_bool_decide as Ht; [by split; [eexists|]|].
  split; [|apply collapse_no_double].
  assert (∀ s, startsWith "/" s = true → ∃ t, collapse slash s = String slash t) as Hs.
  { intros [|a s] Hs; [done|]. cbn in Hs. rewrite andb_true_r, bool_decide_eq_true in Hs. subst a.
    apply collapse_cons. }
  destruct (startsWith "/" (trim path)) eqn:E; apply Hs; [done|reflexivity].
Qed.
Lemma deriveHttpPath_canonical base spec :
  (∃ t, deriveHttpPath base spec = String slash t) ∧ no_double slash (deriveHttpPath base spec) = true.
Proof. unfold deriveHttpPath. case_match; apply normalizePath_canonical. Qed.
Lemma route_of_inj a b : route_of a = route_of b →
  deriveHttpMethod a = deriveHttpMethod b ∧
  deriveHttpPath DEFAULT_HTTP_BASE_PATH a = deriveHttpPath DEFAULT_HTTP_BASE_PATH b.
Proof. unfold route_of. destruct (deriveHttpMethod a), (deriveHttpMethod b); cbn; intros [=]; done. Qed.

(** ** Registries *)
(** The registry after any sequence of registrations; one that throws leaves
    it as it was. *)
Definition register_all (attempts : list ActionSpec) : ActionRegistry :=
  foldl (λ r spec, match register spec r with Ok r' => r' | Err _ => r end) [] attempts.
Definition registry_inv (r : ActionRegistry) : Prop :=
  contract_ok r.*2 ∧ ∀ id spec, (id, spec) ∈ r → as_id spec = id.

Lemma registry_ids r : (∀ id spec, (id, spec) ∈ r → as_id spec = id) → as_id <$> r.*2 = r.*1.
Proof.
  intros Hr. induction r as [|[id s] r IH]; [done|]. cbn.
  rewrite (Hr id s) by set_solver. f_equal. apply IH. intros ???. apply Hr. set_solver.
Qed.
Lemma register_ok spec r r' : register spec r = Ok r' ↔
  om_get (as_id spec) r = None ∧ contract_ok (r.*2 ++ [spec]) ∧ r' = r ++ [(as_id spec, spec)].
Proof.
  unfold register. rewrite <- validateActionSpecs_spec. unfold om_has.
  case_bool_decide as Hh.
  - split; [done|]. intros (Hn & _). rewrite Hn in Hh. by destruct Hh.
  - assert (om_get (as_id spec) r = None) as Hn by (by apply eq_None_not_Some).
    rewrite (om_set_fresh _ _ _ Hn). destruct (validateActionSpecs _) as [[]|e]; naive_solver.
Qed.
Lemma register_all_inv attempts : registry_inv (register_all attempts).
Proof.
  induction attempts as [|spec l IH] using rev_ind.
  - split; [|set_solver]. split_and!; cbn; [constructor|constructor|set_solver|set_solver].
  - unfold register_all. rewrite foldl_app. cbn. fold (register_all l).
    destruct (register spec (register_all l)) as [r'|e] eqn:E; [|done].
    apply register_ok in E as (Hn & Hok & ->). destruct IH as [_ Hid]. split; [by rewrite fmap_app|].
    intros id s [?|[= -> ->]%list_elem_of_singleton]%elem_of_app; [by apply Hid|done].
Qed.

Lemma NoDup_map_inj {A B} (f : A → B) l x y : NoDup (f <$> l) → x ∈ l → y ∈ l → f x = f y → x = y.
Proof.
  induction l as [|z l IH]; [by intros ? ?%not_elem_of_nil|]. cbn. rewrite NoDup_cons. intros [Hz Hnd].
  intros [->|Hx]%elem_of_cons [->|Hy]%elem_of_cons Hf; [done|..|by apply IH].
  - destruct Hz. rewrite Hf. by apply list_elem_of_fmap_2.
  - destruct Hz. rewrite <- Hf. by apply list_elem_of_fmap_2.
Qed.

(** whatever registrations are attempted, the registry stays valid: an
    action is found exactly under its id, two actions exposed over HTTP never
    answer the same method and path, every exposed path starts with a slash,
    has no empty segment and is not one of the server's own routes.  A
    registration fails exactly when it would break this, and then changes
    nothing. *)
Theorem registry_spec attempts :
  let r := register_all attempts in
  registry_validate r = Ok tt ∧
  (∀ id spec, lookup_spec id r = Some spec ↔ spec ∈ list_specs r ∧ as_id spec = id) ∧
  (∀ a b, a ∈ exposed (list_specs r) → b ∈ exposed (list_specs r) →
     deriveHttpMethod a = deriveHttpMethod b →
     deriveHttpPath DEFAULT_HTTP_BASE_PATH a = deriveHttpPath DEFAULT_HTTP_BASE_PATH b → a = b) ∧
  (∀ a, a ∈ exposed (list_specs r) →
     let path := deriveHttpPath DEFAULT_HTTP_BASE_PATH a in
     (∃ t, path = String slash t) ∧ no_double slash path = true ∧ ¬ reserved_route path) ∧
  (∀ spec, (∃ r', register spec r = Ok r' ∧ list_specs r' = list_specs r ++ [spec]) ↔
     contract_ok (list_specs r ++ [spec])).
Proof.
  cbv zeta. destruct (register_all_inv attempts) as [Hok Hid]. set (r := register_all attempts) in *.
  pose proof (registry_ids r Hid) as Hkeys. destruct (Hok) as (Hids & Hroutes & Hexp & _).
  assert (NoDup r.*1) as Hnd by (by rewrite <- Hkeys).
  unfold list_specs, lookup_spec. split_and!.
  - by apply validateActionSpecs_spec.
  - intros id spec. split.
    + intros Hg%om_get_elem. split; [|by apply (Hid id)]. apply list_elem_of_fmap. by exists (id, spec).
    + intros [([id' s] & -> & Hin)%list_elem_of_fmap Hs]. apply om_get_NoDup; [done|].
      cbn in *. by rewrite (Hid id' s Hin) in Hs; subst.
  - intros a b Ha Hb Hm Hp. apply (NoDup_map_inj route_of (exposed r.*2)); [done..|].
    unfold route_of. by rewrite Hm, Hp.
  - intros a Ha. destruct (deriveHttpPath_canonical DEFAULT_HTTP_BASE_PATH a) as [? ?].
    split_and!; [done..|]. by apply Hexp.
  - intros spec. setoid_rewrite register_ok. split; [by intros (? & (_ & ? & _) & _)|].
    intros Hc. exists (r ++ [(as_id spec, spec)]). rewrite fmap_app. split_and!; [|done..].
    apply om_get_None. rewrite <- Hkeys. destruct Hc as (Hn & _).
    rewrite fmap_app in Hn. apply NoDup_app in Hn as (_ & Hn & _). intros Hin. apply (Hn _ Hin).
    cbn. by left.
Qed.

(** ** Annotations *)
Lemma standard_NoDup spec : NoDup (deriveStandardMcpAnnotations spec).*1.
Proof.
  unfold deriveStandardMcpAnnotations. repeat case_match; repeat apply om_set_NoDup; constructor.
Qed.
Lemma standard_get spec :
  om_get "readOnlyHint" (deriveStandardMcpAnnotations spec) =
    (if bool_decide (intent_of spec = ai_read) then Some (JBool true) else None) ∧
  om_get "destructiveHint" (deriveStandardMcpAnnotations spec) =
    (if bool_decide (intent_of spec = ai_destroy) then Some (JBool true) else None) ∧
  om_get "idempotentHint" (deriveStandardMcpAnnotations spec) =
    (if bool_decide (as_idempotent spec = Some true) then Some (JBool true) else None) ∧
  om_get "title" (deriveStandardMcpAnnotations spec) = JStr <$> as_description spec.
Proof.
  unfold deriveStandardMcpAnnotations. destruct (as_description spec);
    repeat case_bool_decide; split_and!; reflexivity.
Qed.
Lemma spread_get_none base extra k :
  om_get k extra = None → om_get k (spread base (Some extra)) = om_get k base.
Proof.
  cbn. revert base. induction extra as [|[k' v'] extra IH]; intros base; [done|]. cbn.
  case_decide; [done|]. intros Hn. rewrite (IH _ Hn), om_get_set. by rewrite decide_False.
Qed.
(** The published value of a standard hint of an action whose authored
    annotations are consistent. *)
Lemma published_hint spec key : key ∈ STANDARD_BOOLEAN_MCP_ANNOTATION_KEYS → annotations_agree spec →
  om_get key (deriveMcpAnnotations spec) = Some (JBool true) ↔
  om_get key (deriveStandardMcpAnnotations spec) = Some (JBool true).
Proof.
  intros Hk Ha. unfold deriveMcpAnnotations.
  destruct (om_get key (deriveStandardMcpAnnotations spec)) as [v|] eqn:Hd.
  - by rewrite (spread_get _ _ _ _ (standard_NoDup spec) Hd).
  - rewrite spread_get_none by done. split; [|done]. intros Hg. exfalso.
    destruct (as_mcpS spec ≫= mcp_annotations) as [authored|] eqn:Em; [|done]. cbn in Hg.
    destruct (Ha authored key (JBool true) Em) as [Hv|(_ & [=] & _)]; [set_solver|done|].
    by rewrite Hd in Hv.
Qed.

(** the safety hints an MCP client is shown tell the truth about every
    registered action: it is shown as read-only exactly when its intent is to
    read, as destructive exactly when its intent is to destroy and as
    idempotent exactly when it is declared so, whatever annotations its author
    added; and its title is its description. *)
Theorem mcp_hints_truthful attempts spec :
  spec ∈ list_specs (register_all attempts) →
  (om_get "readOnlyHint" (deriveMcpAnnotations spec) = Some (JBool true) ↔
     as_intent spec = Some ai_read) ∧
  (om_get "destructiveHint" (deriveMcpAnnotations spec) = Some (JBool true) ↔
     as_intent spec = Some ai_destroy) ∧
  (om_get "idempotentHint" (deriveMcpAnnotations spec) = Some (JBool true) ↔
     as_idempotent spec = Some true) ∧
  (∀ d, as_description spec = Some d → om_get "title" (deriveMcpAnnotations spec) = Some (JStr d)).
Proof.
  intros Hs. destruct (register_all_inv attempts) as [(_ & _ & _ & Ha) _].
  specialize (Ha spec Hs). destruct (standard_get spec) as (Hr & Hd & Hi & Ht).
  rewrite !published_hint by (done || set_solver). rewrite Hr, Hd, Hi. unfold intent_of.
  split_and!; [by destruct (as_intent spec) as [[]|]; cbn; case_bool_decide..| |].
  - by case_bool_decide.
  - intros d Hdesc. rewrite Hdesc in Ht. by apply spread_get; [apply standard_NoDup|].
Qed.

(** ** The fingerprint of the surface *)
Lemma sortKeys_get k o : NoDup o.*1 → jget k (sortKeys (JObj o)) = sortKeys (jget k (JObj o)).
Proof.
  intros Hnd. cbn. change (map (λ kv : string * json, let (k, v) := kv in (k, sortKeys v)) o)
    with (map sort_entry o). rewrite <- (om_get_perm k (map sort_entry o)).
  - induction o as [|[k' v] o IH]; [done|]. cbn. case_decide; [done|].
    apply IH. cbn in Hnd. by apply NoDup_cons in Hnd as [_ ?].
  - by rewrite sort_entry_keys.
  - symmetry. apply merge_sort_Permutation.
Qed.
Lemma toEntry_id spec : entry_id (toEntry spec) = as_id spec.
Proof.
  unfold entry_id, toEntry. cbv zeta.
  match goal with |- toString (jget _ (sortKeys (JObj ?e))) = _ => set (entry := e) end.
  assert (NoDup entry.*1 ∧ om_get "id" entry = Some (JStr (as_id spec))) as [Hnd Hid].
  { subst entry. destruct (as_description spec), (as_cliS spec), (as_mcpS spec), (as_httpS spec);
      repeat case_match; (split; [repeat apply om_set_NoDup; cbn; repeat constructor; set_solver|];
        autorewrite with signet; repeat case_decide; done). }
  rewrite sortKeys_get by done. cbn. by rewrite Hid.
Qed.

(** the public surface map, and so its fingerprint, depends only on which
    actions there are: not on the order of their registration, and the
    fingerprint not on the time.  The collation is any total preorder that
    tells the ids of the actions apart. *)
Theorem surface_map_stable (localeCompare : string → string → Z) (sha256 : string → string)
  now now' specs specs' :
  (∀ a b, cmp_le localeCompare a b ∨ cmp_le localeCompare b a) →
  (∀ a b c, cmp_le localeCompare a b → cmp_le localeCompare b c → cmp_le localeCompare a c) →
  (∀ a b, a ∈ as_id <$> specs → b ∈ as_id <$> specs →
     cmp_le localeCompare a b → cmp_le localeCompare b a → a = b) →
  NoDup (as_id <$> specs) → specs ≡ₚ specs' →
  let m := generateActionSurfaceMap localeCompare now specs in
  let m' := generateActionSurfaceMap localeCompare now' specs' in
  asm_entries m = asm_entries m' ∧
  hashActionSurfaceMap sha256 m = hashActionSurfaceMap sha256 m'.
Proof.
  intros Htot Htrans Hsep Hnd Hp. cbv zeta.
  enough (asm_entries (generateActionSurfaceMap localeCompare now specs) =
    asm_entries (generateActionSurfaceMap localeCompare now' specs')) as He.
  { split; [done|]. unfold hashActionSurfaceMap. by rewrite He. }
  cbn. apply js_sort_unique; [unfold cmp_le in *; eauto..| |by apply Permutation_map].
  intros x y (a & -> & Ha)%list_elem_of_fmap (b & -> & Hb)%list_elem_of_fmap.
  unfold cmp_le in *. rewrite !toEntry_id. intros Hab Hba. f_equal.
  apply (NoDup_map_inj as_id specs); [done..|].
  apply Hsep; [by apply list_elem_of_fmap_2..|done|done].
Qed.
End contracts.
Arguments ActionSpec : clear implicits.
Arguments ActionRegistry : clear implicits.

(** ** Witnesses *)
Section demo.
Definition demo_spec (id : string) (intent : ActionIntent) (annotations : option context)
  (http : option HttpSurface) : ActionSpec unit :=
  mkSpec id tt (Some id) None (Some intent) None (Some (mkCli None None None None None))
    (Some (mkMcp None annotations)) http.
Definition demo_http : HttpSurface := mkHttp None None (Some ha_admin) None.
Definition demo_list := demo_spec "seal.list" ai_read (Some [("destructiveHint", JBool false)]) (Some demo_http).
Definition demo_rm := demo_spec "seal.rm" ai_destroy None (Some demo_http).
(** An author who calls a destructive action read-only. *)
Definition demo_lie := demo_spec "seal.purge" ai_destroy (Some [("readOnlyHint", JBool true)]) None.
Definition demo_attempts := [demo_list; demo_rm; demo_list; demo_lie].

Example register_ex : (register_all demo_attempts).*1 = ["seal.list"; "seal.rm"].
Proof. vm_compute. reflexivity. Qed.
Example path_ex : deriveHttpPath "v1//x/" demo_rm = "/v1/x/seal/rm".
Proof. vm_compute. reflexivity. Qed.

Lemma mcp_hints_truthful_witness :
  demo_list ∈ list_specs (register_all demo_attempts) ∧
  om_get "readOnlyHint" (deriveMcpAnnotations demo_list) = Some (JBool true) ∧
  om_get "destructiveHint" (deriveMcpAnnotations demo_list) ≠ Some (JBool true).
Proof.
  assert (demo_list ∈ list_specs (register_all demo_attempts)) as Hin.
  { assert (list_specs (register_all demo_attempts) = [demo_list; demo_rm]) as ->
      by (vm_compute; reflexivity). left. }
  destruct (mcp_hints_truthful demo_attempts demo_list Hin) as ([_ Hr] & [Hd _] & _).
  split_and!; [done|by apply Hr|]. intros Hx. by apply Hd in Hx.
Defined.

(** A collation by length, then by characters is one that tells all strings
    apart; here a rank of the two ids suffices. *)
Definition demo_compare (a b : string) : Z :=
  Z.of_nat (String.length a) - Z.of_nat (String.length b).
Lemma surface_map_stable_witness :
  asm_entries (generateActionSurfaceMap demo_compare "t" [demo_list; demo_rm]) =
  asm_entries (generateActionSurfaceMap demo_compare "u" [demo_rm; demo_list]).
Proof.
  apply (surface_map_stable demo_compare id "t" "u" [demo_list; demo_rm] [demo_rm; demo_list]).
  - intros a b. unfold cmp_le, demo_compare. lia.
  - intros a b c. unfold cmp_le, demo_compare. lia.
  - intros a b Ha Hb. cbn in Ha, Hb. rewrite !elem_of_cons, elem_of_nil in Ha, Hb.
    unfold cmp_le, demo_compare. destruct Ha as [->|[->|[]]], Hb as [->|[->|[]]]; cbn; done || lia.
  - cbn. repeat constructor; set_solver.
  - apply Permutation_swap.
Defined.

End demo.
