(* ===== verification/Ids.v ===== *)
(** * Resource identifiers

    [schemas/src/resource-id.ts] and the local-id refinement of
    [schemas/src/id-mapping.ts]: prefixes, id schemas, creation from random
    bytes, parsing and short-id resolution. *)
From S2P Require Import Prelude Json Errors.

Inductive ResourceType :=
  | rt_operator | rt_inbox | rt_conversation | rt_policy | rt_credential | rt_seal | rt_key
  | rt_message | rt_network.
#[export] Instance ResourceType_eq_dec : EqDecision ResourceType.
Proof. solve_decision. Defined.

Definition RESOURCE_PREFIXES (t : ResourceType) : string :=
  match t with
  | rt_operator => "op_"
  | rt_inbox => "inbox_"
  | rt_conversation => "conv_"
  | rt_policy => "policy_"
  | rt_credential => "cred_"
  | rt_seal => "seal_"
  | rt_key => "key_"
  | rt_message => "msg_"
  | rt_network => "xmtp_"
  end.
Definition ResourceType_values : list ResourceType :=
  [rt_operator; rt_inbox; rt_conversation; rt_policy; rt_credential; rt_seal; rt_key;
   rt_message; rt_network].
(** The entries of [PREFIX_TO_TYPE], in order; [ALL_PREFIXES] are its keys. *)
Definition PREFIX_TO_TYPE : omap string ResourceType :=
  map (λ t, (RESOURCE_PREFIXES t, t)) ResourceType_values.
Definition ALL_PREFIXES : list string := map RESOURCE_PREFIXES ResourceType_values.
Definition RESOURCE_ID_HEX_LENGTH : nat := 16.

(** The class [[0-9a-f]]. *)
Definition is_hex (c : ascii) : bool :=
  let n := nat_of_ascii c in ((48 <=? n) && (n <=? 57))%nat || ((97 <=? n) && (n <=? 102))%nat.
Definition SHORT_ID_HEX (s : string) : bool :=
  (String.length s =? RESOURCE_ID_HEX_LENGTH)%nat && str_forallb is_hex s.

Definition resourceIdSchema (prefix value : string) : bool :=
  if startsWith prefix value
  then SHORT_ID_HEX (str_drop (String.length prefix) value)
  else false.
(** [AnyResourceId], the union of the schemas. *)
Definition AnyResourceId (value : string) : bool :=
  existsb (λ prefix, resourceIdSchema prefix value) ALL_PREFIXES.

(** [Buffer.toString("hex")] of random bytes. *)
Definition byte_hex (b : Byte.byte) : string :=
  let n := N.to_nat (Byte.to_N b) in
  String (hex_char (n / 16)) (String (hex_char (n mod 16)) "").
Fixpoint bytes_hex (bs : list Byte.byte) : string :=
  match bs with [] => "" | b :: bs => byte_hex b +:+ bytes_hex bs end.
(** [randomBytes] is the value returned by [crypto.randomBytes(8)]. *)
Definition createResourceId (type : ResourceType) (randomBytes : list Byte.byte) : string :=
  RESOURCE_PREFIXES type +:+ bytes_hex randomBytes.

Record ParsedResourceId := {
  type : ResourceType; prefix : string; shortId : string; fullId : string
}.

Definition dq (s : string) : string := String dquote (s +:+ String dquote "").

Definition badSuffix (id prefix shortId : string) : SignetError :=
  ValidationError_create "resourceId"
    ("Resource IDs with prefix " +:+ dq prefix +:+ " must end with " +:+
     pretty RESOURCE_ID_HEX_LENGTH +:+ " lowercase hex characters")
    (Some [("id", JStr id); ("prefix", JStr prefix); ("shortId", JStr shortId)]).

(** The loop over [ALL_PREFIXES]; a thrown error is [Err]. *)
Fixpoint parse_loop (id : string) (prefixes : omap string ResourceType)
  : result SignetError ParsedResourceId :=
  match prefixes with
  | [] => Err (ValidationError_create "resourceId"
                 ("Unrecognized resource ID prefix: " +:+ dq id) None)
  | (p, t) :: rest =>
      if startsWith p id then
        let sid := str_drop (String.length p) id in
        if SHORT_ID_HEX sid
        then Ok {| type := t; prefix := p; shortId := sid; fullId := id |}
        else Err (badSuffix id p sid)
      else parse_loop id rest
  end.
Definition parseResourceId (id : string) : result SignetError ParsedResourceId :=
  parse_loop id PREFIX_TO_TYPE.

(** [extractHex]: the hex portion after a recognised prefix. *)
Fixpoint extractHex_loop (id : string) (prefixes : list string) : option string :=
  match prefixes with
  | [] => None
  | p :: rest =>
      if startsWith p id then
        let hex := str_drop (String.length p) id in
        if SHORT_ID_HEX hex then Some hex else None
      else extractHex_loop id rest
  end.
Definition extractHex (id : string) : option string := extractHex_loop id ALL_PREFIXES.

(** The first loop of [resolveShortId]: an optional type prefix. *)
Fixpoint split_prefix (shortId : string) (prefixes : list string) : option string * string :=
  match prefixes with
  | [] => (None, shortId)
  | p :: rest =>
      if startsWith p shortId then (Some p, str_drop (String.length p) shortId)
      else split_prefix shortId rest
  end.
Definition shortId_matches (prefix : option string) (hexPrefix candidate : string) : bool :=
  match prefix with
  | Some p => startsWith p candidate
  | None => true
  end &&
  match extractHex candidate with
  | Some hex => startsWith hexPrefix hex
  | None => false
  end.
Definition resolveShortId (shortId : string) (candidates : list string)
  : result SignetError string :=
  if AnyResourceId shortId then
    if bool_decide (shortId ∈ candidates) then Ok shortId
    else Err (NotFoundError_create "resource" shortId)
  else
    let (prefix, hexPrefix) := split_prefix shortId ALL_PREFIXES in
    if (String.length hexPrefix =? 0)%nat || negb (str_forallb is_hex hexPrefix) then
      Err (ValidationError_create "shortId"
             "Short ID must be lowercase hex or a full resource ID"
             (Some [("shortId", JStr shortId)]))
    else
      match List.filter (shortId_matches prefix hexPrefix) candidates with
      | [m] => Ok m
      | [] => Err (NotFoundError_create "resource" shortId)
      | ms => Err (ValidationError_create "shortId" "Ambiguous short ID"
                     (Some [("shortId", JStr shortId);
                            ("suggestions", JArr (map JStr ms))]))
      end.

(** ** [IdMapping] *)
Inductive IdMappingResourceType := im_message | im_conversation | im_inbox.
Record IdMappingType := {
  networkId : string; localId : string;
  resourceType : IdMappingResourceType; im_createdAt : string
}.
Definition im_resource (t : IdMappingResourceType) : ResourceType :=
  match t with
  | im_message => rt_message | im_conversation => rt_conversation | im_inbox => rt_inbox
  end.
(** [z.string().datetime()] is zod's. *)
Definition IdMapping (datetime : string → bool) (value : IdMappingType) : bool :=
  resourceIdSchema (RESOURCE_PREFIXES rt_network) (networkId value) &&
  datetime (im_createdAt value) &&
  resourceIdSchema (RESOURCE_PREFIXES (im_resource (resourceType value))) (localId value).

(** ** Lemmas *)
Lemma str_forallb_app f a b : str_forallb f (a +:+ b) = str_forallb f a && str_forallb f b.
Proof.
  induction a as [|c a IH]; [done|]. rewrite str_cons_app. cbn. by rewrite IH, andb_assoc.
Qed.
Lemma byte_hex_ok b : str_forallb is_hex (byte_hex b) = true ∧ String.length (byte_hex b) = 2.
Proof. by destruct b. Qed.
Lemma bytes_hex_ok bs :
  str_forallb is_hex (bytes_hex bs) = true ∧ String.length (bytes_hex bs) = 2 * length bs.
Proof.
  induction bs as [|b bs [IH1 IH2]]; [done|]. cbn [bytes_hex].
  destruct (byte_hex_ok b). rewrite str_forallb_app, str_length_app, IH1, IH2.
  split; [by apply andb_true_iff|]. cbn [length]. lia.
Qed.
Lemma SHORT_ID_HEX_bytes bs : length bs = 8 → SHORT_ID_HEX (bytes_hex bs) = true.
Proof.
  intros Hl. destruct (bytes_hex_ok bs) as [H1 H2].
  unfold SHORT_ID_HEX. by rewrite H1, H2, Hl.
Qed.
Lemma byte_hex_inj a b : byte_hex a = byte_hex b → a = b.
Proof.
  intros He. assert (∀ x, Byte.of_N (N.of_nat
     (match byte_hex x with String c (String d _) => 16 * hex_val c + hex_val d | _ => 0 end))
     = Some x) as Hd by (by intros []).
  pose proof (Hd a) as Ha. rewrite He, Hd in Ha. by simplify_eq.
Qed.

Lemma prefix_at_most_one t t' s s' :
  RESOURCE_PREFIXES t +:+ s = RESOURCE_PREFIXES t' +:+ s' → t = t' ∧ s = s'.
Proof.
  intros H. destruct t, t'; cbn in H; rewrite ?str_cons_app in H; simplify_eq; auto;
    cbn in *; by rewrite ?str_nil_app in *.
Qed.
Lemma prefix_startsWith t t' s :
  startsWith (RESOURCE_PREFIXES t') (RESOURCE_PREFIXES t +:+ s) = bool_decide (t' = t).
Proof.
  case_bool_decide as Ht; [subst; apply startsWith_app|].
  apply not_true_iff_false. intros [s' Hs]%startsWith_spec.
  apply prefix_at_most_one in Hs as [-> _]. done.
Qed.
Lemma byte_hex_chars b : ∃ c d, byte_hex b = String c (String d "").
Proof. by eexists _, _. Qed.
Lemma bytes_hex_inj a b : bytes_hex a = bytes_hex b → a = b.
Proof.
  revert b. induction a as [|x a IH]; intros [|y b]; [done|by destruct y|by destruct x|].
  cbn [bytes_hex]. destruct (byte_hex_chars x) as (c & d & Hx), (byte_hex_chars y) as (c' & d' & Hy).
  rewrite Hx, Hy, !str_cons_app, !str_nil_app. intros [= <- <- Hr]. f_equal; [|by apply IH].
  apply byte_hex_inj. congruence.
Qed.

Lemma ResourceType_full t : t ∈ ResourceType_values.
Proof. destruct t; set_solver. Qed.

Lemma parse_loop_prefix t s ts :
  t ∈ ts →
  parse_loop (RESOURCE_PREFIXES t +:+ s) (map (λ t, (RESOURCE_PREFIXES t, t)) ts) =
  if SHORT_ID_HEX s then
    Ok {| type := t; prefix := RESOURCE_PREFIXES t; shortId := s;
          fullId := RESOURCE_PREFIXES t +:+ s |}
  else Err (badSuffix (RESOURCE_PREFIXES t +:+ s) (RESOURCE_PREFIXES t) s).
Proof.
  induction ts as [|t' ts IH]; [set_solver|]. intros Hin. cbn [map parse_loop].
  rewrite prefix_startsWith. case_bool_decide; [subst|apply IH; set_solver].
  by rewrite str_drop_app.
Qed.
Lemma extractHex_prefix t s ts :
  t ∈ ts →
  extractHex_loop (RESOURCE_PREFIXES t +:+ s) (map RESOURCE_PREFIXES ts) =
  if SHORT_ID_HEX s then Some s else None.
Proof.
  induction ts as [|t' ts IH]; [set_solver|]. intros Hin. cbn [map extractHex_loop].
  rewrite prefix_startsWith. case_bool_decide; [subst|apply IH; set_solver].
  by rewrite str_drop_app.
Qed.
Lemma split_prefix_prefix t s ts :
  t ∈ ts →
  split_prefix (RESOURCE_PREFIXES t +:+ s) (map RESOURCE_PREFIXES ts) =
  (Some (RESOURCE_PREFIXES t), s).
Proof.
  induction ts as [|t' ts IH]; [set_solver|]. intros Hin. cbn [map split_prefix].
  rewrite prefix_startsWith. case_bool_decide; [subst|apply IH; set_solver].
  by rewrite str_drop_app.
Qed.
(** Whether some prefix applies. *)
Lemma has_prefix_dec s :
  (∃ t r, s = RESOURCE_PREFIXES t +:+ r) ∨ (∀ t, startsWith (RESOURCE_PREFIXES t) s = false).
Proof.
  destruct (decide (Exists (λ t, startsWith (RESOURCE_PREFIXES t) s = true) ResourceType_values))
    as [(t & _ & [r ->]%startsWith_spec)%Exists_exists|Hn].
  - left. eauto.
  - right. intros t. apply not_true_iff_false. intros Ht. apply Hn, Exists_exists.
    exists t. split; [apply ResourceType_full|done].
Qed.
Lemma loops_no_prefix s ts :
  (∀ t, startsWith (RESOURCE_PREFIXES t) s = false) →
  parse_loop s (map (λ t, (RESOURCE_PREFIXES t, t)) ts) =
    Err (ValidationError_create "resourceId" ("Unrecognized resource ID prefix: " +:+ dq s) None) ∧
  extractHex_loop s (map RESOURCE_PREFIXES ts) = None ∧
  split_prefix s (map RESOURCE_PREFIXES ts) = (None, s) ∧
  existsb (λ p, resourceIdSchema p s) (map RESOURCE_PREFIXES ts) = false.
Proof.
  intros Hn. induction ts as [|t ts (IH1 & IH2 & IH3 & IH4)]; [done|].
  cbn [map parse_loop extractHex_loop split_prefix existsb]. unfold resourceIdSchema at 1.
  by rewrite !Hn.
Qed.
Lemma resourceIdSchema_prefix t s :
  resourceIdSchema (RESOURCE_PREFIXES t) (RESOURCE_PREFIXES t +:+ s) = SHORT_ID_HEX s.
Proof. unfold resourceIdSchema. by rewrite startsWith_app, str_drop_app. Qed.
Lemma AnyResourceId_spec s :
  AnyResourceId s = true ↔ ∃ t h, s = RESOURCE_PREFIXES t +:+ h ∧ SHORT_ID_HEX h = true.
Proof.
  unfold AnyResourceId, ALL_PREFIXES. rewrite existsb_exists. split.
  - intros (p & (t & <- & _)%in_map_iff & Hs). unfold resourceIdSchema in Hs.
    destruct (startsWith _ _) eqn:Hp; [|done]. apply startsWith_spec in Hp as [h ->].
    rewrite str_drop_app in Hs. eauto.
  - intros (t & h & -> & Hh). exists (RESOURCE_PREFIXES t). split.
    + apply in_map, list_elem_of_In, ResourceType_full.
    + by rewrite resourceIdSchema_prefix.
Qed.

Lemma parseResourceId_spec id p :
  parseResourceId id = Ok p ↔
  id = RESOURCE_PREFIXES (type p) +:+ shortId p ∧ SHORT_ID_HEX (shortId p) = true ∧
  prefix p = RESOURCE_PREFIXES (type p) ∧ fullId p = id.
Proof.
  unfold parseResourceId, PREFIX_TO_TYPE. split.
  - destruct (has_prefix_dec id) as [(t & r & ->)|Hn].
    + rewrite parse_loop_prefix by apply ResourceType_full.
      destruct (SHORT_ID_HEX r) eqn:?; [|done]. by intros [= <-].
    + destruct (loops_no_prefix id ResourceType_values Hn) as [-> _]. done.
  - destruct p as [t pr h f]. cbn [type prefix shortId fullId]. intros (-> & Hh & -> & ->).
    by rewrite parse_loop_prefix, Hh by apply ResourceType_full.
Qed.

(** C36: identifiers round-trip: what [createResourceId] builds from 8 random
    bytes is accepted by the schemas and parses back to its type and suffix;
    distinct types or distinct bytes give distinct ids, so ids of different
    resource types never collide; and [parseResourceId] succeeds on exactly
    the strings [AnyResourceId] accepts. *)
Theorem createResourceId_roundtrip t bs id :
  length bs = 8 →
  parseResourceId (createResourceId t bs) =
    Ok {| type := t; prefix := RESOURCE_PREFIXES t; shortId := bytes_hex bs;
          fullId := createResourceId t bs |} ∧
  (∀ t' bs', createResourceId t bs = createResourceId t' bs' → t = t' ∧ bs = bs') ∧
  isOk (parseResourceId id) = AnyResourceId id.
Proof.
  intros Hl. repeat split.
  - apply parseResourceId_spec. cbn. auto using SHORT_ID_HEX_bytes.
  - by apply prefix_at_most_one in H as [? _].
  - by apply prefix_at_most_one in H as [_ ?%bytes_hex_inj].
  - apply eq_true_iff_eq. rewrite AnyResourceId_spec. split.
    + destruct (parseResourceId id) as [p|] eqn:Hp; [|done]. intros _.
      apply parseResourceId_spec in Hp as (-> & ? & _). eauto.
    + intros (t' & h & -> & Hh). assert (parseResourceId (RESOURCE_PREFIXES t' +:+ h) =
        Ok {| type := t'; prefix := RESOURCE_PREFIXES t'; shortId := h;
              fullId := RESOURCE_PREFIXES t' +:+ h |}) as ->; [|done].
      by apply parseResourceId_spec.
Qed.
Lemma createResourceId_roundtrip_witness :
  isOk (parseResourceId (createResourceId rt_seal (repeat Byte.x2a 8))) = true.
Proof.
  destruct (createResourceId_roundtrip rt_seal (repeat Byte.x2a 8) "op_" eq_refl) as [-> _].
  reflexivity.
Defined.

(** [s] abbreviates the full id [m]: a non-empty initial part of its hex
    suffix, with or without its type prefix. *)
Definition abbreviates (s m : string) : Prop :=
  ∃ t hp h, m = RESOURCE_PREFIXES t +:+ (hp +:+ h) ∧ SHORT_ID_HEX (hp +:+ h) = true ∧
    hp ≠ "" ∧ (s = hp ∨ s = RESOURCE_PREFIXES t +:+ hp).

Lemma hex_no_prefix t h : str_forallb is_hex (RESOURCE_PREFIXES t +:+ h) = false.
Proof. by destruct t. Qed.
Lemma hex_prefix_free h : str_forallb is_hex h = true →
  ∀ t, startsWith (RESOURCE_PREFIXES t) h = false.
Proof.
  intros Hh t. apply not_true_iff_false. intros [r ->]%startsWith_spec.
  by rewrite hex_no_prefix in Hh.
Qed.
Lemma SHORT_ID_HEX_app a b :
  SHORT_ID_HEX (a +:+ b) = true → str_forallb is_hex a = true ∧
    String.length a + String.length b = 16.
Proof.
  unfold SHORT_ID_HEX. rewrite str_forallb_app, str_length_app, !andb_true_iff.
  rewrite Nat.eqb_eq. by intros (? & ? & ?).
Qed.

(** The matching test of the loop, on a non-empty hex part. *)
Lemma shortId_matches_spec s prefix hp c :
  split_prefix s ALL_PREFIXES = (prefix, hp) → hp ≠ "" → str_forallb is_hex hp = true →
  shortId_matches prefix hp c = true ↔ abbreviates s c.
Proof.
  intros Hsp Hne Hhex. unfold shortId_matches, extractHex, ALL_PREFIXES in *. split.
  - destruct (has_prefix_dec c) as [(t & h & ->)|Hn].
    2: { destruct (loops_no_prefix c ResourceType_values Hn) as (_ & -> & _).
         by rewrite andb_false_r. }
    rewrite extractHex_prefix by apply ResourceType_full.
    destruct (SHORT_ID_HEX h) eqn:Hh; [|by rewrite andb_false_r].
    intros [Hp [r ->]%startsWith_spec]%andb_true_iff. exists t, hp, r.
    split_and!; [done..|]. destruct (has_prefix_dec s) as [(t' & r' & ->)|Hn].
    + rewrite split_prefix_prefix in Hsp by apply ResourceType_full. simplify_eq.
      rewrite prefix_startsWith in Hp. apply bool_decide_eq_true in Hp as ->. by right.
    + destruct (loops_no_prefix s ResourceType_values Hn) as (_ & _ & Hs & _).
      rewrite Hs in Hsp. simplify_eq. by left.
  - intros (t & hp' & h & -> & Hh & Hne' & Hs).
    rewrite extractHex_prefix, Hh by apply ResourceType_full. destruct Hs as [->| ->].
    + apply SHORT_ID_HEX_app in Hh as [Hhp _].
      destruct (loops_no_prefix hp' ResourceType_values (hex_prefix_free _ Hhp))
        as (_ & _ & Hs & _). rewrite Hs in Hsp. simplify_eq. apply startsWith_app.
    + rewrite split_prefix_prefix in Hsp by apply ResourceType_full. simplify_eq.
      by rewrite !startsWith_app.
Qed.

Lemma abbreviates_full s m : AnyResourceId s = true → abbreviates s m ↔ m = s.
Proof.
  intros (t & h & -> & Hh)%AnyResourceId_spec. split.
  - intros (t' & hp & h' & -> & Hh' & _ & [Hs|Hs]).
    + apply SHORT_ID_HEX_app in Hh' as [Hhp _]. by rewrite <-Hs, hex_no_prefix in Hhp.
    + apply prefix_at_most_one in Hs as [-> ->]. apply SHORT_ID_HEX_app in Hh' as [_ Hl].
      unfold SHORT_ID_HEX in Hh. apply andb_true_iff in Hh as [Hl'%Nat.eqb_eq _].
      unfold RESOURCE_ID_HEX_LENGTH in Hl'. destruct h'; [by rewrite str_app_nil_r|].
      cbn in Hl. lia.
  - intros ->. exists t, h, "". rewrite str_app_nil_r. split_and!; [done..| |by right].
    by intros ->.
Qed.

Lemma filter_singleton {A} (f : A → bool) l m :
  NoDup l → List.filter f l = [m] ↔ m ∈ l ∧ f m = true ∧ ∀ m', m' ∈ l → f m' = true → m' = m.
Proof.
  intros Hnd. split.
  - intros Hf. assert (∀ x, x ∈ l ∧ f x = true ↔ x = m) as Hx.
    { intros x. rewrite list_elem_of_In, <-filter_In, Hf. cbn. naive_solver. }
    destruct (proj2 (Hx m) eq_refl). split_and!; [done..|]. intros. by apply Hx.
  - induction Hnd as [|x l Hx Hnd IH]; [set_solver|]. intros (Hin & Hm & Hu). cbn.
    destruct (f x) eqn:Hfx.
    + assert (x = m) as -> by (apply Hu; [left|done]). f_equal.
      destruct (List.filter f l) as [|y ys] eqn:Hl; [done|].
      assert (y ∈ l ∧ f y = true) as [Hy Hfy].
      { rewrite list_elem_of_In, <-filter_In, Hl. by left. }
      destruct Hx. rewrite <-(Hu y); [done|apply elem_of_cons; by right|done].
    + apply IH. split_and!; [apply elem_of_cons in Hin as [->|]; congruence|done|]. intros. apply Hu; [apply elem_of_cons; by right|done].
Qed.

(** short-id resolution: among distinct candidates, [resolveShortId]
    returns [m] exactly when [m] is the one candidate that the given text
    abbreviates (full ids included: a full id abbreviates itself only).  No
    candidate, or several, is always an error and never an arbitrary choice. *)
Theorem resolveShortId_spec s candidates m :
  NoDup candidates →
  resolveShortId s candidates = Ok m ↔
  m ∈ candidates ∧ abbreviates s m ∧
    ∀ m', m' ∈ candidates → abbreviates s m' → m' = m.
Proof.
  intros Hnd. unfold resolveShortId. destruct (AnyResourceId s) eqn:Hfull.
  - assert (∀ x, abbreviates s x ↔ x = s) as Hx by (intros; by apply abbreviates_full).
    setoid_rewrite Hx. case_bool_decide; naive_solver.
  - destruct (split_prefix s ALL_PREFIXES) as [p hp] eqn:Hsp.
    case_match eqn:Hg.
    + split; [done|]. intros (_ & (t & hp' & h & -> & Hh & Hne & Hs) & _). exfalso.
      apply SHORT_ID_HEX_app in Hh as [Hh _].
      assert (hp = hp') as ->.
      { destruct Hs as [->| ->]; unfold ALL_PREFIXES in Hsp.
        - destruct (loops_no_prefix hp' ResourceType_values (hex_prefix_free _ Hh))
            as (_ & _ & Hs & _). rewrite Hs in Hsp. by simplify_eq.
        - rewrite split_prefix_prefix in Hsp by apply ResourceType_full. by simplify_eq. }
      rewrite Hh in Hg. apply orb_true_iff in Hg as [Hg|Hg]; [|done].
      by destruct hp'.
    + apply orb_false_iff in Hg as [Hl Hhex]. apply negb_false_iff in Hhex.
      assert (hp ≠ "") as Hne by (by intros ->).
      assert (∀ x, abbreviates s x ↔ shortId_matches p hp x = true) as Hx
        by (intros; symmetry; by apply shortId_matches_spec).
      setoid_rewrite Hx. rewrite <-filter_singleton by done.
      destruct (List.filter (shortId_matches p hp) candidates) as [|? [|]]; split;
        intros; by simplify_eq.
Qed.
Lemma resolveShortId_spec_witness :
  resolveShortId "seal_2b" [createResourceId rt_seal (repeat Byte.x2a 8);
                            createResourceId rt_seal (repeat Byte.x2b 8)]
  = Ok (createResourceId rt_seal (repeat Byte.x2b 8)).
Proof.
  apply resolveShortId_spec.
  - repeat constructor; vm_compute; set_solver.
  - split; [set_solver|split].
    + exists rt_seal, "2b", "2b2b2b2b2b2b2b". vm_compute. intuition discriminate.
    + intros m' Hm'. rewrite !elem_of_cons in Hm'.
      destruct Hm' as [->|[->|Hm']]; [|done|set_solver].
      intros (t & hp & h & Heq & _ & _ & [<-|Hs]); [by destruct t|].
      destruct t; try discriminate Hs. apply (str_app_inj_l "seal_" "2b") in Hs as <-.
      discriminate Heq.
Defined.
