(* ===== verification/Scopes.v ===== *)
(** * Permission scopes and policies

    [schemas/src/permission-scopes.ts] and [schemas/src/policy.ts]: the 30
    permission scopes, their categories, allow/deny scope sets with
    deny-wins resolution, and the merge of a policy with inline overrides. *)
From S2P Require Import Prelude.

Inductive ScopeCategory :=
  | messaging | group_management | metadata | access | observation | egress.
#[export] Instance ScopeCategory_eq_dec : EqDecision ScopeCategory.
Proof. solve_decision. Defined.

Inductive PermissionScope :=
  | send | reply | react | read_receipt | attachment | add_member | remove_member
  | promote_admin | demote_admin | update_permission | update_name
  | update_description | update_image | invite | join | leave | create_group
  | create_dm | read_messages | read_history | list_members | list_conversations
  | read_permissions | stream_messages | stream_conversations | forward_to_provider
  | store_excerpts | use_for_memory | quote_revealed | summarize.

Definition PERMISSION_SCOPE_VALUES : list PermissionScope :=
  [send; reply; react; read_receipt; attachment; add_member; remove_member;
  promote_admin; demote_admin; update_permission; update_name; update_description;
  update_image; invite; join; leave; create_group; create_dm; read_messages;
  read_history; list_members; list_conversations; read_permissions; stream_messages;
  stream_conversations; forward_to_provider; store_excerpts; use_for_memory;
  quote_revealed; summarize].

(** The kebab-case string of a scope. *)
Definition scope_name (s : PermissionScope) : string :=
  match s with
  | send => "send"
  | reply => "reply"
  | react => "react"
  | read_receipt => "read-receipt"
  | attachment => "attachment"
  | add_member => "add-member"
  | remove_member => "remove-member"
  | promote_admin => "promote-admin"
  | demote_admin => "demote-admin"
  | update_permission => "update-permission"
  | update_name => "update-name"
  | update_description => "update-description"
  | update_image => "update-image"
  | invite => "invite"
  | join => "join"
  | leave => "leave"
  | create_group => "create-group"
  | create_dm => "create-dm"
  | read_messages => "read-messages"
  | read_history => "read-history"
  | list_members => "list-members"
  | list_conversations => "list-conversations"
  | read_permissions => "read-permissions"
  | stream_messages => "stream-messages"
  | stream_conversations => "stream-conversations"
  | forward_to_provider => "forward-to-provider"
  | store_excerpts => "store-excerpts"
  | use_for_memory => "use-for-memory"
  | quote_revealed => "quote-revealed"
  | summarize => "summarize"
  end.

#[export] Instance PermissionScope_eq_dec : EqDecision PermissionScope.
Proof. intros x y. destruct x, y; (by left) || (by right). Defined.

Definition SCOPES_BY_CATEGORY (c : ScopeCategory) : list PermissionScope :=
  match c with
  | messaging =>
      [send; reply; react; read_receipt; attachment]
  | group_management =>
      [add_member; remove_member; promote_admin; demote_admin; update_permission]
  | metadata =>
      [update_name; update_description; update_image]
  | access =>
      [invite; join; leave; create_group; create_dm]
  | observation =>
      [read_messages; read_history; list_members; list_conversations;
      read_permissions; stream_messages; stream_conversations]
  | egress =>
      [forward_to_provider; store_excerpts; use_for_memory; quote_revealed; summarize]
  end.
Definition ScopeCategory_values : list ScopeCategory :=
  [messaging; group_management; metadata; access; observation; egress].

Record ScopeSetType := { allow : list PermissionScope; deny : list PermissionScope }.
#[export] Instance ScopeSetType_eq_dec : EqDecision ScopeSetType.
Proof. solve_decision. Defined.

(** The loop over [allow], with [denied] a [Set] and [result] the accumulator. *)
Definition resolveScopeSet (scopeSet : ScopeSetType) : list PermissionScope :=
  let denied := js_set (deny scopeSet) in
  foldl (λ result scope, if negb (set_has denied scope) then set_add result scope else result)
    [] (allow scopeSet).
Definition isScopeAllowed (scope : PermissionScope) (resolved : list PermissionScope) : bool :=
  set_has resolved scope.
Definition isScopeInCategory (scope : PermissionScope) (category : ScopeCategory) : bool :=
  bool_decide (scope ∈ SCOPES_BY_CATEGORY category).

(** ** Policies *)
Record PolicyConfigType := {
  label : string; policy_allow : list PermissionScope; policy_deny : list PermissionScope
}.
Definition PolicyConfig (c : PolicyConfigType) : bool :=
  (1 <=? String.length (label c))%nat.
Record PolicyRecordType := {
  policy_id : string; policy_config : PolicyConfigType;
  policy_createdAt : string; policy_updatedAt : string
}.

Definition resolvePolicy (policy : PolicyConfigType)
  (inlineAllow inlineDeny : option (list PermissionScope)) : ScopeSetType :=
  {| allow := policy_allow policy ++ default [] inlineAllow;
     deny := policy_deny policy ++ default [] inlineDeny |}.

(** ** Lemmas *)
#[export] Instance scope_name_Inj : Inj (=) (=) scope_name.
Proof. intros a b. destruct a, b; (reflexivity || discriminate). Qed.
Lemma scope_name_inj a b : scope_name a = scope_name b → a = b.
Proof. apply (inj scope_name). Qed.

Lemma resolve_fold_elem (denied l acc : list PermissionScope) s :
  s ∈ foldl (λ r x, if negb (set_has denied x) then set_add r x else r) acc l ↔
  s ∈ acc ∨ (s ∈ l ∧ s ∉ denied).
Proof.
  revert acc. induction l as [|x l IH]; intros acc; cbn [foldl]; [set_solver|].
  rewrite IH. destruct (set_has denied x) eqn:Hx; cbn [negb].
  - apply set_has_spec in Hx. set_solver.
  - apply set_has_false in Hx. rewrite elem_of_set_add. set_solver.
Qed.
Lemma resolveScopeSet_elem ss s :
  s ∈ resolveScopeSet ss ↔ s ∈ allow ss ∧ s ∉ deny ss.
Proof. unfold resolveScopeSet. rewrite resolve_fold_elem, elem_of_js_set. set_solver. Qed.
Lemma resolveScopeSet_NoDup ss : NoDup (resolveScopeSet ss).
Proof.
  unfold resolveScopeSet. generalize (js_set (deny ss)) as d. intros d.
  assert (NoDup (@nil PermissionScope)) as Hn by constructor. revert Hn.
  generalize (@nil PermissionScope) as acc. generalize (allow ss) as l.
  induction l as [|x l IH]; intros acc Hacc; cbn [foldl]; [done|].
  apply IH. case_match; auto using NoDup_set_add.
Qed.
Lemma isScopeAllowed_spec s ss :
  isScopeAllowed s (resolveScopeSet ss) = true ↔ s ∈ allow ss ∧ s ∉ deny ss.
Proof. unfold isScopeAllowed. by rewrite set_has_spec, resolveScopeSet_elem. Qed.

(** deny always wins, through every layer: a scope is effective for a
    credential's policy merged with its inline overrides exactly when the
    policy or the overrides allow it and neither denies it.  In particular
    extra inline denies never widen the effective set, and extra allows
    never lift a denial. *)
Theorem deny_wins (p : PolicyConfigType) ia id s :
  (isScopeAllowed s (resolveScopeSet (resolvePolicy p ia id)) = true ↔
    (s ∈ policy_allow p ∨ s ∈ default [] ia) ∧
    s ∉ policy_deny p ∧ s ∉ default [] id) ∧
  NoDup (resolveScopeSet (resolvePolicy p ia id)) ∧
  resolveScopeSet (resolvePolicy p ia id) ⊆ resolveScopeSet (resolvePolicy p ia None) ∧
  (s ∈ policy_deny p → s ∉ resolveScopeSet (resolvePolicy p ia id)).
Proof.
  split_and!.
  - rewrite isScopeAllowed_spec. unfold resolvePolicy. cbn. set_solver.
  - apply resolveScopeSet_NoDup.
  - intros x. rewrite !resolveScopeSet_elem. unfold resolvePolicy. cbn. set_solver.
  - rewrite resolveScopeSet_elem. unfold resolvePolicy. cbn. set_solver.
Qed.

(** the categories partition the scopes: every scope is listed under
    exactly one category, none is listed twice, and together the categories
    list the 30 scopes of the enumeration in its order. *)
Theorem categories_partition (s : PermissionScope) :
  (∃ c, isScopeInCategory s c = true ∧ ∀ c', isScopeInCategory s c' = true → c' = c) ∧
  flat_map SCOPES_BY_CATEGORY ScopeCategory_values = PERMISSION_SCOPE_VALUES ∧
  NoDup PERMISSION_SCOPE_VALUES ∧ s ∈ PERMISSION_SCOPE_VALUES ∧
  length PERMISSION_SCOPE_VALUES = 30.
Proof.
  split_and!; [|done| |destruct s; set_solver|done].
  - assert (∃ c, isScopeInCategory s c = true) as [c Hc].
    { destruct s; solve [by exists messaging|by exists group_management|by exists metadata
        |by exists access|by exists observation|by exists egress]. }
    exists c. split; [done|]. intros c' Hc'.
    destruct s, c; try discriminate Hc; destruct c'; try discriminate Hc'; done.
  - apply (NoDup_fmap_1 scope_name). apply (bool_decide_unpack _). vm_compute. exact I.
Qed.
