(* ===== verification/Policy.v ===== *)
(** * The policy engine

    The [policy] package: the effective content-type allowlist, the scope
    guard, the validation of outbound requests, the materiality of a scope
    change (here and in [sessions/src/materiality.ts]), and the projection
    pipeline that decides what an agent sees of a message. *)
From S2P Require Import Prelude Json Errors Scopes.

(** ** [allowlist.ts] *)
Abbreviation ContentTypeId := string (only parsing).
Definition resolveEffectiveAllowlist (baseline signetAllowlist agentAllowlist : list ContentTypeId)
  : result SignetError (list ContentTypeId) :=
  let baselineSet := js_set baseline in
  let effective := foldl (λ eff ct,
    if set_has baselineSet ct && set_has signetAllowlist ct then set_add eff ct else eff)
    [] agentAllowlist in
  if (length effective =? 0)%nat then
    Err (ValidationError_create "contentTypes"
      "Effective content type allowlist is empty: no types are permitted across baseline, signet, and agent allowlists"
      None)
  else Ok effective.

(** ** [scope-guard.ts]: [lookup] is the credential lookup callback *)
Section guard.
Context (lookup : string → result SignetError ScopeSetType).
Definition guard_check (scope : PermissionScope) (credentialId : string)
  : result SignetError bool :=
  match lookup credentialId with
  | Err e => Err e
  | Ok scopes => Ok (set_has (resolveScopeSet scopes) scope)
  end.
Definition guard_effectiveScopes (credentialId : string) : result SignetError ScopeSetType :=
  lookup credentialId.
End guard.

(** ** [permissions/*.ts]: [scopes] is a [ReadonlySet<string>] *)
Definition checkChatInScope (chatId : string) (chatIds : list string) : result SignetError unit :=
  if negb (bool_decide (chatId ∈ chatIds)) then
    Err (PermissionError_create
           ("Chat " +:+ q chatId +:+ " is not in the credential's scoped conversations")
           (Some [("chatId", JStr chatId)]))
  else Ok tt.
Definition denied (scope : string) : SignetError :=
  PermissionError_create ("Permission denied: " +:+ scope) (Some [("scope", JStr scope)]).
Definition validateEgress (scope : string) (scopes : list string) : result SignetError unit :=
  if negb (set_has scopes scope) then Err (denied scope) else Ok tt.
Definition validateGroupManagement (scope groupId : string) (scopes chatIds : list string)
  : result SignetError unit :=
  match checkChatInScope groupId chatIds with
  | Err e => Err e
  | Ok _ => if negb (set_has scopes scope) then Err (denied scope) else Ok tt
  end.
Definition validateSendReaction (groupId : string) (scopes chatIds : list string)
  : result SignetError unit :=
  match checkChatInScope groupId chatIds with
  | Err e => Err e
  | Ok _ => if negb (set_has scopes "react") then Err (denied "react") else Ok tt
  end.
Record SendValidation := { draftOnly : bool }.
Definition validateSendMessage (groupId : string) (scopes chatIds : list string)
  : result SignetError SendValidation :=
  match checkChatInScope groupId chatIds with
  | Err e => Err e
  | Ok _ =>
      if negb (set_has scopes "send") then Err (denied "send")
      else Ok {| draftOnly := false |}
  end.
Definition validateSendReply (groupId : string) (scopes chatIds : list string)
  : result SignetError unit :=
  match checkChatInScope groupId chatIds with
  | Err e => Err e
  | Ok _ => if negb (set_has scopes "reply") then Err (denied "reply") else Ok tt
  end.

(** ** Scope deltas and their materiality *)
Inductive AllowDeny := Allow | Deny.
#[export] Instance AllowDeny_eq_dec : EqDecision AllowDeny.
Proof. solve_decision. Defined.
Record ScopePolicyChange := { scope : PermissionScope; from : AllowDeny; to : AllowDeny }.
Record PolicyDelta := {
  added : list PermissionScope; removed : list PermissionScope;
  changed : list ScopePolicyChange
}.

(** [policy/src/materiality.ts] *)
Definition isSingleDeltaMaterial (d : PolicyDelta) : bool :=
  (0 <? length (added d))%nat || (0 <? length (removed d))%nat || (0 <? length (changed d))%nat.
Definition isSingleDeltaEscalation (d : PolicyDelta) : bool :=
  (0 <? length (added d))%nat || existsb (λ c, bool_decide (to c = Allow)) (changed d).
(** A single delta or an array of them. *)
Definition normalizeDeltas (ds : PolicyDelta + list PolicyDelta) : list PolicyDelta :=
  match ds with inl d => [d] | inr l => l end.
Definition isMaterialChange (ds : PolicyDelta + list PolicyDelta) : bool :=
  existsb isSingleDeltaMaterial (normalizeDeltas ds).
Definition requiresReauthorization (ds : PolicyDelta + list PolicyDelta) : bool :=
  existsb isSingleDeltaEscalation (normalizeDeltas ds).

(** [sessions/src/materiality.ts] *)
Record DetailedMaterialityCheck := {
  isMaterial : bool; mc_reason : option string; delta : PolicyDelta;
  mc_requiresReauthorization : bool
}.
Definition push_added s d :=
  {| added := added d ++ [s]; removed := removed d; changed := changed d |}.
Definition push_removed s d :=
  {| added := added d; removed := removed d ++ [s]; changed := changed d |}.
Definition push_changed c d :=
  {| added := added d; removed := removed d; changed := changed d ++ [c] |}.

(** The body of the loop over [allScopes]. *)
Definition materiality_step (oldS newS : ScopeSetType) (d : PolicyDelta) (s : PermissionScope)
  : PolicyDelta :=
  let oldAllowed := set_has (allow oldS) s && negb (set_has (deny oldS) s) in
  let newAllowed := set_has (allow newS) s && negb (set_has (deny newS) s) in
  if Bool.eqb oldAllowed newAllowed then d
  else if negb oldAllowed && newAllowed then
    if set_has (allow oldS) s || set_has (deny oldS) s
    then push_changed {| scope := s; from := Deny; to := Allow |} d
    else push_added s d
  else if set_has (deny newS) s
    then push_changed {| scope := s; from := Allow; to := Deny |} d
    else push_removed s d.
Definition js_sets (ss : ScopeSetType) : ScopeSetType :=
  {| allow := js_set (allow ss); deny := js_set (deny ss) |}.
Definition emptyDelta : PolicyDelta := {| added := []; removed := []; changed := [] |}.
Definition materiality_delta (oldScopes newScopes : ScopeSetType) : PolicyDelta :=
  let o := js_sets oldScopes in
  let n := js_sets newScopes in
  let allScopes := js_set (allow o ++ deny o ++ allow n ++ deny n) in
  foldl (materiality_step o n) emptyDelta allScopes.

Definition ad_name (a : AllowDeny) : string := match a with Allow => "allow" | Deny => "deny" end.
Definition buildReason (d : PolicyDelta) : string :=
  let part name l := match l with
    | [] => []
    | _ => [name +:+ ": " +:+ str_join ", " l]
    end in
  let parts :=
    part "added" (map scope_name (added d)) ++
    part "removed" (map scope_name (removed d)) ++
    part "changed" (map (λ c, scope_name (scope c) +:+ " (" +:+ ad_name (from c) +:+
                               " -> " +:+ ad_name (to c) +:+ ")") (changed d)) in
  "Material change: " +:+ str_join "; " parts.

Definition checkMateriality (oldScopes newScopes : ScopeSetType) : DetailedMaterialityCheck :=
  let d := materiality_delta oldScopes newScopes in
  let material := (0 <? length (added d))%nat || (0 <? length (removed d))%nat
                  || (0 <? length (changed d))%nat in
  let escalations := List.filter (λ c, bool_decide (to c = Allow)) (changed d) in
  {| isMaterial := material;
     mc_reason := if material then Some (buildReason d) else None;
     delta := d;
     mc_requiresReauthorization :=
       (0 <? length (added d))%nat || (0 <? length escalations)%nat |}.

(** ** The projection pipeline ([pipeline/*.ts]) *)
Inductive MessageVisibility := visible | historical | hidden | revealed | redacted.
#[export] Instance MessageVisibility_eq_dec : EqDecision MessageVisibility.
Proof. solve_decision. Defined.

Record RawMessage := {
  messageId : string; groupId : string; senderInboxId : string;
  contentType : ContentTypeId; content : json; sentAt : string;
  threadId : option string; sealId : option string; isHistorical : option bool
}.
Record MessageEvent := {
  ev_messageId : string; ev_groupId : string; ev_senderInboxId : string;
  ev_contentType : ContentTypeId; ev_content : json; ev_visibility : MessageVisibility;
  ev_sentAt : string; ev_sealId : option string; ev_threadId : option string
}.
Inductive ProjectionResult := Emit (event : MessageEvent) | Drop.

Definition isInScope (groupId : string) (chatIds : list string) : bool :=
  bool_decide (groupId ∈ chatIds).
Definition isContentTypeAllowed (ct : ContentTypeId) (allowlist : list ContentTypeId) : bool :=
  set_has allowlist ct.
Definition resolveVisibility (scopes : list string) (isRevealed : bool) : MessageVisibility :=
  if set_has scopes "read-messages" then visible
  else if isRevealed then revealed else hidden.
Definition projectContent (content : json) (visibility : MessageVisibility) : json :=
  match visibility with
  | visible | historical | revealed => content
  | redacted | hidden => JNull
  end.

Definition projectMessage (m : RawMessage) (scopes chatIds effectiveAllowlist : list string)
  (isRevealed : bool) : ProjectionResult :=
  if negb (isInScope (groupId m) chatIds) then Drop
  else if negb (isContentTypeAllowed (contentType m) effectiveAllowlist) then Drop
  else
    let baseVisibility := resolveVisibility scopes isRevealed in
    if bool_decide (baseVisibility = hidden) then Drop
    else if bool_decide (isHistorical m = Some true) && negb (set_has scopes "read-history")
    then Drop
    else
      let visibility :=
        if bool_decide (isHistorical m = Some true) && bool_decide (baseVisibility = visible)
        then historical else baseVisibility in
      Emit {| ev_messageId := messageId m; ev_groupId := groupId m;
              ev_senderInboxId := senderInboxId m; ev_contentType := contentType m;
              ev_content := projectContent (content m) visibility;
              ev_visibility := visibility; ev_sentAt := sentAt m;
              ev_sealId := sealId m; ev_threadId := threadId m |}.

(** ** Lemmas on deltas *)
Definition effective (ss : ScopeSetType) (s : PermissionScope) : Prop :=
  s ∈ allow ss ∧ s ∉ deny ss.
#[export] Instance effective_dec ss s : Decision (effective ss s).
Proof. unfold effective. apply _. Defined.
Definition mentioned (ss : ScopeSetType) (s : PermissionScope) : Prop :=
  s ∈ allow ss ∨ s ∈ deny ss.
Lemma effective_resolve ss s : effective ss s ↔ s ∈ resolveScopeSet ss.
Proof. by rewrite resolveScopeSet_elem. Qed.
Lemma effective_test ss s :
  set_has (allow ss) s && negb (set_has (deny ss) s) = bool_decide (effective ss s).
Proof.
  apply eq_true_iff_eq. rewrite andb_true_iff, negb_true_iff, set_has_spec, set_has_false.
  by rewrite bool_decide_eq_true.
Qed.

(** What one scope contributes to the delta. *)
Inductive contribution := NoChange | Added | Removed | Flip (to : AllowDeny).
Definition contributes (o n : ScopeSetType) (s : PermissionScope) : contribution :=
  match bool_decide (effective o s), bool_decide (effective n s) with
  | true, true | false, false => NoChange
  | false, true => if bool_decide (mentioned o s) then Flip Allow else Added
  | true, false => if bool_decide (s ∈ deny n) then Flip Deny else Removed
  end.
Definition flip_of (s : PermissionScope) (t : AllowDeny) : ScopePolicyChange :=
  {| scope := s; from := match t with Allow => Deny | Deny => Allow end; to := t |}.

Definition apply_contribution (s : PermissionScope) (c : contribution) (d : PolicyDelta)
  : PolicyDelta :=
  match c with
  | NoChange => d
  | Added => push_added s d
  | Removed => push_removed s d
  | Flip t => push_changed (flip_of s t) d
  end.
Definition is_Added (c : contribution) : bool := match c with Added => true | _ => false end.
Definition is_Removed (c : contribution) : bool := match c with Removed => true | _ => false end.
Definition flips (s : PermissionScope) (c : contribution) : list ScopePolicyChange :=
  match c with Flip t => [flip_of s t] | _ => [] end.

(** A loop that makes one contribution per scope. *)
Lemma contribution_fold (step : PolicyDelta → PermissionScope → PolicyDelta) f l d :
  (∀ d s, step d s = apply_contribution s (f s) d) →
  added (foldl step d l) = added d ++ List.filter (λ s, is_Added (f s)) l ∧
  removed (foldl step d l) = removed d ++ List.filter (λ s, is_Removed (f s)) l ∧
  changed (foldl step d l) = changed d ++ flat_map (λ s, flips s (f s)) l.
Proof.
  intros Hstep. revert d. induction l as [|s l IH]; intros d; cbn [foldl List.filter flat_map].
  { by rewrite !app_nil_r. }
  destruct (IH (step d s)) as (-> & -> & ->). rewrite Hstep.
  destruct (f s); cbn; by rewrite <-?app_assoc.
Qed.
Lemma elem_of_Filter {A} (f : A → bool) l x : x ∈ List.filter f l ↔ x ∈ l ∧ f x = true.
Proof. by rewrite list_elem_of_In, filter_In, <-list_elem_of_In. Qed.
Lemma elem_of_flips f l c :
  c ∈ flat_map (λ s, flips s (f s)) l ↔
  scope c ∈ l ∧ ∃ t, f (scope c) = Flip t ∧ c = flip_of (scope c) t.
Proof.
  rewrite list_elem_of_In, in_flat_map. split.
  - intros (x & Hx & Hc). unfold flips in Hc. destruct (f x) eqn:Hf; cbn in Hc; try done.
    destruct Hc as [<-|[]]. cbn. apply list_elem_of_In in Hx. eauto.
  - intros (Hc & t & Ht & ->). exists (scope c). cbn. split; [by apply list_elem_of_In|].
    rewrite Ht. by left.
Qed.

Lemma materiality_step_spec o n d s :
  materiality_step o n d s = apply_contribution s (contributes o n s) d.
Proof.
  unfold materiality_step, contributes. rewrite !effective_test.
  assert (set_has (allow o) s || set_has (deny o) s = bool_decide (mentioned o s)) as ->.
  { apply eq_true_iff_eq. rewrite orb_true_iff, !set_has_spec.
    by rewrite bool_decide_eq_true. }
  unfold set_has at 1.
  destruct (bool_decide (effective o s)), (bool_decide (effective n s)); cbn; try done;
    by case_match.
Qed.

Lemma js_sets_effective ss s : effective (js_sets ss) s ↔ effective ss s.
Proof. unfold effective, js_sets; cbn. by rewrite !elem_of_js_set. Qed.
Lemma js_sets_mentioned ss s : mentioned (js_sets ss) s ↔ mentioned ss s.
Proof. unfold mentioned, js_sets; cbn. by rewrite !elem_of_js_set. Qed.
Lemma contributes_js_sets o n s : contributes (js_sets o) (js_sets n) s = contributes o n s.
Proof.
  unfold contributes. rewrite !(bool_decide_ext _ _ (js_sets_effective _ s)).
  rewrite (bool_decide_ext _ _ (js_sets_mentioned _ s)).
  by rewrite (bool_decide_ext (s ∈ deny (js_sets n)) (s ∈ deny n)) by apply elem_of_js_set.
Qed.
Lemma contributes_mentioned o n s : contributes o n s ≠ NoChange → mentioned o s ∨ mentioned n s.
Proof.
  unfold contributes, effective, mentioned. repeat case_bool_decide; naive_solver.
Qed.

(** The three lists, scope by scope. *)
Lemma materiality_delta_spec o n s :
  (s ∈ added (materiality_delta o n) ↔ contributes o n s = Added) ∧
  (s ∈ removed (materiality_delta o n) ↔ contributes o n s = Removed) ∧
  (∀ c, c ∈ changed (materiality_delta o n) ↔
     ∃ t, contributes o n (scope c) = Flip t ∧ c = flip_of (scope c) t).
Proof.
  unfold materiality_delta. cbv zeta.
  destruct (contribution_fold (materiality_step (js_sets o) (js_sets n))
    (contributes (js_sets o) (js_sets n))
    (js_set (allow (js_sets o) ++ deny (js_sets o) ++ allow (js_sets n) ++ deny (js_sets n)))
    emptyDelta) as (-> & -> & ->); [intros; apply materiality_step_spec|].
  assert (∀ x, contributes o n x ≠ NoChange →
    x ∈ js_set (allow (js_sets o) ++ deny (js_sets o) ++ allow (js_sets n) ++ deny (js_sets n))) as Hin.
  { intros x [[]|[]]%contributes_mentioned; rewrite elem_of_js_set, !elem_of_app; cbn;
      rewrite !elem_of_js_set; auto. }
  cbn [app emptyDelta added removed changed].
  setoid_rewrite elem_of_flips. rewrite !elem_of_Filter. setoid_rewrite contributes_js_sets.
  split_and!.
  - split; [intros [_ H]; by destruct (contributes o n s)|].
    intros H. rewrite H. split; [apply Hin; congruence|done].
  - split; [intros [_ H]; by destruct (contributes o n s)|].
    intros H. rewrite H. split; [apply Hin; congruence|done].
  - intros c. split; [naive_solver|]. intros (t & Ht & Hc). split; [apply Hin; congruence|eauto].
Qed.

Lemma length_pos_iff {A} (l : list A) : (0 <? length l)%nat = true ↔ ∃ x, x ∈ l.
Proof.
  rewrite Nat.ltb_lt. destruct l as [|x l]; cbn; split; [lia|by intros [? ?%elem_of_nil]| |lia].
  exists x. apply list_elem_of_here.
Qed.
Lemma existsb_elem {A} (f : A → bool) l : existsb f l = true ↔ ∃ x, x ∈ l ∧ f x = true.
Proof. rewrite existsb_exists. by setoid_rewrite list_elem_of_In. Qed.
Lemma filter_pos {A} (f : A → bool) l :
  (0 <? length (List.filter f l))%nat = existsb f l.
Proof.
  apply eq_true_iff_eq. rewrite length_pos_iff, existsb_elem.
  by split; intros [x Hx]; exists x; revert Hx;
    rewrite (list_elem_of_In (List.filter _ _)), filter_In, <-list_elem_of_In.
Qed.

Lemma escalation_spec o n :
  isSingleDeltaEscalation (materiality_delta o n) = true ↔
  ∃ s, effective n s ∧ ¬ effective o s.
Proof.
  unfold isSingleDeltaEscalation. rewrite orb_true_iff, length_pos_iff, existsb_elem. split.
  - intros [[s Hs]|(c & Hc & Ht)].
    + apply (materiality_delta_spec o n s) in Hs. exists s. revert Hs.
      unfold contributes. repeat case_bool_decide; naive_solver.
    + apply (materiality_delta_spec o n (scope c)) in Hc as (t & Hc & Heq). exists (scope c).
      rewrite Heq in Ht. apply bool_decide_eq_true in Ht. cbn in Ht. subst t. revert Hc.
      unfold contributes. repeat case_bool_decide; naive_solver.
  - intros (s & Hn & Ho). destruct (materiality_delta_spec o n s) as (Ha & _ & Hc).
    destruct (decide (mentioned o s)) as [Hm|Hm].
    + right. exists (flip_of s Allow). split; [|done]. apply Hc. exists Allow.
      split; [|done]. cbn. unfold contributes.
      by rewrite bool_decide_false, !bool_decide_true.
    + left. exists s. apply Ha. unfold contributes.
      by rewrite bool_decide_false, bool_decide_true, bool_decide_false.
Qed.
Lemma material_spec o n :
  isSingleDeltaMaterial (materiality_delta o n) = false ↔
  ∀ s, effective o s ↔ effective n s.
Proof.
  assert (isSingleDeltaMaterial (materiality_delta o n) = true ↔
    ∃ s, contributes o n s ≠ NoChange) as Hm.
  { unfold isSingleDeltaMaterial. rewrite !orb_true_iff, !length_pos_iff. split.
    - intros [[[s Hs]|[s Hs]]|[c Hc]].
      + apply (materiality_delta_spec o n s) in Hs. exists s. congruence.
      + apply (materiality_delta_spec o n s) in Hs. exists s. congruence.
      + apply (materiality_delta_spec o n (scope c)) in Hc as (t & Hc & _).
        exists (scope c). congruence.
    - intros [s Hs]. destruct (materiality_delta_spec o n s) as (Ha & Hr & Hc).
      destruct (contributes o n s) as [| | |t] eqn:E; [done|left; left|left; right|right].
      + exists s. by apply Ha.
      + exists s. by apply Hr.
      + exists (flip_of s t). apply Hc. by exists t. }
  assert (∀ s, contributes o n s = NoChange ↔ (effective o s ↔ effective n s)) as Hs.
  { intros s. unfold contributes. repeat case_bool_decide; naive_solver. }
  rewrite <-not_true_iff_false, Hm. setoid_rewrite <-Hs. split; [|naive_solver].
  intros H s. destruct (contributes o n s) eqn:E; [done|..]; destruct H; exists s; congruence.
Qed.

(** the materiality of a scope change is judged on the effective
    (deny-wins) scopes: [checkMateriality] reports no change exactly when the
    effective sets are equal, demands reauthorization exactly when some scope
    becomes effective that was not (no privilege escalation passes silently,
    and no pure restriction is blocked), gives a reason exactly for material
    changes, and agrees with the policy engine's own classification of the
    reported delta. *)
Theorem checkMateriality_spec o n :
  let r := checkMateriality o n in
  (isMaterial r = false ↔ ∀ s, effective o s ↔ effective n s) ∧
  (mc_requiresReauthorization r = true ↔ ∃ s, effective n s ∧ ¬ effective o s) ∧
  (is_Some (mc_reason r) ↔ isMaterial r = true) ∧
  isMaterial r = isMaterialChange (inl (delta r)) ∧
  mc_requiresReauthorization r = requiresReauthorization (inl (delta r)).
Proof.
  unfold checkMateriality, isMaterialChange, requiresReauthorization.
  cbn [isMaterial mc_requiresReauthorization mc_reason delta normalizeDeltas].
  rewrite filter_pos. cbn [existsb]. rewrite !orb_false_r.
  split_and!; [apply material_spec|apply escalation_spec| |done|done].
  destruct (_ || _ || _); split; try done; by intros [].
Qed.

(** nothing is shown outside the credential's rights: a message is
    projected exactly when its chat is in the credential's scope, its content
    type is allowed, the agent may read messages or the message is revealed,
    and, for a historical message, the agent may read history.  An emitted
    event carries the original content and metadata unchanged, and is marked
    historical, revealed or visible accordingly. *)
Theorem projectMessage_spec m scopes chatIds allowlist isRevealed ev :
  projectMessage m scopes chatIds allowlist isRevealed = Emit ev ↔
  (groupId m ∈ chatIds ∧ contentType m ∈ allowlist ∧
   ("read-messages" ∈ scopes ∨ isRevealed = true) ∧
   (isHistorical m = Some true → "read-history" ∈ scopes)) ∧
  ev = {| ev_messageId := messageId m; ev_groupId := groupId m;
          ev_senderInboxId := senderInboxId m; ev_contentType := contentType m;
          ev_content := content m;
          ev_visibility :=
            if decide ("read-messages" ∈ scopes) then
              if decide (isHistorical m = Some true) then historical else visible
            else revealed;
          ev_sentAt := sentAt m; ev_sealId := sealId m; ev_threadId := threadId m |}.
Proof.
  unfold projectMessage, isInScope, isContentTypeAllowed, resolveVisibility, set_has.
  destruct isRevealed; repeat (case_bool_decide || case_decide; cbn); simplify_eq;
    split; intros; try naive_solver.
  all: destruct_and?; destruct_or?; naive_solver.
Qed.

(** outbound requests are authorized by chat and by scope: each of the
    four chat-bound validators succeeds exactly when the chat is one of the
    credential's and the scope for that kind of request is held; egress needs
    its scope alone; every refusal is a [PermissionError]; and the scope guard
    answers from the deny-wins resolution of the looked-up scope set. *)
Theorem permissions_spec group sc scopes chatIds lookup credId ps ss :
  (isOk (validateSendMessage group scopes chatIds) = true ↔ group ∈ chatIds ∧ "send" ∈ scopes) ∧
  (isOk (validateSendReply group scopes chatIds) = true ↔ group ∈ chatIds ∧ "reply" ∈ scopes) ∧
  (isOk (validateSendReaction group scopes chatIds) = true ↔ group ∈ chatIds ∧ "react" ∈ scopes) ∧
  (isOk (validateGroupManagement sc group scopes chatIds) = true ↔
     group ∈ chatIds ∧ sc ∈ scopes) ∧
  (isOk (validateEgress sc scopes) = true ↔ sc ∈ scopes) ∧
  (∀ e, validateGroupManagement sc group scopes chatIds = Err e → _tag e = PermissionError) ∧
  (lookup credId = Ok ss →
     guard_check lookup ps credId = Ok (bool_decide (effective ss ps))) ∧
  (∀ e, lookup credId = Err e → guard_check lookup ps credId = Err e).
Proof.
  unfold validateSendMessage, validateSendReply, validateSendReaction,
    validateGroupManagement, validateEgress, checkChatInScope, guard_check, set_has.
  split_and!; try (repeat case_bool_decide; naive_solver).
  - intros ->. f_equal. apply bool_decide_ext. symmetry. apply effective_resolve.
  - by intros e ->.
Qed.
Lemma permissions_spec_witness :
  guard_check (λ _, Ok {| allow := [send; reply]; deny := [reply] |}) reply "cred_1" = Ok false.
Proof.
  destruct (permissions_spec "g" "send" [] [] (λ _, Ok {| allow := [send; reply]; deny := [reply] |})
    "cred_1" reply {| allow := [send; reply]; deny := [reply] |}) as (_&_&_&_&_&_&H&_).
  rewrite (H eq_refl). reflexivity.
Defined.

Lemma allowlist_fold (b s l acc : list string) ct :
  ct ∈ foldl (λ eff ct, if set_has b ct && set_has s ct then set_add eff ct else eff) acc l ↔
  ct ∈ acc ∨ (ct ∈ l ∧ ct ∈ b ∧ ct ∈ s).
Proof.
  revert acc. induction l as [|x l IH]; intros acc; cbn [foldl]; [set_solver|].
  rewrite IH. destruct (set_has b x && set_has s x) eqn:Hx.
  - apply andb_true_iff in Hx as [?%set_has_spec ?%set_has_spec].
    rewrite elem_of_set_add. set_solver.
  - apply andb_false_iff in Hx as [?%set_has_false|?%set_has_false]; set_solver.
Qed.
(** the effective content-type allowlist is the intersection of the
    baseline, signet and agent lists, and an empty intersection is an error
    and never an allowlist that admits nothing. *)
Theorem resolveEffectiveAllowlist_spec baseline signet agent :
  match resolveEffectiveAllowlist baseline signet agent with
  | Ok eff => eff ≠ [] ∧ ∀ ct, ct ∈ eff ↔ ct ∈ baseline ∧ ct ∈ signet ∧ ct ∈ agent
  | Err e => _tag e = ValidationError ∧
      ¬ ∃ ct, ct ∈ baseline ∧ ct ∈ signet ∧ ct ∈ agent
  end.
Proof.
  unfold resolveEffectiveAllowlist.
  pose proof (allowlist_fold (js_set baseline) signet agent []) as Hf.
  setoid_rewrite elem_of_js_set in Hf.
  set (eff := foldl _ [] agent) in *. destruct eff as [|x eff]; cbn [length Nat.eqb].
  - split; [done|]. intros [ct Hct]. assert (ct ∈ @nil string); [apply Hf; naive_solver|].
    set_solver.
  - split; [done|]. intros ct. rewrite Hf. set_solver.
Qed.
