(* ===== verification/Reveal.v ===== *)
(** * Reveals and event projection

    [policy/src/reveal-state.ts] (the reveal store of a credential),
    [cli/src/ws/event-projector.ts] (what a connected agent is sent) and the
    replay of revealed messages in [cli/src/ws/request-handler.ts]. *)
From S2P Require Import Prelude JsDate Json Errors Scopes Policy.

Inductive RevealScope := rs_message | rs_thread | rs_time_window | rs_content_type | rs_sender.
Record RevealRequest := {
  req_revealId : string; req_groupId : string; req_scope : RevealScope;
  req_targetId : string; req_requestedBy : string; req_expiresAt : option string
}.
Record RevealAccess := {
  acc_revealId : string; acc_grantedAt : string; acc_grantedBy : string;
  acc_expiresAt : option string
}.
Record RevealEntry := { access : RevealAccess; request : RevealRequest }.
(** The store's [entries] array; a snapshot has the same content. *)
Abbreviation RevealStore := (list RevealEntry).

(** The coordinates of a message a reveal can match. *)
Record MessageKey := {
  mk_messageId : string; mk_groupId : string; mk_threadId : option string;
  mk_sender : string; mk_contentType : string; mk_sentAt : string
}.

Section store.
Context `{JsDate}.

(** [expiresAt !== null && new Date(expiresAt).getTime() <= now] *)
Definition entry_expired (now : Z) (e : RevealEntry) : bool :=
  match acc_expiresAt (access e) with
  | Some t => num_leb (date_getTime t) (Some now)
  | None => false
  end.
Definition in_window (target sentAt : string) : bool :=
  match str_indexOf "|"%char target with
  | None => false
  | Some pipeIdx =>
      let windowStart := date_getTime (str_take pipeIdx target) in
      let windowEnd := date_getTime (str_drop (pipeIdx + 1) target) in
      if negb (bool_decide (is_Some windowStart)) || negb (bool_decide (is_Some windowEnd))
      then false
      else
        let sentAtMs := date_getTime sentAt in
        num_leb windowStart sentAtMs && num_leb sentAtMs windowEnd
  end.
Definition scope_matches (r : RevealRequest) (k : MessageKey) : bool :=
  match req_scope r with
  | rs_message => bool_decide (req_targetId r = mk_messageId k)
  | rs_thread => bool_decide (Some (req_targetId r) = mk_threadId k)
  | rs_sender => bool_decide (req_targetId r = mk_sender k)
  | rs_content_type => bool_decide (req_targetId r = mk_contentType k)
  | rs_time_window => in_window (req_targetId r) (mk_sentAt k)
  end.
Definition entry_reveals (now : Z) (k : MessageKey) (e : RevealEntry) : bool :=
  if entry_expired now e then false
  else if negb (bool_decide (req_groupId (request e) = mk_groupId k)) then false
  else scope_matches (request e) k.

Definition record (s : RevealStore) (a : RevealAccess) (r : RevealRequest) : RevealStore :=
  s ++ [{| access := a; request := r |}].
Definition isRevealed (now : Z) (s : RevealStore) (k : MessageKey) : bool :=
  existsb (entry_reveals now k) s.
(** The descending loop: [i] counts the indices still to visit. *)
Fixpoint expire_loop (now : Z) (i : nat) (s : RevealStore) (removed : nat) : RevealStore * nat :=
  match i with
  | O => (s, removed)
  | S i =>
      match s !! i with
      | None => expire_loop now i s removed
      | Some e =>
          if entry_expired now e
          then expire_loop now i (delete i s) (S removed)
          else expire_loop now i s removed
      end
  end.
Definition expireStale (now : Z) (s : RevealStore) : RevealStore * nat :=
  expire_loop now (length s) s 0.
Definition snapshot (s : RevealStore) : list RevealEntry :=
  map (λ e, {| access := access e; request := request e |}) s.
Definition restore (s : RevealStore) (state : list RevealEntry) : RevealStore :=
  foldl (λ es e, es ++ [{| access := access e; request := request e |}]) [] state.
End store.

(** ** [createEventProjector] *)
Inductive SignetEvent :=
  | EvMessage (ev : MessageEvent)
  | EvOther (type : string) (payload : json).

(** The fields of the runtime credential record the projector reads. *)
Record CredentialView := {
  cv_credentialId : string; cv_effectiveScopes : ScopeSetType; cv_chatIds : list string
}.

Section projector.
Context `{JsDate}.
Context (getRevealState : string → option RevealStore)
        (getChatIds : option (string → list string)).

Definition event_key (ev : MessageEvent) : MessageKey :=
  {| mk_messageId := ev_messageId ev; mk_groupId := ev_groupId ev;
     mk_threadId := ev_threadId ev; mk_sender := ev_senderInboxId ev;
     mk_contentType := ev_contentType ev; mk_sentAt := ev_sentAt ev |}.
Definition projector_chatIds (c : CredentialView) : list string :=
  let resolvedChatIds :=
    match getChatIds with Some f => f (cv_credentialId c) | None => cv_chatIds c end in
  if (0 <? length resolvedChatIds)%nat then resolvedChatIds else cv_chatIds c.
Definition projector (now : Z) (event : SignetEvent) (c : CredentialView)
  : option SignetEvent :=
  match event with
  | EvOther _ _ => Some event
  | EvMessage ev =>
      let isRev := match getRevealState (cv_credentialId c) with
                   | Some store => isRevealed now store (event_key ev)
                   | None => false
                   end in
      let rawMessage :=
        {| messageId := ev_messageId ev; groupId := ev_groupId ev;
           senderInboxId := ev_senderInboxId ev; contentType := ev_contentType ev;
           content := ev_content ev; sentAt := ev_sentAt ev; threadId := ev_threadId ev;
           sealId := ev_sealId ev;
           isHistorical := Some (bool_decide (ev_visibility ev = historical)) |} in
      let scopes := map scope_name (resolveScopeSet (cv_effectiveScopes c)) in
      let effectiveAllowlist := [contentType rawMessage] in
      match projectMessage rawMessage scopes (projector_chatIds c) effectiveAllowlist isRev with
      | Drop => None
      | Emit event => Some (EvMessage event)
      end
  end.
End projector.

(** ** Replay after [reveal_content] ([handleRevealContent]) *)
Record ListedMessage := {
  lm_messageId : string; lm_groupId : string; lm_senderInboxId : string;
  lm_contentType : string; lm_content : json; lm_sentAt : string; lm_threadId : option string
}.
Record RevealedBroadcast := {
  rb_messageId : string; rb_groupId : string; rb_contentType : string;
  rb_content : json; rb_revealId : string
}.
Section replay.
Context `{JsDate}.
Definition listed_key (m : ListedMessage) : MessageKey :=
  {| mk_messageId := lm_messageId m; mk_groupId := lm_groupId m;
     mk_threadId := lm_threadId m; mk_sender := lm_senderInboxId m;
     mk_contentType := lm_contentType m; mk_sentAt := lm_sentAt m |}.
Definition replay_message (now : Z) (store : RevealStore) (scopes chatIds : list string)
  (revealId : string) (m : ListedMessage) : list RevealedBroadcast :=
  if negb (isRevealed now store (listed_key m)) then []
  else
    let rawMessage :=
      {| messageId := lm_messageId m; groupId := lm_groupId m;
         senderInboxId := lm_senderInboxId m; contentType := lm_contentType m;
         content := lm_content m; sentAt := lm_sentAt m; threadId := lm_threadId m;
         sealId := None; isHistorical := Some true |} in
    match projectMessage rawMessage scopes chatIds [lm_contentType m] true with
    | Emit ev =>
        [{| rb_messageId := lm_messageId m; rb_groupId := lm_groupId m;
            rb_contentType := lm_contentType m; rb_content := ev_content ev;
            rb_revealId := revealId |}]
    | Drop => []
    end.
Definition replay (now : Z) (store : RevealStore) (scopes chatIds : list string)
  (revealId : string) (msgs : list ListedMessage) : list RevealedBroadcast :=
  flat_map (replay_message now store scopes chatIds revealId) msgs.

(** [handleRevealContent], with the store already resolved;
    [messages] is the result of [listMessages], if that dependency is wired. *)
Definition handleRevealContent (now : Z) (nowISO : string) (reveal : RevealRequest)
  (store : RevealStore) (messages : option (result SignetError (list ListedMessage)))
  (scopes chatIds : list string)
  : RevealStore * RevealAccess * list RevealedBroadcast :=
  let acc := {| acc_revealId := req_revealId reveal; acc_grantedAt := nowISO;
                acc_grantedBy := req_requestedBy reveal;
                acc_expiresAt := req_expiresAt reveal |} in
  let store := record store acc reveal in
  let out := match messages with
             | Some (Ok msgs) => replay now store scopes chatIds (acc_revealId acc) msgs
             | _ => []
             end in
  (store, acc, out).
End replay.

(** ** The reveal store *)
Section store_lemmas.
Context `{JsDate}.

Lemma expire_loop_spec now i s n :
  (i ≤ length s)%nat →
  expire_loop now i s n =
    (List.filter (λ e, negb (entry_expired now e)) (take i s) ++ drop i s,
     (n + length (List.filter (entry_expired now) (take i s)))%nat).
Proof.
  revert s n. induction i as [|i IH]; intros s n Hi; cbn [expire_loop].
  { cbn. by rewrite Nat.add_0_r. }
  destruct (lookup_lt_is_Some_2 s i) as [e He]; [lia|]. rewrite He.
  rewrite (take_S_r _ _ _ He), !List.filter_app, length_app. cbn [List.filter].
  destruct (entry_expired now e) eqn:Hx; cbn [negb length].
  - rewrite IH by (rewrite length_delete; [lia|eauto]).
    rewrite delete_take_drop, take_app_length', drop_app_length' by (rewrite length_take; lia).
    rewrite app_nil_r. f_equal. lia.
  - rewrite IH by lia. rewrite Nat.add_0_r, <-app_assoc. f_equal.
    by rewrite (drop_S _ _ _ He).
Qed.
Lemma expireStale_spec now s :
  expireStale now s =
    (List.filter (λ e, negb (entry_expired now e)) s,
     length (List.filter (entry_expired now) s)).
Proof.
  unfold expireStale. rewrite expire_loop_spec by lia.
  by rewrite firstn_all, drop_all, app_nil_r.
Qed.

Lemma entry_expired_mono now now' e :
  (now ≤ now')%Z → entry_expired now e = true → entry_expired now' e = true.
Proof.
  unfold entry_expired. destruct (acc_expiresAt _); [|done].
  intros Hle (x & y & -> & [= <-] & ?)%num_leb_spec. apply num_leb_spec.
  eexists _, _. split_and!; [done..|lia].
Qed.
Lemma entry_reveals_not_expired now k e :
  entry_reveals now k e = true → entry_expired now e = false.
Proof. unfold entry_reveals. by destruct (entry_expired now e). Qed.
Lemma entry_reveals_mono now now' k e :
  (now ≤ now')%Z → entry_reveals now' k e = true → entry_reveals now k e = true.
Proof.
  intros Hle Hr. pose proof (entry_reveals_not_expired _ _ _ Hr) as Hx.
  unfold entry_reveals in *. rewrite Hx in Hr.
  destruct (entry_expired now e) eqn:Hx'; [|done].
  by rewrite (entry_expired_mono _ _ _ Hle Hx') in Hx.
Qed.
Lemma isRevealed_elem now s k :
  isRevealed now s k = true ↔ ∃ e, e ∈ s ∧ entry_reveals now k e = true.
Proof. apply existsb_elem. Qed.
Lemma snapshot_id s : snapshot s = s.
Proof. unfold snapshot. erewrite map_ext; [apply map_id|by intros []]. Qed.
Lemma restore_id s st : restore s st = st.
Proof.
  unfold restore. assert (∀ l, foldl (λ es e,
    es ++ [{| access := access e; request := request e |}]) l st = l ++ st) as Hl.
  { induction st as [|[x r] st IH]; intros l; cbn [foldl]; [by rewrite app_nil_r|].
    rewrite IH. by rewrite <-app_assoc. }
  apply Hl.
Qed.
Lemma isRevealed_mono now now' s k :
  (now ≤ now')%Z → isRevealed now' s k = true → isRevealed now s k = true.
Proof.
  intros Hle. rewrite !isRevealed_elem. intros (e & He & Hr).
  exists e. eauto using entry_reveals_mono.
Qed.

(** the reveal store: sweeping expired reveals at time [t] removes
    exactly the expired entries, keeps the order of the others, counts what
    it removed, and is unobservable for every check from [t] on; reveals
    only lapse with time; a recorded reveal of a message shows that message
    until it expires; and restoring a snapshot gives back the store. *)
Theorem reveal_store_spec (t now : Z) s k a r s0 :
  (t ≤ now)%Z →
  expireStale t s = (List.filter (λ e, negb (entry_expired t e)) s,
                     (length s - length (expireStale t s).1)%nat) ∧
  isRevealed now (expireStale t s).1 k = isRevealed now s k ∧
  (isRevealed now s k = true → isRevealed t s k = true) ∧
  (req_scope r = rs_message → req_groupId r = mk_groupId k →
   req_targetId r = mk_messageId k →
   isRevealed now (record s a r) k =
     isRevealed now s k || negb (entry_expired now {| access := a; request := r |})) ∧
  restore s0 (snapshot s) = s ∧ isRevealed now (restore s []) k = false.
Proof.
  intros Hle. rewrite expireStale_spec. cbn [fst]. split_and!.
  - f_equal. pose proof (List.filter_length (entry_expired t) s). lia.
  - apply eq_true_iff_eq. rewrite !isRevealed_elem.
    split; intros (e & He & Hr); exists e; split; auto.
    + by apply list_elem_of_In, filter_In in He as [?%list_elem_of_In _].
    + apply list_elem_of_In, filter_In. split; [by apply list_elem_of_In|].
      apply negb_true_iff, (entry_reveals_not_expired _ k).
      by eapply entry_reveals_mono.
  - by apply isRevealed_mono.
  - intros Hs Hg Ht. unfold isRevealed, record. rewrite existsb_app. cbn [existsb].
    rewrite orb_false_r. f_equal. unfold entry_reveals. cbn [request].
    unfold scope_matches. rewrite Hs, Hg, Ht.
    rewrite !bool_decide_true by done. by destruct (entry_expired _ _).
  - rewrite snapshot_id. apply restore_id.
  - by rewrite restore_id.
Qed.
End store_lemmas.

Definition demo_reveal : RevealEntry :=
  {| access := {| acc_revealId := "r1"; acc_grantedAt := "2026-01-01T00:00:00.000Z";
       acc_grantedBy := "inbox"; acc_expiresAt := Some "2026-01-02T00:00:00.000Z" |};
     request := {| req_revealId := "r1"; req_groupId := "conv_1"; req_scope := rs_message;
       req_targetId := "m1"; req_requestedBy := "inbox";
       req_expiresAt := Some "2026-01-02T00:00:00.000Z" |} |}.
Definition demo_key : MessageKey :=
  {| mk_messageId := "m1"; mk_groupId := "conv_1"; mk_threadId := None; mk_sender := "s";
     mk_contentType := "xmtp.org/text:1.0"; mk_sentAt := "2026-01-01T00:00:00.000Z" |}.
Lemma reveal_store_spec_witness :
  isRevealed 1767225600000 (record [] (access demo_reveal) (request demo_reveal)) demo_key = true ∧
  isRevealed 1767312000000 (record [] (access demo_reveal) (request demo_reveal)) demo_key = false.
Proof.
  split.
  - destruct (reveal_store_spec 0 1767225600000 [] demo_key (access demo_reveal)
      (request demo_reveal) [] ltac:(lia)) as (_&_&_&H&_).
    rewrite H by reflexivity. vm_compute. reflexivity.
  - destruct (reveal_store_spec 0 1767312000000 [] demo_key (access demo_reveal)
      (request demo_reveal) [] ltac:(lia)) as (_&_&_&H&_).
    rewrite H by reflexivity. vm_compute. reflexivity.
Defined.

(** ** Projection *)
Lemma scope_name_elem s l : scope_name s ∈ map scope_name l ↔ s ∈ l.
Proof.
  rewrite list_elem_of_In, in_map_iff. setoid_rewrite <-list_elem_of_In. split.
  - by intros (x & ->%scope_name_inj & Hx).
  - eauto.
Qed.
Lemma holds_scope s ss name :
  scope_name s = name → name ∈ map scope_name (resolveScopeSet ss) ↔ effective ss s.
Proof. intros <-. by rewrite scope_name_elem, effective_resolve. Qed.

Section projector_lemmas.
Context `{JsDate} (getRevealState : string → option RevealStore)
        (getChatIds : option (string → list string)).
Implicit Types (ev : MessageEvent) (c : CredentialView).
Definition revealed_for (now : Z) c ev : bool :=
  match getRevealState (cv_credentialId c) with
  | Some store => isRevealed now store (event_key ev)
  | None => false
  end.
Definition with_visibility (v : MessageVisibility) ev : MessageEvent :=
  {| ev_messageId := ev_messageId ev; ev_groupId := ev_groupId ev;
     ev_senderInboxId := ev_senderInboxId ev; ev_contentType := ev_contentType ev;
     ev_content := ev_content ev; ev_visibility := v; ev_sentAt := ev_sentAt ev;
     ev_sealId := ev_sealId ev; ev_threadId := ev_threadId ev |}.
Abbreviation project := (projector getRevealState getChatIds).

Lemma projector_message now ev c r :
  project now (EvMessage ev) c = Some r ↔
  ev_groupId ev ∈ projector_chatIds getChatIds c ∧
  (effective (cv_effectiveScopes c) read_messages ∨ revealed_for now c ev = true) ∧
  (ev_visibility ev = historical → effective (cv_effectiveScopes c) read_history) ∧
  r = EvMessage (with_visibility
        (if decide (effective (cv_effectiveScopes c) read_messages) then
           if decide (ev_visibility ev = historical) then historical else visible
         else revealed) ev).
Proof.
  unfold projector, projectMessage, isInScope, isContentTypeAllowed, resolveVisibility,
    set_has. cbn [groupId contentType isHistorical content messageId senderInboxId sentAt
    sealId threadId]. fold (revealed_for now c ev).
  rewrite (bool_decide_ext _ _ (holds_scope read_messages _ "read-messages" eq_refl)).
  rewrite (bool_decide_ext _ _ (holds_scope read_history _ "read-history" eq_refl)).
  rewrite (bool_decide_true (ev_contentType ev ∈ [_])) by set_solver.
  unfold with_visibility. destruct (revealed_for now c ev);
    repeat (case_bool_decide || case_decide; cbn); simplify_eq/=; naive_solver.
Qed.

(** C37: what a connected agent receives: a message event passes the
    projector exactly when its chat is within the credential's chats and the
    effective (deny-wins) scopes, or a live reveal of this credential, permit
    reading it, with [read-history] needed in addition for historical messages
    (as in [historical-visibility.test.ts]; by [docs/concepts.md] a historical
    message would pass with [read-history] alone, and with [read-messages]
    alone); content and metadata are never altered; other events pass untouched; and
    projecting twice is the same as projecting once. *)
Theorem projector_spec now ev ty pl c :
  (∀ r, project now (EvMessage ev) c = Some r ↔
    ev_groupId ev ∈ projector_chatIds getChatIds c ∧
    (effective (cv_effectiveScopes c) read_messages ∨ revealed_for now c ev = true) ∧
    (ev_visibility ev = historical → effective (cv_effectiveScopes c) read_history) ∧
    ∃ v, v ≠ hidden ∧ v ≠ redacted ∧ (v = historical → ev_visibility ev = historical) ∧
      (v = revealed ↔ ¬ effective (cv_effectiveScopes c) read_messages) ∧
      (ev_visibility ev = historical → v ≠ visible) ∧
      r = EvMessage (with_visibility v ev)) ∧
  project now (EvOther ty pl) c = Some (EvOther ty pl) ∧
  (∀ r, project now (EvMessage ev) c = Some r → project now r c = Some r) ∧
  (∀ g, g ∈ projector_chatIds getChatIds c →
     g ∈ cv_chatIds c ∨ ∃ f, getChatIds = Some f ∧ g ∈ f (cv_credentialId c)).
Proof.
  split_and!; [|done| |].
  - intros r. rewrite projector_message. split.
    + intros (? & ? & ? & ->). split_and!; [done..|]. eexists.
      split_and!; [..|reflexivity]; repeat case_decide; naive_solver.
    + intros (? & ? & ? & v & ? & ? & ? & ? & ? & ->). split_and!; [done..|].
      do 2 f_equal. repeat case_decide; destruct v; naive_solver.
  - intros r Hr. pose proof Hr as (Hg & Hv & Hh & ->)%projector_message.
    apply projector_message. unfold revealed_for, event_key in *. cbn. split_and!; [done..| |].
    + repeat case_decide; naive_solver.
    + unfold with_visibility. cbn. do 2 f_equal. repeat case_decide; naive_solver.
  - unfold projector_chatIds. destruct getChatIds as [f|]; case_match; eauto.
Qed.
End projector_lemmas.

(** Replay after a reveal. *)
Section replay_lemmas.
Context `{JsDate}.
Lemma replay_message_spec now store ss chatIds id m :
  replay_message now store (map scope_name (resolveScopeSet ss)) chatIds id m =
  if decide (isRevealed now store (listed_key m) = true ∧ lm_groupId m ∈ chatIds ∧
             effective ss read_history)
  then [{| rb_messageId := lm_messageId m; rb_groupId := lm_groupId m;
           rb_contentType := lm_contentType m; rb_content := lm_content m;
           rb_revealId := id |}]
  else [].
Proof.
  unfold replay_message. destruct (isRevealed now store (listed_key m)) eqn:Hr; cbn [negb].
  2: { by rewrite decide_False by naive_solver. }
  unfold projectMessage, isInScope, isContentTypeAllowed, resolveVisibility, set_has.
  cbn [groupId contentType isHistorical content messageId senderInboxId sentAt sealId threadId].
  rewrite (bool_decide_ext _ _ (holds_scope read_history _ "read-history" eq_refl)).
  rewrite (bool_decide_true (lm_contentType m ∈ [_])) by set_solver.
  repeat (case_bool_decide || case_decide; cbn); simplify_eq/=; naive_solver.
Qed.

(** [reveal_content] records the reveal under the requester's name and
    expiry and rebroadcasts, in the order of the message list and with their
    content unchanged, exactly the messages that are revealed, in one of the
    credential's chats, provided the credential may read history: without
    the [read-history] scope nothing at all is replayed.  A failed listing
    replays nothing and still leaves the reveal recorded. *)
Theorem handleRevealContent_spec now iso reveal store msgs e ss chatIds :
  let scopes := map scope_name (resolveScopeSet ss) in
  let acc := {| acc_revealId := req_revealId reveal; acc_grantedAt := iso;
                acc_grantedBy := req_requestedBy reveal;
                acc_expiresAt := req_expiresAt reveal |} in
  let store' := store ++ [{| access := acc; request := reveal |}] in
  handleRevealContent now iso reveal store (Some (Ok msgs)) scopes chatIds =
    (store', acc,
     map (λ m, {| rb_messageId := lm_messageId m; rb_groupId := lm_groupId m;
                  rb_contentType := lm_contentType m; rb_content := lm_content m;
                  rb_revealId := req_revealId reveal |})
       (filter (λ m, isRevealed now store' (listed_key m) = true ∧
                     lm_groupId m ∈ chatIds ∧ effective ss read_history) msgs)) ∧
  (¬ effective ss read_history →
     (handleRevealContent now iso reveal store (Some (Ok msgs)) scopes chatIds).2 = []) ∧
  handleRevealContent now iso reveal store (Some (Err e)) scopes chatIds = (store', acc, []) ∧
  handleRevealContent now iso reveal store None scopes chatIds = (store', acc, []).
Proof.
  intros scopes acc store'. unfold handleRevealContent, record, replay. fold acc store'.
  assert (∀ l, flat_map (replay_message now store' scopes chatIds (acc_revealId acc)) l =
    map (λ m, {| rb_messageId := lm_messageId m; rb_groupId := lm_groupId m;
                 rb_contentType := lm_contentType m; rb_content := lm_content m;
                 rb_revealId := req_revealId reveal |})
       (filter (λ m, isRevealed now store' (listed_key m) = true ∧
                     lm_groupId m ∈ chatIds ∧ effective ss read_history) l)) as Hr.
  { induction l as [|m l IH]; [done|]. cbn [flat_map]. rewrite IH, filter_cons.
    unfold scopes. rewrite replay_message_spec. by case_decide. }
  split_and!; [by rewrite Hr| |done|done].
  intros Hn. cbn [snd]. rewrite Hr. clear Hr. induction msgs as [|m l IH]; [done|].
  rewrite filter_cons, decide_False by naive_solver. done.
Qed.
End replay_lemmas.

Lemma handleRevealContent_spec_witness :
  (handleRevealContent 0 "1970-01-01T00:00:00.000Z" (request demo_reveal) []
     (Some (Ok [{| lm_messageId := "m1"; lm_groupId := "conv_1"; lm_senderInboxId := "s";
                   lm_contentType := "xmtp.org/text:1.0"; lm_content := JStr "hi";
                   lm_sentAt := "1970-01-01T00:00:00.000Z"; lm_threadId := None |}]))
     (map scope_name (resolveScopeSet {| allow := [read_messages]; deny := [] |})) ["conv_1"]).2
  = [].
Proof.
  apply (handleRevealContent_spec 0 "1970-01-01T00:00:00.000Z" (request demo_reveal) []
    _ (CancelledError_create "x") {| allow := [read_messages]; deny := [] |} ["conv_1"]).
  apply (bool_decide_unpack _). vm_compute. exact I.
Defined.
