(* ===== verification/Seals.v ===== *)
(** * Seals: payloads, chains and their JSON images

    The data of [schemas/src/seal.ts], [operator.ts] and
    [claim-provenance.ts], the refinement of the payload schema, the JSON
    values that are canonicalized for signing, and the proof that the
    canonical bytes of a payload determine the payload. *)
From S2P Require Import Prelude JsDate Json Errors Ids Scopes Policy.

(** ** Operator disclosures and claim provenance *)
Inductive ScopeMode := per_chat | shared.
Inductive InferenceMode := inf_local | inf_cloud | inf_hybrid.
Inductive ContentEgressScope := eg_none | eg_provider_only | eg_unrestricted.
Inductive HostingMode := host_self | host_cloud | host_tee.
Inductive TrustTier := unverified | source_verified | reproducibly_verified | runtime_attested.
Record OperatorDisclosures := {
  inferenceMode : option InferenceMode; inferenceProviders : option (list string);
  contentEgressScope : option ContentEgressScope; retentionAtProvider : option string;
  hostingMode : option HostingMode
}.
Inductive ClaimProvenance := pv_verified | pv_observed | pv_declared.
Record ClaimProvenanceRecord := {
  pr_source : ClaimProvenance; attestedBy : option string;
  attestedAt : option string; pr_expiresAt : option string
}.
Inductive ProvenanceKey :=
  | k_inferenceMode | k_inferenceProviders | k_contentEgressScope
  | k_retentionAtProvider | k_hostingMode | k_trustTier.
(** A partial record over the supported keys. *)
Record ProvenanceMap := {
  pm_inferenceMode : option ClaimProvenanceRecord;
  pm_inferenceProviders : option ClaimProvenanceRecord;
  pm_contentEgressScope : option ClaimProvenanceRecord;
  pm_retentionAtProvider : option ClaimProvenanceRecord;
  pm_hostingMode : option ClaimProvenanceRecord;
  pm_trustTier : option ClaimProvenanceRecord
}.
Definition pm_get (k : ProvenanceKey) (m : ProvenanceMap) : option ClaimProvenanceRecord :=
  match k with
  | k_inferenceMode => pm_inferenceMode m
  | k_inferenceProviders => pm_inferenceProviders m
  | k_contentEgressScope => pm_contentEgressScope m
  | k_retentionAtProvider => pm_retentionAtProvider m
  | k_hostingMode => pm_hostingMode m
  | k_trustTier => pm_trustTier m
  end.
Definition OPERATOR_DISCLOSURE_PROVENANCE_KEYS : list ProvenanceKey :=
  [k_inferenceMode; k_inferenceProviders; k_contentEgressScope; k_retentionAtProvider;
   k_hostingMode].
Definition is_some {A} (o : option A) : bool := match o with Some _ => true | None => false end.
Definition disclosure_present (k : ProvenanceKey) (d : OperatorDisclosures) : bool :=
  match k with
  | k_inferenceMode => is_some (inferenceMode d)
  | k_inferenceProviders => is_some (inferenceProviders d)
  | k_contentEgressScope => is_some (contentEgressScope d)
  | k_retentionAtProvider => is_some (retentionAtProvider d)
  | k_hostingMode => is_some (hostingMode d)
  | k_trustTier => false
  end.
#[export] Instance ScopeMode_eq_dec : EqDecision ScopeMode.
Proof. solve_decision. Defined.
#[export] Instance TrustTier_eq_dec : EqDecision TrustTier.
Proof. solve_decision. Defined.
#[export] Instance InferenceMode_eq_dec : EqDecision InferenceMode.
Proof. solve_decision. Defined.
#[export] Instance ContentEgressScope_eq_dec : EqDecision ContentEgressScope.
Proof. solve_decision. Defined.
#[export] Instance HostingMode_eq_dec : EqDecision HostingMode.
Proof. solve_decision. Defined.
#[export] Instance ClaimProvenance_eq_dec : EqDecision ClaimProvenance.
Proof. solve_decision. Defined.
#[export] Instance OperatorDisclosures_eq_dec : EqDecision OperatorDisclosures.
Proof. solve_decision. Defined.
#[export] Instance ClaimProvenanceRecord_eq_dec : EqDecision ClaimProvenanceRecord.
Proof. solve_decision. Defined.
#[export] Instance ProvenanceMap_eq_dec : EqDecision ProvenanceMap.
Proof. solve_decision. Defined.

(** ** Seal payloads, chains and envelopes *)
Record AdminAccess := { aa_operatorId : string; aa_expiresAt : string }.
#[export] Instance AdminAccess_eq_dec : EqDecision AdminAccess.
Proof. solve_decision. Defined.
Record SealPayload := mkPayload {
  sealId : string; credentialId : string; operatorId : string; chatId : string;
  scopeMode : ScopeMode; permissions : ScopeSetType;
  adminAccess : option AdminAccess; issuedAt : string;
  bypassed : bool; (** [true] or absent *)
  trustTier : option TrustTier; operatorDisclosures : option OperatorDisclosures;
  provenanceMap : option ProvenanceMap
}.
#[export] Instance SealPayload_eq_dec : EqDecision SealPayload.
Proof. solve_decision. Defined.
Abbreviation SealDelta := PolicyDelta.
#[export] Instance ScopePolicyChange_eq_dec : EqDecision ScopePolicyChange.
Proof. solve_decision. Defined.
#[export] Instance SealDelta_eq_dec : EqDecision SealDelta.
Proof. solve_decision. Defined.
Record SealChain := { current : SealPayload; previous : option SealPayload; chain_delta : SealDelta }.
Record SealEnvelope := { chain : SealChain; signature : string; keyId : string }.
#[export] Instance SealChain_eq_dec : EqDecision SealChain.
Proof. solve_decision. Defined.
#[export] Instance SealEnvelope_eq_dec : EqDecision SealEnvelope.
Proof. solve_decision. Defined.

(** The refinement of the [SealPayload] schema: no provenance without the
    claim it is about. *)
Definition seal_superRefine (v : SealPayload) : bool :=
  match provenanceMap v with
  | None => true
  | Some m =>
      forallb (λ k, negb (is_some (pm_get k m)
          && negb (match operatorDisclosures v with
                   | Some d => disclosure_present k d
                   | None => false
                   end))) OPERATOR_DISCLOSURE_PROVENANCE_KEYS
      && negb (is_some (pm_trustTier m) && negb (is_some (trustTier v)))
  end.

(** ** JSON images (property order of the literals) *)
Definition ScopeMode_name (m : ScopeMode) : string :=
  match m with per_chat => "per-chat" | shared => "shared" end.
Definition InferenceMode_name (m : InferenceMode) : string :=
  match m with inf_local => "local" | inf_cloud => "cloud" | inf_hybrid => "hybrid" end.
Definition ContentEgressScope_name (m : ContentEgressScope) : string :=
  match m with
  | eg_none => "none" | eg_provider_only => "provider-only" | eg_unrestricted => "unrestricted"
  end.
Definition HostingMode_name (m : HostingMode) : string :=
  match m with host_self => "self-hosted" | host_cloud => "cloud" | host_tee => "tee" end.
Definition TrustTier_name (t : TrustTier) : string :=
  match t with
  | unverified => "unverified" | source_verified => "source-verified"
  | reproducibly_verified => "reproducibly-verified" | runtime_attested => "runtime-attested"
  end.
Definition ClaimProvenance_name (p : ClaimProvenance) : string :=
  match p with pv_verified => "verified" | pv_observed => "observed" | pv_declared => "declared" end.
Definition strs_json (l : list string) : json := JArr (map JStr l).
Definition scopeSet_json (s : ScopeSetType) : json :=
  JObj [("allow", strs_json (map scope_name (allow s)));
        ("deny", strs_json (map scope_name (deny s)))].
Definition adminAccess_json (a : AdminAccess) : json :=
  JObj [("operatorId", JStr (aa_operatorId a)); ("expiresAt", JStr (aa_expiresAt a))].
Definition disclosures_json (d : OperatorDisclosures) : json :=
  JObj [("inferenceMode", opt_json (λ m, JStr (InferenceMode_name m)) (inferenceMode d));
        ("inferenceProviders", opt_json strs_json (inferenceProviders d));
        ("contentEgressScope",
           opt_json (λ m, JStr (ContentEgressScope_name m)) (contentEgressScope d));
        ("retentionAtProvider", opt_json JStr (retentionAtProvider d));
        ("hostingMode", opt_json (λ m, JStr (HostingMode_name m)) (hostingMode d))].
Definition provenance_json (r : ClaimProvenanceRecord) : json :=
  JObj [("source", JStr (ClaimProvenance_name (pr_source r)));
        ("attestedBy", opt_json JStr (attestedBy r));
        ("attestedAt", opt_json JStr (attestedAt r));
        ("expiresAt", opt_json JStr (pr_expiresAt r))].
Definition provenanceMap_json (m : ProvenanceMap) : json :=
  JObj [("inferenceMode", opt_json provenance_json (pm_inferenceMode m));
        ("inferenceProviders", opt_json provenance_json (pm_inferenceProviders m));
        ("contentEgressScope", opt_json provenance_json (pm_contentEgressScope m));
        ("retentionAtProvider", opt_json provenance_json (pm_retentionAtProvider m));
        ("hostingMode", opt_json provenance_json (pm_hostingMode m));
        ("trustTier", opt_json provenance_json (pm_trustTier m))].
Definition payload_json (p : SealPayload) : json :=
  JObj [("sealId", JStr (sealId p)); ("credentialId", JStr (credentialId p));
        ("operatorId", JStr (operatorId p)); ("chatId", JStr (chatId p));
        ("scopeMode", JStr (ScopeMode_name (scopeMode p)));
        ("permissions", scopeSet_json (permissions p));
        ("adminAccess", opt_json adminAccess_json (adminAccess p));
        ("issuedAt", JStr (issuedAt p));
        ("bypassed", if bypassed p then JBool true else JUndef);
        ("trustTier", opt_json (λ t, JStr (TrustTier_name t)) (trustTier p));
        ("operatorDisclosures", opt_json disclosures_json (operatorDisclosures p));
        ("provenanceMap", opt_json provenanceMap_json (provenanceMap p))].

(** The JSON image of a chain, for [serialized]. *)
Definition AllowDeny_json (a : AllowDeny) : json := JStr (ad_name a).
Definition delta_json (d : SealDelta) : json :=
  JObj [("added", strs_json (map scope_name (added d)));
        ("removed", strs_json (map scope_name (removed d)));
        ("changed", JArr (map (λ c, JObj [("scope", JStr (scope_name (scope c)));
            ("from", AllowDeny_json (from c)); ("to", AllowDeny_json (to c))]) (changed d)))].
Definition chain_json (c : SealChain) : json :=
  JObj [("current", payload_json (current c));
        ("previous", opt_json payload_json (previous c));
        ("delta", delta_json (chain_delta c))].

(** ** The signed bytes determine the payload *)
Lemma names_inj :
  (∀ a b, ScopeMode_name a = ScopeMode_name b → a = b) ∧
  (∀ a b, InferenceMode_name a = InferenceMode_name b → a = b) ∧
  (∀ a b, ContentEgressScope_name a = ContentEgressScope_name b → a = b) ∧
  (∀ a b, HostingMode_name a = HostingMode_name b → a = b) ∧
  (∀ a b, TrustTier_name a = TrustTier_name b → a = b) ∧
  (∀ a b, ClaimProvenance_name a = ClaimProvenance_name b → a = b).
Proof. split_and!; intros [] []; cbn; intros; (done || discriminate). Qed.

(** Take the field [k] of a hypothesis that two objects are the same. *)
Fixpoint str_get (k : string) (o : list (string * json)) : json :=
  match o with
  | [] => JUndef
  | (k', v) :: o => if String.eqb k k' then v else str_get k o
  end.
Lemma str_get_spec k o : str_get k o = default JUndef (om_get k o).
Proof.
  induction o as [|[k' v] o IH]; [done|]. cbn [str_get om_get].
  destruct (String.eqb_spec k k'); [by rewrite decide_True|by rewrite decide_False].
Qed.
Lemma json_same_get k o o' :
  NoDup (map fst o) → NoDup (map fst o') → json_same (JObj o) (JObj o') →
  json_same (str_get k o) (str_get k o').
Proof. rewrite !str_get_spec. apply json_same_field. Qed.
Ltac keys_nodup := cbn [map fst]; apply (bool_decide_unpack _); vm_compute; exact I.
Ltac json_field H k Hk :=
  match type of H with
  | json_same (JObj ?o) (JObj ?o') =>
      assert (json_same (str_get k o) (str_get k o')) as Hk
        by (apply json_same_get; [keys_nodup|keys_nodup|exact H]);
      cbn [str_get String.eqb Ascii.eqb Bool.eqb] in Hk
  end.

Lemma same_name {A} (name : A → string) (Hinj : ∀ a b, name a = name b → a = b) a b :
  json_same (opt_json (λ x, JStr (name x)) a) (opt_json (λ x, JStr (name x)) b) → a = b.
Proof. apply json_same_opt; [done|]. intros x y ?%json_same_str. auto. Qed.
Lemma same_opt_str a b : json_same (opt_json JStr a) (opt_json JStr b) → a = b.
Proof. apply json_same_opt; [done|]. apply json_same_str. Qed.
Lemma same_strs a b : json_same (strs_json a) (strs_json b) → a = b.
Proof. apply json_same_strs. Qed.
Lemma same_opt_strs a b : json_same (opt_json strs_json a) (opt_json strs_json b) → a = b.
Proof. apply json_same_opt; [done|apply same_strs]. Qed.

Lemma same_scopeSet a b : json_same (scopeSet_json a) (scopeSet_json b) → a = b.
Proof.
  intros H. destruct a as [a1 a2], b as [b1 b2]. unfold scopeSet_json in H.
  cbn [allow deny] in H. json_field H "allow" H1. json_field H "deny" H2.
  apply same_strs in H1, H2. apply (inj (fmap scope_name)) in H1, H2. by subst.
Qed.
Lemma same_adminAccess a b : json_same (adminAccess_json a) (adminAccess_json b) → a = b.
Proof.
  intros H. destruct a as [a1 a2], b as [b1 b2]. unfold adminAccess_json in H.
  cbn [aa_operatorId aa_expiresAt] in H.
  json_field H "operatorId" H1. json_field H "expiresAt" H2.
  apply json_same_str in H1, H2. by subst.
Qed.
Lemma same_disclosures a b : json_same (disclosures_json a) (disclosures_json b) → a = b.
Proof.
  intros H. destruct a, b. unfold disclosures_json in H.
  cbn [inferenceMode inferenceProviders contentEgressScope retentionAtProvider hostingMode] in H.
  json_field H "inferenceMode" H1. json_field H "inferenceProviders" H2.
  json_field H "contentEgressScope" H3. json_field H "retentionAtProvider" H4.
  json_field H "hostingMode" H5. destruct names_inj as (_ & N1 & N2 & N3 & _).
  apply same_name in H1, H3, H5; [|done..]. apply same_opt_strs in H2.
  apply same_opt_str in H4. by subst.
Qed.
Lemma same_provenance a b : json_same (provenance_json a) (provenance_json b) → a = b.
Proof.
  intros H. destruct a, b. unfold provenance_json in H.
  cbn [pr_source attestedBy attestedAt pr_expiresAt] in H.
  json_field H "source" H1. json_field H "attestedBy" H2.
  json_field H "attestedAt" H3. json_field H "expiresAt" H4.
  apply json_same_str in H1. apply same_opt_str in H2, H3, H4.
  apply names_inj in H1. by subst.
Qed.
Lemma same_opt_provenance a b :
  json_same (opt_json provenance_json a) (opt_json provenance_json b) → a = b.
Proof. apply json_same_opt; [done|apply same_provenance]. Qed.
Lemma same_provenanceMap a b : json_same (provenanceMap_json a) (provenanceMap_json b) → a = b.
Proof.
  intros H. destruct a, b. unfold provenanceMap_json in H.
  cbn [pm_inferenceMode pm_inferenceProviders pm_contentEgressScope pm_retentionAtProvider
       pm_hostingMode pm_trustTier] in H.
  json_field H "inferenceMode" H1. json_field H "inferenceProviders" H2.
  json_field H "contentEgressScope" H3. json_field H "retentionAtProvider" H4.
  json_field H "hostingMode" H5. json_field H "trustTier" H6.
  apply same_opt_provenance in H1, H2, H3, H4, H5, H6. by subst.
Qed.
Lemma same_payload a b : json_same (payload_json a) (payload_json b) → a = b.
Proof.
  intros H. destruct a, b. unfold payload_json in H.
  cbn [sealId credentialId operatorId chatId scopeMode permissions adminAccess issuedAt
       bypassed trustTier operatorDisclosures provenanceMap] in H.
  json_field H "sealId" H1. json_field H "credentialId" H2. json_field H "operatorId" H3.
  json_field H "chatId" H4. json_field H "scopeMode" H5. json_field H "permissions" H6.
  json_field H "adminAccess" H7. json_field H "issuedAt" H8. json_field H "bypassed" H9.
  json_field H "trustTier" H10. json_field H "operatorDisclosures" H11.
  json_field H "provenanceMap" H12. destruct names_inj as (N1 & _ & _ & _ & N2 & _).
  apply json_same_str in H1, H2, H3, H4, H5, H8. apply N1 in H5. apply same_scopeSet in H6.
  apply json_same_opt in H7; [|solve [apply same_adminAccess|done]..].
  apply same_name in H10; [|done]. apply json_same_opt in H11; [|solve [apply same_disclosures|done]..].
  apply json_same_opt in H12; [|solve [apply same_provenanceMap|done]..].
  assert (bypassed0 = bypassed1) as ->; [|by subst].
  destruct bypassed0, bypassed1; try done; inversion H9.
Qed.

(** The images are JavaScript values: one value per property. *)
Lemma strs_json_wf l : json_wf (strs_json l) = true.
Proof. apply forallb_forall. by intros x (y & <- & _)%in_map_iff. Qed.
Lemma opt_json_wf {A} (f : A → json) o :
  (∀ x, json_wf (f x) = true) → json_wf (opt_json f o) = true.
Proof. intros Hf. destruct o; [apply Hf|done]. Qed.
Ltac json_wf_obj :=
  cbn [json_wf]; apply andb_true_iff; split;
    [apply bool_decide_eq_true; keys_nodup
    |cbn [forallb]; rewrite ?andb_true_iff; split_and!; try done;
     try (apply opt_json_wf; intros; try done; try apply strs_json_wf)].
Lemma disclosures_json_wf d : json_wf (disclosures_json d) = true.
Proof. unfold disclosures_json. json_wf_obj. Qed.
Lemma provenance_json_wf r : json_wf (provenance_json r) = true.
Proof. unfold provenance_json. json_wf_obj. Qed.
Lemma provenanceMap_json_wf m : json_wf (provenanceMap_json m) = true.
Proof. unfold provenanceMap_json. json_wf_obj; apply provenance_json_wf. Qed.
Lemma scopeSet_json_wf s : json_wf (scopeSet_json s) = true.
Proof. unfold scopeSet_json. json_wf_obj; apply strs_json_wf. Qed.
Lemma payload_json_wf p : json_wf (payload_json p) = true.
Proof.
  unfold payload_json. json_wf_obj; try apply scopeSet_json_wf; try apply disclosures_json_wf;
    try apply provenanceMap_json_wf; by destruct (bypassed p).
Qed.

(** the signature covers the whole payload: two seal payloads have the
    same canonical (signed) bytes only if they are equal in every field, the
    optional claims, disclosures and provenance records included. *)
Theorem signed_bytes_injective p1 p2 :
  canonicalize (payload_json p1) = canonicalize (payload_json p2) ↔ p1 = p2.
Proof.
  split; [|by intros ->]. rewrite canonicalize_same by (try apply payload_json_wf; discriminate).
  apply same_payload.
Qed.
