(* ===== verification/SealDelta.v ===== *)
(** * Seal deltas, chain validation and building

    [seals/src/compute-delta.ts], [chain-validator.ts], [build.ts] and
    [seal-id.ts]: the difference of two seal payloads, its verification, the
    structural validation of a chain, and the construction of a chain from
    its input fields. *)
From S2P Require Import Prelude JsDate Json Errors Ids Scopes Policy Seals.

(** ** [computePayloadDelta]: six loops over the four sets *)
Definition computePayloadDelta (previous next : SealPayload) : SealDelta :=
  let prevAllow := js_set (allow (permissions previous)) in
  let nextAllow := js_set (allow (permissions next)) in
  let prevDeny := js_set (deny (permissions previous)) in
  let nextDeny := js_set (deny (permissions next)) in
  let allow_to_deny s := {| scope := s; from := Allow; to := Deny |} in
  let deny_to_allow s := {| scope := s; from := Deny; to := Allow |} in
  let d := foldl (λ d s,
    if negb (set_has prevAllow s) then
      if set_has prevDeny s then push_changed (deny_to_allow s) d else push_added s d
    else d) emptyDelta nextAllow in
  let d := foldl (λ d s,
    if negb (set_has nextAllow s) then
      if set_has nextDeny s then push_changed (allow_to_deny s) d else push_removed s d
    else d) d prevAllow in
  let d := foldl (λ d s,
    if negb (set_has prevDeny s) && set_has prevAllow s && set_has nextAllow s
    then push_changed (allow_to_deny s) d else d) d nextDeny in
  let d := foldl (λ d s,
    if negb (set_has nextDeny s) && set_has prevAllow s && set_has nextAllow s
    then push_changed (deny_to_allow s) d else d) d prevDeny in
  let d := foldl (λ d s,
    if negb (set_has prevDeny s) && negb (set_has prevAllow s)
    then push_removed s d else d) d nextDeny in
  foldl (λ d s,
    if negb (set_has nextDeny s) && negb (set_has nextAllow s)
    then push_added s d else d) d prevDeny.

(** ** Chain validation *)
Section chain.
Context `{JsDate}.
Definition chainError (reason : string) : SignetError :=
  ValidationError_create "chain" reason None.
Definition validateSealChain (c : SealChain) : result SignetError unit :=
  match previous c with
  | None => Ok tt
  | Some p =>
      let n := current c in
      if negb (bool_decide (operatorId n = operatorId p)) then
        Err (chainError "Operator mismatch: current and previous seal must belong to the same operator")
      else if negb (bool_decide (credentialId n = credentialId p)) then
        Err (chainError "Credential mismatch: current and previous seal must belong to the same credential")
      else if negb (bool_decide (chatId n = chatId p)) then
        Err (chainError "Chat mismatch: current and previous seal must belong to the same chat")
      else
        let currentTime := date_getTime (issuedAt n) in
        let previousTime := date_getTime (issuedAt p) in
        if num_ltb currentTime previousTime then
          Err (chainError "issuedAt of current seal must not be before previous seal")
        else Ok tt
  end.
End chain.

(** [[...].sort()] on scopes, by their strings. *)
Definition scope_le (a b : PermissionScope) : Prop := String.le (scope_name a) (scope_name b).
#[export] Instance scope_le_dec : RelDecision scope_le.
Proof. intros a b. unfold scope_le. apply _. Defined.
Definition sortScopes (l : list PermissionScope) : list PermissionScope := merge_sort scope_le l.
Definition change_cmp (x y : ScopePolicyChange) : Z :=
  if String.ltb (scope_name (scope x)) (scope_name (scope y)) then (-1)%Z else 1%Z.
Definition sortChanges (l : list ScopePolicyChange) : list ScopePolicyChange :=
  js_sort change_cmp l.
Definition deltaEquals (a b : SealDelta) : bool :=
  if negb (length (added a) =? length (added b))%nat then false
  else if negb (length (removed a) =? length (removed b))%nat then false
  else if negb (length (changed a) =? length (changed b))%nat then false
  else if negb (bool_decide (sortScopes (added a) = sortScopes (added b))) then false
  else if negb (bool_decide (sortScopes (removed a) = sortScopes (removed b))) then false
  else bool_decide (sortChanges (changed a) = sortChanges (changed b)).
Definition verifyChainDelta (c : SealChain) : result SignetError unit :=
  let expected := match previous c with
                  | Some p => computePayloadDelta p (current c)
                  | None => emptyDelta
                  end in
  if negb (deltaEquals expected (chain_delta c))
  then Err (chainError "Delta mismatch: stored delta does not match recomputed delta")
  else Ok tt.

(** ** [buildSeal] *)
Record SealInput := mkInput {
  in_credentialId : string; in_operatorId : string; in_chatId : string;
  in_scopeMode : ScopeMode; in_permissions : ScopeSetType;
  in_adminAccess : option AdminAccess; in_bypassed : bool;
  in_trustTier : option TrustTier; in_operatorDisclosures : option OperatorDisclosures;
  in_provenanceMap : option ProvenanceMap
}.
Record SealBuildResult := { b_chain : SealChain; serialized : string }.

Definition generateSealId (randomBytes : list Byte.byte) : string :=
  createResourceId rt_seal randomBytes.

Section build.
(** zod's [datetime()] check and the message of its first failure. *)
Context (datetime : string → bool) (zodMessage : SealPayload → string).

Definition provenance_ok (r : ClaimProvenanceRecord) : bool :=
  match attestedAt r with Some t => datetime t | None => true end &&
  match pr_expiresAt r with Some t => datetime t | None => true end.
Definition SealPayload_valid (p : SealPayload) : bool :=
  resourceIdSchema "seal_" (sealId p) && resourceIdSchema "cred_" (credentialId p) &&
  resourceIdSchema "op_" (operatorId p) && resourceIdSchema "conv_" (chatId p) &&
  match adminAccess p with
  | Some a => (resourceIdSchema "op_" (aa_operatorId a) ||
               bool_decide (aa_operatorId a = "owner")) && datetime (aa_expiresAt a)
  | None => true
  end && datetime (issuedAt p) &&
  match provenanceMap p with
  | Some m => forallb (λ k, match pm_get k m with Some r => provenance_ok r | None => true end)
                (k_trustTier :: OPERATOR_DISCLOSURE_PROVENANCE_KEYS)
  | None => true
  end && seal_superRefine p.

Definition build_raw (input : SealInput) (newId nowISO : string) : SealPayload :=
  mkPayload newId (in_credentialId input) (in_operatorId input) (in_chatId input)
    (in_scopeMode input) (in_permissions input) (in_adminAccess input) nowISO
    (in_bypassed input) (in_trustTier input) (in_operatorDisclosures input)
    (in_provenanceMap input).
Definition buildSeal (input : SealInput) (previousPayload : option SealPayload)
  (newId nowISO : string) : result SignetError SealBuildResult :=
  let raw := build_raw input newId nowISO in
  if negb (SealPayload_valid raw) then Err (ValidationError_create "seal" (zodMessage raw) None)
  else
    let current := raw in
    let delta := match previousPayload with
                 | Some p => computePayloadDelta p current
                 | None => emptyDelta
                 end in
    let chain := {| current := current; previous := previousPayload; chain_delta := delta |} in
    Ok {| b_chain := chain; serialized := canonicalize (chain_json chain) |}.
End build.

(** ** The delta, scope by scope *)
Section delta.
Context (prev next : SealPayload).
Abbreviation pA s := (s ∈ allow (permissions prev)).
Abbreviation nA s := (s ∈ allow (permissions next)).
Abbreviation pD s := (s ∈ deny (permissions prev)).
Abbreviation nD s := (s ∈ deny (permissions next)).

Definition loop1 s := if bool_decide (pA s) then NoChange
  else if bool_decide (pD s) then Flip Allow else Added.
Definition loop2 s := if bool_decide (nA s) then NoChange
  else if bool_decide (nD s) then Flip Deny else Removed.
Definition loop3 s := if bool_decide (pD s) then NoChange
  else if bool_decide (pA s ∧ nA s) then Flip Deny else NoChange.
Definition loop4 s := if bool_decide (nD s) then NoChange
  else if bool_decide (pA s ∧ nA s) then Flip Allow else NoChange.
Definition loop5 s := if bool_decide (pD s ∨ pA s) then NoChange else Removed.
Definition loop6 s := if bool_decide (nD s ∨ nA s) then NoChange else Added.

Lemma set_has_js (l : list PermissionScope) s : set_has (js_set l) s = bool_decide (s ∈ l).
Proof. apply (js_set_has l s). Qed.
(** Summarise the outermost loop of the goal by the contributions [f]. *)
Ltac peel_loop f :=
  match goal with
  | |- context [added (foldl ?step ?d ?l)] =>
      let Ha := fresh in let Hr := fresh in let Hc := fresh in
      destruct (contribution_fold step f l d) as (Ha & Hr & Hc);
      [intros ? ?; rewrite ?set_has_js; unfold f; repeat case_bool_decide; cbn;
         solve [done|exfalso; tauto]
      |rewrite Ha, Hr, Hc; clear Ha Hr Hc]
  end.
Lemma computePayloadDelta_lists :
  let d := computePayloadDelta prev next in
  let P := permissions prev in let N := permissions next in
  added d = List.filter (λ s, is_Added (loop1 s)) (js_set (allow N)) ++
            List.filter (λ s, is_Added (loop6 s)) (js_set (deny P)) ∧
  removed d = List.filter (λ s, is_Removed (loop2 s)) (js_set (allow P)) ++
              List.filter (λ s, is_Removed (loop5 s)) (js_set (deny N)) ∧
  changed d = flat_map (λ s, flips s (loop1 s)) (js_set (allow N)) ++
              flat_map (λ s, flips s (loop2 s)) (js_set (allow P)) ++
              flat_map (λ s, flips s (loop3 s)) (js_set (deny N)) ++
              flat_map (λ s, flips s (loop4 s)) (js_set (deny P)).
Proof.
  unfold computePayloadDelta. cbv zeta.
  peel_loop loop6. peel_loop loop5. peel_loop loop4. peel_loop loop3. peel_loop loop2.
  peel_loop loop1.
  assert (∀ (f : PermissionScope → contribution) l, (∀ s, is_Added (f s) = false) →
    List.filter (λ s, is_Added (f s)) l = []) as FA.
  { intros f l Hf. induction l as [|x l IH]; [done|]. cbn. by rewrite Hf. }
  assert (∀ (f : PermissionScope → contribution) l, (∀ s, is_Removed (f s) = false) →
    List.filter (λ s, is_Removed (f s)) l = []) as FR.
  { intros f l Hf. induction l as [|x l IH]; [done|]. cbn. by rewrite Hf. }
  assert (∀ (f : PermissionScope → contribution) l, (∀ s, flips s (f s) = []) →
    flat_map (λ s, flips s (f s)) l = []) as FF.
  { intros f l Hf. induction l as [|x l IH]; [done|]. cbn. by rewrite Hf. }
  rewrite (FA loop2), (FA loop3), (FA loop4), (FA loop5), (FR loop1), (FR loop3),
    (FR loop4), (FR loop6), (FF loop5), (FF loop6).
  all: try (intros s; unfold loop1, loop2, loop3, loop4, loop5, loop6;
    by repeat case_bool_decide).
  cbn [emptyDelta added removed changed app]. rewrite ?app_nil_r, <-?app_assoc. done.
Qed.

Lemma delta_added s : s ∈ added (computePayloadDelta prev next) ↔
  (nA s ∧ ¬ pA s ∧ ¬ pD s) ∨ (pD s ∧ ¬ nD s ∧ ¬ nA s).
Proof.
  destruct computePayloadDelta_lists as (-> & _ & _).
  rewrite elem_of_app, !elem_of_Filter, !elem_of_js_set. unfold loop1, loop6.
  repeat case_bool_decide; cbn; naive_solver.
Qed.
Lemma delta_removed s : s ∈ removed (computePayloadDelta prev next) ↔
  (pA s ∧ ¬ nA s ∧ ¬ nD s) ∨ (nD s ∧ ¬ pD s ∧ ¬ pA s).
Proof.
  destruct computePayloadDelta_lists as (_ & -> & _).
  rewrite elem_of_app, !elem_of_Filter, !elem_of_js_set. unfold loop2, loop5.
  repeat case_bool_decide; cbn; naive_solver.
Qed.
Definition flips_to (s : PermissionScope) (t : AllowDeny) : Prop :=
  match t with
  | Allow => nA s ∧ pD s ∧ (¬ pA s ∨ ¬ nD s)
  | Deny => pA s ∧ nD s ∧ (¬ nA s ∨ ¬ pD s)
  end.
Lemma delta_changed c : c ∈ changed (computePayloadDelta prev next) ↔
  flips_to (scope c) (to c) ∧ c = flip_of (scope c) (to c).
Proof.
  destruct computePayloadDelta_lists as (_ & _ & ->).
  rewrite !elem_of_app, !elem_of_flips, !elem_of_js_set.
  unfold loop1, loop2, loop3, loop4, flips_to.
  destruct c as [s [] []]; cbn; repeat case_bool_decide; naive_solver.
Qed.

Lemma flips_NoDup (f : PermissionScope → contribution) l :
  NoDup l → NoDup (map scope (flat_map (λ s, flips s (f s)) l)) ∧
  ∀ s, s ∈ map scope (flat_map (λ s, flips s (f s)) l) ↔ s ∈ l ∧ ∃ t, f s = Flip t.
Proof.
  intros Hnd. assert (∀ l s, s ∈ map scope (flat_map (λ s, flips s (f s)) l) ↔
    s ∈ l ∧ ∃ t, f s = Flip t) as Hel.
  { intros l' s. rewrite list_elem_of_In, in_map_iff. setoid_rewrite <-list_elem_of_In.
    setoid_rewrite elem_of_flips. split.
    - intros (c & <- & Hc & t & Ht & _). eauto.
    - intros (Hs & t & Ht). exists (flip_of s t). cbn. eauto. }
  split; [|apply Hel]. induction Hnd as [|s l Hs Hnd IH]; [constructor|].
  cbn [flat_map]. rewrite map_app, NoDup_app. split_and!; [| |done].
  - destruct (f s); cbn; repeat constructor; set_solver.
  - intros x Hx. rewrite Hel. intros [? _].
    destruct (f s); cbn in Hx; set_solver.
Qed.
(** No scope flips twice. *)
Lemma delta_changed_NoDup : NoDup (map scope (changed (computePayloadDelta prev next))).
Proof.
  destruct computePayloadDelta_lists as (_ & _ & ->).
  destruct (flips_NoDup loop1 _ (NoDup_js_set (allow (permissions next)))) as [N1 E1].
  destruct (flips_NoDup loop2 _ (NoDup_js_set (allow (permissions prev)))) as [N2 E2].
  destruct (flips_NoDup loop3 _ (NoDup_js_set (deny (permissions next)))) as [N3 E3].
  destruct (flips_NoDup loop4 _ (NoDup_js_set (deny (permissions prev)))) as [N4 E4].
  rewrite !map_app, !NoDup_app. setoid_rewrite elem_of_app. setoid_rewrite elem_of_app.
  split_and!; try done; intros s; rewrite ?E1, ?E2, ?E3, ?E4, ?elem_of_js_set;
    unfold loop1, loop2, loop3, loop4; repeat case_bool_decide; naive_solver.
Qed.
End delta.

Lemma delta_empty prev next :
  let P := permissions prev in let N := permissions next in
  computePayloadDelta prev next = emptyDelta ↔
  ∀ s, (s ∈ allow P ↔ s ∈ allow N) ∧ (s ∈ deny P ↔ s ∈ deny N).
Proof.
  intros P N.
  pose proof (delta_added prev next) as Ha. pose proof (delta_removed prev next) as Hr.
  pose proof (delta_changed prev next) as Hc. fold P N in Ha, Hr. split.
  - intros Hd s. rewrite Hd in Ha, Hr, Hc. specialize (Ha s). specialize (Hr s).
    pose proof (Hc (flip_of s Allow)) as HfA. pose proof (Hc (flip_of s Deny)) as HfD.
    unfold flips_to in HfA, HfD. fold P N in HfA, HfD. cbn in Ha, Hr, HfA, HfD.
    rewrite elem_of_nil in Ha, Hr. rewrite elem_of_nil in HfA, HfD.
    destruct (decide (s ∈ allow P)), (decide (s ∈ allow N)), (decide (s ∈ deny P)),
      (decide (s ∈ deny N)); naive_solver.
  - intros Heq. destruct (computePayloadDelta prev next) as [a r c]. cbn in *.
    unfold emptyDelta. f_equal; apply elem_of_nil_inv.
    + intros s. rewrite Ha. specialize (Heq s). tauto.
    + intros s. rewrite Hr. specialize (Heq s). tauto.
    + intros x Hx. apply Hc in Hx as [Hx _]. unfold flips_to in Hx.
      fold P N in Hx. specialize (Heq (scope x)). destruct (to x); tauto.
Qed.

Definition disjoint_scopes (ss : ScopeSetType) : Prop := ∀ s, s ∈ allow ss → s ∉ deny ss.
#[export] Instance disjoint_scopes_dec ss : Decision (disjoint_scopes ss).
Proof.
  refine (cast_if (decide (Forall (λ s, s ∉ deny ss) (allow ss)))); unfold disjoint_scopes;
    by rewrite <-Forall_forall.
Defined.

(** the delta of two seals is complete: it is empty exactly when both
    seals list the same scopes as allowed and the same as denied; every scope
    that becomes effective shows up as added or as a flip to allow, and every
    scope that stops being effective as removed or as a flip to deny; no scope
    flips twice; and when neither seal both allows and denies a scope, no
    scope is reported as both added and removed, and a flip to allow (deny)
    is reported exactly for the scopes that move from deny to allow
    (from allow to deny). *)
Theorem computePayloadDelta_spec prev next :
  let d := computePayloadDelta prev next in
  let P := permissions prev in let N := permissions next in
  (d = emptyDelta ↔ ∀ s, (s ∈ allow P ↔ s ∈ allow N) ∧ (s ∈ deny P ↔ s ∈ deny N)) ∧
  (∀ s, effective N s → ¬ effective P s → s ∈ added d ∨ flip_of s Allow ∈ changed d) ∧
  (∀ s, effective P s → ¬ effective N s → s ∈ removed d ∨ flip_of s Deny ∈ changed d) ∧
  NoDup (map scope (changed d)) ∧
  (disjoint_scopes P → disjoint_scopes N →
    (∀ s, s ∈ added d → s ∉ removed d) ∧
    (∀ s, flip_of s Allow ∈ changed d ↔ s ∈ deny P ∧ s ∈ allow N) ∧
    (∀ s, flip_of s Deny ∈ changed d ↔ s ∈ allow P ∧ s ∈ deny N)).
Proof.
  intros d P N.
  pose proof (delta_added prev next) as Ha. pose proof (delta_removed prev next) as Hr.
  pose proof (delta_changed prev next) as Hc. fold d P N in Ha, Hr.
  assert (∀ s t, flip_of s t ∈ changed d ↔ flips_to prev next s t) as Hf.
  { intros s t. unfold d. rewrite Hc. cbn. naive_solver. }
  clear Hc. unfold flips_to in Hf. fold P N in Hf.
  pose proof (λ s, Hf s Allow) as HfA. pose proof (λ s, Hf s Deny) as HfD. cbn in HfA, HfD.
  split_and!.
  - apply delta_empty.
  - unfold effective. intros s. rewrite Ha, HfA.
    destruct (decide (s ∈ allow P)), (decide (s ∈ deny P)); tauto.
  - unfold effective. intros s. rewrite Hr, HfD.
    destruct (decide (s ∈ allow N)), (decide (s ∈ deny N)); tauto.
  - apply delta_changed_NoDup.
  - intros HP HN. split_and!; intros s; specialize (HP s); specialize (HN s).
    + rewrite Ha, Hr. tauto.
    + rewrite HfA. destruct (decide (s ∈ allow P)), (decide (s ∈ deny N)); tauto.
    + rewrite HfD. destruct (decide (s ∈ allow N)), (decide (s ∈ deny P)); tauto.
Qed.

Definition demo_payload (ss : ScopeSetType) : SealPayload :=
  mkPayload "seal_2a2a2a2a2a2a2a2a" "cred_0000000000000001" "op_0000000000000001"
    "conv_0000000000000001" per_chat ss None "2026-01-01T00:00:00.000Z" false None None None.
Lemma computePayloadDelta_spec_witness :
  flip_of send Allow ∈ changed (computePayloadDelta
    (demo_payload {| allow := []; deny := [send] |})
    (demo_payload {| allow := [send]; deny := [] |})).
Proof.
  destruct (computePayloadDelta_spec (demo_payload {| allow := []; deny := [send] |})
    (demo_payload {| allow := [send]; deny := [] |})) as (_ & _ & _ & _ & H).
  destruct H as (_ & H & _); [apply (bool_decide_unpack _); vm_compute; exact I..|].
  apply H. split; apply (bool_decide_unpack _); vm_compute; exact I.
Defined.

(** Without disjointness the delta over-reports: a scope that stays denied
    (deny wins) is shown as flipped to allow, and a scope that was never
    effective as added and removed at once. *)
Lemma delta_overreports :
  let allowed_and_denied := demo_payload {| allow := [send]; deny := [send] |} in
  let denied := demo_payload {| allow := []; deny := [send] |} in
  let unmentioned := demo_payload {| allow := []; deny := [] |} in
  changed (computePayloadDelta denied allowed_and_denied) = [flip_of send Allow] ∧
  ¬ effective (permissions allowed_and_denied) send ∧
  (let d := computePayloadDelta unmentioned allowed_and_denied in
   added d = [send] ∧ removed d = [send]).
Proof. vm_compute. intuition congruence. Qed.

(** ** Equality of deltas *)
#[export] Instance scope_le_trans : Transitive scope_le.
Proof. intros a b c. unfold scope_le. apply transitivity. Qed.
#[export] Instance scope_le_total : Total scope_le.
Proof. intros a b. apply String.le_total. Qed.
#[export] Instance scope_le_anti : AntiSymm (=) scope_le.
Proof. intros a b H1 H2. apply scope_name_inj. by apply (anti_symm String.le). Qed.

Lemma sortScopes_perm a b : sortScopes a = sortScopes b ↔ a ≡ₚ b.
Proof.
  unfold sortScopes. split.
  - intros H. rewrite <-(merge_sort_Permutation scope_le a), H. apply merge_sort_Permutation.
  - intros H. apply (StronglySorted_unique scope_le); [apply StronglySorted_merge_sort; apply _..|].
    by rewrite !merge_sort_Permutation.
Qed.

Lemma ltb_spec a b : String.ltb a b = true ↔ ¬ String.le b a.
Proof.
  unfold String.ltb, String.le, String.leb. rewrite (String.compare_antisym a b).
  destruct (String.compare b a); cbn; split; intros H; try done; by intros [].
Qed.
(** On distinct scopes the comparator is a strict total order, so the sort
    depends only on the set of changes. *)
Lemma js_insert_changes x l :
  StronglySorted (λ a b, ¬ scope_le (scope b) (scope a)) l →
  Forall (λ y, scope y ≠ scope x) l →
  StronglySorted (λ a b, ¬ scope_le (scope b) (scope a)) (js_insert change_cmp x l).
Proof.
  induction 1 as [|y l Hl IH Hy]; intros Hx; cbn [js_insert]; [by repeat constructor|].
  apply Forall_cons in Hx as [Hyx Hx]. unfold change_cmp at 1.
  destruct (String.ltb _ _) eqn:Hlt; cbn.
  - apply ltb_spec in Hlt. constructor; [auto|]. rewrite js_insert_perm. by constructor.
  - assert (¬ scope_le (scope y) (scope x)) as Hxy.
    { intros Hle. apply Hyx, (anti_symm scope_le); [done|].
      apply not_true_iff_false in Hlt. rewrite ltb_spec in Hlt.
      destruct (decide (scope_le (scope x) (scope y))); [done|]. by destruct Hlt. }
    constructor; [by constructor|]. constructor; [done|].
    eapply Forall_impl; [exact Hy|]. cbn. intros z Hz Hle. apply Hz.
    destruct (total scope_le (scope y) (scope x)) as [?|?]; [done|].
    by transitivity (scope x).
Qed.
Lemma sortChanges_sorted l :
  NoDup (map scope l) → StronglySorted (λ a b, ¬ scope_le (scope b) (scope a)) (sortChanges l).
Proof.
  unfold sortChanges, js_sort.
  assert (∀ acc, StronglySorted (λ a b, ¬ scope_le (scope b) (scope a)) acc →
    NoDup (map scope (acc ++ l)) →
    StronglySorted (λ a b, ¬ scope_le (scope b) (scope a))
      (foldl (λ acc x, js_insert change_cmp x acc) acc l)) as H.
  { induction l as [|x l IH]; intros acc Hacc Hnd; cbn [foldl]; [done|]. apply IH.
    - apply js_insert_changes; [done|]. apply Forall_forall. intros y Hy Heq.
      rewrite map_app, NoDup_app in Hnd. destruct Hnd as (_ & Hd & _).
      apply (Hd (scope y)); [by apply list_elem_of_fmap_2|]. rewrite Heq. cbn. left.
    - rewrite js_insert_perm. by rewrite <-Permutation_middle in Hnd. }
  intros Hnd. apply H; [constructor|done].
Qed.
Lemma sortChanges_perm a b :
  NoDup (map scope a) → sortChanges a = sortChanges b ↔ a ≡ₚ b.
Proof.
  intros Hnd. split.
  - intros H. unfold sortChanges in H. rewrite <-(js_sort_perm change_cmp a), H. apply js_sort_perm.
  - intros H. assert (NoDup (map scope b)) as Hnd' by (by rewrite <-H).
    apply (StronglySorted_unique_strong (λ a b, ¬ scope_le (scope b) (scope a))).
    + intros x y _ _ Hxy Hyx. destruct (total scope_le (scope x) (scope y)); done.
    + by apply sortChanges_sorted.
    + by apply sortChanges_sorted.
    + unfold sortChanges. by rewrite !js_sort_perm.
Qed.

Lemma deltaEquals_spec a b :
  NoDup (map scope (changed a)) →
  deltaEquals a b = true ↔
  added a ≡ₚ added b ∧ removed a ≡ₚ removed b ∧ changed a ≡ₚ changed b.
Proof.
  intros Hnd. unfold deltaEquals. rewrite <-!sortScopes_perm, <-sortChanges_perm by done.
  split.
  - repeat case_match; try done. intros Hc%bool_decide_eq_true.
    repeat match goal with H : negb _ = false |- _ => apply negb_false_iff in H end.
    repeat match goal with H : bool_decide _ = true |- _ => apply bool_decide_eq_true in H end.
    done.
  - intros (Ha & Hr & Hc). pose proof Ha as Ha'. pose proof Hr as Hr'. pose proof Hc as Hc'.
    apply sortScopes_perm, Permutation_length in Ha', Hr'.
    apply sortChanges_perm, Permutation_length in Hc'; [|done].
    rewrite Ha', Hr', Hc', !Nat.eqb_refl. cbn [negb].
    by rewrite !bool_decide_true.
Qed.


Section chain_spec.
Context `{JsDate} (datetime : string → bool) (zodMessage : SealPayload → string).

Lemma deltaEquals_refl d : NoDup (map scope (changed d)) → deltaEquals d d = true.
Proof. intros. by apply deltaEquals_spec. Qed.
Lemma expected_NoDup prev next :
  NoDup (map scope (changed (match prev with
                             | Some p => computePayloadDelta p next
                             | None => emptyDelta
                             end))).
Proof. destruct prev; [apply delta_changed_NoDup|constructor]. Qed.

(** what [buildSeal] returns is a faithful and verifiable chain: its
    current payload carries every input field, the fresh id and the issue
    time, satisfies the payload schema, and links to exactly the given
    predecessor; its stored delta passes [verifyChainDelta], which in
    general accepts exactly the reorderings of the recomputed delta; the
    chain passes [validateSealChain] when predecessor and input agree on
    operator, credential and chat and time does not run backwards; and
    [buildSeal] fails only on a payload the schema rejects. *)
Theorem buildSeal_spec input prev newId iso :
  let raw := build_raw input newId iso in
  (∀ r, buildSeal datetime zodMessage input prev newId iso = Ok r →
    SealPayload_valid datetime raw = true ∧
    current (b_chain r) = raw ∧ previous (b_chain r) = prev ∧
    serialized r = canonicalize (chain_json (b_chain r)) ∧
    verifyChainDelta (b_chain r) = Ok tt ∧
    (∀ d, verifyChainDelta {| current := raw; previous := prev; chain_delta := d |} = Ok tt ↔
      added d ≡ₚ added (chain_delta (b_chain r)) ∧
      removed d ≡ₚ removed (chain_delta (b_chain r)) ∧
      changed d ≡ₚ changed (chain_delta (b_chain r))) ∧
    (∀ p, prev = Some p → operatorId p = in_operatorId input →
      credentialId p = in_credentialId input → chatId p = in_chatId input →
      (validateSealChain (b_chain r) = Ok tt ↔
       num_ltb (date_getTime iso) (date_getTime (issuedAt p)) = false))) ∧
  (isOk (buildSeal datetime zodMessage input prev newId iso) = SealPayload_valid datetime raw).
Proof.
  intros raw. unfold buildSeal. fold raw.
  destruct (SealPayload_valid datetime raw) eqn:Hv; cbn [negb isOk]; [|by split; [intros ? ?|]].
  split; [|done]. intros r [= <-].
  cbn [b_chain serialized current previous chain_delta]. split_and!; [done..| | |].
  - unfold verifyChainDelta. cbn [current previous chain_delta].
    by rewrite deltaEquals_refl by apply expected_NoDup.
  - intros d. unfold verifyChainDelta. cbn [current previous chain_delta].
    pose proof (deltaEquals_spec _ d (expected_NoDup prev raw)) as Heq.
    set (e := match prev with Some _ => _ | None => _ end) in *.
    destruct (deltaEquals e d) eqn:He; cbn [negb]; split.
    + intros _. destruct (proj1 Heq eq_refl) as (?&?&?). by split_and!; symmetry.
    + done.
    + done.
    + intros (Ha&Hr&Hc). symmetry in Ha, Hr, Hc.
      discriminate (proj2 Heq (conj Ha (conj Hr Hc))).
  - intros p -> Ho Hc Hch. unfold validateSealChain. cbn [current previous].
    rewrite !bool_decide_true by (symmetry; assumption). cbn [negb].
    change (issuedAt raw) with iso. by destruct (num_ltb _ _).
Qed.
End chain_spec.

Lemma buildSeal_spec_witness :
  let p0 := demo_payload {| allow := []; deny := [send] |} in
  let input := mkInput "cred_0000000000000001" "op_0000000000000001" "conv_0000000000000001"
    per_chat {| allow := [send]; deny := [] |} None false None None None in
  ∃ r, buildSeal (λ _, true) (λ _, "") input (Some p0) "seal_0000000000000001"
         "2026-01-02T00:00:00.000Z" = Ok r ∧
       verifyChainDelta (b_chain r) = Ok tt ∧ validateSealChain (b_chain r) = Ok tt.
Proof.
  intros p0 input.
  destruct (buildSeal_spec (λ _, true) (λ _, "") input (Some p0) "seal_0000000000000001"
    "2026-01-02T00:00:00.000Z") as [Hok Hiff].
  destruct (buildSeal _ _ _ _ _ _) as [r|e] eqn:Hb.
  - exists r. destruct (Hok r eq_refl) as (_&_&_&_&Hd&_&Hch). split_and!; [done|done|].
    apply (Hch p0 eq_refl eq_refl eq_refl eq_refl). vm_compute. reflexivity.
  - vm_compute in Hiff. discriminate Hiff.
Defined.
