(* ===== verification/SealSigning.v ===== *)
(** * Signing, binding and publishing seals

    [seals/src/stamper.ts], [message-binding.ts], [content-type.ts],
    [publisher.ts] and [auto-republish.ts].  Signing keys, base64 and the
    XMTP transport are function arguments. *)
From S2P Require Import Prelude JsDate Json Errors Ids Scopes Policy Seals SealDelta.

(** ** Revocation seals *)
Inductive AgentRevocationReason :=
  | ar_owner_initiated | ar_credential_expired | ar_admin_removed
  | ar_heartbeat_timeout | ar_policy_violation.
Definition AgentRevocationReason_name (r : AgentRevocationReason) : string :=
  match r with
  | ar_owner_initiated => "owner-initiated" | ar_credential_expired => "credential-expired"
  | ar_admin_removed => "admin-removed" | ar_heartbeat_timeout => "heartbeat-timeout"
  | ar_policy_violation => "policy-violation"
  end.
Record RevocationSeal := {
  rv_sealId : string; rv_previousSealId : string; rv_operatorId : string;
  rv_credentialId : string; rv_chatId : string; rv_reason : AgentRevocationReason;
  rv_revokedAt : string; rv_issuer : string
}.
Definition RevocationSeal_valid (datetime : string → bool) (r : RevocationSeal) : bool :=
  resourceIdSchema "seal_" (rv_sealId r) && resourceIdSchema "seal_" (rv_previousSealId r) &&
  resourceIdSchema "op_" (rv_operatorId r) && resourceIdSchema "cred_" (rv_credentialId r) &&
  resourceIdSchema "conv_" (rv_chatId r) && datetime (rv_revokedAt r).
Definition revocation_json (r : RevocationSeal) : json :=
  JObj [("sealId", JStr (rv_sealId r)); ("previousSealId", JStr (rv_previousSealId r));
        ("operatorId", JStr (rv_operatorId r)); ("credentialId", JStr (rv_credentialId r));
        ("chatId", JStr (rv_chatId r));
        ("reason", JStr (AgentRevocationReason_name (rv_reason r)));
        ("revokedAt", JStr (rv_revokedAt r)); ("issuer", JStr (rv_issuer r))].
Record SignedRevocation := {
  revocation : RevocationSeal; rv_signature : string; signerKeyRef : string
}.

(** ** The stamper: [sign_bytes] is the key's [sign] (an error it throws is
    [inr] for a signet error, [inl] for any other value, by its [String(e)]),
    [btoa] the base64 encoding of a byte string. *)
Section stamper.
Context (sign_bytes : string → result (string + SignetError) string)
        (fingerprint : string) (btoa : string → string).
Definition signBytes (payload : json) : result SignetError string :=
  match sign_bytes (canonicalize payload) with
  | Ok signature => Ok (btoa signature)
  | Err (inr e) => Err e
  | Err (inl cause) =>
      Err (InternalError_create "Seal signing failed" (Some [("cause", JStr cause)]))
  end.
Definition stamper_sign (p : SealPayload) : result SignetError SealEnvelope :=
  match signBytes (payload_json p) with
  | Err e => Err e
  | Ok sig => Ok {| chain := {| current := p; previous := None; chain_delta := emptyDelta |};
                    signature := sig; keyId := fingerprint |}
  end.
Definition stamper_signRevocation (r : RevocationSeal) : result SignetError SignedRevocation :=
  match signBytes (revocation_json r) with
  | Err e => Err e
  | Ok sig => Ok {| revocation := r; rv_signature := sig; signerKeyRef := fingerprint |}
  end.
End stamper.

(** ** Message bindings *)
Record MessageSealBinding := { sealRef : string; sealSignature : string }.
Definition binding_json (messageId sealId : string) : json :=
  JObj [("messageId", JStr messageId); ("sealId", JStr sealId)].
Section binding.
Context (btoa : string → string) (atob : string → result string string).
Definition createMessageBinding (messageId sealId : string)
  (sign : string → result SignetError string) : result SignetError MessageSealBinding :=
  let payload := canonicalize (binding_json messageId sealId) in
  match sign payload with
  | Err e => Err e
  | Ok sig => Ok {| sealRef := sealId; sealSignature := btoa sig |}
  end.
Definition verifyMessageBinding (binding : MessageSealBinding) (messageId : string)
  (verify : string → string → result SignetError bool) : result SignetError bool :=
  let payload := canonicalize (binding_json messageId (sealRef binding)) in
  match atob (sealSignature binding) with
  | Err cause => Err (InternalError_create "Invalid message binding signature encoding"
                        (Some [("cause", JStr cause)]))
  | Ok sigBytes => verify payload sigBytes
  end.
End binding.

(** ** [encodeSealMessage], [encodeRevocationMessage] and the publisher *)
Definition SEAL_CONTENT_TYPE_ID : string := "xmtp.org/agentSeal:1.0".
Definition REVOCATION_CONTENT_TYPE_ID : string := "xmtp.org/agentRevocation:1.0".
Definition envelope_json (e : SealEnvelope) : list (string * json) :=
  [("chain", chain_json (chain e)); ("signature", JStr (signature e));
   ("keyId", JStr (keyId e)); ("algorithm", JStr "Ed25519")].
Definition encodeSealMessage (e : SealEnvelope) : json :=
  JObj (("contentType", JStr SEAL_CONTENT_TYPE_ID) :: envelope_json e).
Definition encodeRevocationMessage (e : SignedRevocation) : json :=
  JObj [("contentType", JStr REVOCATION_CONTENT_TYPE_ID);
        ("revocation", revocation_json (revocation e)); ("signature", JStr (rv_signature e));
        ("signatureAlgorithm", JStr "Ed25519"); ("signerKeyRef", JStr (signerKeyRef e))].
Section publisher.
Context (sendMessage : string → string → string → result SignetError string).
Definition publisher_publish (groupId : string) (e : SealEnvelope) : result SignetError unit :=
  match sendMessage groupId SEAL_CONTENT_TYPE_ID (print (strip (encodeSealMessage e))) with
  | Err e => Err e
  | Ok _ => Ok tt
  end.
Definition publisher_publishRevocation (groupId : string) (e : SignedRevocation)
  : result SignetError unit :=
  match sendMessage groupId REVOCATION_CONTENT_TYPE_ID
          (print (strip (encodeRevocationMessage e))) with
  | Err e => Err e
  | Ok _ => Ok tt
  end.
End publisher.


(** ** Automatic republication: [publish] answers the [n]-th call of the run
    (a total order of calls), [sleeps] are the delays waited for *)
Record RepublishFailure := { rf_chatId : string; rf_error : SignetError }.
Record RepublishState := {
  rp_succeeded : list string; rp_failed : list RepublishFailure;
  rp_calls : nat; rp_sleeps : list Z
}.
Section republish.
Context (publish : nat → string → result SignetError unit).

(** The inner loop, [iterations] attempts left, [attempt] already made:
    whether it broke out, the last error, and the calls and sleeps so far. *)
Fixpoint attempt_loop (iterations attempt : nat) (delay : Z) (chatId : string)
  (lastError : option SignetError) (calls : nat) (sleeps : list Z)
  : bool * option SignetError * nat * list Z :=
  match iterations with
  | O => (false, lastError, calls, sleeps)
  | S iterations =>
      let '(delay, sleeps) := if (0 <? attempt)%nat then ((delay * 2)%Z, sleeps ++ [delay])
                              else (delay, sleeps) in
      match publish calls chatId with
      | Ok _ => (true, None, S calls, sleeps)
      | Err e => attempt_loop iterations (S attempt) delay chatId (Some e) (S calls) sleeps
      end
  end.
(** The body of the loop over the chats. *)
Definition republish_chat (maxRetries initialDelay : Z) (sealChat : string)
  (st : RepublishState) (chatId : string) : RepublishState :=
  if negb (bool_decide (sealChat = chatId)) then
    {| rp_succeeded := rp_succeeded st;
       rp_failed := rp_failed st ++ [{| rf_chatId := chatId; rf_error :=
         ValidationError_create "chatId" "Seal chatId does not match target chat"
           (Some [("expectedChatId", JStr sealChat); ("targetChatId", JStr chatId)]) |}];
       rp_calls := rp_calls st; rp_sleeps := rp_sleeps st |}
  else
    let '(ok, lastError, calls, sleeps) :=
      attempt_loop (Z.to_nat (maxRetries + 1)) 0 initialDelay chatId None
        (rp_calls st) (rp_sleeps st) in
    {| rp_succeeded := if ok : bool then rp_succeeded st ++ [chatId] else rp_succeeded st;
       rp_failed := match lastError with
                    | Some e => rp_failed st ++ [{| rf_chatId := chatId; rf_error := e |}]
                    | None => rp_failed st
                    end;
       rp_calls := calls; rp_sleeps := sleeps |}.
Definition republishToChats (chatIds : list string) (e : SealEnvelope)
  (maxRetries initialDelayMs : option Z) : RepublishState :=
  let maxRetries := default 3%Z maxRetries in
  let initialDelay := default 1000%Z initialDelayMs in
  foldl (republish_chat maxRetries initialDelay (chatId (current (chain e))))
    {| rp_succeeded := []; rp_failed := []; rp_calls := 0; rp_sleeps := [] |} chatIds.

(** Calls [c .. c + n - 1] all failed, the last with [e]. *)
Definition all_failed (c n : nat) (chat : string) : Prop :=
  ∀ i, (i < n)%nat → isOk (publish (c + i) chat) = false.
Definition doubling (d : Z) (n : nat) : list Z := map (λ i, (d * 2 ^ Z.of_nat i)%Z) (seq 0 n).

Lemma doubling_S d n : doubling d (S n) = d :: doubling (d * 2) n.
Proof.
  unfold doubling. cbn [seq map]. f_equal; [lia|]. rewrite <-seq_shift, map_map.
  apply map_ext. intros i. rewrite Nat2Z.inj_succ, Z.pow_succ_r by lia. lia.
Qed.

(** What the inner loop does from its second attempt on. *)
Lemma attempt_loop_rest n a d chat le c sl :
  (∃ k, k < n ∧ all_failed c k chat ∧ isOk (publish (c + k) chat) = true ∧
     attempt_loop n (S a) d chat le c sl = (true, None, c + S k, sl ++ doubling d (S k)))%nat ∨
  (all_failed c n chat ∧ ∃ le', attempt_loop n (S a) d chat le c sl =
     (false, le', c + n, sl ++ doubling d n)%nat ∧
     match n with
     | O => le' = le
     | S m => ∃ e, le' = Some e ∧ publish (c + m) chat = Err e
     end).
Proof.
  revert a d le c sl. induction n as [|n IH]; intros a d le c sl; cbn [attempt_loop].
  { right. split; [intros i Hi; lia|]. exists le. unfold doubling. cbn.
    by rewrite app_nil_r, Nat.add_0_r. }
  cbn [Nat.ltb Nat.leb]. destruct (publish c chat) as [[]|e] eqn:Hp.
  - left. exists 0%nat. unfold all_failed. split_and!; [lia|intros; lia| |].
    + by rewrite Nat.add_0_r, Hp.
    + do 2 f_equal; [lia|]. unfold doubling. cbn. do 2 f_equal. lia.
  - assert (∀ m, all_failed (S c) m chat → all_failed c (S m) chat) as Hall.
    { intros m Hm [|i] Hi; [by rewrite Nat.add_0_r, Hp|].
      replace (c + S i)%nat with (S c + i)%nat by lia. apply Hm. lia. }
    destruct (IH (S a) (d * 2)%Z (Some e) (S c) (sl ++ [d]))
      as [(k & Hk & Hf & Hok & ->)|(Hf & le' & -> & Hle)].
    + left. exists (S k). split_and!; [lia|by apply Hall| |].
      * replace (c + S k)%nat with (S c + k)%nat by lia. done.
      * rewrite (doubling_S d (S k)), <-app_assoc. do 2 f_equal. lia.
    + right. split; [by apply Hall|]. exists le'. split.
      * rewrite (doubling_S d n), <-app_assoc. do 2 f_equal. lia.
      * destruct n as [|m]; [exists e; by rewrite Nat.add_0_r|].
        destruct Hle as (e' & ? & He'). exists e'. split; [done|].
        by replace (c + S m)%nat with (S c + m)%nat by lia.
Qed.
(** The whole inner loop for [S n] attempts. *)
Lemma attempt_loop_spec n d chat c sl :
  (∃ k, k ≤ n ∧ all_failed c k chat ∧ isOk (publish (c + k) chat) = true ∧
     attempt_loop (S n) 0 d chat None c sl = (true, None, c + S k, sl ++ doubling d k))%nat ∨
  (all_failed c (S n) chat ∧ ∃ e, publish (c + n)%nat chat = Err e ∧
     attempt_loop (S n) 0 d chat None c sl = (false, Some e, c + S n, sl ++ doubling d n)%nat).
Proof.
  cbn [attempt_loop Nat.ltb Nat.leb]. destruct (publish c chat) as [[]|e] eqn:Hp.
  - left. exists 0%nat. unfold all_failed, doubling. cbn. rewrite app_nil_r, Nat.add_0_r, Hp.
    split_and!; [lia|intros; lia|done|]. do 2 f_equal. lia.
  - assert (∀ m, all_failed (S c) m chat → all_failed c (S m) chat) as Hall.
    { intros m Hm [|i] Hi; [by rewrite Nat.add_0_r, Hp|].
      replace (c + S i)%nat with (S c + i)%nat by lia. apply Hm. lia. }
    destruct (attempt_loop_rest n 0 d chat (Some e) (S c) sl)
      as [(k & Hk & Hf & Hok & ->)|(Hf & le' & -> & Hle)].
    + left. exists (S k). split_and!; [lia|by apply Hall| |do 2 f_equal; lia].
      by replace (c + S k)%nat with (S c + k)%nat by lia.
    + right. split; [by apply Hall|]. destruct n as [|m].
      * subst le'. exists e. rewrite Nat.add_0_r. split; [done|]. do 2 f_equal; lia.
      * destruct Hle as (e' & -> & He'). exists e'. split.
        -- by replace (c + S m)%nat with (S c + m)%nat by lia.
        -- do 2 f_equal; lia.
Qed.
End republish.

Section republish_spec.
Context (publish : nat → string → result SignetError unit) (sealChat : string).

(** What holds of a state after the chats [done]. *)
Record republished (N : nat) (d : Z) (done : list string) (st : RepublishState) : Prop := {
  rp_all : rp_succeeded st ++ map rf_chatId (rp_failed st) ≡ₚ done;
  rp_ok : ∀ c, c ∈ rp_succeeded st → c = sealChat ∧ ∃ i, isOk (publish i c) = true;
  rp_err : ∀ f, f ∈ rp_failed st →
    if decide (rf_chatId f = sealChat)
    then ∃ c, all_failed publish c (S N) sealChat ∧ publish (c + N)%nat sealChat = Err (rf_error f)
    else _tag (rf_error f) = ValidationError;
  rp_bound : (rp_calls st ≤ S N * length (filter (eq sealChat) done))%nat;
  rp_backoff : ∃ ks, Forall (λ k, k ≤ N)%nat ks ∧ length ks = length (filter (eq sealChat) done) ∧
    rp_sleeps st = concat (map (doubling d) ks)
}.

Lemma republish_step N d done st c :
  republished N d done st →
  republished N d (done ++ [c]) (republish_chat publish (Z.of_nat N) d sealChat st c).
Proof.
  intros [Ha Ho He Hb (ks & Hks & Hl & Hsl)]. unfold republish_chat.
  case_bool_decide as Hc; cbn [negb].
  - subst c. replace (Z.to_nat (Z.of_nat N + 1)) with (S N) by lia.
    assert (length (filter (eq sealChat) (done ++ [sealChat])) =
      S (length (filter (eq sealChat) done))) as Hlen.
    { rewrite filter_app, length_app, filter_cons, decide_True by done. cbn. lia. }
    destruct (attempt_loop_spec publish N d sealChat (rp_calls st) (rp_sleeps st))
      as [(k & Hk & _ & Hok & ->)|(Hf & e & Hpe & ->)]; split;
      cbn [rp_succeeded rp_failed rp_calls rp_sleeps].
    + rewrite <-app_assoc, (Permutation_app_comm [_]), app_assoc. by rewrite Ha.
    + intros c [?|Hx%list_elem_of_singleton]%elem_of_app; subst; eauto.
    + done.
    + rewrite Hlen. lia.
    + exists (ks ++ [k]). rewrite Forall_app, length_app, Hlen. split_and!; [done|by constructor|cbn; lia|].
      rewrite map_app, concat_app, Hsl. cbn. by rewrite app_nil_r.
    + rewrite map_app, app_assoc. by rewrite Ha.
    + done.
    + intros f [?|Hx%list_elem_of_singleton]%elem_of_app; [by apply He|]. subst. cbn.
      rewrite decide_True by done. eauto.
    + rewrite Hlen. lia.
    + exists (ks ++ [N]). rewrite Forall_app, length_app, Hlen.
      split_and!; [done|by constructor|cbn; lia|].
      rewrite map_app, concat_app, Hsl. cbn. by rewrite app_nil_r.
  - assert (filter (eq sealChat) (done ++ [c]) = filter (eq sealChat) done) as Hlen.
    { rewrite filter_app, filter_cons, decide_False by done. cbn. by rewrite app_nil_r. }
    split; cbn [rp_succeeded rp_failed rp_calls rp_sleeps]; rewrite ?Hlen; eauto.
    + rewrite map_app, app_assoc. by rewrite Ha.
    + intros f [?|Hx%list_elem_of_singleton]%elem_of_app; [by apply He|]. subst. cbn.
      by rewrite decide_False by congruence.
Qed.
Lemma republish_fold N d l done st :
  republished N d done st →
  republished N d (done ++ l) (foldl (republish_chat publish (Z.of_nat N) d sealChat) st l).
Proof.
  revert done st. induction l as [|c l IH]; intros done st Hst; cbn [foldl].
  - by rewrite app_nil_r.
  - replace (done ++ c :: l) with ((done ++ [c]) ++ l) by by rewrite <-app_assoc.
    by apply IH, republish_step.
Qed.
End republish_spec.

(** republication: with a non-negative retry budget every target chat is
    accounted for exactly once as succeeded or failed; only the seal's own
    chat can succeed, and only after a successful publish; a chat fails only
    after [maxRetries + 1] consecutive failed publishes, with the last error
    (or at once, with a validation error, when the seal is for another chat);
    the number of publishes is bounded, and the waits of each chat are an
    initial segment of the doubling sequence.  (A negative budget is not
    rejected: the seal's own chat is then reported neither way.) *)
Theorem republishToChats_spec publish chatIds e maxRetries initialDelayMs :
  let mr := default 3%Z maxRetries in
  let d := default 1000%Z initialDelayMs in
  let mine := chatId (current (chain e)) in
  let r := republishToChats publish chatIds e maxRetries initialDelayMs in
  ((0 ≤ mr)%Z → republished publish mine (Z.to_nat mr) d chatIds r) ∧
  ((mr < 0)%Z → rp_succeeded r = [] ∧ rp_calls r = 0%nat ∧ mine ∉ map rf_chatId (rp_failed r)).
Proof.
  intros mr d mine r. split; intros Hmr.
  - unfold r, republishToChats. fold mr d mine.
    replace mr with (Z.of_nat (Z.to_nat mr)) at 2 by lia.
    apply (republish_fold publish mine (Z.to_nat mr) d chatIds []).
    split; cbn; [done|set_solver|set_solver|lia|].
    by exists [].
  - unfold r, republishToChats. fold mr d mine.
    set (st := {| rp_succeeded := [] |}).
    assert (rp_succeeded st = [] ∧ rp_calls st = 0%nat ∧
      mine ∉ map rf_chatId (rp_failed st)) as Hst by (cbn; set_solver).
    revert Hst. generalize st. clear st r. induction chatIds as [|c l IH]; intros st Hst;
      cbn [foldl]; [done|]. apply IH. destruct Hst as (Hs & Hc & Hf). unfold republish_chat.
    case_bool_decide as Hcm; cbn [negb].
    + replace (Z.to_nat (mr + 1)) with 0%nat by lia. cbn. done.
    + cbn. split_and!; [done..|]. rewrite map_app, elem_of_app. cbn. set_solver.
Qed.
Lemma republishToChats_spec_witness :
  let env := {| chain := {| current := demo_payload {| allow := []; deny := [] |};
                            previous := None; chain_delta := emptyDelta |};
                signature := "sig"; keyId := "key_1" |} in
  republished (λ n _, if (n =? 1)%nat then Ok tt else Err (CancelledError_create "x"))
    "conv_0000000000000001" 2 1000 ["conv_0000000000000001"; "conv_2"]
    (republishToChats (λ n _, if (n =? 1)%nat then Ok tt else Err (CancelledError_create "x"))
       ["conv_0000000000000001"; "conv_2"] env (Some 2%Z) None).
Proof.
  intros env. apply (republishToChats_spec _ ["conv_0000000000000001"; "conv_2"] env (Some 2%Z) None).
  cbn. lia.
Defined.

(** ** Bindings *)
Lemma binding_json_wf m s : json_wf (binding_json m s) = true.
Proof. unfold binding_json. json_wf_obj. Qed.
Lemma binding_json_same m s m' s' :
  canonicalize (binding_json m s) = canonicalize (binding_json m' s') ↔ m = m' ∧ s = s'.
Proof.
  split; [|by intros [-> ->]].
  rewrite canonicalize_same; [|apply binding_json_wf|apply binding_json_wf|discriminate|discriminate].
  intros H. unfold binding_json in H. json_field H "messageId" H1. json_field H "sealId" H2.
  by apply json_same_str in H1, H2.
Qed.

(** a message-seal binding verifies for its own message, and binds it:
    for a correct signature scheme, in which a signature on a byte string is
    accepted for that byte string only, and a base64 codec that round-trips,
    the binding of a message to a seal verifies for exactly that message, a
    binding re-pointed at another seal does not verify, and a signature that
    is not base64 is an error and not an acceptance. *)
Theorem message_binding_spec btoa atob sign verify messageId seal b :
  (∀ s, atob (btoa s) = Ok s) →
  (∀ d sg d', sign d = Ok sg → verify d' sg = Ok (bool_decide (d' = d))) →
  createMessageBinding btoa messageId seal sign = Ok b →
  sealRef b = seal ∧
  (∀ m, verifyMessageBinding atob b m verify = Ok (bool_decide (m = messageId))) ∧
  (∀ s', verifyMessageBinding atob {| sealRef := s'; sealSignature := sealSignature b |}
           messageId verify = Ok (bool_decide (s' = seal))) ∧
  (∀ s' x cause, atob x = Err cause →
     isOk (verifyMessageBinding atob {| sealRef := s'; sealSignature := x |} messageId verify)
     = false).
Proof.
  intros Hb Hs. unfold createMessageBinding.
  destruct (sign _) as [sg|] eqn:Hsg; [|done]. intros [= <-].
  unfold verifyMessageBinding. cbn [sealRef sealSignature]. rewrite Hb. split_and!; [done| | |].
  - intros m. rewrite (Hs _ _ _ Hsg). f_equal. apply bool_decide_ext.
    rewrite binding_json_same. naive_solver.
  - intros s'. rewrite (Hs _ _ _ Hsg). f_equal. apply bool_decide_ext.
    rewrite binding_json_same. naive_solver.
  - by intros s' x cause ->.
Qed.
Lemma message_binding_spec_witness :
  verifyMessageBinding Ok {| sealRef := "seal_1";
      sealSignature := canonicalize (binding_json "m1" "seal_1") |} "m2"
    (λ d s, Ok (bool_decide (d = s))) = Ok false.
Proof.
  destruct (message_binding_spec (λ x, x) Ok Ok (λ d s, Ok (bool_decide (d = s))) "m1" "seal_1"
    {| sealRef := "seal_1"; sealSignature := canonicalize (binding_json "m1" "seal_1") |})
    as (_ & H & _); [reflexivity|intros d sg d' Hd; injection Hd as <-; reflexivity|reflexivity|].
  rewrite H. reflexivity.
Defined.
