(* ===== verification/SealManager.v ===== *)
(** * The seal manager

    [seals/src/manager.ts]: issuance, refresh, revocation, lookup and history
    of seals per credential and chat.  The state is the four collections of
    [createSealManager]; the asynchronous dependencies are arguments of each
    operation, so that their answers may differ from call to call.  The
    sequential operations come first; [manager_step] is their transition
    relation, and the last section interleaves operations at their awaits. *)
From S2P Require Import Prelude JsDate Json Errors Ids Scopes Policy Seals SealDelta SealSigning.

Record SealState := {
  currentSeals : omap string SealEnvelope;
  sealsById : omap string SealEnvelope;
  inputsBySealId : omap string SealInput;
  revokedPairs : list string
}.
Definition seal_init : SealState :=
  {| currentSeals := []; sealsById := []; inputsBySealId := []; revokedPairs := [] |}.

(** The dependencies of one call. *)
Record SealManagerDeps := {
  resolveInput : string → string → result SignetError SealInput;
  signer_sign : SealPayload → result SignetError SealEnvelope;
  signer_signRevocation : RevocationSeal → result SignetError SignedRevocation;
  publish : string → SealEnvelope → result SignetError unit;
  publishRevocation : string → SignedRevocation → result SignetError unit
}.

Definition chainKey (credentialId chatId : string) : string := credentialId +:+ ":" +:+ chatId.
Definition DEFAULT_TTL_MS : Z := 86400 * 1000.
Definition env_id (e : SealEnvelope) : string := sealId (current (chain e)).
Definition previous_id (e : SealEnvelope) : option string := sealId <$> previous (chain e).

Definition stableSerialize (v : json) : string := canonicalize v.
Definition hasInputChanges (previous next : SealInput) : bool :=
  negb (bool_decide (in_credentialId previous = in_credentialId next)) ||
  negb (bool_decide (in_operatorId previous = in_operatorId next)) ||
  negb (bool_decide (in_chatId previous = in_chatId next)) ||
  negb (bool_decide (in_scopeMode previous = in_scopeMode next)) ||
  negb (bool_decide (stableSerialize (opt_json adminAccess_json (in_adminAccess previous)) =
                     stableSerialize (opt_json adminAccess_json (in_adminAccess next)))) ||
  negb (bool_decide (in_trustTier previous = in_trustTier next)) ||
  negb (bool_decide
    (stableSerialize (opt_json disclosures_json (in_operatorDisclosures previous)) =
     stableSerialize (opt_json disclosures_json (in_operatorDisclosures next)))) ||
  negb (bool_decide (stableSerialize (opt_json provenanceMap_json (in_provenanceMap previous)) =
                     stableSerialize (opt_json provenanceMap_json (in_provenanceMap next)))).

(** [{...previous.chain.current, permissions, scopeMode, adminAccess}] *)
Definition with_policy (p : SealPayload) (input : SealInput) : SealPayload :=
  mkPayload (sealId p) (credentialId p) (operatorId p) (chatId p) (in_scopeMode input)
    (in_permissions input) (in_adminAccess input) (issuedAt p) (bypassed p) (trustTier p)
    (operatorDisclosures p) (provenanceMap p).
Definition nothingChanged (st : SealState) (previous : SealEnvelope) (input : SealInput) : bool :=
  match om_get (env_id previous) (inputsBySealId st) with
  | Some previousInput =>
      let delta := computePayloadDelta (current (chain previous))
                     (with_policy (current (chain previous)) input) in
      negb (isMaterialChange (inl delta)) && negb (hasInputChanges previousInput input)
  | None => false
  end.

Definition track (st : SealState) (key : string) (e : SealEnvelope) (input : SealInput)
  : SealState :=
  {| currentSeals := om_set key e (currentSeals st);
     sealsById := om_set (env_id e) e (sealsById st);
     inputsBySealId := om_set (env_id e) input (inputsBySealId st);
     revokedPairs := revokedPairs st |}.

Section manager.
Context `{JsDate} (datetime : string → bool) (zodMessage : SealPayload → string)
        (zodRevocationMessage : RevocationSeal → string).

(** [issue], up to the signing call: an early answer, or the chain to sign
    with its key and input. *)
Definition issue_prepare (st : SealState) (deps : SealManagerDeps)
  (credId chat newId nowISO : string)
  : result SignetError SealEnvelope + (string * SealInput * SealChain) :=
  match resolveInput deps credId chat with
  | Err e => inl (Err e)
  | Ok input =>
      let key := chainKey (in_credentialId input) chat in
      if set_has (revokedPairs st) key then
        inl (Err (SealError_create "" "Cannot issue seal for revoked credential+chat"))
      else
        let previous := om_get key (currentSeals st) in
        match previous with
        | Some p =>
            if nothingChanged st p input then inl (Ok p)
            else
              match buildSeal datetime zodMessage input (Some (current (chain p))) newId nowISO with
              | Err e => inl (Err e)
              | Ok b => inr (key, input, b_chain b)
              end
        | None =>
            match buildSeal datetime zodMessage input None newId nowISO with
            | Err e => inl (Err e)
            | Ok b => inr (key, input, b_chain b)
            end
        end
  end.
(** The two remaining awaits: sign, then publish to [target]. *)
Definition sign_and_publish (deps : SealManagerDeps) (target : string) (c : SealChain)
  : result SignetError SealEnvelope :=
  match signer_sign deps (current c) with
  | Err e => Err e
  | Ok signed =>
      let envelope := {| chain := c; signature := signature signed; keyId := keyId signed |} in
      match publish deps target envelope with
      | Err e => Err e
      | Ok _ => Ok envelope
      end
  end.
Definition issue (st : SealState) (deps : SealManagerDeps) (credId chat newId nowISO : string)
  : SealState * result SignetError SealEnvelope :=
  match issue_prepare st deps credId chat newId nowISO with
  | inl r => (st, r)
  | inr (key, input, c) =>
      match sign_and_publish deps chat c with
      | Err e => (st, Err e)
      | Ok envelope => (track st key envelope input, Ok envelope)
      end
  end.

Definition refresh (st : SealState) (deps : SealManagerDeps) (sid newId nowISO : string)
  : SealState * result SignetError SealEnvelope :=
  match om_get sid (sealsById st) with
  | None => (st, Err (SealError_create sid "Seal not found"))
  | Some existing =>
      match om_get sid (inputsBySealId st) with
      | None => (st, Err (SealError_create sid "Input not found for seal"))
      | Some input =>
          let cur := current (chain existing) in
          let key := chainKey (credentialId cur) (chatId cur) in
          let head := om_get key (currentSeals st) in
          if negb (bool_decide (env_id <$> head = Some sid)) then
            (st, Err (SealError_create sid "Only the current head seal can be refreshed"))
          else if set_has (revokedPairs st) key then
            (st, Err (SealError_create sid
                        "Cannot refresh: credential+chat pair has been revoked"))
          else
            match buildSeal datetime zodMessage input (Some cur) newId nowISO with
            | Err e => (st, Err e)
            | Ok b =>
                match sign_and_publish deps (chatId cur) (b_chain b) with
                | Err e => (st, Err e)
                | Ok envelope => (track st key envelope input, Ok envelope)
                end
            end
      end
  end.

(** [revoke] up to the signing call, and its three steps together. *)
Definition revoke_prepare (st : SealState) (sid : string) (reason : AgentRevocationReason)
  (newId nowISO : string) : result SignetError (string * RevocationSeal) :=
  match om_get sid (sealsById st) with
  | None => Err (SealError_create sid "Seal not found")
  | Some existing =>
      let cur := current (chain existing) in
      let key := chainKey (credentialId cur) (chatId cur) in
      if set_has (revokedPairs st) key then
        Err (SealError_create sid "Credential+chat already revoked")
      else
        let r := {| rv_sealId := newId; rv_previousSealId := sid;
                    rv_operatorId := operatorId cur; rv_credentialId := credentialId cur;
                    rv_chatId := chatId cur; rv_reason := reason; rv_revokedAt := nowISO;
                    rv_issuer := "signet" |} in
        if negb (RevocationSeal_valid datetime r) then
          Err (ValidationError_create "revocation" (zodRevocationMessage r) None)
        else Ok (key, r)
  end.
Definition revoke_commit (st : SealState) (key : string) : SealState :=
  {| currentSeals := om_delete key (currentSeals st); sealsById := sealsById st;
     inputsBySealId := inputsBySealId st; revokedPairs := set_add (revokedPairs st) key |}.
Definition revoke (st : SealState) (deps : SealManagerDeps) (sid : string)
  (reason : AgentRevocationReason) (newId nowISO : string)
  : SealState * result SignetError unit :=
  match revoke_prepare st sid reason newId nowISO with
  | Err e => (st, Err e)
  | Ok (key, r) =>
      match signer_signRevocation deps r with
      | Err e => (st, Err e)
      | Ok signed =>
          match publishRevocation deps (rv_chatId r) signed with
          | Err e => (st, Err e)
          | Ok _ => (revoke_commit st key, Ok tt)
          end
      end
  end.

Definition current_seal (st : SealState) (credId chat : string) : option SealEnvelope :=
  om_get (chainKey credId chat) (currentSeals st).
Definition lookup_seal (st : SealState) (sid : string) : result SignetError SealEnvelope :=
  match om_get sid (sealsById st) with
  | None => Err (SealError_create sid "Seal not found")
  | Some e => Ok e
  end.
Definition matchesFilter (e : SealEnvelope) (f_chatId f_credentialId : option string) : bool :=
  if match f_chatId with
     | Some c => negb (bool_decide (chatId (current (chain e)) = c)) | None => false end
  then false
  else if match f_credentialId with
          | Some c => negb (bool_decide (credentialId (current (chain e)) = c))
          | None => false end
  then false else true.
(** [compareNewestFirst]; the NaN of an unreadable date compares as 0. *)
Definition compareNewestFirst (l r : SealEnvelope) : Z :=
  match date_getTime (issuedAt (current (chain r))),
        date_getTime (issuedAt (current (chain l))) with
  | Some a, Some b => a - b
  | _, _ => 0
  end.
Definition list_seals (st : SealState) (f_chatId f_credentialId : option string)
  : list SealEnvelope :=
  js_sort compareNewestFirst
    (List.filter (λ e, matchesFilter e f_chatId f_credentialId) ((currentSeals st).*2)).

Definition findHistoryHead (envelopes : list SealEnvelope) : option SealEnvelope :=
  let referenced := js_set (base.omap previous_id envelopes) in
  List.find (λ e, negb (set_has referenced (env_id e))) envelopes.
(** The walk along [previous] links; [fuel] bounds its iterations. *)
Fixpoint history_walk (fuel : nat) (byId : list (string * SealEnvelope)) (seen : list string)
  (cursor : option SealEnvelope) : list SealEnvelope :=
  match fuel, cursor with
  | S fuel, Some e =>
      if set_has seen (env_id e) then []
      else e :: history_walk fuel byId (set_add seen (env_id e))
             (match previous_id e with
              | Some pid => if bool_decide (pid = "") then None else om_get pid byId
              | None => None
              end)
  | _, _ => []
  end.
Definition history (st : SealState) (credId chat : string) : list SealEnvelope :=
  let envelopes := List.filter (λ e, bool_decide (credentialId (current (chain e)) = credId) &&
      bool_decide (chatId (current (chain e)) = chat)) ((sealsById st).*2) in
  if (length envelopes =? 0)%nat then []
  else
    let activeHead := om_get (chainKey credId chat) (currentSeals st) in
    let head_ := match activeHead with
                 | Some e => Some e
                 | None => match findHistoryHead envelopes with
                           | Some e => Some e
                           | None => head (js_sort compareNewestFirst envelopes)
                           end
                 end in
    history_walk (S (length (sealsById st))) (sealsById st) [] head_.

(** [issuedAt + DEFAULT_TTL_MS * 0.75], a whole number of milliseconds. *)
Definition needsRenewal (now : Z) (p : SealPayload) : bool :=
  num_leb (num_add (date_getTime (issuedAt p)) (DEFAULT_TTL_MS * 3 / 4)) (Some now).

(** ** Sequential transitions: each call uses its own dependencies and a
    fresh random id, and the resolver answers for the pair it is asked. *)
Definition honest (deps : SealManagerDeps) : Prop :=
  ∀ c chat i, resolveInput deps c chat = Ok i → in_credentialId i = c ∧ in_chatId i = chat.
Definition fresh (st : SealState) (newId : string) : Prop :=
  om_get newId (sealsById st) = None.
Inductive manager_step (st : SealState) : SealState → Prop :=
  | step_issue deps c chat newId iso :
      honest deps → fresh st newId →
      manager_step st (issue st deps c chat newId iso).1
  | step_refresh deps sid newId iso :
      fresh st newId → manager_step st (refresh st deps sid newId iso).1
  | step_revoke deps sid reason newId iso :
      manager_step st (revoke st deps sid reason newId iso).1.
Definition reachable : SealState → Prop := rtc manager_step seal_init.
End manager.

(** ** Keys *)
Definition env_key (e : SealEnvelope) : string :=
  chainKey (credentialId (current (chain e))) (chatId (current (chain e))).
Definition no_colon (s : string) : Prop := str_forallb (λ c, negb (bool_decide (c = ":"%char))) s = true.
Lemma no_colon_cut a b x y :
  no_colon a → no_colon b →
  x +:+ ":" +:+ y = a +:+ ":" +:+ b → x = a ∧ y = b.
Proof.
  unfold no_colon. intros Ha Hb. revert a Ha. induction x as [|c x IH]; intros [|c' a] Ha He;
    rewrite ?str_cons_app, ?str_nil_app in *; cbn in *.
  - by simplify_eq.
  - simplify_eq.
  - simplify_eq. rewrite str_forallb_app in Hb. cbn in Hb.
    by rewrite andb_false_r in Hb.
  - simplify_eq. apply andb_true_iff in Ha as [_ Ha]. by destruct (IH a Ha) as [-> ->].
Qed.
Lemma resourceId_no_colon p s : no_colon p → resourceIdSchema p s = true → no_colon s.
Proof.
  unfold resourceIdSchema. destruct (startsWith p s) eqn:Hp; [|done].
  apply startsWith_spec in Hp as [h ->]. rewrite str_drop_app. unfold no_colon.
  rewrite str_forallb_app. intros -> [_ Hh]%andb_true_iff. cbn. revert Hh.
  apply str_forallb_impl. intros c Hc. apply negb_true_iff, bool_decide_eq_false.
  by intros ->.
Qed.
Definition valid_pair (e : SealEnvelope) : Prop :=
  no_colon (credentialId (current (chain e))) ∧ no_colon (chatId (current (chain e))).
Lemma SealPayload_valid_ids datetime p :
  SealPayload_valid datetime p = true →
  resourceIdSchema "seal_" (sealId p) = true ∧
  no_colon (credentialId p) ∧ no_colon (chatId p) ∧ sealId p ≠ "".
Proof.
  unfold SealPayload_valid. rewrite !andb_true_iff. intros [[[[[[[Hs Hc] _] Hh] _] _] _] _].
  split_and!; [done|exact (resourceId_no_colon "cred_" _ eq_refl Hc)
    |exact (resourceId_no_colon "conv_" _ eq_refl Hh)|].
  intros He. by rewrite He in Hs.
Qed.
(** The composite key identifies the pair, for schema-valid ids. *)
Lemma env_key_spec e c ch :
  valid_pair e →
  env_key e = chainKey c ch ↔ credentialId (current (chain e)) = c ∧ chatId (current (chain e)) = ch.
Proof.
  intros [H1 H2]. unfold env_key, chainKey. split; [|by intros [-> ->]].
  intros Heq. symmetry in Heq. by destruct (no_colon_cut _ _ _ _ H1 H2 Heq) as [-> ->].
Qed.

(** ** The invariant *)
Definition seals_of (k : string) (st : SealState) : list SealEnvelope :=
  List.filter (λ e, bool_decide (env_key e = k)) ((sealsById st).*2).
Definition payload_of (e : SealEnvelope) : SealPayload := current (chain e).
(** Each seal names its predecessor in the list; the first has none. *)
Definition chained (l : list SealEnvelope) : Prop :=
  ∀ i e, l !! i = Some e →
    previous (chain e) = match i with O => None | S j => payload_of <$> l !! j end.
Section invariant.
Context `{JsDate} (datetime : string → bool) (zodMessage : SealPayload → string)
        (zodRevocationMessage : RevocationSeal → string).

Definition seal_ok (st : SealState) (sid : string) (e : SealEnvelope) : Prop :=
  env_id e = sid ∧ SealPayload_valid datetime (payload_of e) = true ∧
  verifyChainDelta (chain e) = Ok tt ∧
  ∃ input, om_get sid (inputsBySealId st) = Some input ∧
    payload_of e = build_raw input sid (issuedAt (payload_of e)).
Record seal_inv (st : SealState) : Prop := {
  si_nodup : NoDup (sealsById st).*1;
  si_ok : ∀ sid e, (sid, e) ∈ sealsById st → seal_ok st sid e;
  si_chained : ∀ k, chained (seals_of k st);
  si_current : ∀ k, om_get k (currentSeals st) =
    if decide (k ∈ revokedPairs st) then None else last (seals_of k st)
}.

Lemma seal_inv_init : seal_inv seal_init.
Proof. split; cbn; [constructor|set_solver|by intros k i e|]. intros k. by case_decide. Qed.

Lemma chained_snoc l e :
  chained l → previous (chain e) = payload_of <$> last l → chained (l ++ [e]).
Proof.
  intros Hl He i e'. rewrite lookup_app. destruct (l !! i) as [x|] eqn:Hi.
  - intros [= <-]. rewrite (Hl _ _ Hi). destruct i as [|j]; [done|].
    apply lookup_lt_Some in Hi. by rewrite lookup_app_l by lia.
  - apply lookup_ge_None in Hi. intros Hs.
    assert (i = length l) as ->.
    { apply list_lookup_singleton_Some in Hs as [? _]. lia. }
    rewrite Nat.sub_diag in Hs. cbn in Hs. simplify_eq.
    rewrite He, last_lookup. destruct (length l) as [|j] eqn:Hlen.
    + destruct l; [done|]. discriminate.
    + cbn. by rewrite lookup_app_l by lia.
Qed.
Lemma seals_of_track k key st e input :
  fresh st (env_id e) →
  seals_of k (track st key e input) =
  seals_of k st ++ (if decide (env_key e = k) then [e] else []).
Proof.
  intros Hf. unfold seals_of, track. cbn [sealsById]. rewrite om_set_fresh by done.
  rewrite fmap_app, List.filter_app. cbn. case_bool_decide; by case_decide.
Qed.

(** Tracking a freshly built seal for a pair that is not revoked. *)
Lemma track_inv st e input iso :
  seal_inv st → fresh st (env_id e) → env_key e ∉ revokedPairs st →
  payload_of e = build_raw input (env_id e) iso →
  SealPayload_valid datetime (payload_of e) = true →
  verifyChainDelta (chain e) = Ok tt →
  previous (chain e) = payload_of <$> last (seals_of (env_key e) st) →
  seal_inv (track st (env_key e) e input).
Proof.
  intros [Hnd Hok Hch Hcur] Hf Hr Hraw Hv Hd Hp. split.
  - unfold track. cbn [sealsById]. by apply om_set_NoDup.
  - intros sid x Hx. unfold track in Hx. cbn [sealsById] in Hx.
    apply om_elem_set in Hx as [[-> ->]|[Hne Hx]]; [| |done].
    + split_and!; [done..|]. exists input. unfold track. cbn [inputsBySealId].
      rewrite om_get_set_eq. split; [done|]. rewrite Hraw. done.
    + destruct (Hok _ _ Hx) as (H1 & H2 & H3 & i & H4 & H5). split_and!; [done..|].
      exists i. unfold track. cbn [inputsBySealId].
      by rewrite om_get_set_ne by congruence.
  - intros k. rewrite seals_of_track by done. case_decide; [subst|by rewrite app_nil_r].
    by apply chained_snoc.
  - intros k. rewrite seals_of_track by done. unfold track. cbn [currentSeals revokedPairs].
    rewrite om_get_set. destruct (decide (env_key e = k)) as [<-|Hne].
    + by rewrite decide_False, last_snoc by done.
    + by rewrite app_nil_r, Hcur.
Qed.

Lemma buildSeal_ok input prev newId iso b :
  buildSeal datetime zodMessage input prev newId iso = Ok b →
  current (b_chain b) = build_raw input newId iso ∧ previous (b_chain b) = prev ∧
  SealPayload_valid datetime (build_raw input newId iso) = true ∧
  verifyChainDelta (b_chain b) = Ok tt.
Proof.
  unfold buildSeal. destruct (SealPayload_valid datetime _) eqn:Hv; [|done].
  intros [= <-]. cbn [b_chain current previous negb]. split_and!; [done..|].
  unfold verifyChainDelta. cbn [current previous chain_delta].
  rewrite (proj2 (deltaEquals_spec _ _ (expected_NoDup _ _))); done.
Qed.
Lemma sign_and_publish_chain deps target c e :
  sign_and_publish deps target c = Ok e → chain e = c.
Proof.
  unfold sign_and_publish. destruct (signer_sign _ _); [|done].
  destruct (publish _ _ _); [|done]. by intros [= <-].
Qed.
(** Both [issue] and [refresh] end by building on the head of the chain,
    signing, publishing and tracking. *)
Lemma commit_inv st deps target input newId iso b e :
  seal_inv st → fresh st newId →
  chainKey (in_credentialId input) (in_chatId input) ∉ revokedPairs st →
  buildSeal datetime zodMessage input
    (payload_of <$> om_get (chainKey (in_credentialId input) (in_chatId input)) (currentSeals st))
    newId iso = Ok b →
  sign_and_publish deps target (b_chain b) = Ok e →
  seal_inv (track st (chainKey (in_credentialId input) (in_chatId input)) e input).
Proof.
  intros Hinv Hf Hr Hb He. apply buildSeal_ok in Hb as (Hc & Hp & Hv & Hd).
  apply sign_and_publish_chain in He as Hch.
  assert (payload_of e = build_raw input newId iso) as Hraw by (unfold payload_of; by rewrite Hch).
  assert (env_id e = newId) as Hid by (unfold env_id; by rewrite Hch, Hc).
  assert (env_key e = chainKey (in_credentialId input) (in_chatId input)) as Hk
    by (unfold env_key; by rewrite Hch, Hc).
  rewrite <-Hk in *. apply (track_inv _ _ _ iso); rewrite ?Hid, ?Hch; try done.
  - by rewrite Hraw.
  - rewrite Hp, (si_current _ Hinv), decide_False by done. done.
Qed.

Lemma last_elem {A} (l : list A) x : last l = Some x → x ∈ l.
Proof. rewrite last_Some. intros [l' ->]. set_solver. Qed.
Lemma seals_of_elem k st e : e ∈ seals_of k st ↔ env_key e = k ∧ e ∈ (sealsById st).*2.
Proof. unfold seals_of. rewrite elem_of_Filter, bool_decide_eq_true. naive_solver. Qed.
Lemma stored_by_id st e :
  seal_inv st → e ∈ (sealsById st).*2 → om_get (env_id e) (sealsById st) = Some e.
Proof.
  intros Hinv ([sid e'] & -> & Hin)%list_elem_of_fmap. cbn.
  destruct (si_ok _ Hinv _ _ Hin) as [-> _]. apply om_get_NoDup; [apply Hinv|done].
Qed.
Lemma current_seal_spec st k e :
  seal_inv st → om_get k (currentSeals st) = Some e →
  k ∉ revokedPairs st ∧ env_key e = k ∧ last (seals_of k st) = Some e ∧
  om_get (env_id e) (sealsById st) = Some e.
Proof.
  intros Hinv. rewrite (si_current _ Hinv). case_decide as Hr; [done|]. intros Hl.
  pose proof (proj1 (seals_of_elem _ _ _) (last_elem _ _ Hl)) as [Hk Hin].
  split_and!; [done..|]. by apply stored_by_id.
Qed.

Lemma issue_inv st deps c chat newId iso :
  seal_inv st → honest deps → fresh st newId →
  seal_inv (issue datetime zodMessage st deps c chat newId iso).1.
Proof.
  intros Hinv Hh Hf. unfold issue, issue_prepare.
  destruct (resolveInput deps c chat) as [input|] eqn:Hi; [|done].
  apply Hh in Hi as [<- <-].
  destruct (set_has _ _) eqn:Hr; [done|]. apply set_has_false in Hr.
  destruct (om_get _ (currentSeals st)) as [p|] eqn:Hp.
  - destruct (nothingChanged st p input); [done|].
    destruct (buildSeal _ _ _ _ _ _) as [b|] eqn:Hb; [|done].
    destruct (sign_and_publish _ _ _) as [e|] eqn:He; [|done].
    eapply commit_inv; [done..| |done]. rewrite Hp. exact Hb.
  - destruct (buildSeal _ _ _ _ _ _) as [b|] eqn:Hb; [|done].
    destruct (sign_and_publish _ _ _) as [e|] eqn:He; [|done].
    eapply commit_inv; [done..| |done]. rewrite Hp. exact Hb.
Qed.
Lemma refresh_inv st deps sid newId iso :
  seal_inv st → fresh st newId →
  seal_inv (refresh datetime zodMessage st deps sid newId iso).1.
Proof.
  intros Hinv Hf. unfold refresh.
  destruct (om_get sid (sealsById st)) as [ex|] eqn:Hex; [|done].
  destruct (om_get sid (inputsBySealId st)) as [input|] eqn:Hin; [|done].
  destruct (bool_decide _) eqn:Hhd; [|done]. apply bool_decide_eq_true in Hhd. cbn [negb].
  destruct (set_has _ _) eqn:Hr; [done|]. apply set_has_false in Hr.
  destruct (buildSeal _ _ _ _ _ _) as [b|] eqn:Hb; [|done].
  destruct (sign_and_publish _ _ _) as [e|] eqn:He; [|done]. cbn [fst].
  destruct (si_ok _ Hinv _ _ (om_get_elem _ _ _ Hex)) as (Hid & _ & _ & input' & Hin' & Hraw).
  assert (input' = input) as -> by congruence.
  assert (credentialId (current (chain ex)) = in_credentialId input ∧
          chatId (current (chain ex)) = in_chatId input) as [Hc Hch].
  { unfold payload_of in Hraw. by rewrite Hraw. }
  rewrite Hc, Hch in *.
  destruct (om_get (chainKey _ _) (currentSeals st)) as [hd|] eqn:Hcur; [|done].
  cbn in Hhd. apply current_seal_spec in Hcur as Hcs; [|done].
  destruct Hcs as (_ & _ & _ & Hst).
  assert (hd = ex) as -> by congruence.
  eapply commit_inv; [done..| |done]. rewrite Hcur. exact Hb.
Qed.
Lemma om_delete_get (k k' : string) (m : list (string * SealEnvelope)) :
  om_get k' (om_delete k m) = if decide (k = k') then None else om_get k' m.
Proof. apply om_get_delete. Qed.
Lemma revoke_commit_inv st k : seal_inv st → seal_inv (revoke_commit st k).
Proof.
  intros [Hnd Hok Hch Hcur]. split; [done|done|done|]. intros k'.
  unfold revoke_commit. cbn [currentSeals revokedPairs]. rewrite om_delete_get, Hcur.
  change (seals_of k' _) with (seals_of k' st).
  repeat case_decide; rewrite ?elem_of_set_add in *; naive_solver.
Qed.
Lemma revoke_cases st deps sid reason newId iso :
  let r := revoke datetime zodRevocationMessage st deps sid reason newId iso in
  r.1 = st ∨ ∃ e, om_get sid (sealsById st) = Some e ∧ r = (revoke_commit st (env_key e), Ok tt).
Proof.
  unfold revoke, revoke_prepare. destruct (om_get sid (sealsById st)) as [ex|]; [|by left].
  destruct (set_has _ _); [by left|]. destruct (RevocationSeal_valid _ _); [|by left].
  cbn [negb]. destruct (signer_signRevocation _ _); [|by left].
  destruct (publishRevocation _ _ _); [|by left]. right. by exists ex.
Qed.
Lemma manager_step_inv st st' :
  seal_inv st → manager_step datetime zodMessage zodRevocationMessage st st' → seal_inv st'.
Proof.
  intros Hinv []; [by apply issue_inv|by apply refresh_inv|].
  destruct (revoke_cases st deps sid reason newId iso) as [->|(e & _ & ->)]; [done|].
  by apply revoke_commit_inv.
Qed.
Lemma manager_reachable_inv st : reachable datetime zodMessage zodRevocationMessage st → seal_inv st.
Proof.
  unfold reachable. generalize seal_inv_init. generalize seal_init.
  intros s0 Hinv Hr. induction Hr as [|s s' ? Hstep _ IH]; [done|].
  apply IH. by eapply manager_step_inv.
Qed.

(** C8: in every state the manager can reach by whole operations, each with an
    identifier that is not in use, whatever the signer and the publisher
    answer, and whatever the resolver answers as long as its input is for the
    credential and the chat it was asked about ([honest]; the runtime's, in
    [seal-input-resolver.ts], copies both from its arguments): stored seals are schema-valid
    and carry exactly the recorded input; each is chained to its
    predecessor of the same credential and chat with a verified delta; and
    the current seal of a pair is the latest seal issued for it, unless the
    pair was revoked, in which case there is none. *)
Theorem seal_manager_invariant st c ch sid e :
  reachable datetime zodMessage zodRevocationMessage st →
  (om_get sid (sealsById st) = Some e →
    seal_ok st sid e ∧
    (∀ p, previous (chain e) = Some p →
      ∃ e', om_get (sealId p) (sealsById st) = Some e' ∧ payload_of e' = p ∧
        credentialId p = credentialId (payload_of e) ∧ chatId p = chatId (payload_of e))) ∧
  (current_seal st c ch = Some e →
    credentialId (payload_of e) = c ∧ chatId (payload_of e) = ch ∧
    chainKey c ch ∉ revokedPairs st ∧ last (seals_of (chainKey c ch) st) = Some e ∧
    om_get (env_id e) (sealsById st) = Some e) ∧
  (current_seal st c ch = None ↔
    chainKey c ch ∈ revokedPairs st ∨ seals_of (chainKey c ch) st = []).
Proof.
  intros Hinv%manager_reachable_inv.
  assert (∀ x, x ∈ (sealsById st).*2 → valid_pair x) as Hvp.
  { intros x ([sid' x'] & -> & Hin)%list_elem_of_fmap.
    destruct (si_ok _ Hinv _ _ Hin) as (_ & Hv & _).
    apply SealPayload_valid_ids in Hv as (_ & ? & ? & _). by split. }
  split_and!.
  - intros Hg%om_get_elem. split; [by apply Hinv|]. intros p Hp.
    assert (e ∈ seals_of (env_key e) st) as Hin.
    { apply seals_of_elem. split; [done|]. apply list_elem_of_fmap. by exists (sid, e). }
    apply list_elem_of_lookup in Hin as [i Hi].
    pose proof (si_chained _ Hinv _ _ _ Hi) as Hc. rewrite Hp in Hc.
    destruct i as [|j]; [done|].
    destruct (seals_of (env_key e) st !! j) as [e'|] eqn:Hj; [|done].
    cbn in Hc. simplify_eq. apply list_elem_of_lookup_2, seals_of_elem in Hj as [Hk Hin].
    exists e'. split_and!; [by apply stored_by_id|done|..];
      apply env_key_spec in Hk as [H1 H2]; auto.
  - intros Hc. apply current_seal_spec in Hc as (Hr & Hk & Hl & Hs); [|done].
    pose proof (proj1 (seals_of_elem _ _ _) (last_elem _ _ Hl)) as [_ Hin].
    apply env_key_spec in Hk as [H1 H2]; [|by apply Hvp]. done.
  - unfold current_seal. rewrite (si_current _ Hinv). case_decide; [naive_solver|].
    rewrite last_None. naive_solver.
Qed.

(** *** The history walk *)
Lemma previous_id_chained l i e :
  chained l → l !! i = Some e →
  previous_id e = match i with O => None | S j => env_id <$> l !! j end.
Proof.
  intros Hl Hi. unfold previous_id. rewrite (Hl _ _ Hi). destruct i as [|j]; [done|].
  by destruct (l !! j).
Qed.
Lemma history_walk_spec byId l i e fuel seen :
  chained l → NoDup (map env_id l) →
  (∀ x, x ∈ l → om_get (env_id x) byId = Some x ∧ env_id x ≠ "") →
  l !! i = Some e → (i < fuel)%nat →
  (∀ x, x ∈ take (S i) l → env_id x ∉ seen) →
  history_walk fuel byId seen (Some e) = rev (take (S i) l).
Proof.
  intros Hl Hnd Hby. revert e fuel seen. induction i as [|i IH]; intros e fuel seen Hi Hf Hs;
    (destruct fuel as [|fuel]; [lia|]); cbn [history_walk];
    rewrite (take_S_r _ _ _ Hi), rev_app_distr; cbn [rev app].
  - rewrite (proj2 (set_has_false seen (env_id e))).
    2: { apply Hs. rewrite (take_S_r _ _ _ Hi). set_solver. }
    rewrite (previous_id_chained _ _ _ Hl Hi). by destruct fuel.
  - rewrite (proj2 (set_has_false seen (env_id e))).
    2: { apply Hs. rewrite (take_S_r _ _ _ Hi). set_solver. }
    rewrite (previous_id_chained _ _ _ Hl Hi).
    destruct (lookup_lt_is_Some_2 l i) as [e' He'].
    { apply lookup_lt_Some in Hi. lia. }
    rewrite He'. cbn [fmap option_fmap option_map].
    destruct (Hby e') as [Hg Hne]; [by eapply list_elem_of_lookup_2|].
    rewrite bool_decide_false by done. rewrite Hg. f_equal. apply IH; [done|lia|].
    intros x Hx Hin. apply elem_of_set_add in Hin as [Hin|Hid].
    + apply (Hs x); [|done]. rewrite (take_S_r _ _ _ Hi). set_solver.
    + apply list_elem_of_lookup in Hx as [j Hj].
      apply lookup_take_Some in Hj as [Hj Hlt].
      assert (j = S i); [|lia]. eapply NoDup_lookup; [exact Hnd|..];
        rewrite list_lookup_fmap; [by rewrite Hj; cbn; rewrite Hid|by rewrite Hi].
Qed.
Lemma find_app_last {A} (f : A → bool) l x :
  (∀ y, y ∈ l → f y = false) → f x = true → List.find f (l ++ [x]) = Some x.
Proof.
  intros Hl Hx. induction l as [|y l IH]; cbn; [by rewrite Hx|].
  rewrite Hl by left. apply IH. intros z Hz. apply Hl. by right.
Qed.
Lemma findHistoryHead_spec l e :
  chained l → NoDup (map env_id l) → last l = Some e → findHistoryHead l = Some e.
Proof.
  intros Hl Hnd [l' ->]%last_Some. unfold findHistoryHead.
  assert (∀ x, set_has (js_set (base.omap previous_id (l' ++ [e]))) x = true ↔
    ∃ y, y ∈ l' ++ [e] ∧ previous_id y = Some x) as Href.
  { intros x. rewrite set_has_spec, elem_of_js_set, list_elem_of_omap. done. }
  assert (∀ i y, (l' ++ [e]) !! i = Some y → ∀ x, previous_id y = Some x →
    ∃ j z, i = S j ∧ l' !! j = Some z ∧ env_id z = x) as Hprev.
  { intros i y Hi x Hx. rewrite (previous_id_chained _ _ _ Hl Hi) in Hx.
    destruct i as [|j]; [done|]. exists j. apply lookup_lt_Some in Hi as Hlt.
    rewrite length_app in Hlt. cbn in Hlt. rewrite lookup_app_l in Hx by lia.
    destruct (l' !! j) as [z|]; [|done]. cbn in Hx. simplify_eq. eauto. }
  apply find_app_last.
  - intros y Hy. apply negb_false_iff, Href. apply list_elem_of_lookup in Hy as [i Hi].
    destruct (lookup_lt_is_Some_2 (l' ++ [e]) (S i)) as [z Hz].
    { apply lookup_lt_Some in Hi. rewrite length_app. cbn. lia. }
    exists z. split; [by eapply list_elem_of_lookup_2|].
    rewrite (previous_id_chained _ _ _ Hl Hz), lookup_app_l by (by eapply lookup_lt_Some).
    by rewrite Hi.
  - apply negb_true_iff, not_true_iff_false. rewrite Href. intros (y & Hy & Hpy).
    apply list_elem_of_lookup in Hy as [i Hi].
    destruct (Hprev _ _ Hi _ Hpy) as (j & z & _ & Hz & Hid).
    assert (j = length l') as Hj; [|apply lookup_lt_Some in Hz; lia].
    eapply NoDup_lookup; [exact Hnd|..]; rewrite list_lookup_fmap.
    + by rewrite lookup_app_l, Hz by (by eapply lookup_lt_Some); cbn; rewrite Hid.
    + by rewrite list_lookup_middle.
Qed.

Lemma stored_ids st : seal_inv st → map env_id (sealsById st).*2 = (sealsById st).*1.
Proof.
  intros Hinv. pose proof (si_ok _ Hinv) as Hok.
  induction (sealsById st) as [|[k x] m IH]; [done|]. cbn. f_equal.
  - destruct (Hok k x) as [? _]; [left|done].
  - apply IH. intros sid e He. apply Hok. by right.
Qed.
Definition pair_seals (st : SealState) (c ch : string) : list SealEnvelope :=
  filter (λ e, credentialId (payload_of e) = c ∧ chatId (payload_of e) = ch) (sealsById st).*2.

(** the history of a pair is complete and ordered: in every reachable
    state it returns exactly the seals ever issued for that credential and
    chat, newest first, before and after revocation; the walk along the
    predecessor links always terminates, within one step per stored seal. *)
Theorem history_spec st c ch :
  reachable datetime zodMessage zodRevocationMessage st →
  history st c ch = rev (pair_seals st c ch).
Proof.
  intros Hinv%manager_reachable_inv.
  assert (∀ x, x ∈ (sealsById st).*2 → valid_pair x ∧ env_id x ≠ "") as Hvp.
  { intros x ([sid' x'] & -> & Hin)%list_elem_of_fmap.
    destruct (si_ok _ Hinv _ _ Hin) as (_ & Hv & _).
    by apply SealPayload_valid_ids in Hv as (_ & ? & ? & ?). }
  assert (pair_seals st c ch = seals_of (chainKey c ch) st ∧
    List.filter (λ e, bool_decide (credentialId (current (chain e)) = c) &&
      bool_decide (chatId (current (chain e)) = ch)) ((sealsById st).*2) =
    seals_of (chainKey c ch) st) as [-> Heq].
  { unfold pair_seals, seals_of. clear Hinv. induction ((sealsById st).*2) as [|x l IH]; [done|].
    destruct IH as [IH1 IH2]; [intros y Hy; apply Hvp, elem_of_cons; by right|].
    destruct (Hvp x) as [Hx _]; [left|]. pose proof (env_key_spec x c ch Hx) as Hk.
    rewrite filter_cons. cbn [List.filter]. unfold payload_of in *. rewrite IH1, IH2.
    repeat case_bool_decide; case_decide; cbn; naive_solver. }
  unfold history. rewrite Heq. set (L := seals_of (chainKey c ch) st).
  assert (NoDup (map env_id L)) as Hnd.
  { apply (sublist_NoDup _ (map env_id (sealsById st).*2)).
    - rewrite stored_ids by done. apply Hinv.
    - apply fmap_sublist. unfold L, seals_of.
      clear. induction ((sealsById st).*2) as [|x l IH]; cbn; [done|].
      destruct (bool_decide _); [by apply sublist_skip|by apply sublist_cons]. }
  assert (chained L) as Hch by apply Hinv.
  destruct (length L =? 0)%nat eqn:Hlen.
  { by destruct L. }
  destruct (last L) as [e|] eqn:Hlast.
  2: { apply last_None in Hlast. by rewrite Hlast in Hlen. }
  assert ((match om_get (chainKey c ch) (currentSeals st) with
    | Some e => Some e
    | None => match findHistoryHead L with
              | Some e => Some e | None => head (js_sort compareNewestFirst L) end
    end) = Some e) as ->.
  { rewrite (si_current _ Hinv). fold L. rewrite Hlast. case_decide; [|done].
    by rewrite (findHistoryHead_spec L e). }
  rewrite last_lookup in Hlast.
  erewrite (history_walk_spec _ L _ _ _ _ Hch Hnd); [|..|exact Hlast| |].
  - rewrite take_ge; [done|]. apply Nat.eqb_neq in Hlen. lia.
  - intros x Hx%seals_of_elem. destruct Hx as [_ Hx]. split; [by apply stored_by_id|by apply Hvp].
  - assert (length L ≤ length (sealsById st))%nat as Hle; [|lia].
    unfold L, seals_of. rewrite List.filter_length_le. by rewrite length_fmap.
  - intros x _. apply not_elem_of_nil.
Qed.

(** *** Finality of revocation *)
Lemma seal_issue_cases st deps c chat newId iso :
  let r := issue datetime zodMessage st deps c chat newId iso in
  (∃ e, r = (st, e)) ∨ ∃ k e i, r = (track st k e i, Ok e) ∧ k ∉ revokedPairs st.
Proof.
  unfold issue, issue_prepare. destruct (resolveInput _ _ _) as [input|]; [|eauto].
  destruct (set_has _ _) eqn:Hr; [eauto|]. apply set_has_false in Hr.
  destruct (om_get _ (currentSeals st)) as [p|]; [destruct (nothingChanged _ _ _); [eauto|]|];
    (destruct (buildSeal _ _ _ _ _ _); [|eauto]);
    (destruct (sign_and_publish _ _ _); [|eauto]); right; eauto 6.
Qed.
Lemma refresh_cases st deps sid newId iso :
  let r := refresh datetime zodMessage st deps sid newId iso in
  (∃ e, r = (st, Err e)) ∨ ∃ k e i, r = (track st k e i, Ok e) ∧ k ∉ revokedPairs st.
Proof.
  unfold refresh. destruct (om_get sid (sealsById st)); [|eauto].
  destruct (om_get sid (inputsBySealId st)); [|eauto].
  destruct (negb _); [eauto|]. destruct (set_has _ _) eqn:Hr; [eauto|].
  apply set_has_false in Hr. destruct (buildSeal _ _ _ _ _ _); [|eauto].
  destruct (sign_and_publish _ _ _); [|eauto]. right. eauto 6.
Qed.
Lemma revoked_mono st st' k :
  manager_step datetime zodMessage zodRevocationMessage st st' →
  k ∈ revokedPairs st → k ∈ revokedPairs st'.
Proof.
  intros [] Hk.
  - destruct (seal_issue_cases st deps c chat newId iso) as [[? ->]|(? & ? & ? & -> & _)]; done.
  - destruct (refresh_cases st deps sid newId iso) as [[? ->]|(? & ? & ? & -> & _)]; done.
  - destruct (revoke_cases st deps sid reason newId iso) as [->|(? & _ & ->)]; [done|].
    cbn. rewrite elem_of_set_add. by left.
Qed.
Lemma byId_mono st st' sid e :
  manager_step datetime zodMessage zodRevocationMessage st st' → seal_inv st →
  om_get sid (sealsById st) = Some e → om_get sid (sealsById st') = Some e.
Proof.
  intros Hst Hinv Hg. pose proof (manager_step_inv _ _ Hinv Hst) as Hinv'. revert Hinv'.
  assert (∀ k x i, seal_inv (track st k x i) → env_id x ≠ sid →
    om_get sid (sealsById (track st k x i)) = Some e) as Ht.
  { intros k x i _ Hne. cbn. by rewrite om_get_set_ne. }
  destruct Hst as [deps c chat newId iso _ Hf|deps sid' newId iso Hf|]; intros Hinv'.
  - unfold issue in *. destruct (issue_prepare _ _ _ _ _ _ _ _) as [|[[k i] ch]] eqn:Hp; [done|].
    destruct (sign_and_publish _ _ _) as [x|] eqn:Hx; [|done]. apply Ht; [done|].
    apply sign_and_publish_chain in Hx. unfold env_id. rewrite Hx.
    assert (sealId (current ch) = newId) as ->; [|unfold fresh in Hf; congruence].
    unfold issue_prepare in Hp. destruct (resolveInput _ _ _) as [input|]; [|done].
    destruct (set_has _ _); [done|].
    destruct (om_get _ (currentSeals st)) as [p|]; [destruct (nothingChanged _ _ _); [done|]|];
      (destruct (buildSeal _ _ _ _ _ _) as [b|] eqn:Hb; [|done]);
      apply buildSeal_ok in Hb as (Hb & _); injection Hp as _ _ <-; by rewrite Hb.
  - unfold refresh in *. destruct (om_get sid' (sealsById st)); [|done].
    destruct (om_get sid' (inputsBySealId st)); [|done]. destruct (negb _); [done|].
    destruct (set_has _ _); [done|]. destruct (buildSeal _ _ _ _ _ _) as [b|] eqn:Hb; [|done].
    destruct (sign_and_publish _ _ _) as [x|] eqn:Hx; [|done]. apply Ht; [done|].
    apply sign_and_publish_chain in Hx. unfold env_id. rewrite Hx.
    apply buildSeal_ok in Hb as (-> & _). cbn. unfold fresh in Hf. congruence.
  - destruct (revoke_cases st deps sid0 reason newId iso) as [->|(? & _ & ->)]; done.
Qed.

Ltac refused := eexists; split; [|reflexivity]; reflexivity.

(** C6: revocation is final: once [revoke] has succeeded for a seal, then in
    every later state, however many whole operations ran since (with unused
    identifiers, and a resolver whose input is for the credential and chat it
    is asked about), the pair of that seal has no current seal, every further [issue] that the resolver
    answers for the pair is refused with a [SealError] and changes nothing,
    and so is every [refresh] and [revoke] of any seal of the pair; a
    failed [revoke] leaves the state untouched. *)
Theorem revocation_final st deps sid reason newId iso :
  reachable datetime zodMessage zodRevocationMessage st →
  let revoked := revoke datetime zodRevocationMessage st deps sid reason newId iso in
  (isOk revoked.2 = false → revoked.1 = st) ∧
  (∀ st1 st2, revoked = (st1, Ok tt) →
  rtc (manager_step datetime zodMessage zodRevocationMessage) st1 st2 →
  ∃ e, om_get sid (sealsById st2) = Some e ∧
    let c := credentialId (payload_of e) in let ch := chatId (payload_of e) in
    current_seal st2 c ch = None ∧
    (∀ deps' id' iso' i, resolveInput deps' c ch = Ok i → in_credentialId i = c →
      ∃ err, _tag err = SealError ∧
        issue datetime zodMessage st2 deps' c ch id' iso' = (st2, Err err)) ∧
    (∀ sid' e' deps' id' iso', om_get sid' (sealsById st2) = Some e' → env_key e' = env_key e →
      ∃ err, _tag err = SealError ∧
        refresh datetime zodMessage st2 deps' sid' id' iso' = (st2, Err err)) ∧
    (∀ sid' e' deps' r' id' iso', om_get sid' (sealsById st2) = Some e' →
      env_key e' = env_key e →
      ∃ err, _tag err = SealError ∧
        revoke datetime zodRevocationMessage st2 deps' sid' r' id' iso' = (st2, Err err))).
Proof.
  intros Hinv%manager_reachable_inv. cbv zeta. split.
  { destruct (revoke_cases st deps sid reason newId iso) as [->|(? & _ & ->)]; done. }
  intros st1 st2 Hrev Hsteps.
  assert (∃ e, om_get sid (sealsById st) = Some e ∧ st1 = revoke_commit st (env_key e)) as (e & He & ->).
  { unfold revoke, revoke_prepare in Hrev. destruct (om_get sid (sealsById st)) as [e|]; [|done].
    destruct (set_has _ _); [done|]. destruct (RevocationSeal_valid _ _); [|done].
    cbn [negb] in Hrev. destruct (signer_signRevocation _ _); [|done].
    destruct (publishRevocation _ _ _); [|done]. simplify_eq. by exists e. }
  assert (seal_inv st2 ∧ env_key e ∈ revokedPairs st2 ∧ om_get sid (sealsById st2) = Some e)
    as (Hinv2 & Hk & He2).
  { clear Hrev. assert (seal_inv (revoke_commit st (env_key e)) ∧
      env_key e ∈ revokedPairs (revoke_commit st (env_key e)) ∧
      om_get sid (sealsById (revoke_commit st (env_key e))) = Some e) as H0.
    { split_and!; [by apply revoke_commit_inv|cbn; rewrite elem_of_set_add; by right|done]. }
    revert H0. induction Hsteps as [|s s' ? Hstep _ IH]; [done|]. intros (Hi & Hr & Hg).
    apply IH. split_and!; [by eapply manager_step_inv|by eapply revoked_mono|by eapply byId_mono]. }
  exists e. split; [done|]. cbv zeta. unfold env_key in Hk. split_and!.
  - unfold current_seal. rewrite (si_current _ Hinv2). unfold payload_of. by rewrite decide_True.
  - intros deps' id' iso' i Hi Hc. unfold issue, issue_prepare. rewrite Hi, Hc.
    rewrite (proj2 (set_has_spec _ _)) by done. refused.
  - intros sid' e' deps' id' iso' Hg Hke. unfold refresh. rewrite Hg.
    destruct (om_get sid' (inputsBySealId st2)); [|refused].
    assert (om_get (env_key e) (currentSeals st2) = None) as Hn.
    { rewrite (si_current _ Hinv2). by rewrite decide_True. }
    unfold env_key in Hke, Hn. rewrite Hke, Hn. cbn. refused.
  - intros sid' e' deps' r' id' iso' Hg Hke. unfold revoke, revoke_prepare. rewrite Hg.
    unfold env_key in Hke. rewrite Hke, (proj2 (set_has_spec _ _)) by done. refused.
Qed.

(** *** When a new seal is issued *)
(** Agreement of two inputs on everything [hasInputChanges] compares. *)
Definition same_claims (a b : SealInput) : Prop :=
  in_credentialId a = in_credentialId b ∧ in_operatorId a = in_operatorId b ∧
  in_chatId a = in_chatId b ∧ in_scopeMode a = in_scopeMode b ∧
  in_adminAccess a = in_adminAccess b ∧ in_trustTier a = in_trustTier b ∧
  in_operatorDisclosures a = in_operatorDisclosures b ∧
  in_provenanceMap a = in_provenanceMap b.
Definition same_scopes (a b : ScopeSetType) : Prop :=
  ∀ s, (s ∈ allow a ↔ s ∈ allow b) ∧ (s ∈ deny a ↔ s ∈ deny b).

Lemma stableSerialize_opt {A} (f : A → json) a b :
  (∀ x, json_wf (f x) = true) → (∀ x, is_undef (f x) = false) →
  (∀ x, ∃ c s, canonicalize (f x) = String c s) →
  (∀ x y, json_same (f x) (f y) → x = y) →
  stableSerialize (opt_json f a) = stableSerialize (opt_json f b) ↔ a = b.
Proof.
  intros Hwf Hu Hne Hf. split; [|by intros ->]. unfold stableSerialize.
  assert (∀ x, f x ≠ JUndef) as Hn by (intros x Hx; by specialize (Hu x); rewrite Hx in Hu).
  destruct a as [x|], b as [y|]; cbn [opt_json]; [|destruct (Hne x) as (?&?&->)
    |destruct (Hne y) as (?&?&->)|done]; try done.
  rewrite canonicalize_same by done. intros ?%Hf. by subst.
Qed.
Lemma canonicalize_obj o : ∃ c s, canonicalize (JObj o) = String c s.
Proof. by eexists _, _. Qed.
Lemma hasInputChanges_spec a b : hasInputChanges a b = false ↔ same_claims a b.
Proof.
  unfold hasInputChanges, same_claims.
  rewrite !orb_false_iff, !negb_false_iff, !bool_decide_eq_true.
  rewrite (stableSerialize_opt adminAccess_json), (stableSerialize_opt disclosures_json),
    (stableSerialize_opt provenanceMap_json);
    auto using disclosures_json_wf, provenanceMap_json_wf, same_disclosures,
      same_provenanceMap, same_adminAccess; try (intros; apply canonicalize_obj).
  tauto.
Qed.
Lemma isMaterial_empty d : isMaterialChange (inl d) = false ↔ d = emptyDelta.
Proof.
  unfold isMaterialChange, isSingleDeltaMaterial. cbn [normalizeDeltas existsb].
  rewrite orb_false_r. destruct d as [[|] [|] [|]]; cbn; split; done.
Qed.
Lemma nothingChanged_spec st p input :
  nothingChanged st p input = true ↔
  ∃ i0, om_get (env_id p) (inputsBySealId st) = Some i0 ∧ same_claims i0 input ∧
    same_scopes (permissions (payload_of p)) (in_permissions input).
Proof.
  unfold nothingChanged. destruct (om_get _ _) as [i0|]; [|naive_solver].
  rewrite andb_true_iff, !negb_true_iff, hasInputChanges_spec, isMaterial_empty, delta_empty.
  cbn. unfold same_scopes, payload_of. naive_solver.
Qed.

(** issuing a seal: an error leaves the state untouched; a success
    leaves the returned seal as the current one of the pair.  The standing
    seal is returned, without signing or publishing, exactly when the input
    agrees with the one recorded for it in every compared claim and lists
    the same scopes; otherwise the new seal carries every field of the
    input, succeeds the standing seal (if any) in the chain, and was signed
    and published before it was recorded. *)
Theorem issue_spec st deps c ch newId iso i :
  reachable datetime zodMessage zodRevocationMessage st →
  honest deps → fresh st newId → resolveInput deps c ch = Ok i →
  let r := issue datetime zodMessage st deps c ch newId iso in
  (∀ err, r.2 = Err err → r.1 = st) ∧
  (∀ e, r.2 = Ok e →
    current_seal r.1 c ch = Some e ∧
    ((r.1 = st ∧ current_seal st c ch = Some e ∧
      ∃ i0, om_get (env_id e) (inputsBySealId st) = Some i0 ∧ same_claims i0 i ∧
            same_scopes (permissions (payload_of e)) (in_permissions i)) ∨
     (payload_of e = build_raw i newId iso ∧
      previous (chain e) = payload_of <$> current_seal st c ch ∧
      (∀ p, current_seal st c ch = Some p → nothingChanged st p i = false) ∧
      isOk (signer_sign deps (payload_of e)) = true ∧ publish deps ch e = Ok tt))).
Proof.
  intros Hinv%manager_reachable_inv Hh Hf Hi. destruct (Hh _ _ _ Hi) as [Hc Hch].
  unfold issue, issue_prepare. rewrite Hi, Hc.
  destruct (set_has _ _) eqn:Hr; [by split|]. fold (current_seal st c ch).
  assert (∀ prev b, buildSeal datetime zodMessage i prev newId iso = Ok b →
    (∀ p, current_seal st c ch = Some p → nothingChanged st p i = false) →
    prev = payload_of <$> current_seal st c ch →
    let r := match sign_and_publish deps ch (b_chain b) with
             | Err e => (st, Err e)
             | Ok e => (track st (chainKey c ch) e i, Ok e)
             end in
    (∀ err, r.2 = Err err → r.1 = st) ∧
    (∀ e, r.2 = Ok e → current_seal r.1 c ch = Some e ∧
      ((r.1 = st ∧ current_seal st c ch = Some e ∧
        ∃ i0, om_get (env_id e) (inputsBySealId st) = Some i0 ∧ same_claims i0 i ∧
            same_scopes (permissions (payload_of e)) (in_permissions i)) ∨
       (payload_of e = build_raw i newId iso ∧
        previous (chain e) = payload_of <$> current_seal st c ch ∧
        (∀ p, current_seal st c ch = Some p → nothingChanged st p i = false) ∧
        isOk (signer_sign deps (payload_of e)) = true ∧ publish deps ch e = Ok tt)))) as Hbuild.
  { intros prev b Hb Hnc ->. apply buildSeal_ok in Hb as (Hcur & Hp & _).
    unfold sign_and_publish.
    destruct (signer_sign deps (current (b_chain b))) as [sg|] eqn:Hsg; [|by split].
    destruct (publish deps ch _) as [[]|] eqn:Hpub; [|by split]. cbn. split; [done|].
    intros e [= <-]. split; [apply om_get_set_eq|]. right. unfold payload_of at 1 3. cbn.
    by rewrite Hsg. }
  destruct (current_seal st c ch) as [p|] eqn:Hp.
  - destruct (nothingChanged st p i) eqn:Hnc.
    + split; [done|]. intros e [= <-]. split; [done|]. left.
      apply nothingChanged_spec in Hnc. done.
    + destruct (buildSeal _ _ _ _ _ _) as [b|] eqn:Hb; [|by split].
      eapply Hbuild; [done|by intros ? [= <-]|done].
  - destruct (buildSeal _ _ _ _ _ _) as [b|] eqn:Hb; [|by split].
    eapply Hbuild; done.
Qed.
End invariant.

(** ** Interleaving at the awaits

    Between its checks and its bookkeeping an operation awaits the signer and
    the publisher, and other operations may run.  [p_issue] and [p_revoke]
    are operations past their last await that have not committed yet. *)
Inductive pending :=
  | p_issue (key : string) (e : SealEnvelope) (input : SealInput)
  | p_revoke (key : string).
Section interleaving.
Context `{JsDate} (datetime : string → bool) (zodMessage : SealPayload → string)
        (zodRevocationMessage : RevocationSeal → string).
Inductive async_step : SealState * list pending → SealState * list pending → Prop :=
  | a_start_issue st ps deps c chat newId iso key input ch e :
      honest deps → fresh st newId →
      issue_prepare datetime zodMessage st deps c chat newId iso = inr (key, input, ch) →
      sign_and_publish deps chat ch = Ok e →
      async_step (st, ps) (st, ps ++ [p_issue key e input])
  | a_commit_issue st ps1 ps2 key e input :
      async_step (st, ps1 ++ p_issue key e input :: ps2) (track st key e input, ps1 ++ ps2)
  | a_start_revoke st ps deps sid reason newId iso key r signed :
      revoke_prepare datetime zodRevocationMessage st sid reason newId iso = Ok (key, r) →
      signer_signRevocation deps r = Ok signed →
      publishRevocation deps (rv_chatId r) signed = Ok tt →
      async_step (st, ps) (st, ps ++ [p_revoke key])
  | a_commit_revoke st ps1 ps2 key :
      async_step (st, ps1 ++ p_revoke key :: ps2) (revoke_commit st key, ps1 ++ ps2).
End interleaving.

(** *** Concrete runs *)
Definition demo_input (ss : ScopeSetType) (byp : bool) : SealInput :=
  mkInput "cred_0000000000000001" "op_0000000000000001" "conv_0000000000000001" per_chat ss
    None byp None None None.
Definition demo_deps (i : SealInput) : SealManagerDeps :=
  {| resolveInput := λ c ch,
       if decide (c = in_credentialId i ∧ ch = in_chatId i) then Ok i
       else Err (NotFoundError_create "credential" c);
     signer_sign := stamper_sign (λ b, Ok b) "key_1" (λ s, s);
     signer_signRevocation := stamper_signRevocation (λ b, Ok b) "key_1" (λ s, s);
     publish := λ _ _, Ok tt; publishRevocation := λ _ _, Ok tt |}.
Lemma demo_deps_honest i : honest (demo_deps i).
Proof. intros c ch i'. cbn. case_decide; [|done]. intros [= <-]. naive_solver. Qed.
Definition any_datetime (_ : string) : bool := true.
Definition no_message {A} (_ : A) : string := "".
Definition demo_allow (l : list PermissionScope) : ScopeSetType := {| allow := l; deny := [] |}.
Abbreviation demo_cred := "cred_0000000000000001".
Abbreviation demo_conv := "conv_0000000000000001".
Definition demo_st1 : SealState :=
  (issue any_datetime no_message seal_init (demo_deps (demo_input (demo_allow [send]) false))
     demo_cred demo_conv "seal_0000000000000001" "2026-01-01T00:00:00.000Z").1.
Definition demo_st2 : SealState :=
  (issue any_datetime no_message demo_st1 (demo_deps (demo_input (demo_allow [send; reply]) false))
     demo_cred demo_conv "seal_0000000000000002" "2026-01-01T00:01:00.000Z").1.
Lemma demo_manager_reachable :
  reachable any_datetime no_message no_message demo_st1 ∧
  reachable any_datetime no_message no_message demo_st2.
Proof.
  assert (manager_step any_datetime no_message no_message seal_init demo_st1) as H1.
  { apply step_issue; [apply demo_deps_honest|done]. }
  assert (manager_step any_datetime no_message no_message demo_st1 demo_st2) as H2.
  { apply step_issue; [apply demo_deps_honest|]. vm_compute. reflexivity. }
  split; [by apply rtc_once|]. by eapply rtc_l, rtc_once.
Qed.

Lemma seal_manager_invariant_witness :
  chainKey demo_cred demo_conv ∉ revokedPairs demo_st2.
Proof.
  destruct (current_seal demo_st2 demo_cred demo_conv) as [e|] eqn:He.
  - destruct (seal_manager_invariant any_datetime no_message no_message demo_st2 demo_cred demo_conv
      "seal_0000000000000002" e (proj2 demo_manager_reachable)) as (_ & H & _).
    apply H. exact He.
  - vm_compute in He. discriminate He.
Defined.
Lemma history_spec_witness :
  map env_id (history demo_st2 demo_cred demo_conv) =
  ["seal_0000000000000002"; "seal_0000000000000001"].
Proof.
  rewrite (history_spec any_datetime no_message no_message demo_st2 demo_cred demo_conv
    (proj2 demo_manager_reachable)). vm_compute. reflexivity.
Defined.
Lemma revocation_final_witness :
  let r := revoke any_datetime no_message demo_st2 (demo_deps (demo_input (demo_allow []) false))
    "seal_0000000000000001" ar_owner_initiated "seal_0000000000000009" "2026-01-02T00:00:00.000Z" in
  r.2 = Ok tt ∧ current_seal r.1 demo_cred demo_conv = None.
Proof.
  intros r. assert (r = (r.1, Ok tt)) as Hr by (vm_compute; reflexivity).
  split; [vm_compute; reflexivity|].
  destruct (revocation_final any_datetime no_message no_message demo_st2 (demo_deps (demo_input (demo_allow []) false))
    "seal_0000000000000001" ar_owner_initiated "seal_0000000000000009" "2026-01-02T00:00:00.000Z"
    (proj2 demo_manager_reachable)) as [_ H].
  destruct (H r.1 r.1 Hr (rtc_refl _ _)) as (e & He & Hc & _).
  vm_compute in He. injection He as <-. exact Hc.
Defined.
Lemma issue_spec_witness :
  let r := issue any_datetime no_message demo_st1
    (demo_deps (demo_input (demo_allow [send; reply]) false)) demo_cred demo_conv
    "seal_0000000000000002" "2026-01-01T00:01:00.000Z" in
  ∃ e, r.2 = Ok e ∧ current_seal r.1 demo_cred demo_conv = Some e.
Proof.
  intros r. destruct (issue_spec any_datetime no_message no_message demo_st1
    (demo_deps (demo_input (demo_allow [send; reply]) false)) demo_cred demo_conv
    "seal_0000000000000002" "2026-01-01T00:01:00.000Z"
    (demo_input (demo_allow [send; reply]) false)) as [_ H];
    [apply demo_manager_reachable|apply demo_deps_honest|vm_compute; reflexivity|vm_compute; reflexivity|].
  destruct r.2 as [e|] eqn:He; [|vm_compute in He; discriminate He].
  exists e. split; [reflexivity|]. apply H. exact He.
Defined.

(** Interleaved with a revocation, an issuance that passed its check before
    the revocation commits after it: the revoked pair has a current seal. *)
Lemma issue_commits_after_revocation :
  ∃ st, rtc (async_step any_datetime no_message no_message) (demo_st1, []) (st, []) ∧
    chainKey demo_cred demo_conv ∈ revokedPairs st ∧
    ∃ e, current_seal st demo_cred demo_conv = Some e.
Proof.
  set (deps := demo_deps (demo_input (demo_allow [send; reply]) false)).
  destruct (issue_prepare any_datetime no_message demo_st1 deps demo_cred demo_conv
    "seal_0000000000000002" "2026-01-01T00:01:00.000Z") as [x|[[key input] ch]] eqn:Hp;
    [vm_compute in Hp; discriminate Hp|].
  assert (key = chainKey demo_cred demo_conv) as -> by (vm_compute in Hp; injection Hp as <- _ _; vm_compute; reflexivity).
  set (env := {| chain := ch; signature := canonicalize (payload_json (current ch));
                 keyId := "key_1" |}).
  set (r := {| rv_sealId := "seal_0000000000000009"; rv_previousSealId := "seal_0000000000000001";
    rv_operatorId := "op_0000000000000001"; rv_credentialId := demo_cred; rv_chatId := demo_conv;
    rv_reason := ar_owner_initiated; rv_revokedAt := "2026-01-01T00:00:30.000Z";
    rv_issuer := "signet" |}).
  eexists. split; [|split].
  - eapply rtc_l; [eapply (a_start_issue _ _ _ demo_st1 [] deps); [apply demo_deps_honest| |exact Hp|]|].
    { vm_compute. reflexivity. }
    { instantiate (1 := env). reflexivity. }
    eapply rtc_l; [eapply (a_start_revoke _ _ _ demo_st1 _ deps "seal_0000000000000001"
      ar_owner_initiated "seal_0000000000000009" "2026-01-01T00:00:30.000Z"
      (chainKey demo_cred demo_conv) r); [vm_compute; reflexivity|reflexivity|reflexivity]|].
    eapply rtc_l; [apply (a_commit_revoke _ _ _ _ [p_issue _ env input] [])|].
    eapply rtc_l; [apply (a_commit_issue _ _ _ _ [] [])|]. apply rtc_refl.
  - cbn. apply elem_of_set_add. by right.
  - exists env. apply om_get_set_eq.
Qed.

(** An input that turns on the bypass disclosure and changes nothing else is
    answered with the standing seal, which does not disclose it. *)
Lemma bypass_change_not_reissued :
  let r := issue any_datetime no_message demo_st1 (demo_deps (demo_input (demo_allow [send]) true))
    demo_cred demo_conv "seal_0000000000000003" "2026-01-01T00:02:00.000Z" in
  r.1 = demo_st1 ∧ ∃ e, r.2 = Ok e ∧ bypassed (payload_of e) = false ∧
    env_id e = "seal_0000000000000001".
Proof. split; [vm_compute; reflexivity|]. eexists. vm_compute. done. Qed.
