(* ===== verification/Credentials.v ===== *)
(** * The credential manager

    [sessions/src/credential-manager.ts], [policy-hash.ts] and [token.ts]:
    issuance, lookup, heartbeat, renewal, scope update, revocation and expiry
    of operator credentials.  Time enters as [now], the millisecond clock read
    by the call; random identifiers and tokens are arguments; the hooks
    ([onCredentialMutated], [onCredentialRevoked]) are recorded in a trace. *)
From S2P Require Import Prelude JsDate Json Errors Ids Scopes Policy Reveal.

(** ** Data *)
Inductive CredentialStatus := st_pending | st_active | st_expired | st_revoked.
#[export] Instance CredentialStatus_eq_dec : EqDecision CredentialStatus.
Proof. solve_decision. Defined.
Definition status_name (s : CredentialStatus) : string :=
  match s with
  | st_pending => "pending" | st_active => "active"
  | st_expired => "expired" | st_revoked => "revoked"
  end.
Inductive CredentialRevocationReason :=
  | cr_owner_initiated | cr_credential_expired | cr_heartbeat_timeout
  | cr_policy_violation | cr_reauthorization_required.
#[export] Instance CredentialRevocationReason_eq_dec : EqDecision CredentialRevocationReason.
Proof. solve_decision. Defined.

Record CredentialConfig := {
  cfg_operatorId : string; cfg_chatIds : list string; cfg_policyId : option string;
  cfg_allow : option (list PermissionScope); cfg_deny : option (list PermissionScope);
  cfg_ttlSeconds : option Z
}.
Record CredentialManagerConfig := {
  defaultTtlSeconds : Z; maxConcurrentPerOperator : Z; tokenByteLength : Z;
  renewalWindowSeconds : Z; heartbeatGracePeriod : Z
}.
Definition DEFAULT_CONFIG : CredentialManagerConfig :=
  {| defaultTtlSeconds := 3600; maxConcurrentPerOperator := 3; tokenByteLength := 32;
     renewalWindowSeconds := 300; heartbeatGracePeriod := 3 |}.

Record InternalCredentialRecord := mkCred {
  credentialId : string; token : string; operatorId : string; chatIds : list string;
  effectiveScopes : ScopeSetType; resolvedScopes : list PermissionScope;
  policyHash : string; status : CredentialStatus; heartbeatInterval : Z;
  lastHeartbeat : string; issuedAt : string; expiresAt : string; issuedBy : string;
  ttlMs : Z; revokedAt : option string; revocationReason : option CredentialRevocationReason
}.
#[export] Instance InternalCredentialRecord_eq_dec : EqDecision InternalCredentialRecord.
Proof. solve_decision. Defined.

(** [Partial<InternalCredentialRecord>], for the fields some caller sets. *)
Record Updates := mkUpd {
  u_effectiveScopes : option ScopeSetType; u_resolvedScopes : option (list PermissionScope);
  u_policyHash : option string; u_status : option CredentialStatus;
  u_lastHeartbeat : option string; u_expiresAt : option string;
  u_revokedAt : option string; u_revocationReason : option CredentialRevocationReason
}.
Definition upd_status (s : CredentialStatus) : Updates :=
  mkUpd None None None (Some s) None None None None.
Definition upd_heartbeat (t : string) : Updates :=
  mkUpd None None None None (Some t) None None None.
Definition upd_expiresAt (t : string) : Updates :=
  mkUpd None None None None None (Some t) None None.
Definition upd_scopes (s : ScopeSetType) (r : list PermissionScope) (h : string) : Updates :=
  mkUpd (Some s) (Some r) (Some h) None None None None None.
Definition upd_revoke (t : string) (reason : CredentialRevocationReason) : Updates :=
  mkUpd None None None (Some st_revoked) None None (Some t) (Some reason).

Definition apply_updates (u : Updates) (e : InternalCredentialRecord) : InternalCredentialRecord :=
  {| credentialId := credentialId e; token := token e; operatorId := operatorId e;
     chatIds := chatIds e;
     effectiveScopes := default (effectiveScopes e) (u_effectiveScopes u);
     resolvedScopes := default (resolvedScopes e) (u_resolvedScopes u);
     policyHash := default (policyHash e) (u_policyHash u);
     status := default (status e) (u_status u);
     heartbeatInterval := heartbeatInterval e;
     lastHeartbeat := default (lastHeartbeat e) (u_lastHeartbeat u);
     issuedAt := issuedAt e; expiresAt := default (expiresAt e) (u_expiresAt u);
     issuedBy := issuedBy e; ttlMs := ttlMs e;
     revokedAt := match u_revokedAt u with Some t => Some t | None => revokedAt e end;
     revocationReason :=
       match u_revocationReason u with Some r => Some r | None => revocationReason e end |}.
Definition policyChanged (u : Updates) : bool :=
  bool_decide (is_Some (u_effectiveScopes u)) || bool_decide (is_Some (u_status u)) ||
  bool_decide (is_Some (u_revokedAt u)) || bool_decide (is_Some (u_policyHash u)).

(** Hook calls, in order. *)
Inductive HookCall :=
  | onCredentialMutated (credentialId : string)
  | onCredentialRevoked (credential : InternalCredentialRecord).
Record CredState := mkState {
  byId : omap string InternalCredentialRecord;
  byToken : omap string string;
  byOperator : omap string (list string);
  revealStates : omap string RevealStore;
  hooks : list HookCall
}.
Definition cred_init : CredState := mkState [] [] [] [] [].

(** ** [computePolicyHash]: [bun_hash] is [Bun.hash(s).toString(16)] and
    [localeCompare] the runtime's collation. *)
Section hash.
Context (bun_hash : string → string) (localeCompare : string → string → Z).
Fixpoint normalize (v : json) : json :=
  match v with
  | JArr l => JArr (js_sort (λ a b, localeCompare (print (strip a)) (print (strip b)))
                      (map normalize l))
  | JObj o =>
      JObj (merge_sort key_le
        (map (λ kv : string * json, match kv with (k, v) => (k, normalize v) end) o))
  | v => v
  end.
Definition computePolicyHash (scopes : ScopeSetType) (chatIds : list string) : string :=
  let strs l := JArr (map JStr l) in
  bun_hash (print (strip (normalize (JObj
    [("scopes", JObj [("allow", strs (map scope_name (allow scopes)));
                      ("deny", strs (map scope_name (deny scopes)))]);
     ("chatIds", strs chatIds)])))).
End hash.

(** [seconds ms] is the JSON number [ms / 1000], which need not be an integer;
    it appears only in the context of an error. *)
Section manager.
Context `{JsDate} (computeHash : ScopeSetType → list string → string)
        (seconds : Z → json) (config : CredentialManagerConfig).

(** [new Date().toISOString()]; a running clock is in range. *)
Definition nowISO (now : Z) : string := default "" (date_toISOString now).

Definition upsertRecord (st : CredState) (r : InternalCredentialRecord) : CredState :=
  let operatorCreds := default [] (om_get (operatorId r) (byOperator st)) in
  mkState (om_set (credentialId r) r (byId st))
    (om_set (token r) (credentialId r) (byToken st))
    (om_set (operatorId r) (set_add operatorCreds (credentialId r)) (byOperator st))
    (revealStates st) (hooks st).

Definition mutateRecord (st : CredState) (cid : string) (u : Updates)
  : CredState * result SignetError InternalCredentialRecord :=
  match om_get cid (byId st) with
  | None => (st, Err (InternalError_create ("Credential " +:+ cid +:+ " not found in store") None))
  | Some existing =>
      let updated := apply_updates u existing in
      (mkState (om_set cid updated (byId st)) (byToken st) (byOperator st) (revealStates st)
         (if policyChanged u then hooks st ++ [onCredentialMutated cid] else hooks st),
       Ok updated)
  end.

Definition getActiveForOperator (st : CredState) (op : string) : list InternalCredentialRecord :=
  match om_get op (byOperator st) with
  | None => []
  | Some ids =>
      flat_map (λ id, match om_get id (byId st) with
                      | Some r => if decide (status r = st_active) then [r] else []
                      | None => []
                      end) ids
  end.

Definition cleanupRevealState (st : CredState) (cid : string) : CredState :=
  match om_get cid (revealStates st) with
  | Some store =>
      mkState (byId st) (byToken st) (byOperator st)
        (om_set cid (restore store []) (revealStates st)) (hooks st)
  | None => st
  end.

Definition revokeRecord (now : Z) (st : CredState) (cid : string)
  (reason : CredentialRevocationReason) : CredState * result SignetError InternalCredentialRecord :=
  let st := cleanupRevealState st cid in
  match mutateRecord st cid (upd_revoke (nowISO now) reason) with
  | (st, Ok r) =>
      (mkState (byId st) (byToken st) (byOperator st) (revealStates st)
         (hooks st ++ [onCredentialRevoked r]), Ok r)
  | (st, Err e) => (st, Err e)
  end.

Definition buildScopeSet (cfg : CredentialConfig) : ScopeSetType :=
  {| allow := default [] (cfg_allow cfg); deny := default [] (cfg_deny cfg) |}.

(** Eviction of the oldest credential at the concurrency limit. *)
Definition oldest_of (l : list InternalCredentialRecord) : option InternalCredentialRecord :=
  head (js_sort (λ a b,
    match date_getTime (issuedAt a), date_getTime (issuedAt b) with
    | Some x, Some y => x - y
    | _, _ => 0
    end) l).
Definition evict (now : Z) (st : CredState) (op : string) : CredState * option SignetError :=
  let active := getActiveForOperator st op in
  if (maxConcurrentPerOperator config <=? Z.of_nat (length active)) then
    match oldest_of active with
    | None => (st, None)
    | Some oldest =>
        match revokeRecord now st (credentialId oldest) cr_policy_violation with
        | (st, Ok _) => (st, None)
        | (st, Err e) => (st, Some e)
        end
    end
  else (st, None).

(** [issueCredential]; the outer [None] is the rejected promise when the
    expiry is out of the range of [Date]. *)
Definition issueCredential (now : Z) (st : CredState) (cfg : CredentialConfig)
  (credId tok : string) (issuer : option string)
  : CredState * option (result SignetError InternalCredentialRecord) :=
  let scopes := buildScopeSet cfg in
  let hash := computeHash scopes (cfg_chatIds cfg) in
  match evict now st (cfg_operatorId cfg) with
  | (st, Some e) => (st, Some (Err e))
  | (st, None) =>
      let currentActive := getActiveForOperator st (cfg_operatorId cfg) in
      match List.find (λ c, bool_decide (policyHash c = hash)) currentActive with
      | Some existing => (st, Some (Ok existing))
      | None =>
          let currentTime := nowISO now in
          let ttl := default (defaultTtlSeconds config) (cfg_ttlSeconds cfg) in
          let ttlMs := ttl * 1000 in
          match date_toISOString (now + ttlMs) with
          | None => (st, None)
          | Some expires =>
              let r := mkCred credId tok (cfg_operatorId cfg) (cfg_chatIds cfg) scopes
                (resolveScopeSet scopes) hash st_active 30 currentTime currentTime expires
                (default "owner" issuer) ttlMs None None in
              (upsertRecord st r, Some (Ok r))
          end
      end
  end.

(** [Date.now() >= new Date(expiresAt).getTime()]. *)
Definition past_expiry (now : Z) (r : InternalCredentialRecord) : bool :=
  num_leb (date_getTime (expiresAt r)) (Some now).

Definition getCredentialByToken (now : Z) (st : CredState) (tok : string)
  : CredState * result SignetError InternalCredentialRecord :=
  match om_get tok (byToken st) with
  | None => (st, Err (NotFoundError_create "credential" tok))
  | Some cid =>
      if bool_decide (cid = "") then (st, Err (NotFoundError_create "credential" tok))
      else
        match om_get cid (byId st) with
        | None => (st, Err (NotFoundError_create "credential" tok))
        | Some r =>
            if past_expiry now r then
              ((mutateRecord st cid (upd_status st_expired)).1,
               Err (CredentialExpiredError_create cid))
            else if negb (bool_decide (status r = st_active)) then
              (st, Err (CredentialExpiredError_create cid))
            else (st, Ok r)
        end
  end.
Definition getCredentialById (st : CredState) (cid : string)
  : result SignetError InternalCredentialRecord :=
  match om_get cid (byId st) with
  | None => Err (NotFoundError_create "credential" cid)
  | Some r => Ok r
  end.
Definition listCredentials (st : CredState) (op : option string) : list InternalCredentialRecord :=
  match op with
  | Some op => getActiveForOperator st op
  | None => filter (λ r, status r = st_active) (byId st).*2
  end.

(** The error of a failed [mutateRecord] inside these handlers. *)
Definition recordHeartbeat (now : Z) (st : CredState) (cid : string)
  : CredState * result SignetError unit :=
  match om_get cid (byId st) with
  | None => (st, Err (NotFoundError_create "credential" cid))
  | Some r =>
      if negb (bool_decide (status r = st_active)) then
        (st, Err (CredentialExpiredError_create cid))
      else
        match mutateRecord st cid (upd_heartbeat (nowISO now)) with
        | (st, Ok _) => (st, Ok tt)
        | (st, Err _) => (st, Err (NotFoundError_create "credential" cid))
        end
  end.

(** [remaining > renewalWindowSeconds], with [remaining] in seconds. *)
Definition outside_window (now : Z) (r : InternalCredentialRecord) : bool :=
  match date_getTime (expiresAt r) with
  | Some t => renewalWindowSeconds config * 1000 <? t - now
  | None => false
  end.
Definition renewCredential (now : Z) (st : CredState) (cid : string)
  : CredState * option (result SignetError InternalCredentialRecord) :=
  match om_get cid (byId st) with
  | None => (st, Some (Err (NotFoundError_create "credential" cid)))
  | Some r =>
      if negb (bool_decide (status r = st_active)) then
        (st, Some (Err (CredentialExpiredError_create cid)))
      else if outside_window now r then
        (st, Some (Err (AuthError_create "Not in renewal window"
          (Some [("credentialId", JStr cid);
                 ("remainingSeconds",
                    seconds (default 0 (date_getTime (expiresAt r)) - now));
                 ("renewalWindowSeconds", JNum (renewalWindowSeconds config))]))))
      else
        match date_toISOString (now + ttlMs r) with
        | None => (st, None)
        | Some newExpiresAt =>
            match mutateRecord st cid (upd_expiresAt newExpiresAt) with
            | (st, Ok r) => (st, Some (Ok r))
            | (st, Err _) => (st, Some (Err (NotFoundError_create "credential" cid)))
            end
        end
  end.

Definition updateCredentialScopes (st : CredState) (cid : string) (scopes : ScopeSetType)
  : CredState * result SignetError InternalCredentialRecord :=
  match om_get cid (byId st) with
  | None => (st, Err (NotFoundError_create "credential" cid))
  | Some r =>
      if negb (bool_decide (status r = st_active)) then
        (st, Err (CredentialExpiredError_create cid))
      else
        let hash := computeHash scopes (chatIds r) in
        let resolved := resolveScopeSet scopes in
        match mutateRecord st cid (upd_scopes scopes resolved hash) with
        | (st, Ok r) => (st, Ok r)
        | (st, Err _) => (st, Err (NotFoundError_create "credential" cid))
        end
  end.

Definition revokeCredential (now : Z) (st : CredState) (cid : string)
  (reason : CredentialRevocationReason) : CredState * result SignetError InternalCredentialRecord :=
  match om_get cid (byId st) with
  | None => (st, Err (NotFoundError_create "credential" cid))
  | Some _ =>
      match revokeRecord now st cid reason with
      | (st, Ok r) => (st, Ok r)
      | (st, Err _) => (st, Err (NotFoundError_create "credential" cid))
      end
  end.
Definition revokeAllCredentials (now : Z) (st : CredState) (op : string)
  (reason : CredentialRevocationReason) : CredState * list InternalCredentialRecord :=
  foldl (λ '(st, revoked) cred,
    match revokeRecord now st (credentialId cred) reason with
    | (st, Ok r) => (st, revoked ++ [r])
    | (st, Err _) => (st, revoked)
    end) (st, []) (getActiveForOperator st op).

(** The store handed out is the one kept in [revealStates]. *)
Definition getRevealState (st : CredState) (cid : string) : CredState * result SignetError RevealStore :=
  match om_get cid (byId st) with
  | None => (st, Err (NotFoundError_create "credential" cid))
  | Some _ =>
      match om_get cid (revealStates st) with
      | Some store => (st, Ok store)
      | None => (mkState (byId st) (byToken st) (byOperator st)
                   (om_set cid [] (revealStates st)) (hooks st), Ok [])
      end
  end.
(** [store.record(access, request)] on the store of [cid]. *)
Definition recordReveal (st : CredState) (cid : string) (a : RevealAccess) (r : RevealRequest)
  : CredState :=
  match om_get cid (revealStates st) with
  | Some store => mkState (byId st) (byToken st) (byOperator st)
                    (om_set cid (record store a r) (revealStates st)) (hooks st)
  | None => st
  end.

Definition setCredentialStatus (st : CredState) (cid : string) (s : CredentialStatus)
  : CredState * result SignetError InternalCredentialRecord :=
  match om_get cid (byId st) with
  | None => (st, Err (NotFoundError_create "credential" cid))
  | Some _ =>
      match mutateRecord st cid (upd_status s) with
      | (st, Ok r) => (st, Ok r)
      | (st, Err _) => (st, Err (NotFoundError_create "credential" cid))
      end
  end.
Definition cm_checkMateriality (st : CredState) (cid : string) (newScopes : ScopeSetType)
  : result SignetError DetailedMaterialityCheck :=
  match om_get cid (byId st) with
  | None => Err (NotFoundError_create "credential" cid)
  | Some r => Ok (checkMateriality (effectiveScopes r) newScopes)
  end.

(** [Date.now() >= lastHb + interval * 1000 + grace * 1000]. *)
Definition heartbeat_overdue (now : Z) (r : InternalCredentialRecord) : bool :=
  num_leb (num_add (num_add (date_getTime (lastHeartbeat r)) (heartbeatInterval r * 1000))
             (heartbeatGracePeriod config * 1000)) (Some now).
Definition isHeartbeatStale (now : Z) (st : CredState) (cid : string) : result SignetError bool :=
  match om_get cid (byId st) with
  | None => Err (NotFoundError_create "credential" cid)
  | Some r =>
      if negb (bool_decide (status r = st_active)) then Ok false
      else Ok (heartbeat_overdue now r)
  end.

(** One iteration of the sweep, on the current record of a key. *)
Definition sweep_one (now : Z) (acc : CredState * list InternalCredentialRecord) (cid : string)
  : CredState * list InternalCredentialRecord :=
  let '(st, swept) := acc in
  match om_get cid (byId st) with
  | None => (st, swept)
  | Some r =>
      if negb (bool_decide (status r = st_active)) then (st, swept)
      else if past_expiry now r then
        let st := cleanupRevealState st (credentialId r) in
        match mutateRecord st (credentialId r) (upd_status st_expired) with
        | (st, Ok r) => (st, swept ++ [r])
        | (st, Err _) => (st, swept)
        end
      else if heartbeat_overdue now r then
        match revokeRecord now st (credentialId r) cr_heartbeat_timeout with
        | (st, Ok r) => (st, swept ++ [r])
        | (st, Err _) => (st, swept)
        end
      else (st, swept)
  end.
(** The iteration over [byId.values()]: updates keep every entry in place. *)
Definition sweepExpired (now : Z) (st : CredState) : CredState * list InternalCredentialRecord :=
  foldl (sweep_one now) (st, []) (byId st).*1.

(** ** Transitions: every operation, with fresh identifiers and tokens *)
Inductive cred_step (st : CredState) : CredState → Prop :=
  | cs_issue now cfg credId tok issuer :
      credId ≠ "" → om_get credId (byId st) = None → om_get tok (byToken st) = None →
      cred_step st (issueCredential now st cfg credId tok issuer).1
  | cs_byToken now tok : cred_step st (getCredentialByToken now st tok).1
  | cs_heartbeat now cid : cred_step st (recordHeartbeat now st cid).1
  | cs_renew now cid : cred_step st (renewCredential now st cid).1
  | cs_update cid scopes : cred_step st (updateCredentialScopes st cid scopes).1
  | cs_revoke now cid reason : cred_step st (revokeCredential now st cid reason).1
  | cs_revokeAll now op reason : cred_step st (revokeAllCredentials now st op reason).1
  | cs_getReveal cid : cred_step st (getRevealState st cid).1
  | cs_recordReveal cid a r : cred_step st (recordReveal st cid a r)
  | cs_sweep now : cred_step st (sweepExpired now st).1
  (** the status override, with the statuses its callers set *)
  | cs_setStatus cid s : s ≠ st_active → cred_step st (setCredentialStatus st cid s).1.
Definition cred_reachable : CredState → Prop := rtc cred_step cred_init.
End manager.

(** ** How records evolve *)
Section evolution.
Context `{JsDate} (computeHash : ScopeSetType → list string → string)
        (seconds : Z → json) (config : CredentialManagerConfig).

(** Derived fields agree with the scopes they are derived from, and the
    expiry is a readable date. *)
Definition consistent (r : InternalCredentialRecord) : Prop :=
  resolvedScopes r = resolveScopeSet (effectiveScopes r) ∧
  policyHash r = computeHash (effectiveScopes r) (chatIds r) ∧
  is_Some (date_getTime (expiresAt r)).
(** What no operation on an existing record changes or allows. *)
Definition record_evolves (r r' : InternalCredentialRecord) : Prop :=
  credentialId r' = credentialId r ∧ token r' = token r ∧ operatorId r' = operatorId r ∧
  chatIds r' = chatIds r ∧ issuedAt r' = issuedAt r ∧ issuedBy r' = issuedBy r ∧
  (status r' = st_active → status r = st_active) ∧ (consistent r → consistent r').
Record evolves (st st' : CredState) : Prop := {
  ev_tok : byToken st' = byToken st;
  ev_op : byOperator st' = byOperator st;
  ev_keys : (byId st').*1 = (byId st).*1;
  ev_rec : ∀ cid, option_Forall2 record_evolves (om_get cid (byId st)) (om_get cid (byId st'))
}.
#[export] Instance record_evolves_preorder : PreOrder record_evolves.
Proof.
  split; [by intros r|]. intros r1 r2 r3 (?&?&?&?&?&?&?&?) (?&?&?&?&?&?&?&?).
  unfold record_evolves. split_and!; try congruence; auto.
Qed.
#[export] Instance evolves_preorder : PreOrder evolves.
Proof.
  split.
  - intros st. split; [done..|]. intros cid. destruct (om_get cid (byId st)); by constructor.
  - intros st1 st2 st3 [? ? ? H1] [? ? ? H2]. split; [congruence..|]. intros cid.
    specialize (H1 cid). specialize (H2 cid).
    destruct H1 as [x y Hxy|]; inversion H2; subst; constructor. by etrans.
Qed.
Lemma evolves_byId st st' :
  byId st' = byId st → byToken st' = byToken st → byOperator st' = byOperator st →
  evolves st st'.
Proof.
  intros H1 H2 H3. split; [done|done|by rewrite H1|]. intros cid. rewrite H1.
  destruct (om_get cid (byId st)); by constructor.
Qed.
Lemma evolves_get st st' cid r :
  evolves st st' → om_get cid (byId st) = Some r →
  ∃ r', om_get cid (byId st') = Some r' ∧ record_evolves r r'.
Proof. intros [_ _ _ Hr] Hg. specialize (Hr cid). rewrite Hg in Hr. inversion Hr; eauto. Qed.
Lemma evolves_get_inv st st' cid r' :
  evolves st st' → om_get cid (byId st') = Some r' →
  ∃ r, om_get cid (byId st) = Some r ∧ record_evolves r r'.
Proof. intros [_ _ _ Hr] Hg. specialize (Hr cid). rewrite Hg in Hr. inversion Hr; eauto. Qed.

Lemma mutate_evolves st cid u :
  (∀ r, om_get cid (byId st) = Some r → record_evolves r (apply_updates u r)) →
  evolves st (mutateRecord st cid u).1.
Proof.
  unfold mutateRecord. destruct (om_get cid (byId st)) as [r|] eqn:Hr; [|done]. intros Hu.
  split; [done|done| |].
  - cbn [fst byId]. rewrite om_set_keys, set_add_in; [done|].
    apply list_elem_of_fmap. exists (cid, r). split; [done|]. by apply om_get_elem.
  - intros cid'. cbn [fst byId]. rewrite om_get_set. case_decide; [subst|].
    + rewrite Hr. constructor. by apply Hu.
    + destruct (om_get cid' (byId st)); by constructor.
Qed.
Lemma cleanup_evolves st cid : evolves st (cleanupRevealState st cid).
Proof. unfold cleanupRevealState. destruct (om_get _ _); [by apply evolves_byId|done]. Qed.
Lemma cleanup_byId st cid : byId (cleanupRevealState st cid) = byId st.
Proof. unfold cleanupRevealState. by destruct (om_get _ _). Qed.

Lemma upd_status_evolves s r : s ≠ st_active → record_evolves r (apply_updates (upd_status s) r).
Proof. intros Hs. unfold record_evolves, consistent. cbn. naive_solver. Qed.
Lemma upd_heartbeat_evolves t r : record_evolves r (apply_updates (upd_heartbeat t) r).
Proof. unfold record_evolves, consistent. cbn. naive_solver. Qed.
Lemma upd_expiresAt_evolves t r :
  is_Some (date_getTime t) → record_evolves r (apply_updates (upd_expiresAt t) r).
Proof. intros Ht. unfold record_evolves, consistent. cbn. naive_solver. Qed.
Lemma upd_revoke_evolves t reason r : record_evolves r (apply_updates (upd_revoke t reason) r).
Proof. unfold record_evolves, consistent. cbn. naive_solver. Qed.
Lemma upd_scopes_evolves s r :
  record_evolves r (apply_updates (upd_scopes s (resolveScopeSet s) (computeHash s (chatIds r))) r).
Proof. unfold record_evolves, consistent. cbn. naive_solver. Qed.

Lemma revokeRecord_spec now st cid reason :
  let r := revokeRecord now st cid reason in
  evolves st r.1 ∧
  match om_get cid (byId st) with
  | Some x => let x' := apply_updates (upd_revoke (nowISO now) reason) x in
      r.2 = Ok x' ∧ byId r.1 = om_set cid x' (byId st)
  | None => isOk r.2 = false ∧ byId r.1 = byId st
  end.
Proof.
  unfold revokeRecord. pose proof (mutate_evolves (cleanupRevealState st cid) cid
    (upd_revoke (nowISO now) reason) (λ r _, upd_revoke_evolves _ _ r)) as Hm.
  unfold mutateRecord in *. rewrite cleanup_byId in *.
  destruct (om_get cid (byId st)) as [x|]; cbn [fst snd] in *.
  - split; [|done]. etrans; [apply (cleanup_evolves st cid)|].
    etrans; [apply Hm|]. by apply evolves_byId.
  - split_and!; [apply cleanup_evolves|done|apply cleanup_byId].
Qed.
Lemma foldl_evolves {A B} (f : CredState * B → A → CredState * B) l acc :
  (∀ acc x, evolves acc.1 (f acc x).1) → evolves acc.1 (foldl f acc l).1.
Proof.
  intros Hf. revert acc. induction l as [|x l IH]; intros acc; cbn [foldl]; [done|].
  etrans; [apply Hf|apply IH].
Qed.

Lemma evict_evolves now st op : evolves st (evict config now st op).1.
Proof.
  unfold evict. destruct (_ <=? _); [|done]. destruct (oldest_of _) as [o|]; [|done].
  pose proof (revokeRecord_spec now st (credentialId o) cr_policy_violation) as [He _].
  by destruct (revokeRecord _ _ _ _) as [st' []].
Qed.
Lemma sweep_one_evolves now acc cid : evolves acc.1 (sweep_one config now acc cid).1.
Proof.
  destruct acc as [st sw]. unfold sweep_one. destruct (om_get cid (byId st)) as [r|]; [|done].
  destruct (negb _); [done|]. destruct (past_expiry now r).
  - pose proof (mutate_evolves (cleanupRevealState st (credentialId r)) (credentialId r)
      (upd_status st_expired) (λ r _, upd_status_evolves st_expired r ltac:(done))) as Hm.
    destruct (mutateRecord _ _ _) as [st' []]; cbn in *;
      (etrans; [apply (cleanup_evolves st (credentialId r))|done]).
  - destruct (heartbeat_overdue _ _ _); [|done].
    pose proof (revokeRecord_spec now st (credentialId r) cr_heartbeat_timeout) as [He _].
    by destruct (revokeRecord _ _ _ _) as [st' []].
Qed.
Lemma sweep_evolves now st : evolves st (sweepExpired config now st).1.
Proof. apply (foldl_evolves (sweep_one config now) _ (st, [])), sweep_one_evolves. Qed.

(** A step either evolves the records, or also adds one fresh record. *)
Definition new_record (st1 : CredState) (r : InternalCredentialRecord) : Prop :=
  credentialId r ≠ "" ∧ om_get (credentialId r) (byId st1) = None ∧
  om_get (token r) (byToken st1) = None ∧ status r = st_active ∧ consistent r.
Lemma issue_cases now st cfg credId tok issuer :
  let ev := evict config now st (cfg_operatorId cfg) in
  let x := issueCredential computeHash config now st cfg credId tok issuer in
  (x.1 = ev.1 ∧ ∀ r, x.2 = Some (Ok r) →
     r ∈ getActiveForOperator ev.1 (cfg_operatorId cfg) ∧
     policyHash r = computeHash (buildScopeSet cfg) (cfg_chatIds cfg)) ∨
  (∃ expires, let ttl := default (defaultTtlSeconds config) (cfg_ttlSeconds cfg) * 1000 in
    date_toISOString (now + ttl) = Some expires ∧
    let r := mkCred credId tok (cfg_operatorId cfg) (cfg_chatIds cfg) (buildScopeSet cfg)
      (resolveScopeSet (buildScopeSet cfg))
      (computeHash (buildScopeSet cfg) (cfg_chatIds cfg)) st_active 30 (nowISO now)
      (nowISO now) expires (default "owner" issuer) ttl None None in
    x = (upsertRecord ev.1 r, Some (Ok r)) ∧
    (∀ r', r' ∈ getActiveForOperator ev.1 (cfg_operatorId cfg) →
       policyHash r' ≠ computeHash (buildScopeSet cfg) (cfg_chatIds cfg))).
Proof.
  unfold issueCredential. destruct (evict config now st (cfg_operatorId cfg)) as [st1 [e|]];
    [by left|]. cbn [fst].
  destruct (List.find _ _) as [r|] eqn:Hf.
  - left. split; [done|]. intros r' [= <-]. apply List.find_some in Hf as [Hin Hh].
    apply bool_decide_eq_true in Hh. apply list_elem_of_In in Hin. done.
  - destruct (date_toISOString _) as [ex|] eqn:Hd; [|by left]. right. exists ex.
    split; [done|]. split; [done|]. intros r' Hr' Hh.
    apply list_elem_of_In, (List.find_none _ _ Hf) in Hr'.
    by apply bool_decide_eq_false in Hr'.
Qed.

Lemma mutate_simple st cid u :
  (∀ r, record_evolves r (apply_updates u r)) → evolves st (mutateRecord st cid u).1.
Proof. intros Hu. apply mutate_evolves. auto. Qed.
(** Every step evolves the records; only [issue] may add one. *)
Lemma step_cases st st' :
  cred_step computeHash seconds config st st' →
  evolves st st' ∨
  ∃ now op r, st' = upsertRecord (evict config now st op).1 r ∧ operatorId r = op ∧
    new_record (evict config now st op).1 r.
Proof.
  intros [now cfg credId tok issuer Hne Hfr Hft|now tok|now cid|now cid|cid sc|now cid rs
    |now op rs|cid|cid a rq|now|cid s Hs]; [|left..].
  - destruct (issue_cases now st cfg credId tok issuer) as [[-> _]|(ex & Hex & -> & _)].
    + left. apply evict_evolves.
    + right. eexists now, _, _. split_and!; [reflexivity|done|].
      pose proof (evict_evolves now st (cfg_operatorId cfg)) as Hev.
      unfold new_record. cbn. split_and!; [done| | |done|].
      * destruct (om_get credId (byId (evict _ _ _ _).1)) as [r'|] eqn:Hg; [|done].
        eapply evolves_get_inv in Hg as (r & Hg & _); [|done]. congruence.
      * by rewrite (ev_tok _ _ Hev).
      * apply date_roundtrip in Hex. unfold consistent. cbn. rewrite Hex. eauto.
  - unfold getCredentialByToken. destruct (om_get tok _) as [cid|]; [|done].
    destruct (bool_decide _); [done|]. destruct (om_get cid _); [|done].
    destruct (past_expiry _ _); [|by destruct (negb _)].
    apply mutate_simple. intros r. by apply upd_status_evolves.
  - unfold recordHeartbeat. destruct (om_get cid _); [|done]. destruct (negb _); [done|].
    pose proof (mutate_simple st cid (upd_heartbeat (nowISO now)) (upd_heartbeat_evolves _)).
    by destruct (mutateRecord _ _ _) as [? []].
  - unfold renewCredential. destruct (om_get cid _) as [x|]; [|done].
    destruct (negb _); [done|]. destruct (outside_window _ _ _); [done|].
    destruct (date_toISOString _) as [t|] eqn:Ht; [|done]. apply date_roundtrip in Ht.
    pose proof (mutate_simple st cid (upd_expiresAt t)
      (λ r, upd_expiresAt_evolves t r (mk_is_Some _ _ Ht))).
    by destruct (mutateRecord _ _ _) as [? []].
  - unfold updateCredentialScopes. destruct (om_get cid (byId st)) as [x|] eqn:Hx; [|done].
    destruct (negb _); [done|].
    pose proof (mutate_evolves st cid (upd_scopes sc (resolveScopeSet sc)
      (computeHash sc (chatIds x)))) as Hm.
    destruct (mutateRecord _ _ _) as [? []]; apply Hm; intros r [= <-]%(eq_trans (eq_sym Hx));
      apply upd_scopes_evolves.
  - unfold revokeCredential. destruct (om_get cid _); [|done].
    pose proof (revokeRecord_spec now st cid rs) as [He _].
    by destruct (revokeRecord _ _ _ _) as [? []].
  - unfold revokeAllCredentials. apply (foldl_evolves _ _ (st, [])).
    intros [s0 l] x. pose proof (revokeRecord_spec now s0 (credentialId x) rs) as [He _].
    by destruct (revokeRecord _ _ _ _) as [? []].
  - unfold getRevealState. destruct (om_get cid (byId st)); [|done].
    destruct (om_get cid (revealStates st)); [done|by apply evolves_byId].
  - unfold recordReveal. destruct (om_get cid (revealStates st)); [by apply evolves_byId|done].
  - apply sweep_evolves.
  - unfold setCredentialStatus. destruct (om_get cid _); [|done].
    pose proof (mutate_simple st cid (upd_status s) (λ r, upd_status_evolves s r Hs)).
    by destruct (mutateRecord _ _ _) as [? []].
Qed.

(** ** The invariant *)
Record cred_inv (st : CredState) : Prop := {
  ci_nodup : NoDup (byId st).*1;
  ci_id : ∀ cid r, om_get cid (byId st) = Some r →
    credentialId r = cid ∧ cid ≠ "" ∧ consistent r ∧
    om_get (token r) (byToken st) = Some cid ∧
    ∃ ids, om_get (operatorId r) (byOperator st) = Some ids ∧ cid ∈ ids;
  ci_tok : ∀ t cid, om_get t (byToken st) = Some cid →
    ∃ r, om_get cid (byId st) = Some r ∧ token r = t;
  ci_op : ∀ op ids, om_get op (byOperator st) = Some ids →
    NoDup ids ∧ ∀ cid, cid ∈ ids → ∃ r, om_get cid (byId st) = Some r ∧ operatorId r = op
}.
Lemma cred_inv_init : cred_inv cred_init.
Proof. split; [constructor|done|done|done]. Qed.
Lemma evolves_inv st st' : evolves st st' → cred_inv st → cred_inv st'.
Proof.
  intros He [Hnd Hid Htok Hop]. pose proof He as [Et Eo Ek _]. split.
  - by rewrite Ek.
  - intros cid r' Hr'. destruct (evolves_get_inv _ _ _ _ He Hr') as (r & Hr & Hev).
    destruct (Hid _ _ Hr) as (H1 & H2 & H3 & H4 & H5).
    destruct Hev as (E1 & E2 & E3 & E4 & E5 & E6 & E7 & E8).
    rewrite E1, E2, E3, Et, Eo. auto.
  - intros t cid Ht. rewrite Et in Ht. destruct (Htok _ _ Ht) as (r & Hr & <-).
    destruct (evolves_get _ _ _ _ He Hr) as (r' & Hr' & _ & E2 & _). eauto.
  - intros op ids Hi. rewrite Eo in Hi. destruct (Hop _ _ Hi) as [Hn Hi'].
    split; [done|]. intros cid Hc. destruct (Hi' _ Hc) as (r & Hr & <-).
    destruct (evolves_get _ _ _ _ He Hr) as (r' & Hr' & _ & _ & E3 & _). eauto.
Qed.
Lemma upsert_inv st r : cred_inv st → new_record st r → cred_inv (upsertRecord st r).
Proof.
  intros [Hnd Hid Htok Hop] (Hne & Hf & Hft & _ & Hc).
  assert (credentialId r ∉ default [] (om_get (operatorId r) (byOperator st))) as Hnin.
  { destruct (om_get _ (byOperator st)) as [ids|] eqn:Hi; [|apply not_elem_of_nil].
    cbn. intros Hin. destruct (Hop _ _ Hi) as [_ Hi']. destruct (Hi' _ Hin) as (?&?&_). congruence. }
  split; unfold upsertRecord; cbn [byId byToken byOperator].
  - by apply om_set_NoDup.
  - intros cid x. rewrite om_get_set. case_decide as Hd.
    + intros [= <-]. subst cid. split_and!; [done..| |].
      * by rewrite om_get_set_eq.
      * rewrite om_get_set_eq. eexists. split; [done|]. apply elem_of_set_add. by right.
    + intros Hx. destruct (Hid _ _ Hx) as (H1 & H2 & H3 & H4 & ids & H5 & H6).
      split_and!; [done..| |].
      * rewrite om_get_set_ne; [done|]. intros He. congruence.
      * rewrite om_get_set. case_decide as Ho; [|eauto]. eexists. split; [done|].
        rewrite Ho, H5. cbn. apply elem_of_set_add. by left.
  - intros t cid. rewrite om_get_set. case_decide as Hd.
    + intros [= <-]. exists r. by rewrite om_get_set_eq.
    + intros Ht. destruct (Htok _ _ Ht) as (x & Hx & Hxt). exists x.
      rewrite om_get_set_ne; [done|]. congruence.
  - intros op ids. rewrite om_get_set. case_decide as Hd.
    + intros [= <-]. split.
      * apply NoDup_set_add. destruct (om_get _ (byOperator st)) as [ids|] eqn:Hi; [|constructor].
        by destruct (Hop _ _ Hi).
      * intros cid Hin. apply elem_of_set_add in Hin as [Hin| ->].
        -- destruct (om_get _ (byOperator st)) as [ids|] eqn:Hi; [|by apply not_elem_of_nil in Hin].
           destruct (Hop _ _ Hi) as [_ Hi']. destruct (Hi' _ Hin) as (x & Hx & Hxo).
           exists x. rewrite om_get_set_ne by congruence. split; [done|congruence].
        -- exists r. by rewrite om_get_set_eq.
    + intros Hi. destruct (Hop _ _ Hi) as [Hn Hi']. split; [done|].
      intros cid Hin. destruct (Hi' _ Hin) as (x & Hx & Hxo). exists x.
      rewrite om_get_set_ne by congruence. done.
Qed.
Lemma step_inv st st' : cred_step computeHash seconds config st st' → cred_inv st → cred_inv st'.
Proof.
  intros [He|(now & op & r & -> & _ & Hn)]%step_cases Hinv; [by eapply evolves_inv|].
  apply upsert_inv; [|done]. eapply evolves_inv; [apply evict_evolves|done].
Qed.

(** ** Counting the active credentials of an operator *)
Definition active_of (st : CredState) (id : string) : list InternalCredentialRecord :=
  match om_get id (byId st) with
  | Some r => if decide (status r = st_active) then [r] else []
  | None => []
  end.
Lemma getActive_eq st op :
  getActiveForOperator st op = flat_map (active_of st) (default [] (om_get op (byOperator st))).
Proof. unfold getActiveForOperator. by destruct (om_get op (byOperator st)). Qed.
Lemma active_of_elem st id r :
  r ∈ active_of st id ↔ om_get id (byId st) = Some r ∧ status r = st_active.
Proof.
  unfold active_of. destruct (om_get id (byId st)); [case_decide|];
    rewrite ?list_elem_of_singleton, ?elem_of_nil; naive_solver.
Qed.
Lemma getActive_elem st op r :
  cred_inv st → r ∈ getActiveForOperator st op ↔
  om_get (credentialId r) (byId st) = Some r ∧ operatorId r = op ∧ status r = st_active.
Proof.
  intros Hinv. rewrite getActive_eq, list_elem_of_In, in_flat_map.
  setoid_rewrite <-list_elem_of_In. setoid_rewrite active_of_elem. split.
  - intros (id & Hid & Hr & Hs). destruct (om_get op (byOperator st)) as [ids|] eqn:Hi;
      [|by apply not_elem_of_nil in Hid].
    destruct (ci_op _ Hinv _ _ Hi) as [_ Hall]. destruct (Hall _ Hid) as (r' & Hr' & <-).
    destruct (ci_id _ Hinv _ _ Hr) as (-> & _). by simplify_eq.
  - intros (Hr & <- & Hs). destruct (ci_id _ Hinv _ _ Hr) as (_ & _ & _ & _ & ids & Hi & Hin).
    exists (credentialId r). by rewrite Hi.
Qed.
Lemma flat_map_length_le {A B} (f g : A → list B) l :
  (∀ x, x ∈ l → (length (f x) ≤ length (g x))%nat) →
  (length (flat_map f l) ≤ length (flat_map g l))%nat.
Proof.
  intros Hle. induction l as [|x l IH]; [done|]. cbn. rewrite !length_app.
  pose proof (Hle x ltac:(left)).
  pose proof (IH (λ z Hz, Hle z (list_elem_of_further _ _ _ Hz))). lia.
Qed.
Lemma flat_map_length_lt {A B} (f g : A → list B) l y :
  (∀ x, x ∈ l → (length (f x) ≤ length (g x))%nat) → y ∈ l → (length (f y) < length (g y))%nat →
  (length (flat_map f l) < length (flat_map g l))%nat.
Proof.
  intros Hle Hy Hlt. induction Hy as [y l|y x l Hy IH]; cbn; rewrite !length_app.
  - pose proof (flat_map_length_le f g l (λ z Hz, Hle z (list_elem_of_further _ _ _ Hz))). lia.
  - pose proof (Hle x ltac:(left)).
    pose proof (IH (λ z Hz, Hle z (list_elem_of_further _ _ _ Hz)) Hlt). lia.
Qed.
Lemma active_of_le st st' id :
  evolves st st' → (length (active_of st' id) ≤ length (active_of st id))%nat.
Proof.
  intros He. unfold active_of. destruct (om_get id (byId st')) as [r'|] eqn:Hr'; [|cbn; lia].
  destruct (evolves_get_inv _ _ _ _ He Hr') as (r & -> & _ & _ & _ & _ & _ & _ & Hs & _).
  repeat case_decide; cbn; naive_solver lia.
Qed.
Lemma active_count_le st st' op :
  evolves st st' →
  (length (getActiveForOperator st' op) ≤ length (getActiveForOperator st op))%nat.
Proof.
  intros He. rewrite !getActive_eq, (ev_op _ _ He). apply flat_map_length_le.
  intros. by apply active_of_le.
Qed.
Lemma active_count_lt st st' op r :
  evolves st st' → cred_inv st → r ∈ getActiveForOperator st op →
  (∀ r', om_get (credentialId r) (byId st') = Some r' → status r' ≠ st_active) →
  (length (getActiveForOperator st' op) < length (getActiveForOperator st op))%nat.
Proof.
  intros He Hinv Hr Hs. apply getActive_elem in Hr as (Hg & <- & Ha); [|done].
  destruct (ci_id _ Hinv _ _ Hg) as (_ & _ & _ & _ & ids & Hi & Hin).
  rewrite !getActive_eq, (ev_op _ _ He), Hi. cbn.
  apply (flat_map_length_lt _ _ _ (credentialId r)); [intros; by apply active_of_le|done|].
  unfold active_of at 2. rewrite Hg, decide_True by done. unfold active_of.
  destruct (om_get _ (byId st')) as [r'|] eqn:Hr'; [|cbn; lia].
  rewrite decide_False by auto. cbn. lia.
Qed.
Lemma upsert_active st r op :
  cred_inv st → new_record st r →
  getActiveForOperator (upsertRecord st r) op =
    getActiveForOperator st op ++ (if decide (operatorId r = op) then [r] else []).
Proof.
  intros Hinv (Hne & Hf & _ & Ha & _). rewrite !getActive_eq. unfold upsertRecord.
  cbn [byOperator]. rewrite om_get_set.
  assert (∀ ids, (∀ cid, cid ∈ ids → is_Some (om_get cid (byId st))) →
    flat_map (active_of (upsertRecord st r)) ids = flat_map (active_of st) ids) as Hsame.
  { intros ids Hids. induction ids as [|id ids IH]; [done|]. cbn. f_equal.
    - unfold active_of, upsertRecord. cbn [byId].
      destruct (Hids id) as [x Hx]; [left|]. rewrite om_get_set_ne; [done|]. congruence.
    - apply IH. intros. apply Hids. by right. }
  assert (∀ op, ∀ cid, cid ∈ default [] (om_get op (byOperator st)) →
    is_Some (om_get cid (byId st))) as Hids.
  { intros o cid. destruct (om_get o (byOperator st)) as [ids|] eqn:Hi;
      [|by intros ?%not_elem_of_nil]. intros Hin.
    destruct (ci_op _ Hinv _ _ Hi) as [_ Hall]. destruct (Hall _ Hin) as (x & Hx & _). eauto. }
  case_decide as Ho; [subst op|].
  - cbn [from_option id]. rewrite set_add_notin.
    2: { intros Hin. apply Hids in Hin as [? ?]. congruence. }
    rewrite flat_map_app, Hsame by apply Hids. f_equal. cbn [flat_map].
    unfold active_of, upsertRecord. cbn [byId]. rewrite om_get_set_eq, decide_True by done.
    by rewrite app_nil_r.
  - rewrite app_nil_r.
    apply Hsame, Hids.
Qed.

(** The evicted credential is an oldest one, and is revoked. *)
Definition issued_cmp (a b : InternalCredentialRecord) : Z :=
  match date_getTime (issuedAt a), date_getTime (issuedAt b) with
  | Some x, Some y => x - y
  | _, _ => 0
  end.
Lemma oldest_of_elem l o : oldest_of l = Some o → o ∈ l.
Proof.
  unfold oldest_of. intros Ho.
  rewrite <-(js_sort_perm (λ a b, issued_cmp a b) l). unfold issued_cmp.
  destruct (js_sort _ l); [done|]. cbn in Ho. simplify_eq. left.
Qed.
Lemma oldest_of_none l : oldest_of l = None → l = [].
Proof.
  unfold oldest_of. intros Ho.
  pose proof (js_sort_perm (λ a b, issued_cmp a b) l) as Hp. unfold issued_cmp in Hp.
  destruct (js_sort _ l); [|done]. by apply Permutation_nil_l in Hp.
Qed.
Lemma evict_count now st op :
  cred_inv st →
  Z.of_nat (length (getActiveForOperator st op)) <= Z.max 1 (maxConcurrentPerOperator config) →
  Z.of_nat (length (getActiveForOperator (evict config now st op).1 op)) <
    Z.max 1 (maxConcurrentPerOperator config).
Proof.
  intros Hinv Hle. unfold evict. destruct (_ <=? _) eqn:Hm; [|cbn; lia].
  destruct (oldest_of _) as [o|] eqn:Ho.
  2: { apply oldest_of_none in Ho. cbn [fst]. rewrite Ho. cbn [length]. lia. }
  apply oldest_of_elem in Ho.
  pose proof (revokeRecord_spec now st (credentialId o) cr_policy_violation) as [He Hr].
  pose proof (proj1 (getActive_elem _ _ _ Hinv) Ho) as (Hg & _ & _). rewrite Hg in Hr.
  destruct Hr as [Hr Hb].
  assert (length (getActiveForOperator (revokeRecord now st (credentialId o)
    cr_policy_violation).1 op) < length (getActiveForOperator st op))%nat as Hlt.
  { apply (active_count_lt _ _ _ o); [done..|]. intros r'. rewrite Hb, om_get_set_eq.
    by intros [= <-]. }
  destruct (revokeRecord _ _ _ _) as [st' []]; cbn in *; lia.
Qed.
Lemma evict_none now st op : cred_inv st → (evict config now st op).2 = None.
Proof.
  intros Hinv. unfold evict. destruct (_ <=? _); [|done].
  destruct (oldest_of _) as [o|] eqn:Ho; [|done]. apply oldest_of_elem in Ho.
  pose proof (revokeRecord_spec now st (credentialId o) cr_policy_violation) as [_ Hr].
  pose proof (proj1 (getActive_elem _ _ _ Hinv) Ho) as (Hg & _ & _). rewrite Hg in Hr.
  destruct Hr as [Hr _]. destruct (revokeRecord _ _ _ _) as [st' []]; [done|]. discriminate Hr.
Qed.
End evolution.
