(* ===== verification/CredentialSpec.v ===== *)
(** * What the credential manager guarantees

    The theorems on [Credentials.v]: the store invariant, the concurrency
    limit, soundness of token authentication and finality of revocation, and
    the specifications of issuance, the expiry sweep, renewal and scope
    update. *)
From S2P Require Import Prelude JsDate Json Errors Ids Scopes Policy Reveal Credentials.

Section spec.
Context `{JsDate} (computeHash : ScopeSetType → list string → string)
        (seconds : Z → json) (config : CredentialManagerConfig).
Abbreviation step := (cred_step computeHash seconds config).
Abbreviation reachable := (cred_reachable computeHash seconds config).
Abbreviation inv := (cred_inv computeHash).

Lemma steps_inv st st' : rtc step st st' → inv st → inv st'.
Proof. induction 1 as [|s s' ? Hs _ IH]; [done|]. intros. apply IH. by eapply step_inv. Qed.
Lemma reachable_inv st : reachable st → inv st.
Proof. intros Hr. eapply steps_inv; [exact Hr|apply cred_inv_init]. Qed.

(** C2: the four stores of the credential manager always agree: in every
    reachable state a credential is stored under its own id, its token
    resolves to it and to nothing else, it is listed exactly once under its
    operator and every listed credential belongs to that operator; and its
    resolved scopes, policy hash and expiry are consistent with its scopes. *)
Theorem credential_store_invariant st :
  reachable st →
  NoDup (byId st).*1 ∧
  (∀ cid r, om_get cid (byId st) = Some r →
    credentialId r = cid ∧ resolvedScopes r = resolveScopeSet (effectiveScopes r) ∧
    policyHash r = computeHash (effectiveScopes r) (chatIds r) ∧
    is_Some (date_getTime (expiresAt r))) ∧
  (∀ t cid r, om_get cid (byId st) = Some r →
    (om_get t (byToken st) = Some cid ↔ token r = t)) ∧
  (∀ t cid, om_get t (byToken st) = Some cid → is_Some (om_get cid (byId st))) ∧
  (∀ op ids, om_get op (byOperator st) = Some ids → NoDup ids) ∧
  (∀ op cid, cid ∈ default [] (om_get op (byOperator st)) ↔
    ∃ r, om_get cid (byId st) = Some r ∧ operatorId r = op) ∧
  (∀ op r, r ∈ listCredentials st (Some op) ↔
    operatorId r = op ∧ r ∈ listCredentials st None).
Proof.
  intros Hinv%reachable_inv. pose proof Hinv as [Hnd Hid Htok Hop]. split_and!.
  - done.
  - intros cid r Hr. destruct (Hid _ _ Hr) as (? & _ & (? & ? & ?) & _). done.
  - intros t cid r Hr. destruct (Hid _ _ Hr) as (_ & _ & _ & Ht & _). split; [|by intros <-].
    intros Ht'. destruct (Htok _ _ Ht') as (r' & Hr' & <-). by simplify_eq.
  - intros t cid Ht. destruct (Htok _ _ Ht) as (r & Hr & _). eauto.
  - intros op ids Hi. by destruct (Hop _ _ Hi).
  - intros op cid. split.
    + destruct (om_get op _) as [ids|] eqn:Hi; [|by intros ?%not_elem_of_nil].
      intros Hin. by apply (Hop _ _ Hi).
    + intros (r & Hr & <-). destruct (Hid _ _ Hr) as (_ & _ & _ & _ & ids & -> & ?). done.
  - intros op r. unfold listCredentials. rewrite getActive_elem by done.
    rewrite list_elem_of_filter, list_elem_of_fmap. split.
    + intros (Hg & <- & Hs). split_and!; [done..|]. exists (credentialId r, r).
      split; [done|]. by apply om_get_elem.
    + intros (<- & Hs & ([cid r'] & [= ->] & Hin)).
      apply om_get_NoDup in Hin; [|done]. cbn in *.
      by destruct (Hid _ _ Hin) as (-> & _).
Qed.

(** *** The concurrency limit *)
Definition within_limit (st : CredState) : Prop :=
  ∀ op, Z.of_nat (length (getActiveForOperator st op)) <= Z.max 1 (maxConcurrentPerOperator config).
Lemma evolves_limit st st' : evolves computeHash st st' → within_limit st → within_limit st'.
Proof.
  intros He Hl op. pose proof (active_count_le _ _ _ op He). specialize (Hl op). lia.
Qed.
Lemma step_limit st st' : step st st' → inv st → within_limit st → within_limit st'.
Proof.
  intros [He|(now & op & r & -> & Hop & Hn)]%step_cases Hinv Hl; [by eapply evolves_limit|].
  pose proof (evict_evolves computeHash config now st op) as He.
  pose proof (evolves_inv _ _ _ He Hinv) as Hinv'. intros op'.
  rewrite (upsert_active computeHash) by done. rewrite length_app.
  pose proof (evolves_limit _ _ He Hl op'). case_decide as Ho; [|cbn; lia].
  pose proof (evict_count computeHash config now st op Hinv (Hl op)). subst. cbn. lia.
Qed.
(** no operator ever holds more active credentials than the configured
    maximum (or one, if the maximum is configured below one): issuance
    evicts before it adds, and no operation reactivates a credential. *)
Theorem concurrency_limit st op :
  reachable st →
  Z.of_nat (length (getActiveForOperator st op)) <= Z.max 1 (maxConcurrentPerOperator config).
Proof.
  intros Hr. assert (inv st ∧ within_limit st) as [_ Hl]; [|apply Hl].
  unfold cred_reachable in Hr. assert (inv cred_init ∧ within_limit cred_init) as H0.
  { split; [apply cred_inv_init|]. intros o. cbn. lia. }
  revert H0. induction Hr as [|s s' ? Hs _ IH]; [done|]. intros [Hi Hl]. apply IH.
  split; [by eapply step_inv|by eapply step_limit].
Qed.

(** *** Authentication *)
Lemma getByToken_ok now st tok r :
  inv st → (getCredentialByToken now st tok).2 = Ok r ↔
  ∃ cid, om_get tok (byToken st) = Some cid ∧ om_get cid (byId st) = Some r ∧
    past_expiry now r = false ∧ status r = st_active.
Proof.
  intros Hinv. unfold getCredentialByToken.
  destruct (om_get tok (byToken st)) as [cid|] eqn:Ht;
    [|split; [done|by intros (?&?&_)]].
  destruct (ci_tok _ _ Hinv _ _ Ht) as (r' & Hr' & <-).
  destruct (ci_id _ _ Hinv _ _ Hr') as (_ & Hne & _).
  rewrite bool_decide_false by done. rewrite Hr'.
  destruct (past_expiry now r') eqn:Hp.
  { split; [done|]. intros (? & [= <-] & Hr & Hp' & _). simplify_eq. congruence. }
  case_bool_decide as Hs; cbn [negb snd]; split.
  - intros [= <-]. eauto.
  - intros (? & [= <-] & Hr & _). by simplify_eq.
  - done.
  - intros (? & [= <-] & Hr & _ & Ha). by simplify_eq.
Qed.
Lemma steps_status st st' cid r :
  rtc step st st' → inv st → om_get cid (byId st) = Some r →
  ∃ r', om_get cid (byId st') = Some r' ∧ token r' = token r ∧
    (status r' = st_active → status r = st_active).
Proof.
  intros Hs. revert r. induction Hs as [s|s s' ? Hs _ IH]; intros r Hinv Hr; [eauto|].
  assert (∃ r1, om_get cid (byId s') = Some r1 ∧ token r1 = token r ∧
    (status r1 = st_active → status r = st_active)) as (r1 & Hr1 & Ht1 & Hs1).
  { pose proof Hs as [He|(now & op & x & -> & _ & Hn)]%step_cases.
    - destruct (evolves_get _ _ _ _ _ He Hr) as (r1 & ? & _ & ? & _ & _ & _ & _ & ? & _). eauto.
    - pose proof (evict_evolves computeHash config now s op) as He.
      destruct (evolves_get _ _ _ _ _ He Hr) as (r1 & Hr1 & _ & ? & _ & _ & _ & _ & ? & _).
      exists r1. unfold upsertRecord. cbn [byId]. rewrite om_get_set_ne; [done|].
      destruct Hn as (_ & Hf & _). congruence. }
  destruct (IH r1) as (r2 & ? & ? & ?); [by eapply step_inv|done|].
  exists r2. split_and!; [done|congruence|auto].
Qed.

(** C5: authentication is sound and revocation final: a token is accepted
    exactly when it is the token of a stored credential that is active and
    strictly before its expiry, and accepting it changes nothing; and a
    credential that is not active (revoked, expired or pending) in some
    state authenticates in no later state, whatever operations run, each
    issuance with an identifier and a token that are not in use.  One
    operation of the manager's interface is left out: [setCredentialStatus]
    can set the status back to "active", which makes the credential
    authenticate again ([setStatus_reactivates]); its only caller, the request
    handler, sets "pending". *)
Theorem authentication_sound st now tok r :
  reachable st →
  ((getCredentialByToken now st tok).2 = Ok r ↔
    om_get (credentialId r) (byId st) = Some r ∧ token r = tok ∧ status r = st_active ∧
    ∃ t, date_getTime (expiresAt r) = Some t ∧ now < t) ∧
  (isOk (getCredentialByToken now st tok).2 = true → (getCredentialByToken now st tok).1 = st) ∧
  (∀ cid x, om_get cid (byId st) = Some x → status x ≠ st_active →
    ∀ st' now', rtc step st st' →
      isOk (getCredentialByToken now' st' (token x)).2 = false ∧
      (∀ y, om_get cid (byId st') = Some y → status y ≠ st_active)).
Proof.
  intros Hinv%reachable_inv. split_and!.
  - rewrite getByToken_ok by done. split.
    + intros (cid & Ht & Hr & Hp & Hs). destruct (ci_id _ _ Hinv _ _ Hr) as (-> & _ & Hc & Ht' & _).
      split_and!; [done| |done|].
      * destruct (ci_tok _ _ Hinv _ _ Ht) as (r' & Hr' & <-). by simplify_eq.
      * destruct Hc as (_ & _ & t & Hd). exists t. split; [done|]. unfold past_expiry in Hp.
        rewrite Hd in Hp. cbn in Hp. lia.
    + intros (Hr & <- & Hs & t & Hd & Hlt). exists (credentialId r).
      destruct (ci_id _ _ Hinv _ _ Hr) as (_ & _ & _ & Ht & _). split_and!; [done..| |done].
      unfold past_expiry. rewrite Hd. cbn. lia.
  - unfold getCredentialByToken. destruct (om_get tok _); [|done].
    destruct (bool_decide _); [done|]. destruct (om_get _ _); [|done].
    destruct (past_expiry _ _); [done|]. by destruct (negb _).
  - intros cid x Hx Hs st' now' Hsteps.
    pose proof (steps_inv _ _ Hsteps Hinv) as Hinv'.
    destruct (steps_status _ _ _ _ Hsteps Hinv Hx) as (y & Hy & Hty & Hsy).
    assert (status y ≠ st_active) as Hyna by auto. split; [|intros ?; congruence].
    destruct (getCredentialByToken now' st' (token x)).2 as [z|] eqn:Hz; [|done].
    apply getByToken_ok in Hz as (cid' & Ht' & Hz & _ & Hza); [|done].
    destruct (ci_id _ _ Hinv' _ _ Hy) as (_ & _ & _ & Ht & _). congruence.
Qed.

(** *** Issuance *)
Lemma js_sort_ext {A} (cmp cmp' : A → A → Z) l :
  (∀ x y, x ∈ l → y ∈ l → cmp x y = cmp' x y) → js_sort cmp l = js_sort cmp' l.
Proof.
  unfold js_sort. assert (∀ acc, (∀ x y, x ∈ acc ++ l → y ∈ acc ++ l → cmp x y = cmp' x y) →
    foldl (λ acc x, js_insert cmp x acc) acc l = foldl (λ acc x, js_insert cmp' x acc) acc l) as Hl.
  { induction l as [|x l IH]; intros acc Hc; cbn [foldl]; [done|].
    assert (js_insert cmp x acc = js_insert cmp' x acc) as ->.
    { assert (∀ a, (∀ y, y ∈ a → cmp y x = cmp' y x) → js_insert cmp x a = js_insert cmp' x a) as Hi.
      { induction a as [|y a IHa]; intros Ha; cbn; [done|].
        rewrite (Ha y) by left. rewrite IHa; [done|]. intros. apply Ha. by right. }
      apply Hi. intros y Hy. apply Hc; set_solver. }
    apply IH. intros a b. rewrite !elem_of_app, !js_insert_perm, !elem_of_cons.
    intros Ha Hb. apply Hc; set_solver. }
  intros Hc. by apply (Hl []).
Qed.
Definition issued_at (r : InternalCredentialRecord) : Z := default 0 (date_getTime (issuedAt r)).
Lemma oldest_of_min l o :
  (∀ x, x ∈ l → is_Some (date_getTime (issuedAt x))) → oldest_of l = Some o →
  ∀ x, x ∈ l → issued_at o <= issued_at x.
Proof.
  intros Hd. unfold oldest_of.
  rewrite (js_sort_ext _ (λ a b, issued_at a - issued_at b)).
  2: { intros x y Hx Hy. unfold issued_at.
       destruct (Hd _ Hx) as [? ->], (Hd _ Hy) as [? ->]. done. }
  intros Ho x Hx. destruct (js_sort_head (λ a b, issued_at a - issued_at b)
    (cmp_sub_total issued_at) (cmp_sub_trans issued_at) l o Ho) as [_ Hle].
  specialize (Hle x Hx). unfold cmp_le in Hle. lia.
Qed.
(** The records after eviction: at most one changed. *)
Lemma evict_byId now st op :
  inv st →
  byId (evict config now st op).1 = byId st ∨
  ∃ o, oldest_of (getActiveForOperator st op) = Some o ∧
    maxConcurrentPerOperator config <= Z.of_nat (length (getActiveForOperator st op)) ∧
    byId (evict config now st op).1 =
      om_set (credentialId o) (apply_updates (upd_revoke (nowISO now) cr_policy_violation) o) (byId st).
Proof.
  intros Hinv. unfold evict. destruct (_ <=? _) eqn:Hm; [|by left].
  destruct (oldest_of _) as [o|] eqn:Ho; [|by left]. right. exists o.
  split_and!; [done|lia|].
  pose proof (revokeRecord_spec computeHash now st (credentialId o) cr_policy_violation) as [_ Hr].
  apply oldest_of_elem in Ho. apply (getActive_elem computeHash) in Ho as (Hg & _); [|done].
  rewrite Hg in Hr. destruct Hr as [_ Hb]. by destruct (revokeRecord _ _ _ _) as [? []].
Qed.

(** issuance: it never answers an error; a returned credential is
    stored, active, of the requested operator, and has the policy hash of
    the requested scopes and chats, and is either the very credential that
    was already stored, or a new one with exactly the requested scopes and
    chats, the fresh id and token, expiring [ttl] after the call; the call
    throws only when that expiry is not a representable date.  Every other
    credential is kept as it was, except that at the concurrency limit one
    of the operator's active credentials, with the least issue time, is
    revoked for policy violation. *)
Theorem issueCredential_spec now st cfg credId tok issuer :
  reachable st → credId ≠ "" → om_get credId (byId st) = None →
  let op := cfg_operatorId cfg in
  let hash := computeHash (buildScopeSet cfg) (cfg_chatIds cfg) in
  let ttl := default (defaultTtlSeconds config) (cfg_ttlSeconds cfg) * 1000 in
  let x := issueCredential computeHash config now st cfg credId tok issuer in
  (∀ e, x.2 ≠ Some (Err e)) ∧
  (x.2 = None → date_toISOString (now + ttl) = None) ∧
  (∀ r, x.2 = Some (Ok r) →
    om_get (credentialId r) (byId x.1) = Some r ∧ operatorId r = op ∧ status r = st_active ∧
    policyHash r = hash ∧
    (om_get (credentialId r) (byId st) = Some r ∨
     (credentialId r = credId ∧ token r = tok ∧ chatIds r = cfg_chatIds cfg ∧
      effectiveScopes r = buildScopeSet cfg ∧
      resolvedScopes r = resolveScopeSet (buildScopeSet cfg) ∧
      date_getTime (expiresAt r) = Some (now + ttl) ∧ ttlMs r = ttl))) ∧
  (∀ cid y, om_get cid (byId st) = Some y →
    om_get cid (byId x.1) = Some y ∨
    (om_get cid (byId x.1) = Some (apply_updates (upd_revoke (nowISO now) cr_policy_violation) y) ∧
     operatorId y = op ∧ status y = st_active ∧
     maxConcurrentPerOperator config <= Z.of_nat (length (getActiveForOperator st op)) ∧
     ((∀ z, z ∈ getActiveForOperator st op → is_Some (date_getTime (issuedAt z))) →
      ∀ z, z ∈ getActiveForOperator st op → issued_at y <= issued_at z))).
Proof.
  intros Hinv%reachable_inv Hne Hfr op hash ttl x.
  pose proof (evict_evolves computeHash config now st op) as Hev.
  pose proof (evolves_inv _ _ _ Hev Hinv) as Hinv1.
  assert (∀ cid y, om_get cid (byId st) = Some y →
    om_get cid (byId (evict config now st op).1) = Some y ∨
    (om_get cid (byId (evict config now st op).1) =
       Some (apply_updates (upd_revoke (nowISO now) cr_policy_violation) y) ∧
     operatorId y = op ∧ status y = st_active ∧
     maxConcurrentPerOperator config <= Z.of_nat (length (getActiveForOperator st op)) ∧
     ((∀ z, z ∈ getActiveForOperator st op → is_Some (date_getTime (issuedAt z))) →
      ∀ z, z ∈ getActiveForOperator st op → issued_at y <= issued_at z))) as Hkeep.
  { intros cid y Hy. destruct (evict_byId now st op Hinv) as [->|(o & Ho & Hm & ->)]; [by left|].
    rewrite om_get_set. case_decide as Hd; [|by left]. right.
    pose proof (oldest_of_elem _ _ Ho) as Hin. apply (getActive_elem computeHash) in Hin as (Hg & Hop & Hs); [|done].
    assert (o = y) as -> by congruence. split_and!; [done..|].
    intros Hdates. by apply oldest_of_min. }
  destruct (issue_cases computeHash config now st cfg credId tok issuer)
    as [[Hst Hres]|(ex & Hex & Heq & Hno)].
  - fold x op in Hst, Hres.
    assert (x.2 = None ∧ date_toISOString (now + ttl) = None ∨ ∃ r, x.2 = Some (Ok r)) as Hx2.
    { unfold x, issueCredential. pose proof (evict_none computeHash config now st op Hinv) as Hn.
      fold op. destruct (evict config now st op) as [st1 e]. cbn in Hn. subst e.
      destruct (List.find _ _); [eauto|]. fold ttl.
      destruct (date_toISOString (now + ttl)); eauto. }
    rewrite Hst. split_and!.
    + intros e He. destruct Hx2 as [[Hx _]|[r Hx]]; congruence.
    + intros Hn. destruct Hx2 as [[_ ?]|[r Hx]]; congruence.
    + intros r Hr. destruct (Hres r Hr) as [Hin Hh].
      apply (getActive_elem computeHash) in Hin as (Hg & Hop & Hs); [|done]. split_and!; [done..|].
      left. destruct (evolves_get_inv _ _ _ _ _ Hev Hg) as (r0 & Hr0 & _).
      destruct (Hkeep _ _ Hr0) as [Hk|(Hk & _)]; [congruence|].
      rewrite Hg in Hk. simplify_eq.
    + done.
  - fold x op in Heq. rewrite Heq. cbn [fst snd]. split_and!; [done|done| |].
    + intros r [= <-]. cbn. rewrite om_get_set_eq. split_and!; [done..|]. right.
      apply date_roundtrip in Hex. done.
    + intros cid y Hy. cbn [upsertRecord byId]. unfold upsertRecord. cbn [byId credentialId].
      rewrite om_get_set_ne by congruence. auto.
Qed.

(** *** The expiry sweep *)
(** What the sweep does to one record. *)
Definition sweep_record (now : Z) (r : InternalCredentialRecord) : option InternalCredentialRecord :=
  if negb (bool_decide (status r = st_active)) then None
  else if past_expiry now r then Some (apply_updates (upd_status st_expired) r)
  else if heartbeat_overdue config now r then
    Some (apply_updates (upd_revoke (nowISO now) cr_heartbeat_timeout) r)
  else None.
Definition sweep_hooks (r : InternalCredentialRecord) : list HookCall :=
  onCredentialMutated (credentialId r) ::
  if decide (status r = st_revoked) then [onCredentialRevoked r] else [].
Definition option_list {A} (o : option A) : list A := match o with Some x => [x] | None => [] end.
Definition own_id (st : CredState) : Prop :=
  ∀ cid r, om_get cid (byId st) = Some r → credentialId r = cid.

Lemma cleanup_reveal st cid c store :
  om_get c (revealStates (cleanupRevealState st cid)) = Some store →
  if decide (c = cid) then store = [] else om_get c (revealStates st) = Some store.
Proof.
  unfold cleanupRevealState. case_decide as Hd; [subst|];
    destruct (om_get cid (revealStates st)) eqn:Hg; cbn [revealStates]; [|congruence| |done].
  - rewrite om_get_set_eq. by intros [= <-].
  - by rewrite om_get_set_ne by congruence.
Qed.
Lemma sweep_record_id now r r' : sweep_record now r = Some r' → credentialId r' = credentialId r.
Proof. unfold sweep_record. repeat case_match; by intros [= <-]. Qed.
Lemma sweep_record_none now r : sweep_record now (default r (sweep_record now r)) = None.
Proof.
  destruct (sweep_record now r) as [r'|] eqn:Hs; [|done]. cbn [from_option id].
  revert Hs. unfold sweep_record at 1. repeat case_match; intros [= <-]; reflexivity.
Qed.

(** One iteration, on a state whose records carry their own keys. *)
Lemma sweep_one_spec now st sw cid :
  own_id st →
  let x := sweep_one config now (st, sw) cid in
  let o := om_get cid (byId st) ≫= sweep_record now in
  (∀ c, om_get c (byId x.1) = if decide (c = cid) then (om_get cid (byId st)) ≫=
      (λ r, Some (default r (sweep_record now r))) else om_get c (byId st)) ∧
  x.2 = sw ++ option_list o ∧
  hooks x.1 = hooks st ++ flat_map sweep_hooks (option_list o) ∧
  byToken x.1 = byToken st ∧ byOperator x.1 = byOperator st ∧ (byId x.1).*1 = (byId st).*1 ∧
  (∀ c store, om_get c (revealStates x.1) = Some store →
    (c = cid ∧ is_Some o ∧ store = []) ∨ ((c = cid → o = None) ∧ om_get c (revealStates st) = Some store)).
Proof.
  intros Hown x o. pose proof (sweep_one_evolves computeHash config now (st, sw) cid) as [Et Eo Ek _].
  fold x in Et, Eo, Ek. cbn [fst] in *.
  enough ((∀ c, om_get c (byId x.1) = if decide (c = cid) then (om_get cid (byId st)) ≫=
      (λ r, Some (default r (sweep_record now r))) else om_get c (byId st)) ∧
    x.2 = sw ++ option_list o ∧ hooks x.1 = hooks st ++ flat_map sweep_hooks (option_list o) ∧
    (revealStates x.1 = revealStates (if o then cleanupRevealState st cid else st)))
    as (H1 & H2 & H3 & H4).
  { split_and!; [done..|]. intros c store. rewrite H4. destruct o as [r'|].
    - intros Hc%cleanup_reveal. case_decide; [left; eauto|by right].
    - intros ?. by right. }
  unfold x, o, sweep_one. destruct (om_get cid (byId st)) as [r|] eqn:Hr.
  2: { cbn. rewrite !app_nil_r. split_and!; [|done..]. intros c. by case_decide; subst. }
  pose proof (Hown _ _ Hr) as ->. cbn [mbind option_bind]. unfold sweep_record.
  assert (∀ c, om_get c (byId st) = if decide (c = cid) then Some r else om_get c (byId st)) as Hself.
  { intros c. by case_decide; subst. }
  destruct (negb _); [cbn; by rewrite !app_nil_r|].
  destruct (past_expiry now r).
  { unfold mutateRecord. rewrite cleanup_byId, Hr. cbn. split_and!; [|done| |done].
    - intros c. rewrite om_get_set. by repeat case_decide; subst.
    - rewrite (Hown _ _ Hr). unfold cleanupRevealState. by destruct (om_get cid (revealStates st)). }
  destruct (heartbeat_overdue _ _ _); [|cbn; by rewrite !app_nil_r].
  unfold revokeRecord, mutateRecord. rewrite cleanup_byId, Hr. cbn. split_and!; [|done| |done].
  - intros c. rewrite om_get_set. by repeat case_decide; subst.
  - rewrite (Hown _ _ Hr), <-app_assoc. unfold cleanupRevealState. by destruct (om_get cid (revealStates st)).
Qed.
Lemma sweep_one_own now st sw cid :
  own_id st → own_id (sweep_one config now (st, sw) cid).1.
Proof.
  intros Hown c r. rewrite (proj1 (sweep_one_spec now st sw cid Hown)). case_decide as Hd; [|apply Hown].
  subst c. destruct (om_get cid (byId st)) as [x|] eqn:Hx; [|done]. intros [= <-].
  destruct (sweep_record now x) as [y|] eqn:Hy; cbn; [|by apply Hown].
  rewrite (sweep_record_id _ _ _ Hy). by apply Hown.
Qed.
Lemma sweep_fold now ks st sw :
  NoDup ks → own_id st →
  let x := foldl (sweep_one config now) (st, sw) ks in
  let f := λ cid, om_get cid (byId st) ≫= sweep_record now in
  (∀ c, om_get c (byId x.1) = if decide (c ∈ ks)
      then om_get c (byId st) ≫= (λ r, Some (default r (sweep_record now r)))
      else om_get c (byId st)) ∧
  x.2 = sw ++ base.omap f ks ∧
  hooks x.1 = hooks st ++ flat_map sweep_hooks (base.omap f ks) ∧
  byToken x.1 = byToken st ∧ byOperator x.1 = byOperator st ∧ (byId x.1).*1 = (byId st).*1 ∧
  (∀ c store, om_get c (revealStates x.1) = Some store →
    (c ∈ ks ∧ is_Some (f c) ∧ store = []) ∨
    ((c ∈ ks → f c = None) ∧ om_get c (revealStates st) = Some store)).
Proof.
  revert st sw. induction ks as [|k ks IH]; intros st sw; intros Hnd Hown; cbn [foldl].
  { cbn. rewrite !app_nil_r. split_and!; [done..|]. intros c store ?. right. split; [|done].
    by intros ?%not_elem_of_nil. }
  apply NoDup_cons in Hnd as [Hk Hnd].
  pose proof (sweep_one_own now st sw k Hown) as Hown1.
  pose proof (sweep_one_spec now st sw k Hown) as (H1 & H2 & H3 & H4 & H5 & H6 & H7).
  destruct (sweep_one config now (st, sw) k) as [st1 sw1]. cbn [fst snd] in *.
  pose proof (IH st1 sw1 Hnd Hown1) as (I1 & I2 & I3 & I4 & I5 & I6 & I7).
  set (f := λ cid, om_get cid (byId st) ≫= sweep_record now).
  assert (∀ c, c ∈ ks → om_get c (byId st1) = om_get c (byId st)) as Hsame.
  { intros c Hc. rewrite H1. by rewrite decide_False by congruence. }
  assert (base.omap (λ cid, om_get cid (byId st1) ≫= sweep_record now) ks = base.omap f ks) as Homap.
  { clear -Hsame. unfold f. induction ks as [|c ks IH]; [done|]. cbn.
    rewrite Hsame by left. destruct (_ ≫= _); [f_equal|]; apply IH; intros; apply Hsame; by right. }
  rewrite Homap in *.
  assert (base.omap f (k :: ks) = option_list (f k) ++ base.omap f ks) as ->
    by (cbn; by destruct (f k)).
  split_and!.
  - intros c. rewrite I1, H1. destruct (decide (c = k)) as [->|Hne].
    + rewrite decide_False, (decide_True (P := k ∈ k :: ks)) by (done || left). done.
    + destruct (decide (c ∈ ks)) as [Hc|Hc].
      * by rewrite decide_True by (by right).
      * rewrite decide_False; [done|]. by intros [?|?]%elem_of_cons.
  - by rewrite I2, H2, app_assoc.
  - by rewrite I3, H3, flat_map_app, app_assoc.
  - congruence.
  - congruence.
  - congruence.
  - intros c store Hc. apply I7 in Hc as [(Hc & Hs & ->)|[Hn Hc]].
    + left. rewrite Hsame in Hs by done. split_and!; [by right|done|done].
    + apply H7 in Hc as [(-> & Hs & ->)|[Hn' Hc]].
      * left. split_and!; [left|done|done].
      * right. split; [|done]. intros [->|Hin]%elem_of_cons; [by apply Hn'|].
        unfold f. rewrite <-Hsame by done. auto.
Qed.
Lemma omap_keys (f : InternalCredentialRecord → option InternalCredentialRecord)
  (m : omap string InternalCredentialRecord) :
  NoDup m.*1 → base.omap (λ cid, om_get cid m ≫= f) m.*1 = base.omap f m.*2.
Proof.
  intros Hnd. assert (∀ l, (∀ k v, (k, v) ∈ l → om_get k m = Some v) →
    base.omap (λ cid : string, om_get cid m ≫= f) l.*1 = base.omap f l.*2) as Hl.
  { induction l as [|[k v] l IH]; intros Hm; [done|]. cbn. rewrite (Hm k v) by left. cbn.
    rewrite IH; [done|]. intros. apply Hm. by right. }
  apply Hl. intros. by apply om_get_NoDup.
Qed.

(** The whole sweep, on any state the invariant holds of. *)
Lemma sweep_all now st :
  inv st →
  let x := sweepExpired config now st in
  inv x.1 ∧
  (∀ c, om_get c (byId x.1) =
    om_get c (byId st) ≫= (λ r, Some (default r (sweep_record now r)))) ∧
  x.2 = base.omap (sweep_record now) (byId st).*2 ∧
  hooks x.1 = hooks st ++ flat_map sweep_hooks x.2 ∧
  byToken x.1 = byToken st ∧ byOperator x.1 = byOperator st ∧
  (∀ c store, om_get c (revealStates x.1) = Some store →
    (is_Some (om_get c (byId st) ≫= sweep_record now) ∧ store = []) ∨
    (om_get c (byId st) ≫= sweep_record now = None ∧ om_get c (revealStates st) = Some store)).
Proof.
  intros Hinv x.
  assert (inv x.1) as Hinv1 by (by eapply evolves_inv; [apply sweep_evolves|]).
  assert (own_id st) as Hown by (intros c r Hr; by destruct (ci_id _ _ Hinv _ _ Hr)).
  pose proof (sweep_fold now _ st [] (ci_nodup _ _ Hinv) Hown) as (I1 & I2 & I3 & I4 & I5 & I6 & I7).
  fold (sweepExpired config now st) in I1, I2, I3, I4, I5, I6, I7. fold x in I1, I2, I3, I4, I5, I6, I7.
  rewrite omap_keys in I2, I3 by apply (ci_nodup _ _ Hinv).
  split_and!; [done| |done|by rewrite I3, I2|done|done|].
  - intros c. rewrite I1. destruct (decide _) as [|Hc]; [done|]. by apply om_get_None in Hc as ->.
  - intros c store Hc. destruct (I7 c store Hc) as [(_ & Hs & ->)|[Hn Hc']]; [by left|].
    right. split; [|done]. destruct (om_get c (byId st)) as [r|] eqn:Hr; [|done].
    cbn in Hn. cbn. apply Hn. destruct (decide (c ∈ (byId st).*1)) as [|Hnin]; [done|].
    apply om_get_None in Hnin. congruence.
Qed.
Lemma sweep_clean now st c r :
  inv st → om_get c (byId (sweepExpired config now st).1) = Some r → status r = st_active →
  past_expiry now r = false ∧ heartbeat_overdue config now r = false.
Proof.
  intros Hinv Hr Ha. destruct (sweep_all now st Hinv) as (_ & Hget & _).
  assert (sweep_record now r = None) as Hn.
  { rewrite Hget in Hr. destruct (om_get c (byId st)); [|done]. injection Hr as <-.
    apply sweep_record_none. }
  unfold sweep_record in Hn. rewrite Ha in Hn. cbn in Hn.
  by destruct (past_expiry now r), (heartbeat_overdue config now r).
Qed.
Lemma sweep_idle now st :
  inv st → (sweepExpired config now (sweepExpired config now st).1).2 = [].
Proof.
  intros Hinv. destruct (sweep_all now st Hinv) as (Hinv1 & Hget & _).
  destruct (sweep_all now _ Hinv1) as (_ & _ & -> & _).
  assert (∀ l, (∀ r, r ∈ l → sweep_record now r = None) →
    base.omap (sweep_record now) l = []) as Hl.
  { induction l as [|r l IH]; intros Hl; [done|]. cbn. rewrite Hl by left.
    apply IH. intros. apply Hl. by right. }
  apply Hl. intros r ([k v] & -> & Hkv)%list_elem_of_fmap.
  apply om_get_NoDup in Hkv; [|apply (ci_nodup _ _ Hinv1)]. rewrite Hget in Hkv.
  destruct (om_get k (byId st)); [|done]. injection Hkv as <-. apply sweep_record_none.
Qed.

(** the expiry sweep: exactly the active credentials that are past
    their expiry become expired, and exactly the other active ones whose
    heartbeat is overdue are revoked for heartbeat timeout; each of them is
    reported once, in store order, its hooks fire, and its reveals are
    gone; nothing else changes.  Afterwards no active credential is past
    expiry or overdue, so sweeping again reports nothing. *)
Theorem sweepExpired_spec now st :
  reachable st →
  let x := sweepExpired config now st in
  (∀ c, om_get c (byId x.1) =
    om_get c (byId st) ≫= (λ r, Some (default r (sweep_record now r)))) ∧
  x.2 = base.omap (sweep_record now) (byId st).*2 ∧
  hooks x.1 = hooks st ++ flat_map sweep_hooks x.2 ∧
  byToken x.1 = byToken st ∧ byOperator x.1 = byOperator st ∧
  (∀ c store, om_get c (revealStates x.1) = Some store →
    (is_Some (om_get c (byId st) ≫= sweep_record now) ∧ store = []) ∨
    (om_get c (byId st) ≫= sweep_record now = None ∧ om_get c (revealStates st) = Some store)) ∧
  (∀ c r, om_get c (byId x.1) = Some r → status r = st_active →
    past_expiry now r = false ∧ heartbeat_overdue config now r = false) ∧
  (sweepExpired config now x.1).2 = [].
Proof.
  intros Hinv%reachable_inv x.
  destruct (sweep_all now st Hinv) as (_ & H1 & H2 & H3 & H4 & H5 & H6).
  split_and!; [done..| |by apply sweep_idle]. intros c r. by apply sweep_clean.
Qed.

(** *** Operations on a live credential *)
Lemma mutate_found st cid u r :
  om_get cid (byId st) = Some r →
  (mutateRecord st cid u).2 = Ok (apply_updates u r) ∧
  byId (mutateRecord st cid u).1 = om_set cid (apply_updates u r) (byId st).
Proof. unfold mutateRecord. by intros ->. Qed.

(** renewal, heartbeat and scope update act on active credentials
    only and change nothing else: renewal succeeds exactly on an active
    credential at most the renewal window before its expiry and moves only
    the expiry, to its full lifetime from now; a heartbeat makes the
    credential stale exactly one interval plus grace later; a scope update
    recomputes the resolved scopes and the policy hash over the
    credential's own chats.  On an error the store is unchanged. *)
Theorem live_operations_spec now st cid :
  reachable st →
  let live P := ∃ r, om_get cid (byId st) = Some r ∧ status r = st_active ∧ P r in
  let put r' := λ st', byId st' = om_set cid r' (byId st) in
  let rn := renewCredential seconds config now st cid in
  (∀ r', rn.2 = Some (Ok r') ↔
    live (λ r, (∃ t, date_getTime (expiresAt r) = Some t ∧
                     t - now <= renewalWindowSeconds config * 1000) ∧
      (∃ s, date_toISOString (now + ttlMs r) = Some s ∧ r' = apply_updates (upd_expiresAt s) r))) ∧
  (∀ r', rn.2 = Some (Ok r') → put r' rn.1 ∧
    ∃ r, om_get cid (byId st) = Some r ∧ date_getTime (expiresAt r') = Some (now + ttlMs r)) ∧
  (∀ e, rn.2 = Some (Err e) → rn.1 = st) ∧
  (let hb := recordHeartbeat now st cid in
   (hb.2 = Ok tt ↔ live (λ _, True)) ∧
   (isOk hb.2 = false → hb.1 = st) ∧
   (hb.2 = Ok tt → is_Some (date_toISOString now) → ∀ r now', om_get cid (byId st) = Some r →
     put (apply_updates (upd_heartbeat (nowISO now)) r) hb.1 ∧
     isHeartbeatStale config now' hb.1 cid =
       Ok (now + (heartbeatInterval r + heartbeatGracePeriod config) * 1000 <=? now'))) ∧
  (∀ sc, let up := updateCredentialScopes computeHash st cid sc in
   (isOk up.2 = false → up.1 = st) ∧
   (∀ r', up.2 = Ok r' ↔
     live (λ r, r' = apply_updates (upd_scopes sc (resolveScopeSet sc) (computeHash sc (chatIds r))) r)) ∧
   (∀ r', up.2 = Ok r' → put r' up.1 ∧ chatIds r' = default [] (chatIds <$> om_get cid (byId st)))).
Proof.
  intros Hinv%reachable_inv live put rn.
  unfold rn, renewCredential, recordHeartbeat, updateCredentialScopes, live, put.
  destruct (om_get cid (byId st)) as [r|] eqn:Hr.
  2: { split_and!; naive_solver. }
  destruct (ci_id _ _ Hinv _ _ Hr) as (_ & _ & (_ & _ & t & Ht) & _).
  case_bool_decide as Hs; cbn [negb].
  2: { split_and!; naive_solver. }
  assert (∀ u, byId (mutateRecord st cid u).1 = om_set cid (apply_updates u r) (byId st)) as Hput
    by (intros u; by apply mutate_found).
  assert (∀ u, (mutateRecord st cid u).2 = Ok (apply_updates u r)) as Hok
    by (intros u; by apply mutate_found).
  unfold outside_window. rewrite Ht. split_and!.
  - intros r'. destruct (_ <? _) eqn:Hw; cbn [snd].
    { split; [done|]. intros (? & [= <-] & _ & (t' & Ht' & Hle) & _). simplify_eq. lia. }
    destruct (date_toISOString _) as [s|] eqn:Hd; cbn [snd].
    2: { split; [done|]. intros (? & [= <-] & _ & _ & s & Hs' & _). congruence. }
    specialize (Hok (upd_expiresAt s)). destruct (mutateRecord _ _ _) as [st' res]. cbn in Hok.
    subst res. cbn [snd]. split.
    + intros [= <-]. exists r. split_and!; [done..| |].
      * exists t. split; [done|lia].
      * eauto.
    + intros (? & [= <-] & _ & _ & s' & Hs' & ->). by simplify_eq.
  - intros r'. destruct (_ <? _); [done|]. destruct (date_toISOString _) as [s|] eqn:Hd; [|done].
    specialize (Hok (upd_expiresAt s)). specialize (Hput (upd_expiresAt s)).
    destruct (mutateRecord _ _ _) as [st' res]. cbn in Hok, Hput. subst res. cbn [fst snd].
    intros [= <-]. split; [done|]. exists r. split; [done|]. cbn. by apply date_roundtrip.
  - intros e. destruct (_ <? _); [done|]. destruct (date_toISOString _) as [s|]; [|done].
    specialize (Hok (upd_expiresAt s)). destruct (mutateRecord _ _ _) as [st' res].
    cbn in Hok. by subst res.
  - specialize (Hok (upd_heartbeat (nowISO now))). destruct (mutateRecord _ _ _) as [st' res].
    cbn in Hok. subst res. cbn. split; [eauto|done].
  - specialize (Hok (upd_heartbeat (nowISO now))). destruct (mutateRecord _ _ _) as [st' res].
    cbn in Hok. by subst res.
  - specialize (Hok (upd_heartbeat (nowISO now))). specialize (Hput (upd_heartbeat (nowISO now))).
    destruct (mutateRecord _ _ _) as [st' res]. cbn in Hok, Hput. subst res. cbn [fst snd].
    intros _ [s Hd] ? now' [= <-]. split; [done|]. unfold isHeartbeatStale.
    rewrite Hput, om_get_set_eq. cbn [status apply_updates upd_heartbeat u_status from_option id].
    rewrite bool_decide_true by done. cbn [negb]. unfold heartbeat_overdue. cbn. unfold nowISO.
    rewrite Hd. cbn. rewrite (date_roundtrip _ _ Hd). cbn. f_equal. f_equal. lia.
  - intros sc. specialize (Hok (upd_scopes sc (resolveScopeSet sc) (computeHash sc (chatIds r)))).
    specialize (Hput (upd_scopes sc (resolveScopeSet sc) (computeHash sc (chatIds r)))).
    destruct (mutateRecord _ _ _) as [st' res]. cbn in Hok, Hput. subst res. cbn [fst snd isOk].
    split_and!; [done| |].
    + intros r'. split; [intros [= <-]; eauto|]. by intros (? & [= <-] & _ & ->).
    + by intros r' [= <-].
Qed.
End spec.

(** ** A concrete store: one credential issued at the epoch *)
Definition demo_hash (s : ScopeSetType) (chats : list string) : string :=
  String.concat "," (map scope_name (allow s) ++ chats).
Definition demo_seconds (ms : Z) : json := JNum (ms / 1000).
Definition demo_cfg : CredentialConfig :=
  {| cfg_operatorId := "op_a"; cfg_chatIds := ["conv_1"]; cfg_policyId := None;
     cfg_allow := Some [send]; cfg_deny := None; cfg_ttlSeconds := Some 60 |}.
Definition demo_store : CredState :=
  (issueCredential demo_hash DEFAULT_CONFIG 0 cred_init demo_cfg "cred_1" "tok_1" None).1.
Definition demo_cred : InternalCredentialRecord :=
  mkCred "cred_1" "tok_1" "op_a" ["conv_1"] {| allow := [send]; deny := [] |} [send] "send,conv_1"
    st_active 30 "1970-01-01T00:00:00.000Z" "1970-01-01T00:00:00.000Z" "1970-01-01T00:01:00.000Z"
    "owner" 60000 None None.
Lemma demo_store_eq :
  demo_store = mkState [("cred_1", demo_cred)] [("tok_1", "cred_1")] [("op_a", ["cred_1"])] [] [].
Proof. vm_compute. reflexivity. Qed.
Lemma demo_reachable : cred_reachable demo_hash demo_seconds DEFAULT_CONFIG demo_store.
Proof. apply rtc_once. by apply cs_issue. Qed.

Lemma credential_store_invariant_witness : om_get "tok_1" (byToken demo_store) = Some "cred_1".
Proof.
  destruct (credential_store_invariant demo_hash demo_seconds DEFAULT_CONFIG demo_store demo_reachable)
    as (_ & _ & Ht & _).
  apply (Ht "tok_1" "cred_1" demo_cred); rewrite ?demo_store_eq; reflexivity.
Defined.
Lemma concurrency_limit_witness : Z.of_nat (length (getActiveForOperator demo_store "op_a")) <= 3.
Proof.
  eapply Z.le_trans; [exact (concurrency_limit demo_hash demo_seconds DEFAULT_CONFIG demo_store "op_a"
    demo_reachable)|]. vm_compute. discriminate.
Defined.
Lemma authentication_sound_witness :
  (getCredentialByToken 59999 demo_store "tok_1").2 = Ok demo_cred ∧
  (getCredentialByToken 60000 demo_store "tok_1").2 ≠ Ok demo_cred.
Proof.
  split.
  - apply (authentication_sound demo_hash demo_seconds DEFAULT_CONFIG demo_store 59999 "tok_1" demo_cred
      demo_reachable). rewrite demo_store_eq. split_and!; [done..|]. exists 60000. by vm_compute.
  - intros Ha%(authentication_sound demo_hash demo_seconds DEFAULT_CONFIG demo_store 60000 "tok_1" demo_cred
      demo_reachable). destruct Ha as (_ & _ & _ & t & Ht & Hlt). vm_compute in Ht.
    injection Ht as <-. lia.
Defined.
(** What [cred_step] leaves out. *)
Lemma setStatus_reactivates :
  let revoked := (revokeCredential 2000 demo_store "cred_1" cr_owner_initiated).1 in
  isOk (getCredentialByToken 3000 revoked "tok_1").2 = false ∧
  isOk (getCredentialByToken 3000 (setCredentialStatus revoked "cred_1" st_active).1 "tok_1").2 = true.
Proof. rewrite demo_store_eq. by vm_compute. Qed.
Lemma issueCredential_spec_witness :
  ∃ r, (issueCredential demo_hash DEFAULT_CONFIG 5000 demo_store demo_cfg "cred_2" "tok_2" None).2 =
         Some (Ok r) ∧ r = demo_cred ∧ status r = st_active.
Proof.
  destruct (issueCredential_spec demo_hash demo_seconds DEFAULT_CONFIG 5000 demo_store demo_cfg "cred_2" "tok_2"
    None demo_reachable) as (_ & _ & Hok & _); [done|by rewrite demo_store_eq|].
  exists demo_cred. assert ((issueCredential demo_hash DEFAULT_CONFIG 5000 demo_store demo_cfg
    "cred_2" "tok_2" None).2 = Some (Ok demo_cred)) as Hi by (rewrite demo_store_eq; by vm_compute).
  split_and!; [exact Hi|done|]. by destruct (Hok _ Hi) as (_ & _ & ? & _).
Defined.
Lemma sweepExpired_spec_witness :
  (sweepExpired DEFAULT_CONFIG 60000 demo_store).2 = [apply_updates (upd_status st_expired) demo_cred].
Proof.
  destruct (sweepExpired_spec demo_hash demo_seconds DEFAULT_CONFIG 60000 demo_store demo_reachable)
    as (_ & Hs & _). rewrite Hs, demo_store_eq. vm_compute. reflexivity.
Defined.
Lemma live_operations_spec_witness :
  ∃ r, (renewCredential demo_seconds DEFAULT_CONFIG 59000 demo_store "cred_1").2 = Some (Ok r) ∧
       date_getTime (expiresAt r) = Some 119000.
Proof.
  destruct (live_operations_spec demo_hash demo_seconds DEFAULT_CONFIG 59000 demo_store "cred_1" demo_reachable)
    as (Hiff & Hput & _).
  exists (apply_updates (upd_expiresAt "1970-01-01T00:01:59.000Z") demo_cred).
  assert ((renewCredential demo_seconds DEFAULT_CONFIG 59000 demo_store "cred_1").2 =
    Some (Ok (apply_updates (upd_expiresAt "1970-01-01T00:01:59.000Z") demo_cred))) as Hr.
  { apply Hiff. exists demo_cred. rewrite demo_store_eq. split_and!; [done..| |].
    - exists 60000. by vm_compute.
    - eexists. by vm_compute. }
  split; [exact Hr|]. destruct (Hput _ Hr) as [_ (x & Hx & Ht)].
  rewrite demo_store_eq in Hx. cbn in Hx. by injection Hx as <-.
Defined.

(** An expired credential stays active until a lookup by token or a sweep:
    renewal and issuance in between still treat it as live. *)
Lemma expired_credential_renewed :
  past_expiry 90000 demo_cred = true ∧
  (∃ r, (renewCredential demo_seconds DEFAULT_CONFIG 90000 demo_store "cred_1").2 = Some (Ok r) ∧
        past_expiry 90000 r = false) ∧
  (issueCredential demo_hash DEFAULT_CONFIG 90000 demo_store demo_cfg "cred_2" "tok_2" None).2 =
    Some (Ok demo_cred).
Proof.
  rewrite demo_store_eq. split_and!; [vm_compute; reflexivity| |vm_compute; reflexivity].
  exists (apply_updates (upd_expiresAt "1970-01-01T00:02:30.000Z") demo_cred).
  split; vm_compute; reflexivity.
Qed.
