(* ===== verification/Registries.v ===== *)
(** * Operator, policy and pending-action registries

    [sessions/src/operator-manager.ts], [policy-manager.ts],
    [pending-actions.ts] and the label resolution of [operator-actions.ts]
    and [policy-actions.ts].  The stores are JavaScript [Map]s (insertion
    order); fresh identifiers and the clock are arguments; [zodIssue] is the
    field and message zod reports for an invalid value. *)
From S2P Require Import Prelude JsDate Json Errors Ids Scopes Policy Reveal Seals Credentials.

(** ** Operators *)
Inductive OperatorRole := role_operator | role_admin | role_superadmin.
#[export] Instance OperatorRole_eq_dec : EqDecision OperatorRole.
Proof. solve_decision. Defined.
Inductive OperatorStatus := op_active | op_suspended | op_removed.
#[export] Instance OperatorStatus_eq_dec : EqDecision OperatorStatus.
Proof. solve_decision. Defined.
Inductive WalletProvider := wallet_internal | wallet_ows.
Record OperatorConfigType := {
  oc_label : string; oc_role : OperatorRole; oc_scopeMode : ScopeMode;
  oc_provider : WalletProvider; oc_walletId : option string;
  oc_inboxIds : option (list string); oc_operatorDisclosures : option OperatorDisclosures
}.
(** The schema, beyond what the types already give. *)
Definition OperatorConfig (c : OperatorConfigType) : bool :=
  negb (bool_decide (oc_label c = "")) &&
  forallb (resourceIdSchema (RESOURCE_PREFIXES rt_inbox)) (default [] (oc_inboxIds c)).
(** [Partial<OperatorConfigType>]; an absent property is [None].  A caller
    passes an explicit [undefined] for [inboxIds]: [Some None]. *)
Record OperatorChanges := {
  och_label : option string; och_role : option OperatorRole; och_scopeMode : option ScopeMode;
  och_provider : option WalletProvider; och_walletId : option string;
  och_inboxIds : option (option (list string)); och_operatorDisclosures : option OperatorDisclosures
}.
Definition or_else {A} (o d : option A) : option A := match o with Some x => Some x | None => d end.
Definition merge_operator (c : OperatorConfigType) (ch : OperatorChanges) : OperatorConfigType :=
  {| oc_label := default (oc_label c) (och_label ch);
     oc_role := default (oc_role c) (och_role ch);
     oc_scopeMode := default (oc_scopeMode c) (och_scopeMode ch);
     oc_provider := default (oc_provider c) (och_provider ch);
     oc_walletId := or_else (och_walletId ch) (oc_walletId c);
     oc_inboxIds := default (oc_inboxIds c) (och_inboxIds ch);
     oc_operatorDisclosures := or_else (och_operatorDisclosures ch) (oc_operatorDisclosures c) |}.
Record OperatorRecordType := {
  or_id : string; or_config : OperatorConfigType; or_createdAt : string;
  or_createdBy : string; or_status : OperatorStatus
}.
Abbreviation OperatorStore := (omap string OperatorRecordType).

Section operators.
Context (zodIssue : OperatorConfigType → string * string).
Definition op_validateConfig (c : OperatorConfigType) : option SignetError :=
  if OperatorConfig c then None
  else Some (ValidationError_create (zodIssue c).1 (zodIssue c).2 None).

Definition op_create (st : OperatorStore) (config : OperatorConfigType) (id nowISO : string)
  : OperatorStore * result SignetError OperatorRecordType :=
  match op_validateConfig config with
  | Some e => (st, Err e)
  | None =>
      if bool_decide (oc_role config = role_superadmin) then
        (st, Err (PermissionError_create
           "Cannot create operator with superadmin role without owner authorization"
           (Some [("role", JStr "superadmin")])))
      else
        let r := {| or_id := id; or_config := config; or_createdAt := nowISO;
                    or_createdBy := "owner"; or_status := op_active |} in
        (om_set id r st, Ok r)
  end.
Definition op_list (st : OperatorStore) : list OperatorRecordType :=
  filter (λ r, or_status r ≠ op_removed) st.*2.
Definition op_lookup (st : OperatorStore) (id : string) : result SignetError OperatorRecordType :=
  match om_get id st with
  | None => Err (NotFoundError_create "operator" id)
  | Some r => Ok r
  end.
Definition with_config (r : OperatorRecordType) (c : OperatorConfigType) : OperatorRecordType :=
  {| or_id := or_id r; or_config := c; or_createdAt := or_createdAt r;
     or_createdBy := or_createdBy r; or_status := or_status r |}.
Definition with_status (r : OperatorRecordType) (s : OperatorStatus) : OperatorRecordType :=
  {| or_id := or_id r; or_config := or_config r; or_createdAt := or_createdAt r;
     or_createdBy := or_createdBy r; or_status := s |}.
Definition op_update (st : OperatorStore) (id : string) (ch : OperatorChanges)
  : OperatorStore * result SignetError OperatorRecordType :=
  match om_get id st with
  | None => (st, Err (NotFoundError_create "operator" id))
  | Some existing =>
      if bool_decide (och_role ch = Some role_superadmin) then
        (st, Err (PermissionError_create "Cannot escalate operator role to superadmin"
           (Some [("operatorId", JStr id); ("requestedRole", JStr "superadmin")])))
      else
        let merged := merge_operator (or_config existing) ch in
        match op_validateConfig merged with
        | Some e => (st, Err e)
        | None =>
            let updated := with_config existing merged in
            (om_set id updated st, Ok updated)
        end
  end.

(** [remove]: the part before and the part after [await revokeCredentials];
    [existing] is the record read before the await. *)
Definition op_remove_begin (st : OperatorStore) (id : string)
  : result SignetError OperatorRecordType := op_lookup st id.
Definition op_remove_commit (st : OperatorStore) (existing : OperatorRecordType) (id : string)
  : OperatorStore := om_set id (with_status existing op_removed) st.
(** The whole handler; [revokeCredentials] is the hook over some other
    state [S], if there is one. *)
Definition op_remove {S} (revokeCredentials :
    option (S → string → CredentialRevocationReason → S * result SignetError unit))
  (st : OperatorStore) (s : S) (id : string) : OperatorStore * S * result SignetError unit :=
  match op_remove_begin st id with
  | Err e => (st, s, Err e)
  | Ok existing =>
      match match revokeCredentials with
            | Some f => f s id cr_owner_initiated
            | None => (s, Ok tt)
            end with
      | (s, Err e) => (st, s, Err e)
      | (s, Ok _) => (op_remove_commit st existing id, s, Ok tt)
      end
  end.
End operators.

(** The hook of the production wiring ([cli/src/start.ts]). *)
Definition revoke_operator_credentials `{JsDate} (now : Z) (st : CredState) (op : string)
  (reason : CredentialRevocationReason) : CredState * result SignetError unit :=
  ((revokeAllCredentials now st op reason).1, Ok tt).

(** [resolveOperatorId]: an identifier, or a label that is unique among the
    operators not removed. *)
Definition resolveOperatorId (st : OperatorStore) (idOrLabel : string) : result SignetError string :=
  if startsWith "op_" idOrLabel then
    if negb (resourceIdSchema "op_" idOrLabel) then
      Err (ValidationError_create "operatorId" ("Invalid operator ID format: " +:+ idOrLabel) None)
    else Ok idOrLabel
  else
    match filter (λ op, oc_label (or_config op) = idOrLabel) (op_list st) with
    | [] => Err (NotFoundError_create "operator" idOrLabel)
    | [op] => Ok (or_id op)
    | ops => Err (ValidationError_create "operatorId" "Ambiguous operator label"
               (Some [("label", JStr idOrLabel);
                      ("matchingIds", JArr (map (λ op, JStr (or_id op)) ops))]))
    end.

(** ** Policies *)
Record PolicyChanges := {
  pch_label : option string; pch_allow : option (list PermissionScope);
  pch_deny : option (list PermissionScope)
}.
Definition merge_policy (c : PolicyConfigType) (ch : PolicyChanges) : PolicyConfigType :=
  {| label := default (label c) (pch_label ch);
     policy_allow := default (policy_allow c) (pch_allow ch);
     policy_deny := default (policy_deny c) (pch_deny ch) |}.
Abbreviation PolicyStore := (omap string PolicyRecordType).

Section policies.
Context (zodIssue : PolicyConfigType → string * string).
Definition pol_validateConfig (c : PolicyConfigType) : option SignetError :=
  if PolicyConfig c then None
  else Some (ValidationError_create (zodIssue c).1 (zodIssue c).2 None).
Definition pol_create (st : PolicyStore) (config : PolicyConfigType) (id nowISO : string)
  : PolicyStore * result SignetError PolicyRecordType :=
  match pol_validateConfig config with
  | Some e => (st, Err e)
  | None =>
      let r := {| policy_id := id; policy_config := config;
                  policy_createdAt := nowISO; policy_updatedAt := nowISO |} in
      (om_set id r st, Ok r)
  end.
Definition pol_list (st : PolicyStore) : list PolicyRecordType := st.*2.
Definition pol_lookup (st : PolicyStore) (id : string) : result SignetError PolicyRecordType :=
  match om_get id st with
  | None => Err (NotFoundError_create "policy" id)
  | Some r => Ok r
  end.
Definition pol_update (st : PolicyStore) (id : string) (ch : PolicyChanges) (nowISO : string)
  : PolicyStore * result SignetError PolicyRecordType :=
  match om_get id st with
  | None => (st, Err (NotFoundError_create "policy" id))
  | Some existing =>
      let merged := merge_policy (policy_config existing) ch in
      match pol_validateConfig merged with
      | Some e => (st, Err e)
      | None =>
          let updated := {| policy_id := policy_id existing; policy_config := merged;
                            policy_createdAt := policy_createdAt existing;
                            policy_updatedAt := nowISO |} in
          (om_set id updated st, Ok updated)
      end
  end.
Definition pol_remove (st : PolicyStore) (id : string) : PolicyStore * result SignetError unit :=
  match om_get id st with
  | None => (st, Err (NotFoundError_create "policy" id))
  | Some _ => (om_delete id st, Ok tt)
  end.
End policies.

(** [resolvePolicyId]. *)
Definition resolvePolicyId (st : PolicyStore) (idOrLabel : string) : result SignetError string :=
  if startsWith "policy_" idOrLabel then
    if negb (resourceIdSchema "policy_" idOrLabel) then
      Err (ValidationError_create "policyId" ("Invalid policy ID format: " +:+ idOrLabel) None)
    else Ok idOrLabel
  else
    match filter (λ p, label (policy_config p) = idOrLabel) (pol_list st) with
    | [] => Err (NotFoundError_create "policy" idOrLabel)
    | [p] => Ok (policy_id p)
    | ps => Err (ValidationError_create "policyId" "Ambiguous policy label"
              (Some [("label", JStr idOrLabel);
                     ("matchingIds", JArr (map (λ p, JStr (policy_id p)) ps))]))
    end.

(** ** Pending actions *)
Record PendingAction := {
  pa_actionId : string; pa_credentialId : string; pa_actionType : string;
  pa_payload : json; pa_createdAt : string; pa_expiresAt : string
}.
Abbreviation PendingStore := (omap string PendingAction).
Section pending.
Context `{JsDate}.
Definition removeAndReturn (st : PendingStore) (id : string) : PendingStore * option PendingAction :=
  match om_get id st with
  | None => (st, None)
  | Some a => (om_delete id st, Some a)
  end.
Definition pa_add (st : PendingStore) (a : PendingAction) : PendingStore :=
  om_set (pa_actionId a) a st.
Definition pa_get (st : PendingStore) (id : string) : option PendingAction := om_get id st.
Definition pa_confirm := removeAndReturn.
Definition pa_deny := removeAndReturn.
Definition pa_expired (nowMs : Z) (a : PendingAction) : bool :=
  num_leb (date_getTime (pa_expiresAt a)) (Some nowMs).
(** The loop over the entries, which deletes the entry it is at. *)
Definition pa_expireStale (st : PendingStore) (nowMs : Z) : PendingStore * list PendingAction :=
  foldl (λ '(acts, expired) '(id, a),
    if pa_expired nowMs a then (om_delete id acts, expired ++ [a]) else (acts, expired))
    (st, []) st.
Definition pa_listByCredential (st : PendingStore) (cid : string) : list PendingAction :=
  filter (λ a, pa_credentialId a = cid) st.*2.
End pending.

(** ** Operator registry: invariant and specification *)
Section operator_spec.
Context (zodIssue : OperatorConfigType → string * string).

(** Every change of the store; a removal can commit a record it read
    earlier in the same life of the store. *)
Inductive op_step (st : OperatorStore) : OperatorStore → Prop :=
  | os_create config id now :
      om_get id st = None → op_step st (op_create zodIssue st config id now).1
  | os_update id ch : op_step st (op_update zodIssue st id ch).1
  | os_remove id r : op_remove_begin st id = Ok r → op_step st (op_remove_commit st r id).
Definition op_reachable : OperatorStore → Prop := rtc op_step [].

Definition op_ok (id : string) (r : OperatorRecordType) : Prop :=
  or_id r = id ∧ oc_role (or_config r) ≠ role_superadmin ∧ OperatorConfig (or_config r) = true ∧
  or_createdBy r = "owner" ∧ or_status r ≠ op_suspended.
Definition op_inv (st : OperatorStore) : Prop :=
  NoDup st.*1 ∧ ∀ id r, om_get id st = Some r → op_ok id r.
Lemma op_set_inv st id r : op_inv st → op_ok id r → op_inv (om_set id r st).
Proof.
  intros [Hnd Hid] Hr. split; [by apply om_set_NoDup|]. intros id' r'. rewrite om_get_set.
  case_decide; [intros [= <-]; by subst|apply Hid].
Qed.
Lemma op_validate_ok c : op_validateConfig zodIssue c = None ↔ OperatorConfig c = true.
Proof. unfold op_validateConfig. by destruct (OperatorConfig c). Qed.
Lemma op_step_inv st st' : op_step st st' → op_inv st → op_inv st'.
Proof.
  intros [config id now Hf|id ch|id r Hr] Hinv.
  - unfold op_create. destruct (op_validateConfig _ _) eqn:Hv; [done|].
    apply op_validate_ok in Hv. case_bool_decide; [done|]. apply op_set_inv; [done|].
    unfold op_ok. cbn. done.
  - unfold op_update. destruct (om_get id st) as [r|] eqn:Hr; [|done].
    case_bool_decide as Hc; [done|]. destruct (op_validateConfig _ _) eqn:Hv; [done|].
    apply op_validate_ok in Hv. apply op_set_inv; [done|].
    destruct Hinv as [_ Hid]. destruct (Hid _ _ Hr) as (H1 & H2 & _ & H4 & H5).
    unfold op_ok. cbn. split_and!; [done| |done|done|done].
    destruct (och_role ch) as [ro|]; cbn; [congruence|done].
  - unfold op_remove_commit. apply op_set_inv; [done|].
    unfold op_remove_begin, op_lookup in Hr. destruct (om_get id st) as [r'|] eqn:Hr'; [|done].
    injection Hr as <-. destruct Hinv as [_ Hid]. destruct (Hid _ _ Hr') as (H1 & H2 & H3 & H4 & H5).
    unfold op_ok. cbn. done.
Qed.
Lemma op_reachable_inv st : op_reachable st → op_inv st.
Proof.
  assert (op_inv []) as H0 by (split; [constructor|done]).
  intros Hr. unfold op_reachable in Hr. revert H0.
  induction Hr as [|s s' ? Hs _ IH]; [done|]. intros. apply IH. by eapply op_step_inv.
Qed.
Lemma op_step_removed st st' id r :
  op_step st st' → om_get id st = Some r → or_status r = op_removed →
  ∃ r', om_get id st' = Some r' ∧ or_status r' = op_removed.
Proof.
  intros Hs Hr Hrm. destruct Hs as [config id' now Hf|id' ch|id' x Hx].
  - unfold op_create. destruct (op_validateConfig _ _); [eauto|]. case_bool_decide; [eauto|].
    cbn [fst]. rewrite om_get_set_ne; [eauto|congruence].
  - unfold op_update. destruct (om_get id' st) as [x|] eqn:Hx; [|eauto].
    case_bool_decide; [eauto|]. destruct (op_validateConfig _ _); [eauto|]. cbn [fst].
    rewrite om_get_set. case_decide as Hd; [|eauto]. subst. eexists. split; [done|].
    cbn. congruence.
  - unfold op_remove_commit. rewrite om_get_set. case_decide as Hd; [|eauto].
    eexists. split; [done|done].
Qed.
End operator_spec.

(** ** Label resolution *)
Lemma label_match_spec {A} (P : A → Prop) `{∀ x, Decision (P x)} (l : list A) x :
  filter P l = [x] ↔ ∃ l1 l2, l = l1 ++ x :: l2 ∧ P x ∧ ∀ y, y ∈ l1 ++ l2 → ¬ P y.
Proof.
  assert (∀ l, filter P l = [] ↔ ∀ y, y ∈ l → ¬ P y) as Hnil.
  { clear. induction l as [|y l IH]; [split; [by intros _ ? ?%not_elem_of_nil|done]|].
    rewrite filter_cons. case_decide; [split; [done|]|].
    - intros Hy. by destruct (Hy y (list_elem_of_here _ _)).
    - rewrite IH. setoid_rewrite elem_of_cons. naive_solver. }
  split.
  - induction l as [|y l IH]; [done|]. rewrite filter_cons. case_decide as Hy.
    + intros [= -> Hl]. exists [], l. split_and!; [done..|]. by apply Hnil.
    + intros Hl. destruct (IH Hl) as (l1 & l2 & -> & Hx & Hne). exists (y :: l1), l2.
      split_and!; [done..|]. cbn. intros z [->|Hz]%elem_of_cons; [done|by apply Hne].
  - intros (l1 & l2 & -> & Hx & Hne). rewrite filter_app, filter_cons, decide_True by done.
    rewrite (proj2 (Hnil l1)), (proj2 (Hnil l2)); [done|..];
      intros y Hy; apply Hne, elem_of_app; auto.
Qed.
(** The value that is alone in carrying a label. *)
Definition the_only {A} (lbl : A → string) (s : string) (l : list A) (x : A) : Prop :=
  ∃ l1 l2, l = l1 ++ x :: l2 ∧ lbl x = s ∧ ∀ y, y ∈ l1 ++ l2 → lbl y ≠ s.
Lemma the_only_spec {A} (lbl : A → string) s l x :
  the_only lbl s l x ↔ filter (λ x, lbl x = s) l = [x].
Proof. unfold the_only. by rewrite (label_match_spec (λ x, lbl x = s)). Qed.
(** A resolution that matches on the filtered list. *)
Lemma resolve_by_label {A} (lbl idf : A → string) s l id e1 e2 :
  match filter (λ x, lbl x = s) l with
  | [] => Err e1 | [x] => Ok (idf x) | xs => Err (e2 xs)
  end = @Ok SignetError string id ↔ ∃ x, the_only lbl s l x ∧ idf x = id.
Proof.
  setoid_rewrite the_only_spec. destruct (filter _ l) as [|x [|y k]].
  - split; [done|by intros (? & ? & _)].
  - split; [intros [= <-]; eauto|by intros (? & [= <-] & <-)].
  - split; [done|by intros (? & ? & _)].
Qed.
Lemma resolveOperatorId_ok st s id :
  resolveOperatorId st s = Ok id ↔
  if startsWith "op_" s then resourceIdSchema "op_" s = true ∧ id = s
  else ∃ r, the_only (λ r, oc_label (or_config r)) s (op_list st) r ∧ or_id r = id.
Proof.
  unfold resolveOperatorId. destruct (startsWith "op_" s).
  2: { exact (resolve_by_label (λ r, oc_label (or_config r)) or_id s _ id _
         (λ ops, ValidationError_create "operatorId" "Ambiguous operator label"
            (Some [("label", JStr s); ("matchingIds", JArr (map (λ op, JStr (or_id op)) ops))]))). }
  destruct (resourceIdSchema "op_" s); naive_solver.
Qed.
Lemma resolvePolicyId_ok st s id :
  resolvePolicyId st s = Ok id ↔
  if startsWith "policy_" s then resourceIdSchema "policy_" s = true ∧ id = s
  else ∃ p, the_only (λ p, label (policy_config p)) s (pol_list st) p ∧ policy_id p = id.
Proof.
  unfold resolvePolicyId. destruct (startsWith "policy_" s).
  2: { exact (resolve_by_label (λ p, label (policy_config p)) policy_id s _ id _
         (λ ps, ValidationError_create "policyId" "Ambiguous policy label"
            (Some [("label", JStr s); ("matchingIds", JArr (map (λ p, JStr (policy_id p)) ps))]))). }
  destruct (resourceIdSchema "policy_" s); naive_solver.
Qed.

(** the operator registry: whatever is created, updated and removed, in
    any interleaving of removals, no stored operator is ever a superadmin,
    every stored configuration is valid and stored under its own id, and a
    removed operator stays removed and is never listed again; an identifier
    or label resolves to an operator exactly when it is a well-formed
    identifier, or the label of exactly one listed operator. *)
Theorem operator_registry_spec zodIssue st st' :
  op_reachable zodIssue st → rtc (op_step zodIssue) st st' →
  (∀ id r, om_get id st = Some r →
    or_id r = id ∧ oc_role (or_config r) ≠ role_superadmin ∧
    OperatorConfig (or_config r) = true ∧ or_createdBy r = "owner") ∧
  (∀ id r, om_get id st = Some r → or_status r = op_removed →
    is_Some (om_get id st') ∧ ∀ r', r' ∈ op_list st' → or_id r' ≠ id) ∧
  (∀ s id, resolveOperatorId st s = Ok id ↔
    if startsWith "op_" s then resourceIdSchema "op_" s = true ∧ id = s
    else ∃ r, the_only (λ r, oc_label (or_config r)) s (op_list st) r ∧ or_id r = id).
Proof.
  intros Hr Hsteps. pose proof (op_reachable_inv _ _ Hr) as [_ Hinv]. split_and!.
  - intros id r Hg. destruct (Hinv _ _ Hg) as (?&?&?&?&_). done.
  - intros id r Hg Hs. assert (op_reachable zodIssue st') as Hr' by (unfold op_reachable in *; by etrans).
    pose proof (op_reachable_inv _ _ Hr') as [Hnd Hinv'].
    assert (∃ r', om_get id st' = Some r' ∧ or_status r' = op_removed) as (r1 & Hg1 & Hs1).
    { clear -Hsteps Hg Hs. revert r Hg Hs. induction Hsteps as [|a b ? Hs _ IH]; [eauto|].
      intros r Hg Hrm. destruct (op_step_removed _ _ _ _ _ Hs Hg Hrm) as (r' & ? & ?). eauto. }
    split; [done|]. intros r' Hin. unfold op_list in Hin.
    apply list_elem_of_filter in Hin as [Hne Hin]. apply list_elem_of_fmap in Hin as ([k v] & -> & Hin).
    apply om_get_NoDup in Hin; [|done]. cbn in *. destruct (Hinv' _ _ Hin) as (-> & _).
    intros ->. congruence.
  - intros. apply resolveOperatorId_ok.
Qed.

(** ** Removal of an operator and its credentials *)
Section removal.
Context `{JsDate} (computeHash : ScopeSetType → list string → string).
Abbreviation inv := (cred_inv computeHash).
Lemma revokeAll_fold now reason l st acc :
  NoDup (map credentialId l) →
  (∀ r, r ∈ l → om_get (credentialId r) (byId st) = Some r) →
  let x := foldl (λ '(st, revoked) cred,
    match revokeRecord now st (credentialId cred) reason with
    | (st, Ok r) => (st, revoked ++ [r])
    | (st, Err _) => (st, revoked)
    end) (st, acc) l in
  (∀ r, r ∈ l → om_get (credentialId r) (byId x.1) =
    Some (apply_updates (upd_revoke (nowISO now) reason) r)) ∧
  (∀ cid, cid ∉ map credentialId l → om_get cid (byId x.1) = om_get cid (byId st)).
Proof.
  revert st acc. induction l as [|r l IH]; intros st acc Hnd Hl; cbn [foldl].
  { split; [by intros ? ?%not_elem_of_nil|done]. }
  cbn [map] in Hnd. apply NoDup_cons in Hnd as [Hr Hnd].
  pose proof (revokeRecord_spec computeHash now st (credentialId r) reason) as [_ Hrv].
  rewrite (Hl r) in Hrv by left. destruct Hrv as [Hok Hb].
  destruct (revokeRecord now st (credentialId r) reason) as [st1 res]. cbn [fst snd] in *. subst res.
  destruct (IH st1 (acc ++ [apply_updates (upd_revoke (nowISO now) reason) r])) as [IH1 IH2]; [done| |].
  { intros y Hy. rewrite Hb, om_get_set_ne; [apply Hl; by right|].
    intros He. apply Hr. rewrite He. apply list_elem_of_fmap. eauto. }
  split.
  - intros y [->|Hy]%elem_of_cons; [|by apply IH1]. rewrite IH2 by done.
    by rewrite Hb, om_get_set_eq.
  - intros cid Hc. cbn [map] in Hc. apply not_elem_of_cons in Hc as [Hne Hc].
    rewrite IH2 by done. by rewrite Hb, om_get_set_ne by congruence.
Qed.
Lemma getActive_NoDup st op : inv st → NoDup (map credentialId (getActiveForOperator st op)).
Proof.
  intros Hinv. rewrite getActive_eq. destruct (om_get op (byOperator st)) as [ids|] eqn:Hi;
    [|constructor]. destruct (ci_op _ _ Hinv _ _ Hi) as [Hnd _]. cbn [from_option id]. clear Hi.
  assert (∀ c, c ∈ map credentialId (flat_map (active_of st) ids) → c ∈ ids) as Hsub.
  { intros c (r & -> & Hr)%list_elem_of_fmap. apply list_elem_of_In, in_flat_map in Hr as (i & Hi & Hr).
    apply list_elem_of_In, active_of_elem in Hr as [Hr _].
    destruct (ci_id _ _ Hinv _ _ Hr) as (-> & _). by apply list_elem_of_In. }
  induction ids as [|i ids IH]; [constructor|]. apply NoDup_cons in Hnd as [Hi Hnd].
  cbn [flat_map]. rewrite map_app. apply NoDup_app. split_and!.
  - unfold active_of. destruct (om_get i (byId st)); [case_decide|]; cbn;
      [apply NoDup_singleton|constructor|constructor].
  - intros c Hc Hc'. assert (c = i) as ->.
    { apply list_elem_of_fmap in Hc as (r & -> & Hr). apply active_of_elem in Hr as [Hr _].
      by destruct (ci_id _ _ Hinv _ _ Hr) as (-> & _). }
    apply Hi. clear -Hc' Hinv. apply list_elem_of_fmap in Hc' as (r & -> & Hr).
    apply list_elem_of_In, in_flat_map in Hr as (j & Hj & Hr).
    apply list_elem_of_In, active_of_elem in Hr as [Hr _].
    destruct (ci_id _ _ Hinv _ _ Hr) as (-> & _). by apply list_elem_of_In.
  - apply IH; [done|]. intros c (r & -> & Hr)%list_elem_of_fmap.
    apply list_elem_of_In, in_flat_map in Hr as (j & Hj & Hr).
    apply list_elem_of_In, active_of_elem in Hr as [Hr _].
    destruct (ci_id _ _ Hinv _ _ Hr) as (-> & _). by apply list_elem_of_In.
Qed.
Lemma revokeAll_spec now st op reason :
  inv st → let st' := (revokeAllCredentials now st op reason).1 in
  (∀ cid r, om_get cid (byId st) = Some r → om_get cid (byId st') = Some
    (if decide (operatorId r = op ∧ status r = st_active)
     then apply_updates (upd_revoke (nowISO now) reason) r else r)) ∧
  getActiveForOperator st' op = [].
Proof.
  intros Hinv st'. unfold st'. clear st'.
  destruct (revokeAll_fold now reason (getActiveForOperator st op) st []) as [H1 H2].
  { by apply getActive_NoDup. }
  { intros r Hr. apply (getActive_elem computeHash) in Hr; [|done]. tauto. }
  fold (revokeAllCredentials now st op reason) in H1, H2.
  assert (∀ cid r, om_get cid (byId st) = Some r →
    om_get cid (byId (revokeAllCredentials now st op reason).1) = Some
    (if decide (operatorId r = op ∧ status r = st_active)
     then apply_updates (upd_revoke (nowISO now) reason) r else r)) as Hall.
  { intros cid r Hr. destruct (ci_id _ _ Hinv _ _ Hr) as (Hid & _). case_decide as Hd.
    - subst cid. apply H1. apply (getActive_elem computeHash); [done|]. tauto.
    - rewrite H2; [done|]. intros (x & -> & Hx)%list_elem_of_fmap.
      apply (getActive_elem computeHash) in Hx; [|done]. destruct Hx as (Hx & Ho & Hs).
      simplify_eq. by apply Hd. }
  split; [done|]. assert (evolves computeHash st (revokeAllCredentials now st op reason).1) as He.
  { unfold revokeAllCredentials. apply (foldl_evolves _ _ _ (st, [])).
    intros [s0 l] x. pose proof (revokeRecord_spec computeHash now s0 (credentialId x) reason) as [He _].
    by destruct (revokeRecord _ _ _ _) as [? []]. }
  pose proof (evolves_inv _ _ _ He Hinv) as Hinv'.
  destruct (getActiveForOperator (revokeAllCredentials now st op reason).1 op) as [|r l] eqn:Hg;
    [reflexivity|].
  assert (r ∈ getActiveForOperator (revokeAllCredentials now st op reason).1 op) as Hin
    by (rewrite Hg; left).
  apply (getActive_elem computeHash) in Hin; [|done]. destruct Hin as (Hr & Ho & Hs).
  destruct (evolves_get_inv _ _ _ _ _ He Hr) as (r0 & Hr0 & _ & _ & Ho0 & _).
  specialize (Hall _ _ Hr0). rewrite Hr in Hall. injection Hall as ->. case_decide as Hd; [done|].
  exfalso. apply Hd. split; [congruence|done].
Qed.
End removal.

(** removing an operator also ends its credentials: with the production
    wiring a removal fails exactly on an unknown operator and then changes
    nothing; otherwise the operator is removed, every other operator is kept,
    every active credential of the operator is revoked as owner-initiated,
    no active credential of it is left, and every other credential is
    unchanged.  A revocation hook that fails aborts the removal. *)
Theorem operator_removal_spec `{JsDate} computeHash seconds config now ops creds id :
  cred_reachable computeHash seconds config creds →
  let x := op_remove (Some (revoke_operator_credentials now)) ops creds id in
  (isOk x.2 = bool_decide (is_Some (om_get id ops))) ∧
  (isOk x.2 = false → x.1 = (ops, creds)) ∧
  (∀ r, om_get id ops = Some r →
    om_get id x.1.1 = Some (with_status r op_removed) ∧
    (∀ id', id' ≠ id → om_get id' x.1.1 = om_get id' ops) ∧
    (∀ cid c, om_get cid (byId creds) = Some c → om_get cid (byId x.1.2) = Some
      (if decide (operatorId c = id ∧ status c = st_active)
       then apply_updates (upd_revoke (nowISO now) cr_owner_initiated) c else c)) ∧
    getActiveForOperator x.1.2 id = []) ∧
  (∀ hook e, (hook creds id cr_owner_initiated).2 = Err e →
    is_Some (om_get id ops) →
    let y := op_remove (Some hook) ops creds id in y.1.1 = ops ∧ y.2 = Err e).
Proof.
  intros Hr. assert (cred_inv computeHash creds) as Hinv.
  { unfold cred_reachable in Hr. pose proof (cred_inv_init computeHash) as H0. revert H0.
    induction Hr as [|s s' ? Hs _ IH]; [done|]. intros. apply IH. by eapply step_inv. }
  unfold op_remove, op_remove_begin, op_lookup, revoke_operator_credentials.
  destruct (om_get id ops) as [r|] eqn:Hg; cbn [fst snd isOk].
  2: { split_and!; [done|done|done|]. intros hook e _ [? ?]. done. }
  split_and!; [done|done| |].
  - intros r' [= <-]. unfold op_remove_commit.
    destruct (revokeAll_spec computeHash now creds id cr_owner_initiated Hinv) as [Hall Hnil].
    split_and!; [by rewrite om_get_set_eq| |done|done].
    intros. by rewrite om_get_set_ne.
  - intros hook e He _. destruct (hook creds id cr_owner_initiated) as [s res]. cbn in He. by subst res.
Qed.

(** While a removal waits for the revocation hook, an update of the same
    operator succeeds and is then lost: [remove] commits the record it read
    before the wait. *)
Lemma remove_loses_update :
  let cfg l := {| oc_label := l; oc_role := role_operator; oc_scopeMode := per_chat;
    oc_provider := wallet_internal; oc_walletId := None; oc_inboxIds := None;
    oc_operatorDisclosures := None |} in
  let z := λ _ : OperatorConfigType, ("", "") in
  let ops0 := (op_create z [] (cfg "old") "op_1" "t0").1 in
  let ch := {| och_label := Some "new"; och_role := None; och_scopeMode := None;
    och_provider := None; och_walletId := None; och_inboxIds := None;
    och_operatorDisclosures := None |} in
  ∃ r ops1 r1, op_remove_begin ops0 "op_1" = Ok r ∧
    op_update z ops0 "op_1" ch = (ops1, Ok r1) ∧ oc_label (or_config r1) = "new" ∧
    (oc_label ∘ or_config) <$> om_get "op_1" (op_remove_commit ops1 r "op_1") = Some "old".
Proof. vm_compute. do 3 eexists. split_and!; reflexivity. Qed.

(** ** Policy registry *)
Section policy_spec.
Context (zodIssue : PolicyConfigType → string * string).
Inductive pol_step (st : PolicyStore) : PolicyStore → Prop :=
  | ps_create config id now :
      om_get id st = None → pol_step st (pol_create zodIssue st config id now).1
  | ps_update id ch now : pol_step st (pol_update zodIssue st id ch now).1
  | ps_remove id : pol_step st (pol_remove st id).1.
Definition pol_inv (st : PolicyStore) : Prop :=
  NoDup st.*1 ∧ ∀ id r, om_get id st = Some r →
    policy_id r = id ∧ PolicyConfig (policy_config r) = true.
Lemma pol_validate_ok c : pol_validateConfig zodIssue c = None ↔ PolicyConfig c = true.
Proof. unfold pol_validateConfig. by destruct (PolicyConfig c). Qed.
Lemma pol_set_inv st id r :
  pol_inv st → policy_id r = id → PolicyConfig (policy_config r) = true →
  pol_inv (om_set id r st).
Proof.
  intros [Hnd Hid] H1 H2. split; [by apply om_set_NoDup|]. intros id' r'. rewrite om_get_set.
  case_decide; [intros [= <-]; by subst|apply Hid].
Qed.
Lemma pol_step_inv st st' : pol_step st st' → pol_inv st → pol_inv st'.
Proof.
  intros [config id now Hf|id ch now|id] Hinv.
  - unfold pol_create. destruct (pol_validateConfig _ _) eqn:Hv; [done|].
    apply pol_validate_ok in Hv. by apply pol_set_inv.
  - unfold pol_update. destruct (om_get id st) as [r|] eqn:Hr; [|done].
    destruct (pol_validateConfig _ _) eqn:Hv; [done|]. apply pol_validate_ok in Hv.
    apply pol_set_inv; [done| |done]. destruct Hinv as [_ Hid]. by destruct (Hid _ _ Hr).
  - unfold pol_remove. destruct (om_get id st); [|done]. destruct Hinv as [Hnd Hid].
    split; [by apply om_delete_NoDup|]. intros id' r'. cbn [fst]. rewrite om_get_delete.
    case_decide; [done|apply Hid].
Qed.
End policy_spec.

(** the policy registry: every stored policy is valid and stored under
    its own id; creation and update succeed exactly on valid configurations
    (update: of a stored policy) and on success a lookup returns exactly the
    result while every other policy is kept; an update keeps the creation
    time and, with no changes, the configuration; a removed policy is gone
    and nothing else is; and an identifier or label resolves exactly when it
    is well-formed, or the label of exactly one policy. *)
Theorem policy_registry_spec zodIssue st :
  rtc (pol_step zodIssue) [] st →
  (∀ id r, om_get id st = Some r → policy_id r = id ∧ PolicyConfig (policy_config r) = true) ∧
  (∀ c id now, let x := pol_create zodIssue st c id now in
    isOk x.2 = PolicyConfig c ∧ (isOk x.2 = false → x.1 = st) ∧
    ∀ r, x.2 = Ok r → policy_config r = c ∧ pol_lookup x.1 id = Ok r ∧
      ∀ id', id' ≠ id → pol_lookup x.1 id' = pol_lookup st id') ∧
  (∀ id ch now, let x := pol_update zodIssue st id ch now in
    (isOk x.2 = true ↔ ∃ r, om_get id st = Some r ∧
       PolicyConfig (merge_policy (policy_config r) ch) = true) ∧
    (isOk x.2 = false → x.1 = st) ∧
    ∀ r, x.2 = Ok r → pol_lookup x.1 id = Ok r ∧
      (∀ id', id' ≠ id → pol_lookup x.1 id' = pol_lookup st id') ∧
      ∃ r0, om_get id st = Some r0 ∧ policy_config r = merge_policy (policy_config r0) ch ∧
        policy_createdAt r = policy_createdAt r0 ∧
        (ch = {| pch_label := None; pch_allow := None; pch_deny := None |} →
         policy_config r = policy_config r0)) ∧
  (∀ id, let x := pol_remove st id in
    isOk x.2 = isOk (pol_lookup st id) ∧ isOk (pol_lookup x.1 id) = false ∧
    (∀ id', id' ≠ id → pol_lookup x.1 id' = pol_lookup st id')) ∧
  (∀ s id, resolvePolicyId st s = Ok id ↔
    if startsWith "policy_" s then resourceIdSchema "policy_" s = true ∧ id = s
    else ∃ p, the_only (λ p, label (policy_config p)) s (pol_list st) p ∧ policy_id p = id).
Proof.
  intros Hr. assert (pol_inv st) as [Hnd Hinv].
  { assert (pol_inv []) as H0 by (split; [constructor|done]). revert H0.
    induction Hr as [|s s' ? Hs _ IH]; [done|]. intros. apply IH. by eapply pol_step_inv. }
  split_and!; [done| | | |intros; apply resolvePolicyId_ok].
  - intros c id now. unfold pol_create, pol_validateConfig, pol_lookup.
    destruct (PolicyConfig c); cbn [fst snd isOk]; [|done]. split_and!; [done..|].
    intros r [= <-]. rewrite om_get_set_eq. split_and!; [done..|].
    intros. by rewrite om_get_set_ne.
  - intros id ch now. unfold pol_update, pol_validateConfig, pol_lookup.
    destruct (om_get id st) as [r|] eqn:Hg; cbn [fst snd isOk]; [|naive_solver].
    destruct (PolicyConfig (merge_policy (policy_config r) ch)) eqn:Hv; cbn [fst snd isOk];
      [|naive_solver]. split_and!; [naive_solver|done|].
    intros r' [= <-]. rewrite om_get_set_eq. split_and!; [done|by intros; rewrite om_get_set_ne|].
    exists r. split_and!; [done..|]. intros ->. cbn. by destruct (policy_config r).
  - intros id. unfold pol_remove, pol_lookup. destruct (om_get id st) eqn:Hg; cbn [fst snd isOk].
    + rewrite om_get_delete, decide_True by done. split_and!; [done..|].
      intros id' Hne. by rewrite om_get_delete, decide_False.
    + by rewrite Hg.
Qed.

(** ** Pending actions *)
Section pending_spec.
Context `{JsDate}.
Inductive pa_step (st : PendingStore) : PendingStore → Prop :=
  | pas_add a : pa_step st (pa_add st a)
  | pas_take id : pa_step st (removeAndReturn st id).1
  | pas_expire now : pa_step st (pa_expireStale st now).1.
Definition pa_inv (st : PendingStore) : Prop :=
  NoDup st.*1 ∧ ∀ id a, om_get id st = Some a → pa_actionId a = id.

Lemma pa_expire_fold now (l st : PendingStore) acc :
  foldl (λ '(acts, expired) '(id, a),
    if pa_expired now a then (om_delete id acts, expired ++ [a]) else (acts, expired))
    (st, acc) l =
  (foldl (λ acts '(id, a), if pa_expired now a then om_delete id acts else acts) st l,
   acc ++ filter (λ a, pa_expired now a = true) l.*2).
Proof.
  revert st acc. induction l as [|[id a] l IH]; intros st acc; cbn [foldl fmap list_fmap snd].
  { by rewrite app_nil_r. }
  rewrite filter_cons. destruct (pa_expired now a) eqn:He; rewrite IH.
  - by rewrite decide_True, <-app_assoc.
  - by rewrite decide_False.
Qed.
Lemma pa_expire_get now (l st : PendingStore) id :
  om_get id (foldl (λ acts '(id, a), if pa_expired now a then om_delete id acts else acts) st l) =
  if existsb (λ '(k, a), bool_decide (k = id) && pa_expired now a) l then None else om_get id st.
Proof.
  revert st. induction l as [|[k a] l IH]; intros st; cbn [foldl existsb]; [done|]. rewrite IH.
  destruct (existsb _ l); [by rewrite orb_true_r|]. rewrite orb_false_r.
  case_bool_decide as Hk; cbn [andb].
  - subst. destruct (pa_expired now a); [|done]. by rewrite om_get_delete, decide_True.
  - destruct (pa_expired now a); [|done]. by rewrite om_get_delete, decide_False.
Qed.
Lemma pa_expireStale_spec now st :
  NoDup st.*1 →
  (∀ id, om_get id (pa_expireStale st now).1 =
     om_get id st ≫= λ a, if pa_expired now a then None else Some a) ∧
  (pa_expireStale st now).2 = filter (λ a, pa_expired now a = true) st.*2.
Proof.
  intros Hnd. unfold pa_expireStale. rewrite pa_expire_fold. split; [|done]. intros id. cbn [fst].
  rewrite pa_expire_get. destruct (om_get id st) as [a|] eqn:Ha.
  - assert (existsb (λ '(k, a), bool_decide (k = id) && pa_expired now a) st = pa_expired now a) as ->.
    { apply eq_true_iff_eq. rewrite existsb_elem. split.
      - intros ([k b] & Hin & [Hk%bool_decide_eq_true Hb]%andb_true_iff). subst.
        apply om_get_NoDup in Hin; [|done]. congruence.
      - intros Hb. exists (id, a). split; [by apply om_get_elem|].
        by rewrite bool_decide_true, Hb. }
    cbn. by destruct (pa_expired now a).
  - by destruct (existsb _ st).
Qed.
Lemma pa_expire_NoDup now (l st : PendingStore) :
  NoDup st.*1 →
  NoDup (foldl (λ acts '(id, a), if pa_expired now a then om_delete id acts else acts) st l).*1.
Proof.
  revert st. induction l as [|[i a] l IH]; intros st Hnd; cbn [foldl]; [done|]. apply IH.
  destruct (pa_expired now a); [by apply om_delete_NoDup|done].
Qed.
Lemma pa_step_inv st st' : pa_step st st' → pa_inv st → pa_inv st'.
Proof.
  intros [a|id|now] [Hnd Hid].
  - split; [by apply om_set_NoDup|]. intros id b. unfold pa_add. rewrite om_get_set.
    case_decide; [intros [= <-]; done|apply Hid].
  - unfold removeAndReturn. destruct (om_get id st); [|done]. split; [by apply om_delete_NoDup|].
    intros id' b. cbn [fst]. rewrite om_get_delete. case_decide; [done|apply Hid].
  - split.
    + unfold pa_expireStale. rewrite pa_expire_fold. by apply pa_expire_NoDup.
    + intros id b. rewrite (proj1 (pa_expireStale_spec now st Hnd)).
      destruct (om_get id st) as [c|] eqn:Hc; [|done]. cbn. destruct (pa_expired now c); [done|].
      intros [= <-]. by apply Hid.
Qed.
End pending_spec.

(** a pending action is decided at most once: confirming and denying are
    the same removal, which returns the stored action, after which it is
    neither found nor returned again, while every other action is kept; the
    expiry sweep removes exactly the actions whose expiry is not after
    [now], returns them in order, and sweeping again returns none; and the
    actions of a credential are exactly the stored ones that carry its id. *)
Theorem pending_actions_spec `{JsDate} st id now cid a :
  rtc pa_step [] st →
  (let x := pa_confirm st id in
   pa_deny st id = x ∧ x.2 = pa_get st id ∧ pa_get x.1 id = None ∧
   (pa_confirm x.1 id).2 = None ∧ (∀ id', id' ≠ id → pa_get x.1 id' = pa_get st id')) ∧
  (let x := pa_expireStale st now in
   (∀ id', pa_get x.1 id' = pa_get st id' ≫= λ b, if pa_expired now b then None else Some b) ∧
   x.2 = filter (λ b, pa_expired now b = true) st.*2 ∧
   (pa_expireStale x.1 now).2 = []) ∧
  (a ∈ pa_listByCredential st cid ↔ pa_get st (pa_actionId a) = Some a ∧ pa_credentialId a = cid) ∧
  pa_get (pa_add st a) (pa_actionId a) = Some a.
Proof.
  intros Hr. assert (pa_inv st ∧ pa_inv (pa_expireStale st now).1) as [[Hnd Hid] [Hnd' _]].
  { assert (pa_inv []) as H0 by (split; [constructor|done]).
    assert (pa_inv st) as Hst.
    { revert H0. induction Hr as [|s s' ? Hs _ IH]; [done|]. intros. apply IH. by eapply pa_step_inv. }
    split; [done|]. eapply pa_step_inv; [apply (pas_expire st now)|done]. }
  unfold pa_get. split_and!.
  - done.
  - unfold pa_confirm, removeAndReturn. by destruct (om_get id st).
  - unfold pa_confirm, removeAndReturn. destruct (om_get id st) eqn:Hg; [|done]. cbn [fst].
    by rewrite om_get_delete, decide_True.
  - unfold pa_confirm, removeAndReturn. destruct (om_get id st) eqn:Hg; cbn [fst].
    + by rewrite om_get_delete, decide_True.
    + by rewrite Hg.
  - intros id' Hne. unfold pa_confirm, removeAndReturn. destruct (om_get id st); [|done]. cbn [fst].
    by rewrite om_get_delete, decide_False.
  - by apply pa_expireStale_spec.
  - by apply pa_expireStale_spec.
  - rewrite (proj2 (pa_expireStale_spec now _ Hnd')).
    destruct (filter _ _) as [|b l] eqn:Hf; [done|].
    assert (b ∈ filter (λ b, pa_expired now b = true) (pa_expireStale st now).1.*2) as Hb
      by (rewrite Hf; left).
    apply list_elem_of_filter in Hb as [He Hb]. apply list_elem_of_fmap in Hb as ([k v] & -> & Hb).
    apply om_get_NoDup in Hb; [|done]. rewrite (proj1 (pa_expireStale_spec now _ Hnd)) in Hb.
    cbn in *. destruct (om_get k st) as [c|]; [|done]. cbn in Hb.
    destruct (pa_expired now c) eqn:Hc; congruence.
  - unfold pa_listByCredential. rewrite list_elem_of_filter, list_elem_of_fmap. split.
    + intros (<- & [k b] & -> & Hin). apply om_get_NoDup in Hin; [|done]. cbn.
      by rewrite (Hid _ _ Hin).
    + intros [Hg <-]. split; [done|]. exists (pa_actionId a, a). split; [done|].
      by apply om_get_elem.
  - apply om_get_set_eq.
Qed.

(** ** Concrete registries *)
Definition demo_operator : OperatorConfigType :=
  {| oc_label := "alice"; oc_role := role_operator; oc_scopeMode := per_chat;
     oc_provider := wallet_internal; oc_walletId := None; oc_inboxIds := None;
     oc_operatorDisclosures := None |}.
Definition demo_issue {A} (_ : A) : string * string := ("label", "Required").
Definition demo_operators : OperatorStore := (op_create demo_issue [] demo_operator "op_a" "t0").1.
Lemma demo_operators_reachable : op_reachable demo_issue demo_operators.
Proof. apply rtc_once. by apply os_create. Qed.
Lemma operator_registry_spec_witness : resolveOperatorId demo_operators "alice" = Ok "op_a".
Proof.
  destruct (operator_registry_spec demo_issue demo_operators demo_operators
    demo_operators_reachable (rtc_refl _ _)) as (_ & _ & Hres).
  apply Hres. cbn [startsWith ascii_dec]. exists {| or_id := "op_a"; or_config := demo_operator;
    or_createdAt := "t0"; or_createdBy := "owner"; or_status := op_active |}.
  split; [|reflexivity]. exists [], []. split_and!; [reflexivity|done|].
  intros ? Hin. by apply not_elem_of_nil in Hin.
Defined.
Definition demo_creds : CredState :=
  (issueCredential (λ _ _, "h") DEFAULT_CONFIG 0 cred_init
     {| cfg_operatorId := "op_a"; cfg_chatIds := ["conv_1"]; cfg_policyId := None;
        cfg_allow := Some [send]; cfg_deny := None; cfg_ttlSeconds := Some 60 |}
     "cred_1" "tok_1" None).1.
Lemma demo_creds_reachable :
  cred_reachable (λ _ _, "h") (λ ms, JNum (ms / 1000)) DEFAULT_CONFIG demo_creds.
Proof. apply rtc_once. by apply cs_issue. Qed.
Lemma operator_removal_spec_witness :
  length (getActiveForOperator demo_creds "op_a") = 1%nat ∧
  getActiveForOperator (op_remove (Some (revoke_operator_credentials 1000)) demo_operators demo_creds
    "op_a").1.2 "op_a" = [].
Proof.
  split; [vm_compute; reflexivity|].
  destruct (operator_removal_spec (λ _ _, "h") (λ ms, JNum (ms / 1000)) DEFAULT_CONFIG 1000
    demo_operators demo_creds "op_a" demo_creds_reachable) as (_ & _ & Hrm & _).
  by destruct (Hrm _ eq_refl) as (_ & _ & _ & ?).
Defined.
Definition demo_policies : PolicyStore :=
  (pol_create demo_issue [] {| label := "readers"; policy_allow := []; policy_deny := [send] |}
     "policy_1" "t0").1.
Lemma policy_registry_spec_witness :
  isOk (pol_update demo_issue demo_policies "policy_1"
    {| pch_label := Some "writers"; pch_allow := Some [send]; pch_deny := Some [] |} "t1").2 = true.
Proof.
  destruct (policy_registry_spec demo_issue demo_policies) as (_ & _ & Hup & _).
  - apply rtc_once. by apply ps_create.
  - apply Hup. eexists. split; [reflexivity|]. reflexivity.
Defined.
Definition demo_pending : PendingStore :=
  pa_add [] {| pa_actionId := "act_1"; pa_credentialId := "cred_1"; pa_actionType := "send_message";
               pa_payload := JNull; pa_createdAt := "1970-01-01T00:00:00.000Z";
               pa_expiresAt := "1970-01-01T00:05:00.000Z" |}.
Lemma pending_actions_spec_witness :
  (pa_confirm demo_pending "act_1").2 = pa_get demo_pending "act_1" ∧
  (pa_confirm (pa_confirm demo_pending "act_1").1 "act_1").2 = None.
Proof.
  destruct (pending_actions_spec demo_pending "act_1" 0 "cred_1"
    {| pa_actionId := "act_2"; pa_credentialId := ""; pa_actionType := ""; pa_payload := JNull;
       pa_createdAt := ""; pa_expiresAt := "" |}) as ((_ & H1 & _ & H2 & _) & _).
  - apply rtc_once. apply pas_add.
  - by split.
Defined.
