(* ===== verification/CredentialService.v ===== *)
(** * The credential service and the scope-change paths

    [sessions/src/service.ts], [reveal-actions.ts], [update-actions.ts] and
    the WebSocket scope update of [cli/src/ws/request-handler.ts]: the public
    operations over the credential manager, the policy registry and the
    reveal stores.  The manager's operations are synchronous, so a handler is
    one transition except for the policy lookup, whose result is all that a
    handler uses from before the wait. *)
From S2P Require Import Prelude JsDate Json Errors Ids Scopes Policy Reveal Seals Credentials CredentialSpec Registries.

(** ** Views of a record *)
Record SchemaCredentialRecord := {
  sc_id : string; sc_operatorId : string; sc_chatIds : list string;
  sc_allow : list PermissionScope; sc_deny : list PermissionScope;
  sc_inboxIds : list string; sc_status : CredentialStatus; sc_issuedAt : string;
  sc_expiresAt : string; sc_issuedBy : string
}.
Definition toSchemaCredentialRecord (r : InternalCredentialRecord) : SchemaCredentialRecord :=
  {| sc_id := credentialId r; sc_operatorId := operatorId r; sc_chatIds := chatIds r;
     sc_allow := allow (effectiveScopes r); sc_deny := deny (effectiveScopes r);
     sc_inboxIds := []; sc_status := status r; sc_issuedAt := issuedAt r;
     sc_expiresAt := expiresAt r; sc_issuedBy := issuedBy r |}.
Record CredentialRecord := {
  cr_base : SchemaCredentialRecord; cr_credentialId : string; cr_operatorId : string;
  cr_effectiveScopes : ScopeSetType; cr_isExpired : bool; cr_lastHeartbeat : string
}.
Definition toCredentialRecord `{JsDate} (now : Z) (r : InternalCredentialRecord) : CredentialRecord :=
  {| cr_base := toSchemaCredentialRecord r; cr_credentialId := credentialId r;
     cr_operatorId := operatorId r;
     cr_effectiveScopes := {| allow := allow (effectiveScopes r); deny := deny (effectiveScopes r) |};
     cr_isExpired := bool_decide (status r = st_expired) ||
                     num_leb (date_getTime (expiresAt r)) (Some now);
     cr_lastHeartbeat := lastHeartbeat r |}.
Record IssuedCredential := { ic_token : string; ic_credential : SchemaCredentialRecord }.
Definition toIssuedCredential (r : InternalCredentialRecord) : IssuedCredential :=
  {| ic_token := token r; ic_credential := toSchemaCredentialRecord r |}.

Definition resolvePolicyScopes (policyManager : option PolicyStore) (policyId : string)
  (inlineAllow inlineDeny : option (list PermissionScope)) : result SignetError ScopeSetType :=
  match policyManager with
  | None => Err (NotFoundError_create "policy" policyId)
  | Some pm =>
      match pol_lookup pm policyId with
      | Err e => Err e
      | Ok r => Ok (resolvePolicy (policy_config r) inlineAllow inlineDeny)
      end
  end.

(** [Partial<CredentialConfigType>]. *)
Record CredentialChanges := {
  cch_operatorId : option string; cch_chatIds : option (list string);
  cch_policyId : option string; cch_allow : option (list PermissionScope);
  cch_deny : option (list PermissionScope); cch_ttlSeconds : option Z
}.

(** ** The service *)
Section service.
Context `{JsDate} (computeHash : ScopeSetType → list string → string)
        (seconds : Z → json) (config : CredentialManagerConfig).
Abbreviation swept now st := (sweepExpired config now st).1.

Definition svc_issue (now : Z) (st : CredState) (pm : option PolicyStore) (cfg : CredentialConfig)
  (credId tok : string) (issuedBy : option string)
  : CredState * option (result SignetError IssuedCredential) :=
  let st := swept now st in
  match match cfg_policyId cfg with
        | None => Ok cfg
        | Some p =>
            match resolvePolicyScopes pm p (cfg_allow cfg) (cfg_deny cfg) with
            | Err e => Err e
            | Ok ss => Ok {| cfg_operatorId := cfg_operatorId cfg; cfg_chatIds := cfg_chatIds cfg;
                             cfg_policyId := cfg_policyId cfg; cfg_allow := Some (allow ss);
                             cfg_deny := Some (deny ss); cfg_ttlSeconds := cfg_ttlSeconds cfg |}
            end
        end with
  | Err e => (st, Some (Err e))
  | Ok resolvedConfig =>
      match issueCredential computeHash config now st resolvedConfig credId tok issuedBy with
      | (st, None) => (st, None)
      | (st, Some (Err e)) => (st, Some (Err e))
      | (st, Some (Ok r)) => (st, Some (Ok (toIssuedCredential r)))
      end
  end.
Definition svc_list (now : Z) (st : CredState) (op : option string)
  : CredState * list CredentialRecord :=
  let st := swept now st in (st, map (toCredentialRecord now) (listCredentials st op)).
Definition svc_lookup (now : Z) (st : CredState) (cid : string)
  : CredState * result SignetError CredentialRecord :=
  let st := swept now st in
  (st, match getCredentialById st cid with
       | Err e => Err e
       | Ok r => Ok (toCredentialRecord now r)
       end).
Definition svc_lookupByToken (now : Z) (st : CredState) (tok : string)
  : CredState * result SignetError CredentialRecord :=
  match getCredentialByToken now st tok with
  | (st, Err e) => (st, Err e)
  | (st, Ok r) => (st, Ok (toCredentialRecord now r))
  end.
Definition svc_revoke (now : Z) (st : CredState) (cid : string) (reason : CredentialRevocationReason)
  : CredState * result SignetError unit :=
  match revokeCredential now st cid reason with
  | (st, Err e) => (st, Err e)
  | (st, Ok _) => (st, Ok tt)
  end.

(** The end of [update]: revoke on escalation, update otherwise. *)
Definition svc_apply_scopes (now : Z) (st : CredState) (cid : string) (next : ScopeSetType)
  : CredState * result SignetError CredentialRecord :=
  match cm_checkMateriality st cid next with
  | Err e => (st, Err e)
  | Ok check =>
      if mc_requiresReauthorization check then
        match revokeCredential now st cid cr_reauthorization_required with
        | (st, Err e) => (st, Err e)
        | (st, Ok r) => (st, Ok (toCredentialRecord now r))
        end
      else
        match updateCredentialScopes computeHash st cid next with
        | (st, Err e) => (st, Err e)
        | (st, Ok r) => (st, Ok (toCredentialRecord now r))
        end
  end.
(** The scopes an update asks for. *)
Definition next_scopes (pm : option PolicyStore) (current : InternalCredentialRecord)
  (ch : CredentialChanges) : result SignetError ScopeSetType :=
  match cch_policyId ch with
  | Some p => resolvePolicyScopes pm p (cch_allow ch) (cch_deny ch)
  | None => Ok {| allow := default (allow (effectiveScopes current)) (cch_allow ch);
                  deny := default (deny (effectiveScopes current)) (cch_deny ch) |}
  end.
Definition svc_update (now : Z) (st : CredState) (pm : option PolicyStore) (cid : string)
  (ch : CredentialChanges) : CredState * result SignetError CredentialRecord :=
  match getCredentialById st cid with
  | Err e => (st, Err e)
  | Ok current =>
      if is_some (cch_operatorId ch) || is_some (cch_chatIds ch) || is_some (cch_ttlSeconds ch) then
        (st, Err (ValidationError_create "changes"
           "Credential updates only support allow/deny/policyId changes" None))
      else if negb (is_some (cch_allow ch) || is_some (cch_deny ch) || is_some (cch_policyId ch)) then
        (st, Ok (toCredentialRecord now current))
      else
        match next_scopes pm current ch with
        | Err e => (st, Err e)
        | Ok next => svc_apply_scopes now st cid next
        end
  end.

(** [renew]; [fingerprint] is the SHA-256 fingerprint of the token. *)
Record CredentialToken := {
  ct_credentialId : string; ct_operatorId : string; ct_fingerprint : string;
  ct_issuedAt : string; ct_expiresAt : string
}.
Definition svc_renew (fingerprint : string → string) (now : Z) (st : CredState) (cid : string)
  : CredState * option (result SignetError CredentialToken) :=
  match renewCredential seconds config now st cid with
  | (st, None) => (st, None)
  | (st, Some (Err e)) => (st, Some (Err e))
  | (st, Some (Ok r)) =>
      (st, Some (Ok {| ct_credentialId := credentialId r; ct_operatorId := operatorId r;
                       ct_fingerprint := fingerprint (token r); ct_issuedAt := issuedAt r;
                       ct_expiresAt := expiresAt r |}))
  end.

(** ** The [credential.updateScopes] action *)
Record UpdateResult := { ur_updated : bool; ur_material : bool; ur_reason : option string }.
Definition action_updateScopes (now : Z) (st : CredState) (cid : string) (scopes : ScopeSetType)
  : CredState * result SignetError UpdateResult :=
  match svc_lookup now st cid with
  | (st, Err e) => (st, Err e)
  | (st, Ok credential) =>
      if negb (bool_decide (sc_status (cr_base credential) = st_active)) then
        (st, Err (AuthError_create "Credential is not active"
           (Some [("credentialId", JStr cid);
                  ("status", JStr (status_name (sc_status (cr_base credential))))])))
      else
        match cm_checkMateriality st cid scopes with
        | Err e => (st, Err e)
        | Ok check =>
            if mc_requiresReauthorization check then
              match revokeCredential now st cid cr_reauthorization_required with
              | (st, Err e) => (st, Err e)
              | (st, Ok _) =>
                  (st, Ok {| ur_updated := false; ur_material := true; ur_reason := mc_reason check |})
              end
            else
              match updateCredentialScopes computeHash st cid scopes with
              | (st, Err e) => (st, Err e)
              | (st, Ok _) =>
                  (st, Ok {| ur_updated := true; ur_material := isMaterial check;
                             ur_reason := mc_reason check |})
              end
        end
  end.

(** ** The WebSocket scope update: [credential] is the record the
    connection authenticated with, which may be older than the store. *)
Definition ws_updateScopes (st : CredState) (credential : CredentialRecord)
  (req_allow req_deny : option (list PermissionScope)) : CredState * result SignetError UpdateResult :=
  let newScopes := {| allow := default (allow (cr_effectiveScopes credential)) req_allow;
                      deny := default (deny (cr_effectiveScopes credential)) req_deny |} in
  let cid := cr_credentialId credential in
  match cm_checkMateriality st cid newScopes with
  | Err e => (st, Err e)
  | Ok check =>
      if mc_requiresReauthorization check then
        ((setCredentialStatus st cid st_pending).1,
         Ok {| ur_updated := false; ur_material := true; ur_reason := mc_reason check |})
      else
        match updateCredentialScopes computeHash st cid newScopes with
        | (st, Err e) => (st, Err e)
        | (st, Ok _) =>
            (st, Ok {| ur_updated := true; ur_material := isMaterial check;
                       ur_reason := if isMaterial check then mc_reason check else None |})
        end
  end.

(** ** Reveal actions *)
(** [resolveCredentialTarget]; [None] is an admin context. *)
Definition resolveCredentialTarget (requested : string) (authenticated : option string)
  : result SignetError string :=
  match authenticated with
  | Some a =>
      if bool_decide (a = requested) then Ok requested
      else Err (PermissionError_create
        "Credential-scoped reveal actions may only target the authenticated credential"
        (Some [("authenticatedCredentialId", JStr a); ("requestedCredentialId", JStr requested)]))
  | None => Ok requested
  end.
Record RevealRequestInput := {
  rri_credentialId : string; rri_chatId : string; rri_scope : RevealScope;
  rri_targetId : string; rri_requestedBy : string; rri_expiresAt : option string
}.
Definition action_revealRequest (now : Z) (uuid : string) (st : CredState)
  (input : RevealRequestInput) (ctx : option string) : CredState * result SignetError RevealAccess :=
  match resolveCredentialTarget (rri_credentialId input) ctx with
  | Err e => (st, Err e)
  | Ok target =>
      match svc_lookup now st target with
      | (st, Err e) => (st, Err e)
      | (st, Ok credential) =>
          let ids := [("credentialId", JStr (rri_credentialId input));
                      ("authenticatedCredentialId", opt_json JStr ctx)] in
          if negb (bool_decide (sc_status (cr_base credential) = st_active)) then
            (st, Err (PermissionError_create
               ("Credential is " +:+ status_name (sc_status (cr_base credential)) +:+
                " -- reveal requests require an active credential")
               (Some (ids ++ [("status", JStr (status_name (sc_status (cr_base credential))))]))))
          else if negb (bool_decide (rri_chatId input ∈ sc_chatIds (cr_base credential))) then
            (st, Err (PermissionError_create
               "Chat is not within the credential's scoped conversations"
               (Some (ids ++ [("chatId", JStr (rri_chatId input))]))))
          else
            match getRevealState st target with
            | (st, Err e) => (st, Err e)
            | (st, Ok _) =>
                let access := {| acc_revealId := uuid; acc_grantedAt := nowISO now;
                                 acc_grantedBy := rri_requestedBy input;
                                 acc_expiresAt := rri_expiresAt input |} in
                (recordReveal st target access
                   {| req_revealId := uuid; req_groupId := rri_chatId input;
                      req_scope := rri_scope input; req_targetId := rri_targetId input;
                      req_requestedBy := rri_requestedBy input;
                      req_expiresAt := rri_expiresAt input |}, Ok access)
            end
      end
  end.
Definition action_revealList (st : CredState) (credId : string) (ctx : option string)
  : CredState * result SignetError (list RevealEntry) :=
  match resolveCredentialTarget credId ctx with
  | Err e => (st, Err e)
  | Ok target =>
      match getRevealState st target with
      | (st, Err e) => (st, Err e)
      | (st, Ok store) => (st, Ok (snapshot store))
      end
  end.
End service.

(** ** Specifications *)
Section service_spec.
Context `{JsDate} (computeHash : ScopeSetType → list string → string)
        (seconds : Z → json) (config : CredentialManagerConfig).
Abbreviation reachable := (cred_reachable computeHash seconds config).
Abbreviation inv := (cred_inv computeHash).
Abbreviation swept now st := (sweepExpired config now st).1.

(** What one scope change does to the store: [r] is the record before. *)
Definition escalates (r : InternalCredentialRecord) (next : ScopeSetType) : Prop :=
  ∃ s, effective next s ∧ ¬ effective (effectiveScopes r) s.
Definition rescoped (r : InternalCredentialRecord) (next : ScopeSetType) : InternalCredentialRecord :=
  apply_updates (upd_scopes next (resolveScopeSet next) (computeHash next (chatIds r))) r.
Definition scope_outcome (st st' : CredState) (cid : string) (next : ScopeSetType)
  (dead : CredentialStatus) : Prop :=
  ∃ r r', om_get cid (byId st) = Some r ∧ om_get cid (byId st') = Some r' ∧
    (∀ other, other ≠ cid → om_get other (byId st') = om_get other (byId st)) ∧
    ((escalates r next ∧ status r' = dead ∧ effectiveScopes r' = effectiveScopes r) ∨
     (¬ escalates r next ∧ status r = st_active ∧ r' = rescoped r next) ∨
     (¬ escalates r next ∧ status r ≠ st_active ∧ r' = r)).

Lemma checkMateriality_escalates r next :
  mc_requiresReauthorization (checkMateriality (effectiveScopes r) next) = true ↔ escalates r next.
Proof.
  unfold escalates. rewrite <-escalation_spec. unfold checkMateriality, isSingleDeltaEscalation.
  cbn [mc_requiresReauthorization]. by rewrite filter_pos.
Qed.
Lemma revoke_found now st cid reason r :
  om_get cid (byId st) = Some r →
  (revokeCredential now st cid reason).2 = Ok (apply_updates (upd_revoke (nowISO now) reason) r) ∧
  byId (revokeCredential now st cid reason).1 =
    om_set cid (apply_updates (upd_revoke (nowISO now) reason) r) (byId st).
Proof.
  intros Hr. unfold revokeCredential. rewrite Hr.
  pose proof (revokeRecord_spec computeHash now st cid reason) as [_ Hv]. rewrite Hr in Hv.
  destruct Hv as [Hok Hb]. destruct (revokeRecord now st cid reason) as [st' res].
  cbn in *. by subst res.
Qed.
Lemma update_found st cid next r :
  om_get cid (byId st) = Some r →
  let x := updateCredentialScopes computeHash st cid next in
  if decide (status r = st_active)
  then x.2 = Ok (rescoped r next) ∧ byId x.1 = om_set cid (rescoped r next) (byId st)
  else x = (st, Err (CredentialExpiredError_create cid)).
Proof.
  intros Hr. unfold updateCredentialScopes. rewrite Hr. case_decide as Hs.
  - rewrite bool_decide_true by done. cbn [negb].
    pose proof (mutate_found st cid (upd_scopes next (resolveScopeSet next)
      (computeHash next (chatIds r))) r Hr) as [Hok Hb].
    destruct (mutateRecord _ _ _) as [st' res]. cbn in *. by subst res.
  - by rewrite bool_decide_false.
Qed.
Lemma setStatus_found st cid s r :
  om_get cid (byId st) = Some r →
  byId (setCredentialStatus st cid s).1 = om_set cid (apply_updates (upd_status s) r) (byId st).
Proof.
  intros Hr. unfold setCredentialStatus. rewrite Hr.
  pose proof (mutate_found st cid (upd_status s) r Hr) as [Hok Hb].
  destruct (mutateRecord _ _ _) as [st' res]. cbn in *. by subst res.
Qed.

(** The two branches all three paths share. *)
Lemma outcome_dead st st' cid next dead r r' :
  om_get cid (byId st) = Some r → escalates r next → byId st' = om_set cid r' (byId st) →
  status r' = dead → effectiveScopes r' = effectiveScopes r → scope_outcome st st' cid next dead.
Proof.
  intros Hr He Hb Hs Hsc. exists r, r'. rewrite Hb, om_get_set_eq. split_and!; [done..| |by left].
  intros. by rewrite om_get_set_ne.
Qed.
Lemma outcome_update st cid next dead r :
  om_get cid (byId st) = Some r → ¬ escalates r next →
  scope_outcome st (updateCredentialScopes computeHash st cid next).1 cid next dead.
Proof.
  intros Hr He. pose proof (update_found st cid next r Hr) as Hu. cbv zeta in Hu.
  case_decide as Hs.
  - destruct Hu as [_ Hb]. exists r, (rescoped r next). rewrite Hb, om_get_set_eq.
    split_and!; [done..| |by right; left]. intros. by rewrite om_get_set_ne.
  - rewrite Hu. exists r, r. split_and!; [done..|]. by right; right.
Qed.
Lemma outcome_no_escalation st st' cid next dead r' :
  dead ≠ st_active → scope_outcome st st' cid next dead →
  om_get cid (byId st') = Some r' → status r' = st_active →
  ∃ r, om_get cid (byId st) = Some r ∧ status r = st_active ∧
    ∀ s, effective (effectiveScopes r') s → effective (effectiveScopes r) s.
Proof.
  intros Hd (r & x & Hr & Hx & _ & Hcase) Hr' Hs. simplify_eq. exists r.
  destruct Hcase as [(_ & Hst & _)|[(Hn & Hst & ->)|(_ & Hst & ->)]]; [congruence| |congruence].
  split_and!; [done..|]. intros s Heff. cbn in Heff.
  destruct (decide (effective (effectiveScopes r) s)) as [|Hne]; [done|].
  exfalso. apply Hn. by exists s.
Qed.
Lemma svc_apply_outcome now st cid next r :
  om_get cid (byId st) = Some r →
  scope_outcome st (svc_apply_scopes computeHash now st cid next).1 cid next st_revoked.
Proof.
  clear seconds config. intros Hr. unfold svc_apply_scopes, cm_checkMateriality. rewrite Hr.
  pose proof (checkMateriality_escalates r next) as He.
  destruct (mc_requiresReauthorization _).
  - destruct (revoke_found now st cid cr_reauthorization_required r Hr) as [_ Hb].
    apply (outcome_dead _ _ _ _ _ r
      (apply_updates (upd_revoke (nowISO now) cr_reauthorization_required) r));
      [done|by apply He| |done|done].
    rewrite <-Hb. by destruct (revokeCredential _ _ _ _) as [? []].
  - pose proof (outcome_update st cid next st_revoked r Hr) as Ho.
    destruct (updateCredentialScopes _ _ _ _) as [? []]; apply Ho; naive_solver.
Qed.

(** C1: no privilege escalation without reauthorization, on any path: the
    service update, the [credential.updateScopes] action and the WebSocket
    scope update either find that the requested scopes would make some
    scope effective that was not, and then take the credential out of
    service (revoked, or pending on the WebSocket) with its scopes kept, or
    install exactly the requested scopes on an active credential, or change
    nothing; no other credential is touched.  Hence a credential that is
    active afterwards was active before and gained no effective scope. *)
Theorem no_silent_escalation st cid r :
  om_get cid (byId st) = Some r →
  (∀ now pm ch, let x := svc_update computeHash now st pm cid ch in
    x.1 = st ∨ ∃ next, next_scopes pm r ch = Ok next ∧ scope_outcome st x.1 cid next st_revoked) ∧
  (∀ now pm ch next, cch_operatorId ch = None → cch_chatIds ch = None → cch_ttlSeconds ch = None →
    next_scopes pm r ch = Ok next → (cch_allow ch, cch_deny ch, cch_policyId ch) ≠ (None, None, None) →
    scope_outcome st (svc_update computeHash now st pm cid ch).1 cid next st_revoked) ∧
  (∀ now scopes, let x := action_updateScopes computeHash config now st cid scopes in
    x.1 = swept now st ∨ scope_outcome (swept now st) x.1 cid scopes st_revoked) ∧
  (∀ credential ra rd, cr_credentialId credential = cid →
    scope_outcome st (ws_updateScopes computeHash st credential ra rd).1 cid
      {| allow := default (allow (cr_effectiveScopes credential)) ra;
         deny := default (deny (cr_effectiveScopes credential)) rd |} st_pending) ∧
  (∀ st1 st2 next dead r2, dead ≠ st_active → scope_outcome st1 st2 cid next dead →
    om_get cid (byId st2) = Some r2 → status r2 = st_active →
    ∃ r1, om_get cid (byId st1) = Some r1 ∧ status r1 = st_active ∧
      ∀ s, effective (effectiveScopes r2) s → effective (effectiveScopes r1) s).
Proof.
  clear seconds. intros Hr. split_and!.
  - intros now pm ch. unfold svc_update, getCredentialById. rewrite Hr.
    destruct (_ || _ || _); [by left|]. destruct (negb _); [by left|].
    destruct (next_scopes pm r ch) as [next|e]; [|by left]. right. exists next.
    split; [done|]. by apply (svc_apply_outcome _ _ _ _ r).
  - intros now pm ch next Ho Hc Ht Hn Hne. unfold svc_update, getCredentialById.
    rewrite Hr, Ho, Hc, Ht, Hn. cbn [is_some orb].
    destruct (is_some (cch_allow ch) || is_some (cch_deny ch) || is_some (cch_policyId ch)) eqn:Hi.
    + cbn [negb]. by apply (svc_apply_outcome _ _ _ _ r).
    + exfalso. apply Hne. by destruct (cch_allow ch), (cch_deny ch), (cch_policyId ch).
  - intros now scopes. unfold action_updateScopes, svc_lookup, getCredentialById.
    destruct (om_get cid (byId (swept now st))) as [r1|] eqn:Hr1; [|by left].
    destruct (negb _); [by left|]. right. unfold cm_checkMateriality. rewrite Hr1.
    pose proof (checkMateriality_escalates r1 scopes) as He.
    destruct (mc_requiresReauthorization _).
    + destruct (revoke_found now (swept now st) cid cr_reauthorization_required r1 Hr1) as [_ Hb].
      apply (outcome_dead _ _ _ _ _ r1
        (apply_updates (upd_revoke (nowISO now) cr_reauthorization_required) r1));
        [done|by apply He| |done|done].
      rewrite <-Hb. by destruct (revokeCredential _ _ _ _) as [? []].
    + pose proof (outcome_update (swept now st) cid scopes st_revoked r1 Hr1) as Ho.
      destruct (updateCredentialScopes _ _ _ _) as [? []]; apply Ho; naive_solver.
  - intros credential ra rd <-. unfold ws_updateScopes, cm_checkMateriality. rewrite Hr.
    set (next := {| allow := _; deny := _ |}). pose proof (checkMateriality_escalates r next) as He.
    destruct (mc_requiresReauthorization _).
    + apply (outcome_dead _ _ _ _ _ r (apply_updates (upd_status st_pending) r));
        [done|by apply He|by apply setStatus_found|done|done].
    + pose proof (outcome_update st (cr_credentialId credential) next st_pending r Hr) as Ho.
      destruct (updateCredentialScopes _ _ _ _) as [? []]; apply Ho; naive_solver.
  - intros. by eapply outcome_no_escalation.
Qed.

(** *** What the service answers is live *)
Lemma swept_live now st c r :
  inv st → om_get c (byId (swept now st)) = Some r → status r = st_active →
  cr_isExpired (toCredentialRecord now r) = false.
Proof.
  intros Hinv Hr Hs. destruct (sweep_clean computeHash config now st c r Hinv Hr Hs) as [Hp _].
  unfold toCredentialRecord. cbn [cr_isExpired]. unfold past_expiry in Hp. rewrite Hp.
  by rewrite bool_decide_false by congruence.
Qed.
Lemma list_stored now st op r :
  inv st → r ∈ listCredentials (swept now st) op →
  om_get (credentialId r) (byId (swept now st)) = Some r ∧ status r = st_active ∧
  (∀ o, op = Some o → operatorId r = o).
Proof.
  intros Hinv. destruct (sweep_all computeHash config now st Hinv) as (Hinv1 & _).
  destruct op as [op|]; cbn [listCredentials].
  - intros Hr. apply (getActive_elem computeHash) in Hr; [|done].
    destruct Hr as (? & <- & ?). split_and!; [done..|]. by intros o [= <-].
  - intros (Hs & ([k v] & -> & Hin)%list_elem_of_fmap)%list_elem_of_filter.
    apply om_get_NoDup in Hin; [|apply (ci_nodup _ _ Hinv1)].
    cbn [snd] in *. destruct (ci_id _ _ Hinv1 _ _ Hin) as (-> & _). by split_and!.
Qed.
Lemma revoked_hash_irrelevant now st op r :
  inv st → r ∈ getActiveForOperator (evict config now st op).1 op →
  om_get (credentialId r) (byId st) = Some r.
Proof.
  intros Hinv Hin. pose proof (evict_evolves computeHash config now st op) as Hev.
  pose proof (evolves_inv _ _ _ Hev Hinv) as Hinv1.
  apply (getActive_elem computeHash) in Hin as (Hg & _ & Hs); [|done].
  destruct (evict_byId computeHash config now st op Hinv) as [Hb|(o & _ & _ & Hb)].
  - by rewrite <-Hb.
  - rewrite Hb, om_get_set in Hg. case_decide; [|done]. by simplify_eq.
Qed.

(** the service never answers with a dead credential: every credential
    it lists is active, of the requested operator and not past its expiry;
    a lookup shows an active credential only before its expiry; a token
    lookup succeeds only for such a credential; and issuance, with a
    positive lifetime, returns the token of a stored active credential
    before its expiry, whose policy hash is that of the requested chats and
    of the inline scopes merged with the named policy; it fails only if
    that policy cannot be found. *)
Theorem service_answers_live now st op cid tok pm cfg credId newTok iss :
  reachable st →
  (∀ c, c ∈ (svc_list config now st op).2 →
    sc_status (cr_base c) = st_active ∧ cr_isExpired c = false ∧
    ∀ o, op = Some o → sc_operatorId (cr_base c) = o) ∧
  (∀ c, (svc_lookup config now st cid).2 = Ok c → sc_status (cr_base c) = st_active →
    cr_isExpired c = false) ∧
  (∀ c, (svc_lookupByToken now st tok).2 = Ok c →
    sc_status (cr_base c) = st_active ∧ cr_isExpired c = false) ∧
  (let x := svc_issue computeHash config now st pm cfg credId newTok iss in
   let scopes := match cfg_policyId cfg with
     | Some p => resolvePolicyScopes pm p (cfg_allow cfg) (cfg_deny cfg)
     | None => Ok (buildScopeSet cfg)
     end in
   (∀ e, x.2 = Some (Err e) ↔ scopes = Err e) ∧
   ∀ ic, x.2 = Some (Ok ic) → 0 < default (defaultTtlSeconds config) (cfg_ttlSeconds cfg) →
     ∃ r ss, om_get (credentialId r) (byId x.1) = Some r ∧ ic_token ic = token r ∧
       sc_operatorId (ic_credential ic) = cfg_operatorId cfg ∧ status r = st_active ∧
       past_expiry now r = false ∧ scopes = Ok ss ∧
       policyHash r = computeHash ss (cfg_chatIds cfg)).
Proof.
  intros Hinv%reachable_inv. destruct (sweep_all computeHash config now st Hinv) as (Hinv1 & _).
  split_and!.
  - intros c. unfold svc_list. cbn [snd]. intros (r & -> & Hr)%list_elem_of_fmap.
    destruct (list_stored now st op r Hinv Hr) as (Hg & Hs & Ho). split_and!; [done| |done].
    exact (swept_live now st _ r Hinv Hg Hs).
  - intros c. unfold svc_lookup, getCredentialById. cbn [snd].
    destruct (om_get cid _) as [r|] eqn:Hr; [|done]. intros [= <-] Hs.
    exact (swept_live now st _ r Hinv Hr Hs).
  - intros c. unfold svc_lookupByToken.
    pose proof (λ r, getByToken_ok computeHash now st tok r Hinv) as Hok.
    destruct (getCredentialByToken now st tok) as [st' [r|]]; [|done]. intros [= <-].
    destruct (proj1 (Hok r) eq_refl) as (k & _ & _ & Hp & Hs). split; [done|].
    unfold toCredentialRecord. cbn [cr_isExpired]. unfold past_expiry in Hp. rewrite Hp.
    by rewrite bool_decide_false by congruence.
  - cbv zeta. set (scopes := match cfg_policyId cfg with Some _ => _ | None => _ end).
    unfold svc_issue.
    set (res := match cfg_policyId cfg with Some _ => _ | None => _ end).
    assert (match scopes with
      | Ok ss => ∃ cfg', res = Ok cfg' ∧ buildScopeSet cfg' = ss ∧
          cfg_operatorId cfg' = cfg_operatorId cfg ∧ cfg_chatIds cfg' = cfg_chatIds cfg ∧
          cfg_ttlSeconds cfg' = cfg_ttlSeconds cfg
      | Err e => res = Err e
      end) as Hres.
    { unfold scopes, res. destruct (cfg_policyId cfg) as [p|]; [|by exists cfg].
      destruct (resolvePolicyScopes _ _ _ _) as [ss|]; [|done]. eexists. split; [done|].
      unfold buildScopeSet. cbn. by destruct ss. }
    destruct scopes as [ss|e0].
    2: { rewrite Hres. cbn [snd]. split; [|done]. intros e. split; by intros [= ->]. }
    destruct Hres as (cfg' & -> & Hss & Hop & Hch & Httl).
    pose proof (evict_none computeHash config now (swept now st) (cfg_operatorId cfg') Hinv1) as Hn.
    destruct (issue_cases computeHash config now (swept now st) cfg' credId newTok iss)
      as [[Hst Hlive]|(ex & Hex & Heq & _)].
    + assert (∀ e, (issueCredential computeHash config now (swept now st) cfg' credId newTok iss).2
        ≠ Some (Err e)) as Hne.
      { intros e. unfold issueCredential. destruct (evict _ _ _ _) as [s1 o]. cbn in Hn. subst o.
        destruct (List.find _ _); [done|]. by destruct (date_toISOString _). }
      destruct (issueCredential _ _ _ _ _ _ _ _) as [st' [[r|e]|]]; cbn [fst snd] in *.
      * split; [by intros e|]. intros ic [= <-] _. destruct (Hlive r eq_refl) as [Hin Hh].
        pose proof (revoked_hash_irrelevant now _ _ _ Hinv1 Hin) as Hg0.
        assert (inv st') as Hinv'.
        { rewrite Hst. eapply evolves_inv; [apply evict_evolves|done]. }
        rewrite <-Hst in Hin. apply (getActive_elem computeHash) in Hin as (Hg & Ho & Hs); [|done].
        exists r, ss. split_and!; [done|done|cbn; congruence|done| |done|congruence].
        by destruct (sweep_clean computeHash config now st _ r Hinv Hg0 Hs).
      * by destruct (Hne e).
      * split; [by intros e|done].
    + rewrite Heq. cbn [snd]. split; [by intros e|]. intros ic [= <-] Hpos.
      cbn [fst]. match goal with |- context [upsertRecord _ ?r] => exists r, ss end.
      split_and!; [|done|cbn; congruence|done| |done|].
      * unfold upsertRecord. cbn [byId credentialId]. by rewrite om_get_set_eq.
      * unfold past_expiry. cbn [expiresAt]. apply date_roundtrip in Hex. rewrite Hex, Httl.
        cbn. lia.
      * cbn [policyHash]. by rewrite Hss, Hch.
Qed.

(** reveals can only be requested for live credentials and their own
    chats: a reveal request succeeds exactly when the caller is an admin or
    the credential itself, and the credential (after the expiry sweep) is
    stored, active and scoped to the chat; it then appends exactly one
    entry, for that chat, to that credential's store, changes no credential
    and no other store, and is what a listing of the credential's reveals
    ends with.  A refused request records nothing. *)
Theorem revealRequest_spec now uuid st input ctx :
  let x := action_revealRequest config now uuid st input ctx in
  let cid := rri_credentialId input in
  (isOk x.2 = true ↔ (∀ a, ctx = Some a → a = cid) ∧
    ∃ r, om_get cid (byId (swept now st)) = Some r ∧ status r = st_active ∧
      rri_chatId input ∈ chatIds r) ∧
  (isOk x.2 = false → x.1 = st ∨ x.1 = swept now st) ∧
  (∀ a, x.2 = Ok a → byId x.1 = byId (swept now st) ∧
    ∃ entry, access entry = a ∧ req_groupId (request entry) = rri_chatId input ∧
      om_get cid (revealStates x.1) =
        Some (default [] (om_get cid (revealStates (swept now st))) ++ [entry]) ∧
      (∀ c, c ≠ cid → om_get c (revealStates x.1) = om_get c (revealStates (swept now st))) ∧
      (action_revealList x.1 cid ctx).2 =
        Ok (snapshot (default [] (om_get cid (revealStates (swept now st))) ++ [entry]))).
Proof.
  clear computeHash seconds. intros x cid. unfold x, action_revealRequest, resolveCredentialTarget. fold cid.
  set (target := match ctx with Some a => _ | None => _ end).
  assert ((target = Ok cid ∧ ∀ a, ctx = Some a → a = cid) ∨
    (isOk target = false ∧ ¬ ∀ a, ctx = Some a → a = cid)) as [[Ht Hctx]|[Ht Hctx]].
  { unfold target. destruct ctx as [a|]; [case_bool_decide as Ha|].
    - left. split; [done|]. by intros ? [= <-].
    - right. split; [done|]. intros Hc. by apply Ha, Hc.
    - by left. }
  2: { destruct target; [done|]. cbn. split_and!; [naive_solver|by left|done]. }
  rewrite Ht. unfold svc_lookup, getCredentialById. cbv zeta.
  destruct (om_get cid (byId (swept now st))) as [r|] eqn:Hr; cbn [fst snd isOk].
  2: { split_and!; [naive_solver|by right|done]. }
  change (sc_status (cr_base (toCredentialRecord now r))) with (status r).
  change (sc_chatIds (cr_base (toCredentialRecord now r))) with (chatIds r).
  case_bool_decide as Hs; cbn [negb].
  2: { cbn. split_and!; [naive_solver|by right|done]. }
  case_bool_decide as Hc; cbn [negb].
  2: { cbn. split_and!; [naive_solver|by right|done]. }
  unfold getRevealState. rewrite Hr.
  assert (∀ a q store st1, byId st1 = byId (swept now st) →
    om_get cid (revealStates st1) = Some store →
    (∀ c, c ≠ cid → om_get c (revealStates st1) = om_get c (revealStates (swept now st))) →
    req_groupId q = rri_chatId input →
    let st2 := recordReveal st1 cid a q in
    byId st2 = byId (swept now st) ∧ ∃ entry, access entry = a ∧
      req_groupId (request entry) = rri_chatId input ∧
      om_get cid (revealStates st2) = Some (store ++ [entry]) ∧
      (∀ c, c ≠ cid → om_get c (revealStates st2) = om_get c (revealStates (swept now st))) ∧
      (action_revealList st2 cid ctx).2 = Ok (snapshot (store ++ [entry]))) as Hrec.
  { intros a q store st1 Hb Hg Hne Hq. unfold recordReveal. rewrite Hg. cbv zeta. split; [done|].
    exists {| access := a; request := q |}. cbn [revealStates]. rewrite om_get_set_eq.
    split_and!; [done..| |].
    - intros c Hcc. rewrite om_get_set_ne by congruence. auto.
    - unfold action_revealList, resolveCredentialTarget. fold target. rewrite Ht.
      unfold getRevealState. cbn [byId revealStates]. by rewrite Hb, Hr, om_get_set_eq. }
  destruct (om_get cid (revealStates (swept now st))) as [store|] eqn:Hg; cbn [fst snd isOk].
  - split_and!; [naive_solver|done|]. intros a [= <-]. by apply Hrec.
  - split_and!; [naive_solver|done|]. intros a [= <-]. apply Hrec; [done| | |done].
    + cbn [revealStates]. apply om_get_set_eq.
    + intros c Hcc. cbn [revealStates]. by rewrite om_get_set_ne by congruence.
Qed.
End service_spec.

(** ** Concrete runs *)
Definition demo_next : ScopeSetType := {| allow := [send; read_messages]; deny := [] |}.
Lemma no_silent_escalation_witness :
  scope_outcome demo_hash demo_store
    (svc_update demo_hash 1000 demo_store None "cred_1"
      {| cch_operatorId := None; cch_chatIds := None; cch_policyId := None;
         cch_allow := Some [send; read_messages]; cch_deny := None; cch_ttlSeconds := None |}).1
    "cred_1" demo_next st_revoked ∧ escalates demo_cred demo_next.
Proof.
  assert (om_get "cred_1" (byId demo_store) = Some demo_cred) as Hr by (by rewrite demo_store_eq).
  destruct (no_silent_escalation demo_hash DEFAULT_CONFIG demo_store "cred_1" demo_cred Hr)
    as (_ & Hup & _).
  split; [by apply Hup|]. exists read_messages. split.
  - split; [by right; left|apply not_elem_of_nil].
  - intros [Hin _]. cbn in Hin. by apply list_elem_of_singleton in Hin.
Defined.
Lemma service_answers_live_witness :
  Forall (λ c, cr_isExpired c = false) (svc_list DEFAULT_CONFIG 1000 demo_store (Some "op_a")).2.
Proof.
  apply Forall_forall. intros c Hc. destruct (service_answers_live demo_hash demo_seconds DEFAULT_CONFIG 1000 demo_store
    (Some "op_a") "" "" None demo_cfg "" "" None demo_reachable) as (Hl & _).
  by destruct (Hl c Hc) as (_ & ? & _).
Defined.
