(* ===== verification/Mcp.v ===== *)
(** * The MCP server

    [mcp/src/server.ts], [call-handler.ts], [credential-guard.ts],
    [tool-registration.ts], [output-formatter.ts] and [context-factory.ts]:
    the adapter that publishes the registered actions as MCP tools and runs
    them for one credential.

    The two lookups, the transport of the MCP SDK, zod's JSON schemas and the
    handlers of the actions are effects or arguments that answer anything. *)
From S2P Require Import Prelude JsDate Programs Json Errors Credentials CredentialService Contracts.

(** [JSON.stringify(v, null, 2)] of a value without undefined properties. *)
Definition newline : string := String "010" "".
Fixpoint print_indent (ind : string) (v : json) : string :=
  let ind' := ind +:+ "  " in
  match v with
  | JArr (_ :: _ as l) =>
      "[" +:+ newline +:+ str_join ("," +:+ newline) (map (λ x, ind' +:+ print_indent ind' x) l) +:+
      newline +:+ ind +:+ "]"
  | JObj (_ :: _ as o) =>
      "{" +:+ newline +:+ str_join ("," +:+ newline) (map (λ kv : string * json,
        match kv with (k, v) => ind' +:+ json_quote k +:+ ": " +:+ print_indent ind' v end) o) +:+
      newline +:+ ind +:+ "}"
  | v => print v
  end.
Record McpContentResponse := mkContent { mc_text : string; mc_isError : bool }.
Definition formatActionResult (r : ActionResult) : McpContentResponse :=
  mkContent (print_indent "" (strip (ActionResult_json r))) (negb (ar_isOk r)).

Inductive McpServerState := ms_idle | ms_running | ms_stopping | ms_stopped.
#[export] Instance McpServerState_eq_dec : EqDecision McpServerState.
Proof. solve_decision. Defined.
Inductive McpMode := mm_stdio | mm_embedded.
Record McpServerConfig := mkMcpConfig {
  mcf_mode : McpMode; mcf_serverName : string; mcf_serverVersion : string;
  mcf_toolPrefix : string; mcf_credentialToken : string; mcf_requestTimeoutMs : Z
}.
(** The schema's defaults, for the fields a caller leaves out. *)
Definition default_mcp_config (credentialToken : string) : McpServerConfig :=
  mkMcpConfig mm_stdio "xmtp-signet" "0.1.0" "signet" credentialToken 30000.

Abbreviation Spec := (ActionSpec Schema).
Record McpToolRegistration := mkTool {
  mt_name : string; mt_description : string; mt_inputSchema : json; mt_annotations : context
}.
Definition actionSpecToMcpTool (zodToJsonSchema : Schema → json) (spec : Spec)
  : option McpToolRegistration :=
  match as_mcpS spec with
  | None => None
  | Some _ =>
      Some (mkTool (deriveMcpToolName "signet" spec) (default (as_id spec) (as_description spec))
              (zodToJsonSchema (as_handler spec)) (deriveMcpAnnotations spec))
  end.

(** The world of one server: the clock and the variables of
    [createMcpServer]. *)
Record McpWorld := mkMcpWorld {
  mw_now : Z; mw_state : McpServerState; mw_cached : option CredentialRecord;
  mw_tools : list McpToolRegistration; mw_sdk : bool
}.
Definition with_mstate (s : McpServerState) (w : McpWorld) : McpWorld :=
  mkMcpWorld (mw_now w) s (mw_cached w) (mw_tools w) (mw_sdk w).
Inductive meff : Type → Type :=
  | MTokenLookup (token : string) : meff (result SignetError CredentialRecord)
  | MCredentialLookup (credentialId : string) : meff (result SignetError CredentialRecord)
  | MInvoke (spec : Spec) (input : json) (ctx : HandlerContext) : meff HandlerAnswer
  | MConnect : meff bool
  | MClose : meff bool.
Abbreviation McpProg := (prog McpWorld meff).

Section mcp.
Context `{JsDate} (registry : ActionRegistry Schema) (signetId : string) (config : McpServerConfig)
  (zodToJsonSchema : Schema → json).

Definition buildMeta (now : Z) (requestId : string) (startTime : Z) : ActionResultMeta :=
  mkMeta requestId (nowISO now) (now - startTime).
Definition createHandlerContext (requestId credentialId : string) : HandlerContext :=
  mkContext signetId requestId None None (Some credentialId) None.

(** [credential-guard.ts] *)
Definition liveness (now : Z) (credentialId : string) (r : result SignetError CredentialRecord)
  : result SignetError unit :=
  let fail text := Err (AuthError_create text (Some [("credentialId", JStr credentialId)])) in
  match r with
  | Err _ => fail "Credential check failed"
  | Ok c =>
      if negb (bool_decide (sc_status (cr_base c) = st_active)) then
        fail ("Credential is " +:+ status_name (sc_status (cr_base c)))
      else if num_leb (date_getTime (sc_expiresAt (cr_base c))) (Some now) then
        fail "Credential expired"
      else Ok tt
  end.

(** [call-handler.ts] *)
Definition findSpecByToolName (toolName : string) : option Spec :=
  List.find (λ spec, bool_decide (deriveMcpToolName "signet" spec = toolName))
    (listForSurface "mcp" registry).
Definition issue_error (issues : list ZodIssue) : SignetError :=
  let first := issues !! 0%nat in
  ValidationError_create (default "unknown" ((λ i, str_join "." (zi_path i)) <$> first))
    (default "Validation failed" (zi_message <$> first))
    (Some [("issues", JArr (map (λ i, JObj [("path", JArr (map JStr (zi_path i)));
                                            ("message", JStr (zi_message i))]) issues))]).
Definition now_of (w : McpWorld) : McpWorld * Z := (w, mw_now w).
Definition respond (r : result SignetError json) (requestId : string) (startTime : Z)
  : McpProg McpContentResponse :=
  (sync now <- now_of ;; Ret (formatActionResult (toActionResult r (buildMeta now requestId startTime) None)))%prog.
(** [requestId] is the fresh [crypto.randomUUID()] of the context. *)
Definition handleCallTool (name : string) (args : json) (credential : CredentialRecord)
  (requestId : string) : McpProg McpContentResponse :=
  (sync startTime <- now_of ;;
   match findSpecByToolName name with
   | None => respond (Err (NotFoundError_create "tool" name)) "unknown" startTime
   | Some spec =>
       match as_handler spec args with
       | inl issues => respond (Err (issue_error issues)) "unknown" startTime
       | inr data =>
           await answer <- MInvoke spec data
             (createHandlerContext requestId (cr_credentialId credential)) ;;
           match answer with
           | Returned r => respond r requestId startTime
           | Threw text =>
               respond (Err (InternalError_create ("Handler threw: " +:+ text) None)) requestId startTime
           end
       end
   end)%prog.

(** The [CallTool] request handler. *)
Definition onCallTool (name : string) (args : json) (requestId : string) : McpProg McpContentResponse :=
  (sync startTime <- now_of ;;
   sync cached <- (λ w, (w, mw_cached w)) ;;
   match cached with
   | None => respond (Err (AuthError_create "No active credential" None)) "unknown" startTime
   | Some credential =>
       await found <- MCredentialLookup (cr_credentialId credential) ;;
       sync live <- (λ w, (w, liveness (mw_now w) (cr_credentialId credential) found)) ;;
       match live with
       | Err error =>
           sync _ <- (λ w, (with_mstate ms_stopping w, tt)) ;;
           respond (Err error) "unknown" startTime
       | Ok _ =>
           sync cached <- (λ w, (w, mw_cached w)) ;;
           handleCallTool name args (default credential cached) requestId
       end
   end)%prog.

Definition onListTools (w : McpWorld) : list McpToolRegistration := mw_tools w.

(** [start]; [None] when the transport's promise rejects. *)
Definition start : McpProg (option (result SignetError unit)) :=
  (await found <- MTokenLookup (mcf_credentialToken config) ;;
   match found with
   | Err _ => Ret (Some (Err (AuthError_create "Invalid credential token at startup" None)))
   | Ok credential =>
       sync _ <- (λ w, (mkMcpWorld (mw_now w) (mw_state w) (Some credential)
         (mw_tools w ++ base.omap (actionSpecToMcpTool zodToJsonSchema) (listForSurface "mcp" registry)) true, tt)) ;;
       match mcf_mode config with
       | mm_embedded =>
           Ret (Some (Err (InternalError_create
             "Embedded mode is not yet supported: no transport available" None)))
       | mm_stdio =>
           await connected <- MConnect ;;
           if connected : bool then
             sync _ <- (λ w, (with_mstate ms_running w, tt)) ;; Ret (Some (Ok tt))
           else Ret None
       end
   end)%prog.
Definition stop : McpProg (result SignetError unit) :=
  (sync sdk <- (λ w, (with_mstate ms_stopping w, mw_sdk w)) ;;
   if sdk : bool then
     await _ <- MClose ;;
     sync _ <- (λ w, (with_mstate ms_stopped w, tt)) ;; Ret (Ok tt)
   else
     sync _ <- (λ w, (with_mstate ms_stopped w, tt)) ;; Ret (Ok tt))%prog.

(** ** What a tool call may do *)
(** The server is started once: whatever else runs, the credential it serves
    stays the one it was started with. *)
Definition same_credential (w w' : McpWorld) : Prop :=
  ∀ c, mw_cached w = Some c → mw_cached w' = Some c.

Lemma liveness_ok now id r : liveness now id r = Ok tt ↔
  ∃ c, r = Ok c ∧ sc_status (cr_base c) = st_active ∧
    num_leb (date_getTime (sc_expiresAt (cr_base c))) (Some now) = false.
Proof.
  unfold liveness. destruct r as [c|e]; [|naive_solver].
  case_bool_decide as Hs; cbn; [|split; [done|by intros (? & [= <-] & ? & _)]].
  destruct (num_leb _ _) eqn:Hn.
  - split; [done|]. intros (c' & Hc & _ & Hf). simplify_eq. congruence.
  - split; [|done]. intros _. by exists c.
Qed.
Lemma findSpec_listed name spec : findSpecByToolName name = Some spec →
  spec ∈ listForSurface "mcp" registry ∧ deriveMcpToolName "signet" spec = name.
Proof.
  intros [Hin Hn]%List.find_some. rewrite <- list_elem_of_In in Hin. by rewrite bool_decide_eq_true in Hn.
Qed.
Lemma run_respond env w r rid start t w2 x : run env w (respond r rid start) t w2 x →
  t = [] ∧ w2 = w ∧ mc_isError x = negb (isOk r).
Proof. cbn. intros (-> & -> & ->). by destruct r. Qed.

(** A tool call after its liveness check, by what the request names. *)
Lemma run_handleCallTool env w name args credential rid t w2 r :
  run env w (handleCallTool name args credential rid) t w2 r →
  (t = [] ∧ w2 = w ∧ mc_isError r = true ∧
     ∀ spec data, findSpecByToolName name = Some spec → as_handler spec args ≠ inr data) ∨
  ∃ spec data answer, findSpecByToolName name = Some spec ∧ as_handler spec args = inr data ∧
    t = [Event _ (MInvoke spec data (createHandlerContext rid (cr_credentialId credential))) w answer] ∧
    env w w2 ∧
    (mc_isError r = false ↔ ∃ v, answer = Returned (Ok v)).
Proof.
  cbn. destruct (findSpecByToolName name) as [spec|].
  2:{ intros (-> & -> & He)%run_respond. by left. }
  destruct (as_handler spec args) as [issues|data] eqn:Ha.
  { intros (-> & -> & He)%run_respond. left. split_and!; [done..|]. intros ? ? [= <-]. by rewrite Ha. }
  cbn. intros (w' & answer & t' & Henv & -> & Hr). right. exists spec, data, answer.
  destruct answer as [res|text]; apply run_respond in Hr as (-> & -> & He).
  - split_and!; [done..|]. rewrite He. destruct res as [v|e]; cbn; split; [by exists v|done|done|by intros [? [=]]].
  - split_and!; [done..|]. rewrite He. cbn. split; [done|by intros [? [=]]].
Qed.

(** a tool call reaches a handler at most once, and only when the
    credential the server was started with was looked up during this very
    call, found active and, at the moment the handler starts, not expired;
    the handler is that of an action listed for MCP under the requested tool
    name, it gets the input its schema parsed and a context that carries that
    credential and no admin authority.  Otherwise nothing is invoked and the
    response is an error; and a response is not an error only when the
    handler returned a value. *)
Theorem mcp_call_spec env w name args rid t w2 r :
  (∀ a b, env a b → same_credential a b) →
  run env w (onCallTool name args rid) t w2 r →
  (mw_cached w = None ∧ t = [] ∧ mc_isError r = true) ∨
  ∃ c found t', mw_cached w = Some c ∧
    t = Event _ (MCredentialLookup (cr_credentialId c)) w found :: t' ∧
    ((t' = [] ∧ mc_isError r = true) ∨
     ∃ w1 spec data answer,
       t' = [Event _ (MInvoke spec data (mkContext signetId rid None None (Some (cr_credentialId c)) None))
               w1 answer] ∧
       (∃ rec, found = Ok rec ∧ sc_status (cr_base rec) = st_active ∧
          num_leb (date_getTime (sc_expiresAt (cr_base rec))) (Some (mw_now w1)) = false) ∧
       spec ∈ listForSurface "mcp" registry ∧ deriveMcpToolName "signet" spec = name ∧
       as_handler spec args = inr data ∧
       (mc_isError r = false ↔ ∃ v, answer = Returned (Ok v))).
Proof.
  intros Henv. unfold onCallTool. cbn. destruct (mw_cached w) as [c|] eqn:Hc.
  2:{ intros (-> & _ & He)%run_respond. by left. }
  cbn. intros (w' & found & t' & Hw & -> & Hr). right. exists c, found, t'. split_and!; [done..|].
  destruct (liveness (mw_now w') (cr_credentialId c) found) as [[]|e] eqn:Hl; cbn in Hr.
  2:{ destruct Hr as (-> & _ & ->). by left. }
  rewrite (Henv _ _ Hw c Hc) in Hr. apply run_handleCallTool in Hr as [(-> & _ & He & _)|Hr]; [by left|].
  destruct Hr as (spec & data & answer & Hf & Ha & -> & _ & He). right.
  exists w', spec, data, answer. apply findSpec_listed in Hf as [Hin Hn].
  split_and!; try done. by apply (liveness_ok _ (cr_credentialId c)).
Qed.

(** The answer of a [MConnect] event. *)
Definition connected (e : event McpWorld meff) : option bool :=
  match ev_eff e in meff X return X → option bool with
  | MConnect => Some
  | _ => λ _, None
  end (ev_answer e).

(** What [start] publishes: exactly the actions with an MCP surface, and the
    server runs only after a token was resolved and the transport connected. *)
Lemma start_spec env w t w2 r :
  (∀ a b, env a b → mw_tools b = mw_tools a ∧ mw_cached b = mw_cached a) →
  run env w start t w2 r →
  (r = Some (Ok tt) ↔ mcf_mode config = mm_stdio ∧ ∃ c w', t =
     [Event _ (MTokenLookup (mcf_credentialToken config)) w (Ok c); Event _ MConnect w' true]) ∧
  (r = Some (Ok tt) → mw_state w2 = ms_running ∧ ∃ c, mw_cached w2 = Some c ∧
     mw_tools w2 = mw_tools w ++ base.omap (actionSpecToMcpTool zodToJsonSchema) (listForSurface "mcp" registry)).
Proof.
  intros Henv. unfold start. cbn. intros (w' & found & t' & Hw & -> & Hr).
  destruct (Henv _ _ Hw) as [Ht _]. destruct found as [c|e]; cbn in Hr.
  2:{ destruct Hr as (-> & -> & ->). split; [|done]. split; [done|].
      intros (_ & ? & ? & Heq). by apply (f_equal length) in Heq. }
  destruct (mcf_mode config); cbn in Hr.
  2:{ destruct Hr as (-> & -> & ->). split; [|done]. split; [done|]. by intros ([=] & _). }
  destruct Hr as (w1 & b & t1 & Hw1 & -> & Hr). destruct (Henv _ _ Hw1) as [Ht1 Hc1].
  destruct b; destruct Hr as (-> & -> & ->); (split; [|]).
  - split; [|done]. intros _. split; [done|]. by eexists _, _.
  - intros _. split; [done|]. exists c. cbn in *. by rewrite Ht1, <- Ht.
  - split; [done|]. intros (_ & c' & w0 & Heq).
    by apply (f_equal (map connected)) in Heq.
  - done.
Qed.
End mcp.

(** ** Witnesses *)
Section demo.
#[local] Existing Instance iso_date.
Definition demo_credential : CredentialRecord :=
  {| cr_base := {| sc_id := "cred_1"; sc_operatorId := "op_1"; sc_chatIds := []; sc_allow := [];
       sc_deny := []; sc_inboxIds := []; sc_status := st_active;
       sc_issuedAt := "2026-01-01T00:00:00.000Z"; sc_expiresAt := "2026-01-02T00:00:00.000Z";
       sc_issuedBy := "owner" |};
     cr_credentialId := "cred_1"; cr_operatorId := "op_1";
     cr_effectiveScopes := {| Scopes.allow := []; Scopes.deny := [] |}; cr_isExpired := false;
     cr_lastHeartbeat := "2026-01-01T00:00:00.000Z" |}.
Definition demo_tool : Spec :=
  mkSpec "seal.list" inr (Some "List seals") None (Some ai_read) None None (Some (mkMcp None None)) None.
Definition demo_registry : ActionRegistry Schema := register_all [demo_tool].
Definition demo_world : McpWorld := mkMcpWorld 1767225600000 ms_running (Some demo_credential) [] true.
Definition demo_ctx : HandlerContext := mkContext "signet" "r1" None None (Some "cred_1") None.
Definition demo_trace : list (event McpWorld meff) :=
  [Event _ (MCredentialLookup "cred_1") demo_world (Ok demo_credential);
   Event _ (MInvoke demo_tool (JObj []) demo_ctx) demo_world (Returned (Ok (JArr [])))].

Lemma demo_call_run : ∃ r, mc_isError r = false ∧
  run eq demo_world (onCallTool demo_registry "signet" "signet/seal/list" (JObj []) "r1")
    demo_trace demo_world r.
Proof.
  eexists. split; cycle 1.
  - unfold onCallTool. cbn -[demo_registry liveness]. eexists _, _, _. split_and!; [done..|].
    assert (liveness (mw_now demo_world) "cred_1" (Ok demo_credential) = Ok tt) as ->
      by (vm_compute; reflexivity).
    cbn -[demo_registry].
    assert (findSpecByToolName demo_registry "signet/seal/list" = Some demo_tool) as ->
      by (vm_compute; reflexivity).
    cbn. eexists _, _, _. split_and!; [done..|]. split_and!; reflexivity.
  - reflexivity.
Qed.
Lemma mcp_call_spec_witness :
  ∃ r, run eq demo_world (onCallTool demo_registry "signet" "signet/seal/list" (JObj []) "r1")
    demo_trace demo_world r ∧ demo_tool ∈ listForSurface "mcp" demo_registry.
Proof.
  destruct demo_call_run as (r & He & Hr). exists r. split; [done|].
  destruct (mcp_call_spec demo_registry "signet" eq demo_world "signet/seal/list" (JObj []) "r1"
    demo_trace demo_world r) as [(_ & [=] & _)|H].
  - intros a b ->. intros ?. done.
  - exact Hr.
  - destruct H as (c & found & t' & _ & Ht & [[-> _]|(w1 & spec & data & answer & -> & _ & Hin & Hn & _)]).
    + by apply (f_equal length) in Ht.
    + assert (listForSurface "mcp" demo_registry = [demo_tool]) as -> by (vm_compute; reflexivity). left.
Defined.

(** Two registered actions with the same tool name: the second is published
    too, and can never be called. *)
Lemma shadowed_tool :
  let a := demo_tool in
  let b := mkSpec "seal/list" inr (Some "Other") None (Some ai_destroy) None None (Some (mkMcp None None)) None in
  let r := register_all [a; b] in
  length (base.omap (actionSpecToMcpTool (λ _, JNull)) (listForSurface "mcp" r)) = 2%nat ∧
  as_id <$> findSpecByToolName r (deriveMcpToolName "signet" b) = Some "seal.list".
Proof. split; vm_compute; reflexivity. Qed.
End demo.
