(* ===== verification/Elevation.v ===== *)
(** * Admin read elevation

    [cli/src/admin/read-disclosure-store.ts], [read-disclosure-rollback-tracker.ts]
    and [read-elevation.ts]: reading messages as the owner's admin needs the
    dangerous-read flag and a local approval, which is cached per session and
    chat for a while, written to the audit log and disclosed in the seals of
    the chat.

    The manager is shared by the admin socket and the HTTP server and its
    requests overlap, so its functions are programs over one world, whose jobs
    are interleaved by [sys_step] of [Programs].  The approver, the audit log,
    the refresh of the seals and the handlers answer anything.  The effects of
    the two servers are in the same type. *)
From S2P Require Import Prelude JsDate Programs Text Json Errors Credentials CredentialService Contracts.

(** ** The disclosure store *)
Record AdminReadDisclosure := mkDisclosure { ad_operatorId : string; ad_expiresAt : string }.
#[export] Instance AdminReadDisclosure_eq_dec : EqDecision AdminReadDisclosure.
Proof. solve_decision. Defined.
Definition DisclosureStore : Type := omap string (omap string AdminReadDisclosure).
Definition disclosure_json (d : AdminReadDisclosure) : json :=
  JObj [("operatorId", JStr (ad_operatorId d)); ("expiresAt", JStr (ad_expiresAt d))].
(** [JSON.stringify]; [undefined] stays [undefined]. *)
Definition stableSerialize (d : option AdminReadDisclosure) : option string :=
  print <$> (disclosure_json <$> d).
Definition collectUniqueChatIds (chatIds : list string) : list string :=
  js_set (List.filter (λ c, negb (bool_decide (c = ""))) chatIds).

Section store.
Context `{JsDate} (now : Z).
Definition disclosure_stale (d : AdminReadDisclosure) : bool :=
  match date_getTime (ad_expiresAt d) with None => true | Some t => t <=? now end.
(** The body of the loop over the sessions of a chat. *)
Definition aggregate_step (includeExpired : bool)
  (acc : omap string AdminReadDisclosure * option AdminReadDisclosure) (entry : string * AdminReadDisclosure)
  : omap string AdminReadDisclosure * option AdminReadDisclosure :=
  let '(kept, latest) := acc in
  let '(sessionKey, disclosure) := entry in
  if negb includeExpired && disclosure_stale disclosure then (om_delete sessionKey kept, latest)
  else (kept, match latest with
              | None => Some disclosure
              | Some l => if num_ltb (date_getTime (ad_expiresAt l)) (date_getTime (ad_expiresAt disclosure))
                          then Some disclosure else Some l
              end).
(** The live entries, purged of the stale ones unless they are included, and
    the latest of them. *)
Definition aggregateForChat (includeExpired : bool) (chatId : string) (entries : DisclosureStore)
  : DisclosureStore * option AdminReadDisclosure :=
  match om_get chatId entries with
  | None => (entries, None)
  | Some perSession =>
      let '(kept, latest) := foldl (aggregate_step includeExpired) (perSession, None) perSession in
      if (length kept =? 0)%nat then (om_delete chatId entries, None)
      else (om_set chatId kept entries, latest)
  end.
Definition mutate_chat (fn : omap string AdminReadDisclosure → omap string AdminReadDisclosure)
  (acc : DisclosureStore * list string) (chatId : string) : DisclosureStore * list string :=
  let '(entries, changed) := acc in
  let '(entries, before) := aggregateForChat false chatId entries in
  let perSession := fn (default [] (om_get chatId entries)) in
  let entries := if (0 <? length perSession)%nat then om_set chatId perSession entries
                 else om_delete chatId entries in
  let '(entries, after) := aggregateForChat false chatId entries in
  (entries, if bool_decide (stableSerialize before = stableSerialize after) then changed
            else changed ++ [chatId]).
Definition mutate (fn : omap string AdminReadDisclosure → omap string AdminReadDisclosure)
  (chatIds : list string) (entries : DisclosureStore) : DisclosureStore * list string :=
  foldl (mutate_chat fn) (entries, []) (collectUniqueChatIds chatIds).
Definition ds_set (chatIds : list string) (sessionKey : string) (d : AdminReadDisclosure)
  : DisclosureStore → DisclosureStore * list string := mutate (om_set sessionKey d) chatIds.
Definition ds_delete (chatIds : list string) (sessionKey : string)
  : DisclosureStore → DisclosureStore * list string := mutate (om_delete sessionKey) chatIds.
Definition ds_restore (chatIds : list string) (sessionKey : string) (d : AdminReadDisclosure)
  (entries : DisclosureStore) : DisclosureStore :=
  foldl (λ entries chatId, om_set chatId (om_set sessionKey d (default [] (om_get chatId entries))) entries)
    entries (collectUniqueChatIds chatIds).
Definition ds_get : string → DisclosureStore → DisclosureStore * option AdminReadDisclosure :=
  aggregateForChat false.
Definition ds_peek : string → DisclosureStore → DisclosureStore * option AdminReadDisclosure :=
  aggregateForChat true.
End store.

(** ** The rollback tracker *)
Definition RollbackTracker : Type := omap string Z.
Definition rb_enter (chatIds : list string) (counts : RollbackTracker) : RollbackTracker :=
  foldl (λ counts c, om_set c (default 0 (om_get c counts) + 1) counts) counts
    (collectUniqueChatIds chatIds).
Definition rb_leave (chatIds : list string) (counts : RollbackTracker) : RollbackTracker :=
  foldl (λ counts c,
    let next := default 0 (om_get c counts) - 1 in
    if 0 <? next then om_set c next counts else om_delete c counts) counts
    (collectUniqueChatIds chatIds).
Definition rb_has (chatId : string) (counts : RollbackTracker) : bool :=
  0 <? default 0 (om_get chatId counts).

(** ** The elevation manager *)
Record AuditEntry := mkAudit {
  au_timestamp : string; au_actor : string; au_action : string; au_target : option string;
  au_detail : option json; au_success : bool
}.
Record AdminJwtPayload := mkJwt {
  jwt_iss : string; jwt_sub : string; jwt_iat : Z; jwt_exp : Z; jwt_jti : string
}.
Inductive eeff : Type → Type :=
  | EAuthorize : eeff (result SignetError unit)
  | EFingerprint : eeff (result SignetError string)
  | EAudit (entry : AuditEntry) : eeff (option string)    (** [Some cause]: it threw *)
  | ENotify (chatIds : list string) (includeExpired : bool) : eeff (result SignetError unit)
  | EVerifyJwt (token : string) : eeff (result SignetError AdminJwtPayload)
  | ELookupToken (token : string) : eeff (result SignetError CredentialRecord)
  | EInvoke (spec : ActionSpec Schema) (input : json) (ctx : HandlerContext) : eeff HandlerAnswer
  | EStatus : eeff json
  | EReadBody : eeff (option string).                      (** [None]: it threw *)

Record CachedElevation := mkCached {
  ce_elevation : AdminReadElevation; ce_chatId : string; ce_sessionKey : string
}.
(** A connection of the admin socket ([admin/server.ts]). *)
Record ConnectionState := mkConn {
  cs_authenticated : bool; cs_adminFingerprint : option string; cs_adminSessionKey : option string;
  cs_buffer : string
}.
(** [ew_timers]: the armed timers, with the closure's entry and due time;
    [ew_conns], [ew_written]: the sockets and the lines written to them. *)
Record EWorld := mkEWorld {
  ew_now : Z; ew_cache : omap string CachedElevation; ew_timers : omap string (CachedElevation * Z);
  ew_store : DisclosureStore; ew_conns : omap nat ConnectionState; ew_written : list (nat * json)
}.
Abbreviation EProg := (prog EWorld eeff).
Definition with_cache (f : omap string CachedElevation → omap string CachedElevation) (w : EWorld) : EWorld :=
  mkEWorld (ew_now w) (f (ew_cache w)) (ew_timers w) (ew_store w) (ew_conns w) (ew_written w).
Definition with_timers (f : omap string (CachedElevation * Z) → omap string (CachedElevation * Z))
  (w : EWorld) : EWorld := mkEWorld (ew_now w) (ew_cache w) (f (ew_timers w)) (ew_store w) (ew_conns w)
    (ew_written w).
Definition with_store {X} (f : DisclosureStore → DisclosureStore * X) (w : EWorld) : EWorld * X :=
  let '(s, x) := f (ew_store w) in
  (mkEWorld (ew_now w) (ew_cache w) (ew_timers w) s (ew_conns w) (ew_written w), x).

(** The dependencies that may be absent, and the values of the others. *)
Record ElevationDeps := mkElevationDeps {
  ed_approver : bool; ed_auditLog : bool; ed_disclosureStore : bool; ed_onDisclosureChanged : bool;
  ed_disclosureActorId : string; ed_normalizeChatId : string → string; ed_ttlMs : Z
}.
Definition DEFAULT_READ_ELEVATION_TTL_MS : Z := 60000.
Record ElevationInput := mkInput {
  in_method : string; in_params : json; in_adminFingerprint : string; in_sessionKey : string
}.
Definition isMessageReadMethod (method : string) : bool :=
  bool_decide (method = "message.list") || bool_decide (method = "message.info") ||
  bool_decide (method = "search.messages").
Definition wantsDangerousMessageRead (params : json) : bool :=
  bool_decide (jget "dangerouslyAllowMessageRead" params = JBool true) ||
  bool_decide (jget "dangerouslyAllowMessageRead" params = JStr "true").
Definition resolveChatId (params : json) : option string :=
  match jget "chatId" params with
  | JStr chatId => if bool_decide (chatId = "") then None else Some chatId
  | _ => None
  end.
Definition buildCacheKey (sessionKey chatId : string) : string := sessionKey +:+ ":" +:+ chatId.

Section manager.
Context `{JsDate} (deps : ElevationDeps).
Abbreviation res := (result SignetError unit).

Definition appendAudit (action : string) (success : bool) (target : option string) (detail : option json)
  : EProg res :=
  let fail cause := Err (InternalError_create "Failed to write admin read elevation audit log"
                           (Some [("cause", JStr cause); ("action", JStr action)])) in
  (if negb (ed_auditLog deps) then Ret (Ok tt)
   else
     sync now <- (λ w, (w, ew_now w)) ;;
     match date_toISOString now with
     | None => Ret (fail "Invalid Date")
     | Some timestamp =>
         await thrown <- EAudit (mkAudit timestamp "admin" action target detail success) ;;
         Ret (match thrown with None => Ok tt | Some cause => fail cause end)
     end)%prog.
Definition session_detail (input : ElevationInput) (elevation : AdminReadElevation) : json :=
  JObj [("method", JStr (in_method input));
        ("adminKeyFingerprint", JStr (in_adminFingerprint input));
        ("approvalId", JStr (ae_approvalId elevation));
        ("expiresAt", JStr (ae_expiresAt elevation)); ("mode", JStr "session-scoped")].
Definition appendReuseAudit (input : ElevationInput) (elevation : AdminReadElevation) (chatId : string)
  : EProg res :=
  appendAudit "admin.read-elevation.reused" true (Some chatId) (Some (session_detail input elevation)).
Definition appendExpiredAudit (input : ElevationInput) (elevation : AdminReadElevation) (chatId : string)
  : EProg res :=
  appendAudit "admin.read-elevation.expired" true (Some chatId) (Some (session_detail input elevation)).

Definition notifyDisclosureChanged (chatIds : list string) (includeExpired : bool) : EProg res :=
  (if negb (ed_onDisclosureChanged deps) || (length chatIds =? 0)%nat then Ret (Ok tt)
   else await r <- ENotify chatIds includeExpired ;; Ret r)%prog.
Definition clearExpirationTimer (cacheKey : string) : EWorld → EWorld := with_timers (om_delete cacheKey).

Definition rollback_error (text : string) (e rollback : SignetError) : SignetError :=
  InternalError_create text
    (Some [("reason", JStr (message e)); ("category", JStr (category_name (category e)));
           ("rollbackReason", JStr (message rollback));
           ("rollbackCategory", JStr (category_name (category rollback)))]).
Definition cached_disclosure (cached : CachedElevation) : AdminReadDisclosure :=
  mkDisclosure (ed_disclosureActorId deps) (ae_expiresAt (ce_elevation cached)).
Definition syncDisclosureApproval (cached : CachedElevation) : EProg res :=
  (if negb (ed_disclosureStore deps) then Ret (Ok tt)
   else
     sync changedChats <- (λ w, with_store (ds_set (ew_now w) [ce_chatId cached] (ce_sessionKey cached)
       (cached_disclosure cached)) w) ;;
     do notifyResult <- notifyDisclosureChanged changedChats false ;;
     match notifyResult with
     | Ok _ => Ret (Ok tt)
     | Err e =>
         sync rollbackChats <- (λ w, with_store (ds_delete (ew_now w) [ce_chatId cached]
           (ce_sessionKey cached)) w) ;;
         do rollbackResult <- notifyDisclosureChanged rollbackChats false ;;
         match rollbackResult with
         | Err e' => Ret (Err (rollback_error "Failed to roll back admin read disclosure refresh" e e'))
         | Ok _ => Ret (Err e)
         end
     end)%prog.
Definition syncDisclosureExpiry (cached : CachedElevation) : EProg res :=
  (if negb (ed_disclosureStore deps) then Ret (Ok tt)
   else
     sync changedChats <- (λ w, with_store (ds_delete (ew_now w) [ce_chatId cached]
       (ce_sessionKey cached)) w) ;;
     do notifyResult <- notifyDisclosureChanged changedChats false ;;
     match notifyResult with
     | Ok _ => Ret (Ok tt)
     | Err e =>
         sync _ <- (λ w, with_store (λ s, (ds_restore [ce_chatId cached] (ce_sessionKey cached)
           (cached_disclosure cached) s, tt)) w) ;;
         do rollbackResult <- notifyDisclosureChanged [ce_chatId cached] true ;;
         match rollbackResult with
         | Err e' => Ret (Err (rollback_error
             "Failed to roll back expired admin read disclosure refresh" e e'))
         | Ok _ => Ret (Err e)
         end
     end)%prog.

Definition refresh_failed_detail (elevation : AdminReadElevation) (stage : string) (e : SignetError)
  : list (string * json) :=
  [("approvalId", JStr (ae_approvalId elevation)); ("expiresAt", JStr (ae_expiresAt elevation));
   ("stage", JStr stage); ("reason", JStr (message e));
   ("category", JStr (category_name (category e)))].
Definition expireCachedElevation (cached : CachedElevation) (input : option ElevationInput) : EProg res :=
  let cacheKey := buildCacheKey (ce_sessionKey cached) (ce_chatId cached) in
  let input := default (mkInput "message.list" (JObj [("chatId", JStr (ce_chatId cached))]) ""
                          (ce_sessionKey cached)) input in
  (sync _ <- (λ w, (clearExpirationTimer cacheKey (with_cache (om_delete cacheKey) w), tt)) ;;
   do disclosureResult <- syncDisclosureExpiry cached ;;
   do expiredAudit <- appendExpiredAudit input (ce_elevation cached) (ce_chatId cached) ;;
   match disclosureResult with
   | Err e =>
       do auditResult <- appendAudit "admin.read-elevation.disclosure-refresh-failed" false
         (Some (ce_chatId cached)) (Some (JObj (refresh_failed_detail (ce_elevation cached) "expiry" e))) ;;
       Ret (match auditResult with Err e' => Err e' | Ok _ => Err e end)
   | Ok _ => Ret expiredAudit
   end)%prog.

Definition scheduleExpiration (cached : CachedElevation) (w : EWorld) : EWorld :=
  let cacheKey := buildCacheKey (ce_sessionKey cached) (ce_chatId cached) in
  let delayMs := Z.max 0 (default 0 (date_getTime (ae_expiresAt (ce_elevation cached))) - ew_now w) in
  with_timers (om_set cacheKey (cached, ew_now w + delayMs)) (clearExpirationTimer cacheKey w).
(** The callback of a timer. *)
Definition on_expiration (cached : CachedElevation) : EProg res := expireCachedElevation cached None.

Definition elevation_live (now : Z) (e : AdminReadElevation) : bool :=
  match date_getTime (ae_expiresAt e) with Some t => now <? t | None => false end.

(** The part of a request after the cache: ask for an approval. [uuid] is the
    fresh [crypto.randomUUID()] without its dashes.  The outer [None] is a
    rejected promise: a time outside the range of [Date]. *)
Definition approve (input : ElevationInput) (chatId uuid : string)
  : EProg (option (result SignetError (option AdminReadElevation))) :=
  let cacheKey := buildCacheKey (in_sessionKey input) chatId in
  (if negb (ed_approver deps) then
     Ret (Some (Err (InternalError_create "Admin read elevation approver is not configured"
       (Some [("method", JStr (in_method input))]))))
   else
     await authorizeResult <- EAuthorize ;;
     match authorizeResult with
     | Err e =>
         do auditResult <- appendAudit "admin.read-elevation.denied" false (Some chatId)
           (Some (JObj [("method", JStr (in_method input));
                        ("adminKeyFingerprint", JStr (in_adminFingerprint input));
                        ("reason", JStr (message e)); ("category", JStr (category_name (category e)));
                        ("mode", JStr "session-scoped")])) ;;
         Ret (Some (match auditResult with Err e' => Err e' | Ok _ => Err e end))
     | Ok _ =>
         await fingerprintResult <- EFingerprint ;;
         match fingerprintResult with
         | Err e => Ret (Some (Err e))
         | Ok fingerprint =>
             sync approvedAt <- (λ w, (w, ew_now w)) ;;
             match date_toISOString approvedAt, date_toISOString (approvedAt + ed_ttlMs deps) with
             | Some approvedAtS, Some expiresAtS =>
                 let elevation := mkElevation ("approval_" +:+ uuid) [chatId] approvedAtS expiresAtS
                                    fingerprint in
                 let nextCached := mkCached elevation chatId (in_sessionKey input) in
                 do disclosureResult <- syncDisclosureApproval nextCached ;;
                 match disclosureResult with
                 | Err e =>
                     do auditResult <- appendAudit "admin.read-elevation.disclosure-refresh-failed" false
                       (Some chatId)
                       (Some (JObj ([("method", JStr (in_method input));
                                     ("adminKeyFingerprint", JStr (in_adminFingerprint input))] ++
                                    refresh_failed_detail elevation "approval" e))) ;;
                     Ret (Some (match auditResult with Err e' => Err e' | Ok _ => Err e end))
                 | Ok _ =>
                     do auditResult <- appendAudit "admin.read-elevation.approved" true (Some chatId)
                       (Some (JObj [("method", JStr (in_method input));
                                    ("adminKeyFingerprint", JStr (in_adminFingerprint input));
                                    ("approvalId", JStr (ae_approvalId elevation));
                                    ("expiresAt", JStr (ae_expiresAt elevation));
                                    ("approvalKeyFingerprint", JStr (ae_approvalKeyFingerprint elevation));
                                    ("mode", JStr "session-scoped")])) ;;
                     match auditResult with
                     | Err e =>
                         do rollbackResult <- syncDisclosureExpiry nextCached ;;
                         Ret (Some (match rollbackResult with Err e' => Err e' | Ok _ => Err e end))
                     | Ok _ =>
                         sync _ <- (λ w, (scheduleExpiration nextCached
                           (with_cache (om_set cacheKey nextCached) w), tt)) ;;
                         Ret (Some (Ok (Some elevation)))
                     end
                 end
             | _, _ => Ret None
             end
         end
     end)%prog.

Definition resolveForRequest (input : ElevationInput) (uuid : string)
  : EProg (option (result SignetError (option AdminReadElevation))) :=
  (if negb (isMessageReadMethod (in_method input)) || negb (wantsDangerousMessageRead (in_params input))
   then Ret (Some (Ok None))
   else match resolveChatId (in_params input) with
        | None => Ret (Some (Ok None))
        | Some chatId =>
            let canonicalChatId := ed_normalizeChatId deps chatId in
            let cacheKey := buildCacheKey (in_sessionKey input) canonicalChatId in
            sync read <- (λ w, (w, (om_get cacheKey (ew_cache w), ew_now w))) ;;
            match fst read with
            | Some cached =>
                if elevation_live (snd read) (ce_elevation cached) then
                  do reuseAudit <- appendReuseAudit input (ce_elevation cached) canonicalChatId ;;
                  Ret (Some (match reuseAudit with Err e => Err e
                             | Ok _ => Ok (Some (ce_elevation cached)) end))
                else
                  do expiryResult <- expireCachedElevation cached (Some input) ;;
                  match expiryResult with
                  | Err e => Ret (Some (Err e))
                  | Ok _ => approve input canonicalChatId uuid
                  end
            | None => approve input canonicalChatId uuid
            end
        end)%prog.
End manager.

(** ** The disclosure store: what it discloses and what it reports *)
Definition store_ok (entries : DisclosureStore) : Prop :=
  NoDup entries.*1 ∧ ∀ c m, (c, m) ∈ entries → NoDup m.*1.

Section store_facts.
Context `{JsDate} (now : Z).
(** The later of two disclosures, the first on a tie. *)
Definition pick (latest : option AdminReadDisclosure) (d : AdminReadDisclosure)
  : option AdminReadDisclosure :=
  match latest with
  | None => Some d
  | Some l => if num_ltb (date_getTime (ad_expiresAt l)) (date_getTime (ad_expiresAt d))
              then Some d else Some l
  end.
Definition live (kv : string * AdminReadDisclosure) : bool := negb (disclosure_stale now kv.2).
(** What the seals of a chat show: the latest of its live disclosures. *)
Definition disclosed (chatId : string) (entries : DisclosureStore) : option AdminReadDisclosure :=
  foldl pick None (List.filter live (default [] (om_get chatId entries))).*2.

(** The loop keeps the live entries. *)
Lemma aggregate_loop m : NoDup m.*1 → ∀ pre latest,
  (∀ k, k ∈ m.*1 → k ∉ pre.*1) →
  foldl (aggregate_step now false) (pre ++ m, latest) m =
  (pre ++ List.filter live m, foldl pick latest (List.filter live m).*2).
Proof.
  induction m as [|[k d] m IH]; intros Hnd pre latest Hpre; [done|].
  rewrite fmap_cons, NoDup_cons in Hnd. destruct Hnd as [Hk Hnd]. cbn [foldl List.filter].
  assert (aggregate_step now false (pre ++ (k, d) :: m, latest) (k, d) =
    if live (k, d) then (pre ++ (k, d) :: m, pick latest d) else (om_delete k (pre ++ (k, d) :: m), latest))
    as -> by (unfold aggregate_step, live; cbn; by destruct (disclosure_stale now d)).
  destruct (live (k, d)); [|].
  - replace (pre ++ (k, d) :: m) with ((pre ++ [(k, d)]) ++ m) by (by rewrite <- app_assoc).
    rewrite IH; [|done|].
    + rewrite <- app_assoc. cbn [app fmap list_fmap snd foldl]. f_equal.
    + intros k' Hk'. rewrite fmap_app, not_elem_of_app. split.
      * apply Hpre. cbn. by right.
      * cbn. rewrite list_elem_of_singleton. by intros ->.
  - assert (om_delete k (pre ++ (k, d) :: m) = pre ++ m) as ->.
    { unfold om_delete. rewrite filter_app, filter_cons, decide_False by (cbn; tauto).
      fold (om_delete k pre). fold (om_delete k m). rewrite !om_delete_absent; [done..|].
      apply Hpre. cbn. by left. }
    apply IH; [done|]. intros k' Hk'. apply Hpre. cbn. by right.
Qed.
Lemma aggregate_spec c entries : store_ok entries →
  aggregateForChat now false c entries =
  (let kept := List.filter live (default [] (om_get c entries)) in
   (match om_get c entries with
    | None => entries
    | Some _ => if (length kept =? 0)%nat then om_delete c entries else om_set c kept entries
    end, disclosed c entries)).
Proof.
  intros [Hnd Hok]. unfold aggregateForChat, disclosed. destruct (om_get c entries) as [m|] eqn:Hm; [|done].
  cbn [default]. assert (NoDup m.*1) as Hm' by (by eapply Hok, om_get_elem).
  pose proof (aggregate_loop m Hm' [] None) as Hl. cbn [app] in Hl. rewrite Hl by (intros k _; apply not_elem_of_nil).
  cbn [default]. change (id m) with m. by destruct (List.filter live m).
Qed.

Lemma filter_live_idem m : List.filter live (List.filter live m) = List.filter live m.
Proof. apply List.forallb_filter_id. apply forallb_forall. by intros x [_ ?]%List.filter_In. Qed.
Lemma filter_keys_sub m : NoDup (m : omap string AdminReadDisclosure).*1 → NoDup (List.filter live m).*1.
Proof.
  induction m as [|kv m IH]; [done|]. rewrite fmap_cons, NoDup_cons. intros [Hk Hnd]. cbn.
  destruct (live kv); [|by apply IH]. rewrite fmap_cons. constructor; [|by apply IH].
  intros Hin. apply Hk. apply list_elem_of_fmap in Hin as (kv' & Hkv & Hin).
  rewrite Hkv. apply list_elem_of_fmap_2. rewrite list_elem_of_In in Hin |- *.
  by apply List.filter_In in Hin as [? _].
Qed.
Lemma store_ok_set c m entries : store_ok entries → NoDup m.*1 → store_ok (om_set c m entries).
Proof.
  intros [Hnd Hok] Hm. split; [by apply om_set_NoDup|]. intros c' m' Hin.
  apply om_elem_set in Hin as [[-> ->]|[_ Hin]]; [done|by eapply Hok|done].
Qed.
Lemma store_ok_delete c entries : store_ok entries → store_ok (om_delete c entries).
Proof.
  intros [Hnd Hok]. split; [by apply om_delete_NoDup|]. intros c' m'.
  unfold om_delete. intros [_ Hin]%list_elem_of_filter. by eapply Hok.
Qed.
Lemma store_ok_get c entries : store_ok entries → NoDup (default [] (om_get c entries)).*1.
Proof.
  intros [_ Hok]. destruct (om_get c entries) as [m|] eqn:Hm; [|constructor].
  by eapply Hok, om_get_elem.
Qed.

(** Purging changes nothing that is disclosed. *)
Lemma aggregate_purge c entries : store_ok entries →
  store_ok (aggregateForChat now false c entries).1 ∧
  (∀ c', List.filter live (default [] (om_get c' (aggregateForChat now false c entries).1)) =
         List.filter live (default [] (om_get c' entries))) ∧
  (∀ c', disclosed c' (aggregateForChat now false c entries).1 = disclosed c' entries).
Proof.
  intros Hok. rewrite aggregate_spec by done. cbn [fst]. pose proof (store_ok_get c entries Hok) as Hg.
  assert (∀ st, (∀ c', List.filter live (default [] (om_get c' st)) =
    List.filter live (default [] (om_get c' entries))) → ∀ c', disclosed c' st = disclosed c' entries) as Hd.
  { intros st Hst c'. unfold disclosed. by rewrite Hst. }
  destruct (om_get c entries) as [m|] eqn:Hm; [|done]. cbn [default] in *. unfold id in *.
  enough (∀ st, st = (if (length (List.filter live m) =? 0)%nat then om_delete c entries
                else om_set c (List.filter live m) entries) →
    store_ok st ∧ ∀ c', List.filter live (default [] (om_get c' st)) =
      List.filter live (default [] (om_get c' entries))) as Hst.
  { destruct (Hst _ eq_refl) as [? ?]. split_and!; [done..|by apply Hd]. }
  intros st ->. destruct (length (List.filter live m) =? 0)%nat eqn:Hl.
  - split; [by apply store_ok_delete|]. intros c'. rewrite om_get_delete. case_decide as Hc; [|done].
    subst c'. rewrite Hm. cbn. unfold id. apply Nat.eqb_eq, length_zero_iff_nil in Hl. by rewrite Hl.
  - split; [apply store_ok_set; [done|by apply filter_keys_sub]|]. intros c'. rewrite om_get_set.
    case_decide as Hc; [|done]. subst c'. rewrite Hm. cbn. unfold id. apply filter_live_idem.
Qed.

Lemma stableSerialize_inj a b : stableSerialize a = stableSerialize b ↔ a = b.
Proof.
  split; [|by intros ->]. destruct a as [a|], b as [b|]; [|done..].
  intros Hp. apply (inj Some) in Hp.
  assert (disclosure_json a = disclosure_json b) as Hj.
  { apply (print_inj (disclosure_json a) (disclosure_json b) "" ""); [done..|].
    by rewrite !str_app_nil_r. }
  destruct a, b. unfold disclosure_json in Hj. cbn in Hj. by simplify_eq.
Qed.

(** What a chat discloses after its sessions went through [fn]. *)
Definition disclosed_by (fn : omap string AdminReadDisclosure → omap string AdminReadDisclosure)
  (c : string) (entries : DisclosureStore) : option AdminReadDisclosure :=
  foldl pick None (List.filter live (fn (List.filter live (default [] (om_get c entries))))).*2.

Lemma purged_get c entries : store_ok entries →
  default [] (om_get c (aggregateForChat now false c entries).1) =
  List.filter live (default [] (om_get c entries)).
Proof.
  intros Hok. rewrite aggregate_spec by done. cbn [fst].
  destruct (om_get c entries) as [m|] eqn:Hm; [|by rewrite Hm]. cbn [default]. change (id m) with m.
  destruct (length (List.filter live m) =? 0)%nat eqn:Hl.
  - rewrite om_get_delete, decide_True by done. apply Nat.eqb_eq, length_zero_iff_nil in Hl. by rewrite Hl.
  - by rewrite om_get_set_eq.
Qed.

Section mutation.
Context (fn : omap string AdminReadDisclosure → omap string AdminReadDisclosure)
  (Hfn : ∀ m, NoDup m.*1 → NoDup (fn m).*1).

Lemma mutate_chat_spec entries changed c entries' changed' : store_ok entries →
  mutate_chat now fn (entries, changed) c = (entries', changed') →
  store_ok entries' ∧
  (∀ c', disclosed c' entries' = if decide (c' = c) then disclosed_by fn c entries
                                 else disclosed c' entries) ∧
  (∀ c', c' ≠ c → List.filter live (default [] (om_get c' entries')) =
                  List.filter live (default [] (om_get c' entries))) ∧
  changed' = if decide (disclosed c entries = disclosed c entries') then changed else changed ++ [c].
Proof.
  intros Hok. unfold mutate_chat. destruct (aggregate_purge c entries Hok) as (Hok1 & Hl1 & Hd1).
  pose proof (purged_get c entries Hok) as Hp1.
  assert ((aggregateForChat now false c entries).2 = disclosed c entries) as Hb
    by (by rewrite aggregate_spec).
  destruct (aggregateForChat now false c entries) as [e1 before]. cbn [fst snd] in *. subst before.
  rewrite Hp1. set (per := fn (List.filter live (default [] (om_get c entries)))).
  set (e2 := if (0 <? length per)%nat then om_set c per e1 else om_delete c e1).
  assert (store_ok e2) as Hok2.
  { subst e2. case_match; [apply store_ok_set; [done|apply Hfn, filter_keys_sub; by apply store_ok_get]|].
    by apply store_ok_delete. }
  assert (∀ c', default [] (om_get c' e2) = if decide (c' = c) then per else default [] (om_get c' e1)) as Hg2.
  { intros c'. subst e2. destruct (0 <? length per)%nat eqn:Hz.
    - rewrite om_get_set. destruct (decide (c' = c)) as [->|]; [by rewrite decide_True|].
      by rewrite decide_False.
    - rewrite om_get_delete. destruct (decide (c' = c)) as [->|]; [|by rewrite decide_False].
      rewrite decide_True by done. apply Nat.ltb_ge in Hz. destruct per; [done|cbn in Hz; lia]. }
  destruct (aggregate_purge c e2 Hok2) as (Hok3 & Hl3 & Hd3).
  assert ((aggregateForChat now false c e2).2 = disclosed c e2) as Ha by (by rewrite aggregate_spec).
  destruct (aggregateForChat now false c e2) as [e3 after]. cbn [fst snd] in *. subst after.
  intros [= <- <-]. split_and!; [done|..].
  - intros c'. rewrite Hd3. unfold disclosed at 1. rewrite Hg2. case_decide; [by subst|].
    by rewrite Hl1.
  - intros c' Hc. rewrite Hl3, Hg2, decide_False by done. by rewrite Hl1.
  - rewrite Hd3. case_bool_decide as Hs; rewrite stableSerialize_inj in Hs; by case_decide.
Qed.

(** A chain of such changes to distinct chats. *)
Lemma mutate_fold l entries entries' changed : NoDup l → store_ok entries →
  foldl (mutate_chat now fn) (entries, []) l = (entries', changed) →
  store_ok entries' ∧ NoDup changed ∧
  (∀ c, c ∈ changed ↔ c ∈ l ∧ disclosed c entries' ≠ disclosed c entries) ∧
  (∀ c, disclosed c entries' = if decide (c ∈ l) then disclosed_by fn c entries
                               else disclosed c entries) ∧
  (∀ c, c ∉ l → List.filter live (default [] (om_get c entries')) =
                List.filter live (default [] (om_get c entries))).
Proof using Hfn.
  intros Hnd Hok. revert entries' changed Hnd. induction l as [|c l IH] using rev_ind; intros entries' changed Hnd Hf.
  - cbn in Hf. simplify_eq. split_and!; [done|constructor|set_solver|set_solver|done].
  - apply NoDup_app in Hnd as (Hndl & Hc & _).
    assert (c ∉ l) as Hcl by (intros ?; by apply (Hc c); [|apply list_elem_of_singleton]).
    rewrite foldl_app in Hf. cbn [foldl] in Hf.
    destruct (foldl (mutate_chat now fn) (entries, []) l) as [e1 ch1] eqn:E1.
    destruct (IH e1 ch1 Hndl eq_refl) as (Hok1 & Hn1 & Hch1 & Hd1 & Hg1).
    destruct (mutate_chat_spec e1 ch1 c entries' changed Hok1 Hf) as (Hok2 & Hd2 & Hg2 & ->).
    assert (disclosed_by fn c e1 = disclosed_by fn c entries) as Hby
      by (unfold disclosed_by; by rewrite Hg1).
    assert (disclosed c e1 = disclosed c entries) as Hdc by (rewrite Hd1; by rewrite decide_False).
    assert (c ∉ ch1) as Hnc by (intros [? _]%Hch1; done).
    split_and!.
    + done.
    + case_decide; [done|]. apply NoDup_app. split_and!; [done| |apply NoDup_singleton].
      by intros x Hx ->%list_elem_of_singleton.
    + intros x. rewrite elem_of_app, list_elem_of_singleton. destruct (decide (x = c)) as [->|Hne].
      * rewrite <- Hdc. case_decide as Hx.
        -- split; [done|]. intros [_ Hd]. congruence.
        -- rewrite elem_of_app, list_elem_of_singleton. split; [|by right].
           intros _. split; [by right|congruence].
      * rewrite (Hd2 x). destruct (decide (x = c)) as [|_]; [done|].
        assert (x ∈ ch1 ↔ (x ∈ l ∨ x = c) ∧ disclosed x e1 ≠ disclosed x entries) as Hx
          by (rewrite Hch1; clear -Hne; tauto).
        case_decide; [exact Hx|]. rewrite elem_of_app, list_elem_of_singleton, Hx. clear -Hne. tauto.
    + intros x. rewrite Hd2. destruct (decide (x = c)) as [->|Hne].
      * rewrite Hby. rewrite decide_True; [done|]. apply elem_of_app. right. by apply list_elem_of_singleton.
      * rewrite Hd1. apply decide_ext. rewrite elem_of_app, list_elem_of_singleton. naive_solver.
    + intros x. rewrite not_elem_of_app, list_elem_of_singleton. intros [Hx Hne].
      rewrite Hg2 by done. by apply Hg1.
Qed.

Lemma mutate_spec chatIds entries entries' changed : store_ok entries →
  mutate now fn chatIds entries = (entries', changed) →
  store_ok entries' ∧ NoDup changed ∧
  (∀ c, c ∈ changed ↔ (c ∈ chatIds ∧ c ≠ "") ∧ disclosed c entries' ≠ disclosed c entries) ∧
  (∀ c, disclosed c entries' =
     if decide (c ∈ chatIds ∧ c ≠ "") then disclosed_by fn c entries else disclosed c entries).
Proof using Hfn.
  intros Hok. unfold mutate.
  assert (∀ c, c ∈ collectUniqueChatIds chatIds ↔ c ∈ chatIds ∧ c ≠ "") as Hin.
  { intros c. unfold collectUniqueChatIds. rewrite elem_of_js_set, list_elem_of_In, List.filter_In, <- list_elem_of_In.
    rewrite negb_true_iff, bool_decide_eq_false. done. }
  intros Hf. apply mutate_fold in Hf as (Hok' & Hnd & Hch & Hd & _); [|apply NoDup_js_set|done].
  split_and!; [done..| |].
  - intros c. by rewrite Hch, Hin.
  - intros c. rewrite Hd. apply decide_ext, Hin.
Qed.
End mutation.

(** approving or expiring a read access reports exactly the chats whose
    public disclosure changed, each once, so no seal is refreshed in vain and
    none is left stale; every other chat keeps what it disclosed, and a named
    one discloses the latest live disclosure among its sessions, with that of
    this session added or removed. *)
Theorem disclosure_changes_exact chatIds sessionKey d entries : store_ok entries →
  let after m := foldl pick None (List.filter live m).*2 in
  let sessions c := List.filter live (default [] (om_get c entries)) in
  (let '(entries', changed) := ds_set now chatIds sessionKey d entries in
   store_ok entries' ∧ NoDup changed ∧
   (∀ c, c ∈ changed ↔ (c ∈ chatIds ∧ c ≠ "") ∧ (ds_get now c entries').2 ≠ (ds_get now c entries).2) ∧
   (∀ c, (ds_get now c entries').2 =
      if decide (c ∈ chatIds ∧ c ≠ "") then after (om_set sessionKey d (sessions c)) else after (sessions c))) ∧
  (let '(entries', changed) := ds_delete now chatIds sessionKey entries in
   store_ok entries' ∧ NoDup changed ∧
   (∀ c, c ∈ changed ↔ (c ∈ chatIds ∧ c ≠ "") ∧ (ds_get now c entries').2 ≠ (ds_get now c entries).2) ∧
   (∀ c, (ds_get now c entries').2 =
      if decide (c ∈ chatIds ∧ c ≠ "") then after (om_delete sessionKey (sessions c)) else after (sessions c))).
Proof.
  intros Hok after sessions.
  assert (∀ c e, store_ok e → (ds_get now c e).2 = disclosed c e) as Hg
    by (intros c e He; unfold ds_get; by rewrite aggregate_spec).
  assert (∀ c, after (sessions c) = disclosed c entries) as Ha
    by (intros c; subst after sessions; unfold disclosed; cbn; by rewrite filter_live_idem).
  split.
  - destruct (ds_set _ _ _ _ _) as [entries' changed] eqn:E.
    apply mutate_spec in E as (Hok' & Hnd & Hch & Hd); [|intros; by apply om_set_NoDup|done].
    split_and!; [done..| |]; intros c; rewrite !Hg by done; [apply Hch|]. by rewrite Ha, Hd.
  - destruct (ds_delete _ _ _ _) as [entries' changed] eqn:E.
    apply mutate_spec in E as (Hok' & Hnd & Hch & Hd); [|intros; by apply om_delete_NoDup|done].
    split_and!; [done..| |]; intros c; rewrite !Hg by done; [apply Hch|]. by rewrite Ha, Hd.
Qed.

(** The disclosure of an elevation that has run out is gone before it is
    deleted, so deleting it changes nothing. *)
Lemma delete_expired_silent chatId sessionKey entries : store_ok entries →
  (∀ d, om_get sessionKey (default [] (om_get chatId entries)) = Some d → disclosure_stale now d = true) →
  (ds_delete now [chatId] sessionKey entries).2 = [].
Proof.
  intros Hok Hst. unfold ds_delete. destruct (mutate _ _ _ _) as [e' changed] eqn:E.
  apply mutate_spec in E as (_ & _ & Hch & Hd); [|intros; by apply om_delete_NoDup|done].
  cbn. destruct changed as [|c changed]; [done|]. exfalso.
  destruct (proj1 (Hch c)) as [[Hc Hne] Hdiff]; [by left|]. apply Hdiff. rewrite Hd, decide_True by done.
  apply list_elem_of_singleton in Hc as ->. unfold disclosed_by, disclosed. f_equal. f_equal.
  pose proof (store_ok_get chatId entries Hok) as Hnd. revert Hst Hnd.
  generalize (default [] (om_get chatId entries)) as m. intros m Hst Hnd.
  rewrite om_delete_absent; [apply filter_live_idem|].
  intros ([k d] & -> & Hin)%list_elem_of_fmap. rewrite list_elem_of_In, List.filter_In, <- list_elem_of_In in Hin.
  destruct Hin as [Hin Hl]. unfold live in Hl. cbn in *.
  rewrite (Hst d) in Hl; [done|]. by apply om_get_NoDup.
Qed.
End store_facts.

(** ** What the manager guarantees, for any system that uses it

    [Asked L tid input]: according to the log, job [tid] may ask the manager
    for the elevation of [input]. *)
Definition EResult : Type := option (result SignetError (option AdminReadElevation)).
(** Between awaits time passes and the disclosure store may be purged. *)
Definition elev_env (w w' : EWorld) : Prop :=
  ew_now w ≤ ew_now w' ∧ ew_cache w' = ew_cache w ∧ ew_conns w' = ew_conns w.
Section guarantees.
Context `{JsDate} (deps : ElevationDeps) {J : Type}.
Abbreviation ELog := (Log EWorld eeff J).
Context (Asked : ELog → nat → ElevationInput → Prop)
  (Hasked : ∀ L L' tid input, L `prefix_of` L' → Asked L tid input → Asked L' tid input).

(** A successful write to the audit log by a job. *)
Definition audited (L : ELog) (tid : nat) (action chatId : string) (w : EWorld) : Prop :=
  ∃ ts detail, (tid, inr (Event _ (EAudit (mkAudit ts "admin" action (Some chatId) detail true)) w None)) ∈ L.
(** What a request must ask for, and the chat it means. *)
Definition asks_for (input : ElevationInput) (chatId : string) : Prop :=
  isMessageReadMethod (in_method input) = true ∧ wantsDangerousMessageRead (in_params input) = true ∧
  ∃ raw, resolveChatId (in_params input) = Some raw ∧ chatId = ed_normalizeChatId deps raw.
(** An elevation that the owner approved: in some request of the session for
    the chat, the approver said yes and gave its fingerprint, and the audit
    log took the approval; it lasts [ttl] from that moment. *)
Definition granted (L : ELog) (c : CachedElevation) : Prop :=
  ∃ tid input fp w1 w2 t,
    Asked L tid input ∧ asks_for input (ce_chatId c) ∧
    in_sessionKey input = ce_sessionKey c ∧
    (tid, inr (Event _ EAuthorize w1 (Ok tt))) ∈ L ∧ (tid, inr (Event _ EFingerprint w2 (Ok fp))) ∈ L ∧
    ae_approvalKeyFingerprint (ce_elevation c) = fp ∧ ae_chatIds (ce_elevation c) = [ce_chatId c] ∧
    date_toISOString t = Some (ae_approvedAt (ce_elevation c)) ∧
    date_toISOString (t + ed_ttlMs deps) = Some (ae_expiresAt (ce_elevation c)) ∧
    (ed_auditLog deps = true → ∃ w3, audited L tid "admin.read-elevation.approved" (ce_chatId c) w3).
Definition cache_inv (L : ELog) (w : EWorld) : Prop :=
  ∀ key c, (key, c) ∈ ew_cache w → key = buildCacheKey (ce_sessionKey c) (ce_chatId c) ∧ granted L c.

Lemma granted_prefix L L' c : L `prefix_of` L' → granted L c → granted L' c.
Proof.
  intros Hp (tid & input & fp & w1 & w2 & t & H1 & H2 & H3 & H4 & H5 & H6 & H7 & H8 & H9 & H10).
  exists tid, input, fp, w1, w2, t. split_and!; try done; [by eapply Hasked| | |].
  all: destruct Hp as [x ->]; try (apply elem_of_app; by left).
  intros Ha. destruct (H10 Ha) as (w3 & ts & d & Hin). exists w3, ts, d. apply elem_of_app; by left.
Qed.
Lemma cache_inv_prefix L L' w : L `prefix_of` L' → cache_inv L w → cache_inv L' w.
Proof. intros HL Hi key c [? ?]%Hi. split; [done|]. by eapply granted_prefix. Qed.
Lemma cache_inv_sub L w w' : (∀ kv, kv ∈ ew_cache w' → kv ∈ ew_cache w) → cache_inv L w → cache_inv L w'.
Proof. intros Hs Hi key c Hc. by apply Hi, Hs. Qed.

(** Programs that put nothing into the cache. *)
Fixpoint quiet {A} (p : EProg A) : Prop :=
  match p with
  | Ret _ => True
  | Await _ k => ∀ x, quiet (k x)
  | Sync f k => (∀ w kv, kv ∈ ew_cache (f w).1 → kv ∈ ew_cache w) ∧ ∀ x, quiet (k x)
  end.
Lemma quiet_bind {A B} (p : EProg A) (f : A → EProg B) :
  quiet p → (∀ a, quiet (f a)) → quiet (bind p f).
Proof.
  induction p as [a|X e k IH|X g k IH]; cbn; intros Hp Hf; [by apply Hf| |].
  - intros x. by apply IH.
  - destruct Hp as [Hg Hk]. split; [done|]. intros x. by apply IH.
Qed.
Lemma quiet_stretch {A} tid L w (p : EProg A) : quiet p → cache_inv L w →
  stretch cache_inv tid (λ L' w' _, L `prefix_of` L' ∧ cache_inv L' w') L w p.
Proof.
  assert (∀ L0, L0 `prefix_of` L → quiet p → cache_inv L w →
    stretch cache_inv tid (λ L' w' _, L0 `prefix_of` L' ∧ cache_inv L' w') L w p) as Hall;
    [|intros; by apply Hall].
  revert L w. induction p as [a|X e k IH|X g k IH]; intros L w L0 HL0; cbn; intros Hq Hi; [done| |].
  - split; [done|]. intros L' w' x HL HI'. apply IH; [|done|].
    + etrans; [done|]. etrans; [done|]. by apply prefix_app_r.
    + apply (cache_inv_prefix L'); [by apply prefix_app_r|done].
  - destruct Hq as [Hg Hk]. apply IH; [done..|]. eapply cache_inv_sub; [|done]. apply Hg.
Qed.
Lemma with_store_cache {X} (f : DisclosureStore → DisclosureStore * X) w :
  ew_cache (with_store f w).1 = ew_cache w.
Proof. unfold with_store. by destruct (f (ew_store w)). Qed.
Ltac quiet_tac :=
  repeat first
    [ done
    | apply quiet_bind; [|intros ?]
    | progress cbn [quiet]
    | match goal with
      | |- quiet (if ?b then _ else _) => destruct b
      | |- quiet (match ?x with _ => _ end) => destruct x
      | |- _ ∧ _ => split
      | |- ∀ _, _ => intros ?
      | H : _ ∈ ew_cache (with_store _ _).1 |- _ => rewrite with_store_cache in H
      end ].
Lemma quiet_audit action success target detail : quiet (appendAudit deps action success target detail).
Proof. unfold appendAudit. quiet_tac. Qed.
Lemma quiet_notify chatIds b : quiet (notifyDisclosureChanged deps chatIds b).
Proof. unfold notifyDisclosureChanged. quiet_tac. Qed.
Lemma quiet_approval cached : quiet (syncDisclosureApproval deps cached).
Proof. unfold syncDisclosureApproval. quiet_tac; apply quiet_notify. Qed.
Lemma quiet_expiry cached : quiet (syncDisclosureExpiry deps cached).
Proof. unfold syncDisclosureExpiry. quiet_tac; apply quiet_notify. Qed.
Lemma quiet_expire cached input : quiet (expireCachedElevation deps cached input).
Proof.
  unfold expireCachedElevation, appendExpiredAudit. cbn [quiet]. split.
  - intros w [key c]. cbn. unfold om_delete. by intros [_ ?]%list_elem_of_filter.
  - intros _. apply quiet_bind; [apply quiet_expiry|intros r].
    apply quiet_bind; [apply quiet_audit|intros a]. destruct r; [done|].
    apply quiet_bind; [apply quiet_audit|done].
Qed.
Lemma elem_of_prefix {A} (x : A) l l' : l `prefix_of` l' → x ∈ l → x ∈ l'.
Proof. intros [k ->] ?. apply elem_of_app. by left. Qed.

(** What an elevation that a request returns is. *)
Definition request_post (input : ElevationInput) (tid : nat) (L : ELog) (r : EResult) : Prop :=
  ∀ e, r = Some (Ok (Some e)) → ∃ chatId c, asks_for input chatId ∧ ce_elevation c = e ∧ granted L c ∧
    buildCacheKey (ce_sessionKey c) (ce_chatId c) = buildCacheKey (in_sessionKey input) chatId ∧
    (ed_auditLog deps = true → ∃ w,
       audited L tid "admin.read-elevation.approved" chatId w ∨
       audited L tid "admin.read-elevation.reused" chatId w ∧ elevation_live (ew_now w) e = true).

(** Steps that end without an elevation only have to be quiet. *)
Lemma quiet_end {A} input tid L w (p : EProg A) (f : A → EResult) :
  quiet p → cache_inv L w → (∀ a e, f a ≠ Some (Ok (Some e))) →
  stretch cache_inv tid (λ L w r, cache_inv L w ∧ request_post input tid L r) L w (bind p (λ a, Ret (f a))).
Proof.
  intros Hq Hi Hf. apply stretch_bind. eapply stretch_mono; [|by apply quiet_stretch].
  intros L' w' a _ [_ HI]. cbn. split; [done|]. intros e He. by destruct (Hf a e).
Qed.
Lemma audit_stretch tid L w action chatId detail : cache_inv L w →
  stretch cache_inv tid (λ L' w' r, L `prefix_of` L' ∧ cache_inv L' w' ∧
      (r = Ok tt → ed_auditLog deps = true → audited L' tid action chatId w)) L w
    (appendAudit deps action true (Some chatId) (Some detail)).
Proof.
  intros Hi. unfold appendAudit. destruct (ed_auditLog deps) eqn:Ea; cbn; [|done].
  destruct (date_toISOString (ew_now w)) as [ts|]; cbn; [|done].
  split; [done|]. intros L' w' thrown HL HI. split_and!.
  - etrans; [done|]. by apply prefix_app_r.
  - apply (cache_inv_prefix L'); [by apply prefix_app_r|done].
  - intros Hr _. destruct thrown; [done|]. exists ts, (Some detail).
    apply elem_of_app. right. by apply list_elem_of_singleton.
Qed.

(** The owner's yes, the fingerprint and the audit entry make a grant. *)
Lemma approve_stretch tid L w input chatId uuid :
  Asked L tid input → asks_for input chatId → cache_inv L w →
  stretch cache_inv tid (λ L w r, cache_inv L w ∧ request_post input tid L r) L w
    (approve deps input chatId uuid).
Proof.
  intros Hspawn Hasks Hi. unfold approve. destruct (ed_approver deps); cbn [negb stretch]; [|by split].
  split; [done|]. intros L1 w1 auth HL1 Hi1.
  assert (cache_inv (L1 ++ [(tid, inr (Event _ EAuthorize w auth))]) w1) as Hi1'
    by (apply (cache_inv_prefix L1); [by apply prefix_app_r|done]).
  destruct auth as [[]|e]; [|by apply quiet_end; [apply quiet_audit|done|by intros [] ?]].
  set (LA := L1 ++ _) in *. assert ((tid, inr (Event _ EAuthorize w (Ok tt))) ∈ LA) as Hauth
    by (subst LA; apply elem_of_app; right; by apply list_elem_of_singleton).
  assert (L `prefix_of` LA) as HLA by (subst LA; etrans; [done|]; by apply prefix_app_r).
  cbn [stretch]. split; [done|]. intros L2 w2 fpr HL2 Hi2.
  assert (cache_inv (L2 ++ [(tid, inr (Event _ EFingerprint w1 fpr))]) w2) as Hi2'
    by (apply (cache_inv_prefix L2); [by apply prefix_app_r|done]).
  destruct fpr as [fp|e]; [|by split].
  set (LF := L2 ++ _) in *. assert (LA `prefix_of` LF) as HLF
    by (subst LF; etrans; [done|]; by apply prefix_app_r).
  assert ((tid, inr (Event _ EFingerprint w1 (Ok fp))) ∈ LF) as Hfp
    by (subst LF; apply elem_of_app; right; by apply list_elem_of_singleton).
  cbn [stretch fst snd]. destruct (date_toISOString (ew_now w2)) as [approvedAt|] eqn:Ed1; [|by split].
  destruct (date_toISOString (ew_now w2 + ed_ttlMs deps)) as [expiresAt|] eqn:Ed2; [|by split].
  apply stretch_bind. eapply stretch_mono; [|by apply quiet_stretch; [apply quiet_approval|]].
  intros L3 w3 [[]|e] _ [HL3 Hi3]; [|by apply quiet_end; [apply quiet_audit|done|by intros [] ?]].
  apply stretch_bind. eapply stretch_mono; [|by apply audit_stretch].
  intros L4 w4 [[]|e] _ (HL4 & Hi4 & Haud).
  2:{ by apply quiet_end; [apply quiet_expiry|done|by intros [] ?]. }
  specialize (Haud eq_refl). set (c := mkCached _ _ _). cbn [stretch fst].
  assert (∀ x, x ∈ LF → x ∈ L4) as Hsub by (intros x Hx; eapply elem_of_prefix; [|done]; by etrans).
  assert (∀ x, x ∈ LA → x ∈ L4) as HsubA by (intros x Hx; apply Hsub; by eapply elem_of_prefix).
  assert (granted L4 c) as Hg.
  { exists tid, input, fp, w, w1, (ew_now w2). split_and!; auto.
    { eapply Hasked; [|done]. etrans; [exact HLA|]. etrans; [exact HLF|]. by etrans. }
    intros Ha. exists w3. by apply Haud. }
  split.
  - intros key c' Hin. unfold scheduleExpiration, clearExpirationTimer, with_timers, with_cache in Hin.
    cbn in Hin. apply om_set_cases in Hin as [[-> ->]|Hin]; [done|]. by apply Hi4.
  - intros e [= <-]. exists chatId, c. split_and!; [done..|]. intros Ha. exists w3. left. by apply Haud.
Qed.

Lemma resolve_stretch tid L w input uuid : Asked L tid input → cache_inv L w →
  stretch cache_inv tid (λ L w r, cache_inv L w ∧ request_post input tid L r) L w
    (resolveForRequest deps input uuid).
Proof.
  intros Hsp Hi.
  unfold resolveForRequest. destruct (isMessageReadMethod _) eqn:Em; [|by split].
  destruct (wantsDangerousMessageRead _) eqn:Ew; [|by split]. cbn [negb orb].
  destruct (resolveChatId _) as [raw|] eqn:Er; [|by split].
  set (chatId := ed_normalizeChatId deps raw).
  assert (asks_for input chatId) as Hasks by (split_and!; [done..|]; by exists raw).
  cbn [stretch fst snd]. destruct (om_get _ (ew_cache w)) as [cached|] eqn:Hc; cbn [fst snd].
  2:{ by eapply approve_stretch. }
  apply om_get_elem, Hi in Hc as [Hkey Hg].
  destruct (elevation_live (ew_now w) (ce_elevation cached)) eqn:El.
  - apply stretch_bind. eapply stretch_mono; [|by apply audit_stretch].
    intros L1 w1 r _ (HL1 & Hi1 & Haud). cbn. split; [done|]. intros e He.
    destruct r as [[]|]; [|done]. simplify_eq. exists chatId, cached.
    split_and!; [done|done|by eapply granted_prefix|done|]. intros Ha. exists w. right.
    split; [by apply Haud|done].
  - apply stretch_bind. eapply stretch_mono; [|by apply quiet_stretch; [apply quiet_expire|]].
    intros L1 w1 r _ (HL1 & Hi1). destruct r as [[]|]; [|by split].
    apply approve_stretch; [by eapply Hasked|done..].
Qed.
(** Without colons in the chat, a cache key names one session and one chat. *)
Lemma cache_key_inj s c s' c' : str_has ":" c = false → str_has ":" c' = false →
  buildCacheKey s c = buildCacheKey s' c' → s = s' ∧ c = c'.
Proof.
  unfold buildCacheKey. intros Hc Hc'.
  assert (∀ (p r : string), str_has ":" (p +:+ ":" +:+ r) = true) as Hhas.
  { intros p r. unfold str_has. rewrite bool_decide_eq_true. induction p as [|a p IH]; [by eexists|].
    rewrite str_cons_app. cbn [str_indexOf]. case_decide; [by eexists|].
    destruct IH as [n Hn]. rewrite Hn. by eexists. }
  revert s'. induction s as [|a s IH]; intros [|a' s'];
    rewrite ?str_cons_app, ?str_nil_app, ?str_cons_app, ?str_nil_app; intros Heq.
  - by injection Heq.
  - injection Heq as _ Hs. rewrite Hs in Hc. exfalso. pose proof (Hhas s' c') as Hx.
    rewrite (str_cons_app ":" ""), str_nil_app in Hx. congruence.
  - injection Heq as _ Hs. rewrite <- Hs in Hc'. exfalso. pose proof (Hhas s c) as Hx.
    rewrite (str_cons_app ":" ""), str_nil_app in Hx. congruence.
  - injection Heq as -> Hs. destruct (IH s') as [-> ->]; [|done].
    by rewrite !(str_cons_app ":" ""), !str_nil_app.
Qed.

(** An approval is asked for once per session and chat and lifetime: while a
    cached elevation is live, a request is answered with it and nobody is
    prompted. *)
Lemma cached_reuse env w t w2 r input uuid raw c :
  asks_for input (ed_normalizeChatId deps raw) → resolveChatId (in_params input) = Some raw →
  om_get (buildCacheKey (in_sessionKey input) (ed_normalizeChatId deps raw)) (ew_cache w) = Some c →
  elevation_live (ew_now w) (ce_elevation c) = true → ed_auditLog deps = false →
  run env w (resolveForRequest deps input uuid) t w2 r → t = [] ∧ r = Some (Ok (Some (ce_elevation c))).
Proof.
  intros (Hm & Hw & _) Hr Hc Hl Ha. unfold resolveForRequest. rewrite Hm, Hw, Hr. cbn. rewrite Hc. cbn.
  rewrite Hl. unfold appendReuseAudit, appendAudit. rewrite Ha. cbn. by intros (-> & _ & ->).
Qed.

(** At its natural expiry an elevation is not announced: the store drops the
    stale disclosure before it compares, so the seals of the chat are not
    refreshed and go on showing the access. *)
Lemma silent_expiry env w t w2 r cached : store_ok (ew_store w) →
  (∀ d, om_get (ce_sessionKey cached) (default [] (om_get (ce_chatId cached) (ew_store w))) = Some d →
     d = cached_disclosure deps cached) →
  elevation_live (ew_now w) (ce_elevation cached) = false →
  run env w (syncDisclosureExpiry deps cached) t w2 r → t = [] ∧ r = Ok tt.
Proof.
  intros Hok Hd Hl. unfold syncDisclosureExpiry. destruct (ed_disclosureStore deps); cbn.
  2:{ by intros (-> & _ & ->). }
  pose proof (delete_expired_silent (ew_now w) (ce_chatId cached) (ce_sessionKey cached) (ew_store w) Hok) as Hs.
  unfold with_store. destruct (ds_delete _ _ _ _) as [st changed]. cbn in *.
  rewrite Hs; [unfold notifyDisclosureChanged; rewrite orb_true_r; cbn; by intros (-> & _ & ->)|].
  intros d ->%Hd. unfold disclosure_stale, elevation_live in *. cbn.
  destruct (date_getTime _); [|done]. apply Z.ltb_ge in Hl. by apply Z.leb_le.
Qed.
End guarantees.

(** ** Jobs: the requests and the timers *)
Inductive EJob :=
  | JResolve (input : ElevationInput) (uuid : string)
  | JTimer (cached : CachedElevation).
Section jobs.
Context `{JsDate} (deps : ElevationDeps).
Definition job_body (j : EJob) : EProg EResult :=
  match j with
  | JResolve input uuid => resolveForRequest deps input uuid
  | JTimer cached => (do _ <- on_expiration deps cached ;; Ret (Some (Ok None)))%prog
  end.
Definition job_asked (L : Log EWorld eeff EJob) (tid : nat) (input : ElevationInput) : Prop :=
  ∃ uuid, (tid, inl (JResolve input uuid)) ∈ L.
Definition job_post (j : EJob) (tid : nat) (L : Log EWorld eeff EJob) (r : EResult) : Prop :=
  match j with JResolve input _ => request_post deps job_asked input tid L r | JTimer _ => True end.
Lemma job_asked_prefix L L' tid input : L `prefix_of` L' → job_asked L tid input → job_asked L' tid input.
Proof. intros HL [uuid Hin]. exists uuid. by eapply elem_of_prefix. Qed.

(** C13: however requests, timers and the passing of time interleave, an
    elevation is given to a request only if the request is a message read with
    the dangerous-read flag for some chat, and the elevation was approved: the
    owner said yes in a request of the same cache key, the approval key's
    fingerprint is recorded in it, and it lasts for the configured time from
    that approval.  With an audit log, the approval was written to it before,
    and so was this use: as an approval of this request, or as a reuse of an
    elevation that had not run out.  When chat ids have no colon, the approval
    was for the same admin session and exactly the requested chat. *)
Theorem elevation_safe w0 s i input uuid w1 e :
  ew_cache w0 = [] → rtc (sys_step job_body elev_env) (mkSys w0 [] []) s →
  s_jobs s !! i = Some (JResolve input uuid, w1, Ret (Some (Ok (Some e)))) →
  ∃ L chatId c, L `prefix_of` s_log s ∧ asks_for deps input chatId ∧ ce_elevation c = e ∧
    granted deps job_asked L c ∧
    buildCacheKey (ce_sessionKey c) (ce_chatId c) = buildCacheKey (in_sessionKey input) chatId ∧
    (ed_auditLog deps = true → ∃ w,
       audited L i "admin.read-elevation.approved" chatId w ∨
       audited L i "admin.read-elevation.reused" chatId w ∧ elevation_live (ew_now w) e = true) ∧
    (str_has ":" chatId = false → str_has ":" (ce_chatId c) = false →
       ae_chatIds e = [chatId] ∧ ce_sessionKey c = in_sessionKey input).
Proof.
  intros H0 Hr Hj.
  destruct (sys_safe job_body elev_env (cache_inv deps job_asked) job_post) with (w0 := w0) (s := s)
    as [_ Hjobs].
  - intros L w w' Hi (_ & Hc & _). unfold cache_inv. by rewrite Hc.
  - intros j tid L w Hi _. set (L0 := L ++ _).
    assert (cache_inv deps job_asked L0 w) as Hi0.
    { eapply cache_inv_prefix; [apply job_asked_prefix| |done]. by apply prefix_app_r. }
    destruct j as [input' uuid'|cached].
    + apply resolve_stretch; [apply job_asked_prefix| |done]. exists uuid'.
      subst L0. apply elem_of_app. right. by apply list_elem_of_singleton.
    + cbn [job_body job_post]. apply stretch_bind. eapply stretch_mono; [|apply quiet_stretch].
      * intros L' w' a _ [_ HI]. by split.
      * apply job_asked_prefix.
      * apply quiet_expire.
      * done.
  - intros key c. rewrite H0. by intros ?%not_elem_of_nil.
  - done.
  - specialize (Hjobs i _ Hj) as (L & HL & Hpost). destruct (Hpost e eq_refl) as (chatId & c & Ha & Hc & Hg & Hk & Hau).
    exists L, chatId, c. split_and!; [done..|]. intros Hn1 Hn2.
    destruct (cache_key_inj _ _ _ _ Hn2 Hn1 Hk) as [Hs Hch]. split; [|done].
    destruct Hg as (? & ? & ? & ? & ? & ? & _ & _ & _ & _ & _ & _ & Hids & _). by rewrite <- Hc, Hids, Hch.
Qed.

End jobs.

(** ** Witnesses *)
Section demo.
#[local] Existing Instance iso_date.
Definition demo_deps : ElevationDeps := mkElevationDeps true false false false "owner" id 60000.
Definition demo_params : json :=
  JObj [("chatId", JStr "conv_1"); ("dangerouslyAllowMessageRead", JBool true)].
Definition demo_input : ElevationInput := mkInput "message.list" demo_params "fp" "fp:jti".
Definition demo_w0 : EWorld := mkEWorld 1767225600000 [] [] [] [] [].
Definition demo_elevation : AdminReadElevation :=
  mkElevation "approval_u" ["conv_1"] "2026-01-01T00:00:00.000Z" "2026-01-01T00:01:00.000Z" "afp".

Lemma demo_approved : ∃ s w1, rtc (sys_step (job_body demo_deps) elev_env) (mkSys demo_w0 [] []) s ∧
  s_jobs s !! 0%nat = Some (JResolve demo_input "u", w1, Ret (Some (Ok (Some demo_elevation)))).
Proof.
  eexists _, _. split.
  - eapply rtc_l; [apply (sys_spawn _ _ _ _ _ (JResolve demo_input "u"))|].
    eapply rtc_l; [eapply (sys_answer _ _ _ _ _ 0%nat) with (x := Ok tt); reflexivity|].
    eapply rtc_l; [eapply (sys_answer _ _ _ _ _ 0%nat) with (x := Ok "afp"); reflexivity|].
    apply rtc_refl.
  - vm_compute. reflexivity.
Qed.
Lemma elevation_safe_witness : ae_chatIds demo_elevation = ["conv_1"] ∧
  ∃ (s : Sys EWorld eeff EJob EResult) w1,
    s_jobs s !! 0%nat = Some (JResolve demo_input "u", w1, Ret (Some (Ok (Some demo_elevation)))) ∧
    ∃ L c, L `prefix_of` s_log s ∧ granted demo_deps job_asked L c ∧ ce_elevation c = demo_elevation.
Proof.
  split; [reflexivity|]. destruct demo_approved as (s & w1 & Hr & Hj). exists s, w1. split; [exact Hj|].
  destruct (elevation_safe demo_deps demo_w0 s 0 demo_input "u" w1 demo_elevation eq_refl Hr Hj)
    as (L & chatId & c & HL & _ & Hc & Hg & _).
  exists L, c. split; [exact HL|]. split; [exact Hg|exact Hc].
Defined.

Definition demo_store : DisclosureStore :=
  [("conv_1", [("s", mkDisclosure "owner" "2026-01-01T00:01:00.000Z")])].
Lemma disclosure_changes_exact_witness :
  let st := ds_set 1767225600000 ["conv_1"; ""] "s2" (mkDisclosure "owner" "2026-01-01T00:02:00.000Z") demo_store in
  st.2 = ["conv_1"] ∧ (ds_get 1767225600000 "conv_1" st.1).2 ≠ (ds_get 1767225600000 "conv_1" demo_store).2.
Proof.
  assert (store_ok demo_store) as Hok.
  { split; [repeat constructor; apply not_elem_of_nil|]. intros c m [= -> ->]%list_elem_of_singleton.
    repeat constructor. apply not_elem_of_nil. }
  destruct (disclosure_changes_exact 1767225600000 ["conv_1"; ""] "s2"
    (mkDisclosure "owner" "2026-01-01T00:02:00.000Z") demo_store Hok) as [H _].
  assert (((ds_set 1767225600000 ["conv_1"; ""] "s2" (mkDisclosure "owner" "2026-01-01T00:02:00.000Z")
    demo_store)).2 = ["conv_1"]) as Hc by (vm_compute; reflexivity).
  cbv zeta. split; [exact Hc|].
  destruct (ds_set _ _ _ _ _) as [st ch]. cbn in Hc. subst ch. destruct H as (_ & _ & Hch & _).
  apply (Hch "conv_1"). left.
Defined.

(** The same approval, run to its end: the timer's refresh notifies nobody. *)
Lemma expiry_not_announced :
  let w := mkEWorld 1767225660000 [] []
    [("conv_1", [("fp:jti", mkDisclosure "owner" "2026-01-01T00:01:00.000Z")])] [] [] in
  ∃ w2, run eq w (on_expiration (mkElevationDeps true false true true "owner" id 60000) (mkCached demo_elevation "conv_1" "fp:jti")) [] w2 (Ok tt) ∧
    ew_store w2 = [].
Proof. eexists. split; [vm_compute; split_and!; reflexivity|vm_compute; reflexivity]. Qed.

(** A cache key does not say where the session ends: a chat id that holds a
    colon lets one session use what another one was granted. *)
Lemma cache_key_collision :
  buildCacheKey "fp:jti" "a:conv_1" = buildCacheKey "fp:jti:a" "conv_1".
Proof. reflexivity. Qed.
End demo.
