(* ===== verification/AdminServer.v ===== *)
(** * The admin socket

    [cli/src/admin/dispatcher.ts], [protocol.ts] and [server.ts]: newline
    framed JSON-RPC over a local socket, authenticated by an admin token in
    the first line, dispatched to the registered actions.

    Every line is handled by its own job over the world of [Elevation], so the
    lines of one connection overlap.  [JSON.parse], the text decoder and the
    JSON of an error object are arguments. *)
From S2P Require Import Prelude JsDate Programs Text Json Errors Credentials CredentialService Contracts Elevation.

Abbreviation Spec := (ActionSpec Schema).

(** ** The dispatcher *)
Section dispatcher.
Context `{JsDate} (registry : ActionRegistry Schema).
Definition buildMethodMap : omap string Spec :=
  foldl (λ map spec, match as_cliS spec with
                     | None => map
                     | Some _ => om_set (deriveRpcMethod spec) spec map
                     end) [] (listForSurface "cli" registry).
Definition makeMeta (now : Z) (ctx : HandlerContext) (startMs : Z) : ActionResultMeta :=
  mkMeta (hx_requestId ctx) (nowISO now) (now - startMs).
Definition getSpec (method : string) : result SignetError Spec :=
  match om_get method buildMethodMap with
  | None => Err (NotFoundError_create "Method" method)
  | Some spec => Ok spec
  end.
Definition validateParams (spec : Spec) (params : json) : result SignetError json :=
  match as_handler spec params with
  | inl issues =>
      Err (ValidationError_create "params"
        (str_join "; " (map (λ i, str_join "." (zi_path i) +:+ ": " +:+ zi_message i) issues)) None)
  | inr data => Ok data
  end.
Definition dispatcher_validate (method : string) (params : json) : result SignetError json :=
  spec ← getSpec method; validateParams spec params.
Definition settle_answer (answer : HandlerAnswer) : result SignetError json :=
  match answer with
  | Returned r => r
  | Threw text => Err (InternalError_create ("Handler threw: " +:+ text) None)
  end.
Definition dispatchValidated (method : string) (params : json) (ctx : HandlerContext)
  : EProg ActionResult :=
  (sync startMs <- (λ w, (w, ew_now w)) ;;
   match getSpec method with
   | Err e => Ret (toActionResult (Err e) (makeMeta startMs ctx startMs) None)
   | Ok spec =>
       await answer <- EInvoke spec params ctx ;;
       sync now <- (λ w, (w, ew_now w)) ;;
       Ret (toActionResult (settle_answer answer) (makeMeta now ctx startMs) None)
   end)%prog.
Definition dispatch (method : string) (params : json) (ctx : HandlerContext) : EProg ActionResult :=
  (sync startMs <- (λ w, (w, ew_now w)) ;;
   match dispatcher_validate method params with
   | Err e => Ret (toActionResult (Err e) (makeMeta startMs ctx startMs) None)
   | Ok validated => dispatchValidated method validated ctx
   end)%prog.
Definition hasMethod (method : string) : bool := om_has method buildMethodMap.
End dispatcher.

(** ** The protocol *)
Definition PARSE_ERROR : Z := -32700.
Definition INVALID_REQUEST : Z := -32600.
Definition METHOD_NOT_FOUND : Z := -32601.
Definition INVALID_PARAMS : Z := -32602.
Definition INTERNAL_ERROR : Z := -32603.
Definition AUTH_FAILED : Z := -32000.
Definition PERMISSION_DENIED : Z := -32001.
Definition NOT_FOUND : Z := -32002.
Definition jsonRpcCodeForCategory (c : ErrorCategory) : Z :=
  match c with
  | validation => INVALID_PARAMS | auth => AUTH_FAILED | permission => PERMISSION_DENIED
  | not_found => NOT_FOUND | _ => INTERNAL_ERROR
  end.
(** [AdminAuthFrameSchema.safeParse]: the token. *)
Definition parseAuthFrame (v : json) : option string :=
  match v with
  | JObj _ =>
      if bool_decide (jget "type" v = JStr "admin_auth") then
        match jget "token" v with JStr token => Some token | _ => None end
      else None
  | _ => None
  end.
Record JsonRpcRequest := mkRequest { jr_id : json; jr_method : string; jr_params : json }.
Definition parseJsonRpcRequest (v : json) : option JsonRpcRequest :=
  match v with
  | JObj _ =>
      if bool_decide (jget "jsonrpc" v = JStr "2.0") then
        match jget "id" v, jget "method" v, jget "params" v with
        | (JNum _ | JStr _) as i, JStr method, JObj params => Some (mkRequest i method (JObj params))
        | (JNum _ | JStr _) as i, JStr method, JUndef => Some (mkRequest i method (JObj []))
        | _, _, _ => None
        end
      else None
  | _ => None
  end.
Definition makeJsonRpcError (id : json) (code : Z) (text : string) (data : json) : json :=
  JObj [("jsonrpc", JStr "2.0"); ("id", id);
        ("error", JObj ([("code", JNum code); ("message", JStr text)] ++
                        if bool_decide (data = JUndef) then [] else [("data", data)]))].
Definition makeJsonRpcSuccess (id result : json) : json :=
  JObj [("jsonrpc", JStr "2.0"); ("id", id); ("result", result)].
(** The flag travels beside the validated parameters. *)
Definition mergeTransportControls (rawParams validatedParams : json) : json :=
  let flag := jget "dangerouslyAllowMessageRead" rawParams in
  if negb (bool_decide (flag = JBool true)) && negb (bool_decide (flag = JStr "true"))
  then validatedParams
  else JObj (om_set "dangerouslyAllowMessageRead" flag
               (match validatedParams with JObj o => o | _ => [] end)).

(** ** The socket *)
Definition new_connection : ConnectionState := mkConn false None None "".
Definition get_conn (conn : nat) (w : EWorld) : ConnectionState :=
  default new_connection (om_get conn (ew_conns w)).
Definition set_conn (conn : nat) (cs : ConnectionState) (w : EWorld) : EWorld :=
  mkEWorld (ew_now w) (ew_cache w) (ew_timers w) (ew_store w) (om_set conn cs (ew_conns w)) (ew_written w).
Definition write (conn : nat) (line : json) (w : EWorld) : EWorld * unit :=
  (mkEWorld (ew_now w) (ew_cache w) (ew_timers w) (ew_store w) (ew_conns w)
     (ew_written w ++ [(conn, line)]), tt).

(** The [data] callback up to the handling of its lines: complete lines are
    cut off the buffer, trimmed, and dropped when empty. *)
Definition newline : ascii := ascii_of_nat 10.
Fixpoint cut_lines (fuel : nat) (buffer : string) : list string * string :=
  match fuel with
  | O => ([], buffer)
  | S fuel =>
      match str_indexOf newline buffer with
      | None => ([], buffer)
      | Some newlineIdx =>
          let line := trim (str_take newlineIdx buffer) in
          let '(lines, rest) := cut_lines fuel (str_drop (S newlineIdx) buffer) in
          (if (0 <? String.length line)%nat then line :: lines else lines, rest)
      end
  end.
Definition on_data (decode : string → string) (chunk : string) (cs : ConnectionState)
  : ConnectionState * list string :=
  let buffer := cs_buffer cs +:+ decode chunk in
  let '(lines, rest) := cut_lines (String.length buffer) buffer in
  (mkConn (cs_authenticated cs) (cs_adminFingerprint cs) (cs_adminSessionKey cs) rest, lines).

Section server.
Context `{JsDate} (deps : ElevationDeps) (registry : ActionRegistry Schema) (signetId : string)
  (JSON_parse : string → option json) (errorToJSON : SignetError → json).

Definition admin_context (requestId fingerprint : string) (elevation : option AdminReadElevation)
  : HandlerContext := mkContext signetId requestId (Some fingerprint) None None elevation.
Definition session_key (p : AdminJwtPayload) : string := jwt_iss p +:+ ":" +:+ jwt_jti p.

(** The first line of a connection. *)
Definition handleAuthLine (conn : nat) (parsed : json) : EProg unit :=
  match parseAuthFrame parsed with
  | None =>
      (sync _ <- write conn (makeJsonRpcError JNull AUTH_FAILED
         "Expected admin_auth frame as first message" JUndef) ;; Ret tt)%prog
  | Some token =>
      (await verifyResult <- EVerifyJwt token ;;
       match verifyResult with
       | Err e => sync _ <- write conn (makeJsonRpcError JNull AUTH_FAILED (message e) JUndef) ;; Ret tt
       | Ok p =>
           sync _ <- (λ w, (set_conn conn (mkConn true (Some (jwt_iss p)) (Some (session_key p))
             (cs_buffer (get_conn conn w))) w, tt)) ;;
           sync _ <- write conn (JObj [("jsonrpc", JStr "2.0");
             ("result", JObj [("authenticated", JBool true)])]) ;; Ret tt
       end)%prog
  end.
(** A later line: a JSON-RPC request.  [requestId] and [uuid] are fresh. *)
Definition handleRpcLine (conn : nat) (parsed : json) (requestId uuid : string) : EProg unit :=
  match parseJsonRpcRequest parsed with
  | None =>
      (sync _ <- write conn (makeJsonRpcError JNull INVALID_REQUEST "Invalid JSON-RPC request" JUndef) ;;
       Ret tt)%prog
  | Some rq =>
      let fail e := (sync _ <- write conn (makeJsonRpcError (jr_id rq)
        (jsonRpcCodeForCategory (category e)) (message e) (errorToJSON e)) ;; Ret tt)%prog in
      if negb (hasMethod registry (jr_method rq)) then
        (sync _ <- write conn (makeJsonRpcError (jr_id rq) METHOD_NOT_FOUND
           ("Method " +:+ q (jr_method rq) +:+ " not found") JUndef) ;; Ret tt)%prog
      else
        match dispatcher_validate registry (jr_method rq) (jr_params rq) with
        | Err e => fail e
        | Ok validated =>
            (sync cs <- (λ w, (w, get_conn conn w)) ;;
             do elevationResult <- resolveForRequest deps
               (mkInput (jr_method rq) (mergeTransportControls (jr_params rq) validated)
                  (default "" (cs_adminFingerprint cs))
                  (default (default "" (cs_adminFingerprint cs)) (cs_adminSessionKey cs))) uuid ;;
             match elevationResult with
             | None => Ret tt
             | Some (Err e) => fail e
             | Some (Ok elevation) =>
                 sync cs <- (λ w, (w, get_conn conn w)) ;;
                 do actionResult <- dispatchValidated registry (jr_method rq) validated
                   (admin_context requestId (default "" (cs_adminFingerprint cs)) elevation) ;;
                 match actionResult with
                 | ar_ok _ _ _ =>
                     sync _ <- write conn (makeJsonRpcSuccess (jr_id rq) (ActionResult_json actionResult)) ;;
                     Ret tt
                 | ar_err e _ =>
                     sync _ <- write conn (makeJsonRpcError (jr_id rq)
                       (jsonRpcCodeForCategory (category e)) (message e) (error_json e)) ;; Ret tt
                 end
             end)%prog
        end
  end.
Definition handleLine (conn : nat) (line requestId uuid : string) : EProg unit :=
  match JSON_parse line with
  | None =>
      (sync _ <- write conn (makeJsonRpcError JNull PARSE_ERROR "Parse error" JUndef) ;; Ret tt)%prog
  | Some parsed =>
      (sync cs <- (λ w, (w, get_conn conn w)) ;;
       if negb (cs_authenticated cs) then handleAuthLine conn parsed
       else handleRpcLine conn parsed requestId uuid)%prog
  end.
End server.

(** ** Start and stop; [throws] is the text of an exception of the socket API *)
Inductive AdminServerState := ad_idle | ad_listening | ad_stopped.
#[export] Instance AdminServerState_eq_dec : EqDecision AdminServerState.
Proof. solve_decision. Defined.
Definition admin_state_name (s : AdminServerState) : string :=
  match s with ad_idle => "idle" | ad_listening => "listening" | ad_stopped => "stopped" end.
Definition admin_start (throws : option string) (s : AdminServerState)
  : AdminServerState * result SignetError unit :=
  if negb (bool_decide (s = ad_idle)) then
    (s, Err (InternalError_create ("Cannot start server in state " +:+ q (admin_state_name s)) None))
  else match throws with
       | None => (ad_listening, Ok tt)
       | Some cause => (ad_idle, Err (InternalError_create "Failed to start admin server"
                                        (Some [("cause", JStr cause)])))
       end.
Definition admin_stop (throws : option string) (s : AdminServerState)
  : AdminServerState * result SignetError unit :=
  if negb (bool_decide (s = ad_listening)) then
    (s, Err (InternalError_create ("Cannot stop server in state " +:+ q (admin_state_name s)) None))
  else match throws with
       | None => (ad_stopped, Ok tt)
       | Some cause => (s, Err (InternalError_create "Failed to stop admin server"
                                  (Some [("cause", JStr cause)])))
       end.
