(* ===== verification/HttpServer.v ===== *)
(** * The HTTP API

    [cli/src/http/action-routes.ts] and [server.ts]: the admin, credential and
    derived action routes over bearer tokens.

    Requests are jobs over the world of [Elevation].  The parts of [new URL]
    that the server reads, [JSON.parse], the token checks and the handlers are
    arguments or effects. *)
From S2P Require Import Prelude JsDate Programs Text Json Errors Scopes Credentials CredentialService Contracts Elevation AdminServer.

(** ** Derived routes *)
Record HttpActionRoute := mkRoute {
  rt_actionId : string; rt_auth : HttpAuth; rt_inputSource : HttpInputSource; rt_method : HttpMethod;
  rt_path : string; rt_spec : Spec
}.
(** [None] stands for the impossible: an exposed action of a valid registry
    without [auth]. *)
Definition route_for (spec : Spec) : option HttpActionRoute :=
  auth ← as_httpS spec ≫= http_auth;
  let method := deriveHttpMethod spec in
  Some (mkRoute (as_id spec) auth (deriveHttpInputSource method) method
          (deriveHttpPath DEFAULT_HTTP_BASE_PATH spec) spec).
Definition buildHttpActionRoutes (registry : ActionRegistry Schema)
  : result SignetError (list HttpActionRoute) :=
  match registry_validate registry with
  | Err e => Err e
  | Ok _ => Ok (base.omap route_for (List.filter isHttpExposed (listForSurface "http" registry)))
  end.
Definition matchHttpActionRoute (routes : list HttpActionRoute) (method path : string)
  : option HttpActionRoute :=
  List.find (λ r, bool_decide (method_name (rt_method r) = method) && bool_decide (rt_path r = path)) routes.

(** ** Requests and responses *)
Record HttpRequest := mkHttpRequest {
  hq_method : string; hq_path : string; hq_query : list (string * string);
  hq_authorization : option string
}.
Record HttpResponse := mkHttpResponse { hp_status : Z; hp_body : json }.
Definition categoryToStatus (c : ErrorCategory) : Z :=
  match c with
  | validation => 400 | auth => 401 | permission => 403 | not_found => 404 | timeout => 408
  | cancelled => 499 | internal => 500 | network => 500
  end.
Definition successResponse (data : json) : HttpResponse :=
  mkHttpResponse 200 (JObj [("ok", JBool true); ("data", data)]).
Definition errorResponse (c : ErrorCategory) (text : string) (ctx : json) : HttpResponse :=
  mkHttpResponse (categoryToStatus c)
    (JObj [("ok", JBool false);
           ("error", JObj [("category", JStr (category_name c)); ("message", JStr text); ("context", ctx)])]).
Definition error_response (e : SignetError) : HttpResponse :=
  errorResponse (category e) (message e) (match err_context e with Some c => JObj c | None => JNull end).
Definition extractBearerToken (rq : HttpRequest) : option string :=
  header ← hq_authorization rq;
  if startsWith "Bearer " header then Some (str_drop 7 header) else None.
(** The part of [path] after a non-empty match of the prefix. *)
Definition path_after (prefix path : string) : option string :=
  if startsWith prefix path then
    let rest := str_drop (String.length prefix) path in
    if bool_decide (rest = "") then None else Some rest
  else None.

Section server.
Context `{JsDate} (deps : ElevationDeps) (registry : ActionRegistry Schema) (signetId : string)
  (JSON_parse : string → option json) (actionRoutes : list HttpActionRoute).

Definition http_context (requestId : string) (adminAuth : option string)
  (credential : option CredentialRecord) (elevation : option AdminReadElevation) : HandlerContext :=
  mkContext signetId requestId adminAuth (cr_operatorId <$> credential) (cr_credentialId <$> credential)
    elevation.
Definition query_params (query : list (string * string)) : json :=
  JObj (map (λ key,
    let values := map snd (List.filter (λ kv, bool_decide (kv.1 = key)) query) in
    (key, match values with
          | [v] => JStr v
          | [] => JStr ""
          | vs => JArr (map JStr vs)
          end)) (js_set query.*1)).
(** The body of a request, or the text [Invalid JSON body]. *)
Definition readJsonBody {A} (k : result unit json → EProg A) : EProg A :=
  (await text <- EReadBody ;;
   k (match text with
      | None => Err tt
      | Some text =>
          if bool_decide (text = "") then Ok (JObj [])
          else match JSON_parse text with None => Err tt | Some v => Ok v end
      end))%prog.
Definition parseActionParams {A} (rq : HttpRequest) (inputSource : HttpInputSource)
  (k : result SignetError json → EProg A) : EProg A :=
  match inputSource with
  | is_query => k (Ok (query_params (hq_query rq)))
  | is_body => readJsonBody (λ body,
      k (match body with Ok v => Ok v | Err _ => Err (ValidationError_create "body" "Invalid JSON body" None) end))
  end.

(** [None] of a handler: its promise rejects; reading a flag of a [null] body
    does that. *)
Definition HttpProg := EProg (option HttpResponse).
Definition reply (r : HttpResponse) : HttpProg := Ret (Some r).
Definition verify_admin (token : option string) (k : AdminJwtPayload → HttpProg) : HttpProg :=
  match token with
  | None => reply (errorResponse auth "Missing authorization token" JNull)
  | Some token =>
      (await verifyResult <- EVerifyJwt token ;;
       match verifyResult with
       | Err e => reply (errorResponse auth (message e)
                           (match err_context e with Some c => JObj c | None => JNull end))
       | Ok p => k p
       end)%prog
  end.
Definition handleAdminRoute (rq : HttpRequest) (method requestId uuid : string) : HttpProg :=
  verify_admin (extractBearerToken rq) (λ p,
    readJsonBody (λ body,
      match body with
      | Err _ => reply (errorResponse validation "Invalid JSON body" JNull)
      | Ok params =>
          match dispatcher_validate registry method params with
          | Err e => reply (error_response e)
          | Ok validated =>
              if bool_decide (params = JNull) then Ret None else
              (do elevationResult <- resolveForRequest deps
                 (mkInput method (mergeTransportControls params validated) (jwt_iss p) (session_key p)) uuid ;;
               match elevationResult with
               | None => Ret None
               | Some (Err e) => reply (error_response e)
               | Some (Ok elevation) =>
                   do actionResult <- dispatchValidated registry method validated
                     (http_context requestId (Some (jwt_iss p)) None elevation) ;;
                   match actionResult with
                   | ar_ok data _ _ => reply (successResponse data)
                   | ar_err e _ => reply (error_response e)
                   end
               end)%prog
          end
      end)).

Definition credential_info (c : CredentialRecord) : json :=
  let r := cr_base c in
  JObj [("credentialId", JStr (sc_id r)); ("operatorId", JStr (sc_operatorId r));
        ("status", JStr (status_name (sc_status r)));
        ("config", JObj [("operatorId", JStr (sc_operatorId r)); ("chatIds", JArr (map JStr (sc_chatIds r)));
                         ("allow", JArr (map (λ s, JStr (scope_name s)) (sc_allow r)));
                         ("deny", JArr (map (λ s, JStr (scope_name s)) (sc_deny r)))]);
        ("issuedAt", JStr (sc_issuedAt r)); ("expiresAt", JStr (sc_expiresAt r))].
Definition verify_credential (token : option string) (k : CredentialRecord → HttpProg) : HttpProg :=
  match token with
  | None => reply (errorResponse auth "Missing credential token" JNull)
  | Some token =>
      (await credentialResult <- ELookupToken token ;;
       match credentialResult with
       | Err _ => reply (errorResponse auth "Invalid credential token" JNull)
       | Ok c => k c
       end)%prog
  end.
Definition handleCredentialRoute (rq : HttpRequest) (method : string) : HttpProg :=
  verify_credential (extractBearerToken rq) (λ credential,
    let bareMethod := if startsWith "credential." method then str_drop 11 method else method in
    if bool_decide (bareMethod = "info") then reply (successResponse (credential_info credential))
    else reply (errorResponse not_found ("Unknown credential method: " +:+ method)
                  (JObj [("method", JStr method)]))).

(** The end of an action route: validate, run, answer. *)
Definition action_input (spec : Spec) (params : json) : result SignetError json :=
  match as_handler spec params with
  | inr data => Ok data
  | inl issues =>
      let first := issues !! 0%nat in
      Err (ValidationError_create (default "params" ((λ i, str_join "." (zi_path i)) <$> first))
             (default "Validation failed" (zi_message <$> first))
             (Some [("issues", JArr (map (λ i, JObj [("path", JArr (map JStr (zi_path i)));
                                                     ("message", JStr (zi_message i))]) issues))]))
  end.
Definition run_action (spec : Spec) (data : json) (ctx : HandlerContext) : HttpProg :=
  (await answer <- EInvoke spec data ctx ;;
   match settle_answer answer with
   | Ok v => reply (successResponse v)
   | Err e => reply (error_response e)
   end)%prog.
Definition handleActionRoute (rq : HttpRequest) (route : HttpActionRoute) (requestId uuid : string)
  : HttpProg :=
  match rt_auth route with
  | ha_admin =>
      verify_admin (extractBearerToken rq) (λ p,
        parseActionParams rq (rt_inputSource route) (λ params,
          match params with
          | Err e => reply (error_response e)
          | Ok params =>
              match action_input (rt_spec route) params with
              | Err e => reply (error_response e)
              | Ok data =>
                  if bool_decide (params = JNull) && isMessageReadMethod (as_id (rt_spec route))
                  then Ret None else
                  (do elevationResult <- resolveForRequest deps
                     (mkInput (as_id (rt_spec route)) params (jwt_iss p) (session_key p)) uuid ;;
                   match elevationResult with
                   | None => Ret None
                   | Some (Err e) => reply (error_response e)
                   | Some (Ok elevation) =>
                       run_action (rt_spec route) data
                         (http_context requestId (Some (jwt_iss p)) None elevation)
                   end)%prog
              end
          end))
  | ha_credential =>
      verify_credential (extractBearerToken rq) (λ credential,
        parseActionParams rq (rt_inputSource route) (λ params,
          match params with
          | Err e => reply (error_response e)
          | Ok params =>
              match action_input (rt_spec route) params with
              | Err e => reply (error_response e)
              | Ok data =>
                  run_action (rt_spec route) data (http_context requestId None (Some credential) None)
              end
          end))
  end.

Definition http_handleRequest (rq : HttpRequest) (requestId uuid : string) : HttpProg :=
  if bool_decide (hq_path rq = "/v1/health") && bool_decide (hq_method rq = "GET") then
    (await status <- EStatus ;; reply (successResponse status))%prog
  else
    match path_after "/v1/admin/" (hq_path rq), bool_decide (hq_method rq = "POST") with
    | Some method, true => handleAdminRoute rq method requestId uuid
    | _, post =>
        match path_after "/v1/credential/" (hq_path rq), post with
        | Some method, true => handleCredentialRoute rq method
        | _, _ =>
            match matchHttpActionRoute actionRoutes (hq_method rq) (hq_path rq) with
            | Some route => handleActionRoute rq route requestId uuid
            | None => reply (errorResponse not_found
                ("Route not found: " +:+ hq_method rq +:+ " " +:+ hq_path rq) JNull)
            end
        end
    end.
End server.

(** ** Start and stop; [throws] is the text of an exception of [Bun.serve] *)
Definition http_start (registry : ActionRegistry Schema) (port : Z) (served : result string (option Z))
  (s : AdminServerState) (routes : list HttpActionRoute)
  : AdminServerState * list HttpActionRoute * result SignetError Z :=
  if negb (bool_decide (s = ad_idle)) then
    (s, routes, Err (InternalError_create ("Cannot start HTTP server in state " +:+ q (admin_state_name s)) None))
  else match buildHttpActionRoutes registry with
       | Err e => (s, routes, Err e)
       | Ok routes =>
           match served with
           | Ok bound => (ad_listening, routes, Ok (default port bound))
           | Err cause => (ad_idle, routes, Err (InternalError_create "Failed to start HTTP server"
                                                   (Some [("cause", JStr cause)])))
           end
       end.
Definition http_stop (throws : option string) (s : AdminServerState)
  : AdminServerState * result SignetError unit :=
  if negb (bool_decide (s = ad_listening)) then
    (s, Err (InternalError_create ("Cannot stop HTTP server in state " +:+ q (admin_state_name s)) None))
  else match throws with
       | None => (ad_stopped, Ok tt)
       | Some cause => (s, Err (InternalError_create "Failed to stop HTTP server"
                                  (Some [("cause", JStr cause)])))
       end.

(** ** Routes *)
Lemma exposed_http r : List.filter isHttpExposed (listForSurface "http" r) = exposed (list_specs (H := Schema) r).
Proof.
  assert (listForSurface "http" r = List.filter (has_surface as_http) r.*2) as -> by done.
  unfold exposed, list_specs. induction (r.*2) as [|s l IH]; [done|]. cbn [List.filter].
  destruct (isHttpExposed s) eqn:He.
  - assert (has_surface as_http s = true) as ->.
    { apply bool_decide_eq_true. unfold isHttpExposed in He. by destruct (as_httpS s). }
    cbn [List.filter]. by rewrite He, IH.
  - destruct (has_surface as_http s); cbn [List.filter]; [by rewrite He|exact IH].
Qed.
Lemma routes_of (l : list Spec) : (∀ s, s ∈ l → is_Some (as_httpS s ≫= http_auth)) →
  rt_spec <$> base.omap route_for l = l ∧ ∀ r, r ∈ base.omap route_for l → route_for (rt_spec r) = Some r.
Proof.
  induction l as [|s l IH]; intros Hl; [split; [done|by intros r ?%not_elem_of_nil]|].
  destruct IH as [IH1 IH2]; [intros s' Hs; apply Hl; by right|].
  destruct (Hl s) as [a Ha]; [by left|]. cbn [base.omap list_omap].
  assert (∃ r, route_for s = Some r ∧ rt_spec r = s) as (r & Hr & Hs).
  { unfold route_for. rewrite Ha. by eexists. }
  rewrite Hr. split.
  - cbn. rewrite Hs. by f_equal.
  - intros r' [->|Hin]%elem_of_cons; [by rewrite Hs|by apply IH2].
Qed.
Lemma route_for_fields r : route_for (rt_spec r) = Some r →
  rt_method r = deriveHttpMethod (rt_spec r) ∧ rt_path r = deriveHttpPath DEFAULT_HTTP_BASE_PATH (rt_spec r) ∧
  as_httpS (rt_spec r) ≫= http_auth = Some (rt_auth r).
Proof.
  destruct r as [id a src m path spec]. unfold route_for. cbn [rt_spec rt_method rt_path rt_auth].
  destruct (as_httpS spec ≫= http_auth) as [a'|]; [|done]. cbn. intros Heq. by simplify_eq.
Qed.
Lemma method_name_inj a b : method_name a = method_name b → a = b.
Proof. by destruct a, b. Qed.

(** the HTTP server starts with exactly one route for each action that is
    exposed over HTTP, whatever was registered before; a request finds the
    route of an action exactly when it has its method and path, so no action
    hides another, and no action answers on the paths of the built-in admin,
    credential and health routes. *)
Theorem http_routes_spec attempts :
  let r := register_all attempts in
  ∃ routes, buildHttpActionRoutes r = Ok routes ∧
    rt_spec <$> routes = exposed (list_specs r) ∧
    (∀ method path route, matchHttpActionRoute routes method path = Some route ↔
       route ∈ routes ∧ method_name (rt_method route) = method ∧ rt_path route = path) ∧
    (∀ route, route ∈ routes → path_after "/v1/admin/" (rt_path route) = None ∧
       path_after "/v1/credential/" (rt_path route) = None ∧ rt_path route ≠ "/v1/health" ∧
       Some (rt_auth route) = as_httpS (rt_spec route) ≫= http_auth).
Proof.
  destruct (register_all_inv attempts) as [Hok _]. set (r := register_all attempts) in *. cbv zeta.
  assert (registry_validate r = Ok tt) as Hv by (by apply validateActionSpecs_spec).
  unfold buildHttpActionRoutes. rewrite Hv, exposed_http.
  destruct Hok as (_ & Hroutes & Hexp & _). fold (list_specs r) in Hroutes, Hexp.
  destruct (routes_of (exposed (list_specs r))) as [Hspecs Hfor]; [by intros s [? _]%Hexp|].
  set (routes := base.omap route_for (exposed (list_specs r))) in *.
  assert (∀ a, a ∈ routes → rt_spec a ∈ exposed (list_specs r)) as Hin
    by (intros a Ha; rewrite <- Hspecs; by apply list_elem_of_fmap_2).
  eexists. split; [done|]. split_and!; [done| |].
  - intros method path route. unfold matchHttpActionRoute. split.
    + intros [Hr Hb]%List.find_some. rewrite <- list_elem_of_In in Hr.
      rewrite andb_true_iff, !bool_decide_eq_true in Hb. by destruct Hb.
    + intros (Hr & Hm & Hp). destruct (List.find _ routes) as [r'|] eqn:E.
      * apply List.find_some in E as [Hr' Hb]. rewrite <- list_elem_of_In in Hr'.
        rewrite andb_true_iff, !bool_decide_eq_true in Hb. destruct Hb as [Hm' Hp'].
        destruct (route_for_fields r' (Hfor _ Hr')) as (Hfm' & Hfp' & _).
        destruct (route_for_fields route (Hfor _ Hr)) as (Hfm & Hfp & _).
        assert (rt_spec r' = rt_spec route) as Hs.
        { apply (NoDup_map_inj route_of (exposed (list_specs r))); [done|by apply Hin..|].
          unfold route_of. rewrite <- Hfm, <- Hfm', <- Hfp, <- Hfp', Hp, Hp'.
          rewrite (method_name_inj (rt_method r') (rt_method route)); [done|]. congruence. }
        pose proof (Hfor _ Hr') as H1. pose proof (Hfor _ Hr) as H2. rewrite Hs in H1. congruence.
      * exfalso. pose proof (List.find_none _ _ E route) as Hn. rewrite <- list_elem_of_In in Hn.
        specialize (Hn Hr). rewrite Hm, Hp, !bool_decide_true in Hn by done. done.
  - intros a Ha. destruct (route_for_fields a (Hfor _ Ha)) as (_ & Hp & Hau).
    destruct (Hexp _ (Hin _ Ha)) as [_ Hres]. rewrite <- Hp in Hres. unfold reserved_route in Hres.
    assert (∀ prefix, prefix ∈ RESERVED_HTTP_ROUTE_PREFIXES → path_after prefix (rt_path a) = None) as Hpre.
    { intros prefix Hpr. unfold path_after. destruct (startsWith prefix (rt_path a)) eqn:Es; [|done].
      exfalso. apply Hres. left. by exists prefix. }
    split_and!; [apply Hpre; cbn; by left|apply Hpre; cbn; right; by left| |done].
    intros He. apply Hres. right. rewrite He. by left.
Qed.
