(* ===== verification/Surfaces.v ===== *)
(** * The admin socket and the HTTP API together

    Both servers share one elevation manager.  This file runs their lines,
    requests and timers as jobs of one system and shows with whose authority
    an action is ever invoked. *)
From S2P Require Import Prelude JsDate Programs Text Json Errors Ids Credentials CredentialService Contracts Elevation AdminServer HttpServer.

Inductive SJob :=
  | SOpen (conn : nat)                                       (** a connection opens *)
  | SData (conn : nat) (decode : string → string) (chunk : string)
  | SLine (conn : nat) (line requestId uuid : string)
  | SHttp (rq : HttpRequest) (requestId uuid : string)
  | STimer (cached : CachedElevation).
Abbreviation SLog := (Log EWorld eeff SJob).

Section surfaces.
Context `{JsDate} (deps : ElevationDeps) (registry : ActionRegistry Schema) (signetId : string)
  (JSON_parse : string → option json) (errorToJSON : SignetError → json)
  (actionRoutes : list HttpActionRoute).

Definition surface_body (j : SJob) : EProg (option HttpResponse) :=
  match j with
  | SOpen conn => (sync _ <- (λ w, (set_conn conn (get_conn conn w) w, tt)) ;; Ret None)%prog
  | SData conn decode chunk =>
      (sync _ <- (λ w, (set_conn conn (on_data decode chunk (get_conn conn w)).1 w, tt)) ;; Ret None)%prog
  | SLine conn line requestId uuid =>
      (do _ <- handleLine deps registry signetId JSON_parse errorToJSON conn line requestId uuid ;;
       Ret None)%prog
  | SHttp rq requestId uuid =>
      http_handleRequest deps registry signetId JSON_parse actionRoutes rq requestId uuid
  | STimer cached => (do _ <- on_expiration deps cached ;; Ret None)%prog
  end.

(** ** Reading the log *)
Definition invoked (ev : event EWorld eeff) : option (Spec * json * HandlerContext) :=
  match ev_eff ev with EInvoke spec data ctx => Some (spec, data, ctx) | _ => None end.
Definition jwt_ok (ev : event EWorld eeff) : option (string * AdminJwtPayload) :=
  match ev_eff ev in eeff X return X → _ with
  | EVerifyJwt token => λ r, match r with Ok p => Some (token, p) | Err _ => None end
  | _ => λ _, None
  end (ev_answer ev).
Definition credential_ok (ev : event EWorld eeff) : option (string * CredentialRecord) :=
  match ev_eff ev in eeff X return X → _ with
  | ELookupToken token => λ r, match r with Ok c => Some (token, c) | Err _ => None end
  | _ => λ _, None
  end (ev_answer ev).

(** An admin token was accepted on this connection. *)
Definition verified_conn (L : SLog) (conn : nat) (p : AdminJwtPayload) : Prop :=
  ∃ tid line requestId uuid ev token,
    (tid, inl (SLine conn line requestId uuid)) ∈ L ∧ (tid, inr ev) ∈ L ∧ jwt_ok ev = Some (token, p).
(** An admin token was accepted for this job: on its connection, or as the
    bearer token of the request. *)
Definition verified_job (L : SLog) (tid : nat) (p : AdminJwtPayload) : Prop :=
  (∃ conn line requestId uuid, (tid, inl (SLine conn line requestId uuid)) ∈ L ∧ verified_conn L conn p) ∨
  (∃ rq requestId uuid ev token, (tid, inl (SHttp rq requestId uuid)) ∈ L ∧
     extractBearerToken rq = Some token ∧ (tid, inr ev) ∈ L ∧ jwt_ok ev = Some (token, p)).
Definition surface_asked (L : SLog) (tid : nat) (input : ElevationInput) : Prop :=
  ∃ p, verified_job L tid p ∧ in_adminFingerprint input = jwt_iss p ∧ in_sessionKey input = session_key p.
Abbreviation s_granted := (granted deps surface_asked).

(** An elevation that a job may hand to a handler. *)
Definition elevation_ok (L : SLog) (tid : nat) (e : AdminReadElevation) : Prop :=
  ∃ c input chatId, surface_asked L tid input ∧ asks_for deps input chatId ∧ ce_elevation c = e ∧
    s_granted L c ∧
    buildCacheKey (ce_sessionKey c) (ce_chatId c) = buildCacheKey (in_sessionKey input) chatId.
Definition admin_authority (L : SLog) (tid : nat) (ctx : HandlerContext) : Prop :=
  ∃ p, verified_job L tid p ∧ hx_adminAuth ctx = Some (jwt_iss p) ∧ hx_credentialId ctx = None ∧
    hx_operatorId ctx = None ∧ ∀ e, hx_adminReadElevation ctx = Some e → elevation_ok L tid e.
Definition credential_authority (L : SLog) (tid : nat) (ctx : HandlerContext) : Prop :=
  ∃ rq requestId uuid ev token c, (tid, inl (SHttp rq requestId uuid)) ∈ L ∧
    extractBearerToken rq = Some token ∧ (tid, inr ev) ∈ L ∧ credential_ok ev = Some (token, c) ∧
    hx_adminAuth ctx = None ∧ hx_adminReadElevation ctx = None ∧
    hx_credentialId ctx = Some (cr_credentialId c) ∧ hx_operatorId ctx = Some (cr_operatorId c).
Definition invocation_ok (L : SLog) (tid : nat) (call : Spec * json * HandlerContext) : Prop :=
  let '(spec, data, ctx) := call in
  (admin_authority L tid ctx ∨ credential_authority L tid ctx) ∧
  ∃ params, as_handler spec params = inr data.

Definition jobs_fun (L : SLog) : Prop := ∀ tid j j', (tid, inl j) ∈ L → (tid, inl j') ∈ L → j = j'.
Definition conn_inv (L : SLog) (w : EWorld) : Prop :=
  (∀ conn cs, om_get conn (ew_conns w) = Some cs → cs_authenticated cs = true →
     ∃ p, verified_conn L conn p ∧ cs_adminFingerprint cs = Some (jwt_iss p) ∧
       cs_adminSessionKey cs = Some (session_key p)) ∧
  (∀ conn p, verified_conn L conn p → ∃ cs, om_get conn (ew_conns w) = Some cs ∧ cs_authenticated cs = true).
Definition invoke_inv (L : SLog) : Prop :=
  ∀ tid ev call, (tid, inr ev) ∈ L → invoked ev = Some call → invocation_ok L tid call.
Definition K (L : SLog) (w : EWorld) : Prop := jobs_fun L ∧ conn_inv L w ∧ invoke_inv L.
Definition s_inv (L : SLog) (w : EWorld) : Prop := cache_inv deps surface_asked L w ∧ K L w.

(** ** Facts of the log last *)
Ltac lift := eapply elem_of_prefix; eassumption.
Lemma verified_conn_prefix L L' conn p : L `prefix_of` L' → verified_conn L conn p → verified_conn L' conn p.
Proof.
  intros HL (tid & line & rid & uuid & ev & token & H1 & H2 & H3).
  exists tid, line, rid, uuid, ev, token. split_and!; [lift|lift|done].
Qed.
Lemma verified_job_prefix L L' tid p : L `prefix_of` L' → verified_job L tid p → verified_job L' tid p.
Proof.
  intros HL [(conn & line & rid & uuid & H1 & H2)|(rq & rid & uuid & ev & token & H1 & H2 & H3 & H4)].
  - left. exists conn, line, rid, uuid. split; [lift|by eapply verified_conn_prefix].
  - right. exists rq, rid, uuid, ev, token. split_and!; try done; lift.
Qed.
Lemma surface_asked_prefix L L' tid input :
  L `prefix_of` L' → surface_asked L tid input → surface_asked L' tid input.
Proof. intros HL (p & Hp & ?). exists p. split; [by eapply verified_job_prefix|done]. Qed.
Lemma elevation_ok_prefix L L' tid e : L `prefix_of` L' → elevation_ok L tid e → elevation_ok L' tid e.
Proof.
  intros HL (c & input & chatId & H1 & H2 & H3 & H4 & H5). exists c, input, chatId.
  split_and!; [by eapply surface_asked_prefix|done|done| |done].
  eapply granted_prefix; [apply surface_asked_prefix|done|done].
Qed.
Lemma invocation_ok_prefix L L' tid call :
  L `prefix_of` L' → invocation_ok L tid call → invocation_ok L' tid call.
Proof.
  destruct call as [[spec data] ctx]. intros HL [[(p & H1 & H2 & H3 & H4 & H5)|H1] Hd]; (split; [|done]).
  - left. exists p. split_and!; [by eapply verified_job_prefix|done..|].
    intros e He. eapply elevation_ok_prefix; [done|by apply H5].
  - right. destruct H1 as (rq & rid & uuid & ev & token & c & H1 & H2 & H3 & H4).
    exists rq, rid, uuid, ev, token, c. split_and!; try apply H4; try done; lift.
Qed.
Lemma s_cache_prefix L L' w :
  L `prefix_of` L' → cache_inv deps surface_asked L w → cache_inv deps surface_asked L' w.
Proof. apply cache_inv_prefix, surface_asked_prefix. Qed.

(** Connections in [L ++ [x]] for an entry that verifies nothing. *)
Lemma verified_conn_snoc L x conn p :
  (∀ tid ev token p, x = (tid, inr ev) → jwt_ok ev = Some (token, p) →
     ∀ c line rid uuid, (tid, inl (SLine c line rid uuid)) ∉ L) →
  (∀ tid c line rid uuid, x = (tid, inl (SLine c line rid uuid)) → ∀ ev, (tid, inr ev) ∉ L) →
  verified_conn (L ++ [x]) conn p → verified_conn L conn p.
Proof.
  intros Hev Hj (tid & line & rid & uuid & ev & token & H1 & H2 & H3).
  apply elem_of_app in H1 as [H1|H1%list_elem_of_singleton], H2 as [H2|H2%list_elem_of_singleton].
  - by exists tid, line, rid, uuid, ev, token.
  - by destruct (Hev tid ev token p (eq_sym H2) H3 conn line rid uuid).
  - by destruct (Hj tid conn line rid uuid (eq_sym H1) ev).
  - congruence.
Qed.
(** An entry that neither verifies, invokes nor starts a job. *)
Lemma K_event L w tid ev :
  K L w → invoked ev = None → jwt_ok ev = None → K (L ++ [(tid, inr ev)]) w.
Proof.
  intros (Hf & [Hc1 Hc2] & Hi) Hn Hj. split_and!.
  - intros t j j'. rewrite !elem_of_app, !list_elem_of_singleton. intros [?|[=]] [?|[=]]. by eapply Hf.
  - split.
    + intros conn cs Hcs Ha. destruct (Hc1 conn cs Hcs Ha) as (p & Hp & ?). exists p.
      split; [eapply verified_conn_prefix; [|done]; by apply prefix_app_r|done].
    + intros conn p Hv. apply (Hc2 conn p). eapply verified_conn_snoc; [..|done]; [|naive_solver].
      intros t e token p' [= <- <-] He. by rewrite Hj in He.
  - intros t e call Hin He. apply (invocation_ok_prefix L); [by apply prefix_app_r|].
    apply elem_of_app in Hin as [Hin|Hin%list_elem_of_singleton]; [by eapply Hi|].
    by simplify_eq.
Qed.
Lemma K_conns L w w' : ew_conns w' = ew_conns w → K L w → K L w'.
Proof. intros Hc (? & [? ?] & ?). split_and!; [done| |done]. unfold conn_inv. by rewrite Hc. Qed.
Lemma K_spawn L w tid j : K L w → (∀ x, (tid, x) ∉ L) → K (L ++ [(tid, inl j)]) w.
Proof.
  intros (Hf & [Hc1 Hc2] & Hi) Hn. split_and!.
  - intros t j1 j2. rewrite !elem_of_app, !list_elem_of_singleton.
    intros [H1|H1] [H2|H2]; [by eapply Hf| | |]; simplify_eq; [by destruct (Hn (inl j1))|by destruct (Hn (inl j2))|done].
  - split.
    + intros conn cs Hcs Ha. destruct (Hc1 conn cs Hcs Ha) as (p & Hp & ?). exists p.
      split; [eapply verified_conn_prefix; [|done]; by apply prefix_app_r|done].
    + intros conn p Hv. apply (Hc2 conn p). eapply verified_conn_snoc; [..|done]; [naive_solver|].
      intros t c line rid uuid [= <- _] ev. apply Hn.
  - intros t e call Hin He. apply (invocation_ok_prefix L); [by apply prefix_app_r|].
    apply elem_of_app in Hin as [Hin|[=]%list_elem_of_singleton]. by eapply Hi.
Qed.

(** Programs that touch no connection, verify no token and invoke nothing. *)
Definition calm_eff {X} (e : eeff X) : Prop :=
  match e with EInvoke _ _ _ | EVerifyJwt _ => False | _ => True end.
Fixpoint calm {A} (p : EProg A) : Prop :=
  match p with
  | Ret _ => True
  | Await e k => calm_eff e ∧ ∀ x, calm (k x)
  | Sync f k => (∀ w, ew_conns (f w).1 = ew_conns w) ∧ ∀ x, calm (k x)
  end.
Lemma calm_event X (e : eeff X) w x : calm_eff e →
  invoked (Event _ e w x) = None ∧ jwt_ok (Event _ e w x) = None.
Proof. by destruct e. Qed.
Lemma calm_bind {A B} (p : EProg A) (f : A → EProg B) : calm p → (∀ a, calm (f a)) → calm (bind p f).
Proof.
  induction p as [a|X e k IH|X g k IH]; cbn; intros Hp Hf; [by apply Hf| |].
  - destruct Hp as [He Hk]. split; [done|]. intros x. by apply IH.
  - destruct Hp as [Hg Hk]. split; [done|]. intros x. by apply IH.
Qed.
Lemma calm_stretch {A} tid L w (p : EProg A) : calm p → K L w →
  stretch K tid (λ L' w' _, L `prefix_of` L' ∧ K L' w') L w p.
Proof.
  assert (∀ L0, L0 `prefix_of` L → calm p → K L w →
    stretch K tid (λ L' w' _, L0 `prefix_of` L' ∧ K L' w') L w p) as Hall; [|intros; by apply Hall].
  revert L w. induction p as [a|X e k IH|X g k IH]; intros L w L0 HL0; cbn; intros Hq Hk; [done| |].
  - destruct Hq as [He Hq]. split; [done|]. intros L' w' x HL HI'. apply IH; [|done|].
    + etrans; [done|]. etrans; [done|]. by apply prefix_app_r.
    + destruct (calm_event X e w x He). by apply K_event.
  - destruct Hq as [Hg Hq]. apply IH; [done..|]. apply (K_conns L w); [apply Hg|done].
Qed.

(** The elevation manager is calm. *)
Ltac calm_tac :=
  repeat first
    [ done
    | apply calm_bind; [|intros ?]
    | progress cbn [calm]
    | match goal with
      | |- calm (if ?b then _ else _) => destruct b
      | |- calm (match ?x with _ => _ end) => destruct x
      | |- _ ∧ _ => split
      | |- ∀ _, _ => intros ?
      | |- ew_conns (with_store ?f ?w).1 = _ => unfold with_store; destruct (f (ew_store w))
      end ].
Lemma calm_audit action success target detail : calm (appendAudit deps action success target detail).
Proof. unfold appendAudit. calm_tac. Qed.
Lemma calm_notify chatIds b : calm (notifyDisclosureChanged deps chatIds b).
Proof. unfold notifyDisclosureChanged. calm_tac. Qed.
Lemma calm_approval cached : calm (syncDisclosureApproval deps cached).
Proof. unfold syncDisclosureApproval. calm_tac; apply calm_notify. Qed.
Lemma calm_expiry cached : calm (syncDisclosureExpiry deps cached).
Proof. unfold syncDisclosureExpiry. calm_tac; apply calm_notify. Qed.
Lemma calm_expire cached input : calm (expireCachedElevation deps cached input).
Proof.
  unfold expireCachedElevation, appendExpiredAudit. cbn [calm]. split; [done|].
  intros _. apply calm_bind; [apply calm_expiry|intros r].
  apply calm_bind; [apply calm_audit|intros a]. destruct r; [done|].
  apply calm_bind; [apply calm_audit|done].
Qed.
Lemma calm_approve input chatId uuid : calm (approve deps input chatId uuid).
Proof.
  unfold approve. calm_tac; try apply calm_audit; try apply calm_approval; try apply calm_expiry.
Qed.
Lemma calm_resolve input uuid : calm (resolveForRequest deps input uuid).
Proof.
  unfold resolveForRequest, appendReuseAudit.
  calm_tac; try apply calm_audit; try apply calm_expire; try apply calm_approve.
Qed.

(** A request for an elevation keeps all invariants. *)
Lemma s_resolve tid L w input uuid : surface_asked L tid input → s_inv L w →
  stretch s_inv tid (λ L' w' r, L `prefix_of` L' ∧ s_inv L' w' ∧
    ∀ e, r = Some (Ok (Some e)) → elevation_ok L' tid e) L w (resolveForRequest deps input uuid).
Proof.
  intros Ha [Hc HK]. eapply stretch_mono; [|apply stretch_and;
    [apply (resolve_stretch deps surface_asked surface_asked_prefix tid L w input uuid Ha Hc)
    |apply (calm_stretch tid L w _ (calm_resolve input uuid) HK)]].
  intros L' w' r HL [[Hc' Hpost] [_ HK']]. split_and!; [done..|]. intros e He.
  destruct (Hpost e He) as (chatId & c & H1 & H2 & H3 & H4 & _).
  exists c, input, chatId. split_and!; [by eapply surface_asked_prefix|done..].
Qed.
(** The answer of an invocation that had the authority to be made. *)
Lemma s_inv_invoke L w tid spec data ctx w0 x : s_inv L w → invocation_ok L tid (spec, data, ctx) →
  s_inv (L ++ [(tid, inr (Event _ (EInvoke spec data ctx) w0 x))]) w.
Proof.
  intros [Hc (Hf & [Hc1 Hc2] & Hi)] Hok. split; [by eapply s_cache_prefix; [apply prefix_app_r|]|]. split_and!.
  - intros t j j'. rewrite !elem_of_app, !list_elem_of_singleton. intros [?|[=]] [?|[=]]. by eapply Hf.
  - split.
    + intros conn cs Hcs Ha. destruct (Hc1 conn cs Hcs Ha) as (p & Hp & ?). exists p.
      split; [eapply verified_conn_prefix; [|done]; by apply prefix_app_r|done].
    + intros conn p Hv. apply (Hc2 conn p). eapply verified_conn_snoc; [..|done]; [|naive_solver].
      intros t e token p' [= <- <-] He. done.
  - intros t e call Hin He. apply (invocation_ok_prefix L); [by apply prefix_app_r|].
    apply elem_of_app in Hin as [Hin|Hin%list_elem_of_singleton]; [by eapply Hi|].
    injection Hin as -> ->. cbn in He. by injection He as <-.
Qed.

Lemma s_inv_world L w w' : ew_cache w' = ew_cache w → ew_conns w' = ew_conns w → s_inv L w → s_inv L w'.
Proof. intros H1 H2 [Hc HK]. split; [|by eapply K_conns]. unfold cache_inv. by rewrite H1. Qed.
Lemma s_inv_calm L w tid X (e : eeff X) w0 x : invoked (Event _ e w0 x) = None → jwt_ok (Event _ e w0 x) = None →
  s_inv L w → s_inv (L ++ [(tid, inr (Event _ e w0 x))]) w.
Proof.
  intros H1 H2 [Hc HK]. split; [|by apply K_event]. eapply s_cache_prefix; [|done]. by apply prefix_app_r.
Qed.
Lemma elem_of_end {A} (x : A) l : x ∈ l ++ [x].
Proof. apply elem_of_app. right. by apply list_elem_of_singleton. Qed.

(** A token accepted on a connection. *)
Lemma s_inv_verify L w tid conn line rid uuid token w0 p :
  (tid, inl (SLine conn line rid uuid)) ∈ L → s_inv L w →
  let L' := L ++ [(tid, inr (Event _ (EVerifyJwt token) w0 (Ok p)))] in
  s_inv L' (set_conn conn (mkConn true (Some (jwt_iss p)) (Some (session_key p)) (cs_buffer (get_conn conn w))) w).
Proof.
  intros Hj [Hc (Hf & [Hc1 Hc2] & Hi)]. cbv zeta. set (L' := L ++ _).
  assert (L `prefix_of` L') as HL by (by apply prefix_app_r). split; [by eapply s_cache_prefix|]. split_and!.
  - intros t j j'. unfold L'. rewrite !elem_of_app, !list_elem_of_singleton. intros [?|[=]] [?|[=]]. by eapply Hf.
  - split.
    + intros c cs. cbn [ew_conns set_conn]. rewrite om_get_set. case_decide as Hcc.
      * intros [= <-] _. subst c. exists p. split_and!; [|done..].
        exists tid, line, rid, uuid, (Event _ (EVerifyJwt token) w0 (Ok p)), token.
        split_and!; [by eapply elem_of_prefix|apply elem_of_end|done].
      * intros Hcs Ha. destruct (Hc1 c cs Hcs Ha) as (p' & Hp & ?). exists p'.
        split; [by eapply verified_conn_prefix|done].
    + intros c p' Hv. cbn [ew_conns set_conn]. rewrite om_get_set. case_decide as Hcc; [by eexists|].
      apply (Hc2 c p'). destruct Hv as (t & l & r & u & ev & tok & H1 & H2 & H3).
      apply elem_of_app in H1 as [H1|[=]%list_elem_of_singleton].
      apply elem_of_app in H2 as [H2|H2%list_elem_of_singleton]; [by exists t, l, r, u, ev, tok|].
      exfalso. simplify_eq. pose proof (Hf _ _ _ H1 Hj). naive_solver.
  - intros t ev call Hin He. apply (invocation_ok_prefix L); [done|].
    apply elem_of_app in Hin as [Hin|Hin%list_elem_of_singleton]; [by eapply Hi|].
    injection Hin as -> ->. done.
Qed.

(** Opening a connection and receiving data change no authentication. *)
Lemma s_inv_touch L w conn cs : s_inv L w → cs_authenticated cs = cs_authenticated (get_conn conn w) →
  cs_adminFingerprint cs = cs_adminFingerprint (get_conn conn w) →
  cs_adminSessionKey cs = cs_adminSessionKey (get_conn conn w) → s_inv L (set_conn conn cs w).
Proof.
  intros [Hc (Hf & [Hc1 Hc2] & Hi)] Ha Hp Hs. split; [done|]. split_and!; [done| |done]. split.
  - intros c cs'. cbn [ew_conns set_conn]. rewrite om_get_set. case_decide as Hcc; [|apply Hc1].
    intros [= <-] Hau. subst c. rewrite Ha in Hau. rewrite Hp, Hs. apply Hc1; [|done].
    unfold get_conn in *. by destruct (om_get conn (ew_conns w)).
  - intros c p Hv. cbn [ew_conns set_conn]. rewrite om_get_set. case_decide as Hcc; [|by eapply Hc2].
    eexists. split; [done|]. subst c. destruct (Hc2 conn p Hv) as (cs' & Hcs' & Hau).
    rewrite Ha. unfold get_conn. by rewrite Hcs'.
Qed.

Definition keeps {A} (tid : nat) (L : SLog) (w : EWorld) (p : EProg A) : Prop :=
  stretch s_inv tid (λ L w _, s_inv L w) L w p.

(** The dispatcher, with the authority of the context. *)
Lemma s_dispatch {A} tid L w method params ctx (f : ActionResult → EProg A) : s_inv L w →
  (∀ spec, getSpec registry method = Ok spec → invocation_ok L tid (spec, params, ctx)) →
  (∀ L' w' a, s_inv L' w' → keeps tid L' w' (f a)) →
  keeps tid L w (do r <- dispatchValidated registry method params ctx ;; f r)%prog.
Proof.
  intros Hi Hok Hf. unfold dispatchValidated, keeps. cbn [bind stretch fst snd].
  destruct (getSpec registry method) as [spec|e]; cbn [bind stretch fst snd]; [|by apply Hf].
  split; [done|]. intros L' w' answer HL HI. apply Hf. apply s_inv_invoke; [done|].
  eapply invocation_ok_prefix; [done|]. by apply Hok.
Qed.
Lemma validated_parsed method params validated spec :
  dispatcher_validate registry method params = Ok validated → getSpec registry method = Ok spec →
  as_handler spec params = inr validated.
Proof.
  unfold dispatcher_validate. intros Hv Hs. rewrite Hs in Hv. cbn in Hv. unfold validateParams in Hv.
  by destruct (as_handler spec params); simplify_eq.
Qed.

(** Lines of the admin socket. *)
Lemma s_line tid L w conn line rid uuid : (tid, inl (SLine conn line rid uuid)) ∈ L → s_inv L w →
  keeps tid L w (handleLine deps registry signetId JSON_parse errorToJSON conn line rid uuid).
Proof.
  intros Hj Hi. unfold handleLine, keeps. destruct (JSON_parse line) as [parsed|]; [|by apply (s_inv_world _ w)].
  cbn [stretch fst snd]. destruct (cs_authenticated (get_conn conn w)) eqn:Ha; cbn [negb].
  2:{ unfold handleAuthLine. destruct (parseAuthFrame parsed) as [token|]; [|by apply (s_inv_world _ w)].
      cbn [stretch fst snd]. split; [done|]. intros L' w' r HL HI.
      assert ((tid, inl (SLine conn line rid uuid)) ∈ L') as Hj' by lift.
      destruct r as [p|e]; cbn [stretch fst snd].
      - eapply s_inv_world; [reflexivity..|]. by eapply s_inv_verify.
      - apply (s_inv_world _ w'); [done..|]. by apply s_inv_calm. }
  unfold handleRpcLine. destruct (parseJsonRpcRequest parsed) as [rq|]; [|by apply (s_inv_world _ w)].
  destruct (hasMethod registry (jr_method rq)); cbn [negb]; [|by apply (s_inv_world _ w)].
  destruct (dispatcher_validate registry (jr_method rq) (jr_params rq)) as [validated|e] eqn:Ev;
    [|by apply (s_inv_world _ w)].
  cbn [stretch fst snd].
  assert (om_get conn (ew_conns w) = Some (get_conn conn w)) as Hg.
  { unfold get_conn in *. by destruct (om_get conn (ew_conns w)). }
  destruct Hi as [Hc (Hf & [Hc1 Hc2] & Hinv)]. destruct (Hc1 _ _ Hg Ha) as (p & Hp & Hfp & Hsk).
  rewrite Hfp, Hsk. cbn [default]. apply stretch_bind. eapply stretch_mono; [|apply s_resolve; [|by split]].
  2:{ exists p. split_and!; [|done..]. left. by exists conn, line, rid, uuid. }
  intros L' w' r HL (_ & HI & Hel). destruct r as [[elevation|e]|]; [|by apply (s_inv_world _ w')|done].
  cbn [stretch fst snd].
  assert (∃ p', verified_conn L' conn p' ∧ cs_adminFingerprint (get_conn conn w') = Some (jwt_iss p'))
    as (p' & Hp' & ->).
  { destruct HI as [_ (_ & [Hc1' Hc2'] & _)].
    destruct (Hc2' conn p) as (cs & Hcs & Hau); [by eapply verified_conn_prefix|].
    destruct (Hc1' conn cs Hcs Hau) as (p' & ? & ? & _). exists p'. unfold get_conn. by rewrite Hcs. }
  cbn [default]. apply s_dispatch; [done| |].
  - intros spec Hs. split; [|exists (jr_params rq); by eapply validated_parsed]. left. exists p'.
    split_and!; [|done..|].
    + left. exists conn, line, rid, uuid. split; [lift|done].
    + cbn. intros e ->. by apply Hel.
  - intros L2 w2 a HI2. destruct a; by apply (s_inv_world _ w2).
Qed.

(** Requests of the HTTP API. *)
Lemma no_line tid L w rq rid uuid : (tid, inl (SHttp rq rid uuid)) ∈ L → s_inv L w →
  ∀ c line r u, (tid, inl (SLine c line r u)) ∉ L.
Proof. intros Hj [_ (Hf & _)] c line r u Hin. discriminate (Hf _ _ _ Hj Hin). Qed.
Lemma s_verify_admin tid L w rq rid uuid (k : AdminJwtPayload → HttpProg) :
  (tid, inl (SHttp rq rid uuid)) ∈ L → s_inv L w →
  (∀ p L' w', L `prefix_of` L' → s_inv L' w' → verified_job L' tid p → keeps tid L' w' (k p)) →
  keeps tid L w (verify_admin (extractBearerToken rq) k).
Proof.
  intros Hj Hi Hk. unfold verify_admin, keeps. destruct (extractBearerToken rq) as [token|] eqn:Et; [|done].
  cbn [stretch fst snd]. split; [done|]. intros L' w' r HL HI.
  assert (L' `prefix_of` L' ++ [(tid, inr (Event _ (EVerifyJwt token) w r))]) as HL' by (by apply prefix_app_r).
  assert ((tid, inl (SHttp rq rid uuid)) ∈ L') as Hj' by lift.
  assert (s_inv (L' ++ [(tid, inr (Event _ (EVerifyJwt token) w r))]) w') as HI'.
  { destruct HI as [Hc (Hf & [Hc1 Hc2] & Hinv)]. split; [by eapply s_cache_prefix|]. split_and!.
    - intros t j j'. rewrite !elem_of_app, !list_elem_of_singleton. intros [?|[=]] [?|[=]]. by eapply Hf.
    - split.
      + intros conn cs Hcs Ha. destruct (Hc1 conn cs Hcs Ha) as (p & Hp & ?). exists p.
        split; [by eapply verified_conn_prefix|done].
      + intros conn p Hv. apply (Hc2 conn p). eapply verified_conn_snoc; [..|done]; [|naive_solver].
        intros t ev tok p' [= <- _] _ c line r' u Hin. discriminate (Hf _ _ _ Hj' Hin).
    - intros t ev call Hin He. apply (invocation_ok_prefix L'); [done|].
      apply elem_of_app in Hin as [Hin|Hin%list_elem_of_singleton]; [by eapply Hinv|].
      injection Hin as -> ->. done. }
  destruct r as [p|e]; [|done]. apply Hk; [by etrans|done|]. right.
  exists rq, rid, uuid, (Event _ (EVerifyJwt token) w (Ok p)), token.
  split_and!; [lift|done|apply elem_of_end|done].
Qed.
Lemma s_verify_credential tid L w rq rid uuid (k : CredentialRecord → HttpProg) :
  (tid, inl (SHttp rq rid uuid)) ∈ L → s_inv L w →
  (∀ c L' w', L `prefix_of` L' → s_inv L' w' →
     (∀ L'' spec data rid', L' `prefix_of` L'' → (∃ params, as_handler spec params = inr data) →
        invocation_ok L'' tid (spec, data, http_context signetId rid' None (Some c) None)) →
     keeps tid L' w' (k c)) →
  keeps tid L w (verify_credential (extractBearerToken rq) k).
Proof.
  intros Hj Hi Hk. unfold verify_credential, keeps. destruct (extractBearerToken rq) as [token|] eqn:Et; [|done].
  cbn [stretch fst snd]. split; [done|]. intros L' w' r HL HI.
  assert (s_inv (L' ++ [(tid, inr (Event _ (ELookupToken token) w r))]) w') as HI' by (by apply s_inv_calm).
  destruct r as [c|e]; [|done]. apply Hk; [etrans; [done|]; by apply prefix_app_r|done|].
  intros L'' spec data rid' HL'' Hp. split; [|done]. right.
  exists rq, rid, uuid, (Event _ (ELookupToken token) w (Ok c)), token, c. split_and!; try done.
  - eapply elem_of_prefix; [|exact Hj]. etrans; [done|]. etrans; [|done]. by apply prefix_app_r.
  - eapply elem_of_prefix; [done|]. apply elem_of_end.
Qed.
Lemma s_body {A} tid L w (k : result unit json → EProg A) : s_inv L w →
  (∀ L' w' r, L `prefix_of` L' → s_inv L' w' → keeps tid L' w' (k r)) →
  keeps tid L w (readJsonBody JSON_parse k).
Proof.
  intros Hi Hk. unfold readJsonBody, keeps. cbn [stretch]. split; [done|]. intros L' w' x HL HI.
  apply Hk; [etrans; [done|]; by apply prefix_app_r|by apply s_inv_calm].
Qed.
Lemma s_params {A} tid L w rq source (k : result SignetError json → EProg A) : s_inv L w →
  (∀ L' w' r, L `prefix_of` L' → s_inv L' w' → keeps tid L' w' (k r)) →
  keeps tid L w (parseActionParams JSON_parse rq source k).
Proof.
  intros Hi Hk. unfold parseActionParams. destruct source; [by apply Hk|]. apply s_body; [done|].
  intros L' w' r HL HI. by apply Hk.
Qed.
Lemma s_run_action tid L w spec data ctx : s_inv L w → invocation_ok L tid (spec, data, ctx) →
  keeps tid L w (run_action spec data ctx).
Proof.
  intros Hi Hok. unfold run_action, keeps. cbn [stretch]. split; [done|]. intros L' w' x HL HI.
  assert (s_inv (L' ++ [(tid, inr (Event _ (EInvoke spec data ctx) w x))]) w') as HI'.
  { apply s_inv_invoke; [done|]. by eapply invocation_ok_prefix. }
  by destruct (settle_answer x).
Qed.
(** Resolving an elevation for a verified admin, and going on with it. *)
Lemma s_elevate {A} tid L w p method params uuid (k : EResult → EProg A) : s_inv L w → verified_job L tid p →
  (∀ L' w' r, L `prefix_of` L' → s_inv L' w' →
     (∀ spec data rid' elevation, r = Some (Ok elevation) → (∃ params, as_handler spec params = inr data) →
        invocation_ok L' tid (spec, data, http_context signetId rid' (Some (jwt_iss p)) None elevation)) →
     keeps tid L' w' (k r)) →
  keeps tid L w (bind (resolveForRequest deps (mkInput method params (jwt_iss p) (session_key p)) uuid) k).
Proof.
  intros Hi Hp Hk. unfold keeps. apply stretch_bind. eapply stretch_mono; [|apply s_resolve; [|done]].
  2:{ by exists p. }
  intros L' w' r HL (_ & HI & Hel). apply Hk; [done|done|].
  intros spec data rid' elevation -> Hd. split; [|done]. left. exists p. split_and!; [|done..|].
  - by eapply verified_job_prefix.
  - cbn. intros e ->. by apply Hel.
Qed.
Lemma action_input_ok spec params data : action_input spec params = Ok data → as_handler spec params = inr data.
Proof. unfold action_input. destruct (as_handler spec params); intros; by simplify_eq. Qed.

Lemma s_http tid L w rq rid uuid : (tid, inl (SHttp rq rid uuid)) ∈ L → s_inv L w →
  keeps tid L w (http_handleRequest deps registry signetId JSON_parse actionRoutes rq rid uuid).
Proof.
  intros Hj Hi. unfold http_handleRequest. destruct (bool_decide _ && _).
  { unfold keeps. cbn [stretch]. split; [done|]. intros L' w' x HL HI. by apply s_inv_calm. }
  assert (∀ m, keeps tid L w (handleAdminRoute deps registry signetId JSON_parse rq m rid uuid)) as Hadmin.
  { intros m. unfold handleAdminRoute. eapply s_verify_admin; [done..|]. intros p L1 w1 HL1 HI1 Hp.
    apply s_body; [done|]. intros L2 w2 [params|] HL2 HI2; [|done].
    destruct (dispatcher_validate registry m params) as [validated|e] eqn:Ev; [|done].
    case_bool_decide; [done|]. apply s_elevate; [done|by eapply verified_job_prefix|].
    intros L3 w3 r HL3 HI3 Hok. destruct r as [[elevation|e]|]; [|done..].
    apply s_dispatch; [done| |by intros L4 w4 [] ?]. intros spec Hs. apply Hok; [done|].
    exists params. by eapply validated_parsed. }
  assert (∀ m, keeps tid L w (handleCredentialRoute rq m)) as Hcred.
  { intros m. unfold handleCredentialRoute. eapply s_verify_credential; [done..|].
    intros c L1 w1 HL1 HI1 _. by case_bool_decide. }
  assert (∀ route, keeps tid L w (handleActionRoute deps signetId JSON_parse rq route rid uuid)) as Haction.
  { intros route. unfold handleActionRoute. destruct (rt_auth route).
    - eapply s_verify_admin; [done..|]. intros p L1 w1 HL1 HI1 Hp.
      apply s_params; [done|]. intros L2 w2 [params|] HL2 HI2; [|done].
      destruct (action_input (rt_spec route) params) as [data|e] eqn:Ed; [|done].
      destruct (_ && _); [done|]. apply s_elevate; [done|by eapply verified_job_prefix|].
      intros L3 w3 r HL3 HI3 Hok. destruct r as [[elevation|e]|]; [|done..].
      apply s_run_action; [done|]. apply Hok; [done|]. exists params. by apply action_input_ok.
    - eapply s_verify_credential; [done..|]. intros c L1 w1 HL1 HI1 Hok.
      apply s_params; [done|]. intros L2 w2 [params|] HL2 HI2; [|done].
      destruct (action_input (rt_spec route) params) as [data|e] eqn:Ed; [|done].
      apply s_run_action; [done|]. apply Hok; [done|]. exists params. by apply action_input_ok. }
  repeat case_match; try apply Hadmin; try apply Hcred; try apply Haction; done.
Qed.

(** ** Whose authority an action is invoked with *)
Definition surface_env : EWorld → EWorld → Prop := elev_env.
Lemma surface_reachable w0 s : ew_cache w0 = [] → ew_conns w0 = [] →
  rtc (sys_step surface_body surface_env) (mkSys w0 [] []) s → s_inv (s_log s) (s_world s).
Proof.
  intros H1 H2 Hr.
  destruct (sys_safe surface_body surface_env s_inv (λ _ _ _ _, True)) with (w0 := w0) (s := s) as [HI _]; try done.
  - intros L w w' Hi (_ & Hc & Hn). by apply (s_inv_world _ w).
  - intros j tid L w [Hc HK] Hfresh. set (L0 := L ++ [(tid, inl j)]).
    assert (s_inv L0 w) as Hi.
    { split; [|by apply K_spawn]. eapply s_cache_prefix; [|done]. by apply prefix_app_r. }
    assert ((tid, inl j) ∈ L0) as Hin by apply elem_of_end.
    enough (keeps tid L0 w (surface_body j)) as Hk.
    { eapply stretch_mono; [|exact Hk]. by intros. }
    destruct j as [conn|conn decode chunk|conn line rid uuid|rq rid uuid|cached]; unfold keeps; cbn [surface_body].
    + cbn [stretch fst snd]. by apply s_inv_touch.
    + cbn [stretch fst snd]. apply s_inv_touch; [done|..]; unfold on_data; by destruct (cut_lines _ _).
    + apply stretch_bind. eapply stretch_mono; [|by apply s_line]. by intros.
    + by apply s_http.
    + apply stretch_bind. eapply stretch_mono; [|apply stretch_and].
      2:{ apply quiet_stretch; [apply surface_asked_prefix|apply quiet_expire|apply Hi]. }
      2:{ apply calm_stretch; [apply calm_expire|apply Hi]. }
      intros L' w' a _ [[_ ?] [_ ?]]. by split.
  - split; [|split_and!].
    + intros key c. rewrite H1. by intros ?%not_elem_of_nil.
    + by intros t j j' ?%not_elem_of_nil.
    + split.
      * intros conn cs. by rewrite H2.
      * by intros conn p (? & ? & ? & ? & ? & ? & ?%not_elem_of_nil & _).
    + by intros t ev call ?%not_elem_of_nil.
Qed.

(** What the key of the elevation cache tells apart: the session and the chat
    are joined by a colon. *)
Definition no_colon (s : string) : bool := str_forallb (λ c, negb (bool_decide (c = ":"%char))) s.
Lemma colon_split (a b a' b' : string) : no_colon b = true → no_colon b' = true →
  a +:+ String ":" b = a' +:+ String ":" b' → a = a' ∧ b = b'.
Proof.
  assert (∀ x y : string, no_colon (x +:+ String ":" y) = true → False) as Hno.
  { intros x y. unfold no_colon. rewrite str_forallb_app. cbn. by rewrite andb_false_r. }
  intros Hb Hb'. revert a'. induction a as [|c a IH]; intros [|c' a'] E.
  - injection E as ->. by split.
  - injection E as _ ->. exfalso. by eapply Hno.
  - injection E as _ E'. rewrite <- E' in Hb'. exfalso. by eapply Hno.
  - injection E as -> E'. by destruct (IH a' E') as [-> ->].
Qed.
Lemma cache_key_split a b a' b' : no_colon b = true → no_colon b' = true →
  buildCacheKey a b = buildCacheKey a' b' → a = a' ∧ b = b'.
Proof. apply colon_split. Qed.

End surfaces.

(** ** Witness *)
Section demo.
#[local] Existing Instance iso_date.
Definition demo_deps : ElevationDeps := mkElevationDeps false false false false "owner" id 60000.
Definition demo_spec : Spec :=
  mkSpec "seal.list" inr None None (Some ai_read) None (Some (mkCli None None None None None)) None None.
Definition demo_registry : ActionRegistry Schema := [("seal.list", demo_spec)].
Definition demo_parse (line : string) : option json :=
  if bool_decide (line = "auth") then Some (JObj [("type", JStr "admin_auth"); ("token", JStr "jwt")])
  else if bool_decide (line = "call") then
    Some (JObj [("jsonrpc", JStr "2.0"); ("id", JNum 1); ("method", JStr "seal.list")])
  else None.
Definition demo_payload : AdminJwtPayload := mkJwt "fp" "fp" 0 60 "jti".
Definition demo_w0 : EWorld := mkEWorld 1767225600000 [] [] [] [] [].
Definition demo_body := surface_body demo_deps demo_registry "signet" demo_parse (λ _, JNull) [].
Definition demo_ctx : HandlerContext := mkContext "signet" "r2" (Some "fp") None None None.

Lemma demo_invoked : ∃ s ev, rtc (sys_step demo_body surface_env) (mkSys demo_w0 [] []) s ∧
  (2%nat, inr ev) ∈ s_log s ∧ invoked ev = Some (demo_spec, JObj [], demo_ctx).
Proof.
  eexists _, _. split_and!.
  - eapply rtc_l; [apply (sys_spawn _ _ _ _ _ (SOpen 0))|].
    eapply rtc_l; [apply (sys_spawn _ _ _ _ _ (SLine 0 "auth" "r1" "u1"))|].
    eapply rtc_l; [eapply (sys_answer _ _ _ _ _ 1%nat) with (x := Ok demo_payload); reflexivity|].
    eapply rtc_l; [apply (sys_spawn _ _ _ _ _ (SLine 0 "call" "r2" "u2"))|].
    eapply rtc_l; [eapply (sys_answer _ _ _ _ _ 2%nat) with (x := Returned (Ok (JArr []))); reflexivity|].
    apply rtc_refl.
  - apply elem_of_end.
  - reflexivity.
Qed.

(** Lines of one connection overlap: a request sent right behind the
    authentication line, without waiting for its answer, is refused. *)
Lemma pipelined_request_refused :
  ∃ s, rtc (sys_step demo_body surface_env) (mkSys demo_w0 [] []) s ∧
  ew_written (s_world s) =
    [(0%nat, makeJsonRpcError JNull AUTH_FAILED "Expected admin_auth frame as first message" JUndef);
     (0%nat, JObj [("jsonrpc", JStr "2.0"); ("result", JObj [("authenticated", JBool true)])])].
Proof.
  eexists. split.
  - eapply rtc_l; [apply (sys_spawn _ _ _ _ _ (SOpen 0))|].
    eapply rtc_l; [apply (sys_spawn _ _ _ _ _ (SLine 0 "auth" "r1" "u1"))|].
    eapply rtc_l; [apply (sys_spawn _ _ _ _ _ (SLine 0 "call" "r2" "u2"))|].
    eapply rtc_l; [eapply (sys_answer _ _ _ _ _ 1%nat) with (x := Ok demo_payload); reflexivity|].
    apply rtc_refl.
  - reflexivity.
Qed.

(** The codes the socket reports are not those of the error taxonomy: what it
    sends for a permission error is the taxonomy's code of a timeout, and what
    it sends for a missing resource that of a network error. *)
Lemma rpc_codes_diverge :
  jsonRpcCodeForCategory permission = jsonRpcCode (errorCategoryMeta timeout) ∧
  jsonRpcCodeForCategory not_found = jsonRpcCode (errorCategoryMeta network) ∧
  jsonRpcCodeForCategory permission ≠ jsonRpcCode (errorCategoryMeta permission) ∧
  categoryToStatus timeout ≠ statusCode (errorCategoryMeta timeout) ∧
  categoryToStatus network ≠ statusCode (errorCategoryMeta network).
Proof. by vm_compute. Qed.
End demo.
