(* ===== verification/RequestHandler.v ===== *)
(** * The WebSocket request handler

    [cli/src/ws/request-handler.ts]: what a connected agent can ask for.  A
    handler is a program over a world (credential store, pending actions,
    clock) that runs synchronously between its awaits; while it waits, the
    rest of the system may change the world in any way its own operations
    allow.  [deps] functions outside the repository's core (the XMTP client
    behind [sendMessage] and [listMessages], the seal services) answer
    anything. *)
From S2P Require Import Prelude JsDate Json Errors Ids Scopes Policy Reveal Seals SealSigning Credentials CredentialSpec Registries CredentialService Programs.

(** ** World, effects and requests *)
Record World := {
  w_now : Z; w_creds : CredState; w_pending : PendingStore;
  w_expired : list PendingAction; w_broadcasts : list (string * RevealedBroadcast)
}.
Definition set_creds (w : World) (c : CredState) : World :=
  {| w_now := w_now w; w_creds := c; w_pending := w_pending w; w_expired := w_expired w;
     w_broadcasts := w_broadcasts w |}.
Definition set_pending (w : World) (p : PendingStore) : World :=
  {| w_now := w_now w; w_creds := w_creds w; w_pending := p; w_expired := w_expired w;
     w_broadcasts := w_broadcasts w |}.
Definition log_expired (w : World) (a : PendingAction) : World :=
  {| w_now := w_now w; w_creds := w_creds w; w_pending := w_pending w;
     w_expired := w_expired w ++ [a]; w_broadcasts := w_broadcasts w |}.
Definition log_broadcasts (w : World) (cid : string) (l : list RevealedBroadcast) : World :=
  {| w_now := w_now w; w_creds := w_creds w; w_pending := w_pending w; w_expired := w_expired w;
     w_broadcasts := w_broadcasts w ++ map (pair cid) l |}.
(** A synchronous operation of the credential manager. *)
Definition on_creds {X} (f : Z → CredState → CredState * X) (w : World) : World * X :=
  let '(c, x) := f (w_now w) (w_creds w) in (set_creds w c, x).

Inductive eff : Type → Type :=
  | EnsureCoreReady : eff (result SignetError unit)
  | Tick : eff unit                       (** an already settled promise *)
  | SendMessage (groupId contentType : string) (content : json) : eff (result SignetError string)
  | CurrentSeal (credentialId chatId : string) : eff (result SignetError (option SealEnvelope))
  | BindMessage (messageId sealId : string) : eff (result SignetError MessageSealBinding)
  | ListMessages (groupId : string) : eff (result SignetError (list ListedMessage)).
Abbreviation Prog := (prog World eff).

Inductive HarnessRequest :=
  | RqSendMessage (groupId contentType : string) (content : json)
  | RqSendReaction (groupId messageId content : string)
  | RqSendReply (groupId messageId contentType : string) (content : json)
  | RqUpdateScopes (req_allow req_deny : option (list PermissionScope))
  | RqRevealContent (reveal : RevealRequest)
  | RqConfirmAction (actionId : string) (confirmed : bool)
  | RqHeartbeat (credId : string).
Definition request_type (r : HarnessRequest) : string :=
  match r with
  | RqSendMessage _ _ _ => "send_message" | RqSendReaction _ _ _ => "send_reaction"
  | RqSendReply _ _ _ _ => "send_reply" | RqUpdateScopes _ _ => "update_scopes"
  | RqRevealContent _ => "reveal_content" | RqConfirmAction _ _ => "confirm_action"
  | RqHeartbeat _ => "heartbeat"
  end.
Record Provenance := {
  pv_credentialId : string; pv_operatorId : string; pv_binding : MessageSealBinding
}.
Inductive Response :=
  | RsSent (messageId : string) (provenance : option Provenance)
  | RsSendResult (messageId : string)
  | RsNull
  | RsAccess (access : RevealAccess)
  | RsUpdate (u : UpdateResult)
  | RsDenied (actionId : string).
Abbreviation Answer := (result SignetError Response).

(** Which optional dependencies are wired. *)
Record HandlerDeps := {
  d_internalCredentialManager : bool; d_pendingActions : bool; d_seals : bool; d_replay : bool
}.
Definition resolveScopes (c : CredentialRecord) : list string :=
  map scope_name (resolveScopeSet (cr_effectiveScopes c)).
Definition resolveChatIds (c : CredentialRecord) : list string := sc_chatIds (cr_base c).

Section handlers.
Context `{JsDate} (computeHash : ScopeSetType → list string → string)
        (config : CredentialManagerConfig) (deps : HandlerDeps)
        (as_message : json → string * string * json). (** [payload as {groupId, ...}] *)

Definition attach_provenance (c : CredentialRecord) (groupId messageId : string) : Prog Answer :=
  if d_seals deps then
    await sealResult <- CurrentSeal (cr_credentialId c) groupId ;;
    match sealResult with
    | Ok (Some envelope) =>
        let p := current (chain envelope) in
        await b <- BindMessage messageId (Seals.sealId p) ;;
        match b with
        | Err e => Ret (Err e)
        | Ok binding =>
            Ret (Ok (RsSent messageId
              (Some {| pv_credentialId := Seals.credentialId p;
                       pv_operatorId := Seals.operatorId p; pv_binding := binding |})))
        end
    | _ => Ret (Ok (RsSent messageId None))
    end
  else Ret (Ok (RsSent messageId None)).
Definition handleSendMessage (groupId contentType : string) (content : json)
  (c : CredentialRecord) : Prog Answer :=
  match validateSendMessage groupId (resolveScopes c) (resolveChatIds c) with
  | Err e => Ret (Err e)
  | Ok _ =>
      await ready <- EnsureCoreReady ;;
      match ready with
      | Err e => Ret (Err e)
      | Ok _ =>
          sync fresh <- on_creds (λ now st, svc_lookup config now st (cr_credentialId c)) ;;
          await _u <- Tick ;;
          match fresh with
          | Err e => Ret (Err e)
          | Ok f =>
              if negb (bool_decide (sc_status (cr_base f) = st_active)) then
                Ret (Err (AuthError_create ("Credential is " +:+
                  status_name (sc_status (cr_base f)) +:+ " -- cannot send messages") None))
              else
                await sent <- SendMessage groupId contentType content ;;
                match sent with
                | Err e => Ret (Err e)
                | Ok messageId => attach_provenance c groupId messageId
                end
          end
      end
  end.

Definition handleHeartbeat (requested : string) (c : CredentialRecord) : Prog Answer :=
  if negb (bool_decide (requested = cr_credentialId c)) then
    Ret (Err (AuthError_create "Heartbeat credential does not match authenticated credential"
      (Some [("authenticatedCredentialId", JStr (cr_credentialId c));
             ("requestedCredentialId", JStr requested)])))
  else if negb (d_internalCredentialManager deps) then Ret (Ok RsNull)
  else
    sync r <- on_creds (λ now st, recordHeartbeat now st (cr_credentialId c)) ;;
    match r with
    | Err e => Ret (Err e)
    | Ok _ => Ret (Ok RsNull)
    end.

(** [getRevealState] and [store.record], in one synchronous part. *)
Definition record_reveal (cid : string) (reveal : RevealRequest) (now : Z) (st : CredState)
  : CredState * result SignetError RevealAccess :=
  match getRevealState st cid with
  | (st, Err e) => (st, Err e)
  | (st, Ok _) =>
      let access := {| acc_revealId := req_revealId reveal; acc_grantedAt := nowISO now;
                       acc_grantedBy := req_requestedBy reveal;
                       acc_expiresAt := req_expiresAt reveal |} in
      (recordReveal st cid access reveal, Ok access)
  end.
Definition handleRevealContent (reveal : RevealRequest) (c : CredentialRecord) : Prog Answer :=
  if negb (d_internalCredentialManager deps) then
    Ret (Err (InternalError_create "Internal credential manager not available" None))
  else
    sync r <- on_creds (record_reveal (cr_credentialId c) reveal) ;;
    match r with
    | Err e => Ret (Err e)
    | Ok access =>
        if d_replay deps then
          await msgs <- ListMessages (req_groupId reveal) ;;
          match msgs with
          | Err _ => Ret (Ok (RsAccess access))
          | Ok msgs =>
              sync _u <- (λ w : World,
                let store := default [] (om_get (cr_credentialId c) (revealStates (w_creds w))) in
                (log_broadcasts w (cr_credentialId c)
                   (replay (w_now w) store (resolveScopes c) (resolveChatIds c)
                      (acc_revealId access) msgs), tt)) ;;
              Ret (Ok (RsAccess access))
          end
        else Ret (Ok (RsAccess access))
    end.

Definition handleUpdateScopes (ra rd : option (list PermissionScope)) (c : CredentialRecord)
  : Prog Answer :=
  if negb (d_internalCredentialManager deps) then
    Ret (Err (InternalError_create "Internal credential manager not available" None))
  else
    sync r <- on_creds (λ _ st, ws_updateScopes computeHash st c ra rd) ;;
    match r with
    | Err e => Ret (Err e)
    | Ok u => Ret (Ok (RsUpdate u))
    end.

Definition pending_expired (now : Z) (p : PendingAction) : bool :=
  negb (bool_decide (pa_expiresAt p = "")) &&
  num_ltb (date_getTime (pa_expiresAt p)) (Some now).
(** Everything [handleConfirmAction] does before its first await: an
    answer, or the action taken from the store for execution. *)
Definition confirm_prepare (actionId : string) (confirmed : bool) (c : CredentialRecord) (w : World)
  : World * (Answer + PendingAction) :=
  match pa_get (w_pending w) actionId with
  | None => (w, inl (Err (NotFoundError_create "PendingAction" actionId)))
  | Some pending =>
      let deny w := set_pending w (pa_deny (w_pending w) actionId).1 in
      if negb (bool_decide (pa_credentialId pending = cr_credentialId c)) then
        (w, inl (Err (PermissionError_create "Pending action does not belong to this credential"
           (Some [("actionId", JStr actionId); ("credentialId", JStr (cr_credentialId c))]))))
      else if pending_expired (w_now w) pending then
        (log_expired (deny w) pending,
         inl (Err (PermissionError_create "Pending action has expired"
           (Some [("actionId", JStr actionId); ("expiresAt", JStr (pa_expiresAt pending))]))))
      else if negb confirmed then (deny w, inl (Ok (RsDenied actionId)))
      else
        let '(groupId, _, _) := as_message (pa_payload pending) in
        match (if bool_decide (pa_actionType pending = "send_message")
               then validateSendMessage groupId (resolveScopes c) (resolveChatIds c)
               else Ok {| draftOnly := false |}) with
        | Err e => (deny w, inl (Err e))
        | Ok _ =>
            match pa_confirm (w_pending w) actionId with
            | (p, None) => (set_pending w p, inl (Err (NotFoundError_create "PendingAction" actionId)))
            | (p, Some action) => (set_pending w p, inr action)
            end
        end
  end.
Definition handleConfirmAction (actionId : string) (confirmed : bool) (c : CredentialRecord)
  : Prog Answer :=
  if negb (d_pendingActions deps) then
    Ret (Err (InternalError_create "Pending action store not available" None))
  else
    sync x <- confirm_prepare actionId confirmed c ;;
    match x with
    | inl answer => Ret answer
    | inr action =>
        if bool_decide (pa_actionType action = "send_message") then
          let '(groupId, contentType, content) := as_message (pa_payload action) in
          await ready <- EnsureCoreReady ;;
          match ready with
          | Err e => Ret (Err e)
          | Ok _ =>
              await sent <- SendMessage groupId contentType content ;;
              match sent with
              | Err e => Ret (Err e)
              | Ok messageId => Ret (Ok (RsSendResult messageId))
              end
          end
        else Ret (Err (InternalError_create
               ("Unknown pending action type: " +:+ pa_actionType action) None))
    end.

(** The staleness guard and the dispatch on the request type. *)
Definition handleRequest (request : HarnessRequest) (c : CredentialRecord) : Prog Answer :=
  let dispatch :=
    match request with
    | RqSendMessage g ct content => handleSendMessage g ct content c
    | RqHeartbeat credId => handleHeartbeat credId c
    | RqRevealContent reveal => handleRevealContent reveal c
    | RqUpdateScopes ra rd => handleUpdateScopes ra rd c
    | RqConfirmAction actionId confirmed => handleConfirmAction actionId confirmed c
    | _ => Ret (Err (InternalError_create
             ("Harness request type '" +:+ request_type request +:+ "' is not supported") None))
    end in
  if negb (bool_decide (request_type request = "heartbeat")) && d_internalCredentialManager deps then
    sync stale <- (λ w : World, (w, isHeartbeatStale config (w_now w) (w_creds w)
                                      (cr_credentialId c))) ;;
    match stale with
    | Ok true => Ret (Err (AuthError_create
        "Credential heartbeat is stale -- send a heartbeat before making requests" None))
    | _ => dispatch
    end
  else dispatch.
End handlers.

(** ** What may happen while a handler waits *)
Section environment.
Context `{JsDate} (computeHash : ScopeSetType → list string → string)
        (seconds : Z → json) (config : CredentialManagerConfig).
Definition env (w w' : World) : Prop :=
  w_now w <= w_now w' ∧
  rtc (cred_step computeHash seconds config) (w_creds w) (w_creds w') ∧
  rtc pa_step (w_pending w) (w_pending w').
#[export] Instance env_preorder : PreOrder env.
Proof.
  split; [by intros w; split_and!; [lia|..]|].
  intros w1 w2 w3 (?&?&?) (?&?&?). split_and!; [lia|by etrans|by etrans].
Qed.
End environment.

(** ** Safety of sending *)
(** The messages a run hands to the XMTP client, with the world of the call. *)
Definition send_of (e : event World eff) : option (string * string * json * World) :=
  match ev_eff e with
  | SendMessage g ct x => Some (g, ct, x, ev_world e)
  | _ => None
  end.
Definition sends (t : list (event World eff)) : list (string * string * json * World) :=
  base.omap send_of t.

Section send_safety.
Context `{JsDate} (computeHash : ScopeSetType → list string → string)
        (seconds : Z → json) (config : CredentialManagerConfig) (deps : HandlerDeps)
        (as_message : json → string * string * json).
Abbreviation env := (env computeHash seconds config).
Abbreviation handle := (handleRequest computeHash config deps as_message).

Lemma attach_no_send env0 w c g mid t w' r :
  run env0 w (attach_provenance deps c g mid) t w' r → sends t = [].
Proof.
  unfold attach_provenance. destruct (d_seals deps); cbn [run]; [|by intros (-> & _)].
  intros (w1 & x & t1 & _ & -> & Hr). destruct x as [[e|]|]; cbn [run] in Hr; [|by destruct Hr as (-> & _)..].
  destruct Hr as (w2 & [b|b] & t2 & _ & -> & -> & _); done.
Qed.
Lemma svc_lookup_env w cid :
  env w (on_creds (λ now st, svc_lookup config now st cid) w).1.
Proof. split_and!; [done|cbn; apply rtc_once, cs_sweep|done]. Qed.

(** What a direct send guarantees. *)
Definition checked_send (w : World) (c : CredentialRecord) (ws : World) : Prop :=
  ∃ w1, env w w1 ∧ env (on_creds (λ now st, svc_lookup config now st (cr_credentialId c)) w1).1 ws ∧
    ∃ f, (svc_lookup config (w_now w1) (w_creds w1) (cr_credentialId c)).2 = Ok f ∧
      sc_status (cr_base f) = st_active.
Lemma send_message_spec w c g ct content t w' r :
  run env w (handleSendMessage config deps g ct content c) t w' r →
  sends t = [] ∨ ∃ ws, sends t = [(g, ct, content, ws)] ∧ checked_send w c ws ∧
    isOk (validateSendMessage g (resolveScopes c) (resolveChatIds c)) = true.
Proof.
  unfold handleSendMessage. destruct (validateSendMessage _ _ _) as [v|e] eqn:Hv;
    [|intros (-> & _); by left].
  intros (w1 & ready & t1 & Henv & -> & Hr). destruct ready as [[]|]; cbn [run] in Hr;
    [|destruct Hr as (-> & _); by left].
  destruct Hr as (w2 & [] & t2 & Henv2 & -> & Hr).
  destruct (on_creds _ w1).2 as [f|e] eqn:Hf in Hr; cbn [run] in Hr;
    [|destruct Hr as (-> & _); by left].
  destruct (negb _) eqn:Hs in Hr; cbn [run] in Hr; [destruct Hr as (-> & _); by left|].
  destruct Hr as (w3 & sent & t3 & _ & -> & Hr). right. exists w2.
  assert (sends t3 = []) as Ht3.
  { destruct sent; [by eapply attach_no_send|]. by destruct Hr as (-> & _). }
  split_and!; [|exists w1; split_and!; [done|done|]|done].
  - unfold sends in *. cbn. by rewrite Ht3.
  - exists f. split; [by cbn in Hf|]. apply negb_false_iff, bool_decide_eq_true in Hs. done.
Qed.

(** What sending a confirmed action guarantees. *)
Definition confirmed_send (w : World) (c : CredentialRecord) (id : string)
  (m : string * string * json) (ws : World) : Prop :=
  ∃ a w1, pa_get (w_pending w) id = Some a ∧ pa_credentialId a = cr_credentialId c ∧
    pending_expired (w_now w) a = false ∧ as_message (pa_payload a) = m ∧
    pa_actionType a = "send_message" ∧ pa_get (w_pending w1) id = None ∧ env w1 ws.
Lemma confirm_spec w c id confirmed t w' r :
  run env w (handleConfirmAction deps as_message id confirmed c) t w' r →
  sends t = [] ∨ confirmed = true ∧ ∃ g ct content ws, sends t = [(g, ct, content, ws)] ∧
    confirmed_send w c id (g, ct, content) ws ∧
    isOk (validateSendMessage g (resolveScopes c) (resolveChatIds c)) = true.
Proof.
  unfold handleConfirmAction. destruct (negb (d_pendingActions deps)); [intros (-> & _); by left|].
  cbn [run]. unfold confirm_prepare. destruct (pa_get (w_pending w) id) as [a|] eqn:Ha;
    [|intros (-> & _); by left].
  case_bool_decide as Hc; cbn [negb]; [|intros (-> & _); by left].
  destruct (pending_expired (w_now w) a) eqn:He; [intros (-> & _); by left|].
  destruct confirmed; cbn [negb]; [|intros (-> & _); by left].
  destruct (as_message (pa_payload a)) as [[g ct] content] eqn:Hm.
  destruct (if bool_decide _ then _ else _) as [v|e] eqn:Hv; [|intros (-> & _); by left].
  unfold pa_confirm, removeAndReturn. unfold pa_get in Ha. rewrite Ha. cbn [fst snd].
  case_bool_decide as Ht; [|intros (-> & _); by left]. rewrite Hm.
  intros (w1 & ready & t1 & Henv & -> & Hr). destruct ready as [[]|]; cbn [run] in Hr;
    [|destruct Hr as (-> & _); by left].
  destruct Hr as (w2 & sent & t2 & _ & -> & Hr). right. split; [done|]. exists g, ct, content, w1.
  assert (t2 = []) as -> by (destruct sent; by destruct Hr as (-> & _)).
  split_and!; [done| |by rewrite Hv].
  exists a, (set_pending w (om_delete id (w_pending w))). split_and!; try done.
  unfold pa_get. cbn. by rewrite om_get_delete, decide_True.
Qed.
Lemma other_no_send w c rq t w' r :
  (∀ g ct x, rq ≠ RqSendMessage g ct x) → (∀ id b, rq ≠ RqConfirmAction id b) →
  run env w (handle rq c) t w' r → sends t = [].
Proof.
  intros Hs Hc. unfold handleRequest.
  assert (∀ w, run env w (match rq with
    | RqSendMessage g ct content => handleSendMessage config deps g ct content c
    | RqHeartbeat credId => handleHeartbeat deps credId c
    | RqRevealContent reveal => handleRevealContent deps reveal c
    | RqUpdateScopes ra rd => handleUpdateScopes computeHash deps ra rd c
    | RqConfirmAction actionId confirmed => handleConfirmAction deps as_message actionId confirmed c
    | _ => Ret (Err (InternalError_create
             ("Harness request type '" +:+ request_type rq +:+ "' is not supported") None))
    end) t w' r → sends t = []) as Hd.
  { intros w0. destruct rq as [g ct x| | |ra rd|reveal|id b|credId].
    - by destruct (Hs g ct x).
    - by intros (-> & _).
    - by intros (-> & _).
    - unfold handleUpdateScopes. destruct (negb _); [by intros (-> & _)|]. cbn [run].
      destruct (on_creds _ w0).2; by intros (-> & _).
    - unfold handleRevealContent. destruct (negb _); [by intros (-> & _)|]. cbn [run].
      destruct (on_creds _ w0).2; [|by intros (-> & _)].
      destruct (d_replay deps); [|by intros (-> & _)].
      intros (w1 & [msgs|] & t1 & _ & -> & Hr); cbn [run] in Hr; by destruct Hr as (-> & _).
    - by destruct (Hc id b).
    - unfold handleHeartbeat. destruct (negb _); [by intros (-> & _)|].
      destruct (negb _); [by intros (-> & _)|]. cbn [run].
      destruct (on_creds _ w0).2; by intros (-> & _). }
  destruct (_ && _); [|apply Hd]. cbn [run fst snd].
  destruct (isHeartbeatStale _ _ _ _) as [[]|]; [by intros (-> & _)|apply Hd|apply Hd].
Qed.
End send_safety.

Lemma validateSendMessage_ok g scopes chatIds :
  isOk (validateSendMessage g scopes chatIds) = true ↔ g ∈ chatIds ∧ "send" ∈ scopes.
Proof.
  unfold validateSendMessage, checkChatInScope. case_bool_decide as Hg; cbn [negb];
    [|by split; [|by intros [? _]]].
  rewrite <-(set_has_spec scopes "send"). destruct (set_has scopes "send"); cbn [negb isOk];
    [tauto|]. split; [done|by intros [_ ?]].
Qed.
Lemma resolveScopes_elem c s :
  scope_name s ∈ resolveScopes c ↔ effective (cr_effectiveScopes c) s.
Proof.
  unfold resolveScopes. rewrite effective_resolve. split.
  - intros (s' & Hs & Hin)%list_elem_of_fmap. apply (inj scope_name) in Hs. by subst.
  - intros Hin. apply list_elem_of_fmap. eauto.
Qed.

(** C3: nothing is sent without authority, however the system moves while a
    request waits: one request sends at most one message, to a chat of the
    credential, with the [send] scope effective; never while the stored
    heartbeat is stale; and either it is the very message of a
    [send_message] request, sent only after a lookup made once the core was
    ready found the credential active, or it is the message of a pending
    action of this credential, confirmed before its expiry and already taken
    out of the pending store, so that no later confirmation can send it
    again. *)
Theorem send_safety `{JsDate} computeHash seconds config deps as_message w rq c t w' r :
  run (env computeHash seconds config) w (handleRequest computeHash config deps as_message rq c) t w' r →
  (length (sends t) ≤ 1)%nat ∧
  ∀ g ct x ws, (g, ct, x, ws) ∈ sends t →
    g ∈ resolveChatIds c ∧ effective (cr_effectiveScopes c) send ∧
    (d_internalCredentialManager deps = true →
      isHeartbeatStale config (w_now w) (w_creds w) (cr_credentialId c) ≠ Ok true) ∧
    ((rq = RqSendMessage g ct x ∧ checked_send computeHash seconds config w c ws) ∨
     (∃ id, rq = RqConfirmAction id true ∧
        confirmed_send computeHash seconds config as_message w c id (g, ct, x) ws)).
Proof.
  intros Hrun.
  assert (sends t = [] ∨ ∃ g ct x ws, sends t = [(g, ct, x, ws)] ∧
    isOk (validateSendMessage g (resolveScopes c) (resolveChatIds c)) = true ∧
    (d_internalCredentialManager deps = true →
      isHeartbeatStale config (w_now w) (w_creds w) (cr_credentialId c) ≠ Ok true) ∧
    ((rq = RqSendMessage g ct x ∧ checked_send computeHash seconds config w c ws) ∨
     (∃ id, rq = RqConfirmAction id true ∧
        confirmed_send computeHash seconds config as_message w c id (g, ct, x) ws))) as Hcase.
  { destruct rq as [g ct x|g m x|g m ct x|ra rd|rv|id b|cid];
      try (left; by eapply other_no_send; [..|exact Hrun]).
    all: unfold handleRequest in Hrun; cbn [request_type] in Hrun.
    all: rewrite bool_decide_false in Hrun by done; cbn [negb andb] in Hrun.
    - assert (sends t = [] ∨ ((d_internalCredentialManager deps = true →
        isHeartbeatStale config (w_now w) (w_creds w) (cr_credentialId c) ≠ Ok true) ∧
        run (env computeHash seconds config) w (handleSendMessage config deps g ct x c) t w' r))
        as [?|[Hst Hr]]; [|by left|].
      { destruct (d_internalCredentialManager deps); [|by right]. cbn [run fst snd] in Hrun.
        destruct (isHeartbeatStale _ _ _ _) as [[]|]; [destruct Hrun as (-> & _); by left|by right..]. }
      apply send_message_spec in Hr as [?|(ws & -> & Hc & Hv)]; [by left|]. right.
      exists g, ct, x, ws. split_and!; [done..|]. by left.
    - assert (sends t = [] ∨ ((d_internalCredentialManager deps = true →
        isHeartbeatStale config (w_now w) (w_creds w) (cr_credentialId c) ≠ Ok true) ∧
        run (env computeHash seconds config) w (handleConfirmAction deps as_message id b c) t w' r))
        as [?|[Hst Hr]]; [|by left|].
      { destruct (d_internalCredentialManager deps); [|by right]. cbn [run fst snd] in Hrun.
        destruct (isHeartbeatStale _ _ _ _) as [[]|]; [destruct Hrun as (-> & _); by left|by right..]. }
      apply confirm_spec in Hr as [?|(-> & g & ct & x & ws & -> & Hc & Hv)]; [by left|]. right.
      exists g, ct, x, ws. split_and!; [done..|]. right. by exists id. }
  destruct Hcase as [->|(g & ct & x & ws & -> & Hv & Hst & Hc)].
  { split; [cbn; lia|]. by intros ? ? ? ? ?%not_elem_of_nil. }
  split; [cbn; lia|]. intros g' ct' x' ws' [= -> -> -> ->]%list_elem_of_singleton.
  apply validateSendMessage_ok in Hv as [Hg Hs]. apply (resolveScopes_elem c send) in Hs. done.
Qed.

(** ** Concrete runs *)
Definition demo_deps : HandlerDeps :=
  {| d_internalCredentialManager := true; d_pendingActions := true; d_seals := false;
     d_replay := false |}.
Definition demo_action : PendingAction :=
  {| pa_actionId := "act_1"; pa_credentialId := "cred_1"; pa_actionType := "send_message";
     pa_payload := JNull; pa_createdAt := "1970-01-01T00:00:00.000Z";
     pa_expiresAt := "1970-01-01T00:05:00.000Z" |}.
Definition demo_world : World :=
  {| w_now := 1000; w_creds := demo_store; w_pending := [("act_1", demo_action)];
     w_expired := []; w_broadcasts := [] |}.
Definition demo_record : CredentialRecord := toCredentialRecord 1000 demo_cred.
Definition demo_message (_ : json) : string * string * json := ("conv_1", "text", JStr "hi").
Definition demo_env := (env demo_hash demo_seconds DEFAULT_CONFIG).

Definition demo_world1 : World :=
  set_creds demo_world (sweepExpired DEFAULT_CONFIG 1000 demo_store).1.
Definition demo_trace : list (event World eff) :=
  [Event _ EnsureCoreReady demo_world (Ok tt); Event _ Tick demo_world1 tt;
   Event _ (SendMessage "conv_1" "text" (JStr "hi")) demo_world1 (Ok "m1")].
Lemma demo_env_refl w : demo_env w w.
Proof. unfold demo_env. reflexivity. Qed.
Lemma demo_run :
  run demo_env demo_world (handleRequest demo_hash DEFAULT_CONFIG demo_deps demo_message
    (RqSendMessage "conv_1" "text" (JStr "hi")) demo_record) demo_trace demo_world1
    (Ok (RsSent "m1" None)).
Proof.
  unfold handleRequest. rewrite bool_decide_false by done. cbn [negb andb demo_deps
    d_internalCredentialManager run fst snd].
  assert (isHeartbeatStale DEFAULT_CONFIG (w_now demo_world) (w_creds demo_world)
    (cr_credentialId demo_record) = Ok false) as ->.
  { change (w_creds demo_world) with demo_store. rewrite demo_store_eq. vm_compute. reflexivity. }
  exists demo_world, (Ok tt), (tl demo_trace).
  split; [apply demo_env_refl|]. split; [reflexivity|].
  change (on_creds _ demo_world).1 with demo_world1. cbn [run].
  assert ((on_creds (λ now st, svc_lookup DEFAULT_CONFIG now st (cr_credentialId demo_record))
    demo_world).2 = Ok demo_record) as Hl.
  { unfold on_creds. change (w_creds demo_world) with demo_store. rewrite demo_store_eq.
    vm_compute. reflexivity. }
  exists demo_world1, tt, (tl (tl demo_trace)).
  split; [apply demo_env_refl|]. split; [reflexivity|]. rewrite Hl.
  rewrite bool_decide_true by done. cbn [negb run].
  exists demo_world1, (Ok "m1"), [].
  split; [apply demo_env_refl|]. split; [reflexivity|]. split; [reflexivity|].
  split; reflexivity.
Qed.
Lemma send_safety_witness :
  length (sends demo_trace) = 1%nat ∧ effective (cr_effectiveScopes demo_record) send.
Proof.
  split; [reflexivity|].
  destruct (send_safety demo_hash demo_seconds DEFAULT_CONFIG demo_deps demo_message _ _ _ _ _ _
    demo_run) as [_ Hs].
  by destruct (Hs "conv_1" "text" (JStr "hi") demo_world1 ltac:(left)) as (_ & ? & _).
Defined.

(** The confirmation path never looks the credential up again: a credential
    revoked while the core becomes ready still sends the confirmed message,
    which the direct path would refuse. *)
Definition demo_world_confirmed : World := set_pending demo_world [].
Definition demo_world_revoked : World :=
  set_creds demo_world_confirmed (revokeCredential 1000 demo_store "cred_1" cr_owner_initiated).1.
Lemma confirmed_send_after_revocation :
  let t := [Event _ EnsureCoreReady demo_world_confirmed (Ok tt);
            Event _ (SendMessage "conv_1" "text" (JStr "hi")) demo_world_revoked (Ok "m1")] in
  run demo_env demo_world (handleRequest demo_hash DEFAULT_CONFIG demo_deps demo_message
    (RqConfirmAction "act_1" true) demo_record) t demo_world_revoked (Ok (RsSendResult "m1")) ∧
  status <$> om_get "cred_1" (byId (w_creds demo_world_revoked)) = Some st_revoked.
Proof.
  split; [|change (w_creds demo_world_revoked) with
    (revokeCredential 1000 demo_store "cred_1" cr_owner_initiated).1;
    rewrite demo_store_eq; vm_compute; reflexivity].
  unfold handleRequest. rewrite bool_decide_false by done. cbn [negb andb demo_deps
    d_internalCredentialManager run fst snd].
  assert (isHeartbeatStale DEFAULT_CONFIG (w_now demo_world) (w_creds demo_world)
    (cr_credentialId demo_record) = Ok false) as ->.
  { change (w_creds demo_world) with demo_store. rewrite demo_store_eq. vm_compute. reflexivity. }
  unfold handleConfirmAction. cbn [negb demo_deps d_pendingActions run].
  assert (confirm_prepare demo_message "act_1" true demo_record demo_world =
    (demo_world_confirmed, inr demo_action)) as -> by (vm_compute; reflexivity).
  cbn [fst snd]. rewrite bool_decide_true by done. cbn [demo_message run].
  exists demo_world_revoked, (Ok tt). eexists. split_and!; [|reflexivity|].
  - split_and!; [done| |done]. apply rtc_once, cs_revoke.
  - exists demo_world_revoked, (Ok "m1"), [].
    split; [apply demo_env_refl|]. split; [reflexivity|]. split; [reflexivity|].
    split; reflexivity.
Qed.
