(* ===== verification/Ws.v ===== *)
(** * WebSocket transport: buffers, phases and resumption

    [ws/src/replay-buffer.ts], [backpressure.ts], [connection-state.ts],
    [event-broadcaster.ts], [close-codes.ts], [auth-handler.ts] and
    [request-router.ts], with the resumption decision of
    [server.ts]'s [handleAuthFrame]. *)
From S2P Require Import Prelude JsDate Json Errors Ids Scopes Policy Reveal Seals Credentials CredentialService.
Open Scope nat_scope.

(** ** [CircularBuffer]: an array of [cap] slots, the next slot to write and
    the number of items *)
Section buffer.
Context {T : Type}.
Record CircularBuffer := mkBuffer {
  buffer : list (option T); head : nat; count : nat; cap : nat
}.
Definition newBuffer (cap : nat) : CircularBuffer := mkBuffer (replicate cap None) 0 0 cap.
Definition buf_push (b : CircularBuffer) (item : T) : CircularBuffer :=
  mkBuffer (<[head b := Some item]> (buffer b)) ((head b + 1) mod cap b)
    (if count b <? cap b then count b + 1 else count b) (cap b).
Definition buf_start (b : CircularBuffer) : nat := if count b <? cap b then 0 else head b.
(** [this.buffer[i]], [undefined] when out of range. *)
Definition slot (b : CircularBuffer) (i : nat) : option T := mjoin (buffer b !! i).
Definition oldest (b : CircularBuffer) : option T :=
  if count b =? 0 then None else slot b (buf_start b).
Definition itemsSince (p : T → bool) (b : CircularBuffer) : list T :=
  flat_map (λ i, match slot b ((buf_start b + i) mod cap b) with
                 | Some item => if p item then [item] else []
                 | None => []
                 end) (seq 0 (count b)).
Definition toArray (b : CircularBuffer) : list T :=
  flat_map (λ i, match slot b ((buf_start b + i) mod cap b) with
                 | Some item => [item]
                 | None => []
                 end) (seq 0 (count b)).
Definition buf_clear (b : CircularBuffer) : CircularBuffer :=
  mkBuffer (map (λ _, None) (buffer b)) 0 0 (cap b).

(** The buffer after the pushes of [h]. *)
Definition last_n (n : nat) (h : list T) : list T := drop (length h - n) h.
Record holds (b : CircularBuffer) (h : list T) : Prop := {
  h_len : length (buffer b) = cap b;
  h_head : head b = length h mod cap b;
  h_count : count b = min (length h) (cap b);
  h_slots : ∀ i, i < length h → length h <= i + cap b →
    buffer b !! (i mod cap b) = Some (h !! i)
}.
Lemma holds_new c : 0 < c → holds (newBuffer c) [].
Proof.
  intros Hc. split; cbn; [by rewrite length_replicate| | |lia].
  - symmetry. apply Nat.mod_0_l. lia.
  - done.
Qed.
Lemma mod_window i j c :
  0 < c → i mod c = j mod c → i <= j → j < i + c → i = j.
Proof.
  intros Hc Hm Hij Hji. pose proof (Nat.div_mod i c ltac:(lia)). pose proof (Nat.div_mod j c ltac:(lia)).
  assert (j / c = i / c) as Hd; [|nia].
  assert (i / c <= j / c) by (apply Nat.Div0.div_le_mono; lia).
  destruct (decide (j / c = i / c)); [done|]. assert (i / c + 1 <= j / c) by lia. nia.
Qed.
Lemma holds_push b h x : 0 < cap b → holds b h → holds (buf_push b x) (h ++ [x]).
Proof.
  intros Hc [Hl Hh Hn Hs]. split; cbn [buffer head count cap buf_push]; rewrite ?length_app; cbn [length].
  - by rewrite length_insert.
  - rewrite Hh. rewrite Nat.Div0.add_mod_idemp_l. done.
  - rewrite Hn. destruct (Nat.ltb_spec (min (length h) (cap b)) (cap b)); lia.
  - intros i Hi1 Hi2. destruct (decide (i = length h)) as [->|Hne].
    + rewrite Hh, list_lookup_insert_eq.
      2: { rewrite Hl. apply Nat.mod_upper_bound. lia. }
      by rewrite lookup_app_r, Nat.sub_diag by lia.
    + rewrite list_lookup_insert_ne.
      2: { rewrite Hh. intros He. apply Hne. symmetry in He.
           apply (mod_window i (length h) (cap b)) in He; lia. }
      rewrite lookup_app_l by lia. apply Hs; lia.
Qed.
Lemma holds_slot b h i :
  0 < cap b → holds b h → i < count b →
  slot b ((buf_start b + i) mod cap b) = h !! (length h - count b + i).
Proof.
  intros Hc [Hl Hh Hn Hs] Hi. unfold slot, buf_start.
  assert (((if count b <? cap b then 0 else head b) + i) mod cap b =
    (length h - count b + i) mod cap b) as ->.
  { destruct (Nat.ltb_spec (count b) (cap b)).
    - f_equal. lia.
    - rewrite Hh, Nat.Div0.add_mod_idemp_l. assert (count b = cap b) as -> by lia.
      replace (length h + i) with ((length h - cap b + i) + 1 * cap b) by lia.
      by rewrite Nat.Div0.mod_add. }
  rewrite Hs by lia. cbn. by destruct (h !! _).
Qed.
Lemma seq_lookup_drop {A} (h : list T) (f : T → list A) n :
  n <= length h →
  flat_map (λ i, match h !! (length h - n + i) with Some x => f x | None => [] end) (seq 0 n) =
  flat_map f (drop (length h - n) h).
Proof.
  intros Hn. remember (drop (length h - n) h) as d eqn:Hd.
  assert (length d = n) as Hld by (subst; rewrite length_drop; lia).
  assert (∀ i, h !! (length h - n + i) = d !! i) as Hlk by (intros; subst; by rewrite lookup_drop).
  clear Hd Hn. subst n.
  transitivity (flat_map (λ i, match d !! i with Some x => f x | None => [] end) (seq 0 (length d))).
  { apply flat_map_ext. intros i. cbv beta. by rewrite Hlk. }
  clear Hlk. induction d as [|x d IH]; [done|]. cbn [length seq flat_map].
  rewrite <-seq_shift, flat_map_concat_map, map_map, <-flat_map_concat_map.
  cbn [lookup list_lookup]. f_equal. exact IH.
Qed.
Lemma itemsSince_last b h p :
  0 < cap b → holds b h → itemsSince p b = List.filter p (last_n (cap b) h).
Proof.
  intros Hc Hh. unfold itemsSince.
  transitivity (flat_map (λ i, match h !! (length h - count b + i) with
    | Some x => if p x then [x] else [] | None => [] end) (seq 0 (count b))).
  { rewrite !flat_map_concat_map. f_equal. apply map_ext_in. intros i Hi%in_seq.
    rewrite (holds_slot b h) by (done || lia). done. }
  rewrite (seq_lookup_drop h (λ x, if p x then [x] else [])) by (rewrite (h_count _ _ Hh); lia).
  assert (length h - count b = length h - cap b) as -> by (rewrite (h_count _ _ Hh); lia).
  unfold last_n. induction (drop _ h) as [|x l IH]; [done|]. cbn. rewrite IH. by destruct (p x).
Qed.
Lemma toArray_last b h : 0 < cap b → holds b h → toArray b = last_n (cap b) h.
Proof.
  intros Hc Hh. transitivity (itemsSince (λ _, true) b); [done|].
  rewrite (itemsSince_last b h) by done. induction (last_n _ _) as [|x l IH]; [done|]. cbn. by rewrite IH.
Qed.
Lemma oldest_last b h : 0 < cap b → holds b h → oldest b = list.head (last_n (cap b) h).
Proof.
  intros Hc Hh. unfold oldest. pose proof (h_count _ _ Hh) as Hn.
  destruct (Nat.eqb_spec (count b) 0) as [H0|H0].
  { assert (h = []) as -> by (apply nil_length_inv; lia). by unfold last_n; rewrite drop_nil. }
  pose proof (holds_slot b h 0 Hc Hh ltac:(lia)) as Hs. rewrite Nat.add_0_r in Hs.
  assert (buf_start b mod cap b = buf_start b) as Hb.
  { apply Nat.mod_small. unfold buf_start. destruct (_ <? _); [lia|].
    rewrite (h_head _ _ Hh). apply Nat.mod_upper_bound. lia. }
  rewrite Hb in Hs. rewrite Hs. unfold last_n. rewrite Nat.add_0_r.
  replace (length h - cap b) with (length h - count b) by lia.
  destruct (drop (length h - count b) h) as [|x l] eqn:Hd.
  - apply (f_equal length) in Hd. rewrite length_drop in Hd. cbn in Hd. lia.
  - cbn. rewrite <-(Nat.add_0_r (length h - count b)), <-lookup_drop, Hd. done.
Qed.
End buffer.
Arguments CircularBuffer : clear implicits.

(** ** Sequencing and resumption *)
Section sequencing.
Context {E : Type}.
Record SequencedFrame := Frame { f_seq : nat; f_event : E }.
Record CredentialReplayState := mkReplay { r_buffer : CircularBuffer SequencedFrame; nextSeq : nat }.
Definition newReplayState (replayBufferSize : nat) : CredentialReplayState :=
  mkReplay (newBuffer replayBufferSize) 1.
Definition sequenceEvent (s : CredentialReplayState) (e : E) : CredentialReplayState * SequencedFrame :=
  let frame := Frame (nextSeq s) e in
  (mkReplay (buf_push (r_buffer s) frame) (nextSeq s + 1), frame).
(** The decision of [handleAuthFrame]: whether the client needs recovery,
    the frames to replay, and [resumedFromSeq]. *)
Definition resume (s : CredentialReplayState) (lastSeenSeq : option nat)
  : bool * list SequencedFrame * option nat :=
  match lastSeenSeq with
  | None => (false, [], None)
  | Some lastSeen =>
      let behind := match oldest (r_buffer s) with
                    | Some f => lastSeen + 1 <? f_seq f
                    | None => false
                    end in
      if behind then (true, [], None)
      else
        let frames := itemsSince (λ f, lastSeen <? f_seq f) (r_buffer s) in
        (false, frames, if 0 <? length frames then Some lastSeen else None)
  end.

(** Every frame of a credential, from its first event on. *)
Definition all_frames (h : list E) : list SequencedFrame :=
  zip_with Frame (seq 1 (length h)) h.
Definition sequenced (size : nat) (h : list E) : CredentialReplayState :=
  foldl (λ s e, (sequenceEvent s e).1) (newReplayState size) h.
Lemma all_frames_app h e : all_frames (h ++ [e]) = all_frames h ++ [Frame (length h + 1) e].
Proof.
  unfold all_frames. rewrite length_app, seq_app. cbn [length seq].
  rewrite zip_with_app by by rewrite length_seq. cbn. repeat f_equal. lia.
Qed.
Lemma length_all_frames h : length (all_frames h) = length h.
Proof. unfold all_frames. rewrite length_zip_with, length_seq. lia. Qed.
Lemma all_frames_lookup h i : all_frames h !! i = (λ e, Frame (i + 1) e) <$> h !! i.
Proof.
  unfold all_frames. destruct (h !! i) as [e|] eqn:He; cbn.
  - pose proof (lookup_lt_Some _ _ _ He). rewrite lookup_zip_with.
    rewrite lookup_seq_lt by done. cbn. rewrite He. cbn. f_equal. f_equal. lia.
  - apply lookup_ge_None in He. apply lookup_ge_None. fold (all_frames h).
    by rewrite length_all_frames.
Qed.
Lemma sequenced_cap size h : cap (r_buffer (sequenced size h)) = size.
Proof.
  unfold sequenced. induction h as [|e h IH] using rev_ind; [done|].
  rewrite foldl_app. cbn. exact IH.
Qed.
Lemma sequenced_holds size h :
  0 < size → holds (r_buffer (sequenced size h)) (all_frames h) ∧
  nextSeq (sequenced size h) = length h + 1.
Proof.
  intros Hs. induction h as [|e h [IH IHn]] using rev_ind.
  { split; [by apply holds_new|done]. }
  pose proof (sequenced_cap size h) as Hc.
  unfold sequenced in *. rewrite foldl_app. cbn [foldl].
  set (s := foldl _ _ h) in *. unfold sequenceEvent. cbn [fst r_buffer nextSeq].
  rewrite all_frames_app, length_app. cbn [length]. split; [|lia].
  rewrite IHn. apply holds_push; [|done]. by rewrite Hc.
Qed.
Lemma last_n_head n h :
  0 < n → list.head (last_n n (all_frames h)) =
    (λ e, Frame (length h - n + 1) e) <$> h !! (length h - n).
Proof.
  intros Hn. unfold last_n. rewrite length_all_frames, <-all_frames_lookup.
  rewrite <-(Nat.add_0_r (length h - n)) at 2. rewrite <-lookup_drop. by destruct (drop _ _).
Qed.
Lemma filter_all (p : SequencedFrame → bool) l :
  (∀ f, f ∈ l → p f = false) → List.filter p l = [].
Proof.
  induction l as [|x l IH]; intros Hp; [done|]. cbn. rewrite Hp by left.
  apply IH. intros. apply Hp. by right.
Qed.

Lemma itemsSince_unseen size h lastSeen :
  0 < size →
  itemsSince (λ f, lastSeen <? f_seq f) (r_buffer (sequenced size h)) =
  drop (max lastSeen (length h - size)) (all_frames h).
Proof.
  intros Hs. destruct (sequenced_holds size h Hs) as [Hh _]. pose proof (sequenced_cap size h) as Hc.
  rewrite (itemsSince_last _ _ _ ltac:(by rewrite Hc) Hh), Hc. unfold last_n. rewrite length_all_frames.
  generalize (length h - size) as n. intros n.
  assert (∀ m i f, drop m (all_frames h) !! i = Some f → f_seq f = m + i + 1) as Hseq.
  { intros m i f. rewrite lookup_drop, all_frames_lookup. destruct (h !! (m + i)); [|done]. by intros [= <-]. }
  destruct (decide (lastSeen <= n)) as [Hle|Hgt].
  - rewrite Nat.max_r by done. apply List.forallb_filter_id, forallb_forall.
    intros f Hf%list_elem_of_In. apply list_elem_of_lookup in Hf as [i Hi].
    rewrite (Hseq _ _ _ Hi). apply Nat.ltb_lt. lia.
  - rewrite Nat.max_l by lia.
    rewrite <-(take_drop (lastSeen - n) (drop n (all_frames h))), List.filter_app.
    rewrite drop_drop. replace (n + (lastSeen - n)) with lastSeen by lia.
    rewrite filter_all.
    + apply List.forallb_filter_id, forallb_forall.
      intros f Hf%list_elem_of_In. apply list_elem_of_lookup in Hf as [i Hi].
      rewrite (Hseq _ _ _ Hi). apply Nat.ltb_lt. lia.
    + intros f Hf. apply list_elem_of_lookup in Hf as [i Hi].
      pose proof (lookup_lt_Some _ _ _ Hi) as Hlt. rewrite length_take in Hlt.
      rewrite lookup_take_lt in Hi by lia. rewrite (Hseq _ _ _ Hi). apply Nat.ltb_ge. lia.
Qed.
Lemma resume_unseen size h lastSeen :
  0 < size →
  resume (sequenced size h) (Some lastSeen) =
  if lastSeen + size <? length h then (true, [], None)
  else (false, drop lastSeen (all_frames h),
        if 0 <? length (drop lastSeen (all_frames h)) then Some lastSeen else None).
Proof.
  intros Hs. unfold resume. rewrite itemsSince_unseen by done.
  destruct (sequenced_holds size h Hs) as [Hh _]. pose proof (sequenced_cap size h) as Hc.
  rewrite (oldest_last _ _ ltac:(by rewrite Hc) Hh), Hc, last_n_head by done.
  destruct (h !! (length h - size)) as [e|] eqn:He; cbn [fmap option_fmap option_map f_seq].
  - pose proof (lookup_lt_Some _ _ _ He).
    destruct (Nat.ltb_spec (lastSeen + 1) (length h - size + 1)), (Nat.ltb_spec (lastSeen + size) (length h));
      try lia; [done|]. by rewrite Nat.max_l by lia.
  - apply lookup_ge_None in He. assert (h = []) as -> by (apply nil_length_inv; lia).
    cbn. by rewrite !drop_nil.
Qed.

(** C9: resumption is exact: events of a credential get consecutive
    sequence numbers from 1, and for a client that has seen everything up
    to [lastSeen] the server demands recovery exactly when an event the
    client has not seen has left the replay buffer; otherwise it replays
    precisely the unseen events, once each and in order.  The buffer never
    holds more than its capacity. *)
Theorem resume_exact size h lastSeen :
  0 < size →
  let s := sequenced size h in
  let '(needsRecovery, frames, resumedFrom) := resume s (Some lastSeen) in
  (∀ i e, h !! i = Some e ↔ all_frames h !! i = Some (Frame (i + 1) e)) ∧
  nextSeq s = length h + 1 ∧
  toArray (r_buffer s) = drop (length h - size) (all_frames h) ∧
  length (toArray (r_buffer s)) <= size ∧
  (needsRecovery = true ↔ lastSeen + size < length h) ∧
  (needsRecovery = false → frames = drop lastSeen (all_frames h)) ∧
  (resumedFrom = Some lastSeen ↔ needsRecovery = false ∧ frames ≠ []).
Proof.
  intros Hs s. destruct (sequenced_holds size h Hs) as [Hh Hn].
  pose proof (sequenced_cap size h) as Hc. fold s in Hh, Hn, Hc.
  unfold s at 1. rewrite resume_unseen by done. fold s.
  rewrite (toArray_last _ _ ltac:(by rewrite Hc) Hh), Hc. unfold last_n. rewrite length_all_frames.
  assert (∀ i e, h !! i = Some e ↔ all_frames h !! i = Some (Frame (i + 1) e)) as Hl.
  { intros i e. rewrite all_frames_lookup. destruct (h !! i); cbn; naive_solver. }
  assert (length (drop (length h - size) (all_frames h)) <= size) as Hlen.
  { rewrite length_drop, length_all_frames. lia. }
  destruct (Nat.ltb_spec (lastSeen + size) (length h)).
  - split_and!; try done. split; [done|by intros [? _]].
  - split_and!; try done; [split; [done|lia]|].
    destruct (drop lastSeen _); cbn; [split; [done|by intros [_ ?]]|by split].
Qed.
End sequencing.
Arguments SequencedFrame : clear implicits.
Arguments CredentialReplayState : clear implicits.

(** ** [BackpressureTracker] *)
Inductive BackpressureState := bp_ok | bp_warning | bp_exceeded.
Record BackpressureTracker := mkBp { depth : nat; notified : bool; softLimit : nat; hardLimit : nat }.
Definition bp_state (b : BackpressureTracker) : BackpressureState :=
  if hardLimit b <=? depth b then bp_exceeded
  else if softLimit b <=? depth b then bp_warning else bp_ok.
Definition bp_increment (b : BackpressureTracker) : BackpressureTracker :=
  mkBp (depth b + 1) (notified b) (softLimit b) (hardLimit b).
Definition bp_decrement (b : BackpressureTracker) : BackpressureTracker :=
  if 0 <? depth b then mkBp (depth b - 1) (notified b) (softLimit b) (hardLimit b) else b.
Definition bp_markNotified (b : BackpressureTracker) : BackpressureTracker :=
  mkBp (depth b) true (softLimit b) (hardLimit b).
Definition bp_clearNotified (b : BackpressureTracker) : BackpressureTracker :=
  mkBp (depth b) false (softLimit b) (hardLimit b).
Definition bp_reset (b : BackpressureTracker) : BackpressureTracker :=
  mkBp 0 false (softLimit b) (hardLimit b).

(** ** Connection phases *)
Inductive ConnectionPhase := ph_authenticating | ph_active | ph_draining | ph_closed.
#[export] Instance ConnectionPhase_eq_dec : EqDecision ConnectionPhase.
Proof. solve_decision. Defined.
Definition VALID_TRANSITIONS (p : ConnectionPhase) : list ConnectionPhase :=
  match p with
  | ph_authenticating => [ph_active; ph_closed]
  | ph_active => [ph_draining; ph_closed]
  | ph_draining => [ph_closed]
  | ph_closed => []
  end.
Definition canTransition (from to : ConnectionPhase) : bool :=
  bool_decide (to ∈ VALID_TRANSITIONS from).

(** ** Close codes *)
Inductive WsCloseCode :=
  | NORMAL | GOING_AWAY | AUTH_FAILED | AUTH_TIMEOUT | CREDENTIAL_EXPIRED | CREDENTIAL_REVOKED
  | POLICY_CHANGE | BACKPRESSURE | DEAD_CONNECTION | RATE_LIMITED | PROTOCOL_ERROR.
#[export] Instance WsCloseCode_eq_dec : EqDecision WsCloseCode.
Proof. solve_decision. Defined.
Definition WS_CLOSE_CODES (c : WsCloseCode) : Z :=
  match c with
  | NORMAL => 1000 | GOING_AWAY => 1001 | AUTH_FAILED => 4001 | AUTH_TIMEOUT => 4002
  | CREDENTIAL_EXPIRED => 4003 | CREDENTIAL_REVOKED => 4004 | POLICY_CHANGE => 4005
  | BACKPRESSURE => 4008 | DEAD_CONNECTION => 4010 | RATE_LIMITED => 1008 | PROTOCOL_ERROR => 4009
  end%Z.
(** The code a connection is closed with when its credential is not active. *)
Definition inactive_close_code (s : CredentialStatus) : WsCloseCode :=
  match s with
  | st_revoked => CREDENTIAL_REVOKED
  | st_expired => CREDENTIAL_EXPIRED
  | _ => POLICY_CHANGE
  end.

(** ** [handleAuth] and [routeRequest] *)
Definition handleAuth (lookup : result SignetError CredentialRecord)
  : result SignetError CredentialRecord :=
  match lookup with
  | Err e => Err e
  | Ok credential =>
      if negb (bool_decide (sc_status (cr_base credential) = st_active)) then
        Err (AuthError_create ("Credential " +:+ cr_credentialId credential +:+ " is not active")
          (Some [("credentialId", JStr (cr_credentialId credential));
                 ("status", JStr (status_name (sc_status (cr_base credential))))]))
      else Ok credential
  end.
Inductive RequestResponse (A : Type) :=
  | RrOk (requestId : string) (data : A)
  | RrError (requestId : string) (rr_code : Z) (rr_category : ErrorCategory) (rr_message : string)
            (rr_context : option context).
Definition routeRequest {A} (requestId : string) (r : result SignetError A) : RequestResponse A :=
  match r with
  | Ok data => RrOk _ requestId data
  | Err e => RrError _ requestId (code e) (category e) (message e) (err_context e)
  end.

Lemma resume_exact_witness :
  resume (sequenced 2 ["a"; "b"; "c"]) (Some 1) = (false, [Frame 2 "b"; Frame 3 "c"], Some 1) ∧
  (resume (sequenced 2 ["a"; "b"; "c"]) (Some 0)).1.1 = true.
Proof.
  split; [vm_compute; reflexivity|].
  destruct (resume_exact 2 ["a"; "b"; "c"] 0 ltac:(lia)) as (_ & _ & _ & _ & Hn & _).
  exact (proj2 Hn ltac:(cbn; lia)).
Defined.
