(* ===== verification/WsServer.v ===== *)
(** * The WebSocket server

    [ws/src/server.ts] and [connection-registry.ts]: authentication,
    resumption, broadcast, credential invalidation, heartbeats, rate limiting
    and shutdown, as transitions of one server state.  A handler with awaits
    is split at them ([_begin], [_end], ...); what was awaited is an argument
    of the later part.  Frames sent and sockets closed are appended to a log;
    [sv_sends] holds the answers of [ws.send] ([true]: -1, the socket is
    backpressured). *)
From S2P Require Import Prelude JsDate Json Errors Ids Scopes Policy Reveal Seals Credentials CredentialService Ws.
Open Scope Z_scope.

Record WsServerConfig := {
  port : Z; host : string; heartbeatIntervalMs : Z; missedHeartbeatsBeforeDead : Z;
  authTimeoutMs : Z; requestTimeoutMs : Z; replayBufferSize : nat; sendBufferSoftLimit : nat;
  sendBufferHardLimit : nat; drainTimeoutMs : Z; maxFrameSizeBytes : Z; rateLimitWindowMs : Z;
  rateLimitMaxMessages : option Z
}.
Definition default_ws_config : WsServerConfig :=
  {| port := 8393; host := "127.0.0.1"; heartbeatIntervalMs := 30000;
     missedHeartbeatsBeforeDead := 3; authTimeoutMs := 5000; requestTimeoutMs := 30000;
     replayBufferSize := 1000; sendBufferSoftLimit := 64; sendBufferHardLimit := 256;
     drainTimeoutMs := 5000; maxFrameSizeBytes := 1048576; rateLimitWindowMs := 1000;
     rateLimitMaxMessages := None |}.
(** The schema's checks on a parsed configuration. *)
Definition WsServerConfigSchema (c : WsServerConfig) : bool :=
  (0 <=? port c) && (0 <? heartbeatIntervalMs c) && (0 <? missedHeartbeatsBeforeDead c) &&
  (0 <? authTimeoutMs c) && (0 <? requestTimeoutMs c) && (0 <? replayBufferSize c)%nat &&
  (0 <? sendBufferSoftLimit c)%nat && (0 <? sendBufferHardLimit c)%nat && (0 <? drainTimeoutMs c) &&
  (0 <? maxFrameSizeBytes c) && (0 <? rateLimitWindowMs c) &&
  match rateLimitMaxMessages c with Some n => 0 <? n | None => true end &&
  (sendBufferSoftLimit c <? sendBufferHardLimit c)%nat.

(** ** State *)
Inductive WsServerState := ws_idle | ws_listening | ws_draining | ws_stopped.
Record ConnectionData := mkConn {
  phase : ConnectionPhase; credentialRecord : option CredentialRecord;
  c_credentialId : option string; c_operatorId : option string;
  (** the key of the shared replay state attached to the connection *)
  credentialReplayState : option string;
  backpressure : BackpressureTracker; authTimer : bool; heartbeatTimer : bool;
  inFlightRequests : list string; lastClientActivity : Z; messageCount : Z; messageWindowStart : Z
}.
Inductive Outbound :=
  | OAuthError (o_code : WsCloseCode) (o_message : string)
  | OAuthenticated (connectionId credentialId : string) (effective : ScopeSetType)
                   (resumedFromSeq : option nat)
  | OSequenced (frame : SequencedFrame SignetEvent)
  | OBackpressure (buffered limit : nat)
  | OResponse (r : RequestResponse json).
Inductive Output :=
  | Sent (conn : string) (frame : Outbound)
  | CloseRequested (conn : string) (o_code : WsCloseCode).
Record PendingInvalidation := { refcount : nat; generation : nat; pi_events : list SignetEvent }.
Record Server := mkServer {
  sv_state : WsServerState;
  sv_conns : omap string ConnectionData;      (** every socket *)
  sv_registry : list string;                  (** [ConnectionRegistry], by connection id *)
  sv_replay : omap string (CredentialReplayState SignetEvent);
  sv_pending : omap string PendingInvalidation;
  sv_gen : nat;
  sv_out : list Output;
  sv_sends : list bool
}.
Definition set_state (s : Server) (x : WsServerState) : Server :=
  mkServer x (sv_conns s) (sv_registry s) (sv_replay s) (sv_pending s) (sv_gen s) (sv_out s) (sv_sends s).
Definition set_registry (s : Server) (r : list string) : Server :=
  mkServer (sv_state s) (sv_conns s) r (sv_replay s) (sv_pending s) (sv_gen s) (sv_out s) (sv_sends s).
Definition set_replay (s : Server) (r : omap string (CredentialReplayState SignetEvent)) : Server :=
  mkServer (sv_state s) (sv_conns s) (sv_registry s) r (sv_pending s) (sv_gen s) (sv_out s) (sv_sends s).
Definition set_pendings (s : Server) (p : omap string PendingInvalidation) : Server :=
  mkServer (sv_state s) (sv_conns s) (sv_registry s) (sv_replay s) p (sv_gen s) (sv_out s) (sv_sends s).
Definition emit (s : Server) (o : Output) : Server :=
  mkServer (sv_state s) (sv_conns s) (sv_registry s) (sv_replay s) (sv_pending s) (sv_gen s)
    (sv_out s ++ [o]) (sv_sends s).
Definition set_conn (s : Server) (id : string) (f : ConnectionData → ConnectionData) : Server :=
  match om_get id (sv_conns s) with
  | Some c => mkServer (sv_state s) (om_set id (f c) (sv_conns s)) (sv_registry s) (sv_replay s)
                (sv_pending s) (sv_gen s) (sv_out s) (sv_sends s)
  | None => s
  end.
Definition with_phase (p : ConnectionPhase) (c : ConnectionData) : ConnectionData :=
  mkConn p (credentialRecord c) (c_credentialId c) (c_operatorId c) (credentialReplayState c)
    (backpressure c) (authTimer c) (heartbeatTimer c) (inFlightRequests c) (lastClientActivity c)
    (messageCount c) (messageWindowStart c).
Definition with_record (r : CredentialRecord) (c : ConnectionData) : ConnectionData :=
  mkConn (phase c) (Some r) (c_credentialId c) (c_operatorId c) (credentialReplayState c)
    (backpressure c) (authTimer c) (heartbeatTimer c) (inFlightRequests c) (lastClientActivity c)
    (messageCount c) (messageWindowStart c).
Definition with_bp (f : BackpressureTracker → BackpressureTracker) (c : ConnectionData) : ConnectionData :=
  mkConn (phase c) (credentialRecord c) (c_credentialId c) (c_operatorId c) (credentialReplayState c)
    (f (backpressure c)) (authTimer c) (heartbeatTimer c) (inFlightRequests c) (lastClientActivity c)
    (messageCount c) (messageWindowStart c).
Definition with_timers (auth heartbeat : bool) (c : ConnectionData) : ConnectionData :=
  mkConn (phase c) (credentialRecord c) (c_credentialId c) (c_operatorId c) (credentialReplayState c)
    (backpressure c) auth heartbeat (inFlightRequests c) (lastClientActivity c)
    (messageCount c) (messageWindowStart c).
Definition with_inflight (l : list string) (c : ConnectionData) : ConnectionData :=
  mkConn (phase c) (credentialRecord c) (c_credentialId c) (c_operatorId c) (credentialReplayState c)
    (backpressure c) (authTimer c) (heartbeatTimer c) l (lastClientActivity c)
    (messageCount c) (messageWindowStart c).
Definition with_rate (now count start : Z) (c : ConnectionData) : ConnectionData :=
  mkConn (phase c) (credentialRecord c) (c_credentialId c) (c_operatorId c) (credentialReplayState c)
    (backpressure c) (authTimer c) (heartbeatTimer c) (inFlightRequests c) now count start.
(** [createConnectionState]. *)
Definition createConnectionState (config : WsServerConfig) (now : Z) : ConnectionData :=
  mkConn ph_authenticating None None None None
    (mkBp 0 false (sendBufferSoftLimit config) (sendBufferHardLimit config)) false false [] now 0 now.
(** [transition], which refuses an invalid move. *)
Definition transition (to : ConnectionPhase) (c : ConnectionData) : ConnectionData :=
  if canTransition (phase c) to then with_phase to c else c.

(** ** [ConnectionRegistry] *)
Definition registered (s : Server) : list (string * ConnectionData) :=
  flat_map (λ id, match om_get id (sv_conns s) with Some c => [(id, c)] | None => [] end) (sv_registry s).
Definition getByCredentialId (s : Server) (cid : string) : list string :=
  map fst (filter (λ ic, c_credentialId ic.2 = Some cid) (registered s)).
Definition getByOperatorId (s : Server) (op : string) : list string :=
  map fst (filter (λ ic, c_operatorId ic.2 = Some op) (registered s)).
Definition registry_remove (s : Server) (id : string) : Server :=
  set_registry s (filter (λ x, x ≠ id) (sv_registry s)).

Section server.
Context (config : WsServerConfig)
        (projectEvent : option (SignetEvent → CredentialRecord → option SignetEvent)).

Definition sendJson (s : Server) (id : string) (frame : Outbound) : Server :=
  let blocked := default false (list.head (sv_sends s)) in
  let s := mkServer (sv_state s) (sv_conns s) (sv_registry s) (sv_replay s) (sv_pending s) (sv_gen s)
             (sv_out s ++ [Sent id frame]) (tail (sv_sends s)) in
  if blocked then set_conn s id (with_bp bp_increment) else s.
Definition close (s : Server) (id : string) (c : WsCloseCode) : Server := emit s (CloseRequested id c).
Definition getOrCreateCredentialState (s : Server) (cid : string) : Server :=
  match om_get cid (sv_replay s) with
  | Some _ => s
  | None => set_replay s (om_set cid (newReplayState (replayBufferSize config)) (sv_replay s))
  end.
Definition bp_of (s : Server) (id : string) : BackpressureState :=
  match om_get id (sv_conns s) with Some c => bp_state (backpressure c) | None => bp_ok end.

Definition sendSequenced (s : Server) (id : string) (event : SignetEvent) : Server :=
  match om_get id (sv_conns s) ≫= credentialReplayState with
  | None => s
  | Some key =>
      match om_get key (sv_replay s) with
      | None => s
      | Some rs =>
          let '(rs, frame) := sequenceEvent rs event in
          let s := sendJson (set_replay s (om_set key rs (sv_replay s))) id (OSequenced frame) in
          match bp_of s id with
          | bp_exceeded => close s id BACKPRESSURE
          | bp_warning =>
              match om_get id (sv_conns s) with
              | Some c =>
                  if notified (backpressure c) then s
                  else
                    let s := set_conn s id (with_bp bp_markNotified) in
                    let s := sendJson s id (OBackpressure (depth (backpressure c))
                                              (sendBufferHardLimit config)) in
                    match bp_of s id with bp_exceeded => close s id BACKPRESSURE | _ => s end
              | None => s
              end
          | bp_ok => s
          end
      end
  end.

(** [broadcastToCredential] *)
Definition deliver (event : SignetEvent) (s : Server) (id : string) : Server :=
  match om_get id (sv_conns s) with
  | None => s
  | Some c =>
      if negb (bool_decide (phase c = ph_active)) then s
      else
        match credentialRecord c with
        | None => s
        | Some credential =>
            if negb (bool_decide (sc_status (cr_base credential) = st_active)) then s
            else
              match projectEvent with
              | Some project =>
                  match project event credential with
                  | None => s
                  | Some projected => sendSequenced s id projected
                  end
              | None => sendSequenced s id event
              end
        end
  end.
Definition broadcast (cid : string) (s : Server) (event : SignetEvent) : Server :=
  match om_get cid (sv_pending s) with
  | Some p =>
      set_pendings s (om_set cid {| refcount := refcount p; generation := generation p;
                                    pi_events := pi_events p ++ [event] |} (sv_pending s))
  | None => foldl (deliver event) s (getByCredentialId s cid)
  end.

(** [invalidateCredential], before and after its lookup. *)
Definition invalidate_begin (s : Server) (cid : string) : Server * nat :=
  let myGen := (sv_gen s + 1)%nat in
  let entry := match om_get cid (sv_pending s) with
               | Some p => {| refcount := (refcount p + 1)%nat; generation := myGen; pi_events := pi_events p |}
               | None => {| refcount := 1; generation := myGen; pi_events := [] |}
               end in
  (mkServer (sv_state s) (sv_conns s) (sv_registry s) (sv_replay s)
     (om_set cid entry (sv_pending s)) myGen (sv_out s) (sv_sends s), myGen).
Definition stopHeartbeat (s : Server) (id : string) : Server :=
  set_conn s id (λ c, with_timers (authTimer c) false c).
(** Give one connection the looked-up record, or close it. *)
Definition refresh_conn (lookup : result SignetError CredentialRecord) (s : Server) (id : string)
  : Server :=
  match om_get id (sv_conns s) with
  | None => s
  | Some c =>
      if negb (bool_decide (phase c = ph_active)) then s
      else
        match lookup with
        | Err _ => stopHeartbeat (close s id CREDENTIAL_REVOKED) id
        | Ok fresh =>
            let s := set_conn s id (with_record fresh) in
            if negb (bool_decide (sc_status (cr_base fresh) = st_active)) then
              stopHeartbeat (close s id (inactive_close_code (sc_status (cr_base fresh)))) id
            else s
        end
  end.
Definition invalidate_apply (s : Server) (cid : string) (myGen : nat)
  (lookup : result SignetError CredentialRecord) : Server :=
  match om_get cid (sv_pending s) with
  | Some p =>
      if bool_decide (generation p = myGen)
      then foldl (refresh_conn lookup) s (getByCredentialId s cid)
      else s
  | None => s
  end.
Definition invalidate_finally (s : Server) (cid : string) : Server :=
  match om_get cid (sv_pending s) with
  | Some p =>
      if (refcount p <=? 1)%nat then
        foldl (broadcast cid) (set_pendings s (om_delete cid (sv_pending s))) (pi_events p)
      else set_pendings s (om_set cid {| refcount := (refcount p - 1)%nat; generation := generation p;
                                         pi_events := pi_events p |} (sv_pending s))
  | None => s
  end.
Definition invalidate_end (s : Server) (cid : string) (myGen : nat)
  (lookup : result SignetError CredentialRecord) : Server :=
  invalidate_finally (invalidate_apply s cid myGen lookup) cid.

(** [handleAuthFrame], split at its two awaits.  [parsed] is the auth frame,
    if it is well-formed: the token and [lastSeenSeq]. *)
Definition auth_begin (s : Server) (id : string) (parsed : option (string * option nat))
  : Server * option (string * option nat) :=
  match om_get id (sv_conns s) with
  | None => (s, None)
  | Some c =>
      if negb (bool_decide (phase c = ph_authenticating)) then (s, None)
      else
        let s := set_conn s id (λ c, with_timers false (heartbeatTimer c) c) in
        match parsed with
        | None =>
            (close (sendJson s id (OAuthError PROTOCOL_ERROR "Invalid auth frame")) id PROTOCOL_ERROR,
             None)
        | Some frame => (s, Some frame)
        end
  end.
Definition attach (credential : CredentialRecord) (c : ConnectionData) : ConnectionData :=
  mkConn (phase c) (Some credential) (Some (cr_credentialId credential))
    (Some (cr_operatorId credential)) (credentialReplayState c) (backpressure c) (authTimer c)
    (heartbeatTimer c) (inFlightRequests c) (lastClientActivity c) (messageCount c)
    (messageWindowStart c).
Definition with_replay (key : string) (c : ConnectionData) : ConnectionData :=
  mkConn (phase c) (credentialRecord c) (c_credentialId c) (c_operatorId c) (Some key)
    (backpressure c) (authTimer c) (heartbeatTimer c) (inFlightRequests c) (lastClientActivity c)
    (messageCount c) (messageWindowStart c).
Definition auth_accept (s : Server) (id : string) (lastSeenSeq : option nat)
  (auth : result SignetError CredentialRecord)
  : Server * option (CredentialRecord * (bool * list (SequencedFrame SignetEvent) * option nat)) :=
  match auth with
  | Err e =>
      (close (sendJson s id (OAuthError AUTH_FAILED (message e))) id AUTH_FAILED, None)
  | Ok credential =>
      let s := set_conn s id (λ c, transition ph_active (attach credential c)) in
      let cid := cr_credentialId credential in
      let s := getOrCreateCredentialState s cid in
      let s := set_conn s id (with_replay cid) in
      let s := set_registry s (set_add (sv_registry s) id) in
      match om_get cid (sv_replay s) with
      | Some rs => (s, Some (credential, resume rs lastSeenSeq))
      | None => (s, None)
      end
  end.
Definition recovery_event (nowISO : string) : SignetEvent :=
  EvOther "signet.recovery.complete" (JObj [("caughtUpThrough", JStr nowISO)]).
Definition auth_finish (s : Server) (id : string) (nowISO : string) (credential : CredentialRecord)
  (r : bool * list (SequencedFrame SignetEvent) * option nat) : Server :=
  let '(needsRecovery, replayFrames, resumedFromSeq) := r in
  let s := sendJson s id (OAuthenticated id (cr_credentialId credential)
                            (cr_effectiveScopes credential) resumedFromSeq) in
  let s := if needsRecovery then sendSequenced s id (recovery_event nowISO)
           else foldl (λ s f, sendJson s id (OSequenced f)) s replayFrames in
  set_conn s id (λ c, match credentialRecord c with
                      | Some _ => with_timers (authTimer c) true c
                      | None => c
                      end).

(** The heartbeat interval, before and after its lookup. *)
Definition heartbeat_begin (now : Z) (s : Server) (id : string) : Server * option string :=
  match om_get id (sv_conns s) with
  | None => (s, None)
  | Some c =>
      if negb (bool_decide (phase c = ph_active)) then (s, None)
      else if missedHeartbeatsBeforeDead config * heartbeatIntervalMs config
                <? now - lastClientActivity c then (close s id DEAD_CONNECTION, None)
      else (s, cr_credentialId <$> credentialRecord c)
  end.
Definition heartbeat_event (cid nowISO : string) : SignetEvent :=
  EvOther "heartbeat" (JObj [("credentialId", JStr cid); ("timestamp", JStr nowISO)]).
Definition heartbeat_end (nowISO : string) (s : Server) (id cid : string)
  (lookup : result SignetError CredentialRecord) : Server :=
  match lookup with
  | Err _ => stopHeartbeat (close s id CREDENTIAL_REVOKED) id
  | Ok fresh =>
      let s := set_conn s id (with_record fresh) in
      if negb (bool_decide (sc_status (cr_base fresh) = st_active)) then
        stopHeartbeat (close s id (inactive_close_code (sc_status (cr_base fresh)))) id
      else sendSequenced s id (heartbeat_event cid nowISO)
  end.

(** [handleRequestFrame]: the fresh lookup, the parsing, the response. *)
Definition request_begin (s : Server) (id : string) : Server * option string :=
  match om_get id (sv_conns s) ≫= credentialRecord with
  | None => (close s id PROTOCOL_ERROR, None)
  | Some cached => (s, Some (cr_credentialId cached))
  end.
Inductive ParsedFrame :=
  | PfRequest (requestId : string)
  | PfInvalid (requestId : string)
  | PfMalformed.
Definition request_checked (s : Server) (id : string) (parsed : ParsedFrame)
  (lookup : result SignetError CredentialRecord) : Server * option (string * CredentialRecord) :=
  match lookup with
  | Err _ => (stopHeartbeat (close s id CREDENTIAL_REVOKED) id, None)
  | Ok credential =>
      let s := set_conn s id (with_record credential) in
      if negb (bool_decide (sc_status (cr_base credential) = st_active)) then
        (stopHeartbeat (close s id (inactive_close_code (sc_status (cr_base credential)))) id, None)
      else
        match parsed with
        | PfInvalid requestId =>
            (sendJson s id (OResponse (RrError _ requestId 1000 validation "Invalid request frame" None)),
             None)
        | PfMalformed => (close s id PROTOCOL_ERROR, None)
        | PfRequest requestId =>
            (set_conn s id (λ c, with_inflight (set_add (inFlightRequests c) requestId) c),
             Some (requestId, credential))
        end
  end.
Definition remove_inflight (requestId : string) (c : ConnectionData) : ConnectionData :=
  with_inflight (filter (λ x, x ≠ requestId) (inFlightRequests c)) c.
Definition request_timeout (s : Server) (id requestId type : string) : Server :=
  sendJson (set_conn s id (remove_inflight requestId)) id
    (OResponse (RrError _ requestId 1500 timeout "Request timed out"
       (Some [("operation", JStr type); ("timeoutMs", JNum (requestTimeoutMs config))]))).
(** [refresh] is the lookup made after a mutating request. *)
Definition request_end (s : Server) (id requestId : string)
  (refresh : option (result SignetError CredentialRecord)) (response : RequestResponse json) : Server :=
  let s := match refresh with
           | Some (Ok c) => set_conn s id (with_record c)
           | _ => s
           end in
  match om_get id (sv_conns s) with
  | None => s
  | Some c =>
      if bool_decide (requestId ∈ inFlightRequests c)
      then sendJson (set_conn s id (remove_inflight requestId)) id (OResponse response)
      else s
  end.

(** [message]: activity, rate limit, and which handler the frame goes to. *)
Definition message_in (now : Z) (s : Server) (id : string) : Server * option ConnectionPhase :=
  match om_get id (sv_conns s) with
  | None => (s, None)
  | Some c =>
      if bool_decide (phase c = ph_closed) then (s, None)
      else
        match rateLimitMaxMessages config with
        | None => (set_conn s id (with_rate now (messageCount c) (messageWindowStart c)), Some (phase c))
        | Some limit =>
            if rateLimitWindowMs config <=? now - messageWindowStart c
            then (set_conn s id (with_rate now 1 now), Some (phase c))
            else
              let s := set_conn s id (with_rate now (messageCount c + 1) (messageWindowStart c)) in
              if limit <? messageCount c + 1 then (close s id RATE_LIMITED, None)
              else (s, Some (phase c))
        end
  end.

(** Socket lifecycle. *)
Definition on_upgrade (now : Z) (s : Server) (id : string) : Server :=
  mkServer (sv_state s) (om_set id (createConnectionState config now) (sv_conns s)) (sv_registry s)
    (sv_replay s) (sv_pending s) (sv_gen s) (sv_out s) (sv_sends s).
Definition on_open (s : Server) (id : string) : Server :=
  match sv_state s with
  | ws_draining | ws_stopped => close s id GOING_AWAY
  | _ => set_conn s id (λ c, with_timers true (heartbeatTimer c) c)
  end.
Definition on_auth_timeout (s : Server) (id : string) : Server :=
  match om_get id (sv_conns s) with
  | Some c =>
      if bool_decide (phase c = ph_authenticating)
      then close (sendJson s id (OAuthError AUTH_TIMEOUT "Auth timeout")) id AUTH_TIMEOUT
      else s
  | None => s
  end.
Definition cleanupConnection (s : Server) (id : string) : Server :=
  let s := set_conn s id (λ c, with_inflight [] (with_timers false false c)) in
  set_conn (registry_remove s id) id (transition ph_closed).
Definition on_drain (s : Server) (id : string) : Server := set_conn s id (with_bp bp_reset).

Definition start (s : Server) : Server * result SignetError unit :=
  match sv_state s with
  | ws_idle => (set_state s ws_listening, Ok tt)
  | _ => (s, Err (InternalError_create "Server is not in idle state" None))
  end.
Definition shutdown_event (cid : string) : SignetEvent :=
  EvOther "credential.expired" (JObj [("credentialId", JStr cid); ("reason", JStr "signet_shutdown")]).
(** [stop], before and after the wait for in-flight requests. *)
Definition stop_begin (s : Server) : Server * result SignetError unit :=
  match sv_state s with
  | ws_listening =>
      (foldl (λ s id,
         match om_get id (sv_conns s) with
         | Some c =>
             match credentialRecord c with
             | Some r =>
                 if bool_decide (phase c = ph_active)
                 then set_conn (sendSequenced s id (shutdown_event (cr_credentialId r))) id
                        (transition ph_draining)
                 else s
             | None => s
             end
         | None => s
         end) (set_state s ws_draining) (sv_registry s), Ok tt)
  | _ => (s, Err (InternalError_create "Server is not listening" None))
  end.
Definition stop_end (s : Server) : Server :=
  let remaining := sv_registry s in
  let s := foldl (λ s id, close s id GOING_AWAY) s remaining in
  let s := foldl cleanupConnection s remaining in
  set_state (set_replay s []) ws_stopped.
End server.

(** ** What sending does not change *)
Definition core (c : ConnectionData) :=
  (phase c, credentialRecord c, c_credentialId c, c_operatorId c, credentialReplayState c).
Record same_core (s s' : Server) : Prop := {
  sc_state : sv_state s' = sv_state s;
  sc_registry : sv_registry s' = sv_registry s;
  sc_pending : sv_pending s' = sv_pending s;
  sc_gen : sv_gen s' = sv_gen s;
  sc_out : sv_out s `prefix_of` sv_out s';
  sc_conns : ∀ id, core <$> om_get id (sv_conns s') = core <$> om_get id (sv_conns s)
}.
#[export] Instance same_core_preorder : PreOrder same_core.
Proof.
  split; [by intros s; split|]. intros s1 s2 s3 [] []. split; first [congruence|by etrans].
Qed.
(** The sequenced frames of the log. *)
Definition seq_sent (o : Output) : option (string * SequencedFrame SignetEvent) :=
  match o with Sent id (OSequenced f) => Some (id, f) | _ => None end.
Definition seq_log (s : Server) : list (string * SequencedFrame SignetEvent) :=
  base.omap seq_sent (sv_out s).
Lemma omap_app' {A B} (f : A → option B) l k : base.omap f (l ++ k) = base.omap f l ++ base.omap f k.
Proof. induction l as [|x l IH]; [done|]. cbn. rewrite IH. by destruct (f x). Qed.

Lemma set_conn_core s id f :
  (∀ c, core (f c) = core c) → same_core s (set_conn s id f).
Proof.
  intros Hf. unfold set_conn. destruct (om_get id (sv_conns s)) as [c|] eqn:Hc; [|done].
  split; [done..|]. intros id'. cbn [sv_conns]. rewrite om_get_set. case_decide; [|done].
  subst. rewrite Hc. cbn. by rewrite Hf.
Qed.
Lemma set_conn_rest s id f :
  sv_out (set_conn s id f) = sv_out s ∧ sv_replay (set_conn s id f) = sv_replay s.
Proof. unfold set_conn. by destruct (om_get id (sv_conns s)). Qed.
Lemma emit_core s o : same_core s (emit s o).
Proof. split; try done. by apply prefix_app_r. Qed.
Lemma sendJson_spec s id frame :
  same_core s (sendJson s id frame) ∧ sv_replay (sendJson s id frame) = sv_replay s ∧
  sv_out (sendJson s id frame) = sv_out s ++ [Sent id frame].
Proof.
  unfold sendJson. set (s1 := mkServer _ _ _ _ _ _ _ _).
  assert (same_core s s1) as H1 by (split; try done; by apply prefix_app_r).
  destruct (default _ _); [|by split_and!].
  destruct (set_conn_rest s1 id (with_bp bp_increment)) as [-> ->]. split_and!; [|done..].
  etrans; [exact H1|]. by apply set_conn_core.
Qed.

Section sending.
Context (config : WsServerConfig).
Abbreviation sendSequenced := (sendSequenced config).
(** The replay state a connection is attached to. *)
Definition attached (s : Server) (id : string) : option (string * CredentialReplayState SignetEvent) :=
  match om_get id (sv_conns s) ≫= credentialReplayState with
  | None => None
  | Some key => pair key <$> om_get key (sv_replay s)
  end.
Lemma sendSequenced_spec s id ev :
  match attached s id with
  | None => sendSequenced s id ev = s
  | Some (key, rs) =>
      same_core s (sendSequenced s id ev) ∧
      sv_replay (sendSequenced s id ev) = om_set key (sequenceEvent rs ev).1 (sv_replay s) ∧
      seq_log (sendSequenced s id ev) = seq_log s ++ [(id, (sequenceEvent rs ev).2)]
  end.
Proof.
  unfold attached, WsServer.sendSequenced.
  destruct (om_get id (sv_conns s) ≫= credentialReplayState) as [key|]; [|done].
  destruct (om_get key (sv_replay s)) as [rs|]; cbn [fmap option_fmap option_map]; [|done].
  destruct (sequenceEvent rs ev) as [rs' frame] eqn:Hseq. cbn [fst snd].
  set (s0 := set_replay s (om_set key rs' (sv_replay s))).
  destruct (sendJson_spec s0 id (OSequenced frame)) as (Hc & Hr & Ho).
  set (s1 := sendJson s0 id (OSequenced frame)) in *.
  assert (same_core s s1) as Hc1 by (etrans; [|exact Hc]; by split).
  assert (seq_log s1 = seq_log s ++ [(id, frame)]) as Hl1.
  { unfold seq_log. rewrite Ho, omap_app'. done. }
  assert (∀ s2, same_core s1 s2 → sv_replay s2 = sv_replay s1 → seq_log s2 = seq_log s1 →
    same_core s s2 ∧ sv_replay s2 = om_set key rs' (sv_replay s) ∧
    seq_log s2 = seq_log s ++ [(id, frame)]) as Hdone.
  { intros s2 H1 H2 H3. split_and!; [by etrans|by rewrite H2, Hr|by rewrite H3]. }
  assert (∀ s2, seq_log (close s2 id BACKPRESSURE) = seq_log s2) as Hcl.
  { intros s2. unfold seq_log, close, emit. cbn [sv_out]. by rewrite omap_app', app_nil_r. }
  destruct (bp_of s1 id).
  - by apply Hdone.
  - destruct (om_get id (sv_conns s1)) as [c|]; [|by apply Hdone].
    destruct (notified (backpressure c)); [by apply Hdone|].
    set (s2 := set_conn s1 id (with_bp bp_markNotified)).
    assert (same_core s1 s2) as Hc2 by (by apply set_conn_core).
    destruct (set_conn_rest s1 id (with_bp bp_markNotified)) as [Ho2 Hr2]. fold s2 in Ho2, Hr2.
    destruct (sendJson_spec s2 id (OBackpressure (depth (backpressure c))
      (sendBufferHardLimit config))) as (Hc3 & Hr3 & Ho3).
    set (s3 := sendJson s2 id _) in *.
    assert (seq_log s3 = seq_log s1) as Hl3.
    { unfold seq_log. rewrite Ho3, Ho2, omap_app', app_nil_r. done. }
    assert (same_core s1 s3) as Hc13 by (by etrans).
    destruct (bp_of s3 id); [by apply Hdone; [|congruence|]..|].
    apply Hdone; [|cbn; congruence|by rewrite Hcl].
    etrans; [exact Hc13|apply emit_core].
  - apply Hdone; [apply emit_core|done|apply Hcl].
Qed.
End sending.

(** ** How handlers move the replay states *)
Definition after (rs : CredentialReplayState SignetEvent) (es : list SignetEvent) :=
  foldl (λ s e, (sequenceEvent s e).1) rs es.
Definition keys_of (c : ConnectionData) := (c_credentialId c, credentialReplayState c).
(** Attachments are kept, and replay states only grow by sequenced events. *)
Record grows (s s' : Server) : Prop := {
  gr_conns : ∀ id, keys_of <$> om_get id (sv_conns s') = keys_of <$> om_get id (sv_conns s);
  gr_replay : ∀ k, match om_get k (sv_replay s) with
    | Some rs => ∃ es, om_get k (sv_replay s') = Some (after rs es)
    | None => om_get k (sv_replay s') = None
    end;
  gr_registry : NoDup (sv_registry s) → NoDup (sv_registry s')
}.
#[export] Instance grows_preorder : PreOrder grows.
Proof.
  split.
  - intros s. split; [done| |done]. intros k. destruct (om_get k (sv_replay s)); [|done]. by exists [].
  - intros s1 s2 s3 [H1 H2 H5] [H3 H4 H6]. split; [congruence| |tauto]. intros k. specialize (H2 k). specialize (H4 k).
    destruct (om_get k (sv_replay s1)) as [rs|].
    + destruct H2 as [es He]. rewrite He in H4. destruct H4 as [es' ->]. exists (es ++ es').
      unfold after. by rewrite foldl_app.
    + by rewrite H2 in H4.
Qed.
Lemma grows_same s s' :
  (∀ id, keys_of <$> om_get id (sv_conns s') = keys_of <$> om_get id (sv_conns s)) →
  sv_replay s' = sv_replay s → (NoDup (sv_registry s) → NoDup (sv_registry s')) → grows s s'.
Proof.
  intros Hk Hr Hn. split; [done| |done]. intros k. rewrite Hr.
  destruct (om_get k (sv_replay s)); [by exists []|done].
Qed.
Lemma core_keys s s' :
  same_core s s' → ∀ id, keys_of <$> om_get id (sv_conns s') = keys_of <$> om_get id (sv_conns s).
Proof.
  intros Hc id. pose proof (sc_conns _ _ Hc id) as H. revert H. unfold core, keys_of.
  destruct (om_get id (sv_conns s')), (om_get id (sv_conns s)); cbn; congruence.
Qed.
Lemma grows_set_conn s id f : (∀ c, keys_of (f c) = keys_of c) → grows s (set_conn s id f).
Proof.
  intros Hf. unfold set_conn. destruct (om_get id (sv_conns s)) as [c|] eqn:Hc; [|done].
  apply grows_same; [|done|done]. intros id'. cbn [sv_conns]. rewrite om_get_set. case_decide; [|done].
  subst. rewrite Hc. cbn. by rewrite Hf.
Qed.
Lemma grows_foldl {A} (f : Server → A → Server) l s :
  (∀ s x, grows s (f s x)) → grows s (foldl f s l).
Proof.
  intros Hf. revert s. induction l as [|x l IH]; intros s; [done|]. cbn.
  etrans; [apply Hf|apply IH].
Qed.
Lemma grows_sendJson s id f : grows s (sendJson s id f).
Proof. destruct (sendJson_spec s id f) as (Hc & Hr & _). apply grows_same; [by apply core_keys|done|].
  by rewrite (sc_registry _ _ Hc). Qed.
Lemma grows_emit s o : grows s (emit s o).
Proof. by apply grows_same. Qed.
Lemma grows_sendSequenced config s id ev : grows s (sendSequenced config s id ev).
Proof.
  pose proof (sendSequenced_spec config s id ev) as Hs.
  destruct (attached s id) as [[key rs]|] eqn:Ha; [|by rewrite Hs].
  destruct Hs as (Hc & Hr & _). split; [by apply core_keys| |by rewrite (sc_registry _ _ Hc)]. intros k. rewrite Hr, om_get_set.
  unfold attached in Ha. destruct (om_get id (sv_conns s) ≫= credentialReplayState) as [key'|]; [|done].
  destruct (om_get key' (sv_replay s)) as [rs'|] eqn:Hk; [|done]. injection Ha as -> ->.
  case_decide as Hd.
  - subst. rewrite Hk. by exists [ev].
  - destruct (om_get k (sv_replay s)); [by exists []|done].
Qed.
(** Chains of primitive operations, and case splits between them. *)
Ltac grows_step :=
  match goal with
  | |- grows ?s ?s => reflexivity
  | |- grows ?s (emit ?s1 _) => etrans; [|apply grows_emit]
  | |- grows ?s (close ?s1 _ _) => etrans; [|apply grows_emit]
  | |- grows ?s (sendJson ?s1 _ _) => etrans; [|apply grows_sendJson]
  | |- grows ?s (sendSequenced _ ?s1 _ _) => etrans; [|apply grows_sendSequenced]
  | |- grows ?s (set_conn ?s1 _ _) => etrans; [|apply grows_set_conn; intros; solve [reflexivity |
      by case_match | unfold transition; by case_match]]
  | |- grows ?s (stopHeartbeat ?s1 _) => etrans; [|apply grows_set_conn; intros; reflexivity]
  | |- grows ?s (set_pendings ?s1 _) => transitivity s1; [|by apply grows_same]
  | |- grows ?s (set_registry ?s1 _) =>
      transitivity s1; [|apply grows_same; [done|done|apply NoDup_filter]]
  | |- grows ?s (set_state ?s1 _) => transitivity s1; [|by apply grows_same]
  | |- grows _ (match ?x with _ => _ end) => destruct x
  | |- grows _ (fst (match ?x with _ => _ end)) => destruct x
  | |- grows _ (fst (_, _)) => cbn [fst]
  end.
Ltac solve_grows := cbv zeta; repeat grows_step.

Section handlers.
Context (config : WsServerConfig)
        (projectEvent : option (SignetEvent → CredentialRecord → option SignetEvent)).
Lemma grows_deliver ev s id : grows s (deliver config projectEvent ev s id).
Proof. unfold deliver. solve_grows. Qed.
Lemma grows_broadcast cid s ev : grows s (broadcast config projectEvent cid s ev).
Proof. unfold broadcast. solve_grows. apply grows_foldl. intros. apply grows_deliver. Qed.
Lemma grows_refresh lk s id : grows s (refresh_conn lk s id).
Proof. unfold refresh_conn. solve_grows. Qed.
Lemma grows_invalidate_begin s cid : grows s (invalidate_begin s cid).1.
Proof. by apply grows_same. Qed.
Lemma grows_apply s cid g lk : grows s (invalidate_apply s cid g lk).
Proof. unfold invalidate_apply. solve_grows. apply grows_foldl. intros. apply grows_refresh. Qed.
Lemma grows_finally s cid : grows s (invalidate_finally config projectEvent s cid).
Proof.
  unfold invalidate_finally. solve_grows.
  etrans; [|apply grows_foldl; intros; apply grows_broadcast]. solve_grows.
Qed.
Lemma grows_auth_begin s id p : grows s (auth_begin s id p).1.
Proof. unfold auth_begin. solve_grows. Qed.
Lemma grows_auth_finish s id iso c r : grows s (auth_finish config s id iso c r).
Proof.
  unfold auth_finish. destruct r as [[n fr] o]. cbv zeta. grows_step. destruct n; solve_grows.
  etrans; [|apply grows_foldl; intros; apply grows_sendJson]. solve_grows.
Qed.
Lemma grows_heartbeat_begin now s id : grows s (heartbeat_begin config now s id).1.
Proof. unfold heartbeat_begin. solve_grows. Qed.
Lemma grows_heartbeat_end iso s id cid lk : grows s (heartbeat_end config iso s id cid lk).
Proof. unfold heartbeat_end. solve_grows. Qed.
Lemma grows_request_begin s id : grows s (request_begin s id).1.
Proof. unfold request_begin. solve_grows. Qed.
Lemma grows_request_checked s id p lk : grows s (request_checked s id p lk).1.
Proof. unfold request_checked. solve_grows. Qed.
Lemma grows_request_timeout s id rid ty : grows s (request_timeout config s id rid ty).
Proof. unfold request_timeout. solve_grows. Qed.
Lemma grows_request_end s id rid rf rp : grows s (request_end s id rid rf rp).
Proof. unfold request_end. destruct rf as [[c|e]|]; cbv zeta;
  destruct (om_get id _); [case_bool_decide| |case_bool_decide| |case_bool_decide|]; solve_grows. Qed.
Lemma grows_message_in now s id : grows s (message_in config now s id).1.
Proof. unfold message_in. solve_grows. Qed.
Lemma grows_on_open s id : grows s (on_open s id).
Proof. unfold on_open. solve_grows. Qed.
Lemma grows_auth_timeout s id : grows s (on_auth_timeout s id).
Proof. unfold on_auth_timeout. solve_grows. Qed.
Lemma grows_cleanup s id : grows s (cleanupConnection s id).
Proof. unfold cleanupConnection, registry_remove. solve_grows. Qed.
Lemma grows_stop_begin s : grows s (stop_begin config s).1.
Proof.
  unfold stop_begin. solve_grows. etrans; [|apply grows_foldl; intros; solve_grows]. solve_grows.
Qed.
End handlers.

(** ** Reachable servers *)
Section reachable.
Context (config : WsServerConfig)
        (projectEvent : option (SignetEvent → CredentialRecord → option SignetEvent)).
(** Every segment of every handler, with any input and any answer to what it
    awaited, until the server has stopped. *)
Inductive server_step (s : Server) : Server → Prop :=
  | ss_upgrade now id : om_get id (sv_conns s) = None → server_step s (on_upgrade config now s id)
  | ss_open id : server_step s (on_open s id)
  | ss_auth_timeout id : server_step s (on_auth_timeout s id)
  | ss_message now id : server_step s (message_in config now s id).1
  | ss_auth_begin id p : server_step s (auth_begin s id p).1
  | ss_auth_accept id seen auth :
      is_Some (om_get id (sv_conns s)) → server_step s (auth_accept config s id seen auth).1
  | ss_auth_finish id iso c r : server_step s (auth_finish config s id iso c r)
  | ss_heartbeat_begin now id : server_step s (heartbeat_begin config now s id).1
  | ss_heartbeat_end iso id cid lk : server_step s (heartbeat_end config iso s id cid lk)
  | ss_request_begin id : server_step s (request_begin s id).1
  | ss_request_checked id p lk : server_step s (request_checked s id p lk).1
  | ss_request_timeout id rid ty : server_step s (request_timeout config s id rid ty)
  | ss_request_end id rid rf rp : server_step s (request_end s id rid rf rp)
  | ss_broadcast cid ev : server_step s (broadcast config projectEvent cid s ev)
  | ss_invalidate_begin cid : server_step s (invalidate_begin s cid).1
  | ss_invalidate_end cid g lk : server_step s (invalidate_end config projectEvent s cid g lk)
  | ss_close id : server_step s (cleanupConnection s id)
  | ss_drain id : server_step s (on_drain s id)
  | ss_start : server_step s (start s).1
  | ss_stop : server_step s (stop_begin config s).1.
Definition server_init (sends : list bool) : Server := mkServer ws_idle [] [] [] [] 0 [] sends.
Definition server_reachable (s : Server) : Prop := ∃ sends, rtc server_step (server_init sends) s.

Record ws_inv (s : Server) : Prop := {
  wi_keys : ∀ id c, om_get id (sv_conns s) = Some c → c_credentialId c = credentialReplayState c;
  wi_state : ∀ id c k, om_get id (sv_conns s) = Some c → credentialReplayState c = Some k →
    is_Some (om_get k (sv_replay s));
  wi_replay : ∀ k rs, om_get k (sv_replay s) = Some rs →
    ∃ h, rs = sequenced (replayBufferSize config) h;
  wi_registry : NoDup (sv_registry s)
}.
Lemma grows_inv s s' : grows s s' → ws_inv s → ws_inv s'.
Proof.
  intros [Hk Hr Hn] [H1 H2 H3 H4]. split; [| | |by apply Hn].
  - intros id c' Hc'. specialize (Hk id). rewrite Hc' in Hk.
    destruct (om_get id (sv_conns s)) as [c|] eqn:Hc; [|done]. injection Hk as -> ->. eauto.
  - intros id c' k Hc' Hck. specialize (Hk id). rewrite Hc' in Hk.
    destruct (om_get id (sv_conns s)) as [c|] eqn:Hc; [|done]. injection Hk as _ Hrep.
    rewrite Hrep in Hck. destruct (H2 _ _ _ Hc Hck) as [rs Hrs]. specialize (Hr k).
    rewrite Hrs in Hr. destruct Hr as [es ->]. eauto.
  - intros k rs' Hrs'. specialize (Hr k). destruct (om_get k (sv_replay s)) as [rs|] eqn:Hrs.
    + destruct Hr as [es He]. destruct (H3 _ _ Hrs) as [h ->]. exists (h ++ es).
      unfold sequenced, after in *. rewrite foldl_app. congruence.
    + congruence.
Qed.
Lemma upgrade_inv now s id :
  om_get id (sv_conns s) = None → ws_inv s → ws_inv (on_upgrade config now s id).
Proof.
  intros Hf [H1 H2 H3 H4]. split; unfold on_upgrade; cbn [sv_conns sv_replay sv_registry].
  - intros id' c. rewrite om_get_set. case_decide; [|apply H1]. by intros [= <-].
  - intros id' c k. rewrite om_get_set. case_decide; [|apply H2]. by intros [= <-].
  - done.
  - done.
Qed.
Lemma auth_accept_inv s id seen auth :
  is_Some (om_get id (sv_conns s)) → ws_inv s → ws_inv (auth_accept config s id seen auth).1.
Proof.
  intros [c0 Hc0] Hinv. unfold auth_accept. destruct auth as [cred|e].
  2: { eapply grows_inv; [|done]. cbn [fst]. solve_grows. }
  cbv zeta. set (cid := cr_credentialId cred).
  set (s1 := set_conn s id _). set (s2 := getOrCreateCredentialState config s1 cid).
  set (s3 := set_conn s2 id (with_replay cid)).
  assert (ws_inv (set_registry s3 (set_add (sv_registry s3) id))) as Hfin.
  2: { by destruct (om_get cid _). }
  assert (sv_registry s3 = sv_registry s) as Hreg.
  { unfold s3, s2, s1, set_conn, getOrCreateCredentialState. rewrite Hc0. cbn [sv_replay sv_conns].
    destruct (om_get cid (sv_replay s)); cbn [sv_conns set_replay]; by rewrite om_get_set_eq. }
  assert (sv_conns s3 = om_set id (with_replay cid (transition ph_active (attach cred c0))) (sv_conns s) ∧
    sv_replay s3 = match om_get cid (sv_replay s) with
      | Some _ => sv_replay s
      | None => om_set cid (newReplayState (replayBufferSize config)) (sv_replay s)
      end) as [Hconns Hrep].
  { unfold s3, s2, s1, set_conn, getOrCreateCredentialState. rewrite Hc0. cbn [sv_replay sv_conns].
    destruct (om_get cid (sv_replay s)); cbn [sv_conns set_replay sv_replay];
      rewrite om_get_set_eq; cbn [sv_conns sv_replay]; (split; [|done]); by rewrite om_set_set. }
  destruct Hinv as [H1 H2 H3 H4].
  split; cbn [sv_conns sv_replay sv_registry set_registry]; rewrite ?Hconns, ?Hrep, ?Hreg.
  - intros id' c. rewrite om_get_set. case_decide; [|apply H1]. intros [= <-].
    unfold transition. by destruct (canTransition _ _).
  - intros id' c k. rewrite om_get_set. case_decide as Hd.
    + intros [= <-]. cbn [credentialReplayState with_replay]. intros [= <-].
      destruct (om_get cid (sv_replay s)) eqn:Hg; [by rewrite Hg|]. by rewrite om_get_set_eq.
    + intros Hc Hk. destruct (H2 _ _ _ Hc Hk) as [rs Hrs].
      destruct (om_get cid (sv_replay s)) eqn:Hg; [eauto|].
      rewrite om_get_set. case_decide; eauto.
  - intros k rs. destruct (om_get cid (sv_replay s)); [apply H3|].
    rewrite om_get_set. case_decide; [|apply H3]. intros [= <-]. by exists [].
  - by apply NoDup_set_add.
Qed.
Lemma step_ws_inv s s' : server_step s s' → ws_inv s → ws_inv s'.
Proof.
  intros [now id Hf|id|id|now id|id p|id seen auth Hid|id iso c r|now id|iso id cid lk|id|id p lk|
    id rid ty|id rid rf rp|cid ev|cid|cid g lk|id|id| |] Hinv;
    try (by apply upgrade_inv); try (by apply auth_accept_inv);
    (eapply grows_inv; [|exact Hinv]);
    first [apply grows_on_open|apply grows_auth_timeout|apply grows_message_in|apply grows_auth_begin
      |apply grows_auth_finish|apply grows_heartbeat_begin|apply grows_heartbeat_end
      |apply grows_request_begin|apply grows_request_checked|apply grows_request_timeout
      |apply grows_request_end|apply grows_broadcast|apply grows_invalidate_begin
      |apply grows_cleanup|apply grows_stop_begin|idtac].
  - unfold invalidate_end. etrans; [apply grows_apply|apply grows_finally].
  - unfold on_drain. solve_grows.
  - unfold start. destruct (sv_state s); [by apply grows_same|done..].
Qed.
Lemma reachable_ws_inv s : server_reachable s → ws_inv s.
Proof.
  intros [sends Hr]. assert (ws_inv (server_init sends)) as H0 by (split; try done; apply NoDup_nil_2).
  revert H0. induction Hr as [|a b ? Hs _ IH]; [done|]. intros. apply IH. by eapply step_ws_inv.
Qed.
End reachable.

(** ** Broadcast *)
Section broadcasting.
Context (config : WsServerConfig)
        (projectEvent : option (SignetEvent → CredentialRecord → option SignetEvent)).
(** What one connection is to be sent, if anything. *)
Definition eligible (s : Server) (ev : SignetEvent) (id : string) : option SignetEvent :=
  c ← om_get id (sv_conns s);
  cred ← credentialRecord c;
  if decide (phase c = ph_active ∧ sc_status (cr_base cred) = st_active)
  then match projectEvent with Some project => project ev cred | None => Some ev end
  else None.
Definition deliveries (s : Server) (ev : SignetEvent) (ids : list string)
  : list (string * SignetEvent) := base.omap (λ id, pair id <$> eligible s ev id) ids.
(** Consecutive frames from [n] on. *)
Fixpoint number (n : nat) (l : list (string * SignetEvent)) : list (string * SequencedFrame SignetEvent) :=
  match l with
  | [] => []
  | (id, e) :: l => (id, Frame n e) :: number (n + 1) l
  end.

Lemma eligible_core s s' ev id : same_core s s' → eligible s' ev id = eligible s ev id.
Proof.
  intros Hc. pose proof (sc_conns _ _ Hc id) as H. revert H. unfold eligible, core.
  destruct (om_get id (sv_conns s')) as [c'|], (om_get id (sv_conns s)) as [c|]; cbn; try done.
  intros [= -> -> _ _ _]. done.
Qed.
Lemma deliver_spec s ev id :
  match eligible s ev id with
  | None => deliver config projectEvent ev s id = s
  | Some e => deliver config projectEvent ev s id = sendSequenced config s id e
  end.
Proof.
  unfold eligible, deliver. destruct (om_get id (sv_conns s)) as [c|]; cbn [mbind option_bind]; [|done].
  destruct (credentialRecord c) as [cred|]; cbn [mbind option_bind].
  2: { by destruct (negb _). }
  case_bool_decide as Hp; cbn [negb]; [|by rewrite decide_False by tauto].
  case_bool_decide as Ha; cbn [negb]; [|by rewrite decide_False by tauto].
  rewrite decide_True by done. destruct projectEvent as [p|]; [|done]. by destruct (p ev cred).
Qed.
Lemma deliver_fold ev cid rs ids s :
  om_get cid (sv_replay s) = Some rs →
  (∀ id c, id ∈ ids → om_get id (sv_conns s) = Some c → credentialReplayState c = Some cid) →
  let s' := foldl (deliver config projectEvent ev) s ids in
  same_core s s' ∧
  seq_log s' = seq_log s ++ number (nextSeq rs) (deliveries s ev ids) ∧
  om_get cid (sv_replay s') = Some (after rs (map snd (deliveries s ev ids))) ∧
  (∀ k, k ≠ cid → om_get k (sv_replay s') = om_get k (sv_replay s)).
Proof.
  revert s rs. induction ids as [|id ids IH]; intros s rs Hrs Hatt; cbn [foldl].
  { cbn. by rewrite app_nil_r. }
  pose proof (deliver_spec s ev id) as Hd. cbn [deliveries base.omap list_omap].
  fold (deliveries s ev ids). destruct (eligible s ev id) as [e|] eqn:He; cbn [fmap option_fmap option_map].
  2: { rewrite Hd. apply IH; [done|]. intros. eapply Hatt; [by right|done]. }
  rewrite Hd. pose proof (sendSequenced_spec config s id e) as Hsend.
  assert (attached s id = Some (cid, rs)) as Ha.
  { unfold attached. unfold eligible in He. destruct (om_get id (sv_conns s)) as [c|] eqn:Hc; [|done].
    cbn [mbind option_bind]. rewrite (Hatt id c); [|left|done]. by rewrite Hrs. }
  rewrite Ha in Hsend. destruct Hsend as (Hcore & Hr & Hl).
  set (s1 := sendSequenced config s id e) in *.
  destruct (IH s1 (sequenceEvent rs e).1) as (I1 & I2 & I3 & I4).
  { by rewrite Hr, om_get_set_eq. }
  { intros id' c' Hin Hc'. pose proof (sc_conns _ _ Hcore id') as Hk. rewrite Hc' in Hk.
    destruct (om_get id' (sv_conns s)) as [c|] eqn:Hc; [|done]. injection Hk as _ _ _ _ ->.
    eapply Hatt; [by right|done]. }
  assert (deliveries s1 ev ids = deliveries s ev ids) as Hdel.
  { unfold deliveries. apply list_omap_ext, Forall_Forall2_diag, Forall_forall. intros x _.
    by rewrite (eligible_core s s1). }
  rewrite Hdel in I2, I3. split_and!.
  - by etrans.
  - rewrite I2, Hl, <-app_assoc. cbn [number map snd app]. done.
  - rewrite I3. done.
  - intros k Hk. rewrite I4 by done. rewrite Hr. by rewrite om_get_set_ne by congruence.
Qed.
Lemma getByCredentialId_elem s cid id :
  id ∈ getByCredentialId s cid ↔
  id ∈ sv_registry s ∧ ∃ c, om_get id (sv_conns s) = Some c ∧ c_credentialId c = Some cid.
Proof.
  unfold getByCredentialId, registered. rewrite list_elem_of_fmap. setoid_rewrite list_elem_of_filter.
  split.
  - intros ([id' c] & -> & Hc & Hin). apply list_elem_of_In, in_flat_map in Hin as (x & Hx & Hin).
    apply list_elem_of_In in Hx. cbn in *. destruct (om_get x (sv_conns s)) as [c'|] eqn:Hg; [|done].
    destruct Hin as [[= -> ->]|[]]. eauto.
  - intros [Hr (c & Hc & Hk)]. exists (id, c). split_and!; [done|done|].
    apply list_elem_of_In, in_flat_map. exists id. split; [by apply list_elem_of_In|].
    rewrite Hc. by left.
Qed.
Lemma deliveries_NoDup s ev cid :
  NoDup (sv_registry s) → NoDup (map fst (deliveries s ev (getByCredentialId s cid))).
Proof.
  intros Hn. apply (sublist_NoDup _ (getByCredentialId s cid)).
  2: { unfold deliveries. induction (getByCredentialId s cid) as [|id l IH]; [done|]. cbn.
    destruct (eligible s ev id); cbn; [by apply sublist_skip|by apply sublist_cons]. }
  apply (sublist_NoDup _ (sv_registry s)); [done|]. unfold getByCredentialId, registered.
  clear Hn. induction (sv_registry s) as [|id l IH]; [done|]. cbn [flat_map].
  destruct (om_get id (sv_conns s)) as [c|]; cbn [app]; [|by apply sublist_cons].
  rewrite filter_cons. case_decide; cbn [map fst]; [by apply sublist_skip|by apply sublist_cons].
Qed.
Lemma no_replay_no_connections s cid :
  ws_inv config s → om_get cid (sv_replay s) = None → getByCredentialId s cid = [].
Proof.
  intros Hinv Hrs. destruct (getByCredentialId s cid) as [|id l] eqn:Hg; [done|].
  assert (id ∈ getByCredentialId s cid) as Hin by (rewrite Hg; left).
  apply getByCredentialId_elem in Hin as (_ & c & Hc & Hk).
  rewrite (wi_keys _ _ Hinv _ _ Hc) in Hk. destruct (wi_state _ _ Hinv _ _ _ Hc Hk) as [? Hs].
  congruence.
Qed.
Lemma broadcast_sends cid s ev rs :
  ws_inv config s → om_get cid (sv_pending s) = None → om_get cid (sv_replay s) = Some rs →
  let s' := broadcast config projectEvent cid s ev in
  let ds := deliveries s ev (getByCredentialId s cid) in
  same_core s s' ∧ seq_log s' = seq_log s ++ number (nextSeq rs) ds ∧
  om_get cid (sv_replay s') = Some (after rs (map snd ds)) ∧
  (∀ k, k ≠ cid → om_get k (sv_replay s') = om_get k (sv_replay s)).
Proof.
  intros Hinv Hp Hrs. unfold broadcast. rewrite Hp. apply deliver_fold; [done|].
  intros id c (_ & c' & Hc' & Hk)%getByCredentialId_elem Hc.
  rewrite Hc' in Hc. injection Hc as <-. by rewrite <-(wi_keys _ _ Hinv _ _ Hc').
Qed.

(** C7: a broadcast reaches exactly the connections entitled to it: while
    an invalidation of the credential is in flight it sends nothing and
    queues the event; otherwise, in registry order, every registered
    connection of the credential that is active, with a cached credential
    that is active and for which the projector passes the event, gets
    exactly one sequenced frame carrying its own projection, with the next
    sequence numbers of the credential, which are also what its replay
    buffer records; no other connection gets a sequenced frame, no other
    credential's replay state changes. *)
Theorem broadcast_exact s cid ev :
  server_reachable config projectEvent s →
  let s' := broadcast config projectEvent cid s ev in
  let ds := deliveries s ev (getByCredentialId s cid) in
  (∀ p, om_get cid (sv_pending s) = Some p →
    sv_out s' = sv_out s ∧ sv_replay s' = sv_replay s ∧ sv_conns s' = sv_conns s ∧
    ∃ p', om_get cid (sv_pending s') = Some p' ∧ pi_events p' = pi_events p ++ [ev]) ∧
  (om_get cid (sv_pending s) = None →
    (∀ id e, (id, e) ∈ ds ↔ id ∈ sv_registry s ∧ ∃ c cred,
      om_get id (sv_conns s) = Some c ∧ c_credentialId c = Some cid ∧ phase c = ph_active ∧
      credentialRecord c = Some cred ∧ sc_status (cr_base cred) = st_active ∧
      match projectEvent with Some project => project ev cred = Some e | None => e = ev end) ∧
    NoDup (map fst ds) ∧
    (∃ h, match om_get cid (sv_replay s) with
      | Some rs => rs = sequenced (replayBufferSize config) h ∧
          seq_log s' = seq_log s ++ number (nextSeq rs) ds ∧
          om_get cid (sv_replay s') = Some (sequenced (replayBufferSize config) (h ++ map snd ds))
      | None => seq_log s' = seq_log s ∧ ds = []
      end) ∧
    (∀ k, k ≠ cid → om_get k (sv_replay s') = om_get k (sv_replay s))).
Proof.
  intros Hinv%reachable_ws_inv s' ds. split.
  - intros p Hp. unfold s', broadcast. rewrite Hp. split_and!; [done..|].
    eexists. cbn [sv_pending set_pendings]. rewrite om_get_set_eq. done.
  - intros Hp. split_and!.
    + intros id e. unfold ds, deliveries. rewrite list_elem_of_omap. split.
      * intros (id' & Hin & Hel). apply getByCredentialId_elem in Hin as (Hr & c & Hc & Hk).
        unfold eligible in Hel. rewrite Hc in Hel. cbn [mbind option_bind] in Hel.
        destruct (credentialRecord c) as [cred|] eqn:Hcr; cbn [mbind option_bind] in Hel; [|done].
        destruct (decide _) as [[Hph Hst]|]; [|done].
        destruct projectEvent as [pr|]; [destruct (pr ev cred) eqn:Hpe|]; cbn in Hel; simplify_eq;
          (split; [done|]); exists c, cred; done.
      * intros (Hr & c & cred & Hc & Hk & Hph & Hcr & Hst & Hpe). exists id. split.
        { apply getByCredentialId_elem. eauto. }
        unfold eligible. rewrite Hc. cbn [mbind option_bind]. rewrite Hcr. cbn [mbind option_bind].
        rewrite decide_True by done. destruct projectEvent as [pr|]; [by rewrite Hpe|by subst].
    + apply deliveries_NoDup, (wi_registry _ _ Hinv).
    + destruct (om_get cid (sv_replay s)) as [rs|] eqn:Hrs.
      * destruct (wi_replay _ _ Hinv _ _ Hrs) as [h ->]. exists h. split; [done|].
        destruct (broadcast_sends cid s ev _ Hinv Hp Hrs) as (_ & Hl & Hr & _). split; [exact Hl|].
        unfold s', ds. rewrite Hr. unfold after, sequenced. by rewrite foldl_app.
      * exists []. pose proof (no_replay_no_connections _ _ Hinv Hrs) as Hnil.
        unfold s', ds, broadcast. rewrite Hp, Hnil. done.
    + intros k Hk. destruct (om_get cid (sv_replay s)) as [rs|] eqn:Hrs.
      * by destruct (broadcast_sends cid s ev rs Hinv Hp Hrs) as (_ & _ & _ & Ho); apply Ho.
      * unfold s', broadcast. rewrite Hp.
        by rewrite (no_replay_no_connections _ _ Hinv Hrs).
Qed.
End broadcasting.

(** ** A server with one authenticated connection *)
Definition demo_record (id op : string) (st : CredentialStatus) (al : list PermissionScope)
  : CredentialRecord :=
  {| cr_base := {| sc_id := id; sc_operatorId := op; sc_chatIds := ["conv_1"]; sc_allow := al;
                   sc_deny := []; sc_inboxIds := []; sc_status := st; sc_issuedAt := "t0";
                   sc_expiresAt := "t9"; sc_issuedBy := op |};
     cr_credentialId := id; cr_operatorId := op;
     cr_effectiveScopes := {| allow := al; deny := [] |}; cr_isExpired := false;
     cr_lastHeartbeat := "t0" |}.
Definition demo_live : CredentialRecord := demo_record "cred_1" "op_a" st_active [read_messages].
Definition demo_event : SignetEvent := EvOther "message.visible" JNull.
Definition demo_server : Server :=
  (auth_accept default_ws_config
     (on_upgrade default_ws_config 0 (server_init []) "conn_1") "conn_1" None (Ok demo_live)).1.
Lemma demo_server_reachable : server_reachable default_ws_config None demo_server.
Proof.
  exists []. eapply rtc_l; [by apply (ss_upgrade _ _ _ 0 "conn_1")|].
  eapply rtc_l; [|apply rtc_refl]. apply ss_auth_accept. vm_compute. by eexists.
Qed.
Lemma broadcast_exact_witness :
  seq_log (broadcast default_ws_config None "cred_1" demo_server demo_event) =
    [("conn_1", Frame 1 demo_event)].
Proof.
  destruct (broadcast_exact default_ws_config None demo_server "cred_1" demo_event
    demo_server_reachable) as [_ H].
  destruct (H ltac:(reflexivity)) as (_ & _ & (h & Hh) & _). clear H.
  vm_compute in Hh. destruct Hh as (_ & Hl & _). exact Hl.
Defined.
