(* ===== verification/WsInvalidation.v ===== *)
(** * Credential invalidation on the WebSocket server

    [invalidateCredential] of [ws/src/server.ts] looks a credential up and
    refreshes, or closes, the connections that cache it.  Several
    invalidations of one credential can be in flight and their lookups can
    answer in any order.  This file follows one burst of them, from the first
    call to the last answer, interleaved with broadcasts and with the same
    operations on other credentials, and proves that the latest call's answer
    wins.  It also proves what other awaits of the server leave open. *)
From S2P Require Import Prelude JsDate Json Errors Ids Scopes Policy Reveal Seals Credentials CredentialService Ws WsServer.
Open Scope nat_scope.

Abbreviation lookup_result := (result SignetError CredentialRecord).

(** ** Refreshing the connections of a credential *)
(** A connection that has taken a lookup's answer, given what has been output. *)
Definition settled_conn (lk : lookup_result) (out : list Output) (id : string) (c : ConnectionData) : Prop :=
  match lk with
  | Ok fresh =>
      credentialRecord c = Some fresh ∧
      (sc_status (cr_base fresh) ≠ st_active →
       CloseRequested id (inactive_close_code (sc_status (cr_base fresh))) ∈ out)
  | Err _ => CloseRequested id CREDENTIAL_REVOKED ∈ out
  end.
Definition settled (lk : lookup_result) (cid : string) (s : Server) : Prop :=
  ∀ id c, id ∈ getByCredentialId s cid → om_get id (sv_conns s) = Some c → phase c = ph_active →
    settled_conn lk (sv_out s) id c.

(** What a refresh leaves alone. *)
Definition place (c : ConnectionData) := (phase c, c_credentialId c, credentialReplayState c).
Record same_place (s s' : Server) : Prop := {
  sp_registry : sv_registry s' = sv_registry s;
  sp_pending : sv_pending s' = sv_pending s;
  sp_gen : sv_gen s' = sv_gen s;
  sp_replay : sv_replay s' = sv_replay s;
  sp_out : sv_out s `prefix_of` sv_out s';
  sp_conns : ∀ id, place <$> om_get id (sv_conns s') = place <$> om_get id (sv_conns s)
}.
#[export] Instance same_place_preorder : PreOrder same_place.
Proof. split; [by intros s; split|]. intros s1 s2 s3 [] []. split; first [congruence|by etrans]. Qed.

Lemma set_conn_place s id f : (∀ c, place (f c) = place c) → same_place s (set_conn s id f).
Proof.
  intros Hf. unfold set_conn. destruct (om_get id (sv_conns s)) as [c|] eqn:Hc; [|done].
  split; [done..|]. intros id'. cbn [sv_conns]. rewrite om_get_set. case_decide; [|done].
  subst. rewrite Hc. cbn. by rewrite Hf.
Qed.
Lemma close_place s id code : same_place s (close s id code).
Proof. split; try done. by apply prefix_app_r. Qed.
Lemma set_conn_get s id f id' :
  om_get id' (sv_conns (set_conn s id f)) =
  if decide (id = id') then f <$> om_get id (sv_conns s) else om_get id' (sv_conns s).
Proof.
  unfold set_conn. destruct (om_get id (sv_conns s)) as [c|] eqn:Hc.
  - cbn [sv_conns]. rewrite om_get_set. case_decide; [|done]. by subst.
  - case_decide; [by subst|done].
Qed.
Lemma getByCredentialId_place s s' cid : same_place s s' → ∀ id,
  id ∈ getByCredentialId s' cid ↔ id ∈ getByCredentialId s cid.
Proof.
  intros Hp id. rewrite !getByCredentialId_elem, (sp_registry _ _ Hp).
  pose proof (sp_conns _ _ Hp id) as Hc.
  destruct (om_get id (sv_conns s')) as [c'|], (om_get id (sv_conns s)) as [c|]; cbn in Hc;
    [|done..|]; [injection Hc as _ Hk _|]; split; intros (Hr & x & Hx & Hcx); try done;
    (split; [done|]); eexists; (split; [done|]); congruence.
Qed.

Lemma refresh_conn_spec lk s id :
  let s' := refresh_conn lk s id in
  same_place s s' ∧
  (∀ id', id' ≠ id → om_get id' (sv_conns s') = om_get id' (sv_conns s)) ∧
  (∀ c, om_get id (sv_conns s') = Some c → phase c = ph_active → settled_conn lk (sv_out s') id c).
Proof.
  cbv zeta. unfold refresh_conn. destruct (om_get id (sv_conns s)) as [c|] eqn:Hc.
  2: { split_and!; [done|done|congruence]. }
  case_bool_decide as Hph; cbn [negb].
  2: { split_and!; [done|done|]. intros c' Hc'. congruence. }
  destruct lk as [fresh|e].
  - set (s1 := set_conn s id (with_record fresh)).
    assert (same_place s s1) as Hs1 by (by apply set_conn_place).
    assert (∀ id', id' ≠ id → om_get id' (sv_conns s1) = om_get id' (sv_conns s)) as Ho1.
    { intros id' Hne. unfold s1. rewrite set_conn_get. by rewrite decide_False. }
    assert (om_get id (sv_conns s1) = Some (with_record fresh c)) as Hc1.
    { unfold s1. by rewrite set_conn_get, decide_True, Hc. }
    case_bool_decide as Hst; cbn [negb].
    + split_and!; [done|done|]. intros c' Hc' _. rewrite Hc1 in Hc'. injection Hc' as <-. by split.
    + unfold stopHeartbeat. split_and!.
      * etrans; [exact Hs1|]. etrans; [apply close_place|]. by apply set_conn_place.
      * intros id' Hne. rewrite set_conn_get, decide_False by done. by apply Ho1.
      * intros c'. rewrite set_conn_get, decide_True by done. cbn [sv_conns close emit].
        rewrite Hc1. intros [= <-] _. split; [done|]. intros _.
        destruct (set_conn_rest (close s1 id (inactive_close_code (sc_status (cr_base fresh)))) id
          (λ c, with_timers (authTimer c) false c)) as [-> _].
        apply elem_of_app. right. by left.
  - unfold stopHeartbeat. split_and!.
    + etrans; [apply close_place|]. by apply set_conn_place.
    + intros id' Hne. rewrite set_conn_get, decide_False by done. done.
    + intros c' _ _. cbn [settled_conn].
      destruct (set_conn_rest (close s id CREDENTIAL_REVOKED) id
        (λ c, with_timers (authTimer c) false c)) as [-> _].
      apply elem_of_app. right. by left.
Qed.
Lemma settled_conn_mono lk out out' id c :
  out `prefix_of` out' → settled_conn lk out id c → settled_conn lk out' id c.
Proof.
  intros [k ->]. unfold settled_conn. destruct lk; rewrite elem_of_app; [|tauto].
  intros [? Hf]. split; [done|]. intros Hne. left. by apply Hf.
Qed.
Lemma refresh_fold lk ids s :
  let s' := foldl (refresh_conn lk) s ids in
  same_place s s' ∧
  (∀ id', id' ∉ ids → om_get id' (sv_conns s') = om_get id' (sv_conns s)) ∧
  (∀ id c, id ∈ ids → om_get id (sv_conns s') = Some c → phase c = ph_active →
    settled_conn lk (sv_out s') id c).
Proof.
  cbv zeta. induction ids as [|x ids IH] using rev_ind; [split_and!; [done|done|]; by intros ?? ?%not_elem_of_nil|].
  rewrite foldl_app. cbn [foldl]. set (s1 := foldl (refresh_conn lk) s ids) in *.
  destruct IH as (I1 & I2 & I3). destruct (refresh_conn_spec lk s1 x) as (H1 & H2 & H3).
  split_and!.
  - by etrans.
  - intros id' Hni. rewrite elem_of_app, list_elem_of_singleton in Hni. rewrite H2 by tauto.
    apply I2. tauto.
  - intros id c Hin Hc Hph. destruct (decide (id = x)) as [->|Hne]; [by apply H3|].
    rewrite elem_of_app, list_elem_of_singleton in Hin. rewrite H2 in Hc by done.
    eapply settled_conn_mono; [apply (sp_out _ _ H1)|]. apply I3; [tauto|done|done].
Qed.
Lemma invalidate_apply_latest s cid g lk p :
  om_get cid (sv_pending s) = Some p → generation p = g →
  let s' := invalidate_apply s cid g lk in
  same_place s s' ∧ settled lk cid s' ∧
  (∀ id, id ∉ getByCredentialId s cid → om_get id (sv_conns s') = om_get id (sv_conns s)).
Proof.
  intros Hp Hg. unfold invalidate_apply. rewrite Hp, bool_decide_true by done.
  destruct (refresh_fold lk (getByCredentialId s cid) s) as (H1 & H2 & H3).
  split_and!; [done| |done]. intros id c Hin. apply H3. by apply (getByCredentialId_place _ _ _ H1).
Qed.
Lemma invalidate_apply_stale s cid g lk p :
  om_get cid (sv_pending s) = Some p → generation p ≠ g → invalidate_apply s cid g lk = s.
Proof. intros Hp Hg. unfold invalidate_apply. by rewrite Hp, bool_decide_false. Qed.
Lemma settled_other lk cid s s' :
  same_place s s' →
  (∀ id, id ∈ getByCredentialId s cid → om_get id (sv_conns s') = om_get id (sv_conns s)) →
  settled lk cid s → settled lk cid s'.
Proof.
  intros Hp Hc Hs id c Hin%(getByCredentialId_place _ _ _ Hp) Hg Hph. rewrite Hc in Hg by done.
  eapply settled_conn_mono; [apply (sp_out _ _ Hp)|]. by apply Hs.
Qed.
Lemma other_credential s k cid id :
  k ≠ cid → id ∈ getByCredentialId s cid → id ∉ getByCredentialId s k.
Proof.
  intros Hne (_ & c & Hc & Hk)%getByCredentialId_elem (_ & c' & Hc' & Hk')%getByCredentialId_elem.
  congruence.
Qed.
(** Sending events keeps what is settled. *)
Lemma settled_core lk cid s s' : same_core s s' → settled lk cid s → settled lk cid s'.
Proof.
  intros Hcore Hs id c Hin Hc Hph. pose proof (sc_conns _ _ Hcore id) as Hk. rewrite Hc in Hk.
  destruct (om_get id (sv_conns s)) as [c0|] eqn:Hc0; [|done]. injection Hk as Hp Hr Hcid _ _.
  assert (id ∈ getByCredentialId s cid) as Hin0.
  { apply getByCredentialId_elem in Hin as (Hr' & x & Hx & Hxk). apply getByCredentialId_elem.
    rewrite <-(sc_registry _ _ Hcore). split; [done|]. eexists; split; [done|]. congruence. }
  pose proof (Hs id c0 Hin0 Hc0 ltac:(congruence)) as Hset.
  eapply settled_conn_mono; [apply (sc_out _ _ Hcore)|].
  unfold settled_conn in *. destruct lk; [|done]. destruct Hset. split; [congruence|done].
Qed.

(** ** A burst of invalidations of one credential *)
Section burst.
Context (config : WsServerConfig)
        (projectEvent : option (SignetEvent → CredentialRecord → option SignetEvent))
        (cid : string).
Abbreviation broadcast := (broadcast config projectEvent).
Abbreviation invalidate_end := (invalidate_end config projectEvent).

(** What operations on another credential keep of this one. *)
Record quiet (s s' : Server) : Prop := {
  q_gen : sv_gen s <= sv_gen s';
  q_pending : om_get cid (sv_pending s') = om_get cid (sv_pending s);
  q_replay : om_get cid (sv_replay s') = om_get cid (sv_replay s);
  q_settled : ∀ lk, settled lk cid s → settled lk cid s'
}.
#[local] Instance quiet_preorder : PreOrder quiet.
Proof.
  split; [by intros s; split|]. intros s1 s2 s3 [] []. split; [lia|congruence|congruence|eauto].
Qed.
Lemma broadcast_inv k s ev : ws_inv config s → ws_inv config (broadcast k s ev).
Proof. intros Hs. eapply grows_inv; [apply grows_broadcast|done]. Qed.
Lemma broadcast_core k s ev :
  ws_inv config s → om_get k (sv_pending s) = None →
  same_core s (broadcast k s ev) ∧
  (∀ k', k' ≠ k → om_get k' (sv_replay (broadcast k s ev)) = om_get k' (sv_replay s)).
Proof.
  intros Hinv Hp. destruct (om_get k (sv_replay s)) as [rs|] eqn:Hrs.
  - by destruct (broadcast_sends config projectEvent k s ev rs Hinv Hp Hrs) as (? & _ & _ & ?).
  - unfold WsServer.broadcast. by rewrite Hp, (no_replay_no_connections config _ _ Hinv Hrs).
Qed.
Lemma set_pendings_quiet s p :
  om_get cid p = om_get cid (sv_pending s) → quiet s (set_pendings s p).
Proof. by intros Hp; split. Qed.
Lemma broadcast_quiet k s ev : k ≠ cid → ws_inv config s → quiet s (broadcast k s ev).
Proof.
  intros Hk Hinv. destruct (om_get k (sv_pending s)) as [p|] eqn:Hp.
  - unfold WsServer.broadcast. rewrite Hp. apply set_pendings_quiet. by rewrite om_get_set, decide_False.
  - destruct (broadcast_core k s ev Hinv Hp) as [Hc Hr]. split.
    + by rewrite (sc_gen _ _ Hc).
    + by rewrite (sc_pending _ _ Hc).
    + by apply Hr.
    + intros lk. by apply settled_core.
Qed.
Lemma broadcasts_quiet k evs s :
  k ≠ cid → ws_inv config s → quiet s (foldl (broadcast k) s evs).
Proof.
  intros Hk. revert s. induction evs as [|ev evs IH]; intros s Hinv; [done|]. cbn [foldl].
  etrans; [by apply broadcast_quiet|]. apply IH. by apply broadcast_inv.
Qed.
Lemma invalidate_begin_quiet k s : k ≠ cid → quiet s (invalidate_begin s k).1.
Proof.
  intros Hk. split; cbn [invalidate_begin fst sv_gen sv_pending sv_replay]; [lia| |done|done].
  by rewrite om_get_set, decide_False.
Qed.
Lemma place_quiet s s' :
  same_place s s' →
  (∀ id, id ∈ getByCredentialId s cid → om_get id (sv_conns s') = om_get id (sv_conns s)) →
  quiet s s'.
Proof.
  intros Hp Hc. split; [by rewrite (sp_gen _ _ Hp)|by rewrite (sp_pending _ _ Hp)|
    by rewrite (sp_replay _ _ Hp)|]. intros lk. by apply settled_other.
Qed.
Lemma invalidate_end_quiet k s g lk :
  k ≠ cid → ws_inv config s → quiet s (invalidate_end s k g lk).
Proof.
  intros Hk Hinv. unfold WsServer.invalidate_end.
  transitivity (invalidate_apply s k g lk).
  - unfold invalidate_apply. destruct (om_get k (sv_pending s)) as [p|]; [|done].
    case_bool_decide; [|done]. destruct (refresh_fold lk (getByCredentialId s k) s) as (H1 & H2 & _).
    apply place_quiet; [done|]. intros id Hin. apply H2. by eapply other_credential.
  - assert (ws_inv config (invalidate_apply s k g lk)) as Hinv1.
    { eapply grows_inv; [apply grows_apply|done]. }
    revert Hinv1. generalize (invalidate_apply s k g lk). clear s Hinv. intros s Hinv.
    unfold invalidate_finally. destruct (om_get k (sv_pending s)) as [p|]; [|done].
    destruct (refcount p <=? 1).
    + etrans; [apply (set_pendings_quiet s (om_delete k (sv_pending s)))|].
      { by rewrite om_get_delete, decide_False. }
      apply broadcasts_quiet; [done|]. by apply (grows_inv config s); [apply grows_same|].
    + apply set_pendings_quiet. by rewrite om_get_set, decide_False.
Qed.

(** The calls in flight, the latest call, its answer once it is in, and the
    events broadcast so far. *)
Record Burst := mkBurst {
  b_flight : list nat; b_latest : nat; b_answer : option lookup_result; b_events : list SignetEvent
}.
Definition no_burst : Burst := mkBurst [] 0 None [].
Definition answered (b : Burst) (g : nat) (lk : lookup_result) : option lookup_result :=
  if decide (g = b_latest b) then Some lk else b_answer b.
Inductive burst_step : Server * Burst → Server * Burst → Prop :=
  | bs_begin s b :
      burst_step (s, b) ((invalidate_begin s cid).1,
        mkBurst (b_flight b ++ [(invalidate_begin s cid).2]) (invalidate_begin s cid).2 None (b_events b))
  | bs_end s b g lk : g ∈ b_flight b → 2 <= length (b_flight b) →
      burst_step (s, b) (invalidate_end s cid g lk,
        mkBurst (filter (λ x, x ≠ g) (b_flight b)) (b_latest b) (answered b g lk) (b_events b))
  | bs_event s b ev : b_flight b ≠ [] →
      burst_step (s, b) (broadcast cid s ev,
        mkBurst (b_flight b) (b_latest b) (b_answer b) (b_events b ++ [ev]))
  | bs_other_begin k s b : k ≠ cid → burst_step (s, b) ((invalidate_begin s k).1, b)
  | bs_other_end k s b g lk : k ≠ cid → burst_step (s, b) (invalidate_end s k g lk, b)
  | bs_other_event k s b ev : k ≠ cid → burst_step (s, b) (broadcast k s ev, b).

Record burst_inv (s0 s : Server) (b : Burst) : Prop := {
  bi_ws : ws_inv config s;
  bi_pending : om_get cid (sv_pending s) =
    if decide (b_flight b = []) then None
    else Some {| refcount := length (b_flight b); generation := b_latest b; pi_events := b_events b |};
  bi_events : b_flight b = [] → b_events b = [];
  bi_nodup : NoDup (b_flight b);
  bi_gens : ∀ g, g ∈ b_flight b → g <= sv_gen s;
  bi_answer : b_latest b ∉ b_flight b → b_flight b ≠ [] →
    ∃ lk, b_answer b = Some lk ∧ settled lk cid s;
  bi_replay : om_get cid (sv_replay s) = om_get cid (sv_replay s0)
}.
Lemma quiet_burst_inv s0 s s' b :
  quiet s s' → ws_inv config s' → burst_inv s0 s b → burst_inv s0 s' b.
Proof.
  intros [Q1 Q2 Q3 Q4] Hws [I1 I2 I3 I4 I5 I6 I7]. split; try done; try congruence.
  - intros g Hg. specialize (I5 g Hg). lia.
  - intros Hl Hf. destruct (I6 Hl Hf) as (lk & ? & ?). eauto.
Qed.
Lemma filter_flight g (l : list nat) :
  NoDup l → g ∈ l → length (filter (λ x, x ≠ g) l) = length l - 1.
Proof.
  induction l as [|x l IH]; [by intros _ ?%not_elem_of_nil|]. intros [Hx Hl]%NoDup_cons Hin.
  rewrite filter_cons. case_decide as Hd; cbn [length].
  - apply elem_of_cons in Hin as [->|Hin]; [done|]. rewrite IH by done.
    destruct l; [by apply not_elem_of_nil in Hin|]. cbn. lia.
  - subst x. clear IH Hin Hl. assert (filter (λ x, x ≠ g) l = l) as ->; [|lia].
    induction l as [|y l IH]; [done|]. apply not_elem_of_cons in Hx as [Hy Hx].
    rewrite filter_cons_True by done. by rewrite IH.
Qed.
(** The answer of one call, before the reference count is dropped. *)
Lemma apply_answer s0 s b g lk :
  burst_inv s0 s b → g ∈ b_flight b →
  same_place s (invalidate_apply s cid g lk) ∧
  (∀ r, answered b g lk = Some r → b_latest b = g ∨ b_latest b ∉ b_flight b →
    settled r cid (invalidate_apply s cid g lk)).
Proof.
  intros [I1 I2 I3 I4 I5 I6 I7] Hg. rewrite decide_False in I2 by (by intros Hn; rewrite Hn in Hg;
    apply not_elem_of_nil in Hg). unfold answered. case_decide as Hd.
  - destruct (invalidate_apply_latest s cid g lk _ I2) as (H1 & H2 & _); [done|].
    split; [done|]. intros r [= <-] _. done.
  - rewrite (invalidate_apply_stale s cid g lk _ I2) by done. split; [done|].
    intros r Hr [?|Hl]; [done|]. destruct (I6 Hl) as (lk' & Ha & Hs); [|by rewrite Ha in Hr; injection Hr as <-].
    intros Hn. rewrite Hn in Hg. by apply not_elem_of_nil in Hg.
Qed.
Lemma burst_step_inv s0 x y :
  burst_step x y → burst_inv s0 x.1 x.2 → burst_inv s0 y.1 y.2.
Proof.
  intros Hstep Hinv. destruct Hstep as [s b|s b g lk Hg Hlen|s b ev Hf|k s b Hk|k s b g lk Hk|k s b ev Hk];
    cbn [fst snd] in *.
  - destruct Hinv as [I1 I2 I3 I4 I5 I6 I7]. cbn [invalidate_begin fst snd] in *. split;
      cbn [b_flight b_latest b_answer b_events sv_pending sv_gen sv_replay]; try done.
    + eapply grows_inv; [by apply grows_invalidate_begin|done].
    + rewrite om_get_set_eq, decide_False by (by destruct (b_flight b)). rewrite I2.
      rewrite length_app. case_decide as Hn; cbn; [|done]. rewrite Hn, I3 by done. done.
    + intros Hn. by destruct (b_flight b).
    + apply NoDup_app. split_and!; [done| |apply NoDup_singleton].
      intros g Hg%I5 ->%list_elem_of_singleton. lia.
    + intros g [Hg%I5| ->%list_elem_of_singleton]%elem_of_app; lia.
    + intros Hn. destruct Hn. apply elem_of_app. right. by left.
  - destruct (apply_answer s0 s b g lk Hinv Hg) as [Hp Hset].
    destruct Hinv as [I1 I2 I3 I4 I5 I6 I7]. pose proof (filter_flight g _ I4 Hg) as Hlf.
    rewrite decide_False in I2 by (by intros Hn; rewrite Hn in Hg; apply not_elem_of_nil in Hg).
    unfold WsServer.invalidate_end, invalidate_finally. rewrite (sp_pending _ _ Hp), I2. cbn [refcount].
    destruct (Nat.leb_spec (length (b_flight b)) 1); [lia|]. split;
      cbn [b_flight b_latest b_answer b_events sv_pending set_pendings sv_gen sv_replay].
    + eapply grows_inv; [|exact I1]. etrans; [apply grows_apply|by apply grows_same].
    + rewrite om_get_set_eq, decide_False, Hlf; [done|]. intros Hn. rewrite Hn in Hlf. cbn in Hlf. lia.
    + intros Hn. rewrite Hn in Hlf. cbn in Hlf. lia.
    + by apply NoDup_filter.
    + intros x [_ Hx]%list_elem_of_filter. rewrite (sp_gen _ _ Hp). by apply I5.
    + intros Hl _. rewrite list_elem_of_filter in Hl.
      assert (b_latest b = g ∨ b_latest b ∉ b_flight b) as Hor by (destruct (decide (b_latest b = g)); tauto).
      assert (∃ r, answered b g lk = Some r) as [r Hr].
      { unfold answered. case_decide as Hd; [by eexists|]. destruct Hor as [?|Hni]; [congruence|].
        destruct (I6 Hni) as (r & ? & _); [|by eexists]. intros Hn. rewrite Hn in Hg.
        by apply not_elem_of_nil in Hg. }
      exists r. split; [done|]. by apply Hset.
    + by rewrite (sp_replay _ _ Hp).
  - destruct Hinv as [I1 I2 I3 I4 I5 I6 I7]. rewrite decide_False in I2 by done.
    pose proof (broadcast_inv cid s ev I1) as I1'. unfold WsServer.broadcast in *. rewrite I2 in *.
    split; cbn [b_flight b_latest b_answer b_events sv_pending set_pendings sv_gen sv_replay]; try done.
    rewrite om_get_set_eq, decide_False by done. done.
  - apply (quiet_burst_inv s0 s); [by apply invalidate_begin_quiet| |done].
    eapply grows_inv; [apply grows_invalidate_begin|apply (bi_ws _ _ _ Hinv)].
  - pose proof (bi_ws _ _ _ Hinv) as Hws.
    apply (quiet_burst_inv s0 s); [by apply invalidate_end_quiet| |done].
    eapply grows_inv; [|exact Hws]. etrans; [apply grows_apply|apply grows_finally].
  - pose proof (bi_ws _ _ _ Hinv) as Hws.
    apply (quiet_burst_inv s0 s); [by apply broadcast_quiet|by apply broadcast_inv|done].
Qed.

Lemma burst_reachable s0 x y : rtc burst_step x y → burst_inv s0 x.1 x.2 → burst_inv s0 y.1 y.2.
Proof. induction 1; [done|]. intros. by eauto using burst_step_inv. Qed.

(** C4: take any burst of invalidations of a credential, from a reachable
    server on which none is pending: calls, answers in any order, broadcasts
    and the same operations on other credentials, in any interleaving.
    While some call is unanswered nothing is sequenced for the credential
    and every broadcast is queued, in order.  When the last answer
    comes in, every registered active connection of the credential has the
    answer of the latest call, not of the latest to answer: it caches that
    record, and its close is requested when the lookup failed or the record
    is no longer active.  Only then, with no invalidation pending any more,
    are the queued events broadcast, each once and in order. *)
Theorem invalidation_latest_wins s0 s b g lk :
  server_reachable config projectEvent s0 →
  om_get cid (sv_pending s0) = None →
  rtc burst_step (s0, no_burst) (s, b) →
  om_get cid (sv_replay s) = om_get cid (sv_replay s0) ∧
  (b_flight b ≠ [] → om_get cid (sv_pending s) = Some
    {| refcount := length (b_flight b); generation := b_latest b; pi_events := b_events b |}) ∧
  (b_flight b = [g] →
    ∃ s1 r, answered b g lk = Some r ∧
      settled r cid s1 ∧
      om_get cid (sv_replay s1) = om_get cid (sv_replay s0) ∧
      om_get cid (sv_pending s1) = None ∧
      invalidate_end s cid g lk = foldl (broadcast cid) s1 (b_events b)).
Proof.
  intros Hr Hp Hb. assert (burst_inv s0 s0 no_burst) as H0.
  { split; cbn; try done; [by eapply reachable_ws_inv|apply NoDup_nil_2|]. intros g' Hg'. by apply not_elem_of_nil in Hg'. }
  pose proof (burst_reachable s0 _ _ Hb H0) as Hinv. cbn [fst snd] in Hinv.
  split; [apply (bi_replay _ _ _ Hinv)|]. split.
  { intros Hf. rewrite (bi_pending _ _ _ Hinv). by rewrite decide_False. }
  intros Hf. assert (g ∈ b_flight b) as Hg by (rewrite Hf; by left).
  destruct (apply_answer s0 s b g lk Hinv Hg) as [Hpl Hset].
  pose proof (bi_pending _ _ _ Hinv) as Hpe. rewrite Hf, decide_False in Hpe by done. cbn [length] in Hpe.
  assert (b_latest b = g ∨ b_latest b ∉ b_flight b) as Hor.
  { rewrite Hf, list_elem_of_singleton. destruct (decide (b_latest b = g)); tauto. }
  assert (∃ r, answered b g lk = Some r) as [r Hans].
  { unfold answered. case_decide; [by eexists|]. destruct Hor as [?|Hni]; [congruence|].
    destruct (bi_answer _ _ _ Hinv Hni) as (r & ? & _); [by rewrite Hf|by eexists]. }
  unfold WsServer.invalidate_end, invalidate_finally. rewrite (sp_pending _ _ Hpl), Hpe. cbn [refcount].
  exists (set_pendings (invalidate_apply s cid g lk) (om_delete cid (sv_pending s))), r.
  split_and!; [done| | | |done].
  - exact (Hset r Hans Hor).
  - cbn [sv_replay set_pendings]. rewrite (sp_replay _ _ Hpl). apply (bi_replay _ _ _ Hinv).
  - cbn [sv_pending set_pendings]. by rewrite om_get_delete, decide_True.
Qed.
End burst.

(** Two invalidations; the second, narrower one answers first and an event
    arrives in between: the event is delivered under the second's record. *)
Definition demo_narrow : CredentialRecord := demo_record "cred_1" "op_a" st_active [].
Lemma invalidation_latest_wins_witness :
  ∃ s1, settled (Ok demo_narrow) "cred_1" s1 ∧
    invalidate_end default_ws_config None
      (broadcast default_ws_config None "cred_1"
        (invalidate_end default_ws_config None
          (invalidate_begin (invalidate_begin demo_server "cred_1").1 "cred_1").1
          "cred_1" 2 (Ok demo_narrow)) demo_event) "cred_1" 1 (Ok demo_live) =
    foldl (broadcast default_ws_config None "cred_1") s1 [demo_event].
Proof.
  set (sA := (invalidate_begin demo_server "cred_1").1).
  set (sB := (invalidate_begin sA "cred_1").1).
  set (sC := invalidate_end default_ws_config None sB "cred_1" 2 (Ok demo_narrow)).
  set (sD := broadcast default_ws_config None "cred_1" sC demo_event).
  assert (rtc (burst_step default_ws_config None "cred_1") (demo_server, no_burst)
    (sD, mkBurst [1] 2 (Some (Ok demo_narrow)) [demo_event])) as Hb.
  { eapply rtc_l; [apply bs_begin|]. eapply rtc_l; [apply bs_begin|]. cbn.
    eapply rtc_l; [apply (bs_end _ _ _ sB _ 2 (Ok demo_narrow))|]; [right; left|by cbn; lia|].
    eapply rtc_l; [apply (bs_event _ _ _ sC _ demo_event)|apply rtc_refl]. done. }
  destruct (invalidation_latest_wins default_ws_config None "cred_1" demo_server sD _ 1 (Ok demo_live)
    demo_server_reachable eq_refl Hb) as (_ & _ & H).
  destruct (H eq_refl) as (s1 & r & Hr & Hs & _ & _ & He). injection Hr as <-. by exists s1.
Defined.

(** ** What the other awaits leave open *)
(** A socket that closes while its token is looked up is registered, and given
    a heartbeat timer, after its cleanup. *)
Lemma late_auth_registers_closed :
  let s0 := cleanupConnection (on_upgrade default_ws_config 0 (server_init []) "conn_1") "conn_1" in
  let s1 := (auth_accept default_ws_config s0 "conn_1" None (Ok demo_live)).1 in
  let s2 := auth_finish default_ws_config s1 "conn_1" "t1" demo_live (false, [], None) in
  sv_registry s0 = [] ∧ sv_registry s2 = ["conn_1"] ∧
  (phase <$> om_get "conn_1" (sv_conns s2)) = Some ph_closed ∧
  (heartbeatTimer <$> om_get "conn_1" (sv_conns s2)) = Some true.
Proof. vm_compute. done. Qed.
(** An event broadcast while the token is fingerprinted is sent before the
    [authenticated] frame. *)
Lemma event_before_authenticated :
  sv_out (auth_finish default_ws_config
    (broadcast default_ws_config None "cred_1" demo_server demo_event)
    "conn_1" "t1" demo_live (false, [], None)) =
  [Sent "conn_1" (OSequenced (Frame 1 demo_event));
   Sent "conn_1" (OAuthenticated "conn_1" "cred_1" (cr_effectiveScopes demo_live) None)].
Proof. vm_compute. done. Qed.
(** One broadcast to two connections of a credential takes two sequence
    numbers; the first, on reconnecting after the frame it saw, is replayed
    the same event again. *)
Lemma event_replayed_twice :
  let s0 := (auth_accept default_ws_config (on_upgrade default_ws_config 0 demo_server "conn_2")
               "conn_2" None (Ok demo_live)).1 in
  let s1 := broadcast default_ws_config None "cred_1" s0 demo_event in
  seq_log s1 = [("conn_1", Frame 1 demo_event); ("conn_2", Frame 2 demo_event)] ∧
  (λ rs, resume rs (Some 1)) <$> om_get "cred_1" (sv_replay s1) =
    Some (false, [Frame 2 demo_event], Some 1).
Proof. vm_compute. done. Qed.
(** A heartbeat whose lookup started before an invalidation and answers after
    it puts the older record back: only invalidations carry generations. *)
Lemma heartbeat_restores_stale_record :
  let hb := heartbeat_begin default_ws_config 10 demo_server "conn_1" in
  let s1 := (invalidate_begin hb.1 "cred_1").1 in
  let s2 := invalidate_end default_ws_config None s1 "cred_1" 1 (Ok demo_narrow) in
  let s3 := heartbeat_end default_ws_config "t1" s2 "conn_1" "cred_1" (Ok demo_live) in
  hb.2 = Some "cred_1" ∧
  (om_get "conn_1" (sv_conns s2) ≫= credentialRecord) = Some demo_narrow ∧
  (om_get "conn_1" (sv_conns s3) ≫= credentialRecord) = Some demo_live.
Proof. vm_compute. done. Qed.
