(* ===== verification/CoreStores.v ===== *)
(** * The stores of the core

    [core/src/identity-store.ts], [id-mapping-store.ts], [client-registry.ts]:
    the persisted identities of the agent, the mapping between network
    identifiers and local resource identifiers, and the registry of connected
    XMTP clients; then the world the core's actions run in, the effects they
    wait for, and the resolution of identities and groups that every group of
    actions starts with.

    The two stores are SQLite tables: a table is the list of its rows in
    insertion order, a column with a [UNIQUE] constraint holds distinct values
    ([NULL]s are distinct from each other), and a statement that would break
    one throws. *)
From S2P Require Import Prelude JsDate Programs Text Json Errors Ids Scopes Policy Reveal Seals Credentials CredentialSpec Registries CredentialService Contracts.

(** A JavaScript string is truthy when it is not empty. *)
Definition truthy_str (o : option string) : option string :=
  match o with Some s => if bool_decide (s = "") then None else Some s | None => None end.
(** The order of SQLite's [BINARY] collation and of [Array.prototype.sort] on
    identifiers: by bytes. *)
Definition str_cmp (a b : string) : Z :=
  match String.compare a b with Lt => -1 | Eq => 0 | Gt => 1 end.
Lemma str_cmp_le a b : (str_cmp a b ≤ 0)%Z ↔ String.le a b.
Proof. unfold str_cmp, String.le, String.leb. destruct (String.compare a b); cbn; split; intros; done || lia. Qed.

(** ** Identities *)
Record AgentIdentity := mkIdentity {
  ai_id : string; ai_inboxId : option string; ai_groupId : option string;
  ai_label : option string; ai_createdAt : string
}.
#[export] Instance AgentIdentity_eq_dec : EqDecision AgentIdentity.
Proof. solve_decision. Defined.
Abbreviation IdentityTable := (list AgentIdentity).

(** The row that keeps [row] out of the table, if any. *)
Definition opt_clash (a b : option string) : bool :=
  match a, b with Some x, Some y => bool_decide (x = y) | _, _ => false end.
Definition row_clash (row r : AgentIdentity) : bool :=
  bool_decide (ai_id row = ai_id r) || opt_clash (ai_groupId row) (ai_groupId r) ||
  opt_clash (ai_label row) (ai_label r).
(** [id] and [createdAt] are fresh; [cause] is SQLite's text when the
    statement throws. *)
Definition is_create (groupId label : option string) (id createdAt cause : string) (t : IdentityTable)
  : IdentityTable * result SignetError AgentIdentity :=
  let row := mkIdentity id None groupId label createdAt in
  if existsb (λ r, row_clash r row) t then
    (t, Err (InternalError_create "Failed to create identity" (Some [("cause", JStr cause)])))
  else (t ++ [row], Ok row).
Definition is_getByGroupId (groupId : string) (t : IdentityTable) : option AgentIdentity :=
  List.find (λ r, bool_decide (ai_groupId r = Some groupId)) t.
Definition is_getByLabel (label : string) (t : IdentityTable) : option AgentIdentity :=
  List.find (λ r, bool_decide (ai_label r = Some label)) t.
Definition is_getById (id : string) (t : IdentityTable) : option AgentIdentity :=
  List.find (λ r, bool_decide (ai_id r = id)) t.
Definition is_getByInboxId (inboxId : string) (t : IdentityTable) : option AgentIdentity :=
  List.find (λ r, bool_decide (ai_inboxId r = Some inboxId)) t.
Definition is_list (t : IdentityTable) : list AgentIdentity :=
  js_sort (λ a b, str_cmp (ai_createdAt a) (ai_createdAt b)) t.
Definition with_inboxId (inboxId : string) (r : AgentIdentity) : AgentIdentity :=
  mkIdentity (ai_id r) (Some inboxId) (ai_groupId r) (ai_label r) (ai_createdAt r).
Definition is_setInboxId (id inboxId : string) (t : IdentityTable)
  : IdentityTable * result SignetError AgentIdentity :=
  match is_getById id t with
  | None => (t, Err (NotFoundError_create "identity" id))
  | Some existing =>
      (map (λ r, if bool_decide (ai_id r = id) then with_inboxId inboxId r else r) t,
       Ok (with_inboxId inboxId existing))
  end.
Definition is_remove (id : string) (t : IdentityTable) : IdentityTable * result SignetError unit :=
  match is_getById id t with
  | None => (t, Err (NotFoundError_create "identity" id))
  | Some _ => (List.filter (λ r, negb (bool_decide (ai_id r = id))) t, Ok tt)
  end.

(** ** Id mappings *)
Record MappingRow := mkRow {
  mr_network : string; mr_local : string; mr_type : IdMappingResourceType
}.
Abbreviation IdMappings := (list MappingRow).
Definition im_byNetwork (networkId : string) (t : IdMappings) : option MappingRow :=
  List.find (λ r, bool_decide (mr_network r = networkId)) t.
Definition im_byLocal (localId : string) (t : IdMappings) : option MappingRow :=
  List.find (λ r, bool_decide (mr_local r = localId)) t.
(** The upsert; [None] when the unique constraint on [local_id] throws. *)
Definition im_set (networkId localId : string) (ty : IdMappingResourceType) (t : IdMappings)
  : option IdMappings :=
  if existsb (λ r, bool_decide (mr_local r = localId) && negb (bool_decide (mr_network r = networkId))) t
  then None
  else Some (match im_byNetwork networkId t with
             | Some _ => map (λ r, if bool_decide (mr_network r = networkId)
                                   then mkRow networkId localId ty else r) t
             | None => t ++ [mkRow networkId localId ty]
             end).
Definition im_getLocal (networkId : string) (t : IdMappings) : option string :=
  mr_local <$> im_byNetwork networkId t.
Definition im_getNetwork (localId : string) (t : IdMappings) : option string :=
  mr_network <$> im_byLocal localId t.
Definition im_resolve (id : string) (t : IdMappings) : option (string * string) :=
  match im_byNetwork id t with
  | Some r => Some (mr_network r, mr_local r)
  | None => match im_byLocal id t with
            | Some r => Some (mr_network r, mr_local r)
            | None => None
            end
  end.
Definition im_remove (id : string) (t : IdMappings) : IdMappings * option (string * string) :=
  match im_resolve id t with
  | None => (t, None)
  | Some mapping =>
      (if bool_decide (mapping.1 = id) then List.filter (λ r, negb (bool_decide (mr_network r = id))) t
       else List.filter (λ r, negb (bool_decide (mr_local r = id))) t, Some mapping)
  end.

(** ** The client registry

    A client is an object of the XMTP SDK; [mc_client] is its handle.  The
    [groupIds] of a registered client change in place. *)
Record ManagedClient := mkManaged {
  mc_identityId : string; mc_inboxId : string; mc_client : nat; mc_groupIds : list string
}.
Abbreviation ClientRegistry := (omap string ManagedClient).
Definition cr_register (m : ManagedClient) (t : ClientRegistry) : ClientRegistry :=
  om_set (mc_identityId m) m t.
Definition cr_get (identityId : string) (t : ClientRegistry) : option ManagedClient :=
  om_get identityId t.
Definition cr_getByGroupId (groupId : string) (t : ClientRegistry) : option ManagedClient :=
  List.find (λ m, set_has (mc_groupIds m) groupId) t.*2.
Definition cr_unregister (identityId : string) (t : ClientRegistry) : ClientRegistry * bool :=
  (om_delete identityId t, om_has identityId t).
Definition cr_list (t : ClientRegistry) : list ManagedClient := t.*2.
Definition cr_size (t : ClientRegistry) : nat := length t.
Definition cr_clear (t : ClientRegistry) : ClientRegistry := [].

(** ** What the tables keep *)
Lemma find_key {A B} `{EqDecision B} (f : A → B) (k : B) (l : list A) :
  match List.find (λ x, bool_decide (f x = k)) l with
  | Some x => x ∈ l ∧ f x = k
  | None => ∀ x, x ∈ l → f x ≠ k
  end.
Proof.
  induction l as [|a l IH]; cbn; [by intros x ?%not_elem_of_nil|]. case_bool_decide as Ha.
  - by split; [left|].
  - destruct (List.find _ l); [by destruct IH; split; [right|]|]. intros x [->|Hx]%elem_of_cons; auto.
Qed.
Lemma find_key_unique {A B} `{EqDecision B} (f : A → B) (k : B) (l : list A) x :
  NoDup (map f l) → x ∈ l → f x = k → List.find (λ x, bool_decide (f x = k)) l = Some x.
Proof.
  intros Hnd Hx <-. induction l as [|a l IH]; [by apply not_elem_of_nil in Hx|].
  cbn in Hnd |- *. apply NoDup_cons in Hnd as [Ha Hnd]. case_bool_decide as Hf.
  - apply elem_of_cons in Hx as [->|Hx]; [done|]. destruct Ha. rewrite Hf.
    exact (list_elem_of_fmap_2 f _ _ Hx).
  - apply elem_of_cons in Hx as [->|Hx]; [done|auto].
Qed.
Lemma find_key_None {A B} `{EqDecision B} (f : A → B) (k : B) (l : list A) :
  (∀ x, x ∈ l → f x ≠ k) → List.find (λ x, bool_decide (f x = k)) l = None.
Proof.
  intros H. pose proof (find_key f k l) as Hf. destruct (List.find _ _) as [x|]; [|done].
  destruct Hf as [? ?]. by destruct (H x).
Qed.

(** The unique columns of the mapping table. *)
Record im_inv (t : IdMappings) : Prop := {
  imi_network : NoDup (map mr_network t); imi_local : NoDup (map mr_local t)
}.
Inductive im_step (t : IdMappings) : IdMappings → Prop :=
  | ims_set n l ty t' : im_set n l ty t = Some t' → im_step t t'
  | ims_remove id : im_step t (im_remove id t).1.

Lemma im_getLocal_spec t n l : im_inv t →
  im_getLocal n t = Some l ↔ ∃ r, r ∈ t ∧ mr_network r = n ∧ mr_local r = l.
Proof.
  intros [Hn _]. unfold im_getLocal, im_byNetwork. split.
  - pose proof (find_key mr_network n t) as Hf. destruct (List.find _ _) as [r|]; cbn; [|done].
    intros [= <-]. exists r. naive_solver.
  - intros (r & Hr & Hk & <-). by rewrite (find_key_unique mr_network n t r).
Qed.
Lemma im_getNetwork_spec t n l : im_inv t →
  im_getNetwork l t = Some n ↔ ∃ r, r ∈ t ∧ mr_network r = n ∧ mr_local r = l.
Proof.
  intros [_ Hl]. unfold im_getNetwork, im_byLocal. split.
  - pose proof (find_key mr_local l t) as Hf. destruct (List.find _ _) as [r|]; cbn; [|done].
    intros [= <-]. exists r. naive_solver.
  - intros (r & Hr & <- & Hk). by rewrite (find_key_unique mr_local l t r).
Qed.
Lemma im_filter_inv P t : im_inv t → im_inv (List.filter P t).
Proof.
  intros [Hn Hl].
  assert (∀ {B} (f : MappingRow → B), NoDup (map f t) → NoDup (map f (List.filter P t))) as H.
  { intros B f. clear. induction t as [|r t IH]; cbn; [done|]. intros [Hr ?]%NoDup_cons.
    destruct (P r); cbn; [|auto]. apply NoDup_cons. split; [|auto].
    intros (x & Hfx & Hx)%list_elem_of_fmap. apply Hr, list_elem_of_fmap. exists x. split; [done|].
    apply list_elem_of_In. apply list_elem_of_In in Hx. by apply List.filter_In in Hx as [? _]. }
  split; auto.
Qed.
Lemma im_set_elem n l ty t t' : im_inv t → im_set n l ty t = Some t' →
  (∀ r, r ∈ t → mr_local r = l → mr_network r = n) ∧
  ∀ r, r ∈ t' ↔ r = mkRow n l ty ∨ (r ∈ t ∧ mr_network r ≠ n).
Proof.
  intros [Hn _]. unfold im_set. destruct (existsb _ _) eqn:He; [done|]. intros [= <-].
  assert (∀ r, r ∈ t → mr_local r = l → mr_network r = n) as Hfree.
  { intros r Hr Hl. destruct (decide (mr_network r = n)) as [|Hne]; [done|].
    enough (existsb (λ r, bool_decide (mr_local r = l) && negb (bool_decide (mr_network r = n))) t = true)
      by congruence.
    apply existsb_exists. exists r. split; [by apply list_elem_of_In|].
    by rewrite bool_decide_true, bool_decide_false. }
  split; [done|]. intros r. pose proof (find_key mr_network n t) as Hf. unfold im_byNetwork.
  destruct (List.find _ _) as [r0|].
  - destruct Hf as [Hr0 Hk]. rewrite list_elem_of_fmap. split.
    + intros (x & -> & Hx). case_bool_decide as Hx'; [by left|by right].
    + intros [->|[Hr Hne]].
      * exists r0. by rewrite bool_decide_true.
      * exists r. by rewrite bool_decide_false.
  - rewrite elem_of_app, list_elem_of_singleton. split; [|naive_solver].
    intros [Hr| ->]; [right|by left]. split; [done|]. by apply Hf.
Qed.
Lemma im_set_inv n l ty t t' : im_inv t → im_set n l ty t = Some t' → im_inv t'.
Proof.
  intros Hinv Hs. destruct (im_set_elem n l ty t t' Hinv Hs) as [Hfree _].
  destruct Hinv as [Hn Hl]. unfold im_set in Hs. destruct (existsb _ _); [done|]. injection Hs as <-.
  pose proof (find_key mr_network n t) as Hf. unfold im_byNetwork. destruct (List.find _ _) as [r0|]; cycle 1.
  { split; rewrite map_app; apply NoDup_app; (split_and!; [done| |apply NoDup_singleton]); cbn;
      intros x (r & -> & Hr)%list_elem_of_fmap ?%list_elem_of_singleton.
    - by apply (Hf r Hr). - by apply (Hf r Hr), Hfree. }
  split.
  - rewrite map_map. erewrite map_ext; [exact Hn|]. intros r. cbn. by case_bool_decide.
  - clear Hf. induction t as [|r t IH]; cbn; [done|]. cbn in Hn, Hl.
    apply NoDup_cons in Hn as [Hnr Hn], Hl as [Hlr Hl].
    apply NoDup_cons. split; [|apply IH; [done|done|]; intros; apply Hfree; [by right|done]].
    intros (y & Hy & Hmem)%list_elem_of_fmap. apply list_elem_of_fmap in Hmem as (z & -> & Hz).
    case_bool_decide as H1; case_bool_decide as H2; cbn in Hy.
    + apply Hnr. rewrite H1, <-H2. by apply (list_elem_of_fmap_2 mr_network).
    + apply H2, Hfree; [by right|done].
    + apply H1, Hfree; [by left|done].
    + apply Hlr. rewrite Hy. by apply (list_elem_of_fmap_2 mr_local).
Qed.
Lemma im_reach_inv t : rtc im_step [] t → im_inv t.
Proof.
  intros H. enough (∀ t0, rtc im_step t0 t → im_inv t0 → im_inv t) as Hall
    by (eapply Hall; [exact H|split; constructor]).
  clear. intros t0 H. induction H as [|t1 t2 t3 Hs _ IH]; [done|]. intros Hi. apply IH.
  destruct Hs as [n l ty t' Hs|id]; [by eapply im_set_inv|].
  unfold im_remove. destruct (im_resolve id t1) as [m|]; cbn; [|done].
  case_bool_decide; by apply im_filter_inv.
Qed.

Lemma im_remove_elem id t : im_inv t →
  match im_remove id t with
  | (t', Some (n, l)) => (id = n ∨ id = l) ∧ (∃ ty, mkRow n l ty ∈ t) ∧
      ∀ r, r ∈ t' ↔ r ∈ t ∧ mr_network r ≠ n
  | (t', None) => t' = t ∧ ∀ r, r ∈ t → mr_network r ≠ id ∧ mr_local r ≠ id
  end.
Proof.
  intros [Hn Hl].
  assert (∀ (P : MappingRow → bool) r, r ∈ List.filter P t ↔ r ∈ t ∧ P r = true) as Hflt.
  { intros P r. rewrite !list_elem_of_In. apply List.filter_In. }
  unfold im_remove, im_resolve. pose proof (find_key mr_network id t) as H1.
  unfold im_byNetwork, im_byLocal. destruct (List.find _ t) as [r0|]; cbn.
  { destruct H1 as [Hr0 Hk]. rewrite bool_decide_true by done. split_and!; [by left|by exists (mr_type r0); destruct r0|].
    intros r. rewrite Hflt, negb_true_iff, bool_decide_eq_false, Hk. done. }
  pose proof (find_key mr_local id t) as H2. destruct (List.find _ t) as [r0|]; cbn.
  2: { split; [done|]. intros r Hr. by split; [apply H1|apply H2]. }
  destruct H2 as [Hr0 Hk]. rewrite bool_decide_false by (by apply H1).
  split_and!; [by right|by exists (mr_type r0); destruct r0|].
  intros r. rewrite Hflt, negb_true_iff, bool_decide_eq_false. split; intros [Hr Hne]; (split; [done|]).
  - intros He. apply Hne. rewrite <-Hk.
    by rewrite (NoDup_map_inj mr_network t r r0 Hn Hr Hr0 He).
  - intros He. apply Hne.
    rewrite <-Hk in He. by rewrite (NoDup_map_inj mr_local t r r0 Hl Hr Hr0 He).
Qed.

(** the mapping between network and local identifiers stays a bijection
    whatever is set and removed: looking an identifier up and back gives the
    identifier; setting a mapping replaces the one of the network identifier
    and nothing else, and is refused exactly when another network identifier
    has the local one; removing by either identifier removes that mapping and
    nothing else. *)
Theorem id_mappings_bijective t : rtc im_step [] t →
  (∀ n l, im_getLocal n t = Some l ↔ im_getNetwork l t = Some n) ∧
  (∀ n l ty, match im_set n l ty t with
   | None => ∃ n', n' ≠ n ∧ im_getNetwork l t = Some n'
   | Some t' => im_getNetwork l t' = Some n ∧ im_getLocal n t' = Some l ∧
       ∀ n', n' ≠ n → im_getLocal n' t' = im_getLocal n' t
   end) ∧
  ∀ id, match im_remove id t with
  | (t', None) => t' = t ∧ im_getLocal id t = None ∧ im_getNetwork id t = None
  | (t', Some (n, l)) => (id = n ∨ id = l) ∧ im_getLocal n t = Some l ∧ im_getLocal n t' = None ∧
      ∀ n', n' ≠ n → im_getLocal n' t' = im_getLocal n' t
  end.
Proof.
  intros Hr. pose proof (im_reach_inv t Hr) as Hinv.
  assert (∀ (a b : option string), (∀ x, a = Some x ↔ b = Some x) → a = b) as Hext.
  { intros [x|] [y|] H; [by apply H|by destruct (H x) as [-> _]|by destruct (H y) as [_ ->]|done]. }
  split_and!.
  - intros n l. by rewrite im_getLocal_spec, im_getNetwork_spec.
  - intros n l ty. destruct (im_set n l ty t) as [t'|] eqn:Hs.
    + destruct (im_set_elem n l ty t t' Hinv Hs) as [_ Helem].
      pose proof (im_set_inv n l ty t t' Hinv Hs) as Hinv'.
      rewrite im_getNetwork_spec, im_getLocal_spec by done.
      assert (mkRow n l ty ∈ t') as Hin by (apply Helem; by left).
      split_and!; [by exists (mkRow n l ty)..|].
      intros n' Hne. apply Hext. intros x. rewrite !im_getLocal_spec by done.
      setoid_rewrite Helem. naive_solver.
    + unfold im_set in Hs. destruct (existsb _ _) eqn:He; [|done].
      apply existsb_exists in He as (r & Hin%list_elem_of_In & [Hl Hn]%andb_true_iff).
      apply bool_decide_eq_true in Hl. apply negb_true_iff, bool_decide_eq_false in Hn.
      exists (mr_network r). split; [done|]. apply im_getNetwork_spec; [done|]. by exists r.
  - intros id. pose proof (im_remove_elem id t Hinv) as Hrm.
    assert (im_inv (im_remove id t).1) as Hinv'.
    { apply im_reach_inv. eapply rtc_r; [exact Hr|constructor]. }
    destruct (im_remove id t) as [t' [[n l]|]]; cbn in Hinv'.
    + destruct Hrm as (Hid & [ty Hty] & Helem). split_and!; [done| | |].
      * apply im_getLocal_spec; [done|]. by exists (mkRow n l ty).
      * destruct (im_getLocal n t') as [x|] eqn:Hx; [|done].
        apply im_getLocal_spec in Hx as (r & [_ Hne]%Helem & ? & _); [done|done].
      * intros n' Hne. apply Hext. intros x. rewrite !im_getLocal_spec by done.
        setoid_rewrite Helem. naive_solver.
    + destruct Hrm as [-> Hno]. split_and!; [done| |].
      * destruct (im_getLocal id t) as [x|] eqn:Hx; [|done].
        apply im_getLocal_spec in Hx as (r & [? _]%Hno & ? & _); done.
      * destruct (im_getNetwork id t) as [x|] eqn:Hx; [|done].
        apply im_getNetwork_spec in Hx as (r & [_ ?]%Hno & _ & ?); done.
Qed.
Lemma id_mappings_bijective_witness :
  ∃ t, rtc im_step [] t ∧ im_getLocal "group-1" t = Some "conv_1" ∧
    im_getNetwork "conv_1" t = Some "group-1" ∧ im_set "group-2" "conv_1" im_conversation t = None.
Proof.
  set (t := [mkRow "group-1" "conv_1" im_conversation]).
  assert (rtc im_step [] t) as Ht by (eapply rtc_once, (ims_set _ "group-1" "conv_1" im_conversation); reflexivity).
  destruct (id_mappings_bijective t Ht) as (Hb & _).
  exists t. split_and!; [exact Ht|reflexivity|apply Hb; reflexivity|reflexivity].
Defined.

(** The unique columns of the identity table. *)
Record is_inv (t : IdentityTable) : Prop := {
  isi_id : NoDup (map ai_id t);
  isi_group : ∀ a b g, a ∈ t → b ∈ t → ai_groupId a = Some g → ai_groupId b = Some g → a = b;
  isi_label : ∀ a b l, a ∈ t → b ∈ t → ai_label a = Some l → ai_label b = Some l → a = b
}.
Inductive is_step (t : IdentityTable) : IdentityTable → Prop :=
  | iss_create g l id at_ cause : is_step t (is_create g l id at_ cause t).1
  | iss_setInbox id inbox : is_step t (is_setInboxId id inbox t).1
  | iss_remove id : is_step t (is_remove id t).1.
Lemma row_clash_spec row r : row_clash row r = true ↔
  ai_id row = ai_id r ∨ (∃ g, ai_groupId row = Some g ∧ ai_groupId r = Some g) ∨
  ∃ l, ai_label row = Some l ∧ ai_label r = Some l.
Proof.
  unfold row_clash. rewrite !orb_true_iff, bool_decide_eq_true.
  assert (∀ a b, opt_clash a b = true ↔ ∃ x : string, a = Some x ∧ b = Some x) as Ho.
  { intros [x|] [y|]; cbn; rewrite ?bool_decide_eq_true; naive_solver. }
  rewrite !Ho. tauto.
Qed.
Lemma is_create_inv g l id at_ cause t : is_inv t → is_inv (is_create g l id at_ cause t).1.
Proof.
  intros [Hid Hg Hl]. unfold is_create. destruct (existsb _ t) eqn:He; cbn; [done|].
  assert (∀ row, row ∈ t → row_clash row (mkIdentity id None g l at_) ≠ true) as Hno.
  { intros row Hr Hc. enough (existsb (λ r, row_clash r (mkIdentity id None g l at_)) t = true) by congruence.
    apply existsb_exists. exists row. split; [by apply list_elem_of_In|done]. }
  setoid_rewrite row_clash_spec in Hno. cbn in Hno. split.
  - rewrite map_app. apply NoDup_app. split_and!; [done| |apply NoDup_singleton].
    intros x (r & -> & Hr)%list_elem_of_fmap Hx%list_elem_of_singleton. apply (Hno r Hr). by left.
  - intros a b g' [Ha|Ha%list_elem_of_singleton]%elem_of_app [Hb|Hb%list_elem_of_singleton]%elem_of_app; subst; cbn;
      intros H1 H2; [by eapply Hg|..|done].
    + exfalso. apply (Hno a Ha). right. left. by exists g'.
    + exfalso. apply (Hno b Hb). right. left. by exists g'.
  - intros a b l' [Ha|Ha%list_elem_of_singleton]%elem_of_app [Hb|Hb%list_elem_of_singleton]%elem_of_app; subst; cbn;
      intros H1 H2; [by eapply Hl|..|done].
    + exfalso. apply (Hno a Ha). right. right. by exists l'.
    + exfalso. apply (Hno b Hb). right. right. by exists l'.
Qed.
Definition set_inbox (id inbox : string) (r : AgentIdentity) : AgentIdentity :=
  if bool_decide (ai_id r = id) then with_inboxId inbox r else r.
Lemma is_map_inv id inbox t : is_inv t → is_inv (map (set_inbox id inbox) t).
Proof.
  assert (∀ r, ai_id (set_inbox id inbox r) = ai_id r ∧ ai_groupId (set_inbox id inbox r) = ai_groupId r ∧
    ai_label (set_inbox id inbox r) = ai_label r) as Hsame by (intros r; unfold set_inbox; by case_bool_decide).
  intros [Hid Hg Hl]. split.
  - rewrite map_map. by erewrite map_ext; [|intros r; apply Hsame].
  - intros a b g (x & -> & Hx)%list_elem_of_fmap (y & -> & Hy)%list_elem_of_fmap H1 H2.
    f_equal. apply (Hg x y g); [done..| |]; [rewrite <-H1|rewrite <-H2]; symmetry; apply Hsame.
  - intros a b l (x & -> & Hx)%list_elem_of_fmap (y & -> & Hy)%list_elem_of_fmap H1 H2.
    f_equal. apply (Hl x y l); [done..| |]; [rewrite <-H1|rewrite <-H2]; symmetry; apply Hsame.
Qed.
Lemma elem_of_lfilter {A} (P : A → bool) x l : x ∈ List.filter P l ↔ x ∈ l ∧ P x = true.
Proof. rewrite !list_elem_of_In. apply List.filter_In. Qed.
Lemma is_filter_inv P t : is_inv t → is_inv (List.filter P t).
Proof.
  intros [Hid Hg Hl]. split.
  - clear Hg Hl. induction t as [|r t IH]; cbn; [done|]. apply NoDup_cons in Hid as [Hr Hid].
    destruct (P r); cbn; [|by apply IH]. apply NoDup_cons. split; [|by apply IH].
    intros (x & Hx & [Hin _]%elem_of_lfilter)%list_elem_of_fmap. apply Hr, list_elem_of_fmap. by exists x.
  - intros a b g [Ha _]%elem_of_lfilter [Hb _]%elem_of_lfilter. by apply Hg.
  - intros a b l [Ha _]%elem_of_lfilter [Hb _]%elem_of_lfilter. by apply Hl.
Qed.
Lemma is_setInboxId_eq id inbox t : is_setInboxId id inbox t =
  match is_getById id t with
  | None => (t, Err (NotFoundError_create "identity" id))
  | Some x => (map (set_inbox id inbox) t, Ok (with_inboxId inbox x))
  end.
Proof. done. Qed.
Lemma is_reach_inv t : rtc is_step [] t → is_inv t.
Proof.
  intros H. enough (∀ t0, rtc is_step t0 t → is_inv t0 → is_inv t) as Hall.
  { apply (Hall [] H). split; [constructor|by intros a b g ?%not_elem_of_nil..]. }
  clear. intros t0 H. induction H as [|t1 t2 t3 Hs _ IH]; [done|]. intros Hi. apply IH.
  destruct Hs as [g l id at_ cause|id inbox|id].
  - by apply is_create_inv.
  - rewrite is_setInboxId_eq. destruct (is_getById id t1); [by apply is_map_inv|done].
  - unfold is_remove. destruct (is_getById id t1); [by apply is_filter_inv|done].
Qed.

(** the identity table keeps its identifiers, groups and labels unique;
    an identity is created exactly when none of the three is taken, and is
    then the one its identifier names; setting the inbox and removing change
    the named identity only and fail when there is none; the listing has
    every identity, by time of creation. *)
Theorem identity_store_spec t : rtc is_step [] t →
  is_inv t ∧
  (∀ g l id at_ cause, let row := mkIdentity id None g l at_ in
   match is_create g l id at_ cause t with
   | (t', Ok r) => r = row ∧ t' = t ++ [row] ∧ is_getById id t' = Some row
   | (t', Err _) => t' = t ∧ ∃ r, r ∈ t ∧ row_clash r row = true
   end) ∧
  (∀ id inbox, match is_setInboxId id inbox t with
   | (t', Ok r) => ai_id r = id ∧ ai_inboxId r = Some inbox ∧ is_getById id t' = Some r ∧
       ∀ x, ai_id x ≠ id → x ∈ t' ↔ x ∈ t
   | (t', Err _) => t' = t ∧ is_getById id t = None
   end) ∧
  (∀ id, match is_remove id t with
   | (t', Ok _) => ∀ x, x ∈ t' ↔ x ∈ t ∧ ai_id x ≠ id
   | (t', Err _) => t' = t ∧ is_getById id t = None
   end) ∧
  (is_list t ≡ₚ t ∧ StronglySorted (λ a b, (str_cmp (ai_createdAt a) (ai_createdAt b) ≤ 0)%Z) (is_list t)).
Proof.
  intros Hr. pose proof (is_reach_inv t Hr) as Hinv. split; [done|]. split_and!.
  - intros g l id at_ cause row.
    pose proof (is_create_inv g l id at_ cause t Hinv) as [Hid' _ _].
    unfold is_create in *. destruct (existsb _ t) eqn:He; cbn in *.
    + split; [done|]. apply existsb_exists in He as (r & ?%list_elem_of_In & ?). by exists r.
    + split_and!; [done..|]. apply (find_key_unique ai_id id); [done| |done].
      apply elem_of_app. right. by apply list_elem_of_singleton.
  - intros id inbox. rewrite is_setInboxId_eq. unfold is_getById. pose proof (find_key ai_id id t) as Hf.
    destruct (List.find _ t) as [x|]; [|done]. destruct Hf as [Hx Hxid].
    assert (with_inboxId inbox x ∈ map (set_inbox id inbox) t) as Hin.
    { apply list_elem_of_fmap. exists x. split; [|done]. unfold set_inbox. by rewrite bool_decide_true. }
    split_and!; [done..| |].
    + apply (find_key_unique ai_id id); [|done..]. by apply (is_map_inv id inbox t Hinv).
    + intros y Hy. rewrite list_elem_of_fmap. unfold set_inbox. split.
      * intros (z & -> & Hz). case_bool_decide; [done|done].
      * intros Hyt. exists y. by rewrite bool_decide_false.
  - intros id. unfold is_remove, is_getById. pose proof (find_key ai_id id t) as Hf.
    destruct (List.find _ t) as [x|]; [|done]. intros y.
    by rewrite elem_of_lfilter, negb_true_iff, bool_decide_eq_false.
  - apply js_sort_perm.
  - apply (js_sort_sorted (λ a b, str_cmp (ai_createdAt a) (ai_createdAt b))); unfold cmp_le.
    + intros a b. rewrite !str_cmp_le. apply String.le_total.
    + intros a b c. rewrite !str_cmp_le. apply transitivity.
Qed.
Lemma identity_store_spec_witness :
  ∃ t, rtc is_step [] t ∧ length t = 2%nat ∧ is_inv t ∧
    (is_create None (Some "main") "inbox_3" "2026" "UNIQUE" t).1 = t.
Proof.
  set (t1 := (is_create None (Some "main") "inbox_1" "2025" "" []).1).
  set (t2 := (is_create (Some "group-1") None "inbox_2" "2025" "" t1).1).
  assert (rtc is_step [] t2) as Ht.
  { eapply rtc_l; [apply (iss_create [] None (Some "main") "inbox_1" "2025" "")|].
    apply rtc_once, (iss_create t1 (Some "group-1") None "inbox_2" "2025" ""). }
  exists t2. split_and!; [exact Ht|reflexivity|apply (identity_store_spec t2 Ht)|reflexivity].
Defined.
