(* ===== verification/CoreWorld.v ===== *)
(** * The world of the core's actions

    The state the actions of [core/src] share, the effects they wait for, and
    the resolution of identities, groups and messages that each group of
    actions starts with ([message-actions.ts] has the copies modelled here;
    those of the other files have the same text).

    An action is a program over this world ([Programs]): its synchronous
    parts act on the stores, and it waits for the XMTP clients and the other
    injected functions, whose answers are arbitrary.  While it waits the rest
    of the program may change the world.  A method that is [async] but does
    not wait (those of the identity store and of the operator manager) runs
    when it is called; waiting for it is [CTick]. *)
From S2P Require Import Prelude JsDate Programs Text Json Errors Ids Scopes Policy Reveal Seals Credentials CredentialSpec Registries CredentialService Contracts CoreStores.

(** ** The XMTP client interface ([xmtp-client-factory.ts]) *)
Record XmtpGroupInfo := mkGroup {
  xg_groupId : string; xg_name : string; xg_description : string; xg_imageUrl : option string;
  xg_memberInboxIds : list string; xg_createdAt : string
}.
Record XmtpDecodedMessage := mkDecoded {
  xm_messageId : string; xm_groupId : string; xm_senderInboxId : string; xm_contentType : string;
  xm_content : json; xm_sentAt : string; xm_threadId : option string
}.
Record ListMessagesOptions := mkListOptions {
  lo_limit : option Z; lo_before : option string; lo_after : option string;
  lo_descending : option bool
}.
Inductive ConsentEntityType := ce_inbox_id | ce_group_id.
Inductive ConsentState := cs_unknown | cs_allowed | cs_denied.
#[export] Instance ConsentEntityType_eq_dec : EqDecision ConsentEntityType.
Proof. solve_decision. Defined.
#[export] Instance ConsentState_eq_dec : EqDecision ConsentState.
Proof. solve_decision. Defined.
Record GroupChanges := mkGroupChanges {
  gc_name : option string; gc_description : option string; gc_imageUrl : option string
}.
Inductive CleanupReason := cl_rm | cl_leave_purge.
Record CleanupInput := mkCleanup {
  ci_chatId : option string; ci_groupId : string; ci_execute : bool; ci_reason : CleanupReason
}.
Record CleanupResult := mkCleanupResult { cu_executed : bool; cu_actions : list string }.
Record RegisteredIdentity := mkRegistered {
  ri_identityId : string; ri_inboxId : string; ri_address : string; ri_env : string;
  ri_label : option string
}.
(** The metadata of an invite handed to the onboarding scheme. *)
Record InviteRequest := mkInviteRequest {
  iq_groupId : string; iq_creatorInboxId : string; iq_walletPrivateKeyHex : string;
  iq_tag : string; iq_name : string; iq_description : string; iq_env : string
}.
(** The decoded invite of the onboarding scheme. *)
Record ParsedInvite := mkParsedInvite {
  pi_creatorInboxId : string; pi_tag : string; pi_name : option string;
  pi_isExpired : bool; pi_isConversationExpired : bool
}.
Record XmtpClientCreateOptions := mkClientOptions {
  xo_identityId : string; xo_dbPath : string; xo_dbEncryptionKey : string; xo_env : string;
  xo_appVersion : string; xo_signerPrivateKey : string
}.

(** ** Effects

    A client is named by its handle; the handle and the inbox of a new client
    are the answer of [CCreateClient].  [getMessageById], [parse] and
    [verify] answer at once; the model lets other code run there too. *)
Abbreviation res A := (result SignetError A).
Inductive ceff : Type → Type :=
  | CTick : ceff unit
  | CCredentialLookup (credentialId : string) : ceff (res CredentialRecord)
  | CCredentialList : ceff (res (list CredentialRecord))
  | CSendMessage (client : nat) (groupId : string) (content : json) (contentType : option string)
      : ceff (res string)
  | CListMessages (client : nat) (groupId : string) (options : ListMessagesOptions)
      : ceff (res (list XmtpDecodedMessage))
  | CGetMessageById (client : nat) (messageId : string) : ceff (res (option XmtpDecodedMessage))
  | CListGroups (client : nat) : ceff (res (list XmtpGroupInfo))
  | CCreateGroup (client : nat) (memberInboxIds : list string) (name : option string)
      : ceff (res XmtpGroupInfo)
  | CAddMembers (client : nat) (groupId : string) (inboxIds : list string) : ceff (res unit)
  | CRemoveMembers (client : nat) (groupId : string) (inboxIds : list string) : ceff (res unit)
  | CUpdateMetadata (client : nat) (groupId : string) (changes : GroupChanges) : ceff (res XmtpGroupInfo)
  | CLeaveGroup (client : nat) (groupId : string) : ceff (res unit)
  | CAddAdmin (client : nat) (groupId inboxId : string) : ceff (res unit)
  | CRemoveAdmin (client : nat) (groupId inboxId : string) : ceff (res unit)
  | CGetConsent (client : nat) (ty : ConsentEntityType) (entity : string) : ceff (res ConsentState)
  | CSetConsent (client : nat) (ty : ConsentEntityType) (entity : string) (state : ConsentState)
      : ceff (res unit)
  | CSyncAll (client : nat) : ceff (res unit)
  | CCreateDm (client : nat) (peerInboxId : string) : ceff (res string)
  | CSendDm (client : nat) (dmId text : string) : ceff (res string)
  | CGetGroupInfo (groupId : string) : ceff (res XmtpGroupInfo)
  | CDbKey (identityId : string) : ceff (res string)
  | CIdentityKey (identityId : string) : ceff (res string)
  | CCreateClient (options : XmtpClientCreateOptions) : ceff (res (nat * string))
  | CStream (client : nat) (what : string) : ceff (res nat)
  | CParseInvite (url : string) : ceff (res ParsedInvite)
  | CVerifyInvite (invite : ParsedInvite) : ceff (res unit)
  | CGenerateInvite (request : InviteRequest) : ceff (res string)
  | CRegisterInbox (label : option string) : ceff (res RegisteredIdentity)
  | CCleanupInbox (identity : AgentIdentity) (execute : bool) : ceff (res (list string))
  | CCleanupLocal (input : CleanupInput) : ceff (res CleanupResult)
  | CAttach (identityId : string) : ceff (res unit)
  | CSleep (ms : Z) : ceff unit.

(** ** The world

    [cw_inviteTags]: the tags kept by [storeInviteTag]. *)
Record CoreWorld := mkCore {
  cw_now : Z; cw_identities : IdentityTable; cw_idMappings : option IdMappings;
  cw_clients : ClientRegistry; cw_operators : option OperatorStore; cw_policies : option PolicyStore;
  cw_inviteTags : omap string string
}.
Abbreviation CProg := (prog CoreWorld ceff).
Abbreviation cevent := (event CoreWorld ceff).
Definition with_identities (f : IdentityTable → IdentityTable) (w : CoreWorld) : CoreWorld :=
  mkCore (cw_now w) (f (cw_identities w)) (cw_idMappings w) (cw_clients w) (cw_operators w)
    (cw_policies w) (cw_inviteTags w).
Definition with_idMappings (m : option IdMappings) (w : CoreWorld) : CoreWorld :=
  mkCore (cw_now w) (cw_identities w) m (cw_clients w) (cw_operators w) (cw_policies w)
    (cw_inviteTags w).
Definition with_operators (o : option OperatorStore) (w : CoreWorld) : CoreWorld :=
  mkCore (cw_now w) (cw_identities w) (cw_idMappings w) (cw_clients w) o (cw_policies w)
    (cw_inviteTags w).
Definition with_inviteTags (f : omap string string → omap string string) (w : CoreWorld) : CoreWorld :=
  mkCore (cw_now w) (cw_identities w) (cw_idMappings w) (cw_clients w) (cw_operators w)
    (cw_policies w) (f (cw_inviteTags w)).

Definition perform {X} (e : ceff X) : CProg X := (await x <- e ;; Ret x)%prog.
(** An [async] method that does not wait, awaited. *)
Definition called {X} (f : CoreWorld → CoreWorld * X) : CProg X :=
  (sync x <- f ;; await _ <- CTick ;; Ret x)%prog.
Definition peek {X} (f : CoreWorld → X) (w : CoreWorld) : CoreWorld * X := (w, f w).

(** ** Resolution *)
Record ResolvedIdentity := mkResolved { rv_identityId : string; rv_inboxId : option string }.
Definition resolved_of (i : AgentIdentity) : ResolvedIdentity := mkResolved (ai_id i) (ai_inboxId i).
Definition resolveIdentity (label : option string) : CProg (res ResolvedIdentity) :=
  (match truthy_str label with
   | Some label =>
       do identity <- called (peek (λ w, is_getByLabel label (cw_identities w))) ;;
       Ret (match identity with
            | None => Err (NotFoundError_create "identity" label)
            | Some i => Ok (resolved_of i)
            end)
   | None =>
       do identities <- called (peek (λ w, is_list (cw_identities w))) ;;
       Ret (match identities with
            | [] => Err (NotFoundError_create "identity" "(none)")
            | first :: _ => Ok (resolved_of first)
            end)
   end)%prog.
Definition resolveGroupId (idMappings : option IdMappings) (chatId : string) : string :=
  match idMappings with
  | None => chatId
  | Some m => default chatId (im_getNetwork chatId m)
  end.
Definition resolveMessageId (idMappings : option IdMappings) (messageId : string) : string :=
  match idMappings with
  | None => messageId
  | Some m => default messageId (im_getNetwork messageId m)
  end.
Definition group_now (chatId : string) (w : CoreWorld) : string := resolveGroupId (cw_idMappings w) chatId.
Definition message_now (messageId : string) (w : CoreWorld) : string :=
  resolveMessageId (cw_idMappings w) messageId.
(** [deps.getManagedClient] and the error of a missing client. *)
Definition getManagedClient (identityId : string) : CProg (res ManagedClient) :=
  (sync m <- peek (λ w, cr_get identityId (cw_clients w)) ;;
   Ret (match m with
        | None => Err (NotFoundError_create "managed-client" identityId)
        | Some m => Ok m
        end))%prog.
(** The two steps most handlers begin with. *)
Definition resolve_client (label : option string) : CProg (res ManagedClient) :=
  (ok resolved <- resolveIdentity label ;; getManagedClient (rv_identityId resolved))%prog.

(** [resolveEffectiveScopes] of a credential's [config]. *)
Definition resolveEffectiveScopes (c : CredentialRecord) : list PermissionScope :=
  foldl (λ allowed scope, List.filter (λ x, negb (bool_decide (x = scope))) allowed)
    (js_set (sc_allow (cr_base c))) (sc_deny (cr_base c)).
Definition scoped_groups (c : CredentialRecord) (w : CoreWorld) : list string :=
  map (λ chatId, group_now chatId w) (sc_chatIds (cr_base c)).

Section access.
Context `{JsDate}.
Definition authorizeAdminReadElevation (elevation : AdminReadElevation) (chatId : string) (w : CoreWorld)
  : res unit :=
  let live := match date_getTime (ae_expiresAt elevation) with
              | None => false | Some t => negb (t <=? cw_now w)%Z end in
  if negb live then
    Err (PermissionError_create "Admin read elevation has expired"
      (Some [("approvalId", JStr (ae_approvalId elevation)); ("expiresAt", JStr (ae_expiresAt elevation))]))
  else if negb (bool_decide (group_now chatId w ∈ map (λ c, group_now c w) (ae_chatIds elevation))) then
    Err (PermissionError_create "Admin read elevation does not cover this conversation"
      (Some [("approvalId", JStr (ae_approvalId elevation)); ("chatId", JStr chatId)]))
  else Ok tt.
Definition authorizeAdminReadAccess (ctx : HandlerContext) (chatId : string) (w : CoreWorld) : res unit :=
  match truthy_str (hx_credentialId ctx), hx_adminReadElevation ctx, hx_adminAuth ctx with
  | Some _, _, _ => Ok tt
  | None, Some elevation, _ => authorizeAdminReadElevation elevation chatId w
  | None, None, Some _ =>
      Err (PermissionError_create "Admin message reads require owner-approved elevation"
        (Some [("chatId", JStr chatId); ("hint", JStr "--dangerously-allow-message-read")]))
  | None, None, None => Ok tt
  end.
End access.

(** ** Steps before the work of a handler

    [only P]: the events of a stretch of a run satisfy [P]; the world has
    moved by the environment only. *)
Section stretches.
Context (env : CoreWorld → CoreWorld → Prop).
Definition no_effect (ev : cevent) : bool :=
  match ev_eff ev with CTick | CCredentialLookup _ => true | _ => false end.
(** [p] leaves the stores alone and performs no effect but ticks and
    credential lookups; [Ok] results satisfy [G] of the world it ends in and
    of its events. *)
Definition prelim {A} (G : CoreWorld → list cevent → A → Prop) (p : CProg (res A)) (w : CoreWorld) : Prop :=
  ∀ pre Q, (∀ t w1 r, Forall (λ ev, no_effect ev = true) t → rtc env w w1 →
    (∀ a, r = Ok a → G w1 t a) → Q (pre ++ t) w1 r) → wp env p w pre Q.
Lemma prelim_ret {A} (G : CoreWorld → list cevent → A → Prop) r w :
  (∀ a, r = Ok a → G w [] a) → prelim G (Ret r) w.
Proof. intros HG pre Q HQ. cbn. rewrite <-(app_nil_r pre). by apply HQ. Qed.
(** The identity that is meant: the one with the label, or the first. *)
Definition identity_meant (label : option string) (w : CoreWorld) : option AgentIdentity :=
  match truthy_str label with
  | Some label => is_getByLabel label (cw_identities w)
  | None => head (is_list (cw_identities w))
  end.
Lemma resolveIdentity_prelim label w :
  prelim (λ _ _ r, ∃ i, identity_meant label w = Some i ∧ r = resolved_of i) (resolveIdentity label) w.
Proof.
  intros pre Q HQ. unfold resolveIdentity, identity_meant in *.
  destruct (truthy_str label) as [l|]; cbn; intros w' [] Hw; (apply HQ; [by repeat constructor|by apply rtc_once|]).
  - destruct (is_getByLabel _ _) as [i|]; [|done]. intros a [= <-]. by exists i.
  - destruct (is_list _) as [|i l]; [done|]. intros a [= <-]. by exists i.
Qed.
(** A client is resolved to the one that is then registered for it. *)
Lemma resolve_client_meant label w :
  prelim (λ w1 _ m, ∃ i, identity_meant label w = Some i ∧ cr_get (ai_id i) (cw_clients w1) = Some m) (resolve_client label) w.
Proof.
  intros pre Q HQ. unfold resolve_client. apply wp_bind_ok, resolveIdentity_prelim.
  intros t w1 [r|e] Ht Hw Hr; [|by apply HQ]. cbn. apply HQ; [done..|].
  destruct (Hr r eq_refl) as (i & Hi & ->). cbn. destruct (cr_get _ _) as [m|] eqn:Hm; [|done].
  intros a [= <-]. by exists i.
Qed.
Lemma resolve_client_prelim label w :
  prelim (λ w1 _ m, ∃ id, cr_get id (cw_clients w1) = Some m) (resolve_client label) w.
Proof.
  intros pre Q HQ. apply resolve_client_meant. intros t w1 r Ht Hw Hm. apply HQ; [done..|].
  intros a Ha. destruct (Hm a Ha) as (i & _ & ?). by eexists.
Qed.
Lemma prelim_bind {A B} (G : CoreWorld → list cevent → A → Prop) (G' : CoreWorld → list cevent → B → Prop)
  (p : CProg (res A)) (k : A → CProg (res B)) w :
  prelim G p w →
  (∀ t w1 a, rtc env w w1 → G w1 t a → prelim (λ w2 t2 b, G' w2 (t ++ t2) b) (k a) w1) →
  prelim G' (bind_ok p k) w.
Proof.
  intros Hp Hk pre Q HQ. apply wp_bind_ok, Hp. intros t w1 [a|e] Ht Hw HG; [|by apply HQ].
  apply (Hk t w1 a Hw (HG a eq_refl)). intros t2 w2 r Ht2 Hw2 HG2. rewrite <-app_assoc. apply HQ.
  - by apply Forall_app. - by etrans. - done.
Qed.
End stretches.
