(* ===== verification/MessageActions.v ===== *)
(** * Message actions

    The handlers of [core/src/message-actions.ts].  Who may read what is
    decided at the start of a read, before any wait that touches messages;
    the group is looked up again when the messages are read. *)
From S2P Require Import Prelude JsDate Programs Text Json Errors Ids Scopes Policy Reveal Seals Credentials CredentialSpec Registries CredentialService Contracts CoreStores CoreWorld.

Record SendInput := mkSend { si_chatId : string; si_text : string; si_identityLabel : option string }.
Record SendOutput := mkSent { so_messageId : string; so_chatId : string }.
Record ListInput := mkList {
  li_chatId : string; li_limit : option Z; li_before : option string; li_after : option string;
  li_identityLabel : option string
}.
Record ListOutput := mkListed { lu_chatId : string; lu_messages : list XmtpDecodedMessage }.
Record InfoInput := mkInfo { ii_chatId : string; ii_messageId : string; ii_identityLabel : option string }.
Record ReplyInput := mkReply {
  rp_chatId : string; rp_messageId : string; rp_text : string; rp_identityLabel : option string
}.
Record ReplyOutput := mkReplied { rpo_messageId : string; rpo_chatId : string; rpo_inReplyTo : string }.
Record ReactInput := mkReact {
  re_chatId : string; re_messageId : string; re_reaction : string; re_identityLabel : option string
}.
Record ReactOutput := mkReacted { reo_messageId : string; reo_chatId : string; reo_reactedTo : string }.
Record ReadInput := mkRead { rd_chatId : string; rd_identityLabel : option string }.

Definition message_send (input : SendInput) : CProg (res SendOutput) :=
  (ok managed <- resolve_client (si_identityLabel input) ;;
   sync groupId <- peek (group_now (si_chatId input)) ;;
   ok sent <- perform (CSendMessage (mc_client managed) groupId (JStr (si_text input)) None) ;;
   Ret (Ok (mkSent sent (si_chatId input))))%prog.

Definition message_reply (input : ReplyInput) : CProg (res ReplyOutput) :=
  (ok managed <- resolve_client (rp_identityLabel input) ;;
   sync groupId <- peek (group_now (rp_chatId input)) ;;
   sync resolvedMsgId <- peek (message_now (rp_messageId input)) ;;
   ok sent <- perform (CSendMessage (mc_client managed) groupId
     (JObj [("text", JStr (rp_text input)); ("reference", JStr resolvedMsgId)]) (Some "reply")) ;;
   Ret (Ok (mkReplied sent (rp_chatId input) (rp_messageId input))))%prog.

Definition message_react (input : ReactInput) : CProg (res ReactOutput) :=
  (ok managed <- resolve_client (re_identityLabel input) ;;
   sync groupId <- peek (group_now (re_chatId input)) ;;
   sync resolvedMsgId <- peek (message_now (re_messageId input)) ;;
   ok sent <- perform (CSendMessage (mc_client managed) groupId
     (JObj [("reference", JStr resolvedMsgId); ("action", JStr "added");
            ("content", JStr (re_reaction input)); ("schema", JStr "unicode")]) (Some "reaction")) ;;
   Ret (Ok (mkReacted sent (re_chatId input) (re_messageId input))))%prog.

(** The output is [{ chatId, markedRead: true }]. *)
Definition message_read (input : ReadInput) : CProg (res string) :=
  (ok managed <- resolve_client (rd_identityLabel input) ;;
   sync groupId <- peek (group_now (rd_chatId input)) ;;
   ok sent <- perform (CSendMessage (mc_client managed) groupId (JObj []) (Some "readReceipt")) ;;
   Ret (Ok (rd_chatId input)))%prog.

Section reads.
Context `{JsDate} (credentialLookup : bool).

(** The credential check of [message.list] and [message.info]; [notFound] is
    the one error of all its refusals.  The groups are resolved, target and
    scope together, when the lookup answers. *)
Definition credential_gate (ctx : HandlerContext) (chatId : string) (notFound : SignetError)
  : CProg (res unit) :=
  (match truthy_str (hx_credentialId ctx) with
   | None => Ret (Ok tt)
   | Some credentialId =>
       if negb credentialLookup then Ret (Err notFound)
       else
         await credResult <- CCredentialLookup credentialId ;;
         match credResult with
         | Err _ => Ret (Err notFound)
         | Ok credential =>
             sync scopedGroupIds <- peek (scoped_groups credential) ;;
             sync targetGroupId <- peek (group_now chatId) ;;
             if negb (bool_decide (targetGroupId ∈ scopedGroupIds)) then Ret (Err notFound)
             else if negb (bool_decide (read_messages ∈ resolveEffectiveScopes credential))
             then Ret (Err notFound)
             else Ret (Ok tt)
         end
   end)%prog.

Definition message_list (input : ListInput) (ctx : HandlerContext) : CProg (res ListOutput) :=
  (sync elevationResult <- peek (authorizeAdminReadAccess ctx (li_chatId input)) ;;
   match elevationResult with
   | Err e => Ret (Err e)
   | Ok _ =>
       ok _ <- credential_gate ctx (li_chatId input) (NotFoundError_create "conversation" (li_chatId input)) ;;
       ok managed <- resolve_client (li_identityLabel input) ;;
       sync groupId <- peek (group_now (li_chatId input)) ;;
       ok listed <- perform (CListMessages (mc_client managed) groupId
         (mkListOptions (li_limit input) (li_before input) (li_after input) None)) ;;
       Ret (Ok (mkListed (li_chatId input) listed))
   end)%prog.

Definition message_info (input : InfoInput) (ctx : HandlerContext) : CProg (res XmtpDecodedMessage) :=
  let notFound := NotFoundError_create "message" (ii_messageId input) in
  (sync elevationResult <- peek (authorizeAdminReadAccess ctx (ii_chatId input)) ;;
   match elevationResult with
   | Err e => Ret (Err e)
   | Ok _ =>
       ok _ <- credential_gate ctx (ii_chatId input) notFound ;;
       ok managed <- resolve_client (ii_identityLabel input) ;;
       sync xmtpMessageId <- peek (message_now (ii_messageId input)) ;;
       ok found <- perform (CGetMessageById (mc_client managed) xmtpMessageId) ;;
       match found with
       | None => Ret (Err notFound)
       | Some message =>
           sync expectedGroupId <- peek (group_now (ii_chatId input)) ;;
           if negb (bool_decide (xm_groupId message = expectedGroupId)) then Ret (Err notFound)
           else Ret (Ok message)
       end
   end)%prog.
End reads.

(** ** Who may read

    What a read takes: the group of a listing, or one message. *)
Definition reads_group (ev : cevent) : option string :=
  match ev_eff ev with CListMessages _ g _ => Some g | _ => None end.
Definition is_read (ev : cevent) : bool :=
  match ev_eff ev with CListMessages _ _ _ | CGetMessageById _ _ => true | _ => false end.
Definition is_send (ev : cevent) : bool :=
  match ev_eff ev with CSendMessage _ _ _ _ => true | _ => false end.

Lemma resolveEffectiveScopes_elem c s :
  s ∈ resolveEffectiveScopes c ↔ s ∈ sc_allow (cr_base c) ∧ s ∉ sc_deny (cr_base c).
Proof.
  unfold resolveEffectiveScopes. rewrite <-(elem_of_js_set (sc_allow (cr_base c))).
  generalize (js_set (sc_allow (cr_base c))) as acc.
  induction (sc_deny (cr_base c)) as [|d l IH]; intros acc; cbn.
  - split; [|tauto]. intros ?. split; [done|]. apply not_elem_of_nil.
  - rewrite IH, elem_of_lfilter, negb_true_iff, bool_decide_eq_false, not_elem_of_cons. tauto.
Qed.

Section authority.
Context `{JsDate} (credentialLookup : bool) (env : CoreWorld → CoreWorld → Prop).

(** The credential's right to read the chat, as the gate sees it in the world
    [w1]: the record was looked up, has the scope and covers the chat. *)
Definition credential_covers (ctx : HandlerContext) (chatId : string) (t : list cevent) (w1 : CoreWorld) : Prop :=
  ∀ cid, truthy_str (hx_credentialId ctx) = Some cid →
    ∃ c w0, Event (res CredentialRecord) (CCredentialLookup cid) w0 (Ok c) ∈ t ∧
      read_messages ∈ sc_allow (cr_base c) ∧ read_messages ∉ sc_deny (cr_base c) ∧
      group_now chatId w1 ∈ scoped_groups c w1.
(** The owner's approval, as seen in the world [w]. *)
Definition elevation_covers (ctx : HandlerContext) (chatId : string) (w : CoreWorld) : Prop :=
  truthy_str (hx_credentialId ctx) = None →
  match hx_adminReadElevation ctx with
  | Some e => (∃ x, date_getTime (ae_expiresAt e) = Some x ∧ (cw_now w < x)%Z) ∧
              group_now chatId w ∈ map (λ c, group_now c w) (ae_chatIds e)
  | None => hx_adminAuth ctx = None
  end.

Lemma gate_prelim ctx chatId notFound w :
  prelim env (λ w1 t _, credential_covers ctx chatId t w1)
    (credential_gate credentialLookup ctx chatId notFound) w.
Proof.
  unfold credential_gate. destruct (truthy_str _) as [cid|] eqn:Hc; cycle 1.
  { apply prelim_ret. intros a _ cid'. by rewrite Hc. }
  destruct credentialLookup; cbn; [|by apply prelim_ret].
  intros pre Q HQ. cbn. intros w' x Hw.
  destruct x as [c|e]; cbn; [|by apply HQ; [repeat constructor|by apply rtc_once|]].
  case_bool_decide as H1; cbn; [|by apply HQ; [repeat constructor|by apply rtc_once|]].
  case_bool_decide as H2; cbn; [|by apply HQ; [repeat constructor|by apply rtc_once|]].
  apply HQ; [repeat constructor|by apply rtc_once|]. intros a _ cid'. rewrite Hc. intros [= <-].
  apply resolveEffectiveScopes_elem in H2 as [? ?].
  exists c, w. split_and!; [by apply list_elem_of_singleton|done..].
Qed.
Lemma admin_access_ok ctx chatId w :
  authorizeAdminReadAccess ctx chatId w = Ok tt → elevation_covers ctx chatId w.
Proof.
  unfold authorizeAdminReadAccess, elevation_covers. intros Ha Hc. revert Ha. rewrite Hc.
  destruct (hx_adminReadElevation ctx) as [e|]; [|by destruct (hx_adminAuth ctx)].
  unfold authorizeAdminReadElevation.
  destruct (date_getTime _) as [x|]; cbn; [|done].
  destruct (x <=? cw_now w)%Z eqn:Hx; cbn; [done|].
  case_bool_decide; cbn; [|done]. intros _. split; [|done]. exists x. split; [done|]. by apply Z.leb_gt.
Qed.
Lemma no_effect_no_read t : Forall (λ ev, no_effect ev = true) t →
  ∀ ev, ev ∈ t → is_read ev = false ∧ is_send ev = false.
Proof.
  intros Ht ev Hev. rewrite Forall_forall in Ht. specialize (Ht ev Hev).
  unfold no_effect, is_read, is_send in *. by destruct (ev_eff ev).
Qed.

(** Reads after the events [t]: justified at a moment between [w] and now. *)
Definition read_justified (ctx : HandlerContext) (chatId : string) (w : CoreWorld) (t : list cevent)
  (ev : cevent) : Prop :=
  elevation_covers ctx chatId w ∧
  ∃ w1, rtc env w w1 ∧ rtc env w1 (ev_world ev) ∧ credential_covers ctx chatId t w1.
Definition reads_ok (ctx : HandlerContext) (chatId : string) (w : CoreWorld) (t : list cevent) : Prop :=
  ∀ ev, ev ∈ t → is_read ev = true → read_justified ctx chatId w t ev.
Lemma quiet_reads_ok t (P : cevent → Prop) :
  Forall (λ ev, no_effect ev = true) t → ∀ ev, ev ∈ t → is_read ev = true → P ev.
Proof. intros Ht ev Hev. by destruct (no_effect_no_read t Ht ev Hev) as [-> _]. Qed.
Lemma one_read ctx chatId w t1 w1 t2 (e ev : cevent) (P : cevent → Prop) :
  elevation_covers ctx chatId w → credential_covers ctx chatId t1 w1 →
  rtc env w w1 → rtc env w1 (ev_world e) → Forall (λ ev, no_effect ev = true) (t1 ++ t2) →
  (is_read e = true → P e) →
  ev ∈ (t1 ++ t2) ++ [e] → is_read ev = true → read_justified ctx chatId w ((t1 ++ t2) ++ [e]) ev ∧ P ev.
Proof.
  intros Ha HG Hw1 Hw2 Ht HP [Hev|Hev%list_elem_of_singleton]%elem_of_app Hrd.
  { destruct (no_effect_no_read _ Ht ev Hev) as [Hx _]. congruence. }
  subst ev. split; [|auto]. split; [done|]. exists w1. split_and!; [done|done|].
  intros cid Hcid. destruct (HG cid Hcid) as (c & w0 & Hin & Hrest).
  exists c, w0. split; [|done]. rewrite <-app_assoc. apply elem_of_app. by left.
Qed.
(** The common start of the two reads. *)
Lemma gated_prelim ctx chatId notFound label w :
  prelim env (λ w2 t _, ∃ t1 t2 w1, t = t1 ++ t2 ∧ rtc env w w1 ∧ rtc env w1 w2 ∧ credential_covers ctx chatId t1 w1)
    (bind_ok (credential_gate credentialLookup ctx chatId notFound) (λ _, resolve_client label)) w.
Proof.
  apply (prelim_bind env (λ w1 t _, rtc env w w1 ∧ credential_covers ctx chatId t w1)).
  { intros pre Q HQ. apply gate_prelim. intros t w1 r Ht Hw HG. apply HQ; [done..|]. intros a Hr.
    split; [done|]. by apply (HG a). }
  intros t w1 [] _ [Hw HG] pre Q HQ. apply resolve_client_prelim. intros t2 w2 r Ht2 Hw2 _.
  apply HQ; [done|done|]. intros m _. by exists t, t2, w1.
Qed.
Lemma bind_ok_assoc {A B C} (p : CProg (res A)) (k : A → CProg (res B)) (f : B → CProg (res C)) w pre Q :
  wp env (bind_ok (bind_ok p k) f) w pre Q → wp env (bind_ok p (λ a, bind_ok (k a) f)) w pre Q.
Proof.
  unfold bind_ok. revert w pre. induction p as [[a|e]|X e k0 IH|X g k0 IH]; intros w pre; cbn; auto.
Qed.
Lemma message_list_wp input ctx w :
  wp env (message_list credentialLookup input ctx) w [] (λ t _ _,
    ∀ ev, ev ∈ t → is_read ev = true →
      read_justified ctx (li_chatId input) w t ev ∧
      reads_group ev = Some (group_now (li_chatId input) (ev_world ev))).
Proof.
  unfold message_list, peek. cbn [wp fst snd].
  destruct (authorizeAdminReadAccess ctx (li_chatId input) w) as [[]|e] eqn:Ha; cbn;
    [|by intros ev ?%not_elem_of_nil].
  apply admin_access_ok in Ha. apply bind_ok_assoc, wp_bind_ok, gated_prelim.
  intros t w2 [m|e] Ht Hw2 HG; cbn [app]; [|by apply quiet_reads_ok].
  destruct (HG m eq_refl) as (t1 & t2 & w1 & -> & Hw1 & Hw12 & Hc).
  cbn. intros w3 x Hw3. destruct x as [l|e]; cbn; intros ev Hev Hrd;
    by refine (one_read _ _ _ _ w1 _ _ ev
      (λ ev, reads_group ev = Some (group_now (li_chatId input) (ev_world ev))) Ha Hc Hw1 _ Ht _ Hev Hrd).
Qed.
Lemma message_info_wp input ctx w :
  wp env (message_info credentialLookup input ctx) w [] (λ t w' r,
    (∀ ev, ev ∈ t → is_read ev = true → read_justified ctx (ii_chatId input) w t ev) ∧
    ∀ m, r = Ok m → xm_groupId m = group_now (ii_chatId input) w' ∧
      ∃ client id w2, Event (res (option XmtpDecodedMessage)) (CGetMessageById client id) w2 (Ok (Some m)) ∈ t).
Proof.
  unfold message_info, peek. cbn [wp fst snd].
  destruct (authorizeAdminReadAccess ctx (ii_chatId input) w) as [[]|e] eqn:Ha; cbn;
    [|split; [by intros ev ?%not_elem_of_nil|done]].
  apply admin_access_ok in Ha. apply bind_ok_assoc, wp_bind_ok, gated_prelim.
  intros t w2 [m|e] Ht Hw2 HG; cbn [app]; [|split; [by apply quiet_reads_ok|done]].
  destruct (HG m eq_refl) as (t1 & t2 & w1 & -> & Hw1 & Hw12 & Hc).
  cbn. intros w3 x Hw3.
  assert (∀ ev, ev ∈ (t1 ++ t2) ++ [Event _ (CGetMessageById (mc_client m)
      (message_now (ii_messageId input) w2)) w2 x] → is_read ev = true →
    read_justified ctx (ii_chatId input) w ((t1 ++ t2) ++ [Event _ (CGetMessageById (mc_client m)
      (message_now (ii_messageId input) w2)) w2 x]) ev) as Hread.
  { intros ev Hev Hrd. by refine (proj1 (one_read _ _ _ _ w1 _ _ ev (λ _, True) Ha Hc Hw1 _ Ht _ Hev Hrd)). }
  destruct x as [[msg|]|e]; cbn; [|done..].
  case_bool_decide as Hg; cbn; [|done]. split; [done|]. intros m' [= <-]. split; [done|].
  eexists _, _, w2. apply elem_of_app. right. apply list_elem_of_singleton. done.
Qed.

(** C14: nothing of a conversation is read without authority.  Whatever the
    rest of the program does meanwhile, [message.list] reads only the group
    the chat stands for at that moment, [message.info] returns only a message
    of that group, and every read follows a moment of the same request in
    which: for a credential, a record the credential manager returned for it
    allowed [read-messages], did not deny it, and covered the group of the
    chat; for the admin with an owner's approval, the approval was not expired
    and covered the group of the chat; the admin without one reads nothing. *)
Theorem message_reads_authorised ctx w t w' :
  (∀ input r, run env w (message_list credentialLookup input ctx) t w' r →
     ∀ ev, ev ∈ t → is_read ev = true →
       read_justified ctx (li_chatId input) w t ev ∧
       reads_group ev = Some (group_now (li_chatId input) (ev_world ev))) ∧
  (∀ input r, run env w (message_info credentialLookup input ctx) t w' r →
     (∀ ev, ev ∈ t → is_read ev = true → read_justified ctx (ii_chatId input) w t ev) ∧
     ∀ m, r = Ok m → xm_groupId m = group_now (ii_chatId input) w' ∧
       ∃ client id w2, Event (res (option XmtpDecodedMessage)) (CGetMessageById client id) w2 (Ok (Some m)) ∈ t).
Proof.
  split; intros input r Hrun.
  - exact (wp_run _ _ _ _ _ _ _ _ (message_list_wp input ctx w) Hrun).
  - exact (wp_run _ _ _ _ _ _ _ _ (message_info_wp input ctx w) Hrun).
Qed.

(** ** Writes *)
(** One message is sent, to the group of the chat, or none and the handler
    fails; [out] makes the handler's output from the message's identifier. *)
Definition sends_once {A} (chatId : string) (content : CoreWorld → json) (contentType : option string)
  (out : string → A) (w : CoreWorld) (t : list cevent) (r : res A) : Prop :=
  ∃ t0 w1, Forall (λ ev, no_effect ev = true) t0 ∧ rtc env w w1 ∧
    ((t = t0 ∧ ∃ e, r = Err e) ∨
     ∃ m id answer, cr_get id (cw_clients w1) = Some m ∧ r = out <$> answer ∧
       t = t0 ++ [Event (res string) (CSendMessage (mc_client m) (group_now chatId w1) (content w1) contentType)
                    w1 answer]).
Lemma send_wp {A} label chatId content contentType (out : string → A) (k : ManagedClient → CProg (res A)) w :
  (∀ m w1 t Q, (∀ w2 answer, env w1 w2 → Q (t ++ [Event (res string) (CSendMessage (mc_client m)
      (group_now chatId w1) (content w1) contentType) w1 answer]) w2 (out <$> answer)) →
    wp env (k m) w1 t Q) →
  wp env (bind_ok (resolve_client label) k) w [] (λ t _ r, sends_once chatId content contentType out w t r).
Proof.
  intros Hk. apply wp_bind_ok, resolve_client_prelim. intros t w1 [m|e] Ht Hw Hm; cbn [app].
  - apply Hk. intros w2 answer _. exists t, w1. split_and!; [done|done|]. right.
    destruct (Hm m eq_refl) as [id Hid]. by exists m, id, answer.
  - exists t, w1. split_and!; [done|done|]. left. eauto.
Qed.

(** every write sends at most one message: to the group the chat stands
    for when it is sent, by the registered client of the resolved identity,
    with the content and type of the action; the identifier of the sent
    message and the chat are returned, and an error of the client is the
    error of the action. *)
Theorem message_writes_exact w t w' :
  (∀ i r, run env w (message_send i) t w' r →
     sends_once (si_chatId i) (λ _, JStr (si_text i)) None (λ m, mkSent m (si_chatId i)) w t r) ∧
  (∀ i r, run env w (message_reply i) t w' r →
     sends_once (rp_chatId i) (λ w1, JObj [("text", JStr (rp_text i));
         ("reference", JStr (message_now (rp_messageId i) w1))]) (Some "reply")
       (λ m, mkReplied m (rp_chatId i) (rp_messageId i)) w t r) ∧
  (∀ i r, run env w (message_react i) t w' r →
     sends_once (re_chatId i) (λ w1, JObj [("reference", JStr (message_now (re_messageId i) w1));
         ("action", JStr "added"); ("content", JStr (re_reaction i)); ("schema", JStr "unicode")])
       (Some "reaction") (λ m, mkReacted m (re_chatId i) (re_messageId i)) w t r) ∧
  (∀ i r, run env w (message_read i) t w' r →
     sends_once (rd_chatId i) (λ _, JObj []) (Some "readReceipt") (λ _, rd_chatId i) w t r).
Proof.
  split_and!; intros i r Hrun;
    (refine (wp_run env _ w [] (λ t _ r, sends_once _ _ _ _ w t r) t w' r _ Hrun); apply send_wp;
     intros m w1 t1 Q HQ; cbn; intros w2 [x|e] Hw; by apply (HQ w2 (Ok x)) || apply (HQ w2 (Err e))).
Qed.
End authority.

(** ** A concrete request *)
Definition demo_maps : IdMappings := [mkRow "group-1" "conv_1" im_conversation; mkRow "group-2" "conv_2" im_conversation].
Definition demo_client : ManagedClient := mkManaged "inbox_1" "net-1" 7 ["group-1"; "group-2"].
Definition demo_core : CoreWorld :=
  mkCore 1000 [mkIdentity "inbox_1" (Some "net-1") None None "2026"] (Some demo_maps)
    [("inbox_1", demo_client)] None None [].
Definition demo_credential (scopes : list PermissionScope) : CredentialRecord :=
  {| cr_base := {| sc_id := "cred_1"; sc_operatorId := "op_1"; sc_chatIds := ["conv_1"];
       sc_allow := scopes; sc_deny := []; sc_inboxIds := []; sc_status := st_active;
       sc_issuedAt := "2026"; sc_expiresAt := "2027"; sc_issuedBy := "owner" |};
     cr_credentialId := "cred_1"; cr_operatorId := "op_1";
     cr_effectiveScopes := {| allow := scopes; deny := [] |};
     cr_isExpired := false; cr_lastHeartbeat := "2026" |}.
Definition demo_ctx : HandlerContext := mkContext "signet" "req" None None (Some "cred_1") None.
Definition demo_decoded : XmtpDecodedMessage := mkDecoded "m1" "group-1" "net-2" "text" (JStr "hi") "2026" None.
Definition demo_reading : list cevent :=
  [Event (res CredentialRecord) (CCredentialLookup "cred_1") demo_core (Ok (demo_credential [read_messages]));
   Event unit CTick demo_core tt;
   Event (res (list XmtpDecodedMessage)) (CListMessages 7 "group-1" (mkListOptions (Some 5%Z) None None None))
     demo_core (Ok [demo_decoded])].
Lemma demo_list_run :
  run eq demo_core (message_list (H := iso_date) true (mkList "conv_1" (Some 5%Z) None None None) demo_ctx)
    demo_reading demo_core (Ok (mkListed "conv_1" [demo_decoded])).
Proof.
  eexists _, _, (tl demo_reading). split_and!; [reflexivity|reflexivity|].
  eexists _, _, (tl (tl demo_reading)). split_and!; [reflexivity|reflexivity|].
  eexists _, _, []. by split_and!.
Qed.
Lemma message_reads_authorised_witness :
  read_justified (H := iso_date) eq demo_ctx "conv_1" demo_core demo_reading
    (Event (res (list XmtpDecodedMessage)) (CListMessages 7 "group-1" (mkListOptions (Some 5%Z) None None None))
       demo_core (Ok [demo_decoded])).
Proof.
  apply (proj1 (message_reads_authorised (H := iso_date) true eq demo_ctx demo_core demo_reading demo_core)
    _ _ demo_list_run); [|reflexivity]. do 2 right. left.
Defined.

Definition demo_sending : list cevent :=
  [Event unit CTick demo_core tt;
   Event (res string) (CSendMessage 7 "group-2" (JStr "hi") None) demo_core (Ok "m2")].
Lemma demo_send_run :
  run eq demo_core (message_send (mkSend "conv_2" "hi" None)) demo_sending demo_core (Ok (mkSent "m2" "conv_2")).
Proof.
  eexists _, _, (tl demo_sending). split_and!; [reflexivity|reflexivity|].
  eexists _, _, []. by split_and!.
Qed.
Lemma message_writes_exact_witness :
  sends_once eq "conv_2" (λ _, JStr "hi") None (λ m, mkSent m "conv_2") demo_core demo_sending
    (Ok (mkSent "m2" "conv_2")).
Proof. exact (proj1 (message_writes_exact eq demo_core demo_sending demo_core) _ _ demo_send_run). Defined.

(** The write actions are exposed to agents ([mcp: { toolName }]) like the
    reads, but take no context: the caller whose credential does not cover a
    chat is refused a listing of it, and its message to the chat is sent. *)
Lemma writes_skip_the_credential :
  run eq demo_core (message_list (H := iso_date) true (mkList "conv_2" None None None None) demo_ctx)
    [Event (res CredentialRecord) (CCredentialLookup "cred_1") demo_core (Ok (demo_credential [read_messages]))]
    demo_core (Err (NotFoundError_create "conversation" "conv_2")) ∧
  run eq demo_core (message_send (mkSend "conv_2" "hi" None)) demo_sending demo_core (Ok (mkSent "m2" "conv_2")).
Proof.
  split; [|exact demo_send_run]. eexists _, _, []. by split_and!.
Qed.
