(* ===== verification/InboxActions.v ===== *)
(** * Inbox actions

    [core/src/inbox-actions.ts]: the six actions over the inboxes the signet
    manages, and their links to operators.

    The handlers are programs over the world of [CoreWorld]; [None] as their
    answer is a rejected promise (the mapping store throws on a broken unique
    column).  [zodIssue] is the path and text of the operator schema's first
    issue. *)
From S2P Require Import Prelude JsDate Programs Text Json Errors Ids Scopes Policy Reveal Seals Credentials CredentialSpec Registries CredentialService Contracts CoreStores CoreWorld.
Local Open Scope prog_scope.

Record InboxSummary := mkInbox {
  ib_id : string; ib_networkInboxId : option string; ib_label : option string; ib_groupId : option string;
  ib_createdAt : string; ib_operatorId : option string
}.
Record InboxRemoveResult := mkInboxRemove { ir_executed : bool; ir_actions : list string }.
Record InboxDeps := mkInboxDeps { idp_cleanup : bool }.

Section inbox.
Context (zodIssue : OperatorConfigType → string * string).

(** ** Resolution *)
Definition resolveInbox (idOrLabel : string) : CProg (res AgentIdentity) :=
  if startsWith "inbox_" idOrLabel then
    if negb (resourceIdSchema "inbox_" idOrLabel) then
      Ret (Err (ValidationError_create "inboxId" ("Invalid inbox ID format: " +:+ idOrLabel) None))
    else
      do identity <- called (peek (λ w, is_getById idOrLabel (cw_identities w))) ;;
      Ret (match identity with None => Err (NotFoundError_create "inbox" idOrLabel) | Some i => Ok i end)
  else
    do byLabel <- called (peek (λ w, is_getByLabel idOrLabel (cw_identities w))) ;;
    match byLabel with
    | Some i => Ret (Ok i)
    | None =>
        do byId <- called (peek (λ w, is_getById idOrLabel (cw_identities w))) ;;
        Ret (match byId with None => Err (NotFoundError_create "inbox" idOrLabel) | Some i => Ok i end)
    end.
(** The methods of the operator manager, on the store it keeps. *)
Definition om_store (w : CoreWorld) : OperatorStore := default [] (cw_operators w).
Definition om_list : CProg (list OperatorRecordType) := called (peek (λ w, op_list (om_store w))).
Definition om_lookup (id : string) : CProg (res OperatorRecordType) := called (peek (λ w, op_lookup (om_store w) id)).
Definition update_store (id : string) (ch : OperatorChanges) (w : CoreWorld) : CoreWorld * res OperatorRecordType :=
  let r := op_update zodIssue (om_store w) id ch in (with_operators (Some r.1) w, r.2).
Definition om_update (id : string) (ch : OperatorChanges) : CProg (res OperatorRecordType) := called (update_store id ch).
Definition resolveOperator (operatorId : string) : CProg (res string) :=
  if startsWith "op_" operatorId then
    if negb (resourceIdSchema "op_" operatorId) then
      Ret (Err (ValidationError_create "operatorId" ("Invalid operator ID format: " +:+ operatorId) None))
    else
      ok direct <- om_lookup operatorId ;;
      Ret (if bool_decide (or_status direct = op_removed) then Err (NotFoundError_create "operator" operatorId)
           else Ok (or_id direct))
  else
    do operators <- om_list ;;
    Ret (match filter (λ c, oc_label (or_config c) = operatorId) operators with
         | [] => Err (NotFoundError_create "operator" operatorId)
         | [m] => Ok (or_id m)
         | matches => Err (ValidationError_create "operatorId" "Ambiguous operator label"
                        (Some [("label", JStr operatorId); ("matchingIds", JArr (map (λ c, JStr (or_id c)) matches))]))
         end).

(** ** Links *)
Definition inboxes_of (o : OperatorRecordType) : list string := default [] (oc_inboxIds (or_config o)).
Fixpoint link_inboxes (operatorId : string) (inboxIds : list string) (m : omap string string) : res (omap string string) :=
  match inboxIds with
  | [] => Ok m
  | inboxId :: rest =>
      match truthy_str (om_get inboxId m) with
      | Some existing =>
          if bool_decide (existing ≠ operatorId) then
            Err (ValidationError_create "inboxIds" "Inbox is linked to multiple operators"
              (Some [("inboxId", JStr inboxId); ("operatorIds", JArr [JStr existing; JStr operatorId])]))
          else link_inboxes operatorId rest (om_set inboxId operatorId m)
      | None => link_inboxes operatorId rest (om_set inboxId operatorId m)
      end
  end.
Fixpoint link_operators (operators : list OperatorRecordType) (m : omap string string) : res (omap string string) :=
  match operators with
  | [] => Ok m
  | o :: operators =>
      match link_inboxes (or_id o) (inboxes_of o) m with
      | Err e => Err e
      | Ok m => link_operators operators m
      end
  end.
Definition buildInboxLinkMap : CProg (res (omap string string)) :=
  sync manager <- peek cw_operators ;;
  match manager with
  | None => Ret (Ok [])
  | Some _ => do operators <- om_list ;; Ret (link_operators operators [])
  end.
Definition summarizeInbox (identity : AgentIdentity) (operatorId : option string) : InboxSummary :=
  mkInbox (ai_id identity) (ai_inboxId identity) (ai_label identity) (ai_groupId identity) (ai_createdAt identity) operatorId.
Definition inbox_change (inboxIds : option (list string)) : OperatorChanges :=
  {| och_label := None; och_role := None; och_scopeMode := None; och_provider := None; och_walletId := None;
     och_inboxIds := Some inboxIds; och_operatorDisclosures := None |}.
Definition linkInboxToOperator (operatorId inboxId : string) : CProg (res string) :=
  ok resolved <- resolveOperator operatorId ;;
  ok linkMap <- buildInboxLinkMap ;;
  match om_get inboxId linkMap with
  | Some existing =>
      if bool_decide (existing ≠ resolved) then
        Ret (Err (ValidationError_create "inboxId" "Inbox is already linked to another operator"
               (Some [("inboxId", JStr inboxId); ("operatorId", JStr existing)])))
      else
        ok operator <- om_lookup resolved ;;
        ok updated <- om_update (or_id operator) (inbox_change (Some (set_add (js_set (inboxes_of operator)) inboxId))) ;;
        Ret (Ok (or_id updated))
  | None =>
      ok operator <- om_lookup resolved ;;
      ok updated <- om_update (or_id operator) (inbox_change (Some (set_add (js_set (inboxes_of operator)) inboxId))) ;;
      Ret (Ok (or_id updated))
  end.
Definition unlinkInboxFromOperator (inboxId : string) : CProg (res (option string)) :=
  sync manager <- peek cw_operators ;;
  match manager with
  | None => Ret (Ok None)
  | Some _ =>
      ok linkMap <- buildInboxLinkMap ;;
      match om_get inboxId linkMap with
      | None => Ret (Ok None)
      | Some operatorId =>
          ok operator <- om_lookup operatorId ;;
          let remaining := List.filter (λ c, negb (bool_decide (c = inboxId))) (inboxes_of operator) in
          ok _ <- om_update operatorId (inbox_change (match remaining with [] => None | _ => Some remaining end)) ;;
          Ret (Ok (Some operatorId))
      end
  end.

(** ** The actions *)
Definition no_manager : SignetError :=
  ValidationError_create "operatorId" "Operator linking is unavailable without an operator manager" None.
Definition has_manager (w : CoreWorld) : bool := bool_decide (is_Some (cw_operators w)).
(** [deps.idMappings.set(...)]; [None] when it throws. *)
Definition map_inbox (networkId localId : string) (w : CoreWorld) : CoreWorld * option unit :=
  match cw_idMappings w with
  | None => (w, Some tt)
  | Some m => match im_set networkId localId im_inbox m with
              | Some m' => (with_idMappings (Some m') w, Some tt)
              | None => (w, None)
              end
  end.
Definition finish_create (identityId : string) (operatorId : option string) : CProg (option (res InboxSummary)) :=
  do identity <- called (peek (λ w, is_getById identityId (cw_identities w))) ;;
  Ret (Some (match identity with
             | None => Err (NotFoundError_create "inbox" identityId)
             | Some i => Ok (summarizeInbox i operatorId)
             end)).
Definition inbox_create (label operatorId : option string) : CProg (option (res InboxSummary)) :=
  sync manager <- peek has_manager ;;
  do linked <- (match operatorId with
                | None => Ret (Ok None)
                | Some op => if negb manager then Ret (Err no_manager)
                             else ok id <- resolveOperator op ;; Ret (Ok (Some id))
                end : CProg (res (option string))) ;;
  match linked with
  | Err e => Ret (Some (Err e))
  | Ok linked =>
      await registered <- CRegisterInbox label ;;
      match registered with
      | Err e => Ret (Some (Err e))
      | Ok registered =>
          sync mapped <- map_inbox (ri_inboxId registered) (ri_identityId registered) ;;
          match mapped with
          | None => Ret None
          | Some _ =>
              match linked with
              | None => finish_create (ri_identityId registered) None
              | Some op =>
                  do r <- linkInboxToOperator op (ri_identityId registered) ;;
                  match r with
                  | Err e => Ret (Some (Err e))
                  | Ok op => finish_create (ri_identityId registered) (Some op)
                  end
              end
          end
      end
  end.
Definition inbox_list : CProg (res (list InboxSummary)) :=
  do identities <- called (peek (λ w, is_list (cw_identities w))) ;;
  ok linkMap <- buildInboxLinkMap ;;
  Ret (Ok (map (λ i, summarizeInbox i (om_get (ai_id i) linkMap)) identities)).
Definition inbox_info (inboxId : string) : CProg (res InboxSummary) :=
  ok identity <- resolveInbox inboxId ;;
  ok linkMap <- buildInboxLinkMap ;;
  Ret (Ok (summarizeInbox identity (om_get (ai_id identity) linkMap))).
Definition inbox_link (inboxId operatorId : string) : CProg (res InboxSummary) :=
  sync manager <- peek has_manager ;;
  if negb manager then Ret (Err no_manager)
  else
    ok identity <- resolveInbox inboxId ;;
    ok op <- linkInboxToOperator operatorId (ai_id identity) ;;
    Ret (Ok (summarizeInbox identity (Some op))).
Definition inbox_unlink (inboxId : string) : CProg (res InboxSummary) :=
  ok identity <- resolveInbox inboxId ;;
  ok _ <- unlinkInboxFromOperator (ai_id identity) ;;
  Ret (Ok (summarizeInbox identity None)).
(** The mapping found by the local identifier, or by the network's. *)
Definition find_mapping (identity : AgentIdentity) (w : CoreWorld) : option (string * string) :=
  match cw_idMappings w with
  | None => None
  | Some m =>
      match im_resolve (ai_id identity) m with
      | Some x => Some x
      | None => match truthy_str (ai_inboxId identity) with Some n => im_resolve n m | None => None end
      end
  end.
Definition remove_mapping (id : string) (w : CoreWorld) : CoreWorld * unit :=
  (with_idMappings ((λ m, (im_remove id m).1) <$> cw_idMappings w) w, tt).
Definition remove_row (id : string) (w : CoreWorld) : CoreWorld * res unit :=
  let r := is_remove id (cw_identities w) in (with_identities (λ _, r.1) w, r.2).
Definition planned (identity : AgentIdentity) (operator : option string) (mapping : option (string * string)) : list string :=
  match operator with Some op => ["unlink operator " +:+ op] | None => [] end ++
  ["remove inbox " +:+ ai_id identity] ++
  match mapping with Some _ => ["remove id mapping"] | None => [] end.
Definition rm_execute (identity : AgentIdentity) (mapping : option (string * string)) (actions : list string)
  : CProg (res InboxRemoveResult) :=
  ok _ <- unlinkInboxFromOperator (ai_id identity) ;;
  sync _ <- (λ w, match mapping with Some _ => remove_mapping (ai_id identity) w | None => (w, tt) end) ;;
  ok _ <- called (remove_row (ai_id identity)) ;;
  Ret (Ok (mkInboxRemove true actions)).
Definition inbox_rm (deps : InboxDeps) (inboxId : string) (execute : bool) : CProg (res InboxRemoveResult) :=
  ok identity <- resolveInbox inboxId ;;
  ok linkMap <- buildInboxLinkMap ;;
  sync mapping <- peek (find_mapping identity) ;;
  let actions := planned identity (om_get (ai_id identity) linkMap) mapping in
  ok cleanup <- (if idp_cleanup deps then perform (CCleanupInbox identity execute) else Ret (Ok [])) ;;
  if negb execute then Ret (Ok (mkInboxRemove false (actions ++ cleanup)))
  else rm_execute identity mapping (actions ++ cleanup).
End inbox.

(** ** Links of the store

    [linked]: a listed operator carries the inbox.  [exclusive]: no inbox is
    carried by two. *)
Definition linked (st : OperatorStore) (op inbox : string) : Prop :=
  ∃ r, om_get op st = Some r ∧ or_status r ≠ op_removed ∧ inbox ∈ inboxes_of r.
Definition exclusive (st : OperatorStore) : Prop :=
  ∀ i op op', linked st op i → linked st op' i → op = op'.
(** The operators are stored under their own, non-empty identifiers. *)
Definition store_ok (st : OperatorStore) : Prop := op_inv st ∧ om_get "" st = None.
Lemma op_list_elem st r : op_inv st →
  r ∈ op_list st ↔ om_get (or_id r) st = Some r ∧ or_status r ≠ op_removed.
Proof.
  intros [Hnd Hok]. unfold op_list. rewrite list_elem_of_filter, (and_comm (_ ≠ _)).
  split; intros [H1 H2]; (split; [|done]).
  - apply list_elem_of_fmap in H1 as ([k v] & -> & Hin). apply om_get_NoDup in Hin; [|done].
    cbn in *. by destruct (Hok _ _ Hin) as (-> & _).
  - by apply om_values_In in H1.
Qed.
Lemma linked_list st op i : op_inv st →
  linked st op i ↔ ∃ r, r ∈ op_list st ∧ or_id r = op ∧ i ∈ inboxes_of r.
Proof.
  intros Hinv. unfold linked. setoid_rewrite op_list_elem; [|done]. split.
  - intros (r & Hg & Hs & Hi). destruct (proj2 Hinv _ _ Hg) as [Hid _]. exists r. by rewrite Hid.
  - intros (r & [Hg Hs] & <- & Hi). by exists r.
Qed.

(** The map of the links: exact, or two operators share an inbox. *)
Definition in_map (m : omap string string) (i op : string) : Prop := om_get i m = Some op.
Lemma link_inboxes_spec op l m : op ≠ "" → (∀ i o, in_map m i o → o ≠ "") →
  match link_inboxes op l m with
  | Ok m' => (∀ i o, in_map m' i o ↔ in_map m i o ∨ (o = op ∧ i ∈ l)) ∧ (∀ i, i ∈ l → ∀ o, in_map m i o → o = op)
  | Err _ => ∃ i o, i ∈ l ∧ in_map m i o ∧ o ≠ op
  end.
Proof.
  intros Hop. revert m. induction l as [|i l IH]; intros m Hne; cbn [link_inboxes].
  { split; [|by intros ? ?%not_elem_of_nil]. intros j o. set_solver. }
  assert ((∃ o, in_map m i o ∧ o ≠ op) ∨ ∀ o, in_map m i o → o = op) as [(o & Hm & Ho)|Hall].
  { destruct (om_get i m) as [o|] eqn:Hm; [|right; intros o; unfold in_map; congruence].
    destruct (decide (o = op)) as [->|]; [|by left; exists o].
    right. intros o. unfold in_map. congruence. }
  - specialize (Hne i o Hm) as Hoe. unfold in_map in Hm. rewrite Hm. unfold truthy_str.
    rewrite bool_decide_eq_false_2 by done. cbn. rewrite bool_decide_eq_true_2 by done. set_solver.
  - assert (∀ (a : string → res (omap string string)) b, match truthy_str (om_get i m) with
        | Some existing => if bool_decide (existing ≠ op) then a existing else b | None => b end = b) as Hcase.
    { intros a b. destruct (truthy_str (om_get i m)) as [e|] eqn:He; [|done].
      rewrite bool_decide_eq_false_2; [done|]. intros Hx. apply Hx, Hall. unfold in_map.
      unfold truthy_str in He. destruct (om_get i m); [|done]. by case_bool_decide; simplify_eq. }
    rewrite (Hcase (λ e, Err _)). assert (∀ j o, in_map (om_set i op m) j o ↔ in_map m j o ∨ (o = op ∧ j = i)) as Hset.
    { intros j o. unfold in_map. rewrite om_get_set. case_decide as Hj.
      - subst j. split; [intros [= <-]; by right|]. intros [Hm|[-> _]]; [|done]. f_equal. symmetry. by apply Hall.
      - split; [by left|]. by intros [|[_ ->]]. }
    assert (∀ j o, in_map (om_set i op m) j o → o ≠ "") as Hne'
      by (intros j o [Hm|[-> _]]%Hset; [by eapply Hne|done]).
    specialize (IH _ Hne').
    destruct (link_inboxes op l (om_set i op m)) as [m'|e].
    + destruct IH as [IH1 IH2]. split.
      * intros j o. rewrite IH1, Hset. set_solver.
      * intros j [->|Hj]%elem_of_cons o Ho; [by apply Hall|]. eapply IH2; [done|]. apply Hset. by left.
    + destruct IH as (j & o & Hj & [Hm|[-> _]]%Hset & Ho); [|done]. exists j, o. set_solver.
Qed.

Definition carried (m : omap string string) (l : list OperatorRecordType) (i op : string) : Prop :=
  in_map m i op ∨ ∃ r, r ∈ l ∧ or_id r = op ∧ i ∈ inboxes_of r.
Lemma link_operators_spec l m : (∀ r, r ∈ l → or_id r ≠ "") → (∀ i o, in_map m i o → o ≠ "") →
  match link_operators l m with
  | Ok m' => ∀ i o, in_map m' i o ↔ carried m l i o
  | Err _ => ∃ i o o', o ≠ o' ∧ carried m l i o ∧ carried m l i o'
  end.
Proof.
  revert m. induction l as [|r l IH]; intros m Hl Hne; cbn [link_operators].
  { intros i o. unfold carried. set_solver. }
  pose proof (link_inboxes_spec (or_id r) (inboxes_of r) m (Hl r (list_elem_of_here _ _)) Hne) as H.
  destruct (link_inboxes _ _ _) as [m'|e].
  2: { destruct H as (i & o & Hi & Hm & Ho). exists i, o, (or_id r). split; [done|]. split; [by left|].
       right. exists r. set_solver. }
  destruct H as [H _]. assert (∀ i o, carried m (r :: l) i o ↔ carried m' l i o) as Hc.
  { intros i o. unfold carried. rewrite H. set_solver. }
  assert (∀ i o, in_map m' i o → o ≠ "") as Hne'.
  { intros i o [Hm|[-> _]]%H; [by eapply Hne|apply Hl; by left]. }
  specialize (IH m' (λ r Hr, Hl r (list_elem_of_further _ _ _ Hr)) Hne').
  destruct (link_operators l m') as [m''|e].
  - intros i o. by rewrite Hc.
  - destruct IH as (i & o & o' & Hoo & H1 & H2). exists i, o, o'. by rewrite !Hc.
Qed.
Lemma link_map_spec st : store_ok st →
  match link_operators (op_list st) [] with
  | Ok m => exclusive st ∧ ∀ i op, om_get i m = Some op ↔ linked st op i
  | Err _ => ¬ exclusive st
  end.
Proof.
  intros [Hinv Hempty].
  assert (∀ r, r ∈ op_list st → or_id r ≠ "") as Hne.
  { intros r [Hr _]%op_list_elem Hid; [|done]. rewrite Hid in Hr. congruence. }
  pose proof (link_operators_spec (op_list st) [] Hne ltac:(done)) as H0.
  assert (∀ i op, carried [] (op_list st) i op ↔ linked st op i) as Hc.
  { intros i op. unfold carried, in_map. rewrite linked_list by done. cbn. naive_solver. }
  destruct (link_operators _ _) as [m|e].
  - setoid_rewrite Hc in H0. split; [|done]. intros i o o' Ho%H0 Ho'%H0. unfold in_map in *. congruence.
  - destruct H0 as (i & o & o' & Hoo & Ho%Hc & Ho'%Hc). intros Hx. by apply Hoo, (Hx i).
Qed.

(** Replacing the inboxes of one operator. *)
Lemma set_links st id r l : op_inv st → om_get id st = Some r → or_status r ≠ op_removed →
  ∀ c, default [] (oc_inboxIds c) = l →
  ∀ o i, linked (om_set id (with_config r c) st) o i ↔ (o = id ∧ i ∈ l) ∨ (o ≠ id ∧ linked st o i).
Proof.
  intros Hinv Hr Hs c Hc o i. unfold linked. rewrite om_get_set. case_decide as Ho.
  - subst o. unfold inboxes_of. split.
    + intros (r' & [= <-] & _ & Hi). left. cbn in Hi. by rewrite Hc in Hi.
    + intros [[_ Hi]|[? _]]; [|done]. eexists. split_and!; [done|done|]. cbn. by rewrite Hc.
  - naive_solver.
Qed.

(** ** What linking and unlinking make of a store *)
Definition inbox_ids_valid (l : list string) : bool := forallb (resourceIdSchema (RESOURCE_PREFIXES rt_inbox)) l.
(** The operator that a name stands for. *)
Definition names (st : OperatorStore) (s id : string) : Prop :=
  if startsWith "op_" s then resourceIdSchema "op_" s = true ∧ id = s ∧ ∃ r, om_get s st = Some r ∧ or_status r ≠ op_removed
  else ∃ r, the_only (λ r, oc_label (or_config r)) s (op_list st) r ∧ or_id r = id.
Definition link_post (st : OperatorStore) (op i : string) (st' : OperatorStore) (r : res string) : Prop :=
  match r with
  | Ok id => names st op id ∧ store_ok st' ∧ exclusive st' ∧ ∀ o j, linked st' o j ↔ linked st o j ∨ (o = id ∧ j = i)
  | Err _ => st' = st ∧
      ((∀ id, ¬ names st op id) ∨ ¬ exclusive st ∨ (∃ id o, names st op id ∧ linked st o i ∧ o ≠ id) ∨
       inbox_ids_valid [i] = false)
  end.
Definition unlink_post (st : OperatorStore) (i : string) (st' : OperatorStore) (r : res (option string)) : Prop :=
  match r with
  | Ok (Some op) => linked st op i ∧ store_ok st' ∧ exclusive st' ∧ ∀ o j, linked st' o j ↔ linked st o j ∧ j ≠ i
  | Ok None => st' = st ∧ exclusive st ∧ ∀ op, ¬ linked st op i
  | Err _ => st' = st ∧ ¬ exclusive st
  end.
Section stores.
Context (zodIssue : OperatorConfigType → string * string).
Lemma update_inboxes st id r v : store_ok st → om_get id st = Some r → or_status r ≠ op_removed →
  let c := merge_operator (or_config r) (inbox_change v) in
  if inbox_ids_valid (default [] v) then
    ∃ st', op_update zodIssue st id (inbox_change v) = (st', Ok (with_config r c)) ∧ store_ok st' ∧
      ∀ o i, linked st' o i ↔ (o = id ∧ i ∈ default [] v) ∨ (o ≠ id ∧ linked st o i)
  else ∃ e, op_update zodIssue st id (inbox_change v) = (st, Err e).
Proof.
  intros [Hinv Hempty] Hr Hs c. pose proof (proj2 Hinv _ _ Hr) as (_ & _ & Hcfg & _).
  pose proof (op_step_inv _ _ _ (os_update zodIssue st id (inbox_change v)) Hinv) as Hinv'.
  unfold op_update in *. rewrite Hr in *. cbn [bool_decide och_role inbox_change] in *. fold c in Hinv' |- *.
  rewrite bool_decide_eq_false_2 in * by done. unfold op_validateConfig in *.
  assert (OperatorConfig c = inbox_ids_valid (default [] v)) as Hv.
  { unfold OperatorConfig in Hcfg |- *. apply andb_true_iff in Hcfg as [Hl _]. cbn. by rewrite Hl. }
  rewrite Hv in *. destruct (inbox_ids_valid _); [|by eexists].
  eexists. split; [done|]. split; [|by apply set_links].
  split; [done|]. rewrite om_get_set_ne; [done|]. intros ->. congruence.
Qed.
Lemma links_valid st id r : store_ok st → om_get id st = Some r → inbox_ids_valid (inboxes_of r) = true.
Proof.
  intros [Hinv _] Hr. destruct (proj2 Hinv _ _ Hr) as (_ & _ & Hcfg & _).
  unfold OperatorConfig in Hcfg. by apply andb_true_iff in Hcfg as [_ ?].
Qed.
Lemma names_record st s id : store_ok st → names st s id → ∃ r, om_get id st = Some r ∧ or_status r ≠ op_removed ∧ or_id r = id.
Proof.
  intros [Hinv _] Hn. unfold names in Hn. destruct (startsWith "op_" s).
  - destruct Hn as (_ & -> & r & Hr & Hs). exists r. destruct (proj2 Hinv _ _ Hr) as [-> _]. done.
  - destruct Hn as (r & (l1 & l2 & Hl & _) & <-). exists r.
    assert (r ∈ op_list st) as Hin by (rewrite Hl; set_solver). by apply op_list_elem in Hin as [? ?].
Qed.
End stores.

(** ** Runs

    The environment leaves the operators, the identities and the mappings
    alone; [answers P p w]: [p], from [w], performs nothing but ticks and ends
    in a world and with an answer that satisfy [P]. *)
Definition stores (w : CoreWorld) : IdentityTable * option IdMappings * option OperatorStore :=
  (cw_identities w, cw_idMappings w, cw_operators w).
Definition stores_kept (w w' : CoreWorld) : Prop := stores w' = stores w.
Section runs.
Context (zodIssue : OperatorConfigType → string * string) (env : CoreWorld → CoreWorld → Prop)
  (Henv : ∀ w w', env w w' → stores_kept w w').
Definition answers {A} (P : CoreWorld → A → Prop) (p : CProg A) (w : CoreWorld) : Prop :=
  ∀ pre Q, (∀ t w1 r, Forall (λ ev, no_effect ev = true) t → P w1 r → Q (pre ++ t) w1 r) → wp env p w pre Q.
Lemma answers_ret {A} (P : CoreWorld → A → Prop) a w : P w a → answers P (Ret a) w.
Proof. intros HP pre Q HQ. cbn. rewrite <-(app_nil_r pre). by apply HQ. Qed.
Lemma answers_mono {A} (P P' : CoreWorld → A → Prop) p w :
  (∀ w1 a, P w1 a → P' w1 a) → answers P p w → answers P' p w.
Proof. intros HP Hp pre Q HQ. apply Hp. auto. Qed.
Lemma answers_bind {A B} (P : CoreWorld → A → Prop) (P' : CoreWorld → B → Prop) p k w :
  answers P p w → (∀ w1 a, P w1 a → answers P' (k a) w1) → answers P' (bind p k) w.
Proof.
  intros Hp Hk pre Q HQ. apply wp_bind, Hp. intros t w1 a Ht HP. apply (Hk w1 a HP).
  intros t2 w2 r Ht2 HP2. rewrite <-app_assoc. apply HQ; [by apply Forall_app|done].
Qed.
Lemma answers_bind_ok {A B} (P : CoreWorld → res A → Prop) (P' : CoreWorld → res B → Prop) p k w :
  answers P p w → (∀ w1 a, P w1 (Ok a) → answers P' (k a) w1) → (∀ w1 e, P w1 (Err e) → P' w1 (Err e)) →
  answers P' (bind_ok p k) w.
Proof.
  intros Hp Hk He. eapply answers_bind; [exact Hp|]. intros w1 [a|e] HP; [by apply Hk|].
  by apply answers_ret, He.
Qed.
Lemma answers_called {A} (f : CoreWorld → CoreWorld * A) w :
  answers (λ w1 a, stores w1 = stores (f w).1 ∧ a = (f w).2) (called f) w.
Proof.
  intros pre Q HQ. cbn. intros w' [] Hw. apply (HQ [_]); [by repeat constructor|]. by split; [apply Henv|].
Qed.
Lemma answers_peek {A} (f : CoreWorld → A) w :
  answers (λ w1 a, stores w1 = stores w ∧ a = f w) (called (peek f)) w.
Proof. exact (answers_called (peek f) w). Qed.
Lemma stores_eq w w' : stores w' = stores w →
  cw_identities w' = cw_identities w ∧ cw_idMappings w' = cw_idMappings w ∧ cw_operators w' = cw_operators w.
Proof. by intros [= -> -> ->]. Qed.

(** *** The pieces *)
Definition pick_inbox (s : string) (t : IdentityTable) : option AgentIdentity :=
  if startsWith "inbox_" s then if resourceIdSchema "inbox_" s then is_getById s t else None
  else match is_getByLabel s t with Some i => Some i | None => is_getById s t end.
Definition pick_post (w : CoreWorld) (s : string) (w1 : CoreWorld) (r : res AgentIdentity) : Prop :=
  stores w1 = stores w ∧
  match r with Ok i => pick_inbox s (cw_identities w) = Some i | Err _ => pick_inbox s (cw_identities w) = None end.
Lemma resolveInbox_answers s w : answers (pick_post w s) (resolveInbox s) w.
Proof.
  unfold resolveInbox, pick_post, pick_inbox. destruct (startsWith _ _).
  - destruct (resourceIdSchema _ _); cbn [negb]; [|by apply answers_ret].
    eapply answers_bind; [apply answers_peek|]. intros w1 a [Hw ->]. apply answers_ret. split; [done|].
    by destruct (is_getById s _).
  - eapply answers_bind; [apply answers_peek|]. intros w1 a [Hw ->].
    destruct (is_getByLabel s _) as [i|] eqn:Hl; [by apply answers_ret|].
    eapply answers_bind; [apply answers_peek|]. intros w2 a [Hw2 ->]. apply answers_ret.
    split; [by rewrite Hw2|]. destruct (stores_eq _ _ Hw) as (-> & _). by destruct (is_getById s _).
Qed.
Lemma decided {A} (N : A → Prop) (r : res A) : (∀ a, r = Ok a ↔ N a) →
  match r with Ok a => N a | Err _ => ∀ a, ¬ N a end.
Proof. intros H. destruct r as [a|e]; [by apply H|]. intros a. by rewrite <-H. Qed.
Lemma resolveOperator_answers st s w : store_ok st → cw_operators w = Some st →
  answers (λ w1 r, stores w1 = stores w ∧
    match r with Ok id => names st s id | Err _ => ∀ id, ¬ names st s id end) (resolveOperator s) w.
Proof.
  intros [Hinv _] Hop. unfold resolveOperator, names. destruct (startsWith "op_" s).
  - destruct (resourceIdSchema "op_" s) eqn:Hs; cbn [negb]; [|apply answers_ret; split; [done|by intros id [? _]]].
    eapply answers_bind; [apply answers_peek|]. intros w1 a [Hw ->]. unfold om_store. rewrite Hop. cbn.
    unfold op_lookup. destruct (om_get s st) as [r|] eqn:Hr.
    + destruct (proj2 Hinv _ _ Hr) as [Hid _].
      apply answers_ret. split; [done|]. case_bool_decide.
      * by intros id (_ & _ & r' & [= <-] & ?).
      * split_and!; [done|done|by exists r].
    + apply answers_ret. split; [done|]. by intros id (_ & _ & r & ? & _).
  - eapply answers_bind; [apply answers_peek|]. intros w1 a [Hw ->]. unfold om_store. rewrite Hop. cbn [default].
    apply answers_ret. split; [done|].
    apply decided. intros id. exact (resolve_by_label (λ r, oc_label (or_config r)) or_id s (op_list st) id
      (NotFoundError_create "operator" s)
      (λ ops, ValidationError_create "operatorId" "Ambiguous operator label"
            (Some [("label", JStr s); ("matchingIds", JArr (map (λ op, JStr (or_id op)) ops))]))).
Qed.
Lemma buildInboxLinkMap_answers st w : store_ok st → cw_operators w = Some st →
  answers (λ w1 r, stores w1 = stores w ∧
    match r with
    | Ok m => exclusive st ∧ ∀ i op, om_get i m = Some op ↔ linked st op i
    | Err _ => ¬ exclusive st
    end) buildInboxLinkMap w.
Proof.
  intros Hst Hop pre Q HQ. unfold buildInboxLinkMap. cbn [wp peek fst snd]. rewrite Hop.
  revert pre Q HQ. eapply answers_bind; [apply answers_peek|]. intros w1 a [Hw ->]. unfold om_store. rewrite Hop.
  apply answers_ret. split; [done|]. cbn. pose proof (link_map_spec st Hst) as H.
  by destruct (link_operators _ _).
Qed.
(** The operators end as [P] says; the rest of the stores stays. *)
Definition moved {A} (w : CoreWorld) (P : OperatorStore → A → Prop) (w1 : CoreWorld) (r : A) : Prop :=
  ∃ st', stores w1 = (cw_identities w, cw_idMappings w, Some st') ∧ P st' r.
Lemma stores_op w w1 st : stores w1 = stores w → cw_operators w = Some st → cw_operators w1 = Some st.
Proof. intros [= _ _ ->]. done. Qed.
Lemma moved_kept {A} w (P : OperatorStore → A → Prop) w1 r st :
  stores w1 = stores w → cw_operators w = Some st → P st r → moved w P w1 r.
Proof. intros Hw Hop HP. exists st. split; [|done]. rewrite Hw. unfold stores. by rewrite Hop. Qed.
Lemma lookup_answers st id w : cw_operators w = Some st →
  answers (λ w1 r, stores w1 = stores w ∧ r = op_lookup st id) (om_lookup id) w.
Proof.
  intros Hop. eapply answers_mono; [|apply answers_peek]. cbn. intros w1 r [Hw ->]. split; [done|].
  unfold om_store. by rewrite Hop.
Qed.
Lemma update_answers st id ch w : cw_operators w = Some st →
  answers (λ w1 r, stores w1 = (cw_identities w, cw_idMappings w, Some (op_update zodIssue st id ch).1) ∧
    r = (op_update zodIssue st id ch).2) (om_update zodIssue id ch) w.
Proof.
  intros Hop. eapply answers_mono; [|apply answers_called]. cbn. intros w1 r [Hw ->].
  unfold om_store in *. rewrite Hop in *. done.
Qed.
(** The end of a link: the operator's inboxes and the new one. *)
Lemma add_answers st op id i w :
  store_ok st → cw_operators w = Some st → names st op id → exclusive st → (∀ o, linked st o i → o = id) →
  answers (moved w (link_post st op i))
    (ok operator <- om_lookup id ;;
     ok updated <- om_update zodIssue (or_id operator) (inbox_change (Some (set_add (js_set (inboxes_of operator)) i))) ;;
     Ret (Ok (or_id updated))) w.
Proof.
  intros Hst Hop Hn Hx Hi. destruct (names_record _ _ _ Hst Hn) as (r & Hr & Hs & Hid).
  eapply answers_bind_ok; [by apply lookup_answers| |]; unfold op_lookup; rewrite Hr; [|by intros ? ? [_ ?]].
  intros w1 ? [Hw [= ->]]. pose proof (stores_op _ _ _ Hw Hop) as Hop1. rewrite Hid.
  assert (∀ j, j ∈ set_add (js_set (inboxes_of r)) i ↔ j ∈ inboxes_of r ∨ j = i) as Hl.
  { intros j. rewrite elem_of_set_add, elem_of_js_set. tauto. }
  pose proof (update_inboxes zodIssue st id r (Some (set_add (js_set (inboxes_of r)) i)) Hst Hr Hs) as Hup.
  cbn [default] in Hup. eapply answers_bind_ok; [by apply update_answers| |].
  - intros w2 u [Hw2 Hu]. apply answers_ret. destruct (inbox_ids_valid _); cycle 1.
    { destruct Hup as [e He]. by rewrite He in Hu. }
    destruct Hup as (st' & He & Hst' & Hlk). rewrite He in Hw2, Hu. injection Hu as ->. cbn [or_id with_config].
    exists st'. split; [by rewrite Hw2; destruct (stores_eq _ _ Hw) as (-> & -> & _)|].
    assert (∀ o j, linked st' o j ↔ linked st o j ∨ o = id ∧ j = i) as Hlk'.
    { intros o j. rewrite Hlk, Hl. assert (linked st id j ↔ j ∈ inboxes_of r) as Hj.
      { unfold linked. rewrite Hr. naive_solver. }
      destruct (decide (o = id)) as [->|]; naive_solver. }
    rewrite Hid. split_and!; [done|done| |done]. intros j o o'. rewrite !Hlk'. naive_solver.
  - intros w2 e [Hw2 He]. destruct (inbox_ids_valid _) eqn:Hv.
    { destruct Hup as (st' & Hup & _). by rewrite Hup in He. }
    destruct Hup as [e' Hup]. rewrite Hup in Hw2. exists st. split.
    { by rewrite Hw2; destruct (stores_eq _ _ Hw) as (-> & -> & _). }
    split; [done|]. do 3 right. destruct (inbox_ids_valid [i]) eqn:Hvi; [|done].
    pose proof (links_valid _ _ _ Hst Hr) as Hvr. unfold inbox_ids_valid in *.
    rewrite <-Hv. symmetry. apply forallb_forall. intros j Hj%list_elem_of_In%Hl.
    rewrite forallb_forall in Hvr, Hvi. destruct Hj as [Hj| ->]; [by apply Hvr, list_elem_of_In|]. apply Hvi. by left.
Qed.
Lemma link_answers st op i w : store_ok st → cw_operators w = Some st →
  answers (moved w (link_post st op i)) (linkInboxToOperator zodIssue op i) w.
Proof.
  intros Hst Hop. eapply answers_bind_ok; [by apply resolveOperator_answers| |].
  2: { intros w1 e [Hw Hn]. eapply moved_kept; [done..|]. split; [done|]. by left. }
  intros w1 id [Hw Hn]. pose proof (stores_op _ _ _ Hw Hop) as Hop1.
  eapply answers_bind_ok; [by apply (buildInboxLinkMap_answers st)| |].
  2: { intros w2 e [Hw2 Hx]. eapply moved_kept; [by etrans|done|]. split; [done|]. by right; left. }
  intros w2 m [Hw2 [Hx Hm]]. pose proof (stores_op _ _ _ Hw2 Hop1) as Hop2. rewrite Hw in Hw2.
  destruct (stores_eq _ _ Hw2) as (E1 & E2 & _).
  assert (∀ P : CProg (res string), answers (moved w2 (link_post st op i)) P w2 →
    answers (moved w (link_post st op i)) P w2) as Hmv.
  { intros P. apply answers_mono. intros w3 a (st' & Hs & HP). exists st'. by rewrite Hs, E1, E2. }
  destruct (om_get i m) as [o|] eqn:Hi.
  - apply Hm in Hi. case_bool_decide as Ho.
    + apply answers_ret. eapply moved_kept; [done..|]. split; [done|]. right; right; left. by exists id, o.
    + assert (o = id) as -> by (by destruct (decide (o = id))).
      apply Hmv, add_answers; [done..|]. intros o' Ho'. by apply (Hx i).
  - apply Hmv, add_answers; [done..|]. intros o Ho%Hm. congruence.
Qed.
Lemma unlink_answers st i w : store_ok st → cw_operators w = Some st →
  answers (moved w (unlink_post st i)) (unlinkInboxFromOperator zodIssue i) w.
Proof.
  intros Hst Hop pre Q HQ. unfold unlinkInboxFromOperator. cbn [wp peek fst snd]. rewrite Hop.
  revert pre Q HQ. eapply answers_bind_ok; [by apply (buildInboxLinkMap_answers st)| |].
  2: { intros w2 e [Hw2 Hx]. by eapply moved_kept. }
  intros w1 m [Hw [Hx Hm]]. pose proof (stores_op _ _ _ Hw Hop) as Hop1.
  destruct (om_get i m) as [op|] eqn:Hi.
  2: { apply answers_ret. eapply moved_kept; [done..|]. split_and!; [done..|]. intros op Ho%Hm. congruence. }
  apply Hm in Hi. pose proof Hi as (r & Hr & Hs & Hir).
  eapply answers_bind_ok; [by apply lookup_answers| |]; unfold op_lookup; rewrite Hr; [|by intros ? ? [_ ?]].
  intros w2 ? [Hw2 [= ->]]. pose proof (stores_op _ _ _ Hw2 Hop1) as Hop2. rewrite Hw in Hw2.
  set (remaining := List.filter (λ c, negb (bool_decide (c = i))) (inboxes_of r)).
  set (v := match remaining with [] => None | _ => Some remaining end).
  assert (default [] v = remaining) as Hdef by (unfold v; by destruct remaining).
  assert (∀ j, j ∈ remaining ↔ j ∈ inboxes_of r ∧ j ≠ i) as Hl.
  { intros j. unfold remaining. by rewrite elem_of_lfilter, negb_true_iff, bool_decide_eq_false. }
  pose proof (update_inboxes zodIssue st op r v Hst Hr Hs) as Hup.
  assert (inbox_ids_valid (default [] v) = true) as Hv.
  { pose proof (links_valid _ _ _ Hst Hr) as Hvr. unfold inbox_ids_valid in *. rewrite Hdef.
    rewrite forallb_forall in Hvr |- *. intros j [Hj _]%list_elem_of_In%Hl. by apply Hvr, list_elem_of_In. }
  rewrite Hv in Hup. destruct Hup as (st' & He & Hst' & Hlk).
  eapply answers_bind_ok; [by apply update_answers| |]; rewrite He; [|by intros ? ? [_ ?]].
  intros w3 u [Hw3 _]. apply answers_ret. exists st'.
  split; [by rewrite Hw3; destruct (stores_eq _ _ Hw2) as (-> & -> & _)|].
  assert (∀ o j, linked st' o j ↔ linked st o j ∧ j ≠ i) as Hlk'.
  { intros o j. rewrite Hlk, Hdef, Hl. assert (linked st op j ↔ j ∈ inboxes_of r) as Hj.
    { unfold linked. rewrite Hr. naive_solver. }
    destruct (decide (o = op)) as [->|Ho]; [naive_solver|]. split; [|naive_solver].
    intros [[? _]|[_ Hoj]]; [done|]. split; [done|]. intros ->. by apply Ho, (Hx i). }
  split_and!; [done|done| |done]. intros j o o'. rewrite !Hlk'. naive_solver.
Qed.

(** ** The actions' promises *)
Definition summary_of (st : OperatorStore) (i : AgentIdentity) (s : InboxSummary) : Prop :=
  s = summarizeInbox i (ib_operatorId s) ∧ ∀ o, ib_operatorId s = Some o ↔ linked st o (ai_id i).
Definition action_link_post (w : CoreWorld) (st : OperatorStore) (inboxId op : string) (st' : OperatorStore)
  (r : res InboxSummary) : Prop :=
  match pick_inbox inboxId (cw_identities w) with
  | None => st' = st ∧ ∃ e, r = Err e
  | Some i => ∃ x, link_post st op (ai_id i) st' x ∧
      match x, r with Ok id, Ok s => s = summarizeInbox i (Some id) | Err e, Err e' => e' = e | _, _ => False end
  end.
Definition action_unlink_post (w : CoreWorld) (st : OperatorStore) (inboxId : string) (st' : OperatorStore)
  (r : res InboxSummary) : Prop :=
  match pick_inbox inboxId (cw_identities w), r with
  | None, r => st' = st ∧ ∃ e, r = Err e
  | Some i, Ok s => s = summarizeInbox i None ∧ exclusive st' ∧ ∀ o j, linked st' o j ↔ linked st o j ∧ j ≠ ai_id i
  | Some i, Err _ => st' = st ∧ ¬ exclusive st
  end.
Definition action_list_post (w : CoreWorld) (st : OperatorStore) (r : res (list InboxSummary)) : Prop :=
  match r with
  | Ok l => exclusive st ∧ Forall2 (summary_of st) (is_list (cw_identities w)) l
  | Err _ => ¬ exclusive st
  end.
Definition action_info_post (w : CoreWorld) (st : OperatorStore) (inboxId : string) (r : res InboxSummary) : Prop :=
  match pick_inbox inboxId (cw_identities w), r with
  | Some i, Ok s => exclusive st ∧ summary_of st i s
  | Some _, Err _ => ¬ exclusive st
  | None, r => isOk r = false
  end.
(** Without an operator manager. *)
Definition unlinked_post (w : CoreWorld) (inboxId : string) (r : res InboxSummary) : Prop :=
  match pick_inbox inboxId (cw_identities w) with
  | Some i => r = Ok (summarizeInbox i None)
  | None => isOk r = false
  end.
Lemma pick_dec s w i : pick_inbox s (cw_identities w) = Some i → ∀ w1, stores w1 = stores w →
  pick_inbox s (cw_identities w1) = Some i.
Proof. intros Hp w1 Hw. by destruct (stores_eq _ _ Hw) as (-> & _). Qed.
Lemma moved_later {A} (w w1 : CoreWorld) (P : OperatorStore → A → Prop) w2 a :
  stores w1 = stores w → moved w1 P w2 a → moved w P w2 a.
Proof. intros Hw (st' & Hs & HP). exists st'. destruct (stores_eq _ _ Hw) as (E1 & E2 & _). by rewrite Hs, E1, E2. Qed.
Lemma moved_eq {A} w (P P' : OperatorStore → A → Prop) w1 a :
  (∀ st', P st' a → P' st' a) → moved w P w1 a → moved w P' w1 a.
Proof. intros HP (st' & Hs & H). exists st'. auto. Qed.
Lemma inbox_link_answers st inboxId op w : store_ok st → cw_operators w = Some st →
  answers (moved w (action_link_post w st inboxId op)) (inbox_link zodIssue inboxId op) w.
Proof.
  intros Hst Hop pre Q HQ. unfold inbox_link, has_manager. cbn [wp peek fst snd]. rewrite Hop.
  rewrite bool_decide_eq_true_2 by (by eexists). cbn [negb]. revert pre Q HQ.
  eapply answers_bind_ok; [apply resolveInbox_answers| |]; unfold action_link_post.
  2: { intros w1 e [Hw ->]. eapply moved_kept; [done..|]. split; [done|]. by eexists. }
  intros w1 i [Hw Hp]. rewrite Hp. eapply answers_bind_ok; [apply link_answers; [done|by eapply stores_op]| |].
  - intros w2 id Hm. apply answers_ret. apply (moved_later w w1) in Hm; [|done].
    destruct Hm as (st' & Hs & HP). exists st'. split; [done|]. by exists (Ok id).
  - intros w2 e Hm. apply (moved_later w w1) in Hm; [|done].
    destruct Hm as (st' & Hs & HP). exists st'. split; [done|]. by exists (Err e).
Qed.
Lemma unlink_links st i st' x : unlink_post st i st' (Ok x) → store_ok st →
  store_ok st' ∧ exclusive st' ∧ ∀ o j, linked st' o j ↔ linked st o j ∧ j ≠ i.
Proof.
  destruct x as [op|]; cbn; [naive_solver|]. intros (-> & Hx & Hi) Hst. split_and!; [done..|].
  intros o j. split; [|naive_solver]. intros Hl. split; [done|]. intros ->. by destruct (Hi o).
Qed.
Lemma inbox_unlink_answers st inboxId w : store_ok st → cw_operators w = Some st →
  answers (moved w (action_unlink_post w st inboxId)) (inbox_unlink zodIssue inboxId) w.
Proof.
  intros Hst Hop. unfold inbox_unlink.
  eapply answers_bind_ok; [apply resolveInbox_answers| |]; unfold action_unlink_post.
  2: { intros w1 e [Hw ->]. eapply moved_kept; [done..|]. split; [done|]. by eexists. }
  intros w1 i [Hw Hp]. rewrite Hp. eapply answers_bind_ok; [apply unlink_answers; [done|by eapply stores_op]| |].
  - intros w2 x Hm. apply answers_ret. apply (moved_later w w1) in Hm; [|done].
    destruct Hm as (st' & Hs & HP). exists st'. split; [done|]. split; [done|]. by apply unlink_links in HP as [_ ?].
  - intros w2 e Hm. by apply (moved_later w w1) in Hm.
Qed.
Lemma summary_exact st m i : (∀ j o, om_get j m = Some o ↔ linked st o j) →
  summary_of st i (summarizeInbox i (om_get (ai_id i) m)).
Proof. intros Hm. split; [done|]. intros o. apply Hm. Qed.
Lemma inbox_list_answers st w : store_ok st → cw_operators w = Some st →
  answers (λ w1 r, stores w1 = stores w ∧ action_list_post w st r) inbox_list w.
Proof.
  intros Hst Hop. unfold inbox_list. eapply answers_bind; [apply answers_peek|]. intros w1 ids [Hw ->].
  eapply answers_bind_ok; [apply (buildInboxLinkMap_answers st); [done|by eapply stores_op]| |].
  - intros w2 m [Hw2 [Hx Hm]]. apply answers_ret. split; [by etrans|]. split; [done|].
    apply Forall2_fmap_r, Forall_Forall2_diag, Forall_forall. intros i _. by apply summary_exact.
  - intros w2 e [Hw2 Hx]. split; [by etrans|done].
Qed.
Lemma inbox_info_answers st inboxId w : store_ok st → cw_operators w = Some st →
  answers (λ w1 r, stores w1 = stores w ∧ action_info_post w st inboxId r) (inbox_info inboxId) w.
Proof.
  intros Hst Hop. unfold inbox_info, action_info_post. eapply answers_bind_ok; [apply resolveInbox_answers| |].
  2: { intros w1 e [Hw ->]. by split. }
  intros w1 i [Hw ->]. eapply answers_bind_ok; [apply (buildInboxLinkMap_answers st); [done|by eapply stores_op]| |].
  - intros w2 m [Hw2 [Hx Hm]]. apply answers_ret. split; [by etrans|]. split; [done|by apply summary_exact].
  - intros w2 e [Hw2 Hx]. by split; [etrans|].
Qed.
(** Without an operator manager there are no links. *)
Lemma no_links_answers w : cw_operators w = None →
  answers (λ w1 r, stores w1 = stores w ∧ r = Ok []) buildInboxLinkMap w.
Proof.
  intros Hop pre Q HQ. unfold buildInboxLinkMap. cbn [wp peek fst snd]. rewrite Hop. revert pre Q HQ. by apply answers_ret.
Qed.
Lemma unlink_none_answers i w : cw_operators w = None →
  answers (λ w1 r, stores w1 = stores w ∧ r = Ok None) (unlinkInboxFromOperator zodIssue i) w.
Proof.
  intros Hop pre Q HQ. unfold unlinkInboxFromOperator. cbn [wp peek fst snd]. rewrite Hop. revert pre Q HQ. by apply answers_ret.
Qed.
Lemma stores_none w w1 : stores w1 = stores w → cw_operators w = None → cw_operators w1 = None.
Proof. intros [= _ _ ->]. done. Qed.
Lemma absent_answers inboxId op w : cw_operators w = None →
  answers (λ w1 r, stores w1 = stores w ∧ r = Err no_manager) (inbox_link zodIssue inboxId op) w ∧
  answers (λ w1 r, stores w1 = stores w ∧ unlinked_post w inboxId r) (inbox_unlink zodIssue inboxId) w ∧
  answers (λ w1 r, stores w1 = stores w ∧ r = Ok (map (λ i, summarizeInbox i None) (is_list (cw_identities w)))) inbox_list w ∧
  answers (λ w1 r, stores w1 = stores w ∧ unlinked_post w inboxId r) (inbox_info inboxId) w.
Proof.
  intros Hop. split_and!; unfold unlinked_post.
  - intros pre Q HQ. unfold inbox_link, has_manager. cbn [wp peek fst snd]. rewrite Hop. revert pre Q HQ. by apply answers_ret.
  - unfold inbox_unlink. eapply answers_bind_ok; [apply resolveInbox_answers| |]; [|by intros w1 e [Hw ->]].
    intros w1 i [Hw ->]. eapply answers_bind_ok; [by apply unlink_none_answers, (stores_none w)| |]; [|by intros w2 e [? ?]].
    intros w2 x [Hw2 _]. apply answers_ret. split; [by etrans|done].
  - unfold inbox_list. eapply answers_bind; [apply answers_peek|]. intros w1 ids [Hw ->].
    eapply answers_bind_ok; [by apply no_links_answers, (stores_none w)| |]; [|by intros w2 e [? ?]].
    intros w2 m [Hw2 [= ->]]. apply answers_ret. split; [by etrans|done].
  - unfold inbox_info. eapply answers_bind_ok; [apply resolveInbox_answers| |]; [|by intros w1 e [Hw ->]].
    intros w1 i [Hw ->]. eapply answers_bind_ok; [by apply no_links_answers, (stores_none w)| |]; [|by intros w2 e [? ?]].
    intros w2 m [Hw2 [= ->]]. apply answers_ret. split; [by etrans|done].
Qed.
Lemma answers_run {A} (P : CoreWorld → A → Prop) p w t w' r : answers P p w → run env w p t w' r → P w' r.
Proof.
  intros Hp Hr. refine (wp_run env p w [] (λ _ w1 r, P w1 r) t w' r _ Hr). apply Hp. auto.
Qed.

(** C28: the links between inboxes and operators, while nothing else writes the
    stores.  With an operator manager, [inbox.link] that answers has added
    exactly the link it reports and the links are exclusive (no inbox with two
    operators), and it fails exactly when the inbox or the operator does not
    resolve, an inbox already has two operators, the inbox has another
    operator, or its identifier is not an inbox identifier, and then no link
    changes; [inbox.unlink] removes exactly the links of its inbox, and fails
    only when the inbox does not resolve or the links are not exclusive;
    [inbox.list] answers, when the links are exclusive and only then, every
    inbox in order with the one operator that carries it; and [inbox.info]
    answers, when the inbox resolves and the links are exclusive and only then,
    the same of that inbox.  Without an operator manager [inbox.link] always
    fails, the others treat every inbox as unlinked and fail only when the
    inbox does not resolve, and no store changes. *)
Theorem inbox_links_exact w t w' :
  (∀ st, store_ok st → cw_operators w = Some st →
    (∀ inboxId op r, run env w (inbox_link zodIssue inboxId op) t w' r →
       moved w (action_link_post w st inboxId op) w' r) ∧
    (∀ inboxId r, run env w (inbox_unlink zodIssue inboxId) t w' r →
       moved w (action_unlink_post w st inboxId) w' r) ∧
    (∀ r, run env w inbox_list t w' r → stores w' = stores w ∧ action_list_post w st r) ∧
    (∀ inboxId r, run env w (inbox_info inboxId) t w' r → stores w' = stores w ∧ action_info_post w st inboxId r)) ∧
  (cw_operators w = None →
    (∀ inboxId op r, run env w (inbox_link zodIssue inboxId op) t w' r → stores w' = stores w ∧ r = Err no_manager) ∧
    (∀ inboxId r, run env w (inbox_unlink zodIssue inboxId) t w' r → stores w' = stores w ∧ unlinked_post w inboxId r) ∧
    (∀ r, run env w inbox_list t w' r → stores w' = stores w ∧
       r = Ok (map (λ i, summarizeInbox i None) (is_list (cw_identities w)))) ∧
    (∀ inboxId r, run env w (inbox_info inboxId) t w' r → stores w' = stores w ∧ unlinked_post w inboxId r)).
Proof.
  split.
  - intros st Hst Hop. split_and!.
    + intros inboxId op r. by apply answers_run, inbox_link_answers.
    + intros inboxId r. by apply answers_run, inbox_unlink_answers.
    + intros r. exact (answers_run _ _ _ _ _ _ (inbox_list_answers st w Hst Hop)).
    + intros inboxId r. exact (answers_run _ _ _ _ _ _ (inbox_info_answers st inboxId w Hst Hop)).
  - intros Hop. split_and!.
    + intros inboxId op r. exact (answers_run _ _ _ _ _ _ (proj1 (absent_answers inboxId op w Hop))).
    + intros inboxId r. exact (answers_run _ _ _ _ _ _ (proj1 (proj2 (absent_answers inboxId "" w Hop)))).
    + intros r. exact (answers_run _ _ _ _ _ _ (proj1 (proj2 (proj2 (absent_answers "" "" w Hop))))).
    + intros inboxId r. exact (answers_run _ _ _ _ _ _ (proj2 (proj2 (proj2 (absent_answers inboxId "" w Hop))))).
Qed.

(** *** Removal *)
Definition removed_post (w : CoreWorld) (st : OperatorStore) (i : AgentIdentity) (w1 : CoreWorld) : Prop :=
  cw_identities w1 = List.filter (λ j, negb (bool_decide (ai_id j = ai_id i))) (cw_identities w) ∧
  cw_idMappings w1 = match find_mapping i w with
                     | Some _ => (λ m, (im_remove (ai_id i) m).1) <$> cw_idMappings w
                     | None => cw_idMappings w
                     end ∧
  ∃ st', cw_operators w1 = Some st' ∧ exclusive st' ∧ ∀ o j, linked st' o j ↔ linked st o j ∧ j ≠ ai_id i.
Lemma pick_row s i t : pick_inbox s t = Some i → is_Some (is_getById (ai_id i) t).
Proof.
  intros Hp. assert (i ∈ t) as Hi.
  { unfold pick_inbox, is_getByLabel, is_getById in Hp. pose proof (find_key ai_id s t) as H1.
    pose proof (find_key ai_label (Some s) t) as H2. destruct (startsWith _ _).
    - destruct (resourceIdSchema _ _); [|done]. rewrite Hp in H1. by destruct H1.
    - destruct (List.find (λ r, bool_decide (ai_label r = Some s)) t) as [j|]; simplify_eq; [by destruct H2|].
      rewrite Hp in H1. by destruct H1. }
  unfold is_getById. pose proof (find_key ai_id (ai_id i) t) as H1.
  destruct (List.find _ t); [by eexists|]. by destruct (H1 i Hi).
Qed.
Lemma remove_row_answers i w : is_Some (is_getById (ai_id i) (cw_identities w)) →
  answers (λ w1 r, r = Ok tt ∧ stores w1 = (List.filter (λ j, negb (bool_decide (ai_id j = ai_id i))) (cw_identities w),
    cw_idMappings w, cw_operators w)) (called (remove_row (ai_id i))) w.
Proof.
  intros [j Hj]. eapply answers_mono; [|apply answers_called]. cbn. intros w1 r [Hw ->].
  unfold remove_row, is_remove in *. rewrite Hj in *. done.
Qed.
Lemma rm_execute_answers st i mapping actions w : store_ok st → exclusive st → cw_operators w = Some st →
  is_Some (is_getById (ai_id i) (cw_identities w)) → mapping = find_mapping i w →
  answers (λ w1 r, r = Ok (mkInboxRemove true actions) ∧ removed_post w st i w1)
    (rm_execute zodIssue i mapping actions) w.
Proof.
  intros Hst Hx Hop Hi ->. unfold rm_execute.
  eapply answers_bind_ok; [by apply unlink_answers| |].
  2: { intros w1 e (st' & _ & ->%eq_sym & Hn). by destruct Hn. }
  intros w1 x (st' & Hs & (_ & Hx' & Hl)%unlink_links); [|done]. injection Hs as E1 E2 E3.
  intros pre Q HQ. cbn [wp]. revert pre Q HQ.
  set (w2 := (match find_mapping i w with Some _ => _ | None => _ end).1).
  assert (stores w2 = (cw_identities w, match find_mapping i w with
      | Some _ => (λ m, (im_remove (ai_id i) m).1) <$> cw_idMappings w | None => cw_idMappings w end, Some st')) as Hs2.
  { unfold w2, stores. destruct (find_mapping i w); cbn; by rewrite ?E1, ?E2, ?E3. }
  injection Hs2 as F1 F2 F3. apply (answers_bind_ok (λ w3 r, r = Ok tt ∧ stores w3 =
    (List.filter (λ j, negb (bool_decide (ai_id j = ai_id i))) (cw_identities w2), cw_idMappings w2, cw_operators w2))).
  - apply remove_row_answers. by rewrite F1.
  - intros w3 [] [_ Hs3]. injection Hs3 as G1 G2 G3. apply answers_ret. split; [done|].
    split_and!; [by rewrite G1, F1|by rewrite G2, F2|]. exists st'. split_and!; [by rewrite G3|done..].
  - by intros w3 e [? _].
Qed.
Definition cleanup_of (ev : cevent) : option (AgentIdentity * bool) :=
  match ev_eff ev with CCleanupInbox i x => Some (i, x) | _ => None end.
Lemma quiet_cleanup t : Forall (λ ev, no_effect ev = true) t → base.omap cleanup_of t = [].
Proof.
  induction 1 as [|ev t Hev _ IH]; [done|]. cbn. rewrite IH. unfold no_effect, cleanup_of in *.
  by destruct (ev_eff ev).
Qed.
Definition rm_post (deps : InboxDeps) (inboxId : string) (execute : bool) (w : CoreWorld) (st : OperatorStore)
  (t : list cevent) (w1 : CoreWorld) (r : res InboxRemoveResult) : Prop :=
  (∀ c, c ∈ base.omap cleanup_of t → exclusive st ∧ c.2 = execute ∧ pick_inbox inboxId (cw_identities w) = Some c.1) ∧
  match r with
  | Err _ => stores w1 = stores w
  | Ok x => ir_executed x = execute ∧ ∃ i, pick_inbox inboxId (cw_identities w) = Some i ∧
      base.omap cleanup_of t = (if idp_cleanup deps then [(i, execute)] else []) ∧
      if execute then removed_post w st i w1 else stores w1 = stores w
  end.
Lemma find_mapping_kept i w w1 : stores w1 = stores w → find_mapping i w1 = find_mapping i w.
Proof. intros Hw. unfold find_mapping. by destruct (stores_eq _ _ Hw) as (_ & -> & _). Qed.
Lemma removed_kept st i w w1 w2 : stores w1 = stores w → removed_post w1 st i w2 → removed_post w st i w2.
Proof.
  intros Hw. unfold removed_post. rewrite (find_mapping_kept _ _ _ Hw).
  by destruct (stores_eq _ _ Hw) as (-> & -> & _).
Qed.
Lemma inbox_rm_finish st deps inboxId execute w i w1 mapping actions pre Q : store_ok st → cw_operators w = Some st →
  exclusive st → pick_inbox inboxId (cw_identities w) = Some i → stores w1 = stores w →
  mapping = find_mapping i w1 → base.omap cleanup_of pre = (if idp_cleanup deps then [(i, execute)] else []) →
  (∀ t w2 r, rm_post deps inboxId execute w st t w2 r → Q t w2 r) →
  wp env (if negb execute then Ret (Ok (mkInboxRemove false actions)) else rm_execute zodIssue i mapping actions) w1 pre Q.
Proof.
  intros Hst Hop Hx Hp Hw Hmap Hpre HQ.
  assert (∀ c, c ∈ base.omap cleanup_of pre → exclusive st ∧ c.2 = execute ∧ pick_inbox inboxId (cw_identities w) = Some c.1) as Hc.
  { rewrite Hpre. destruct (idp_cleanup deps); [|by intros c ?%not_elem_of_nil].
    by intros c ->%list_elem_of_singleton. }
  destruct execute; cbn [negb].
  - pose proof (stores_op _ _ _ Hw Hop) as Hop1. destruct (stores_eq _ _ Hw) as (E1 & _).
    refine (rm_execute_answers st i mapping actions w1 Hst Hx Hop1 _ Hmap _ _ _).
    { rewrite E1. by eapply pick_row. }
    intros t w2 r Ht [-> Hrm]. apply HQ. split; rewrite omap_app, (quiet_cleanup t) by done; rewrite app_nil_r; [done|].
    split; [done|]. exists i. split_and!; [done|done|]. by eapply removed_kept.
  - cbn. apply HQ. split; [done|]. split; [done|]. by exists i.
Qed.
Lemma inbox_rm_wp st deps inboxId execute w : store_ok st → cw_operators w = Some st →
  wp env (inbox_rm zodIssue deps inboxId execute) w [] (rm_post deps inboxId execute w st).
Proof.
  intros Hst Hop. unfold inbox_rm. apply wp_bind_ok, resolveInbox_answers.
  intros t w1 [i|e] Ht [Hw Hp]; cbn [app];
    [|split; [by rewrite quiet_cleanup by done; intros c ?%not_elem_of_nil|done]].
  pose proof (stores_op _ _ _ Hw Hop) as Hop1. apply wp_bind_ok, (buildInboxLinkMap_answers st); [done..|].
  intros t2 w2 [m|e] Ht2 [Hw2 Hx]; rewrite Hw in Hw2;
    (assert (base.omap cleanup_of (t ++ t2) = []) as Hq by (by rewrite omap_app, !quiet_cleanup));
    [|split; [by rewrite Hq; intros c ?%not_elem_of_nil|done]].
  destruct Hx as [Hx _]. cbn [wp peek fst snd]. apply wp_bind_ok. destruct (idp_cleanup deps) eqn:Hd; cbn [wp perform].
  - intros w3 [l|e] Hw3%Henv; (assert (stores w3 = stores w) as Hk by (by etrans)).
    + eapply (inbox_rm_finish st deps inboxId execute w i); [done..|by rewrite (find_mapping_kept i w w2), (find_mapping_kept i w w3)| |by intros].
      by rewrite omap_app, Hq, Hd.
    + split; [|done]. rewrite omap_app, Hq. by intros c ->%list_elem_of_singleton.
  - eapply (inbox_rm_finish st deps inboxId execute w i); [done..|by rewrite Hq, Hd|by intros].
Qed.

(** C29: removing an inbox is all or nothing on the stores, with an operator
    manager and while nothing else writes them: [inbox.rm] that fails, or that
    is not asked to execute, leaves identities, mappings and operators as they
    were; executed, it removes the row of the inbox it resolved and no other,
    every link to it and no other link, and, if a mapping was found by the
    inbox's own or its network's identifier, what the mapping store has under
    the inbox's own identifier (so a mapping that was found by the network's
    identifier alone is announced as removed and stays, see
    [stale_mapping_stays]).  The clean-up runs only for that inbox, once the
    links are known to be exclusive, and executes exactly when asked to. *)
Theorem inbox_removal_atomic st deps inboxId execute w t w' r : store_ok st → cw_operators w = Some st →
  run env w (inbox_rm zodIssue deps inboxId execute) t w' r → rm_post deps inboxId execute w st t w' r.
Proof. intros Hst Hop. exact (wp_run _ _ _ _ _ _ _ _ (inbox_rm_wp st deps inboxId execute w Hst Hop)). Qed.
End runs.

(** ** A signet with two operators *)
Section demo.
Definition no_issue (c : OperatorConfigType) : string * string := ("label", "required").
Definition demo_operator (label : string) : OperatorConfigType :=
  {| oc_label := label; oc_role := role_operator; oc_scopeMode := per_chat; oc_provider := wallet_internal;
     oc_walletId := None; oc_inboxIds := None; oc_operatorDisclosures := None |}.
Definition demo_operators : OperatorStore :=
  let st := (op_create no_issue [] (demo_operator "alice") "op_000000000000000a" "t0").1 in
  (op_create no_issue st (demo_operator "bob") "op_000000000000000b" "t0").1.
Definition demo_inbox : AgentIdentity := mkIdentity "inbox_0000000000000001" (Some "net-1") None (Some "home") "2026".
Definition demo_inboxes : CoreWorld := mkCore 0 [demo_inbox] (Some []) [] (Some demo_operators) None [].
Lemma demo_store_ok : store_ok demo_operators.
Proof.
  split; [|vm_compute; reflexivity].
  apply (op_reachable_inv no_issue). eapply rtc_l; [by apply (os_create no_issue _ (demo_operator "alice") "op_000000000000000a" "t0")|].
  eapply rtc_l; [by apply (os_create no_issue _ (demo_operator "bob") "op_000000000000000b" "t0")|]. apply rtc_refl.
Qed.
Definition alone (w w' : CoreWorld) : Prop := w' = w.
Lemma alone_kept w w' : alone w w' → stores_kept w w'.
Proof. by intros ->. Qed.
Ltac reply x := eexists _, x, _; split; [reflexivity|]; split; [reflexivity|].

Lemma inbox_links_exact_witness : ∃ t w' r,
  run alone demo_inboxes (inbox_link no_issue "inbox_0000000000000001" "alice") t w' r ∧
  r = Ok (summarizeInbox demo_inbox (Some "op_000000000000000a")) ∧
  moved demo_inboxes (action_link_post demo_inboxes demo_operators "inbox_0000000000000001" "alice") w' r.
Proof.
  assert (∃ t w' r, run alone demo_inboxes (inbox_link no_issue "inbox_0000000000000001" "alice") t w' r ∧
    r = Ok (summarizeInbox demo_inbox (Some "op_000000000000000a"))) as (t & w' & r & Hr & Hok).
  { eexists _, _, _. split.
    - do 5 reply tt. done.
    - reflexivity. }
  exists t, w', r. split; [done|]. split; [done|].
  by apply (proj1 (proj1 (inbox_links_exact no_issue alone alone_kept demo_inboxes t w') _ demo_store_ok eq_refl)).
Defined.
Definition linked_operators : OperatorStore :=
  (op_update no_issue demo_operators "op_000000000000000a" (inbox_change (Some ["inbox_0000000000000001"]))).1.
Definition linked_inboxes : CoreWorld :=
  mkCore 0 [demo_inbox] (Some [mkRow "net-1" "inbox_0000000000000001" im_inbox]) [] (Some linked_operators) None [].
Lemma linked_store_ok : store_ok linked_operators.
Proof.
  split; [|vm_compute; reflexivity]. eapply op_step_inv, demo_store_ok. apply (os_update no_issue).
Qed.
Definition demo_removal : InboxRemoveResult :=
  mkInboxRemove true ["unlink operator op_000000000000000a"; "remove inbox inbox_0000000000000001";
    "remove id mapping"; "detach"].
Lemma inbox_removal_atomic_witness : ∃ t w' r,
  run alone linked_inboxes (inbox_rm no_issue (mkInboxDeps true) "home" true) t w' r ∧
  r = Ok demo_removal ∧ (cw_identities w', cw_idMappings w') = ([], Some []) ∧
  rm_post (mkInboxDeps true) "home" true linked_inboxes linked_operators t w' r.
Proof.
  assert (∃ t w' r, run alone linked_inboxes (inbox_rm no_issue (mkInboxDeps true) "home" true) t w' r ∧
    r = Ok demo_removal ∧ (cw_identities w', cw_idMappings w') = ([], Some [])) as (t & w' & r & Hr & Hok & Hs).
  { eexists _, _, _. split.
    - do 2 reply tt. reply (Ok ["detach"] : res (list string)). do 4 reply tt. done.
    - split; vm_compute; reflexivity. }
  exists t, w', r. split_and!; [done..|].
  by apply (inbox_removal_atomic no_issue alone alone_kept linked_operators _ _ _ linked_inboxes t w' r linked_store_ok eq_refl).
Defined.

(** ** Limits

    A mapping of the inbox's network identifier to another inbox is found, so
    its removal is announced, and removing it by the inbox's own identifier
    does nothing. *)
Lemma stale_mapping_stays :
  let w := mkCore 0 [demo_inbox] (Some [mkRow "net-1" "inbox_0000000000000002" im_inbox]) [] None None [] in
  planned demo_inbox None (find_mapping demo_inbox w) = ["remove inbox inbox_0000000000000001"; "remove id mapping"] ∧
  (remove_mapping (ai_id demo_inbox) w).1 = w.
Proof. by vm_compute. Qed.
(** Two links of one inbox to two operators, interleaved on one thread: both
    answer, and the inbox has two operators; from then on every action of
    that inbox, and the list of all, fails. *)
Abbreviation istep := (sys_step (inbox_link no_issue "inbox_0000000000000001") (λ _ _ : CoreWorld, False)).
Ltac spawn j := eapply rtc_l; [apply (sys_spawn _ _ _ _ _ j)|].
Ltac tick i := eapply rtc_l; [eapply (sys_answer _ _ _ _ _ i _ _ _ _ _ tt); reflexivity|].
Lemma links_race : ∃ s, rtc istep (mkSys demo_inboxes [] []) s ∧
  map (λ j, ended j.2) (s_jobs s) = [true; true] ∧
  match cw_operators (s_world s) with
  | Some st => linked st "op_000000000000000a" "inbox_0000000000000001" ∧
               linked st "op_000000000000000b" "inbox_0000000000000001" ∧ ¬ exclusive st
  | None => False
  end.
Proof.
  eexists. split.
  - spawn "alice". spawn "bob". do 5 (tick 0%nat; tick 1%nat). apply rtc_refl.
  - split; [vm_compute; reflexivity|]. cbn [s_world].
    match goal with |- match ?o with _ => _ end => let v := eval vm_compute in o in replace o with v by (vm_compute; reflexivity) end.
    assert (∀ st, (linked st "op_000000000000000a" "inbox_0000000000000001" ∧
        linked st "op_000000000000000b" "inbox_0000000000000001") → linked st "op_000000000000000a" "inbox_0000000000000001" ∧
        linked st "op_000000000000000b" "inbox_0000000000000001" ∧ ¬ exclusive st) as Htwo.
    { intros st [Ha Hb]. split_and!; [done..|]. intros Hx. by specialize (Hx _ _ _ Ha Hb). }
    apply Htwo. split; (eexists; split_and!; [reflexivity|done|vm_compute; by left]).
Qed.
End demo.
