(* ===== verification/CoreQueries.v ===== *)
(** * Consent and lookup actions

    [core/src/consent-actions.ts]: asking and setting whether the messages of
    an inbox or a group are wanted.  [core/src/lookup-actions.ts]: everything
    the signet knows under one name.

    The handlers are programs over the world of [CoreWorld]. *)
From S2P Require Import Prelude JsDate Programs Text Json Errors Ids Scopes Policy Reveal Seals Credentials CredentialSpec Registries CredentialService Contracts CoreStores CoreWorld InboxActions.
Local Open Scope prog_scope.

(** ** Consent *)
Record ConsentInput := mkConsentInput {
  ct_entity : string; ct_entityType : option ConsentEntityType; ct_identityLabel : option string
}.
Record ConsentResult := mkConsent { cn_entity : string; cn_entityType : ConsentEntityType; cn_state : ConsentState }.
Section consent.
(** Whether [getManagedClientForGroup] is given. *)
Context (forGroup : bool).
Definition client_of_group (entityType : ConsentEntityType) (entity : string) (w : CoreWorld) : option ManagedClient :=
  if bool_decide (entityType = ce_group_id) then if forGroup then cr_getByGroupId entity (cw_clients w) else None else None.
Definition resolveManagedClient (identityLabel : option string) (entityType : ConsentEntityType) (entity : string)
  : CProg (res ManagedClient) :=
  match truthy_str identityLabel with
  | Some label => resolve_client (Some label)
  | None =>
      sync byGroup <- peek (client_of_group entityType entity) ;;
      match byGroup with
      | Some m => Ret (Ok m)
      | None => resolve_client None
      end
  end.
Definition consent_check (input : ConsentInput) : CProg (res ConsentResult) :=
  let entityType := default ce_inbox_id (ct_entityType input) in
  ok managed <- resolveManagedClient (ct_identityLabel input) entityType (ct_entity input) ;;
  ok state <- perform (CGetConsent (mc_client managed) entityType (ct_entity input)) ;;
  Ret (Ok (mkConsent (ct_entity input) entityType state)).
(** [consent.allow] and [consent.deny] have the same text but for the state. *)
Definition consent_set (state : ConsentState) (input : ConsentInput) : CProg (res ConsentResult) :=
  let entityType := default ce_inbox_id (ct_entityType input) in
  ok managed <- resolveManagedClient (ct_identityLabel input) entityType (ct_entity input) ;;
  ok _ <- perform (CSetConsent (mc_client managed) entityType (ct_entity input) state) ;;
  Ret (Ok (mkConsent (ct_entity input) entityType state)).
Definition consent_allow : ConsentInput → CProg (res ConsentResult) := consent_set cs_allowed.
Definition consent_deny : ConsentInput → CProg (res ConsentResult) := consent_set cs_denied.
End consent.

(** ** Lookup *)
Record LookupMappingResult := mkLookupMapping { lm_localId : string; lm_networkId : string }.
Record LookupInboxResult := mkLookupInbox {
  li_id : string; li_label : option string; li_networkInboxId : option string; li_groupId : option string; li_createdAt : string
}.
Record LookupOperatorResult := mkLookupOperator { lop_id : string; lop_label : string; lop_role : OperatorRole; lop_status : OperatorStatus }.
Record LookupPolicyResult := mkLookupPolicy { lp_id : string; lp_label : string; lp_updatedAt : string }.
Record LookupCredentialResult := mkLookupCredential {
  lc_id : string; lc_operatorId : string; lc_policyId : option string; lc_chatIds : list string;
  lc_status : CredentialStatus; lc_expiresAt : string
}.
Record LookupResolveResult := mkLookup {
  lr_query : string; lr_found : bool; lr_mapping : option LookupMappingResult; lr_inbox : option LookupInboxResult;
  lr_operator : option LookupOperatorResult; lr_policy : option LookupPolicyResult; lr_credential : option LookupCredentialResult
}.
Definition toMappingResult (mapping : option (string * string)) : option LookupMappingResult :=
  (λ '(networkId, localId), mkLookupMapping localId networkId) <$> mapping.
Definition toInboxResult (i : AgentIdentity) : LookupInboxResult :=
  mkLookupInbox (ai_id i) (ai_label i) (ai_inboxId i) (ai_groupId i) (ai_createdAt i).
Definition isNotFoundError (e : SignetError) : bool := bool_decide (category e = not_found).
Definition is_type (query : string) (t : ResourceType) : bool :=
  match parseResourceId query with Ok p => bool_decide (type p = t) | Err _ => false end.
(** [if (identity === null) identity = await ...]. *)
Definition or_try {A} (found : option A) (p : CProg (option A)) : CProg (option A) :=
  match found with Some a => Ret (Some a) | None => p end.
Definition getById (id : string) : CProg (option AgentIdentity) := called (peek (λ w, is_getById id (cw_identities w))).
Definition resolveInbox (query : string) (mapping : option LookupMappingResult) : CProg (res (option LookupInboxResult)) :=
  do byId <- (if is_type query rt_inbox then getById query else Ret None) ;;
  do mapped <- or_try byId
    (match mapping with
     | Some m => if startsWith "inbox_" (lm_localId m) then getById (lm_localId m) else Ret None
     | None => Ret None
     end) ;;
  do labelled <- or_try mapped (called (peek (λ w, is_getByLabel query (cw_identities w)))) ;;
  do identity <- or_try labelled (called (peek (λ w, is_getByInboxId query (cw_identities w)))) ;;
  Ret (Ok (toInboxResult <$> identity)).
Definition toOperatorResult (o : OperatorRecordType) : LookupOperatorResult :=
  mkLookupOperator (or_id o) (oc_label (or_config o)) (oc_role (or_config o)) (or_status o).
(** A record asked for by its identifier: an unknown one is nothing found. *)
Definition found_or_null {A B} (f : A → B) (direct : res A) : res (option B) :=
  match direct with
  | Err e => if isNotFoundError e then Ok None else Err e
  | Ok a => Ok (Some (f a))
  end.
Definition resolveOperator (query : string) : CProg (res (option LookupOperatorResult)) :=
  sync manager <- peek cw_operators ;;
  match manager with
  | None => Ret (Ok None)
  | Some _ =>
      if is_type query rt_operator then
        do direct <- om_lookup query ;; Ret (found_or_null toOperatorResult direct)
      else
        do operators <- om_list ;;
        Ret (Ok (toOperatorResult <$> List.find (λ c, bool_decide (oc_label (or_config c) = query)) operators))
  end.
Definition toPolicyResult (p : PolicyRecordType) : LookupPolicyResult :=
  mkLookupPolicy (policy_id p) (label (policy_config p)) (policy_updatedAt p).
Definition pol_store (w : CoreWorld) : PolicyStore := default [] (cw_policies w).
Definition resolvePolicy (query : string) : CProg (res (option LookupPolicyResult)) :=
  sync manager <- peek cw_policies ;;
  match manager with
  | None => Ret (Ok None)
  | Some _ =>
      if is_type query rt_policy then
        do direct <- called (peek (λ w, pol_lookup (pol_store w) query)) ;; Ret (found_or_null toPolicyResult direct)
      else
        do policies <- called (peek (λ w, pol_list (pol_store w))) ;;
        Ret (Ok (toPolicyResult <$> List.find (λ c, bool_decide (label (policy_config c) = query)) policies))
  end.

Section lookup.
(** Whether there is a credential manager, and [config.policyId], an optional
    property that the records of the credential service do not have. *)
Context (credentialManager : bool) (policyIdOf : CredentialRecord → option string).
Definition toCredentialResult (c : CredentialRecord) : LookupCredentialResult :=
  mkLookupCredential (cr_credentialId c) (cr_operatorId c) (policyIdOf c) (sc_chatIds (cr_base c))
    (sc_status (cr_base c)) (sc_expiresAt (cr_base c)).
Definition resolveCredential (query : string) : CProg (res (option LookupCredentialResult)) :=
  if negb credentialManager then Ret (Ok None)
  else if negb (is_type query rt_credential) then Ret (Ok None)
  else do credential <- perform (CCredentialLookup query) ;; Ret (found_or_null toCredentialResult credential).
Definition mapping_now (id : string) (w : CoreWorld) : option LookupMappingResult :=
  toMappingResult (match cw_idMappings w with Some m => im_resolve id m | None => None end).
(** The mapping of the inbox, when the query itself has none. *)
Definition mapping_of (mapping : option LookupMappingResult) (inbox : option LookupInboxResult) (w : CoreWorld)
  : option LookupMappingResult :=
  match mapping, inbox with
  | None, Some i =>
      match mapping_now (li_id i) w with
      | Some m => Some m
      | None => match truthy_str (li_networkInboxId i) with Some n => mapping_now n w | None => None end
      end
  | _, _ => mapping
  end.
Definition non_null {A} (o : option A) : bool := match o with Some _ => true | None => false end.
Definition lookup_resolve (query : string) : CProg (res LookupResolveResult) :=
  sync queried <- peek (mapping_now query) ;;
  ok inbox <- resolveInbox query queried ;;
  sync mapping <- peek (mapping_of queried inbox) ;;
  ok operator <- resolveOperator query ;;
  ok policy <- resolvePolicy query ;;
  ok credential <- resolveCredential query ;;
  Ret (Ok (mkLookup query
    (non_null mapping || non_null inbox || non_null operator || non_null policy || non_null credential)
    mapping inbox operator policy credential)).
End lookup.

(** ** Consent is set once, for one client *)
Definition chosen (forGroup : bool) (input : ConsentInput) (ty : ConsentEntityType) (w wm : CoreWorld) (m : ManagedClient) : Prop :=
  client_of_group forGroup ty (ct_entity input) w = Some m ∧ truthy_str (ct_identityLabel input) = None ∨
  ∃ id, cr_get id (cw_clients wm) = Some m.
Section consent_runs.
Context (env : CoreWorld → CoreWorld → Prop) (forGroup : bool).
Lemma resolveManagedClient_prelim input ty w :
  prelim env (λ w1 _ m, chosen forGroup input ty w w1 m) (resolveManagedClient forGroup (ct_identityLabel input) ty (ct_entity input)) w.
Proof.
  unfold resolveManagedClient, chosen. destruct (truthy_str (ct_identityLabel input)) as [l|].
  - intros pre Q HQ. apply (resolve_client_prelim env (Some l) w). intros t w1 r Ht Hw Hm. apply HQ; [done..|].
    intros m Hr. right. exact (Hm m Hr).
  - intros pre Q HQ. cbn. destruct (client_of_group _ _ _ w) as [m|].
    + cbn. rewrite <-(app_nil_r pre). apply HQ; [done..|]. intros ? [= <-]. by left.
    + apply (resolve_client_prelim env None w). intros t w1 r Ht Hw Hm. apply HQ; [done..|].
      intros m Hr. right. exact (Hm m Hr).
Qed.
(** Setting the consent of an entity asks one client, once: the client of the
    label's identity, the group's, or that of the first identity.  The action
    answers with the new state only after that client took it; an error
    before changes nothing. *)
Theorem consent_set_once state input w : let ty := default ce_inbox_id (ct_entityType input) in
  wp env (consent_set forGroup state input) w [] (λ t w' r, ∃ t0, Forall (λ ev, no_effect ev = true) t0 ∧
    match r with
    | Ok c => c = mkConsent (ct_entity input) ty state ∧
        ∃ m wm, chosen forGroup input ty w wm m ∧ t = t0 ++ [Event _ (CSetConsent (mc_client m) ty (ct_entity input) state) wm (Ok tt)]
    | Err e => t = t0 ∨
        ∃ m wm, chosen forGroup input ty w wm m ∧ t = t0 ++ [Event _ (CSetConsent (mc_client m) ty (ct_entity input) state) wm (Err e)]
    end).
Proof.
  intros ty. unfold consent_set. apply wp_bind_ok, (resolveManagedClient_prelim input ty w).
  intros t w1 [m|e] Ht Hw Hm; cbn; [|exists t; by split; [|left]].
  specialize (Hm m eq_refl). intros w2 [[]|e] Hw2; cbn; exists t; (split; [done|]); [split; [done|]|right]; by exists m, w1.
Qed.
End consent_runs.

(** ** What a lookup finds *)
Definition same (w w' : CoreWorld) : Prop := stores_kept w w' ∧ cw_policies w' = cw_policies w.
Lemma same_trans w1 w2 w3 : same w1 w2 → same w2 w3 → same w1 w3.
Proof. unfold same, stores_kept. intros [-> ->] [-> ->]. done. Qed.
Lemma same_parts w w' : same w w' →
  cw_identities w' = cw_identities w ∧ cw_idMappings w' = cw_idMappings w ∧ cw_operators w' = cw_operators w ∧ cw_policies w' = cw_policies w.
Proof. intros [(-> & -> & ->)%stores_eq ->]. done. Qed.
Definition pick (q : string) (m : option LookupMappingResult) (t : IdentityTable) : option AgentIdentity :=
  or_else (if is_type q rt_inbox then is_getById q t else None)
  (or_else (m ← m; if startsWith "inbox_" (lm_localId m) then is_getById (lm_localId m) t else None)
  (or_else (is_getByLabel q t) (is_getByInboxId q t))).
Definition inbox_found (q : string) (m : option LookupMappingResult) (t : IdentityTable) (r : option LookupInboxResult) : Prop :=
  match r with
  | Some i => ∃ row, row ∈ t ∧ i = toInboxResult row ∧
      (ai_id row = q ∨ ai_label row = Some q ∨ ai_inboxId row = Some q ∨ ∃ m', m = Some m' ∧ ai_id row = lm_localId m')
  | None => ∀ row, row ∈ t → ai_label row ≠ Some q ∧ ai_inboxId row ≠ Some q ∧ (is_type q rt_inbox = true → ai_id row ≠ q)
  end.
Lemma pick_found q m t : inbox_found q m t (toInboxResult <$> pick q m t).
Proof.
  pose proof (λ k, find_key ai_id k t) as Hid. pose proof (find_key ai_label (Some q) t) as Hl.
  pose proof (find_key ai_inboxId (Some q) t) as Hn. unfold pick, inbox_found.
  fold (is_getByLabel q t) in Hl. fold (is_getByInboxId q t) in Hn.
  assert (∀ k, match is_getById k t with Some x => x ∈ t ∧ ai_id x = k | None => ∀ x, x ∈ t → ai_id x ≠ k end) as Hid' by exact Hid.
  assert (or_else (is_getByLabel q t) (is_getByInboxId q t) = None → ∀ row, row ∈ t → ai_label row ≠ Some q ∧ ai_inboxId row ≠ Some q) as Hno.
  { destruct (is_getByLabel q t); [done|]. destruct (is_getByInboxId q t); [done|]. naive_solver. }
  assert (∀ x, or_else (is_getByLabel q t) (is_getByInboxId q t) = Some x → x ∈ t ∧ (ai_label x = Some q ∨ ai_inboxId x = Some q)) as Hyes.
  { destruct (is_getByLabel q t); cbn; [naive_solver|]. destruct (is_getByInboxId q t); naive_solver. }
  destruct (or_else (is_getByLabel q t) _) as [y|]; [specialize (Hyes y eq_refl); clear Hno|specialize (Hno eq_refl); clear Hyes];
    (destruct (is_type q rt_inbox); [pose proof (Hid' q) as Hq; destruct (is_getById q t) as [x|]|]; [cbn; naive_solver|..]);
    (destruct m as [m|]; cbn [or_else mbind option_bind]; [destruct (startsWith "inbox_" (lm_localId m)); [pose proof (Hid' (lm_localId m)) as Hm; destruct (is_getById (lm_localId m) t)|]|]);
    cbn; naive_solver.
Qed.

Section lookup_runs.
Context (env : CoreWorld → CoreWorld → Prop) (Henv : ∀ w w', env w w' → same w w').
(** [p], from [w], only reads: it ends in the same stores, with an answer that
    satisfies [P]. *)
Definition reads {A} (P : A → Prop) (p : CProg A) (w : CoreWorld) : Prop :=
  ∀ pre Q, (∀ t w1 r, Forall (λ ev, no_effect ev = true) t → same w w1 → P r → Q (pre ++ t) w1 r) → wp env p w pre Q.
Lemma same_refl w : same w w.
Proof. by split. Qed.
Lemma reads_ret {A} (P : A → Prop) a w : P a → reads P (Ret a) w.
Proof. intros HP pre Q HQ. cbn. rewrite <-(app_nil_r pre). apply HQ; [done|apply same_refl|done]. Qed.
Lemma reads_peek {A} (f : CoreWorld → A) w : reads (λ a, a = f w) (called (peek f)) w.
Proof. intros pre Q HQ. cbn. intros w' [] Hw. apply (HQ [_]); [by repeat constructor|by apply Henv|done]. Qed.
Lemma reads_bind {A B} (P : A → Prop) (P' : B → Prop) p k w :
  reads P p w → (∀ w1 a, same w w1 → P a → reads P' (k a) w1) → reads P' (bind p k) w.
Proof.
  intros Hp Hk pre Q HQ. apply wp_bind, Hp. intros t w1 a Ht Hw HP. apply (Hk w1 a Hw HP).
  intros t2 w2 r Ht2 Hw2 HP2. rewrite <-app_assoc. apply HQ; [by apply Forall_app|by eapply same_trans|done].
Qed.
Lemma reads_or_try {A} (f : CoreWorld → option A) (p : CProg (option A)) found w : 
  reads (λ a, a = f w) p w → reads (λ a, a = or_else found (f w)) (or_try found p) w.
Proof. intros Hp. destruct found; [by apply reads_ret|exact Hp]. Qed.
Lemma getById_reads id w w1 : same w w1 → reads (λ a, a = is_getById id (cw_identities w)) (getById id) w1.
Proof. intros (<- & _)%same_parts. exact (reads_peek (λ w, is_getById id (cw_identities w)) w1). Qed.
Lemma resolveInbox_reads q m w :
  reads (λ r, ∃ i, r = Ok i ∧ inbox_found q m (cw_identities w) i) (resolveInbox q m) w.
Proof.
  pose proof (pick_found q m (cw_identities w)) as Hpick. unfold resolveInbox.
  eapply (reads_bind (λ a, a = if is_type q rt_inbox then is_getById q (cw_identities w) else None)).
  { destruct (is_type q rt_inbox); [apply getById_reads, same_refl|by apply reads_ret]. }
  intros w1 byId Hw ->. eapply reads_bind.
  { apply (reads_or_try (λ _, m ← m; if startsWith "inbox_" (lm_localId m) then is_getById (lm_localId m) (cw_identities w) else None)).
    destruct m as [m|]; [|by apply reads_ret].
    cbv beta iota delta [mbind option_bind]. destruct (startsWith "inbox_" (lm_localId m)); [by apply getById_reads|by apply reads_ret]. }
  intros w2 mapped Hw2 ->. pose proof (same_trans _ _ _ Hw Hw2) as Hw3. eapply reads_bind.
  { exact (reads_or_try _ _ _ _ (reads_peek (λ w, is_getByLabel q (cw_identities w)) w2)). }
  intros w4 labelled Hw4 ->. pose proof (same_trans _ _ _ Hw3 Hw4) as Hw5. eapply reads_bind.
  { exact (reads_or_try _ _ _ _ (reads_peek (λ w, is_getByInboxId q (cw_identities w)) w4)). }
  intros w6 found Hw6 ->. apply reads_ret. eexists. split; [reflexivity|].
  destruct (same_parts _ _ Hw3) as (-> & _). destruct (same_parts _ _ Hw5) as (-> & _).
  unfold pick in Hpick. by destruct (if is_type q rt_inbox then _ else _), (m ← m; _), (is_getByLabel q _).
Qed.
Definition operator_found (q : string) (ops : option OperatorStore) (r : option LookupOperatorResult) : Prop :=
  match r with
  | Some o => ∃ st rec, ops = Some st ∧ o = toOperatorResult rec ∧
      (om_get q st = Some rec ∨ rec ∈ op_list st ∧ oc_label (or_config rec) = q)
  | None => ∀ st, ops = Some st →
      if is_type q rt_operator then om_get q st = None else ∀ rec, rec ∈ op_list st → oc_label (or_config rec) ≠ q
  end.
Lemma resolveOperator_reads q w : reads (λ r, ∃ o, r = Ok o ∧ operator_found q (cw_operators w) o) (resolveOperator q) w.
Proof.
  intros pre Q HQ. unfold resolveOperator. cbn [wp peek fst snd]. revert pre Q HQ.
  destruct (cw_operators w) as [st|] eqn:Hop; [|apply reads_ret; by exists None].
  destruct (is_type q rt_operator) eqn:Ht.
  - eapply reads_bind; [apply (reads_peek (λ w, op_lookup (om_store w) q))|]. intros w1 r Hw ->. apply reads_ret.
    assert (om_store w = st) as -> by (unfold om_store; by rewrite Hop). unfold op_lookup. destruct (om_get q st) as [rec|] eqn:Hr; (eexists; split; [reflexivity|]); cbn.
    + exists st, rec. by split_and!; [..|left].
    + rewrite Ht. by intros ? [= <-].
  - eapply reads_bind; [apply (reads_peek (λ w, op_list (om_store w)))|]. intros w1 r Hw ->. apply reads_ret.
    eexists. split; [reflexivity|]. assert (om_store w = st) as -> by (unfold om_store; by rewrite Hop).
    pose proof (find_key (λ c, oc_label (or_config c)) q (op_list st)) as Hf.
    destruct (List.find _ (op_list st)) as [rec|]; cbn in *.
    + exists st, rec. by split_and!; [..|right].
    + rewrite Ht. by intros ? [= <-].
Qed.
Definition policy_found (q : string) (ps : option PolicyStore) (r : option LookupPolicyResult) : Prop :=
  match r with
  | Some p => ∃ st rec, ps = Some st ∧ p = toPolicyResult rec ∧
      (om_get q st = Some rec ∨ rec ∈ pol_list st ∧ label (policy_config rec) = q)
  | None => ∀ st, ps = Some st →
      if is_type q rt_policy then om_get q st = None else ∀ rec, rec ∈ pol_list st → label (policy_config rec) ≠ q
  end.
Lemma resolvePolicy_reads q w : reads (λ r, ∃ o, r = Ok o ∧ policy_found q (cw_policies w) o) (resolvePolicy q) w.
Proof.
  intros pre Q HQ. unfold resolvePolicy. cbn [wp peek fst snd]. revert pre Q HQ.
  destruct (cw_policies w) as [st|] eqn:Hop; [|apply reads_ret; by exists None].
  destruct (is_type q rt_policy) eqn:Ht.
  - eapply reads_bind; [apply (reads_peek (λ w, pol_lookup (pol_store w) q))|]. intros w1 r Hw ->. apply reads_ret.
    assert (pol_store w = st) as -> by (unfold pol_store; by rewrite Hop). unfold pol_lookup. destruct (om_get q st) as [rec|] eqn:Hr; (eexists; split; [reflexivity|]); cbn.
    + exists st, rec. by split_and!; [..|left].
    + rewrite Ht. by intros ? [= <-].
  - eapply reads_bind; [apply (reads_peek (λ w, pol_list (pol_store w)))|]. intros w1 r Hw ->. apply reads_ret.
    eexists. split; [reflexivity|]. assert (pol_store w = st) as -> by (unfold pol_store; by rewrite Hop).
    pose proof (find_key (λ c, label (policy_config c)) q (pol_list st)) as Hf.
    destruct (List.find _ (pol_list st)) as [rec|]; cbn in *.
    + exists st, rec. by split_and!; [..|right].
    + rewrite Ht. by intros ? [= <-].
Qed.
Definition mapping_found (q : string) (w : CoreWorld) (inbox : option LookupInboxResult) (r : option LookupMappingResult) : Prop :=
  match r with
  | Some m => ∃ t id, cw_idMappings w = Some t ∧ im_resolve id t = Some (lm_networkId m, lm_localId m) ∧
      (id = q ∨ ∃ i, inbox = Some i ∧ (id = li_id i ∨ li_networkInboxId i = Some id))
  | None => ∀ t, cw_idMappings w = Some t → im_resolve q t = None ∧ ∀ i, inbox = Some i → im_resolve (li_id i) t = None
  end.
Lemma mapping_now_cases id w :
  match mapping_now id w with
  | Some m => ∃ t, cw_idMappings w = Some t ∧ im_resolve id t = Some (lm_networkId m, lm_localId m)
  | None => ∀ t, cw_idMappings w = Some t → im_resolve id t = None
  end.
Proof.
  unfold mapping_now. destruct (cw_idMappings w) as [t|]; [|done]. destruct (im_resolve id t) as [[n l]|] eqn:E; cbn.
  - by exists t.
  - by intros ? [= <-].
Qed.
Lemma mapping_of_found q inbox w w1 : same w w1 → mapping_found q w inbox (mapping_of (mapping_now q w) inbox w1).
Proof.
  intros (_ & Hm & _)%same_parts. pose proof (mapping_now_cases q w) as Hq. unfold mapping_of, mapping_found.
  destruct (mapping_now q w) as [m|]; [destruct Hq as (t & ? & ?); exists t, q; by split_and!; [..|left]|].
  destruct inbox as [i|]; [|by intros t Ht; split; [apply Hq|]].
  pose proof (mapping_now_cases (li_id i) w1) as Hi. rewrite Hm in Hi. destruct (mapping_now (li_id i) w1) as [m|].
  { destruct Hi as (t & ? & ?). exists t, (li_id i). split_and!; [done..|]. right. exists i. by split; [|left]. }
  assert (∀ t, cw_idMappings w = Some t → im_resolve q t = None ∧ ∀ i', Some i = Some i' → im_resolve (li_id i') t = None) as Hnone
    by (intros t Ht; split; [by apply Hq|]; intros ? [= <-]; by apply Hi).
  destruct (li_networkInboxId i) as [n|] eqn:Hn; [|done]. unfold truthy_str. case_bool_decide; [done|].
  pose proof (mapping_now_cases n w1) as Hnet. rewrite Hm in Hnet. destruct (mapping_now n w1) as [m|]; [|done].
  destruct Hnet as (t & ? & ?). exists t, n. split_and!; [done..|]. right. exists i. by split; [|right].
Qed.
Lemma wp_reads_ok {A B} (P : A → Prop) (p : CProg (res A)) (k : A → CProg (res B)) w pre Q :
  reads (λ r, ∃ a, r = Ok a ∧ P a) p w →
  (∀ t w1 a, Forall (λ ev, no_effect ev = true) t → same w w1 → P a → wp env (k a) w1 (pre ++ t) Q) →
  wp env (bind_ok p k) w pre Q.
Proof. intros Hp Hk. apply wp_bind_ok, Hp. intros t w1 r Ht Hw (a & -> & HP). by apply Hk. Qed.
(** A lookup reads and changes nothing.  Each part of its answer is a record
    that the query names - by identifier, label or network identifier, or,
    for an inbox, through the mapping - and an empty part means that no
    record of that kind has the name; [found] says that some part is there.
    Only the credential manager can make it fail. *)
Theorem lookup_exact credentials policyIdOf q w :
  wp env (lookup_resolve credentials policyIdOf q) w [] (λ t w' r, same w w' ∧ Forall (λ ev, no_effect ev = true) t ∧
    match r with
    | Ok l => lr_query l = q ∧
        inbox_found q (mapping_now q w) (cw_identities w) (lr_inbox l) ∧ mapping_found q w (lr_inbox l) (lr_mapping l) ∧
        operator_found q (cw_operators w) (lr_operator l) ∧ policy_found q (cw_policies w) (lr_policy l) ∧
        (∀ c, lr_credential l = Some c → is_type q rt_credential = true ∧
           ∃ rec wc, Event _ (CCredentialLookup q) wc (Ok rec) ∈ t ∧ c = toCredentialResult policyIdOf rec) ∧
        (lr_found l = false ↔ lr_mapping l = None ∧ lr_inbox l = None ∧ lr_operator l = None ∧ lr_policy l = None ∧ lr_credential l = None)
    | Err e => category e ≠ not_found ∧ ∃ wc, Event _ (CCredentialLookup q) wc (Err e) ∈ t
    end).
Proof.
  unfold lookup_resolve. cbn [wp peek fst snd].
  apply (wp_reads_ok _ _ _ _ _ _ (resolveInbox_reads q (mapping_now q w) w)). intros t1 w1 inbox Ht1 Hw1 Hi.
  cbn [wp peek fst snd]. pose proof (mapping_of_found q inbox w w1 Hw1) as Hm.
  apply (wp_reads_ok _ _ _ _ _ _ (resolveOperator_reads q w1)). intros t2 w2 operator Ht2 Hw2 Ho.
  apply (wp_reads_ok _ _ _ _ _ _ (resolvePolicy_reads q w2)). intros t3 w3 policy Ht3 Hw3 Hp.
  pose proof (same_trans _ _ _ Hw1 Hw2) as Hw12. pose proof (same_trans _ _ _ Hw12 Hw3) as Hw13.
  destruct (same_parts _ _ Hw1) as (_ & _ & E1 & _). destruct (same_parts _ _ Hw12) as (_ & _ & _ & E2). rewrite E1 in Ho. rewrite E2 in Hp.
  assert (Forall (λ ev, no_effect ev = true) ((([] ++ t1) ++ t2) ++ t3)) as Ht by (rewrite !Forall_app; by split_and!).
  assert (∀ c, (non_null (mapping_of (mapping_now q w) inbox w1) || non_null inbox || non_null operator || non_null policy || non_null c = false) ↔
    mapping_of (mapping_now q w) inbox w1 = None ∧ inbox = None ∧ operator = None ∧ policy = None ∧ c = (None : option LookupCredentialResult)) as Hf.
  { intros c. destruct (mapping_of _ _ _), inbox, operator, policy, c; cbn; naive_solver. }
  apply wp_bind_ok. unfold resolveCredential. destruct credentials; cbn [negb]; [|split_and!; [done..| |apply Hf]; done].
  destruct (is_type q rt_credential) eqn:Hc; cbn [negb]; [|split_and!; [done..| |apply Hf]; done].
  cbn [bind perform wp]. intros w4 r Hw4. pose proof (same_trans _ _ _ Hw13 (Henv _ _ Hw4)) as Hw.
  assert (Forall (λ ev, no_effect ev = true) (((([] ++ t1) ++ t2) ++ t3) ++ [Event _ (CCredentialLookup q) w3 r])) as Ht4
    by (apply Forall_app; split; [done|by repeat constructor]).
  destruct r as [rec|e]; cbn [found_or_null wp].
  - split_and!; [done..| |apply Hf]. cbn. intros c [= <-]. split; [done|]. exists rec, w3. split; [set_solver|done].
  - unfold isNotFoundError. case_bool_decide; cbn [wp]; [split_and!; [done..| |apply Hf]; done|].
    split_and!; [done..|]. exists w3. set_solver.
Qed.
End lookup_runs.
