(* ===== verification/SearchActions.v ===== *)
(** * Search actions

    [core/src/search-actions.ts]: the search of messages, in one conversation
    or in all of them, and the search of resources by name. *)
From S2P Require Import Prelude JsDate Programs Text Json Errors Ids Scopes Policy Reveal Seals Credentials CredentialSpec Registries CredentialService Contracts CoreStores CoreWorld MessageActions.

Record MessageSearchHit := mkHit {
  mh_chatId : string; mh_messageId : string; mh_senderInboxId : string; mh_content : string;
  mh_sentAt : string
}.
Inductive ResourceKind := rk_operator | rk_policy | rk_credential | rk_conversation.
#[export] Instance ResourceKind_eq_dec : EqDecision ResourceKind.
Proof. solve_decision. Defined.
Record ResourceSearchHit := mkResource { rh_type : ResourceKind; rh_id : string; rh_label : string }.
Record SearchInput := mkSearch {
  sr_query : string; sr_chatId : option string; sr_limit : option Z; sr_identityLabel : option string
}.
Record SearchOutput A := mkFound { sf_query : string; sf_matches : list A; sf_total : nat }.
Arguments mkFound {A}.
Arguments sf_query {A}.
Arguments sf_matches {A}.
Arguments sf_total {A}.
Record ResourceInput := mkResourceSearch {
  ri_query : string; ri_type : option ResourceKind; ri_limit : option Z
}.
Definition DEFAULT_LIMIT : Z := 20.
Definition MESSAGES_PER_CONVERSATION : Z := 100.

(** The loops push the matching elements until there are [maxResults]. *)
Fixpoint push_matching {A B} (maxResults : Z) (hit : A → option B) (l : list A) (matches : list B) : list B :=
  match l with
  | [] => matches
  | x :: l =>
      if (maxResults <=? Z.of_nat (length matches))%Z then matches
      else push_matching maxResults hit l (matches ++ match hit x with Some h => [h] | None => [] end)
  end.
Section hits.
(** [String.prototype.toLowerCase]. *)
Context (toLowerCase : string → string).
Definition message_hit (queryLower chatId : string) (msg : XmtpDecodedMessage) : option MessageSearchHit :=
  match xm_content msg with
  | JStr content =>
      if str_includes queryLower (toLowerCase content)
      then Some (mkHit chatId (xm_messageId msg) (xm_senderInboxId msg) content (xm_sentAt msg))
      else None
  | _ => None
  end.

Definition name_matches (queryLower : string) (names : list string) : bool :=
  existsb (λ n, str_includes queryLower (toLowerCase n)) names.
Definition operator_hit (queryLower : string) (op : OperatorRecordType) : option ResourceSearchHit :=
  if name_matches queryLower [or_id op; oc_label (or_config op)]
  then Some (mkResource rk_operator (or_id op) (oc_label (or_config op))) else None.
Definition policy_hit (queryLower : string) (p : PolicyRecordType) : option ResourceSearchHit :=
  if name_matches queryLower [policy_id p; label (policy_config p)]
  then Some (mkResource rk_policy (policy_id p) (label (policy_config p))) else None.
Definition credential_hit (queryLower : string) (c : CredentialRecord) : option ResourceSearchHit :=
  if name_matches queryLower [cr_credentialId c; cr_operatorId c]
  then Some (mkResource rk_credential (cr_credentialId c) ("operator:" +:+ cr_operatorId c)) else None.
Definition local_chat (maps : option IdMappings) (groupId : string) : string :=
  default groupId (maps ≫= im_getLocal groupId).
Definition conversation_hit (queryLower : string) (maps : option IdMappings) (g : XmtpGroupInfo)
  : option ResourceSearchHit :=
  let chatId := local_chat maps (xg_groupId g) in
  if name_matches queryLower [chatId; xg_groupId g; xg_name g]
  then Some (mkResource rk_conversation chatId (if bool_decide (xg_name g = "") then chatId else xg_name g))
  else None.
End hits.

Section search.
Context `{JsDate} (toLowerCase : string → string) (credentialManager : bool).
Definition authorizeAdminSearchAccess (ctx : HandlerContext) (chatId : option string) (w : CoreWorld)
  : res unit :=
  match truthy_str (hx_credentialId ctx) with
  | Some _ => Ok tt
  | None =>
      match hx_adminAuth ctx, hx_adminReadElevation ctx with
      | None, None => Ok tt
      | _, elevation =>
          match truthy_str chatId with
          | None => Err (PermissionError_create "Admin message search requires a specific conversation"
                           (Some [("hint", JStr "--chat")]))
          | Some chatId =>
              match elevation with
              | Some elevation => authorizeAdminReadElevation elevation chatId w
              | None =>
                  Err (PermissionError_create "Admin message search requires owner-approved elevation"
                    (Some [("chatId", JStr chatId); ("hint", JStr "--dangerously-allow-message-read")]))
              end
          end
      end
  end.

Definition nothing {A} (query : string) : res (SearchOutput A) := Ok (mkFound query [] 0).
Definition found {A} (query : string) (matches : list A) : res (SearchOutput A) :=
  Ok (mkFound query matches (length matches)).
Definition search_options : ListMessagesOptions :=
  mkListOptions (Some MESSAGES_PER_CONVERSATION) None None None.
Definition out_of_scope (scopedGroupIds : option (list string)) (groupId : string) : bool :=
  match scopedGroupIds with Some s => negb (bool_decide (groupId ∈ s)) | None => false end.

(** The loop over all conversations. *)
Fixpoint search_groups (client : nat) (scopedGroupIds : option (list string)) (maxResults : Z)
  (queryLower : string) (groups : list XmtpGroupInfo) (matches : list MessageSearchHit)
  : CProg (list MessageSearchHit) :=
  (match groups with
   | [] => Ret matches
   | group :: groups =>
       if (maxResults <=? Z.of_nat (length matches))%Z then Ret matches
       else if out_of_scope scopedGroupIds (xg_groupId group)
       then search_groups client scopedGroupIds maxResults queryLower groups matches
       else
         await listResult <- CListMessages client (xg_groupId group) search_options ;;
         match listResult with
         | Err _ => search_groups client scopedGroupIds maxResults queryLower groups matches
         | Ok messages =>
             sync chatId <- peek (λ w, local_chat (cw_idMappings w) (xg_groupId group)) ;;
             search_groups client scopedGroupIds maxResults queryLower groups
               (push_matching maxResults (message_hit toLowerCase queryLower chatId) messages matches)
         end
   end)%prog.

(** From the resolved scope on; [None] is no credential. *)
Definition search_in (input : SearchInput) (scopedGroupIds : option (list string))
  : CProg (res (SearchOutput MessageSearchHit)) :=
  (ok managed <- resolve_client (sr_identityLabel input) ;;
   let maxResults := default DEFAULT_LIMIT (sr_limit input) in
   let queryLower := toLowerCase (sr_query input) in
   match truthy_str (sr_chatId input) with
   | Some chatId =>
       sync groupId <- peek (group_now chatId) ;;
       if out_of_scope scopedGroupIds groupId then Ret (nothing (sr_query input))
       else
         ok messages <- perform (CListMessages (mc_client managed) groupId search_options) ;;
         Ret (found (sr_query input) (push_matching maxResults (message_hit toLowerCase queryLower chatId) messages []))
   | None =>
       ok groups <- perform (CListGroups (mc_client managed)) ;;
       do matches <- search_groups (mc_client managed) scopedGroupIds maxResults queryLower groups [] ;;
       Ret (found (sr_query input) matches)
   end)%prog.
Definition searchMessages (input : SearchInput) (ctx : HandlerContext)
  : CProg (res (SearchOutput MessageSearchHit)) :=
  (sync elevationResult <- peek (authorizeAdminSearchAccess ctx (sr_chatId input)) ;;
   match elevationResult with
   | Err e => Ret (Err e)
   | Ok _ =>
       match truthy_str (hx_credentialId ctx) with
       | None => search_in input None
       | Some credentialId =>
           if negb credentialManager then Ret (nothing (sr_query input))
           else
             await credResult <- CCredentialLookup credentialId ;;
             match credResult with
             | Err _ => Ret (nothing (sr_query input))
             | Ok credential =>
                 if negb (bool_decide (read_messages ∈ resolveEffectiveScopes credential))
                 then Ret (nothing (sr_query input))
                 else
                   sync scopedGroupIds <- peek (scoped_groups credential) ;;
                   search_in input (Some scopedGroupIds)
             end
       end
   end)%prog.

(** ** Resources *)
Definition searchResources (input : ResourceInput) : CProg (res (SearchOutput ResourceSearchHit)) :=
  let maxResults := default DEFAULT_LIMIT (ri_limit input) in
  let queryLower := toLowerCase (ri_query input) in
  let shouldSearch k := match ri_type input with None => true | Some t => bool_decide (t = k) end in
  let required := bool_decide (ri_type input = Some rk_conversation) in
  (do matches <- (if shouldSearch rk_operator then
       sync operatorManager <- peek cw_operators ;;
       match operatorManager with
       | None => Ret []
       | Some st =>
           await _ <- CTick ;; Ret (push_matching maxResults (operator_hit toLowerCase queryLower) (op_list st) [])
       end else Ret []) ;;
   do matches <- (if shouldSearch rk_policy then
       sync policyManager <- peek cw_policies ;;
       match policyManager with
       | None => Ret matches
       | Some st =>
           await _ <- CTick ;; Ret (push_matching maxResults (policy_hit toLowerCase queryLower) (pol_list st) matches)
       end else Ret matches) ;;
   do matches <- (if shouldSearch rk_credential && credentialManager then
       await listResult <- CCredentialList ;;
       Ret (match listResult with
            | Ok l => push_matching maxResults (credential_hit toLowerCase queryLower) l matches
            | Err _ => matches
            end) else Ret matches) ;;
   if shouldSearch rk_conversation then
     do managedResult <- resolve_client None ;;
     match managedResult with
     | Err e => Ret (if required then Err e else found (ri_query input) matches)
     | Ok managed =>
         await groupsResult <- CListGroups (mc_client managed) ;;
         match groupsResult with
         | Err e => Ret (if required then Err e else found (ri_query input) matches)
         | Ok groups =>
             sync maps <- peek cw_idMappings ;;
             Ret (found (ri_query input)
               (push_matching maxResults (conversation_hit toLowerCase queryLower maps) groups matches))
         end
     end
   else Ret (found (ri_query input) matches))%prog.
End search.

(** ** What a search finds *)
Lemma push_matching_take {A B} maxResults (hit : A → option B) l matches :
  push_matching maxResults hit l matches =
  matches ++ take (Z.to_nat maxResults - length matches) (base.omap hit l).
Proof.
  revert matches. induction l as [|x l IH]; intros matches; cbn.
  { by rewrite take_nil, app_nil_r. }
  destruct (maxResults <=? Z.of_nat (length matches))%Z eqn:Hm.
  { apply Z.leb_le in Hm. replace (Z.to_nat maxResults - length matches)%nat with 0%nat by lia.
    by rewrite take_0, app_nil_r. }
  apply Z.leb_gt in Hm. rewrite IH. destruct (hit x) as [h|]; [|by rewrite app_nil_r].
  rewrite length_app, <-app_assoc. cbn. f_equal.
  destruct (Z.to_nat maxResults - length matches)%nat as [|n] eqn:Hn; [lia|].
  cbn. do 2 f_equal. lia.
Qed.
Lemma push_matching_elem {A B} maxResults (hit : A → option B) l matches h :
  h ∈ push_matching maxResults hit l matches → h ∈ matches ∨ ∃ x, x ∈ l ∧ hit x = Some h.
Proof.
  rewrite push_matching_take, elem_of_app. intros [?|Hh]; [by left|right].
  apply list_elem_of_omap. by eapply subseteq_take.
Qed.
Lemma push_matching_length {A B} maxResults (hit : A → option B) l matches :
  (length matches ≤ Z.to_nat maxResults → length (push_matching maxResults hit l matches) ≤ Z.to_nat maxResults)%nat.
Proof. rewrite push_matching_take, length_app, length_take. lia. Qed.
Lemma message_hit_spec lower q chatId m h : message_hit lower q chatId m = Some h →
  mh_chatId h = chatId ∧ xm_content m = JStr (mh_content h) ∧ mh_messageId h = xm_messageId m ∧
  str_includes q (lower (mh_content h)) = true.
Proof.
  unfold message_hit. destruct (xm_content m); try done. destruct (str_includes _ _) eqn:Hi; [|done].
  by intros [= <-].
Qed.

Section guarantees.
Context `{JsDate} (toLowerCase : string → string) (credentialManager : bool)
        (env : CoreWorld → CoreWorld → Prop).

(** A match comes from a listing of this search and contains the query. *)
Definition match_ok (queryLower : string) (t : list cevent) (h : MessageSearchHit) : Prop :=
  str_includes queryLower (toLowerCase (mh_content h)) = true ∧
  ∃ client g w1 l m, Event (res (list XmtpDecodedMessage)) (CListMessages client g search_options) w1 (Ok l) ∈ t ∧
    m ∈ l ∧ xm_messageId m = mh_messageId h ∧ xm_content m = JStr (mh_content h).
Definition matches_ok (maxResults : Z) (queryLower : string) (t : list cevent) (l : list MessageSearchHit) : Prop :=
  (length l ≤ Z.to_nat maxResults)%nat ∧ ∀ h, h ∈ l → match_ok queryLower t h.
(** The listings of a search are in scope, and are of the chat if one is given. *)
Definition listing_ok (scopedGroupIds : option (list string)) (chatId : option string) (ev : cevent) : Prop :=
  is_read ev = true → ∃ g, reads_group ev = Some g ∧ out_of_scope scopedGroupIds g = false ∧
    ∀ c, chatId = Some c → g = group_now c (ev_world ev).

Lemma match_ok_app queryLower t t' h : match_ok queryLower t h → match_ok queryLower (t ++ t') h.
Proof.
  intros (Hi & client & g & w1 & l & m & Hin & Hrest). split; [done|].
  exists client, g, w1, l, m. split; [apply elem_of_app; by left|done].
Qed.
Lemma matches_ok_push maxResults queryLower chatId client g w1 l t matches :
  matches_ok maxResults queryLower t matches →
  Event (res (list XmtpDecodedMessage)) (CListMessages client g search_options) w1 (Ok l) ∈ t →
  matches_ok maxResults queryLower t (push_matching maxResults (message_hit toLowerCase queryLower chatId) l matches).
Proof.
  intros [Hlen Hm] Hev. split; [by apply push_matching_length|].
  intros h [Hh|(m & Hml & Hh)]%push_matching_elem; [by apply Hm|].
  apply message_hit_spec in Hh as (_ & Hc & Hid & Hi). split; [done|]. by exists client, g, w1, l, m.
Qed.
Lemma search_groups_wp client scoped maxResults queryLower groups matches w pre
  (Q : list cevent → CoreWorld → list MessageSearchHit → Prop) :
  matches_ok maxResults queryLower pre matches → Forall (listing_ok scoped None) pre →
  (∀ t w' l, matches_ok maxResults queryLower t l → Forall (listing_ok scoped None) t → Q t w' l) →
  wp env (search_groups toLowerCase client scoped maxResults queryLower groups matches) w pre Q.
Proof.
  revert matches w pre. induction groups as [|g groups IH]; intros matches w pre Hm Hpre HQ; cbn; [by apply HQ|].
  destruct (_ <=? _)%Z; [by apply HQ|]. destruct (out_of_scope scoped (xg_groupId g)) eqn:Hs; [by apply IH|].
  cbn. intros w1 x Hw1.
  assert (Forall (listing_ok scoped None) (pre ++ [Event _ (CListMessages client (xg_groupId g) search_options) w x]))
    as Hpre'.
  { apply Forall_app. split; [done|]. constructor; [|done]. intros _. by exists (xg_groupId g). }
  assert (matches_ok maxResults queryLower
    (pre ++ [Event _ (CListMessages client (xg_groupId g) search_options) w x]) matches) as Hm'.
  { destruct Hm as [Hl Hm]. split; [done|]. intros h Hh. by apply match_ok_app, Hm. }
  destruct x as [l|e]; cbn; [|by apply IH].
  apply IH; [|done|done]. eapply matches_ok_push; [done|].
  apply elem_of_app. right. apply list_elem_of_singleton. reflexivity.
Qed.

(** What a search returns, given the scope it works with. *)
Definition search_result (input : SearchInput) (scoped : option (list string)) (t : list cevent)
  (r : res (SearchOutput MessageSearchHit)) : Prop :=
  Forall (listing_ok scoped (truthy_str (sr_chatId input))) t ∧
  ∀ out, r = Ok out → sf_query out = sr_query input ∧ sf_total out = length (sf_matches out) ∧
    matches_ok (default DEFAULT_LIMIT (sr_limit input)) (toLowerCase (sr_query input)) t (sf_matches out).
Lemma quiet_listing_ok scoped chatId t :
  Forall (λ ev, no_effect ev = true) t → Forall (listing_ok scoped chatId) t.
Proof.
  intros Ht. apply Forall_forall. intros ev Hev Hrd. destruct (no_effect_no_read t Ht ev Hev). congruence.
Qed.
Lemma nothing_ok input scoped t :
  Forall (λ ev, no_effect ev = true) t → search_result input scoped t (nothing (sr_query input)).
Proof.
  intros Ht. split; [by apply quiet_listing_ok|]. intros out [= <-]. cbn.
  split_and!; [done|done|]. split; [cbn; lia|by intros h ?%not_elem_of_nil].
Qed.
Lemma search_in_wp input scoped w pre :
  Forall (λ ev, no_effect ev = true) pre →
  wp env (search_in toLowerCase input scoped) w pre (λ t _ r, search_result input scoped t r).
Proof.
  intros Hpre. unfold search_in. apply wp_bind_ok, resolve_client_prelim.
  intros t w1 [m|e] Ht Hw _; [|split; [by apply quiet_listing_ok, Forall_app|done]].
  assert (Forall (λ ev, no_effect ev = true) (pre ++ t)) as Hall by by apply Forall_app.
  assert (∀ maxResults q chatId, matches_ok maxResults q (pre ++ t) [] ∧
    Forall (listing_ok scoped chatId) (pre ++ t)) as Hstart.
  { intros mx q c. split; [|by apply quiet_listing_ok]. split; [cbn; lia|by intros h ?%not_elem_of_nil]. }
  destruct (truthy_str (sr_chatId input)) as [chatId|] eqn:Hc; cbn.
  - destruct (out_of_scope scoped _) eqn:Hs; cbn; [by apply nothing_ok|].
    intros w2 x Hw2.
    assert (Forall (listing_ok scoped (Some chatId)) ((pre ++ t) ++
      [Event _ (CListMessages (mc_client m) (group_now chatId w1) search_options) w1 x])) as Hl.
    { apply Forall_app. split; [apply (Hstart 0%Z "")|]. constructor; [|done]. intros _.
      exists (group_now chatId w1). split_and!; [done|done|]. by intros c [= <-]. }
    destruct x as [l|e]; cbn; (split; [by rewrite Hc|]); [|done].
    intros out [= <-]. cbn. split_and!; [done|done|]. eapply matches_ok_push.
    { split; [cbn; lia|by intros h ?%not_elem_of_nil]. }
    apply elem_of_app. right. apply list_elem_of_singleton. reflexivity.
  - intros w2 [groups|e] Hw2; cbn.
    2: { split; [|done]. rewrite Hc. apply Forall_app. split; [apply (Hstart 0%Z "")|].
         constructor; [|done]. by intros. }
    apply wp_bind, search_groups_wp.
    + split; [cbn; lia|by intros h ?%not_elem_of_nil].
    + apply Forall_app. split; [apply (Hstart 0%Z "")|]. constructor; [|done]. by intros.
    + intros t' w' l Hm Hl. split; [by rewrite Hc|]. intros out [= <-]. cbn. done.
Qed.

Lemma search_access_ok ctx chatId w :
  authorizeAdminSearchAccess ctx chatId w = Ok tt → truthy_str (hx_credentialId ctx) = None →
  (hx_adminAuth ctx = None ∧ hx_adminReadElevation ctx = None) ∨
  ∃ c e x, truthy_str chatId = Some c ∧ hx_adminReadElevation ctx = Some e ∧
    date_getTime (ae_expiresAt e) = Some x ∧ (cw_now w < x)%Z ∧
    group_now c w ∈ map (λ c, group_now c w) (ae_chatIds e).
Proof.
  unfold authorizeAdminSearchAccess. intros Ha Hc. rewrite Hc in Ha.
  destruct (hx_adminReadElevation ctx) as [e|] eqn:He.
  - right. destruct (hx_adminAuth ctx), (truthy_str chatId) as [c|]; try done;
      pose proof (admin_access_ok ctx c w) as Hcov;
      unfold authorizeAdminReadAccess, elevation_covers in Hcov; rewrite Hc, He in Hcov;
      destruct (Hcov Ha eq_refl) as [(x & Hx & Hlt) Hin]; by exists c, e, x.
  - destruct (hx_adminAuth ctx); [|by left]. by destruct (truthy_str chatId).
Qed.

(** With a credential, the search works in the groups of a record that was
    looked up for it and has the scope, or in none; without one it is the
    admin's, of one conversation and approved, or nobody's. *)
Definition search_authority (input : SearchInput) (ctx : HandlerContext) (w : CoreWorld)
  (scoped : option (list string)) (t : list cevent) (r : res (SearchOutput MessageSearchHit)) : Prop :=
  match truthy_str (hx_credentialId ctx) with
  | Some cid => scoped = Some [] ∨ ∃ c w1,
      scoped = Some (scoped_groups c w1) ∧ rtc env w w1 ∧
      Event (res CredentialRecord) (CCredentialLookup cid) w (Ok c) ∈ t ∧
      read_messages ∈ sc_allow (cr_base c) ∧ read_messages ∉ sc_deny (cr_base c)
  | None => scoped = None ∧
      ((t = [] ∧ ∃ e, r = Err e) ∨ (hx_adminAuth ctx = None ∧ hx_adminReadElevation ctx = None) ∨
       ∃ c e x, truthy_str (sr_chatId input) = Some c ∧ hx_adminReadElevation ctx = Some e ∧
         date_getTime (ae_expiresAt e) = Some x ∧ (cw_now w < x)%Z ∧
         group_now c w ∈ map (λ c, group_now c w) (ae_chatIds e))
  end.
Lemma searchMessages_wp input ctx w :
  wp env (searchMessages toLowerCase credentialManager input ctx) w []
    (λ t _ r, ∃ scoped, search_result input scoped t r ∧ search_authority input ctx w scoped t r).
Proof.
  unfold searchMessages, peek, search_authority. cbn [wp fst snd].
  destruct (truthy_str (hx_credentialId ctx)) as [cid|] eqn:Hc; cycle 1.
  { pose proof (search_access_ok ctx (sr_chatId input) w) as Hok.
    destruct (authorizeAdminSearchAccess ctx (sr_chatId input) w) as [[]|e].
    - specialize (Hok eq_refl Hc). eapply wp_mono; [|by apply search_in_wp].
      intros t w' r Hr. exists None. split_and!; [done|done|]. by right.
    - exists None. split; [split; [constructor|done]|]. split; [done|]. left. eauto. }
  assert (authorizeAdminSearchAccess ctx (sr_chatId input) w = Ok tt) as ->.
  { unfold authorizeAdminSearchAccess. by rewrite Hc. }
  destruct credentialManager; cbn; [|exists (Some []); split; [by apply nothing_ok|by left]].
  intros w1 [c|e] Hw1; cbn; [|exists (Some []); split; [apply nothing_ok; by repeat constructor|by left]].
  case_bool_decide as Hrd; cbn; [|exists (Some []); split; [apply nothing_ok; by repeat constructor|by left]].
  apply resolveEffectiveScopes_elem in Hrd.
  eapply wp_mono; [|apply wp_prefix, search_in_wp; by repeat constructor].
  intros t w' r [Hr Hpre]. exists (Some (scoped_groups c w1)). split; [done|]. right. exists c, w1.
  split_and!; [done|by apply rtc_once| |apply Hrd..].
  eapply elem_of_prefix; [|exact Hpre]. left.
Qed.

(** a message search returns at most the limit of matches, each the text
    of a message listed during this search that contains the query.  With a
    credential it lists only groups its record covers, and only if the record
    allows [read-messages] and does not deny it; for the admin it lists only
    the group of the one conversation asked for, under an approval that was
    live and covered it when the search began. *)
Theorem search_messages_safe input ctx w t w' r :
  run env w (searchMessages toLowerCase credentialManager input ctx) t w' r →
  ∃ scoped, search_authority input ctx w scoped t r ∧
    (∀ ev, ev ∈ t → listing_ok scoped (truthy_str (sr_chatId input)) ev) ∧
    ∀ out, r = Ok out → sf_query out = sr_query input ∧ sf_total out = length (sf_matches out) ∧
      (length (sf_matches out) ≤ Z.to_nat (default DEFAULT_LIMIT (sr_limit input)))%nat ∧
      ∀ h, h ∈ sf_matches out → match_ok (toLowerCase (sr_query input)) t h.
Proof.
  intros Hrun. destruct (wp_run _ _ _ _ _ _ _ _ (searchMessages_wp input ctx w) Hrun)
    as (scoped & [Hl Hr] & Ha).
  exists scoped. split; [done|]. split; [by apply Forall_forall|done].
Qed.

(** ** Resources *)
Lemma push_matching_concat {A B} maxResults (hit : A → option B) l X :
  push_matching maxResults hit l (take (Z.to_nat maxResults) X) =
  take (Z.to_nat maxResults) (X ++ base.omap hit l).
Proof. rewrite push_matching_take, take_app, length_take. do 2 f_equal. lia. Qed.
Definition wanted (input : ResourceInput) (k : ResourceKind) : bool :=
  match ri_type input with None => true | Some t => bool_decide (t = k) end.
(** The hits of each kind, and where they come from. *)
Definition operators_found (input : ResourceInput) (w : CoreWorld) : list ResourceSearchHit :=
  if wanted input rk_operator then
    base.omap (operator_hit toLowerCase (toLowerCase (ri_query input))) (from_option op_list [] (cw_operators w))
  else [].
Definition policies_found (input : ResourceInput) (w : CoreWorld) : list ResourceSearchHit :=
  if wanted input rk_policy then
    base.omap (policy_hit toLowerCase (toLowerCase (ri_query input))) (from_option pol_list [] (cw_policies w))
  else [].
Definition credentials_found (input : ResourceInput) (t : list cevent) (l : list ResourceSearchHit) : Prop :=
  l = [] ∨ wanted input rk_credential = true ∧ ∃ w1 cs,
    Event (res (list CredentialRecord)) CCredentialList w1 (Ok cs) ∈ t ∧
    l = base.omap (credential_hit toLowerCase (toLowerCase (ri_query input))) cs.
Definition conversations_found (input : ResourceInput) (t : list cevent) (l : list ResourceSearchHit) : Prop :=
  l = [] ∨ wanted input rk_conversation = true ∧ ∃ client w1 w2 gs,
    Event (res (list XmtpGroupInfo)) (CListGroups client) w1 (Ok gs) ∈ t ∧
    l = base.omap (conversation_hit toLowerCase (toLowerCase (ri_query input)) (cw_idMappings w2)) gs.

Lemma search_resources_wp input w :
  wp env (searchResources toLowerCase credentialManager input) w [] (λ t _ r,
    ∃ w1 creds convs, rtc env w w1 ∧ credentials_found input t creds ∧ conversations_found input t convs ∧
      match r with
      | Ok out => sf_total out = length (sf_matches out) ∧
          sf_matches out = take (Z.to_nat (default DEFAULT_LIMIT (ri_limit input)))
            (operators_found input w ++ policies_found input w1 ++ creds ++ convs)
      | Err _ => ri_type input = Some rk_conversation
      end).
Proof.
  unfold searchResources. cbv zeta.
  fold (wanted input rk_operator) (wanted input rk_policy) (wanted input rk_credential)
    (wanted input rk_conversation).
  set (n := default DEFAULT_LIMIT (ri_limit input)). set (q := toLowerCase (ri_query input)).
  apply wp_bind. eapply (wp_mono _ _ _ _ (λ t w1 m, rtc env w w1 ∧ m = take (Z.to_nat n) (operators_found input w))).
  2: { unfold operators_found. destruct (wanted input rk_operator); cbn; [|by rewrite take_nil].
       destruct (cw_operators w) as [st|]; cbn; [|by rewrite take_nil].
       intros w1 [] Hw. split; [by apply rtc_once|]. by rewrite push_matching_take, Nat.sub_0_r. }
  intros t1 w1 m1 [Hw1 ->]. apply wp_bind.
  eapply (wp_mono _ _ _ _ (λ t w2 m, rtc env w1 w2 ∧
    m = take (Z.to_nat n) (operators_found input w ++ policies_found input w1))).
  2: { unfold policies_found. destruct (wanted input rk_policy); cbn; [|by rewrite app_nil_r].
       destruct (cw_policies w1) as [st|]; cbn; [|by rewrite app_nil_r].
       intros w2 [] Hw. split; [by apply rtc_once|]. by rewrite push_matching_concat. }
  intros t2 w2 m2 [Hw2 ->]. apply wp_bind.
  eapply (wp_mono _ _ _ _ (λ t w3 m, ∃ creds, credentials_found input t creds ∧
    m = take (Z.to_nat n) (operators_found input w ++ policies_found input w1 ++ creds))).
  2: { destruct (wanted input rk_credential) eqn:Hc, credentialManager; cbn;
         try (exists []; split; [by left|by rewrite app_nil_r]).
       intros w3 [l|e] Hw; [|exists []; split; [by left|by rewrite app_nil_r]].
       eexists. split; [right; split; [done|]; exists w2, l; split; [|reflexivity]|].
       - apply elem_of_app. right. by left.
       - by rewrite push_matching_concat, <-app_assoc. }
  intros t3 w3 m3 (creds & Hcreds & ->).
  set (L := operators_found input w ++ policies_found input w1 ++ creds).
  assert (∀ t, t3 `prefix_of` t → credentials_found input t creds) as Hcr.
  { intros t [t' ->]. destruct Hcreds as [?|(? & w' & cs & Hev & ?)]; [by left|right].
    split; [done|]. exists w', cs. split; [apply elem_of_app; by left|done]. }
  assert (∀ t, t3 `prefix_of` t → ∃ w1' creds convs, rtc env w w1' ∧ credentials_found input t creds ∧
    conversations_found input t convs ∧ sf_total (mkFound (ri_query input) (take (Z.to_nat n) L)
      (length (take (Z.to_nat n) L))) = length (take (Z.to_nat n) L) ∧
    take (Z.to_nat n) L = take (Z.to_nat n) (operators_found input w ++ policies_found input w1' ++ creds ++ convs)) as Hstop.
  { intros t Ht. exists w1, creds, []. split_and!; [done|by apply Hcr|by left|done|].
    by rewrite app_nil_r. }
  assert (∀ t (e : SignetError), t3 `prefix_of` t → ri_type input = Some rk_conversation →
    ∃ w1' creds convs, rtc env w w1' ∧ credentials_found input t creds ∧ conversations_found input t convs ∧
      ri_type input = Some rk_conversation) as Hfail.
  { intros t e Ht Hr. exists w1, creds, []. split_and!; [done|by apply Hcr|by left|done]. }
  destruct (wanted input rk_conversation) eqn:Hwant; [|by apply Hstop].
  apply wp_bind, resolve_client_prelim. intros t w4 [m|e] Ht Hw4 _; cbn.
  2: { case_bool_decide; [apply (Hfail _ e); [by apply prefix_app_r|done]|apply Hstop; by apply prefix_app_r]. }
  intros w5 [gs|e] Hw5; cbn.
  2: { case_bool_decide; [apply (Hfail _ e); [by do 2 apply prefix_app_r|done]|
       apply Hstop; by do 2 apply prefix_app_r]. }
  eexists w1, creds, _. split_and!; [done|apply Hcr; by do 2 apply prefix_app_r| |done|].
  - right. split; [done|]. exists (mc_client m), w4, w5, gs. split; [|reflexivity].
    apply elem_of_app. right. by left.
  - rewrite push_matching_concat. unfold L. by rewrite <-!app_assoc.
Qed.

(** A resource search returns the first hits, up to the limit, of the
    operators that are not removed, the policies, the credentials and the
    conversations, in this order and of the kind asked for; it fails only
    when conversations were asked for explicitly. *)
Theorem search_resources_exact input w t w' r :
  run env w (searchResources toLowerCase credentialManager input) t w' r →
  ∃ w1 creds convs, rtc env w w1 ∧ credentials_found input t creds ∧ conversations_found input t convs ∧
    match r with
    | Ok out => sf_total out = length (sf_matches out) ∧
        sf_matches out = take (Z.to_nat (default DEFAULT_LIMIT (ri_limit input)))
          (operators_found input w ++ policies_found input w1 ++ creds ++ convs)
    | Err _ => ri_type input = Some rk_conversation
    end.
Proof. apply (wp_run _ _ _ _ _ _ _ _ (search_resources_wp input w)). Qed.
End guarantees.

(** ** A concrete search *)
Definition demo_search : SearchInput := mkSearch "HI" (Some "conv_1") (Some 5%Z) None.
Definition demo_searching : list cevent :=
  [Event (res CredentialRecord) (CCredentialLookup "cred_1") demo_core (Ok (demo_credential [read_messages]));
   Event unit CTick demo_core tt;
   Event (res (list XmtpDecodedMessage)) (CListMessages 7 "group-1" search_options) demo_core (Ok [demo_decoded])].
Definition demo_found : SearchOutput MessageSearchHit :=
  mkFound "HI" [mkHit "conv_1" "m1" "net-2" "hi" "2026"] 1.
Lemma demo_search_run :
  run eq demo_core (searchMessages (H := iso_date) toLowerCase true demo_search demo_ctx) demo_searching demo_core
    (Ok demo_found).
Proof.
  eexists _, _, (tl demo_searching). split_and!; [reflexivity|reflexivity|].
  eexists _, _, (tl (tl demo_searching)). split_and!; [reflexivity|reflexivity|].
  eexists _, _, []. by split_and!.
Qed.
Lemma search_messages_safe_witness :
  ∃ scoped, search_authority (H := iso_date) eq demo_search demo_ctx demo_core scoped demo_searching (Ok demo_found) ∧
    (length (sf_matches demo_found) ≤ 5)%nat.
Proof.
  destruct (search_messages_safe (H := iso_date) toLowerCase true eq demo_search demo_ctx demo_core demo_searching
    demo_core (Ok demo_found) demo_search_run) as (scoped & Ha & _ & Hr).
  exists scoped. split; [exact Ha|]. destruct (Hr demo_found eq_refl) as (_ & _ & Hl & _). exact Hl.
Defined.
