(* ===== verification/Invites.v ===== *)
(** * Convos invites

    [core/src/schemes/invite-crypto.ts], [schemes/convos/invite-generator.ts]
    and [invite-parser.ts]: an invite is the signed and encrypted name of a
    group, compressed, encoded and cut for transport in a URL; parsing takes
    it apart again and checks it.

    The primitives of the libraries the code calls (key derivation, the
    cipher, the signature scheme, deflate, base64, protobuf, URLs, UTF-8) are
    a [Class]; a second class has the laws their documentation states.  A
    throwing computation is a [result] whose error is the text of the
    exception. *)
From S2P Require Import Prelude Bytes JsDate Text Json Errors Ids.

(** ** Hexadecimal *)
Definition hex_digit (c : ascii) : option nat :=
  let n := nat_of_ascii c in
  if ((48 <=? n) && (n <=? 57))%nat then Some (n - 48)%nat
  else if ((97 <=? n) && (n <=? 102))%nat then Some (n - 87)%nat
  else if ((65 <=? n) && (n <=? 70))%nat then Some (n - 55)%nat
  else None.
Definition is_space (c : ascii) : bool := bool_decide (String c "" ∈ WHITESPACE).
(** [parseInt(pair, 16)] of at most two characters, stored in a byte; [NaN]
    is stored as 0 and a negative number wraps. *)
Definition parse_pair (pair : string) : Byte.byte :=
  match pair with
  | String c (String d EmptyString) =>
      match hex_digit c, hex_digit d with
      | Some x, Some y => to_byte (16 * x + y)
      | Some x, None => to_byte x
      | None, Some y =>
          if bool_decide (c = "-"%char) then to_byte (256 - y)
          else if bool_decide (c = "+"%char) || is_space c then to_byte y else to_byte 0
      | None, None => to_byte 0
      end
  | String c EmptyString => to_byte (default 0%nat (hex_digit c))
  | _ => to_byte 0
  end.
Definition hexToBytes (hex : string) : bytes :=
  let clean := if startsWith "0x" hex then str_drop 2 hex else hex in
  map (λ i, parse_pair (str_slice (i * 2) (i * 2 + 2) clean)) (seq 0 (String.length clean / 2)).
Definition bytesToHex (l : bytes) : string := bytes_hex l.

(** ** Conversation identifiers *)
Inductive ConversationIdFormat := cf_uuid | cf_string.
Definition hex_group (s : string) : bool := str_forallb (λ c, bool_decide (is_Some (hex_digit c))) s.
(** The match of the canonical UUID pattern, its groups joined. *)
Definition uuid_match (s : string) : option string :=
  let gs := [str_slice 0 8 s; str_slice 9 13 s; str_slice 14 18 s; str_slice 19 23 s; str_slice 24 36 s] in
  if (String.length s =? 36)%nat && forallb hex_group gs &&
     forallb (λ i, bool_decide (str_slice i (i + 1) s = "-")) [8; 13; 18; 23]%nat
  then Some (str_join "" gs) else None.
Definition packConversationId (conversationId : string) (format : option ConversationIdFormat)
  : result string bytes :=
  let uuidMatch := uuid_match conversationId in
  let shouldUseUuidEncoding :=
    match format with
    | Some cf_uuid => true
    | Some cf_string => false
    | None => bool_decide (is_Some uuidMatch)
    end in
  if shouldUseUuidEncoding then
    match uuidMatch with
    | None => Err ("Conversation ID format " +:+ dq "uuid" +:+ " requires a canonical UUID: " +:+ conversationId)
    | Some hex => Ok (Byte.x01 :: hexToBytes hex)
    end
  else
    let strBytes := utf8 conversationId in
    let n := length strBytes in
    if (n <=? 255)%nat then Ok (Byte.x02 :: to_byte n :: strBytes)
    else Ok (Byte.x02 :: Byte.x00 :: to_byte (n / 256) :: to_byte n :: strBytes).

Section unpack.
(** [TextDecoder.decode]. *)
Context (decodeUtf8 : bytes → string).
Definition unpackConversationId (data : bytes) : result string string :=
  match data !! 0%nat with
  | Some Byte.x01 =>
      let hex := bytesToHex (slice 1 17 data) in
      Ok (str_join "-" [str_slice 0 8 hex; str_slice 8 12 hex; str_slice 12 16 hex; str_slice 16 20 hex;
                        str_drop 20 hex])
  | Some Byte.x02 =>
      match data !! 1%nat with
      | None => Err "Invalid packed conversation ID"
      | Some length =>
          if bool_decide (nat_of_byte length = 0%nat) then
            match data !! 2%nat, data !! 3%nat with
            | Some high, Some low =>
                let length := (nat_of_byte high * 256 + nat_of_byte low)%nat in
                Ok (decodeUtf8 (slice 4 (4 + length) data))
            | _, _ => Err "Invalid packed conversation ID length"
            end
          else Ok (decodeUtf8 (slice 2 (2 + nat_of_byte length) data))
      end
  | tag => Err ("Unknown conversation ID tag: " +:+
                match tag with Some b => pretty (nat_of_byte b) | None => "undefined" end)
  end.
End unpack.

(** ** Lemmas on bytes and hexadecimal *)
Lemma hex_digit_lower c x : hex_digit c = Some x → (x < 16)%nat ∧ lower_char c = hex_char x.
Proof. destruct c as [[] [] [] [] [] [] [] []]; vm_compute; intros [= <-]; split; (lia || reflexivity). Qed.
Lemma byte_hex_to_byte x y : (x < 16)%nat → (y < 16)%nat →
  byte_hex (to_byte (16 * x + y)) = String (hex_char x) (String (hex_char y) "").
Proof.
  intros Hx Hy. unfold byte_hex. change (N.to_nat (Byte.to_N ?b)) with (nat_of_byte b).
  rewrite nat_of_to_byte, Nat.mod_small by lia.
  replace (16 * x + y)%nat with (y + x * 16)%nat by lia.
  by rewrite Nat.div_add, Nat.div_small, Nat.Div0.mod_add, Nat.mod_small by lia.
Qed.
(** [hexToBytes] without the optional prefix. *)
Definition hex_pairs (s : string) : bytes :=
  map (λ i, parse_pair (str_slice (i * 2) (i * 2 + 2) s)) (seq 0 (String.length s / 2)).
Lemma hex_pairs_cons c d s : hex_pairs (String c (String d s)) = parse_pair (String c (String d "")) :: hex_pairs s.
Proof.
  unfold hex_pairs. cbn [String.length].
  replace (S (S (String.length s)) / 2)%nat with (S (String.length s / 2)).
  2: { replace (S (S (String.length s))) with (String.length s + 1 * 2)%nat by lia. rewrite Nat.div_add; lia. }
  cbn [seq map]. f_equal. rewrite <-seq_shift, map_map. apply map_ext. intros i.
  reflexivity.
Qed.
Lemma hex_pairs_hex n s : String.length s = (n * 2)%nat → hex_group s = true →
  bytesToHex (hex_pairs s) = toLowerCase s.
Proof.
  revert s. induction n as [|n IH]; intros s Hl Hg.
  { by destruct s. }
  destruct s as [|c [|d s]]; cbn in Hl; try lia. rewrite hex_pairs_cons. cbn in Hg.
  apply andb_true_iff in Hg as [Hc [Hd Hg]%andb_true_iff].
  apply bool_decide_eq_true in Hc as [x Hx], Hd as [y Hy].
  destruct (hex_digit_lower c x Hx) as [? Hcx], (hex_digit_lower d y Hy) as [? Hdy].
  unfold bytesToHex in *. cbn [bytes_hex parse_pair toLowerCase]. rewrite Hx, Hy, byte_hex_to_byte, Hcx, Hdy by done.
  rewrite !str_cons_app, str_nil_app. do 2 f_equal. apply IH; [lia|done].
Qed.
Lemma hexToBytes_hex n s : String.length s = (n * 2)%nat → hex_group s = true →
  bytesToHex (hexToBytes s) = toLowerCase s.
Proof.
  intros Hl Hg. unfold hexToBytes.
  assert (startsWith "0x" s = false) as ->.
  { apply not_true_iff_false. intros [t ->]%startsWith_spec. cbn in Hg. rewrite ?str_cons_app in Hg. cbn in Hg. done. }
  by eapply hex_pairs_hex.
Qed.
Lemma bytes_of_hex n s : String.length s = (n * 2)%nat → hex_group s = true → hexToBytes s = hex_pairs s ∧ length (hexToBytes s) = n.
Proof.
  intros Hl Hg. assert (hexToBytes s = hex_pairs s) as E.
  { unfold hexToBytes. assert (startsWith "0x" s = false) as ->; [|done].
    apply not_true_iff_false. intros [t ->]%startsWith_spec. unfold hex_group in Hg. rewrite ?str_cons_app in Hg. cbn in Hg. done. }
  split; [done|]. rewrite E. unfold hex_pairs. rewrite length_map, length_seq, Hl. apply Nat.div_mul. lia.
Qed.
(** Identifiers in lower case survive. *)
Lemma lower_is_hex s : str_forallb is_hex s = true → hex_group s = true ∧ toLowerCase s = s.
Proof.
  unfold hex_group. induction s as [|c s IH]; [done|]. cbn [str_forallb toLowerCase].
  intros [Hc Hs]%andb_true_iff. destruct (IH Hs) as [Hg Hl]. rewrite Hg, Hl. assert (bool_decide (is_Some (hex_digit c)) = true ∧ lower_char c = c) as [-> ->]; [|done].
  destruct c as [[] [] [] [] [] [] [] []]; vm_compute in Hc |- *; done.
Qed.

Section pack.
Context (decodeUtf8 : bytes → string).
Lemma slice_tail k l : length l = k → slice 0 k l = l.
Proof. intros <-. unfold slice. by rewrite drop_0, Nat.sub_0_r, firstn_all. Qed.
Lemma slice_cons i j b l : slice (S i) (S j) (b :: l) = slice i j l.
Proof. done. Qed.
(** A canonical UUID that is packed as one comes back in lower case. *)
Lemma uuid_unpacks id hex : uuid_match id = Some hex →
  unpackConversationId decodeUtf8 (Byte.x01 :: hexToBytes hex) = Ok (toLowerCase id).
Proof.
  intros Hu. assert (String.length hex = 32%nat ∧ hex_group hex = true ∧
    (let l := toLowerCase hex in str_join "-" [str_slice 0 8 l; str_slice 8 12 l; str_slice 12 16 l; str_slice 16 20 l; str_drop 20 l])
      = toLowerCase id) as (Hl & Hg & Hj).
  { revert Hu. unfold uuid_match. destruct (String.length id =? 36)%nat eqn:Hl; [|done]. apply Nat.eqb_eq in Hl.
    do 36 (destruct id as [|? id]; [done|]). destruct id; [|done]. clear Hl.
    cbv [str_slice str_take str_drop Nat.sub Nat.add forallb]. cbn [andb].
    destruct (_ && _) eqn:E; [|done]. intros [= <-]. unfold hex_group in *. cbn [str_forallb] in E.
    rewrite !andb_true_iff, !bool_decide_eq_true in E. destruct_and! E. simplify_eq.
    split_and!; [reflexivity| |reflexivity].
    rewrite !str_cons_app. cbn [String.append str_forallb]. rewrite ?str_cons_app, ?str_nil_app. cbn [str_forallb].
    rewrite !andb_true_iff, !bool_decide_eq_true. by split_and!. }
  destruct (bytes_of_hex 16 hex Hl Hg) as [_ Hb]. unfold unpackConversationId. cbn [lookup list_lookup].
  rewrite slice_cons, slice_tail, (hexToBytes_hex 16) by done. by rewrite <- Hj.
Qed.
(** Any other identifier of 1 to 65535 bytes comes back as it is. *)
Lemma pack_string id format data : uuid_match id = None ∨ format = Some cf_string →
  packConversationId id format = Ok data → decodeUtf8 (utf8 id) = id →
  (0 < String.length id < 256 * 256)%nat → unpackConversationId decodeUtf8 data = Ok id.
Proof.
  intros Hf Hp Hdec Hlen. unfold packConversationId in Hp.
  assert (length (utf8 id) = String.length id) as Hl by apply length_utf8.
  replace (match format with Some cf_uuid => true | Some cf_string => false
           | None => bool_decide (is_Some (uuid_match id)) end) with
    (match format with Some cf_uuid => true | _ => false end) in Hp.
  2: { destruct format as [[]|]; [done..|]. destruct Hf as [->|]; [|done]. by rewrite bool_decide_false by (by intros []). }
  assert (match format with Some cf_uuid => true | _ => false end = false ∨
          (format = Some cf_uuid ∧ uuid_match id = None)) as [Hno|[-> Hu]].
  { destruct format as [[]|]; [|by left..]. right. destruct Hf; [done|done]. }
  2: { by rewrite Hu in Hp. }
  rewrite Hno in Hp. destruct (length (utf8 id) <=? 255)%nat eqn:Hle.
  - injection Hp as <-. apply Nat.leb_le in Hle. unfold unpackConversationId. cbn [lookup list_lookup].
    rewrite nat_of_to_byte, Nat.mod_small by lia. rewrite bool_decide_false by lia.
    replace (2 + length (utf8 id))%nat with (S (S (length (utf8 id)))) by lia.
    by rewrite !slice_cons, slice_tail, Hdec.
  - injection Hp as <-. apply Nat.leb_gt in Hle. unfold unpackConversationId. cbn [lookup list_lookup].
    rewrite bool_decide_true by reflexivity. rewrite !nat_of_to_byte.
    rewrite (Nat.mod_small (length (utf8 id) / 256)) by (apply Nat.Div0.div_lt_upper_bound; lia).
    assert (length (utf8 id) / 256 * 256 + length (utf8 id) mod 256 = length (utf8 id))%nat as ->.
    { pose proof (Nat.div_mod_eq (length (utf8 id)) 256). lia. }
    replace (4 + length (utf8 id))%nat with (S (S (S (S (length (utf8 id)))))) by lia.
    by rewrite !slice_cons, slice_tail, Hdec.
Qed.
(** What comes back. *)
Definition recovered_id (id : string) (format : option ConversationIdFormat) : string :=
  match format with
  | Some cf_string => id
  | Some cf_uuid => toLowerCase id
  | None => if decide (is_Some (uuid_match id)) then toLowerCase id else id
  end.
Lemma pack_roundtrip id format data : packConversationId id format = Ok data → decodeUtf8 (utf8 id) = id →
  (0 < String.length id < 256 * 256)%nat → unpackConversationId decodeUtf8 data = Ok (recovered_id id format).
Proof.
  intros Hp Hdec Hlen. destruct (uuid_match id) as [hex|] eqn:Hu.
  - destruct format as [[]|]; [|by eapply (pack_string _ _ _ (or_intror eq_refl))|]; unfold packConversationId in Hp; rewrite Hu in Hp;
      injection Hp as <-; rewrite (uuid_unpacks _ _ Hu); [done|]. unfold recovered_id. by rewrite Hu, decide_True by eauto.
  - rewrite (pack_string id format data) by auto. unfold recovered_id. rewrite Hu.
    destruct format as [[]|]; [|done|by rewrite decide_False by (by intros [])]. unfold packConversationId in Hp. by rewrite Hu in Hp.
Qed.
End pack.

(** ** The libraries *)
Record InvitePayload := mkPayload {
  ip_conversationToken : bytes; ip_creatorInboxId : bytes; ip_tag : string; ip_name : option string;
  ip_description : option string; ip_imageURL : option string;
  ip_conversationExpiresAtUnix : option Z; ip_expiresAtUnix : option Z; ip_expiresAfterUse : bool
}.
(** A parsed URL: its search parameters and its path. *)
Record UrlView := mkUrl { url_param : string → option string; url_pathname : string }.
Class InviteLib := {
  l_decodeUtf8 : bytes → string;
  l_hkdf : bytes → bytes → bytes → bytes;                    (* key, salt, info *)
  l_encrypt : bytes → bytes → bytes → bytes → bytes;         (* key, nonce, aad, plaintext *)
  l_decrypt : bytes → bytes → bytes → bytes → result string bytes;
  l_sha256 : bytes → bytes;
  l_sign : bytes → bytes → result string (bytes * nat);      (* hash, private key *)
  l_recover : bytes → nat → bytes → result string bytes;     (* compact, recovery bit, hash *)
  l_publicKey : bytes → result string bytes;
  l_deflate : bytes → bytes;
  l_inflate : Z → bytes → result string bytes;             (* maxOutputLength *)
  l_base64 : string → bytes;                                 (* Buffer.from(_, "base64") *)
  l_base64url : bytes → string;
  l_payload_verify : InvitePayload → option string;
  l_payload_encode : InvitePayload → bytes;
  l_payload_decode : bytes → result string InvitePayload;
  l_signed_encode : bytes → bytes → bytes;                   (* payload, signature *)
  l_signed_decode : bytes → result string (bytes * bytes);
  l_url : string → option UrlView                            (* new URL; None when it throws *)
}.
(** [encodeURIComponent], on UTF-8. *)
Definition uri_unreserved (c : ascii) : bool :=
  let n := nat_of_ascii c in
  ((48 <=? n) && (n <=? 57) || (65 <=? n) && (n <=? 90) || (97 <=? n) && (n <=? 122))%nat ||
  bool_decide (String c "" ∈ ["-"; "_"; "."; "!"; "~"; "*"; "'"; "("; ")"]).
Definition upper_hex (n : nat) : ascii := ascii_of_nat (if n <? 10 then 48 + n else 55 + n)%nat.
Fixpoint encodeURIComponent (s : string) : string :=
  match s with
  | EmptyString => ""
  | String c s =>
      (if uri_unreserved c then String c ""
       else let n := nat_of_ascii c in
            String "%" (String (upper_hex (n / 16)) (String (upper_hex (n mod 16)) ""))) +:+
      encodeURIComponent s
  end.
Definition removeAll (c : ascii) (s : string) : string :=
  str_join "" (str_split c s).
(** [Array.from(...).filter(Boolean)]. *)
Definition non_empty (l : list string) : list string := List.filter (λ s, negb (bool_decide (s = ""))) l.

(** ** [createInviteCrypto] *)
Record InviteCryptoConfig := mkCryptoConfig {
  icc_salt : string; icc_formatVersion : Z; icc_compressionMarker : Z;
  icc_compressionThresholdBytes : Z; icc_maxDecompressedSize : Z
}.
(** The defaults, for a salt. *)
Definition default_crypto (salt : string) : InviteCryptoConfig := mkCryptoConfig salt 1 31 100 (1024 * 1024).
Definition convosInviteCrypto : InviteCryptoConfig := default_crypto "ConvosInviteV1".
(** [requireByteConfig]: what [createInviteCrypto] throws for. *)
Definition byte_config (c : InviteCryptoConfig) : bool :=
  ((0 <=? icc_formatVersion c) && (icc_formatVersion c <=? 255) &&
   (0 <=? icc_compressionMarker c) && (icc_compressionMarker c <=? 255))%Z.
(** A number stored in a [Uint8Array], and read from it. *)
Definition store (z : Z) : Byte.byte := to_byte (Z.to_nat (z mod 256)).
Definition byteZ (b : Byte.byte) : Z := Z.of_nat (nat_of_byte b).
Definition blen (l : bytes) : Z := Z.of_nat (length l).

Section crypto.
Context `{InviteLib} (config : InviteCryptoConfig).
Definition deriveTokenKey (privateKeyBytes : bytes) (inboxId : string) : bytes :=
  l_hkdf privateKeyBytes (utf8 (icc_salt config)) (utf8 ("inbox:" +:+ inboxId)).
(** [nonce] is the fresh random value of 12 bytes. *)
Definition encryptToken (nonce plaintext : bytes) (inboxId : string) (privateKeyBytes : bytes) : bytes :=
  let key := deriveTokenKey privateKeyBytes inboxId in
  let ciphertext := l_encrypt key nonce (utf8 inboxId) plaintext in
  store (icc_formatVersion config) :: nonce ++ ciphertext.
Definition show_byte (b : option Byte.byte) : string :=
  match b with Some b => pretty (nat_of_byte b) | None => "undefined" end.
Definition decryptToken (tokenBytes : bytes) (inboxId : string) (privateKeyBytes : bytes)
  : result string bytes :=
  if negb (bool_decide (byteZ <$> tokenBytes !! 0%nat = Some (icc_formatVersion config))) then
    Err ("Unsupported token version: " +:+ show_byte (tokenBytes !! 0%nat))
  else
    l_decrypt (deriveTokenKey privateKeyBytes inboxId) (slice 1 13 tokenBytes) (utf8 inboxId) (drop 13 tokenBytes).
Definition signPayload (payloadBytes privateKeyBytes : bytes) : result string bytes :=
  match l_sign (l_sha256 payloadBytes) privateKeyBytes with
  | Err text => Err text
  | Ok (compact, recovery) => Ok (compact ++ [to_byte recovery])
  end.
Definition recoverPublicKey (payloadBytes signatureBytes : bytes) : result string bytes :=
  if negb (length signatureBytes =? 65)%nat then
    Err ("Invalid signature length: expected 65 bytes, got " +:+ pretty (length signatureBytes))
  else
    let recoveryBit := nat_of_byte <$> signatureBytes !! 64%nat in
    match recoveryBit with
    | Some b => if (b <=? 3)%nat then l_recover (slice 0 64 signatureBytes) b (l_sha256 payloadBytes)
                else Err ("Invalid recovery bit: " +:+ pretty b)
    | None => Err "Invalid recovery bit: undefined"
    end.
Definition compress (data : bytes) : bytes :=
  let n := blen data in
  if (n <=? icc_compressionThresholdBytes config)%Z then data
  else
    let compressed := l_deflate data in
    if (blen compressed + 5 <? n)%Z then
      store (icc_compressionMarker config) :: store (Z.shiftr n 24) :: store (Z.shiftr n 16) ::
      store (Z.shiftr n 8) :: store n :: compressed
    else data.
Definition decompress (data : bytes) (errorField : string) : result SignetError bytes :=
  let too_big (n : Z) := Err (ValidationError_create errorField
                          ("Decompressed size exceeds maximum: " +:+ pretty n) None) in
  match data with
  | [] => Ok data
  | b :: rest =>
      if negb (bool_decide (byteZ b = icc_compressionMarker config)) then Ok data
      else
        match rest with
        | b1 :: b2 :: b3 :: b4 :: compressed =>
            let declaredSize := (byteZ b1 * 16777216 + byteZ b2 * 65536 + byteZ b3 * 256 + byteZ b4)%Z in
            if (icc_maxDecompressedSize config <? declaredSize)%Z then too_big declaredSize
            else match l_inflate (icc_maxDecompressedSize config) compressed with
                 | Err text => Err (ValidationError_create errorField
                     ("Failed to decompress invite data: " +:+ text) None)
                 | Ok decompressed =>
                     if (icc_maxDecompressedSize config <? blen decompressed)%Z
                     then too_big (blen decompressed) else Ok decompressed
                 end
        | _ => Err (ValidationError_create errorField "Compressed invite data is truncated" None)
        end
  end.
End crypto.

(** ** Generation ([invite-generator.ts]) *)
Record GenerateInviteSlugOptions := mkSlugOptions {
  gi_conversationId : string; gi_conversationIdFormat : option ConversationIdFormat;
  gi_creatorInboxId : string; gi_walletPrivateKeyHex : string; gi_inviteTag : string;
  gi_name : option string; gi_description : option string; gi_imageUrl : option string;
  gi_expiresAt : option Z;                      (** milliseconds *)
  gi_expiresAfterUse : option bool
}.
Definition SEPARATOR_INTERVAL : nat := 300.
Fixpoint cut_every (fuel every : nat) (s : string) : list string :=
  match fuel with
  | O => []
  | S fuel => if bool_decide (s = "") then [] else str_take every s :: cut_every fuel every (str_drop every s)
  end.
Definition insertSeparators (s sep : string) (every : nat) : string :=
  if (String.length s <=? every)%nat then s
  else str_join sep (cut_every (String.length s) every s).

Section generator.
Context `{InviteLib}.
Definition encryptConversationToken (nonce : bytes) (conversationId : string)
  (format : option ConversationIdFormat) (creatorInboxId : string) (privateKeyBytes : bytes)
  : result string bytes :=
  match packConversationId conversationId format with
  | Err text => Err text
  | Ok packed => Ok (encryptToken convosInviteCrypto nonce packed creatorInboxId privateKeyBytes)
  end.
Definition decryptConversationToken (tokenBytes : bytes) (creatorInboxId : string) (privateKeyBytes : bytes)
  : result string string :=
  match decryptToken convosInviteCrypto tokenBytes creatorInboxId privateKeyBytes with
  | Err text => Err text
  | Ok data => unpackConversationId l_decodeUtf8 data
  end.
Definition payload_of (opts : GenerateInviteSlugOptions) (conversationToken : bytes) : InvitePayload :=
  mkPayload conversationToken (hexToBytes (gi_creatorInboxId opts)) (gi_inviteTag opts) (gi_name opts)
    (gi_description opts) (gi_imageUrl opts) None ((λ ms, ms / 1000)%Z <$> gi_expiresAt opts)
    (default false (gi_expiresAfterUse opts)).
Definition slug_failure (text : string) : result SignetError string :=
  Err (InternalError_create ("Failed to generate invite slug: " +:+ text) None).
Definition generateConvosInviteSlug (opts : GenerateInviteSlugOptions) (nonce : bytes)
  : result SignetError string :=
  let privateKeyBytes := hexToBytes (gi_walletPrivateKeyHex opts) in
  match encryptConversationToken nonce (gi_conversationId opts) (gi_conversationIdFormat opts)
          (gi_creatorInboxId opts) privateKeyBytes with
  | Err text => slug_failure text
  | Ok conversationToken =>
      let payloadObj := payload_of opts conversationToken in
      match l_payload_verify payloadObj with
      | Some errMsg => Err (InternalError_create ("Invalid invite payload: " +:+ errMsg) None)
      | None =>
          let payloadBytes := l_payload_encode payloadObj in
          match signPayload payloadBytes privateKeyBytes with
          | Err text => slug_failure text
          | Ok signature =>
              let signedInviteBytes := l_signed_encode payloadBytes signature in
              let compressed := compress convosInviteCrypto signedInviteBytes in
              Ok (insertSeparators (l_base64url compressed) "*" SEPARATOR_INTERVAL)
          end
      end
  end.
Definition invite_base_url (env : option string) : string :=
  if bool_decide (env = Some "dev") || bool_decide (env = Some "local")
  then "https://dev.convos.org/v2" else "https://popup.convos.org/v2".
Definition generateConvosInviteUrl (opts : GenerateInviteSlugOptions) (env : option string) (nonce : bytes)
  : result SignetError string :=
  match generateConvosInviteSlug opts nonce with
  | Err e => Err e
  | Ok slug => Ok (invite_base_url env +:+ "?i=" +:+ encodeURIComponent slug)
  end.

(** ** Parsing ([invite-parser.ts]) *)
Record ParsedConvosInvite := mkInvite {
  inv_signedInvitePayloadBytes : bytes; inv_signedInviteSignature : bytes;
  inv_conversationToken : bytes; inv_creatorInboxId : string; inv_tag : string;
  inv_name : option string; inv_description : option string; inv_imageUrl : option string;
  inv_isExpired : bool; inv_isConversationExpired : bool; inv_expiresAfterUse : bool
}.
Definition base64UrlDecode (str : string) : bytes :=
  let base64 := replaceAll "_" "/" (replaceAll "-" "+" str) in
  let padLength := ((4 - String.length base64 mod 4) mod 4)%nat in
  l_base64 (base64 +:+ str_join "" (replicate padLength "=")).
Definition nonempty_str (s : option string) : option string :=
  match s with Some s => if bool_decide (s = "") then None else Some s | None => None end.
Definition extractSlug (input : string) : string :=
  let trimmed := trim input in
  match l_url trimmed with
  | None => trimmed
  | Some url =>
      match nonempty_str (url_param url "i"), nonempty_str (url_param url "code") with
      | Some i, _ => i
      | None, Some code => code
      | None, None => default trimmed (last (non_empty (str_split slash (url_pathname url))))
      end
  end.
(** An expiry of [0], the wire's default, is none; [now] in milliseconds. *)
Definition expiry_passed (now : Z) (at_ : option Z) : bool :=
  match at_ with
  | Some t => negb (t =? 0)%Z && (t <? now / 1000)%Z
  | None => false
  end.
Definition invalid_invite (reason : string) : result SignetError ParsedConvosInvite :=
  Err (ValidationError_create "inviteUrl" reason None).
Definition parseConvosInviteUrl (now : Z) (input : string) : result SignetError ParsedConvosInvite :=
  let cleanSlug := removeAll "*" (extractSlug input) in
  let decoded := base64UrlDecode cleanSlug in
  if (length decoded =? 0)%nat then invalid_invite "Empty invite data"
  else
    match decompress convosInviteCrypto decoded "inviteUrl" with
    | Err e => Err e
    | Ok decompressed =>
        match l_signed_decode decompressed with
        | Err text => invalid_invite ("Failed to parse invite: " +:+ text)
        | Ok (payloadBytes, signatureBytes) =>
            if (length payloadBytes =? 0)%nat || (length signatureBytes =? 0)%nat then
              invalid_invite "Invalid SignedInvite: missing payload or signature"
            else
              match l_payload_decode payloadBytes with
              | Err text => invalid_invite ("Failed to parse invite: " +:+ text)
              | Ok payload =>
                  if (length (ip_creatorInboxId payload) =? 0)%nat then
                    invalid_invite "Invalid InvitePayload: missing creatorInboxId"
                  else if bool_decide (ip_tag payload = "") then
                    invalid_invite "Invalid InvitePayload: missing tag"
                  else
                    Ok (mkInvite payloadBytes signatureBytes (ip_conversationToken payload)
                          (bytesToHex (ip_creatorInboxId payload)) (ip_tag payload)
                          (nonempty_str (ip_name payload)) (nonempty_str (ip_description payload))
                          (nonempty_str (ip_imageURL payload))
                          (expiry_passed now (ip_expiresAtUnix payload))
                          (expiry_passed now (ip_conversationExpiresAtUnix payload))
                          (ip_expiresAfterUse payload))
              end
        end
    end.
Definition verifyConvosInvite (invite : ParsedConvosInvite) : result SignetError unit :=
  let sig := inv_signedInviteSignature invite in
  if negb (length sig =? 65)%nat then
    Err (ValidationError_create "inviteSignature"
           ("Invalid signature length: expected 65 bytes, got " +:+ pretty (length sig)) None)
  else
    match recoverPublicKey (inv_signedInvitePayloadBytes invite) sig with
    | Err text => Err (ValidationError_create "inviteSignature"
                         ("Signature verification failed: " +:+ text) None)
    | Ok _ => Ok tt
    end.
End generator.

(** ** Transport: separators and white space *)
(** The base64url alphabet and the separator. *)
Definition slug_char (c : ascii) : bool :=
  let n := nat_of_ascii c in
  ((48 <=? n) && (n <=? 57) || (65 <=? n) && (n <=? 90) || (97 <=? n) && (n <=? 122))%nat ||
  bool_decide (c = "-"%char) || bool_decide (c = "_"%char).
Definition slug_or_star (c : ascii) : bool := slug_char c || bool_decide (c = "*"%char).
(** Visible ASCII characters. *)
Definition visible (c : ascii) : bool := let n := nat_of_ascii c in ((33 <=? n) && (n <=? 126))%nat.
Lemma no_space_prefix ps s :
  forallb (λ p, match p with String c _ => negb (visible c) | _ => false end) ps = true →
  str_forallb visible s = true → forallb (λ p, negb (startsWith p s)) ps = true.
Proof.
  intros Hp Hs. apply forallb_forall. intros p Hin. rewrite forallb_forall in Hp. specialize (Hp p Hin).
  destruct p as [|c p]; [done|]. destruct s as [|d s]; [done|]. cbn [str_forallb startsWith] in Hs |- *.
  apply andb_true_iff in Hs as [Hd _]. case_bool_decide as Hcd; [|done]. subst. by rewrite Hd in Hp.
Qed.
Lemma trim_visible s : str_forallb visible s = true → trim s = s.
Proof.
  intros Hs. unfold trim, trimStart, trimEnd.
  rewrite (drop_prefixes_none _ WHITESPACE s) by (by apply no_space_prefix).
  rewrite drop_prefixes_none; [apply str_rev_rev|].
  apply no_space_prefix; [by vm_compute|]. by apply str_rev_app_forallb.
Qed.
Lemma slug_or_star_chars c : slug_or_star c = true → visible c = true ∧ uri_unreserved c = true ∧ c ≠ ":"%char.
Proof. destruct c as [[] [] [] [] [] [] [] []]; vm_compute; done. Qed.
Lemma encode_slug s : str_forallb slug_or_star s = true → encodeURIComponent s = s.
Proof.
  induction s as [|c s IH]; [done|]. cbn. intros [Hc Hs]%andb_true_iff.
  apply slug_or_star_chars in Hc as (_ & Hc & _). rewrite Hc, str_cons_app, str_nil_app. by rewrite IH.
Qed.
Lemma str_take_drop n s : str_take n s +:+ str_drop n s = s.
Proof. revert s. induction n as [|n IH]; intros [|c s]; cbn; [done..|]. by rewrite str_cons_app, IH. Qed.
Lemma str_forallb_take f n s : str_forallb f s = true → str_forallb f (str_take n s) = true.
Proof.
  revert s. induction n as [|n IH]; intros [|c s]; cbn; [done..|].
  intros [Hc Hs]%andb_true_iff. by rewrite Hc, IH.
Qed.
Lemma str_forallb_drop f n s : str_forallb f s = true → str_forallb f (str_drop n s) = true.
Proof.
  revert s. induction n as [|n IH]; intros [|c s]; cbn; [done..|]. intros [Hc Hs]%andb_true_iff. auto.
Qed.
Lemma str_join_app s l : str_join "" (s :: l) = s +:+ str_join "" l.
Proof. destruct l; [by rewrite str_app_nil_r|done]. Qed.
Lemma length_str_drop n s : (String.length (str_drop n s) = String.length s - n)%nat.
Proof. revert s. induction n as [|n IH]; intros [|c s]; cbn; [done..|]. apply IH. Qed.
(** The pieces concatenate to the string and keep what all characters have. *)
Lemma cut_every_spec f every fuel s : (0 < every)%nat → (String.length s ≤ fuel)%nat →
  str_forallb f s = true →
  str_join "" (cut_every fuel every s) = s ∧ Forall (λ p, str_forallb f p = true) (cut_every fuel every s).
Proof.
  intros He. revert s. induction fuel as [|fuel IH]; intros s Hl Hf.
  { destruct s; [done|cbn in Hl; lia]. }
  cbn. case_bool_decide as Hs; [subst; done|].
  destruct (IH (str_drop every s)) as [H1 H2]; [rewrite length_str_drop; destruct s; cbn in *; [done|lia]|by apply str_forallb_drop|].
  rewrite str_join_app, H1, str_take_drop. split; [done|]. constructor; [by apply str_forallb_take|done].
Qed.
Lemma slug_char_no_star s : str_forallb slug_char s = true → str_without "*" s = true.
Proof.
  apply str_forallb_impl. intros c Hc. case_bool_decide as Heq; [|done]. by subst.
Qed.
(** The separators are removed again, and leave no other trace. *)
Lemma separators_removed s : str_forallb slug_char s = true →
  removeAll "*" (insertSeparators s "*" SEPARATOR_INTERVAL) = s ∧
  str_forallb slug_or_star (insertSeparators s "*" SEPARATOR_INTERVAL) = true.
Proof.
  intros Hs. unfold removeAll, insertSeparators.
  assert (str_forallb slug_or_star s = true) as Hs'.
  { eapply str_forallb_impl; [|exact Hs]. intros c Hc. unfold slug_or_star. by rewrite Hc. }
  destruct (String.length s <=? SEPARATOR_INTERVAL)%nat eqn:Hle.
  { rewrite str_split_clean by (by apply slug_char_no_star). by cbn. }
  destruct (cut_every_spec slug_char SEPARATOR_INTERVAL (String.length s) s) as [Hj Hall];
    [unfold SEPARATOR_INTERVAL; lia|done|done|].
  assert (s ≠ "") as Hne by by intros ->.
  destruct (cut_every (String.length s) SEPARATOR_INTERVAL s) as [|p ps] eqn:Hc.
  { by rewrite <-Hj in Hne. }
  rewrite (str_split_join_back "*" p ps); [split; [done|]|].
  - clear Hc Hj Hle. revert p Hall. induction ps as [|p2 ps IH]; intros p [Hp Hall]%Forall_cons.
    + eapply str_forallb_impl; [|exact Hp]. intros c Hch. unfold slug_or_star. by rewrite Hch.
    + change (str_join "*" (p :: p2 :: ps)) with (p +:+ "*" +:+ str_join "*" (p2 :: ps)).
      rewrite !str_forallb_app. apply andb_true_iff. split; [|by rewrite IH].
      eapply str_forallb_impl; [|exact Hp]. intros c Hch. unfold slug_or_star. by rewrite Hch.
  - eapply Forall_impl; [exact Hall|]. intros x. apply slug_char_no_star.
Qed.

(** ** The laws of the libraries *)
Class InviteLaws `{InviteLib} := {
  law_cipher key nonce aad p : l_decrypt key nonce aad (l_encrypt key nonce aad p) = Ok p;
  law_sign hash priv sig bit : l_sign hash priv = Ok (sig, bit) →
    length sig = 64%nat ∧ (bit ≤ 3)%nat ∧
    ∃ pub, l_publicKey priv = Ok pub ∧ l_recover sig bit hash = Ok pub;
  law_inflate max d : (blen d ≤ max)%Z → l_inflate max (l_deflate d) = Ok d;
  law_base64 d : base64UrlDecode (l_base64url d) = d;
  law_base64url d : str_forallb slug_char (l_base64url d) = true ∧ (l_base64url d = "" → d = []);
  law_payload p : l_payload_verify p = None → l_payload_decode (l_payload_encode p) = Ok p;
  law_payload_tag p : ip_tag p ≠ "" → l_payload_encode p ≠ [];
  law_signed p s : l_signed_decode (l_signed_encode p s) = Ok (p, s);
  (** the wire begins with the key of field 1, a length-delimited value *)
  law_signed_key p s : p ≠ [] → l_signed_encode p s !! 0%nat = Some Byte.x0a;
  (** no scheme, no URL *)
  law_url_scheme s : str_without ":" s = true → l_url s = None;
  law_url_param env s : str_forallb slug_or_star s = true →
    ∃ v, l_url (invite_base_url env +:+ "?i=" +:+ encodeURIComponent s) = Some v ∧ url_param v "i" = Some s
}.

Lemma byteZ_store z : byteZ (store z) = (z mod 256)%Z.
Proof.
  unfold byteZ, store. rewrite nat_of_to_byte.
  assert (0 <= z mod 256 < 256)%Z by (apply Z.mod_pos_bound; lia).
  rewrite Nat.mod_small by lia. lia.
Qed.
(** Compression is undone, for data within the limit that does not itself
    begin with the marker. *)
Lemma compress_decompress `{InviteLaws} config data field :
  byte_config config = true → (blen data ≤ icc_maxDecompressedSize config)%Z →
  (icc_maxDecompressedSize config < 256 * 256 * 256 * 256)%Z →
  (∀ b, data !! 0%nat = Some b → byteZ b ≠ icc_compressionMarker config) →
  decompress config (compress config data) field = Ok data.
Proof.
  intros Hc Hn Hmax Hb.
  assert (decompress config data field = Ok data) as Hplain.
  { unfold decompress. destruct data as [|b rest]; [done|]. rewrite bool_decide_false by (by apply Hb). done. }
  unfold compress. destruct (blen data <=? _)%Z; [done|]. destruct (_ <? blen data)%Z; [|done].
  unfold decompress. rewrite !byteZ_store.
  unfold byte_config in Hc. rewrite Z.mod_small by lia. rewrite bool_decide_true by done. cbn [negb].
  assert (0 ≤ blen data)%Z as Hpos by (unfold blen; lia).
  assert (Z.shiftr (blen data) 24 mod 256 * 16777216 + Z.shiftr (blen data) 16 mod 256 * 65536 +
    Z.shiftr (blen data) 8 mod 256 * 256 + blen data mod 256 = blen data)%Z as ->.
  { rewrite !Z.shiftr_div_pow2 by lia. change (2 ^ 24)%Z with 16777216%Z.
    change (2 ^ 16)%Z with 65536%Z. change (2 ^ 8)%Z with 256%Z.
    clear Hplain Hb. revert Hn Hmax Hpos. generalize (blen data). intros n. Z.to_euclidean_division_equations. lia. }
  destruct (_ <? blen data)%Z eqn:Hlt; [apply Z.ltb_lt in Hlt; lia|].
  rewrite law_inflate by done. by rewrite Hlt.
Qed.

Section roundtrip.
Context `{InviteLaws}.
Lemma token_roundtrip nonce plaintext inboxId priv : length nonce = 12%nat →
  decryptToken convosInviteCrypto (encryptToken convosInviteCrypto nonce plaintext inboxId priv) inboxId priv =
  Ok plaintext.
Proof.
  intros Hn. unfold decryptToken, encryptToken. cbn [lookup list_lookup fmap option_fmap option_map].
  rewrite byteZ_store. rewrite bool_decide_true by reflexivity. cbn [negb].
  assert (slice 1 13 (store (icc_formatVersion convosInviteCrypto) ::
    nonce ++ l_encrypt (deriveTokenKey convosInviteCrypto priv inboxId) nonce (utf8 inboxId) plaintext) = nonce) as ->.
  { rewrite slice_cons. unfold slice. rewrite drop_0, Nat.sub_0_r, <-Hn. apply take_app_length. }
  rewrite skipn_cons, <-Hn, drop_app_length. apply law_cipher.
Qed.
Lemma signature_roundtrip payload priv sig : signPayload payload priv = Ok sig →
  length sig = 65%nat ∧ ∃ pub, l_publicKey priv = Ok pub ∧ recoverPublicKey payload sig = Ok pub.
Proof.
  unfold signPayload. destruct (l_sign _ _) as [[compact bit]|] eqn:Hs; [|done]. intros [= <-].
  apply law_sign in Hs as (Hl & Hb & pub & Hp & Hr).
  assert (length (compact ++ [to_byte bit]) = 65%nat) as Hlen by (rewrite length_app, Hl; done).
  split; [done|]. exists pub. split; [done|]. unfold recoverPublicKey. rewrite Hlen. cbn [Nat.eqb negb].
  rewrite lookup_app_r, Hl by lia. cbn [Nat.sub lookup list_lookup fmap option_fmap option_map].
  rewrite nat_of_to_byte, Nat.mod_small by lia.
  destruct (bit <=? 3)%nat eqn:Hle; [|apply Nat.leb_gt in Hle; lia].
  replace (slice 0 64 (compact ++ [to_byte bit])) with compact; [done|].
  unfold slice. by rewrite drop_0, Nat.sub_0_r, <-Hl, take_app_length.
Qed.

(** What an invite can be made for: the group's identifier is text of 1 to
    65535 bytes, the creator's inbox is lower-case hexadecimal of even length
    and not empty, and there is a tag. *)
Definition invitable (opts : GenerateInviteSlugOptions) : Prop :=
  (0 < String.length (gi_conversationId opts) < 256 * 256)%nat ∧
  l_decodeUtf8 (utf8 (gi_conversationId opts)) = gi_conversationId opts ∧
  str_forallb is_hex (gi_creatorInboxId opts) = true ∧
  (∃ n, String.length (gi_creatorInboxId opts) = (S n * 2)%nat) ∧
  gi_inviteTag opts ≠ "".
(** The signed invite inside a slug. *)
Definition token_of (opts : GenerateInviteSlugOptions) (nonce : bytes) : result string bytes :=
  encryptConversationToken nonce (gi_conversationId opts) (gi_conversationIdFormat opts)
    (gi_creatorInboxId opts) (hexToBytes (gi_walletPrivateKeyHex opts)).
Definition invite_payload (opts : GenerateInviteSlugOptions) (nonce : bytes) : bytes :=
  match token_of opts nonce with Ok token => l_payload_encode (payload_of opts token) | Err _ => [] end.
Definition invite_signature (opts : GenerateInviteSlugOptions) (nonce : bytes) : bytes :=
  match signPayload (invite_payload opts nonce) (hexToBytes (gi_walletPrivateKeyHex opts)) with
  | Ok sig => sig | Err _ => [] end.
(** What the parser must give back. *)
Definition expected_invite (opts : GenerateInviteSlugOptions) (nonce : bytes) (now : Z) : ParsedConvosInvite :=
  mkInvite (invite_payload opts nonce) (invite_signature opts nonce)
    (match token_of opts nonce with Ok token => token | Err _ => [] end)
    (gi_creatorInboxId opts) (gi_inviteTag opts) (nonempty_str (gi_name opts)) (nonempty_str (gi_description opts))
    (nonempty_str (gi_imageUrl opts)) (expiry_passed now ((λ ms, ms / 1000)%Z <$> gi_expiresAt opts)) false
    (default false (gi_expiresAfterUse opts)).

Lemma slug_shape opts nonce slug : generateConvosInviteSlug opts nonce = Ok slug →
  ∃ token, token_of opts nonce = Ok token ∧ l_payload_verify (payload_of opts token) = None ∧
    signPayload (invite_payload opts nonce) (hexToBytes (gi_walletPrivateKeyHex opts)) =
      Ok (invite_signature opts nonce) ∧
    slug = insertSeparators (l_base64url (compress convosInviteCrypto
      (l_signed_encode (invite_payload opts nonce) (invite_signature opts nonce)))) "*" SEPARATOR_INTERVAL.
Proof.
  unfold generateConvosInviteSlug, invite_signature, invite_payload. fold (token_of opts nonce).
  destruct (token_of opts nonce) as [token|]; [|done].
  destruct (l_payload_verify _) eqn:Hv; [done|]. destruct (signPayload _ _) as [sig|]; [|done].
  intros [= <-]. by exists token.
Qed.
Lemma extract_slug slug : str_forallb slug_or_star slug = true → slug ≠ "" →
  extractSlug slug = slug ∧
  ∀ env, extractSlug (invite_base_url env +:+ "?i=" +:+ encodeURIComponent slug) = slug.
Proof.
  intros Hs Hne.
  assert (str_forallb visible slug = true) as Hv
    by (eapply str_forallb_impl; [|exact Hs]; intros c Hc; apply slug_or_star_chars, Hc).
  split.
  - unfold extractSlug. rewrite trim_visible by done. rewrite law_url_scheme; [done|].
    eapply str_forallb_impl; [|exact Hs]. intros c Hc. apply slug_or_star_chars in Hc as (_ & _ & Hc).
    by rewrite bool_decide_false.
  - intros env. unfold extractSlug. rewrite trim_visible; cycle 1.
    { rewrite encode_slug by done. rewrite !str_forallb_app, Hv, andb_true_r.
      unfold invite_base_url. by destruct (_ || _). }
    destruct (law_url_param env slug Hs) as (v & -> & Hi). rewrite Hi. cbn. by rewrite bool_decide_false.
Qed.
Lemma insertSeparators_empty s : insertSeparators s "*" SEPARATOR_INTERVAL = "" → s = "".
Proof.
  unfold insertSeparators. destruct (_ <=? _)%nat; [done|]. destruct s as [|c s]; [done|]. cbn.
  by destruct (cut_every _ _ _).
Qed.
Lemma compress_nonempty config d : d ≠ [] → compress config d ≠ [].
Proof. unfold compress. destruct (_ <=? _)%Z; [done|]. by destruct (_ <? _)%Z. Qed.
Lemma length_hex_pairs s : length (hexToBytes s) =
  (String.length (if startsWith "0x" s then str_drop 2 s else s) / 2)%nat.
Proof. unfold hexToBytes. by rewrite length_map, length_seq. Qed.

Section generated.
Context (opts : GenerateInviteSlugOptions) (nonce : bytes) (slug : string)
  (Hgen : generateConvosInviteSlug opts nonce = Ok slug) (Hinv : invitable opts).
Lemma generated_signed : length (invite_signature opts nonce) = 65%nat ∧
  ∃ pub, l_publicKey (hexToBytes (gi_walletPrivateKeyHex opts)) = Ok pub ∧
    recoverPublicKey (invite_payload opts nonce) (invite_signature opts nonce) = Ok pub.
Proof using Hgen H0.
  destruct (slug_shape _ _ _ Hgen) as (token & _ & _ & Hsig & _).
  by destruct (signature_roundtrip _ _ _ Hsig).
Qed.
Lemma generated_decrypts now : length nonce = 12%nat →
  decryptConversationToken (inv_conversationToken (expected_invite opts nonce now)) (gi_creatorInboxId opts)
    (hexToBytes (gi_walletPrivateKeyHex opts)) = Ok (recovered_id (gi_conversationId opts) (gi_conversationIdFormat opts)).
Proof using Hgen Hinv H0.
  intros Hnonce. destruct Hinv as (Hlen & Hutf & _).
  destruct (slug_shape _ _ _ Hgen) as (token & Htok & _).
  unfold decryptConversationToken, expected_invite. cbn [inv_conversationToken].
  rewrite Htok. unfold token_of, encryptConversationToken in Htok.
  destruct (packConversationId _ _) as [packed|] eqn:Hp; [|done]. injection Htok as <-.
  rewrite token_roundtrip by done. by eapply pack_roundtrip.
Qed.
Lemma creator_bytes : bytesToHex (hexToBytes (gi_creatorInboxId opts)) = gi_creatorInboxId opts ∧
  length (hexToBytes (gi_creatorInboxId opts)) ≠ 0%nat.
Proof using Hinv.
  destruct Hinv as (_ & _ & Hhex & [n Hn] & _). destruct (lower_is_hex _ Hhex) as [Hgrp Hlow].
  split; [by rewrite (hexToBytes_hex (S n)), Hlow by done|]. rewrite length_hex_pairs.
  assert (startsWith "0x" (gi_creatorInboxId opts) = false) as ->.
  { apply not_true_iff_false. intros [x Hx]%startsWith_spec. rewrite Hx in Hhex. by rewrite !str_cons_app in Hhex. }
  rewrite Hn, Nat.div_mul by lia. lia.
Qed.
(** Whatever text carries the slug, it parses to the expected invite. *)
Lemma generated_parses now input : extractSlug input = slug →
  (blen (l_signed_encode (invite_payload opts nonce) (invite_signature opts nonce)) ≤
    icc_maxDecompressedSize convosInviteCrypto)%Z →
  parseConvosInviteUrl now input = Ok (expected_invite opts nonce now).
Proof using Hgen Hinv H0.
  intros Hin Hsize. destruct (slug_shape _ _ _ Hgen) as (token & Htok & Hver & Hsig & Hslug).
  destruct generated_signed as [Hslen _]. destruct creator_bytes as [Hcreator Hcl].
  destruct Hinv as (_ & _ & _ & _ & Htag).
  set (signed := l_signed_encode (invite_payload opts nonce) (invite_signature opts nonce)) in *.
  assert (invite_payload opts nonce = l_payload_encode (payload_of opts token)) as Hpay
    by (unfold invite_payload; by rewrite Htok).
  assert (invite_payload opts nonce ≠ []) as Hpne by (rewrite Hpay; by apply law_payload_tag).
  assert (signed !! 0%nat = Some Byte.x0a) as Hkey by by apply law_signed_key.
  destruct (law_base64url (compress convosInviteCrypto signed)) as [Halpha _].
  destruct (separators_removed _ Halpha) as [Hclean _]. rewrite <-Hslug in Hclean.
  unfold parseConvosInviteUrl. rewrite Hin, Hclean, law_base64.
  destruct (length (compress convosInviteCrypto signed) =? 0)%nat eqn:Hz.
  { apply Nat.eqb_eq, nil_length_inv in Hz. apply compress_nonempty in Hz; [done|].
    intros Hs. by rewrite Hs in Hkey. }
  rewrite compress_decompress; [|done|done|done|].
  2: { intros b. rewrite Hkey. by intros [= <-]. }
  unfold signed. rewrite law_signed. destruct (length (invite_payload opts nonce) =? 0)%nat eqn:Hz1.
  { by apply Nat.eqb_eq, nil_length_inv in Hz1. }
  rewrite Hslen. cbn [orb Nat.eqb]. rewrite Hpay, law_payload by done. cbn [payload_of ip_creatorInboxId ip_tag].
  apply Nat.eqb_neq in Hcl as ->. rewrite bool_decide_false by done.
  unfold expected_invite. rewrite Htok, <-Hpay, Hcreator. reflexivity.
Qed.
Lemma generated_slug : extractSlug slug = slug ∧
  ∀ env, extractSlug (invite_base_url env +:+ "?i=" +:+ encodeURIComponent slug) = slug.
Proof using Hgen Hinv H0.
  destruct (slug_shape _ _ _ Hgen) as (token & Htok & _ & _ & Hslug). destruct Hinv as (_ & _ & _ & _ & Htag).
  assert (invite_payload opts nonce ≠ []) as Hpne.
  { unfold invite_payload. rewrite Htok. by apply law_payload_tag. }
  assert (l_signed_encode (invite_payload opts nonce) (invite_signature opts nonce) !! 0%nat = Some Byte.x0a) as Hkey
    by by apply law_signed_key.
  destruct (law_base64url (compress convosInviteCrypto
    (l_signed_encode (invite_payload opts nonce) (invite_signature opts nonce)))) as [Halpha Hempty].
  destruct (separators_removed _ Halpha) as [_ Hstar]. rewrite <-Hslug in Hstar. apply extract_slug; [done|].
  rewrite Hslug. intros He%insertSeparators_empty%Hempty. apply compress_nonempty in He; [done|].
  intros Hs. by rewrite Hs in Hkey.
Qed.
End generated.

(** C15: an invite that the generator makes, as a bare slug or as the URL of
    either host, is parsed back to exactly what went in: payload, signature,
    creator, tag, texts and expiry (in seconds; empty texts are absent); it
    verifies; and the creator's key recovers the group's identifier from it,
    exactly as it was, or in lower case when it is a UUID that was packed as
    one.  The generator must have succeeded with a nonce of 12 bytes, and the
    invite must be [invitable]: the group's identifier is text of 1 to 65535
    bytes, the creator's inbox identifier is lower-case hexadecimal of even
    length and not empty, the tag is not empty; and the signed invite is no
    longer than what the parser decompresses. *)
Theorem invite_roundtrip opts nonce now slug :
  generateConvosInviteSlug opts nonce = Ok slug → invitable opts → length nonce = 12%nat →
  (blen (l_signed_encode (invite_payload opts nonce) (invite_signature opts nonce)) ≤
    icc_maxDecompressedSize convosInviteCrypto)%Z →
  let invite := expected_invite opts nonce now in
  parseConvosInviteUrl now slug = Ok invite ∧
  (∀ env, parseConvosInviteUrl now (invite_base_url env +:+ "?i=" +:+ encodeURIComponent slug) = Ok invite) ∧
  verifyConvosInvite invite = Ok tt ∧
  decryptConversationToken (inv_conversationToken invite) (inv_creatorInboxId invite)
    (hexToBytes (gi_walletPrivateKeyHex opts)) = Ok (recovered_id (gi_conversationId opts) (gi_conversationIdFormat opts)).
Proof.
  intros Hgen Hinv Hnonce Hsize invite. destruct (generated_slug _ _ _ Hgen Hinv) as [Hs Hu].
  destruct (generated_signed _ _ _ Hgen) as (Hslen & pub & _ & Hrec).
  split_and!; [by eapply generated_parses|intros env; by eapply generated_parses| |by eapply generated_decrypts].
  unfold verifyConvosInvite, invite, expected_invite. cbn [inv_signedInviteSignature inv_signedInvitePayloadBytes].
  rewrite Hslen. cbn [negb Nat.eqb]. by rewrite Hrec.
Qed.
End roundtrip.

(** ** A concrete library that obeys the laws

    Transparent stand-ins, good enough to run the code: the cipher and the
    signature do nothing, records are written field by field, base64
    is hexadecimal. *)
Module Toy.
Fixpoint pos_bytes (p : positive) : bytes :=
  match p with xH => [] | xO p => Byte.x00 :: pos_bytes p | xI p => Byte.x01 :: pos_bytes p end.
Fixpoint bytes_pos (l : bytes) : positive :=
  match l with
  | [] => xH
  | Byte.x00 :: l => xO (bytes_pos l)
  | _ :: l => xI (bytes_pos l)
  end.
Lemma bytes_pos_bytes p : bytes_pos (pos_bytes p) = p.
Proof. by induction p as [p IH|p IH|]; cbn; rewrite ?IH. Qed.
(** Fields, each with its bytes marked and its end. *)
Fixpoint esc (l : bytes) : bytes := match l with [] => [Byte.x00] | b :: l => Byte.x01 :: b :: esc l end.
Fixpoint unesc (l : bytes) : option (bytes * bytes) :=
  match l with
  | Byte.x00 :: r => Some ([], r)
  | Byte.x01 :: b :: r => match unesc r with Some (f, r) => Some (b :: f, r) | None => None end
  | _ => None
  end.
Lemma unesc_esc f r : unesc (esc f ++ r) = Some (f, r).
Proof. induction f as [|b f IH]; [done|]. cbn. by rewrite IH. Qed.
Fixpoint fields (n : nat) (l : bytes) : option (list bytes) :=
  match n with
  | O => Some []
  | S n => match unesc l with Some (f, r) => cons f <$> fields n r | None => None end
  end.
Definition frame (fs : list bytes) : bytes := flat_map esc fs.
Lemma fields_frame fs : fields (length fs) (frame fs) = Some fs.
Proof.
  induction fs as [|f fs IH]; [done|]. change (frame (f :: fs)) with (esc f ++ frame fs).
  cbn [fields length]. by rewrite unesc_esc, IH.
Qed.
Definition opt_field {A} (f : A → bytes) (o : option A) : bytes :=
  match o with Some x => Byte.x01 :: f x | None => [] end.
Definition opt_read {A} (f : bytes → A) (l : bytes) : option A :=
  match l with [] => None | _ :: l => Some (f l) end.
Definition text (l : bytes) : string := String.string_of_list_byte l.
Definition num (l : bytes) : Z := default 0%Z (decode (bytes_pos l)).
Definition to_wire (p : InvitePayload) : list bytes :=
  [ip_conversationToken p; ip_creatorInboxId p; utf8 (ip_tag p); opt_field utf8 (ip_name p);
   opt_field utf8 (ip_description p); opt_field utf8 (ip_imageURL p);
   opt_field (λ z, pos_bytes (encode z)) (ip_conversationExpiresAtUnix p);
   opt_field (λ z, pos_bytes (encode z)) (ip_expiresAtUnix p);
   if ip_expiresAfterUse p then [Byte.x01] else []].
Definition of_wire (l : list bytes) : option InvitePayload :=
  match l with
  | [a; b; c; d; e; f; g; h; i] =>
      Some (mkPayload a b (text c) (opt_read text d) (opt_read text e) (opt_read text f) (opt_read num g)
        (opt_read num h) (match i with [] => false | _ => true end))
  | _ => None
  end.
Lemma text_utf8 s : text (utf8 s) = s.
Proof. apply String.string_of_list_byte_of_string. Qed.
Lemma opt_read_field {A} (f : bytes → A) (g : A → bytes) o : (∀ x, f (g x) = x) → opt_read f (opt_field g o) = o.
Proof. intros H. destruct o; cbn; by rewrite ?H. Qed.
Lemma num_bytes z : num (pos_bytes (encode z)) = z.
Proof. unfold num. by rewrite bytes_pos_bytes, decode_encode. Qed.
Lemma of_to_wire p : of_wire (to_wire p) = Some p.
Proof.
  destruct p as [a b c d e f g h i]. unfold to_wire, of_wire. cbn [ip_conversationToken ip_creatorInboxId ip_tag
    ip_name ip_description ip_imageURL ip_conversationExpiresAtUnix ip_expiresAtUnix ip_expiresAfterUse].
  rewrite text_utf8, !(opt_read_field text utf8), !(opt_read_field num) by (apply text_utf8 || apply num_bytes).
  by destruct i.
Qed.
Definition url_of (s : string) : option UrlView :=
  let param base := if startsWith base s then Some (str_drop (String.length base) s) else None in
  if str_without ":" s then None
  else Some (mkUrl (λ k, if bool_decide (k = "i") then
      match param "https://dev.convos.org/v2?i=" with
      | Some i => Some i | None => param "https://popup.convos.org/v2?i=" end else None) "/v2").
#[export] Instance lib : InviteLib := {|
  l_decodeUtf8 := String.string_of_list_byte;
  l_hkdf k _ _ := k; l_encrypt _ _ _ p := p; l_decrypt _ _ _ c := Ok c; l_sha256 d := d;
  l_sign _ _ := Ok (replicate 64 Byte.x00, 1%nat); l_recover _ _ _ := Ok [Byte.x04];
  l_publicKey _ := Ok [Byte.x04];
  l_deflate d := d; l_inflate _ d := Ok d;
  l_base64 s := hex_pairs (removeAll "=" s); l_base64url d := bytes_hex d;
  l_payload_verify _ := None;
  l_payload_encode p := Byte.x0a :: frame (to_wire p);
  l_payload_decode d := match fields 9 (drop 1 d) ≫= of_wire with
    | Some x => Ok x | None => Err "invalid wire type" end;
  l_signed_encode p s := Byte.x0a :: frame [p; s];
  l_signed_decode d := match fields 2 (drop 1 d) with
    | Some [p; s] => Ok (p, s) | _ => Err "invalid wire type" end;
  l_url := url_of
|}.
Lemma bytes_hex_even d : String.length (bytes_hex d) = (length d * 2)%nat.
Proof. destruct (bytes_hex_ok d). lia. Qed.
Lemma hex_only d c : is_hex c = false → str_without c (bytes_hex d) = true.
Proof.
  intros Hc. destruct (bytes_hex_ok d) as [Hok _]. eapply str_forallb_impl; [|exact Hok].
  intros x Hx. case_bool_decide; [congruence|done].
Qed.
Lemma base64_law d : base64UrlDecode (l_base64url d) = d.
Proof.
  unfold base64UrlDecode. cbn [l_base64url l_base64 lib].
  rewrite (replaceAll_absent "-"), (replaceAll_absent "_"); try apply (hex_only d); try reflexivity.
  assert (∀ k, removeAll "=" (bytes_hex d +:+ str_join "" (replicate k "=")) = bytes_hex d) as ->.
  { intros k. unfold removeAll. destruct k as [|k].
    - rewrite str_app_nil_r, str_split_clean by (by apply hex_only). done.
    - cbn [replicate]. rewrite str_join_app, str_cons_app, str_nil_app, str_split_app by (by apply hex_only).
      rewrite str_join_app. rewrite <-(str_app_nil_r (bytes_hex d)) at 2. f_equal.
      induction k as [|k IH]; [done|]. cbn [replicate]. rewrite str_join_app, str_cons_app, str_nil_app.
      cbn [str_split]. rewrite decide_True by done. rewrite str_join_app. by rewrite str_nil_app. }
  apply bytes_hex_inj. destruct (bytes_hex_ok d) as [Hok _]. apply lower_is_hex in Hok as [Hg Hl].
  pose proof (hex_pairs_hex (length d) (bytes_hex d) (bytes_hex_even d) Hg) as He.
  unfold bytesToHex in He. by rewrite He.
Qed.
#[export] Instance laws : InviteLaws (H := lib).
Proof.
  split.
  - done.
  - intros hash priv sig bit [= <- <-]. split_and!; [done|lia|]. by exists [Byte.x04].
  - done.
  - apply base64_law.
  - intros d. split; [|by destruct d]. destruct (bytes_hex_ok d) as [Hok _].
    eapply str_forallb_impl; [|exact Hok]. intros c.
    by destruct c as [[] [] [] [] [] [] [] []].
  - intros p _. unfold l_payload_decode, l_payload_encode, lib. rewrite skipn_cons, drop_0.
    change 9%nat with (length (to_wire p)). rewrite (fields_frame (to_wire p)).
    exact (f_equal (λ o, match o with Some x => Ok x | None => Err "invalid wire type" end) (of_to_wire p)).
  - done.
  - intros p s. unfold l_signed_decode, l_signed_encode, lib. rewrite skipn_cons, drop_0.
    change 2%nat with (length [p; s]). by rewrite (fields_frame [p; s]).
  - done.
  - intros s Hs. cbn [l_url lib]. unfold url_of. by rewrite Hs.
  - intros env s Hs. rewrite encode_slug by done. cbn [l_url lib]. unfold url_of.
    assert (str_without ":" (invite_base_url env +:+ "?i=" +:+ s) = false) as ->.
    { unfold invite_base_url. by destruct (_ || _). }
    eexists. split; [reflexivity|]. cbn [url_param]. rewrite bool_decide_true by done.
    unfold invite_base_url. destruct (_ || _).
    + change ("https://dev.convos.org/v2" +:+ "?i=" +:+ s) with ("https://dev.convos.org/v2?i=" +:+ s).
      by rewrite startsWith_app, str_drop_app.
    + change ("https://popup.convos.org/v2" +:+ "?i=" +:+ s) with ("https://popup.convos.org/v2?i=" +:+ s).
      assert (startsWith "https://dev.convos.org/v2?i=" ("https://popup.convos.org/v2?i=" +:+ s) = false) as ->
        by reflexivity.
      by rewrite startsWith_app, str_drop_app.
Qed.
End Toy.

Definition demo_options : GenerateInviteSlugOptions :=
  mkSlugOptions "group-1" None "0abc" "11" "tag-1" (Some "Club") None None (Some 5000%Z) None.
Definition demo_nonce : bytes := replicate 12 Byte.x00.
Lemma demo_invitable : invitable (H := Toy.lib) demo_options.
Proof.
  unfold invitable. cbn [gi_conversationId demo_options String.length].
  split_and!; [lia|lia|reflexivity|reflexivity|by exists 1%nat|done].
Qed.
Lemma invite_roundtrip_witness :
  let slug := match generateConvosInviteSlug (H := Toy.lib) demo_options demo_nonce with Ok s => s | Err _ => "" end in
  let invite := expected_invite (H := Toy.lib) demo_options demo_nonce 0 in
  parseConvosInviteUrl (H := Toy.lib) 0 slug = Ok invite ∧
  decryptConversationToken (H := Toy.lib) (inv_conversationToken invite) (inv_creatorInboxId invite)
    (hexToBytes "11") = Ok "group-1" ∧ inv_name invite = Some "Club".
Proof.
  pose proof (invite_roundtrip (H := Toy.lib) (H0 := Toy.laws) demo_options demo_nonce 0
    (match generateConvosInviteSlug (H := Toy.lib) demo_options demo_nonce with Ok s => s | Err _ => "" end))
    as (Hp & _ & _ & Hd).
  - vm_compute. reflexivity.
  - apply demo_invitable.
  - reflexivity.
  - vm_compute. discriminate.
  - split_and!; [exact Hp|exact Hd|vm_compute; reflexivity].
Defined.
