(* ===== verification/InviteHost.v ===== *)
(** * Hosting Convos invites

    [core/src/schemes/convos/join-request-content.ts],
    [invite-join-error.ts], [process-join-requests.ts] and
    [invite-host.ts]: what a message that asks to join looks like, and the
    processing that adds its sender to the group of the invite it carries.

    The two calls out of the processing (the group's stored tag, and adding
    members through a client) are effects that answer anything. *)
From S2P Require Import Prelude Bytes JsDate Text Json Errors Ids Programs Invites.

(** ** Decoded contents

    [unknown]: a JSON value; an object whose [content] is a [Uint8Array]; or
    an object whose [timestamp] is a [Date] ([None]: invalid).  [fields] are
    the other properties. *)
Inductive Content :=
  | ct_json (v : json)
  | ct_bytes (fields : list (string * json)) (content : bytes)
  | ct_dated (fields : list (string * json)) (timestamp : option Z).
Definition ct_object (c : Content) : json :=
  match c with ct_json v => v | ct_bytes fields _ | ct_dated fields _ => JObj fields end.
Definition ct_get (k : string) (c : Content) : json := jget k (ct_object c).
Definition as_string (v : json) : option string := match v with JStr s => Some s | _ => None end.
Definition is_str (v : json) : bool := bool_decide (is_Some (as_string v)).
(** [typeof v === "object" && v !== null]. *)
Definition is_obj (v : json) : bool := match v with JObj _ | JArr _ => true | _ => false end.

(** ** Join requests *)
Definition isEncodedContentEnvelope (value : Content) : option bytes :=
  match value with
  | ct_bytes fields content =>
      let type := jget "type" (JObj fields) in
      if is_obj type && is_str (jget "authorityId" type) && is_str (jget "typeId" type)
      then Some content else None
  | _ => None
  end.
Definition isJoinRequestShape (value : Content) : bool :=
  is_obj (ct_object value) && is_str (ct_get "inviteSlug" value).
Definition inviteSlug_of (c : Content) : string := default "" (as_string (ct_get "inviteSlug" c)).
Definition isJoinRequestContentType (contentType : option string) : bool :=
  bool_decide (contentType = Some "join_request") ||
  bool_decide (contentType = Some "convos.org/join_request:1.0").

Section content.
Context `{InviteLib, JsDate} (JSON_parse : string → option json).
(** [None]: it throws. *)
Definition decodeJoinRequest (content : bytes) : option Content :=
  match JSON_parse (l_decodeUtf8 content) with
  | Some parsed => if isJoinRequestShape (ct_json parsed) then Some (ct_json parsed) else None
  | None => None
  end.
Definition extractJoinRequestContent (value : Content) : option Content :=
  if isJoinRequestShape value then Some value
  else match isEncodedContentEnvelope value with
       | Some content => decodeJoinRequest content
       | None => None
       end.

(** ** Join errors *)
Inductive InviteJoinErrorType := ConversationExpired | GenericFailure | Unknown.
#[local] Instance InviteJoinErrorType_eq_dec : EqDecision InviteJoinErrorType.
Proof. solve_decision. Defined.
Definition errorType_str (t : InviteJoinErrorType) : string :=
  match t with
  | ConversationExpired => "conversationExpired" | GenericFailure => "genericFailure" | Unknown => "unknown"
  end.
Definition errorType_of (v : json) : InviteJoinErrorType :=
  default Unknown (List.find (λ t, bool_decide (v = JStr (errorType_str t)))
    [ConversationExpired; GenericFailure; Unknown]).
Record InviteJoinError := mkJoinError {
  je_errorType : InviteJoinErrorType; je_inviteTag : string; je_timestamp : option Z
}.
Definition getInviteJoinErrorMessage (error : InviteJoinError) : string :=
  match je_errorType error with
  | ConversationExpired => "This conversation is no longer available"
  | GenericFailure | Unknown => "Failed to join conversation"
  end.
(** The payload and its fallback; [None] when the date is invalid. *)
Definition encodeInviteJoinError (error : InviteJoinError) : option (bytes * string) :=
  iso ← je_timestamp error ≫= date_toISOString;
  Some (utf8 (print (JObj [("errorType", JStr (errorType_str (je_errorType error)));
                           ("inviteTag", JStr (je_inviteTag error)); ("timestamp", JStr iso)])),
        getInviteJoinErrorMessage error).
Definition timestamp_of (v : json) : option Z :=
  match v with JStr s => date_getTime s | _ => Some 0%Z end.
Definition read_join_error (v : json) (timestamp : option Z) : InviteJoinError :=
  mkJoinError (errorType_of (jget "errorType" v)) (default "" (as_string (jget "inviteTag" v))) timestamp.
(** [null] throws. *)
Definition decodeInviteJoinError (content : bytes) : option InviteJoinError :=
  match JSON_parse (l_decodeUtf8 content) with
  | Some parsed =>
      if bool_decide (parsed = JNull) then None
      else Some (read_join_error parsed (timestamp_of (jget "timestamp" parsed)))
  | None => None
  end.
Definition extractInviteJoinError (value : Content) : option InviteJoinError :=
  let v := ct_object value in
  let has_timestamp := match value with ct_dated _ _ => true | _ => jhas "timestamp" v end in
  if jhas "errorType" v && jhas "inviteTag" v && has_timestamp then
    Some (read_join_error v (match value with
                             | ct_dated _ timestamp => timestamp
                             | _ => timestamp_of (jget "timestamp" v)
                             end))
  else match isEncodedContentEnvelope value with
       | Some content => decodeInviteJoinError content
       | None => None
       end.
Definition isInviteJoinErrorContentType (contentType : option string) : bool :=
  existsb (λ t, bool_decide (contentType = Some t))
    ["inviteJoinError"; "convos.app/inviteJoinError:1.0"; "convos.org/invite_join_error:1.0";
     "invite_join_error"].
End content.

(** ** Processing a request *)
Abbreviation res A := (result SignetError A).
Record ProcessJoinRequestDeps := mkJoinDeps {
  pd_walletPrivateKeyHex : string; pd_creatorInboxId : string;
  pd_client : nat  (* the client behind [addMembersToGroup] *)
}.
Record IncomingJoinMessage := mkIncoming { jm_senderInboxId : string; jm_content : Content }.
Record JoinRequestResult := mkJoined {
  jr_groupId : string; jr_requesterInboxId : string; jr_inviteTag : string
}.
(** A message of the raw event stream. *)
Record RawMessageEvent := mkRaw {
  rm_messageId : string; rm_groupId : string; rm_senderInboxId : string; rm_contentType : string;
  rm_content : Content; rm_sentAt : string; rm_threadId : option string; rm_isHistorical : bool
}.
(** An accepted request: the result, the host identity and its inbox. *)
Record ManagedInviteJoinResolution := mkResolution {
  ra_join : JoinRequestResult; ra_hostIdentityId : string; ra_hostInboxId : string
}.
(** Effects of hosting; the last six belong to the listener of the daemon. *)
Inductive heff : Type → Type :=
  | HGetTag (groupId : string) : heff (res (option string))
  | HAddMembers (client : nat) (groupId : string) (inboxIds : list string) : heff (res unit)
  | HTick : heff unit
  | HListIdentities : heff (list (string * option string))
  | HWalletKey (identityId : string) : heff (res string)
  | HListMessages (client : nat) (conversationId : string) (before : option string)
      : heff (res (list RawMessageEvent))
  | HOnJoinAccepted (acceptance : ManagedInviteJoinResolution) (request : RawMessageEvent) : heff unit
  | HOnJoinRejected (error : SignetError) (request : RawMessageEvent) : heff unit.

Section process.
Context `{InviteLib, JsDate} (JSON_parse : string → option json).
Definition verifySignatureMatchesKey (payloadBytes signatureBytes privateKeyBytes : bytes) : bool :=
  if negb (length signatureBytes =? 65)%nat then false
  else match nat_of_byte <$> signatureBytes !! 64%nat with
       | None => false
       | Some recoveryBit =>
           if (3 <? recoveryBit)%nat then false
           else match l_recover (slice 0 64 signatureBytes) recoveryBit (l_sha256 payloadBytes),
                      l_publicKey privateKeyBytes with
                | Ok recoveredPubKey, Ok expectedPubKey =>
                    bool_decide (bytesToHex recoveredPubKey = bytesToHex expectedPubKey)
                | _, _ => false
                end
       end.
Definition invite_text (content : Content) : option string :=
  nonempty_str (match extractJoinRequestContent JSON_parse content with
                | Some joinRequest => Some (inviteSlug_of joinRequest)
                | None => as_string (ct_object content)
                end).
Definition refuse {A} (reason : string) : res A := Err (ValidationError_create "invite" reason None).
(** Steps 1 to 5: the invite and the group it names. *)
Definition checkInvite (deps : ProcessJoinRequestDeps) (now : Z) (content : Content)
  : res (ParsedConvosInvite * string) :=
  match invite_text content with
  | None => refuse "Join request does not contain an invite"
  | Some inviteText =>
      match parseConvosInviteUrl now inviteText with
      | Err e => Err e
      | Ok invite =>
          let privateKeyBytes := hexToBytes (pd_walletPrivateKeyHex deps) in
          if inv_isExpired invite then refuse "Invite has expired"
          else if inv_isConversationExpired invite then refuse "Conversation has expired"
          else if negb (verifySignatureMatchesKey (inv_signedInvitePayloadBytes invite)
                          (inv_signedInviteSignature invite) privateKeyBytes) then
            refuse "Invite signature does not match creator wallet key"
          else if negb (bool_decide (inv_creatorInboxId invite = pd_creatorInboxId deps)) then
            refuse "Invite creator inbox ID does not match"
          else match decryptConversationToken (inv_conversationToken invite) (inv_creatorInboxId invite)
                       privateKeyBytes with
               | Err text => refuse ("Failed to decrypt conversation token: " +:+ text)
               | Ok groupId => Ok (invite, groupId)
               end
      end
  end.
(** [clock]: where the world keeps the time. *)
Context {W : Type} (clock : W → Z).
Definition processJoinRequest (deps : ProcessJoinRequestDeps) (message : IncomingJoinMessage)
  : prog W heff (res JoinRequestResult) :=
  (sync checked <- (λ w, (w, checkInvite deps (clock w) (jm_content message))) ;;
   match checked with
   | Err e => Ret (Err e)
   | Ok (invite, groupId) =>
       await tagResult <- HGetTag groupId ;;
       match tagResult with
       | Err e => Ret (Err e)
       | Ok tag =>
           if match tag with Some tag => negb (bool_decide (tag = inv_tag invite)) | None => false end then
             Ret (refuse "Invite tag does not match the stored tag for this group")
           else
             await addResult <- HAddMembers (pd_client deps) groupId [jm_senderInboxId message] ;;
             Ret (match addResult with
                  | Err e => Err e
                  | Ok _ => Ok (mkJoined groupId (jm_senderInboxId message) (inv_tag invite))
                  end)
       end
   end)%prog.
(** [None]: the message is no join request. *)
Definition looksLikeSlug (text : string) : bool :=
  (50 <=? String.length text)%nat && negb (str_has " " text).
Definition tryProcessJoinRequest (deps : ProcessJoinRequestDeps) (event : RawMessageEvent)
  : prog W heff (option (res JoinRequestResult)) :=
  let joinRequest := extractJoinRequestContent JSON_parse (rm_content event) in
  let text := trim <$> as_string (ct_object (rm_content event)) in
  let slug := match text with Some t => looksLikeSlug t | None => false end in
  if negb (bool_decide (is_Some joinRequest)) && negb slug then Ret None
  else
    let content := match joinRequest, text with
                   | Some c, _ => c
                   | None, Some t => ct_json (JStr t)
                   | None, None => rm_content event
                   end in
    (do r <- processJoinRequest deps (mkIncoming (rm_senderInboxId event) content) ;; Ret (Some r))%prog.
End process.

(** ** What a processed request has shown *)
Section process_facts.
Context `{InviteLib, JsDate} (JSON_parse : string → option json) {W : Type} (clock : W → Z).
Abbreviation hevent := (event W heff).
(** The invite in [content], at the time [now], is one that the host made and
    names the group. *)
Record invite_valid (deps : ProcessJoinRequestDeps) (now : Z) (content : Content)
  (invite : ParsedConvosInvite) (groupId : string) : Prop := {
  iv_parsed : ∃ text, invite_text JSON_parse content = Some text ∧ parseConvosInviteUrl now text = Ok invite;
  iv_live : inv_isExpired invite = false ∧ inv_isConversationExpired invite = false;
  iv_signed : ∃ pub, l_publicKey (hexToBytes (pd_walletPrivateKeyHex deps)) = Ok pub ∧
    recoverPublicKey (inv_signedInvitePayloadBytes invite) (inv_signedInviteSignature invite) = Ok pub;
  iv_creator : inv_creatorInboxId invite = pd_creatorInboxId deps;
  iv_group : decryptConversationToken (inv_conversationToken invite) (inv_creatorInboxId invite)
    (hexToBytes (pd_walletPrivateKeyHex deps)) = Ok groupId
}.
Lemma verifySignature_spec payload sig priv :
  verifySignatureMatchesKey payload sig priv = true ↔
  ∃ pub, l_publicKey priv = Ok pub ∧ recoverPublicKey payload sig = Ok pub.
Proof.
  unfold verifySignatureMatchesKey, recoverPublicKey. split.
  - destruct (length sig =? 65)%nat; [|done]. cbn [negb]. destruct (nat_of_byte <$> _) as [bit|]; [|done].
    destruct (3 <? bit)%nat eqn:Hb; [done|]. apply Nat.ltb_ge in Hb. apply Nat.leb_le in Hb as ->.
    destruct (l_recover _ _ _) as [a|]; [|done]. destruct (l_publicKey priv) as [b|]; [|done].
    intros Heq%bool_decide_eq_true%bytes_hex_inj. exists b. by subst.
  - intros (pub & Hp & Hr). rewrite Hp. destruct (length sig =? 65)%nat; [|done]. cbn [negb] in *.
    destruct (nat_of_byte <$> _) as [bit|]; [|done]. destruct (bit <=? 3)%nat eqn:Hb; [|done].
    apply Nat.leb_le, Nat.ltb_ge in Hb as ->. rewrite Hr. by rewrite bool_decide_true.
Qed.
Lemma checkInvite_spec deps now content invite groupId :
  checkInvite JSON_parse deps now content = Ok (invite, groupId) ↔ invite_valid deps now content invite groupId.
Proof.
  unfold checkInvite, refuse. split.
  - destruct (invite_text _ _) as [text|] eqn:Ht; [|done].
    destruct (parseConvosInviteUrl now text) as [inv|] eqn:Hp; [|done].
    destruct (inv_isExpired inv) eqn:H1; [done|]. destruct (inv_isConversationExpired inv) eqn:H2; [done|].
    destruct (verifySignatureMatchesKey _ _ _) eqn:Hv; [|done]. cbn [negb].
    case_bool_decide as Hc; [|done]. cbn [negb]. destruct (decryptConversationToken _ _ _) as [g|] eqn:Hg; [|done].
    intros [= <- <-]. apply verifySignature_spec in Hv. split; [by exists text|done..].
  - intros [(text & -> & ->) [-> ->] Hv%verifySignature_spec Hc Hg]. rewrite Hv. cbn [negb].
    rewrite bool_decide_true by done. cbn [negb]. by rewrite Hg.
Qed.
(** What an event adds, and to which group, by which client. *)
Definition adds (ev : hevent) : option (nat * string * list string) :=
  match ev_eff ev with HAddMembers client g ids => Some (client, g, ids) | _ => None end.
Definition is_add (ev : hevent) : bool := match adds ev with Some _ => true | None => false end.
Definition add_done (ev : hevent) : bool :=
  match ev_eff ev in heff X return X → bool with HAddMembers _ _ _ => isOk | _ => λ _, false end (ev_answer ev).

(** All that can happen. *)
Inductive join_outcome (deps : ProcessJoinRequestDeps) (message : IncomingJoinMessage) (w : W)
  : list hevent → res JoinRequestResult → Prop :=
  | jo_invalid e : checkInvite JSON_parse deps (clock w) (jm_content message) = Err e →
      join_outcome deps message w [] (Err e)
  | jo_no_tag invite g e : invite_valid deps (clock w) (jm_content message) invite g →
      join_outcome deps message w [Event _ (HGetTag g) w (Err e)] (Err e)
  | jo_wrong_tag invite g tag : invite_valid deps (clock w) (jm_content message) invite g →
      tag ≠ inv_tag invite →
      join_outcome deps message w [Event _ (HGetTag g) w (Ok (Some tag))]
        (refuse "Invite tag does not match the stored tag for this group")
  | jo_added invite g tag w1 r : invite_valid deps (clock w) (jm_content message) invite g →
      (tag = None ∨ tag = Some (inv_tag invite)) →
      join_outcome deps message w
        [Event _ (HGetTag g) w (Ok tag); Event _ (HAddMembers (pd_client deps) g [jm_senderInboxId message]) w1 r]
        (match r with Ok _ => Ok (mkJoined g (jm_senderInboxId message) (inv_tag invite)) | Err e => Err e end).
Lemma processJoinRequest_wp env deps message w pre (Q : list hevent → W → res JoinRequestResult → Prop) :
  (∀ t w' r, join_outcome deps message w t r → Q (pre ++ t) w' r) →
  wp env (processJoinRequest JSON_parse clock deps message) w pre Q.
Proof.
  intros HQ. unfold processJoinRequest. cbn [wp fst snd].
  destruct (checkInvite JSON_parse deps (clock w) (jm_content message)) as [[invite g]|e] eqn:Hc.
  2: { cbn. rewrite <-(app_nil_r pre). by apply HQ, jo_invalid. }
  apply checkInvite_spec in Hc. cbn [wp]. intros w1 [tag|e] _; cbn [wp]; [|by eapply HQ, jo_no_tag].
  assert (∀ b : bool, match tag with Some tag => negb (bool_decide (tag = inv_tag invite)) | None => false end = b →
    if b then ∃ t, tag = Some t ∧ t ≠ inv_tag invite else tag = None ∨ tag = Some (inv_tag invite)) as Htag.
  { intros b <-. destruct tag as [t|]; [|by left]. case_bool_decide; cbn; [right; congruence|by exists t]. }
  specialize (Htag _ eq_refl). destruct (match tag with Some _ => _ | None => _ end).
  - destruct Htag as (tag' & -> & Hne). cbn. by eapply HQ, jo_wrong_tag.
  - cbn [wp]. intros w2 r _. rewrite <-app_assoc. by eapply HQ, jo_added.
Qed.

(** C16: whatever a message carries and whatever the stores and the network
    answer, members are added only through the host's client, only to the
    group named by an unexpired invite that bears the host's signature and
    inbox and whose tag is the stored one if there is one; only the sender is
    added, and at most once; and success is reported exactly when the
    addition succeeded. *)
Theorem join_adds_only_invited env w deps message t w' r :
  run env w (processJoinRequest JSON_parse clock deps message) t w' r →
  (∀ ev client groupId ids, ev ∈ t → adds ev = Some (client, groupId, ids) →
    client = pd_client deps ∧ ids = [jm_senderInboxId message] ∧
    ∃ invite tag, invite_valid deps (clock w) (jm_content message) invite groupId ∧
      head t = Some (Event _ (HGetTag groupId) w (Ok tag)) ∧ (tag = None ∨ tag = Some (inv_tag invite))) ∧
  (length (List.filter is_add t) ≤ 1)%nat ∧
  (isOk r = true ↔ ∃ ev, ev ∈ t ∧ add_done ev = true) ∧
  (∀ j, r = Ok j → jr_requesterInboxId j = jm_senderInboxId message ∧
    ∃ ev, ev ∈ t ∧ adds ev = Some (pd_client deps, jr_groupId j, [jr_requesterInboxId j])).
Proof.
  intros Hrun.
  assert (join_outcome deps message w t r) as Ho.
  { refine (wp_run env _ w [] (λ t _ r, join_outcome deps message w t r) t w' r _ Hrun).
    apply processJoinRequest_wp. done. }
  destruct Ho as [e He|invite g e Hv|invite g tag Hv Hne|invite g tag w1 a Hv Htag].
  - split_and!; [by intros ev ??? ?%elem_of_nil|cbn; lia|split; [done|by intros (ev & ?%elem_of_nil & _)]|done].
  - split_and!; [by intros ev ??? ->%list_elem_of_singleton|cbn; lia| |done].
    split; [done|by intros (ev & ->%list_elem_of_singleton & ?)].
  - split_and!; [by intros ev ??? ->%list_elem_of_singleton|cbn; lia| |done].
    split; [done|by intros (ev & ->%list_elem_of_singleton & ?)].
  - split_and!.
    + intros ev client groupId ids Hin. apply elem_of_cons in Hin as [->|Hin]; [done|].
      apply list_elem_of_singleton in Hin as ->.
      intros [= <- <- <-]. split_and!; [done..|]. by exists invite, tag.
    + cbn. lia.
    + destruct a as [[]|e]; cbn; split; [intros _|done|done|].
      * eexists. split; [by right; left|done].
      * intros (ev & Hin & Hev). apply elem_of_cons in Hin as [->|Hin]; [done|].
        by apply list_elem_of_singleton in Hin as ->.
    + intros j Hj. destruct a as [[]|e]; [|done]. injection Hj as <-. split; [done|].
      eexists. split; [by right; left|done].
Qed.
End process_facts.

(** ** From generation to admission *)
Section admission.
Context `{InviteLaws, JsDate} (JSON_parse : string → option json) {W : Type} (clock : W → Z).
(** An invite that the host has generated and that has not run out. *)
Lemma generated_invite_valid opts nonce slug deps now content text :
  generateConvosInviteSlug opts nonce = Ok slug → invitable opts → length nonce = 12%nat →
  (blen (l_signed_encode (invite_payload opts nonce) (invite_signature opts nonce)) ≤
    icc_maxDecompressedSize convosInviteCrypto)%Z →
  pd_walletPrivateKeyHex deps = gi_walletPrivateKeyHex opts → pd_creatorInboxId deps = gi_creatorInboxId opts →
  expiry_passed now ((λ ms, ms / 1000)%Z <$> gi_expiresAt opts) = false →
  invite_text JSON_parse content = Some text → extractSlug text = slug →
  invite_valid JSON_parse deps now content (expected_invite opts nonce now)
    (recovered_id (gi_conversationId opts) (gi_conversationIdFormat opts)).
Proof.
  intros Hgen Hinv Hnonce Hsize Hkey Hcreator Hexp Htext Hslug.
  destruct (generated_signed _ _ _ Hgen) as (_ & pub & Hpub & Hrec).
  split; [| | |done|].
  - exists text. split; [done|]. by eapply generated_parses.
  - done.
  - exists pub. by rewrite Hkey.
  - rewrite Hkey. by eapply generated_decrypts.
Qed.

(** from end to end: whoever sends the host an invite that the host's own
    generator made, as a slug or as a URL of either host, in plain text or in
    a join request, before it runs out, is added to the group the invite was
    made for (its identifier in lower case if it was packed as a UUID); the only things that can stop it are a failed lookup of the
    group's tag, another tag stored since, or a failed addition. *)
Theorem invited_joiner_admitted env w opts nonce slug deps message text t w' r :
  run env w (processJoinRequest JSON_parse clock deps message) t w' r →
  generateConvosInviteSlug opts nonce = Ok slug → invitable opts → length nonce = 12%nat →
  (blen (l_signed_encode (invite_payload opts nonce) (invite_signature opts nonce)) ≤
    icc_maxDecompressedSize convosInviteCrypto)%Z →
  pd_walletPrivateKeyHex deps = gi_walletPrivateKeyHex opts → pd_creatorInboxId deps = gi_creatorInboxId opts →
  expiry_passed (clock w) ((λ ms, ms / 1000)%Z <$> gi_expiresAt opts) = false →
  invite_text JSON_parse (jm_content message) = Some text →
  text = slug ∨ (∃ e, text = invite_base_url e +:+ "?i=" +:+ encodeURIComponent slug) →
  let group := recovered_id (gi_conversationId opts) (gi_conversationIdFormat opts) in
  ∃ tag t', t = Event _ (HGetTag group) w tag :: t' ∧
    (tag = Ok None ∨ tag = Ok (Some (gi_inviteTag opts)) →
     ∃ w1 added, t' = [Event _ (HAddMembers (pd_client deps) group [jm_senderInboxId message]) w1 added] ∧
       r = match added with
           | Ok _ => Ok (mkJoined group (jm_senderInboxId message) (gi_inviteTag opts))
           | Err e => Err e
           end).
Proof.
  intros Hrun Hgen Hinv Hnonce Hsize Hkey Hcreator Hexp Htext Hsrc group.
  destruct (generated_slug _ _ _ Hgen Hinv) as [Hs Hu].
  assert (extractSlug text = slug) as Hslug by (by destruct Hsrc as [->|[e ->]]).
  pose proof (generated_invite_valid _ _ _ _ _ _ _ Hgen Hinv Hnonce Hsize Hkey Hcreator Hexp Htext Hslug) as Hv.
  apply checkInvite_spec in Hv. unfold processJoinRequest in Hrun. cbn [run fst snd] in Hrun. rewrite Hv in Hrun.
  cbn [run] in Hrun. destruct Hrun as (w1 & tag & t' & _ & -> & Hrun). exists tag, t'. split; [done|].
  intros Htag. assert (inv_tag (expected_invite opts nonce (clock w)) = gi_inviteTag opts) as Hi by done.
  destruct Htag as [->| ->]; [|rewrite Hi, bool_decide_true in Hrun by done]; cbn [negb run] in Hrun;
    destruct Hrun as (w2 & added & t2 & _ & -> & -> & -> & ->); exists w1, added; rewrite ?Hi; by destruct added.
Qed.
End admission.

(** ** An example *)
Definition demo_slug : string :=
  match generateConvosInviteSlug (H := Toy.lib) demo_options demo_nonce with Ok slug => slug | Err _ => "" end.
Definition demo_host : ProcessJoinRequestDeps := mkJoinDeps "11" "0abc" 7.
Definition demo_joiner : IncomingJoinMessage :=
  mkIncoming "ca11" (ct_json (JObj [("inviteSlug", JStr demo_slug)])).
Definition demo_join_events {W} (w : W) : list (event W heff) :=
  [Event _ (HGetTag "group-1") w (Ok (Some "tag-1")); Event _ (HAddMembers 7 "group-1" ["ca11"]) w (Ok tt)].
Lemma demo_join_run {W} (clock : W → Z) (w : W) : clock w = 0%Z →
  run eq w (processJoinRequest (H := Toy.lib) (λ _, None) clock demo_host demo_joiner)
  (demo_join_events w) w (Ok (mkJoined "group-1" "ca11" "tag-1")).
Proof.
  intros Hw. unfold processJoinRequest. cbn [run fst snd]. rewrite Hw.
  assert (checkInvite (H := Toy.lib) (λ _, None) demo_host 0 (jm_content demo_joiner) =
    Ok (expected_invite (H := Toy.lib) demo_options demo_nonce 0, "group-1")) as ->.
  { apply checkInvite_spec. apply (generated_invite_valid (H := Toy.lib) (H0 := Toy.laws) _ demo_options demo_nonce demo_slug demo_host 0 _ demo_slug);
      [by vm_compute|apply demo_invitable|done|by vm_compute|done..|by vm_compute|by vm_compute]. }
  cbn [run]. exists w, (Ok (Some "tag-1")). eexists. split_and!; [done..|]. cbn [run].
  exists w, (Ok tt), []. by split_and!.
Qed.
Lemma join_adds_only_invited_witness :
  ∃ ev, ev ∈ demo_join_events 0%Z ∧ adds ev = Some (7%nat, "group-1", ["ca11"]).
Proof.
  destruct (join_adds_only_invited (H := Toy.lib) (λ _, None) (λ w, w) eq 0%Z demo_host demo_joiner _ _ _ (demo_join_run (λ w, w) 0%Z eq_refl))
    as (_ & _ & _ & Hok).
  destruct (Hok _ eq_refl) as (_ & ev & Hin & Hev). by exists ev.
Defined.
Lemma invited_joiner_admitted_witness :
  ∃ tag t', demo_join_events 0%Z = Event _ (HGetTag "group-1") 0%Z tag :: t'.
Proof.
  destruct (invited_joiner_admitted (H := Toy.lib) (H0 := Toy.laws) (λ _, None) (λ w, w) eq 0%Z demo_options demo_nonce
    demo_slug demo_host demo_joiner demo_slug _ _ _ (demo_join_run (λ w, w) 0%Z eq_refl)) as (tag & t' & Ht & _);
    [by vm_compute|apply demo_invitable|done|by vm_compute|done..|by vm_compute|by left|by exists tag, t'].
Defined.
