(* ===== verification/Profiles.v ===== *)
(** * Convos member profiles

    [core/src/schemes/convos/profile-messages.ts], [profile-state.ts] and the
    profile half of [onboarding-scheme.ts]: the messages in which members of
    a conversation publish their profiles, and the profiles that a history of
    messages stands for.

    The protobuf reader and writer are parameters ([ProfileLib]); a message
    of theirs is a record whose absent fields are [None].  Numbers are
    integers, as in [Json]; the keys of an object keep the order in which
    they were set. *)
From S2P Require Import Prelude Bytes JsDate Text Json Errors Ids Programs CoreStores Invites InviteHost.

(** ** Data *)
Record EncryptedProfileImageRef := mkImage { im_url : string; im_salt : bytes; im_nonce : bytes }.
Inductive ProfileMetadataValue := mv_string (s : string) | mv_number (z : Z) | mv_bool (b : bool).
Abbreviation ProfileMetadata := (omap string ProfileMetadataValue).
Record ProfileUpdateContent := mkUpdate {
  up_name : option string; up_encryptedImage : option EncryptedProfileImageRef;
  up_memberKind : option Z; up_metadata : option ProfileMetadata
}.
Record MemberProfileEntry := mkEntry { me_inboxId : string; me_update : ProfileUpdateContent }.
Definition Unspecified : Z := 0.
Definition Agent : Z := 1.
(** The protobuf messages. *)
Inductive MetadataOneof := string_value | number_value | bool_value.
Record RawMetadataValue := mkRawValue {
  rm_string : option string; rm_number : option Z; rm_bool : option bool; rm_value : option MetadataOneof
}.
Record RawImage := mkRawImage { ri_url : option string; ri_salt : option bytes; ri_nonce : option bytes }.
Record RawProfile := mkRaw {
  rp_name : option string; rp_encrypted_image : option RawImage; rp_member_kind : option Z;
  rp_metadata : option (omap string RawMetadataValue)
}.
Record RawMember := mkRawMember { rw_inbox_id : option bytes; rw_profile : RawProfile }.
(** [ProfileUpdateType] and [ProfileSnapshotType]: [verify] answers with an
    error, [decode] and [toObject] may throw. *)
Class ProfileLib := {
  pl_verify_update : RawProfile → option string;
  pl_encode_update : RawProfile → bytes;
  pl_decode_update : bytes → option RawProfile;
  pl_verify_snapshot : list RawMember → option string;
  pl_encode_snapshot : list RawMember → bytes;
  pl_decode_snapshot : bytes → option (list RawMember)
}.

(** ** Encoding and decoding *)
(** [result[key] = value] on a plain object: [__proto__] is its prototype. *)
Definition js_assign {V} (k : string) (v : V) (o : omap string V) : omap string V :=
  if bool_decide (k = "__proto__") then o else om_set k v o.
Definition assign_all {A V} (f : A → option V) (l : list (string * A)) : omap string V :=
  foldl (λ o kv, match f kv.2 with Some v => js_assign kv.1 v o | None => o end) [] l.
Definition nonempty {A} (l : list A) : option (list A) := match l with [] => None | _ => Some l end.
Definition value_to_proto (v : ProfileMetadataValue) : RawMetadataValue :=
  match v with
  | mv_string s => mkRawValue (Some s) None None None
  | mv_number z => mkRawValue None (Some z) None None
  | mv_bool b => mkRawValue None None (Some b) None
  end.
Definition metadataToProto (metadata : ProfileMetadata) : omap string RawMetadataValue :=
  assign_all (λ v, Some (value_to_proto v)) metadata.
Definition value_from_proto (v : RawMetadataValue) : option ProfileMetadataValue :=
  match rm_value v with
  | Some string_value => Some (mv_string (default "" (rm_string v)))
  | Some number_value => Some (mv_number (default 0%Z (rm_number v)))
  | Some bool_value => Some (mv_bool (default false (rm_bool v)))
  | None =>
      match rm_string v, rm_number v, rm_bool v with
      | Some s, _, _ => Some (mv_string s)
      | None, Some z, _ => Some (mv_number z)
      | None, None, Some b => Some (mv_bool b)
      | None, None, None => None
      end
  end.
Definition metadataFromProto (raw : option (omap string RawMetadataValue)) : option ProfileMetadata :=
  match raw ≫= nonempty with
  | None => None
  | Some raw => nonempty (assign_all value_from_proto raw)
  end.
Definition raw_of (u : ProfileUpdateContent) : RawProfile :=
  mkRaw (up_name u)
    ((λ i, mkRawImage (Some (im_url i)) (Some (im_salt i)) (Some (im_nonce i))) <$> up_encryptedImage u)
    (match up_memberKind u with
     | Some k => if bool_decide (k ≠ Unspecified) then Some k else None
     | None => None
     end)
    (match up_metadata u ≫= nonempty with Some m => Some (metadataToProto m) | None => None end).
Definition of_raw (r : RawProfile) : ProfileUpdateContent :=
  mkUpdate (rp_name r)
    ((λ i, mkImage (default "" (ri_url i)) (default [] (ri_salt i)) (default [] (ri_nonce i))) <$> rp_encrypted_image r)
    (rp_member_kind r) (metadataFromProto (rp_metadata r)).
(** [Buffer.from(clean, "hex")]: whole pairs, up to the first that is not
    hexadecimal. *)
Fixpoint from_hex (s : string) : bytes :=
  match s with
  | String c (String d rest) =>
      match hex_digit c, hex_digit d with
      | Some x, Some y => to_byte (16 * x + y) :: from_hex rest
      | _, _ => []
      end
  | _ => []
  end.
Definition profile_hexToBytes (hex : string) : bytes :=
  from_hex (if startsWith "0x" hex then str_drop 2 hex else hex).
Section codec.
Context `{ProfileLib}.
(** The bytes of the envelope; [None]: it throws. *)
Definition encodeProfileUpdate (update : ProfileUpdateContent) : option bytes :=
  match pl_verify_update (raw_of update) with
  | Some _ => None
  | None => Some (pl_encode_update (raw_of update))
  end.
Definition decodeProfileUpdate (content : bytes) : option ProfileUpdateContent :=
  of_raw <$> pl_decode_update content.
Definition raw_member (p : MemberProfileEntry) : RawMember :=
  mkRawMember (Some (profile_hexToBytes (me_inboxId p))) (raw_of (me_update p)).
Definition encodeProfileSnapshot (profiles : list MemberProfileEntry) : option bytes :=
  match pl_verify_snapshot (map raw_member profiles) with
  | Some _ => None
  | None => Some (pl_encode_snapshot (map raw_member profiles))
  end.
Definition of_raw_member (r : RawMember) : MemberProfileEntry :=
  mkEntry (bytes_hex (default [] (rw_inbox_id r))) (of_raw (rw_profile r)).
Definition decodeProfileSnapshot (content : bytes) : option (list MemberProfileEntry) :=
  map of_raw_member <$> pl_decode_snapshot content.
End codec.

(** ** The generic profiles of the onboarding scheme *)
Inductive ProfileKind := pk_human | pk_agent.
Inductive Primitive := pr_string (s : string) | pr_number (z : Z) | pr_bool (b : bool).
Record ProfileData := mkProfile {
  pd_name : option string; pd_memberKind : option ProfileKind; pd_imageUrl : option string;
  pd_metadata : option (omap string Primitive)
}.
Definition typed_value (v : Primitive) : ProfileMetadataValue :=
  match v with pr_string s => mv_string s | pr_number z => mv_number z | pr_bool b => mv_bool b end.
Definition toConvosProfileMetadata (metadata : option (omap string Primitive)) : option ProfileMetadata :=
  match metadata with
  | None => None
  | Some m => nonempty (assign_all (λ v, Some (typed_value v)) m)
  end.
Definition toConvosMemberKind (memberKind : option ProfileKind) : option Z :=
  match memberKind with Some pk_agent => Some Agent | _ => None end.
(** [None]: it throws. *)
Definition toProfileUpdateContent (profile : ProfileData) : option ProfileUpdateContent :=
  match pd_imageUrl profile with
  | Some _ => None
  | None => Some (mkUpdate (pd_name profile) None (toConvosMemberKind (pd_memberKind profile))
                    (toConvosProfileMetadata (pd_metadata profile)))
  end.
Definition toMemberProfileEntry (inboxId : string) (profile : ProfileData) : option MemberProfileEntry :=
  mkEntry inboxId <$> toProfileUpdateContent profile.

(** ** Contents of messages

    A content is a value as [InviteHost] has them, or what one of the
    registered codecs decoded.  A profile read from it has fields of any
    type: a property that is there is [Some]. *)
Inductive ProfileContent :=
  | pc_plain (c : Content)
  | pc_update (u : ProfileUpdateContent)
  | pc_snapshot (profiles : list MemberProfileEntry).
Inductive ImageField := if_ref (i : EncryptedProfileImageRef) | if_json (v : json).
Inductive MetadataField := mf_map (m : ProfileMetadata) | mf_json (v : json).
Record Fields := mkFields {
  f_name : option json; f_encryptedImage : option ImageField; f_memberKind : option json;
  f_metadata : option MetadataField
}.
Record ResolvedProfile := mkResolvedProfile { rs_inboxId : string; rs_fields : Fields }.
Definition fields_of_update (u : ProfileUpdateContent) : Fields :=
  mkFields (JStr <$> up_name u) (if_ref <$> up_encryptedImage u) (JNum <$> up_memberKind u) (mf_map <$> up_metadata u).
Definition defined (v : json) : option json := match v with JUndef => None | v => Some v end.
Definition fields_of_json (v : json) : Fields :=
  mkFields (defined (jget "name" v)) (if_json <$> defined (jget "encryptedImage" v))
    (defined (jget "memberKind" v)) (mf_json <$> defined (jget "metadata" v)).
Definition no_fields : Fields := mkFields None None None None.
Definition isContentTypeMatch (contentType typeId : string) : bool :=
  bool_decide (contentType = typeId) || bool_decide (contentType = "convos.org/" +:+ typeId +:+ ":1.0").
Definition isProfileUpdateContentType (contentType : string) : bool := isContentTypeMatch contentType "profile_update".
Definition isProfileSnapshotContentType (contentType : string) : bool := isContentTypeMatch contentType "profile_snapshot".
(** The entries of a snapshot that pass [isSnapshotProfileEntry]. *)
Definition snapshot_entry (v : json) : option ResolvedProfile :=
  if is_obj v && jhas "inboxId" v then
    match jget "inboxId" v with
    | JStr s => if bool_decide (s = "") then None else Some (mkResolvedProfile s (fields_of_json v))
    | _ => None
    end
  else None.
Definition snapshot_member (p : MemberProfileEntry) : option ResolvedProfile :=
  if bool_decide (me_inboxId p = "") then None
  else Some (mkResolvedProfile (me_inboxId p) (fields_of_update (me_update p))).
Section extract.
Context `{ProfileLib}.
Definition extractProfileUpdateContent (content : ProfileContent) : option Fields :=
  match content with
  | pc_update u => Some (fields_of_update u)
  | pc_snapshot _ => Some no_fields
  | pc_plain c =>
      match isEncodedContentEnvelope c with
      | Some content => fields_of_update <$> decodeProfileUpdate content
      | None => if is_obj (ct_object c) then Some (fields_of_json (ct_object c)) else None
      end
  end.
(** The valid entries of the snapshot. *)
Definition extractProfileSnapshotContent (content : ProfileContent) : option (list ResolvedProfile) :=
  match content with
  | pc_update _ => None
  | pc_snapshot l => Some (base.omap snapshot_member l)
  | pc_plain c =>
      match isEncodedContentEnvelope c with
      | Some content =>
          match decodeProfileSnapshot content with
          | Some l => Some (base.omap snapshot_member l) | None => None
          end
      | None =>
          match ct_get "profiles" c with
          | JArr l => if is_obj (ct_object c) then Some (base.omap snapshot_entry l) else None
          | _ => None
          end
      end
  end.
End extract.

(** ** The profiles of a history *)
Record HistoryMessage := mkHistory {
  hm_senderInboxId : string; hm_contentType : string; hm_content : ProfileContent; hm_sentAt : string
}.
Record Walk := mkWalk {
  wk_profiles : omap string ResolvedProfile; wk_snapshot : option (omap string ResolvedProfile)
}.
Section resolve.
Context `{ProfileLib} (localeCompare : string → string → Z).
Definition newest_first (messages : list HistoryMessage) : list HistoryMessage :=
  js_sort (λ left right, localeCompare (hm_sentAt right) (hm_sentAt left)) messages.
Definition snapshot_map (l : list ResolvedProfile) : omap string ResolvedProfile :=
  foldl (λ m p, om_set (toLowerCase (rs_inboxId p)) p m) [] l.
(** One message; [None]: [continue]. *)
Definition visit (m : HistoryMessage) (s : Walk) : option Walk :=
  if isProfileUpdateContentType (hm_contentType m) then
    let senderInboxId := toLowerCase (hm_senderInboxId m) in
    if om_has senderInboxId (wk_profiles s) then Some s
    else match extractProfileUpdateContent (hm_content m) with
         | None => None
         | Some update =>
             Some (mkWalk (om_set senderInboxId (mkResolvedProfile (hm_senderInboxId m) update) (wk_profiles s))
                     (wk_snapshot s))
         end
  else if isProfileSnapshotContentType (hm_contentType m) && bool_decide (wk_snapshot s = None) then
    match extractProfileSnapshotContent (hm_content m) with
    | None => None
    | Some l => Some (mkWalk (wk_profiles s) (Some (snapshot_map l)))
    end
  else Some s.
Definition all_known (memberInboxIds : option (list string)) (s : Walk) : bool :=
  match memberInboxIds with
  | None => false
  | Some l => forallb (λ inboxId, om_has (toLowerCase inboxId) (wk_profiles s)) l
  end.
Fixpoint walk (memberInboxIds : option (list string)) (messages : list HistoryMessage) (s : Walk) : Walk :=
  match messages with
  | [] => s
  | m :: messages =>
      match visit m s with
      | None => walk memberInboxIds messages s
      | Some s => if all_known memberInboxIds s then s else walk memberInboxIds messages s
      end
  end.
Definition backfill (s : Walk) : omap string ResolvedProfile :=
  match wk_snapshot s with
  | None => wk_profiles s
  | Some snapshot =>
      foldl (λ m kv, if om_has kv.1 m then m else om_set kv.1 kv.2 m) (wk_profiles s) snapshot
  end.
Definition resolveProfilesFromMessages (messages : list HistoryMessage) (memberInboxIds : option (list string))
  : omap string ResolvedProfile :=
  backfill (walk memberInboxIds (newest_first messages) (mkWalk [] None)).
Definition buildProfileSnapshotFromMessages (messages : list HistoryMessage) (memberInboxIds : list string)
  (includeFallbackEntries : bool) : list ResolvedProfile :=
  let resolved := resolveProfilesFromMessages messages (Some memberInboxIds) in
  flat_map (λ inboxId,
    match om_get (toLowerCase inboxId) resolved with
    | Some profile => [profile]
    | None => if includeFallbackEntries then [mkResolvedProfile inboxId no_fields] else []
    end) memberInboxIds.
End resolve.

(** ** Back to the generic profiles *)
Record ResolvedOnboardingProfile := mkOnboarding {
  ro_inboxId : string; ro_name : option json; ro_imageUrl : option json; ro_memberKind : option ProfileKind;
  ro_metadata : option (omap string json)
}.
Definition plain_value (v : ProfileMetadataValue) : json :=
  match v with mv_string s => JStr s | mv_number z => JNum z | mv_bool b => JBool b end.
Fixpoint chars_of (s : string) : list json :=
  match s with EmptyString => [] | String c s => JStr (String c "") :: chars_of s end.
(** [Object.entries] of a value that is not [null] or [undefined]. *)
Definition entries_of (v : json) : list (string * json) :=
  match v with
  | JObj o => o
  | JArr l => imap (λ i x, (pretty i, x)) l
  | JStr s => imap (λ i x, (pretty i, x)) (chars_of s)
  | _ => []
  end.
(** [None]: it throws. *)
Definition fromConvosProfileMetadata (metadata : option MetadataField) : option (option (omap string json)) :=
  match metadata with
  | None => Some None
  | Some (mf_map m) => Some (nonempty (assign_all (λ v, Some (plain_value v)) m))
  | Some (mf_json v) =>
      if negb (truthy v) then Some None
      else if existsb (λ kv, nullish kv.2) (entries_of v) then None
      else Some (nonempty (assign_all (λ x, Some (jget "value" x)) (entries_of v)))
  end.
Definition fromConvosMemberKind (memberKind : option json) : option ProfileKind :=
  match memberKind with Some (JNum 1) => Some pk_agent | _ => None end.
Definition image_url (image : option ImageField) : option (option json) :=
  match image with
  | None => Some None
  | Some (if_ref i) => Some (Some (JStr (im_url i)))
  | Some (if_json v) => if nullish v then None else Some (Some (jget "url" v))
  end.
Definition toResolvedProfile (profile : ResolvedProfile) : option ResolvedOnboardingProfile :=
  let f := rs_fields profile in
  match fromConvosProfileMetadata (f_metadata f), image_url (f_encryptedImage f) with
  | Some metadata, Some imageUrl =>
      Some (mkOnboarding (rs_inboxId profile) (f_name f) imageUrl (fromConvosMemberKind (f_memberKind f)) metadata)
  | _, _ => None
  end.
Section scheme.
Context `{ProfileLib} (localeCompare : string → string → Z).
Definition scheme_encodeProfileUpdate (profile : ProfileData) : option bytes :=
  toProfileUpdateContent profile ≫= encodeProfileUpdate.
Definition scheme_encodeProfileSnapshot (members : list (string * ProfileData)) : option bytes :=
  mapM (λ m, toMemberProfileEntry m.1 m.2) members ≫= encodeProfileSnapshot.
Definition resolveProfilesFromHistory (messages : list HistoryMessage) (memberInboxIds : option (list string))
  : option (list (string * ResolvedOnboardingProfile)) :=
  mapM (λ kv : string * ResolvedProfile, pair kv.1 <$> toResolvedProfile kv.2)
    (resolveProfilesFromMessages localeCompare messages memberInboxIds).
End scheme.

(** ** What a history says of an inbox *)
Section history.
Context `{ProfileLib} (localeCompare : string → string → Z).
Definition orelse {A} (o d : option A) : option A := match o with Some x => Some x | None => d end.
Definition update_of (i : string) (m : HistoryMessage) : option ResolvedProfile :=
  if isProfileUpdateContentType (hm_contentType m) && bool_decide (toLowerCase (hm_senderInboxId m) = i)
  then mkResolvedProfile (hm_senderInboxId m) <$> extractProfileUpdateContent (hm_content m) else None.
Definition snapshot_of (m : HistoryMessage) : option (omap string ResolvedProfile) :=
  if isProfileSnapshotContentType (hm_contentType m)
  then snapshot_map <$> extractProfileSnapshotContent (hm_content m) else None.
Definition first_of {A} (f : HistoryMessage → option A) (l : list HistoryMessage) : option A := head (base.omap f l).
Lemma first_of_cons {A} (f : HistoryMessage → option A) m l : first_of f (m :: l) = orelse (f m) (first_of f l).
Proof. unfold first_of. cbn. by destruct (f m). Qed.
Lemma first_of_app {A} (f : HistoryMessage → option A) l k : first_of f (l ++ k) = orelse (first_of f l) (first_of f k).
Proof. unfold first_of. rewrite omap_app. by destruct (base.omap f l). Qed.
Lemma first_of_None {A} (f : HistoryMessage → option A) l : first_of f l = None ↔ ∀ m, m ∈ l → f m = None.
Proof.
  induction l as [|m l IH]; [split; [by intros _ ? ?%not_elem_of_nil|done]|].
  rewrite first_of_cons. destruct (f m) eqn:Hm; cbn.
  - split; [done|]. intros Hx. specialize (Hx m (list_elem_of_here _ _)). congruence.
  - rewrite IH. set_solver.
Qed.
Lemma first_of_Some {A} (f : HistoryMessage → option A) l a : first_of f l = Some a →
  ∃ l1 m l2, l = l1 ++ m :: l2 ∧ f m = Some a ∧ ∀ m', m' ∈ l1 → f m' = None.
Proof.
  induction l as [|m l IH]; [done|]. rewrite first_of_cons. destruct (f m) as [b|] eqn:Hm; cbn.
  - intros [= ->]. exists [], m, l. split_and!; [done..|]. by intros ? ?%not_elem_of_nil.
  - intros (l1 & m' & l2 & -> & Hm' & Hl)%IH. exists (m :: l1), m', l2. split_and!; [done..|]. set_solver.
Qed.

(** *** The walk *)
Definition absorbed (l : list HistoryMessage) (s s' : Walk) : Prop :=
  (∀ i, om_get i (wk_profiles s') = orelse (om_get i (wk_profiles s)) (first_of (update_of i) l)) ∧
  wk_snapshot s' = orelse (wk_snapshot s) (first_of snapshot_of l).
Lemma content_types_differ t : isProfileUpdateContentType t = true → isProfileSnapshotContentType t = false.
Proof.
  unfold isProfileUpdateContentType, isContentTypeMatch, isProfileSnapshotContentType.
  intros [->%bool_decide_eq_true| ->%bool_decide_eq_true]%orb_true_iff; reflexivity.
Qed.
Lemma visit_spec m s : absorbed [m] s (default s (visit m s)).
Proof.
  unfold absorbed, visit. setoid_rewrite first_of_cons. unfold update_of, snapshot_of, first_of. cbn [base.omap list_omap head].
  destruct (isProfileUpdateContentType (hm_contentType m)) eqn:Hu.
  - rewrite (content_types_differ _ Hu). cbn [andb orelse].
    assert (∀ i, om_has i (wk_profiles s) = true ↔ is_Some (om_get i (wk_profiles s))) as Hhas.
    { intros i. unfold om_has. apply bool_decide_eq_true. }
    destruct (om_has (toLowerCase (hm_senderInboxId m)) (wk_profiles s)) eqn:Hh; cbn [default id from_option].
    { apply Hhas in Hh as [p Hp]. split; [|by destruct (wk_snapshot s)]. intros i.
      case_bool_decide as Hi; [subst i; by rewrite Hp|]. by destruct (om_get i _). }
    assert (om_get (toLowerCase (hm_senderInboxId m)) (wk_profiles s) = None) as Hn.
    { destruct (om_get _ _) eqn:Hg; [|done]. assert (om_has (toLowerCase (hm_senderInboxId m)) (wk_profiles s) = true); [|congruence].
      apply Hhas. by rewrite Hg. }
    destruct (extractProfileUpdateContent (hm_content m)) as [u|]; cbn.
    + split; [|by destruct (wk_snapshot s)]. intros i. rewrite om_get_set. case_decide as Hi.
      * subst i. rewrite Hn, bool_decide_eq_true_2 by done. done.
      * rewrite bool_decide_eq_false_2 by (by intros <-). by destruct (om_get i _).
    + split; [|by destruct (wk_snapshot s)]. intros i. by destruct (om_get i _), (bool_decide _).
  - cbn [andb orelse]. assert (∀ i, om_get i (wk_profiles s) = orelse (om_get i (wk_profiles s)) None) as Hsame.
    { intros i. by destruct (om_get i _). }
    destruct (isProfileSnapshotContentType (hm_contentType m)); cbn [andb].
    + destruct (wk_snapshot s) eqn:Hs; cbn.
      * split; [done|]. by rewrite Hs.
      * destruct (extractProfileSnapshotContent (hm_content m)); cbn; [by split|]. by split.
    + split; [done|]. cbn. by destruct (wk_snapshot s).
Qed.
Lemma absorbed_app l k s s1 s2 : absorbed l s s1 → absorbed k s1 s2 → absorbed (l ++ k) s s2.
Proof.
  intros [H1 H2] [H3 H4]. split.
  - intros i. rewrite H3, H1, first_of_app. by destruct (om_get i _).
  - rewrite H4, H2, first_of_app. by destruct (wk_snapshot s).
Qed.
Lemma walk_spec members l s :
  ∃ l1 l2, l = l1 ++ l2 ∧ absorbed l1 s (walk members l s) ∧ (l2 = [] ∨ all_known members (walk members l s) = true).
Proof.
  revert s. induction l as [|m l IH]; intros s.
  { exists [], []. split_and!; [done| |by left]. split; cbn; [|by destruct (wk_snapshot s)].
    intros i. cbn. by destruct (om_get i _). }
  pose proof (visit_spec m s) as Hv. cbn [walk]. destruct (visit m s) as [s1|] eqn:Hs; cbn in Hv.
  - destruct (all_known members s1) eqn:Hk.
    + exists [m], l. auto.
    + destruct (IH s1) as (l1 & l2 & -> & Ha & Hl). exists (m :: l1), l2. split_and!; [done| |done].
      by apply (absorbed_app [m] l1 s s1).
  - destruct (IH s) as (l1 & l2 & -> & Ha & Hl). exists (m :: l1), l2. split_and!; [done| |done].
    by apply (absorbed_app [m] l1 s s).
Qed.
Lemma backfill_get i s : NoDup (default [] (wk_snapshot s)).*1 →
  om_get i (backfill s) = orelse (om_get i (wk_profiles s)) (wk_snapshot s ≫= om_get i).
Proof.
  unfold backfill. destruct (wk_snapshot s) as [sn|]; cbn; [|by destruct (om_get i _)].
  generalize (wk_profiles s) as m. induction sn as [|[k v] sn IH]; intros m Hnd; cbn.
  { by destruct (om_get i m). }
  cbn in Hnd. apply NoDup_cons in Hnd as [Hk Hnd]. rewrite IH by done. unfold om_has. case_bool_decide as Hm.
  - destruct Hm as [x Hx]. destruct (decide (i = k)) as [->|Hi].
    + by rewrite Hx.
    + done.
  - rewrite om_get_set. destruct (decide (i = k)) as [->|Hi].
    + apply eq_None_not_Some in Hm. by rewrite Hm, decide_True by done.
    + by rewrite decide_False by done.
Qed.

(** *** Newest messages *)
Definition newest {A} (f : HistoryMessage → option A) (l : list HistoryMessage) (m : HistoryMessage) (a : A) : Prop :=
  m ∈ l ∧ f m = Some a ∧
  ∀ m' a', m' ∈ l → f m' = Some a' → (localeCompare (hm_sentAt m') (hm_sentAt m) ≤ 0)%Z.
Definition silent {A} (f : HistoryMessage → option A) (l : list HistoryMessage) : Prop := ∀ m, m ∈ l → f m = None.
Definition asked (memberInboxIds : option (list string)) (i : string) : Prop :=
  match memberInboxIds with None => True | Some l => i ∈ map toLowerCase l end.
Definition profile_in (l : list HistoryMessage) (i : string) : option ResolvedProfile :=
  orelse (first_of (update_of i) l) (first_of snapshot_of l ≫= om_get i).
Lemma snapshot_map_NoDup l : NoDup (snapshot_map l).*1.
Proof.
  unfold snapshot_map. assert (NoDup (@nil (string * ResolvedProfile)).*1) as H0 by constructor. revert H0.
  generalize (@nil (string * ResolvedProfile)) as m. induction l as [|p l IH]; intros m Hm; cbn; [done|].
  apply IH. by apply om_set_NoDup.
Qed.
Lemma snapshot_of_NoDup m sn : snapshot_of m = Some sn → NoDup sn.*1.
Proof.
  unfold snapshot_of. destruct (isProfileSnapshotContentType _); [|done].
  destruct (extractProfileSnapshotContent _); [|done]. intros [= <-]. apply snapshot_map_NoDup.
Qed.
(** The walk may stop early; what it was asked for, it has. *)
Lemma resolve_get messages members i : asked members i →
  om_get i (resolveProfilesFromMessages localeCompare messages members) = profile_in (newest_first localeCompare messages) i.
Proof.
  intros Hi. unfold resolveProfilesFromMessages, profile_in.
  destruct (walk_spec members (newest_first localeCompare messages) (mkWalk [] None)) as (l1 & l2 & -> & [Hp Hs] & Hend).
  set (w := walk members (l1 ++ l2) (mkWalk [] None)) in *. cbn in Hp, Hs.
  rewrite backfill_get.
  2: { rewrite Hs. destruct (first_of snapshot_of l1) as [sn|] eqn:Hf; cbn; [|constructor].
       apply first_of_Some in Hf as (? & m & ? & _ & Hm & _). by eapply snapshot_of_NoDup. }
  rewrite Hp, Hs, !first_of_app. destruct Hend as [->|Hk].
  { unfold first_of at 4 6. cbn. destruct (first_of (update_of i) l1), (first_of snapshot_of l1); done. }
  destruct members as [l|]; [|done]. cbn in Hi, Hk. rewrite forallb_forall in Hk.
  apply list_elem_of_fmap in Hi as (x & -> & Hx). apply list_elem_of_In, Hk in Hx.
  unfold om_has in Hx. apply bool_decide_eq_true in Hx as [q Hq]. rewrite Hp in Hq. by rewrite Hq.
Qed.
Context (Htot : ∀ a b, (localeCompare a b ≤ 0)%Z ∨ (localeCompare b a ≤ 0)%Z)
        (Htrans : ∀ a b c, (localeCompare a b ≤ 0)%Z → (localeCompare b c ≤ 0)%Z → (localeCompare a c ≤ 0)%Z).
Lemma newest_first_of {A} (f : HistoryMessage → option A) messages :
  match first_of f (newest_first localeCompare messages) with
  | Some a => ∃ m, newest f messages m a
  | None => silent f messages
  end.
Proof.
  pose proof (js_sort_sorted (λ l r, localeCompare (hm_sentAt r) (hm_sentAt l))) as Hsort.
  specialize (Hsort ltac:(intros ??; apply Htot) ltac:(intros x y z ??; by eapply Htrans) messages).
  fold (newest_first localeCompare messages) in Hsort.
  assert (∀ m, m ∈ newest_first localeCompare messages ↔ m ∈ messages) as Hin by (intros m; apply elem_of_js_sort).
  destruct (first_of f _) as [a|] eqn:Hf.
  - apply first_of_Some in Hf as (l1 & m & l2 & Hl & Hm & Hno). exists m. rewrite Hl in *.
    split_and!; [apply Hin; set_solver|done|]. intros m' a' Hm' Hfm'. apply Hin in Hm'.
    apply elem_of_app in Hm' as [Hm'|[->|Hm']%elem_of_cons].
    + rewrite Hno in Hfm' by done. done.
    + by destruct (Htot (hm_sentAt m) (hm_sentAt m)).
    + apply StronglySorted_app in Hsort as (_ & _ & Hs). inversion Hs as [|? ? _ Hall]; subst.
      rewrite Forall_forall in Hall. by apply Hall.
  - rewrite first_of_None in Hf. intros m Hm%Hin. auto.
Qed.

(** C19: the profiles a history stands for.  For every inbox that is asked for,
    in any order of the messages: the profile of its newest readable update,
    whatever snapshots say; without one, its entry in the newest readable
    snapshot; without that, none.  The walk stops as soon as every member has
    an update, and that never shows: the snapshot built for a list of members
    is the one a walk of the whole history would give. *)
Theorem profiles_latest messages members :
  (∀ i, asked members i →
     match om_get i (resolveProfilesFromMessages localeCompare messages members) with
     | Some p =>
         (∃ m, newest (update_of i) messages m p) ∨
         (silent (update_of i) messages ∧ ∃ m sn, newest snapshot_of messages m sn ∧ om_get i sn = Some p)
     | None =>
         silent (update_of i) messages ∧
         (silent snapshot_of messages ∨ ∃ m sn, newest snapshot_of messages m sn ∧ om_get i sn = None)
     end) ∧
  (∀ memberInboxIds fallback,
     buildProfileSnapshotFromMessages localeCompare messages memberInboxIds fallback =
     flat_map (λ inboxId,
       match om_get (toLowerCase inboxId) (resolveProfilesFromMessages localeCompare messages None) with
       | Some profile => [profile]
       | None => if fallback then [mkResolvedProfile inboxId no_fields] else []
       end) memberInboxIds).
Proof using Htot Htrans.
  split.
  - intros i Hi. rewrite resolve_get by done. unfold profile_in.
    pose proof (newest_first_of (update_of i) messages) as Hu.
    pose proof (newest_first_of snapshot_of messages) as Hs.
    destruct (first_of (update_of i) _) as [p|]; cbn [orelse]; [by left|].
    destruct (first_of snapshot_of _) as [sn|]; cbn; [|by split; [|left]].
    destruct Hs as [m Hm]. destruct (om_get i sn) as [p|] eqn:Hg; [right|]; (split; [done|]); [|right]; by exists m, sn.
  - intros l fallback. unfold buildProfileSnapshotFromMessages. rewrite !flat_map_concat_map. f_equal.
    apply map_ext_in. intros x Hx%list_elem_of_In. rewrite !resolve_get; [done|done|].
    cbn. apply list_elem_of_fmap. by exists x.
Qed.
End history.

(** ** Publishing a profile *)
Definition primitive_json (v : Primitive) : json :=
  match v with pr_string s => JStr s | pr_number z => JNum z | pr_bool b => JBool b end.
(** What the reader makes of the fields that were left out. *)
Definition emitted (r : RawProfile) : RawProfile :=
  mkRaw (rp_name r) (rp_encrypted_image r) (rp_member_kind r) (Some (default [] (rp_metadata r))).
Definition kind_ok (u : ProfileUpdateContent) : Prop := ∀ k, up_memberKind u = Some k → k = Unspecified ∨ k = Agent.
Class ProfileLaws `{ProfileLib} := {
  pl_update : ∀ u, kind_ok u → pl_verify_update (raw_of u) = None ∧
    pl_decode_update (pl_encode_update (raw_of u)) = Some (emitted (raw_of u));
  pl_snapshot : ∀ l, Forall (λ p, kind_ok (me_update p)) l → pl_verify_snapshot (map raw_member l) = None ∧
    pl_decode_snapshot (pl_encode_snapshot (map raw_member l)) =
      Some (map (λ p, mkRawMember (rw_inbox_id (raw_member p)) (emitted (raw_of (me_update p)))) l)
}.
Lemma assign_all_map {A V} (f : A → V) (l : list (string * A)) : NoDup l.*1 → "__proto__" ∉ l.*1 →
  assign_all (λ v, Some (f v)) l = map (λ kv, (kv.1, f kv.2)) l.
Proof.
  intros Hnd Hp. unfold assign_all. change (map _ l) with ([] ++ map (λ kv, (kv.1, f kv.2)) l).
  assert (∀ k, k ∈ l.*1 → om_get k (@nil (string * V)) = None) as H0 by done. revert H0.
  generalize (@nil (string * V)) as m. induction l as [|[k a] l IH]; intros m Hm; cbn; [by rewrite app_nil_r|].
  cbn in *. apply NoDup_cons in Hnd as [Hk Hnd]. unfold js_assign. rewrite bool_decide_eq_false_2 by set_solver.
  rewrite om_set_fresh by (apply Hm; set_solver). rewrite IH; [by rewrite <-app_assoc|done|set_solver|].
  intros k' Hk'. apply om_get_None. rewrite fmap_app. apply not_elem_of_app. split.
  - apply om_get_None, Hm. set_solver.
  - cbn. intros ->%list_elem_of_singleton. done.
Qed.
Lemma keys_map {A V} (f : string * A → V) (l : list (string * A)) : (map (λ kv, (kv.1, f kv)) l).*1 = l.*1.
Proof. induction l as [|[k a] l IH]; [done|]. cbn. by f_equal. Qed.
Definition plain_keys {A} (l : list (string * A)) : Prop := NoDup l.*1 ∧ "__proto__" ∉ l.*1.
Lemma value_proto_roundtrip v : value_from_proto (value_to_proto v) = Some v.
Proof. by destruct v. Qed.
Lemma metadata_roundtrip (m : ProfileMetadata) : plain_keys m →
  metadataFromProto (Some (metadataToProto m)) = nonempty m.
Proof.
  intros [Hnd Hp]. unfold metadataToProto. rewrite assign_all_map by done. destruct m as [|[k v] m]; [done|].
  unfold metadataFromProto. cbn [nonempty map mbind option_bind fst snd].
  change ((k, value_to_proto v) :: map (λ kv, (kv.1, value_to_proto kv.2)) m)
    with (map (λ kv : string * ProfileMetadataValue, (kv.1, value_to_proto kv.2)) ((k, v) :: m)).
  set (l := (k, v) :: m) in *.
  assert (∀ r : list (string * RawMetadataValue), Forall (λ kv, is_Some (value_from_proto kv.2)) r →
    assign_all value_from_proto r = assign_all (λ x, Some (default (mv_bool false) (value_from_proto x))) r) as Hext.
  { intros r Hr. unfold assign_all. generalize (@nil (string * ProfileMetadataValue)) as o.
    induction Hr as [|kv r [x Hx] _ IH]; intros o; [done|]. cbn. rewrite Hx. cbn. apply IH. }
  rewrite Hext. 2: { apply Forall_forall. intros kv ([k' v'] & -> & _)%list_elem_of_fmap. cbn. by destruct v'. }
  rewrite assign_all_map; [|by rewrite (keys_map (λ kv, value_to_proto kv.2))..].
  rewrite map_map. cbn [fst snd]. rewrite (map_ext _ id); [by rewrite map_id|].
  intros [k' v']. by destruct v'.
Qed.
(** What a reader gets of an update that was written. *)
Definition read_back (u : ProfileUpdateContent) : ProfileUpdateContent :=
  mkUpdate (up_name u) (up_encryptedImage u)
    (match up_memberKind u with Some k => if bool_decide (k ≠ Unspecified) then Some k else None | None => None end)
    (up_metadata u ≫= nonempty).
Definition metadata_ok (u : ProfileUpdateContent) : Prop := ∀ m, up_metadata u = Some m → plain_keys m.
Lemma of_emitted u : metadata_ok u → of_raw (emitted (raw_of u)) = read_back u.
Proof.
  intros Hm. unfold of_raw, emitted, raw_of, read_back. cbn. f_equal.
  - destruct (up_encryptedImage u) as [[]|]; done.
  - destruct (up_metadata u) as [m|] eqn:Hu; [|done]. cbn. specialize (Hm m Hu).
    destruct m as [|kv m]; [done|]. cbn [nonempty default]. exact (metadata_roundtrip (kv :: m) Hm).
Qed.
(** An inbox identifier in lower-case hexadecimal. *)
Definition hex_inbox (s : string) : Prop := (∃ n, String.length s = (n * 2)%nat) ∧ str_forallb is_hex s = true.
Lemma from_hex_pairs n s : String.length s = (n * 2)%nat → str_forallb is_hex s = true → bytes_hex (from_hex s) = s.
Proof.
  revert s. induction n as [|n IH]; intros s Hl Hs; [by destruct s|].
  destruct s as [|c [|d s]]; cbn in Hl; try lia. cbn [str_forallb] in Hs.
  apply andb_true_iff in Hs as [Hc [Hd Hs]%andb_true_iff].
  assert (∀ c, is_hex c = true → ∃ x, hex_digit c = Some x ∧ (x < 16)%nat ∧ hex_char x = c) as Hh.
  { clear. intros c Hc. destruct c as [[] [] [] [] [] [] [] []]; vm_compute in Hc; try done; eexists; split; try reflexivity; split; vm_compute; (lia || reflexivity). }
  destruct (Hh c Hc) as (x & Hx & ? & Hcx), (Hh d Hd) as (y & Hy & ? & Hdy).
  cbn [from_hex]. rewrite Hx, Hy. cbn [bytes_hex]. rewrite byte_hex_to_byte, Hcx, Hdy by done.
  rewrite !str_cons_app, str_nil_app. do 2 f_equal. apply IH; [lia|done].
Qed.
Lemma inbox_roundtrip s : hex_inbox s → bytes_hex (profile_hexToBytes s) = s.
Proof.
  intros [[n Hn] Hs]. unfold profile_hexToBytes. assert (startsWith "0x" s = false) as ->.
  { apply not_true_iff_false. intros [t ->]%startsWith_spec. cbn in Hs. by rewrite ?str_cons_app in Hs. }
  by eapply from_hex_pairs.
Qed.
Section publish.
Context `{PL : ProfileLib, !ProfileLaws} (localeCompare : string → string → Z).
Lemma update_codec u : kind_ok u → metadata_ok u →
  ∃ b, encodeProfileUpdate u = Some b ∧ decodeProfileUpdate b = Some (read_back u).
Proof.
  intros Hk Hm. destruct (pl_update u Hk) as [Hv Hd]. unfold encodeProfileUpdate, decodeProfileUpdate. rewrite Hv.
  eexists. split; [done|]. rewrite Hd. cbn. by rewrite of_emitted.
Qed.
Lemma snapshot_codec l : Forall (λ p, kind_ok (me_update p) ∧ metadata_ok (me_update p) ∧ hex_inbox (me_inboxId p)) l →
  ∃ b, encodeProfileSnapshot l = Some b ∧
    decodeProfileSnapshot b = Some (map (λ p, mkEntry (me_inboxId p) (read_back (me_update p))) l).
Proof.
  intros Hl. destruct (pl_snapshot l) as [Hv Hd]; [eapply Forall_impl; [exact Hl|by intros p Hp; apply Hp]|].
  unfold encodeProfileSnapshot, decodeProfileSnapshot. rewrite Hv. eexists. split; [done|]. rewrite Hd. cbn. f_equal.
  rewrite map_map. apply map_ext_in. intros p Hp%list_elem_of_In. rewrite Forall_forall in Hl.
  destruct (Hl p Hp) as (_ & Hm & Hi). unfold of_raw_member. cbn. rewrite of_emitted by done. f_equal. by apply inbox_roundtrip.
Qed.

Definition profile_ok (p : ProfileData) : Prop :=
  pd_imageUrl p = None ∧ ∀ m, pd_metadata p = Some m → plain_keys m.
Definition shown (inboxId : string) (p : ProfileData) : ResolvedOnboardingProfile :=
  mkOnboarding inboxId (JStr <$> pd_name p) None
    (match pd_memberKind p with Some pk_agent => Some pk_agent | _ => None end)
    ((λ m : list (string * Primitive), map (λ kv, (kv.1, primitive_json kv.2)) m) <$> (pd_metadata p ≫= nonempty)).
(** The message holds the envelope, or what the registered codec made of it. *)
Definition carries (b : bytes) (m : HistoryMessage) : Prop :=
  isProfileUpdateContentType (hm_contentType m) = true ∧
  ((∃ c, hm_content m = pc_plain c ∧ isEncodedContentEnvelope c = Some b) ∨
   ∃ u, decodeProfileUpdate b = Some u ∧ hm_content m = pc_update u).
Definition written (p : ProfileData) : ProfileUpdateContent :=
  mkUpdate (pd_name p) None (toConvosMemberKind (pd_memberKind p)) (toConvosProfileMetadata (pd_metadata p)).
Lemma typed_metadata m : plain_keys m →
  toConvosProfileMetadata (Some m) = (λ l, map (λ kv, (kv.1, typed_value kv.2)) l) <$> nonempty m.
Proof. intros [? ?]. unfold toConvosProfileMetadata. rewrite assign_all_map by done. by destruct m. Qed.
Lemma nonempty_cases {A} (l : list A) : nonempty l = None ∨ (nonempty l = Some l ∧ ∀ B (f : A → B), nonempty (map f l) = Some (map f l)).
Proof. destruct l; [by left|by right]. Qed.
Lemma written_ok p : profile_ok p → kind_ok (written p) ∧ metadata_ok (written p).
Proof.
  intros [_ Hm]. split.
  - intros k. unfold written, toConvosMemberKind. cbn. destruct (pd_memberKind p) as [[]|]; [done| |done].
    intros [= <-]. by right.
  - intros m. unfold written. cbn. destruct (pd_metadata p) as [m0|]; [|done]. specialize (Hm m0 eq_refl).
    rewrite typed_metadata by done. destruct (nonempty_cases m0) as [->|[-> _]]; [done|]. intros [= <-].
    unfold plain_keys. by rewrite (keys_map (λ kv, typed_value kv.2)).
Qed.
Lemma written_shown p inboxId : profile_ok p →
  toResolvedProfile (mkResolvedProfile inboxId (fields_of_update (read_back (written p)))) = Some (shown inboxId p).
Proof.
  intros [_ Hm]. unfold toResolvedProfile, read_back, shown. cbn.
  assert (∀ kind, fromConvosMemberKind (JNum <$> match toConvosMemberKind kind with
      | Some k => if bool_decide (k ≠ Unspecified) then Some k else None | None => None end) =
    match kind with Some pk_agent => Some pk_agent | _ => None end) as Hk by (by intros [[]|]).
  rewrite Hk. destruct (pd_metadata p) as [m|]; [|done]. specialize (Hm m eq_refl).
  rewrite typed_metadata by done. cbn [mbind option_bind].
  destruct (nonempty_cases m) as [->|[-> Hne]]; [done|]. cbn. rewrite Hne. cbn [fmap option_fmap option_map fromConvosProfileMetadata].
  rewrite assign_all_map; [|by rewrite (keys_map (λ kv, typed_value kv.2)); apply Hm..].
  rewrite map_map, Hne. cbn [fst snd]. rewrite (map_ext _ (λ kv, (kv.1, primitive_json kv.2))); [done|].
  intros [k v]. by destruct v.
Qed.
Context (Htot : ∀ a b, (localeCompare a b ≤ 0)%Z ∨ (localeCompare b a ≤ 0)%Z)
        (Htrans : ∀ a b c, (localeCompare a b ≤ 0)%Z → (localeCompare b c ≤ 0)%Z → (localeCompare a c ≤ 0)%Z).
Lemma snapshot_entries members : Forall (λ m : string * ProfileData, profile_ok m.2) members →
  mapM (λ m : string * ProfileData, toMemberProfileEntry m.1 m.2) members = Some (map (λ m, mkEntry m.1 (written m.2)) members).
Proof.
  induction 1 as [|m ms [Himg _] _ IH]; [done|]. cbn [mapM map].
  assert (toMemberProfileEntry m.1 m.2 = Some (mkEntry m.1 (written m.2))) as ->
    by (unfold toMemberProfileEntry, toProfileUpdateContent; by rewrite Himg).
  cbn [mbind option_bind]. by rewrite IH.
Qed.
(** C20: a profile that is published is the profile that is seen, for profiles
    without a plain image address whose metadata has distinct keys, none of
    them [__proto__] ([profile_ok]).  Such a profile encodes; and in every
    history in which the message that carries it, as the envelope or as the
    registered codec decodes it, is newer than the sender's other readable
    updates, resolving the profiles gives the sender that name, the kind if it
    is an agent, and that metadata.  A snapshot of members with such profiles,
    each its own, and inbox identifiers in lower-case hexadecimal of even
    length encodes, and is read back entry by entry: the same members in the
    same order, each with its own profile. *)
Theorem profile_published p : profile_ok p →
  (∃ b, scheme_encodeProfileUpdate p = Some b ∧
    ∀ messages members m, m ∈ messages → carries b m →
      (∀ m', m' ∈ messages → is_Some (update_of (toLowerCase (hm_senderInboxId m)) m') →
         m' = m ∨ ¬ (localeCompare (hm_sentAt m) (hm_sentAt m') ≤ 0)%Z) →
      asked members (toLowerCase (hm_senderInboxId m)) →
      ∃ r, om_get (toLowerCase (hm_senderInboxId m)) (resolveProfilesFromMessages localeCompare messages members) = Some r ∧
        toResolvedProfile r = Some (shown (hm_senderInboxId m) p)) ∧
  (∀ members : list (string * ProfileData), Forall (λ m, hex_inbox m.1 ∧ profile_ok m.2) members →
    ∃ b, scheme_encodeProfileSnapshot members = Some b ∧ ∃ l, decodeProfileSnapshot b = Some l ∧
      Forall2 (λ m e, me_inboxId e = m.1 ∧
        toResolvedProfile (mkResolvedProfile (me_inboxId e) (fields_of_update (me_update e))) = Some (shown m.1 m.2)) members l).
Proof using All.
  intros Hp. destruct (written_ok p Hp) as [Hk Hm]. pose proof Hp as [Himg _].
  assert (toProfileUpdateContent p = Some (written p)) as Hw by (unfold toProfileUpdateContent; by rewrite Himg).
  split.
  - destruct (update_codec _ Hk Hm) as (b & He & Hd). exists b. split.
    { unfold scheme_encodeProfileUpdate. by rewrite Hw. }
    intros messages members m Hin [Ht Hc] Hnew Hask. set (i := toLowerCase (hm_senderInboxId m)) in *.
    assert (update_of i m = Some (mkResolvedProfile (hm_senderInboxId m) (fields_of_update (read_back (written p))))) as Hu.
    { unfold update_of. rewrite Ht, bool_decide_eq_true_2 by done. cbn [andb].
      destruct Hc as [(c & -> & Henv)|(u & Hdu & ->)]; cbn; [by rewrite Henv, Hd|]. rewrite Hd in Hdu. by injection Hdu as <-. }
    rewrite resolve_get by done. unfold profile_in.
    pose proof (newest_first_of localeCompare Htot Htrans (update_of i) messages) as Hn.
    destruct (first_of (update_of i) _) as [q|]; [|by rewrite Hn in Hu].
    destruct Hn as (m0 & Hin0 & Hq & Hlast). specialize (Hlast m _ Hin Hu).
    destruct (Hnew m0 Hin0) as [->|?]; [by rewrite Hq|rewrite Hq in Hu|done]. injection Hu as ->. exists (mkResolvedProfile (hm_senderInboxId m) (fields_of_update (read_back (written p)))).
    split; [done|by apply written_shown].
  - intros members Hms. destruct (snapshot_codec (map (λ m : string * ProfileData, mkEntry m.1 (written m.2)) members)) as (b & He & Hd).
    { apply Forall_fmap. eapply Forall_impl; [exact Hms|]. intros m [Hi Hm']. destruct (written_ok _ Hm'). by split_and!. }
    exists b. split.
    { unfold scheme_encodeProfileSnapshot. rewrite (snapshot_entries members); [done|]. eapply Forall_impl; [exact Hms|]. by intros m [_ ?]. }
    eexists. split; [exact Hd|]. rewrite map_map. cbn. clear He Hd.
    induction Hms as [|m ms [Hi Hm'] _ IH]; [constructor|]. constructor; [|exact IH]. split; [done|]. by apply written_shown.
Qed.
End publish.

(** ** A concrete history *)
Section demo.
#[local] Instance byte_dec : EqDecision Byte.byte.
Proof. exact Byte.byte_eq_dec. Defined.
#[local] Instance byte_countable : Countable Byte.byte.
Proof. refine (inj_countable' Byte.to_N (λ n, default Byte.x00 (Byte.of_N n)) _). intros b. by rewrite Byte.of_to_N. Defined.
Definition raw_tuple (r : RawProfile) :=
  (rp_name r, (λ i, (ri_url i, ri_salt i, ri_nonce i)) <$> rp_encrypted_image r, rp_member_kind r,
   (λ m : list (string * RawMetadataValue), map (λ kv, (kv.1, (rm_string kv.2, rm_number kv.2, rm_bool kv.2,
     (λ o, match o with string_value => 0%Z | number_value => 1%Z | bool_value => 2%Z end) <$> rm_value kv.2))) m) <$> rp_metadata r).
Definition tuple_raw (t : option string * option (option string * option bytes * option bytes) * option Z *
    option (list (string * (option string * option Z * option bool * option Z)))) : RawProfile :=
  match t with
  | (name, image, kind, metadata) =>
      mkRaw name ((λ i, match i with (u, s, n) => mkRawImage u s n end) <$> image) kind
        ((λ m : list (string * (option string * option Z * option bool * option Z)), map (λ kv, (kv.1, match kv.2 with (s, z, b, o) =>
          mkRawValue s z b ((λ k, match k with 0%Z => string_value | 1%Z => number_value | _ => bool_value end) <$> o) end)) m) <$> metadata)
  end.
Lemma tuple_raw_tuple r : tuple_raw (raw_tuple r) = r.
Proof.
  destruct r as [n i k m]. unfold raw_tuple, tuple_raw. cbn. f_equal.
  - by destruct i as [[]|].
  - destruct m as [m|]; [|done]. cbn. f_equal. rewrite map_map. cbn. rewrite (map_ext _ id); [by rewrite map_id|].
    intros [key [s z b o]]. cbn. by destruct o as [[]|].
Qed.
(** A writer whose messages are the bits of their positions in an enumeration. *)
#[local] Instance demo_lib : ProfileLib := {|
  pl_verify_update _ := None;
  pl_encode_update r := Toy.pos_bytes (encode (raw_tuple r));
  pl_decode_update b := (λ t, emitted (tuple_raw t)) <$> decode (Toy.bytes_pos b);
  pl_verify_snapshot _ := None;
  pl_encode_snapshot l := Toy.pos_bytes (encode (map (λ m, (rw_inbox_id m, raw_tuple (rw_profile m))) l));
  pl_decode_snapshot b :=
    (λ l : list _, map (λ t, mkRawMember t.1 (emitted (tuple_raw t.2))) l) <$> decode (Toy.bytes_pos b)
|}.
#[local] Instance demo_laws : ProfileLaws.
Proof.
  split.
  - intros u _. split; [done|]. cbn [pl_decode_update pl_encode_update demo_lib].
    rewrite Toy.bytes_pos_bytes, decode_encode. cbn [fmap option_fmap option_map]. by rewrite tuple_raw_tuple.
  - intros l _. split; [done|]. cbn [pl_decode_snapshot pl_encode_snapshot demo_lib].
    rewrite Toy.bytes_pos_bytes, decode_encode. cbn [fmap option_fmap option_map]. f_equal. rewrite !map_map.
    apply map_ext. intros e. cbn [fst snd]. by rewrite tuple_raw_tuple.
Qed.
Lemma str_cmp_total a b : (str_cmp a b ≤ 0)%Z ∨ (str_cmp b a ≤ 0)%Z.
Proof. rewrite !str_cmp_le. apply String.le_total. Qed.
Lemma str_cmp_trans a b c : (str_cmp a b ≤ 0)%Z → (str_cmp b c ≤ 0)%Z → (str_cmp a c ≤ 0)%Z.
Proof. rewrite !str_cmp_le. apply transitivity. Qed.
Definition codex : ProfileData := mkProfile (Some "Codex") (Some pk_agent) None (Some [("lang", pr_string "en")]).
Definition envelope_of (b : bytes) : ProfileContent :=
  pc_plain (ct_bytes [("type", JObj [("authorityId", JStr "convos.org"); ("typeId", JStr "profile_update")])] b).
Definition old_update : HistoryMessage :=
  mkHistory "inbox-A" "profile_update" (pc_plain (ct_json (JObj [("name", JStr "Old")]))) "2026-04-15T14:00:00.000Z".
Definition old_snapshot : HistoryMessage :=
  mkHistory "host" "profile_snapshot"
    (pc_plain (ct_json (JObj [("profiles", JArr [JObj [("inboxId", JStr "inbox-b"); ("name", JStr "B")]; JObj [("inboxId", JStr "")]])])))
    "2026-04-15T14:01:00.000Z".
(** The newest update wins, and the snapshot fills in for the other member. *)
Definition new_update : HistoryMessage :=
  mkHistory "INBOX-a" "profile_update" (pc_update (mkUpdate (Some "New") None None None)) "2026-04-15T14:02:00.000Z".
Lemma profiles_latest_witness :
  (map (λ p, (rs_inboxId p, f_name (rs_fields p)))
     (buildProfileSnapshotFromMessages str_cmp [old_update; old_snapshot; new_update] ["inbox-a"; "inbox-b"; "inbox-c"] true) =
   [("INBOX-a", Some (JStr "New")); ("inbox-b", Some (JStr "B")); ("inbox-c", None)]) ∧
  ∃ m, newest str_cmp (update_of "inbox-a") [old_update; old_snapshot; new_update] m
    (mkResolvedProfile "INBOX-a" (mkFields (Some (JStr "New")) None None None)).
Proof.
  split; [vm_compute; reflexivity|].
  destruct (profiles_latest str_cmp str_cmp_total str_cmp_trans [old_update; old_snapshot; new_update] None) as [H _].
  specialize (H "inbox-a" I).
  replace (om_get "inbox-a" (resolveProfilesFromMessages str_cmp [old_update; old_snapshot; new_update] None))
    with (Some (mkResolvedProfile "INBOX-a" (mkFields (Some (JStr "New")) None None None))) in H by (vm_compute; reflexivity).
  destruct H as [H|[H _]]; [exact H|]. specialize (H new_update ltac:(set_solver)). vm_compute in H. discriminate.
Defined.
Definition published (b : bytes) : HistoryMessage :=
  mkHistory "INBOX-a" "convos.org/profile_update:1.0" (envelope_of b) "2026-04-15T14:03:00.000Z".
Lemma codex_ok : profile_ok codex.
Proof.
  split; [done|]. intros m [= <-]. split; [|cbn; by intros ?%list_elem_of_singleton].
  apply NoDup_singleton.
Qed.
Lemma profile_published_witness : ∃ b, scheme_encodeProfileUpdate codex = Some b ∧
  ∃ r, om_get "inbox-a" (resolveProfilesFromMessages str_cmp [old_update; old_snapshot; published b] (Some ["inbox-a"; "inbox-b"])) = Some r ∧
    toResolvedProfile r =
      Some (mkOnboarding "INBOX-a" (Some (JStr "Codex")) None (Some pk_agent) (Some [("lang", JStr "en")])).
Proof.
  destruct (profile_published str_cmp str_cmp_total str_cmp_trans codex codex_ok) as [(b & Hb & H) _].
  exists b. split; [exact Hb|]. apply (H _ _ (published b)).
  - set_solver.
  - split; [reflexivity|]. left. eexists. split; reflexivity.
  - intros m' [->|[->|[->|?%not_elem_of_nil]%elem_of_cons]%elem_of_cons]%elem_of_cons Hu; [right|right|by left|done];
      vm_compute; intros Hx; by apply Hx.
  - cbn. by left.
Defined.

(** ** Limits

    A message whose content is an object is taken for a profile as it is: one
    with [encryptedImage: null] makes resolving the history throw. *)
Definition hostile : HistoryMessage :=
  mkHistory "inbox-e" "profile_update" (pc_plain (ct_json (JObj [("encryptedImage", JNull)]))) "2026-04-15T14:04:00.000Z".
Lemma hostile_update : resolveProfilesFromHistory str_cmp [old_update; hostile] None = None ∧
  is_Some (resolveProfilesFromHistory str_cmp [old_update] None).
Proof. split; [vm_compute; reflexivity|]. eexists. vm_compute. reflexivity. Qed.
(** In a snapshot an inbox identifier that is not hexadecimal comes back cut,
    and when nothing of it is left the entry is dropped. *)
Lemma cut_inbox : bytes_hex (profile_hexToBytes "AB12-77") = "ab12" ∧
  snapshot_member (mkEntry (bytes_hex (profile_hexToBytes "inbox-a")) (mkUpdate (Some "A") None None None)) = None.
Proof. split; reflexivity. Qed.
End demo.
