(* ===== verification/InviteEffects.v ===== *)
(** * After a join request

    [cli/src/invite-host-effects.ts]: the audit entries of accepted and
    rejected join requests, and the snapshot of the members' profiles that the
    host publishes for a new member.

    The handlers are programs ([Programs]) over any world: the registry of
    clients, the local chat ids and the clock are functions of it.  A promise
    may be rejected: [Thrown].  The onboarding scheme is that of [Profiles];
    its encoder is a parameter here, because it is handed profiles that were
    resolved from messages, whose fields have any type. *)
From S2P Require Import Prelude Bytes JsDate Programs Text Json Errors Contracts Invites InviteHost Profiles.
Local Open Scope prog_scope.

Inductive xres (A : Type) := Fine (a : A) | Thrown | Unfinished.
Arguments Fine {A}. Arguments Thrown {A}. Arguments Unfinished {A}.
Record AuditEntry := mkAudit {
  au_timestamp : string; au_action : string; au_actor : string; au_target : string; au_success : bool;
  au_detail : list (string * json)
}.
Record ManagedInviteJoinAcceptance := mkAcceptance { ac_resolution : ManagedInviteJoinResolution; ac_requestMessage : RawMessageEvent }.
Record ManagedInviteJoinFailure := mkFailure { fl_error : SignetError; fl_requestMessage : RawMessageEvent }.
(** [None]: the promise is rejected. *)
Inductive xeff : Type → Type :=
  | XAppend (entry : AuditEntry) : xeff (option unit)
  | XGroupInfo (client : nat) (groupId : string) : xeff (option (res (list string)))
  | XListMessages (client : nat) (groupId : string) (before : option string) : xeff (option (res (list HistoryMessage)))
  | XSend (client : nat) (groupId : string) (content : bytes) : xeff (option (res string)).
Definition SCAN_LIMIT : nat := 500.

Definition joinFailureAction (c : ErrorCategory) : string :=
  match c with
  | validation | permission | auth => "convos.join-request.rejected"
  | _ => "convos.join-request.failed"
  end.
Definition hasMaterializedProfile (profile : option ResolvedOnboardingProfile) : bool :=
  match profile with
  | None => false
  | Some p => bool_decide (is_Some (ro_name p)) || bool_decide (is_Some (ro_imageUrl p)) ||
              bool_decide (is_Some (ro_memberKind p)) || bool_decide (is_Some (ro_metadata p))
  end.
Definition with_request (name : option json) (kind : option ProfileKind) (p : ResolvedOnboardingProfile) : ResolvedOnboardingProfile :=
  mkOnboarding (ro_inboxId p) (match name with Some n => Some n | None => ro_name p end) (ro_imageUrl p)
    (match kind with Some k => Some k | None => ro_memberKind p end) (ro_metadata p).
Definition requested_kind (v : json) : option ProfileKind :=
  match v with
  | JStr s => if bool_decide (s = "agent") then Some pk_agent else if bool_decide (s = "human") then Some pk_human else None
  | _ => None
  end.

Section effects.
Context {W : Type} `{InviteLib, JsDate, ProfileLib} (JSON_parse : string → option json) (localeCompare : string → string → Z)
  (clientFor : string → W → option nat) (localChat : string → W → option string) (now : W → string)
  (encode : list ResolvedOnboardingProfile → option bytes).
Abbreviation XProg := (prog W xeff).
Definition look {A} (f : W → A) (w : W) : W * A := (w, f w).
Definition thrown_or {A B} (p : XProg (xres A)) (k : A → XProg (xres B)) : XProg (xres B) :=
  do r <- p ;;
  match r with Fine a => k a | Thrown => Ret Thrown | Unfinished => Ret Unfinished end.
Definition attempt {A B} (e : xeff (option A)) (k : A → XProg (xres B)) : XProg (xres B) :=
  await r <- e ;; match r with Some a => k a | None => Ret Thrown end.
Definition appendAudit (entry : W → AuditEntry) : XProg (xres unit) :=
  sync entry <- look entry ;; attempt (XAppend entry) (λ _, Ret (Fine tt)).

(** The details of every entry about an accepted request. *)
Definition join_of (a : ManagedInviteJoinAcceptance) : JoinRequestResult := ra_join (ac_resolution a).
Definition acceptance_detail (a : ManagedInviteJoinAcceptance) (w : W) : list (string * json) :=
  [("groupId", JStr (jr_groupId (join_of a)));
   ("localChatId", match localChat (jr_groupId (join_of a)) w with Some s => JStr s | None => JUndef end);
   ("inviteTag", JStr (jr_inviteTag (join_of a))); ("joinerInboxId", JStr (jr_requesterInboxId (join_of a)));
   ("hostIdentityId", JStr (ra_hostIdentityId (ac_resolution a))); ("hostInboxId", JStr (ra_hostInboxId (ac_resolution a)));
   ("dmId", JStr (rm_groupId (ac_requestMessage a))); ("requestMessageId", JStr (rm_messageId (ac_requestMessage a)))].
Definition snapshot_entry_of (a : ManagedInviteJoinAcceptance) (action : string) (success : bool) (detail : list (string * json)) (w : W)
  : AuditEntry :=
  mkAudit (now w) action "system" (jr_groupId (join_of a)) success (acceptance_detail a w ++ detail).
Definition appendSnapshotAudit (a : ManagedInviteJoinAcceptance) (action : string) (success : bool) (detail : list (string * json))
  : XProg (xres unit) := appendAudit (snapshot_entry_of a action success detail).
Definition applyAcceptedJoinProfile (a : ManagedInviteJoinAcceptance) (members : list ResolvedOnboardingProfile)
  : list ResolvedOnboardingProfile :=
  let requested := match extractJoinRequestContent JSON_parse (rm_content (ac_requestMessage a)) with
                   | Some c => ct_get "profile" c | None => JUndef end in
  if negb (truthy requested) then members
  else
    let joinerInboxId := toLowerCase (jr_requesterInboxId (join_of a)) in
    map (λ p, if negb (bool_decide (toLowerCase (ro_inboxId p) = joinerInboxId)) then p
              else with_request (defined (jget "name" requested)) (requested_kind (jget "memberKind" requested)) p) members.
(** The pages of the history, newest first, until every member is known. *)
Fixpoint loadProfileSnapshotMessages (fuel : nat) (client : nat) (groupId : string) (members : list string)
  (collected : list HistoryMessage) (before : option string) : XProg (xres (res (list HistoryMessage))) :=
  match fuel with
  | O => Ret Unfinished
  | S fuel =>
      attempt (XListMessages client groupId before) (λ messages,
      match messages with
      | Err e => Ret (Fine (Err e))
      | Ok [] => Ret (Fine (Ok collected))
      | Ok page =>
          let collected := collected ++ page in
          match resolveProfilesFromHistory localeCompare collected (Some members) with
          | None => Ret Thrown
          | Some resolved =>
              if forallb (λ i, hasMaterializedProfile (om_get (toLowerCase i) resolved)) members then Ret (Fine (Ok collected))
              else if (length page <? SCAN_LIMIT)%nat then Ret (Fine (Ok collected))
              else match nonempty_str (hm_sentAt <$> last page) with
                   | None => Ret (Fine (Ok collected))
                   | Some before => loadProfileSnapshotMessages fuel client groupId members collected (Some before)
                   end
          end
      end)
  end.
Definition snapshot_members (a : ManagedInviteJoinAcceptance) (members : list string)
  (resolved : list (string * ResolvedOnboardingProfile)) : list ResolvedOnboardingProfile :=
  applyAcceptedJoinProfile a
    (map (λ i, default (mkOnboarding i None None None None) (om_get (toLowerCase i) resolved)) members).
Definition failed_with (stage : string) (e : SignetError) (more : list (string * json)) : list (string * json) :=
  [("errorCategory", JStr (category_name (category e))); ("errorMessage", JStr (message e))] ++ more ++ [("stage", JStr stage)].
Definition accepted_entry (a : ManagedInviteJoinAcceptance) (w : W) : AuditEntry :=
  mkAudit (now w) "convos.join-request.accepted" "system" (jr_groupId (join_of a)) true (acceptance_detail a w).
Definition onJoinAccepted (fuel : nat) (a : ManagedInviteJoinAcceptance) : XProg (xres unit) :=
  let groupId := jr_groupId (join_of a) in
  let failed := appendSnapshotAudit a "convos.profile-snapshot.failed" false in
  thrown_or (appendAudit (accepted_entry a)) (λ _,
  sync managed <- look (clientFor groupId) ;;
  match managed with
  | None => failed [("errorMessage", JStr "Managed client unavailable for accepted group")]
  | Some client =>
      attempt (XGroupInfo client groupId) (λ info,
      match info with
      | Err e => failed (failed_with "groupInfo" e [])
      | Ok members =>
          thrown_or (loadProfileSnapshotMessages fuel client groupId members [] None) (λ messages,
          match messages with
          | Err e => failed (failed_with "listMessages" e [])
          | Ok messages =>
              match resolveProfilesFromHistory localeCompare messages (Some members) with
              | None => Ret Thrown
              | Some resolved =>
                  let snapshot := snapshot_members a members resolved in
                  match snapshot with
                  | [] => Ret (Fine tt)
                  | _ =>
                      match encode snapshot with
                      | None => Ret Thrown
                      | Some content =>
                          let count := JNum (Z.of_nat (length snapshot)) in
                          attempt (XSend client groupId content) (λ sent,
                          match sent with
                          | Err e => failed (failed_with "sendMessage" e [("profileCount", count)])
                          | Ok messageId => appendSnapshotAudit a "convos.profile-snapshot.sent" true
                                              [("messageId", JStr messageId); ("profileCount", count)]
                          end)
                      end
                  end
              end
          end)
      end)
  end).
Definition rejected_entry (f : ManagedInviteJoinFailure) (w : W) : AuditEntry :=
  let m := fl_requestMessage f in
  mkAudit (now w) (joinFailureAction (category (fl_error f))) "system" (rm_groupId m) false
    [("dmId", JStr (rm_groupId m)); ("requestMessageId", JStr (rm_messageId m)); ("joinerInboxId", JStr (rm_senderInboxId m));
     ("contentType", JStr (rm_contentType m)); ("errorCategory", JStr (category_name (category (fl_error f))));
     ("errorMessage", JStr (message (fl_error f)))].
Definition onJoinRejected (f : ManagedInviteJoinFailure) : XProg (xres unit) := appendAudit (rejected_entry f).
End effects.

(** ** What an accepted request leaves behind *)
Definition sent_of {W} (ev : event W xeff) : option (nat * string * bytes * option (res string)) :=
  match ev_eff ev in xeff T return T → _ with XSend client g c => λ x, Some (client, g, c, x) | _ => λ _, None end (ev_answer ev).
Definition members_of {W} (ev : event W xeff) : option (list string) :=
  match ev_eff ev in xeff T return T → _ with
  | XGroupInfo _ _ => λ x, match x with Some (Ok members) => Some members | _ => None end | _ => λ _, None end (ev_answer ev).
Definition audit_of {W} (ev : event W xeff) : option AuditEntry :=
  match ev_eff ev with XAppend e => Some e | _ => None end.
Definition sends {W} (t : list (event W xeff)) := base.omap sent_of t.
Definition audits {W} (t : list (event W xeff)) := base.omap audit_of t.
(** The number of members the group was answered to have. *)
Definition member_count {W} (t : list (event W xeff)) : json := JNum (Z.of_nat (length (default [] (head (base.omap members_of t))))).
(** A listing of messages. *)
Definition plain {W} (ev : event W xeff) : Prop := sent_of ev = None ∧ audit_of ev = None.
Lemma plain_omap {W B} (f : event W xeff → option B) t : Forall (λ ev, f ev = None) t → base.omap f t = [].
Proof. induction 1 as [|ev t Hev Ht IH]; [done|]. cbn. by rewrite Hev. Qed.
Lemma plain_trace {W} (t : list (event W xeff)) : Forall plain t → sends t = [] ∧ audits t = [].
Proof. intros Ht. split; apply plain_omap; (eapply Forall_impl; [exact Ht|]); by intros ev []. Qed.

Section proofs.
Context {W : Type} (env : W → W → Prop) `{InviteLib, JsDate, ProfileLib} (JSON_parse : string → option json)
  (localeCompare : string → string → Z) (clientFor : string → W → option nat) (localChat : string → W → option string)
  (now : W → string) (encode : list ResolvedOnboardingProfile → option bytes).
(** The history as it is read: pages before the last message of the page
    before, from the newest on, until every member is known, a page is not
    full, or its last message has no time. *)
Definition all_known (members : list string) (messages : list HistoryMessage) : Prop :=
  ∃ resolved, resolveProfilesFromHistory localeCompare messages (Some members) = Some resolved ∧
    Forall (λ i, hasMaterializedProfile (om_get (toLowerCase i) resolved) = true) members.
Inductive read_back (members : list string) (client : nat) (g : string)
  : list HistoryMessage → option string → list (event W xeff) → list HistoryMessage → Prop :=
  | rb_stop collected before w page :
      (length page < SCAN_LIMIT)%nat ∨ all_known members (collected ++ page) ∨ nonempty_str (hm_sentAt <$> last page) = None →
      read_back members client g collected before [Event _ (XListMessages client g before) w (Some (Ok page))] (collected ++ page)
  | rb_more collected before w page cursor t messages :
      nonempty_str (hm_sentAt <$> last page) = Some cursor →
      read_back members client g (collected ++ page) (Some cursor) t messages →
      read_back members client g collected before (Event _ (XListMessages client g before) w (Some (Ok page)) :: t) messages.
Lemma load_reads fuel client g members collected before w pre :
  wp env (loadProfileSnapshotMessages localeCompare fuel client g members collected before) w pre
    (λ t _ r, ∃ tl, t = pre ++ tl ∧ Forall plain tl ∧
       ∀ messages, r = Fine (Ok messages) → read_back members client g collected before tl messages).
Proof.
  revert collected before w pre. induction fuel as [|fuel IH]; intros collected before w pre; cbn -[resolveProfilesFromHistory SCAN_LIMIT Nat.ltb].
  { exists []. by rewrite app_nil_r. }
  intros w1 [[[|m page]|e]|] Hw; cbn -[resolveProfilesFromHistory SCAN_LIMIT Nat.ltb].
  - eexists. split_and!; [done|by repeat constructor|]. intros messages [= <-]. rewrite <-(app_nil_r collected) at 2.
    apply rb_stop. left. unfold SCAN_LIMIT. cbn. lia.
  - assert (∀ r : xres (res (list HistoryMessage)), (∀ messages, r = Fine (Ok messages) → messages = collected ++ m :: page ∧
      ((length (m :: page) < SCAN_LIMIT)%nat ∨ all_known members (collected ++ m :: page) ∨ nonempty_str (hm_sentAt <$> last (m :: page)) = None)) →
      ∃ tl, pre ++ [Event _ (XListMessages client g before) w (Some (Ok (m :: page)))] = pre ++ tl ∧ Forall plain tl ∧
        ∀ messages, r = Fine (Ok messages) → read_back members client g collected before tl messages) as Hstop.
    { intros r Hr. eexists. split_and!; [done|by repeat constructor|]. intros messages [-> ?]%Hr. by apply rb_stop. }
    destruct (resolveProfilesFromHistory _ _ _) as [resolved|] eqn:Hres; [|by apply Hstop].
    destruct (forallb _ _) eqn:Hall.
    { apply Hstop. intros messages [= <-]. split; [done|right; left]. exists resolved. split; [done|].
      apply Forall_forall. intros i Hi. rewrite forallb_forall in Hall. by apply Hall, list_elem_of_In. }
    destruct (Nat.ltb_spec (S (length page)) SCAN_LIMIT) as [Hl|Hl].
    { apply Hstop. intros messages [= <-]. by auto. }
    destruct (nonempty_str _) as [b|] eqn:Hb; [|apply Hstop; intros messages [= <-]; by auto].
    eapply wp_mono; [|apply IH]. intros t w2 r (tl & -> & Hp & Hr). eexists. rewrite <-app_assoc. split_and!; [done|by constructor|].
    intros messages Hm. eapply rb_more; [exact Hb|by apply Hr].
  - eexists. by split_and!; [done|by repeat constructor|].
  - eexists. by split_and!; [done|by repeat constructor|].
Qed.
(** The loop stops: it goes on only after a full page, so what it asks for is
    bounded by the length of the history. *)
Definition full_page (ev : event W xeff) : Prop :=
  match ev_eff ev in xeff T return T → Prop with
  | XListMessages _ _ _ => λ x, ∃ page, x = Some (Ok page) ∧ (SCAN_LIMIT ≤ length page)%nat
  | _ => λ _, False
  end (ev_answer ev).
Theorem load_bounded fuel client g members collected before w pre :
  wp env (loadProfileSnapshotMessages localeCompare fuel client g members collected before) w pre
    (λ t _ r, r = Unfinished → ∃ t', t = pre ++ t' ∧ length t' = fuel ∧ Forall full_page t').
Proof.
  revert collected before w pre. induction fuel as [|fuel IH]; intros collected before w pre; cbn -[resolveProfilesFromHistory SCAN_LIMIT Nat.ltb].
  { intros _. exists []. by rewrite app_nil_r. }
  intros w1 [[[|m page]|e]|] Hw; cbn -[resolveProfilesFromHistory SCAN_LIMIT Nat.ltb]; [done| |done..].
  destruct (resolveProfilesFromHistory _ _ _) as [resolved|]; [|done]. destruct (forallb _ _); [done|].
  destruct (Nat.ltb_spec (S (length page)) SCAN_LIMIT) as [|Hlen]; [done|]. destruct (nonempty_str _) as [b|]; [|done].
  eapply wp_mono; [|apply IH]. intros t w2 r Ht Hr. destruct (Ht Hr) as (t' & -> & <- & Hfull).
  eexists (_ :: t'). rewrite <-app_assoc. split_and!; [done|done|]. constructor; [|done]. by eexists.
Qed.

Lemma length_apply a l : length (applyAcceptedJoinProfile JSON_parse a l) = length l.
Proof. unfold applyAcceptedJoinProfile. destruct (negb _); [done|]. apply length_map. Qed.
Lemma snapshot_empty a members resolved : snapshot_members JSON_parse a members resolved = [] → members = [].
Proof.
  intros E. apply (f_equal length) in E. unfold snapshot_members in E. rewrite length_apply, length_map in E. by destruct members.
Qed.
Abbreviation accepted a w := (accepted_entry localChat now a w).
Abbreviation snapshot_audit a := (snapshot_entry_of localChat now a).
(** What the audit log says when the handler is done. *)
Definition reported (a : ManagedInviteJoinAcceptance) (w : W) (t : list (event W xeff)) : Prop :=
  match sends t with
  | [(_, Some (Ok messageId))] => ∃ w1, audits t =
      [accepted a w; snapshot_audit a "convos.profile-snapshot.sent" true [("messageId", JStr messageId); ("profileCount", member_count t)] w1]
  | [(_, Some (Err e))] => ∃ w1, audits t =
      [accepted a w; snapshot_audit a "convos.profile-snapshot.failed" false (failed_with "sendMessage" e [("profileCount", member_count t)]) w1]
  | [] => (∃ d w1, audits t = [accepted a w; snapshot_audit a "convos.profile-snapshot.failed" false d w1]) ∨
          (audits t = [accepted a w] ∧ ∃ c wc, clientFor (jr_groupId (join_of a)) wc = Some c ∧
             Event _ (XGroupInfo c (jr_groupId (join_of a))) wc (Some (Ok [])) ∈ t)
  | _ => False
  end.
(** A snapshot is sent to the group that was joined by the client that is
    registered for it; it holds every member that this client was answered to
    be in the group, once and in the order of the answer, with the profile
    that the messages read from the group resolve to, but for what the new
    member asked to be called. *)
Definition is_snapshot (a : ManagedInviteJoinAcceptance) (t : list (event W xeff)) (s : nat * string * bytes * option (res string)) : Prop :=
  let '(client, g, content, _) := s in
  g = jr_groupId (join_of a) ∧ ∃ w1 members tl rest messages resolved,
    clientFor g w1 = Some client ∧ tail t = Event _ (XGroupInfo client g) w1 (Some (Ok members)) :: tl ++ rest ∧
    read_back members client g [] None tl messages ∧
    resolveProfilesFromHistory localeCompare messages (Some members) = Some resolved ∧
    encode (snapshot_members JSON_parse a members resolved) = Some content.
Definition effects_post (a : ManagedInviteJoinAcceptance) (w : W) (t : list (event W xeff)) (r : xres unit) : Prop :=
  head (audits t) = Some (accepted a w) ∧ (length (sends t) ≤ 1)%nat ∧ Forall (is_snapshot a t) (sends t) ∧
  (r = Fine tt → reported a w t).
Lemma append_wp (entry : W → AuditEntry) w pre Q :
  (∀ w1 x, Q (pre ++ [Event _ (XAppend (entry w)) w x]) w1 (match x with Some _ => Fine tt | None => Thrown end)) →
  wp env (appendAudit entry) w pre Q.
Proof. intros HQ. cbn. intros w1 [[]|] Hw; apply HQ. Qed.
Lemma wp_thrown_or {A B} (p : prog W xeff (xres A)) (k : A → prog W xeff (xres B)) w pre Q :
  wp env p w pre (λ t w' r, match r with Fine a => wp env (k a) w' t Q | Thrown => Q t w' Thrown | Unfinished => Q t w' Unfinished end) →
  wp env (thrown_or p k) w pre Q.
Proof. intros Hp. apply wp_bind. eapply wp_mono; [|exact Hp]. by intros t w' []. Qed.
(** The last audit entry of a handler that has not sent anything. *)
Lemma failed_wp a w w0 t d : sends t = [] → audits t = [accepted a w] →
  wp env (appendSnapshotAudit localChat now a "convos.profile-snapshot.failed" false d) w0 t (λ t _ r, effects_post a w t r).
Proof.
  intros Hs Ha. apply append_wp. intros w1 x. unfold effects_post, reported, sends, audits in *. rewrite !omap_app, Hs, Ha. cbn.
  split_and!; [done|lia|constructor|]. intros _. left. by eexists _, w0.
Qed.
End proofs.

(** ** Pictures

    A profile that is resolved from an update with an encrypted image has its
    [imageUrl]; the scheme's encoder throws on a profile that has one. *)
Lemma scheme_refuses_picture `{ProfileLib} members m : m ∈ members → is_Some (pd_imageUrl m.2) →
  scheme_encodeProfileSnapshot members = None.
Proof.
  intros Hm [u Hu]. unfold scheme_encodeProfileSnapshot. destruct (mapM _ members) as [l|] eqn:E; [|done].
  apply mapM_Some in E. pose proof (Forall2_length _ _ _ E). apply list_elem_of_lookup in Hm as [k Hk].
  destruct (Forall2_lookup_l _ _ _ _ _ E Hk) as (y & _ & Hy). unfold toMemberProfileEntry, toProfileUpdateContent in Hy.
  by rewrite Hu in Hy.
Qed.
(** So one member's picture keeps every snapshot of the group from being
    sent: the handler throws, and its caller drops what it throws. *)
Section pictures.
Context `{InviteLib, JsDate, ProfileLib} (JSON_parse : string → option json) (encode : list ResolvedOnboardingProfile → option bytes)
  (Hencode : ∀ l p, p ∈ l → is_Some (ro_imageUrl p) → encode l = None).
Lemma picture_never_sent a members resolved i p : i ∈ members → om_get (toLowerCase i) resolved = Some p → is_Some (ro_imageUrl p) →
  encode (snapshot_members JSON_parse a members resolved) = None.
Proof using Hencode.
  intros Hi Hp Himg. unfold snapshot_members. set (l := map _ members).
  assert (p ∈ l) as Hin by (apply list_elem_of_In, in_map_iff; exists i; split; [by rewrite Hp|by apply list_elem_of_In]).
  unfold applyAcceptedJoinProfile. destruct (negb _); [by eapply Hencode|].
  eapply Hencode; [apply list_elem_of_In, in_map; by apply list_elem_of_In|]. by destruct (negb _).
Qed.
Definition demo_acceptance : ManagedInviteJoinAcceptance :=
  mkAcceptance (mkResolution (mkJoined "g" "0b" "tag") "host" "0a") (InviteHost.mkRaw "m" "dm" "0b" "join_request" (ct_json JNull) "2024" None false).
Definition demo_picture : HistoryMessage :=
  mkHistory "0a" "profile_update" (pc_update (mkUpdate (Some "Ann") (Some (mkImage "https://i" [] [])) None None)) "2024".
Lemma picture_blocks_snapshot (localeCompare : string → string → Z) : ∃ t,
  run (λ _ _ : unit, True)
    tt (onJoinAccepted JSON_parse localeCompare (λ _ _, Some 0%nat) (λ _ _, None) (λ _, "2024") encode 2 demo_acceptance) t tt Thrown ∧
  length (audits t) = 1%nat ∧ sends t = [].
Proof using Hencode.
  eexists. split.
  - cbn [onJoinAccepted thrown_or bind appendAudit attempt run look fst snd]. exists tt, (Some tt). eexists. split; [done|].
    split; [reflexivity|]. cbn [run bind look fst snd attempt].
    exists tt, (Some (Ok ["0a"; "0b"])). eexists. split; [done|]. split; [reflexivity|]. cbn [thrown_or bind run attempt loadProfileSnapshotMessages].
    exists tt, (Some (Ok [demo_picture])). eexists. split; [done|]. split; [reflexivity|].
    cbn -[snapshot_members SCAN_LIMIT]. unfold SCAN_LIMIT. cbn -[snapshot_members].
    pose (ann := mkOnboarding "0a" (Some (JStr "Ann")) (Some (JStr "https://i")) None None).
    assert (resolveProfilesFromHistory localeCompare [demo_picture] (Some ["0a"; "0b"]) = Some [("0a", ann)]) as E by reflexivity.
    rewrite E. match goal with |- context [if ?b then Ret (Fine _) else _] => destruct b end.
    all: cbn -[snapshot_members resolveProfilesFromHistory]; rewrite E;
      pose proof (picture_never_sent demo_acceptance ["0a"; "0b"] [("0a", ann)] "0a" ann) as Hnone;
      destruct (snapshot_members _ _ _ _) as [|p l] eqn:Hs; [by apply snapshot_empty in Hs|];
      rewrite Hnone; [by cbn|by left|reflexivity|by eexists].
  - split; reflexivity.
Qed.
End pictures.
