(* ===== verification/InviteListener.v ===== *)
(** * The invite host listener

    [cli/src/invite-host-listener.ts]: every raw message that may carry an
    invite is tried with the identities the daemon manages, at most one
    processing per message and per invite at a time; a direct conversation
    that appears is scanned for requests that came before it, with retries.

    The listener's sets and timers are the world; handlers are programs that
    interleave at their awaits.  The functions the listener is given answer
    anything; rejected promises, which the code catches around every handler,
    are not modelled.  [fuel] bounds the pages read of one conversation. *)
From S2P Require Import Prelude Bytes Text Json Errors Programs Invites InviteHost.

(** [processedInviteKeyTimers] has the keys whose timer is pending,
    [recoveryRetryTimers] for each conversation the count of the pending
    retry. *)
Record HostWorld := mkHost {
  hw_now : Z; hw_clients : omap string nat;
  processedMessageIds : list string; processedInviteKeys : list string;
  inflightMessageIds : list string; inflightInviteKeys : list string;
  recoveryRetryTimers : omap string nat; processedInviteKeyTimers : list string
}.
Definition set_delete (x : string) (s : list string) : list string :=
  List.filter (λ y, negb (bool_decide (y = x))) s.
Abbreviation HProg := (prog HostWorld heff).
Definition with_inflight (f : list string → list string) (g : list string → list string) (w : HostWorld) : HostWorld :=
  mkHost (hw_now w) (hw_clients w) (processedMessageIds w) (processedInviteKeys w)
    (f (inflightMessageIds w)) (g (inflightInviteKeys w)) (recoveryRetryTimers w) (processedInviteKeyTimers w).
Definition with_processed (f g : list string → list string) (timers : list string → list string)
  (w : HostWorld) : HostWorld :=
  mkHost (hw_now w) (hw_clients w) (f (processedMessageIds w)) (g (processedInviteKeys w))
    (inflightMessageIds w) (inflightInviteKeys w) (recoveryRetryTimers w) (timers (processedInviteKeyTimers w)).
Definition with_retries (f : omap string nat → omap string nat) (w : HostWorld) : HostWorld :=
  mkHost (hw_now w) (hw_clients w) (processedMessageIds w) (processedInviteKeys w)
    (inflightMessageIds w) (inflightInviteKeys w) (f (recoveryRetryTimers w)) (processedInviteKeyTimers w).

(** The raw events of the core ([core/src/raw-events.ts]). *)
Inductive CoreRawEvent :=
  | raw_message (e : RawMessageEvent)
  | raw_group_joined (groupId groupName : string)
  | raw_dm_joined (dmId peerInboxId : string)
  | raw_group_updated (groupId : string) (update : json)
  | raw_core_started (identityCount : nat) (syncedThrough : string)
  | raw_core_stopped (reason : string)
  | raw_heartbeat (timestamp : string)
  | raw_liveness (timestamp : string) (heartbeatIntervalSeconds : Z).

Definition RECENT_JOIN_SCAN_LIMIT : nat := 10.
Definition MAX_DM_RECOVERY_RETRIES : nat := 3.
Record InviteCandidateProcessResult := mkProcessed { pr_accepted : bool; pr_shouldRetry : bool }.
#[global] Instance InviteCandidateProcessResult_inhabited : Inhabited InviteCandidateProcessResult :=
  populate (mkProcessed false false).

Section listener.
Context `{InviteLib} (JSON_parse : string → option json).
Definition resolveInviteRequestKey (event : RawMessageEvent) : option string :=
  let inviteSlug := match extractJoinRequestContent JSON_parse (rm_content event) with
                    | Some joinRequest => Some (inviteSlug_of joinRequest)
                    | None => trim <$> as_string (ct_object (rm_content event))
                    end in
  (λ slug, toLowerCase (rm_senderInboxId event) +:+ ":" +:+ slug) <$> nonempty_str inviteSlug.
Definition structured (event : RawMessageEvent) : bool := isJoinRequestContentType (Some (rm_contentType event)).
Definition preferInviteCandidate (current : option RawMessageEvent) (candidate : RawMessageEvent)
  : RawMessageEvent :=
  match current with
  | None => candidate
  | Some current => if structured candidate && negb (structured current) then candidate else current
  end.
Definition isInviteCandidate (event : RawMessageEvent) : bool :=
  negb (rm_isHistorical event) &&
  (structured event ||
   match as_string (ct_object (rm_content event)) with
   | Some s => looksLikeSlug (trim s)
   | None => false
   end).
Definition normalizePrivateKeyHex (value : string) : string :=
  if startsWith "0x" value then str_drop 2 value else value.
Definition isRetryableInviteError (error : SignetError) : bool :=
  negb (bool_decide (category error ∈ [validation; permission; auth])).
Definition toRawMessageEvent (m : RawMessageEvent) : RawMessageEvent :=
  mkRaw (rm_messageId m) (rm_groupId m) (rm_senderInboxId m) (rm_contentType m) (rm_content m)
    (rm_sentAt m) (rm_threadId m) false.

(** ** Trying the managed identities *)
Definition getClient (identityId : string) (w : HostWorld) : HostWorld * option nat :=
  (w, om_get identityId (hw_clients w)).
Fixpoint try_identities (event : RawMessageEvent) (identities : list (string * option string))
  (lastError : option SignetError) (shouldRetry : bool)
  : HProg (option (res ManagedInviteJoinResolution) * bool) :=
  match identities with
  | [] => Ret (match lastError with Some e => Some (Err e) | None => None end, shouldRetry)
  | (id, inboxId) :: rest =>
      match nonempty_str inboxId with
      | None => try_identities event rest lastError true
      | Some inboxId =>
          (sync managed <- getClient id ;;
           match managed with
           | None => try_identities event rest lastError true
           | Some client =>
               await keyResult <- HWalletKey id ;;
               match keyResult with
               | Err _ => try_identities event rest lastError true
               | Ok key =>
                   do result <- processJoinRequest JSON_parse hw_now
                     (mkJoinDeps (normalizePrivateKeyHex key) inboxId client)
                     (mkIncoming (rm_senderInboxId event) (rm_content event)) ;;
                   match result with
                   | Ok join => Ret (Some (Ok (mkResolution join id inboxId)), false)
                   | Err error =>
                       try_identities event rest (Some error) (shouldRetry || isRetryableInviteError error)
                   end
               end
           end)%prog
      end
  end.
Definition dispatchInviteJoinRequestAcrossManagedIdentities (event : RawMessageEvent)
  : HProg (option (res ManagedInviteJoinResolution) * bool) :=
  if negb (isInviteCandidate event) then Ret (None, false)
  else (await identities <- HListIdentities ;; try_identities event identities None false)%prog.

(** ** One candidate, guarded by the sets *)
Definition already_handled (event : RawMessageEvent) (w : HostWorld) : bool :=
  let key_in (s : list string) := match resolveInviteRequestKey event with
                                  | Some k => set_has s k | None => false end in
  set_has (processedMessageIds w) (rm_messageId event) || key_in (processedInviteKeys w) ||
  set_has (inflightMessageIds w) (rm_messageId event) || key_in (inflightInviteKeys w).
Definition key_op (op : string → list string → list string) (event : RawMessageEvent) (s : list string)
  : list string :=
  match resolveInviteRequestKey event with Some k => op k s | None => s end.
(** The guards, and entering the in-flight sets: [true] when it goes ahead. *)
Definition enter_candidate (event : RawMessageEvent) (w : HostWorld) : HostWorld * bool :=
  if already_handled event w then (w, false)
  else (with_inflight (λ s, set_add s (rm_messageId event)) (key_op (λ k s, set_add s k) event) w, true).
(** The [finally] block. *)
Definition leave_candidate (event : RawMessageEvent) (w : HostWorld) : HostWorld * unit :=
  (with_inflight (set_delete (rm_messageId event)) (key_op set_delete event) w, tt).
(** [processedMessageIds.add] and [markInviteKeyProcessed]. *)
Definition mark_accepted (event : RawMessageEvent) (w : HostWorld) : HostWorld * unit :=
  (with_processed (λ s, set_add s (rm_messageId event)) (key_op (λ k s, set_add s k) event)
     (key_op (λ k s, set_add (set_delete k s) k) event) w, tt).
(** After the dispatch. *)
Definition conclude_candidate (event : RawMessageEvent)
  (outcome : option (res ManagedInviteJoinResolution) * bool) : HProg InviteCandidateProcessResult :=
  (match outcome with
   | (None, shouldRetry) => sync _ <- leave_candidate event ;; Ret (mkProcessed false shouldRetry)
   | (Some (Ok resolution), _) =>
       sync _ <- mark_accepted event ;;
       await _ <- HOnJoinAccepted resolution event ;;
       sync _ <- leave_candidate event ;; Ret (mkProcessed true false)
   | (Some (Err error), shouldRetry) =>
       if shouldRetry then sync _ <- leave_candidate event ;; Ret (mkProcessed false shouldRetry)
       else await _ <- HOnJoinRejected error event ;;
            sync _ <- leave_candidate event ;; Ret (mkProcessed false shouldRetry)
   end)%prog.
Definition processInviteCandidate (event : RawMessageEvent) : HProg InviteCandidateProcessResult :=
  (sync go <- enter_candidate event ;;
   if go then do outcome <- dispatchInviteJoinRequestAcrossManagedIdentities event ;;
              conclude_candidate event outcome
   else Ret (mkProcessed true false))%prog.

(** ** Requests that came before the conversation was known *)
Definition scan_message (w : HostWorld) (messages : omap string RawMessageEvent) (message : RawMessageEvent)
  : omap string RawMessageEvent :=
  let event := toRawMessageEvent message in
  let requestKey := resolveInviteRequestKey event in
  if negb (isInviteCandidate event) then messages
  else if set_has (processedMessageIds w) (rm_messageId event) then messages
  else if match requestKey with Some k => set_has (processedInviteKeys w) k | None => false end then messages
  else let key := default (rm_messageId event) requestKey in
       om_set key (preferInviteCandidate (om_get key messages) event) messages.
(** The pages of one conversation, newest first. *)
Fixpoint scan_pages (fuel : nat) (client : nat) (conversationId : string) (before : option string)
  (messages : omap string RawMessageEvent) (shouldRetry : bool)
  : HProg (omap string RawMessageEvent * bool) :=
  match fuel with
  | O => Ret (messages, shouldRetry)
  | S fuel =>
      (await listResult <- HListMessages client conversationId before ;;
       match listResult with
       | Err e => Ret (messages, shouldRetry || negb (bool_decide (category e = not_found)))
       | Ok [] => Ret (messages, shouldRetry)
       | Ok page =>
           sync messages <- (λ w, (w, foldl (scan_message w) messages (rev page))) ;;
           let before := nonempty_str (rm_sentAt <$> last page) in
           if (length page <? RECENT_JOIN_SCAN_LIMIT)%nat then Ret (messages, shouldRetry)
           else match before with
                | None => Ret (messages, shouldRetry)
                | Some _ => scan_pages fuel client conversationId before messages shouldRetry
                end
       end)%prog
  end.
Fixpoint scan_identities (fuel : nat) (conversationId : string) (identities : list (string * option string))
  (messages : omap string RawMessageEvent) (shouldRetry : bool)
  : HProg (omap string RawMessageEvent * bool) :=
  match identities with
  | [] => Ret (messages, shouldRetry)
  | (id, _) :: rest =>
      (sync managed <- getClient id ;;
       match managed with
       | None => scan_identities fuel conversationId rest messages shouldRetry
       | Some client =>
           do scanned <- scan_pages fuel client conversationId None messages shouldRetry ;;
           scan_identities fuel conversationId rest scanned.1 scanned.2
       end)%prog
  end.
Definition listRecentInviteCandidatesAcrossManagedIdentities (fuel : nat) (conversationId : string)
  : HProg (list RawMessageEvent * bool) :=
  (await identities <- HListIdentities ;;
   do scanned <- scan_identities fuel conversationId identities [] false ;;
   Ret (scanned.1.*2, scanned.2))%prog.
Fixpoint process_all (messages : list RawMessageEvent) (shouldRetry : bool) : HProg bool :=
  match messages with
  | [] => Ret shouldRetry
  | message :: rest =>
      (do outcome <- processInviteCandidate message ;;
       process_all rest (shouldRetry || (negb (pr_accepted outcome) && pr_shouldRetry outcome)))%prog
  end.
Definition schedule_retry (dmId : string) (retryCount : nat) (shouldRetry : bool) (w : HostWorld)
  : HostWorld * unit :=
  if negb shouldRetry || (MAX_DM_RECOVERY_RETRIES <=? retryCount)%nat || om_has dmId (recoveryRetryTimers w)
  then (w, tt) else (with_retries (om_set dmId (S retryCount)) w, tt).
Definition recoverInviteCandidatesFromDm (fuel : nat) (dmId : string) (retryCount : nat) : HProg unit :=
  (do scan <- listRecentInviteCandidatesAcrossManagedIdentities fuel dmId ;;
   do shouldRetry <- process_all scan.1 scan.2 ;;
   sync _ <- schedule_retry dmId retryCount shouldRetry ;; Ret tt)%prog.

(** ** The listener

    Its jobs: an event of the subscription, the callback of a retry timer and
    that of a key's timer (which runs only while the timer is pending), and
    the returned stop function. *)
Inductive HostJob :=
  | on_event (event : CoreRawEvent)
  | on_retry_timer (dmId : string)
  | on_key_timer (requestKey : string)
  | on_stop.
Definition fire_retry (dmId : string) (w : HostWorld) : HostWorld * option nat :=
  (with_retries (om_delete dmId) w, om_get dmId (recoveryRetryTimers w)).
Definition expire_key (requestKey : string) (w : HostWorld) : HostWorld * unit :=
  if set_has (processedInviteKeyTimers w) requestKey
  then (with_processed id (set_delete requestKey) (set_delete requestKey) w, tt) else (w, tt).
Definition stop_listener (w : HostWorld) : HostWorld * unit :=
  (with_processed id id (λ _, []) (with_retries (λ _, []) w), tt).
Definition host_job (fuel : nat) (j : HostJob) : HProg unit :=
  (match j with
   | on_event (raw_message event) =>
       if negb (isInviteCandidate event) then Ret tt
       else do _ <- processInviteCandidate event ;; Ret tt
   | on_event (raw_dm_joined dmId _) => recoverInviteCandidatesFromDm fuel dmId 0
   | on_event _ => Ret tt
   | on_retry_timer dmId =>
       sync pending <- fire_retry dmId ;;
       match pending with None => Ret tt | Some retryCount => recoverInviteCandidatesFromDm fuel dmId retryCount end
   | on_key_timer requestKey => sync _ <- expire_key requestKey ;; Ret tt
   | on_stop => sync _ <- stop_listener ;; Ret tt
   end)%prog.
End listener.

(** ** At most one processing per message and per invite

    Which effects announce an acceptance, and of which message. *)
Definition accept_of {X} (e : heff X) : option string :=
  match e with HOnJoinAccepted _ event => Some (rm_messageId event) | _ => None end.
Definition accepted_ids (L : Log HostWorld heff HostJob) : list string :=
  base.omap (λ x, match x.2 with inr ev => accept_of (ev_eff ev) | inl _ => None end) L.
(** A candidate being processed, and how far it is. *)
Inductive Phase := dispatching | accepting | rejecting.
Abbreviation held := (list (RawMessageEvent * Phase)).

Section locks.
Context `{InviteLib} (JSON_parse : string → option json).
Abbreviation key_of := (resolveInviteRequestKey JSON_parse).
Abbreviation ids h := (map (λ x : RawMessageEvent * Phase, rm_messageId x.1) h).
Abbreviation keys h := (base.omap (λ x : RawMessageEvent * Phase, key_of x.1) h).
(** The sets against the candidates in process [h] and the acceptances
    announced so far. *)
Record lock_inv (h : held) (accepted : list string) (w : HostWorld) : Prop := {
  li_ids : NoDup (ids h);
  li_inflight m : m ∈ inflightMessageIds w ↔ m ∈ ids h;
  li_keys : NoDup (keys h);
  li_inflight_keys k : k ∈ inflightInviteKeys w ↔ k ∈ keys h;
  li_phase ev ph : (ev, ph) ∈ h →
    match ph with
    | dispatching => rm_messageId ev ∉ processedMessageIds w
    | accepting => rm_messageId ev ∈ processedMessageIds w ∧ rm_messageId ev ∉ accepted
    | rejecting => True
    end;
  li_accepted : NoDup accepted;
  li_processed m : m ∈ accepted → m ∈ processedMessageIds w
}.
#[global] Instance lock_inv_proper : Proper ((≡ₚ) ==> (=) ==> (=) ==> iff) lock_inv.
Proof.
  enough (∀ h h' a w, h ≡ₚ h' → lock_inv h a w → lock_inv h' a w) as Hi.
  { intros h h' Hh ? a -> ? w ->. by split; apply Hi. }
  intros h h' a w Hh [H1 H2 H3 H4 H5 H6 H7].
  assert (keys h ≡ₚ keys h') as Hk by (apply omap_Permutation; exact Hh). split.
  - by rewrite <-Hh.
  - intros m. by rewrite H2, Hh.
  - by rewrite <-Hk.
  - intros k. by rewrite H4, Hk.
  - intros ev ph Hin. apply (H5 ev ph). by rewrite Hh.
  - done.
  - done.
Qed.

Lemma elem_of_set_delete x y s : x ∈ set_delete y s ↔ x ∈ s ∧ x ≠ y.
Proof.
  unfold set_delete. rewrite !list_elem_of_In, filter_In.
  rewrite negb_true_iff, bool_decide_eq_false. done.
Qed.
Lemma elem_of_key_add ev k s :
  k ∈ key_op JSON_parse (λ k s, set_add s k) ev s ↔ k ∈ s ∨ key_of ev = Some k.
Proof.
  unfold key_op. destruct (key_of ev) as [k'|]; [|naive_solver]. rewrite elem_of_set_add. naive_solver.
Qed.
Lemma elem_of_key_delete ev k s :
  k ∈ key_op JSON_parse set_delete ev s ↔ k ∈ s ∧ key_of ev ≠ Some k.
Proof.
  unfold key_op. destruct (key_of ev) as [k'|]; [|naive_solver]. rewrite elem_of_set_delete. naive_solver.
Qed.
Lemma elem_of_keys_cons ev ph h k : k ∈ keys ((ev, ph) :: h) ↔ key_of ev = Some k ∨ k ∈ keys h.
Proof.
  cbn. destruct (key_of ev) as [k'|]; [rewrite elem_of_cons|]; naive_solver.
Qed.
Lemma keys_nodup_cons ev ph h : NoDup (keys ((ev, ph) :: h)) ↔
  (∀ k, key_of ev = Some k → k ∉ keys h) ∧ NoDup (keys h).
Proof. cbn. destruct (key_of ev) as [k'|]; [rewrite NoDup_cons|]; naive_solver. Qed.

(** Entering, accepting, announcing and leaving. *)
Lemma enter_inv h a w ev : lock_inv h a w → already_handled JSON_parse ev w = false →
  lock_inv ((ev, dispatching) :: h) a (enter_candidate JSON_parse ev w).1.
Proof.
  intros [H1 H2 H3 H4 H5 H6 H7] Ha. unfold enter_candidate. rewrite Ha. cbn [fst].
  unfold already_handled, set_has in Ha. rewrite !orb_false_iff, !bool_decide_eq_false in Ha.
  destruct Ha as [[[Hp _] Hm] Hk].
  assert (∀ k, key_of ev = Some k → k ∉ keys h) as Hkeys.
  { intros k Hev Hin. rewrite Hev in Hk. apply bool_decide_eq_false in Hk. by apply Hk, H4. }
  split; cbn [inflightMessageIds inflightInviteKeys processedMessageIds with_inflight].
  - cbn. constructor; [by rewrite <-H2|done].
  - intros m. rewrite elem_of_set_add, H2. cbn. rewrite elem_of_cons. naive_solver.
  - by apply keys_nodup_cons.
  - intros k. rewrite elem_of_key_add, elem_of_keys_cons, H4. naive_solver.
  - intros ev' ph [[= -> ->]|Hin]%elem_of_cons; [done|by apply (H5 _ _ Hin)].
  - done.
  - done.
Qed.
Lemma accept_inv h a w ev : lock_inv ((ev, dispatching) :: h) a w →
  lock_inv ((ev, accepting) :: h) a (mark_accepted JSON_parse ev w).1.
Proof.
  intros [H1 H2 H3 H4 H5 H6 H7]. pose proof (H5 ev dispatching ltac:(by left)) as Hev. cbn in Hev.
  split; cbn [inflightMessageIds inflightInviteKeys processedMessageIds with_processed mark_accepted fst]; try done.
  - intros ev' ph [[= -> ->]|Hin]%elem_of_cons.
    + split; [rewrite elem_of_set_add; by right|]. intros Hin. by apply Hev, H7.
    + assert (rm_messageId ev' ≠ rm_messageId ev) as Hne.
      { intros Heq. cbn in H1. apply NoDup_cons in H1 as [H1 _]. apply H1. rewrite <-Heq.
        exact (list_elem_of_fmap_2 (λ x : RawMessageEvent * Phase, rm_messageId x.1) _ _ Hin). }
      pose proof (H5 ev' ph ltac:(by right)) as Hph. destruct ph; rewrite ?elem_of_set_add; naive_solver.
  - intros m Hm%H7. rewrite elem_of_set_add. by left.
Qed.
Lemma announce_inv h a w ev : lock_inv ((ev, accepting) :: h) a w →
  lock_inv ((ev, rejecting) :: h) (a ++ [rm_messageId ev]) w.
Proof.
  intros [H1 H2 H3 H4 H5 H6 H7]. destruct (H5 ev accepting ltac:(by left)) as [Hp Hn].
  split; try done.
  - intros ev' ph [[= -> ->]|Hin]%elem_of_cons; [done|].
    pose proof (H5 ev' ph ltac:(by right)) as Hph. destruct ph; [done| |done].
    destruct Hph as [? ?]. split; [done|]. rewrite elem_of_app, list_elem_of_singleton. intros [?|Heq]; [done|].
    cbn in H1. apply NoDup_cons in H1 as [H1 _]. apply H1. rewrite <-Heq.
    exact (list_elem_of_fmap_2 (λ x : RawMessageEvent * Phase, rm_messageId x.1) _ _ Hin).
  - apply NoDup_app. split_and!; [done| |apply NoDup_singleton].
    intros m Hm ->%list_elem_of_singleton. done.
  - intros m [Hm| ->%list_elem_of_singleton]%elem_of_app; [by apply H7|done].
Qed.
Lemma leave_inv h a w ev ph : lock_inv ((ev, ph) :: h) a w → lock_inv h a (leave_candidate JSON_parse ev w).1.
Proof.
  intros [H1 H2 H3 H4 H5 H6 H7]. apply keys_nodup_cons in H3 as [H3 H3']. cbn in H1. apply NoDup_cons in H1 as [H1 H1'].
  split; cbn [inflightMessageIds inflightInviteKeys processedMessageIds with_inflight leave_candidate fst]; try done.
  - intros m. rewrite elem_of_set_delete, H2. cbn. rewrite elem_of_cons. naive_solver.
  - intros k. rewrite elem_of_key_delete, H4, elem_of_keys_cons. naive_solver.
  - intros ev' ph' Hin. by apply (H5 ev' ph' ltac:(by right)).
Qed.
End locks.

(** *** The jobs

    [quiet]: a program that leaves the world alone and announces nothing.
    [wf]: one that touches the sets only through whole candidates. *)
Fixpoint quiet {R} (p : HProg R) : Prop :=
  match p with
  | Ret _ => True
  | Await e k => accept_of e = None ∧ ∀ x, quiet (k x)
  | Sync f k => (∀ w, (f w).1 = w) ∧ ∀ x, quiet (k x)
  end.
Definition sets_kept {X} (f : HostWorld → HostWorld * X) : Prop :=
  ∀ w, inflightMessageIds (f w).1 = inflightMessageIds w ∧
       inflightInviteKeys (f w).1 = inflightInviteKeys w ∧
       processedMessageIds (f w).1 = processedMessageIds w.
Lemma host_quiet_bind {A B} (p : HProg A) (f : A → HProg B) : quiet p → (∀ a, quiet (f a)) → quiet (bind p f).
Proof. induction p as [a|X e k IH|X f' k IH]; cbn; [auto| |]; intros [? ?] Hf; split; auto. Qed.

Section jobs.
Context `{InviteLib} (JSON_parse : string → option json).
Inductive wf {R} : HProg R → Prop :=
  | wf_ret r : wf (Ret r)
  | wf_await X (e : heff X) k : accept_of e = None → (∀ x, wf (k x)) → wf (Await e k)
  | wf_sync X (f : HostWorld → HostWorld * X) k : sets_kept f → (∀ x, wf (k x)) → wf (Sync f k)
  | wf_candidate ev k : (∀ o, wf (k o)) → wf (bind (processInviteCandidate JSON_parse ev) k).
Definition announced (ev : RawMessageEvent) (ph : Phase) : option string :=
  match ph with accepting => Some (rm_messageId ev) | _ => None end.
(** What a job that waits holds, and how it goes on when answered. *)
Definition job_state {R} (st : option (RawMessageEvent * Phase)) (p : HProg R) : Prop :=
  match p with
  | Ret _ => st = None
  | Sync _ _ => False
  | Await e k =>
      match st with
      | None => accept_of e = None ∧ ∀ x, wf (k x)
      | Some (ev, dispatching) => accept_of e = None ∧ ∀ x, ∃ d k0,
          k x = bind (bind d (conclude_candidate JSON_parse ev)) k0 ∧ quiet d ∧ ∀ o, wf (k0 o)
      | Some (ev, ph) => accept_of e = announced ev ph ∧
          ∀ x, ∃ o k0, k x = Sync (leave_candidate JSON_parse ev) (λ _, k0 o) ∧ ∀ o : InviteCandidateProcessResult, wf (k0 o)
      end
  end.
Definition own (st : option (RawMessageEvent * Phase)) : held := match st with Some x => [x] | None => [] end.
(** A stretch keeps the sets right, whatever the other jobs hold. *)
Definition stretch_ok {R} (o : held) (a : list string) (w : HostWorld) (p : HProg R) : Prop :=
  ∃ st, job_state st (settle w p).2 ∧ lock_inv JSON_parse (own st ++ o) a (settle w p).1.

Lemma lock_inv_kept h a w w' : lock_inv JSON_parse h a w →
  inflightMessageIds w' = inflightMessageIds w ∧ inflightInviteKeys w' = inflightInviteKeys w ∧
  processedMessageIds w' = processedMessageIds w → lock_inv JSON_parse h a w'.
Proof.
  intros [H1 H2 H3 H4 H5 H6 H7] (Ha & Hb & Hc).
  split; try done; [intros m; by rewrite Ha|intros k; by rewrite Hb| |].
  - intros ev ph Hin. specialize (H5 ev ph Hin). destruct ph; by rewrite ?Hc.
  - intros m Hm. rewrite Hc. auto.
Qed.
Lemma dispatch_stretch {R} ev (d : HProg (option (res ManagedInviteJoinResolution) * bool))
  (k0 : InviteCandidateProcessResult → HProg R) o a w :
  quiet d → (∀ r, wf (k0 r)) →
  (∀ r w, lock_inv JSON_parse o a w → stretch_ok o a w (k0 r)) →
  lock_inv JSON_parse ((ev, dispatching) :: o) a w →
  stretch_ok o a w (bind (bind d (conclude_candidate JSON_parse ev)) k0).
Proof.
  intros Hd Hk0 Hok. revert w. induction d as [r|X e k IH|X f k IH]; intros w Hinv; cbn [bind].
  - destruct r as [[[resolution|error]|] retry]; cbn [conclude_candidate].
    + exists (Some (ev, accepting)). cbn [bind settle fst snd job_state own]. split.
      * split; [done|]. intros []. eexists _, k0. by split.
      * by apply accept_inv.
    + destruct retry; cbn [bind].
      * apply (Hok _ (leave_candidate JSON_parse ev w).1). by eapply leave_inv.
      * exists (Some (ev, rejecting)). cbn [bind settle fst snd job_state own]. split.
        { split; [done|]. intros []. eexists _, k0. by split. }
        destruct Hinv as [H1 H2 H3 H4 H5 H6 H7]. split; try done.
        intros ev' ph [[= -> ->]|Hin]%elem_of_cons; [done|by apply (H5 ev' ph ltac:(by right))].
    + apply (Hok _ (leave_candidate JSON_parse ev w).1). by eapply leave_inv.
  - destruct Hd as [He Hk]. exists (Some (ev, dispatching)). cbn [settle fst snd job_state own].
    split; [|done]. split; [done|]. intros x. by exists (k x), k0.
  - destruct Hd as [Hf Hk]. unfold stretch_ok. cbn [settle]. rewrite Hf. by apply IH.
Qed.

Lemma processJoinRequest_quiet deps message : quiet (processJoinRequest JSON_parse hw_now deps message).
Proof.
  cbn. split; [done|]. intros [[invite g]|e]; cbn; [|done]. split; [done|]. intros [tag|e]; cbn; [|done].
  by destruct (match tag with Some _ => _ | None => _ end).
Qed.
Lemma dispatch_quiet ev : quiet (dispatchInviteJoinRequestAcrossManagedIdentities JSON_parse ev).
Proof.
  unfold dispatchInviteJoinRequestAcrossManagedIdentities. destruct (negb _); [done|]. split; [done|].
  intros identities. generalize (@None SignetError), false.
  induction identities as [|[id inbox] rest IH]; intros last retry; cbn [try_identities]; [done|].
  destruct (nonempty_str inbox) as [inbox'|]; [|apply IH]. split; [done|]. intros [client|]; [|apply IH].
  split; [done|]. intros [key|e]; [|apply IH]. apply host_quiet_bind; [apply processJoinRequest_quiet|].
  intros [join|e]; [done|apply IH].
Qed.
Lemma wf_stretch {R} (p : HProg R) : wf p → ∀ o a w, lock_inv JSON_parse o a w → stretch_ok o a w p.
Proof.
  induction 1 as [r|X e k He Hk _|X f k Hf _ IH|ev k Hk IH]; intros o a w Hinv.
  - by exists None.
  - by exists None.
  - unfold stretch_ok. cbn [settle]. apply IH. eapply lock_inv_kept; [done|apply Hf].
  - unfold processInviteCandidate, stretch_ok. cbn [bind settle].
    destruct (already_handled JSON_parse ev w) eqn:Ha; unfold enter_candidate at 2 4; rewrite Ha; cbn [fst snd].
    + unfold enter_candidate. rewrite Ha. cbn [bind]. by apply IH.
    + apply dispatch_stretch; [apply dispatch_quiet|done|intros; by apply IH|].
      by apply enter_inv.
Qed.
Lemma wf_bind {A B} (p : HProg A) (f : A → HProg B) : wf p → (∀ a, wf (f a)) → wf (bind p f).
Proof.
  intros Hp Hf. induction Hp as [r|X e k He Hk IH|X g k Hg Hk IH|ev k Hk IH]; cbn [bind].
  - apply Hf.
  - by constructor.
  - by constructor.
  - rewrite bind_assoc. by constructor.
Qed.
End jobs.

Section system.
Context `{InviteLib} (JSON_parse : string → option json) (fuel : nat).
Abbreviation wf := (wf JSON_parse).
Lemma quiet_wf {R} (p : HProg R) : quiet p → wf p.
Proof.
  induction p as [r|X e k IH|X f k IH]; cbn; intros Hp; [constructor| |]; destruct Hp as [H1 H2].
  - constructor; auto.
  - constructor; [|auto]. intros w. by rewrite H1.
Qed.
Lemma scan_pages_quiet n client conversationId before messages retry :
  quiet (scan_pages JSON_parse n client conversationId before messages retry).
Proof.
  revert before messages retry. induction n as [|n IH]; intros before messages retry; [done|].
  cbn [scan_pages quiet]. split; [done|]. intros [[|m page]|e]; [done| |done]. cbn [quiet fst]. split; [done|].
  intros messages'. destruct (_ <? _)%nat; [done|]. destruct (nonempty_str _); [apply IH|done].
Qed.
Lemma scan_quiet conversationId : quiet (listRecentInviteCandidatesAcrossManagedIdentities JSON_parse fuel conversationId).
Proof.
  cbn. split; [done|]. intros identities. apply host_quiet_bind; [|done]. generalize (@nil (string * RawMessageEvent)), false.
  induction identities as [|[id inbox] rest IH]; intros messages retry; cbn; [done|]. split; [done|].
  intros [client|]; [|apply IH]. apply host_quiet_bind; [apply scan_pages_quiet|]. intros. apply IH.
Qed.
Lemma process_all_wf messages retry : wf (process_all JSON_parse messages retry).
Proof.
  revert retry. induction messages as [|m messages IH]; intros retry; cbn [process_all]; [apply wf_ret|].
  apply wf_candidate. intros o. apply IH.
Qed.
Lemma recover_wf dmId n : wf (recoverInviteCandidatesFromDm JSON_parse fuel dmId n).
Proof.
  unfold recoverInviteCandidatesFromDm. apply wf_bind; [apply quiet_wf, scan_quiet|]. intros scan.
  apply wf_bind; [apply process_all_wf|]. intros retry. apply wf_sync; [|intros; apply wf_ret].
  intros w. unfold schedule_retry. by destruct (_ || _).
Qed.
Lemma host_job_wf j : wf (host_job JSON_parse fuel j).
Proof.
  destruct j as [[event| |dmId peer| | | | |]|dmId|key|]; cbn [host_job]; try apply wf_ret; try apply recover_wf.
  - destruct (negb _); [apply wf_ret|]. apply wf_candidate. intros. apply wf_ret.
  - apply wf_sync; [done|]. intros [n|]; [apply recover_wf|apply wf_ret].
  - apply wf_sync; [|intros; apply wf_ret]. intros w. unfold expire_key. by destruct (set_has _ _).
  - apply wf_sync; [done|]. intros. apply wf_ret.
Qed.

(** The environment leaves the listener's sets alone. *)
Definition host_env (w w' : HostWorld) : Prop :=
  inflightMessageIds w' = inflightMessageIds w ∧ inflightInviteKeys w' = inflightInviteKeys w ∧
  processedMessageIds w' = processedMessageIds w.
Abbreviation host_sys := (Sys HostWorld heff HostJob unit).
Definition sys_inv (s : host_sys) : Prop :=
  ∃ sts, Forall2 (λ st t, job_state JSON_parse st t.2) sts (s_jobs s) ∧
    lock_inv JSON_parse (base.omap id sts) (accepted_ids (s_log s)) (s_world s).
Lemma omap_own (sts : list (option (RawMessageEvent * Phase))) i st st' :
  sts !! i = Some st → ∃ o, base.omap id sts ≡ₚ own st ++ o ∧ base.omap id (<[i := st']> sts) ≡ₚ own st' ++ o.
Proof.
  intros Hi. pose proof (lookup_lt_Some _ _ _ Hi) as Hl.
  exists (base.omap id (take i sts) ++ base.omap id (drop (S i) sts)). split.
  - rewrite <-(take_drop_middle sts i st Hi) at 1. rewrite omap_app. destruct st; cbn; [symmetry; apply Permutation_middle|reflexivity].
  - rewrite insert_take_drop by done. rewrite omap_app. destruct st'; cbn; [symmetry; apply Permutation_middle|reflexivity].
Qed.
Lemma accepted_app L i X (e : heff X) w x :
  accepted_ids (L ++ [(i, inr (Event _ e w x))]) = accepted_ids L ++ option_list (accept_of e).
Proof. unfold accepted_ids. rewrite omap_app. cbn. by destruct (accept_of e). Qed.
(** The answer to what a job awaits. *)
Lemma answered_ok {R} st X (e : heff X) k x o L i w0 w :
  job_state (R := R) JSON_parse st (Await e k) → lock_inv JSON_parse (own st ++ o) (accepted_ids L) w →
  stretch_ok JSON_parse o (accepted_ids (L ++ [(i, inr (Event _ e w0 x))])) w (k x).
Proof.
  intros Hst Hinv. rewrite accepted_app. destruct st as [[ev ph]|]; cbn [job_state] in Hst.
  2: { destruct Hst as [-> Hk]. rewrite app_nil_r. by apply wf_stretch. }
  destruct ph; destruct Hst as [-> Hk]; cbn [announced option_list]; rewrite ?app_nil_r;
    destruct (Hk x) as (d & k0 & -> & Hrest).
  - destruct Hrest as [Hd Hk0]. apply dispatch_stretch; [done|done| |done]. intros. by apply wf_stretch.
  - apply (wf_stretch JSON_parse (k0 d) (Hrest d) o _ (leave_candidate JSON_parse ev w).1).
    eapply leave_inv. by apply announce_inv.
  - apply (wf_stretch JSON_parse (k0 d) (Hrest d) o _ (leave_candidate JSON_parse ev w).1).
    eapply leave_inv. exact Hinv.
Qed.
Lemma sys_inv_step s s' : sys_step (host_job JSON_parse fuel) host_env s s' → sys_inv s → sys_inv s'.
Proof.
  intros Hs (sts & Hj & Hinv). destruct Hs as [w L ts j|w L ts i j w0 X e k x Hi|w w' L ts He]; cbn in *.
  - destruct (wf_stretch JSON_parse _ (host_job_wf j) _ _ _ Hinv) as (st & Hst & Hinv').
    exists (sts ++ [st]). split; cbn.
    + apply Forall2_app; [done|]. by constructor.
    + unfold accepted_ids. rewrite !omap_app, app_nil_r. eapply lock_inv_proper; [|reflexivity|reflexivity|exact Hinv'].
      rewrite Permutation_app_comm. by destruct st.
  - destruct (Forall2_lookup_r _ _ _ _ _ Hj Hi) as (st & Hl & Hst). cbn in Hst.
    destruct (omap_own sts i st None Hl) as (o & Ho & _).
    rewrite Ho in Hinv. destruct (answered_ok st X e k x o L i w0 w Hst Hinv) as (st' & Hst' & Hinv').
    exists (<[i := st']> sts). split; cbn.
    + by apply Forall2_insert.
    + destruct (omap_own sts i st st' Hl) as (o' & Ho1 & Ho2). rewrite Ho2.
      assert (o ≡ₚ o') as Heq by (rewrite Ho1 in Ho; by apply Permutation_app_inv_l in Ho).
      by rewrite <-Heq.
  - exists sts. split; [done|]. by eapply lock_inv_kept.
Qed.

(** C18: however the handlers, the retries and the timers of the listener
    interleave, and whatever the calls answer: no message is ever accepted
    twice, and every accepted one is recorded as processed; and when all
    handlers have finished nothing is left marked as in flight, so a message
    that failed can be tried again. *)
Theorem message_accepted_once w s :
  inflightMessageIds w = [] → inflightInviteKeys w = [] →
  rtc (sys_step (host_job JSON_parse fuel) host_env) (mkSys w [] []) s →
  NoDup (accepted_ids (s_log s)) ∧
  (∀ m, m ∈ accepted_ids (s_log s) → m ∈ processedMessageIds (s_world s)) ∧
  ((∀ i t, s_jobs s !! i = Some t → ∃ r, t.2 = Ret r) →
   inflightMessageIds (s_world s) = [] ∧ inflightInviteKeys (s_world s) = []).
Proof.
  intros Hm Hk Hs.
  assert (sys_inv s) as (sts & Hj & Hinv).
  { assert (sys_inv (mkSys w [] [])) as H0.
    { exists []. split; [constructor|]. split; cbn; try constructor; rewrite ?Hm, ?Hk; try done.
      - by intros ev ph ?%elem_of_nil. - by intros m ?%elem_of_nil. }
    clear Hm Hk. induction Hs as [s|s1 s2 s3 Hst _ IH]; [done|]. eapply IH, sys_inv_step, H0. done. }
  destruct Hinv as [H1 H2 H3 H4 H5 H6 H7]. split_and!; [done|done|]. intros Hdone.
  assert (base.omap id sts = []) as Hnil.
  { clear -Hj Hdone. induction Hj as [|st t sts ts Hst _ IH]; [done|].
    destruct (Hdone 0%nat t eq_refl) as [r Hr]. rewrite Hr in Hst. cbn in Hst. subst st. cbn. apply IH.
    intros i t' Hi. by apply (Hdone (S i)). }
  rewrite Hnil in H2, H4. split.
  - apply elem_of_nil_inv. intros m Hin%H2. by apply elem_of_nil in Hin.
  - apply elem_of_nil_inv. intros m Hin%H4. by apply elem_of_nil in Hin.
Qed.
End system.

(** ** Who is added, and by which identity *)
Section dispatch.
Context `{InviteLib} (JSON_parse : string → option json) (env : HostWorld → HostWorld → Prop).
Abbreviation hevent := (event HostWorld heff).
(** An addition is by the client of a managed identity that has an inbox, for
    an invite that this identity has signed, and of the sender only. *)
Definition justified (event : RawMessageEvent) (identities : list (string * option string)) (t : list hevent)
  (ev : hevent) : Prop :=
  ∀ client g added, adds ev = Some (client, g, added) → added = [rm_senderInboxId event] ∧
    ∃ id inbox key wk wj tag invite,
      (id, Some inbox) ∈ identities ∧ om_get id (hw_clients wk) = Some client ∧
      Event _ (HWalletKey id) wk (Ok key) ∈ t ∧ Event _ (HGetTag g) wj (Ok tag) ∈ t ∧
      invite_valid JSON_parse (mkJoinDeps (normalizePrivateKeyHex key) inbox client) (hw_now wj)
        (rm_content event) invite g ∧ (tag = None ∨ tag = Some (inv_tag invite)).
Definition all_justified event identities (t : list hevent) : Prop := Forall (justified event identities t) t.
Definition none_done (t : list hevent) : Prop := Forall (λ ev, add_done ev = false) t.
Definition resolved_by (event : RawMessageEvent) (identities : list (string * option string))
  (t : list hevent) (resolution : ManagedInviteJoinResolution) : Prop :=
  ∃ t1 ev client, t = t1 ++ [ev] ∧ none_done t1 ∧ add_done ev = true ∧
    adds ev = Some (client, jr_groupId (ra_join resolution), [rm_senderInboxId event]) ∧
    jr_requesterInboxId (ra_join resolution) = rm_senderInboxId event ∧
    (ra_hostIdentityId resolution, Some (ra_hostInboxId resolution)) ∈ identities.
Definition dispatch_post event identities (t : list hevent)
  (r : option (res ManagedInviteJoinResolution) * bool) : Prop :=
  all_justified event identities t ∧
  match r with
  | (Some (Ok resolution), _) => resolved_by event identities t resolution
  | _ => none_done t
  end.
Lemma justified_app event identities t t' ev : justified event identities t ev → justified event identities (t ++ t') ev.
Proof.
  intros Hj client g added Ha. destruct (Hj _ _ _ Ha) as (-> & id & inbox & key & wk & wj & tag & invite & H1 & H2 & H3 & H4 & H5).
  split; [done|]. exists id, inbox, key, wk, wj, tag, invite. split_and!; [done|done| | |apply H5..]; apply elem_of_app; by left.
Qed.
Lemma all_justified_snoc event identities t ev :
  all_justified event identities t → justified event identities (t ++ [ev]) ev → all_justified event identities (t ++ [ev]).
Proof.
  intros Ht Hev. apply Forall_app. split; [|by constructor].
  eapply Forall_impl; [exact Ht|]. intros x. apply justified_app.
Qed.
Lemma no_adds_justified event identities t ev : adds ev = None → justified event identities t ev.
Proof. intros Ha client g added. by rewrite Ha. Qed.
Lemma none_done_snoc t ev : none_done t → add_done ev = false → none_done (t ++ [ev]).
Proof. intros. apply Forall_app. split; [done|]. by constructor. Qed.

Lemma try_identities_wp event identities all lastError retry w pre :
  (∀ x, x ∈ identities → x ∈ all) → all_justified event all pre → none_done pre →
  wp env (try_identities JSON_parse event identities lastError retry) w pre (λ t _ r, dispatch_post event all t r).
Proof.
  revert lastError retry w pre. induction identities as [|[id inbox] rest IH]; intros last retry w pre Hall Hj Hn.
  { cbn. by destruct last. }
  assert (∀ x, x ∈ rest → x ∈ all) as Hrest by (intros x Hx; apply Hall; by right).
  cbn [try_identities]. destruct (nonempty_str inbox) as [inbox'|] eqn:Hi; [|by apply IH].
  assert (inbox = Some inbox') as ->.
  { unfold nonempty_str in Hi. destruct inbox as [s|]; [|done]. case_bool_decide; congruence. }
  cbn [wp getClient fst snd]. destruct (om_get id (hw_clients w)) as [client|] eqn:Hc; [|by apply IH].
  cbn [wp]. intros w1 key _.
  assert (all_justified event all (pre ++ [Event _ (HWalletKey id) w key])) as Hj1
    by (apply all_justified_snoc; [done|by apply no_adds_justified]).
  assert (none_done (pre ++ [Event _ (HWalletKey id) w key])) as Hn1 by by apply none_done_snoc.
  destruct key as [key|e]; [|by apply IH]. set (pre1 := pre ++ _) in *.
  assert (Event _ (HWalletKey id) w (Ok key) ∈ pre1) as Hkey by (apply elem_of_app; right; by left).
  apply wp_bind, processJoinRequest_wp. intros t w2 r Ho.
  destruct Ho as [e He|invite g e Hv|invite g tag Hv Hne|invite g tag w3 r Hv Htag]; cbn [refuse].
  - rewrite app_nil_r. by apply IH.
  - apply IH; [done|apply all_justified_snoc; [done|by apply no_adds_justified]|by apply none_done_snoc].
  - apply IH; [done|apply all_justified_snoc; [done|by apply no_adds_justified]|by apply none_done_snoc].
  - set (tagev := Event _ (HGetTag g) w1 (Ok tag)). set (addev := Event _ (HAddMembers _ g _) w3 r).
    cbn [pd_client jm_senderInboxId] in *.
    change (pre1 ++ [tagev; addev]) with (pre1 ++ [tagev] ++ [addev]). rewrite app_assoc.
    assert (all_justified event all (pre1 ++ [tagev])) as Hj2
      by (apply all_justified_snoc; [done|by apply no_adds_justified]).
    assert (none_done (pre1 ++ [tagev])) as Hn2 by by apply none_done_snoc.
    assert (all_justified event all ((pre1 ++ [tagev]) ++ [addev])) as Hj3.
    { apply all_justified_snoc; [done|]. intros client' g' added [= <- <- <-]. split; [done|].
      exists id, inbox', key, w, w1, tag, invite. rewrite !elem_of_app.
      split_and!; [apply Hall; by left|done|by left; left|left; right; by left|done|done]. }
    destruct r as [[]|e].
    + cbn [wp]. split; [done|]. exists (pre1 ++ [tagev]), addev, client. split_and!; try done. apply Hall. by left.
    + apply IH; [done|done|by apply none_done_snoc].
Qed.

(** however many identities the daemon manages and whatever fails on the
    way: a member is added only by the client of a listed identity that has
    an inbox, after its wallet key was read, for an invite signed with that
    very key, unexpired, naming that identity's inbox and the stored tag; only
    the sender is added; at most one addition succeeds, it ends the dispatch,
    and it is what the dispatch reports. *)
Theorem dispatch_admits_by_signer event w t w' r :
  run env w (dispatchInviteJoinRequestAcrossManagedIdentities JSON_parse event) t w' r →
  t = [] ∧ r = (None, false) ∧ isInviteCandidate event = false ∨
  ∃ identities t', t = Event _ HListIdentities w identities :: t' ∧ isInviteCandidate event = true ∧
    all_justified event identities t' ∧
    match r with
    | (Some (Ok resolution), _) => resolved_by event identities t' resolution
    | _ => none_done t'
    end.
Proof.
  intros Hrun. unfold dispatchInviteJoinRequestAcrossManagedIdentities in Hrun.
  destruct (isInviteCandidate event); cbn [negb run] in Hrun.
  - right. destruct Hrun as (w1 & identities & t' & _ & -> & Hrun). exists identities, t'. split_and!; [done|done|..];
    pose proof (wp_run env _ w1 [] (λ t _ r, dispatch_post event identities t r) _ _ _
      (try_identities_wp event identities identities None false w1 [] ltac:(done) ltac:(constructor) ltac:(constructor)) Hrun)
      as [Hj Hr]; done.
  - left. by destruct Hrun as (-> & -> & ->).
Qed.
End dispatch.

(** ** An example *)
Definition demo_request : RawMessageEvent :=
  mkRaw "m1" "dm-1" "ca11" "join_request" (jm_content demo_joiner) "2026" None false.
Definition demo_host_world : HostWorld := mkHost 0 [("inbox_1", 7%nat)] [] [] [] [] [] [].
Definition demo_dispatch : list (event HostWorld heff) :=
  [Event _ HListIdentities demo_host_world [("inbox_1", Some "0abc")];
   Event _ (HWalletKey "inbox_1") demo_host_world (Ok "0x11")] ++ demo_join_events demo_host_world.
Lemma dispatch_admits_by_signer_witness :
  ∃ identities, all_justified (H := Toy.lib) (λ _, None) demo_request identities (drop 1 demo_dispatch).
Proof.
  assert (run eq demo_host_world (dispatchInviteJoinRequestAcrossManagedIdentities (H := Toy.lib) (λ _, None) demo_request)
    demo_dispatch demo_host_world
    (Some (Ok (mkResolution (mkJoined "group-1" "ca11" "tag-1") "inbox_1" "0abc")), false)) as Hrun.
  { unfold dispatchInviteJoinRequestAcrossManagedIdentities.
    assert (isInviteCandidate demo_request = true) as -> by (vm_compute; reflexivity). cbn [negb run].
    exists demo_host_world, [("inbox_1", Some "0abc")]. eexists. split; [reflexivity|]. split; [reflexivity|].
    cbn [try_identities]. change (nonempty_str (Some "0abc")) with (Some "0abc"). cbn [run getClient fst snd].
    change (om_get "inbox_1" (hw_clients demo_host_world)) with (Some 7%nat). cbn [run].
    exists demo_host_world, (Ok "0x11"). eexists. split; [reflexivity|]. split; [reflexivity|].
    refine (proj2 (run_bind _ _ _ _ _ _ _) _).
    exists (demo_join_events demo_host_world), [], demo_host_world, (Ok (mkJoined "group-1" "ca11" "tag-1")).
    split; [reflexivity|]. split; [exact (demo_join_run hw_now demo_host_world eq_refl)|].
    cbn [run]. split_and!; reflexivity. }
  destruct (dispatch_admits_by_signer (H := Toy.lib) (λ _, None) eq demo_request _ _ _ _ Hrun)
    as [[? _]|(identities & t' & Ht & _ & Hj & _)]; [done|].
  exists identities. apply (f_equal (drop 1)) in Ht. rewrite skipn_cons, drop_0 in Ht. rewrite Ht. exact Hj.
Defined.
Lemma message_accepted_once_witness :
  ∃ s, rtc (sys_step (host_job (H := Toy.lib) (λ _, None) 1) host_env) (mkSys demo_host_world [] []) s ∧
    length (s_jobs s) = 1%nat ∧ length (s_log s) = 2%nat ∧ inflightMessageIds (s_world s) = [].
Proof.
  assert (∃ s, rtc (sys_step (host_job (H := Toy.lib) (λ _, None) 1) host_env) (mkSys demo_host_world [] []) s ∧
    length (s_jobs s) = 1%nat ∧ length (s_log s) = 2%nat ∧ ∃ j w, s_jobs s = [(j, w, Ret tt)]) as (s & Hs & H1 & H2 & j & w & Hj).
  { eexists. split; [|split; [|split]].
    - eapply rtc_l; [apply (sys_spawn _ _ _ _ _ (on_event (raw_message demo_request)))|].
      eapply rtc_l; [|apply rtc_refl].
      eapply (sys_answer _ _ _ _ _ 0%nat _ _ (list (string * option string)) HListIdentities _ []). cbn. reflexivity.
    - reflexivity.
    - reflexivity.
    - cbn. eauto. }
  exists s. split_and!; [done..|].
  destruct (message_accepted_once (H := Toy.lib) (λ _, None) 1 demo_host_world s eq_refl eq_refl Hs) as (_ & _ & Hdone).
  apply Hdone. rewrite Hj. intros [|i] t Ht; [|done]. injection Ht as <-. by exists tt.
Defined.
