(* ===== verification/Join.v ===== *)
(** * Registering an identity and joining a conversation

    [core/src/identity-registration.ts] and
    [core/src/schemes/convos/join.ts]: an identity is created for a
    conversation, its client asks the invite's creator to be let in, and
    waits for the group to appear; whatever goes wrong, the identity is
    removed again.

    The fresh identifier, the time of creation, SQLite's error text and the
    address of a key are arguments; creating the directory of the database is
    left out.  Decoded messages carry JSON here, in which a [Date] is some
    value. *)
From S2P Require Import Prelude Bytes JsDate Text Json Errors Programs CoreStores CoreWorld Invites InviteHost MessageActions.

Record JoinConfig := mkJoinConfig { jc_dataDir : string; jc_env : string; jc_appVersion : string }.
(** What [identityStore.create] makes up, and [cause] for when it throws. *)
Record Fresh := mkFresh { fr_id : string; fr_createdAt : string; fr_cause : string }.

Definition store_create (fresh : Fresh) (groupId label : option string) (w : CoreWorld)
  : CoreWorld * res AgentIdentity :=
  let r := is_create groupId label (fr_id fresh) (fr_createdAt fresh) (fr_cause fresh) (cw_identities w) in
  (with_identities (λ _, r.1) w, r.2).
Definition store_remove (id : string) (w : CoreWorld) : CoreWorld * res unit :=
  let r := is_remove id (cw_identities w) in (with_identities (λ _, r.1) w, r.2).
Definition store_setInboxId (id inboxId : string) (w : CoreWorld) : CoreWorld * res AgentIdentity :=
  let r := is_setInboxId id inboxId (cw_identities w) in (with_identities (λ _, r.1) w, r.2).
(** [await identityStore.remove(identityId); return error]. *)
Definition cleanup {A} (id : string) (e : SignetError) : CProg (res A) :=
  (do _ <- called (store_remove id) ;; Ret (Err e))%prog.
(** A step whose failure removes the identity. *)
Definition or_cleanup {A B} (id : string) (e : ceff (res A)) (k : A → CProg (res B)) : CProg (res B) :=
  (await r <- e ;; match r with Ok a => k a | Err error => cleanup id error end)%prog.

(** ** Registration *)
Definition resolveDbPath (dataDir env identityId : string) : string :=
  if bool_decide (dataDir = ":memory:") then ":memory:"
  else dataDir +:+ "/db/" +:+ env +:+ "/" +:+ identityId +:+ ".db3".
Record RegisterIdentityInput := mkRegisterInput { rg_label : option string; rg_groupId : option string }.
Definition client_options (config : JoinConfig) (identityId dbKey identityKey : string) : XmtpClientCreateOptions :=
  mkClientOptions identityId (resolveDbPath (jc_dataDir config) (jc_env config) identityId) dbKey
    (jc_env config) (jc_appVersion config) identityKey.
Definition registerIdentity (address_of : string → string) (fresh : Fresh) (config : JoinConfig)
  (input : RegisterIdentityInput) : CProg (res RegisteredIdentity) :=
  (ok identity <- called (store_create fresh (rg_groupId input) (rg_label input)) ;;
   let identityId := ai_id identity in
   or_cleanup identityId (CDbKey identityId) (λ dbKey,
   or_cleanup identityId (CIdentityKey identityId) (λ identityKey,
   or_cleanup identityId (CCreateClient (client_options config identityId dbKey identityKey)) (λ client,
   let inboxId := client.2 in
   do set <- called (store_setInboxId identityId inboxId) ;;
   match set with
   | Err _ => cleanup identityId (InternalError_create "Failed to persist inbox ID"
                (Some [("identityId", JStr identityId); ("inboxId", JStr inboxId)]))
   | Ok _ => Ret (Ok (mkRegistered identityId inboxId (address_of identityKey) (jc_env config) (rg_label input)))
   end))))%prog.

(** ** Joining *)
Record JoinConversationOptions := mkJoinOptions {
  jo_label : option string; jo_profileName : option string;
  jo_pollIntervalMs : option Z; jo_maxPollAttempts : option nat
}.
Record JoinResult := mkJoinResult {
  jn_identityId : string; jn_inboxId : string; jn_groupId : string; jn_inviteTag : string;
  jn_groupName : option string; jn_creatorInboxId : string; jn_profileName : option string;
  jn_profileApplied : bool
}.
Definition DEFAULT_POLL_INTERVAL_MS : Z := 2000.
Definition DEFAULT_MAX_POLL_ATTEMPTS : nat := 30.
(** The parts of the onboarding scheme that do not fail. *)
Record SchemeLabels := mkLabels {
  sl_joinRequest : string; sl_profileUpdate : string; sl_encodeProfileUpdate : option string → json
}.
Section join.
Context `{InviteLib, JsDate} (JSON_parse : string → option json) (address_of : string → string)
  (labels : SchemeLabels).
Definition extractSlugForDm (input : string) : string :=
  let trimmed := trim input in
  match l_url trimmed with
  | None => trimmed
  | Some url =>
      match nonempty_str (url_param url "i"), nonempty_str (url_param url "code") with
      | Some i, _ => i
      | None, Some code => code
      | None, None => trimmed
      end
  end.
Fixpoint findInviteJoinErrorReply (messages : list XmtpDecodedMessage) (creatorInboxId inviteTag : string)
  : option string :=
  match messages with
  | [] => None
  | message :: rest =>
      let skip := findInviteJoinErrorReply rest creatorInboxId inviteTag in
      if negb (bool_decide (toLowerCase (xm_senderInboxId message) = toLowerCase creatorInboxId)) then skip
      else if negb (isInviteJoinErrorContentType (Some (xm_contentType message))) then skip
      else match extractInviteJoinError JSON_parse (ct_json (xm_content message)) with
           | None => skip
           | Some error =>
               if negb (bool_decide (je_inviteTag error = inviteTag)) then skip
               else Some (getInviteJoinErrorMessage error)
           end
  end.
Definition join_request_content (slug : string) (profileName : option string) : json :=
  JObj [("inviteSlug", JStr slug);
        ("profile", JObj (("memberKind", JStr "agent") ::
           match profileName with Some n => [("name", JStr n)] | None => [] end))].
Definition REPLY_OPTIONS : ListMessagesOptions := mkListOptions (Some 20%Z) None None (Some true).
(** One round of the loop, [remaining] counting the rounds left. *)
Fixpoint poll (remaining : nat) (identityId inboxId : string) (client : nat) (dmId : string)
  (invite : ParsedInvite) (profileName : option string) (pollIntervalMs : Z) (timeout : SignetError)
  : CProg (res JoinResult) :=
  match remaining with
  | O => cleanup identityId timeout
  | S remaining' =>
      or_cleanup identityId (CSyncAll client) (λ _,
      or_cleanup identityId (CListGroups client) (λ groups,
      match groups with
      | group :: _ =>
          (await sent <- CSendMessage client (xg_groupId group) (sl_encodeProfileUpdate labels profileName)
                           (Some (sl_profileUpdate labels)) ;;
           Ret (Ok (mkJoinResult identityId inboxId (xg_groupId group) (pi_tag invite)
                      (match nonempty_str (Some (xg_name group)) with Some n => Some n | None => pi_name invite end)
                      (pi_creatorInboxId invite) profileName (isOk sent))))%prog
      | [] =>
          (await replies <- CListMessages client dmId REPLY_OPTIONS ;;
           match match replies with
                 | Ok messages => findInviteJoinErrorReply messages (pi_creatorInboxId invite) (pi_tag invite)
                 | Err _ => None
                 end with
           | Some rejection => cleanup identityId (ValidationError_create "inviteUrl" rejection None)
           | None =>
               if (1 <? remaining)%nat then
                 await _ <- CSleep pollIntervalMs ;;
                 poll remaining' identityId inboxId client dmId invite profileName pollIntervalMs timeout
               else poll remaining' identityId inboxId client dmId invite profileName pollIntervalMs timeout
           end)%prog
      end))
  end.
Definition joinConversation (fresh : Fresh) (config : JoinConfig) (inviteUrl : string)
  (options : JoinConversationOptions) : CProg (res JoinResult) :=
  let pollIntervalMs := default DEFAULT_POLL_INTERVAL_MS (jo_pollIntervalMs options) in
  let maxPollAttempts := default DEFAULT_MAX_POLL_ATTEMPTS (jo_maxPollAttempts options) in
  (ok invite <- perform (CParseInvite inviteUrl) ;;
   ok _ <- perform (CVerifyInvite invite) ;;
   if pi_isExpired invite then Ret (Err (ValidationError_create "inviteUrl" "Invite has expired" None))
   else if pi_isConversationExpired invite then
     Ret (Err (ValidationError_create "inviteUrl" "Conversation has expired" None))
   else
     ok registered <- registerIdentity address_of fresh config (mkRegisterInput (jo_label options) None) ;;
     let identityId := ri_identityId registered in
     or_cleanup identityId (CDbKey identityId) (λ dbKey,
     or_cleanup identityId (CIdentityKey identityId) (λ identityKey,
     or_cleanup identityId (CCreateClient (client_options config identityId dbKey identityKey)) (λ client,
     or_cleanup identityId (CCreateDm client.1 (pi_creatorInboxId invite)) (λ dmId,
     let slug := extractSlugForDm inviteUrl in
     or_cleanup identityId (CSendMessage client.1 dmId (join_request_content slug (jo_profileName options))
                              (Some (sl_joinRequest labels))) (λ _,
     await _ <- CSendDm client.1 dmId slug ;;
     poll maxPollAttempts identityId (ri_inboxId registered) client.1 dmId invite (jo_profileName options)
       pollIntervalMs (TimeoutError_create "joinConversation" (Z.of_nat maxPollAttempts * pollIntervalMs))))))))%prog.
End join.

(** ** What joining leaves behind

    [id]: the fresh identifier, which only the program itself uses. *)
Section joined.
Context `{InviteLib, JsDate} (JSON_parse : string → option json) (address_of : string → string)
  (labels : SchemeLabels) (env : CoreWorld → CoreWorld → Prop) (fresh : Fresh).
Abbreviation id := (fr_id fresh).
Definition row_of (i : string) (w : CoreWorld) : option AgentIdentity := is_getById i (cw_identities w).
Hypothesis env_row : ∀ w w', env w w' → row_of id w' = row_of id w.

Lemma remove_row i w : row_of i (store_remove i w).1 = None.
Proof.
  unfold row_of, store_remove, is_remove. cbn. destruct (is_getById i (cw_identities w)) eqn:Hg; [|done].
  unfold is_getById. apply find_key_None. intros x [_ Hx]%elem_of_lfilter. by apply negb_true_iff, bool_decide_eq_false in Hx.
Qed.
Lemma create_row g l w : row_of id w = None →
  match (store_create fresh g l w).2 with
  | Ok r => ai_id r = id ∧ row_of id (store_create fresh g l w).1 = Some r
  | Err _ => row_of id (store_create fresh g l w).1 = None
  end.
Proof.
  intros Hn. unfold store_create, is_create, row_of, is_getById in *. cbn. destruct (existsb _ _); cbn; [done|].
  split; [done|]. induction (cw_identities w) as [|x t IH]; cbn; [by rewrite bool_decide_true|].
  cbn in Hn. case_bool_decide; [done|]. by apply IH.
Qed.
Lemma setInbox_row i inbox w x : row_of i w = Some x →
  (store_setInboxId i inbox w).2 = Ok (with_inboxId inbox x) ∧
  row_of i (store_setInboxId i inbox w).1 = Some (with_inboxId inbox x).
Proof.
  unfold store_setInboxId, row_of, is_setInboxId. intros Hx. rewrite Hx. cbn. split; [done|].
  unfold is_getById in *. induction (cw_identities w) as [|y t IH]; cbn in *; [done|].
  case_bool_decide as Hy.
  - injection Hx as ->. cbn. by rewrite bool_decide_true.
  - rewrite bool_decide_false by done. by apply IH.
Qed.

Definition sync_eff {X} (e : ceff X) : bool := match e with CSyncAll _ => true | _ => false end.
Definition is_sync (ev : cevent) : bool := sync_eff (ev_eff ev).
Definition polls (t : list cevent) : nat := length (List.filter is_sync t).
Lemma polls_app t t' : polls (t ++ t') = (polls t + polls t')%nat.
Proof. unfold polls. by rewrite List.filter_app, length_app. Qed.
Lemma wp_cleanup {A} (e : SignetError) w pre (Q : list cevent → CoreWorld → res A → Prop) :
  (∀ t w', polls t = 0%nat → row_of id w' = None → Q (pre ++ t) w' (Err e)) → wp env (cleanup id e) w pre Q.
Proof using env_row.
  intros HQ. unfold cleanup. cbn [called bind wp fst snd]. intros w' [] Hw. apply HQ; [done|].
  rewrite (env_row _ _ Hw). apply remove_row.
Qed.
Lemma wp_or_cleanup {A B} (e : ceff (res A)) (k : A → CProg (res B)) w pre
  (Q : list cevent → CoreWorld → res B → Prop) :
  (∀ error t w', (polls t ≤ if sync_eff e then 1 else 0)%nat →
     row_of id w' = None → Q (pre ++ t) w' (Err error)) →
  (∀ w' a, row_of id w' = row_of id w → wp env (k a) w' (pre ++ [Event _ e w (Ok a)]) Q) →
  wp env (or_cleanup id e k) w pre Q.
Proof using env_row.
  intros He Hk. unfold or_cleanup. cbn [wp]. intros w' [a|error] Hw; [apply Hk; by apply env_row|].
  apply wp_cleanup. intros t w2 Ht Hr. rewrite <-app_assoc. apply He; [|done].
  rewrite polls_app, Ht. unfold polls. cbn. unfold is_sync. cbn. destruct (sync_eff e); cbn; lia.
Qed.

(** The loop. *)
Definition poll_post (inboxId : string) (client : nat) (invite : ParsedInvite) (bound : nat)
  (t : list cevent) (w : CoreWorld) (r : res JoinResult) : Prop :=
  (polls t ≤ bound)%nat ∧
  match r with
  | Ok j => (∃ row, row_of id w = Some row ∧ ai_inboxId row = Some inboxId) ∧
      jn_identityId j = id ∧ jn_inboxId j = inboxId ∧ jn_inviteTag j = pi_tag invite ∧
      jn_creatorInboxId j = pi_creatorInboxId invite ∧
      ∃ w0 group rest, Event _ (CListGroups client) w0 (Ok (group :: rest)) ∈ t ∧ jn_groupId j = xg_groupId group
  | Err _ => row_of id w = None
  end.
Lemma poll_wp n inboxId client dmId invite profileName interval timeout bound row w pre :
  row_of id w = Some row → ai_inboxId row = Some inboxId → (polls pre + n ≤ bound)%nat →
  wp env (poll JSON_parse labels n id inboxId client dmId invite profileName interval timeout) w pre
    (poll_post inboxId client invite bound).
Proof using env_row.
  intros Hrow Hinbox. revert w pre Hrow. induction n as [|n IH]; intros w pre Hrow Hb; cbn [poll].
  { apply wp_cleanup. intros t w' Ht Hn. split; [rewrite polls_app; lia|done]. }
  apply wp_or_cleanup.
  { cbn [sync_eff]. intros error t w' Ht Hn. split; [rewrite polls_app; lia|done]. }
  intros w1 [] Hw1. set (pre1 := pre ++ _).
  assert (polls pre1 + n ≤ bound)%nat as Hb1 by (unfold pre1; rewrite polls_app; cbn; lia).
  apply wp_or_cleanup.
  { cbn [sync_eff]. intros error t w' Ht Hn. split; [rewrite polls_app; lia|done]. }
  intros w2 groups Hw2. set (pre2 := pre1 ++ _).
  assert (polls pre2 + n ≤ bound)%nat as Hb2 by (unfold pre2; rewrite polls_app; cbn; lia).
  assert (row_of id w2 = Some row) as Hrow2 by congruence.
  destruct groups as [|group rest]; cbn [wp].
  - intros w3 replies Hw3. apply env_row in Hw3. set (pre3 := pre2 ++ _).
    assert (polls pre3 + n ≤ bound)%nat as Hb3 by (unfold pre3; rewrite polls_app; cbn; lia).
    destruct (match replies with Ok _ => _ | Err _ => None end) as [rejection|].
    { apply wp_cleanup. intros t w' Ht Hn. split; [rewrite polls_app; lia|done]. }
    destruct (1 <? S n)%nat; cbn [wp].
    + intros w4 [] Hw4. apply env_row in Hw4. apply IH; [congruence|]. rewrite polls_app. cbn. lia.
    + apply IH; [congruence|done].
  - intros w3 sent Hw3. apply env_row in Hw3. split; [rewrite polls_app; cbn; lia|].
    split; [exists row; split; [congruence|done]|]. split_and!; [done..|]. exists w1, group, rest.
    split; [|done]. apply elem_of_app. left. apply elem_of_app. right. by left.
Qed.

(** A client made for the identity, with the two keys that were answered for
    it. *)
Definition client_made (config : JoinConfig) (key : string) (client : nat) (inboxId : string) (t : list cevent) : Prop :=
  ∃ dbKey w1 w2 w3, Event _ (CDbKey id) w1 (Ok dbKey) ∈ t ∧ Event _ (CIdentityKey id) w2 (Ok key) ∈ t ∧
    Event _ (CCreateClient (client_options config id dbKey key)) w3 (Ok (client, inboxId)) ∈ t.
Lemma client_made_at config key client inboxId dbKey w1 w2 w3 pre :
  client_made config key client inboxId (((pre ++ [Event _ (CDbKey id) w1 (Ok dbKey)]) ++ [Event _ (CIdentityKey id) w2 (Ok key)]) ++
    [Event _ (CCreateClient (client_options config id dbKey key)) w3 (Ok (client, inboxId))]).
Proof using Type. exists dbKey, w1, w2, w3. rewrite !elem_of_app, !list_elem_of_singleton. clear. tauto. Qed.
Lemma client_made_app config key client inboxId t t' : client_made config key client inboxId t → client_made config key client inboxId (t ++ t').
Proof using Type. intros (dbKey & w1 & w2 & w3 & H1 & H2 & H3). exists dbKey, w1, w2, w3. rewrite !elem_of_app. clear -H1 H2 H3. tauto. Qed.
(** A failing step before the loop. *)
Ltac step_cleanup :=
  apply wp_or_cleanup;
  [cbn [sync_eff]; intros ? ?t ? ?Ht ?; split; [rewrite polls_app; lia|done]|].
Definition register_post (config : JoinConfig) (n : nat) (t : list cevent) (w : CoreWorld) (r : res RegisteredIdentity)
  : Prop :=
  (polls t ≤ n)%nat ∧
  match r with
  | Ok g => ri_identityId g = id ∧
      (∃ row, row_of id w = Some row ∧ ai_inboxId row = Some (ri_inboxId g)) ∧
      ∃ key client, client_made config key client (ri_inboxId g) t ∧ ri_address g = address_of key
  | Err _ => row_of id w = None
  end.
Lemma register_wp config input w pre n : row_of id w = None → (polls pre ≤ n)%nat →
  wp env (registerIdentity address_of fresh config input) w pre (register_post config n).
Proof using env_row.
  intros Hn Hp. unfold registerIdentity. apply wp_bind_ok. cbn [called wp fst snd]. intros w1 [] Hw1.
  apply env_row in Hw1. set (pre1 := pre ++ _). assert (polls pre1 ≤ n)%nat by (unfold pre1; rewrite polls_app; cbn; lia).
  pose proof (create_row (rg_groupId input) (rg_label input) w Hn) as Hc.
  destruct (store_create fresh (rg_groupId input) (rg_label input) w).2 as [row|e]; cbn.
  2: { split; [lia|congruence]. }
  destruct Hc as [Hid Hrow]. rewrite Hid. step_cleanup. intros w2 dbKey Hw2. set (pre2 := pre1 ++ _).
  assert (polls pre2 ≤ n)%nat by (unfold pre2; rewrite polls_app; cbn; lia).
  step_cleanup. intros w3 key Hw3. set (pre3 := pre2 ++ _).
  assert (polls pre3 ≤ n)%nat by (unfold pre3; rewrite polls_app; cbn; lia).
  step_cleanup. intros w4 [client inbox] Hw4. set (pre4 := pre3 ++ _). cbn [snd].
  assert (polls pre4 ≤ n)%nat by (unfold pre4; rewrite polls_app; cbn; lia).
  destruct (setInbox_row id inbox w4 row) as [Hset Hrow']; [congruence|].
  cbn [called bind wp fst snd]. rewrite Hset. intros w5 [] Hw5. apply env_row in Hw5. cbn [wp].
  split; [rewrite polls_app; cbn; lia|]. split; [done|]. split.
  { exists (with_inboxId inbox row). split; [congruence|done]. }
  exists key, client. split; [|done]. apply client_made_app. apply client_made_at.
Qed.

Definition join_post (config : JoinConfig) (inviteUrl : string) (options : JoinConversationOptions) (bound : nat)
  (t : list cevent) (w : CoreWorld) (r : res JoinResult) : Prop :=
  (polls t ≤ bound)%nat ∧
  match r with
  | Err _ => row_of id w = None
  | Ok j =>
      jn_identityId j = id ∧ (∃ row, row_of id w = Some row ∧ ai_inboxId row = Some (jn_inboxId j)) ∧
      (∃ key client0, client_made config key client0 (jn_inboxId j) t) ∧
      ∃ invite w1 w2 w3 w4 w5 client dmId m group rest key inbox,
        client_made config key client inbox t ∧
        Event _ (CParseInvite inviteUrl) w1 (Ok invite) ∈ t ∧ Event _ (CVerifyInvite invite) w2 (Ok tt) ∈ t ∧
        pi_isExpired invite = false ∧ pi_isConversationExpired invite = false ∧
        Event _ (CCreateDm client (pi_creatorInboxId invite)) w3 (Ok dmId) ∈ t ∧
        Event _ (CSendMessage client dmId (join_request_content (extractSlugForDm inviteUrl) (jo_profileName options))
          (Some (sl_joinRequest labels))) w4 (Ok m) ∈ t ∧
        Event _ (CListGroups client) w5 (Ok (group :: rest)) ∈ t ∧
        jn_groupId j = xg_groupId group ∧ jn_inviteTag j = pi_tag invite ∧ jn_creatorInboxId j = pi_creatorInboxId invite
  end.
(** Asking the creator, with the new identity. *)
Lemma ask_wp config inviteUrl options bound inboxId invite row w pre n interval timeout :
  row_of id w = Some row → ai_inboxId row = Some inboxId → (polls pre + n ≤ bound)%nat →
  wp env (or_cleanup id (CDbKey id) (λ dbKey,
     or_cleanup id (CIdentityKey id) (λ identityKey,
     or_cleanup id (CCreateClient (client_options config id dbKey identityKey)) (λ client,
     or_cleanup id (CCreateDm client.1 (pi_creatorInboxId invite)) (λ dmId,
     or_cleanup id (CSendMessage client.1 dmId (join_request_content (extractSlugForDm inviteUrl) (jo_profileName options))
                              (Some (sl_joinRequest labels))) (λ _,
     await _ <- CSendDm client.1 dmId (extractSlugForDm inviteUrl) ;;
     poll JSON_parse labels n id inboxId client.1 dmId invite (jo_profileName options) interval timeout)%prog))))) w pre
  (λ t w' r, (polls t ≤ bound)%nat ∧ match r with
   | Err _ => row_of id w' = None
   | Ok j => ∃ client dmId m w3 w4 key inbox, client_made config key client inbox t ∧ poll_post inboxId client invite bound t w' r ∧
       Event _ (CCreateDm client (pi_creatorInboxId invite)) w3 (Ok dmId) ∈ t ∧
       Event _ (CSendMessage client dmId (join_request_content (extractSlugForDm inviteUrl) (jo_profileName options))
          (Some (sl_joinRequest labels))) w4 (Ok m) ∈ t
   end).
Proof using env_row address_of.
  intros Hrow Hinbox Hb.
  step_cleanup. intros w2 dbKey Hw2. set (pre2 := pre ++ _).
  assert (polls pre2 + n ≤ bound)%nat by (unfold pre2; rewrite polls_app; cbn; lia).
  step_cleanup. intros w3 key Hw3. set (pre3 := pre2 ++ _).
  assert (polls pre3 + n ≤ bound)%nat by (unfold pre3; rewrite polls_app; cbn; lia).
  step_cleanup. intros w4 [client inbox] Hw4. set (pre4 := pre3 ++ _). cbn [fst].
  assert (polls pre4 + n ≤ bound)%nat by (unfold pre4; rewrite polls_app; cbn; lia).
  step_cleanup. intros w5 dmId Hw5. set (pre5 := pre4 ++ _).
  assert (polls pre5 + n ≤ bound)%nat by (unfold pre5; rewrite polls_app; cbn; lia).
  step_cleanup. intros w6 m Hw6. set (pre6 := pre5 ++ _).
  assert (polls pre6 + n ≤ bound)%nat by (unfold pre6; rewrite polls_app; cbn; lia).
  cbn [wp]. intros w7 sent Hw7. apply env_row in Hw7.
  eapply wp_mono; [|apply wp_prefix, (poll_wp n inboxId client dmId invite (jo_profileName options) interval timeout bound row)];
    [|congruence|done|rewrite polls_app; cbn; lia].
  intros t w' r [Hpost [tl Htl]]. pose proof Hpost as [Hp Hr]. split; [done|]. destruct r as [j|e]; [|done].
  exists client, dmId, m, w4, w5, key, inbox. split.
  { rewrite Htl. unfold pre6, pre5. do 4 apply client_made_app. apply client_made_at. }
  split; [done|]. rewrite Htl. unfold pre6, pre5. rewrite !elem_of_app, !list_elem_of_singleton. tauto.
Qed.

End joined.

(** ** An example: the creator lets the joiner in at the second poll *)
Definition demo_fresh : Fresh := mkFresh "inbox_9" "2026" "".
Definition demo_labels : SchemeLabels :=
  mkLabels "convos.org/join_request:1.0" "convos.org/profile_update:1.0" (λ _, JObj []).
Definition demo_config : JoinConfig := mkJoinConfig ":memory:" "dev" "1.0".
Definition demo_invite : ParsedInvite := mkParsedInvite "net-2" "tag-1" (Some "Club") false false.
Definition demo_group : XmtpGroupInfo := mkGroup "group-1" "Club" "" None [] "2026".
Definition demo_join_options : JoinConversationOptions := mkJoinOptions None None None (Some 2%nat).
Definition demo_core1 : CoreWorld := (store_create demo_fresh None None demo_core).1.
Definition demo_core2 : CoreWorld := (store_setInboxId "inbox_9" "net-9" demo_core1).1.
Definition demo_options9 : XmtpClientCreateOptions := client_options demo_config "inbox_9" "dbkey" "key".
Definition demo_joining : list cevent :=
  [Event (res ParsedInvite) (CParseInvite "slug") demo_core (Ok demo_invite);
   Event (res unit) (CVerifyInvite demo_invite) demo_core (Ok tt);
   Event unit CTick demo_core1 tt;
   Event (res string) (CDbKey "inbox_9") demo_core1 (Ok "dbkey");
   Event (res string) (CIdentityKey "inbox_9") demo_core1 (Ok "key");
   Event (res (nat * string)) (CCreateClient demo_options9) demo_core1 (Ok (3%nat, "net-9"));
   Event unit CTick demo_core2 tt;
   Event (res string) (CDbKey "inbox_9") demo_core2 (Ok "dbkey");
   Event (res string) (CIdentityKey "inbox_9") demo_core2 (Ok "key");
   Event (res (nat * string)) (CCreateClient demo_options9) demo_core2 (Ok (4%nat, "net-9"));
   Event (res string) (CCreateDm 4 "net-2") demo_core2 (Ok "dm-1");
   Event (res string) (CSendMessage 4 "dm-1" (join_request_content "slug" None) (Some "convos.org/join_request:1.0"))
     demo_core2 (Ok "m1");
   Event (res string) (CSendDm 4 "dm-1" "slug") demo_core2 (Ok "m2");
   Event (res unit) (CSyncAll 4) demo_core2 (Ok tt);
   Event (res (list XmtpGroupInfo)) (CListGroups 4) demo_core2 (Ok []);
   Event (res (list XmtpDecodedMessage)) (CListMessages 4 "dm-1" REPLY_OPTIONS) demo_core2 (Ok []);
   Event unit (CSleep 2000) demo_core2 tt;
   Event (res unit) (CSyncAll 4) demo_core2 (Ok tt);
   Event (res (list XmtpGroupInfo)) (CListGroups 4) demo_core2 (Ok [demo_group]);
   Event (res string) (CSendMessage 4 "group-1" (JObj []) (Some "convos.org/profile_update:1.0")) demo_core2 (Ok "m3")].
Definition demo_joined : JoinResult := mkJoinResult "inbox_9" "net-9" "group-1" "tag-1" (Some "Club") "net-2" None true.
Lemma demo_joining_run :
  run eq demo_core (joinConversation (H := Toy.lib) (H0 := iso_date) (λ _, None) (λ k, k) demo_labels demo_fresh
    demo_config "slug" demo_join_options) demo_joining demo_core2 (Ok demo_joined).
Proof.
  unfold demo_joining. do 20 (eexists _, _, _; split; [reflexivity|split; [reflexivity|]]).
  by split_and!.
Qed.
