(* ===== verification/SignetCore.v ===== *)
(** * The core and its lifecycle

    [core/src/signet-core.ts] and [event-emitter.ts]: the state machine that
    owns the identity store, the registry of connected clients, the open
    streams and the two timers; registration of identities, their hydration
    into clients with streams, start-up, shut-down, and the raw events.

    Jobs are programs ([Programs]) that wait for keys, clients and streams;
    the promise of any of them may be rejected, so a program ends [Returned]
    or [Thrown].  Between two awaits other jobs run, streams deliver, timers
    fire and the rest of the daemon uses the store and the registry
    ([outside]).  A [ManagedClient] is an object shared by the registry and
    whoever holds it: it lives in [sc_objects] and is named by its index.  A
    stream yields nothing once aborted, which is what the XMTP SDK documents. *)
From S2P Require Import Prelude JsDate Programs Text Json Errors Ids Scopes Policy Reveal Seals Credentials CredentialSpec Registries CredentialService Contracts CoreStores CoreWorld Join.
Local Open Scope prog_scope.

Inductive SignetState := sg_idle | sg_local | sg_starting | sg_running | sg_stopping | sg_stopped | sg_error.
#[export] Instance SignetState_eq_dec : EqDecision SignetState.
Proof. solve_decision. Defined.
Definition state_str (s : SignetState) : string :=
  match s with
  | sg_idle => "idle" | sg_local => "local" | sg_starting => "starting" | sg_running => "running"
  | sg_stopping => "stopping" | sg_stopped => "stopped" | sg_error => "error"
  end.

(** ** Raw events ([raw-events.ts]), those the core emits *)
Inductive CoreRawEvent :=
  | raw_message (messageId groupId senderInboxId contentType : string) (content : json)
      (sentAt : string) (threadId : option string) (isHistorical : bool)
  | raw_group_joined (groupId groupName : string)
  | raw_dm_joined (dmId peerInboxId : string)
  | raw_core_started (identityCount : nat) (syncedThrough : string)
  | raw_core_stopped (reason : string)
  | raw_heartbeat (timestamp : string)
  | raw_liveness (timestamp : string) (heartbeatIntervalSeconds : Z).

(** ** The core *)
Record SignetCoreConfig := mkCoreConfig {
  cc_dataDir : string; cc_env : string; cc_appVersion : string;
  cc_heartbeatIntervalMs : Z; cc_livenessIntervalMs : Z
}.
(** A registered stream, with what [abort] acts on. *)
Record Stream := mkStream { st_identityId : string; st_handle : nat }.
(** What the loop over a stream does with its items. *)
Inductive Consumer :=
  | co_messages (cutoffMs : option Z)
  | co_groups (identityId : string)
  | co_dms.
(** [sc_aborted]: the streams [abort] was called on; [sc_emitted]: the events
    emitted, each with the subscribers it went to. *)
Record SignetCore := mkSC {
  sc_now : Z; sc_state : SignetState; sc_open : bool; sc_table : IdentityTable;
  sc_objects : list ManagedClient; sc_registry : omap string nat;
  sc_heartbeat : bool; sc_liveness : bool; sc_streams : list Stream; sc_aborted : list nat;
  sc_consumers : list (nat * Consumer); sc_handlers : list nat;
  sc_emitted : list (CoreRawEvent * list nat)
}.
Definition new_core (now : Z) (t : IdentityTable) : SignetCore :=
  mkSC now sg_idle true t [] [] false false [] [] [] [] [].

Definition on_now (f : Z → Z) (w : SignetCore) : SignetCore :=
  let 'mkSC n s o t ob r h l st a c hd em := w in mkSC (f n) s o t ob r h l st a c hd em.
Definition set_state (s : SignetState) (w : SignetCore) : SignetCore :=
  let 'mkSC n _ o t ob r h l st a c hd em := w in mkSC n s o t ob r h l st a c hd em.
Definition on_table (f : IdentityTable → IdentityTable) (w : SignetCore) : SignetCore :=
  let 'mkSC n s o t ob r h l st a c hd em := w in mkSC n s o (f t) ob r h l st a c hd em.
Definition store_close (w : SignetCore) : SignetCore :=
  let 'mkSC n s _ t ob r h l st a c hd em := w in mkSC n s false t ob r h l st a c hd em.
Definition on_objects (f : list ManagedClient → list ManagedClient) (w : SignetCore) : SignetCore :=
  let 'mkSC n s o t ob r h l st a c hd em := w in mkSC n s o t (f ob) r h l st a c hd em.
Definition on_registry (f : omap string nat → omap string nat) (w : SignetCore) : SignetCore :=
  let 'mkSC n s o t ob r h l st a c hd em := w in mkSC n s o t ob (f r) h l st a c hd em.
Definition set_timers (b : bool) (w : SignetCore) : SignetCore :=
  let 'mkSC n s o t ob r _ _ st a c hd em := w in mkSC n s o t ob r b b st a c hd em.
Definition on_streams (f : list Stream → list Stream) (w : SignetCore) : SignetCore :=
  let 'mkSC n s o t ob r h l st a c hd em := w in mkSC n s o t ob r h l (f st) a c hd em.
Definition abort (handles : list nat) (w : SignetCore) : SignetCore :=
  let 'mkSC n s o t ob r h l st a c hd em := w in mkSC n s o t ob r h l st (a ++ handles) c hd em.
Definition on_consumers (f : list (nat * Consumer) → list (nat * Consumer)) (w : SignetCore) : SignetCore :=
  let 'mkSC n s o t ob r h l st a c hd em := w in mkSC n s o t ob r h l st a (f c) hd em.
Definition on_handlers (f : list nat → list nat) (w : SignetCore) : SignetCore :=
  let 'mkSC n s o t ob r h l st a c hd em := w in mkSC n s o t ob r h l st a c (f hd) em.
(** [CoreEventEmitter.emit]: every subscriber gets the event, in the order of
    subscription; one that throws stops none of the others. *)
Definition emit (e : CoreRawEvent) (w : SignetCore) : SignetCore :=
  let 'mkSC n s o t ob r h l st a c hd em := w in mkSC n s o t ob r h l st a c hd (em ++ [(e, hd)]).
Definition em_on (handler : nat) (w : SignetCore) : SignetCore := on_handlers (λ l, set_add l handler) w.
Definition em_off (handler : nat) (w : SignetCore) : SignetCore :=
  on_handlers (List.filter (λ x, negb (bool_decide (x = handler)))) w.

(** ** Programs *)
Inductive attempt (A : Type) := Returned (a : A) | Thrown (cause : string).
Arguments Returned {A}.
Arguments Thrown {A}.
Inductive seff : Type → Type :=
  | STick : seff unit
  | SCall (A : Type) (e : ceff A) : seff (attempt A).
Arguments SCall {A}.
Abbreviation CP A := (prog SignetCore seff (attempt A)).
Definition call {A} (e : ceff A) : CP A := await x <- SCall e ;; Ret x.
Definition bind_try {A B} (p : CP A) (k : A → CP B) : CP B :=
  bind p (λ r, match r with Returned a => k a | Thrown c => Ret (Thrown c) end).
Definition give {A} (a : A) : CP A := Ret (Returned a).
(** [if (Result.isError(r)) return r]. *)
Definition on_ok {A B} (p : CP (res A)) (k : A → CP (res B)) : CP (res B) :=
  bind_try p (λ r, match r with Ok a => k a | Err e => give (Err e) end).
Definition or_fail {A B} (message : string) (p : CP (res A)) (k : A → CP (res B)) : CP (res B) :=
  bind_try p (λ r, match r with Ok a => k a | Err _ => give (Err (InternalError_create message None)) end).
(** An [async] function that runs without waiting, awaited. *)
Definition run_now {A} (f : SignetCore → SignetCore * A) : CP A :=
  sync x <- f ;; await _ <- STick ;; give x.
(** A statement on the store: it throws once the store is closed. *)
Definition CLOSED : string := "Cannot use a closed database".
Definition stmt {A} (f : IdentityTable → IdentityTable * A) (w : SignetCore) : SignetCore * attempt A :=
  if sc_open w then (on_table (λ _, (f (sc_table w)).1) w, Returned (f (sc_table w)).2) else (w, Thrown CLOSED).
Definition statement {A} (f : IdentityTable → IdentityTable * A) : CP A :=
  sync x <- stmt f ;; await _ <- STick ;; Ret x.
Definition store_getById (id : string) : CP (option AgentIdentity) := statement (λ t, (t, is_getById id t)).
Definition store_list : CP (list AgentIdentity) := statement (λ t, (t, is_list t)).
(** A closed store makes [create] fail like a broken constraint. *)
Definition store_create (fresh : Fresh) (groupId label : option string) : CP (res AgentIdentity) :=
  sync x <- stmt (is_create groupId label (fr_id fresh) (fr_createdAt fresh) (fr_cause fresh)) ;;
  await _ <- STick ;;
  give (match x with
        | Returned r => r
        | Thrown cause => Err (InternalError_create "Failed to create identity" (Some [("cause", JStr cause)]))
        end).
(** [setInboxId] and [remove] look the row up first, and wait for that. *)
Definition store_setInboxId (id inboxId : string) : CP (res AgentIdentity) :=
  bind_try (store_getById id) (λ existing,
  match existing with
  | None => give (Err (NotFoundError_create "identity" id))
  | Some existing =>
      bind_try (statement (λ t, (map (λ r, if bool_decide (ai_id r = id) then with_inboxId inboxId r else r) t, tt)))
        (λ _, give (Ok (with_inboxId inboxId existing)))
  end).
Definition store_remove (id : string) : CP (res unit) :=
  bind_try (store_getById id) (λ existing,
  match existing with
  | None => give (Err (NotFoundError_create "identity" id))
  | Some _ =>
      bind_try (statement (λ t, (List.filter (λ r, negb (bool_decide (ai_id r = id))) t, tt))) (λ _, give (Ok tt))
  end).

(** ** Streams and their consumers

    [#consumeMessageStream] and the other two start a loop over the stream's
    items that runs on its own. *)
Section core.
Context `{JsDate} (config : SignetCoreConfig) (address_of : string → string).
Definition consume (handle : nat) (c : Consumer) (w : SignetCore) : SignetCore :=
  on_consumers (λ l, l ++ [(handle, c)]) w.
Definition track (identityId : string) (handle : nat) (c : Consumer) (w : SignetCore) : SignetCore :=
  consume handle c (on_streams (λ l, l ++ [mkStream identityId handle]) w).
Definition deliver_message (cutoffMs : option Z) (msg : XmtpDecodedMessage) (w : SignetCore) : SignetCore :=
  emit (raw_message (xm_messageId msg) (xm_groupId msg) (xm_senderInboxId msg) (xm_contentType msg)
    (xm_content msg) (xm_sentAt msg) (xm_threadId msg)
    (match date_getTime (xm_sentAt msg), cutoffMs with
     | Some sent, Some cutoff => (sent <? cutoff)%Z | _, _ => false end)) w.
Definition add_groups (object : nat) (groupIds : list string) (w : SignetCore) : SignetCore :=
  on_objects (alter (λ m, mkManaged (mc_identityId m) (mc_inboxId m) (mc_client m)
    (foldl set_add (mc_groupIds m) groupIds)) object) w.
Definition deliver_group (identityId groupId groupName : string) (w : SignetCore) : SignetCore :=
  emit (raw_group_joined groupId groupName)
    (match om_get identityId (sc_registry w) with Some object => add_groups object [groupId] w | None => w end).
Definition deliver_dm (dmId peerInboxId : string) (w : SignetCore) : SignetCore :=
  emit (raw_dm_joined dmId peerInboxId) w.

(** ** Hydration *)
Definition core_db_path (id : string) : string := resolveDbPath (cc_dataDir config) (cc_env config) id.
Definition core_client_options (id dbKey identityKey : string) : XmtpClientCreateOptions :=
  mkClientOptions id (core_db_path id) dbKey (cc_env config) (cc_appVersion config) identityKey.
(** The client's object, put in the registry while the core is up; whether
    its streams are to be opened. *)
Definition connect (identity : AgentIdentity) (client : nat * string) (w : SignetCore) : SignetCore * (nat * bool) :=
  let object := length (sc_objects w) in
  let w1 := on_objects (λ l, l ++ [mkManaged (ai_id identity) client.2 client.1
              (match truthy_str (ai_groupId identity) with Some g => [g] | None => [] end)]) w in
  let w2 := match sc_state w with
            | sg_running | sg_starting | sg_local => on_registry (om_set (ai_id identity) object) w1
            | _ => w1
            end in
  (w2, (object, match sc_state w with sg_running | sg_starting => true | _ => false end)).
(** The stream of one kind: [streamAllMessages], [streamGroups], [streamDms]. *)
Definition open_stream {B} (id : string) (client : nat) (what : string) (c : SignetCore → Consumer)
  (k : CP (res B)) : CP (res B) :=
  on_ok (call (CStream client what)) (λ handle, sync _ <- (λ w, (track id handle (c w) w, tt)) ;; k).
Definition message_consumer (w : SignetCore) : Consumer := co_messages (date_getTime (nowISO (sc_now w))).
Definition open_streams (id : string) (client object : nat) : CP (res unit) :=
  on_ok (call (CSyncAll client)) (λ _,
  on_ok (call (CListGroups client)) (λ groups,
  sync _ <- (λ w, (add_groups object (map xg_groupId groups) w, tt)) ;;
  open_stream id client "messages" message_consumer
  (open_stream id client "groups" (λ _, co_groups id)
  (open_stream id client "dms" (λ _, co_dms) (give (Ok tt)))))).
Definition hydrateIdentity (identity : AgentIdentity) (registerNetworkIdentity : bool) : CP (res (nat * string)) :=
  let id := ai_id identity in
  or_fail "Failed to get DB encryption key for identity" (call (CDbKey id)) (λ dbKey,
  or_fail "Failed to get XMTP identity key for identity" (call (CIdentityKey id)) (λ identityKey,
  on_ok (call (CCreateClient (core_client_options id dbKey identityKey))) (λ client,
  bind_try (if registerNetworkIdentity || bool_decide (ai_inboxId identity = None)
            then store_setInboxId id client.2 else give (Ok identity)) (λ set,
  match set with
  | Err _ => give (Err (InternalError_create "Failed to persist inbox ID"
               (Some [("identityId", JStr id); ("inboxId", JStr client.2)])))
  | Ok _ =>
      sync object <- connect identity client ;;
      if object.2 then on_ok (open_streams id client.1 object.1) (λ _, give (Ok (object.1, client.2)))
      else give (Ok (object.1, client.2))
  end)))).

(** ** Registering, attaching and detaching an identity *)
Definition detachManagedIdentity (id : string) (w : SignetCore) : SignetCore :=
  let mine := List.filter (λ s, bool_decide (st_identityId s = id)) (sc_streams w) in
  on_registry (om_delete id)
    (on_streams (List.filter (λ s, negb (bool_decide (st_identityId s = id)))) (abort (map st_handle mine) w)).
Definition detach_call (id : string) : CP (res unit) := run_now (λ w, (detachManagedIdentity id w, Ok tt)).
Definition wrong_state (what expected : string) (s : SignetState) : SignetError :=
  ValidationError_create "state"
    ("Cannot " +:+ what +:+ " from '" +:+ state_str s +:+ "' state (expected " +:+ expected +:+ ")") None.
Definition while_up {B} (what : string) (k : CP (res B)) : CP (res B) :=
  sync s <- (λ w, (w, sc_state w)) ;;
  match s with
  | sg_running | sg_local => k
  | s => give (Err (wrong_state what "'running' or 'local'" s))
  end.
(** [await this.detachManagedIdentity(id); await this.#identityStore.remove(id)]. *)
Definition undo_registration {B} (id : string) (e : SignetError) : CP (res B) :=
  bind_try (detach_call id) (λ _, bind_try (store_remove id) (λ _, give (Err e))).
Definition registerManagedIdentity (fresh : Fresh) (input : RegisterIdentityInput) : CP (res RegisteredIdentity) :=
  while_up "register inbox"
   (on_ok (store_create fresh (rg_groupId input) (rg_label input)) (λ created,
    bind_try (hydrateIdentity created true) (λ hydrated,
    match hydrated with
    | Err e => undo_registration (ai_id created) e
    | Ok client =>
        await _ <- STick ;;
        bind_try (call (CIdentityKey (ai_id created))) (λ identityKey,
        match identityKey with
        | Err e => undo_registration (ai_id created) e
        | Ok key =>
            give (Ok (mkRegistered (ai_id created) client.2 (address_of key) (cc_env config) (rg_label input)))
        end)
    end))).
Definition attachPersistedIdentity (id : string) : CP (res unit) :=
  while_up "attach inbox"
   (sync present <- (λ w, (w, om_has id (sc_registry w))) ;;
    if present then give (Ok tt)
    else bind_try (store_getById id) (λ identity,
         match identity with
         | None => give (Err (NotFoundError_create "identity" id))
         | Some identity =>
             bind_try (hydrateIdentity identity false) (λ hydrated,
             match hydrated with
             | Err e => bind_try (detach_call id) (λ _, give (Err e))
             | Ok _ => give (Ok tt)
             end)
         end)).
Definition getManagedClient_of (id : string) (w : SignetCore) : option ManagedClient :=
  object ← om_get id (sc_registry w); sc_objects w !! object.
(** [registry.getByGroupId], with the object it finds. *)
Definition object_for_group (groupId : string) (w : SignetCore) : option nat :=
  List.find (λ object, match sc_objects w !! object with
                       | Some m => set_has (mc_groupIds m) groupId | None => false end) (sc_registry w).*2.
Definition forgetGroup (groupId : string) (w : SignetCore) : SignetCore * bool :=
  match object_for_group groupId w with
  | None => (w, false)
  | Some object =>
      (on_objects (alter (λ m, mkManaged (mc_identityId m) (mc_inboxId m) (mc_client m)
         (List.filter (λ g, negb (bool_decide (g = groupId))) (mc_groupIds m))) object) w, true)
  end.
Definition unregisterManagedClient (id : string) (w : SignetCore) : SignetCore * bool :=
  (on_registry (om_delete id) w, om_has id (sc_registry w)).

(** ** Start and stop *)
Definition startLocal (w : SignetCore) : SignetCore * res unit :=
  match sc_state w with
  | sg_idle => (set_state sg_local w, Ok tt)
  | s => (w, Err (wrong_state "initialize locally" "'idle'" s))
  end.
Definition startHeartbeat (w : SignetCore) : SignetCore := set_timers true w.
Definition stopHeartbeat (w : SignetCore) : SignetCore := set_timers false w.
Definition abort_all (w : SignetCore) : SignetCore :=
  on_streams (λ _, []) (abort (map st_handle (sc_streams w)) w).
Definition resetStartupArtifacts (w : SignetCore) : SignetCore :=
  on_registry (λ _, []) (abort_all (stopHeartbeat w)).
Definition failStart (fallback : SignetState) (w : SignetCore) : SignetCore :=
  set_state fallback (resetStartupArtifacts w).
Definition started (w : SignetCore) : SignetCore :=
  emit (raw_core_started (length (sc_registry w)) (nowISO (sc_now w))) (set_state sg_running (startHeartbeat w)).
Definition begin_start (w : SignetCore) : SignetCore * res SignetState :=
  match sc_state w with
  | sg_idle => (set_state sg_starting w, Ok sg_error)
  | sg_local => (set_state sg_starting w, Ok sg_local)
  | s => (w, Err (wrong_state "start" "'idle' or 'local'" s))
  end.
Fixpoint hydrate_all (identities : list AgentIdentity) : CP (res unit) :=
  match identities with
  | [] => give (Ok tt)
  | identity :: rest => on_ok (hydrateIdentity identity false) (λ _, hydrate_all rest)
  end.
Definition end_start (fallback : SignetState) (r : attempt (res unit)) (w : SignetCore) : SignetCore * res unit :=
  match r with
  | Returned (Ok _) => (started w, Ok tt)
  | Returned (Err e) => (failStart fallback w, Err e)
  | Thrown cause => (failStart fallback w,
      Err (InternalError_create "Unexpected error during startup" (Some [("cause", JStr cause)])))
  end.
Definition start_work : CP (res unit) := bind_try store_list hydrate_all.
Definition start : CP (res unit) :=
  sync fallback <- begin_start ;;
  match fallback with
  | Err e => give (Err e)
  | Ok fallback => do r <- start_work ;; sync out <- end_start fallback r ;; give out
  end.
(** What the subscribers of [raw.core.stopped] find when they are called. *)
Definition winding_down (w : SignetCore) : SignetCore := abort_all (stopHeartbeat (set_state sg_stopping w)).
Definition stop (w : SignetCore) : SignetCore * res unit :=
  match sc_state w with
  | sg_local | sg_running | sg_error =>
      let w1 := winding_down w in
      let w2 := if bool_decide (sc_state w = sg_local) then w1 else emit (raw_core_stopped "shutdown") w1 in
      (set_state sg_stopped (store_close (on_registry (λ _, []) w2)), Ok tt)
  | s => (w, Err (wrong_state "stop" "'local', 'running', or 'error'" s))
  end.

(** ** The timers *)
Definition heartbeat_fires (w : SignetCore) : SignetCore := emit (raw_heartbeat (nowISO (sc_now w))) w.
(** [Math.round(x / 1000)]. *)
Definition liveness_fires (w : SignetCore) : SignetCore :=
  emit (raw_liveness (nowISO (sc_now w)) ((cc_livenessIntervalMs config + 500) / 1000)) w.

(** ** The system *)
Inductive Job :=
  | JRegister (fresh : Fresh) (input : RegisterIdentityInput)
  | JAttach (id : string) | JDetach (id : string) | JStartLocal | JStart | JStop.
Definition job (j : Job) : CP (res unit) :=
  match j with
  | JRegister fresh input => on_ok (registerManagedIdentity fresh input) (λ _, give (Ok tt))
  | JAttach id => attachPersistedIdentity id
  | JDetach id => detach_call id
  | JStartLocal => sync r <- startLocal ;; give r
  | JStart => start
  | JStop => sync r <- stop ;; give r
  end.
(** What else happens between two awaits. *)
Inductive outside (w : SignetCore) : SignetCore → Prop :=
  | o_clock n : (sc_now w ≤ n)%Z → outside w (on_now (λ _, n) w)
  | o_table f : sc_open w = true → outside w (on_table f w)
  | o_message h cutoff msg : (h, co_messages cutoff) ∈ sc_consumers w → h ∉ sc_aborted w →
      outside w (deliver_message cutoff msg w)
  | o_group h id g name : (h, co_groups id) ∈ sc_consumers w → h ∉ sc_aborted w →
      outside w (deliver_group id g name w)
  | o_dm h dm peer : (h, co_dms) ∈ sc_consumers w → h ∉ sc_aborted w → outside w (deliver_dm dm peer w)
  | o_heartbeat : sc_heartbeat w = true → outside w (heartbeat_fires w)
  | o_liveness : sc_liveness w = true → outside w (liveness_fires w)
  | o_subscribe handler : outside w (em_on handler w)
  | o_unsubscribe handler : outside w (em_off handler w)
  | o_groups object groupIds : outside w (add_groups object groupIds w)
  | o_forget g : outside w (forgetGroup g w).1
  | o_unregister id : outside w (unregisterManagedClient id w).1.

(** ** The invariant of the core *)
Definition tracked (w : SignetCore) (handle : nat) : Prop :=
  handle ∈ map st_handle (sc_streams w) ∨ handle ∈ sc_aborted w.
Definition is_down (s : SignetState) : bool :=
  match s with sg_idle | sg_error | sg_stopped => true | _ => false end.
Record core_inv (w : SignetCore) : Prop := {
  ci_heartbeat : sc_heartbeat w = bool_decide (sc_state w = sg_running);
  ci_liveness : sc_liveness w = bool_decide (sc_state w = sg_running);
  ci_state : sc_state w ≠ sg_stopping;
  ci_open : sc_open w = negb (bool_decide (sc_state w = sg_stopped));
  ci_registry : ∀ id o, om_get id (sc_registry w) = Some o →
    ∃ m, sc_objects w !! o = Some m ∧ mc_identityId m = id;
  ci_down : is_down (sc_state w) = true → sc_registry w = [];
  ci_consumers : ∀ h c, (h, c) ∈ sc_consumers w → tracked w h
}.
(** What a synchronous part of a job that is no life-cycle operation does. *)
Record works (w w' : SignetCore) : Prop := {
  wk_inv : core_inv w → core_inv w';
  wk_state : sc_state w' = sc_state w;
  wk_tracked : ∀ h, tracked w h → tracked w' h
}.
#[local] Instance works_preorder : PreOrder works.
Proof.
  split.
  - intros w. by split.
  - intros w1 w2 w3 [A1 B1 C1] [A2 B2 C2]. split; [auto|congruence|auto].
Qed.

(** The stream an answered effect opened. *)
Definition opened {X} (e : seff X) : X → option nat :=
  match e in seff X return X → option nat with
  | STick => λ _, None
  | SCall e' =>
      match e' in ceff A return attempt A → option nat with
      | CStream _ _ => λ x, match x with Returned (Ok h) => Some h | _ => None end
      | _ => λ _, None
      end
  end.
(** A program that only [works] and forgets no stream it opens. *)
Fixpoint good {R} (p : prog SignetCore seff R) : Prop :=
  match p with
  | Ret _ => True
  | Sync f k => ∀ w, works w (f w).1 ∧ good (k (f w).2)
  | Await e k => ∀ x, good (k x) ∧ ∀ w h, opened e x = Some h → tracked (settle w (k x)).1 h
  end.
Lemma good_syncs {R} (p : prog SignetCore seff R) : good p → syncs_in works p.
Proof.
  induction p as [a|X e k IH|X f k IH]; cbn; [done| |].
  - intros Hg x. apply IH, Hg.
  - intros Hg w. destruct (Hg w). auto.
Qed.
Lemma good_settle {R} (p : prog SignetCore seff R) w :
  good p → works w (settle w p).1 ∧ good (settle w p).2.
Proof.
  revert w. induction p as [a|X e k IH|X f k IH]; intros w Hg; cbn; [by split|by split|].
  destruct (Hg w) as [H1 H2]. destruct (IH _ (f w).1 H2) as [H3 H4]. split; [by etrans|done].
Qed.
Lemma settle_bind_tracked {A B} (p : prog SignetCore seff A) (f : A → prog SignetCore seff B) w h :
  (∀ a, good (f a)) → tracked (settle w p).1 h → tracked (settle w (bind p f)).1 h.
Proof.
  intros Hf Ht. rewrite settle_bind. destruct (settle w p).2 as [a|X e k|X g k]; [|done|done].
  by apply (proj1 (good_settle (f a) _ (Hf a))).
Qed.
Lemma good_bind {A B} (p : prog SignetCore seff A) (f : A → prog SignetCore seff B) :
  good p → (∀ a, good (f a)) → good (bind p f).
Proof.
  intros Hp Hf. induction p as [a|X e k IH|X g k IH]; cbn in *; [done| |].
  - intros x. destruct (Hp x) as [H1 H2]. split; [auto|]. intros w h Ho. by apply settle_bind_tracked, H2.
  - intros w. destruct (Hp w). auto.
Qed.
Lemma good_try {A B} (p : CP A) (k : A → CP B) : good p → (∀ a, good (k a)) → good (bind_try p k).
Proof. intros Hp Hk. apply good_bind; [done|]. by intros []. Qed.
Lemma good_on_ok {A B} (p : CP (res A)) (k : A → CP (res B)) : good p → (∀ a, good (k a)) → good (on_ok p k).
Proof. intros Hp Hk. apply good_try; [done|]. by intros []. Qed.
Lemma good_or_fail {A B} m (p : CP (res A)) (k : A → CP (res B)) : good p → (∀ a, good (k a)) → good (or_fail m p k).
Proof. intros Hp Hk. apply good_try; [done|]. by intros []. Qed.
Definition opens {A} (e : ceff A) : bool := match e with CStream _ _ => true | _ => false end.
Lemma good_call {A} (e : ceff A) : opens e = false → good (call e).
Proof. destruct e; intros Ho; try done; intros x; by split. Qed.
Lemma good_run_now {A} (f : SignetCore → SignetCore * A) : (∀ w, works w (f w).1) → good (run_now f).
Proof. intros Hf w. split; [auto|]. intros x. by split. Qed.

(** *** The parts *)
Ltac split_core := let H := fresh in intros H; destruct H; split; cbn in *; auto.
Lemma works_table f w : works w (on_table f w).
Proof. destruct w. split; cbn; [split_core|done|done]. Qed.
Lemma works_stmt {A} (f : IdentityTable → IdentityTable * A) w : works w (stmt f w).1.
Proof. unfold stmt. destruct (sc_open w); cbn; [apply works_table|done]. Qed.
Lemma good_statement {A} (f : IdentityTable → IdentityTable * A) : good (statement f).
Proof. intros w. split; [apply works_stmt|]. intros x. by split. Qed.
Lemma good_create fresh g l : good (store_create fresh g l).
Proof. intros w. split; [apply works_stmt|]. intros x. by split. Qed.
Lemma good_setInboxId id inboxId : good (store_setInboxId id inboxId).
Proof. apply good_try; [apply good_statement|]. intros [i|]; [|done]. by apply good_try; [apply good_statement|]. Qed.
Lemma good_remove id : good (store_remove id).
Proof. apply good_try; [apply good_statement|]. intros [i|]; [|done]. by apply good_try; [apply good_statement|]. Qed.
Lemma objects_alter (f : ManagedClient → ManagedClient) i (l : list ManagedClient) o m :
  (∀ m, mc_identityId (f m) = mc_identityId m) → l !! o = Some m →
  ∃ m', alter f i l !! o = Some m' ∧ mc_identityId m' = mc_identityId m.
Proof.
  intros Hf Hm. destruct (decide (i = o)) as [->|Hne].
  - rewrite list_lookup_alter_eq, Hm. cbn. eauto.
  - rewrite list_lookup_alter_ne by done. eauto.
Qed.
Lemma works_alter f o w : (∀ m, mc_identityId (f m) = mc_identityId m) → works w (on_objects (alter f o) w).
Proof.
  intros Hf. destruct w. split; cbn; [split_core|done|done].
  intros id o' Ho. destruct (ci_registry0 id o' Ho) as (m & Hm & <-). by apply objects_alter.
Qed.
Lemma works_add_groups o gs w : works w (add_groups o gs w).
Proof. by apply works_alter. Qed.
Lemma works_emit e w : works w (emit e w).
Proof. destruct w. split; cbn; [split_core|done|done]. Qed.
Lemma tracked_track id h c w h' : tracked (track id h c w) h' ↔ tracked w h' ∨ h' = h.
Proof.
  destruct w. unfold tracked. cbn. rewrite map_app, elem_of_app. cbn. rewrite list_elem_of_singleton. tauto.
Qed.
Lemma works_track id h c w : works w (track id h c w).
Proof.
  split; [|by destruct w|intros h'; rewrite tracked_track; by left].
  intros Hi. assert (sc_consumers (track id h c w) = sc_consumers w ++ [(h, c)]) as Hc by by destruct w.
  assert (∀ h' c', (h', c') ∈ sc_consumers (track id h c w) → tracked (track id h c w) h') as Hnew.
  { intros h' c'. rewrite Hc, elem_of_app, list_elem_of_singleton, tracked_track.
    intros [Hin|[= -> ->]]; [left; by eapply ci_consumers|by right]. }
  destruct w. destruct Hi. split; cbn in *; auto.
Qed.
Lemma track_state id h c w : sc_state (track id h c w) = sc_state w.
Proof. by destruct w. Qed.
Lemma good_open_stream {B} id client what c (k : CP (res B)) : good k → good (open_stream id client what c k).
Proof.
  intros Hk x. split.
  - destruct x as [[h|e]|cause]; cbn; [|done|done]. intros w. split; [apply works_track|done].
  - intros w h. destruct x as [[h'|e]|cause]; cbn [opened call bind_try on_ok]; [|done|done]. intros [= ->].
    cbn. destruct (good_settle k (track id h (c w) w) Hk) as [[_ _ Ht] _]. apply Ht, tracked_track. by right.
Qed.
Lemma works_register id o w : is_down (sc_state w) = false →
  (∃ m, sc_objects w !! o = Some m ∧ mc_identityId m = id) → works w (on_registry (om_set id o) w).
Proof.
  intros Hs (m & Hm & Hid). destruct w. split; cbn in *; [split_core|done|done].
  - intros id1 o1. rewrite om_get_set. destruct (decide (id = id1)) as [Hd|Hd]; [|by apply ci_registry0].
    intros Heq. injection Heq as <-. exists m. split; congruence.
  - congruence.
Qed.
Lemma works_new_object m w : works w (on_objects (λ l, l ++ [m]) w).
Proof.
  destruct w. split; cbn; [split_core|done|done].
  intros id o Ho. destruct (ci_registry0 id o Ho) as (m' & Hm & Hid). exists m'. split; [|done].
  by apply lookup_app_l_Some.
Qed.
Lemma works_connect identity client w : works w (connect identity client w).1.
Proof.
  unfold connect. cbn [fst]. set (m := mkManaged _ _ _ _).
  set (w1 := on_objects _ w). assert (works w w1) as H1 by apply works_new_object.
  assert (is_down (sc_state w) = false → works w1 (on_registry (om_set (ai_id identity) (length (sc_objects w))) w1)) as H2.
  { intros Hs. apply works_register; [by rewrite (wk_state _ _ H1)|]. exists m. split; [|done].
    unfold w1. destruct w. cbn. by rewrite lookup_app_r, Nat.sub_diag. }
  destruct (sc_state w) eqn:Hs; try done; (etrans; [exact H1|]; by apply H2).
Qed.
Lemma works_unregister id w : works w (on_registry (om_delete id) w).
Proof.
  destruct w. split; cbn; [split_core|done|done].
  - intros id' o. rewrite om_get_delete. destruct (decide _); [done|auto].
  - intros Hs. rewrite ci_down0 by done. done.
Qed.
Lemma works_detach id w : works w (detachManagedIdentity id w).
Proof.
  unfold detachManagedIdentity. etrans; [|apply works_unregister].
  assert (∀ h, tracked w h → tracked (on_streams (List.filter (λ s, negb (bool_decide (st_identityId s = id))))
            (abort (map st_handle (List.filter (λ s, bool_decide (st_identityId s = id)) (sc_streams w))) w)) h) as Ht.
  { intros h. destruct w. unfold tracked. cbn. rewrite elem_of_app.
    intros [(s & -> & Hs)%list_elem_of_fmap|Ha]; [|by right; left].
    destruct (decide (st_identityId s = id)) as [Hd|Hd]; [right; right|left];
      apply (list_elem_of_fmap_2 st_handle); apply elem_of_lfilter; (split; [done|]).
    - by rewrite bool_decide_true. - by rewrite bool_decide_false. }
  split; [|by destruct w|done].
  intros Hi. destruct w. destruct Hi. split; cbn in *; auto. intros h c Hc. apply Ht. eauto.
Qed.
#[local] Hint Resolve good_statement good_create good_setInboxId good_remove works_connect works_detach
  works_add_groups good_open_stream good_call good_run_now : core_db.
Lemma good_open_streams id client o : good (open_streams id client o).
Proof.
  apply good_on_ok; [by apply good_call|]. intros _. apply good_on_ok; [by apply good_call|].
  intros groups w. split; [apply works_add_groups|]. by repeat apply good_open_stream.
Qed.
Lemma good_hydrate identity b : good (hydrateIdentity identity b).
Proof.
  apply good_or_fail; [by apply good_call|]. intros k1. apply good_or_fail; [by apply good_call|]. intros k2.
  apply good_on_ok; [by apply good_call|]. intros client. apply good_try; [destruct (_ || _); [apply good_setInboxId|done]|].
  intros [i|e]; [|done]. intros w. split; [apply works_connect|].
  destruct (_ : bool); [|done]. by apply good_on_ok; [apply good_open_streams|].
Qed.
Lemma good_hydrate_all l : good (hydrate_all l).
Proof. induction l as [|i l IH]; [done|]. by apply good_on_ok; [apply good_hydrate|]. Qed.
Lemma good_start_work : good start_work.
Proof. apply good_try; [apply good_statement|]. apply good_hydrate_all. Qed.
Lemma good_detach id : good (detach_call id).
Proof. apply good_run_now. intros w. apply works_detach. Qed.
Lemma good_undo {B} id e : good (@undo_registration B id e).
Proof. apply good_try; [apply good_detach|]. intros _. by apply good_try; [apply good_remove|]. Qed.
Lemma good_while_up {B} what (k : CP (res B)) : good k → good (while_up what k).
Proof. intros Hk w. split; [done|]. by destruct (sc_state w). Qed.
Lemma good_register fresh input : good (registerManagedIdentity fresh input).
Proof.
  apply good_while_up, good_on_ok; [apply good_create|]. intros created.
  apply good_try; [apply good_hydrate|]. intros [c|e]; [|apply good_undo].
  intros x. split; [|done]. apply good_try; [by apply good_call|]. intros [key|e]; [done|apply good_undo].
Qed.
Lemma good_attach id : good (attachPersistedIdentity id).
Proof.
  apply good_while_up. intros w. split; [done|]. cbn [fst snd]. destruct (om_has _ _); [done|].
  apply good_try; [apply good_statement|]. intros [i|]; [|done].
  apply good_try; [apply good_hydrate|]. intros [c|e]; [done|]. by apply good_try; [apply good_detach|].
Qed.

(** ** The system of jobs

    Every interleaving of jobs keeps the invariant.  A start in progress is a
    suspended program [bind q (finish fallback)]: the state is ["starting"]
    exactly as long as there is one. *)
Inductive edge : SignetState → SignetState → Prop :=
  | e_stay s : edge s s
  | e_local : edge sg_idle sg_local
  | e_start s : s = sg_idle ∨ s = sg_local → edge s sg_starting
  | e_started : edge sg_starting sg_running
  | e_failed s : s = sg_local ∨ s = sg_error → edge sg_starting s
  | e_stop s : s = sg_local ∨ s = sg_running ∨ s = sg_error → edge s sg_stopped.
Definition finish (fallback : SignetState) (r : attempt (res unit)) : CP (res unit) :=
  sync out <- end_start fallback r ;; give out.
Definition under_way (p : CP (res unit)) : Prop :=
  ∃ q fallback, p = bind q (finish fallback) ∧ good q ∧ ended q = false ∧
    (fallback = sg_local ∨ fallback = sg_error).

Lemma outside_works w w' : outside w w' → works w w'.
Proof.
  intros Ho. destruct Ho as [n Hn|f Hf|h c msg Hc Ha|h id g name Hc Ha|h dm p Hc Ha|Hh|Hl|hd|hd|o gs|g|id].
  - destruct w. split; cbn; [split_core|done|done].
  - apply works_table.
  - apply works_emit.
  - unfold deliver_group. etrans; [|apply works_emit]. destruct (om_get _ _); [apply works_add_groups|done].
  - apply works_emit.
  - apply works_emit.
  - apply works_emit.
  - destruct w. split; cbn; [split_core|done|done].
  - destruct w. split; cbn; [split_core|done|done].
  - apply works_add_groups.
  - unfold forgetGroup. destruct (object_for_group g w); [by apply works_alter|done].
  - apply works_unregister.
Qed.
Lemma tracked_abort_all w h : tracked (abort_all w) h ↔ tracked w h.
Proof.
  destruct w. unfold tracked. cbn. rewrite elem_of_app. split; [|tauto].
  intros [[]%elem_of_nil|[?|?]]; [by right|by left].
Qed.
Lemma reset_fields w :
  sc_state (resetStartupArtifacts w) = sc_state w ∧ sc_open (resetStartupArtifacts w) = sc_open w ∧
  sc_registry (resetStartupArtifacts w) = [] ∧ sc_streams (resetStartupArtifacts w) = [] ∧
  sc_heartbeat (resetStartupArtifacts w) = false ∧ sc_liveness (resetStartupArtifacts w) = false ∧
  sc_consumers (resetStartupArtifacts w) = sc_consumers w ∧
  ∀ h, tracked w h → h ∈ sc_aborted (resetStartupArtifacts w).
Proof.
  destruct w. split_and!; try done. intros h. unfold tracked. cbn. rewrite elem_of_app. tauto.
Qed.
Lemma end_start_keeps fallback r w :
  core_inv w → sc_state w = sg_starting → fallback = sg_local ∨ fallback = sg_error →
  core_inv (end_start fallback r w).1 ∧ (∀ h, tracked w h → tracked (end_start fallback r w).1 h) ∧
  (sc_state (end_start fallback r w).1 = sg_running ∨ sc_state (end_start fallback r w).1 = fallback).
Proof.
  intros Hi Hs Hf.
  assert (core_inv (failStart fallback w) ∧ (∀ h, tracked w h → tracked (failStart fallback w) h) ∧
    sc_state (failStart fallback w) = fallback) as (HF1 & HF2 & HF3).
  { assert (∀ h, tracked w h → tracked (failStart fallback w) h) as Ht.
    { intros h Hh. right. destruct w. unfold tracked in Hh. cbn in *. rewrite elem_of_app. tauto. }
    split_and!; [|done|by destruct w].
    destruct w. destruct Hi. cbn in *. split; cbn; [..|intros h c Hc; apply Ht; by eapply ci_consumers0];
      destruct Hf; subst; done. }
  destruct r as [[[]|e]|cause]; cbn [end_start fst]; [|by auto..].
  destruct w. destruct Hi. cbn in *. subst. split_and!; [|done|by left]. by split; cbn.
Qed.
Lemma start_runs fallback q w :
  good q → core_inv w → sc_state w = sg_starting → fallback = sg_local ∨ fallback = sg_error →
  let r := settle w (bind q (finish fallback)) in
  core_inv r.1 ∧ (∀ h, tracked (settle w q).1 h → tracked r.1 h) ∧ (∀ h, tracked w h → tracked r.1 h) ∧
  ((ended r.2 = true ∧ (sc_state r.1 = sg_running ∨ sc_state r.1 = fallback)) ∨
   (sc_state r.1 = sg_starting ∧ ended r.2 = false ∧ under_way r.2)).
Proof.
  intros Hq Hi Hs Hf. cbn zeta. rewrite settle_bind.
  destruct (good_settle q w Hq) as [[W1 W2 W3] Hq']. pose proof (settle_done w q) as Hd.
  destruct (settle w q) as [w1 [r|X e k|X f k]]; cbn [fst snd] in *; [| |done].
  - cbn [finish settle fst snd].
    destruct (end_start_keeps fallback r w1) as (E1 & E2 & E3); [by apply W1|congruence|done|].
    split_and!; auto.
  - split_and!; auto. right. split_and!; [congruence|done|]. exists (Await e k), fallback. by split_and!.
Qed.

Definition start_suspended (s : Sys SignetCore seff Job (attempt (res unit))) (i : nat) : Prop :=
  ∃ w0 p, s_jobs s !! i = Some (JStart, w0, p) ∧ ended p = false.
Record sys_inv (s : Sys SignetCore seff Job (attempt (res unit))) : Prop := {
  si_core : core_inv (s_world s);
  si_start : ∀ i w0 p, s_jobs s !! i = Some (JStart, w0, p) → ended p = false →
    sc_state (s_world s) = sg_starting ∧ under_way p;
  si_one : ∀ i i', start_suspended s i → start_suspended s i' → i = i';
  si_some : sc_state (s_world s) = sg_starting → ∃ i, start_suspended s i;
  si_good : ∀ i j w0 p, s_jobs s !! i = Some (j, w0, p) → j ≠ JStart → good p;
  si_opened : ∀ i ev h, (i, inr ev) ∈ s_log s → opened (ev_eff ev) (ev_answer ev) = Some h →
    tracked (s_world s) h
}.
(** What happens to the world and a job that runs up to its next await;
    [holder]: the job is the start that was in progress. *)
Record ran (j : Job) (holder : bool) (w : SignetCore) (r : SignetCore * CP (res unit)) : Prop := {
  rn_core : core_inv r.1;
  rn_tracked : ∀ h, tracked w h → tracked r.1 h;
  rn_edge : edge (sc_state w) (sc_state r.1);
  rn_good : j ≠ JStart → good r.2;
  rn_start : j = JStart → ended r.2 = false → sc_state r.1 = sg_starting ∧ under_way r.2;
  rn_keep : holder = false → sc_state w = sg_starting →
    sc_state r.1 = sg_starting ∧ (j = JStart → ended r.2 = true);
  rn_done : sc_state r.1 = sg_starting →
    (sc_state w = sg_starting ∧ holder = false) ∨ (j = JStart ∧ ended r.2 = false)
}.
Lemma good_runs j w (p : CP (res unit)) : j ≠ JStart → good p → core_inv w → ran j false w (settle w p).
Proof.
  intros Hj Hp Hi. destruct (good_settle p w Hp) as [[W1 W2 W3] Hg].
  split; [auto|done|by rewrite W2; constructor|done|done|by rewrite W2|rewrite W2; auto].
Qed.
Lemma idle_runs j w r : core_inv w → ran j false w (w, @give (res unit) r).
Proof. intros Hi. split; try done; [constructor|auto]. Qed.
Lemma state_runs j w w' r (edge_ok : edge (sc_state w) (sc_state w')) :
  sc_state w' ≠ sg_starting → sc_state w ≠ sg_starting → core_inv w' → (∀ h, tracked w h → tracked w' h) →
  ran j false w (w', @give (res unit) r).
Proof. intros Hs Hs' Hi Ht. split; cbn; try done. Qed.
(** A stop is refused, or takes effect. *)
Definition stops (s : SignetState) : bool := match s with sg_local | sg_running | sg_error => true | _ => false end.
Record stopped_from (w w' : SignetCore) : Prop := {
  sf_state : sc_state w' = sg_stopped; sf_open : sc_open w' = false; sf_registry : sc_registry w' = [];
  sf_streams : sc_streams w' = []; sf_heartbeat : sc_heartbeat w' = false; sf_liveness : sc_liveness w' = false;
  sf_consumers : sc_consumers w' = sc_consumers w; sf_aborted : ∀ h, tracked w h → h ∈ sc_aborted w'
}.
Lemma stop_spec w :
  if stops (sc_state w) then stopped_from w (stop w).1 ∧ (stop w).2 = Ok tt
  else (stop w).1 = w ∧ ∃ e, (stop w).2 = Err e.
Proof.
  unfold stop. destruct (sc_state w); cbn [stops fst snd]; try by eauto.
  all: split; [|done]; destruct (bool_decide _); destruct w; split; try done;
    intros h; unfold tracked; cbn; rewrite elem_of_app; tauto.
Qed.
Lemma stopped_inv w w' : core_inv w → stopped_from w w' → core_inv w' ∧ ∀ h, tracked w h → tracked w' h.
Proof.
  intros Hi [S1 S2 S3 S4 S5 S6 S7 S8].
  assert (∀ h, tracked w h → tracked w' h) as Ht by (intros h Hh; right; auto).
  split; [|done]. split; rewrite ?S1, ?S2, ?S3, ?S5, ?S6, ?S7; try done.
  intros h c Hc. eapply Ht, ci_consumers; eauto.
Qed.
Lemma stop_runs w r : core_inv w → ran JStop false w ((stop w).1, @give (res unit) r).
Proof.
  intros Hi. pose proof (stop_spec w) as Hs. destruct (stops (sc_state w)) eqn:Hst.
  - destruct Hs as [Hs _]. destruct (stopped_inv w _ Hi Hs) as [Hc Ht].
    apply state_runs; rewrite ?(sf_state _ _ Hs); try done; [|by intros He; rewrite He in Hst].
    constructor. destruct (sc_state w); try done; tauto.
  - destruct Hs as [-> _]. by apply idle_runs.
Qed.
Lemma startLocal_runs w r : core_inv w → ran JStartLocal false w ((startLocal w).1, @give (res unit) r).
Proof.
  intros Hi. unfold startLocal. destruct (sc_state w) eqn:Hs; cbn [fst]; try by apply idle_runs.
  destruct w. destruct Hi. cbn in *. subst. apply state_runs; cbn; [constructor|done|done|by split; cbn|done].
Qed.
Lemma begin_start_keeps w fallback : core_inv w → (begin_start w).2 = Ok fallback →
  core_inv (begin_start w).1 ∧ sc_state (begin_start w).1 = sg_starting ∧
  (fallback = sg_local ∨ fallback = sg_error) ∧ (sc_state w = sg_idle ∨ sc_state w = sg_local) ∧
  ∀ h, tracked w h → tracked (begin_start w).1 h.
Proof.
  unfold begin_start. intros Hi. destruct (sc_state w) eqn:Hs; cbn; try done; intros [= <-].
  all: destruct w; destruct Hi; cbn in *; subst;
    split_and!; [by split|done|tauto|tauto|done].
Qed.
Lemma start_spawns w : core_inv w → ran JStart false w (settle w (job JStart)).
Proof.
  intros Hi. cbn [job]. unfold start. cbn [settle].
  destruct (begin_start w).2 as [fallback|e] eqn:Hb; cycle 1.
  { cbn [give settle]. assert ((begin_start w).1 = w) as -> by (unfold begin_start in *; by destruct (sc_state w)).
    by apply idle_runs. }
  destruct (begin_start_keeps w fallback Hi Hb) as (B1 & B2 & B3 & B4 & B5).
  destruct (start_runs fallback start_work (begin_start w).1 good_start_work B1 B2 B3) as (S1 & S2 & S3 & S4).
  fold (finish fallback). change (λ r, finish fallback r) with (finish fallback).
  assert (ended (settle (begin_start w).1 (bind start_work (finish fallback))).2 = false) as He by done.
  destruct S4 as [[S4 _]|(S4 & _ & S5)]; [congruence|].
  split; [done|auto|rewrite S4; by constructor|done|done| |by right].
  intros _ Hw. destruct B4; congruence.
Qed.
Lemma job_runs j w : core_inv w → ran j false w (settle w (job j)).
Proof.
  intros Hi. destruct j as [fresh input|id|id| | |].
  - apply good_runs; [done| |done]. by apply good_on_ok; [apply good_register|].
  - apply good_runs; [done|apply good_attach|done].
  - apply good_runs; [done|apply good_detach|done].
  - by apply startLocal_runs.
  - by apply start_spawns.
  - by apply stop_runs.
Qed.
(** A suspended job that is answered. *)
Definition is_start (j : Job) : bool := match j with JStart => true | _ => false end.
Lemma start_or_not j : j = JStart ∨ j ≠ JStart.
Proof. destruct j; (by left) || by right. Qed.
Definition answers_ok (j : Job) (w : SignetCore) (p : CP (res unit)) : Prop :=
  match p with
  | Await e k => ∀ x, ran j (is_start j) w (settle w (k x)) ∧
      ∀ h, opened e x = Some h → tracked (settle w (k x)).1 h
  | _ => True
  end.
Lemma answer_runs s i j w0 p : sys_inv s → s_jobs s !! i = Some (j, w0, p) → answers_ok j (s_world s) p.
Proof.
  intros Hs Hj. pose proof (si_core s Hs) as Hi. destruct (start_or_not j) as [->|Hne].
  - destruct (ended p) eqn:Hend; [by destruct p|].
    destruct (si_start s Hs _ _ _ Hj Hend) as (Hst & q & fallback & -> & Hq & He & Hf).
    set (w := s_world s) in *. destruct q as [a|Y e' k'|Y f k']; [done| |done]. cbn [bind answers_ok]. intros x.
    destruct (Hq x) as [Hq1 Hq2].
    destruct (start_runs fallback (k' x) w Hq1 Hi Hst Hf) as (S1 & S2 & S3 & S4). split; [|auto].
    assert (sc_state (settle w (bind (k' x) (finish fallback))).1 = sg_starting →
      ended (settle w (bind (k' x) (finish fallback))).2 = false) as Hd.
    { destruct S4 as [[_ Hn]|(_ & He' & _)]; [|done]. destruct Hn, Hf; congruence. }
    split; [done|done| |done| |done|auto].
    + rewrite Hst. destruct S4 as [[_ [->| ->]]|(-> & _)]; constructor; tauto.
    + intros _ He'. destruct S4 as [[S4 _]|(S4 & _ & S5)]; [congruence|done].
  - pose proof (si_good s Hs _ _ _ _ Hj Hne) as Hg. destruct p as [a|Y e k|Y f k]; [done| |done]. intros x.
    destruct (Hg x) as [H1 H2]. split; [|auto].
    replace (is_start j) with false by (by destruct j). by apply good_runs.
Qed.

Abbreviation csystem := (Sys SignetCore seff Job (attempt (res unit))).
Abbreviation cstep := (sys_step job outside).
(** One job [i] moves from [w] to [r]; the others keep their programs. *)
Lemma job_moves (s : csystem) i j holder r log ts :
  sys_inv s → ran j holder (s_world s) r →
  (∀ i', ts !! i' = if decide (i' = i) then Some (j, r.1, r.2) else s_jobs s !! i') →
  (holder = true ↔ start_suspended s i) → (∀ w0 p, s_jobs s !! i = Some (JStart, w0, p) → j = JStart) →
  (∀ i' ev h, (i', inr ev) ∈ log → opened (ev_eff ev) (ev_answer ev) = Some h → tracked r.1 h) →
  sys_inv (mkSys r.1 log ts).
Proof.
  intros Hs [R1 R2 R3 R4 R5 R6 R7] Hts Hh Hsame Hlog.
  assert (∀ i', start_suspended (mkSys r.1 log ts) i' →
    (i' = i ∧ j = JStart ∧ ended r.2 = false) ∨ (i' ≠ i ∧ start_suspended s i')) as Hsusp.
  { intros i' (w0 & p & Hj & He). cbn in Hj. rewrite Hts in Hj. destruct (decide (i' = i)) as [->|Hne].
    - injection Hj as -> <- <-. by left.
    - right. split; [done|]. by exists w0, p. }
  assert (∀ i', i' ≠ i → start_suspended s i' → sc_state r.1 = sg_starting ∧ (j = JStart → ended r.2 = true)) as Hother.
  { intros i' Hne Hsi. apply R6.
    - destruct holder; [|done]. destruct Hne. apply (si_one s Hs); [done|]. by apply Hh.
    - destruct Hsi as (w0 & p & Hj & He). by destruct (si_start s Hs _ _ _ Hj He). }
  split; cbn.
  - done.
  - intros i' w0 p Hj He. rewrite Hts in Hj. destruct (decide (i' = i)) as [->|Hne].
    + injection Hj as -> <- <-. auto.
    + destruct (si_start s Hs _ _ _ Hj He) as [_ Hu]. split; [|done]. eapply Hother; [done|by exists w0, p].
  - intros i1 i2 [(-> & Hj1 & He1)|[Hn1 Hs1]]%Hsusp [(-> & Hj2 & He2)|[Hn2 Hs2]]%Hsusp; [done| | |by apply (si_one s Hs)].
    + destruct (Hother _ Hn2 Hs2) as [_ He]. specialize (He Hj1). congruence.
    + destruct (Hother _ Hn1 Hs1) as [_ He]. specialize (He Hj2). congruence.
  - intros Hst. destruct (R7 Hst) as [[Hw Hf]|[-> He]].
    + destruct (si_some s Hs Hw) as (i' & w0 & p & Hj & He). exists i', w0, p. cbn. rewrite Hts.
      rewrite decide_False; [done|]. intros ->. subst holder.
      assert (false = true) by (apply Hh; by exists w0, p). done.
    + exists i, r.1, r.2. cbn. by rewrite Hts, decide_True.
  - intros i' j' w0 p Hj Hne. rewrite Hts in Hj. destruct (decide (i' = i)) as [->|Hn].
    + injection Hj as <- <- <-. auto.
    + by eapply (si_good s Hs).
  - done.
Qed.
Lemma core_step_inv s s' : sys_inv s → cstep s s' →
  sys_inv s' ∧ edge (sc_state (s_world s)) (sc_state (s_world s')) ∧ ∀ h, tracked (s_world s) h → tracked (s_world s') h.
Proof.
  intros Hs Hst. destruct Hst as [w L ts j|w L ts i j w0 X e k x Hi|w w' L ts He].
  - pose proof (job_runs j w (si_core _ Hs)) as R. split; [|split; [apply R|apply R]].
    eapply (job_moves _ (length ts) j false); [exact Hs|exact R| | | |]; cbn.
    + intros i'. destruct (decide (i' = length ts)) as [->|Hne]; [by rewrite lookup_app_r, Nat.sub_diag|].
      destruct (decide (i' < length ts)%nat); [by rewrite lookup_app_l|].
      rewrite !lookup_ge_None_2; [done|lia|rewrite length_app; cbn; lia].
    + split; [done|]. intros (w0 & p & Hj & _). cbn in Hj. apply lookup_lt_Some in Hj. lia.
    + intros w0 p Hj. apply lookup_lt_Some in Hj. lia.
    + intros i' ev h [Hin|Hin%list_elem_of_singleton]%elem_of_app; [|done]. intros Ho.
      eapply (rn_tracked _ _ _ _ R), (si_opened _ Hs); eauto.
  - destruct (answer_runs _ _ _ _ _ Hs Hi x) as [R Ht]. cbn in R, Ht. split; [|split; [apply R|apply R]].
    eapply (job_moves _ i j (is_start j)); [exact Hs|exact R| | | |]; cbn.
    + intros i'. destruct (decide (i' = i)) as [->|Hne].
      * rewrite list_lookup_insert_eq; [done|]. by eapply lookup_lt_Some.
      * by rewrite list_lookup_insert_ne.
    + split.
      * intros Hj. exists w0, (Await e k). by destruct j.
      * intros (w1 & p & Hj & _). cbn in Hj. rewrite Hi in Hj. by injection Hj as -> _ _.
    + intros w1 p Hj. rewrite Hi in Hj. by injection Hj as -> _ _.
    + intros i' ev h [Hin|Hin%list_elem_of_singleton]%elem_of_app Ho.
      * eapply (rn_tracked _ _ _ _ R), (si_opened _ Hs); eauto.
      * injection Hin as -> ->. by apply Ht.
  - destruct (outside_works w w' He) as [W1 W2 W3]. split; [|split; [cbn; rewrite W2; constructor|done]].
    destruct Hs as [S1 S2 S3 S4 S5 S6]. split; cbn in *; [auto|rewrite W2; exact S2|exact S3|rewrite W2; exact S4|exact S5|].
    intros i' ev h Hin Ho. eapply W3, S6; eauto.
Qed.

Lemma new_core_inv now t : sys_inv (mkSys (new_core now t) [] []).
Proof.
  split; cbn; try done.
  - split; cbn; try done. by intros h c ?%not_elem_of_nil.
  - by intros i i' (w0 & p & Hj & _).
  - by intros i ev h ?%not_elem_of_nil.
Qed.
Lemma reach_inv s s' : rtc cstep s s' → sys_inv s → sys_inv s'.
Proof. intros Hr. induction Hr as [s|s1 s2 s3 Hst _ IH]; [done|]. intros Hi. apply IH. by eapply core_step_inv. Qed.

(** *** After a stop *)
Record quiet (em : list (CoreRawEvent * list nat)) (w : SignetCore) : Prop := {
  qt_inv : core_inv w; qt_state : sc_state w = sg_stopped; qt_streams : sc_streams w = [];
  qt_emitted : sc_emitted w = em
}.
Definition tame (p : CP (res unit)) : Prop :=
  match p with Ret _ => True | Await e k => ∀ x, ended (k x) = true | Sync _ _ => False end.
Lemma quiet_registry em w : quiet em w → sc_registry w = [].
Proof. intros Hq. apply (ci_down w (qt_inv em w Hq)). by rewrite (qt_state em w Hq). Qed.
Lemma down_refuses w j : sc_state w = sg_stopped ∨ sc_state w = sg_stopping → (∀ id, j ≠ JDetach id) →
  ∃ e, settle w (job j) = (w, give (Err e)).
Proof.
  intros [Hs|Hs] Hj; (destruct j as [fresh input|id|id| | |]; [| |by destruct (Hj id)|..]); eexists; cbn [job].
  all: cbn; unfold startLocal, begin_start, stop; rewrite Hs; done.
Qed.
Lemma quiet_refuses em w j : quiet em w → (∀ id, j ≠ JDetach id) → ∃ e, settle w (job j) = (w, give (Err e)).
Proof. intros Hq. apply down_refuses. left. apply (qt_state em w Hq). Qed.
Lemma quiet_spawn em w j : quiet em w → quiet em (settle w (job j)).1 ∧ tame (settle w (job j)).2.
Proof.
  intros Hq. destruct (match j with JDetach _ => true | _ => false end) eqn:Hd.
  - destruct j as [| |id| | |]; try done. split; [|done]. cbn [job detach_call run_now settle fst].
    pose proof (works_detach id w) as [W1 W2 _]. destruct Hq as [Q1 Q2 Q3 Q4]. destruct w. cbn in *. subst.
    split; auto.
  - destruct (quiet_refuses em w j Hq) as (e & ->); [intros id ->; done|done].
Qed.
Lemma quiet_outside em w w' : quiet em w → outside w w' → quiet em w'.
Proof.
  intros Hq Ho. pose proof (quiet_registry em w Hq) as Hr. destruct (outside_works w w' Ho) as [W1 W2 _].
  assert (∀ h c, (h, c) ∈ sc_consumers w → h ∈ sc_aborted w) as Hab.
  { intros h c Hc. destruct (ci_consumers w (qt_inv em w Hq) h c Hc) as [Hin|]; [|done].
    rewrite (qt_streams em w Hq) in Hin. by apply elem_of_nil in Hin. }
  destruct Hq as [Q1 Q2 Q3 Q4].
  pose proof (ci_heartbeat w Q1) as Hb. pose proof (ci_liveness w Q1) as Hl. pose proof (ci_open w Q1) as Hop.
  rewrite Q2 in Hb, Hl, Hop. change (sc_heartbeat w = false) in Hb. change (sc_liveness w = false) in Hl.
  change (sc_open w = false) in Hop.
  destruct Ho as [n Hn|f Hf|h c msg Hc Ha|h id g name Hc Ha|h dm p Hc Ha|Hh|Hl'|hd|hd|o gs|g|id];
    try (by destruct (Ha (Hab _ _ Hc))); try congruence;
    try (split; [by apply W1|by rewrite W2|destruct w; exact Q3|destruct w; exact Q4]).
  unfold forgetGroup, object_for_group. rewrite Hr. by split.
Qed.
Lemma quiet_stays em (s s' : csystem) : rtc cstep s s' → quiet em (s_world s) →
  (∀ i t, s_jobs s !! i = Some t → tame t.2) → quiet em (s_world s').
Proof.
  intros Hr. induction Hr as [s|s1 s2 s3 Hst _ IH]; [done|]. intros Hq Ht. apply IH; destruct Hst as [w L ts j|w L ts i j w0 X e k x Hi|w w' L ts He]; cbn in *.
  - by apply quiet_spawn.
  - pose proof (Ht _ _ Hi x) as He. cbn in He. by destruct (k x).
  - by eapply quiet_outside.
  - intros i t [Hl|[_ Hl]]%lookup_app_Some; [by eapply Ht|].
    apply list_lookup_singleton_Some in Hl as [_ <-]. cbn. by eapply quiet_spawn.
  - intros i' t Hl. pose proof (Ht _ _ Hi x) as He. cbn in He. destruct (decide (i = i')) as [<-|Hne].
    + rewrite list_lookup_insert_eq in Hl by (by eapply lookup_lt_Some). injection Hl as <-. by destruct (k x).
    + rewrite list_lookup_insert_ne in Hl by done. by eapply Ht.
  - done.
Qed.

(** C22: The life cycle, under every interleaving of jobs with the rest of the
    daemon, taken whenever the core is waiting or idle: the two timers run
    exactly in state ["running"]; the registry is empty in ["idle"], ["error"]
    and ["stopped"], and maps each identity to a client of that identity; the
    state is ["starting"] exactly while one start is in progress, and there is
    never a second; every stream a client ever opened has been aborted or is
    still on the core's list, which a detach, a failed start and a stop abort
    (a stream that opens after the last stop stays on it, see [late_stream]);
    and a step changes the state only along the edges of the state machine.
    The state is never ["stopping"] then: a stop passes through it, and the
    subscribers it calls meanwhile find the timers off, every stream on the
    list aborted and the registry as it was, and have every call but a detach
    refused. *)
Theorem core_lifecycle now t s : rtc cstep (mkSys (new_core now t) [] []) s →
  let w := s_world s in
  (sc_heartbeat w = true ↔ sc_state w = sg_running) ∧ (sc_liveness w = true ↔ sc_state w = sg_running) ∧
  (is_down (sc_state w) = true → sc_registry w = []) ∧
  (∀ id o, om_get id (sc_registry w) = Some o → ∃ m, sc_objects w !! o = Some m ∧ mc_identityId m = id) ∧
  (sc_state w = sg_starting ↔ ∃ i, start_suspended s i) ∧
  (∀ i i', start_suspended s i → start_suspended s i' → i = i') ∧
  (∀ i ev h, (i, inr ev) ∈ s_log s → opened (ev_eff ev) (ev_answer ev) = Some h → tracked w h) ∧
  (∀ s', cstep s s' → edge (sc_state w) (sc_state (s_world s'))) ∧
  sc_state w ≠ sg_stopping ∧
  (stops (sc_state w) = true → let m := winding_down w in
    sc_state m = sg_stopping ∧ sc_heartbeat m = false ∧ sc_liveness m = false ∧ sc_streams m = [] ∧
    (∀ h, h ∈ map st_handle (sc_streams w) → h ∈ sc_aborted m) ∧ sc_registry m = sc_registry w ∧
    ∀ j, (∀ id, j ≠ JDetach id) → ∃ e, settle m (job j) = (m, give (Err e))).
Proof.
  intros Hr. pose proof (reach_inv _ _ Hr (new_core_inv now t)) as Hs. destruct (si_core s Hs) as [C1 C2 C3 C4 C5 C6 C7].
  cbn zeta. rewrite C1, C2, !bool_decide_eq_true. split_and!; try done; [|apply Hs..| |].
  - split; [apply (si_some s Hs)|]. intros (i & w0 & p & Hj & He). by destruct (si_start s Hs _ _ _ Hj He).
  - intros s' Hst. by destruct (core_step_inv s s' Hs Hst) as (_ & ? & _).
  - intros _. assert (sc_state (winding_down (s_world s)) = sg_stopping) as Hm by by destruct (s_world s).
    split_and!; [done|by destruct (s_world s)..| |by destruct (s_world s)|intros j Hj; apply down_refuses; [by right|done]].
    intros h Hh. destruct (s_world s). cbn in *. apply elem_of_app. by right.
Qed.
(** C25: A stop at a moment when no job is waiting is final and silences the
    core: whatever is called and happens afterwards, the state stays
    ["stopped"], no client is registered, no stream is open, both timers are
    off, no raw event is emitted any more, and each further call to register,
    attach, start or stop is refused at once. *)
Theorem stop_silences now t s s1 s2 :
  rtc cstep (mkSys (new_core now t) [] []) s → (∀ i x, s_jobs s !! i = Some x → ended x.2 = true) →
  stops (sc_state (s_world s)) = true →
  s1 = mkSys (settle (s_world s) (job JStop)).1 (s_log s ++ [(length (s_jobs s), inl JStop)])
         (s_jobs s ++ [(JStop, (settle (s_world s) (job JStop)).1, (settle (s_world s) (job JStop)).2)]) →
  rtc cstep s1 s2 →
  let w := s_world s2 in
  sc_state w = sg_stopped ∧ sc_registry w = [] ∧ sc_streams w = [] ∧ sc_heartbeat w = false ∧
  sc_liveness w = false ∧ sc_emitted w = sc_emitted (s_world s1) ∧
  ∀ j, (∀ id, j ≠ JDetach id) → ∃ e, settle w (job j) = (w, give (Err e)).
Proof.
  intros Hr Hend Hst -> Hr2. pose proof (reach_inv _ _ Hr (new_core_inv now t)) as Hs.
  pose proof (stop_spec (s_world s)) as Hsp. rewrite Hst in Hsp. destruct Hsp as [Hsf Hok].
  destruct (stopped_inv _ _ (si_core s Hs) Hsf) as [Hci _].
  assert (quiet (sc_emitted (stop (s_world s)).1) (s_world s2)) as Hq.
  { eapply quiet_stays; [exact Hr2| |]; cbn.
    - split; [done|apply Hsf..|done].
    - intros i x [Hl|[_ Hl]]%lookup_app_Some.
      + apply Hend in Hl. by destruct x as [[j w0] [a|X e k|X f k]].
      + apply list_lookup_singleton_Some in Hl as [_ <-]. done. }
  cbn zeta. pose proof (quiet_registry _ _ Hq) as Hreg.
  destruct (Hq) as [Q1 Q2 Q3 Q4]. rewrite (ci_heartbeat _ Q1), (ci_liveness _ Q1), Q2. split_and!; try done.
  intros j Hj. by eapply quiet_refuses.
Qed.

(** ** One identity

    [frame id]: what the rest of the daemon leaves alone while a registration
    or a start deals with identity [id]; [advances id]: what the job itself
    keeps. *)
Definition streams_of (id : string) (w : SignetCore) : list nat :=
  map st_handle (List.filter (λ s, bool_decide (st_identityId s = id)) (sc_streams w)).
Definition same_client (m m' : ManagedClient) : Prop :=
  mc_identityId m' = mc_identityId m ∧ mc_inboxId m' = mc_inboxId m ∧ mc_client m' = mc_client m.
Record advances (id : string) (w w' : SignetCore) : Prop := {
  ad_state : sc_state w' = sc_state w;
  ad_open : sc_open w' = sc_open w;
  ad_registry : om_get id (sc_registry w') = om_get id (sc_registry w);
  ad_aborted : ∀ h, h ∈ sc_aborted w → h ∈ sc_aborted w';
  ad_streams : ∀ h, h ∈ streams_of id w → h ∈ streams_of id w';
  ad_objects : ∀ o m, sc_objects w !! o = Some m → ∃ m', sc_objects w' !! o = Some m' ∧ same_client m m'
}.
Record frame (id : string) (w w' : SignetCore) : Prop := {
  fm_advances : advances id w w'; fm_streams : streams_of id w' = streams_of id w
}.
#[export] Instance advances_preorder id : PreOrder (advances id).
Proof.
  split.
  - intros w. split; try done. intros o m Hm. exists m. by split_and!.
  - intros w1 w2 w3 [A1 A2 A3 A4 A5 A6] [B1 B2 B3 B4 B5 B6].
    split; [congruence|congruence|congruence|auto|auto|].
    intros o m Hm. destruct (A6 o m Hm) as (m' & Hm' & H1 & H2 & H3).
    destruct (B6 o m' Hm') as (m2 & Hm2 & H4 & H5 & H6). exists m2. split; [done|]. unfold same_client. split_and!; congruence.
Qed.
#[export] Instance frame_preorder id : PreOrder (frame id).
Proof.
  split; [by split|]. intros w1 w2 w3 [A1 A2] [B1 B2]. split; [by etrans|congruence].
Qed.
Definition opened_in (t : list (event SignetCore seff)) (client : nat) (what : string) (h : nat) : Prop :=
  ∃ w0, Event _ (SCall (CStream client what)) w0 (Returned (Ok h)) ∈ t.
(** Every stream opened in [t] is one of [id]'s, or has been aborted. *)
Definition accounted (id : string) (t : list (event SignetCore seff)) (w : SignetCore) : Prop :=
  ∀ ev h, ev ∈ t → opened (ev_eff ev) (ev_answer ev) = Some h → h ∈ streams_of id w ∨ h ∈ sc_aborted w.
Lemma accounted_advances id t w w' : accounted id t w → advances id w w' → accounted id t w'.
Proof. intros Ha Hw ev h Hev Ho. destruct (Ha ev h Hev Ho); [left; by apply Hw|right; by apply Hw]. Qed.
Lemma accounted_snoc {X} id t w w0 (e : seff X) x :
  accounted id t w → (∀ h, opened e x = Some h → h ∈ streams_of id w ∨ h ∈ sc_aborted w) →
  accounted id (t ++ [Event _ e w0 x]) w.
Proof.
  intros Ha He ev h [Hin|Hin%list_elem_of_singleton]%elem_of_app Ho; [by eapply Ha|]. subst ev. by apply He.
Qed.
Lemma streams_of_track id id' h c w :
  streams_of id' (track id h c w) = streams_of id' w ++ (if bool_decide (id = id') then [h] else []).
Proof.
  destruct w. unfold streams_of. cbn. rewrite List.filter_app, map_app. cbn. by destruct (bool_decide _).
Qed.
Lemma frame_state id w w' : advances id w w' → streams_of id w' = streams_of id w → frame id w w'.
Proof. by split. Qed.
Lemma frame_add_groups id o gs w : frame id w (add_groups o gs w).
Proof.
  destruct w as [? ? ? ? objects]. split; [split|]; try done. cbn. intros o' m Hm. destruct (decide (o = o')) as [->|Hne].
  - rewrite list_lookup_alter_eq, Hm. cbn. eexists. by split.
  - rewrite list_lookup_alter_ne by done. eexists. by split.
Qed.
Lemma advances_track id id' h c w : advances id' w (track id h c w).
Proof.
  assert (∀ h', h' ∈ streams_of id' w → h' ∈ streams_of id' (track id h c w)) as Hs
    by (intros h' Hh; rewrite streams_of_track, elem_of_app; by left).
  destruct w. split; try done. intros o m Hm. exists m. by split_and!.
Qed.
Lemma frame_track_other id id' h c w : id ≠ id' → frame id' w (track id h c w).
Proof.
  intros Hne. split; [apply advances_track|]. rewrite streams_of_track, bool_decide_false by done. by rewrite app_nil_r.
Qed.
Lemma frame_table id f w : frame id w (on_table f w).
Proof. destruct w. split; [split|]; try done. intros o m Hm. exists m. by split_and!. Qed.
Lemma frame_stmt {A} id (f : IdentityTable → IdentityTable * A) w : frame id w (stmt f w).1.
Proof. unfold stmt. destruct (sc_open w); cbn; [apply frame_table|done]. Qed.
Lemma connect_objects identity client w :
  sc_objects (connect identity client w).1 = sc_objects w ++ [mkManaged (ai_id identity) client.2 client.1
    (match truthy_str (ai_groupId identity) with Some g => [g] | None => [] end)].
Proof. unfold connect. cbn [fst]. destruct w as [? st]. cbn. by destruct st. Qed.
Lemma frame_connect id identity client w : ai_id identity ≠ id → frame id w (connect identity client w).1.
Proof.
  intros Hne.
  assert (∀ o m, sc_objects w !! o = Some m →
    ∃ m', sc_objects (connect identity client w).1 !! o = Some m' ∧ same_client m m') as Ho.
  { intros o m Hm. exists m. split; [|done]. rewrite connect_objects. by apply lookup_app_l_Some. }
  unfold connect in *. cbn [fst] in *. destruct w as [? st]. cbn in *.
  destruct st; (split; [split|]; try done); cbn; by rewrite om_get_set_ne.
Qed.
Lemma frame_open_stream {B} id id' client what c (k : CP (res B)) :
  id' ≠ id → syncs_in (frame id) k → syncs_in (frame id) (open_stream id' client what c k).
Proof.
  intros Hne Hk. unfold open_stream, on_ok, bind_try. apply syncs_bind; [done|].
  intros [[h|e]|cause]; [|done|done]. intros w. split; [by apply frame_track_other|done].
Qed.
(** Hydrating one identity leaves the others alone. *)
Lemma frame_hydrate id identity b : ai_id identity ≠ id → syncs_in (frame id) (hydrateIdentity identity b).
Proof.
  intros Hne. unfold hydrateIdentity, or_fail, on_ok, bind_try.
  apply syncs_bind; [done|]. intros [[k1|e]|c]; [|done|done].
  apply syncs_bind; [done|]. intros [[k2|e]|c]; [|done|done].
  apply syncs_bind; [done|]. intros [[client|e]|c]; [|done|done].
  apply syncs_bind.
  { destruct (_ || _); [|done]. intros w. split; [apply frame_stmt|]. cbn [bind syncs_in]. intros _.
    destruct (snd _) as [[i|]|c]; cbn; [|done|done]. intros w'. split; [apply frame_stmt|]. intros _. by destruct (stmt _ w').2. }
  intros [[i|e]|c]; [|done|done]. intros w. split; [by apply frame_connect|].
  destruct (_ : bool); [|done]. apply syncs_bind; [|by intros [[]|]].
  unfold open_streams, on_ok, bind_try. apply syncs_bind; [done|]. intros [[[]|e]|c]; [|done|done].
  apply syncs_bind; [done|]. intros [[groups|e]|c]; [|done|done]. intros w'. split; [apply frame_add_groups|].
  by repeat apply frame_open_stream.
Qed.

Section one_identity.
Context (env : SignetCore → SignetCore → Prop) (id : string).
Hypothesis Hframe : ∀ w w', env w w' → frame id w w'.
Lemma wp_call {A} (e : ceff A) w pre (Q : list (event SignetCore seff) → SignetCore → attempt A → Prop) :
  (∀ w' x, env w w' → Q (pre ++ [Event _ (SCall e) w x]) w' x) → wp env (call e) w pre Q.
Proof. intros HQ w' x Hw. by apply HQ. Qed.
Lemma wp_try {A B} (p : CP A) (k : A → CP B) w pre Q :
  wp env p w pre (λ t w' r, match r with Returned a => wp env (k a) w' t Q | Thrown c => Q t w' (Thrown c) end) →
  wp env (bind_try p k) w pre Q.
Proof. intros Hp. apply wp_bind. eapply wp_mono; [|exact Hp]. by intros t w' []. Qed.
Lemma wp_on_ok {A B} (p : CP (res A)) (k : A → CP (res B)) w pre Q :
  wp env p w pre (λ t w' r, match r with
    | Returned (Ok a) => wp env (k a) w' t Q | Returned (Err e) => Q t w' (Returned (Err e))
    | Thrown c => Q t w' (Thrown c) end) →
  wp env (on_ok p k) w pre Q.
Proof. intros Hp. apply wp_try. eapply wp_mono; [|exact Hp]. by intros t w' [[]|]. Qed.
Lemma wp_or_fail {A B} m (p : CP (res A)) (k : A → CP (res B)) w pre Q :
  wp env p w pre (λ t w' r, match r with
    | Returned (Ok a) => wp env (k a) w' t Q | Returned (Err e) => Q t w' (Returned (Err (InternalError_create m None)))
    | Thrown c => Q t w' (Thrown c) end) →
  wp env (or_fail m p k) w pre Q.
Proof. intros Hp. apply wp_try. eapply wp_mono; [|exact Hp]. by intros t w' [[]|]. Qed.

(** Opening one stream: it is [id]'s from then on. *)
Lemma wp_open_stream {B} client what c (k : CP (res B)) w pre
  (Q : list (event SignetCore seff) → SignetCore → attempt (res B) → Prop) :
  accounted id pre w →
  (∀ t w' r, accounted id t w' → advances id w w' → streams_of id w' = streams_of id w →
     (∀ a, r ≠ Returned (Ok a)) → pre `prefix_of` t → Q t w' r) →
  (∀ t w' h, accounted id t w' → advances id w w' → streams_of id w' = streams_of id w ++ [h] →
     pre `prefix_of` t → opened_in t client what h → wp env k w' t Q) →
  wp env (open_stream id client what c k) w pre Q.
Proof using Hframe.
  intros Hacc Hfail Hk. apply wp_on_ok, wp_call. intros w' x Hw. apply Hframe in Hw as [Hw Hs].
  pose proof (accounted_advances _ _ _ _ Hacc Hw) as Hacc'. set (pre' := pre ++ _).
  assert (pre `prefix_of` pre') as Hp by by apply prefix_app_r.
  destruct x as [[h|e]|cause].
  - cbn [wp fst snd]. apply (Hk pre' _ h).
    + apply accounted_snoc; [eapply accounted_advances; [exact Hacc'|apply advances_track]|].
      cbn. intros h' [= <-]. left. rewrite streams_of_track, bool_decide_true by done. apply elem_of_app. right. by left.
    + etrans; [exact Hw|apply advances_track].
    + by rewrite streams_of_track, bool_decide_true, Hs.
    + done.
    + exists w. apply elem_of_app. right. by left.
  - apply Hfail; [|done..]. by apply accounted_snoc.
  - apply Hfail; [|done..]. by apply accounted_snoc.
Qed.
Definition three_streams (client : nat) (before : list nat) (t : list (event SignetCore seff)) (w : SignetCore) : Prop :=
  ∃ h1 h2 h3, streams_of id w = before ++ [h1; h2; h3] ∧ opened_in t client "messages" h1 ∧
    opened_in t client "groups" h2 ∧ opened_in t client "dms" h3.
Lemma opened_in_prefix t t' client what h : t `prefix_of` t' → opened_in t client what h → opened_in t' client what h.
Proof. intros [k ->] [w0 H0]. exists w0. apply elem_of_app. by left. Qed.
Lemma wp_open_streams client o w pre (Q : list (event SignetCore seff) → SignetCore → attempt (res unit) → Prop) :
  accounted id pre w →
  (∀ t w' r, accounted id t w' → advances id w w' →
     (∀ a, r = Returned (Ok a) → three_streams client (streams_of id w) t w') → Q t w' r) →
  wp env (open_streams id client o) w pre Q.
Proof using Hframe.
  intros Hacc HQ. unfold open_streams. apply wp_on_ok, wp_call. intros w1 x Hw1. apply Hframe in Hw1 as [Hw1 Hs1].
  assert (accounted id (pre ++ [Event _ (SCall (CSyncAll client)) w x]) w1) as Hacc1
    by by apply accounted_snoc; [eapply accounted_advances|].
  destruct x as [[[]|e]|cause]; [|by apply HQ..].
  apply wp_on_ok, wp_call. intros w2 y Hw2. apply Hframe in Hw2 as [Hw2 Hs2]. set (pre1 := pre ++ _) in *.
  assert (accounted id (pre1 ++ [Event _ (SCall (CListGroups client)) w1 y]) w2) as Hacc2
    by by apply accounted_snoc; [eapply accounted_advances|].
  assert (advances id w w2) as Hw by by etrans. assert (streams_of id w2 = streams_of id w) as Hs by congruence.
  clear Hw1 Hw2 Hs1 Hs2 Hacc1. set (pre2 := pre1 ++ _) in *.
  destruct y as [[groups|e]|cause]; [|by apply HQ..]. cbn [wp fst snd].
  destruct (frame_add_groups id o (map xg_groupId groups) w2) as [Hg1 Hg2]. set (w3 := add_groups _ _ _) in *.
  assert (accounted id pre2 w3) as Hacc3 by by eapply accounted_advances.
  assert (advances id w w3) as Hw3 by by etrans. assert (streams_of id w3 = streams_of id w) as Hs3 by congruence.
  apply wp_open_stream; [done| |].
  { intros t w' r Ha Hd _ Hr _. apply HQ; [done|by etrans|]. by intros a ?%Hr. }
  intros t4 w4 h1 Ha4 Hd4 Hst4 Hp4 Ho4. apply wp_open_stream; [done| |].
  { intros t w' r Ha Hd _ Hr _. apply HQ; [done|by do 2 (etrans; [done|])|]. by intros a ?%Hr. }
  intros t5 w5 h2 Ha5 Hd5 Hst5 Hp5 Ho5. apply wp_open_stream; [done| |].
  { intros t w' r Ha Hd _ Hr _. apply HQ; [done|by do 3 (etrans; [done|])|]. by intros a ?%Hr. }
  intros t6 w6 h3 Ha6 Hd6 Hst6 Hp6 Ho6. cbn [wp give]. apply HQ; [done|by do 3 (etrans; [done|])|].
  intros _ _. exists h1, h2, h3. split_and!; [|eapply opened_in_prefix; [|done]..|done].
  - rewrite Hst6, Hst5, Hst4, Hs3, <-!app_assoc. done.
  - by etrans. - done.
Qed.

Definition row_of (w : SignetCore) : option AgentIdentity := is_getById id (sc_table w).
Definition keeps_row : Prop := ∀ w w', env w w' → row_of w' = row_of w.
Lemma is_getById_key i x t : is_getById i t = Some x → ai_id x = i.
Proof. unfold is_getById. pose proof (find_key ai_id i t) as Hf. destruct (List.find _ _); [|done]. intros [= <-]. apply Hf. Qed.
Lemma is_getById_map inbox t x : is_getById id t = Some x →
  is_getById id (map (λ r, if bool_decide (ai_id r = id) then with_inboxId inbox r else r) t) = Some (with_inboxId inbox x).
Proof.
  unfold is_getById. induction t as [|r t IH]; cbn [map List.find]; [done|].
  destruct (bool_decide (ai_id r = id)) eqn:Hr; cbn; rewrite Hr; [by intros [= ->]|done].
Qed.
Lemma is_getById_remove t : is_getById id (List.filter (λ r, negb (bool_decide (ai_id r = id))) t) = None.
Proof.
  unfold is_getById. apply find_key_None. intros x [_ Hx]%elem_of_lfilter. by apply negb_true_iff, bool_decide_eq_false in Hx.
Qed.
Lemma accounted_tick pre w w0 u : accounted id pre w → accounted id (pre ++ [Event _ STick w0 u]) w.
Proof. intros Ha. by apply accounted_snoc. Qed.
(** A statement that reads or writes the table. *)
Lemma wp_statement {A} (f : IdentityTable → IdentityTable * A) w pre
  (Q : list (event SignetCore seff) → SignetCore → attempt A → Prop) :
  sc_open w = true → accounted id pre w →
  (∀ t w', accounted id t w' → frame id w w' →
     (keeps_row → row_of w' = is_getById id (f (sc_table w)).1) → Q t w' (Returned (f (sc_table w)).2)) →
  wp env (statement f) w pre Q.
Proof using Hframe.
  intros Ho Ha HQ. unfold statement. cbn [wp]. unfold stmt. rewrite Ho. cbn [fst snd]. intros w' u Hw.
  pose proof (Hframe _ _ Hw) as Hf.
  assert (frame id w w') as Hf' by (etrans; [apply frame_table|exact Hf]).
  apply HQ; [|done|].
  - apply accounted_tick. eapply accounted_advances; [exact Ha|apply Hf'].
  - intros Hk. rewrite (Hk _ _ Hw). unfold row_of. by destruct w.
Qed.
Lemma wp_setInboxId inbox w pre (Q : list (event SignetCore seff) → SignetCore → attempt (res AgentIdentity) → Prop) :
  sc_open w = true → accounted id pre w →
  (∀ t w' r, accounted id t w' → frame id w w' →
     (keeps_row → ∀ x, row_of w = Some x → ∃ x', row_of w' = Some x' ∧ ai_inboxId x' = Some inbox) →
     Q t w' (Returned r)) →
  wp env (store_setInboxId id inbox) w pre Q.
Proof using Hframe.
  intros Ho Ha HQ. apply wp_try. apply wp_statement; [done..|]. intros t w1 Ha1 Hf1 Hr1. cbn [fst snd] in *.
  destruct (is_getById id (sc_table w)) as [existing|] eqn:Hg.
  - apply wp_try. apply wp_statement; [by rewrite (ad_open _ _ _ (fm_advances _ _ _ Hf1))|done|].
    intros t2 w2 Ha2 Hf2 Hr2. cbn [fst snd wp give] in *. apply HQ; [done|by etrans|].
    intros Hk x Hx. rewrite (Hr2 Hk). exists (with_inboxId inbox existing). split; [|done].
    apply is_getById_map. by apply Hr1.
  - cbn [wp give]. apply HQ; [done..|]. intros Hk x Hx. unfold row_of in Hx. congruence.
Qed.

(** *** Hydrating it *)
Definition connected (client : nat) (inbox : string) (before : list nat) (t : list (event SignetCore seff)) (w : SignetCore) : Prop :=
  (∃ o m, om_get id (sc_registry w) = Some o ∧ sc_objects w !! o = Some m ∧
     mc_identityId m = id ∧ mc_inboxId m = inbox ∧ mc_client m = client) ∧
  match sc_state w with
  | sg_running | sg_starting => three_streams client before t w
  | _ => streams_of id w = before
  end.
Definition is_up (s : SignetState) : bool :=
  match s with sg_running | sg_starting | sg_local => true | _ => false end.
Definition hydrated (b : bool) (w : SignetCore) (t : list (event SignetCore seff)) (w' : SignetCore)
  (r : attempt (res (nat * string))) : Prop :=
  accounted id t w' ∧ sc_state w' = sc_state w ∧ sc_open w' = sc_open w ∧
  (keeps_row → ∀ x, row_of w = Some x → ∃ x', row_of w' = Some x' ∧
     ∀ c, r = Returned (Ok c) → b = true → ai_inboxId x' = Some c.2) ∧
  ∀ c, r = Returned (Ok c) → ∃ client, connected client c.2 (streams_of id w) t w'.
Lemma wp_and {R} (p : prog SignetCore seff R) w pre (Q Q' : list (event SignetCore seff) → SignetCore → R → Prop) :
  wp env p w pre Q → wp env p w pre Q' → wp env p w pre (λ t w' r, Q t w' r ∧ Q' t w' r).
Proof. revert w pre. induction p as [a|X e k IH|X f k IH]; intros w pre; cbn; auto. Qed.
Lemma track_table i h c w : sc_table (track i h c w) = sc_table w.
Proof. by destruct w. Qed.
Lemma add_groups_table o gs w : sc_table (add_groups o gs w) = sc_table w.
Proof. by destruct w. Qed.
Lemma connect_table identity client w : sc_table (connect identity client w).1 = sc_table w.
Proof. unfold connect. cbn [fst]. by destruct w as [? []]. Qed.
Lemma open_streams_row client o w pre :
  wp env (open_streams id client o) w pre (λ _ w' _, keeps_row → row_of w' = row_of w).
Proof using.
  apply (wp_keeps (λ w', keeps_row → row_of w' = row_of w) (λ w1 w2, sc_table w2 = sc_table w1)); [| | |done].
  - intros w1 w2 Hw Hk Hkeep. rewrite (Hkeep _ _ Hw). auto.
  - intros w1 w2 Ht Hk Hkeep. unfold row_of in *. rewrite Ht. auto.
  - assert (∀ {B} what c (k : CP (res B)), syncs_in (λ w1 w2, sc_table w2 = sc_table w1) k →
      syncs_in (λ w1 w2, sc_table w2 = sc_table w1) (open_stream id client what c k)) as Hos.
    { intros B what c k Hk. apply syncs_bind; [done|]. intros [[h|e]|cause]; [|done|done].
      intros w'. split; [apply track_table|done]. }
    apply syncs_bind; [done|]. intros [[[]|e]|c]; [|done|done].
    apply syncs_bind; [done|]. intros [[groups|e]|c]; [|done|done].
    intros w'. split; [apply add_groups_table|]. by repeat apply Hos.
Qed.
Lemma frame_new_object m w : frame id w (on_objects (λ l, l ++ [m]) w).
Proof.
  destruct w. split; [split|]; try done. cbn. intros o m' Hm. exists m'. split; [by apply lookup_app_l_Some|done].
Qed.
Lemma connect_spec identity client w : ai_id identity = id → is_up (sc_state w) = true →
  let w' := (connect identity client w).1 in
  sc_state w' = sc_state w ∧ sc_open w' = sc_open w ∧ streams_of id w' = streams_of id w ∧
  sc_aborted w' = sc_aborted w ∧
  (∃ o m, om_get id (sc_registry w') = Some o ∧ sc_objects w' !! o = Some m ∧
     mc_identityId m = id ∧ mc_inboxId m = client.2 ∧ mc_client m = client.1) ∧
  (connect identity client w).2.2 = match sc_state w with sg_running | sg_starting => true | _ => false end.
Proof.
  intros Hid Hup. cbn zeta. split_and!; try (unfold connect; cbn [fst snd]; destruct w as [? []]; done).
  eexists (length (sc_objects w)), _. split_and!.
  - unfold connect. cbn [fst]. destruct w as [? []]; try done; cbn; rewrite Hid; apply om_get_set_eq.
  - rewrite connect_objects, lookup_app_r, Nat.sub_diag by done. done.
  - done. - done. - done.
Qed.
(** What follows once the inbox is recorded. *)
Definition hydrate_tail (identity : AgentIdentity) (client : nat * string) (set : res AgentIdentity) : CP (res (nat * string)) :=
  match set with
  | Err _ => give (Err (InternalError_create "Failed to persist inbox ID"
               (Some [("identityId", JStr id); ("inboxId", JStr client.2)])))
  | Ok _ =>
      sync object <- connect identity client ;;
      if object.2 then on_ok (open_streams id client.1 object.1) (λ _, give (Ok (object.1, client.2)))
      else give (Ok (object.1, client.2))
  end.
Lemma wp_hydrate_tail identity client set b w0 w pre
  (Q : list (event SignetCore seff) → SignetCore → attempt (res (nat * string)) → Prop) :
  ai_id identity = id → is_up (sc_state w0) = true → accounted id pre w → frame id w0 w →
  (keeps_row → ∀ x, row_of w0 = Some x → ∃ x', row_of w = Some x' ∧ (b = true → ai_inboxId x' = Some client.2)) →
  (∀ t w' r, hydrated b w0 t w' r → Q t w' r) → wp env (hydrate_tail identity client set) w pre Q.
Proof using Hframe.
  intros Hid Hup Ha [[F1 F2 F3 F4 F5 F6] Fs] Hrow HQ. destruct set as [i|e]; cbn [hydrate_tail wp give]; cycle 1.
  { apply HQ. split_and!; [done..| |by intros c].
    intros Hk x Hx. destruct (Hrow Hk x Hx) as (x' & Hx' & _). by exists x'. }
  destruct (connect_spec identity client w Hid) as (C1 & C2 & C3 & C4 & C5 & C6); [by rewrite F1|].
  pose proof (connect_table identity client w) as C7.
  destruct (connect identity client w) as [w1 [o conn]]. cbn [fst snd] in *.
  assert (accounted id pre w1) as Ha1.
  { intros ev h Hev Hop. rewrite C3, C4. by eapply Ha. }
  assert (∀ w2, (keeps_row → row_of w2 = row_of w1) → keeps_row → ∀ x, row_of w0 = Some x →
    ∃ x', row_of w2 = Some x' ∧ (b = true → ai_inboxId x' = Some client.2)) as Hrow1.
  { intros w2 Hr2 Hk x Hx. rewrite (Hr2 Hk). unfold row_of. rewrite C7. exact (Hrow Hk x Hx). }
  destruct conn.
  - apply wp_on_ok. eapply wp_mono; [|apply (wp_and _ _ _ _ _ (wp_open_streams client.1 o w1 pre
      (λ t w' r, accounted id t w' ∧ advances id w1 w' ∧
         ∀ a, r = Returned (Ok a) → three_streams client.1 (streams_of id w1) t w')
      Ha1 (λ t w' r A D S, conj A (conj D S))) (open_streams_row client.1 o w1 pre))].
    intros t w2 r [(A2 & D2 & S2) R2]. pose proof (Hrow1 w2 R2) as Hrow2.
    assert (∀ r', (∀ c, r' ≠ Returned (Ok c)) → Q t w2 r') as Hbad.
    { intros r' Hr'. apply HQ. split_and!; [done|by rewrite (ad_state _ _ _ D2), C1|by rewrite (ad_open _ _ _ D2), C2| |].
      - intros Hk x Hx. destruct (Hrow2 Hk x Hx) as (x' & Hx' & _). exists x'. split; [done|]. by intros c ?%Hr'.
      - by intros c ?%Hr'. }
    destruct r as [[u|e]|cause]; [|by apply Hbad..]. cbn [wp give]. apply HQ.
    split_and!; [done|by rewrite (ad_state _ _ _ D2), C1|by rewrite (ad_open _ _ _ D2), C2| |].
    + intros Hk x Hx. destruct (Hrow2 Hk x Hx) as (x' & Hx' & Hi). exists x'. split; [done|]. by intros c [= <-].
    + intros c [= <-]. exists client.1. cbn [snd]. split.
      * destruct C5 as (o' & m & Ho & Hm & H1 & H2 & H3). destruct (ad_objects _ _ _ D2 o' m Hm) as (m' & Hm' & E1 & E2 & E3).
        exists o', m'. rewrite (ad_registry _ _ _ D2). split_and!; [done|done|congruence..].
      * rewrite (ad_state _ _ _ D2), C1. specialize (S2 u eq_refl). rewrite C3, Fs in S2.
        by destruct (sc_state w).
  - cbn [wp give]. apply HQ. split_and!; [done|congruence|congruence| |].
    + intros Hk x Hx. destruct (Hrow1 w1 (λ _, eq_refl) Hk x Hx) as (x' & Hx' & Hi). exists x'. split; [done|]. by intros c [= <-].
    + intros c [= <-]. exists client.1. cbn [snd]. split; [done|]. rewrite C1, C3. by destruct (sc_state w).
Qed.
Lemma wp_hydrate identity b w pre (Q : list (event SignetCore seff) → SignetCore → attempt (res (nat * string)) → Prop) :
  ai_id identity = id → sc_open w = true → is_up (sc_state w) = true → accounted id pre w →
  (∀ t w' r, hydrated b w t w' r → Q t w' r) → wp env (hydrateIdentity identity b) w pre Q.
Proof using Hframe.
  intros Hid Ho Hup Ha HQ. unfold hydrateIdentity. rewrite Hid.
  (* a step before the client exists *)
  assert (∀ {A} (e : ceff A) t1 w1 w2 x, opens e = false → frame id w1 w2 → accounted id t1 w1 →
    accounted id (t1 ++ [Event _ (SCall e) w1 x]) w2) as Hsnoc.
  { intros A e t1 w1 w2 x He Hf Hacc. apply accounted_snoc; [eapply accounted_advances; [done|apply Hf]|]. by destruct e. }
  assert (∀ t1 w1 r, accounted id t1 w1 → frame id w w1 → (keeps_row → row_of w1 = row_of w) →
    (∀ c, r ≠ Returned (Ok c)) → hydrated b w t1 w1 r) as Hfail.
  { intros t1 w1 r Ha1 [[F1 F2 _ _ _ _] _] Hr1 Hr. split_and!; [done..| |].
    - intros Hk x Hx. exists x. split; [by rewrite Hr1|]. by intros c ?%Hr.
    - by intros c ?%Hr. }
  apply wp_or_fail, wp_call. intros w1 x1 Hw1. pose proof (Hframe _ _ Hw1) as F1.
  assert (keeps_row → row_of w1 = row_of w) as R1 by auto.
  pose proof (Hsnoc _ (CDbKey id) _ _ _ x1 eq_refl F1 Ha) as A1. set (t1 := pre ++ _) in *.
  destruct x1 as [[k1|e]|c]; [|by apply HQ, Hfail..].
  apply wp_or_fail, wp_call. intros w2 x2 Hw2. pose proof (Hframe _ _ Hw2) as F2.
  assert (keeps_row → row_of w2 = row_of w) as R2 by (intros Hk; rewrite (Hk _ _ Hw2); auto).
  pose proof (Hsnoc _ (CIdentityKey id) _ _ _ x2 eq_refl F2 A1) as A2. set (t2 := t1 ++ _) in *.
  assert (frame id w w2) as G2 by by etrans.
  destruct x2 as [[k2|e]|c]; [|by apply HQ, Hfail..].
  apply wp_on_ok, wp_call. intros w3 x3 Hw3. pose proof (Hframe _ _ Hw3) as F3.
  assert (keeps_row → row_of w3 = row_of w) as R3 by (intros Hk; rewrite (Hk _ _ Hw3); auto).
  pose proof (Hsnoc _ (CCreateClient (core_client_options id k1 k2)) _ _ _ x3 eq_refl F3 A2) as A3.
  assert (frame id w w3) as G3 by by etrans. set (t3 := t2 ++ _) in *.
  destruct x3 as [[client|e]|c]; [|by apply HQ, Hfail..].
  clear Hw1 Hw2 Hw3 F1 F2 F3 R1 R2 A1 A2 G2.
  assert (∀ t4 w4 r, accounted id t4 w4 → frame id w w4 →
    (keeps_row → ∀ x, row_of w = Some x → ∃ x', row_of w4 = Some x' ∧ (b = true → ai_inboxId x' = Some client.2)) →
    wp env (hydrate_tail identity client r) w4 t4 Q) as Htail.
  { intros t4 w4 r A4 G4 R4. by apply (wp_hydrate_tail identity client r b w). }
  apply wp_try. destruct (b || bool_decide (ai_inboxId identity = None)) eqn:Hb.
  - apply wp_setInboxId; [by rewrite (ad_open _ _ _ (fm_advances _ _ _ G3))|done|].
    intros t4 w4 r A4 F4 R4. apply Htail; [done|by etrans|]. intros Hk x Hx. destruct (R4 Hk x) as (x' & Hx' & Hi).
    { by rewrite (R3 Hk). } by exists x'.
  - apply (Htail t3 w3 (Ok identity)); [done..|]. intros Hk x Hx. exists x. split; [by rewrite (R3 Hk)|].
    intros ->. done.
Qed.

(** *** Registering it *)
Definition gone (t : list (event SignetCore seff)) (w : SignetCore) : Prop :=
  row_of w = None ∧ om_get id (sc_registry w) = None ∧ streams_of id w = [] ∧
  ∀ ev h, ev ∈ t → opened (ev_eff ev) (ev_answer ev) = Some h → h ∈ sc_aborted w.
Lemma detach_spec w pre : accounted id pre w →
  let w' := detachManagedIdentity id w in
  sc_open w' = sc_open w ∧ sc_table w' = sc_table w ∧ om_get id (sc_registry w') = None ∧ streams_of id w' = [] ∧
  accounted id pre w'.
Proof.
  intros Ha. assert (streams_of id (detachManagedIdentity id w) = []) as Hs.
  { unfold streams_of. clear Ha. destruct w. cbn. induction sc_streams0 as [|s l IH]; [done|]. cbn.
    destruct (bool_decide (st_identityId s = id)) eqn:Hd; cbn; [exact IH|rewrite Hd; exact IH]. }
  split_and!; [by destruct w|by destruct w| |done|].
  - destruct w. cbn. rewrite om_get_delete. by rewrite decide_True.
  - intros ev h Hev Ho. right. destruct w. unfold streams_of, detachManagedIdentity in *. cbn in *. apply elem_of_app.
    destruct (Ha ev h Hev Ho) as [|]; [by right|by left].
Qed.
Lemma wp_undo {B} e w pre (Q : list (event SignetCore seff) → SignetCore → attempt (res B) → Prop) :
  keeps_row → sc_open w = true → accounted id pre w →
  (∀ t w', gone t w' → Q t w' (Returned (Err e))) → wp env (undo_registration id e) w pre Q.
Proof using Hframe.
  intros Hk Ho Ha HQ. apply wp_try. cbn [detach_call run_now wp fst snd give]. intros w1 u Hw1.
  destruct (detach_spec w pre Ha) as (D1 & D2 & D3 & D4 & D5). set (wd := detachManagedIdentity id w) in *.
  destruct (Hframe _ _ Hw1) as [F Fs]. pose proof (accounted_tick _ _ wd u (accounted_advances _ _ _ _ D5 F)) as A1.
  apply wp_try, wp_try. apply wp_statement; [rewrite (ad_open _ _ _ F); congruence|done|].
  intros t2 w2 A2 [F2 Fs2] R2. cbn [fst snd] in *. specialize (R2 Hk).
  assert (om_get id (sc_registry w2) = None) as G2 by (rewrite (ad_registry _ _ _ F2), (ad_registry _ _ _ F); done).
  assert (streams_of id w2 = []) as S2 by congruence.
  assert (∀ t3 w3, accounted id t3 w3 → frame id w2 w3 → row_of w3 = None → gone t3 w3) as Hgone.
  { intros t3 w3 A3 [F3 Fs3] R3. split_and!; [done|rewrite (ad_registry _ _ _ F3); done|congruence|].
    intros ev h Hev Hop. destruct (A3 ev h Hev Hop) as [Hin|]; [|done]. rewrite Fs3, S2 in Hin. by apply elem_of_nil in Hin. }
  destruct (is_getById id (sc_table w1)) as [x|] eqn:Hx.
  - apply wp_try. apply wp_statement; [rewrite (ad_open _ _ _ F2), (ad_open _ _ _ F); congruence|done|].
    intros t3 w3 A3 F3 R3. cbn [wp give fst snd]. apply HQ, Hgone; [done..|]. rewrite (R3 Hk). apply is_getById_remove.
  - cbn [wp give]. apply HQ, Hgone; [done..|]. congruence.
Qed.
Lemma is_create_row fresh g l t : fr_id fresh = id → is_getById id t = None →
  let r := is_create g l (fr_id fresh) (fr_createdAt fresh) (fr_cause fresh) t in
  match r.2 with
  | Ok x => ai_id x = id ∧ is_getById id r.1 = Some x
  | Err _ => is_getById id r.1 = None
  end.
Proof.
  intros <- Hn. cbn zeta. unfold is_create, is_getById in *. destruct (existsb _ _); cbn; [done|]. split; [done|].
  induction t as [|x t IH]; cbn in *; [by rewrite bool_decide_true|]. case_bool_decide; [done|]. by apply IH.
Qed.
Definition registered_post (t : list (event SignetCore seff)) (w : SignetCore)
  (r : attempt (res RegisteredIdentity)) : Prop :=
  match r with
  | Returned (Ok x) => ri_identityId x = id ∧
      (∃ row, row_of w = Some row ∧ ai_inboxId row = Some (ri_inboxId x)) ∧
      ∃ client, connected client (ri_inboxId x) [] t w
  | Returned (Err _) => gone t w
  | Thrown _ => True
  end.
Lemma wp_while_up {B} what (k : CP (res B)) w pre Q :
  sc_state w = sg_running ∨ sc_state w = sg_local → wp env k w pre Q → wp env (while_up what k) w pre Q.
Proof. unfold while_up. cbn [wp fst snd]. by intros [-> | ->]. Qed.
Lemma wp_register fresh input w :
  fr_id fresh = id → keeps_row → sc_open w = true → (sc_state w = sg_running ∨ sc_state w = sg_local) →
  row_of w = None → om_get id (sc_registry w) = None → streams_of id w = [] →
  wp env (registerManagedIdentity fresh input) w [] registered_post.
Proof using Hframe.
  intros Hid Hk Ho Hst Hrow Hreg Hs. unfold registerManagedIdentity. apply wp_while_up; [done|].
  apply wp_on_ok. unfold store_create. cbn [wp]. unfold stmt. rewrite Ho. cbn [fst snd]. intros w1 u Hw1.
  pose proof (is_create_row fresh (rg_groupId input) (rg_label input) (sc_table w) Hid Hrow) as Hc.
  destruct (is_create _ _ _ _ _ _) as [tb x]. cbn [fst snd] in *.
  assert (row_of w1 = is_getById id tb) as Hr1 by (rewrite (Hk _ _ Hw1); by destruct w).
  assert (frame id w w1) as F1 by (etrans; [apply frame_table|by apply Hframe]). clear Hw1.
  cbn [app]. set (t1 := [_]). assert (accounted id t1 w1) as A1.
  { by intros ev h ->%list_elem_of_singleton. }
  destruct F1 as [F1 Fs1]. pose proof (ad_open _ _ _ F1) as Ho1. pose proof (ad_state _ _ _ F1) as Hst1.
  destruct x as [created|e]; cbn [wp give]; cycle 1.
  { split_and!; [congruence|by rewrite (ad_registry _ _ _ F1)|congruence|]. by intros ev h ->%list_elem_of_singleton. }
  destruct Hc as [Hcid Hcrow]. rewrite Hcid. apply wp_try. apply wp_hydrate; [done|congruence| |done|].
  { rewrite Hst1. by destruct Hst as [-> | ->]. }
  intros t2 w2 r (A2 & Hst2 & Ho2 & Hr2 & Hc2). rewrite Hr1 in Hr2. destruct (Hr2 Hk _ Hcrow) as (row & Hrow2 & Hin). clear Hr2.
  destruct r as [[c|e]|cause]; [| |done]; cycle 1.
  { apply wp_undo; [done|congruence|done|]. by intros t w'. }
  destruct (Hc2 c eq_refl) as (client & Hconn). rewrite Fs1, Hs in Hconn. specialize (Hin c eq_refl eq_refl).
  cbn [wp]. intros w3 u3 Hw3. pose proof (Hframe _ _ Hw3) as F3.
  apply wp_try, wp_call. intros w4 key Hw4. pose proof (Hframe _ _ Hw4) as F4.
  assert (row_of w4 = Some row) as Hrow4 by (rewrite (Hk _ _ Hw4), (Hk _ _ Hw3); done).
  assert (frame id w2 w4) as [F Fs] by by etrans.
  assert (accounted id ((t2 ++ [Event _ STick w2 u3]) ++ [Event _ (SCall (CIdentityKey id)) w3 key]) w4) as A4.
  { apply accounted_snoc; [|done]. apply accounted_tick. by eapply accounted_advances. }
  destruct key as [[key|e]|cause]; [| |done]; cycle 1.
  { apply wp_undo; [done|rewrite (ad_open _ _ _ F); congruence|done|]. by intros t w'. }
  cbn [wp give registered_post ri_identityId ri_inboxId]. split_and!; [done|by exists row|]. exists client.
  destruct Hconn as [(o & m & Ho' & Hm & E1 & E2 & E3) Hstr]. split.
  - destruct (ad_objects _ _ _ F o m Hm) as (m' & Hm' & G1 & G2 & G3). exists o, m'.
    rewrite (ad_registry _ _ _ F). split_and!; [done|done|congruence..].
  - rewrite (ad_state _ _ _ F). unfold three_streams in *. rewrite Fs, <-app_assoc.
    assert (∀ what h, opened_in t2 client what h → opened_in (t2 ++ [Event _ STick w2 u3] ++
      [Event _ (SCall (CIdentityKey id)) w3 (Returned (Ok key))]) client what h) as Hmono.
    { intros what h. apply opened_in_prefix. by apply prefix_app_r. }
    destruct (sc_state w2); try done; destruct Hstr as (h1 & h2 & h3 & ? & ? & ? & ?);
      exists h1, h2, h3; split_and!; auto.
Qed.
End one_identity.

(** C24: Registering an identity while the core is up and nothing else
    interferes with that identity is all or nothing: when it returns the new
    identity, the identity is stored with its network inbox, its client is
    registered and - when the core is running - its three streams are open and
    tracked; when it returns an error, no row, client or stream of the
    identity is left and every stream it opened has been aborted. *)
Theorem registration_all_or_nothing env fresh input w t w' r :
  let id := fr_id fresh in
  (∀ w1 w2, env w1 w2 → frame id w1 w2 ∧ row_of id w2 = row_of id w1) →
  sc_open w = true → sc_state w = sg_running ∨ sc_state w = sg_local →
  row_of id w = None → om_get id (sc_registry w) = None → streams_of id w = [] →
  run env w (registerManagedIdentity fresh input) t w' r →
  match r with
  | Returned (Ok x) => ri_identityId x = id ∧
      (∃ row, row_of id w' = Some row ∧ ai_inboxId row = Some (ri_inboxId x)) ∧
      ∃ client, connected id client (ri_inboxId x) [] t w'
  | Returned (Err _) => gone id t w'
  | Thrown _ => True
  end.
Proof.
  cbn zeta. intros Henv Ho Hst Hrow Hreg Hs Hrun.
  apply (wp_run env (registerManagedIdentity fresh input) w [] (registered_post (fr_id fresh)) t w' r); [|done].
  apply wp_register; try done; [by intros w1 w2 Hw; apply Henv|by intros w1 w2 Hw; apply Henv].
Qed.

(** ** Starting *)
Lemma tracked_frames w w' : (∀ id, frame id w w') → ∀ h, tracked w h → tracked w' h.
Proof.
  intros Hf h [(s & -> & Hs)%list_elem_of_fmap|Ha].
  - left. assert (st_handle s ∈ streams_of (st_identityId s) w') as Hin.
    { rewrite (fm_streams _ _ _ (Hf (st_identityId s))). apply (list_elem_of_fmap_2 st_handle), elem_of_lfilter.
      split; [done|by apply bool_decide_eq_true]. }
    apply list_elem_of_fmap in Hin as (s' & Hs' & [Hin _]%elem_of_lfilter). rewrite Hs'.
    by apply (list_elem_of_fmap_2 st_handle).
  - right. apply (fm_advances "" w w' (Hf "")). done.
Qed.
Definition all_tracked (t : list (event SignetCore seff)) (w : SignetCore) : Prop :=
  ∀ ev h, ev ∈ t → opened (ev_eff ev) (ev_answer ev) = Some h → tracked w h.
Lemma wp_settle {R} env (p : prog SignetCore seff R) w pre Q :
  wp env (settle w p).2 (settle w p).1 pre Q ↔ wp env p w pre Q.
Proof. revert w. induction p as [a|X e k IH|X f k IH]; intros w; cbn; [done|done|apply IH]. Qed.
(** A good program tracks the streams it opens. *)
Lemma wp_good {R} env (p : prog SignetCore seff R) w pre :
  (∀ w w', env w w' → ∀ h, tracked w h → tracked w' h) → good p → all_tracked pre (settle w p).1 →
  wp env p w pre (λ t w' _, all_tracked t w').
Proof.
  intros Henv. revert w pre. induction p as [a|X e k IH|X f k IH]; intros w pre Hg Ha; cbn [wp]; [done| |].
  - intros w' x Hw. destruct (Hg x) as [Hk Hop]. apply IH; [done|].
    destruct (good_settle (k x) w' Hk) as [[_ _ Ht] _].
    intros ev h [Hev|Hev%list_elem_of_singleton]%elem_of_app Ho.
    + by eapply Ht, Henv, Ha.
    + subst ev. by apply Hop.
  - destruct (Hg w) as [_ Hk]. by apply IH.
Qed.
Lemma wp_shift {R} env (p : prog SignetCore seff R) w pre0 pre (Q : list (event SignetCore seff) → SignetCore → R → Prop) :
  wp env p w pre0 Q → wp env p w (pre ++ pre0) (λ t w' r, ∃ t', t = pre ++ t' ∧ Q t' w' r).
Proof.
  revert w pre0. induction p as [a|X e k IH|X f k IH]; intros w pre0; cbn [wp]; [by exists pre0| |apply IH].
  intros Hp w' x Hw. rewrite <-app_assoc. by apply IH, Hp.
Qed.
Lemma opened_in_subset t t' client what h : t ⊆ t' → opened_in t client what h → opened_in t' client what h.
Proof. intros Ht [w0 H0]. exists w0. by apply Ht. Qed.
Lemma connected_frame id client inbox before t t' w w' :
  connected id client inbox before t w → frame id w w' → t ⊆ t' → connected id client inbox before t' w'.
Proof.
  intros [(o & m & Ho & Hm & E1 & E2 & E3) Hs] [F Fs] Hp. split.
  - destruct (ad_objects _ _ _ F o m Hm) as (m' & Hm' & G1 & G2 & G3). exists o, m'.
    rewrite (ad_registry _ _ _ F). split_and!; [done|done|congruence..].
  - rewrite (ad_state _ _ _ F). unfold three_streams in *. rewrite Fs.
    destruct (sc_state w); try done; destruct Hs as (h1 & h2 & h3 & ? & ? & ? & ?);
      exists h1, h2, h3; split_and!; try done; by eapply opened_in_subset.
Qed.
Section starting.
Context (env : SignetCore → SignetCore → Prop).
Hypothesis Hframes : ∀ id w w', env w w' → frame id w w'.
Lemma wp_frame {R} id (p : prog SignetCore seff R) w pre :
  syncs_in (frame id) p → wp env p w pre (λ _ w' _, frame id w w').
Proof using Hframes.
  intros Hp. apply (wp_keeps (λ w', frame id w w') (frame id)); [| |done|done].
  - intros w1 w2 Hw H1. etrans; [exact H1|by apply Hframes].
  - intros w1 w2 Hw H1. by etrans.
Qed.
Lemma frame_hydrate_all id l : (∀ i, i ∈ l → ai_id i ≠ id) → syncs_in (frame id) (hydrate_all l).
Proof.
  induction l as [|i l IH]; intros Hl; [done|]. cbn [hydrate_all]. apply syncs_bind; [apply frame_hydrate, Hl; by left|].
  intros [[c|e]|cause]; [|done|done]. apply IH. intros j Hj. apply Hl. by right.
Qed.
(** Once all are hydrated, each of them is connected. *)
Lemma wp_frame_state i w pre :
  wp env (hydrateIdentity i false) w pre (λ _ w' _, sc_state w' = sc_state w ∧ sc_open w' = sc_open w).
Proof using Hframes.
  set (other := (ai_id i +:+ "x")%string). assert (ai_id i ≠ other) as Hne.
  { unfold other. intros He. apply (f_equal String.length) in He. rewrite str_length_app in He. cbn in He. lia. }
  eapply wp_mono; [|apply (wp_frame other), frame_hydrate, Hne]. by intros t w' r [[]].
Qed.
Lemma wp_hydrate_all id l w pre :
  NoDup (map ai_id l) → sc_open w = true → sc_state w = sg_starting →
  wp env (hydrate_all l) w pre (λ t w' r, r = Returned (Ok tt) → ∀ i, i ∈ l → ai_id i = id →
    ∃ client inbox, connected id client inbox (streams_of id w) t w').
Proof using Hframes.
  revert w pre. induction l as [|i l IH]; intros w pre Hnd Ho Hst; cbn [hydrate_all map] in *.
  { by intros _ i ?%not_elem_of_nil. }
  apply NoDup_cons in Hnd as [Hi Hnd]. apply wp_on_ok.
  assert (∀ j, j ∈ l → ai_id j ≠ ai_id i) as Hl.
  { intros j Hj Heq. apply Hi. rewrite <-Heq. by apply (list_elem_of_fmap_2 ai_id). }
  destruct (decide (ai_id i = id)) as [Hid|Hne].
  - rewrite <-(app_nil_r pre). eapply wp_mono; [|apply wp_shift, (wp_hydrate env id (Hframes id) i false w []
      (hydrated env id false w)); [done|done|by rewrite Hst| |done]].
    2: { by intros ev h ?%not_elem_of_nil. }
    intros t w1 r (t' & -> & A1 & St1 & Op1 & _ & C1). destruct r as [[c|e]|cause]; [|done|done].
    destruct (C1 c eq_refl) as (client & Hc).
    eapply wp_mono; [|apply wp_prefix, (wp_frame id (hydrate_all l) w1); apply frame_hydrate_all; by rewrite <-Hid].
    intros t2 w2 r [F [k ->]] _ j _ _. exists client, c.2. eapply connected_frame; [done|done|].
    intros ev Hev. apply elem_of_app. left. apply elem_of_app. by right.
  - eapply wp_mono; [|apply (wp_and env _ _ _ _ _ (wp_frame id (hydrateIdentity i false) w pre (frame_hydrate id i false Hne))
      (wp_frame_state i w pre))]. cbn beta.
    intros t w1 r [[F Fs] [St Op]]. destruct r as [[c|e]|cause]; [|done|done].
    eapply wp_mono; [|apply (IH w1 t); [done|congruence|congruence]]. intros t2 w2 r HC -> j Hj Hid.
    rewrite <-Fs. apply (HC eq_refl j); [|done]. apply elem_of_cons in Hj as [->|]; [by destruct Hne|done].
Qed.
Lemma wp_start_work id w : NoDup (map ai_id (sc_table w)) → sc_open w = true → sc_state w = sg_starting →
  wp env start_work w [] (λ t w' r, sc_state w' = sg_starting ∧ (r = Returned (Ok tt) → ∀ i, i ∈ sc_table w → ai_id i = id →
    ∃ client inbox, connected id client inbox (streams_of id w) t w')).
Proof.
  intros Hnd Ho Hst. apply wp_and.
  { apply (wp_keeps (λ w', sc_state w' = sg_starting) (λ w1 w2, sc_state w2 = sc_state w1)); [| | |done].
    - intros w1 w2 Hw. by rewrite (ad_state _ _ _ (fm_advances _ _ _ (Hframes "" _ _ Hw))).
    - intros w1 w2 ->. done.
    - eapply syncs_mono; [|apply good_syncs, good_start_work]. intros w1 w2 [_ Hs _]. done. }
  unfold start_work. apply wp_try. apply wp_statement with (id := id); [by apply Hframes|done|by intros ev h ?%not_elem_of_nil|].
  intros t w1 _ [F Fs] _. cbn [fst snd]. rewrite <-Fs.
  eapply wp_mono; [|apply (wp_hydrate_all id (is_list (sc_table w)) w1 t)].
  - intros t2 w2 r HC -> i Hi Hid. apply (HC eq_refl i); [|done]. by apply elem_of_js_sort.
  - unfold is_list. by rewrite js_sort_perm.
  - by rewrite (ad_open _ _ _ F). - by rewrite (ad_state _ _ _ F).
Qed.
End starting.

(** C23: Starting is all or nothing, when nothing else interferes with the
    identities and their streams meanwhile: it always returns; when it
    succeeds the core is running, both timers are on, and every stored
    identity has its client registered and its three streams open; when it
    fails - a key, a client, the store, a stream, or a rejected promise - the
    core is back in ["local"] if it came from there and in ["error"]
    otherwise, with no client, no stream and no timer left, and every stream
    the attempt opened has been aborted. *)
Theorem start_all_or_nothing env w t w' r :
  (∀ id w1 w2, env w1 w2 → frame id w1 w2) → sc_open w = true →
  sc_state w = sg_idle ∨ sc_state w = sg_local → NoDup (map ai_id (sc_table w)) →
  run env w start t w' r →
  ∃ out, r = Returned out ∧
  match out with
  | Ok _ => sc_state w' = sg_running ∧ sc_heartbeat w' = true ∧ sc_liveness w' = true ∧
      ∀ i, i ∈ sc_table w → ∃ client inbox, connected (ai_id i) client inbox (streams_of (ai_id i) w) t w'
  | Err _ => sc_state w' = (if bool_decide (sc_state w = sg_local) then sg_local else sg_error) ∧
      sc_registry w' = [] ∧ sc_streams w' = [] ∧ sc_heartbeat w' = false ∧ sc_liveness w' = false ∧
      ∀ ev h, ev ∈ t → opened (ev_eff ev) (ev_answer ev) = Some h → h ∈ sc_aborted w'
  end.
Proof.
  intros Hf Ho Hst Hnd Hrun. unfold start in Hrun. cbn [run] in Hrun.
  set (fallback := if bool_decide (sc_state w = sg_local) then sg_local else sg_error).
  assert (begin_start w = (set_state sg_starting w, Ok fallback)) as Hb.
  { unfold begin_start, fallback. by destruct Hst as [-> | ->]. }
  rewrite Hb in Hrun. cbn [fst snd] in Hrun. set (w0 := set_state sg_starting w) in *.
  assert (sc_state w0 = sg_starting ∧ sc_open w0 = true ∧ sc_table w0 = sc_table w ∧
    ∀ id, streams_of id w0 = streams_of id w) as (S1 & S2 & S3 & S4) by (by destruct w).
  apply run_bind in Hrun as (t1 & t2 & w1 & a & -> & Hwork & -> & -> & ->). rewrite app_nil_r.
  exists (end_start fallback a w1).2. split; [done|].
  assert (all_tracked t1 w1) as Htr.
  { apply (wp_run env start_work w0 [] (λ t w' _, all_tracked t w') t1 w1 a); [|done].
    apply wp_good; [intros w2 w3 Hw; by apply tracked_frames; auto|apply good_start_work|]. by intros ev h ?%not_elem_of_nil. }
  assert (∀ id, sc_state w1 = sg_starting ∧ (a = Returned (Ok tt) → ∀ i, i ∈ sc_table w0 → ai_id i = id →
    ∃ client inbox, connected id client inbox (streams_of id w0) t1 w1)) as Hconn.
  { intros id. refine (wp_run env start_work w0 [] _ t1 w1 a (wp_start_work env Hf id w0 _ _ _) Hwork); [by rewrite S3|done|done]. }
  assert (sc_state (failStart fallback w1) = fallback ∧ sc_registry (failStart fallback w1) = [] ∧
    sc_streams (failStart fallback w1) = [] ∧ sc_heartbeat (failStart fallback w1) = false ∧
    sc_liveness (failStart fallback w1) = false ∧ ∀ h, tracked w1 h → h ∈ sc_aborted (failStart fallback w1)) as HF.
  { destruct w1. split_and!; try done. intros h. unfold tracked. cbn. rewrite elem_of_app. tauto. }
  assert (∀ e : SignetError, sc_state (failStart fallback w1) = fallback ∧ sc_registry (failStart fallback w1) = [] ∧
    sc_streams (failStart fallback w1) = [] ∧ sc_heartbeat (failStart fallback w1) = false ∧
    sc_liveness (failStart fallback w1) = false ∧
    ∀ ev h, ev ∈ t1 → opened (ev_eff ev) (ev_answer ev) = Some h → h ∈ sc_aborted (failStart fallback w1)) as HF'.
  { intros _. destruct HF as (F1 & F2 & F3 & F4 & F5 & F6). split_and!; try done. intros ev h Hev Hop. eapply F6, Htr; eauto. }
  destruct a as [[[]|e]|cause]; cbn [end_start fst snd]; [|by apply HF'..|exact (HF' (InternalError_create "" None))].
  split_and!; [by destruct w1..|]. intros i Hi.
  destruct (Hconn (ai_id i)) as [Hst1 Hc]. rewrite S3 in Hc. destruct (Hc eq_refl i Hi eq_refl) as (client & inbox & Hcc & Hcs).
  exists client, inbox. rewrite Hst1, S4 in Hcs. destruct w1. by split.
Qed.
End core.

(** ** A core in use *)
Section demo.
Definition demo_core_config : SignetCoreConfig := mkCoreConfig "/data" "dev" "xmtp-signet/0.1.0" 30000 60000.
Definition demo_row : AgentIdentity := mkIdentity "a" (Some "inbox-a") None None "2024-01-01T00:00:00.000Z".
Abbreviation dstep := (sys_step (job (H := iso_date) demo_core_config (λ k, k)) (outside (H := iso_date) demo_core_config)).
Ltac spawn j := eapply rtc_l; [apply (sys_spawn _ _ _ _ _ j)|].
Ltac answer i x := eapply rtc_l; [eapply (sys_answer _ _ _ _ _ i _ _ _ _ _ x); reflexivity|].
Ltac answer_ok i := answer i (Returned (Ok tt) : attempt (res unit)).

(** Starting with one stored identity connects it. *)
Lemma core_lifecycle_witness : ∃ s, rtc dstep (mkSys (new_core 0 [demo_row]) [] []) s ∧
  sc_state (s_world s) = sg_running ∧ length (sc_streams (s_world s)) = 3%nat ∧
  (sc_heartbeat (s_world s) = true ↔ sc_state (s_world s) = sg_running) ∧
  ∀ i ev h, (i, inr ev) ∈ s_log s → opened (ev_eff ev) (ev_answer ev) = Some h → tracked (s_world s) h.
Proof.
  assert (∃ s, rtc dstep (mkSys (new_core 0 [demo_row]) [] []) s ∧ sc_state (s_world s) = sg_running ∧
    length (sc_streams (s_world s)) = 3%nat) as (s & Hr & Hst & Hlen).
  { eexists. split.
    - spawn JStart. answer 0%nat tt. answer 0%nat (Returned (Ok "db") : attempt (res string)).
      answer 0%nat (Returned (Ok "key") : attempt (res string)).
      answer 0%nat (Returned (Ok (7%nat, "inbox-a")) : attempt (res (nat * string))).
      answer_ok 0%nat. answer 0%nat (Returned (Ok []) : attempt (res (list XmtpGroupInfo))).
      answer 0%nat (Returned (Ok 1%nat) : attempt (res nat)). answer 0%nat (Returned (Ok 2%nat) : attempt (res nat)).
      answer 0%nat (Returned (Ok 3%nat) : attempt (res nat)). apply rtc_refl.
    - split; vm_compute; reflexivity. }
  exists s. destruct (core_lifecycle (H := iso_date) _ _ _ _ _ Hr) as (H1 & _ & _ & _ & _ & _ & H2 & _).
  by split_and!.
Defined.
(** A stop while an attachment waits for its client leaves the streams that
    the client opens afterwards: nothing aborts them, and nothing can, since
    the core refuses a second stop. *)
Lemma late_stream : ∃ s, rtc dstep (mkSys (new_core 0 []) [] []) s ∧
  sc_state (s_world s) = sg_stopped ∧ sc_streams (s_world s) = [mkStream "a" 1%nat] ∧ sc_aborted (s_world s) = [].
Proof.
  eexists. split.
  - spawn JStart. answer 0%nat tt.
    eapply rtc_l; [eapply sys_env, (o_table _ _ (λ _, [demo_row])); vm_compute; reflexivity|].
    spawn (JAttach "a"). answer 1%nat tt. answer 1%nat (Returned (Ok "db") : attempt (res string)).
    answer 1%nat (Returned (Ok "key") : attempt (res string)).
    answer 1%nat (Returned (Ok (7%nat, "inbox-a")) : attempt (res (nat * string))).
    spawn JStop. answer_ok 1%nat. answer 1%nat (Returned (Ok []) : attempt (res (list XmtpGroupInfo))).
    answer 1%nat (Returned (Ok 1%nat) : attempt (res nat)). apply rtc_refl.
  - split_and!; vm_compute; reflexivity.
Qed.
(** Two attachments of one identity at once open its streams twice. *)
Lemma attached_twice : ∃ s, rtc dstep (mkSys (new_core 0 []) [] []) s ∧
  sc_state (s_world s) = sg_running ∧ map st_identityId (sc_streams (s_world s)) = ["a"; "a"] ∧
  map snd (sc_consumers (s_world s)) = [co_messages (Some 0%Z); co_messages (Some 0%Z)].
Proof.
  eexists. split.
  - spawn JStart. answer 0%nat tt.
    eapply rtc_l; [eapply sys_env, (o_table _ _ (λ _, [demo_row])); vm_compute; reflexivity|].
    spawn (JAttach "a"). spawn (JAttach "a").
    answer 1%nat tt. answer 2%nat tt.
    answer 1%nat (Returned (Ok "db") : attempt (res string)). answer 2%nat (Returned (Ok "db") : attempt (res string)).
    answer 1%nat (Returned (Ok "key") : attempt (res string)). answer 2%nat (Returned (Ok "key") : attempt (res string)).
    answer 1%nat (Returned (Ok (7%nat, "inbox-a")) : attempt (res (nat * string))).
    answer 2%nat (Returned (Ok (8%nat, "inbox-a")) : attempt (res (nat * string))).
    answer_ok 1%nat. answer_ok 2%nat. answer 1%nat (Returned (Ok []) : attempt (res (list XmtpGroupInfo))).
    answer 2%nat (Returned (Ok []) : attempt (res (list XmtpGroupInfo))).
    answer 1%nat (Returned (Ok 1%nat) : attempt (res nat)). answer 2%nat (Returned (Ok 2%nat) : attempt (res nat)).
    apply rtc_refl.
  - split_and!; vm_compute; reflexivity.
Qed.
(** A rejected promise leaves the row of a registration that never was. *)
Lemma rejected_registration : ∃ s, rtc dstep (mkSys (new_core 0 []) [] []) s ∧
  s_jobs s !! 1%nat ≠ None ∧ (∃ w0 c, s_jobs s !! 1%nat = Some (JRegister (mkFresh "a" "" "") (mkRegisterInput None None), w0, Ret (Thrown c))) ∧
  map ai_id (sc_table (s_world s)) = ["a"].
Proof.
  eexists. split.
  - spawn JStart. answer 0%nat tt. spawn (JRegister (mkFresh "a" "" "") (mkRegisterInput None None)).
    answer 1%nat tt. answer 1%nat (Thrown "offline" : attempt (res string)). apply rtc_refl.
  - split; [done|]. split; [|vm_compute; reflexivity]. do 2 eexists. vm_compute. reflexivity.
Qed.
Lemma stop_silences_witness : ∃ s : Sys SignetCore seff Job (attempt (res unit)), sc_state (s_world s) = sg_stopped ∧
  ∃ e, settle (s_world s) (job (H := iso_date) demo_core_config (λ k, k) JStart) = (s_world s, give (Err e)).
Proof.
  assert (∃ s, rtc dstep (mkSys (new_core 0 [demo_row]) [] []) s ∧ sc_state (s_world s) = sg_local ∧
    ∀ i x, s_jobs s !! i = Some x → ended x.2 = true) as (s & Hr & Hst & Hend).
  { eexists. split; [spawn JStartLocal; apply rtc_refl|]. split; [vm_compute; reflexivity|].
    intros i x. destruct i as [|i]; [by intros [= <-]|]. done. }
  assert (stops (sc_state (s_world s)) = true) as Hup by by rewrite Hst.
  destruct (stop_silences (H := iso_date) demo_core_config (λ k, k) 0 [demo_row] s _ _ Hr Hend Hup eq_refl (rtc_refl _ _))
    as (H1 & _ & _ & _ & _ & _ & H2).
  eexists. split; [exact H1|]. by apply H2.
Defined.
Lemma start_all_or_nothing_witness : ∃ t w', run eq (new_core 0 [demo_row])
    (start (H := iso_date) demo_core_config) t w' (Returned (Ok tt)) ∧
  ∀ i, i ∈ [demo_row] → ∃ client inbox, connected (ai_id i) client inbox [] t w'.
Proof.
  assert (∃ t w', run eq (new_core 0 [demo_row]) (start (H := iso_date) demo_core_config) t w' (Returned (Ok tt)))
    as (t & w' & Hr).
  { do 2 eexists. cbn. eexists _, tt, _. split_and!; [done..|]. cbn.
    eexists _, (Returned (Ok "db")), _. split_and!; [done..|]. cbn.
    eexists _, (Returned (Ok "key")), _. split_and!; [done..|]. cbn.
    eexists _, (Returned (Ok (7%nat, "inbox-a"))), _. split_and!; [done..|]. cbn.
    eexists _, (Returned (Ok tt)), _. split_and!; [done..|]. cbn.
    eexists _, (Returned (Ok [])), _. split_and!; [done..|]. cbn.
    eexists _, (Returned (Ok 1%nat)), _. split_and!; [done..|]. cbn.
    eexists _, (Returned (Ok 2%nat)), _. split_and!; [done..|]. cbn.
    eexists _, (Returned (Ok 3%nat)), _. split_and!; [done..|]. cbn. done. }
  exists t, w'. split; [done|].
  destruct (start_all_or_nothing (H := iso_date) demo_core_config (λ k, k) eq (new_core 0 [demo_row]) t w' (Returned (Ok tt)) (λ id w1 w2 E, eq_ind w1 (frame id w1) (reflexivity w1) w2 E)
    eq_refl (or_introl eq_refl) (NoDup_singleton "a") Hr) as (out & [= <-] & H1).
  apply H1.
Defined.
Lemma registration_all_or_nothing_witness : ∃ t w' e, run eq (set_state sg_running (new_core 0 []))
    (registerManagedIdentity (H := iso_date) demo_core_config (λ k, k) (mkFresh "a" "" "") (mkRegisterInput None None)) t w' (Returned (Err e)) ∧
  gone "a" t w'.
Proof.
  assert (∃ t w' e, run eq (set_state sg_running (new_core 0 []))
    (registerManagedIdentity (H := iso_date) demo_core_config (λ k, k) (mkFresh "a" "" "") (mkRegisterInput None None)) t w' (Returned (Err e)))
    as (t & w' & e & Hr).
  { do 3 eexists. cbn. eexists _, tt, _. split_and!; [done..|]. cbn.
    eexists _, (Returned (Ok "db")), _. split_and!; [done..|]. cbn.
    eexists _, (Returned (Ok "key")), _. split_and!; [done..|]. cbn.
    eexists _, (Returned (Ok (7%nat, "inbox-a"))), _. split_and!; [done..|]. cbn.
    eexists _, tt, _. split_and!; [done..|]. cbn. eexists _, tt, _. split_and!; [done..|]. cbn.
    eexists _, (Returned (Ok tt)), _. split_and!; [done..|]. cbn.
    eexists _, (Returned (Ok [])), _. split_and!; [done..|]. cbn.
    eexists _, (Returned (Ok 1%nat)), _. split_and!; [done..|]. cbn.
    eexists _, (Returned (Err (InternalError_create "offline" None))), _. split_and!; [done..|]. cbn.
    eexists _, tt, _. split_and!; [done..|]. cbn. eexists _, tt, _. split_and!; [done..|]. cbn.
    eexists _, tt, _. split_and!; [done..|]. cbn. done. }
  exists t, w', e. split; [done|].
  exact (registration_all_or_nothing (H := iso_date) demo_core_config (λ k, k) eq (mkFresh "a" "" "") (mkRegisterInput None None) (set_state sg_running (new_core 0 [])) t w' _
    (λ w1 w2 E, eq_ind w1 (λ w2, frame "a" w1 w2 ∧ row_of "a" w2 = row_of "a" w1) (conj (reflexivity w1) eq_refl) w2 E)
    eq_refl (or_introl eq_refl) eq_refl eq_refl eq_refl Hr).
Defined.
End demo.
