(* ===== verification/Runtime.v ===== *)
(** * The daemon's runtime

    [cli/src/runtime.ts], the composition root: start-up of the services in
    dependency order with roll-back, shut-down in reverse order, the status
    and the actions of the daemon itself; [daemon/lifecycle.ts],
    [daemon/pid.ts], [audit/log.ts], [actions/signet-actions.ts], the signal
    handlers and the lazy upgrade of the core.

    The services are injected: each call answers a result or is rejected, and
    other code runs while one is awaited.  The audit log is the text of its
    file; [JSON.parse] is a parameter. *)
From S2P Require Import Prelude JsDate Programs Text Json Errors Ids Scopes Policy Reveal Seals Credentials CredentialSpec Registries CredentialService Contracts CoreStores CoreWorld Join SignetCore Elevation.
Local Open Scope prog_scope.

Inductive DaemonState := dm_created | dm_starting | dm_running | dm_draining | dm_stopped | dm_error.
#[export] Instance DaemonState_eq_dec : EqDecision DaemonState.
Proof. solve_decision. Defined.
Definition daemon_str (s : DaemonState) : string :=
  match s with
  | dm_created => "created" | dm_starting => "starting" | dm_running => "running"
  | dm_draining => "draining" | dm_stopped => "stopped" | dm_error => "error"
  end.
(** [mapSignetState] of [start.ts]: the core's state in its contract. *)
Inductive CoreState :=
  | co_uninitialized | co_initializing | co_ready_local | co_ready | co_shutting_down | co_stopped | co_error.
#[export] Instance CoreState_eq_dec : EqDecision CoreState.
Proof. solve_decision. Defined.
Definition mapSignetState (s : SignetState) : CoreState :=
  match s with
  | sg_idle => co_uninitialized | sg_local => co_ready_local | sg_starting => co_initializing
  | sg_running => co_ready | sg_stopping => co_shutting_down | sg_stopped => co_stopped | sg_error => co_error
  end.
Definition core_state_str (s : CoreState) : string :=
  match s with
  | co_uninitialized => "uninitialized" | co_initializing => "initializing" | co_ready_local => "ready-local"
  | co_ready => "ready" | co_shutting_down => "shutting-down" | co_stopped => "stopped" | co_error => "error"
  end.

(** ** The services *)
Record RuntimeConfig := mkRuntimeConfig {
  rc_env : string; rc_http : bool; rc_wsPort : Z; rc_pid : Z; rc_identityMode : string; rc_scheme : string
}.
Inductive SvcOp :=
  | sv_keys_init | sv_core_local | sv_core_init | sv_admin_start | sv_http_start | sv_pid_write
  | sv_pid_cleanup | sv_http_stop | sv_admin_stop | sv_ws_stop | sv_core_shutdown.
Inductive reff : Type → Type :=
  | RCall (op : SvcOp) : reff (attempt (res unit))
  | RWsStart : reff (attempt (res Z))
  | RAudit (entry : AuditEntry) : reff (attempt unit)
  | RListIdentities : reff (attempt (list (option string)))
  | RListCredentials : reff (attempt (res (list json)))
  | RListOperators : reff (attempt (res (list json)))
  | RListPolicies : reff (attempt (res (list json)))
  | RRotate (identityId : string) : reff (attempt (res unit))
  | RAdminKey : reff (attempt (res (string * string))).
(** [rt_keys]: the operational keys, each with its key id, identity and
    fingerprint. *)
Record Runtime := mkRuntime {
  rt_now : Z; rt_state : DaemonState; rt_boundWsPort : Z; rt_autoRotation : bool;
  rt_coreState : CoreState; rt_connections : nat; rt_uptime : Z; rt_keys : list (string * string * string)
}.
Definition set_daemon (s : DaemonState) (w : Runtime) : Runtime :=
  mkRuntime (rt_now w) s (rt_boundWsPort w) (rt_autoRotation w) (rt_coreState w) (rt_connections w) (rt_uptime w) (rt_keys w).
Definition set_wsPort (p : Z) (w : Runtime) : Runtime :=
  mkRuntime (rt_now w) (rt_state w) p (rt_autoRotation w) (rt_coreState w) (rt_connections w) (rt_uptime w) (rt_keys w).
Definition set_autoRotation (b : bool) (w : Runtime) : Runtime :=
  mkRuntime (rt_now w) (rt_state w) (rt_boundWsPort w) b (rt_coreState w) (rt_connections w) (rt_uptime w) (rt_keys w).
Abbreviation RP A := (prog Runtime reff (attempt A)).
Definition ask {A} (e : reff (attempt A)) : RP A := await x <- e ;; Ret x.
Definition then_try {A B} (p : RP A) (k : A → RP B) : RP B :=
  bind p (λ r, match r with Returned a => k a | Thrown c => Ret (Thrown c) end).
Definition yield {A} (a : A) : RP A := Ret (Returned a).
Definition modify (f : Runtime → Runtime) : RP unit := sync _ <- (λ w, (f w, tt)) ;; yield tt.
(** [await service.stop()], its result ignored. *)
Fixpoint call_all (ops : list SvcOp) : RP unit :=
  match ops with
  | [] => yield tt
  | op :: ops => then_try (ask (RCall op)) (λ _, call_all ops)
  end.

Section runtime.
Context `{JsDate} (config : RuntimeConfig).
Definition audit_entry (w : Runtime) (action : string) (success : bool) (detail : option json) : AuditEntry :=
  mkAudit (nowISO (rt_now w)) "system" action None detail success.
(** An entry with the time of the call, and a detail read from the world. *)
Definition log_event (action : string) (success : bool) (detail : Runtime → option json) : RP unit :=
  sync entry <- (λ w, (w, audit_entry w action success (detail w))) ;; ask (RAudit entry).

(** ** Start-up *)
Definition if_http (op : SvcOp) : list SvcOp := if rc_http config then [op] else [].
(** [currentState = "error"; await stop each; return result]. *)
Definition roll_back {A} (stops : list SvcOp) (e : SignetError) : RP (res A) :=
  then_try (modify (set_daemon dm_error)) (λ _, then_try (call_all stops) (λ _, yield (Err e))).
Definition step_or {A B} (e : reff (attempt (res A))) (stops : list SvcOp) (k : A → RP (res B)) : RP (res B) :=
  then_try (ask e) (λ r, match r with Ok a => k a | Err error => roll_back stops error end).
Definition network_start (k : RP (res unit)) : RP (res unit) :=
  if bool_decide (rc_env config = "local") then k
  else then_try (ask (RCall sv_core_init)) (λ r,
       match r with
       | Ok _ => k
       | Err e => then_try (log_event "core.network-start-failed" false (λ _, Some (JObj
                    [("error", JStr (message e)); ("fallback", JStr "local")]))) (λ _, k)
       end).
Definition stops_after_core : list SvcOp := [sv_core_shutdown].
Definition stops_after_ws : list SvcOp := sv_ws_stop :: stops_after_core.
Definition stops_after_admin : list SvcOp := sv_admin_stop :: stops_after_ws.
Definition stops_after_http : list SvcOp := if_http sv_http_stop ++ stops_after_admin.
Definition stops_after_pid : list SvcOp := sv_pid_cleanup :: stops_after_http.
Definition http_start (k : RP (res unit)) : RP (res unit) :=
  if rc_http config then step_or (RCall sv_http_start) stops_after_admin (λ _, k) else k.
(** The event is logged; a log that throws rolls everything back. *)
Definition log_start (k : RP (res unit)) : RP (res unit) :=
  bind (log_event "daemon.start" true (λ w, Some (JObj
          [("pid", JNum (rc_pid config)); ("coreState", JStr (core_state_str (rt_coreState w)))])))
    (λ r, match r with
          | Returned _ => k
          | Thrown cause => roll_back stops_after_pid
              (InternalError_create ("Audit log write failed during startup: " +:+ cause) None)
          end).
Definition start_services : RP (res unit) :=
  step_or (RCall sv_keys_init) [] (λ _,
  step_or (RCall sv_core_local) [] (λ _,
  network_start (
  step_or RWsStart stops_after_core (λ port,
  then_try (modify (set_wsPort port)) (λ _,
  step_or (RCall sv_admin_start) stops_after_ws (λ _,
  http_start (
  step_or (RCall sv_pid_write) stops_after_http (λ _,
  log_start (
  then_try (modify (λ w, set_daemon dm_running (set_autoRotation true w))) (λ _, yield (Ok tt))))))))))).
Definition unexpected (what cause : string) : RP (res unit) :=
  then_try (modify (set_daemon dm_error)) (λ _, yield (Err (InternalError_create (what +:+ cause) None))).
Definition refuse_state (what : string) (s : DaemonState) : SignetError :=
  InternalError_create ("Cannot " +:+ what +:+ " runtime in state " +:+ dq (daemon_str s)) None.
Definition start : RP (res unit) :=
  sync s <- (λ w, (w, rt_state w)) ;;
  if negb (bool_decide (s = dm_created)) then yield (Err (refuse_state "start" s))
  else
    sync _ <- (λ w, (set_daemon dm_starting w, tt)) ;;
    bind start_services (λ r,
      match r with Returned out => yield out | Thrown cause => unexpected "Runtime startup failed: " cause end).

(** ** Shut-down *)
Definition stop_noting (label : string) (op : SvcOp) (errors : list string) (k : list string → RP (res unit)) : RP (res unit) :=
  then_try (ask (RCall op)) (λ r,
  k (match r with Ok _ => errors | Err e => errors ++ [label +:+ ": " +:+ message e] end)).
Definition stop_http (k : list string → RP (res unit)) : RP (res unit) :=
  if rc_http config then stop_noting "http" sv_http_stop [] k else k [].
Definition shutdown_done (errors : list string) : RP (res unit) :=
  match errors with
  | [] => then_try (modify (set_daemon dm_stopped)) (λ _, yield (Ok tt))
  | _ => then_try (modify (set_daemon dm_error)) (λ _,
         yield (Err (InternalError_create ("Shutdown completed with errors: " +:+ str_join "; " errors) None)))
  end.
Definition stop_services : RP (res unit) :=
  then_try (modify (set_autoRotation false)) (λ _,
  stop_http (λ errors,
  stop_noting "admin" sv_admin_stop errors (λ errors,
  stop_noting "ws" sv_ws_stop errors (λ errors,
  stop_noting "core" sv_core_shutdown errors (λ errors,
  then_try (ask (RCall sv_pid_cleanup)) (λ _,
  then_try (log_event "daemon.stop" (bool_decide (errors = [])) (λ _,
    match errors with [] => None | _ => Some (JObj [("errors", JArr (map JStr errors))]) end)) (λ _,
  shutdown_done errors))))))).
Definition shutdown : RP (res unit) :=
  sync s <- (λ w, (w, rt_state w)) ;;
  if negb (bool_decide (s = dm_running)) then yield (Err (refuse_state "shutdown" s))
  else
    sync _ <- (λ w, (set_daemon dm_draining w, tt)) ;;
    bind stop_services (λ r,
      match r with Returned out => yield out | Thrown cause => unexpected "Runtime shutdown failed: " cause end).

(** ** Status *)
Inductive StatusState := ds_running | ds_draining | ds_stopped.
Record DaemonStatus := mkStatus {
  dst_state : StatusState; dst_coreState : CoreState; dst_pid : Z; dst_uptime : Z; dst_activeCredentials : nat;
  dst_activeConnections : nat; dst_onboardingScheme : string; dst_xmtpEnv : string; dst_identityMode : string;
  dst_wsPort : Z; dst_version : string; dst_identityCount : nat; dst_connected : bool;
  dst_connectedInboxIds : list string
}.
Definition status_state (s : DaemonState) : StatusState :=
  match s with dm_running => ds_running | dm_draining => ds_draining | _ => ds_stopped end.
Definition status_of (identities : list (option string)) (credentials : res (list json)) (w : Runtime) : DaemonStatus :=
  mkStatus (status_state (rt_state w)) (rt_coreState w) (rc_pid config) (rt_uptime w)
    (match credentials with Ok l => length l | Err _ => O end) (rt_connections w) (rc_scheme config) (rc_env config)
    (rc_identityMode config) (rt_boundWsPort w) "0.1.0" (length identities)
    (bool_decide (rt_coreState w = co_ready)) (base.omap (λ i, i) identities).
Definition status : RP DaemonStatus :=
  then_try (ask RListIdentities) (λ identities,
  then_try (ask RListCredentials) (λ credentials,
  sync st <- (λ w, (w, status_of identities credentials w)) ;; yield st)).

(** ** The daemon's actions *)
Record RotateResult := mkRotate { rr_rotated : nat; rr_failed : nat; rr_errors : list string }.
Fixpoint rotate_each (keys : list (string * string * string)) (rotated : nat) (errors : list string) : RP (nat * list string) :=
  match keys with
  | [] => yield (rotated, errors)
  | (_, identityId, _) :: keys =>
      then_try (ask (RRotate identityId)) (λ r,
      match r with
      | Ok _ => rotate_each keys (S rotated) errors
      | Err e => rotate_each keys rotated (errors ++ [identityId +:+ ": " +:+ message e])
      end)
  end.
Definition rotateKeys : RP (res RotateResult) :=
  sync keys <- (λ w, (w, rt_keys w)) ;;
  then_try (rotate_each keys 0 []) (λ r,
  if negb (bool_decide (r.2 = [])) && bool_decide (r.1 = 0%nat) then
    yield (Err (InternalError_create ("All rotations failed: " +:+ str_join "; " r.2) None))
  else yield (Ok (mkRotate r.1 (length r.2) r.2))).
Record KeyReport := mkKeyReport {
  kr_rootPublicKey : option string; kr_admin : result string (string * string); kr_operational : list (string * string * string)
}.
Definition verifyKeys : RP (res KeyReport) :=
  then_try (ask RAdminKey) (λ admin,
  sync keys <- (λ w, (w, rt_keys w)) ;;
  yield (Ok (mkKeyReport (match admin with Ok a => Some a.1 | Err _ => None end)
    (match admin with Ok a => Ok a | Err e => Err (message e) end) keys))).
Record Snapshot := mkSnapshot {
  sn_status : DaemonStatus; sn_operators : list json; sn_policies : list json; sn_credentials : list json;
  sn_identities : list (option string); sn_errors : option (list string)
}.
Definition or_empty (r : res (list json)) : list json := match r with Ok l => l | Err _ => [] end.
Definition noted (label : string) (r : res (list json)) : list string := match r with Ok _ => [] | Err _ => [label] end.
(** [managers]: whether there are an operator and a policy manager. *)
Definition exportState (managers : bool * bool) : RP (res Snapshot) :=
  then_try status (λ st,
  then_try (if managers.1 then ask RListOperators else yield (Ok [])) (λ operators,
  then_try (if managers.2 then ask RListPolicies else yield (Ok [])) (λ policies,
  then_try (ask RListCredentials) (λ credentials,
  then_try (ask RListIdentities) (λ identities,
  let errors := noted "operators" operators ++ noted "policies" policies ++ noted "credentials" credentials in
  yield (Ok (mkSnapshot st (or_empty operators) (or_empty policies) (or_empty credentials) identities
    (match errors with [] => None | _ => Some errors end)))))))).
Definition stop_action : RP (res bool) :=
  then_try shutdown (λ r, yield (match r with Ok _ => Ok true | Err e => Err e end)).

(** ** What start-up and shut-down call *)
Inductive Call := cl_svc (op : SvcOp) | cl_ws_start | cl_audit (action : string).
(** The call of an event, and whether it succeeded; [None]: it was rejected. *)
Definition outcome {A} (x : attempt (res A)) : option bool :=
  match x with Returned (Ok _) => Some true | Returned (Err _) => Some false | Thrown _ => None end.
Definition call_of {X} (e : reff X) : X → option (Call * option bool) :=
  match e in reff X return X → option (Call * option bool) with
  | RCall op => λ x, Some (cl_svc op, outcome x)
  | RWsStart => λ x, Some (cl_ws_start, outcome x)
  | RAudit entry => λ x, Some (cl_audit (au_action entry), match x with Returned _ => Some true | Thrown _ => None end)
  | _ => λ _, None
  end.
Abbreviation revent := (event Runtime reff).
Definition calls (t : list revent) : list (Call * option bool) :=
  base.omap (λ ev, call_of (ev_eff ev) (ev_answer ev)) t.
Lemma calls_app t t' : calls (t ++ t') = calls t ++ calls t'.
Proof. apply omap_app. Qed.
(** What a successful call needs when it is undone. *)
Definition undo_of (c : Call * option bool) : option SvcOp :=
  match c with
  | (cl_svc sv_core_local, Some true) => Some sv_core_shutdown
  | (cl_ws_start, Some true) => Some sv_ws_stop
  | (cl_svc sv_admin_start, Some true) => Some sv_admin_stop
  | (cl_svc sv_http_start, Some true) => Some sv_http_stop
  | (cl_svc sv_pid_write, Some true) => Some sv_pid_cleanup
  | _ => None
  end.
Definition undo (up : list (Call * option bool)) : list SvcOp := base.omap undo_of (rev up).
Lemma undo_app a b : undo (a ++ b) = undo b ++ undo a.
Proof. unfold undo. by rewrite rev_app_distr, omap_app. Qed.
(** No call was rejected, the log of the start apart. *)
Definition none_rejected (l : list (Call * option bool)) : Prop :=
  Forall (λ c, c.2 ≠ None ∨ c.1 = cl_audit "daemon.start") l.

Section runs.
Context (env : Runtime → Runtime → Prop).
Hypothesis Henv : ∀ w w', env w w' → rt_state w' = rt_state w.
Lemma wp_ask {A} (e : reff (attempt A)) w pre (Q : list revent → Runtime → attempt A → Prop) :
  (∀ w' x, env w w' → Q (pre ++ [Event _ e w x]) w' x) → wp env (ask e) w pre Q.
Proof. intros HQ w' x Hw. by apply HQ. Qed.
Lemma wp_then {A B} (p : RP A) (k : A → RP B) w pre Q :
  wp env p w pre (λ t w' r, match r with Returned a => wp env (k a) w' t Q | Thrown c => Q t w' (Thrown c) end) →
  wp env (then_try p k) w pre Q.
Proof. intros Hp. apply wp_bind. eapply wp_mono; [|exact Hp]. by intros t w' []. Qed.
(** Calling services for their effect: all of them, or up to one that is
    rejected. *)
Lemma wp_call_all ops w pre (Q : list revent → Runtime → attempt unit → Prop) :
  (∀ t w' s r, calls t = calls pre ++ s → rt_state w' = rt_state w →
     match r with
     | Returned _ => s.*1 = map cl_svc ops ∧ Forall (λ c, c.2 ≠ None) s
     | Thrown _ => ¬ none_rejected s
     end → Q t w' r) → wp env (call_all ops) w pre Q.
Proof using Henv.
  revert w pre. induction ops as [|op ops IH]; intros w pre HQ; cbn [call_all].
  { apply (HQ pre w []); [by rewrite app_nil_r|done|done]. }
  apply wp_then, wp_ask. intros w1 x Hw1.
  assert (calls (pre ++ [Event _ (RCall op) w x]) = calls pre ++ [(cl_svc op, outcome x)]) as Hc by by rewrite calls_app.
  destruct x as [x|cause].
  - apply IH. intros t w' s r Ht Hs Hr. apply (HQ t w' ((cl_svc op, outcome (Returned x)) :: s)).
    + by rewrite Ht, Hc, <-app_assoc.
    + by rewrite Hs, (Henv _ _ Hw1).
    + destruct r; [|by intros [_ Hn]%Forall_cons_1; destruct (Hr Hn)]. destruct Hr as [Hr1 Hr2].
      split; [cbn; by rewrite Hr1|]. constructor; [by destruct x|done].
  - apply (HQ _ w1 [(cl_svc op, None)]); [done|by rewrite (Henv _ _ Hw1)|].
    intros [[Hn|Hn] _]%Forall_cons_1; [by destruct Hn|done].
Qed.
Definition rolled_back (pre : list revent) (c : Call) (bad : option bool) (stops : list SvcOp)
  (t : list revent) (w : Runtime) : Prop :=
  rt_state w = dm_error ∧ ∃ s, calls t = calls pre ++ (c, bad) :: s ∧ s.*1 = map cl_svc stops.
Lemma wp_roll_back {A} stops e w pre0 c bad pre (Q : list revent → Runtime → attempt (res A) → Prop) :
  calls pre = calls pre0 ++ [(c, bad)] →
  (∀ t w', rolled_back pre0 c bad stops t w' → Q t w' (Returned (Err e))) →
  (∀ t w' cause, ¬ none_rejected (calls t) → Q t w' (Thrown cause)) →
  wp env (roll_back stops e) w pre Q.
Proof using Henv.
  intros Hpre HQ HT. unfold roll_back. apply wp_then. cbn [modify wp yield fst snd]. apply wp_then, wp_call_all.
  intros t w' s r Ht Hs Hr. destruct r as [u|cause].
  - cbn [wp yield]. apply HQ. split; [by rewrite Hs|]. exists s. rewrite Ht, Hpre, <-app_assoc. by destruct Hr.
  - apply HT. rewrite Ht. by intros [_ ?]%Forall_app.
Qed.
Lemma wp_step_or {A B} (e : reff (attempt (res A))) c stops (k : A → RP (res B)) w pre
  (Q : list revent → Runtime → attempt (res B) → Prop) :
  (∀ x, call_of e x = Some (c, outcome x)) → (∀ action, c ≠ cl_audit action) →
  (∀ w' t a, calls t = calls pre ++ [(c, Some true)] → rt_state w' = rt_state w → wp env (k a) w' t Q) →
  (∀ t w' error, rolled_back pre c (Some false) stops t w' → Q t w' (Returned (Err error))) →
  (∀ t w' cause, ¬ none_rejected (calls t) → Q t w' (Thrown cause)) →
  wp env (step_or e stops k) w pre Q.
Proof using Henv.
  intros Hc Hna Hk HF HT. apply wp_then, wp_ask. intros w1 x Hw1.
  assert (calls (pre ++ [Event _ e w x]) = calls pre ++ [(c, outcome x)]) as Ht.
  { rewrite calls_app. unfold calls at 2. cbn. by rewrite Hc. }
  destruct x as [[a|error]|cause].
  - apply Hk; [done|by apply Henv].
  - eapply wp_roll_back; [exact Ht| |done]. intros t w'. by apply HF.
  - apply HT. rewrite Ht. intros [_ [[Hn|Hn] _]%Forall_cons_1]%Forall_app; [by destruct Hn|by destruct (Hna "daemon.start")].
Qed.

(** The calls of the network start: none with the local environment. *)
Definition network_calls (l : list (Call * option bool)) : Prop :=
  if bool_decide (rc_env config = "local") then l = []
  else l = [(cl_svc sv_core_init, Some true)] ∨
       l = [(cl_svc sv_core_init, Some false); (cl_audit "core.network-start-failed", Some true)].
Definition ok_call (c : Call) : Call * option bool := (c, Some true).
Definition http_calls : list (Call * option bool) := if rc_http config then [ok_call (cl_svc sv_http_start)] else [].
Definition started_calls (net : list (Call * option bool)) : list (Call * option bool) :=
  [ok_call (cl_svc sv_keys_init); ok_call (cl_svc sv_core_local)] ++ net ++
  [ok_call cl_ws_start; ok_call (cl_svc sv_admin_start)] ++ http_calls ++
  [ok_call (cl_svc sv_pid_write); ok_call (cl_audit "daemon.start")].
(** Failed after [up]: what had started was stopped, the last first. *)
Definition undone (t : list revent) : Prop :=
  ∃ up c bad s, calls t = up ++ (c, bad) :: s ∧ bad ≠ Some true ∧ s.*1 = map cl_svc (undo up).
Definition start_post (t : list revent) (w : Runtime) (r : attempt (res unit)) : Prop :=
  match r with
  | Returned (Ok _) => rt_state w = dm_running ∧ rt_autoRotation w = true ∧
      ∃ net, network_calls net ∧ calls t = started_calls net
  | Returned (Err _) => rt_state w = dm_error ∧ undone t
  | Thrown _ => ¬ none_rejected (calls t)
  end.
Lemma undo_network net : network_calls net → undo net = [].
Proof. unfold network_calls. by destruct (bool_decide _); [intros ->|intros [-> | ->]]. Qed.
Lemma rolled_undone pre c bad stops t w : rolled_back pre c bad stops t w → bad ≠ Some true →
  stops = undo (calls pre) → rt_state w = dm_error ∧ undone t.
Proof. intros [H1 (s & H2 & H3)] Hb ->. split; [done|]. by exists (calls pre), c, bad, s. Qed.
Lemma wp_network_start k w pre :
  calls pre = [ok_call (cl_svc sv_keys_init); ok_call (cl_svc sv_core_local)] →
  (∀ t w' net, network_calls net → rt_state w' = rt_state w → calls t = calls pre ++ net → wp env k w' t start_post) →
  wp env (network_start k) w pre start_post.
Proof using Henv.
  intros Hpre Hk. unfold network_start. destruct (bool_decide (rc_env config = "local")) eqn:Hl.
  { apply (Hk _ _ []); [unfold network_calls; by rewrite Hl|done|by rewrite app_nil_r]. }
  apply wp_then, wp_ask. intros w1 x Hw1.
  assert (calls (pre ++ [Event _ (RCall sv_core_init) w x]) = calls pre ++ [(cl_svc sv_core_init, outcome x)]) as Hc by by rewrite calls_app.
  set (pre1 := pre ++ _) in *.
  destruct x as [[[]|e]|cause].
  - apply (Hk _ _ [ok_call (cl_svc sv_core_init)]); [unfold network_calls; rewrite Hl; by left|by apply Henv|done].
  - apply wp_then. unfold log_event. cbn [wp fst snd]. apply wp_ask. intros w2 y Hw2.
    set (pre2 := pre1 ++ _). assert (calls pre2 = calls pre ++ [(cl_svc sv_core_init, Some false);
      (cl_audit "core.network-start-failed", match y with Returned _ => Some true | Thrown _ => None end)]) as Hc2.
    { unfold pre2. by rewrite calls_app, Hc, <-app_assoc. }
    destruct y as [[]|cause].
    + apply (Hk _ _ [(cl_svc sv_core_init, Some false); ok_call (cl_audit "core.network-start-failed")]);
        [unfold network_calls; rewrite Hl; by right|by rewrite (Henv _ _ Hw2), (Henv _ _ Hw1)|done].
    + cbn [start_post]. rewrite Hc2. intros [_ [_ [[Hn|Hn] _]%Forall_cons_1]%Forall_cons_1]%Forall_app; [by destruct Hn|done].
  - cbn [start_post]. rewrite Hc. intros [_ [[Hn|Hn] _]%Forall_cons_1]%Forall_app; [by destruct Hn|done].
Qed.
Lemma wp_start_services w : wp env start_services w [] start_post.
Proof using Henv.
  unfold start_services.
  apply (wp_step_or _ (cl_svc sv_keys_init)); [done|done| |intros t w' e Hr; by eapply rolled_undone|by intros].
  intros w1 t1 [] H1 _. apply (wp_step_or _ (cl_svc sv_core_local));
    [done|done| |intros t w' e Hr; eapply rolled_undone; [done|done|by rewrite H1]|by intros].
  intros w2 t2 [] H2 _. rewrite H1 in H2. apply wp_network_start; [done|]. intros t3 w3 net Hnet _ H3. rewrite H2 in H3.
  pose proof (undo_network net Hnet) as Hun.
  apply (wp_step_or _ cl_ws_start); [done|done| | |by intros].
  2: { intros t w' e Hr. eapply rolled_undone; [done|done|]. by rewrite H3, !undo_app, Hun. }
  intros w4 t4 port H4 _. rewrite H3 in H4. apply wp_then. cbn [modify wp yield fst snd].
  apply (wp_step_or _ (cl_svc sv_admin_start)); [done|done| | |by intros].
  2: { intros t w' e Hr. eapply rolled_undone; [done|done|]. by rewrite H4, !undo_app, Hun. }
  intros w5 t5 [] H5 _. rewrite H4 in H5.
  assert (∀ t6 w6, calls t6 = calls t5 ++ http_calls → wp env (step_or (RCall sv_pid_write) stops_after_http (λ _,
    log_start (then_try (modify (λ w, set_daemon dm_running (set_autoRotation true w))) (λ _, yield (Ok tt))))) w6 t6 start_post) as Hrest.
  { intros t6 w6 H6. rewrite H5 in H6.
    assert (undo http_calls = if_http sv_http_stop) as Hh by (unfold http_calls, if_http; by destruct (rc_http config)).
    apply (wp_step_or _ (cl_svc sv_pid_write)); [done|done| | |by intros].
    2: { intros t w' e Hr. eapply rolled_undone; [done|done|]. by rewrite H6, !undo_app, Hun, Hh. }
    intros w7 t7 [] H7 _. rewrite H6 in H7. unfold log_start. apply wp_bind. unfold log_event. cbn [wp fst snd].
    apply wp_ask. intros w8 x Hw8. set (t8 := t7 ++ _).
    assert (calls t8 = calls t7 ++ [(cl_audit "daemon.start", match x with Returned _ => Some true | Thrown _ => None end)]) as H8.
    { unfold t8. by rewrite calls_app. }
    destruct x as [u|cause].
    - apply wp_then. cbn [modify wp yield fst snd start_post]. split_and!; [done|done|]. exists net. split; [done|].
      rewrite H8, H7. unfold started_calls, ok_call. by rewrite <-!app_assoc.
    - eapply wp_roll_back; [exact H8| |by intros]. intros t w' Hr. eapply rolled_undone; [done|done|].
      rewrite H7, !undo_app, Hun, Hh. by rewrite !app_nil_r. }
  unfold http_start. unfold http_calls in Hrest. destruct (rc_http config) eqn:Hhttp.
  - apply (wp_step_or _ (cl_svc sv_http_start)); [done|done| | |by intros].
    2: { intros t w' e Hr. eapply rolled_undone; [done|done|]. by rewrite H5, !undo_app, Hun. }
    intros w6 t6 [] H6 _. by apply Hrest.
  - apply Hrest. by rewrite app_nil_r.
Qed.

(** Shut-down: every service is stopped, whatever the others answer. *)
Definition stop_plan : list Call :=
  map cl_svc (if_http sv_http_stop ++ [sv_admin_stop; sv_ws_stop; sv_core_shutdown]).
Definition shutdown_plan : list Call := stop_plan ++ [cl_svc sv_pid_cleanup; cl_audit "daemon.stop"].
Definition all_answered (l : list (Call * option bool)) : Prop := Forall (λ c, c.2 ≠ None) l.
Definition all_ok (l : list (Call * option bool)) : Prop := Forall (λ c, c.2 = Some true) l.
Definition stopping_inv (pre : list revent) (errors : list string) (l : list Call) : Prop :=
  (calls pre).*1 = l ∧ all_answered (calls pre) ∧ (errors = [] ↔ all_ok (calls pre)).
Definition stop_post (t : list revent) (w : Runtime) (r : attempt (res unit)) : Prop :=
  match r with
  | Returned out => (calls t).*1 = shutdown_plan ∧ all_answered (calls t) ∧
      ∃ stops rest, calls t = stops ++ rest ∧ stops.*1 = stop_plan ∧
        match out with Ok _ => all_ok stops ∧ rt_state w = dm_stopped | Err _ => ¬ all_ok stops ∧ rt_state w = dm_error end
  | Thrown _ => ¬ all_answered (calls t)
  end.
Lemma wp_stop_noting label op errors k l w pre :
  stopping_inv pre errors l →
  (∀ w' t errors', stopping_inv t errors' (l ++ [cl_svc op]) → wp env (k errors') w' t stop_post) →
  wp env (stop_noting label op errors k) w pre stop_post.
Proof using.
  intros (I1 & I2 & I3) Hk. apply wp_then, wp_ask. intros w1 x _.
  assert (calls (pre ++ [Event _ (RCall op) w x]) = calls pre ++ [(cl_svc op, outcome x)]) as Hc by by rewrite calls_app.
  destruct x as [[u|e]|cause].
  - apply Hk. unfold stopping_inv, all_answered, all_ok. rewrite Hc, fmap_app, I1. split_and!; [done| |].
    + apply Forall_app. split; [done|]. by constructor.
    + rewrite I3, Forall_app, Forall_singleton. unfold all_ok. cbn. tauto.
  - apply Hk. unfold stopping_inv, all_answered, all_ok. rewrite Hc, fmap_app, I1. split_and!; [done| |].
    + apply Forall_app. split; [done|]. by constructor.
    + rewrite Forall_app, Forall_singleton. cbn. split; [by destruct errors|by intros [_ ?]].
  - cbn [stop_post]. unfold all_answered. rewrite Hc. intros [_ [Hn _]%Forall_cons_1]%Forall_app. done.
Qed.
Lemma wp_stop_services w : wp env stop_services w [] stop_post.
Proof using Henv.
  unfold stop_services. apply wp_then. cbn [modify wp yield fst snd].
  set (w0 := set_autoRotation false w). clearbody w0. clear w.
  assert (∀ w1 pre errors, stopping_inv pre errors (map cl_svc (if_http sv_http_stop)) →
    wp env (stop_noting "admin" sv_admin_stop errors (λ errors, stop_noting "ws" sv_ws_stop errors (λ errors,
      stop_noting "core" sv_core_shutdown errors (λ errors, then_try (ask (RCall sv_pid_cleanup)) (λ _,
      then_try (log_event "daemon.stop" (bool_decide (errors = [])) (λ _,
        match errors with [] => None | _ => Some (JObj [("errors", JArr (map JStr errors))]) end)) (λ _,
      shutdown_done errors)))))) w1 pre stop_post) as Hrest.
  { intros w1 pre errors Hi. eapply wp_stop_noting; [exact Hi|]. clear errors Hi. intros w2 t2 errors Hi.
    eapply wp_stop_noting; [exact Hi|]. clear errors Hi. intros w3 t3 errors Hi.
    eapply wp_stop_noting; [exact Hi|]. clear errors Hi. intros w4 t4 errors (I1 & I2 & I3).
    assert ((calls t4).*1 = stop_plan) as Hplan by (rewrite I1; unfold stop_plan; by rewrite map_app, <-!app_assoc).
    apply wp_then, wp_ask. intros w5 x _. set (t5 := t4 ++ _).
    assert (calls t5 = calls t4 ++ [(cl_svc sv_pid_cleanup, outcome x)]) as Hc5 by (unfold t5; by rewrite calls_app).
    destruct x as [x|cause].
    2: { cbn [stop_post]. unfold all_answered. rewrite Hc5. intros [_ [Hn _]%Forall_cons_1]%Forall_app. done. }
    apply wp_then. unfold log_event. cbn [wp fst snd]. apply wp_ask. intros w6 y _. set (t6 := t5 ++ _).
    assert (calls t6 = calls t4 ++ [(cl_svc sv_pid_cleanup, outcome (Returned x));
      (cl_audit "daemon.stop", match y with Returned _ => Some true | Thrown _ => None end)]) as Hc6.
    { unfold t6. by rewrite calls_app, Hc5, <-app_assoc. }
    destruct y as [y|cause].
    2: { cbn [stop_post]. unfold all_answered. rewrite Hc6.
         intros [_ [_ [Hn _]%Forall_cons_1]%Forall_cons_1]%Forall_app. done. }
    assert ((calls t6).*1 = shutdown_plan ∧ all_answered (calls t6)) as [H1 H2].
    { rewrite Hc6, fmap_app, Hplan. split; [done|]. apply Forall_app. split; [done|].
      repeat constructor; by destruct x. }
    unfold shutdown_done. destruct errors as [|e errors].
    - apply wp_then. cbn [modify wp yield fst snd stop_post]. split_and!; [done..|]. eexists (calls t4), _.
      split_and!; [exact Hc6|done|by apply I3|done].
    - apply wp_then. cbn [modify wp yield fst snd stop_post]. split_and!; [done..|]. eexists (calls t4), _.
      split_and!; [exact Hc6|done|by rewrite <-I3|done]. }
  unfold stop_http. unfold if_http in Hrest. destruct (rc_http config) eqn:Hh.
  - eapply (wp_stop_noting _ _ _ _ []); [by repeat constructor|]. intros w1 t1 errors Hi. by apply Hrest.
  - apply Hrest. by repeat constructor.
Qed.
End runs.

(** C26: Start-up is all or nothing.  It is accepted only once, in state
    ["created"].  When it succeeds, the keys, the core, the WebSocket, admin
    and HTTP servers and the process id file were started in that order, a
    failed network start apart, and the daemon is running.  When it fails the
    state is ["error"], and unless a promise was rejected - the audit log of
    the start apart - what had been started is stopped again, the last first
    and nothing else. *)
Theorem startup_all_or_nothing env w t w' r :
  (∀ w1 w2, env w1 w2 → rt_state w2 = rt_state w1) → run env w start t w' r →
  (rt_state w ≠ dm_created → t = [] ∧ w' = w ∧ r = Returned (Err (refuse_state "start" (rt_state w)))) ∧
  (rt_state w = dm_created → ∃ out, r = Returned out ∧
    match out with
    | Ok _ => rt_state w' = dm_running ∧ rt_autoRotation w' = true ∧
        ∃ net, network_calls net ∧ calls t = started_calls net
    | Err _ => rt_state w' = dm_error ∧ (none_rejected (calls t) → undone t)
    end).
Proof.
  intros Henv Hrun. unfold start in Hrun. cbn [run fst snd] in Hrun. split; intros Hs.
  - rewrite bool_decide_false in Hrun by done. by destruct Hrun as (-> & -> & ->).
  - rewrite bool_decide_true in Hrun by done. cbn [negb run fst snd] in Hrun.
    apply run_bind in Hrun as (t1 & t2 & w1 & a & -> & H1 & H2).
    pose proof (wp_run env start_services _ [] _ t1 w1 a (wp_start_services env Henv _) H1) as Hp. cbn [app] in Hp.
    destruct a as [out|cause].
    + destruct H2 as (-> & -> & ->). exists out. split; [done|]. rewrite app_nil_r. destruct out as [u|e]; [exact Hp|].
      destruct Hp as [Hp1 Hp2]. by split.
    + destruct H2 as (-> & -> & ->). eexists. split; [done|]. rewrite app_nil_r. split; [done|]. by intros Hn%Hp.
Qed.
(** Shut-down is accepted only from ["running"].  Unless a promise is
    rejected it asks every service to stop - HTTP, admin, WebSocket, core, in
    the reverse order of start-up, whatever the others answer - removes the
    process id file and logs the stop; it succeeds, with state ["stopped"],
    exactly when all of them stopped, and ends in ["error"] otherwise. *)
Theorem shutdown_complete env w t w' r :
  (∀ w1 w2, env w1 w2 → rt_state w2 = rt_state w1) → run env w shutdown t w' r →
  (rt_state w ≠ dm_running → t = [] ∧ w' = w ∧ r = Returned (Err (refuse_state "shutdown" (rt_state w)))) ∧
  (rt_state w = dm_running → ∃ out, r = Returned out ∧
    (all_answered (calls t) → (calls t).*1 = shutdown_plan ∧
       ∃ stops rest, calls t = stops ++ rest ∧ stops.*1 = stop_plan ∧ ((∃ u, out = Ok u) ↔ all_ok stops)) ∧
    match out with Ok _ => all_answered (calls t) ∧ rt_state w' = dm_stopped | Err _ => rt_state w' = dm_error end).
Proof.
  intros Henv Hrun. unfold shutdown in Hrun. cbn [run fst snd] in Hrun. split; intros Hs.
  - rewrite bool_decide_false in Hrun by done. by destruct Hrun as (-> & -> & ->).
  - rewrite bool_decide_true in Hrun by done. cbn [negb run fst snd] in Hrun.
    apply run_bind in Hrun as (t1 & t2 & w1 & a & -> & H1 & H2).
    pose proof (wp_run env stop_services _ [] _ t1 w1 a (wp_stop_services env Henv _) H1) as Hp. cbn [app] in Hp.
    destruct a as [out|cause].
    + destruct H2 as (-> & -> & ->). exists out. split; [done|]. rewrite app_nil_r.
      destruct Hp as (P1 & P2 & stops & rest & P3 & P4 & P5). split.
      * intros _. split; [done|]. exists stops, rest. split_and!; [done..|].
        destruct out as [u|e]; destruct P5 as [P5 _]; split; [done|by exists u|by intros [? [=]]|by intros ?%P5].
      * by destruct out; destruct P5.
    + destruct H2 as (-> & -> & ->). eexists. split; [done|]. rewrite app_nil_r. split; [|done]. by intros Hn%Hp.
Qed.
End runtime.

(** ** The lazy upgrade of the core ([ws/core-upgrade.ts])

    Requests that need the network share one attempt to initialize the core. *)
Inductive UpgradeStep := ug_ready | ug_shared | ug_refused (e : SignetError) | ug_initialize.
Definition ensureCoreReady (core : CoreState) (inProgress : bool) : UpgradeStep * bool :=
  if bool_decide (core = co_ready) then (ug_ready, inProgress)
  else if inProgress then (ug_shared, true)
  else match core with
       | co_ready_local | co_error | co_uninitialized => (ug_initialize, true)
       | s => (ug_refused (InternalError_create "Signet core is not ready to service requests"
                (Some [("coreState", JStr (core_state_str s))])), false)
       end.
Definition upgrade_settled (inProgress : bool) : bool := false.
(** An upgrade is attempted from ["error"], which the core always refuses. *)
Lemma upgrade_from_error w : sc_state w = sg_error →
  (ensureCoreReady (mapSignetState (sc_state w)) false).1 = ug_initialize ∧
  ∃ e, begin_start w = (w, Err e).
Proof. intros Hs. unfold begin_start. rewrite Hs. split; [done|]. by eexists. Qed.

(** ** Signals ([daemon/signals.ts]) *)
Inductive Signal := sig_term | sig_int.
Inductive SignalAnswer := sa_shutdown | sa_exit (exitCode : Z).
Definition on_signal (s : Signal) (shutdownInProgress : bool) : bool * SignalAnswer :=
  if shutdownInProgress then (true, sa_exit (128 + match s with sig_term => 15 | sig_int => 2 end)%Z)
  else (true, sa_shutdown).

(** ** The generic life cycle ([daemon/lifecycle.ts]) *)
Inductive leff : Type → Type := LOnStart : leff (attempt unit) | LOnShutdown : leff (attempt unit).
(** The state, the listeners, and what each was told: the new and the old state. *)
Record Lifecycle := mkLifecycle {
  lf_state : DaemonState; lf_listeners : list nat; lf_told : list (nat * (DaemonState * DaemonState))
}.
Definition transition (to : DaemonState) (l : Lifecycle) : Lifecycle :=
  mkLifecycle to (lf_listeners l) (lf_told l ++ map (λ i, (i, (to, lf_state l))) (lf_listeners l)).
Definition lf_on (i : nat) (l : Lifecycle) : Lifecycle := mkLifecycle (lf_state l) (set_add (lf_listeners l) i) (lf_told l).
Definition lf_off (i : nat) (l : Lifecycle) : Lifecycle :=
  mkLifecycle (lf_state l) (List.filter (λ x, negb (bool_decide (x = i))) (lf_listeners l)) (lf_told l).
Definition lf_run (what past : string) (expected during after : DaemonState) (e : leff (attempt unit))
  : prog Lifecycle leff (res unit) :=
  sync s <- (λ l, (l, lf_state l)) ;;
  if negb (bool_decide (s = expected)) then
    Ret (Err (InternalError_create ("Cannot " +:+ what +:+ " daemon in state " +:+ dq (daemon_str s))
      (Some [("state", JStr (daemon_str s))])))
  else
    sync _ <- (λ l, (transition during l, tt)) ;;
    await r <- e ;;
    match r with
    | Thrown cause => sync _ <- (λ l, (transition dm_error l, tt)) ;;
        Ret (Err (InternalError_create ("Daemon " +:+ past +:+ " failed: " +:+ cause) (Some [("cause", JStr cause)])))
    | Returned _ => sync _ <- (λ l, (transition after l, tt)) ;; Ret (Ok tt)
    end.
Definition lf_start : prog Lifecycle leff (res unit) := lf_run "start" "startup" dm_created dm_starting dm_running LOnStart.
Definition lf_shutdown : prog Lifecycle leff (res unit) := lf_run "shutdown" "shutdown" dm_running dm_draining dm_stopped LOnShutdown.

(** ** Runs *)
Section demo.
Definition demo_runtime_config : RuntimeConfig := mkRuntimeConfig "dev" true 8393 4711 "per-group" "convos".
Definition demo_runtime : Runtime := mkRuntime 0 dm_created 8393 false co_ready_local 0 0 [].
Ltac svc x := eexists _, x, _; split_and!; [reflexivity|reflexivity|]; cbn.
Ltac fine := svc (Returned (Ok tt) : attempt (res unit)).
(** A busy process id file: everything that started is stopped, last first. *)
Lemma startup_all_or_nothing_witness : ∃ t w' e,
  run eq demo_runtime (start (H := iso_date) demo_runtime_config) t w' (Returned (Err e)) ∧
  rt_state w' = dm_error ∧ undone t ∧
  (calls t).*1 = map cl_svc [sv_keys_init; sv_core_local; sv_core_init] ++ cl_ws_start ::
    map cl_svc [sv_admin_start; sv_http_start; sv_pid_write; sv_http_stop; sv_admin_stop; sv_ws_stop; sv_core_shutdown].
Proof.
  assert (∃ t w' e, run eq demo_runtime (start (H := iso_date) demo_runtime_config) t w' (Returned (Err e)) ∧
    (calls t).*1 = map cl_svc [sv_keys_init; sv_core_local; sv_core_init] ++ cl_ws_start ::
      map cl_svc [sv_admin_start; sv_http_start; sv_pid_write; sv_http_stop; sv_admin_stop; sv_ws_stop; sv_core_shutdown] ∧
    Forall (λ c, c.2 ≠ None) (calls t))
    as (t & w' & e & Hr & Hc & Hn).
  { do 3 eexists. split.
    - cbn. fine. fine. fine. svc (Returned (Ok 9000%Z) : attempt (res Z)). fine. fine.
      svc (Returned (Err (InternalError_create "busy" None)) : attempt (res unit)). fine. fine. fine. fine. done.
    - split; [reflexivity|]. by repeat constructor. }
  exists t, w', e. split; [done|].
  destruct (startup_all_or_nothing (H := iso_date) demo_runtime_config eq demo_runtime t w' _
    (λ w1 w2 E, f_equal rt_state (eq_sym E)) Hr) as [_ Hs].
  destruct (Hs eq_refl) as (out & [= <-] & H1 & H2). split_and!; [done| |done]. apply H2.
  eapply Forall_impl; [exact Hn|]. intros c Hc'. by left.
Defined.
Lemma shutdown_complete_witness : ∃ t w' e,
  run eq (set_daemon dm_running demo_runtime) (shutdown (H := iso_date) demo_runtime_config) t w' (Returned (Err e)) ∧
  rt_state w' = dm_error ∧ (calls t).*1 = shutdown_plan demo_runtime_config.
Proof.
  assert (∃ t w' e, run eq (set_daemon dm_running demo_runtime) (shutdown (H := iso_date) demo_runtime_config) t w'
      (Returned (Err e)) ∧ all_answered (calls t)) as (t & w' & e & Hr & Hn).
  { do 3 eexists. split.
    - cbn. fine. svc (Returned (Err (InternalError_create "stuck" None)) : attempt (res unit)). fine. fine. fine.
      svc (Returned tt : attempt unit). done.
    - by repeat constructor. }
  exists t, w', e. split; [done|].
  destruct (shutdown_complete (H := iso_date) demo_runtime_config eq (set_daemon dm_running demo_runtime) t w' _
    (λ w1 w2 E, f_equal rt_state (eq_sym E)) Hr) as [_ Hs].
  destruct (Hs eq_refl) as (out & [= <-] & H1 & H2). split; [done|]. by apply H1.
Defined.
(** When the log of a failed network start cannot be written, the start fails
    without stopping the core, and the daemon cannot be shut down any more. *)
Lemma rejected_startup : ∃ t w' e,
  run eq demo_runtime (start (H := iso_date) demo_runtime_config) t w' (Returned (Err e)) ∧
  calls t = [(cl_svc sv_keys_init, Some true); (cl_svc sv_core_local, Some true); (cl_svc sv_core_init, Some false);
             (cl_audit "core.network-start-failed", None)] ∧
  run eq w' (shutdown (H := iso_date) demo_runtime_config) [] w' (Returned (Err (refuse_state "shutdown" dm_error))).
Proof.
  do 3 eexists. split_and!.
  - cbn. fine. fine. svc (Returned (Err (InternalError_create "offline" None)) : attempt (res unit)).
    svc (Thrown "ENOSPC" : attempt unit). done.
  - reflexivity.
  - cbn. done.
Qed.
(** The status lists every stored inbox as connected, with the core local. *)
Lemma status_claims_connections :
  dst_connectedInboxIds (status_of demo_runtime_config [Some "inbox-a"] (Ok []) demo_runtime) = ["inbox-a"] ∧
  dst_connected (status_of demo_runtime_config [Some "inbox-a"] (Ok []) demo_runtime) = false.
Proof. done. Qed.
End demo.
