(* ===== verification/ConversationActions.v ===== *)
(** * Conversation actions

    [core/src/conversation-actions.ts]: the fourteen handlers behind [chat.*].
    A chat is named by a local [conv_] id or a raw group id; groups get a
    local id when they are first shown.

    Fresh local ids, the random bytes of invite tags and what joining makes
    up are arguments.  Three handlers may create a mapping; SQLite throws when
    a fresh id is taken already, and their result is then [None], the rejected
    promise. *)
From S2P Require Import Prelude Bytes JsDate Text Json Errors Ids Registries Programs CoreStores CoreWorld MessageActions Invites InviteHost Join.

(** [cd_clientFactory], [cd_signers] and the others: which optional
    dependencies are there. *)
Record ConversationDeps := mkConvDeps {
  cd_config : option JoinConfig; cd_clientFactory : bool; cd_signers : bool; cd_labels : SchemeLabels;
  cd_byGroup : bool; cd_attach : bool; cd_storeTag : bool; cd_cleanup : bool
}.

(** ** Helpers *)
Definition ensureLocalId (fresh groupId : string) (w : CoreWorld) : CoreWorld * option (option string) :=
  match cw_idMappings w with
  | None => (w, Some None)
  | Some m =>
      match truthy_str (im_getLocal groupId m) with
      | Some existing => (w, Some (Some existing))
      | None =>
          match im_set groupId fresh im_conversation m with
          | Some m' => (with_idMappings (Some m') w, Some (Some fresh))
          | None => (w, None)
          end
      end
  end.
Inductive ProfileSource := src_explicit | src_operator_default.
Record ProfileSelection := mkSelection { ps_profileName : string; ps_profileSource : ProfileSource }.
Definition resolveProfileSelection (operatorId profileName : option string)
  : CProg (res (option ProfileSelection)) :=
  match profileName, operatorId with
  | Some name, _ => Ret (Ok (Some (mkSelection name src_explicit)))
  | None, None => Ret (Ok None)
  | None, Some operatorId =>
      (sync store <- peek cw_operators ;;
       match store with
       | None => Ret (Err (InternalError_create
                   "OperatorManager not initialized before resolving profile defaults" None))
       | Some _ =>
           ok operator <- called (peek (λ w, op_lookup (default [] (cw_operators w)) operatorId)) ;;
           Ret (Ok (Some (mkSelection (oc_label (or_config operator)) src_operator_default)))
       end)%prog
  end.
Definition resolveManagedClientForGroup (deps : ConversationDeps) (groupId : string)
  (identityLabel : option string) : CProg (res ManagedClient) :=
  match identityLabel with
  | Some label => resolve_client (Some label)
  | None =>
      (sync byGroup <- peek (λ w, if cd_byGroup deps then cr_getByGroupId groupId (cw_clients w) else None) ;;
       match byGroup with
       | Some m => Ret (Ok m)
       | None => resolve_client None
       end)%prog
  end.
Definition runLocalCleanup (deps : ConversationDeps) (input : CleanupInput) : CProg (res CleanupResult) :=
  if cd_cleanup deps then perform (CCleanupLocal input)
  else called (λ w, (w, Ok (mkCleanupResult (ci_execute input) []))).
(** How the handlers that act on one group begin. *)
Definition on_group {A} (deps : ConversationDeps) (chatId : string) (identityLabel : option string)
  (k : string → ManagedClient → CProg (res A)) : CProg (res A) :=
  (sync groupId <- peek (group_now chatId) ;;
   ok managed <- resolveManagedClientForGroup deps groupId identityLabel ;; k groupId managed)%prog.

(** ** Creating, listing, joining *)
Record ChatCreateInput := mkChatCreate {
  cc_memberInboxIds : list string; cc_name : option string; cc_creatorIdentityLabel : option string
}.
Record ChatCreateOutput := mkChatCreated {
  co_chatId : option string; co_groupId : string; co_name : string; co_creatorInboxId : string;
  co_memberCount : nat
}.
Definition chat_create (fresh : string) (input : ChatCreateInput) : CProg (option (res ChatCreateOutput)) :=
  (do managed <- resolve_client (cc_creatorIdentityLabel input) ;;
   match managed with
   | Err e => Ret (Some (Err e))
   | Ok managed =>
       await groupResult <- CCreateGroup (mc_client managed) (cc_memberInboxIds input) (cc_name input) ;;
       match groupResult with
       | Err e => Ret (Some (Err e))
       | Ok group =>
           sync chatId <- ensureLocalId fresh (xg_groupId group) ;;
           Ret ((λ chatId, Ok (mkChatCreated chatId (xg_groupId group) (xg_name group) (mc_inboxId managed)
                              (length (xg_memberInboxIds group)))) <$> chatId)
       end
   end)%prog.
Record ChatGroup := mkChatGroup { cg_info : XmtpGroupInfo; cg_chatId : option string }.
Fixpoint localize (fresh : nat → string) (groups : list XmtpGroupInfo) (w : CoreWorld)
  : CoreWorld * option (list ChatGroup) :=
  match groups with
  | [] => (w, Some [])
  | g :: groups =>
      match ensureLocalId (fresh 0%nat) (xg_groupId g) w with
      | (w1, Some chatId) =>
          let r := localize (λ i, fresh (S i)) groups w1 in (r.1, cons (mkChatGroup g chatId) <$> r.2)
      | (w1, None) => (w1, None)
      end
  end.
Definition chat_list (fresh : nat → string) (identityLabel : option string)
  : CProg (option (res (list ChatGroup))) :=
  (do managed <- resolve_client identityLabel ;;
   match managed with
   | Err e => Ret (Some (Err e))
   | Ok managed =>
       await groupsResult <- CListGroups (mc_client managed) ;;
       match groupsResult with
       | Err e => Ret (Some (Err e))
       | Ok groups => sync groups <- localize fresh groups ;; Ret (Ok <$> groups)
       end
   end)%prog.
Record ChatJoinInput := mkChatJoin {
  ch_inviteUrl : string; ch_label : option string; ch_operatorId : option string;
  ch_profileName : option string; ch_timeoutSeconds : option Z
}.
Record ChatJoinOutput := mkChatJoined {
  cj_result : JoinResult; cj_chatId : option string; cj_profileSource : option ProfileSource
}.
(** [Math.ceil((timeoutSeconds * 1000) / 2000)] of a whole number. *)
Definition poll_attempts (timeoutSeconds : option Z) : option nat :=
  match timeoutSeconds with
  | Some s => if (s =? 0)%Z then None else Some (Z.to_nat ((s * 1000 + 1999) / 2000))
  | None => None
  end.
Definition chat_join `{InviteLib, JsDate} (JSON_parse : string → option json) (address_of : string → string)
  (deps : ConversationDeps) (fresh : string) (freshIdentity : Fresh) (input : ChatJoinInput)
  : CProg (option (res ChatJoinOutput)) :=
  match cd_clientFactory deps && cd_signers deps, cd_config deps with
  | true, Some config =>
      (do profileSelectionResult <- resolveProfileSelection (ch_operatorId input) (ch_profileName input) ;;
       match profileSelectionResult with
       | Err e => Ret (Some (Err e))
       | Ok profileSelection =>
           do joinResult <- joinConversation JSON_parse address_of (cd_labels deps) freshIdentity config
             (ch_inviteUrl input)
             (mkJoinOptions (ch_label input) (ps_profileName <$> profileSelection) None
                (poll_attempts (ch_timeoutSeconds input))) ;;
           match joinResult with
           | Err e => Ret (Some (Err e))
           | Ok j =>
               do _ <- (if cd_attach deps then await _ <- CAttach (jn_identityId j) ;; Ret tt else Ret tt) ;;
               sync chatId <- ensureLocalId fresh (jn_groupId j) ;;
               Ret ((λ chatId, Ok (mkChatJoined j chatId (ps_profileSource <$> profileSelection))) <$> chatId)
           end
       end)%prog
  | _, _ => Ret (Some (Err (NotFoundError_create "join-deps"
              "Join requires clientFactory, signerProviderFactory, and config")))
  end.

(** ** Inviting *)
Record ChatInviteInput := mkChatInvite {
  cv_chatId : string; cv_identityLabel : option string; cv_name : option string; cv_description : option string
}.
Record ChatInviteOutput := mkChatInvited {
  ct_inviteUrl : string; ct_chatId : string; ct_groupId : string; ct_groupName : string;
  ct_creatorInboxId : string; ct_inviteTag : string
}.
Definition base36 (n : nat) : ascii := ascii_of_nat (if n <? 10 then 48 + n else 87 + n)%nat.
(** [b.toString(36).padStart(2, "0")] of a byte. *)
Definition tag_digits (b : Byte.byte) : string :=
  String (base36 (nat_of_byte b / 36)) (String (base36 (nat_of_byte b mod 36)) "").
Definition invite_tag (tagBytes : bytes) : string := str_slice 0 10 (str_join "" (map tag_digits tagBytes)).
Definition store_tag (deps : ConversationDeps) (groupId tag : string) (w : CoreWorld) : CoreWorld * unit :=
  (if cd_storeTag deps then with_inviteTags (om_set groupId tag) w else w, tt).
Definition strip_0x (key : string) : string := if startsWith "0x" key then str_drop 2 key else key.
Definition chat_invite (deps : ConversationDeps) (tagBytes : bytes) (input : ChatInviteInput)
  : CProg (res ChatInviteOutput) :=
  (sync groupId <- peek (group_now (cv_chatId input)) ;;
   match cd_signers deps, cd_config deps with
   | true, Some config =>
       ok resolved <- resolveIdentity (cv_identityLabel input) ;;
       ok managed <- getManagedClient (rv_identityId resolved) ;;
       ok group <- perform (CGetGroupInfo groupId) ;;
       ok key <- perform (CIdentityKey (rv_identityId resolved)) ;;
       let inviteTag := invite_tag tagBytes in
       ok url <- perform (CGenerateInvite (mkInviteRequest groupId (mc_inboxId managed) (strip_0x key) inviteTag
                   (default (xg_name group) (cv_name input)) (default (xg_description group) (cv_description input))
                   (jc_env config))) ;;
       sync _ <- store_tag deps groupId inviteTag ;;
       Ret (Ok (mkChatInvited url (cv_chatId input) groupId (xg_name group) (mc_inboxId managed) inviteTag))
   | _, _ => Ret (Err (NotFoundError_create "invite-deps" "Invite requires signerProviderFactory and config"))
   end)%prog.

(** ** Reading *)
Definition chat_info (chatId : string) : CProg (res ChatGroup) :=
  (sync groupId <- peek (group_now chatId) ;;
   ok group <- perform (CGetGroupInfo groupId) ;; Ret (Ok (mkChatGroup group (Some chatId))))%prog.
Record ChatMembers := mkChatMembers {
  me_chatId : string; me_groupId : string; me_members : list string; me_memberCount : nat
}.
Definition chat_members (chatId : string) : CProg (res ChatMembers) :=
  (sync groupId <- peek (group_now chatId) ;;
   ok group <- perform (CGetGroupInfo groupId) ;;
   Ret (Ok (mkChatMembers chatId groupId (xg_memberInboxIds group) (length (xg_memberInboxIds group)))))%prog.

(** ** Acting on a group *)
Record MemberInput := mkMember { mi_chatId : string; mi_inboxId : string; mi_identityLabel : option string }.
Record MemberCount := mkMemberCount { mo_chatId : string; mo_groupId : string; mo_memberCount : nat }.
Definition chat_add_member (deps : ConversationDeps) (input : MemberInput) : CProg (res MemberCount) :=
  (on_group deps (mi_chatId input) (mi_identityLabel input) (λ groupId managed,
   ok _ <- perform (CAddMembers (mc_client managed) groupId [mi_inboxId input]) ;;
   ok group <- perform (CGetGroupInfo groupId) ;;
   Ret (Ok (mkMemberCount (mi_chatId input) groupId (length (xg_memberInboxIds group))))))%prog.
Definition chat_remove_member (deps : ConversationDeps) (input : MemberInput) : CProg (res MemberCount) :=
  (on_group deps (mi_chatId input) (mi_identityLabel input) (λ groupId managed,
   ok _ <- perform (CRemoveMembers (mc_client managed) groupId [mi_inboxId input]) ;;
   ok group <- perform (CGetGroupInfo groupId) ;;
   Ret (Ok (mkMemberCount (mi_chatId input) groupId (length (xg_memberInboxIds group))))))%prog.
Inductive MemberRole := role_admin | role_member.
Record RoleOutput := mkRole { ro_chatId : string; ro_groupId : string; ro_inboxId : string; ro_role : MemberRole }.
Definition chat_promote_member (deps : ConversationDeps) (chatId inboxId : string) : CProg (res RoleOutput) :=
  (on_group deps chatId None (λ groupId managed,
   ok _ <- perform (CAddAdmin (mc_client managed) groupId inboxId) ;;
   Ret (Ok (mkRole chatId groupId inboxId role_admin))))%prog.
Definition chat_demote_member (deps : ConversationDeps) (chatId inboxId : string) : CProg (res RoleOutput) :=
  (on_group deps chatId None (λ groupId managed,
   ok _ <- perform (CRemoveAdmin (mc_client managed) groupId inboxId) ;;
   Ret (Ok (mkRole chatId groupId inboxId role_member))))%prog.
Definition chat_update (deps : ConversationDeps) (chatId : string) (changes : GroupChanges) : CProg (res ChatGroup) :=
  (on_group deps chatId None (λ groupId managed,
   ok _ <- perform (CUpdateMetadata (mc_client managed) groupId changes) ;;
   ok group <- perform (CGetGroupInfo groupId) ;;
   Ret (Ok (mkChatGroup group (Some chatId)))))%prog.
Record ProfileInput := mkProfileInput {
  pf_chatId : string; pf_identityLabel : option string; pf_operatorId : option string; pf_profileName : option string
}.
Record ProfileOutput := mkProfileOutput {
  po_chatId : string; po_groupId : string; po_profileName : string; po_profileSource : ProfileSource
}.
Definition chat_update_profile (deps : ConversationDeps) (input : ProfileInput) : CProg (res ProfileOutput) :=
  (on_group deps (pf_chatId input) (pf_identityLabel input) (λ groupId managed,
   ok selection <- resolveProfileSelection (pf_operatorId input) (pf_profileName input) ;;
   match selection with
   | None => Ret (Err (ValidationError_create "profileName" "A profile name or operator default is required" None))
   | Some s =>
       ok _ <- perform (CSendMessage (mc_client managed) groupId
                 (sl_encodeProfileUpdate (cd_labels deps) (Some (ps_profileName s)))
                 (Some (sl_profileUpdate (cd_labels deps)))) ;;
       Ret (Ok (mkProfileOutput (pf_chatId input) groupId (ps_profileName s) (ps_profileSource s)))
   end))%prog.
Record LeaveOutput := mkLeft {
  le_chatId : string; le_groupId : string; le_purged : bool; le_cleanup : option CleanupResult
}.
Definition chat_leave (deps : ConversationDeps) (chatId : string) (purge : option bool) : CProg (res LeaveOutput) :=
  (on_group deps chatId None (λ groupId managed,
   ok _ <- perform (CLeaveGroup (mc_client managed) groupId) ;;
   if bool_decide (purge = Some true) then
     ok cleanup <- runLocalCleanup deps (mkCleanup (Some chatId) groupId true cl_leave_purge) ;;
     Ret (Ok (mkLeft chatId groupId true (Some cleanup)))
   else Ret (Ok (mkLeft chatId groupId false None))))%prog.
Record RemoveLocalOutput := mkRemoved {
  rl_chatId : string; rl_groupId : string; rl_removed : bool; rl_cleanup : CleanupResult
}.
Definition chat_rm (deps : ConversationDeps) (chatId : string) (force : option bool) : CProg (res RemoveLocalOutput) :=
  (sync groupId <- peek (group_now chatId) ;;
   ok cleanup <- runLocalCleanup deps (mkCleanup (Some chatId) groupId (bool_decide (force = Some true)) cl_rm) ;;
   Ret (Ok (mkRemoved chatId groupId (cu_executed cleanup) cleanup)))%prog.

(** ** Chat ids name their groups *)
Definition maps_inv (w : CoreWorld) : Prop :=
  match cw_idMappings w with Some m => im_inv m | None => True end.
(** Without a mapping store there are no local ids. *)
Definition named (chatId : option string) (groupId : string) (w : CoreWorld) : Prop :=
  match cw_idMappings w with
  | None => chatId = None
  | Some m => ∃ l, chatId = Some l ∧ l ≠ "" ∧ im_getLocal groupId m = Some l ∧ im_getNetwork l m = Some groupId
  end.
Lemma named_resolves l groupId w : named (Some l) groupId w → group_now l w = groupId.
Proof.
  unfold named, group_now, resolveGroupId. destruct (cw_idMappings w) as [m|]; [|done].
  by intros (l' & [= <-] & _ & _ & ->).
Qed.
Lemma ensureLocalId_spec fresh g w : fresh ≠ "" → maps_inv w →
  let r := ensureLocalId fresh g w in
  maps_inv r.1 ∧ (∀ c g', named c g' w → named c g' r.1) ∧
  match r.2 with
  | Some chatId => named chatId g r.1
  | None => r.1 = w ∧ ∃ m g', cw_idMappings w = Some m ∧ g' ≠ g ∧ im_getNetwork fresh m = Some g'
  end.
Proof.
  intros Hf Hinv. unfold ensureLocalId, maps_inv in *. destruct (cw_idMappings w) as [m|] eqn:Hm; cycle 1.
  { cbn. unfold named. rewrite Hm. done. }
  destruct (truthy_str (im_getLocal g m)) as [l|] eqn:Hl; cbn.
  { rewrite Hm. split_and!; [done|done|]. unfold named. rewrite Hm. exists l.
    unfold truthy_str in Hl. destruct (im_getLocal g m) as [l'|] eqn:Hg; [|done]. case_bool_decide as Hne; [done|].
    injection Hl as ->. split_and!; [done|done|done|]. apply im_getNetwork_spec; [done|]. by apply im_getLocal_spec in Hg. }
  destruct (im_set g fresh im_conversation m) as [m'|] eqn:Hs; cbn.
  - destruct (im_set_elem _ _ _ _ _ Hinv Hs) as [_ Hel]. pose proof (im_set_inv _ _ _ _ _ Hinv Hs) as Hinv'.
    split_and!; [done| |].
    + unfold named. rewrite Hm. cbn. intros c g' (l & -> & Hne & H1 & H2). exists l.
      rewrite im_getLocal_spec in * by done. rewrite im_getNetwork_spec in * by done.
      destruct H1 as (r & Hr & <- & <-). assert (mr_network r ≠ g) as Hrg.
      { intros Heq. unfold truthy_str in Hl. assert (im_getLocal g m = Some (mr_local r)) as Hg
          by (apply im_getLocal_spec; [done|]; by exists r). rewrite Hg in Hl. by case_bool_decide. }
      split_and!; [done|done|..]; exists r; (split; [apply Hel; by right|done]).
    + unfold named. cbn. exists fresh. split_and!; [done|done|..].
      * apply im_getLocal_spec; [done|]. exists (mkRow g fresh im_conversation). split; [apply Hel; by left|done].
      * apply im_getNetwork_spec; [done|]. exists (mkRow g fresh im_conversation). split; [apply Hel; by left|done].
  - rewrite Hm. split_and!; [done|done|done|]. unfold im_set in Hs. destruct (existsb _ _) eqn:He; [|done].
    apply existsb_exists in He as (r & Hr%list_elem_of_In & [H1 H2]%andb_true_iff).
    apply bool_decide_eq_true in H1. apply negb_true_iff, bool_decide_eq_false in H2.
    exists m, (mr_network r). split_and!; [done|done|]. apply im_getNetwork_spec; [done|]. by exists r.
Qed.
Lemma localize_spec fresh groups w : (∀ i, fresh i ≠ "") → maps_inv w →
  let r := localize fresh groups w in
  maps_inv r.1 ∧ (∀ c g', named c g' w → named c g' r.1) ∧
  ∀ l, r.2 = Some l → Forall2 (λ g o, cg_info o = g ∧ named (cg_chatId o) (xg_groupId g) r.1) groups l.
Proof.
  revert fresh w. induction groups as [|g groups IH]; intros fresh w Hf Hinv; cbn.
  { split_and!; [done|done|]. intros l [= <-]. constructor. }
  destruct (ensureLocalId_spec (fresh 0%nat) (xg_groupId g) w (Hf 0%nat) Hinv) as (H1 & H2 & H3).
  destruct (ensureLocalId _ _ w) as [w1 [chatId|]]; cbn in *; [|by split_and!].
  destruct (IH (λ i, fresh (S i)) w1 (λ i, Hf (S i)) H1) as (H4 & H5 & H6).
  split_and!; [done|auto|]. intros l Hl. destruct (localize _ groups w1).2 as [l'|]; [|done].
  injection Hl as <-. constructor; [|by apply H6]. split; [done|]. by apply H5.
Qed.

Section chat_ids.
Context `{InviteLib, JsDate} (JSON_parse : string → option json) (address_of : string → string)
  (env : CoreWorld → CoreWorld → Prop).
Hypothesis env_maps : ∀ w w', env w w' → maps_inv w → maps_inv w'.
Definition maps_kept (w w' : CoreWorld) : Prop := cw_idMappings w' = cw_idMappings w.
Lemma maps_kept_inv w w' : maps_kept w w' → maps_inv w → maps_inv w'.
Proof. unfold maps_kept, maps_inv. by intros ->. Qed.
Lemma called_syncs {A} (f : CoreWorld → CoreWorld * A) : (∀ w, maps_kept w (f w).1) → syncs_in maps_kept (called f).
Proof. intros Hf w. by split. Qed.
Lemma resolve_client_syncs label : syncs_in maps_kept (resolve_client label).
Proof.
  apply syncs_bind_ok; [|intros a w; by split].
  unfold resolveIdentity. destruct (truthy_str label); apply syncs_bind; try done; by apply called_syncs.
Qed.
Lemma cleanup_syncs {A} i e : syncs_in maps_kept (cleanup (A := A) i e).
Proof. apply syncs_bind; [by apply called_syncs|done]. Qed.
Lemma or_cleanup_syncs {A B} i (e : ceff (res A)) (k : A → CProg (res B)) :
  (∀ a, syncs_in maps_kept (k a)) → syncs_in maps_kept (or_cleanup i e k).
Proof. intros Hk [a|e']; [apply Hk|apply cleanup_syncs]. Qed.
Lemma poll_syncs labels n i inbox client dmId invite name ms timeout :
  syncs_in maps_kept (poll JSON_parse labels n i inbox client dmId invite name ms timeout).
Proof.
  induction n as [|n IH]; cbn [poll]; [apply cleanup_syncs|]. apply or_cleanup_syncs. intros _.
  apply or_cleanup_syncs. intros [|g rest]; cbn; [|done].
  intros replies. destruct (match replies with Ok _ => _ | Err _ => None end); [apply cleanup_syncs|].
  destruct n; [apply IH|intros _; apply IH].
Qed.
Lemma join_syncs labels fresh config url options :
  syncs_in maps_kept (joinConversation JSON_parse address_of labels fresh config url options).
Proof.
  apply syncs_bind_ok; [by intros|]. intros invite. apply syncs_bind_ok; [by intros|]. intros _.
  destruct (pi_isExpired invite); [done|]. destruct (pi_isConversationExpired invite); [done|].
  apply syncs_bind_ok.
  - apply syncs_bind_ok; [by apply called_syncs|]. intros row. do 3 (apply or_cleanup_syncs; intros ?).
    apply syncs_bind; [by apply called_syncs|]. intros [?|?]; [done|apply cleanup_syncs].
  - intros g. do 5 (apply or_cleanup_syncs; intros ?). intros _. apply poll_syncs.
Qed.
Lemma wp_maps {A} (p : CProg A) w pre : syncs_in maps_kept p → maps_inv w → wp env p w pre (λ _ w' _, maps_inv w').
Proof using env_maps. intros Hp. apply (wp_keeps maps_inv maps_kept); [exact env_maps|apply maps_kept_inv|done]. Qed.
Lemma selection_syncs op name : syncs_in maps_kept (resolveProfileSelection op name).
Proof.
  unfold resolveProfileSelection. destruct name; [done|]. destruct op; [|done]. intros w. split; [done|].
  cbn [peek snd]. destruct (cw_operators w); [|done]. apply syncs_bind_ok; [by apply called_syncs|done].
Qed.

(** the chat ids that creating, listing and joining give out name the
    groups they were given out for: each is in the mapping store under its
    group and resolves back to it when the action answers, the ids shown by
    one listing all at once; without a mapping store there are none. *)
Theorem chat_ids_resolve w t w' : maps_inv w →
  (∀ fresh input o, fresh ≠ "" → run env w (chat_create fresh input) t w' (Some (Ok o)) →
     named (co_chatId o) (co_groupId o) w') ∧
  (∀ fresh label l, (∀ i, fresh i ≠ "") → run env w (chat_list fresh label) t w' (Some (Ok l)) →
     ∀ o, o ∈ l → named (cg_chatId o) (xg_groupId (cg_info o)) w') ∧
  (∀ deps fresh freshIdentity input o, fresh ≠ "" →
     run env w (chat_join JSON_parse address_of deps fresh freshIdentity input) t w' (Some (Ok o)) →
     named (cj_chatId o) (jn_groupId (cj_result o)) w').
Proof using env_maps.
  intros Hinv. split_and!.
  - intros fresh input o Hf Hrun.
    refine (wp_run env _ w [] (λ _ w' r, ∀ o, r = Some (Ok o) → named (co_chatId o) (co_groupId o) w') t w' _ _ Hrun o eq_refl).
    apply wp_bind. eapply wp_mono; [|apply wp_maps; [apply resolve_client_syncs|done]].
    intros t1 w1 [m|e] Hw1; cbn; [|done]. intros w2 [g|e] Hw2; cbn; [|done].
    destruct (ensureLocalId_spec fresh (xg_groupId g) w2 Hf) as (_ & _ & Hn); [by eapply env_maps|].
    intros o' Ho. destruct (ensureLocalId _ _ w2) as [w3 [c|]]; [|done]. by injection Ho as <-.
  - intros fresh label l Hf Hrun.
    refine (wp_run env _ w [] (λ _ w' r, ∀ l, r = Some (Ok l) → ∀ o, o ∈ l → named (cg_chatId o) (xg_groupId (cg_info o)) w')
      t w' _ _ Hrun l eq_refl).
    apply wp_bind. eapply wp_mono; [|apply wp_maps; [apply resolve_client_syncs|done]].
    intros t1 w1 [m|e] Hw1; cbn; [|done]. intros w2 [gs|e] Hw2; cbn; [|done].
    destruct (localize_spec fresh gs w2 Hf) as (_ & _ & Hn); [by eapply env_maps|].
    intros l' Hl o Ho. destruct (localize fresh gs w2) as [w3 [l''|]]; [|done]. injection Hl as <-.
    destruct (list_elem_of_lookup_1 _ _ Ho) as [i Hi].
    destruct (Forall2_lookup_r _ _ _ _ _ (Hn _ eq_refl) Hi) as (g & _ & <- & Hname). done.
  - intros deps fresh freshIdentity input o Hf Hrun.
    refine (wp_run env _ w [] (λ _ w' r, ∀ o, r = Some (Ok o) → named (cj_chatId o) (jn_groupId (cj_result o)) w')
      t w' _ _ Hrun o eq_refl).
    unfold chat_join. destruct (cd_clientFactory deps && cd_signers deps); [|done].
    destruct (cd_config deps) as [config|]; [|done].
    apply wp_bind. eapply wp_mono; [|apply wp_maps; [apply selection_syncs|done]].
    intros t1 w1 [sel|e] Hw1; [|done].
    apply wp_bind. eapply wp_mono; [|apply wp_maps; [apply join_syncs|done]].
    intros t2 w2 [j|e] Hw2; [|done]. apply wp_bind.
    assert (∀ w3, maps_inv w3 → ∀ o, (λ c, Ok (E := SignetError) (mkChatJoined j c (ps_profileSource <$> sel))) <$>
      (ensureLocalId fresh (jn_groupId j) w3).2 = Some (Ok o) →
      named (cj_chatId o) (jn_groupId (cj_result o)) (ensureLocalId fresh (jn_groupId j) w3).1) as Hlast.
    { intros w3 Hw3 o' Ho. destruct (ensureLocalId_spec fresh (jn_groupId j) w3 Hf Hw3) as (_ & _ & Hn).
      destruct (ensureLocalId _ _ w3) as [w4 [c|]]; [|done]. by injection Ho as <-. }
    destruct (cd_attach deps); cbn; [|by apply Hlast]. intros w3 _ Hw3. apply Hlast. by eapply env_maps.
Qed.
End chat_ids.

(** ** What the actions on a group do to it *)
Inductive GroupChange :=
  | gch_add (inboxIds : list string) | gch_remove (inboxIds : list string)
  | gch_promote (inboxId : string) | gch_demote (inboxId : string)
  | gch_metadata (changes : GroupChanges) | gch_message (content : json) (contentType : option string)
  | gch_leave.
(** Which client changes which group, and how. *)
Definition modifies (ev : cevent) : option (nat * string * GroupChange) :=
  match ev_eff ev with
  | CAddMembers c g ids => Some (c, g, gch_add ids)
  | CRemoveMembers c g ids => Some (c, g, gch_remove ids)
  | CAddAdmin c g i => Some (c, g, gch_promote i)
  | CRemoveAdmin c g i => Some (c, g, gch_demote i)
  | CUpdateMetadata c g ch => Some (c, g, gch_metadata ch)
  | CSendMessage c g content ty => Some (c, g, gch_message content ty)
  | CLeaveGroup c g => Some (c, g, gch_leave)
  | _ => None
  end.
Definition cleans (ev : cevent) : option CleanupInput :=
  match ev_eff ev with CCleanupLocal input => Some input | _ => None end.
Definition inert (t : list cevent) : Prop := Forall (λ ev, modifies ev = None ∧ cleans ev = None) t.
Lemma no_effect_inert t : Forall (λ ev, no_effect ev = true) t → inert t.
Proof.
  intros Ht. eapply Forall_impl; [exact Ht|]. intros ev. unfold no_effect, modifies, cleans.
  by destruct (ev_eff ev).
Qed.

Section group_actions.
Context (env : CoreWorld → CoreWorld → Prop) (deps : ConversationDeps).
(** The client that acts: without a label the one that serves the group when
    the action starts, if there is one; else the client registered for the
    identity that the label named when the action started, or for the first
    one without a label. *)
Definition acting (groupId : string) (label : option string) (w : CoreWorld) (m : ManagedClient) : Prop :=
  let by_group := if cd_byGroup deps then cr_getByGroupId groupId (cw_clients w) else None in
  match label, by_group with
  | None, Some m0 => m = m0
  | _, _ => ∃ i w1, identity_meant label w = Some i ∧ rtc env w w1 ∧ cr_get (ai_id i) (cw_clients w1) = Some m
  end.
Lemma group_client_prelim groupId label w :
  prelim env (λ _ _ m, acting groupId label w m) (resolveManagedClientForGroup deps groupId label) w.
Proof.
  unfold resolveManagedClientForGroup, acting.
  assert (∀ l, prelim env (λ _ _ m, ∃ i w1, identity_meant l w = Some i ∧ rtc env w w1 ∧ cr_get (ai_id i) (cw_clients w1) = Some m)
    (resolve_client l) w) as Hr.
  { intros l pre Q HQ. apply resolve_client_meant. intros t w1 r Ht Hw Hm. apply HQ; [done|done|].
    intros a Ha. destruct (Hm a Ha) as (i & ? & ?). by exists i, w1. }
  destruct label as [l|].
  - apply Hr.
  - intros pre Q HQ. cbn [wp peek fst snd].
    destruct (if cd_byGroup deps then cr_getByGroupId groupId (cw_clients w) else None) as [m|].
    + cbn. rewrite <-(app_nil_r pre). apply HQ; [constructor|done|]. by intros a [= <-].
    + by apply Hr.
Qed.
(** Nothing is done, and the action fails; or one change is asked of the
    network, and if that fails its error is returned and nothing follows; if
    it succeeds [K] tells the rest. *)
Definition changes_once {A} (chatId : string) (label : option string) (C : GroupChange → Prop)
  (K : list cevent → res A → Prop) (w : CoreWorld) (t : list cevent) (r : res A) : Prop :=
  (inert t ∧ isOk r = false) ∨
  ∃ t0 m c ev t1, t = t0 ++ ev :: t1 ∧ inert t0 ∧ C c ∧ acting (group_now chatId w) label w m ∧
    modifies ev = Some (mc_client m, group_now chatId w, c) ∧
    ((∃ e, r = Err e ∧ t1 = []) ∨ K t1 r).
Lemma on_group_wp {A} chatId label (k : string → ManagedClient → CProg (res A)) C K w :
  (∀ m w1 t, acting (group_now chatId w) label w m → inert t →
     wp env (k (group_now chatId w) m) w1 t (λ t _ r, changes_once chatId label C K w t r)) →
  wp env (on_group deps chatId label k) w [] (λ t _ r, changes_once chatId label C K w t r).
Proof.
  intros Hk. unfold on_group. cbn [wp peek fst snd]. apply wp_bind_ok, group_client_prelim.
  intros t w1 [m|e] Ht Hw Hm; cbn [app].
  - apply Hk; [by apply Hm|by apply no_effect_inert].
  - left. split; [by apply no_effect_inert|done].
Qed.
(** One change and what follows it. *)
Lemma change_wp {A B} chatId label (e : ceff (res A)) (k : A → CProg (res B)) C K c m w w1 t :
  acting (group_now chatId w) label w m → inert t → C c →
  (∀ x, modifies (Event _ e w1 x) = Some (mc_client m, group_now chatId w, c)) →
  (∀ x w2 t', wp env (k x) w2 t' (λ t'' _ r, ∃ t1, t'' = t' ++ t1 ∧ K t1 r)) →
  wp env (bind_ok (perform e) k) w1 t (λ t _ r, changes_once chatId label C K w t r).
Proof.
  intros Hm Ht Hc Hmod Hk. apply wp_bind_ok. cbn [perform wp]. intros w2 [x|err] _.
  - eapply wp_mono; [|apply Hk]. intros t2 w3 r (t1 & -> & HK). right.
    exists t, m, c, (Event _ e w1 (Ok x)), t1. rewrite <-app_assoc. split_and!; try done. by right.
  - right. exists t, m, c, (Event _ e w1 (Err err)), []. split_and!; try done. left. by exists err.
Qed.

(** The group is read again and [out] makes the output. *)
Definition then_info {A} (groupId : string) (out : XmtpGroupInfo → A) (t1 : list cevent) (r : res A) : Prop :=
  ∃ w1 answer, t1 = [Event _ (CGetGroupInfo groupId) w1 answer] ∧ r = out <$> answer.
Definition then_return {A} (out : A) (t1 : list cevent) (r : res A) : Prop := t1 = [] ∧ r = Ok out.
Lemma then_info_wp {A} groupId (out : XmtpGroupInfo → A) w t :
  wp env (bind_ok (perform (CGetGroupInfo groupId)) (λ g, Ret (Ok (out g)))) w t
    (λ t' _ r, ∃ t1, t' = t ++ t1 ∧ then_info groupId out t1 r).
Proof. cbn. intros w1 [g|e] _; eexists; (split; [reflexivity|]); eexists _, _; by split. Qed.
(** What a purge asks for after leaving. *)
Definition then_purge (chatId : string) (purge : option bool) (groupId : string) (t1 : list cevent) (r : res LeaveOutput)
  : Prop :=
  if bool_decide (purge = Some true) then
    let input := mkCleanup (Some chatId) groupId true cl_leave_purge in
    if cd_cleanup deps then ∃ w1 answer, t1 = [Event _ (CCleanupLocal input) w1 answer] ∧
      r = (λ c, mkLeft chatId groupId true (Some c)) <$> answer
    else inert t1 ∧ r = Ok (mkLeft chatId groupId true (Some (mkCleanupResult true [])))
  else t1 = [] ∧ r = Ok (mkLeft chatId groupId false None).
(** The name a profile update publishes. *)
Definition selected_name (input : ProfileInput) (name : string) : Prop :=
  pf_profileName input = Some name ∨
  pf_profileName input = None ∧ ∃ op store o, pf_operatorId input = Some op ∧ op_lookup store op = Ok o ∧
    name = oc_label (or_config o).

Lemma leave_wp chatId purge w :
  wp env (chat_leave deps chatId purge) w []
    (λ t _ r, changes_once chatId None (λ c, c = gch_leave) (then_purge chatId purge (group_now chatId w)) w t r).
Proof.
  apply on_group_wp. intros m w1 t Hm Ht. eapply change_wp; [done|done|reflexivity|done|].
  intros _ w2 t'. unfold then_purge, runLocalCleanup. case_bool_decide; [|by exists []; rewrite app_nil_r].
  destruct (cd_cleanup deps); cbn.
  - intros w3 [c|e] _; eexists; (split; [reflexivity|]); eexists _, _; by split.
  - intros w3 [] _. eexists. split; [done|]. split; [by repeat constructor|done].
Qed.
Lemma profile_wp input w :
  wp env (chat_update_profile deps input) w []
    (λ t _ r, changes_once (pf_chatId input) (pf_identityLabel input)
       (λ c, ∃ name, selected_name input name ∧
          c = gch_message (sl_encodeProfileUpdate (cd_labels deps) (Some name)) (Some (sl_profileUpdate (cd_labels deps))))
       (λ t1 r, t1 = [] ∧ isOk r = true) w t r).
Proof.
  apply on_group_wp. intros m w1 t Hm Ht. unfold resolveProfileSelection, selected_name.
  destruct (pf_profileName input) as [name|].
  { cbn [bind_ok bind]. eapply change_wp; [done|done|exists name; split; [by left|reflexivity]|done|].
    intros _ w2 t'. exists []. by rewrite app_nil_r. }
  destruct (pf_operatorId input) as [op|]; [|by left]. cbn [bind_ok bind wp peek fst snd].
  destruct (cw_operators w1) as [store|]; [|by left]. cbn [bind_ok bind wp called peek fst snd]. intros w2 [] _.
  assert (inert (t ++ [Event _ CTick w1 tt])) as Ht' by (apply Forall_app; split; [done|by repeat constructor]).
  destruct (op_lookup _ op) as [o|e] eqn:Ho; [|by left].
  cbn [bind]. eapply change_wp; [done|done| |done|].
  - exists (oc_label (or_config o)). split; [|reflexivity]. right. split; [done|]. by eexists _, _, o.
  - intros _ w3 t'. exists []. by rewrite app_nil_r.
Qed.

(** C27: every action on a group asks the network for at most one change, of
    the group the chat stood for when the action started, and for the change
    its name says.  The client that asks is the one that served the group when
    the action started, if no identity label is given and there is one; else
    the client registered, when it is looked up, for the identity that had the
    given label when the action started, or for the first identity when no
    label is given (an empty one counts as none).  An error of the network is
    the error of the action and then nothing follows; a purge asks for the
    clean-up only after the group was left. *)
Theorem group_actions_exact w t w' :
  (∀ i r, run env w (chat_add_member deps i) t w' r →
     changes_once (mi_chatId i) (mi_identityLabel i) (λ c, c = gch_add [mi_inboxId i])
       (then_info (group_now (mi_chatId i) w) (λ g, mkMemberCount (mi_chatId i) (group_now (mi_chatId i) w)
          (length (xg_memberInboxIds g)))) w t r) ∧
  (∀ i r, run env w (chat_remove_member deps i) t w' r →
     changes_once (mi_chatId i) (mi_identityLabel i) (λ c, c = gch_remove [mi_inboxId i])
       (then_info (group_now (mi_chatId i) w) (λ g, mkMemberCount (mi_chatId i) (group_now (mi_chatId i) w)
          (length (xg_memberInboxIds g)))) w t r) ∧
  (∀ chat inbox r, run env w (chat_promote_member deps chat inbox) t w' r →
     changes_once chat None (λ c, c = gch_promote inbox)
       (then_return (mkRole chat (group_now chat w) inbox role_admin)) w t r) ∧
  (∀ chat inbox r, run env w (chat_demote_member deps chat inbox) t w' r →
     changes_once chat None (λ c, c = gch_demote inbox)
       (then_return (mkRole chat (group_now chat w) inbox role_member)) w t r) ∧
  (∀ chat changes r, run env w (chat_update deps chat changes) t w' r →
     changes_once chat None (λ c, c = gch_metadata changes)
       (then_info (group_now chat w) (λ g, mkChatGroup g (Some chat))) w t r) ∧
  (∀ i r, run env w (chat_update_profile deps i) t w' r →
     changes_once (pf_chatId i) (pf_identityLabel i)
       (λ c, ∃ name, selected_name i name ∧
          c = gch_message (sl_encodeProfileUpdate (cd_labels deps) (Some name)) (Some (sl_profileUpdate (cd_labels deps))))
       (λ t1 r, t1 = [] ∧ isOk r = true) w t r) ∧
  (∀ chat purge r, run env w (chat_leave deps chat purge) t w' r →
     changes_once chat None (λ c, c = gch_leave) (then_purge chat purge (group_now chat w)) w t r) ∧
  (∀ chat force r, run env w (chat_rm deps chat force) t w' r →
     Forall (λ ev, modifies ev = None) t ∧
     ∀ input, Some input ∈ map cleans t →
       input = mkCleanup (Some chat) (group_now chat w) (bool_decide (force = Some true)) cl_rm).
Proof.
  split_and!.
  - intros i r Hrun. refine (wp_run env _ w [] (λ t _ r, changes_once _ _ _ _ w t r) t w' r _ Hrun).
    apply on_group_wp. intros m w1 t1 Hm Ht. eapply change_wp; [done|done|reflexivity|done|].
    intros _ w2 t2. apply then_info_wp.
  - intros i r Hrun. refine (wp_run env _ w [] (λ t _ r, changes_once _ _ _ _ w t r) t w' r _ Hrun).
    apply on_group_wp. intros m w1 t1 Hm Ht. eapply change_wp; [done|done|reflexivity|done|].
    intros _ w2 t2. apply then_info_wp.
  - intros chat inbox r Hrun. refine (wp_run env _ w [] (λ t _ r, changes_once _ _ _ _ w t r) t w' r _ Hrun).
    apply on_group_wp. intros m w1 t1 Hm Ht. eapply change_wp; [done|done|reflexivity|done|].
    intros _ w2 t2. exists []. by rewrite app_nil_r.
  - intros chat inbox r Hrun. refine (wp_run env _ w [] (λ t _ r, changes_once _ _ _ _ w t r) t w' r _ Hrun).
    apply on_group_wp. intros m w1 t1 Hm Ht. eapply change_wp; [done|done|reflexivity|done|].
    intros _ w2 t2. exists []. by rewrite app_nil_r.
  - intros chat changes r Hrun. refine (wp_run env _ w [] (λ t _ r, changes_once _ _ _ _ w t r) t w' r _ Hrun).
    apply on_group_wp. intros m w1 t1 Hm Ht. eapply change_wp; [done|done|reflexivity|done|].
    intros _ w2 t2. apply then_info_wp.
  - intros i r Hrun. exact (wp_run env _ w [] _ t w' r (profile_wp i w) Hrun).
  - intros chat purge r Hrun. exact (wp_run env _ w [] _ t w' r (leave_wp chat purge w) Hrun).
  - intros chat force r Hrun. unfold chat_rm, runLocalCleanup in Hrun. cbn [run peek fst snd] in Hrun.
    destruct (cd_cleanup deps); cbn in Hrun; destruct Hrun as (w1 & x & t1 & _ & -> & Hrun).
    + assert (t1 = []) as -> by (destruct x; cbn in Hrun; by destruct Hrun as (? & ? & ?)).
      split; [by repeat constructor|]. by intros input [= ->]%list_elem_of_singleton.
    + cbn in Hrun. destruct Hrun as (-> & _). split; [by repeat constructor|].
      by intros input ?%list_elem_of_singleton.
Qed.
End group_actions.

(** ** Inviting *)
Section inviting.
Context (env : CoreWorld → CoreWorld → Prop) (deps : ConversationDeps).
Hypothesis env_tags : ∀ w w', env w w' → cw_inviteTags w' = cw_inviteTags w.
Definition invite_post (tagBytes : bytes) (input : ChatInviteInput) (w : CoreWorld) (t : list cevent) (w' : CoreWorld)
  (r : res ChatInviteOutput) : Prop :=
  match r with
  | Err _ => cw_inviteTags w' = cw_inviteTags w
  | Ok o =>
      cw_inviteTags w' = (if cd_storeTag deps then om_set (ct_groupId o) (ct_inviteTag o) else λ m, m) (cw_inviteTags w) ∧
      ct_groupId o = group_now (cv_chatId input) w ∧ ct_inviteTag o = invite_tag tagBytes ∧
      ∃ w1 request, last t = Some (Event _ (CGenerateInvite request) w1 (Ok (ct_inviteUrl o))) ∧
        iq_groupId request = ct_groupId o ∧ iq_tag request = ct_inviteTag o ∧
        iq_creatorInboxId request = ct_creatorInboxId o
  end.
(** Generating an invite stores its tag under the group, once the scheme has
    made the URL and not otherwise. *)
Lemma chat_invite_spec tagBytes input w t w' r : run env w (chat_invite deps tagBytes input) t w' r →
  invite_post tagBytes input w t w' r.
Proof using env_tags.
  intros Hrun. refine (wp_run env _ w [] (invite_post tagBytes input w) t w' r _ Hrun).
  unfold invite_post.
  unfold chat_invite. cbn [wp peek fst snd]. destruct (cd_signers deps); [|done]. destruct (cd_config deps) as [config|]; [|done].
  assert (∀ w1 w2, rtc env w1 w2 → cw_inviteTags w2 = cw_inviteTags w1) as Htags.
  { intros w1 w2 Hr. induction Hr as [|w1 w2 w3 Hw _ IH]; [done|]. by rewrite IH, (env_tags _ _ Hw). }
  apply wp_bind_ok, resolveIdentity_prelim. intros t1 w1 [resolved|e] _ Hw1 _; [|by apply Htags]. cbn [app].
  apply wp_bind_ok. cbn [getManagedClient wp peek fst snd].
  destruct (cr_get _ _) as [m|]; [|by apply Htags].
  apply wp_bind_ok. cbn [perform wp]. intros w2 [group|e] Hw2%env_tags; [|rewrite Hw2; by apply Htags].
  apply wp_bind_ok. cbn [perform wp]. intros w3 [key|e] Hw3%env_tags; [|rewrite Hw3, Hw2; by apply Htags].
  apply wp_bind_ok. cbn [perform wp]. intros w4 [url|e] Hw4%env_tags; [|rewrite Hw4, Hw3, Hw2; by apply Htags].
  cbn [wp fst snd store_tag ct_groupId ct_inviteTag ct_inviteUrl ct_creatorInboxId].
  assert (cw_inviteTags w4 = cw_inviteTags w) as <- by (rewrite Hw4, Hw3, Hw2; by apply Htags).
  split_and!; [by destruct (cd_storeTag deps)|done|done|]. rewrite last_snoc. by eexists _, _.
Qed.
End inviting.

(** ** Examples *)
Definition demo_deps : ConversationDeps := mkConvDeps (Some demo_config) true true demo_labels true true true true.
Definition demo_new_group : XmtpGroupInfo := mkGroup "group-9" "Nine" "" None ["net-1"] "2026".
Definition demo_core9 : CoreWorld := (ensureLocalId "conv_9" "group-9" demo_core).1.
Lemma demo_create_run :
  run eq demo_core (chat_create "conv_9" (mkChatCreate [] (Some "Nine") None))
    [Event unit CTick demo_core tt;
     Event (res XmtpGroupInfo) (CCreateGroup 7 [] (Some "Nine")) demo_core (Ok demo_new_group)]
    demo_core9 (Some (Ok (mkChatCreated (Some "conv_9") "group-9" "Nine" "net-1" 1))).
Proof. do 2 (eexists _, _, _; split; [reflexivity|split; [reflexivity|]]). by split_and!. Qed.
Lemma chat_ids_resolve_witness : group_now "conv_9" demo_core9 = "group-9".
Proof.
  apply named_resolves.
  apply (proj1 (chat_ids_resolve (H := Toy.lib) (H0 := iso_date) (λ _, None) (λ k, k) eq
    (λ w w' H Hm, eq_ind w maps_inv Hm w' H) demo_core _ demo_core9
    ltac:(split; apply (bool_decide_unpack _); vm_compute; exact I))
    "conv_9" (mkChatCreate [] (Some "Nine") None) _ ltac:(discriminate) demo_create_run).
Defined.
Definition demo_leaving : list cevent :=
  [Event (res unit) (CLeaveGroup 7 "group-1") demo_core (Ok tt);
   Event (res CleanupResult) (CCleanupLocal (mkCleanup (Some "conv_1") "group-1" true cl_leave_purge)) demo_core
     (Ok (mkCleanupResult true ["delete database"]))].
Lemma demo_leave_run :
  run eq demo_core (chat_leave demo_deps "conv_1" (Some true)) demo_leaving demo_core
    (Ok (mkLeft "conv_1" "group-1" true (Some (mkCleanupResult true ["delete database"])))).
Proof. do 2 (eexists _, _, _; split; [reflexivity|split; [reflexivity|]]). by split_and!. Qed.
Lemma group_actions_exact_witness :
  changes_once eq demo_deps "conv_1" None (λ c, c = gch_leave) (then_purge demo_deps "conv_1" (Some true) "group-1") demo_core
    demo_leaving (Ok (mkLeft "conv_1" "group-1" true (Some (mkCleanupResult true ["delete database"])))).
Proof.
  destruct (group_actions_exact eq demo_deps demo_core demo_leaving demo_core) as (_ & _ & _ & _ & _ & _ & Hleave & _).
  exact (Hleave "conv_1" (Some true) _ demo_leave_run).
Defined.
