(* ===== verification/Base64.v ===== *)
(** * Base64

    [btoa] and [atob] of the Web platform (the latter with its forgiving
    decoding) and the URL variants [base64urlEncode] and [base64urlDecode] of
    [keys/src/jwt.ts]. *)
From S2P Require Import Prelude Bytes Text.
Local Open Scope Z_scope.

(** ** The platform's functions *)
Definition B64_ALPHABET : string := "ABCDEFGHIJKLMNOPQRSTUVWXYZabcdefghijklmnopqrstuvwxyz0123456789+/".
Definition b64_char (n : Z) : ascii := default "="%char (String.get (Z.to_nat n) B64_ALPHABET).
Definition b64_val (c : ascii) : option Z := Z.of_nat <$> str_indexOf c B64_ALPHABET.
(** Three bytes are four digits; leftover bits are padded with zeros. *)
Fixpoint to_sextets (l : bytes) : list Z :=
  match l with
  | a :: b :: c :: l =>
      let v := Zb a * 65536 + Zb b * 256 + Zb c in
      v / 262144 :: v / 4096 mod 64 :: v / 64 mod 64 :: v mod 64 :: to_sextets l
  | [a; b] => let v := Zb a * 1024 + Zb b * 4 in [v / 4096; v / 64 mod 64; v mod 64]
  | [a] => let v := Zb a * 16 in [v / 64; v mod 64]
  | [] => []
  end.
(** The other way leftover bits are dropped. *)
Fixpoint from_sextets (l : list Z) : bytes :=
  match l with
  | a :: b :: c :: d :: l =>
      let v := a * 262144 + b * 4096 + c * 64 + d in
      byte_Z (v / 65536) :: byte_Z (v / 256) :: byte_Z v :: from_sextets l
  | [a; b; c] => let v := (a * 4096 + b * 64 + c) / 4 in [byte_Z (v / 256); byte_Z v]
  | [a; b] => [byte_Z ((a * 64 + b) / 16)]
  | _ => []
  end.
Definition pad_char : ascii := "="%char.
Abbreviation chars := String.string_of_list_ascii.
Definition btoa (l : bytes) : string :=
  chars (map b64_char (to_sextets l) ++ replicate ((3 - length l mod 3) mod 3) pad_char).
Definition ascii_space (c : ascii) : bool := bool_decide (nat_of_ascii c ∈ [9; 10; 12; 13; 32]%nat).
Definition strip_pad (cs : list ascii) : list ascii :=
  match rev cs with
  | a :: b :: r =>
      if bool_decide (a = pad_char) then if bool_decide (b = pad_char) then rev r else rev (b :: r) else cs
  | _ => cs
  end.
(** [None]: it throws. *)
Definition atob (s : string) : option bytes :=
  let cs := List.filter (λ c, negb (ascii_space c)) (String.list_ascii_of_string s) in
  let cs := if (length cs mod 4 =? 0)%nat then strip_pad cs else cs in
  if (length cs mod 4 =? 1)%nat then None else from_sextets <$> mapM b64_val cs.

(** ** The URL variants *)
Definition base64urlEncode (data : bytes) : string :=
  match data with
  | [] => ""
  | _ => strip_trailing pad_char (replaceAll "/" "_" (replaceAll "+" "-" (btoa data)))
  end.
Definition base64urlDecode (str : string) : option bytes :=
  if bool_decide (str = "") then Some []
  else
    let padded := str +:+ chars (replicate ((4 - String.length str mod 4) mod 4) pad_char) in
    atob (replaceAll "_" "/" (replaceAll "-" "+" padded)).

Example b64_ex : base64urlEncode (utf8 "any carnal pleas?>") = "YW55IGNhcm5hbCBwbGVhcz8-".
Proof. vm_compute. reflexivity. Qed.
Example b64_ex2 : base64urlDecode "YW55IGNhcm5hbCBwbGVhcz8-" = Some (utf8 "any carnal pleas?>").
Proof. vm_compute. reflexivity. Qed.
Example b64_ex3 : atob " Z g = =" = Some (utf8 "f") ∧ atob "Z" = None ∧ atob "Zg=" = None ∧ atob "Zg" = Some (utf8 "f").
Proof. vm_compute. done. Qed.

(** ** Strings as lists of characters *)
Lemma chars_app l k : chars (l ++ k) = chars l +:+ chars k.
Proof.
  induction l as [|c l IH]; [done|]. change (String c (chars (l ++ k)) = String c (chars l) +:+ chars k).
  by rewrite str_cons_app, IH.
Qed.
Lemma list_of_chars l : String.list_ascii_of_string (chars l) = l.
Proof. apply String.list_ascii_of_string_of_list_ascii. Qed.
Lemma length_chars l : String.length (chars l) = length l.
Proof. induction l as [|c l IH]; [done|]. cbn. by f_equal. Qed.
Definition swap_char (c d x : ascii) : ascii := if decide (x = c) then d else x.
Lemma replaceAll_chars c d l : replaceAll c (String d "") (chars l) = chars (map (swap_char c d) l).
Proof.
  induction l as [|x l IH]; [done|]. unfold swap_char in *. cbn. rewrite IH. by case_decide.
Qed.
Lemma str_rev_chars l : str_rev (chars l) = chars (rev l).
Proof.
  assert (∀ acc, str_rev_app (chars l) (chars acc) = chars (rev l ++ acc)) as H.
  { induction l as [|c l IH]; intros acc; [done|]. cbn [String.string_of_list_ascii str_rev_app rev].
    rewrite <- app_assoc. apply (IH (c :: acc)). }
  transitivity (chars (rev l ++ [])); [exact (H [])|by rewrite app_nil_r].
Qed.
Lemma rev_reverse {A} (l : list A) : rev l = reverse l.
Proof. apply rev_alt. Qed.
Lemma drop_prefix_chars c fuel l k : (k ≤ fuel)%nat → head l ≠ Some c →
  drop_prefixes fuel [String c ""] (chars (replicate k c ++ l)) = chars l.
Proof.
  revert k. induction fuel as [|fuel IH]; intros k Hk Hl.
  { by assert (k = 0%nat) as -> by lia. }
  destruct k as [|k].
  - apply drop_prefixes_none. destruct l as [|d l]; [done|]. cbn in Hl |- *.
    rewrite bool_decide_false by congruence. done.
  - cbn. rewrite bool_decide_true by done. cbn. apply IH; [lia|done].
Qed.
Lemma strip_trailing_chars c l k : last l ≠ Some c →
  strip_trailing c (chars (l ++ replicate k c)) = chars l.
Proof.
  intros Hl. unfold strip_trailing. rewrite str_rev_chars, rev_app_distr, length_chars.
  rewrite (rev_reverse (replicate k c)), reverse_replicate, drop_prefix_chars.
  - by rewrite str_rev_chars, rev_involutive.
  - rewrite length_app, length_replicate. lia.
  - by rewrite rev_reverse, head_reverse.
Qed.

(** ** Digits *)
Definition sextets_ok (l : list Z) : Prop := Forall (λ n, 0 <= n < 64) l.
Definition url_char (n : Z) : ascii := swap_char "/" "_" (swap_char "+" "-" (b64_char n)).
Definition url_chars : string := "ABCDEFGHIJKLMNOPQRSTUVWXYZabcdefghijklmnopqrstuvwxyz0123456789-_".
Lemma sextet_cases (P : Z → bool) : forallb P (seqZ 0 64) = true → ∀ n, 0 <= n < 64 → P n = true.
Proof. intros Hall n Hn. rewrite forallb_forall in Hall. apply Hall, list_elem_of_In, elem_of_seqZ. lia. Qed.
Lemma b64_val_char n : 0 <= n < 64 → b64_val (b64_char n) = Some n.
Proof.
  intros Hn. refine (bool_decide_eq_true_1 _ _). revert n Hn.
  apply (sextet_cases (λ n, bool_decide (b64_val (b64_char n) = Some n))). by vm_compute.
Qed.
Lemma url_char_back n : 0 <= n < 64 →
  swap_char "_" "/" (swap_char "-" "+" (url_char n)) = b64_char n ∧ url_char n ≠ pad_char ∧
  b64_char n ≠ pad_char ∧ ascii_space (b64_char n) = false ∧ str_indexOf (url_char n) url_chars ≠ None.
Proof.
  intros Hn. refine (bool_decide_eq_true_1 _ _). revert n Hn.
  apply (sextet_cases (λ n, bool_decide (swap_char "_" "/" (swap_char "-" "+" (url_char n)) = b64_char n ∧
    url_char n ≠ pad_char ∧ b64_char n ≠ pad_char ∧ ascii_space (b64_char n) = false ∧
    str_indexOf (url_char n) url_chars ≠ None))). by vm_compute.
Qed.
Lemma bytes_ind3 (P : bytes → Prop) : P [] → (∀ a, P [a]) → (∀ a b, P [a; b]) →
  (∀ a b c l, P l → P (a :: b :: c :: l)) → ∀ l, P l.
Proof.
  intros H0 H1 H2 H3. fix IH 1. intros [|a [|b [|c l]]]; [done|apply H1|apply H2|apply H3, IH].
Qed.
Lemma sextets_in_range l : sextets_ok (to_sextets l).
Proof.
  induction l as [|a|a b|a b c l IH] using bytes_ind3; cbn [to_sextets]; [constructor| | |];
    repeat (constructor; [pose proof (Zb_bound a); try pose proof (Zb_bound b); try pose proof (Zb_bound c);
      Z.div_mod_to_equations; lia|]); [constructor..|exact IH].
Qed.
Lemma from_to_sextets l : from_sextets (to_sextets l) = l.
Proof.
  induction l as [|a|a b|a b c l IH] using bytes_ind3; [done| | |];
    cbn [to_sextets from_sextets]; rewrite ?IH; repeat f_equal; apply Zb_inj; rewrite Zb_byte_Z;
    pose proof (Zb_bound a); try pose proof (Zb_bound b); try pose proof (Zb_bound c);
    Z.div_mod_to_equations; lia.
Qed.
Lemma length_sextets l : (length (to_sextets l) mod 4 + (3 - length l mod 3) mod 3 = 4 ∨
  length (to_sextets l) mod 4 = 0 ∧ length l mod 3 = 0)%nat ∧ (length (to_sextets l) mod 4 ≠ 1)%nat.
Proof.
  induction l as [|a|a b|a b c l IH] using bytes_ind3; [cbn; lia..|]. cbn [to_sextets length].
  replace (S (S (S (S (length (to_sextets l)))))) with (length (to_sextets l) + 1 * 4)%nat by lia.
  replace (S (S (S (length l)))) with (length l + 1 * 3)%nat by lia.
  by rewrite !Nat.Div0.mod_add.
Qed.

(** ** The round trip *)
Definition is_url_char (c : ascii) : bool := bool_decide (is_Some (str_indexOf c url_chars)).
Lemma map_pad f p : f pad_char = pad_char → map f (replicate p pad_char) = replicate p pad_char.
Proof. intros Hf. induction p as [|p IH]; [done|]. cbn. by rewrite Hf, IH. Qed.
Lemma base64urlEncode_chars l : base64urlEncode l = chars (map url_char (to_sextets l)).
Proof.
  unfold base64urlEncode. destruct l as [|a l]; [done|]. unfold btoa.
  rewrite !replaceAll_chars, !map_app, !map_map.
  rewrite map_pad by done.
  apply strip_trailing_chars. rewrite last_lookup. intros Hl.
  apply list_lookup_fmap_Some in Hl as (n & Hp & Hn). apply list_elem_of_lookup_2 in Hn.
  pose proof (sextets_in_range (a :: l)) as Hr. unfold sextets_ok in Hr. rewrite Forall_forall in Hr. specialize (Hr n Hn).
  by destruct (url_char_back n Hr) as (_ & Hne & _).
Qed.
Lemma mapM_b64 l : sextets_ok l → mapM b64_val (map b64_char l) = Some l.
Proof. induction 1 as [|n l Hn Hl IH]; [done|]. cbn -[b64_val b64_char]. by rewrite b64_val_char, IH. Qed.
Lemma filter_b64 l p : sextets_ok l →
  List.filter (λ c, negb (ascii_space c)) (map b64_char l ++ replicate p pad_char) = map b64_char l ++ replicate p pad_char.
Proof.
  induction 1 as [|n l Hn Hl IH].
  - cbn [map app]. induction p as [|p IH]; [done|]. cbn. by rewrite IH.
  - cbn -[b64_char ascii_space]. destruct (url_char_back n Hn) as (_ & _ & _ & -> & _). cbn. by rewrite IH.
Qed.
Lemma strip_pad_spec l p : (p ≤ 2)%nat → (length l + p ≥ 2)%nat → last l ≠ Some pad_char →
  strip_pad (l ++ replicate p pad_char) = l.
Proof.
  intros Hp Hn Hl. unfold strip_pad. rewrite rev_app_distr, (rev_reverse (replicate p pad_char)), reverse_replicate.
  rewrite <- head_reverse, <- rev_reverse in Hl.
  assert (rev (rev l) = l) as Hr by apply rev_involutive. rewrite <- length_rev in Hn.
  destruct p as [|[|[|p]]]; [| | |lia]; destruct (rev l) as [|a [|b r]]; cbn [replicate app length head] in *; try lia;
    rewrite ?bool_decide_true by done; rewrite ?bool_decide_false by congruence; by rewrite ?app_nil_r.
Qed.
Lemma atob_digits l : sextets_ok l → (length l mod 4 ≠ 1)%nat → l ≠ [] →
  atob (chars (map b64_char l ++ replicate ((4 - length l mod 4) mod 4) pad_char)) = Some (from_sextets l).
Proof.
  intros Hok Hm Hne. unfold atob. rewrite list_of_chars, filter_b64 by done.
  rewrite length_app, length_map, length_replicate.
  pose proof (Nat.mod_upper_bound (length l) 4 ltac:(lia)) as Hu. pose proof (Nat.div_mod_eq (length l) 4) as Hd.
  assert ((length l + (4 - length l mod 4) mod 4) mod 4 = 0)%nat as ->.
  { destruct (length l mod 4)%nat as [|[|[|[|k]]]] eqn:E; [..|lia]; try lia; cbn [Nat.sub];
      rewrite <- Nat.Div0.add_mod_idemp_l, E; done. }
  cbn [Nat.eqb]. rewrite strip_pad_spec.
  - rewrite length_map, (proj2 (Nat.eqb_neq _ _)) by done. by rewrite mapM_b64.
  - destruct (length l mod 4)%nat as [|[|[|[|k]]]]; cbn; lia.
  - rewrite length_map. destruct (length l) as [|[|n]] eqn:El; [by destruct l|done|lia].
  - rewrite last_lookup. intros Hl. apply list_lookup_fmap_Some in Hl as (n & Hp & Hn). apply list_elem_of_lookup_2 in Hn.
    unfold sextets_ok in Hok. rewrite Forall_forall in Hok. by destruct (url_char_back n (Hok n Hn)) as (_ & _ & ? & _).
Qed.
Lemma base64url_roundtrip l : base64urlDecode (base64urlEncode l) = Some l ∧
  str_forallb is_url_char (base64urlEncode l) = true.
Proof.
  rewrite base64urlEncode_chars. pose proof (sextets_in_range l) as Hok. split.
  - unfold base64urlDecode. case_bool_decide as He.
    { destruct l as [|a [|b [|c l]]]; done. }
    rewrite length_chars, length_map, <- chars_app, !replaceAll_chars, !map_app, !map_map.
    assert (map (λ n, swap_char "_" "/" (swap_char "-" "+" (url_char n))) (to_sextets l) = map b64_char (to_sextets l)) as Hmap.
    { apply map_ext_in. intros n Hn. apply list_elem_of_In in Hn. unfold sextets_ok in Hok. rewrite Forall_forall in Hok.
      by destruct (url_char_back n (Hok n Hn)) as (-> & _). }
    rewrite Hmap.
    rewrite map_pad by done.
    rewrite atob_digits, from_to_sextets; [done|done|apply length_sextets|].
    intros E. by rewrite E in He.
  - induction Hok as [|n ns Hn Hns IH]; [done|]. cbn [map String.string_of_list_ascii str_forallb].
    rewrite IH, andb_true_r. unfold is_url_char. destruct (url_char_back n Hn) as (_ & _ & _ & _ & Hu).
    apply bool_decide_eq_true_2. by destruct (str_indexOf (url_char n) url_chars).
Qed.
