(* ===== verification/Jwt.v ===== *)
(** * Administrator tokens

    [keys/src/jwt.ts]: the tokens that authenticate the administrator, signed
    with Ed25519: encoding, signing, and the verification of a token.
    [JSON.parse], the text decoder and WebCrypto are a [Class] with the laws
    their documentation states; numbers are integers, as the payload's schema
    demands. *)
From S2P Require Import Prelude Bytes Text Json Errors Base64.
Local Open Scope Z_scope.

(** [None]: it throws. *)
Class JwtLib := {
  jl_parse : string → option json;
  jl_decodeUtf8 : bytes → string;
  jl_import : bytes → option bytes;                    (* a raw public key *)
  jl_sign (privateKey data : bytes) : option bytes;
  jl_verify (publicKey signature data : bytes) : option bool;
  jl_public : bytes → bytes                            (* of a private key *)
}.
Class JwtLibLaws `{JwtLib} := {
  jl_decode s : startsWith (bytes_str [239; 187; 191]%nat) s = false → jl_decodeUtf8 (utf8 s) = s;  (* no BOM *)
  jl_verify_sign k data signature : jl_sign k data = Some signature →
    jl_import (jl_public k) = Some (jl_public k) ∧ jl_verify (jl_public k) signature data = Some true
}.

Record AdminJwtPayload := mkPayload { iss : string; iat : Z; exp : Z; jti : string }.
Record DecodedJwt := mkDecoded { header : json; payload : json }.
Abbreviation res A := (result SignetError A).
Definition dot : ascii := "."%char.

Section jwt.
Context `{JwtLib}.
Definition jwt_part (v : json) : string := base64urlEncode (utf8 (print (strip v))).
Definition encodeJwt (header payload : json) : string := jwt_part header +:+ "." +:+ jwt_part payload.
Definition decode_part (part : string) : option json := b ← base64urlDecode part; jl_parse (jl_decodeUtf8 b).
Definition decodeJwt (headerPayload : string) : res DecodedJwt :=
  match str_split dot headerPayload with
  | [headerPart; payloadPart] =>
      match decode_part headerPart, decode_part payloadPart with
      | Some header, Some payload => Ok (mkDecoded header payload)
      | _, _ => Err (ValidationError_create "jwt" "Invalid base64url encoding" None)
      end
  | _ => Err (ValidationError_create "jwt" "Expected 2 parts (header.payload)" None)
  end.
(** [AdminJwtPayloadSchema.safeParse]. *)
Definition parse_payload (v : json) : option AdminJwtPayload :=
  match jget "iss" v, jget "sub" v, jget "iat" v, jget "exp" v, jget "jti" v with
  | JStr iss, JStr sub, JNum iat, JNum exp, JStr jti =>
      if bool_decide (sub = "admin") && (0 <? iat) && (0 <? exp) then Some (mkPayload iss iat exp jti) else None
  | _, _, _, _, _ => None
  end.
Definition JWT_HEADER : json := JObj [("alg", JStr "EdDSA"); ("typ", JStr "JWT")].
(** [cause]: the text of what WebCrypto threw. *)
Definition signJwt (privateKey : bytes) (payload : json) (cause : string) : res string :=
  let headerPayload := encodeJwt JWT_HEADER payload in
  match jl_sign privateKey (utf8 headerPayload) with
  | Some signature => Ok (headerPayload +:+ "." +:+ base64urlEncode signature)
  | None => Err (InternalError_create "Failed to sign JWT" (Some [("cause", JStr cause)]))
  end.
(** [nowMs]: [Date.now()].  [None]: the promise rejects, which happens when
    the header is [null] or [undefined]. *)
Definition verifyJwt (token : string) (publicKeyBytes : bytes) (clockSkewSeconds : option Z) (nowMs : Z)
  : option (res AdminJwtPayload) :=
  let clockSkew := default 30 clockSkewSeconds in
  match str_split dot token with
  | [headerPart; payloadPart; sigPart] =>
      let headerPayload := headerPart +:+ "." +:+ payloadPart in
      match decodeJwt headerPayload with
      | Err e => Some (Err e)
      | Ok decoded =>
          if nullish (header decoded) then None
          else
            let alg := jget "alg" (header decoded) in
            if negb (bool_decide (alg = JStr "EdDSA")) then
              Some (Err (ValidationError_create "jwt.header.alg" ("Expected EdDSA, got " +:+ toString alg) None))
            else match parse_payload (payload decoded) with
                 | None => Some (Err (ValidationError_create "jwt.payload" "Invalid JWT payload schema" None))
                 | Some payload =>
                     match jl_import publicKeyBytes with
                     | None => Some (Err (AuthError_create "Failed to import admin public key" None))
                     | Some publicKey =>
                         match base64urlDecode sigPart with
                         | None => Some (Err (ValidationError_create "jwt.signature" "Invalid base64url signature" None))
                         | Some sigBytes =>
                             match jl_verify publicKey sigBytes (utf8 headerPayload) with
                             | None | Some false => Some (Err (AuthError_create "Invalid admin token signature" None))
                             | Some true =>
                                 let now := nowMs / 1000 in
                                 if exp payload <=? now - clockSkew then
                                   Some (Err (AuthError_create "Admin token expired" None))
                                 else if now + clockSkew <? iat payload then
                                   Some (Err (ValidationError_create "jwt.iat" "Token issued in future" None))
                                 else Some (Ok payload)
                             end
                         end
                     end
                 end
      end
  | _ => Some (Err (ValidationError_create "jwt" "Malformed JWT: expected 3 parts" None))
  end.
End jwt.

(** ** Parts *)
Lemma clean_strip v : clean v = true → strip v = v.
Proof.
  induction v as [| |b|z|s|l IH|o IH] using json_nested_ind; try done.
  - cbn [clean strip]. intros Hc%forallb_Forall_true. f_equal. induction IH as [|v l Hv Hl IHl]; [done|].
    apply Forall_cons in Hc as [Hc Hcl]. cbn [map]. rewrite IHl by done. f_equal. rewrite Hv by done. by destruct v.
  - cbn [clean strip]. intros Hc%forallb_Forall_true. f_equal. induction IH as [|[k v] o Hv Ho IHo]; [done|].
    apply Forall_cons in Hc as [Hc Hco]. cbn [map snd] in *. rewrite Hv by done. cbn [filter list_filter snd].
    rewrite decide_True by by destruct v. f_equal. by apply IHo.
Qed.
Lemma url_char_no_dot s : str_forallb is_url_char s = true → str_without dot s = true.
Proof.
  apply str_forallb_impl. intros c Hc. apply negb_true_iff, bool_decide_eq_false. by intros ->.
Qed.
Lemma encoded_no_dot l : str_without dot (base64urlEncode l) = true.
Proof. apply url_char_no_dot, base64url_roundtrip. Qed.
Lemma split3 a b c : str_without dot a = true → str_without dot b = true → str_without dot c = true →
  str_split dot ((a +:+ "." +:+ b) +:+ "." +:+ c) = [a; b; c].
Proof.
  intros Ha Hb Hc. rewrite !str_app_assoc, !str_cons_app, !str_nil_app. rewrite str_split_app by done.
  rewrite str_split_app, str_split_clean by done. done.
Qed.
Lemma split2 a b : str_without dot a = true → str_without dot b = true →
  str_split dot (a +:+ "." +:+ b) = [a; b].
Proof. intros Ha Hb. rewrite str_cons_app, str_nil_app, str_split_app, str_split_clean by done. done. Qed.
Lemma split_parts s l : str_split dot s = l → Forall (λ p, str_without dot p = true) l.
Proof.
  intros <-. unfold str_without. induction s as [|c s IH]; [by repeat constructor|]. cbn [str_split]. case_decide as Hc.
  - by constructor.
  - destruct (str_split dot s) as [|p ps]; [repeat constructor; cbn; by rewrite bool_decide_false by done|].
    apply Forall_cons in IH as [Hp IH]. constructor; [|done]. cbn. by rewrite bool_decide_false, Hp by done.
Qed.

Section tokens.
Context {L : JwtLib}.
Lemma decodeJwt_parts a b : str_without dot a = true → str_without dot b = true →
  decodeJwt (a +:+ "." +:+ b) =
  match decode_part a, decode_part b with
  | Some header, Some payload => Ok (mkDecoded header payload)
  | _, _ => Err (ValidationError_create "jwt" "Invalid base64url encoding" None)
  end.
Proof. intros Ha Hb. unfold decodeJwt. by rewrite split2. Qed.

(** What an accepted token has shown. *)
Definition token_evidence (token : string) (publicKeyBytes : bytes) (skew nowMs : Z) (p : AdminJwtPayload) : Prop :=
  ∃ headerPart payloadPart sigPart hv pv key sig,
    str_split dot token = [headerPart; payloadPart; sigPart] ∧
    decode_part headerPart = Some hv ∧ jget "alg" hv = JStr "EdDSA" ∧
    decode_part payloadPart = Some pv ∧ jget "sub" pv = JStr "admin" ∧ parse_payload pv = Some p ∧
    jl_import publicKeyBytes = Some key ∧ base64urlDecode sigPart = Some sig ∧
    jl_verify key sig (utf8 (headerPart +:+ "." +:+ payloadPart)) = Some true ∧
    nowMs / 1000 - skew < exp p ∧ iat p <= nowMs / 1000 + skew.
Lemma parse_payload_sub v p : parse_payload v = Some p → jget "sub" v = JStr "admin" ∧ 0 < iat p ∧ 0 < exp p.
Proof.
  unfold parse_payload. destruct (jget "iss" v), (jget "sub" v), (jget "iat" v), (jget "exp" v), (jget "jti" v);
    try done. case_match eqn:E; [|done]. intros [= <-].
  apply andb_true_iff in E as [[->%bool_decide_eq_true ?]%andb_true_iff ?]. split; [done|cbn; lia].
Qed.
Lemma verifyJwt_evidence token pk skew nowMs p :
  verifyJwt token pk skew nowMs = Some (Ok p) → token_evidence token pk (default 30 skew) nowMs p.
Proof.
  unfold verifyJwt. destruct (str_split dot token) as [|h [|b [|s [|]]]] eqn:Hs; try done.
  pose proof (split_parts _ _ Hs) as Hd. repeat (apply Forall_cons in Hd as [? Hd]).
  rewrite decodeJwt_parts by done. destruct (decode_part h) as [hv|] eqn:Hh; [|done].
  destruct (decode_part b) as [bv|] eqn:Hb; [|done]. cbn [header payload].
  destruct (nullish hv); [done|]. case_bool_decide as Halg; [|done]. cbn [negb].
  destruct (parse_payload bv) as [p'|] eqn:Hp; [|done]. destruct (jl_import pk) as [key|] eqn:Hk; [|done].
  destruct (base64urlDecode s) as [sig|] eqn:Hsig; [|done].
  destruct (jl_verify key sig _) as [[]|] eqn:Hv; [|done..].
  destruct (exp p' <=? _) eqn:He; [done|]. destruct (_ <? iat p') eqn:Hi; [done|]. intros [= ->].
  apply Z.leb_gt in He. apply Z.ltb_ge in Hi. exists h, b, s, hv, bv, key, sig.
  by pose proof (parse_payload_sub _ _ Hp) as [Hsub _].
Qed.

Context {Laws : JwtLibLaws}.
(** [JSON.parse] undoes [JSON.stringify] on [v]. *)
Definition parses_back (v : json) : Prop := clean v = true ∧ jl_parse (print v) = Some v.
Lemma decode_jwt_part o : parses_back (JObj o) →
  decode_part (jwt_part (JObj o)) = Some (JObj o).
Proof.
  intros [Hc Hp]. unfold decode_part, jwt_part. rewrite (proj1 (base64url_roundtrip _)). cbn [mbind option_bind].
  by rewrite (clean_strip _ Hc), jl_decode.
Qed.

(** A token signed with the private key is accepted exactly in its window. *)
Lemma signed_token_verifies k fields p sig skew nowMs :
  jl_sign k (utf8 (encodeJwt JWT_HEADER (JObj fields))) = Some sig → parse_payload (JObj fields) = Some p →
  parses_back JWT_HEADER → parses_back (JObj fields) →
  verifyJwt (encodeJwt JWT_HEADER (JObj fields) +:+ "." +:+ base64urlEncode sig) (jl_public k) skew nowMs = Some (
    if exp p + default 30 skew <=? nowMs / 1000 then Err (AuthError_create "Admin token expired" None)
    else if nowMs / 1000 + default 30 skew <? iat p
         then Err (ValidationError_create "jwt.iat" "Token issued in future" None)
    else Ok p).
Proof.
  intros Hsig Hp Hh Hf. apply jl_verify_sign in Hsig as [Hi Hv]. unfold encodeJwt in *.
  unfold verifyJwt. rewrite split3 by apply encoded_no_dot.
  rewrite decodeJwt_parts by apply encoded_no_dot. unfold JWT_HEADER at 1. rewrite (decode_jwt_part _ Hh), (decode_jwt_part _ Hf).
  cbn [header payload nullish]. rewrite bool_decide_true by done. cbn [negb]. rewrite Hp, Hi.
  rewrite (proj1 (base64url_roundtrip sig)), Hv.
  replace (exp p <=? nowMs / 1000 - default 30 skew) with (exp p + default 30 skew <=? nowMs / 1000).
  { by destruct (exp p + default 30 skew <=? nowMs / 1000), (nowMs / 1000 + default 30 skew <? iat p). }
  destruct (Z.leb_spec (exp p + default 30 skew) (nowMs / 1000)), (Z.leb_spec (exp p) (nowMs / 1000 - default 30 skew));
    done || lia.
Qed.

(** an administrator token: whatever is accepted is three parts whose
    header says EdDSA and whose payload is an administrator's, with a
    signature over the first two parts that the given key verifies, not
    expired and not from the future beyond the skew; and a token signed with
    the private key is accepted by the public key from the skew before its
    issue until the skew after its expiry, and refused with the right error
    outside. *)
Theorem jwt_window :
  (∀ token pk skew nowMs p, verifyJwt token pk skew nowMs = Some (Ok p) →
     token_evidence token pk (default 30 skew) nowMs p) ∧
  (∀ k fields p cause token skew nowMs,
     signJwt k (JObj fields) cause = Ok token → parse_payload (JObj fields) = Some p →
     parses_back JWT_HEADER → parses_back (JObj fields) →
     verifyJwt token (jl_public k) skew nowMs = Some (
       if exp p + default 30 skew <=? nowMs / 1000 then Err (AuthError_create "Admin token expired" None)
       else if nowMs / 1000 + default 30 skew <? iat p
            then Err (ValidationError_create "jwt.iat" "Token issued in future" None)
       else Ok p)).
Proof.
  split; [apply verifyJwt_evidence|]. intros k fields p cause token skew nowMs Hs Hp Hh Hf.
  unfold signJwt in Hs. destruct (jl_sign k _) as [sig|] eqn:Hsig; [|done]. injection Hs as <-.
  by apply signed_token_verifies.
Qed.
End tokens.

(** ** Witness: an identity for a signature scheme *)
Definition demo_claims (now : Z) : json :=
  JObj [("iat", JNum now); ("exp", JNum (now + 120)); ("sub", JStr "admin"); ("iss", JStr "ab"); ("jti", JStr "01")].
Definition demo_jwt : JwtLib := {|
  jl_parse s := if bool_decide (s = print JWT_HEADER) then Some JWT_HEADER
                else if bool_decide (s = print (demo_claims 1000)) then Some (demo_claims 1000) else None;
  jl_decodeUtf8 := String.string_of_list_byte; jl_import k := Some k;
  jl_sign k d := Some (k ++ d);
  jl_verify k s d := Some (bool_decide (map Zb s = map Zb (k ++ d)));
  jl_public k := k |}.
Lemma demo_jwt_laws : @JwtLibLaws demo_jwt.
Proof.
  split.
  - intros s _. apply String.string_of_list_byte_of_string.
  - intros k d s [= <-]. cbn. by rewrite bool_decide_true.
Qed.
Definition demo_token : string :=
  match @signJwt demo_jwt (utf8 "key") (demo_claims 1000) "" with Ok t => t | Err _ => "" end.
Lemma jwt_window_witness :
  @verifyJwt demo_jwt demo_token (utf8 "key") None 1149000 = Some (Ok (mkPayload "ab" 1000 1120 "01")) ∧
  @verifyJwt demo_jwt demo_token (utf8 "key") None 1150000 = Some (Err (AuthError_create "Admin token expired" None)).
Proof.
  pose proof (proj2 (@jwt_window demo_jwt demo_jwt_laws) (utf8 "key") (match demo_claims 1000 with JObj o => o | _ => [] end) (mkPayload "ab" 1000 1120 "01") ""
    demo_token None) as H.
  split.
  - apply (H 1149000 eq_refl eq_refl); split; vm_compute; reflexivity.
  - apply (H 1150000 eq_refl eq_refl); split; vm_compute; reflexivity.
Defined.
(** A header that is [null] makes the verification throw. *)
Lemma null_header_throws : @verifyJwt {| jl_parse _ := Some JNull; jl_decodeUtf8 _ := ""; jl_import k := Some k;
  jl_sign _ _ := None; jl_verify _ _ _ := None; jl_public k := k |} "bnVsbA.bnVsbA." [] None 0 = None.
Proof. vm_compute. reflexivity. Qed.
