(* ===== verification/KeyDerivation.v ===== *)
(** * Mnemonics and derived keys

    [keys/src/derivation.ts]: a mnemonic of 24 words from 32 random bytes, its
    seed, and the keys derived from the seed along a path: BIP-32 on
    secp256k1 for the identity keys and SLIP-10 on Ed25519 for the signing
    keys.  A throwing computation is a [result] whose error is the text.

    The hashes, the curves and the Unicode normalisation of the libraries are
    a [Class]; the lengths and the bound their documentation states are a
    second one.  The 32-bit operations of [extractBits] are on numbers of at
    most 16 bits and do not wrap; the one that does, [>>> 0], is written
    out. *)
From S2P Require Import Prelude Bytes JsDate Text Json Ids Bip39Words.
Local Open Scope Z_scope.

Abbreviation throws A := (result string A).
Class KeyLib := {
  kl_sha256 : bytes → bytes;
  kl_hmac_sha512 (key data : bytes) : bytes;
  kl_pbkdf2 (password salt : bytes) : bytes;  (* SHA-512, 2048 rounds, 64 bytes *)
  kl_nfkd : string → string;
  kl_keccak256 : bytes → bytes;
  kl_secp_public (privateKey : bytes) (compressed : bool) : throws bytes;
  kl_order : Z;
  kl_ed_public : bytes → bytes;
  kl_secp_sign (hash privateKey : bytes) : throws bytes;
  kl_ed_sign (data privateKey : bytes) : bytes
}.
Class KeyLibLaws `{KeyLib} := {
  kl_hmac_length key data : length (kl_hmac_sha512 key data) = 64%nat;
  kl_compressed_length key pub : kl_secp_public key true = Ok pub → length pub = 33%nat;
  kl_order_bound : 0 < kl_order <= 256 ^ 32
}.

(** ** Byte arrays *)
(** [dst.set(src, off)] where it fits. *)
Definition put (off : nat) (src dst : bytes) : bytes := take off dst ++ src ++ drop (off + length src) dst.
Definition zeros (n : nat) : bytes := replicate n Byte.x00.
Definition bytesToBigInt (l : bytes) : Z := foldl (λ r b, Z.lor (Z.shiftl r 8) (Zb b)) 0 l.
(** From the last byte to the first; [acc] are the bytes already written. *)
Fixpoint bigIntToBytes (value : Z) (length : nat) (acc : bytes) : bytes :=
  match length with
  | O => acc
  | S n => bigIntToBytes (Z.shiftr value 8) n (byte_Z (Z.land value 255) :: acc)
  end.
Fixpoint extract_loop (data : bytes) (bitOffset numBits : nat) (steps : list nat) (value : Z) : throws Z :=
  match steps with
  | [] => Ok value
  | i :: steps =>
      let byteIndex := ((bitOffset + i) / 8)%nat in
      let bitIndex := Z.of_nat (7 - (bitOffset + i) mod 8) in
      match data !! byteIndex with
      | None => Err ("Bit extraction out of bounds at byte " +:+ pretty byteIndex)
      | Some byte =>
          extract_loop data bitOffset numBits steps
            (if negb (Z.land (Z.shiftr (Zb byte) bitIndex) 1 =? 0)
             then Z.lor value (Z.shiftl 1 (Z.of_nat (numBits - 1 - i))) else value)
      end
  end.
Definition extractBits (data : bytes) (bitOffset numBits : nat) : throws Z :=
  extract_loop data bitOffset numBits (seq 0 numBits) 0.

(** ** Paths *)
Definition EVM_PATH_PREFIX : string := "m/44'/60'/0'/0".
Definition ED25519_PATH_PREFIX : string := "m/44'/501'".
Definition HARDENED_OFFSET : Z := 2147483648.
Definition MAX_DERIVATION_INDEX : Z := 2147483647.
Record PathSegment := mkSegment { index : Z; hardened : bool }.
Definition quote_mark : ascii := "'"%char.
(** [part.endsWith("'")] with the rest. *)
Fixpoint cut_mark (part : string) : option string :=
  match part with
  | EmptyString => None
  | String c EmptyString => if bool_decide (c = quote_mark) then Some "" else None
  | String c s => String c <$> cut_mark s
  end.
Definition is_digit (c : ascii) : bool := bool_decide (is_Some (digit_val c)).
(** [parseInt] of digits. *)
Fixpoint dec_value (acc : Z) (s : string) : Z :=
  match s with EmptyString => acc | String c s => dec_value (acc * 10 + default 0 (digit_val c)) s end.
Definition parse_segment (part : string) : throws PathSegment :=
  if bool_decide (part = "") then Err "Invalid derivation path: empty segment"
  else
    let hardened := bool_decide (is_Some (cut_mark part)) in
    let indexStr := default part (cut_mark part) in
    let bad := Err ("Invalid derivation path segment: " +:+ dq part) in
    if bool_decide (indexStr = "") || negb (str_forallb is_digit indexStr) then bad
    else let index := dec_value 0 indexStr in
         if (index <? 0) || (MAX_DERIVATION_INDEX <? index) then bad else Ok (mkSegment index hardened).
Fixpoint parse_segments (parts : list string) : throws (list PathSegment) :=
  match parts with
  | [] => Ok []
  | part :: parts => s ← parse_segment part; ss ← parse_segments parts; Ok (s :: ss)
  end.
Definition parsePath (path : string) : throws (list PathSegment) :=
  if bool_decide (path = "m") then Ok []
  else match str_split slash path with
       | root :: parts =>
           if bool_decide (root = "m") then parse_segments parts
           else Err ("Invalid derivation path: must start with " +:+ dq "m")
       | [] => Err ("Invalid derivation path: must start with " +:+ dq "m")
       end.

Section derivation.
Context `{KeyLib}.

(** ** Mnemonics *)
Fixpoint mnemonic_words (allBytes : bytes) (steps : list nat) : throws (list string) :=
  match steps with
  | [] => Ok []
  | i :: steps =>
      index ← extractBits allBytes (i * 11) 11;
      match BIP39_ENGLISH_WORDLIST !! Z.to_nat index with
      | None => Err ("Invalid wordlist index: " +:+ pretty index)
      | Some word => words ← mnemonic_words allBytes steps; Ok (word :: words)
      end
  end.
(** [entropy]: the 32 random bytes. *)
Definition generateMnemonic (entropy : bytes) : throws string :=
  let checksumByte := kl_sha256 entropy !! 0%nat in
  let allBytes := <[32%nat := default Byte.x00 checksumByte]> (put 0 entropy (zeros 33)) in
  words ← mnemonic_words allBytes (seq 0 24);
  Ok (str_join " " words).
Definition mnemonicToSeed (mnemonic : string) (passphrase : option string) : bytes :=
  kl_pbkdf2 (utf8 (kl_nfkd mnemonic)) (utf8 ("mnemonic" +:+ kl_nfkd (default "" passphrase))).

(** ** Children *)
(** The index as four big-endian bytes from position 33. *)
Definition write_index (childIndex : Z) (data : bytes) : bytes :=
  <[36%nat := byte_Z (Z.land childIndex 255)]>
  (<[35%nat := byte_Z (Z.land (Z.shiftr childIndex 8) 255)]>
  (<[34%nat := byte_Z (Z.land (Z.shiftr childIndex 16) 255)]>
  (<[33%nat := byte_Z (Z.land (Z.shiftr childIndex 24) 255)]> data))).
(** [(index + HARDENED_OFFSET) >>> 0]. *)
Definition harden (index : Z) : Z := (index + HARDENED_OFFSET) mod 2 ^ 32.
Definition deriveChild (parentKey parentChainCode : bytes) (segment : PathSegment) : throws (bytes * bytes) :=
  data ← (if hardened segment then Ok (put 1 parentKey (<[0%nat := Byte.x00]> (zeros 37)))
          else pubkey ← kl_secp_public parentKey true; Ok (put 0 pubkey (zeros 37)));
  let childIndex := if hardened segment then harden (index segment) else index segment in
  let derived := kl_hmac_sha512 parentChainCode (write_index childIndex data) in
  let childKeyBytes := slice 0 32 derived in
  let childChainCode := slice 32 64 derived in
  let result := (bytesToBigInt parentKey + bytesToBigInt childKeyBytes) mod kl_order in
  Ok (bigIntToBytes result 32 [], childChainCode).
Fixpoint derive_segments (privateKey chainCode : bytes) (segments : list PathSegment) : throws (bytes * bytes) :=
  match segments with
  | [] => Ok (privateKey, chainCode)
  | segment :: segments =>
      d ← deriveChild privateKey chainCode segment; derive_segments d.1 d.2 segments
  end.
Record DerivedKey := mkDerived { dk_privateKey : bytes; dk_publicKey : bytes; dk_chainCode : bytes }.
Definition derivePath (seed : bytes) (path : string) : throws DerivedKey :=
  segments ← parsePath path;
  let master := kl_hmac_sha512 (utf8 "Bitcoin seed") seed in
  d ← derive_segments (slice 0 32 master) (slice 32 64 master) segments;
  publicKey ← kl_secp_public d.1 false;
  Ok (mkDerived d.1 publicKey d.2).
Record DerivedEvmKey := mkEvm { evm_privateKey : bytes; evm_publicKey : bytes; evm_address : string }.
Definition deriveEvmKey (seed : bytes) (index : Z) : throws DerivedEvmKey :=
  derived ← derivePath seed (EVM_PATH_PREFIX +:+ "/" +:+ pretty index);
  let hash := kl_keccak256 (drop 1 (dk_publicKey derived)) in
  Ok (mkEvm (dk_privateKey derived) (dk_publicKey derived) ("0x" +:+ bytes_hex (drop 12 hash))).

(** Every segment is hardened, marked or not. *)
Fixpoint ed25519_segments (privateKey chainCode : bytes) (segments : list PathSegment) : bytes * bytes :=
  match segments with
  | [] => (privateKey, chainCode)
  | segment :: segments =>
      let data := write_index (harden (index segment)) (put 1 privateKey (<[0%nat := Byte.x00]> (zeros 37))) in
      let derived := kl_hmac_sha512 chainCode data in
      ed25519_segments (slice 0 32 derived) (slice 32 64 derived) segments
  end.
Definition deriveEd25519Path (seed : bytes) (path : string) : throws (bytes * bytes) :=
  segments ← parsePath path;
  let master := kl_hmac_sha512 (utf8 "ed25519 seed") seed in
  Ok (ed25519_segments (slice 0 32 master) (slice 32 64 master) segments).
Record DerivedEd25519Key := mkEd { ed_privateKey : bytes; ed_publicKey : bytes }.
Definition deriveEd25519Key (seed : bytes) (index : Z) : throws DerivedEd25519Key :=
  derived ← deriveEd25519Path seed (ED25519_PATH_PREFIX +:+ "/" +:+ pretty index +:+ "'/0'");
  Ok (mkEd derived.1 (kl_ed_public derived.1)).
End derivation.

Example parse_ex : parsePath "m/44'/60'/0'/0/7" =
  Ok [mkSegment 44 true; mkSegment 60 true; mkSegment 0 true; mkSegment 0 false; mkSegment 7 false].
Proof. vm_compute. reflexivity. Qed.
Example parse_ex2 : parsePath "m/2147483648" = Err ("Invalid derivation path segment: " +:+ dq "2147483648").
Proof. vm_compute. reflexivity. Qed.

(** ** Bytes and big integers *)
Lemma bytesToBigInt_spec l : bytesToBigInt l = be_value l.
Proof.
  unfold bytesToBigInt, be_value.
  assert (∀ a, 0 <= a → foldl (λ r b, Z.lor (Z.shiftl r 8) (Zb b)) a l = foldl (λ a b, a * 256 + Zb b) a l) as H.
  { induction l as [|b l IH]; intros a Ha; [done|]. cbn [foldl]. pose proof (Zb_bound b).
    rewrite lor_add by done. apply IH. lia. }
  by apply H.
Qed.
Lemma bigIntToBytes_spec value n acc : 0 <= value → bigIntToBytes value n acc = be_bytes n value ++ acc.
Proof.
  revert value acc. induction n as [|n IH]; intros value acc Hv; [done|]. cbn [bigIntToBytes be_bytes].
  rewrite IH by by apply Z.shiftr_nonneg. rewrite <- app_assoc, Z.shiftr_div_pow2 by lia. cbn [app].
  change (2 ^ 8) with 256. do 2 f_equal. change 255 with (Z.ones 8). rewrite Z.land_ones by lia.
  apply byte_Z_mod. change (2 ^ 8) with 256. by rewrite Z.mod_mod.
Qed.

(** ** Bits *)
Lemma test_bit x j : 0 <= j → negb (Z.land (Z.shiftr x j) 1 =? 0) = Z.testbit x j.
Proof.
  intros Hj. change 1 with (Z.ones 1). rewrite Z.land_ones by lia. change (2 ^ 1) with 2.
  rewrite <- Z.bit0_mod, Z.shiftr_spec, Z.add_0_l by lia. by destruct (Z.testbit x j).
Qed.
(** The bits of the result before step [i]. *)
Definition bits_read (V T off nb i value : Z) : Prop :=
  ∀ j, 0 <= j → Z.testbit value j = (nb - i <=? j) && (j <? nb) && Z.testbit V (T - off - nb + j).
Lemma bit_position (off i k nb q r L : nat) : (i + S k = nb)%nat → (r < 8)%nat → (off + i = 8 * q + r)%nat →
  8 * (Z.of_nat L - 1 - Z.of_nat q) + Z.of_nat (7 - r) =
  8 * Z.of_nat L - Z.of_nat off - Z.of_nat nb + Z.of_nat (nb - 1 - i).
Proof.
  intros Hi Hr Hq. assert (Z.of_nat off + Z.of_nat i = 8 * Z.of_nat q + Z.of_nat r) by lia.
  rewrite !Nat2Z.inj_sub by lia. lia.
Qed.
Lemma extract_loop_spec data off nb k i value : (off + nb ≤ 8 * length data)%nat → (i + k = nb)%nat →
  bits_read (be_value data) (8 * Z.of_nat (length data)) (Z.of_nat off) (Z.of_nat nb) (Z.of_nat i) value →
  ∃ v, extract_loop data off nb (seq i k) value = Ok v ∧
    bits_read (be_value data) (8 * Z.of_nat (length data)) (Z.of_nat off) (Z.of_nat nb) (Z.of_nat nb) v.
Proof.
  intros Hlen. revert i value. induction k as [|k IH]; intros i value Hi Hv.
  { exists value. split; [done|]. assert (i = nb) as -> by lia. exact Hv. }
  cbn [seq extract_loop].
  assert ((off + i) / 8 < length data)%nat as Hb by (apply Nat.Div0.div_lt_upper_bound; lia).
  destruct (lookup_lt_is_Some_2 data _ Hb) as [b Hbyte]. rewrite Hbyte, test_bit by lia.
  apply IH; [lia|]. intros j Hj.
  pose proof (Nat.mod_upper_bound (off + i) 8 ltac:(lia)).
  pose proof (be_value_bit data _ b (Z.of_nat (7 - (off + i) mod 8)) Hbyte ltac:(lia)) as Hbit.
  replace (8 * (Z.of_nat (length data) - 1 - Z.of_nat ((off + i) / 8)) + Z.of_nat (7 - (off + i) mod 8))
    with (8 * Z.of_nat (length data) - Z.of_nat off - Z.of_nat nb + Z.of_nat (nb - 1 - i)) in Hbit.
  2: { symmetry. apply bit_position with k; [done|done|]. apply Nat.div_mod_eq. }
  rewrite <- Hbit.
  destruct (decide (j = Z.of_nat (nb - 1 - i))) as [->|Hne].
  - rewrite (proj2 (Z.leb_le _ _)), (proj2 (Z.ltb_lt _ _)) by lia. cbn [andb].
    destruct (Z.testbit (be_value data) _) eqn:E.
    + rewrite Z.lor_spec, Z.shiftl_spec by lia. rewrite Z.sub_diag. cbn. by rewrite orb_true_r.
    + rewrite Hv by lia. rewrite (proj2 (Z.leb_gt _ _)) by lia. done.
  - transitivity (Z.testbit value j).
    + destruct (Z.testbit (be_value data) _); [|done].
      rewrite Z.lor_spec, Z.shiftl_spec by lia.
      assert (Z.testbit 1 (j - Z.of_nat (nb - 1 - i)) = false) as ->; [|by rewrite orb_false_r].
      destruct (Z.ltb_spec (j - Z.of_nat (nb - 1 - i)) 0); [by rewrite Z.testbit_neg_r|].
      apply Z.bits_above_log2; [lia|]. cbn. lia.
    + rewrite Hv by done. destruct (Z.leb_spec (Z.of_nat nb - Z.of_nat i) j), (Z.leb_spec (Z.of_nat nb - Z.of_nat (S i)) j);
        done || lia.
Qed.
(** The [nb] bits from [off] on. *)
Lemma extractBits_spec data off nb : (off + nb ≤ 8 * length data)%nat →
  extractBits data off nb =
  Ok (be_value data / 2 ^ (8 * Z.of_nat (length data) - Z.of_nat off - Z.of_nat nb) mod 2 ^ Z.of_nat nb).
Proof.
  intros Hlen. destruct (extract_loop_spec data off nb nb 0 0) as (v & Hv & Hbits); [done|lia| |].
  { intros j Hj. rewrite Z.bits_0. rewrite Z.sub_0_r.
    destruct (Z.leb_spec (Z.of_nat nb) j), (Z.ltb_spec j (Z.of_nat nb)); done || lia. }
  unfold extractBits. rewrite Hv. f_equal. apply Z.bits_inj'. intros j Hj. rewrite Hbits by done.
  rewrite Z.sub_diag, (proj2 (Z.leb_le 0 j)) by done. cbn [andb].
  destruct (Z.ltb_spec j (Z.of_nat nb)).
  - rewrite Z.mod_pow2_bits_low, Z.div_pow2_bits by lia. cbn [andb]. f_equal. lia.
  - by rewrite Z.mod_pow2_bits_high by lia.
Qed.

(** ** Mnemonics and their inverse

    The inverse as BIP-39 has it: the numbers of the words are the digits, in
    base 2048, of the entropy followed by its checksum. *)
Definition space : ascii := " "%char.
Definition word_index (w : string) : option nat := fst <$> list_find (λ x, x = w) BIP39_ENGLISH_WORDLIST.
Definition digits_value (l : list nat) : Z := foldl (λ a i, a * 2048 + Z.of_nat i) 0 l.
Section mnemonics.
Context `{KeyLib}.
Definition checksum (entropy : bytes) : Byte.byte := default Byte.x00 (kl_sha256 entropy !! 0%nat).
Definition mnemonicEntropy (mnemonic : string) : option bytes :=
  indices ← mapM word_index (str_split space mnemonic);
  let v := digits_value indices in
  let entropy := be_bytes 32 (v / 256) in
  if (length indices =? 24)%nat && (v mod 256 =? Zb (checksum entropy)) then Some entropy else None.

Lemma word_index_lookup i w : BIP39_ENGLISH_WORDLIST !! i = Some w → word_index w = Some i.
Proof.
  intros Hi. unfold word_index.
  assert (list_find (λ x, x = w) BIP39_ENGLISH_WORDLIST = Some (i, w)) as ->; [|done].
  apply list_find_Some. split_and!; [done|done|]. intros j y Hj Hlt ->.
  pose proof (NoDup_lookup _ _ _ _ wordlist_NoDup Hi Hj). lia.
Qed.
(** Digit [i] of the 24. *)
Definition digit (v : Z) (i : nat) : nat := Z.to_nat (v / 2 ^ (253 - 11 * Z.of_nat i) mod 2048).
Lemma digit_word v i : ∃ w, BIP39_ENGLISH_WORDLIST !! digit v i = Some w.
Proof.
  apply lookup_lt_is_Some_2. rewrite wordlist_length. unfold digit.
  pose proof (Z.mod_pos_bound (v / 2 ^ (253 - 11 * Z.of_nat i)) 2048 ltac:(lia)). lia.
Qed.
Lemma mnemonic_words_ok all i k : length all = 33%nat → (i + k = 24)%nat →
  ∃ ws, mnemonic_words all (seq i k) = Ok ws ∧ length ws = k ∧
    Forall (λ w, w ≠ "" ∧ str_without space w = true) ws ∧
    mapM word_index ws = Some (map (digit (be_value all)) (seq i k)).
Proof.
  intros Hlen. revert i. induction k as [|k IH]; intros i Hi; [by exists []|].
  cbn [seq mnemonic_words]. rewrite extractBits_spec by lia. cbn [mbind result_bind].
  rewrite Hlen. destruct (digit_word (be_value all) i) as [w Hw].
  assert (BIP39_ENGLISH_WORDLIST !!
    Z.to_nat (be_value all / 2 ^ (8 * Z.of_nat 33 - Z.of_nat (i * 11) - Z.of_nat 11) mod 2 ^ Z.of_nat 11) = Some w) as ->.
  { by replace (8 * Z.of_nat 33 - Z.of_nat (i * 11) - Z.of_nat 11) with (253 - 11 * Z.of_nat i) by lia. }
  destruct (IH (S i) ltac:(lia)) as (ws & -> & Hl & Hc & Hm). exists (w :: ws). split; [done|].
  split; [cbn; lia|]. split.
  { constructor; [|done]. pose proof wordlist_letters as Hall. rewrite Forall_forall in Hall.
    apply Hall. by eapply list_elem_of_lookup_2. }
  cbn [mapM map]. rewrite (word_index_lookup _ _ Hw), Hm. done.
Qed.
Lemma digits_value_digits v n : 0 <= v < 2 ^ 264 → (n ≤ 24)%nat →
  digits_value (map (digit v) (seq 0 n)) = v / 2 ^ (264 - 11 * Z.of_nat n).
Proof.
  intros Hv. induction n as [|n IH]; intros Hn; [cbn -[Z.pow]; by rewrite Z.div_small|].
  rewrite seq_S, map_app. unfold digits_value in *. rewrite foldl_app, IH by lia. cbn [foldl map].
  unfold digit. rewrite Z2Nat.id by (apply Z.mod_pos_bound; lia). rewrite Nat.add_0_l.
  replace (264 - 11 * Z.of_nat n) with (253 - 11 * Z.of_nat n + 11) by lia.
  replace (264 - 11 * Z.of_nat (S n)) with (253 - 11 * Z.of_nat n) by lia.
  rewrite Z.pow_add_r, <- Z.div_div by lia. change (2 ^ 11) with 2048.
  pose proof (Z.div_mod (v / 2 ^ (253 - 11 * Z.of_nat n)) 2048). lia.
Qed.

(** a mnemonic can always be made from 32 random bytes, has 24 words of
    the list, and determines those bytes: looking the words up, putting their
    numbers together and checking the checksum gives them back. *)
Theorem mnemonic_roundtrip entropy : length entropy = 32%nat →
  ∃ m, generateMnemonic entropy = Ok m ∧ length (str_split space m) = 24%nat ∧
    Forall (λ w, w ∈ BIP39_ENGLISH_WORDLIST) (str_split space m) ∧ mnemonicEntropy m = Some entropy.
Proof.
  intros Hlen. unfold generateMnemonic.
  assert (<[32%nat := default Byte.x00 (kl_sha256 entropy !! 0%nat)]> (put 0 entropy (zeros 33)) =
    entropy ++ [checksum entropy]) as ->.
  { unfold put, zeros, checksum. rewrite Hlen, take_0, drop_replicate. cbn [app Nat.add Nat.sub replicate].
    rewrite insert_app_r_alt by lia. by rewrite Hlen. }
  set (all := entropy ++ [checksum entropy]).
  assert (length all = 33%nat) as Hall by (unfold all; rewrite length_app, Hlen; done).
  destruct (mnemonic_words_ok all 0 24 Hall eq_refl) as (ws & -> & Hl & Hc & Hm).
  exists (str_join " " ws). split; [done|].
  assert (str_split space (str_join " " ws) = ws) as Hs.
  { destruct ws as [|w ws]; [done|]. apply str_split_join_back.
    eapply Forall_impl; [exact Hc|]. by intros ? [_ ?]. }
  rewrite Hs. split; [done|]. split.
  { apply Forall_forall. intros w [i Hw]%list_elem_of_lookup_1.
    apply (mapM_Some_1 word_index) in Hm. destruct (Forall2_lookup_l _ _ _ _ _ Hm Hw) as (d & _ & Hd).
    unfold word_index in Hd. apply fmap_Some in Hd as ([j y] & Hf & _).
    apply list_find_Some in Hf as (Hj & -> & _). by eapply list_elem_of_lookup_2. }
  unfold mnemonicEntropy. rewrite Hs, Hm. cbn [mbind option_bind].
  pose proof (be_value_bound all) as Hb. rewrite Hall in Hb. change (256 ^ Z.of_nat 33) with (2 ^ 264) in Hb.
  rewrite digits_value_digits by (done || lia). change (2 ^ (264 - 11 * Z.of_nat 24)) with 1. rewrite Z.div_1_r.
  assert (be_value all = be_value entropy * 256 + Zb (checksum entropy)) as -> by apply be_value_snoc.
  pose proof (Zb_bound (checksum entropy)).
  rewrite Z.div_add_l, (Z.div_small (Zb _)), Z.add_0_r by lia.
  assert (be_bytes 32 (be_value entropy) = entropy) as -> by (rewrite <- Hlen; apply be_bytes_be_value).
  rewrite length_map, length_seq, Nat.eqb_refl.
  rewrite Z.add_comm, Z.mod_add, Z.mod_small, Z.eqb_refl by lia. done.
Qed.
End mnemonics.

(** ** The standards

    BIP-32's private derivation over numbers: an extended key is a number and
    a chain code; a hardened child has an index from [2^31] on.  SLIP-10 for
    Ed25519 has hardened children only.  (BIP-32 also calls a child invalid
    whose left half is not below the order or whose key is 0; the code does
    not look, and neither does [ckd].) *)
Section standards.
Context `{KeyLib}.
Definition ser32 (i : Z) : bytes := be_bytes 4 i.
Definition ser256 (k : Z) : bytes := be_bytes 32 k.
Definition child_number (s : PathSegment) : Z := if hardened s then index s + 2 ^ 31 else index s.
Definition ckd (x : Z * bytes) (i : Z) : throws (Z * bytes) :=
  point ← (if 2 ^ 31 <=? i then Ok (Byte.x00 :: ser256 x.1) else kl_secp_public (ser256 x.1) true);
  let I := kl_hmac_sha512 x.2 (point ++ ser32 i) in
  Ok ((be_value (take 32 I) + x.1) mod kl_order, drop 32 I).
Fixpoint ckd_path (x : Z * bytes) (path : list Z) : throws (Z * bytes) :=
  match path with [] => Ok x | i :: path => y ← ckd x i; ckd_path y path end.
Definition master (curve : string) (seed : bytes) : bytes * bytes :=
  let I := kl_hmac_sha512 (utf8 curve) seed in (take 32 I, drop 32 I).
Definition bip32 (seed : bytes) (path : list Z) : throws (Z * bytes) :=
  let m := master "Bitcoin seed" seed in ckd_path (be_value m.1, m.2) path.
Definition slip10_child (x : bytes * bytes) (i : Z) : bytes * bytes :=
  let I := kl_hmac_sha512 x.2 (Byte.x00 :: x.1 ++ ser32 (i + 2 ^ 31)) in (take 32 I, drop 32 I).
Definition slip10 (seed : bytes) (path : list Z) : bytes * bytes := foldl slip10_child (master "ed25519 seed" seed) path.
(** A path in text. *)
Definition segment_text (s : PathSegment) : string := pretty (index s) +:+ (if hardened s then "'" else "").
Definition path_text (path : list PathSegment) : string := str_join "/" ("m" :: map segment_text path).
Definition path_ok (path : list PathSegment) : Prop := Forall (λ s, 0 <= index s < 2 ^ 31) path.

(** Decimals read back. *)
Lemma dec_value_app a s t : dec_value a (s +:+ t) = dec_value (dec_value a s) t.
Proof. revert a. induction s as [|c s IH]; intros a; [done|]. rewrite str_cons_app. cbn. apply IH. Qed.
Lemma dec_value_go x s : dec_value 0 (pretty_N_go x s) = dec_value (Z.of_N x) s.
Proof.
  revert s. induction (N.lt_wf_0 x) as [x _ IH]; intros s.
  destruct (decide (x = 0)%N) as [->|]; [by rewrite pretty_N_go_0|].
  rewrite pretty_N_go_step by lia. rewrite IH by (apply N.div_lt; lia). cbn [dec_value]. f_equal.
  assert (digit_val (pretty_N_char (x `mod` 10)) = Some (Z.of_N (x `mod` 10))) as ->.
  { pose proof (N.mod_upper_bound x 10 ltac:(lia)) as Hm. remember (x `mod` 10)%N as d.
    clear -Hm. destruct d as [|p]; [done|]. do 4 (destruct p as [p|p|]; try done; try lia). }
  cbn. rewrite (N.div_mod x 10) at 3 by lia. lia.
Qed.
Lemma pretty_digits z : 0 <= z → str_forallb is_digit (pretty z) = true ∧ dec_value 0 (pretty z) = z.
Proof.
  intros Hz. assert (∀ x s, str_forallb is_digit s = true → str_forallb is_digit (pretty_N_go x s) = true) as Hgo.
  { intros x. induction (N.lt_wf_0 x) as [x _ IH]; intros s Hs.
    destruct (decide (x = 0)%N) as [->|]; [by rewrite pretty_N_go_0|].
    rewrite pretty_N_go_step by lia. apply IH; [apply N.div_lt; lia|]. cbn [str_forallb]. rewrite Hs, andb_true_r.
    pose proof (N.mod_upper_bound x 10 ltac:(lia)) as Hm. remember (x `mod` 10)%N as d.
    clear -Hm. destruct d as [|p]; [done|]. do 4 (destruct p as [p|p|]; try done; try lia). }
  destruct z as [|p|p]; [done| |lia].
  change (pretty (Z.pos p)) with (pretty (N.pos p)). unfold pretty, pretty_N.
  rewrite decide_False by done. split; [by apply Hgo|]. by rewrite dec_value_go.
Qed.
Lemma unmarked s : str_without quote_mark s = true → cut_mark s = None ∧ cut_mark (s +:+ "'") = Some s.
Proof.
  unfold str_without. induction s as [|c s IH]; [done|]. cbn [str_forallb]. intros [Hc Hs]%andb_true_iff.
  destruct (IH Hs) as [H1 H2]. rewrite str_cons_app. apply negb_true_iff, bool_decide_eq_false in Hc.
  destruct s as [|d s]; [split; cbn; by rewrite ?bool_decide_false by done|].
  rewrite str_cons_app in H2 |- *.
  split; [transitivity (String c <$> cut_mark (String d s))|
    transitivity (String c <$> cut_mark (String d (s +:+ "'")))]; try done; by rewrite ?H1, ?H2.
Qed.
Lemma pretty_without c z : is_numchar c = false → str_without c (pretty (z : Z)) = true.
Proof.
  intros Hc. eapply str_forallb_impl; [|apply pretty_Z_num]. intros d Hd.
  apply negb_true_iff, bool_decide_eq_false. intros ->. by rewrite Hd in Hc.
Qed.
(** A segment of a path in text parses exactly when its index has 31 bits. *)
Lemma parse_segment_text s :
  if (0 <=? index s) && (index s <? 2 ^ 31) then parse_segment (segment_text s) = Ok s
  else isOk (parse_segment (segment_text s)) = false.
Proof.
  unfold parse_segment, segment_text. destruct (unmarked (pretty (index s))) as [H1 H2]; [by apply pretty_without|].
  destruct (pretty_Z_nonempty (index s)) as (c & t & Hp & _).
  assert (pretty (index s) ≠ "") as Hne by by rewrite Hp.
  assert (∀ e, pretty (index s) +:+ e ≠ "") as Hne' by (intros e; by rewrite Hp, str_cons_app).
  rewrite bool_decide_false by apply Hne'.
  assert (default (pretty (index s) +:+ (if hardened s then "'" else ""))
    (cut_mark (pretty (index s) +:+ (if hardened s then "'" else ""))) = pretty (index s) ∧
    bool_decide (is_Some (cut_mark (pretty (index s) +:+ (if hardened s then "'" else "")))) = hardened s) as [-> ->].
  { destruct (hardened s); [by rewrite H2|]. by rewrite str_app_nil_r, H1. }
  rewrite (bool_decide_false _ Hne). cbn [orb]. destruct (Z.leb_spec 0 (index s)) as [Hi|Hi]; cbn [andb].
  - destruct (pretty_digits (index s) Hi) as [Hd Hv]. rewrite Hd, Hv. cbn [negb].
    rewrite (proj2 (Z.ltb_ge (index s) 0)) by lia. cbn [orb]. unfold MAX_DERIVATION_INDEX.
    destruct (Z.ltb_spec (index s) (2 ^ 31)), (Z.ltb_spec 2147483647 (index s)); try lia; [by destruct s|done].
  - assert (str_forallb is_digit (pretty (index s)) = false) as ->; [|done].
    destruct (index s) as [|p|p]; [lia..|]. done.
Qed.
Lemma segment_without s : str_without slash (segment_text s) = true.
Proof.
  unfold segment_text. pose proof (pretty_without slash (index s) eq_refl) as Hn. revert Hn. unfold str_without.
  induction (pretty (index s)) as [|c t IH]; [by destruct (hardened s)|].
  rewrite str_cons_app. cbn [str_forallb]. intros [-> Hn]%andb_true_iff. by apply IH.
Qed.
Lemma split_path_text path : str_split slash (path_text path) = "m" :: map segment_text path.
Proof.
  apply str_split_join_back. constructor; [done|]. apply Forall_map, Forall_true, segment_without.
Qed.
Lemma parsePath_text path : path_ok path → parsePath (path_text path) = Ok path.
Proof.
  intros Hp. unfold parsePath. destruct path as [|s path]; [done|].
  rewrite bool_decide_false by done. rewrite split_path_text, bool_decide_true by done.
  induction Hp as [|a l Ha Hl IH]; [done|].
  cbn [map parse_segments]. pose proof (parse_segment_text a) as Hs.
  cbn beta in Ha. rewrite (proj2 (Z.leb_le _ _)), (proj2 (Z.ltb_lt _ _)) in Hs by lia. cbn [andb] in Hs.
  rewrite Hs. cbn [mbind result_bind]. by rewrite IH.
Qed.
Lemma parsePath_bad path s : s ∈ path → ¬ 0 <= index s < 2 ^ 31 → isOk (parsePath (path_text path)) = false.
Proof.
  intros Hs Hi. unfold parsePath. destruct path as [|s' path]; [by apply not_elem_of_nil in Hs|].
  rewrite bool_decide_false by done. rewrite split_path_text, bool_decide_true by done.
  induction Hs as [s l|s a l Hs IH].
  - cbn [map parse_segments]. pose proof (parse_segment_text s) as Hp.
    destruct (Z.leb_spec 0 (index s)), (Z.ltb_spec (index s) (2 ^ 31)); cbn [andb] in Hp; try lia;
      by destruct (parse_segment _).
  - cbn [map parse_segments]. destruct (parse_segment (segment_text a)); [|done]. cbn [mbind result_bind].
    specialize (IH Hi). by destruct (parse_segments _).
Qed.

Context `{!KeyLibLaws}.
Lemma slice_low l : slice 0 32 l = take 32 l.
Proof. unfold slice. by rewrite drop_0. Qed.
Lemma slice_high key data : slice 32 64 (kl_hmac_sha512 key data) = drop 32 (kl_hmac_sha512 key data).
Proof. unfold slice. apply take_ge. rewrite length_drop, kl_hmac_length. lia. Qed.
Lemma length_left key data : length (take 32 (kl_hmac_sha512 key data)) = 32%nat.
Proof. rewrite length_take, kl_hmac_length. lia. Qed.
Lemma left_range key data : let k := be_value (take 32 (kl_hmac_sha512 key data)) in 0 <= k < 256 ^ 32.
Proof.
  pose proof (be_value_bound (take 32 (kl_hmac_sha512 key data))) as Hb.
  rewrite length_left in Hb. exact Hb.
Qed.
Lemma write_index_spec pre i : length pre = 33%nat → 0 <= i < 2 ^ 32 → write_index i (pre ++ zeros 4) = pre ++ ser32 i.
Proof.
  intros Hl Hi. unfold write_index. rewrite !insert_app_r_alt by (rewrite ?length_app, ?length_insert; lia).
  rewrite Hl. cbn [Nat.sub zeros replicate insert list_insert].
  unfold ser32. cbn [be_bytes app]. rewrite !Z.shiftr_div_pow2 by lia. change 255 with (Z.ones 8).
  rewrite !Z.land_ones by lia.
  assert (∀ z, byte_Z (z mod 2 ^ 8) = byte_Z z) as Hb by (intros z; apply byte_Z_mod; by rewrite Z.mod_mod).
  rewrite !Hb, !Z.div_div by lia. done.
Qed.
Lemma hardened_data key : length key = 32%nat →
  put 1 key (<[0%nat := Byte.x00]> (zeros 37)) = (Byte.x00 :: key) ++ zeros 4.
Proof. intros Hl. unfold put. by rewrite Hl. Qed.
Lemma public_data pub : length pub = 33%nat → put 0 pub (zeros 37) = pub ++ zeros 4.
Proof. intros Hl. unfold put. by rewrite Hl. Qed.
Lemma harden_spec i : 0 <= i < 2 ^ 31 → harden i = i + 2 ^ 31.
Proof. intros Hi. unfold harden, HARDENED_OFFSET. rewrite Z.mod_small; lia. Qed.

Definition key_bytes (y : Z * bytes) : bytes * bytes := (ser256 y.1, y.2).
Definition key_range (k : Z) : Prop := 0 <= k < 256 ^ 32.
Lemma deriveChild_spec k c s : key_range k → 0 <= index s < 2 ^ 31 →
  deriveChild (ser256 k) c s = key_bytes <$> ckd (k, c) (child_number s).
Proof.
  intros Hk Hi. unfold deriveChild, ckd, child_number.
  assert (be_value (ser256 k) = k) as Hv.
  { unfold ser256. rewrite be_value_be_bytes. by apply Z.mod_small. }
  assert (0 < kl_order <= 256 ^ 32) as Hn by apply kl_order_bound.
  assert (∀ d i, length d = 33%nat → 0 <= i < 2 ^ 32 →
    let derived := kl_hmac_sha512 c (write_index i (d ++ zeros 4)) in
    @Ok string _ (bigIntToBytes ((bytesToBigInt (ser256 k) + bytesToBigInt (slice 0 32 derived)) mod kl_order) 32 [],
        slice 32 64 derived) =
    key_bytes <$> (Ok ((be_value (take 32 (kl_hmac_sha512 c (d ++ ser32 i))) + k) mod kl_order,
                       drop 32 (kl_hmac_sha512 c (d ++ ser32 i))))) as Hstep.
  { intros d i Hd Hr. cbn zeta. rewrite write_index_spec, slice_low, slice_high, !bytesToBigInt_spec, Hv by done.
    rewrite bigIntToBytes_spec, app_nil_r by (apply Z.mod_pos_bound; lia).
    unfold key_bytes, ser256. cbn. by rewrite Z.add_comm. }
  destruct (hardened s).
  - rewrite (proj2 (Z.leb_le _ _)) by lia. cbn [mbind result_bind fst snd].
    rewrite hardened_data by apply length_be_bytes. rewrite harden_spec by done.
    apply Hstep; [|lia]. rewrite length_cons. unfold ser256. by rewrite length_be_bytes.
  - rewrite (proj2 (Z.leb_gt _ _)) by lia. cbn [fst snd].
    destruct (kl_secp_public (ser256 k) true) as [pub|e] eqn:Hp; [|done]. cbn [mbind result_bind].
    apply kl_compressed_length in Hp. rewrite public_data by done. apply Hstep; [done|lia].
Qed.
Lemma ckd_range x i y : ckd x i = Ok y → key_range y.1.
Proof.
  assert (0 < kl_order <= 256 ^ 32) as Hn by apply kl_order_bound. unfold ckd. rewrite result_bind_ok. intros (p & _ & [= <-]).
  unfold key_range. cbn [fst]. pose proof (Z.mod_pos_bound (be_value (take 32 (kl_hmac_sha512 x.2 (p ++ ser32 i))) + x.1)
    kl_order (proj1 Hn)) as Hm. split; [apply Hm|]. eapply Z.lt_le_trans; [apply Hm|apply Hn].
Qed.
Lemma derive_segments_spec path k c : key_range k → path_ok path →
  derive_segments (ser256 k) c path = key_bytes <$> ckd_path (k, c) (map child_number path).
Proof.
  intros Hk Hp. revert k c Hk. induction Hp as [|s path Hs Hp IH]; intros k c Hk; [done|].
  cbn [derive_segments map ckd_path]. rewrite deriveChild_spec by done.
  destruct (ckd (k, c) (child_number s)) as [[k' c']|e] eqn:E; [|done].
  cbn [fmap result_fmap mbind result_bind key_bytes fst snd]. apply IH. by apply ckd_range in E.
Qed.
Lemma derivePath_bip32 seed path : path_ok path →
  derivePath seed (path_text path) =
  (y ← bip32 seed (map child_number path);
   publicKey ← kl_secp_public (ser256 y.1) false;
   Ok (mkDerived (ser256 y.1) publicKey y.2)).
Proof.
  intros Hp. unfold derivePath. rewrite parsePath_text by done. cbn [mbind result_bind].
  set (m := kl_hmac_sha512 (utf8 "Bitcoin seed") seed).
  assert (slice 0 32 m = ser256 (be_value (take 32 m))) as ->.
  { rewrite slice_low. unfold ser256. rewrite <- (length_left (utf8 "Bitcoin seed") seed) at 2.
    symmetry. apply be_bytes_be_value. }
  unfold m at 2. rewrite slice_high. fold m. unfold bip32, master. fold m. cbn [fst snd].
  rewrite derive_segments_spec; [|by apply left_range|done].
  by destruct (ckd_path _ _) as [y|e].
Qed.
Lemma ed25519_segments_spec path k c : length k = 32%nat → path_ok path →
  ed25519_segments k c path = foldl slip10_child (k, c) (map index path).
Proof.
  intros Hk Hp. revert k c Hk. induction Hp as [|s path Hs Hp IH]; intros k c Hk; [done|].
  cbn [ed25519_segments map foldl]. rewrite hardened_data, harden_spec, write_index_spec by (done || (cbn; lia) || lia).
  rewrite slice_low, slice_high. apply IH. apply length_left.
Qed.

(** the keys of an account: for an index of 31 bits the identity key is
    the BIP-32 key of the path 44'/60'/0'/0/index with the address of its
    public key, and the signing key is the SLIP-10 key of 44'/501'/index'/0';
    for every other index both throw. *)
Theorem account_keys_standard seed index :
  (0 <= index < 2 ^ 31 →
    deriveEvmKey seed index =
      (y ← bip32 seed [44 + 2 ^ 31; 60 + 2 ^ 31; 0 + 2 ^ 31; 0; index];
       publicKey ← kl_secp_public (ser256 y.1) false;
       Ok (mkEvm (ser256 y.1) publicKey ("0x" +:+ bytes_hex (drop 12 (kl_keccak256 (drop 1 publicKey)))))) ∧
    deriveEd25519Key seed index =
      (let key := (slip10 seed [44; 501; index; 0]).1 in Ok (mkEd key (kl_ed_public key)))) ∧
  (¬ 0 <= index < 2 ^ 31 →
    isOk (deriveEvmKey seed index) = false ∧ isOk (deriveEd25519Key seed index) = false).
Proof.
  unfold deriveEvmKey, deriveEd25519Key, deriveEd25519Path.
  set (p := [mkSegment 44 true; mkSegment 60 true; mkSegment 0 true; mkSegment 0 false; mkSegment index false]).
  set (q := [mkSegment 44 true; mkSegment 501 true; mkSegment index true; mkSegment 0 true]).
  assert (EVM_PATH_PREFIX +:+ "/" +:+ pretty index = path_text p) as ->.
  { change (path_text p) with (EVM_PATH_PREFIX +:+ "/" +:+ (pretty index +:+ "")). by rewrite str_app_nil_r. }
  assert (ED25519_PATH_PREFIX +:+ "/" +:+ pretty index +:+ "'/0'" = path_text q) as ->.
  { change (path_text q) with (ED25519_PATH_PREFIX +:+ "/" +:+ ((pretty index +:+ "'") +:+ "/0'")).
    by rewrite str_app_assoc. }
  split; intros Hi.
  - rewrite derivePath_bip32, parsePath_text by (repeat constructor; cbn; lia). split.
    + change (map child_number p) with [44 + 2 ^ 31; 60 + 2 ^ 31; 0 + 2 ^ 31; 0; index].
      destruct (bip32 _ _) as [y|e]; [|done]. cbn [mbind result_bind].
      by destruct (kl_secp_public _ false).
    + cbn [mbind result_bind]. rewrite slice_low, slice_high.
      rewrite ed25519_segments_spec by (apply length_left || (repeat constructor; cbn; lia)). done.
  - pose proof (parsePath_bad p (mkSegment index false) ltac:(set_solver) Hi) as Hp.
    pose proof (parsePath_bad q (mkSegment index true) ltac:(set_solver) Hi) as Hq.
    unfold derivePath. by destruct (parsePath (path_text p)), (parsePath (path_text q)).
Qed.
End standards.

(** ** Witnesses *)
Definition demo_lib : KeyLib := {|
  kl_sha256 d := replicate 32 (byte_Z (be_value d));
  kl_hmac_sha512 key data := take 64 (data ++ zeros 64);
  kl_pbkdf2 p s := p ++ s; kl_nfkd s := s; kl_keccak256 d := take 32 (d ++ zeros 32);
  kl_secp_public k c := Ok (if c : bool then take 33 (Byte.x02 :: k ++ zeros 33) else Byte.x04 :: k ++ k);
  kl_order := 2 ^ 255; kl_ed_public k := rev k;
  kl_secp_sign h k := Ok (h ++ k); kl_ed_sign d k := d ++ k |}.
Lemma demo_lib_laws : @KeyLibLaws demo_lib.
Proof.
  split.
  - intros key data. change (length (take 64 (data ++ zeros 64)) = 64%nat).
    unfold zeros. rewrite length_take, length_app, length_replicate. lia.
  - intros key pub [= <-]. change (length (take 33 (Byte.x02 :: key ++ zeros 33)) = 33%nat).
    unfold zeros. rewrite length_take, length_cons, length_app, length_replicate. lia.
  - split; by vm_compute.
Qed.
Definition demo_entropy : bytes := map to_byte (seq 7 32).
Lemma mnemonic_roundtrip_witness : ∃ m, @generateMnemonic demo_lib demo_entropy = Ok m ∧
  length (str_split space m) = 24%nat ∧
  Forall (λ w, w ∈ BIP39_ENGLISH_WORDLIST) (str_split space m) ∧ @mnemonicEntropy demo_lib m = Some demo_entropy.
Proof. apply (@mnemonic_roundtrip demo_lib demo_entropy). reflexivity. Defined.
Lemma account_keys_standard_witness :
  isOk (@deriveEvmKey demo_lib demo_entropy (2 ^ 31)) = false ∧
  @deriveEd25519Key demo_lib demo_entropy 3 =
    (let key := (@slip10 demo_lib demo_entropy [44; 501; 3; 0]).1 in Ok (mkEd key (@kl_ed_public demo_lib key))).
Proof.
  split.
  - apply (proj2 (@account_keys_standard demo_lib demo_lib_laws demo_entropy (2 ^ 31))). lia.
  - apply (proj1 (@account_keys_standard demo_lib demo_lib_laws demo_entropy 3)). lia.
Defined.
