(* ===== verification/Vault.v ===== *)
(** * The encrypted vault

    [keys/src/vault.ts]: secrets, wallets and API keys, in memory (for tests)
    and in files.  The operations of both are over their own state; the
    specification of a vault comes after them, and both are shown to
    implement it.

    The ciphers and key-derivation functions, the codecs and the order of a
    directory listing are a [Class]; its laws, from their documentation, are
    a second one.  An operation is atomic and takes what it draws from
    outside: random bytes, the time as a string, and what the file system
    throws during it, if anything: before it has changed anything, while it
    writes a file, or after ([chmodSync] comes after the write). *)
From S2P Require Import Prelude Bytes Text Json Errors Ids KeyDerivation.
Local Open Scope Z_scope.

Abbreviation res A := (result SignetError A).
(** [None]: the promise rejects. *)
Abbreviation outcome A := (option (res A)).
(** What the file system throws: nothing has changed; the first [n] bytes of
    the file are written ([syntax] is what [JSON.parse] will say of them); or
    the file is written and its mode cannot be set. *)
Inductive IoFault := io_refused (cause : string) | io_cut (cause : string) (n : nat) (syntax : string) | io_written (cause : string).
Definition io_cause (f : IoFault) : string := match f with io_refused c | io_cut c _ _ | io_written c => c end.
Record VaultInput := mkInput { in_salt : bytes; in_iv : bytes; in_now : string; in_io : option IoFault }.

Inductive Chain := evm | ed25519.
#[global] Instance Chain_eq_dec : EqDecision Chain.
Proof. solve_decision. Defined.
Record AccountEntry := mkAccount { ac_index : Z; ac_chain : Chain; ac_address : string }.
Record WalletFileInfo := mkInfo { wi_id : string; wi_label : string; wi_accountCount : nat; wi_createdAt : string }.

(** ** The interface *)
Class VaultOps (S : Type) := {
  v_set : VaultInput → string → bytes → S → S * outcome unit;
  v_get : VaultInput → string → S → outcome bytes;
  v_delete : VaultInput → string → S → S * outcome unit;
  v_list : S → list string;
  v_createWallet : VaultInput → string → string → string → string → S → S * outcome unit;
  v_readWallet : VaultInput → string → string → S → outcome string;
  v_deleteWallet : VaultInput → string → S → S * outcome unit;
  v_listWallets : VaultInput → S → outcome (list WalletFileInfo);
  v_getWalletAccounts : VaultInput → string → S → outcome (list AccountEntry);
  v_updateWalletAccounts : VaultInput → string → list AccountEntry → S → S * outcome unit;
  v_createApiKey : VaultInput → string → string → string → string → string → S → S * outcome unit;
  v_readApiKey : VaultInput → string → S → outcome (string * string);  (* mnemonic, walletId *)
  v_revokeApiKey : VaultInput → string → S → S * outcome unit
}.

(** ** The libraries; [None]: it throws *)
Class VaultLib := {
  vl_keys :: KeyLib;
  vl_scrypt (passphrase salt : bytes) (n r p dklen : Z) : bytes;
  vl_scrypt_accepts (n r p dklen : Z) : bool;
  vl_hkdf (ikm salt : bytes) (info : string) : bytes;
  vl_encrypt (key iv plaintext : bytes) : bytes;
  vl_decrypt (key iv ciphertext : bytes) : option bytes;
  vl_hexToBytes : string → option bytes;
  vl_decodeUtf8 : bytes → string;
  vl_parse : string → option json;
  vl_encodeURI : string → string;
  vl_decodeURI : string → option string;
  vl_readdir : list string → list string
}.

Definition DEFAULT_SCRYPT_N : Z := 131072.
Definition DEFAULT_SCRYPT_R : Z := 8.
Definition DEFAULT_SCRYPT_P : Z := 1.
Definition DEFAULT_SCRYPT_DKLEN : Z := 32.
Definition TEST_SCRYPT_N : Z := 1024.
Definition IV_BYTES : nat := 12.
Definition as_str (v : json) : option string := match v with JStr s => Some s | _ => None end.
Definition as_num (v : json) : option Z := match v with JNum z => Some z | _ => None end.
Definition is_object (v : json) : bool := match v with JNull | JObj _ | JArr _ => true | _ => false end.

(** ** Account entries in JSON

    The code checks that [accounts] is an array and nothing about its
    elements; elements that are not entries are left out here. *)
Definition chain_str (c : Chain) : string := match c with evm => "evm" | ed25519 => "ed25519" end.
Definition account_json (a : AccountEntry) : json :=
  JObj [("index", JNum (ac_index a)); ("chain", JStr (chain_str (ac_chain a))); ("address", JStr (ac_address a))].
Definition account_of (v : json) : option AccountEntry :=
  match jget "index" v, jget "chain" v, jget "address" v with
  | JNum i, JStr c, JStr a =>
      if bool_decide (c = "evm") then Some (mkAccount i evm a)
      else if bool_decide (c = "ed25519") then Some (mkAccount i ed25519 a) else None
  | _, _, _ => None
  end.
Definition accounts_of (v : json) : list AccountEntry :=
  match v with JArr l => base.omap account_of l | _ => [] end.

(** What [JSON.parse] makes of a file, or the text of its exception. *)
Abbreviation JsonFile := (result string json).

Section vault.
Context {V : VaultLib}.

(** ** Encryption *)
Definition encryptSecret (key : bytes) (iv plaintext : bytes) : bytes := iv ++ vl_encrypt key iv plaintext.
Definition decryptSecret (key data : bytes) : option bytes :=
  vl_decrypt key (slice 0 IV_BYTES data) (drop IV_BYTES data).
Definition encodeSecretName (name : string) : string := vl_encodeURI name.
Definition endsWith (suffix s : string) : bool := startsWith (str_rev suffix) (str_rev s).
Definition decodeSecretName (filename : string) : option string :=
  if endsWith ".bin" filename then vl_decodeURI (str_take (String.length filename - 4) filename) else None.

Definition encryptWithScrypt (plaintext passphrase : string) (isTest : bool) (i : VaultInput) : json :=
  let n := if isTest then TEST_SCRYPT_N else DEFAULT_SCRYPT_N in
  let dk := vl_scrypt (utf8 passphrase) (in_salt i) n DEFAULT_SCRYPT_R DEFAULT_SCRYPT_P DEFAULT_SCRYPT_DKLEN in
  let encrypted := vl_encrypt dk (in_iv i) (utf8 plaintext) in
  JObj [("cipher", JStr "aes-256-gcm"); ("ciphertext", JStr (bytes_hex encrypted));
        ("cipherparams", JObj [("iv", JStr (bytes_hex (in_iv i)))]); ("kdf", JStr "scrypt");
        ("kdfparams", JObj [("n", JNum n); ("r", JNum DEFAULT_SCRYPT_R); ("p", JNum DEFAULT_SCRYPT_P);
                            ("dklen", JNum DEFAULT_SCRYPT_DKLEN); ("salt", JStr (bytes_hex (in_salt i)))]);
        ("mac", JStr (bytes_hex (kl_sha256 (dk ++ encrypted))))].
(** The key, the ciphertext and the stored MAC. *)
Definition scrypt_parts (cryptoBlock : json) (passphrase : string) : option (bytes * bytes * bytes) :=
  let params := jget "kdfparams" cryptoBlock in
  salt ← as_str (jget "salt" params) ≫= vl_hexToBytes;
  n ← as_num (jget "n" params); r ← as_num (jget "r" params);
  p ← as_num (jget "p" params); dklen ← as_num (jget "dklen" params);
  _ ← (if vl_scrypt_accepts n r p dklen then Some tt else None);
  ciphertext ← as_str (jget "ciphertext" cryptoBlock) ≫= vl_hexToBytes;
  mac ← as_str (jget "mac" cryptoBlock) ≫= vl_hexToBytes;
  Some (vl_scrypt (utf8 passphrase) salt n r p dklen, ciphertext, mac).
Definition decryptWithScrypt (cryptoBlock : json) (passphrase : string) : res string :=
  let failed := Err (AuthError_create "Decryption failed — wrong passphrase or corrupt data" None) in
  match scrypt_parts cryptoBlock passphrase with
  | None => failed
  | Some (dk, ciphertextBytes, storedMac) =>
      if negb (bool_decide (bytes_hex (kl_sha256 (dk ++ ciphertextBytes)) = bytes_hex storedMac)) then
        Err (AuthError_create "Wrong passphrase or corrupted wallet" None)
      else match (iv ← as_str (jget "iv" (jget "cipherparams" cryptoBlock)) ≫= vl_hexToBytes;
                  vl_decrypt dk iv ciphertextBytes) with
           | Some decrypted => Ok (vl_decodeUtf8 decrypted)
           | None => failed
           end
  end.
Definition API_KEY_INFO : string := "signet-api-key".
Definition encryptWithHkdf (plaintext token : string) (i : VaultInput) : json :=
  let dk := vl_hkdf (utf8 token) (in_salt i) API_KEY_INFO in
  JObj [("cipher", JStr "aes-256-gcm"); ("ciphertext", JStr (bytes_hex (vl_encrypt dk (in_iv i) (utf8 plaintext))));
        ("cipherparams", JObj [("iv", JStr (bytes_hex (in_iv i)))]); ("kdf", JStr "hkdf-sha256");
        ("kdfparams", JObj [("salt", JStr (bytes_hex (in_salt i))); ("info", JStr API_KEY_INFO)])].
Definition decryptWithHkdf (cryptoBlock : json) (token : string) : res string :=
  let params := jget "kdfparams" cryptoBlock in
  match (salt ← as_str (jget "salt" params) ≫= vl_hexToBytes;
         info ← as_str (jget "info" params);
         iv ← as_str (jget "iv" (jget "cipherparams" cryptoBlock)) ≫= vl_hexToBytes;
         ciphertext ← as_str (jget "ciphertext" cryptoBlock) ≫= vl_hexToBytes;
         vl_decrypt (vl_hkdf (utf8 token) salt info) iv ciphertext) with
  | Some decrypted => Ok (vl_decodeUtf8 decrypted)
  | None => Err (InternalError_create "API key decryption failed — invalid token" None)
  end.
Definition api_key_payload (mnemonic walletId : string) : string :=
  print (JObj [("mnemonic", JStr mnemonic); ("walletId", JStr walletId)]).
Definition isApiKeyPayload (v : json) : option (string * string) :=
  mnemonic ← as_str (jget "mnemonic" v); walletId ← as_str (jget "walletId" v); Some (mnemonic, walletId).
Definition parseApiKeyPayload (decrypted : string) : res (string * string) :=
  match vl_parse decrypted with
  | Some parsed => match isApiKeyPayload parsed with
                   | Some payload => Ok payload
                   | None => Err (InternalError_create "Corrupt API key payload" None)
                   end
  | None => Err (InternalError_create "Failed to parse API key data" None)
  end.

(** ** The vault in memory *)
Record WalletFile := mkWalletFile {
  wf_id : string; wf_label : string; wf_crypto : json; wf_accounts : list AccountEntry; wf_createdAt : string
}.
Record ApiKeyFile := mkApiKeyFile {
  kf_id : string; kf_walletId : string; kf_crypto : json; kf_expiresAt : string; kf_createdAt : string
}.
Record MemoryVault := mkMemory {
  mv_secrets : omap string bytes; mv_wallets : omap string WalletFile;
  mv_apiKeys : omap string ApiKeyFile; mv_tokenIndex : omap string string
}.
Definition missing {A} (kind name : string) : outcome A := Some (Err (NotFoundError_create kind name)).
Definition info_of (f : WalletFile) : WalletFileInfo :=
  mkInfo (wf_id f) (wf_label f) (length (wf_accounts f)) (wf_createdAt f).
Definition with_accounts (accounts : list AccountEntry) (f : WalletFile) : WalletFile :=
  mkWalletFile (wf_id f) (wf_label f) (wf_crypto f) accounts (wf_createdAt f).
Definition mem_set (name : string) (value : bytes) (s : MemoryVault) : MemoryVault * outcome unit :=
  (mkMemory (om_set name value (mv_secrets s)) (mv_wallets s) (mv_apiKeys s) (mv_tokenIndex s), Some (Ok tt)).
Definition mem_get (name : string) (s : MemoryVault) : outcome bytes :=
  match om_get name (mv_secrets s) with Some v => Some (Ok v) | None => missing "VaultSecret" name end.
Definition mem_delete (name : string) (s : MemoryVault) : MemoryVault * outcome unit :=
  if om_has name (mv_secrets s)
  then (mkMemory (om_delete name (mv_secrets s)) (mv_wallets s) (mv_apiKeys s) (mv_tokenIndex s), Some (Ok tt))
  else (s, missing "VaultSecret" name).
Definition mem_list (s : MemoryVault) : list string := merge_sort String.le (mv_secrets s).*1.
Definition mem_with_wallets (w : omap string WalletFile) (s : MemoryVault) : MemoryVault :=
  mkMemory (mv_secrets s) w (mv_apiKeys s) (mv_tokenIndex s).
Definition mem_createWallet (i : VaultInput) (id label mnemonic passphrase : string) (s : MemoryVault)
  : MemoryVault * outcome unit :=
  let file := mkWalletFile id label (encryptWithScrypt mnemonic passphrase true i) [] (in_now i) in
  (mem_with_wallets (om_set id file (mv_wallets s)) s, Some (Ok tt)).
Definition mem_readWallet (id passphrase : string) (s : MemoryVault) : outcome string :=
  match om_get id (mv_wallets s) with
  | Some file => Some (decryptWithScrypt (wf_crypto file) passphrase)
  | None => missing "Wallet" id
  end.
Definition mem_deleteWallet (id : string) (s : MemoryVault) : MemoryVault * outcome unit :=
  if om_has id (mv_wallets s) then (mem_with_wallets (om_delete id (mv_wallets s)) s, Some (Ok tt))
  else (s, missing "Wallet" id).
Definition mem_listWallets (s : MemoryVault) : outcome (list WalletFileInfo) :=
  Some (Ok (map info_of (mv_wallets s).*2)).
Definition mem_getWalletAccounts (id : string) (s : MemoryVault) : outcome (list AccountEntry) :=
  match om_get id (mv_wallets s) with
  | Some file => Some (Ok (wf_accounts file))
  | None => missing "Wallet" id
  end.
Definition mem_updateWalletAccounts (id : string) (accounts : list AccountEntry) (s : MemoryVault)
  : MemoryVault * outcome unit :=
  match om_get id (mv_wallets s) with
  | Some file => (mem_with_wallets (om_set id (with_accounts accounts file) (mv_wallets s)) s, Some (Ok tt))
  | None => (s, missing "Wallet" id)
  end.
Definition mem_createApiKey (i : VaultInput) (id walletId mnemonic token expiresAt : string) (s : MemoryVault)
  : MemoryVault * outcome unit :=
  let file := mkApiKeyFile id walletId (encryptWithHkdf (api_key_payload mnemonic walletId) token i)
                expiresAt (in_now i) in
  (mkMemory (mv_secrets s) (mv_wallets s) (om_set id file (mv_apiKeys s)) (om_set token id (mv_tokenIndex s)),
   Some (Ok tt)).
Definition mem_readApiKey (token : string) (s : MemoryVault) : outcome (string * string) :=
  match om_get token (mv_tokenIndex s) with
  | None | Some EmptyString => missing "ApiKey" "by-token"
  | Some keyId =>
      match om_get keyId (mv_apiKeys s) with
      | None => missing "ApiKey" keyId
      | Some file => Some (decrypted ← decryptWithHkdf (kf_crypto file) token; parseApiKeyPayload decrypted)
      end
  end.
(** The first token of the key is dropped. *)
Fixpoint drop_token (id : string) (m : omap string string) : omap string string :=
  match m with
  | [] => []
  | (t, k) :: m => if bool_decide (k = id) then m else (t, k) :: drop_token id m
  end.
Definition mem_revokeApiKey (id : string) (s : MemoryVault) : MemoryVault * outcome unit :=
  if om_has id (mv_apiKeys s)
  then (mkMemory (mv_secrets s) (mv_wallets s) (om_delete id (mv_apiKeys s)) (drop_token id (mv_tokenIndex s)),
        Some (Ok tt))
  else (s, missing "ApiKey" id).
Definition mem_close (s : MemoryVault) : MemoryVault := mkMemory [] [] [] [].
#[export] Instance memory_vault : VaultOps MemoryVault := {|
  v_set _ := mem_set; v_get _ := mem_get; v_delete _ := mem_delete; v_list := mem_list;
  v_createWallet := mem_createWallet; v_readWallet _ := mem_readWallet; v_deleteWallet _ := mem_deleteWallet;
  v_listWallets _ := mem_listWallets; v_getWalletAccounts _ := mem_getWalletAccounts;
  v_updateWalletAccounts _ := mem_updateWalletAccounts; v_createApiKey := mem_createApiKey;
  v_readApiKey _ := mem_readApiKey; v_revokeApiKey _ := mem_revokeApiKey |}.

(** ** The vault in files

    Each directory is its files by name; a JSON file holds what [JSON.parse]
    makes of it, or the text of its exception.  A file system that throws
    leaves the files as they were. *)
Record FileVault := mkFiles {
  fv_secretKey : bytes; fv_secrets : omap string bytes;
  fv_wallets : omap string JsonFile; fv_keys : omap string JsonFile
}.
Definition with_secrets (f : omap string bytes → omap string bytes) (s : FileVault) : FileVault :=
  mkFiles (fv_secretKey s) (f (fv_secrets s)) (fv_wallets s) (fv_keys s).
Definition with_wallets (f : omap string JsonFile → omap string JsonFile) (s : FileVault) : FileVault :=
  mkFiles (fv_secretKey s) (fv_secrets s) (f (fv_wallets s)) (fv_keys s).
Definition with_keys (f : omap string JsonFile → omap string JsonFile) (s : FileVault) : FileVault :=
  mkFiles (fv_secretKey s) (fv_secrets s) (fv_wallets s) (f (fv_keys s)).
Definition caught {A} (msg : string) (ctx : list (string * json)) (cause : string) : outcome A :=
  Some (Err (InternalError_create msg (Some (ctx ++ [("cause", JStr cause)])))).
Definition secretPath (name : string) : string := encodeSecretName name +:+ ".bin".
Definition json_path (id : string) : string := id +:+ ".json".
Definition isWalletFile (v : json) : bool :=
  bool_decide (jget "version" v = JNum 3) && bool_decide (is_Some (as_str (jget "id" v))) &&
  bool_decide (is_Some (as_str (jget "label" v))) && jhas "crypto" v && is_object (jget "crypto" v) &&
  (match jget "accounts" v with JArr _ => true | _ => false end) &&
  bool_decide (is_Some (as_str (jget "createdAt" v))).
Definition isApiKeyFile (v : json) : bool :=
  bool_decide (is_Some (as_str (jget "id" v))) && bool_decide (is_Some (as_str (jget "walletId" v))) &&
  jhas "crypto" v && is_object (jget "crypto" v) && bool_decide (is_Some (as_str (jget "createdAt" v))).
(** Writing a file, of which [part] may be all that gets written, and setting
    its mode. *)
Definition write_file {F} (i : VaultInput) (part : nat → string → F) (whole : F) (put : F → FileVault → FileVault) (s : FileVault)
  : FileVault :=
  match in_io i with
  | None | Some (io_written _) => put whole s
  | Some (io_refused _) => s
  | Some (io_cut _ n syntax) => put (part n syntax) s
  end.
Definition write_result (i : VaultInput) (msg : string) (ctx : list (string * json)) : outcome unit :=
  match in_io i with Some f => caught msg ctx (io_cause f) | None => Some (Ok tt) end.
(** [writeSecureFile]: a proper part of an object's text is not JSON. *)
Definition writeSecureFile (i : VaultInput) (data : json) (put : JsonFile → FileVault → FileVault) (s : FileVault) : FileVault :=
  write_file i (λ _ syntax, Err syntax) (Ok data) put s.
(** [file_set], [file_get]: the secrets. *)
Definition file_set (i : VaultInput) (name : string) (value : bytes) (s : FileVault) : FileVault * outcome unit :=
  let encrypted := encryptSecret (fv_secretKey s) (in_iv i) value in
  (write_file i (λ n _, take n encrypted) encrypted (λ file, with_secrets (om_set (secretPath name) file)) s,
   write_result i "Failed to store vault secret" [("name", JStr name)]).
Definition file_get (i : VaultInput) (name : string) (s : FileVault) : outcome bytes :=
  match om_get (secretPath name) (fv_secrets s) with
  | None => missing "VaultSecret" name
  | Some encrypted =>
      match in_io i with
      | Some f => caught "Failed to read vault secret" [("name", JStr name)] (io_cause f)
      | None => match decryptSecret (fv_secretKey s) encrypted with
                | Some plaintext => Some (Ok plaintext)
                | None => caught "Failed to read vault secret" [("name", JStr name)] "OperationError"
                end
      end
  end.
(** Unlinking: nothing catches what the file system throws. *)
Definition unlink {F} (i : VaultInput) (kind name path : string) (files : omap string F)
  (remove : (omap string F → omap string F) → FileVault → FileVault) (s : FileVault) : FileVault * outcome unit :=
  if om_has path files then
    match in_io i with
    | Some _ => (s, None)
    | None => (remove (om_delete path) s, Some (Ok tt))
    end
  else (s, missing kind name).
Definition file_delete (i : VaultInput) (name : string) (s : FileVault) : FileVault * outcome unit :=
  unlink i "VaultSecret" name (secretPath name) (fv_secrets s) with_secrets s.
Definition file_list (s : FileVault) : list string :=
  merge_sort String.le (base.omap decodeSecretName (vl_readdir (fv_secrets s).*1)).
Definition wallet_json (f : WalletFile) : json :=
  JObj [("version", JNum 3); ("id", JStr (wf_id f)); ("label", JStr (wf_label f)); ("crypto", wf_crypto f);
        ("accounts", JArr (map account_json (wf_accounts f))); ("createdAt", JStr (wf_createdAt f))].
Definition file_createWallet (i : VaultInput) (id label mnemonic passphrase : string) (s : FileVault)
  : FileVault * outcome unit :=
  let file := mkWalletFile id label (encryptWithScrypt mnemonic passphrase false i) [] (in_now i) in
  (writeSecureFile i (wallet_json file) (λ file, with_wallets (om_set (json_path id) file)) s,
   write_result i "Failed to create wallet file" [("id", JStr id)]).
(** Reading the file of a wallet. *)
Definition on_wallet {A} (i : VaultInput) (msg id : string) (s : FileVault) (k : json → outcome A) : outcome A :=
  match in_io i with
  | Some f => caught msg [("id", JStr id)] (io_cause f)
  | None => match om_get (json_path id) (fv_wallets s) with
            | None => missing "Wallet" id
            | Some (Err cause) => caught msg [("id", JStr id)] cause
            | Some (Ok raw) => if isWalletFile raw then k raw else missing "Wallet" id
            end
  end.
Definition file_readWallet (i : VaultInput) (id passphrase : string) (s : FileVault) : outcome string :=
  on_wallet i "Failed to read wallet" id s (λ raw, Some (decryptWithScrypt (jget "crypto" raw) passphrase)).
Definition file_deleteWallet (i : VaultInput) (id : string) (s : FileVault) : FileVault * outcome unit :=
  unlink i "Wallet" id (json_path id) (fv_wallets s) with_wallets s.
Definition raw_info (raw : json) : WalletFileInfo :=
  mkInfo (default "" (as_str (jget "id" raw))) (default "" (as_str (jget "label" raw)))
    (match jget "accounts" raw with JArr l => length l | _ => 0%nat end) (default "" (as_str (jget "createdAt" raw))).
(** The JSON files of a directory in its order, each with its name. *)
Definition json_files (files : omap string JsonFile) : list JsonFile :=
  base.omap (λ f, om_get f files) (List.filter (endsWith ".json") (vl_readdir files.*1)).
Fixpoint wallet_infos (files : list JsonFile) : result string (list WalletFileInfo) :=
  match files with
  | [] => Ok []
  | Err cause :: _ => Err cause
  | Ok raw :: files =>
      infos ← wallet_infos files; Ok (if isWalletFile raw then raw_info raw :: infos else infos)
  end.
Definition file_listWallets (i : VaultInput) (s : FileVault) : outcome (list WalletFileInfo) :=
  match in_io i with
  | Some f => caught "Failed to list wallets" [] (io_cause f)
  | None => match wallet_infos (json_files (fv_wallets s)) with
            | Ok infos => Some (Ok infos)
            | Err cause => caught "Failed to list wallets" [] cause
            end
  end.
Definition file_getWalletAccounts (i : VaultInput) (id : string) (s : FileVault) : outcome (list AccountEntry) :=
  on_wallet i "Failed to read wallet accounts" id s (λ raw, Some (Ok (accounts_of (jget "accounts" raw)))).
Definition set_accounts (accounts : list AccountEntry) (raw : json) : json :=
  match raw with JObj o => JObj (om_set "accounts" (JArr (map account_json accounts)) o) | v => v end.
Definition file_updateWalletAccounts (i : VaultInput) (id : string) (accounts : list AccountEntry) (s : FileVault)
  : FileVault * outcome unit :=
  let msg := "Failed to update wallet accounts" in
  match in_io i with
  | Some (io_refused cause) => (s, caught msg [("id", JStr id)] cause)
  | _ => match om_get (json_path id) (fv_wallets s) with
         | None => (s, missing "Wallet" id)
         | Some (Err cause) => (s, caught msg [("id", JStr id)] cause)
         | Some (Ok raw) =>
             if isWalletFile raw then
               (writeSecureFile i (set_accounts accounts raw) (λ file, with_wallets (om_set (json_path id) file)) s,
                write_result i msg [("id", JStr id)])
             else (s, missing "Wallet" id)
         end
  end.
Definition key_json (f : ApiKeyFile) : json :=
  JObj [("id", JStr (kf_id f)); ("walletId", JStr (kf_walletId f)); ("crypto", kf_crypto f);
        ("expiresAt", JStr (kf_expiresAt f)); ("createdAt", JStr (kf_createdAt f))].
Definition file_createApiKey (i : VaultInput) (id walletId mnemonic token expiresAt : string) (s : FileVault)
  : FileVault * outcome unit :=
  let file := mkApiKeyFile id walletId (encryptWithHkdf (api_key_payload mnemonic walletId) token i)
                expiresAt (in_now i) in
  (writeSecureFile i (key_json file) (λ file, with_keys (om_set (json_path id) file)) s,
   write_result i "Failed to create API key file" [("id", JStr id)]).
(** The first file that decrypts to a payload. *)
Fixpoint scan_keys (token : string) (files : list JsonFile) : outcome (string * string) :=
  match files with
  | [] => missing "ApiKey" "by-token"
  | Err cause :: _ => caught "Failed to read API key" [] cause
  | Ok raw :: files =>
      if isApiKeyFile raw then
        match (decrypted ← decryptWithHkdf (jget "crypto" raw) token; parseApiKeyPayload decrypted) with
        | Ok payload => Some (Ok payload)
        | Err _ => scan_keys token files
        end
      else scan_keys token files
  end.
Definition file_readApiKey (i : VaultInput) (token : string) (s : FileVault) : outcome (string * string) :=
  match in_io i with
  | Some f => caught "Failed to read API key" [] (io_cause f)
  | None => scan_keys token (json_files (fv_keys s))
  end.
Definition file_revokeApiKey (i : VaultInput) (id : string) (s : FileVault) : FileVault * outcome unit :=
  unlink i "ApiKey" id (json_path id) (fv_keys s) with_keys s.
#[export] Instance file_vault : VaultOps FileVault := {|
  v_set := file_set; v_get := file_get; v_delete := file_delete; v_list := file_list;
  v_createWallet := file_createWallet; v_readWallet := file_readWallet; v_deleteWallet := file_deleteWallet;
  v_listWallets := file_listWallets; v_getWalletAccounts := file_getWalletAccounts;
  v_updateWalletAccounts := file_updateWalletAccounts; v_createApiKey := file_createApiKey;
  v_readApiKey := file_readApiKey; v_revokeApiKey := file_revokeApiKey |}.
End vault.
