(* ===== verification/VaultSpec.v ===== *)
(** * What a vault promises

    An abstract vault has secrets, wallets and keys in plain, as finite maps;
    [VaultContract] is the interface the rest of the key management relies
    on, and both vaults of [Vault] meet it. *)
From S2P Require Import Prelude Bytes Text Json Errors Ids Base64 KeyDerivation Vault.
Local Open Scope Z_scope.

Record AbsWallet := mkAbsWallet {
  aw_label : string; aw_mnemonic : string; aw_passphrase : string; aw_accounts : list AccountEntry;
  aw_createdAt : string
}.
Record AbsKey := mkAbsKey { ak_walletId : string; ak_mnemonic : string; ak_token : string }.
Record AbsVault := mkAbs {
  av_secrets : gmap string bytes; av_wallets : gmap string AbsWallet; av_keys : gmap string AbsKey
}.
Definition set_secrets (f : gmap string bytes → gmap string bytes) (a : AbsVault) : AbsVault :=
  mkAbs (f (av_secrets a)) (av_wallets a) (av_keys a).
Definition set_wallets (f : gmap string AbsWallet → gmap string AbsWallet) (a : AbsVault) : AbsVault :=
  mkAbs (av_secrets a) (f (av_wallets a)) (av_keys a).
Definition set_keys (f : gmap string AbsKey → gmap string AbsKey) (a : AbsVault) : AbsVault :=
  mkAbs (av_secrets a) (av_wallets a) (f (av_keys a)).
Definition abs_info (w : string * AbsWallet) : WalletFileInfo :=
  mkInfo w.1 (aw_label w.2) (length (aw_accounts w.2)) (aw_createdAt w.2).
Definition abs_accounts (accounts : list AccountEntry) (w : AbsWallet) : AbsWallet :=
  mkAbsWallet (aw_label w) (aw_mnemonic w) (aw_passphrase w) accounts (aw_createdAt w).
Definition failed {A} (c : ErrorCategory) (r : outcome A) : Prop := ∃ e, r = Some (Err e) ∧ category e = c.
(** The answer about an element that is there ([k]) or is not found. *)
Definition found {A B} (o : option A) (k : A → outcome B → Prop) (r : outcome B) : Prop :=
  match o with Some x => k x r | None => failed not_found r end.
Definition returns {B} (b : B) (r : outcome B) : Prop := r = Some (Ok b).

Section contract.
Context {V : VaultLib}.
(** The text survives UTF-8, the payload of a key survives JSON. *)
Definition text_ok (s : string) : Prop := vl_decodeUtf8 (utf8 s) = s.
Definition payload_ok (mnemonic walletId : string) : Prop :=
  text_ok (api_key_payload mnemonic walletId) ∧
  vl_parse (api_key_payload mnemonic walletId) =
    Some (JObj [("mnemonic", JStr mnemonic); ("walletId", JStr walletId)]).
Definition token_fresh (id token : string) (a : AbsVault) : Prop :=
  ∀ id' k, av_keys a !! id' = Some k → ak_token k = token → id' = id.

(** No write is cut short; [cleanly]: nothing that throws has changed anything. *)
Definition whole (i : VaultInput) : Prop := ∀ c n x, in_io i ≠ Some (io_cut c n x).
(** What the random source and the file system give a write. *)
Definition input_ok (i : VaultInput) : Prop := length (in_iv i) = IV_BYTES ∧ whole i.
Definition cleanly (i : VaultInput) : Prop := ∀ f, in_io i = Some f → ∃ c, f = io_refused c.
Lemma clean_whole i : cleanly i → whole i.
Proof. by intros H c n x (c' & ?)%H. Qed.

Section meets.
Context {S : Type} (R : S → AbsVault → Prop).
(** The operation ends as specified, or the file system threw and nothing
    changed. *)
Definition meets {A} (i : VaultInput) (a a' : AbsVault) (P : outcome A → Prop) (x : S * outcome A) : Prop :=
  (R x.1 a' ∧ P x.2) ∨ (is_Some (in_io i) ∧ R x.1 a ∧ (x.2 = None ∨ failed internal x.2)).
(** An operation that writes a file: as specified, or the file system threw,
    and then nothing has changed or, when only the mode could not be set, all
    of it has. *)
Definition writes {A} (i : VaultInput) (a a' : AbsVault) (P : outcome A → Prop) (x : S * outcome A) : Prop :=
  (R x.1 a' ∧ P x.2) ∨ (is_Some (in_io i) ∧ (R x.1 a ∨ ¬ cleanly i ∧ R x.1 a') ∧ failed internal x.2).
Lemma writes_meets {A} i a a' (P : outcome A → Prop) x : cleanly i → writes i a a' P x → meets i a a' P x.
Proof. intros Hc [?|(? & [?|[? _]] & ?)]; [by left|right; by auto|done]. Qed.
(** An operation that only reads. *)
Definition reads {A} (i : VaultInput) (P : outcome A → Prop) (r : outcome A) : Prop :=
  P r ∨ is_Some (in_io i) ∧ failed internal r.
End meets.

(** The clauses of the contract, one per operation. *)
Section clauses.
Context (S : Type) `{VaultOps S} (R : S → AbsVault → Prop).
Definition set_spec : Prop := ∀ i name value s a, R s a → input_ok i →
  writes R i a (set_secrets <[name := value]> a) (returns tt) (v_set i name value s).
Definition get_spec : Prop := ∀ i name s a, R s a →
  reads i (found (av_secrets a !! name) returns) (v_get i name s).
Definition delete_spec : Prop := ∀ i name s a, R s a →
  meets R i a (set_secrets (delete name) a) (found (av_secrets a !! name) (λ _, returns tt)) (v_delete i name s).
Definition list_spec : Prop := ∀ s a, R s a → v_list s = merge_sort String.le (map_to_list (av_secrets a)).*1.
Definition createWallet_spec : Prop := ∀ i id label mnemonic passphrase s a, R s a → text_ok mnemonic → whole i →
  writes R i a (set_wallets <[id := mkAbsWallet label mnemonic passphrase [] (in_now i)]> a) (returns tt)
    (v_createWallet i id label mnemonic passphrase s).
Definition readWallet_spec : Prop := ∀ i id passphrase s a, R s a →
  reads i (found (av_wallets a !! id) (λ w r, if decide (passphrase = aw_passphrase w)
                                               then returns (aw_mnemonic w) r else failed auth r))
    (v_readWallet i id passphrase s).
Definition deleteWallet_spec : Prop := ∀ i id s a, R s a →
  meets R i a (set_wallets (delete id) a) (found (av_wallets a !! id) (λ _, returns tt)) (v_deleteWallet i id s).
Definition listWallets_spec : Prop := ∀ i s a, R s a →
  reads i (λ r, ∃ infos, r = Some (Ok infos) ∧ infos ≡ₚ map abs_info (map_to_list (av_wallets a)))
    (v_listWallets i s).
Definition getWalletAccounts_spec : Prop := ∀ i id s a, R s a →
  reads i (found (av_wallets a !! id) (λ w, returns (aw_accounts w))) (v_getWalletAccounts i id s).
Definition updateWalletAccounts_spec : Prop := ∀ i id accounts s a, R s a → whole i →
  writes R i a (set_wallets (alter (abs_accounts accounts) id) a) (found (av_wallets a !! id) (λ _, returns tt))
    (v_updateWalletAccounts i id accounts s).
Definition createApiKey_spec : Prop := ∀ i id walletId mnemonic token expiresAt s a, R s a → id ≠ "" → payload_ok mnemonic walletId →
  token_fresh id token a → whole i →
  writes R i a (set_keys <[id := mkAbsKey walletId mnemonic token]> a) (returns tt)
    (v_createApiKey i id walletId mnemonic token expiresAt s).
Definition readApiKey_spec : Prop := ∀ i token s a, R s a →
  reads i (λ r, (∀ id k, av_keys a !! id = Some k → ak_token k = token →
                   r = Some (Ok (ak_mnemonic k, ak_walletId k))) ∧
                ((∀ id k, av_keys a !! id = Some k → ak_token k ≠ token) → ∃ e, r = Some (Err e)))
    (v_readApiKey i token s).
Definition revokeApiKey_spec : Prop := ∀ i id s a, R s a →
  meets R i a (set_keys (delete id) a) (found (av_keys a !! id) (λ _, returns tt)) (v_revokeApiKey i id s).
End clauses.
Class VaultContract (S : Type) `{VaultOps S} (R : S → AbsVault → Prop) : Prop := {
  vc_set : set_spec S R;
  vc_get : get_spec S R;
  vc_delete : delete_spec S R;
  vc_list : list_spec S R;
  vc_createWallet : createWallet_spec S R;
  vc_readWallet : readWallet_spec S R;
  vc_deleteWallet : deleteWallet_spec S R;
  vc_listWallets : listWallets_spec S R;
  vc_getWalletAccounts : getWalletAccounts_spec S R;
  vc_updateWalletAccounts : updateWalletAccounts_spec S R;
  vc_createApiKey : createApiKey_spec S R;
  vc_readApiKey : readApiKey_spec S R;
  vc_revokeApiKey : revokeApiKey_spec S R
}.

(** ** The libraries' documentation, with hashes and tags taken as collision
    free *)
Class VaultLaws : Prop := {
  law_gcm k iv p : vl_decrypt k iv (vl_encrypt k iv p) = Some p;
  law_hex b : vl_hexToBytes (bytes_hex b) = Some b;
  law_uri n : vl_decodeURI (vl_encodeURI n) = Some n;
  law_readdir l : vl_readdir l ≡ₚ l;
  law_scrypt n : n = TEST_SCRYPT_N ∨ n = DEFAULT_SCRYPT_N →
    vl_scrypt_accepts n DEFAULT_SCRYPT_R DEFAULT_SCRYPT_P DEFAULT_SCRYPT_DKLEN = true;
  law_passphrase p p' salt n r q dklen c : p ≠ p' →
    bytes_hex (kl_sha256 (vl_scrypt (utf8 p') salt n r q dklen ++ c)) ≠
    bytes_hex (kl_sha256 (vl_scrypt (utf8 p) salt n r q dklen ++ c));
  law_token t t' salt info iv p : t ≠ t' →
    vl_decrypt (vl_hkdf (utf8 t') salt info) iv (vl_encrypt (vl_hkdf (utf8 t) salt info) iv p) = None
}.
End contract.

(** ** Directories and finite maps

    [path] names the element [id]; [P] relates what is stored to what it
    stands for. *)
Definition mrel {A B} (path : string → string) (P : string → A → B → Prop) (m : omap string A) (a : gmap string B) : Prop :=
  NoDup m.*1 ∧ (∀ id, option_relation (P id) (λ _, False) (λ _, False) (om_get (path id) m) (a !! id)) ∧
  ∀ p, p ∈ m.*1 → ∃ id, p = path id ∧ is_Some (a !! id).
Section mrel.
Context {A B : Type} (path : string → string) `{!Inj (=) (=) path} (P : string → A → B → Prop).
Implicit Types (m : omap string A) (a : gmap string B).
Lemma mrel_lookup m a id : mrel path P m a →
  (om_get (path id) m = None ∧ a !! id = None) ∨
  (∃ x y, om_get (path id) m = Some x ∧ a !! id = Some y ∧ P id x y).
Proof.
  intros (_ & H & _). specialize (H id). destruct (om_get (path id) m), (a !! id); cbn in H; try done; eauto 10.
Qed.
Lemma mrel_has m a id : mrel path P m a → om_has (path id) m = bool_decide (is_Some (a !! id)).
Proof.
  intros H. unfold om_has. destruct (mrel_lookup m a id H) as [[-> ->]|(x & y & -> & -> & _)];
    by rewrite ?bool_decide_true, ?bool_decide_false by (eauto || by intros []).
Qed.
Lemma mrel_set m a id x y : mrel path P m a → P id x y → mrel path P (om_set (path id) x m) (<[id := y]> a).
Proof.
  intros (Hnd & H & Hp) HP. split_and!; [by apply om_set_NoDup| |].
  - intros j. destruct (decide (j = id)) as [->|Hne]; [by rewrite om_get_set_eq, lookup_insert_eq|].
    rewrite om_get_set_ne by (intros E; apply Hne; by apply (inj path)). rewrite lookup_insert_ne by done. apply H.
  - intros p. rewrite om_set_keys, elem_of_set_add. intros [Hin'| ->].
    2: { exists id. by rewrite lookup_insert_eq. }
    destruct (Hp p Hin') as (j & -> & Hj). exists j. split; [done|]. apply lookup_insert_is_Some'. by right.
Qed.
Lemma mrel_empty : mrel path P [] ∅.
Proof. split_and!; [constructor|by intros id|by intros p ?%elem_of_nil]. Qed.
Lemma mrel_delete m a id : mrel path P m a → mrel path P (om_delete (path id) m) (delete id a).
Proof.
  intros (Hnd & H & Hp). split_and!; [by apply om_delete_NoDup| |].
  - intros j. rewrite om_get_delete. destruct (decide (j = id)) as [->|Hne].
    + by rewrite decide_True, lookup_delete_eq by done.
    + rewrite decide_False by (intros E; apply Hne; by apply (inj path)). rewrite lookup_delete_ne by done. apply H.
  - intros p. rewrite om_delete_keys. intros [Hne Hin]%list_elem_of_filter.
    destruct (Hp p Hin) as (j & -> & Hj). exists j. split; [done|].
    rewrite lookup_delete_ne; [done|]. by intros ->.
Qed.
(** The stored elements, in order, against the list of the map. *)
Lemma mrel_list m a : mrel path P m a →
  ∃ l, l ≡ₚ map_to_list a ∧ Forall2 (λ px iy, px.1 = path iy.1 ∧ P iy.1 px.2 iy.2) m l.
Proof.
  revert a. induction m as [|[p x] m IH]; intros a Hm.
  - exists []. split; [|constructor]. assert (a = ∅) as ->; [|by rewrite map_to_list_empty].
    apply map_empty. intros id. by destruct (mrel_lookup _ _ id Hm) as [[_ ?]|(? & ? & ? & _)].
  - pose proof Hm as (Hnd & _ & Hp). destruct (Hp p ltac:(set_solver)) as (id & -> & y & Hy).
    cbn in Hnd. apply NoDup_cons in Hnd as [Hnin Hnd].
    assert (om_delete (path id) ((path id, x) :: m) = m) as Hdel.
    { unfold om_delete. rewrite filter_cons, decide_False by (cbn; naive_solver). by apply om_delete_absent. }
    pose proof (mrel_delete _ _ id Hm) as Hm'. rewrite Hdel in Hm'. destruct (IH _ Hm') as (l & Hl & Hf).
    exists ((id, y) :: l). split.
    + rewrite Hl. by apply map_to_list_delete.
    + constructor; [|done]. split; [done|]. cbn [snd fst].
      destruct (mrel_lookup _ _ id Hm) as [[_ ?]|(x' & y' & Hx' & Hy' & HP)]; [congruence|].
      cbn in Hx'. rewrite decide_True in Hx' by done. congruence.
Qed.
End mrel.

(** ** Ciphertexts *)
Section ciphers.
Context {V : VaultLib} {Laws : VaultLaws}.
Definition opens_wallet (c : json) (w : AbsWallet) : Prop :=
  is_object c = true ∧
  ∀ p, if decide (p = aw_passphrase w) then decryptWithScrypt c p = Ok (aw_mnemonic w)
       else ∃ e, decryptWithScrypt c p = Err e ∧ category e = auth.
Definition read_key (c : json) (token : string) : res (string * string) :=
  decrypted ← decryptWithHkdf c token; parseApiKeyPayload decrypted.
Definition opens_key (c : json) (k : AbsKey) : Prop :=
  is_object c = true ∧
  ∀ t, if decide (t = ak_token k) then read_key c t = Ok (ak_mnemonic k, ak_walletId k)
       else ∃ e, read_key c t = Err e.
Lemma encrypted_wallet_opens label mnemonic passphrase accounts createdAt isTest i : text_ok mnemonic →
  opens_wallet (encryptWithScrypt mnemonic passphrase isTest i)
    (mkAbsWallet label mnemonic passphrase accounts createdAt).
Proof.
  intros Ht. split; [done|]. intros p. cbn [aw_passphrase aw_mnemonic].
  set (n := if isTest then TEST_SCRYPT_N else DEFAULT_SCRYPT_N).
  set (dk q := vl_scrypt (utf8 q) (in_salt i) n DEFAULT_SCRYPT_R DEFAULT_SCRYPT_P DEFAULT_SCRYPT_DKLEN).
  set (c := vl_encrypt (dk passphrase) (in_iv i) (utf8 mnemonic)).
  assert (scrypt_parts (encryptWithScrypt mnemonic passphrase isTest i) p =
    Some (dk p, c, kl_sha256 (dk passphrase ++ c))) as Hparts.
  { unfold scrypt_parts. set (b := encryptWithScrypt mnemonic passphrase isTest i).
    assert (as_str (jget "salt" (jget "kdfparams" b)) = Some (bytes_hex (in_salt i))) as -> by reflexivity.
    assert (as_num (jget "n" (jget "kdfparams" b)) = Some n) as -> by reflexivity.
    assert (as_num (jget "r" (jget "kdfparams" b)) = Some DEFAULT_SCRYPT_R) as -> by reflexivity.
    assert (as_num (jget "p" (jget "kdfparams" b)) = Some DEFAULT_SCRYPT_P) as -> by reflexivity.
    assert (as_num (jget "dklen" (jget "kdfparams" b)) = Some DEFAULT_SCRYPT_DKLEN) as -> by reflexivity.
    assert (as_str (jget "ciphertext" b) = Some (bytes_hex c)) as -> by reflexivity.
    assert (as_str (jget "mac" b) = Some (bytes_hex (kl_sha256 (dk passphrase ++ c)))) as -> by reflexivity.
    cbn [mbind option_bind]. rewrite law_hex. cbn [mbind option_bind].
    rewrite law_scrypt by (unfold n; destruct isTest; tauto). cbn [mbind option_bind].
    by rewrite !law_hex. }
  unfold decryptWithScrypt. rewrite Hparts. case_decide as Hp.
  - subst p. rewrite bool_decide_true by done. cbn [negb].
    set (b := encryptWithScrypt mnemonic passphrase isTest i).
    assert (as_str (jget "iv" (jget "cipherparams" b)) = Some (bytes_hex (in_iv i))) as -> by reflexivity.
    cbn [mbind option_bind]. rewrite law_hex. cbn [mbind option_bind]. unfold c. by rewrite law_gcm, Ht.
  - rewrite bool_decide_false by by apply law_passphrase. cbn [negb]. by eexists.
Qed.
Lemma encrypted_key_opens mnemonic walletId token i : payload_ok mnemonic walletId →
  opens_key (encryptWithHkdf (api_key_payload mnemonic walletId) token i) (mkAbsKey walletId mnemonic token).
Proof.
  intros [Ht Hp]. split; [done|]. intros t. cbn [ak_token ak_mnemonic ak_walletId]. unfold read_key, decryptWithHkdf.
  set (b := encryptWithHkdf (api_key_payload mnemonic walletId) token i).
  assert (as_str (jget "salt" (jget "kdfparams" b)) = Some (bytes_hex (in_salt i))) as -> by reflexivity.
  assert (as_str (jget "info" (jget "kdfparams" b)) = Some API_KEY_INFO) as -> by reflexivity.
  assert (as_str (jget "iv" (jget "cipherparams" b)) = Some (bytes_hex (in_iv i))) as -> by reflexivity.
  assert (as_str (jget "ciphertext" b) = Some (bytes_hex (vl_encrypt (vl_hkdf (utf8 token) (in_salt i) API_KEY_INFO)
    (in_iv i) (utf8 (api_key_payload mnemonic walletId))))) as -> by reflexivity.
  cbn [mbind option_bind]. rewrite !law_hex. cbn [mbind option_bind].
  case_decide as E.
  - subst t. rewrite law_gcm. cbn [mbind result_bind]. rewrite Ht. unfold parseApiKeyPayload. by rewrite Hp.
  - rewrite law_token by (by intros ->). by eexists.
Qed.
End ciphers.

(** ** The vault in memory meets the contract *)
Section memory.
Context {V : VaultLib} {Laws : VaultLaws}.
(** Elements are stored under their own names. *)
Definition plain (s : string) : string := s.
Definition stored_wallet (id : string) (f : WalletFile) (w : AbsWallet) : Prop :=
  wf_id f = id ∧ wf_label f = aw_label w ∧ wf_accounts f = aw_accounts w ∧ wf_createdAt f = aw_createdAt w ∧
  opens_wallet (wf_crypto f) w.
Definition stored_key (id : string) (f : ApiKeyFile) (k : AbsKey) : Prop := id ≠ "" ∧ opens_key (kf_crypto f) k.
Record memory_rel (s : MemoryVault) (a : AbsVault) : Prop := {
  mr_secrets : mrel plain (λ _, eq) (mv_secrets s) (av_secrets a);
  mr_wallets : mrel plain stored_wallet (mv_wallets s) (av_wallets a);
  mr_keys : mrel plain stored_key (mv_apiKeys s) (av_keys a);
  mr_tokens : ∀ i k, av_keys a !! i = Some k → om_get (ak_token k) (mv_tokenIndex s) = Some i
}.
#[local] Instance plain_inj : Inj (=) (=) plain.
Proof. by intros ? ?. Qed.
Lemma plain_lookup {A B} (P : string → A → B → Prop) m a id : mrel plain P m a →
  (om_get id m = None ∧ a !! id = None) ∨ (∃ x y, om_get id m = Some x ∧ a !! id = Some y ∧ P id x y).
Proof. apply (mrel_lookup plain). Qed.
Lemma plain_has {A B} (P : string → A → B → Prop) m a id : mrel plain P m a →
  om_has id m = bool_decide (is_Some (a !! id)).
Proof. apply (mrel_has plain). Qed.
Lemma alter_as_insert {A} (f : A → A) (m : gmap string A) k x : m !! k = Some x → alter f k m = <[k := f x]> m.
Proof.
  intros Hm. apply map_eq. intros j. destruct (decide (j = k)) as [->|].
  - by rewrite lookup_alter_eq, Hm, lookup_insert_eq.
  - by rewrite lookup_alter_ne, lookup_insert_ne by done.
Qed.
Lemma opens_wallet_accounts c w accounts : opens_wallet c w → opens_wallet c (abs_accounts accounts w).
Proof. done. Qed.
Lemma drop_token_other id t i m : i ≠ id → om_get t m = Some i → om_get t (drop_token id m) = Some i.
Proof.
  intros Hne. induction m as [|[t' k] m IH]; [done|]. cbn. case_decide as E.
  - intros [= ->]. rewrite bool_decide_false by done. cbn. by rewrite decide_True.
  - intros Hm. case_bool_decide; [done|]. cbn. rewrite decide_False by done. by apply IH.
Qed.
Lemma missing_failed {A} kind name : failed not_found (missing (A := A) kind name).
Proof. by eexists. Qed.
#[local] Hint Resolve missing_failed : signet.
Lemma sorted_keys_eq {A} (m : omap string A) (a : gmap string A) : mrel plain (λ _, eq) m a →
  merge_sort String.le m.*1 = merge_sort String.le (map_to_list a).*1.
Proof.
  intros Hm. destruct (mrel_list plain (λ _, eq) m a Hm) as (l & Hl & Hf).
  apply StronglySorted_unique with (R := String.le); [apply _|apply StronglySorted_merge_sort; apply _..|].
  rewrite !merge_sort_Permutation, <- Hl.
  assert (m.*1 = l.*1) as ->; [|done]. clear -Hf. induction Hf as [|[? ?] [? ?] ? ? [? ?] ? IH]; [done|].
  cbn in *. by subst; rewrite IH.
Qed.
Lemma infos_perm (path : string → string) {F} (P : string → F → AbsWallet → Prop) (info : F → WalletFileInfo) m a :
  Inj (=) (=) path → mrel path P m a → (∀ id f w, P id f w → info f = abs_info (id, w)) →
  map info m.*2 ≡ₚ map abs_info (map_to_list a).
Proof.
  intros Hinj Hm Hi. destruct (mrel_list path P m a Hm) as (l & Hl & Hf). rewrite <- Hl.
  assert (map info m.*2 = map abs_info l) as ->; [|done]. clear -Hf Hi.
  induction Hf as [|[? ?] [? ?] ? ? [? HP] ? IH]; [done|]. cbn in *. by rewrite (Hi _ _ _ HP), IH.
Qed.
Lemma mem_set_ok : set_spec MemoryVault memory_rel.
Proof.
  intros i name value s a [H1 H2 H3 H4] _. left. split; [|done]. split; cbn; [|done..]. by apply (mrel_set plain (λ _, eq) _ _ name).
Qed.
Lemma mem_get_ok : get_spec MemoryVault memory_rel.
Proof.
  intros i name s a [H1 _ _ _]. left. cbn. unfold mem_get.
  destruct (plain_lookup (λ _, eq) _ _ name H1) as [[-> ->]|(x & y & -> & -> & ->)]; [apply missing_failed|done].
Qed.
Lemma mem_delete_ok : delete_spec MemoryVault memory_rel.
Proof.
  intros i name s a [H1 H2 H3 H4]. left. cbn. unfold mem_delete. rewrite (plain_has (λ _, eq) _ _ name H1).
  destruct (av_secrets a !! name) eqn:E.
  + rewrite bool_decide_true by eauto. split; [|done]. split; cbn; [|done..]. by apply (mrel_delete plain (λ _, eq) _ _ name).
  + rewrite bool_decide_false by by intros []. split; [|apply missing_failed].
    split; cbn; [|done..]. by rewrite delete_id by done.
Qed.
Lemma mem_list_ok : list_spec MemoryVault memory_rel.
Proof.
  intros s a [H1 _ _ _]. by apply sorted_keys_eq.
Qed.
Lemma mem_createWallet_ok : createWallet_spec MemoryVault memory_rel.
Proof.
  intros i id label mnemonic passphrase s a [H1 H2 H3 H4] Ht _. left. split; [|done]. split; cbn; [done| |done..].
  apply (mrel_set plain stored_wallet _ _ id); [done|]. split_and!; try done. by apply encrypted_wallet_opens.
Qed.
Lemma mem_readWallet_ok : readWallet_spec MemoryVault memory_rel.
Proof.
  intros i id passphrase s a [_ H2 _ _]. left. cbn. unfold mem_readWallet.
  destruct (plain_lookup stored_wallet _ _ id H2) as [[-> ->]|(f & w & -> & -> & (_ & _ & _ & _ & _ & Ho))];
    [apply missing_failed|]. cbn. specialize (Ho passphrase). case_decide; [by rewrite Ho|].
  destruct Ho as (e & -> & He). by eexists.
Qed.
Lemma mem_deleteWallet_ok : deleteWallet_spec MemoryVault memory_rel.
Proof.
  intros i id s a [H1 H2 H3 H4]. left. cbn. unfold mem_deleteWallet. rewrite (plain_has stored_wallet _ _ id H2).
  destruct (av_wallets a !! id) eqn:E.
  + rewrite bool_decide_true by eauto. split; [|done]. split; cbn; [done| |done..]. by apply (mrel_delete plain _ _ _ id).
  + rewrite bool_decide_false by by intros []. split; [|apply missing_failed].
    split; cbn; [done| |done..]. by rewrite delete_id by done.
Qed.
Lemma mem_listWallets_ok : listWallets_spec MemoryVault memory_rel.
Proof.
  intros i s a [_ H2 _ _]. left. cbn. eexists. split; [done|].
  apply (infos_perm plain stored_wallet); [apply _|done|]. intros j f w (<- & Hl & Hac & Hc & _).
  unfold info_of, abs_info. cbn. by rewrite Hl, Hac, Hc.
Qed.
Lemma mem_getWalletAccounts_ok : getWalletAccounts_spec MemoryVault memory_rel.
Proof.
  intros i id s a [_ H2 _ _]. left. cbn. unfold mem_getWalletAccounts.
  destruct (plain_lookup stored_wallet _ _ id H2) as [[-> ->]|(f & w & -> & -> & (_ & _ & Hac & _))];
    [apply missing_failed|]. cbn. by rewrite Hac.
Qed.
Lemma mem_updateWalletAccounts_ok : updateWalletAccounts_spec MemoryVault memory_rel.
Proof.
  intros i id accounts s a [H1 H2 H3 H4] _. left. cbn. unfold mem_updateWalletAccounts.
  destruct (plain_lookup stored_wallet _ _ id H2) as [[-> Ha]|(f & w & -> & Hw & (Hi & Hl & _ & Hc & Ho))].
  + rewrite Ha. split; [|apply missing_failed]. split; cbn; [done| |done..].
    by rewrite alter_id by (by intros ?; rewrite Ha).
  + rewrite Hw. split; [|done]. split; cbn; [done| |done..].
    rewrite (alter_as_insert _ _ _ _ Hw). apply (mrel_set plain stored_wallet _ _ id); [done|]. by split_and!.
Qed.
Lemma mem_createApiKey_ok : createApiKey_spec MemoryVault memory_rel.
Proof.
  intros i id walletId mnemonic token expiresAt s a [H1 H2 H3 H4] Hne Hp Hf _. left. split; [|done].
  split; cbn; [done..| |].
  + apply (mrel_set plain stored_key _ _ id); [done|]. split; [done|]. by apply encrypted_key_opens.
  + intros j k. destruct (decide (j = id)) as [->|Hj].
    * rewrite lookup_insert_eq. intros [= <-]. cbn. apply om_get_set_eq.
    * rewrite lookup_insert_ne by done. intros Hk. rewrite om_get_set_ne; [by apply H4|].
      intros E. apply Hj. by eapply Hf.
Qed.
Lemma mem_readApiKey_ok : readApiKey_spec MemoryVault memory_rel.
Proof.
  intros i token s a [_ _ H3 H4]. left. cbn. unfold mem_readApiKey. split.
  + intros id k Hk <-. rewrite (H4 _ _ Hk).
    destruct (plain_lookup stored_key _ _ id H3) as [[_ ?]|(f & k' & Hf & Hk' & (Hne & _ & Ho))]; [congruence|].
    rewrite Hk in Hk'. injection Hk' as <-. destruct id as [|c id]; [done|]. cbn in Hf. rewrite Hf.
    specialize (Ho (ak_token k)). rewrite decide_True in Ho by done. by rewrite <- Ho.
  + intros Hno. destruct (om_get token (mv_tokenIndex s)) as [[|c id]|]; [by eexists| |by eexists].
    destruct (plain_lookup stored_key _ _ (String c id) H3) as [[Hf _]|(f & k & Hf & Hk & (_ & _ & Ho))];
      cbn in Hf; rewrite Hf; [by eexists|]. specialize (Ho token).
    rewrite decide_False in Ho by (intros E; by eapply Hno). destruct Ho as [e Ho]. exists e. by rewrite <- Ho.
Qed.
Lemma mem_revokeApiKey_ok : revokeApiKey_spec MemoryVault memory_rel.
Proof.
  intros i id s a [H1 H2 H3 H4]. left. cbn. unfold mem_revokeApiKey. rewrite (plain_has stored_key _ _ id H3).
  destruct (av_keys a !! id) eqn:E.
  + rewrite bool_decide_true by eauto. split; [|done]. split; cbn; [done..| |].
    * by apply (mrel_delete plain _ _ _ id).
    * intros j k [Hj Hk]%lookup_delete_Some. apply drop_token_other; [by intros ->|by apply H4].
  + rewrite bool_decide_false by by intros []. split; [|apply missing_failed].
    split; cbn; [done..| |]; by rewrite delete_id by done.
Qed.
#[export] Instance memory_contract : VaultContract MemoryVault memory_rel.
Proof.
  split; [apply mem_set_ok|apply mem_get_ok|apply mem_delete_ok|apply mem_list_ok|apply mem_createWallet_ok|apply mem_readWallet_ok|apply mem_deleteWallet_ok|apply mem_listWallets_ok|apply mem_getWalletAccounts_ok|apply mem_updateWalletAccounts_ok|apply mem_createApiKey_ok|apply mem_readApiKey_ok|apply mem_revokeApiKey_ok].
Qed.
End memory.

(** ** The vault in files meets the contract *)
Lemma str_take_app (a b : string) : str_take (String.length a) (a +:+ b) = a.
Proof. induction a as [|c a IH]; [by destruct b|]. rewrite str_cons_app. cbn. by rewrite IH. Qed.
Lemma str_app_inj_r (x a b : string) : a +:+ x = b +:+ x → a = b.
Proof.
  intros H. assert (String.length a = String.length b) as Hl.
  { apply (f_equal String.length) in H. rewrite !str_length_app in H. lia. }
  by rewrite <- (str_take_app a x), <- (str_take_app b x), H, Hl.
Qed.
Lemma str_rev_app_distr (a b : string) : str_rev (a +:+ b) = str_rev b +:+ str_rev a.
Proof.
  rewrite <- (String.string_of_list_ascii_of_string a), <- (String.string_of_list_ascii_of_string b).
  by rewrite <- chars_app, !str_rev_chars, <- chars_app, rev_app_distr.
Qed.
Lemma endsWith_app a suffix : endsWith suffix (a +:+ suffix) = true.
Proof. unfold endsWith. rewrite str_rev_app_distr. apply startsWith_app. Qed.
Lemma accounts_of_json l : accounts_of (JArr (map account_json l)) = l.
Proof.
  induction l as [|[i c a] l IH]; [done|]. cbn [map accounts_of] in *. cbn [base.omap list_omap].
  assert (account_of (account_json (mkAccount i c a)) = Some (mkAccount i c a)) as -> by by destruct c.
  by rewrite IH.
Qed.
Lemma set_accounts_json accounts f : set_accounts accounts (wallet_json f) = wallet_json (with_accounts accounts f).
Proof. reflexivity. Qed.

Section files.
Context {V : VaultLib} {Laws : VaultLaws}.
Definition wallet_file (id : string) (f : JsonFile) (w : AbsWallet) : Prop :=
  ∃ wf, f = Ok (wallet_json wf) ∧ stored_wallet id wf w.
Definition key_file (id : string) (f : JsonFile) (k : AbsKey) : Prop :=
  ∃ kf, f = Ok (key_json kf) ∧ opens_key (kf_crypto kf) k.
Record files_rel (s : FileVault) (a : AbsVault) : Prop := {
  fr_secrets : mrel secretPath (λ _ c v, decryptSecret (fv_secretKey s) c = Some v) (fv_secrets s) (av_secrets a);
  fr_wallets : mrel json_path wallet_file (fv_wallets s) (av_wallets a);
  fr_keys : mrel json_path key_file (fv_keys s) (av_keys a);
  fr_tokens : ∀ i j k k', av_keys a !! i = Some k → av_keys a !! j = Some k' → ak_token k = ak_token k' → i = j
}.
#[local] Instance secretPath_inj : Inj (=) (=) secretPath.
Proof.
  intros a b H%str_app_inj_r. apply (f_equal vl_decodeURI) in H. unfold encodeSecretName in H.
  rewrite !law_uri in H. by injection H.
Qed.
#[local] Instance json_path_inj : Inj (=) (=) json_path.
Proof. intros a b. apply str_app_inj_r. Qed.
Lemma decodeSecretName_path name : decodeSecretName (secretPath name) = Some name.
Proof.
  unfold decodeSecretName, secretPath. rewrite endsWith_app, str_length_app, Nat.add_sub, str_take_app. apply law_uri.
Qed.
Lemma decrypt_encrypt k iv v : length iv = IV_BYTES → decryptSecret k (encryptSecret k iv v) = Some v.
Proof.
  intros Hl. unfold decryptSecret, encryptSecret, slice. rewrite drop_0, Nat.sub_0_r, <- Hl.
  rewrite take_app_length, drop_app_length. apply law_gcm.
Qed.
Lemma wallet_json_ok f : is_object (wf_crypto f) = true → isWalletFile (wallet_json f) = true.
Proof.
  intros Ho. unfold isWalletFile. change (jget "crypto" (wallet_json f)) with (wf_crypto f). rewrite Ho.
  by rewrite !bool_decide_true by by eexists.
Qed.
Lemma key_json_ok f : is_object (kf_crypto f) = true → isApiKeyFile (key_json f) = true.
Proof.
  intros Ho. unfold isApiKeyFile. change (jget "crypto" (key_json f)) with (kf_crypto f). rewrite Ho.
  by rewrite !bool_decide_true by by eexists.
Qed.
Lemma json_files_perm (m : omap string JsonFile) : NoDup m.*1 → (∀ p, p ∈ m.*1 → ∃ id, p = json_path id) →
  json_files m ≡ₚ m.*2.
Proof.
  intros Hnd Hp. unfold json_files.
  assert (∀ l, (∀ p, p ∈ l → ∃ id, p = json_path id) → List.filter (endsWith ".json") l = l) as Hfilter.
  { intros l. induction l as [|p l IH]; [done|]. intros Hl. cbn [List.filter].
    destruct (Hl p ltac:(set_solver)) as [id ->]. unfold json_path at 1. rewrite endsWith_app. f_equal.
    apply IH. intros q Hq. apply Hl. set_solver. }
  rewrite Hfilter by (intros p; rewrite law_readdir; apply Hp).
  rewrite (omap_Permutation (λ f, om_get f m) _ m.*1 (law_readdir _)).
  assert (∀ l, (∀ p x, (p, x) ∈ l → om_get p m = Some x) → base.omap (λ f, om_get f m) l.*1 = l.*2) as ->; [|done|].
  { intros l. induction l as [|[p x] l IH]; [done|]. intros Hl. cbn. rewrite (Hl p x) by set_solver. f_equal.
    apply IH. intros q y Hq. apply Hl. set_solver. }
  intros p x Hx. by apply om_get_NoDup.
Qed.
Lemma mrel_json_files {B} (P : string → JsonFile → B → Prop) m a : mrel json_path P m a → json_files m ≡ₚ m.*2.
Proof. intros (Hnd & _ & Hp). apply json_files_perm; [done|]. intros p Hin. destruct (Hp p Hin) as (id & -> & _). eauto. Qed.
Lemma failed_caught {A} msg ctx cause : failed internal (caught (A := A) msg ctx cause).
Proof. by eexists. Qed.
Lemma failed_missing {A} kind name : failed not_found (missing (A := A) kind name).
Proof. by eexists. Qed.

(** Writing a file, for the three directories. *)
Lemma write_ok {F} i part (file : F) put msg ctx s a a' : whole i → files_rel s a → files_rel (put file s) a' →
  writes files_rel i a a' (returns tt) (write_file i part file put s, write_result i msg ctx).
Proof.
  intros Hi Hs Hs'. unfold writes, write_file, write_result, returns, cleanly. destruct (in_io i) as [[c|c n x|c]|] eqn:E; cbn [fst snd].
  - right. split_and!; [by eexists|by left|apply failed_caught].
  - by destruct (Hi c n x).
  - right. split_and!; [by eexists|right; split; [|done]|apply failed_caught]. intros H. by destruct (H _ eq_refl).
  - by left.
Qed.
(** Unlinking, for the three directories. *)
Lemma unlink_ok {F B} (path : string → string) `{!Inj (=) (=) path} (P : string → F → B → Prop)
  (files : omap string F) (m : gmap string B) remove kind name i s a a' :
  mrel path P files m → files_rel s a →
  (mrel path P (om_delete (path name) files) (delete name m) → files_rel (remove (om_delete (path name)) s) a') →
  (m !! name = None → a' = a) →
  meets files_rel i a a' (found (m !! name) (λ _, returns tt)) (unlink i kind name (path name) files remove s).
Proof.
  intros Hm Hs Hr Hno. unfold unlink. rewrite (mrel_has path P _ _ name Hm). destruct (m !! name) as [x|] eqn:E.
  - rewrite bool_decide_true by eauto. destruct (in_io i) as [c|] eqn:Ei.
    + right. rewrite Ei. split_and!; [by eexists|done|by left].
    + left. split; [|done]. apply Hr. by apply (mrel_delete path).
  - rewrite bool_decide_false by by intros []. left. rewrite Hno by done. split; [done|]. apply failed_missing.
Qed.
(** Reading the file of a wallet. *)
Lemma on_wallet_ok {A} i msg id s a (k : json → outcome A) (Q : AbsWallet → outcome A → Prop) : files_rel s a →
  (∀ wf w, av_wallets a !! id = Some w → stored_wallet id wf w → Q w (k (wallet_json wf))) →
  reads i (found (av_wallets a !! id) Q) (on_wallet i msg id s k).
Proof.
  intros [_ Hw _ _] HQ. unfold on_wallet, reads. destruct (in_io i) as [c|]; [right; by split; [eexists|apply failed_caught]|].
  left. destruct (mrel_lookup json_path wallet_file _ _ id Hw) as [[-> ->]|(f & w & -> & E & (wf & -> & Hst))];
    [apply failed_missing|].
  rewrite wallet_json_ok by apply Hst. rewrite E. by apply HQ.
Qed.

Lemma file_set_ok : set_spec FileVault files_rel.
Proof.
  intros i name value s a H [Hi Hw]. apply write_ok; [done..|]. destruct H as [H1 H2 H3 H4].
  split; cbn; [|done..]. apply (mrel_set secretPath (λ _ c v, decryptSecret (fv_secretKey s) c = Some v)); [done|].
  by apply decrypt_encrypt.
Qed.
Lemma file_get_ok : get_spec FileVault files_rel.
Proof.
  intros i name s a [H1 _ _ _]. cbn. unfold file_get, reads.
  destruct (mrel_lookup secretPath _ _ _ name H1) as [[-> ->]|(x & y & -> & -> & Hd)]; [left; apply failed_missing|].
  destruct (in_io i); [right; by split; [eexists|apply failed_caught]|]. left. by rewrite Hd.
Qed.
Lemma file_delete_ok : delete_spec FileVault files_rel.
Proof.
  intros i name s a H. pose proof H as [H1 H2 H3 H4].
  apply (unlink_ok secretPath (λ _ c v, decryptSecret (fv_secretKey s) c = Some v)); [done|done| |].
  - intros Hd. by split.
  - intros E. destruct a. unfold set_secrets. cbn in *. by rewrite delete_id.
Qed.
Lemma file_list_ok : list_spec FileVault files_rel.
Proof.
  intros s a [H1 _ _ _]. cbn. unfold file_list.
  apply StronglySorted_unique with (R := String.le); [apply _|apply StronglySorted_merge_sort; apply _..|].
  rewrite !merge_sort_Permutation. rewrite (omap_Permutation _ _ _ (law_readdir _)).
  destruct (mrel_list _ _ _ _ H1) as (l & <- & Hf).
  assert (base.omap decodeSecretName (fv_secrets s).*1 = l.*1) as ->; [|done].
  clear H1. induction Hf as [|[p c] [n v] m l' [E _] _ IH]; [done|]. cbn in E. subst p. csimpl. rewrite decodeSecretName_path. by f_equal.
Qed.
Lemma file_createWallet_ok : createWallet_spec FileVault files_rel.
Proof.
  intros i id label mnemonic passphrase s a H Ht Hw. apply write_ok; [done..|]. destruct H as [H1 H2 H3 H4].
  split; cbn; [done| |done..]. apply (mrel_set json_path wallet_file); [done|]. eexists. split; [done|].
  split_and!; try done. by apply encrypted_wallet_opens.
Qed.
Lemma file_readWallet_ok : readWallet_spec FileVault files_rel.
Proof.
  intros i id passphrase s a H. apply on_wallet_ok; [done|]. intros wf w _ (_ & _ & _ & _ & _ & Ho).
  change (jget "crypto" (wallet_json wf)) with (wf_crypto wf).
  specialize (Ho passphrase). case_decide; [by rewrite Ho|]. destruct Ho as (e & -> & He). by eexists.
Qed.
Lemma file_deleteWallet_ok : deleteWallet_spec FileVault files_rel.
Proof.
  intros i id s a H. pose proof H as [H1 H2 H3 H4].
  apply (unlink_ok json_path wallet_file); [done|done| |].
  - intros Hd. by split.
  - intros E. destruct a. unfold set_wallets. cbn in *. by rewrite delete_id.
Qed.
Definition file_info (f : JsonFile) : WalletFileInfo :=
  match f with Ok raw => raw_info raw | Err _ => mkInfo "" "" 0 "" end.
Lemma wallet_infos_ok l : Forall (λ f, ∃ id w, wallet_file id f w) l → wallet_infos l = Ok (map file_info l).
Proof.
  induction 1 as [|f l (id & w & wf & -> & Hst) Hl IH]; [done|]. cbn [wallet_infos map]. rewrite IH. cbn [mbind result_bind].
  by rewrite wallet_json_ok by apply Hst.
Qed.
Lemma mrel_values {F B} path (P : string → F → B → Prop) m a : mrel path P m a →
  Forall (λ f, ∃ id w, a !! id = Some w ∧ P id f w) m.*2.
Proof.
  intros (Hnd & H & Hp). apply Forall_forall. intros f ([p f'] & -> & Hin)%list_elem_of_fmap.
  destruct (Hp p) as (id & -> & w & Hw). { apply list_elem_of_fmap. by exists (p, f'). }
  exists id, w. split; [done|]. specialize (H id). rewrite Hw, (om_get_NoDup _ f') in H by done. done.
Qed.
Lemma file_listWallets_ok : listWallets_spec FileVault files_rel.
Proof.
  intros i s a [_ H2 _ _]. cbn. unfold file_listWallets, reads. destruct (in_io i); [right; by split; [eexists|apply failed_caught]|].
  left. pose proof (mrel_json_files _ _ _ H2) as Hperm. rewrite wallet_infos_ok.
  - eexists. split; [done|]. rewrite Hperm.
    apply (infos_perm json_path wallet_file); [apply _|done|]. intros id f w (wf & -> & Hi & Hl & Hac & Hc & _).
    change (file_info (Ok (wallet_json wf))) with
      (mkInfo (wf_id wf) (wf_label wf) (length (map account_json (wf_accounts wf))) (wf_createdAt wf)).
    unfold abs_info. cbn. by rewrite length_map, Hi, Hl, Hac, Hc.
  - rewrite Hperm. eapply Forall_impl; [exact (mrel_values json_path wallet_file _ _ H2)|]. cbn. naive_solver.
Qed.
Lemma file_getWalletAccounts_ok : getWalletAccounts_spec FileVault files_rel.
Proof.
  intros i id s a H. apply on_wallet_ok; [done|]. intros wf w _ (_ & _ & Hac & _).
  change (jget "accounts" (wallet_json wf)) with (JArr (map account_json (wf_accounts wf))).
  by rewrite accounts_of_json, Hac.
Qed.
Lemma file_updateWalletAccounts_ok : updateWalletAccounts_spec FileVault files_rel.
Proof.
  intros i id accounts s a H Hw. pose proof H as [H1 H2 H3 H4]. cbn. unfold file_updateWalletAccounts.
  destruct (in_io i) as [[c| |]|] eqn:E.
  1: { right. rewrite E. split_and!; [by eexists|by left|apply failed_caught]. }
  all: destruct (mrel_lookup json_path wallet_file _ _ id H2) as [[-> Hid]|(f & w & -> & Hid & (wf & -> & Hst))]; rewrite Hid;
    [left; split; [|apply failed_missing]; split; cbn; [done| |done..]; by rewrite alter_id by (by intros ?; rewrite Hid)|].
  all: rewrite wallet_json_ok by apply Hst; rewrite set_accounts_json; apply write_ok; [done..|].
  all: split; cbn [fv_secretKey fv_secrets fv_wallets fv_keys with_wallets av_secrets av_wallets av_keys set_wallets]; [done| |done..].
  all: rewrite (alter_as_insert _ _ _ _ Hid); apply (mrel_set json_path wallet_file); [done|].
  all: eexists; split; [done|]; destruct Hst as (? & ? & ? & ? & ?); by split_and!.
Qed.
Lemma file_createApiKey_ok : createApiKey_spec FileVault files_rel.
Proof.
  intros i id walletId mnemonic token expiresAt s a H Hne Hp Hf Hw. apply write_ok; [done..|]. destruct H as [H1 H2 H3 H4].
  split; cbn; [done..| |].
  - apply (mrel_set json_path key_file); [done|]. eexists. split; [done|]. by apply encrypted_key_opens.
  - intros j1 j2 k1 k2 E1 E2 Ht. destruct (decide (j1 = id)) as [->|N1], (decide (j2 = id)) as [->|N2]; try done.
    + rewrite lookup_insert_eq in E1. injection E1 as <-. rewrite lookup_insert_ne in E2 by done. symmetry.
      by eapply Hf.
    + rewrite lookup_insert_eq in E2. injection E2 as <-. rewrite lookup_insert_ne in E1 by done. by eapply Hf.
    + rewrite lookup_insert_ne in E1, E2 by done. by eapply H4.
Qed.
(** The scan finds the key of the token, or no file opens with it. *)
Lemma scan_keys_ok token (m : gmap string AbsKey) l :
  Forall (λ f, ∃ id k, m !! id = Some k ∧ key_file id f k) l →
  (∃ id k, m !! id = Some k ∧ ak_token k = token ∧ scan_keys token l = Some (Ok (ak_mnemonic k, ak_walletId k))) ∨
  (scan_keys token l = missing "ApiKey" "by-token" ∧ Forall (λ f, ∀ id k, key_file id f k → ak_token k ≠ token) l).
Proof.
  induction 1 as [|f l (id & k & Hk & kf & -> & Ho) Hl IH]; [by right|].
  cbn [scan_keys]. rewrite key_json_ok by apply Ho. change (jget "crypto" (key_json kf)) with (kf_crypto kf).
  change (decrypted ← decryptWithHkdf (kf_crypto kf) token; parseApiKeyPayload decrypted) with (read_key (kf_crypto kf) token).
  pose proof (proj2 Ho token) as Hr. case_decide as E; [left; exists id, k; by rewrite Hr|].
  destruct Hr as [e Hr]. rewrite Hr. destruct IH as [IH|[-> Hall]]; [by left|]. right. split; [done|]. constructor; [|done].
  intros id' k' (kf' & Heq & Ho') Ht.
  assert (kf_crypto kf' = kf_crypto kf) as Hc by (unfold key_json in Heq; congruence).
  pose proof (proj2 Ho' token) as H0. rewrite decide_True, Hc in H0 by done. congruence.
Qed.
Lemma file_readApiKey_ok : readApiKey_spec FileVault files_rel.
Proof.
  intros i token s a [_ _ H3 H4]. cbn. unfold file_readApiKey, reads.
  destruct (in_io i); [right; by split; [eexists|apply failed_caught]|]. left.
  pose proof (mrel_json_files _ _ _ H3) as Hperm.
  assert (Forall (λ f, ∃ id k, av_keys a !! id = Some k ∧ key_file id f k) (json_files (fv_keys s))) as Hall.
  { rewrite Hperm. by apply (mrel_values json_path). }
  destruct (scan_keys_ok token (av_keys a) _ Hall) as [(id & k & Hk & Ht & ->)|[-> Hno]].
  - split; [|intros Hn; by destruct (Hn id k)]. intros id' k' Hk' Ht'.
    assert (id' = id) as -> by (eapply H4; [done..|congruence]). by simplify_eq.
  - split; [|intros _; by eexists]. intros id k Hk Ht. exfalso.
    destruct (mrel_lookup json_path key_file _ _ id H3) as [[_ ?]|(f & k' & Hf & Hk' & Hkf)]; [congruence|].
    rewrite Forall_forall in Hno. apply (Hno f) in Hkf; [simplify_eq; done|].
    rewrite Hperm. apply list_elem_of_fmap. exists (json_path id, f). split; [done|]. by apply om_get_elem.
Qed.
Lemma unknown_token i token s a : files_rel s a → (∀ id k, av_keys a !! id = Some k → ak_token k ≠ token) →
  reads i (failed not_found) (file_readApiKey i token s).
Proof.
  intros [_ _ H3 _] Hno. unfold file_readApiKey, reads.
  destruct (in_io i); [right; by split; [eexists|apply failed_caught]|]. left.
  destruct (scan_keys_ok token (av_keys a) (json_files (fv_keys s))) as [(id & k & Hk & Ht & _)|[-> _]].
  - rewrite (mrel_json_files _ _ _ H3). by apply (mrel_values json_path).
  - by destruct (Hno id k).
  - apply failed_missing.
Qed.
Lemma file_revokeApiKey_ok : revokeApiKey_spec FileVault files_rel.
Proof.
  intros i id s a H. pose proof H as [H1 H2 H3 H4].
  apply (unlink_ok json_path key_file); [done|done| |].
  - intros Hd. split; try done. cbn. intros j1 j2 k1 k2 [_ E1]%lookup_delete_Some [_ E2]%lookup_delete_Some. by eapply H4.
  - intros E. destruct a. unfold set_keys. cbn in *. by rewrite delete_id.
Qed.
#[export] Instance file_contract : VaultContract FileVault files_rel.
Proof.
  split; [apply file_set_ok|apply file_get_ok|apply file_delete_ok|apply file_list_ok|apply file_createWallet_ok
         |apply file_readWallet_ok|apply file_deleteWallet_ok|apply file_listWallets_ok|apply file_getWalletAccounts_ok
         |apply file_updateWalletAccounts_ok|apply file_createApiKey_ok|apply file_readApiKey_ok|apply file_revokeApiKey_ok].
Qed.
End files.

(** ** The two vaults *)
Section vaults.
Context {V : VaultLib} {Laws : VaultLaws}.
Lemma empty_memory : memory_rel (mkMemory [] [] [] []) (mkAbs ∅ ∅ ∅).
Proof. split; [apply mrel_empty..|]. intros i k H. cbn in H. by rewrite lookup_empty in H. Qed.
Lemma empty_files key : files_rel (mkFiles key [] [] []) (mkAbs ∅ ∅ ∅).
Proof. split; [apply mrel_empty..|]. intros i j k k' H. cbn in H. by rewrite lookup_empty in H. Qed.
End vaults.

(** ** Witness: libraries that obey the laws *)
Definition unhex (c : ascii) : option nat :=
  let n := nat_of_ascii c in
  if ((48 <=? n) && (n <=? 57))%nat then Some (n - 48)%nat
  else if ((97 <=? n) && (n <=? 102))%nat then Some (n - 87)%nat else None.
Fixpoint demo_unhex (s : string) : option bytes :=
  match s with
  | EmptyString => Some []
  | String a (String b s) => x ← unhex a; y ← unhex b; l ← demo_unhex s; Some (to_byte (16 * x + y) :: l)
  | String _ EmptyString => None
  end.
#[local] Instance byte_eq_dec : EqDecision Byte.byte := Byte.byte_eq_dec.
Definition demo_mark (k : bytes) : bytes := concat (map (λ b, [Byte.x01; b]) k) ++ [Byte.x00].
Definition demo_open (k c : bytes) : option bytes :=
  if bool_decide (take (length (demo_mark k)) c = demo_mark k) then Some (drop (length (demo_mark k)) c) else None.
(** Enough of [JSON.parse] for a key's payload. *)
Definition demo_parse (s : string) : option json :=
  match str_split dquote s with
  | [_; _; _; m; _; _; _; id; _] => Some (JObj [("mnemonic", JStr m); ("walletId", JStr id)])
  | _ => None
  end.
Definition demo_vault : VaultLib := {|
  vl_keys := {| kl_sha256 d := d; kl_hmac_sha512 key data := data; kl_pbkdf2 p s := p ++ s; kl_nfkd s := s;
                kl_keccak256 d := d; kl_secp_public k c := Ok k; kl_order := 2 ^ 255; kl_ed_public k := k;
                kl_secp_sign h k := Ok (h ++ k); kl_ed_sign d k := d ++ k |};
  vl_scrypt p s n r q len := p; vl_scrypt_accepts n r q len := true; vl_hkdf ikm s info := ikm;
  vl_encrypt k iv p := demo_mark k ++ p; vl_decrypt k iv c := demo_open k c;
  vl_hexToBytes := demo_unhex; vl_decodeUtf8 := String.string_of_list_byte; vl_parse := demo_parse;
  vl_encodeURI s := s; vl_decodeURI := Some; vl_readdir l := l |}.
Lemma demo_unhex_hex b : demo_unhex (bytes_hex b) = Some b.
Proof.
  induction b as [|x b IH]; [done|]. cbn [bytes_hex]. unfold byte_hex. rewrite !str_cons_app. cbn [demo_unhex].
  change ("" +:+ bytes_hex b) with (bytes_hex b). rewrite IH. by destruct x.
Qed.
Lemma demo_open_mark k p : demo_open k (demo_mark k ++ p) = Some p.
Proof. unfold demo_open. by rewrite take_app_length, drop_app_length, bool_decide_true. Qed.
Lemma demo_mark_prefix k k' p q : demo_mark k ++ p = demo_mark k' ++ q → k = k'.
Proof.
  revert k'. induction k as [|b k IH]; intros [|b' k']; [done..|]. intros [= -> H]. f_equal. by apply IH.
Qed.
Lemma demo_open_other k k' p : k ≠ k' → demo_open k' (demo_mark k ++ p) = None.
Proof.
  intros Hk. unfold demo_open. case_bool_decide as E; [|done]. destruct Hk.
  apply (demo_mark_prefix k k' p (drop (length (demo_mark k')) (demo_mark k ++ p))). by rewrite <- E at 1; rewrite take_drop.
Qed.
Lemma utf8_inj a b : utf8 a = utf8 b → a = b.
Proof.
  intros H%(f_equal String.string_of_list_byte). unfold utf8 in H. by rewrite !String.string_of_list_byte_of_string in H.
Qed.
Lemma demo_vault_laws : @VaultLaws demo_vault.
Proof.
  split; try done.
  - intros k iv p. apply demo_open_mark.
  - apply demo_unhex_hex.
  - intros p p' salt n r q len c Hp H%bytes_hex_inj%app_inv_tail%utf8_inj. by apply Hp.
  - intros t t' salt info iv p Ht. apply demo_open_other. by intros ?%utf8_inj.
Qed.
Definition demo_input : VaultInput := mkInput [Byte.x05] (replicate 12 Byte.x07) "2024-01-01" None.
Lemma demo_input_ok : input_ok demo_input.
Proof. by split. Qed.
Definition demo_files : FileVault :=
  ((@v_createWallet FileVault (@file_vault demo_vault)) demo_input "w1" "main" "twelve words" "pass"
     (mkFiles [] [] [] [])).1.

(** ** What goes wrong *)
(** A write whose file mode cannot be set is reported as failed, and the wallet
    is there. *)
Lemma failed_wallet_exists :
  let i := mkInput [Byte.x05] (replicate 12 Byte.x07) "2024" (Some (io_written "EPERM")) in
  let x := @file_createWallet demo_vault i "w2" "other" "words" "pass" demo_files in
  (∃ e, x.2 = Some (Err e)) ∧
  @file_readWallet demo_vault demo_input "w2" "pass" x.1 = Some (Ok "words").
Proof. vm_compute. split; [by eexists|done]. Qed.
(** A write that is cut short leaves a file that is not JSON, and while it is
    there no wallet is listed. *)
Lemma cut_wallet_hides_all :
  let i := mkInput [Byte.x05] (replicate 12 Byte.x07) "2024" (Some (io_cut "ENOSPC" 7 "JSON Parse error")) in
  let s := (@file_updateWalletAccounts i "w1" [] demo_files).1 in
  (∃ e, @file_listWallets demo_vault demo_input s = Some (Err e)) ∧
  ∃ e, @file_readWallet demo_vault demo_input "w1" "pass" s = Some (Err e) ∧ category e = internal.
Proof. vm_compute. split; [by eexists|]. by eexists. Qed.
