(* ===== verification/DaemonFiles.v ===== *)
(** * The daemon's files

    [cli/src/audit/log.ts], [daemon/pid.ts] and the log actions of
    [actions/signet-actions.ts]: the append-only audit log, one JSON text per
    line, and the file with the process id.

    A file is absent, has a text, or cannot be read for another reason.
    [JSON.stringify] is [print] of [Json]; [JSON.parse] is a parameter that
    throws on some texts.  Whether a process lives is a parameter. *)
From S2P Require Import Prelude Text Json Errors Ids Invites KeyDerivation VaultSpec.
Local Open Scope Z_scope.

Inductive file := f_absent | f_text (content : string) | f_error (cause : string).
(** What an operation of the file system answers: nothing, or why it failed. *)
Abbreviation io := (option string).
Definition newline : ascii := ascii_of_nat 10.

Section audit.
Context (JSON_parse : string → option json).
(** [append]: the line is written as it is, after what is there; on a file
    that cannot be read it throws and changes nothing. *)
Definition audit_append (entry : json) (f : file) : file :=
  let line := print (strip entry) +:+ String newline "" in
  match f with
  | f_absent => f_text line
  | f_text s => f_text (s +:+ line)
  | f_error cause => f_error cause
  end.
Definition audit_lines (content : string) : list string :=
  List.filter (λ l, negb (bool_decide (l = ""))) (str_split newline (trim content)).
Fixpoint parse_lines (lines : list string) : option (list json) :=
  match lines with
  | [] => Some []
  | l :: lines => v ← JSON_parse l; vs ← parse_lines lines; Some (v :: vs)
  end.
(** [entry.timestamp >= since]; [None]: the entry has no properties. *)
Definition not_before (since : string) (entry : json) : option bool :=
  match entry with
  | JNull | JUndef => None
  | v => Some (match jget "timestamp" v with JStr t => String.leb since t | _ => false end)
  end.
Fixpoint filter_since (since : string) (entries : list json) : option (list json) :=
  match entries with
  | [] => Some []
  | e :: es => b ← not_before since e; rest ← filter_since since es; Some (if (b : bool) then e :: rest else rest)
  end.
(** [None]: it threw. *)
Definition readAll (since : option string) (f : file) : option (list json) :=
  match f with
  | f_absent => Some []
  | f_error _ => None
  | f_text content =>
      entries ← parse_lines (audit_lines content);
      match since with None => Some entries | Some s => filter_since s entries end
  end.
Definition tail (count : Z) (f : file) : option (list json) :=
  match f with
  | f_absent => Some []
  | f_error _ => None
  | f_text content =>
      let lines := audit_lines content in
      parse_lines (drop (Z.to_nat (Z.max 0 (Z.of_nat (length lines) - count))) lines)
  end.
(** [all.slice(-limit)] for a limit that is not negative. *)
Definition slice_last {A} (limit : nat) (all : list A) : list A :=
  if bool_decide (limit = 0%nat) then all else drop (length all - limit) all.
Definition DEFAULT_LOG_LIMIT : Z := 50.
Definition admin_logs (limit : option nat) (since : option string) (f : file) : option (list json) :=
  match since with
  | Some s => all ← readAll (Some s) f; Some (slice_last (default (length all) limit) all)
  | None => tail (default DEFAULT_LOG_LIMIT (Z.of_nat <$> limit)) f
  end.
Definition admin_logs_export (f : file) : option (list json) := readAll None f.
End audit.

(** ** The process id *)
Definition pid_error (what cause : string) (pidPath : string) : SignetError :=
  InternalError_create (what +:+ cause) (Some [("pidPath", JStr pidPath)]).
Definition pid_write (made : io) (pidPath : string) (pid : Z) (f : file) : file * result SignetError unit :=
  match made with
  | Some cause => (f, Err (pid_error "Failed to write PID file: " cause pidPath))
  | None => (f_text (pretty pid +:+ String newline ""), Ok tt)
  end.
(** [parseInt(s, 10)] of a trimmed text: a sign, then digits up to the first
    other character; [None] is [NaN]. *)
Fixpoint leading_digits (s : string) : string :=
  match s with
  | String c s => if is_digit c then String c (leading_digits s) else ""
  | EmptyString => ""
  end.
Definition parseInt10 (s : string) : option Z :=
  let '(sign, body) :=
    match s with
    | String c rest => if bool_decide (c = "-"%char) then (-1, rest) else if bool_decide (c = "+"%char) then (1, rest) else (1, s)
    | EmptyString => (1, "")
    end in
  match leading_digits body with
  | "" => None
  | digits => Some (sign * dec_value 0 digits)
  end.
Definition pid_read (pidPath : string) (f : file) : result SignetError (option Z) :=
  match f with
  | f_absent => Ok None
  | f_error cause => Err (pid_error "Failed to read PID file: " cause pidPath)
  | f_text content =>
      match parseInt10 (trim content) with
      | Some pid => if pid <=? 0 then
          Err (InternalError_create "Invalid PID file content" (Some [("pidPath", JStr pidPath); ("content", JStr content)]))
          else Ok (Some pid)
      | None => Err (InternalError_create "Invalid PID file content" (Some [("pidPath", JStr pidPath); ("content", JStr content)]))
      end
  end.
Definition pid_isAlive (lives : Z → bool) (pidPath : string) (f : file) : result SignetError bool :=
  match pid_read pidPath f with
  | Err e => Err e
  | Ok None => Ok false
  | Ok (Some pid) => Ok (lives pid)
  end.
Definition pid_cleanup (made : io) (pidPath : string) (f : file) : file * result SignetError unit :=
  match f, made with
  | f_absent, _ => (f_absent, Ok tt)
  | _, Some cause => (f, Err (pid_error "Failed to remove PID file: " cause pidPath))
  | _, None => (f_absent, Ok tt)
  end.

(** ** Lines *)
Lemma json_escape_line c : str_without newline (json_escape c) = true.
Proof. destruct c as [[] [] [] [] [] [] [] []]; vm_compute; reflexivity. Qed.
Lemma str_without_app c a b : str_without c (a +:+ b) = str_without c a && str_without c b.
Proof. apply str_forallb_app. Qed.
Lemma str_without_cons c a s : str_without c (String a s) = negb (bool_decide (a = c)) && str_without c s.
Proof. done. Qed.
Lemma json_quote_line s : str_without newline (json_quote s) = true.
Proof.
  unfold json_quote. assert (str_without newline (json_escapes s) = true) as Hs.
  { induction s as [|c s IH]; [done|]. cbn [json_escapes]. by rewrite str_without_app, json_escape_line. }
  by rewrite (str_without_cons newline dquote), str_without_app, Hs.
Qed.
Lemma str_join_line sep l : str_without newline sep = true → Forall (λ s, str_without newline s = true) l →
  str_without newline (str_join sep l) = true.
Proof.
  intros Hsep Hl. induction Hl as [|s l Hs Hl IH]; [done|]. destruct l as [|t l]; [done|].
  change (str_join sep (s :: t :: l)) with (s +:+ sep +:+ str_join sep (t :: l)).
  by rewrite !str_without_app, Hs, Hsep, IH.
Qed.
(** A JSON text is one line. *)
Lemma print_line v : str_without newline (print v) = true.
Proof.
  induction v as [| |b|z|s|l IH|o IH] using json_nested_ind; try done.
  - by destruct b.
  - by apply (pretty_without newline).
  - apply json_quote_line.
  - cbn [print]. rewrite (str_without_cons newline "["), str_without_app, (str_join_line ","); [reflexivity|reflexivity|].
    by rewrite Forall_fmap.
  - cbn [print]. rewrite (str_without_cons newline "{"), str_without_app, (str_join_line ","); [reflexivity|reflexivity|].
    rewrite Forall_fmap. eapply Forall_impl; [exact IH|]. intros [k v] Hv. cbn [snd] in Hv. cbn [compose].
    by rewrite str_without_app, json_quote_line, (str_without_cons newline ":"), Hv.
Qed.
Definition braced (s : string) : Prop := ∃ m, s = String "{" (m +:+ "}").
Lemma print_braced o : braced (print (JObj o)).
Proof. eexists. reflexivity. Qed.
Lemma not_blank c s : c = "{"%char ∨ c = "}"%char →
  forallb (λ p, negb (startsWith p (String c s))) WHITESPACE = true ∧
  forallb (λ p, negb (startsWith p (String c s))) (map str_rev WHITESPACE) = true.
Proof. intros [-> | ->]; split; reflexivity. Qed.
Lemma drop_blank n s c : c = "{"%char ∨ c = "}"%char →
  drop_prefixes n WHITESPACE (String c s) = String c s ∧
  drop_prefixes n (map str_rev WHITESPACE) (String c s) = String c s.
Proof. intros Hc. destruct (not_blank c s Hc) as [H1 H2]. split; by apply drop_prefixes_none. Qed.
Lemma drop_newline n s : drop_prefixes (S n) (map str_rev WHITESPACE) (String newline s) = drop_prefixes n (map str_rev WHITESPACE) s.
Proof. reflexivity. Qed.
(** Trimming takes the last line feed away and nothing else. *)
Lemma trim_braced s : braced s → trim (s +:+ String newline "") = s.
Proof.
  intros [m ->]. unfold trim, trimStart. rewrite str_cons_app.
  rewrite (proj1 (drop_blank _ _ "{"%char (or_introl eq_refl))). unfold trimEnd.
  set (t := String "{" ((m +:+ "}") +:+ String newline "")).
  assert (str_rev t = String newline (String "}" (str_rev (String "{" m)))) as ->.
  { unfold t. rewrite <-str_cons_app, <-str_cons_app, !str_rev_app_distr. reflexivity. }
  assert (∃ n, String.length t = S n) as [n ->] by by exists (String.length ((m +:+ "}") +:+ String newline "")).
  rewrite drop_newline, (proj2 (drop_blank _ _ "}"%char (or_intror eq_refl))).
  change (String "}" (str_rev (String "{" m))) with (str_rev "}" +:+ str_rev (String "{" m)).
  by rewrite <-str_rev_app_distr, str_rev_rev, str_cons_app.
Qed.

(** ** The log reads back *)
Section audit_spec.
Context (JSON_parse : string → option json).
Definition log_of (entries : list json) : file := foldl (λ f e, audit_append e f) f_absent entries.
Definition line_of (e : json) : string := print (strip e).
Lemma log_text e entries :
  log_of (e :: entries) = f_text (str_join (String newline "") (map line_of (e :: entries)) +:+ String newline "").
Proof.
  unfold log_of. cbn [foldl audit_append]. fold (line_of e).
  assert (∀ l s, foldl (λ f e, audit_append e f) (f_text (s +:+ String newline "")) l =
    f_text (str_join (String newline "") (s :: map line_of l) +:+ String newline "")) as H; [|apply H].
  induction l as [|x l IH]; intros s; [done|]. cbn [foldl audit_append]. fold (line_of x).
  rewrite <-str_app_assoc, IH. do 2 f_equal. cbn [map].
  assert (∀ a b l, str_join (String newline "") (a :: b :: l) = a +:+ String newline "" +:+ str_join (String newline "") (b :: l)) as Hc by done.
  assert (∀ a, str_join (String newline "") [a] = a) as H1 by done.
  destruct (map line_of l) as [|y l']; by rewrite !Hc, ?H1, !str_app_assoc.
Qed.
Definition is_entry (e : json) : bool := match e with JObj _ => true | _ => false end.
Lemma strip_entry e : is_entry e = true → clean (strip e) = true ∧ braced (line_of e).
Proof.
  intros He. split; [apply strip_clean; by intros ->|]. destruct e as [| | | | | |o]; try done. apply print_braced.
Qed.
Lemma lines_of_log e entries : Forall (λ e, is_entry e = true) (e :: entries) →
  audit_lines (str_join (String newline "") (map line_of (e :: entries)) +:+ String newline "") = map line_of (e :: entries).
Proof.
  intros He. assert (Forall braced (map line_of (e :: entries))) as Hb.
  { rewrite Forall_fmap. eapply Forall_impl; [exact He|]. intros x Hx. by apply strip_entry. }
  unfold audit_lines. cbn [map]. rewrite trim_braced.
  - rewrite str_split_join_back.
    + clear He. cbn [map] in Hb. induction Hb as [|l ls [m ->] _ IH]; [done|]. cbn [List.filter]. by rewrite IH.
    + constructor; [apply print_line|]. rewrite Forall_fmap. apply Forall_forall. intros x _. apply print_line.
  - clear He. cbn [map] in Hb. apply Forall_cons in Hb as [[m Hm] Hb]. rewrite Hm. clear Hm. revert m.
    induction Hb as [|l ls [m' ->] _ IH]; intros m; [by exists m|].
    destruct (IH m') as [k Hk].
    exists (m +:+ "}" +:+ String newline "" +:+ String "{" k).
    change (str_join (String newline "") (String "{" (m +:+ "}") :: String "{" (m' +:+ "}") :: ls)) with
      (String "{" (m +:+ "}") +:+ String newline "" +:+ str_join (String newline "") (String "{" (m' +:+ "}") :: ls)).
    rewrite Hk. rewrite !str_cons_app, !str_app_assoc. reflexivity.
Qed.
(** [JSON.parse] reads the line of an entry back. *)
Definition parses (e : json) : Prop := JSON_parse (line_of e) = Some (strip e).
Lemma parse_log entries : Forall parses entries → parse_lines JSON_parse (map line_of entries) = Some (map strip entries).
Proof.
  intros He. induction He as [|e l He _ IH]; [done|]. cbn [map parse_lines]. unfold parses in He. rewrite He. cbn. by rewrite IH.
Qed.
End audit_spec.

(** The audit log keeps what it is given: after any entries have been
    appended to a fresh log, reading it returns exactly those entries in that
    order, as they were serialised - whatever line breaks, quotes or other
    characters their strings contain - and its tail returns the last of them. *)
Theorem audit_log_roundtrip JSON_parse entries count :
  Forall (λ e, is_entry e = true) entries → Forall (parses JSON_parse) entries → 0 ≤ count →
  readAll JSON_parse None (log_of entries) = Some (map strip entries) ∧
  tail JSON_parse count (log_of entries) = Some (drop (length entries - Z.to_nat count) (map strip entries)).
Proof.
  intros He Hp Hc. destruct entries as [|e entries]; [by split; [|cbn; rewrite drop_nil]|].
  rewrite log_text. unfold readAll, tail. rewrite lines_of_log by done. split; [by rewrite parse_log|].
  rewrite length_map. replace (Z.to_nat (Z.max 0 (Z.of_nat (length (e :: entries)) - count)))
    with (length (e :: entries) - Z.to_nat count)%nat by lia.
  rewrite <-!fmap_drop. apply parse_log. by apply Forall_drop.
Qed.
Lemma digit_visible c : is_digit c = true → visible c = true.
Proof. destruct c as [[] [] [] [] [] [] [] []]; vm_compute; done. Qed.
Lemma trim_line s : str_forallb visible s = true → s ≠ "" → trim (s +:+ String newline "") = s.
Proof.
  intros Hv Hne. destruct s as [|c s]; [done|]. unfold trim, trimStart.
  assert (∀ n r, drop_prefixes n WHITESPACE (String c r) = String c r) as H1.
  { intros n r. apply drop_prefixes_none. cbn [str_forallb] in Hv. apply andb_true_iff in Hv as [Hc _].
    apply forallb_forall. intros p Hin.
    pose proof (no_space_prefix WHITESPACE (String c "") ltac:(by vm_compute) ltac:(by cbn; rewrite Hc)) as Hp.
    rewrite forallb_forall in Hp. specialize (Hp p Hin). destruct p as [|d p]; [done|].
    cbn [startsWith] in *. case_bool_decide; [|done]. subst. exfalso.
    assert (forallb (λ p, match p with String c _ => negb (visible c) | _ => false end) WHITESPACE = true) as Hw by by vm_compute.
    rewrite forallb_forall in Hw. specialize (Hw _ Hin). cbn in Hw. by rewrite Hc in Hw. }
  rewrite str_cons_app, H1. unfold trimEnd. set (t := String c (s +:+ String newline "")).
  assert (str_rev t = String newline (str_rev (String c s))) as ->.
  { unfold t. rewrite <-str_cons_app, !str_rev_app_distr. reflexivity. }
  assert (∃ n, String.length t = S n) as [n ->] by by exists (String.length (s +:+ String newline "")).
  rewrite drop_newline, drop_prefixes_none; [apply str_rev_rev|].
  apply no_space_prefix; [by vm_compute|]. by apply str_rev_app_forallb.
Qed.
Lemma leading_digits_all s : str_forallb is_digit s = true → leading_digits s = s.
Proof. induction s as [|c s IH]; [done|]. cbn. intros [-> Hs]%andb_true_iff. by rewrite IH. Qed.
(** The process id that was written is the one that is read. *)
Lemma pid_roundtrip pidPath pid f : 0 < pid → pid_read pidPath (pid_write None pidPath pid f).1 = Ok (Some pid).
Proof.
  intros Hp. destruct (pretty_digits pid ltac:(lia)) as [Hd Hv]. destruct (pretty_Z_nonempty pid) as (c & s & Hps & _).
  cbn [pid_write fst pid_read]. rewrite trim_line; [|by eapply str_forallb_impl; [apply digit_visible|]|by rewrite Hps].
  assert (parseInt10 (pretty pid) = Some pid) as ->.
  { unfold parseInt10. rewrite Hps in *. cbn [str_forallb] in Hd. pose proof Hd as [Hc _]%andb_true_iff.
    assert (c ≠ "-"%char ∧ c ≠ "+"%char) as [Hm Hpl] by (split; intros ->; by vm_compute in Hc).
    rewrite !bool_decide_false by done. rewrite leading_digits_all by done. rewrite Hv. do 2 f_equal. lia. }
  by rewrite (proj2 (Z.leb_gt _ _)) by lia.
Qed.
Lemma audit_log_roundtrip_witness :
  let e := JObj [("action", JStr (String newline "x")); ("success", JBool true)] in
  let parse s := if decide (s = print (strip e)) then Some e else None in
  readAll parse None (log_of [e; e]) = Some [e; e] ∧ tail parse 1 (log_of [e; e]) = Some [e].
Proof.
  cbv zeta. set (e := JObj _). set (p := λ s, _).
  assert (Forall (λ e, is_entry e = true) [e; e]) as He by by repeat constructor.
  assert (Forall (parses p) [e; e]) as Hp by (repeat constructor; vm_compute; reflexivity).
  exact (audit_log_roundtrip p [e; e] 1 He Hp ltac:(lia)).
Defined.
