(* ===== verification/VaultSecret.v ===== *)
(** * The vault secret

    [keys/src/vault-secret-provider.ts] and [seEncrypt] of [se-bridge.ts]: the
    secret that encrypts the vault, kept in a file or sealed to a key of the
    Secure Enclave, and the choice between the two.

    A provider is a closure over [cached] and [inflight]; the files of the
    data directory are shared.  Reading and writing a file, and the commands
    of the signer binary, are effects that may be rejected; a rejected write
    leaves anything in its file.  An exception is the text it becomes in the
    error's [cause]. *)
From S2P Require Import Prelude Bytes Programs Text Json Errors Ids Invites.
Local Open Scope prog_scope.

(** ** The files and the closure *)
Record SecretWorld := mkSecrets {
  sw_dir : bool; sw_mkdir_ok : bool; sw_chmod_ok : bool;
  sw_vaultKey : option bytes; sw_passphrase : option string;
  sw_keyRef : option string; sw_sealedBox : option string; sw_publicKey : option string;
  sw_random : nat → bytes; sw_drawn : nat;
  sw_cached : option string; sw_inflight : bool
}.
Definition set_dir (w : SecretWorld) : SecretWorld :=
  mkSecrets true (sw_mkdir_ok w) (sw_chmod_ok w) (sw_vaultKey w) (sw_passphrase w) (sw_keyRef w) (sw_sealedBox w)
    (sw_publicKey w) (sw_random w) (sw_drawn w) (sw_cached w) (sw_inflight w).
Definition set_cached (v : string) (w : SecretWorld) : SecretWorld :=
  mkSecrets (sw_dir w) (sw_mkdir_ok w) (sw_chmod_ok w) (sw_vaultKey w) (sw_passphrase w) (sw_keyRef w) (sw_sealedBox w)
    (sw_publicKey w) (sw_random w) (sw_drawn w) (Some v) (sw_inflight w).
Definition set_inflight (b : bool) (w : SecretWorld) : SecretWorld :=
  mkSecrets (sw_dir w) (sw_mkdir_ok w) (sw_chmod_ok w) (sw_vaultKey w) (sw_passphrase w) (sw_keyRef w) (sw_sealedBox w)
    (sw_publicKey w) (sw_random w) (sw_drawn w) (sw_cached w) b.
Definition drawn (w : SecretWorld) : SecretWorld :=
  mkSecrets (sw_dir w) (sw_mkdir_ok w) (sw_chmod_ok w) (sw_vaultKey w) (sw_passphrase w) (sw_keyRef w) (sw_sealedBox w)
    (sw_publicKey w) (sw_random w) (S (sw_drawn w)) (sw_cached w) (sw_inflight w).
Inductive SecretFile := sf_passphrase | sf_keyRef | sf_sealedBox | sf_publicKey.
Definition put_file (f : SecretFile) (content : option string) (w : SecretWorld) : SecretWorld :=
  let other (g : SecretFile) (old : option string) := match f, g with
    | sf_passphrase, sf_passphrase | sf_keyRef, sf_keyRef | sf_sealedBox, sf_sealedBox | sf_publicKey, sf_publicKey => content
    | _, _ => old
    end in
  mkSecrets (sw_dir w) (sw_mkdir_ok w) (sw_chmod_ok w) (sw_vaultKey w) (other sf_passphrase (sw_passphrase w))
    (other sf_keyRef (sw_keyRef w)) (other sf_sealedBox (sw_sealedBox w)) (other sf_publicKey (sw_publicKey w))
    (sw_random w) (sw_drawn w) (sw_cached w) (sw_inflight w).
Record SealedBox := mkBox { sb_ephemeralPublicKey : string; sb_nonce : string; sb_ciphertext : string; sb_tag : string }.
Record SeKey := mkSeKey { sk_keyRef : string; sk_publicKey : string }.

(** ** Effects *)
Inductive written := wr_ok | wr_threw (leftover : option string) (cause : string).
Abbreviation res A := (result SignetError A).
Inductive seff : Type → Type :=
  | SRead : seff (option string)
  | SWrite (f : SecretFile) (content : string) : seff written
  | SDecrypt (keyRef : string) (box : json) : seff (result string (res string))
  | SCreate (label policy purpose : string) : seff (result string (res SeKey))
  | SInflight : seff (res string).
Abbreviation SProg := (prog SecretWorld seff).
(** A step that throws is an [Err] with the exception's text. *)
Abbreviation tried A := (result string A).
Definition look {A} (f : SecretWorld → A) (w : SecretWorld) : SecretWorld * A := (w, f w).
Definition tell (f : SecretWorld → SecretWorld) (w : SecretWorld) : SecretWorld * unit := (f w, tt).
Definition read_file {A} (get : SecretWorld → option A) : SProg (tried A) :=
  await r <- SRead ;;
  match r with
  | Some cause => Ret (Err cause)
  | None => sync f <- look get ;; Ret (match f with Some x => Ok x | None => Err "ENOENT: no such file or directory" end)
  end.
Definition write_file (f : SecretFile) (content : string) : SProg (tried unit) :=
  await r <- SWrite f content ;;
  match r with
  | wr_ok => sync _ <- tell (put_file f (Some content)) ;; Ret (Ok tt)
  | wr_threw leftover cause => sync _ <- tell (put_file f leftover) ;; Ret (Err cause)
  end.
Definition chmodSync : SProg (tried unit) :=
  sync allowed <- look sw_chmod_ok ;; Ret (if allowed then Ok tt else Err "EPERM: operation not permitted, chmod").
Definition ensure_dir : SProg (tried unit) :=
  sync there <- look sw_dir ;;
  if there then Ret (Ok tt)
  else
    sync made <- look sw_mkdir_ok ;;
    if negb made then Ret (Err "EACCES: permission denied, mkdir")
    else sync _ <- tell set_dir ;; chmodSync.
(** [crypto.getRandomValues] on 32 bytes. *)
Definition draw (w : SecretWorld) : SecretWorld * bytes := (drawn w, sw_random w (sw_drawn w)).

(** ** Errors and formats *)
Definition hex64 (s : string) : bool := (String.length s =? 64)%nat && str_forallb is_hex s.
Definition normalizeVaultSecret (value source : string) : res string :=
  let normalized := toLowerCase (trim value) in
  if hex64 normalized then Ok normalized
  else Err (InternalError_create "Vault secret is malformed" (Some [("source", JStr source)])).
Definition caught (text cause : string) : SignetError := InternalError_create text (Some [("cause", JStr cause)]).

(** ** The software provider *)
(** [Result.ok(cached)]: [cached] has been set and is never reset. *)
Definition answer_cached : SProg (tried (res string)) := sync c <- look sw_cached ;; Ret (Ok (Ok (default "" c))).
Definition software_resolve : SProg (tried (res string)) :=
  ok _ <- ensure_dir ;;
  sync hasKey <- look (λ w, bool_decide (is_Some (sw_vaultKey w))) ;;
  if hasKey then
    ok raw <- read_file sw_vaultKey ;;
    if negb (length raw =? 32)%nat then
      Ret (Ok (Err (InternalError_create "Vault key is malformed" (Some [("source", JStr "software-vault");
        ("expectedBytes", JNum 32); ("actualBytes", JNum (Z.of_nat (length raw)))]))))
    else sync _ <- tell (set_cached (bytes_hex raw)) ;; answer_cached
  else
    sync hasPassphrase <- look (λ w, bool_decide (is_Some (sw_passphrase w))) ;;
    if hasPassphrase then
      ok text <- read_file sw_passphrase ;;
      match normalizeVaultSecret text "software-vault" with
      | Err e => Ret (Ok (Err e))
      | Ok v => sync _ <- tell (set_cached v) ;; answer_cached
      end
    else
      sync secret <- draw ;;
      sync _ <- tell (set_cached (bytes_hex secret)) ;;
      ok _ <- write_file sf_passphrase (bytes_hex secret) ;;
      ok _ <- chmodSync ;;
      answer_cached.
Definition software_getSecret : SProg (res string) :=
  sync cached <- look sw_cached ;;
  match cached with
  | Some v => Ret (Ok v)
  | None =>
      do r <- software_resolve ;;
      Ret (match r with Ok r => r | Err cause => Err (caught "Failed to resolve software vault secret" cause) end)
  end.
Definition error_getSecret (e : SignetError) : SProg (res string) := Ret (Err e).

(** ** The Secure Enclave provider *)
Record SeVaultArtifacts := mkArtifacts { hasKeyRef : bool; hasSealedBox : bool; hasPublicKey : bool }.
Definition describeSeVaultArtifacts (w : SecretWorld) : SeVaultArtifacts :=
  mkArtifacts (bool_decide (is_Some (sw_keyRef w))) (bool_decide (is_Some (sw_sealedBox w)))
    (bool_decide (is_Some (sw_publicKey w))).
Inductive ArtifactState := as_existing | as_fresh.
Definition validateSeVaultArtifacts (a : SeVaultArtifacts) : res ArtifactState :=
  if negb (hasKeyRef a || hasSealedBox a || hasPublicKey a) then Ok as_fresh
  else if hasKeyRef a && hasSealedBox a then Ok as_existing
  else
    let present := (if hasKeyRef a then ["se-vault-keyref"] else []) ++ (if hasSealedBox a then ["vault-sealed-box.json"] else []) ++
      (if hasPublicKey a then ["se-vault-pubkey"] else []) in
    let missing := (if hasKeyRef a then [] else ["se-vault-keyref"]) ++ (if hasSealedBox a then [] else ["vault-sealed-box.json"]) in
    Err (InternalError_create "Vault Secure Enclave metadata is incomplete. Refusing to reinitialize automatically."
      (Some [("present", JArr (map JStr present)); ("missing", JArr (map JStr missing))])).

(** The primitives of [seEncrypt]; [p256_shared] throws on a bad key. *)
Class SeLib := {
  p256_public : bytes → bytes;
  p256_shared : bytes → bytes → result string bytes;
  hkdf_sha256 : bytes → bytes → string → nat → bytes;
  gcm_encrypt : bytes → bytes → bytes → bytes
}.
Definition box_json (b : SealedBox) : json :=
  JObj [("ephemeralPublicKey", JStr (sb_ephemeralPublicKey b)); ("nonce", JStr (sb_nonce b));
        ("ciphertext", JStr (sb_ciphertext b)); ("tag", JStr (sb_tag b))].
(** [JSON.stringify(sealedBox, null, 2)] *)
Definition nl : string := String (ascii_of_nat 10) "".
Definition box_text (b : SealedBox) : string :=
  let line k v := "  " +:+ dq k +:+ ": " +:+ print (JStr v) in
  "{" +:+ nl +:+ str_join ("," +:+ nl)
    [line "ephemeralPublicKey" (sb_ephemeralPublicKey b); line "nonce" (sb_nonce b);
     line "ciphertext" (sb_ciphertext b); line "tag" (sb_tag b)] +:+ nl +:+ "}".
Section enclave.
Context `{SeLib} (JSON_parse : string → result string json) (policy : string).
(** [ephPriv] and [nonce] are drawn for the call. *)
Definition seEncrypt (publicKeyHex : string) (plaintext ephPriv nonce : bytes) : result string SealedBox :=
  match p256_shared ephPriv (hexToBytes publicKeyHex) with
  | Err cause => Err cause
  | Ok sharedPoint =>
      let sharedX := slice 1 33 sharedPoint in
      let aesKey := hkdf_sha256 sharedX (utf8 "signet-vault-ecies") "" 32 in
      let encrypted := gcm_encrypt aesKey nonce plaintext in
      let n := (length encrypted - 16)%nat in
      Ok (mkBox (bytes_hex (p256_public ephPriv)) (bytes_hex nonce) (bytes_hex (take n encrypted)) (bytes_hex (drop n encrypted)))
  end.
Definition se_existing : SProg (tried (res string)) :=
  ok keyRef <- read_file sw_keyRef ;;
  ok sealedBoxJson <- read_file sw_sealedBox ;;
  match JSON_parse sealedBoxJson with
  | Err cause => Ret (Err cause)
  | Ok sealedBox =>
      await answer <- SDecrypt keyRef sealedBox ;;
      match answer with
      | Err cause => Ret (Err cause)
      | Ok (Err e) => Ret (Ok (Err (caught "Failed to decrypt vault secret from SE" (message e))))
      | Ok (Ok plaintext) =>
          match normalizeVaultSecret plaintext "secure-enclave" with
          | Err e => Ret (Ok (Err e))
          | Ok v => sync _ <- tell (set_cached v) ;; Ret (Ok (Ok v))
          end
      end
  end.
Definition se_fresh : SProg (tried (res string)) :=
  await answer <- SCreate "signet-vault-root" policy "key-agreement" ;;
  match answer with
  | Err cause => Ret (Err cause)
  | Ok (Err e) => Ret (Ok (Err (caught "Failed to create SE vault key" (message e))))
  | Ok (Ok key) =>
      ok _ <- write_file sf_keyRef (sk_keyRef key) ;;
      ok _ <- chmodSync ;;
      ok _ <- write_file sf_publicKey (sk_publicKey key) ;;
      ok _ <- chmodSync ;;
      sync secret <- draw ;;
      sync ephPriv <- draw ;;
      sync nonce <- draw ;;
      match seEncrypt (sk_publicKey key) secret ephPriv (take 12 nonce) with
      | Err cause => Ret (Err cause)
      | Ok sealedBox =>
          ok _ <- write_file sf_sealedBox (box_text sealedBox) ;;
          ok _ <- chmodSync ;;
          sync _ <- tell (set_cached (bytes_hex secret)) ;;
          Ret (Ok (Ok (bytes_hex secret)))
      end
  end.
Definition se_resolve : SProg (tried (res string)) :=
  ok _ <- ensure_dir ;;
  sync state <- look (λ w, validateSeVaultArtifacts (describeSeVaultArtifacts w)) ;;
  match state with
  | Err e => Ret (Ok (Err e))
  | Ok as_existing => se_existing
  | Ok as_fresh => se_fresh
  end.
(** [resolveSecret]: the exception is caught. *)
Definition se_resolveSecret : SProg (res string) :=
  do r <- se_resolve ;;
  Ret (match r with Ok r => r | Err cause => Err (caught "SE vault secret provider failed" cause) end).
Definition se_getSecret : SProg (res string) :=
  sync cached <- look sw_cached ;;
  match cached with
  | Some v => Ret (Ok v)
  | None =>
      sync busy <- look sw_inflight ;;
      if busy then await r <- SInflight ;; Ret r
      else
        sync _ <- tell (set_inflight true) ;;
        do r <- se_resolveSecret ;;
        sync _ <- tell (set_inflight false) ;;
        Ret r
  end.

(** ** The choice of a provider *)
Inductive Provider := pv_software | pv_enclave | pv_error (e : SignetError).
Definition resolveVaultSecretProvider (enclave : bool) (signer : option string) (w : SecretWorld) : Provider :=
  if bool_decide (is_Some (sw_vaultKey w)) || bool_decide (is_Some (sw_passphrase w)) then pv_software
  else
    let artifacts := describeSeVaultArtifacts w in
    match validateSeVaultArtifacts artifacts with
    | Err e => pv_error (InternalError_create (message e) (err_context e))
    | Ok as_existing =>
        match signer with
        | Some _ => pv_enclave
        | None => pv_error (InternalError_create
            "Vault was created with Secure Enclave but signet-signer binary not found. Cannot decrypt vault secret."
            (Some [("present", JArr (map JStr ((if hasKeyRef artifacts then ["se-vault-keyref"] else []) ++
              (if hasSealedBox artifacts then ["vault-sealed-box.json"] else []) ++
              (if hasPublicKey artifacts then ["se-vault-pubkey"] else []))))]))
        end
    | Ok as_fresh =>
        if enclave && bool_decide (is_Some signer) then pv_enclave else pv_software
    end.
Definition getSecret (p : Provider) : SProg (res string) :=
  match p with pv_software => software_getSecret | pv_enclave => se_getSecret | pv_error e => error_getSecret e end.
(** A new provider, and one call of it. *)
Definition vault_secret (enclave : bool) (signer : option string) : SProg (res string) :=
  sync p <- look (resolveVaultSecretProvider enclave signer) ;; getSecret p.
End enclave.

(** ** What the files say the secret is *)
Definition files (w : SecretWorld) :=
  (sw_vaultKey w, sw_passphrase w, sw_keyRef w, sw_sealedBox w, sw_publicKey w).
Definition normal (text v : string) : Prop := hex64 (toLowerCase (trim text)) = true ∧ v = toLowerCase (trim text).
Lemma normalize_ok text source v : normalizeVaultSecret text source = Ok v ↔ normal text v.
Proof.
  unfold normalizeVaultSecret, normal. destruct (hex64 _); split; [intros [= <-]; done|by intros [_ ->]|done|by intros []].
Qed.
(** Nothing else touches the files or the closure. *)
Definition quiet (w w' : SecretWorld) : Prop :=
  files w' = files w ∧ sw_cached w' = sw_cached w ∧ sw_inflight w' = sw_inflight w ∧ sw_random w' = sw_random w.
(** The fields of a box are hexadecimal. *)
Definition box_hex (b : SealedBox) : bool :=
  forallb (str_forallb is_hex) [sb_ephemeralPublicKey b; sb_nonce b; sb_ciphertext b; sb_tag b].
Lemma seEncrypt_hex `{SeLib} pub secret eph nonce b : seEncrypt pub secret eph nonce = Ok b → box_hex b = true.
Proof.
  unfold seEncrypt. destruct (p256_shared _ _); [|done]. intros [= <-]. unfold box_hex. cbn.
  by rewrite !(proj1 (bytes_hex_ok _)).
Qed.
Section spec.
Context `{SeLib} (JSON_parse : string → result string json) (policy : string).
(** What the enclave decrypts a box to, with a key it holds. *)
Context (device : string → json → option string).
Context (Hparse : ∀ b, box_hex b = true → JSON_parse (box_text b) = Ok (box_json b)).
Definition stands (w : SecretWorld) (v : string) : Prop :=
  match sw_vaultKey w, sw_passphrase w with
  | Some raw, _ => length raw = 32%nat ∧ v = bytes_hex raw
  | None, Some text => normal text v
  | None, None => ∃ k s b pt, sw_keyRef w = Some k ∧ sw_sealedBox w = Some s ∧ JSON_parse s = Ok b ∧
      device k b = Some pt ∧ normal pt v
  end.
(** The signer binary answers for the enclave: it decrypts what the device
    does, and a key it creates opens what is sealed to its public half. *)
Definition honest (ev : event SecretWorld seff) : Prop :=
  match ev with
  | Event X e _ x =>
      match e in seff X return X → Prop with
      | SDecrypt k b => λ x, ∀ pt, x = Ok (Ok pt) → device k b = Some pt
      | SCreate _ _ _ => λ x, ∀ key, x = Ok (Ok key) → ∀ secret eph nonce box,
          seEncrypt (sk_publicKey key) secret eph nonce = Ok box →
          device (sk_keyRef key) (box_json box) = Some (bytes_hex secret)
      | _ => λ _, True
      end x
  end.
Lemma stands_unique w v v' : stands w v → stands w v' → v' = v.
Proof.
  unfold stands, normal. destruct (sw_vaultKey w), (sw_passphrase w); [intuition congruence..|].
  intros (k & s & b & pt & ? & ? & ? & ? & _ & ->) (k' & s' & b' & pt' & ? & ? & ? & ? & _ & ->). congruence.
Qed.
Lemma stands_files w w' v : files w' = files w → stands w v → stands w' v.
Proof. unfold files, stands. by intros [= -> -> -> -> _]. Qed.

(** *** Steps *)
Lemma quiet_trans w1 w2 w3 : quiet w1 w2 → quiet w2 w3 → quiet w1 w3.
Proof. intros (? & ? & ? & ?) (? & ? & ? & ?). unfold quiet. intuition congruence. Qed.
Lemma quiet_refl w : quiet w w.
Proof. done. Qed.
Lemma wp_read {A} (get : SecretWorld → option A) w pre Q : (∀ w1, quiet w w1 → get w1 = get w) →
  (∀ w1 ev r, quiet w w1 → (∀ x, r = Ok x → get w = Some x) → Q (pre ++ [ev]) w1 r) → wp quiet (read_file get) w pre Q.
Proof.
  intros Hget HQ. unfold read_file. cbn. intros w1 [cause|] Hw; cbn; apply HQ; [done|done|done|].
  intros x. rewrite Hget by done. by destruct (get w) as [y|]; [intros [= <-]|].
Qed.
Lemma wp_chmod w pre (Q : _ → _ → _ → Prop) : (∀ r, Q pre w r) → wp quiet chmodSync w pre Q.
Proof. intros HQ. apply HQ. Qed.
Lemma wp_dir w pre (Q : _ → _ → _ → Prop) : (∀ w1 r, quiet w w1 → Q pre w1 r) → wp quiet ensure_dir w pre Q.
Proof.
  intros HQ. unfold ensure_dir. cbn. destruct (sw_dir w); cbn; [by apply HQ|].
  destruct (sw_mkdir_ok w); cbn; by apply HQ.
Qed.
Lemma wp_write f content w pre (Q : _ → _ → _ → Prop) :
  (∀ w1 ev, quiet w w1 → Q (pre ++ [ev]) (put_file f (Some content) w1) (Ok tt)) →
  (∀ w1 ev leftover cause, quiet w w1 → Q (pre ++ [ev]) (put_file f leftover w1) (Err cause)) →
  wp quiet (write_file f content) w pre Q.
Proof. intros Hok Herr. unfold write_file. cbn. intros w1 [|leftover cause] Hw; cbn; auto. Qed.
Lemma hex_visible s : str_forallb is_hex s = true → str_forallb visible s = true.
Proof.
  induction s as [|c s IH]; [done|]. cbn. intros [Hc Hs]%andb_true_iff. rewrite (IH Hs), andb_true_r.
  destruct c as [[] [] [] [] [] [] [] []]; vm_compute in Hc |- *; done.
Qed.
Lemma secret_normal secret : length secret = 32%nat → normal (bytes_hex secret) (bytes_hex secret).
Proof.
  intros Hl. destruct (bytes_hex_ok secret) as [Hh Hn]. unfold normal, hex64.
  rewrite trim_visible by (by apply hex_visible). destruct (lower_is_hex _ Hh) as [_ ->].
  rewrite Hh, Hn, Hl. done.
Qed.

(** *** A call *)
Definition fresh (w : SecretWorld) : Prop := files w = (None, None, None, None, None).
Definition call_post (w : SecretWorld) (t : list (event SecretWorld seff)) (w' : SecretWorld) (r : res string) : Prop :=
  Forall honest t → (∀ v, r = Ok v → stands w' v) ∧ (fresh w ∨ files w' = files w).
Lemma software_wp w : sw_cached w = None → (∀ n, length (sw_random w n) = 32%nat) →
  is_Some (sw_vaultKey w) ∨ is_Some (sw_passphrase w) ∨ fresh w →
  wp quiet software_getSecret w [] (call_post w).
Proof.
  intros Hc Hr Hcase. unfold software_getSecret. cbn [wp look fst snd]. rewrite Hc. apply wp_bind.
  unfold software_resolve. apply wp_bind_ok, wp_dir. intros w1 [[]|cause] Hw1; cbn [wp].
  2: { intros _. split; [done|]. right. apply Hw1. }
  pose proof Hw1 as (F1 & _ & _ & R1). injection F1 as E1 E2 E3 E4 E5. cbn [wp look fst snd]. rewrite E1.
  destruct (sw_vaultKey w) as [raw|] eqn:Hk.
  { rewrite bool_decide_eq_true_2 by done. apply wp_bind_ok, wp_read; [by intros w2 [[= -> _ _ _ _] _]|].
    intros w2 ev [x|cause] Hw2 Hx; cbn [wp].
    2: { intros _. split; [done|]. right. destruct Hw2 as [-> _]. apply Hw1. }
    rewrite E1 in Hx. injection (Hx x eq_refl) as ->. pose proof (quiet_trans _ _ _ Hw1 Hw2) as (F & _ & _ & _).
    destruct (length x =? 32)%nat eqn:Hl; cbn.
    - intros _. split; [|by right]. intros v [= <-]. unfold stands. cbn. injection F as -> _ _ _ _. rewrite Hk.
      by apply Nat.eqb_eq in Hl.
    - intros _. split; [done|by right]. }
  rewrite bool_decide_eq_false_2 by (by intros []). cbn [wp look fst snd]. rewrite E2.
  destruct (sw_passphrase w) as [text|] eqn:Hp.
  { rewrite bool_decide_eq_true_2 by done. apply wp_bind_ok, wp_read; [by intros w2 [[= _ -> _ _ _] _]|].
    intros w2 ev [x|cause] Hw2 Hx; cbn [wp].
    2: { intros _. split; [done|]. right. destruct Hw2 as [-> _]. apply Hw1. }
    rewrite E2 in Hx. injection (Hx x eq_refl) as ->. pose proof (quiet_trans _ _ _ Hw1 Hw2) as (F & _ & _ & _).
    destruct (normalizeVaultSecret x "software-vault") as [v|e] eqn:Hn; cbn.
    - intros _. split; [|by right]. intros v' [= <-]. unfold stands. cbn. injection F as -> -> _ _ _. rewrite Hk, Hp.
      by eapply normalize_ok.
    - intros _. split; [done|by right]. }
  rewrite bool_decide_eq_false_2 by (by intros []). destruct Hcase as [[]|[[]|Hfresh]]; [done|done|].
  cbn [wp draw tell fst snd]. apply wp_bind_ok, wp_write; [|by intros; split; [|left]].
  intros w2 ev Hw2. apply wp_bind_ok, wp_chmod. intros [[]|cause]; cbn; [|by intros; split; [|left]].
  intros _. split; [|by left]. destruct Hw2 as ([= G1 _ _ _ _] & C & _ & _). cbn in G1, C. rewrite C. cbn. intros v [= <-].
  unfold stands. cbn. rewrite G1, E1. apply secret_normal. by rewrite R1.
Qed.
Lemma honest_last pre ev : Forall honest (pre ++ [ev]) → Forall honest pre ∧ honest ev.
Proof. intros [? [? _]%Forall_cons]%Forall_app. done. Qed.
Definition tried_post (w : SecretWorld) (t : list (event SecretWorld seff)) (w' : SecretWorld) (r : tried (res string)) : Prop :=
  Forall honest t → (∀ v, r = Ok (Ok v) → stands w' v) ∧ (fresh w ∨ files w' = files w).
Definition software_free (w : SecretWorld) : Prop := sw_vaultKey w = None ∧ sw_passphrase w = None.
Lemma se_existing_wp w w1 pre : software_free w → files w1 = files w →
  wp quiet (se_existing JSON_parse) w1 pre (tried_post w).
Proof.
  intros [Hk Hp] F. assert (∀ w2, quiet w1 w2 → files w2 = files w) as Hq by (intros w2 [-> _]; done).
  unfold se_existing. apply wp_bind_ok, wp_read; [by intros w2 [[= _ _ -> _ _] _]|].
  intros w2 e1 [k|cause] Hw2 Hx1; [|intros _; split; [done|right; by apply Hq]].
  apply wp_bind_ok, wp_read; [by intros w3 [[= _ _ _ -> _] _]|].
  intros w3 e2 [text|cause] Hw3 Hx2; pose proof (quiet_trans _ _ _ Hw2 Hw3) as Hw13;
    [|intros _; split; [done|right; by apply Hq]].
  destruct (JSON_parse text) as [b|cause] eqn:Hb; cbn [wp]; [|intros _; split; [done|right; by apply Hq]].
  intros w4 x Hw4. pose proof (quiet_trans _ _ _ Hw13 Hw4) as Hw14. pose proof (Hq w4 Hw14) as F4.
  destruct x as [[pt|e]|cause]; cbn [wp]; [|intros _; split; [done|by right]..].
  destruct (normalizeVaultSecret pt "secure-enclave") as [v|e] eqn:Hn; cbn; intros Hhon; (split; [|by right]); [|done].
  intros v' [= <-]. apply honest_last in Hhon as [_ Hh]. cbn in Hh. specialize (Hh pt eq_refl).
  specialize (Hx1 k eq_refl). specialize (Hx2 text eq_refl).
  destruct Hw14 as (F14 & _). destruct Hw2 as (F12 & _). unfold files in F4, F, F14, F12.
  injection F4 as G1 G2 G3 G4 _. injection F14 as _ _ K3 K4 _. injection F12 as _ _ _ L4 _.
  unfold stands. cbn. rewrite G1, G2, Hk, Hp. exists k, text, b, pt.
  split_and!; [by rewrite K3|by rewrite K4, <-L4|done|done|by eapply normalize_ok].
Qed.
Lemma se_fresh_wp w w1 pre : fresh w → files w1 = files w → (∀ n, length (sw_random w1 n) = 32%nat) →
  wp quiet (se_fresh policy) w1 pre (tried_post w).
Proof.
  intros Hfresh F Hr. assert (∀ t w' cause, tried_post w t w' (Err cause)) as Herr by (intros t w' cause _; split; [done|by left]).
  rewrite Hfresh in F. unfold se_fresh. cbn [wp]. intros w2 x Hw2.
  destruct x as [[key|e]|cause]; cbn [wp]; [|intros _; split; [done|by left]|apply Herr].
  apply wp_bind_ok, wp_write; [|intros; apply Herr]. intros w3 ev3 Hw3.
  apply wp_bind_ok, wp_chmod. intros [[]|cause]; [|apply Herr].
  apply wp_bind_ok, wp_write; [|intros; apply Herr]. intros w4 ev4 Hw4.
  apply wp_bind_ok, wp_chmod. intros [[]|cause]; [|apply Herr]. cbn [wp draw fst snd].
  set (w5 := drawn (drawn (drawn (put_file sf_publicKey (Some (sk_publicKey key)) w4)))).
  destruct (seEncrypt _ _ _ _) as [box|cause] eqn:Hbox; [|apply Herr].
  apply wp_bind_ok, wp_write; [|intros; apply Herr]. intros w6 ev6 Hw6.
  apply wp_bind_ok, wp_chmod. intros [[]|cause]; [|apply Herr]. cbn. intros Hhon. split; [|by left]. intros v [= <-].
  destruct Hw2 as (F2 & _ & _ & R2), Hw3 as (F3 & _ & _ & R3), Hw4 as (F4 & _ & _ & R4), Hw6 as (F6 & _ & _ & R6).
  unfold files in *. cbn in F3, F4, F6, R4. rewrite F in F2. injection F2 as A1 A2 A3 A4 A5.
  injection F3 as B1 B2 B3 B4 B5. injection F4 as C1 C2 C3 C4 C5. injection F6 as D1 D2 D3 D4 D5.
  unfold stands. cbn. rewrite D1, C1, B1, A1, D2, C2, B2, A2. exists (sk_keyRef key), (box_text box), (box_json box).
  repeat apply honest_last in Hhon as [Hhon ?]. eexists. split_and!; [by rewrite D3, C3|done|by eapply Hparse, seEncrypt_hex| |].
  - match goal with Hk : honest (Event _ (SCreate _ _ _) _ _) |- _ => cbn in Hk; eapply Hk; [reflexivity|exact Hbox] end.
  - apply secret_normal. cbn. by rewrite R4, R3, R2.
Qed.
Lemma se_wp w : sw_cached w = None → sw_inflight w = false → (∀ n, length (sw_random w n) = 32%nat) → software_free w →
  wp quiet (se_getSecret JSON_parse policy) w [] (call_post w).
Proof.
  intros Hc Hi Hr Hfree. unfold se_getSecret. cbn [wp look fst snd]. rewrite Hc. cbn [wp look fst snd].
  rewrite Hi. cbn [wp tell fst snd].
  apply wp_bind. unfold se_resolveSecret. apply wp_bind.
  assert (∀ p w1 pre, wp quiet p w1 pre (tried_post w) → wp quiet p w1 pre (λ t w' (a : tried (res string)),
    wp quiet (Ret (match a with Ok r => r | Err cause => Err (caught "SE vault secret provider failed" cause) end)) w' t
      (λ t w' a, wp quiet (sync _ <- tell (set_inflight false) ;; Ret a) w' t (call_post w)))) as Hend.
  { intros p w1 pre. apply wp_mono. intros t w' r Hp. cbn. intros Hhon. destruct (Hp Hhon) as [Hv Hf]. split; [|done].
    intros v Hrv. destruct r as [r|cause]; [subst r; by apply (Hv v)|done]. }
  apply Hend. unfold se_resolve. apply wp_bind_ok, wp_dir. intros w1 [[]|cause] (F & _ & _ & R); cbn [wp].
  2: { intros _. split; [done|by right]. }
  cbn [wp look fst snd]. destruct (validateSeVaultArtifacts _) as [[]|e] eqn:Hv.
  - by apply se_existing_wp.
  - apply se_fresh_wp; [|done|by rewrite R]. unfold fresh. unfold files in F |- *. cbn in F.
    destruct Hfree as [Hk Hp]. injection F as E1 E2 E3 E4 E5. rewrite Hk, Hp, <-E3, <-E4, <-E5.
    unfold validateSeVaultArtifacts, describeSeVaultArtifacts in Hv. cbn in Hv.
    destruct (sw_keyRef w1), (sw_sealedBox w1), (sw_publicKey w1); done.
  - cbn. intros _. split; [done|by right].
Qed.
Lemma vault_secret_wp enclave signer w : sw_cached w = None → sw_inflight w = false → (∀ n, length (sw_random w n) = 32%nat) →
  wp quiet (vault_secret JSON_parse policy enclave signer) w [] (call_post w).
Proof.
  intros Hc Hi Hr. unfold vault_secret. cbn [wp look fst snd]. unfold resolveVaultSecretProvider.
  assert (∀ e, wp quiet (error_getSecret e) w [] (call_post w)) as Herr by (intros e _; split; [done|by right]).
  destruct (sw_vaultKey w) as [raw|] eqn:Hk; [apply software_wp; [done..|]; left; by rewrite Hk|].
  destruct (sw_passphrase w) as [text|] eqn:Hp; [apply software_wp; [done..|]; right; left; by rewrite Hp|].
  rewrite !bool_decide_eq_false_2 by (by intros []). cbn [orb].
  destruct (validateSeVaultArtifacts _) as [[]|e] eqn:Hv; [destruct signer|..]; cbn [getSecret]; [by apply se_wp|apply Herr| |apply Herr].
  destruct (enclave && _); cbn [getSecret]; [by apply se_wp|]. apply software_wp; [done..|]. right. right.
  unfold fresh, files. rewrite Hk, Hp. unfold validateSeVaultArtifacts, describeSeVaultArtifacts in Hv.
  destruct (sw_keyRef w), (sw_sealedBox w), (sw_publicKey w); done.
Qed.

(** C31: a vault keeps its secret.  The signer binary may answer or fail as it
    likes, except that what it decrypts is what the device decrypts and that a
    key it reports as created opens, on the device, what is sealed to its
    public half ([honest]); the platform is any.  When a new provider answers
    with a secret, the files then hold it; from then on, as long as nothing
    else writes the files, every new provider on any platform that answers
    gives the same secret.  And only an empty directory is ever written to: no
    call changes a key, passphrase, key reference or sealed box that is there,
    complete or not. *)
Theorem vault_secret_kept enclave signer w t w' r :
  sw_cached w = None → sw_inflight w = false → (∀ n, length (sw_random w n) = 32%nat) →
  run quiet w (vault_secret JSON_parse policy enclave signer) t w' r → Forall honest t →
  (∀ v, r = Ok v → stands w' v) ∧
  (∀ v, stands w v → files w' = files w ∧ ∀ v', r = Ok v' → v' = v) ∧
  (files w' ≠ files w → files w = (None, None, None, None, None)).
Proof using Hparse.
  intros Hc Hi Hr Hrun Hhon. destruct (wp_run _ _ _ _ _ _ _ _ (vault_secret_wp enclave signer w Hc Hi Hr) Hrun Hhon) as [Hv Hf].
  split_and!; [done| |by intros Hne; destruct Hf].
  intros v Hst. assert (files w' = files w) as Hsame.
  { destruct Hf as [Hf|]; [|done]. exfalso. unfold fresh, files in Hf. injection Hf as E1 E2 E3 E4 E5. unfold stands in Hst.
    rewrite E1, E2 in Hst. destruct Hst as (k & ? & ? & ? & ? & _). congruence. }
  split; [done|]. intros v' Hr'. eapply stands_unique; [by eapply stands_files|]. by apply Hv.
Qed.
End spec.

(** ** A device *)
Section demo.
#[local] Instance demo_se : SeLib := {|
  p256_public d := d; p256_shared d pub := Ok (Byte.x00 :: pub); hkdf_sha256 ikm salt info n := ikm;
  gcm_encrypt key nonce plaintext := plaintext ++ replicate 16 Byte.x00 |}.
(** Enough of [JSON.parse] for a box. *)
Definition parse_box (s : string) : result string json :=
  match str_split dquote s with
  | [_; _; _; e; _; _; _; n; _; _; _; c; _; _; _; t; _] => Ok (box_json (mkBox e n c t))
  | _ => Err "SyntaxError"
  end.
Lemma quote_hex s : str_forallb is_hex s = true → json_quote s = String dquote (s +:+ String dquote "") ∧ str_without dquote s = true.
Proof.
  intros Hs. unfold json_quote. assert (json_escapes s = s ∧ str_without dquote s = true) as [-> ?]; [|done].
  unfold str_without. induction s as [|c s IH]; [done|]. cbn [str_forallb json_escapes] in *.
  apply andb_true_iff in Hs as [Hc Hs]. destruct (IH Hs) as [-> ->]. rewrite andb_true_r.
  destruct c as [[] [] [] [] [] [] [] []]; vm_compute in Hc; try done; split; reflexivity.
Qed.
Lemma split_quote t : str_split dquote (String dquote t) = "" :: str_split dquote t.
Proof. cbn. by rewrite decide_True. Qed.
Lemma split_other c t : bool_decide (c = dquote) = false →
  str_split dquote (String c t) = match str_split dquote t with [] => [String c ""] | p :: ps => String c p :: ps end.
Proof. intros Hc%bool_decide_eq_false. cbn. by rewrite decide_False. Qed.
Lemma parse_box_text b : box_hex b = true → parse_box (box_text b) = Ok (box_json b).
Proof.
  destruct b as [e n c t]. unfold box_hex. cbn [sb_ephemeralPublicKey sb_nonce sb_ciphertext sb_tag forallb].
  rewrite !andb_true_iff. intros ([Qe We]%quote_hex & [Qn Wn]%quote_hex & [Qc Wc]%quote_hex & [Qt Wt]%quote_hex & _).
  unfold parse_box, box_text. cbn [print str_join sb_ephemeralPublicKey sb_nonce sb_ciphertext sb_tag].
  rewrite Qe, Qn, Qc, Qt. unfold dq, nl. repeat rewrite ?str_cons_app, ?str_nil_app, ?str_app_assoc.
  repeat first [rewrite split_quote|rewrite (str_split_app _ _ _ We)|rewrite (str_split_app _ _ _ Wn)
    |rewrite (str_split_app _ _ _ Wc)|rewrite (str_split_app _ _ _ Wt)|rewrite split_other by (by vm_compute)].
  reflexivity.
Qed.
(** An enclave whose keys open every box sealed here. *)
Definition demo_device (keyRef : string) (box : json) : option string :=
  match jget "ciphertext" box with JStr s => Some s | _ => None end.
Definition empty_secrets : SecretWorld :=
  mkSecrets true true true None None None None None (λ n, replicate 32 (to_byte n)) 0 None false.
Definition demo_key : SeKey := mkSeKey "ref" "04".
Ltac reply x := eexists _, x, _; split; [done|]; split; [reflexivity|].
Lemma demo_created label policy purpose w :
  honest demo_device (Event _ (SCreate label policy purpose) w (Ok (Ok demo_key))).
Proof.
  intros key [= <-] secret eph nonce box. unfold seEncrypt. cbn -[bytes_hex Nat.sub replicate app length take].
  intros [= <-]. unfold demo_device. cbn -[bytes_hex Nat.sub replicate app length take]. do 2 f_equal.
  rewrite length_app. cbn [length]. rewrite Nat.add_sub. apply take_app_length.
Qed.
(** A first call on a machine with an enclave. *)
Lemma vault_secret_kept_witness : ∃ t w' v,
  run quiet empty_secrets (vault_secret parse_box "open" true (Some "/bin/signet-signer")) t w' (Ok v) ∧
  is_Some (sw_keyRef w') ∧ is_Some (sw_sealedBox w') ∧ sw_passphrase w' = None ∧ stands parse_box demo_device w' v.
Proof.
  assert (∃ t w' v, run quiet empty_secrets (vault_secret parse_box "open" true (Some "/bin/signet-signer")) t w' (Ok v) ∧
    Forall (honest demo_device) t ∧ is_Some (sw_keyRef w') ∧ is_Some (sw_sealedBox w') ∧ sw_passphrase w' = None)
    as (t & w' & v & Hr & Ht & Hk & Hb & Hp).
  { eexists _, _, _. split.
    - reply (Ok (Ok demo_key) : result string (res SeKey)). reply wr_ok. reply wr_ok. reply wr_ok. done.
    - split; [|split_and!; [by eexists|by eexists|reflexivity]].
      constructor; [apply demo_created|]. by repeat constructor. }
  exists t, w', v. split_and!; [done..|].
  by apply (vault_secret_kept parse_box "open" demo_device parse_box_text true (Some "/bin/signet-signer")
    empty_secrets t w' (Ok v) eq_refl eq_refl (λ n, length_replicate 32 _) Hr Ht).
Defined.

(** ** Limits

    When the passphrase cannot be written the call fails, but the provider has
    cached the secret: its next call answers with it, no file holds it, and
    what a vault encrypts with it is lost at the next start. *)
Lemma lost_secret : ∃ t w1 e v,
  run quiet empty_secrets (vault_secret parse_box "open" false None) t w1 (Err e) ∧
  run quiet w1 software_getSecret [] w1 (Ok v) ∧ files w1 = (None, None, None, None, None).
Proof.
  eexists _, _, _, _. split; [|split].
  - reply (wr_threw None "ENOSPC: no space left on device"). done.
  - vm_compute. done.
  - reflexivity.
Qed.
(** A key reference without its box is refused for good, by every later call. *)
Lemma interrupted_setup : ∃ t w1 e,
  run quiet empty_secrets (vault_secret parse_box "open" true (Some "/bin/signet-signer")) t w1 (Err e) ∧
  sw_keyRef w1 = Some "ref" ∧ ∀ signer, ∃ e', resolveVaultSecretProvider true signer w1 = pv_error e'.
Proof.
  eexists _, _, _. split; [|split].
  - reply (Ok (Ok demo_key) : result string (res SeKey)). reply wr_ok. reply (wr_threw None "ENOSPC"). done.
  - reflexivity.
  - intros signer. eexists. reflexivity.
Qed.
End demo.
