(* ===== verification/KeyBackend.v ===== *)
(** * The internal key backend

    [keys/src/key-manager.ts]: wallets in the vault, their accounts and
    signatures.  The backend keeps in memory, for each wallet, its accounts
    and the next index.

    It is written over the interface of a vault and proved against the
    [VaultContract], so every theorem holds of both vaults.  An operation is
    atomic; the two halves of [deriveAccount], before and after its last
    await on the vault, are definitions of their own, and a lemma shows what
    goes wrong when two calls overlap. *)
From S2P Require Import Prelude Bytes Text Json Errors Ids Bip39Words KeyDerivation Vault VaultSpec.
Local Open Scope Z_scope.

Record WalletInfo := mkWalletInfo {
  wn_id : string; wn_label : string; wn_provider : string; wn_accountCount : nat; wn_createdAt : string
}.
Record AccountInfo := mkAccountInfo { ai_index : Z; ai_address : string; ai_chain : Chain; ai_publicKey : string }.
Record SigningResult := mkSigning { sr_signature : bytes; sr_publicKey : bytes; sr_algorithm : string }.
Record ApiKeyInfo := mkApiKeyInfo { ki_id : string; ki_walletId : string; ki_token : string; ki_expiresAt : string }.
Record WalletState := mkState {
  ws_id : string; ws_label : string; ws_createdAt : string; ws_nextIndex : Z; ws_accounts : list AccountEntry
}.

(** Closes "the promise rejects or the result is an error". *)
Ltac no_answer := solve [by left | by right; eexists].

Section backend.
Context {V : VaultLib} {S : Type} {Ops : VaultOps S} (passphrase : string).
Record Backend := mkBackend { kb_vault : S; kb_states : omap string WalletState }.

(** ** Operations on the backend; [None]: the promise rejects *)
Definition KOp (A : Type) : Type := Backend → Backend * outcome A.
Definition kret {A} (r : outcome A) : KOp A := λ b, (b, r).
Definition kbind {A B} (m : KOp A) (f : A → KOp B) : KOp B := λ b,
  match m b with
  | (b', Some (Ok x)) => f x b'
  | (b', Some (Err e)) => (b', Some (Err e))
  | (b', None) => (b', None)
  end.
Definition of_vault {A} (f : S → outcome A) : KOp A := λ b, (b, f (kb_vault b)).
Definition on_vault {A} (f : S → S * outcome A) : KOp A := λ b,
  let '(s, r) := f (kb_vault b) in (mkBackend s (kb_states b), r).
Definition on_states (f : omap string WalletState → omap string WalletState) : KOp unit := λ b,
  (mkBackend (kb_vault b) (f (kb_states b)), Some (Ok tt)).
(** What throws inside an operation rejects its promise. *)
Definition of_throw {A} (r : throws A) : outcome A := match r with Ok x => Some (Ok x) | Err _ => None end.

(** ** Keys *)
Definition generateToken (random : bytes) : string := bytes_hex random.
(** Address and public key of an account, in hexadecimal. *)
Definition account_key (seed : bytes) (chain : Chain) (index : Z) : throws (string * string) :=
  match chain with
  | evm => d ← deriveEvmKey seed index; Ok (evm_address d, bytes_hex (evm_publicKey d))
  | ed25519 => d ← deriveEd25519Key seed index;
               let publicKeyHex := bytes_hex (ed_publicKey d) in Ok (publicKeyHex, publicKeyHex)
  end.
Definition signWithSeed (seed : bytes) (accountIndex : Z) (chain : Chain) (data : bytes) : throws SigningResult :=
  match chain with
  | evm =>
      derived ← deriveEvmKey seed accountIndex;
      sig ← kl_secp_sign (kl_sha256 data) (evm_privateKey derived);
      publicKey ← kl_secp_public (evm_privateKey derived) false;
      Ok (mkSigning sig publicKey "secp256k1")
  | ed25519 =>
      derived ← deriveEd25519Key seed accountIndex;
      Ok (mkSigning (kl_ed_sign data (ed_privateKey derived)) (kl_ed_public (ed_privateKey derived)) "ed25519")
  end.

(** ** The state of a wallet

    [i] is what the vault's calls take from outside, by call. *)
Definition getSeed (i : VaultInput) (walletId : string) : KOp (string * bytes) :=
  kbind (of_vault (v_readWallet i walletId passphrase)) (λ m, kret (Some (Ok (m, mnemonicToSeed m None)))).
Definition next_index (accounts : list AccountEntry) : Z := foldl (λ m e, Z.max m (ac_index e)) (-1) accounts + 1.
Definition ensureWalletState (i : nat → VaultInput) (walletId : string) : KOp (WalletState * bytes) := λ b,
  kbind (getSeed (i 0%nat) walletId) (λ ms,
    match om_get walletId (kb_states b) with
    | Some existing => kret (Some (Ok (existing, ms.2)))
    | None =>
        kbind (of_vault (v_listWallets (i 1%nat))) (λ infos,
        match List.find (λ w, bool_decide (wi_id w = walletId)) infos with
        | None => kret (missing "Wallet" walletId)
        | Some wallet =>
            kbind (of_vault (v_getWalletAccounts (i 2%nat) walletId)) (λ accounts,
            let state := mkState (wi_id wallet) (wi_label wallet) (wi_createdAt wallet) (next_index accounts) accounts in
            kbind (on_states (om_set walletId state)) (λ _, kret (Some (Ok (state, ms.2)))))
        end)
    end) b.
Definition chainAt (walletId : string) (index : Z) (states : omap string WalletState) : option Chain :=
  state ← om_get walletId states;
  ac_chain <$> List.find (λ a, ac_index a =? index) (ws_accounts state).
Definition resolveAndSign (walletId : string) (seed : bytes) (accountIndex : Z) (data : bytes) : KOp SigningResult := λ b,
  match chainAt walletId accountIndex (kb_states b) with
  | None => kret (missing "Account" (walletId +:+ "/" +:+ pretty accountIndex)) b
  | Some chain => kret (of_throw (signWithSeed seed accountIndex chain data)) b
  end.

(** ** Wallets *)
Definition info_out (w : WalletFileInfo) : WalletInfo :=
  mkWalletInfo (wi_id w) (wi_label w) "internal" (wi_accountCount w) (wi_createdAt w).
Definition createWallet (i : VaultInput) (uuid : string) (entropy : bytes) (now label : string) : KOp WalletInfo :=
  kbind (kret (of_throw (generateMnemonic entropy))) (λ mnemonic,
  kbind (on_vault (v_createWallet i uuid label mnemonic passphrase)) (λ _,
  kbind (on_states (om_set uuid (mkState uuid label now 0 []))) (λ _,
  kret (Some (Ok (mkWalletInfo uuid label "internal" 0 now)))))).
Definition deleteWallet (i : VaultInput) (walletId : string) : KOp unit :=
  kbind (on_vault (v_deleteWallet i walletId)) (λ _, on_states (om_delete walletId)).
Definition listWallets (i : VaultInput) : KOp (list WalletInfo) :=
  kbind (of_vault (v_listWallets i)) (λ infos, kret (Some (Ok (map info_out infos)))).
Definition getWallet (i : VaultInput) (walletId : string) : KOp WalletInfo :=
  kbind (of_vault (v_listWallets i)) (λ infos,
  match List.find (λ w, bool_decide (wi_id w = walletId)) infos with
  | None => kret (missing "Wallet" walletId)
  | Some found => kret (Some (Ok (info_out found)))
  end).

(** ** Accounts

    Up to the update of the vault, and from there on; [derive_finish] writes
    to the state object the call began with, the one in the cache. *)
Record Derivation := mkDerivation { de_info : AccountInfo; de_accounts : list AccountEntry }.
Definition derive_start (i : nat → VaultInput) (walletId : string) (chain : Chain) : KOp Derivation :=
  kbind (ensureWalletState i walletId) (λ '(state, seed),
  let index := ws_nextIndex state in
  kbind (kret (of_throw (account_key seed chain index))) (λ '(address, publicKeyHex),
  kret (Some (Ok (mkDerivation (mkAccountInfo index address chain publicKeyHex)
                    (ws_accounts state ++ [mkAccount index chain address])))))).
Definition advance (index : Z) (accounts : list AccountEntry) (st : WalletState) : WalletState :=
  mkState (ws_id st) (ws_label st) (ws_createdAt st) (index + 1) accounts.
Definition derive_finish (i : VaultInput) (walletId : string) (d : Derivation) : KOp AccountInfo :=
  kbind (on_vault (v_updateWalletAccounts i walletId (de_accounts d))) (λ _,
  kbind (on_states (λ states,
    match om_get walletId states with
    | Some state => om_set walletId (advance (ai_index (de_info d)) (de_accounts d) state) states
    | None => states
    end)) (λ _, kret (Some (Ok (de_info d))))).
Definition deriveAccount (i : nat → VaultInput) (walletId : string) (chain : Chain) : KOp AccountInfo :=
  kbind (derive_start i walletId chain) (λ d, derive_finish (i 3%nat) walletId d).
Fixpoint account_infos (seed : bytes) (accounts : list AccountEntry) : throws (list AccountInfo) :=
  match accounts with
  | [] => Ok []
  | e :: accounts =>
      k ← account_key seed (ac_chain e) (ac_index e);
      infos ← account_infos seed accounts;
      Ok (mkAccountInfo (ac_index e) (ac_address e) (ac_chain e) k.2 :: infos)
  end.
Definition listAccounts (i : nat → VaultInput) (walletId : string) : KOp (list AccountInfo) :=
  kbind (ensureWalletState i walletId) (λ '(state, seed),
  kret (of_throw (account_infos seed (ws_accounts state)))).
Definition getXmtpIdentityKey (i : nat → VaultInput) (walletId : string) (accountIndex : Z) : KOp string :=
  kbind (ensureWalletState i walletId) (λ '(state, seed),
  match List.find (λ e, (ac_index e =? accountIndex) && bool_decide (ac_chain e = evm)) (ws_accounts state) with
  | None => kret (missing "EvmAccount" (walletId +:+ "/" +:+ pretty accountIndex))
  | Some _ => kret (of_throw (derived ← deriveEvmKey seed accountIndex; Ok ("0x" +:+ bytes_hex (evm_privateKey derived))))
  end).

(** ** Signatures and API keys *)
Definition sign (i : VaultInput) (walletId : string) (accountIndex : Z) (data : bytes) : KOp SigningResult :=
  kbind (getSeed i walletId) (λ ms, resolveAndSign walletId ms.2 accountIndex data).
Definition createApiKey (i : nat → VaultInput) (random : bytes) (walletId credentialId expiresAt : string) : KOp ApiKeyInfo :=
  kbind (of_vault (v_readWallet (i 0%nat) walletId passphrase)) (λ mnemonic,
  let token := generateToken random in
  kbind (on_vault (v_createApiKey (i 1%nat) credentialId walletId mnemonic token expiresAt)) (λ _,
  kret (Some (Ok (mkApiKeyInfo credentialId walletId token expiresAt))))).
Definition revokeApiKey (i : VaultInput) (keyId : string) : KOp unit := on_vault (v_revokeApiKey i keyId).
Definition signWithApiKey (i : VaultInput) (token : string) (accountIndex : Z) (data : bytes) : KOp SigningResult :=
  kbind (of_vault (v_readApiKey i token)) (λ '(mnemonic, walletId),
  resolveAndSign walletId (mnemonicToSeed mnemonic None) accountIndex data).
(** The process ends and a new one starts over the same vault. *)
Definition restart (b : Backend) : Backend := mkBackend (kb_vault b) [].
End backend.

(** ** What stays true

    Texts of printable ASCII without quotes and backslashes survive UTF-8
    and JSON. *)
Definition printable_char (c : ascii) : bool := let n := nat_of_ascii c in ((32 <=? n) && (n <=? 126))%nat.
Definition plain_char (c : ascii) : bool :=
  printable_char c && negb (nat_of_ascii c =? 34)%nat && negb (nat_of_ascii c =? 92)%nat.
Definition printable (s : string) : bool := str_forallb printable_char s.
Definition plain_text (s : string) : bool := str_forallb plain_char s.
Class TextLaws `{VaultLib} : Prop := {
  law_text s : printable s = true → text_ok s;
  law_payload m id : plain_text m = true → plain_text id = true →
    vl_parse (api_key_payload m id) = Some (JObj [("mnemonic", JStr m); ("walletId", JStr id)])
}.

Section spec.
Context {V : VaultLib} {Texts : TextLaws} {S : Type} {Ops : VaultOps S} (R : S → AbsVault → Prop)
  {C : VaultContract S R} (passphrase : string).
Implicit Types (b : Backend (S := S)) (a : AbsVault).

(** The accounts of a wallet are numbered from zero, each with the address of
    the key derived at its number. *)
Definition accounts_ok (seed : bytes) (accounts : list AccountEntry) : Prop :=
  ∀ k e, accounts !! k = Some e → ac_index e = Z.of_nat k ∧
    ∃ publicKey, account_key seed (ac_chain e) (ac_index e) = Ok (ac_address e, publicKey).
Definition seed_of (w : AbsWallet) : bytes := mnemonicToSeed (aw_mnemonic w) None.
Record wallet_ok (id : string) (w : AbsWallet) : Prop := {
  wo_passphrase : aw_passphrase w = passphrase;
  wo_id : plain_text id = true;
  wo_mnemonic : plain_text (aw_mnemonic w) = true;
  wo_accounts : accounts_ok (seed_of w) (aw_accounts w)
}.
(** A key holds the mnemonic of its wallet, as long as there is one. *)
Record abs_ok a : Prop := {
  ao_wallets : ∀ id w, av_wallets a !! id = Some w → wallet_ok id w;
  ao_keys : ∀ id k w, av_keys a !! id = Some k → av_wallets a !! ak_walletId k = Some w →
    ak_mnemonic k = aw_mnemonic w;
  ao_tokens : ∀ i j k k', av_keys a !! i = Some k → av_keys a !! j = Some k' → ak_token k = ak_token k' → i = j
}.
(** The state in memory is that of the vault. *)
Definition cached a (id : string) (st : WalletState) : Prop :=
  ∃ w, av_wallets a !! id = Some w ∧ ws_accounts st = aw_accounts w ∧
    ws_nextIndex st = Z.of_nat (length (aw_accounts w)).
Record binv b a : Prop := {
  bi_vault : R (kb_vault b) a;
  bi_abs : abs_ok a;
  bi_states : ∀ id st, om_get id (kb_states b) = Some st → cached a id st
}.

(** *** The outcome of an operation *)
Definition kpost {A} (m : KOp (S := S) A) b (Q : Backend (S := S) → outcome A → Prop) : Prop := Q (m b).1 (m b).2.
Definition failing (i : VaultInput) : Prop := is_Some (in_io i).
Lemma kpost_mono {A} (m : KOp A) b (Q Q' : _ → _ → Prop) : kpost m b Q → (∀ b' r, Q b' r → Q' b' r) → kpost m b Q'.
Proof. intros H HQ. by apply HQ. Qed.
Lemma kpost_bind {A B} (m : KOp A) (f : A → KOp B) b Q :
  kpost m b (λ b' r, match r with
    | Some (Ok x) => kpost (f x) b' Q | Some (Err e) => Q b' (Some (Err e)) | None => Q b' None end) →
  kpost (kbind m f) b Q.
Proof. unfold kpost, kbind. by destruct (m b) as [b' [[x|e]|]]. Qed.
Lemma kpost_ret {A} (r : outcome A) b (Q : _ → _ → Prop) : Q b r → kpost (kret r) b Q.
Proof. done. Qed.
(** Reading the vault: the answer of the contract, or the file system threw. *)
Lemma kpost_read {A} i (f : S → outcome A) P b (Q : _ → _ → Prop) : reads i P (f (kb_vault b)) →
  (∀ r, P r → Q b r) → (∀ e, failing i → Q b (Some (Err e))) → kpost (of_vault f) b Q.
Proof. intros [HP|[Hio (e & He & _)]] H1 H2; unfold kpost, of_vault; cbn; [by apply H1|]. rewrite He. by apply H2. Qed.
(** Changing it: as the contract says, or nothing has changed. *)
Lemma kpost_write {A} i (f : S → S * outcome A) P b a a' (Q : _ → _ → Prop) : meets R i a a' P (f (kb_vault b)) →
  (∀ s r, R s a' → P r → Q (mkBackend s (kb_states b)) r) →
  (∀ s r, failing i → R s a → r = None ∨ failed internal r → Q (mkBackend s (kb_states b)) r) →
  kpost (on_vault f) b Q.
Proof.
  unfold kpost, on_vault, meets. destruct (f (kb_vault b)) as [s r]. cbn.
  intros [[HR HP]|(Hio & HR & Hr)] H1 H2; [by apply H1|by apply H2].
Qed.

(** The same when the mode of a file written may not be set. *)
Lemma kpost_writes {A} i (f : S → S * outcome A) P b a a' (Q : _ → _ → Prop) : writes R i a a' P (f (kb_vault b)) →
  (∀ s r, R s a' → P r → Q (mkBackend s (kb_states b)) r) →
  (∀ s e, failing i → R s a → Q (mkBackend s (kb_states b)) (Some (Err e))) →
  (∀ s e, failing i → ¬ cleanly i → R s a' → Q (mkBackend s (kb_states b)) (Some (Err e))) →
  kpost (on_vault f) b Q.
Proof.
  unfold kpost, on_vault, writes. destruct (f (kb_vault b)) as [s r]. cbn.
  intros [[HR HP]|(Hio & [HR|[Hc HR]] & e & -> & _)] H1 H2 H3; [by apply H1|by apply H2|by apply H3].
Qed.

(** *** The words of a mnemonic *)
Lemma plain_printable s : plain_text s = true → printable s = true.
Proof. apply str_forallb_impl. intros c. unfold plain_char. by destruct (printable_char c). Qed.
Lemma plain_escapes s : plain_text s = true → json_escapes s = s.
Proof.
  induction s as [|c s IH]; [done|]. unfold plain_text. cbn [str_forallb json_escapes].
  intros [Hc Hs]%andb_true_iff. rewrite IH by done. assert (json_escape c = String c "") as ->; [|done].
  revert Hc. unfold plain_char, printable_char, json_escape. set (n := nat_of_ascii c).
  intros [[[Hl _]%andb_true_iff H1]%andb_true_iff H2]%andb_true_iff.
  apply Nat.leb_le in Hl. apply negb_true_iff in H1, H2. rewrite H1, H2.
  repeat (rewrite (proj2 (Nat.eqb_neq _ _)) by lia). by rewrite (proj2 (Nat.ltb_ge _ _)) by lia.
Qed.
Lemma words_plain : Forall (λ w, plain_text w = true) BIP39_ENGLISH_WORDLIST.
Proof.
  apply Forall_forall. intros w Hw. assert (forallb plain_text BIP39_ENGLISH_WORDLIST = true) as H by by vm_compute.
  rewrite forallb_forall in H. apply H. by apply list_elem_of_In.
Qed.
Lemma mnemonic_words_listed l steps ws : mnemonic_words l steps = Ok ws → Forall (λ w, plain_text w = true) ws.
Proof.
  revert ws. induction steps as [|i steps IH]; intros ws; cbn [mnemonic_words]; [by intros [= <-]|].
  destruct (extractBits l (i * 11) 11) as [index|]; cbn [mbind result_bind]; [|done].
  destruct (_ !! _) as [w|] eqn:Hw; [|done].
  destruct (mnemonic_words l steps) as [ws'|]; cbn [mbind result_bind]; [|done]. intros [= <-].
  constructor; [|by apply IH]. apply (proj1 (Forall_forall _ _) words_plain). by eapply list_elem_of_lookup_2.
Qed.
Lemma generateMnemonic_plain entropy m : generateMnemonic entropy = Ok m → plain_text m = true.
Proof.
  unfold generateMnemonic. destruct (mnemonic_words _ _) as [ws|] eqn:E; cbn [mbind result_bind]; [|done].
  intros [= <-]. apply mnemonic_words_listed in E. induction E as [|w ws Hw _ IH]; [done|].
  destruct ws as [|w' ws]; [done|]. change (str_join " " (w :: w' :: ws)) with (w +:+ " " +:+ str_join " " (w' :: ws)).
  unfold plain_text in *. by rewrite !str_forallb_app, Hw, IH.
Qed.
Lemma payload_plain m id : plain_text m = true → plain_text id = true → payload_ok m id.
Proof.
  intros Hm Hid. split; [|by apply law_payload]. apply law_text. unfold api_key_payload. cbn [print map str_join].
  unfold json_quote. rewrite (plain_escapes m), (plain_escapes id) by done.
  apply plain_printable in Hm, Hid. unfold printable in *.
  repeat (rewrite ?str_cons_app, ?str_forallb_app || cbn [str_forallb]). by rewrite Hm, Hid.
Qed.

(** *** The state of a wallet *)
Lemma accounts_ok_app seed l e : accounts_ok seed l → ac_index e = Z.of_nat (length l) →
  (∃ publicKey, account_key seed (ac_chain e) (ac_index e) = Ok (ac_address e, publicKey)) →
  accounts_ok seed (l ++ [e]).
Proof.
  intros Hl Hi Hk k x [Hx|[Hk' [H0 <-]%list_lookup_singleton_Some]]%lookup_app_Some; [by apply Hl|].
  by replace k with (length l) by lia.
Qed.
Lemma next_index_ok seed l : accounts_ok seed l → next_index l = Z.of_nat (length l).
Proof.
  unfold next_index. induction l as [|e l IH] using rev_ind; [done|]. intros Hok.
  rewrite foldl_app, length_app. cbn [foldl length].
  assert (accounts_ok seed l) as Hl.
  { intros k x Hx. apply Hok. by apply lookup_app_l_Some. }
  destruct (Hok (length l) e) as [Hi _]. { by apply list_lookup_middle. }
  specialize (IH Hl). lia.
Qed.
Lemma find_info (wallets : gmap string AbsWallet) id infos : infos ≡ₚ map abs_info (map_to_list wallets) →
  List.find (λ w, bool_decide (wi_id w = id)) infos = (λ w, abs_info (id, w)) <$> wallets !! id.
Proof.
  intros Hp. assert (∀ x, x ∈ infos ↔ ∃ i w, x = abs_info (i, w) ∧ wallets !! i = Some w) as Hin.
  { intros x. rewrite Hp, list_elem_of_fmap. split.
    - intros ([i w] & -> & Hx%elem_of_map_to_list). eauto.
    - intros (i & w & -> & Hx). exists (i, w). split; [done|]. by apply elem_of_map_to_list. }
  destruct (List.find _ infos) as [x|] eqn:E.
  - apply List.find_some in E as [Hx Hid]. apply bool_decide_eq_true in Hid.
    apply list_elem_of_In, Hin in Hx as (i & w & -> & Hw). cbn in Hid. subst i. by rewrite Hw.
  - destruct (wallets !! id) as [w|] eqn:Hw; [|done].
    assert (abs_info (id, w) ∈ infos) as Hi by (apply Hin; eauto). apply list_elem_of_In in Hi.
    pose proof (List.find_none _ _ E _ Hi) as Hbad. cbn in Hbad. by rewrite bool_decide_true in Hbad.
Qed.

(** What the operations on a wallet begin with: its seed and its state. *)
Definition loaded b a (id : string) (st : WalletState) (seed : bytes) (w : AbsWallet) : Prop :=
  av_wallets a !! id = Some w ∧ om_get id (kb_states b) = Some st ∧ ws_accounts st = aw_accounts w ∧
  ws_nextIndex st = Z.of_nat (length (aw_accounts w)) ∧ seed = seed_of w.
Definition refused a (id : string) (io : Prop) : Prop := is_Some (av_wallets a !! id) → io.
Definition any_failing (i : nat → VaultInput) : Prop := ∃ n, failing (i n).
Lemma getSeed_spec i id b a (Q : _ → _ → Prop) : binv b a →
  (∀ w, av_wallets a !! id = Some w → Q b (Some (Ok (aw_mnemonic w, seed_of w)))) →
  (∀ e, refused a id (failing i) → Q b (Some (Err e))) →
  kpost (getSeed passphrase i id) b Q.
Proof.
  intros Hb H1 H2. apply kpost_bind. eapply kpost_read; [apply (vc_readWallet i id passphrase _ a), Hb| |].
  - intros r. destruct (av_wallets a !! id) as [w|] eqn:E; cbn [found].
    + rewrite decide_True by (symmetry; exact (wo_passphrase _ _ (ao_wallets a (bi_abs _ _ Hb) id w E))). intros ->.
      apply kpost_ret. by apply H1.
    + intros (e & -> & _). apply H2. intros [w Hw]. congruence.
  - intros e He. apply H2. by intros _.
Qed.
Lemma ensureWalletState_spec i id b a (Q : _ → _ → Prop) : binv b a →
  (∀ b' st seed w, binv b' a → kb_vault b' = kb_vault b → loaded b' a id st seed w → Q b' (Some (Ok (st, seed)))) →
  (∀ e, refused a id (any_failing i) → Q b (Some (Err e))) →
  kpost (ensureWalletState passphrase i id) b Q.
Proof.
  intros Hb H1 H2. unfold ensureWalletState. apply kpost_bind. eapply getSeed_spec; [done| |].
  2: { intros e He. apply H2. intros Hw. exists 0%nat. by apply He. }
  intros w Hw. cbn [snd]. destruct (om_get id (kb_states b)) as [st|] eqn:Hst.
  { apply kpost_ret. destruct (bi_states _ _ Hb id st Hst) as (w' & Hw' & Ha & Hn). simplify_eq.
    eapply H1; [done..|]. by split_and!. }
  apply kpost_bind. eapply kpost_read; [apply (vc_listWallets (i 1%nat) _ a), Hb| |].
  2: { intros e He. apply H2. intros _. by exists 1%nat. }
  intros r (infos & -> & Hinfos). rewrite (find_info _ id _ Hinfos), Hw. cbn [fmap option_fmap option_map].
  apply kpost_bind. eapply kpost_read; [apply (vc_getWalletAccounts (i 2%nat) id _ a), Hb| |].
  2: { intros e He. apply H2. intros _. by exists 2%nat. }
  intros r. rewrite Hw. cbn [found]. intros ->. apply kpost_bind. apply kpost_ret.
  set (st := mkState _ _ _ _ _). unfold kpost. cbn [fst snd kret].
  pose proof (wo_accounts _ _ (ao_wallets a (bi_abs _ _ Hb) id w Hw)) as Hok.
  assert (ws_nextIndex st = Z.of_nat (length (aw_accounts w))) as Hn by by eapply next_index_ok.
  apply (H1 (mkBackend (kb_vault b) (om_set id st (kb_states b))) st (seed_of w) w).
  - destruct Hb as [Hb1 Hb2 Hb3]. split; [done|done|]. cbn. intros j st' Hj.
    rewrite om_get_set in Hj. case_decide; [|by apply Hb3]. simplify_eq. by exists w.
  - done.
  - split_and!; [done| |done..]. cbn. apply om_get_set_eq.
Qed.

(** *** Wallets *)
Definition wallet_fresh (uuid : string) a : Prop :=
  av_wallets a !! uuid = None ∧ ∀ id k, av_keys a !! id = Some k → ak_walletId k ≠ uuid.
Definition unanswered {A} (r : outcome A) : Prop := r = None ∨ ∃ e, r = Some (Err e).
Lemma failed_unanswered {A} (r : outcome A) : r = None ∨ failed internal r → unanswered r.
Proof. intros [->|(e & -> & _)]; [by left|right; by exists e]. Qed.
Lemma new_wallet_inv s b a uuid label m now st : binv b a → wallet_fresh uuid a → plain_text uuid = true → plain_text m = true →
  R s (set_wallets <[uuid := mkAbsWallet label m passphrase [] now]> a) →
  (∀ id st', om_get id st = Some st' → om_get id (kb_states b) = Some st' ∨ id = uuid ∧ ws_accounts st' = [] ∧ ws_nextIndex st' = 0) →
  binv (mkBackend s st) (set_wallets <[uuid := mkAbsWallet label m passphrase [] now]> a).
Proof.
  intros [H1 [H2 H3 H4] H5] [Hw Hk] Hid Hm Hs Hst. split; cbn; [done| |].
  - split; cbn.
    + intros j w [[<- <-]|[Hne Hj]]%lookup_insert_Some; [|by apply H2]. split; [done..|]. by intros k e ?.
    + intros j k w Hj [[Hj' <-]|[Hne Hj']]%lookup_insert_Some; [by destruct (Hk j k)|by eapply H3].
    + done.
  - intros j st' [(w & Hj & ?)%H5|(-> & ? & ?)]%Hst; [|by eexists; cbn; rewrite lookup_insert_eq].
    exists w. cbn. rewrite lookup_insert_ne; [done|]. intros <-. congruence.
Qed.
Lemma createWallet_spec' i uuid entropy now label b a : binv b a → wallet_fresh uuid a → plain_text uuid = true → whole i →
  kpost (createWallet passphrase i uuid entropy now label) b (λ b' r, ∀ m, generateMnemonic entropy = Ok m →
    (r = Some (Ok (mkWalletInfo uuid label "internal" 0 now)) ∧
       binv b' (set_wallets <[uuid := mkAbsWallet label m passphrase [] (in_now i)]> a)) ∨
    (unanswered r ∧ failing i ∧
       (binv b' a ∨ ¬ cleanly i ∧ binv b' (set_wallets <[uuid := mkAbsWallet label m passphrase [] (in_now i)]> a)))).
Proof.
  intros Hb Hf Hid Hi. apply kpost_bind, kpost_ret. destruct (generateMnemonic entropy) as [m|t] eqn:Em; cbn [of_throw]; [|done].
  pose proof (generateMnemonic_plain _ _ Em) as Hm. apply kpost_bind.
  eapply kpost_writes; [apply (vc_createWallet i uuid label m passphrase _ a (bi_vault _ _ Hb)); [by apply law_text, plain_printable|done]| | |].
  - intros s r Hs ->. apply kpost_bind. unfold kpost. cbn. intros m' [= <-]. left. split; [done|].
    apply (new_wallet_inv s b); [done..|]. intros j st. rewrite om_get_set. case_decide; [intros [= <-]; by right|by left].
  - intros s e Hio Hs m' [= <-]. right. split_and!; [no_answer|done|left]. destruct Hb. by split.
  - intros s e Hio Hc Hs m' [= <-]. right. split_and!; [no_answer|done|right; split; [done|]].
    apply (new_wallet_inv s b); [done..|]. by left.
Qed.
Lemma createWallet_inv i uuid entropy now label b a : binv b a → wallet_fresh uuid a → plain_text uuid = true → whole i →
  ∃ a', binv (createWallet passphrase i uuid entropy now label b).1 a'.
Proof.
  intros Hb Hf Hid Hi. pose proof (createWallet_spec' i uuid entropy now label b a Hb Hf Hid Hi) as H.
  destruct (generateMnemonic entropy) as [m|t] eqn:Em; [|exists a; unfold createWallet, kbind; by rewrite Em].
  destruct (H m eq_refl) as [[_ ?]|(_ & _ & [?|[_ ?]])]; by eexists.
Qed.
Lemma deleteWallet_spec' i id b a : binv b a →
  kpost (deleteWallet i id) b (λ b' r,
    (binv b' (set_wallets (delete id) a) ∧ (r = Some (Ok tt) ↔ is_Some (av_wallets a !! id))) ∨
    (unanswered r ∧ binv b' a ∧ failing i)).
Proof.
  intros [H1 [H2 H3 H4] H5]. apply kpost_bind.
  eapply kpost_write; [apply (vc_deleteWallet i id _ a H1)| |].
  2: { intros s r Hio Hs Hr%failed_unanswered. assert (binv (mkBackend s (kb_states b)) a) by done.
       destruct Hr as [->|[e ->]]; right; split_and!; done || no_answer. }
  intros s r Hs Hr. assert (abs_ok (set_wallets (delete id) a)) as Habs.
  { split; cbn; [|intros j k w Hj [_ Hw]%lookup_delete_Some; by eapply H3|done].
    intros j w [_ Hj]%lookup_delete_Some. by apply H2. }
  destruct (av_wallets a !! id) as [w|] eqn:E; cbn [found] in Hr.
  - rewrite Hr. unfold kpost, on_states. cbn [fst snd kb_vault kb_states]. left. split; [|split; [by eexists|done]].
    split; cbn; [done|done|]. intros j st. rewrite om_get_delete. case_decide as Ej; [done|]. intros (w' & Hw' & ?)%H5. exists w'. cbn.
    by rewrite lookup_delete_ne.
  - destruct Hr as (e & -> & _). left. split; [|split; [done|by intros []]]. split; cbn; [done|done|].
    intros j st (w' & Hw' & ?)%H5. exists w'. cbn. rewrite lookup_delete_ne; [done|]. intros ->. congruence.
Qed.

(** *** Accounts *)
Definition entry_of (info : AccountInfo) : AccountEntry := mkAccount (ai_index info) (ai_chain info) (ai_address info).
Definition derived_account (w : AbsWallet) (chain : Chain) (info : AccountInfo) : Prop :=
  ai_index info = Z.of_nat (length (aw_accounts w)) ∧ ai_chain info = chain ∧
  account_key (seed_of w) chain (ai_index info) = Ok (ai_address info, ai_publicKey info).
Definition with_account (id : string) (w : AbsWallet) (info : AccountInfo) a : AbsVault :=
  set_wallets (alter (abs_accounts (aw_accounts w ++ [entry_of info])) id) a.
Definition in_memory b (id : string) : Prop := is_Some (om_get id (kb_states b)).
Definition underivable (w : AbsWallet) (chain : Chain) : Prop :=
  ∃ t, account_key (seed_of w) chain (Z.of_nat (length (aw_accounts w))) = Err t.
Lemma derive_start_spec i id chain b a (Q : _ → _ → Prop) : binv b a →
  (∀ b' st w info, binv b' a → loaded b' a id st (seed_of w) w → derived_account w chain info →
     Q b' (Some (Ok (mkDerivation info (aw_accounts w ++ [entry_of info]))))) →
  (∀ b' r, binv b' a → unanswered r →
     (∀ w, av_wallets a !! id = Some w → any_failing i ∨ underivable w chain) → Q b' r) →
  kpost (derive_start passphrase i id chain) b Q.
Proof.
  intros Hb H1 H2. apply kpost_bind. eapply ensureWalletState_spec; [done| |].
  2: { intros e He. apply H2; [done|no_answer|]. intros w Hw. left. apply He. by eexists. }
  intros b' st seed w Hb' _ (Hw & Hst & Ha & Hn & ->). apply kpost_bind, kpost_ret. rewrite Hn.
  destruct (account_key _ chain _) as [[address pub]|t] eqn:E; cbn [of_throw].
  - apply kpost_ret. rewrite Ha. by apply (H1 b' st w (mkAccountInfo (Z.of_nat (length (aw_accounts w))) address chain pub)).
  - apply H2; [done|no_answer|]. intros w' Hw'. right. simplify_eq. by eexists.
Qed.
Lemma derive_finish_spec i id chain b a w st info (Q : _ → _ → Prop) : binv b a → loaded b a id st (seed_of w) w →
  derived_account w chain info →
  (∀ b', binv b' (with_account id w info a) → in_memory b' id → Q b' (Some (Ok info))) →
  (∀ b' r, binv b' a → unanswered r → failing i → Q b' r) → cleanly i →
  kpost (derive_finish i id (mkDerivation info (aw_accounts w ++ [entry_of info]))) b Q.
Proof.
  intros [H1 H2 H3] (Hw & Hst & Ha & Hn & _) (Hi & Hc & Hk) HQ1 HQ2 Hcl. apply kpost_bind.
  eapply kpost_write; [apply writes_meets; [done|]; apply (vc_updateWalletAccounts i id _ _ a H1), clean_whole, Hcl| |].
  2: { intros s r Hio Hs Hr%failed_unanswered. assert (binv (mkBackend s (kb_states b)) a) by done.
       destruct Hr as [->|[e ->]]; apply HQ2; done || no_answer. }
  intros s r Hs. rewrite Hw. cbn [found]. intros ->. apply kpost_bind. unfold kpost, on_states.
  cbn [fst snd kb_vault kb_states kret de_info]. rewrite Hst. apply HQ1.
  2: { unfold in_memory. cbn [kb_states]. by rewrite om_get_set_eq. }
  unfold with_account in *. split; cbn; [done| |].
  - destruct H2 as [H2 H4 H5]. split; cbn; [| |done].
    + intros j w' [(-> & w0 & Hj & ->)|[? Hj]]%lookup_alter_Some; [|by apply H2]. simplify_eq.
      destruct (H2 _ _ Hw) as [P1 P2 P3 P4]. split; [done..|]. apply accounts_ok_app; [done..|]. by exists (ai_publicKey info).
    + intros j k w' Hj [(-> & w0 & Hj' & ->)|[? Hj']]%lookup_alter_Some; cbn; by eapply H4.
  - intros j st'. rewrite om_get_set. case_decide as E.
    + intros [= <-]. subst j. eexists. split; [cbn; by rewrite lookup_alter_eq, Hw|]. cbn.
      rewrite length_app, Hi. cbn. split; [done|lia].
    + intros (w' & Hw' & ?)%H3. exists w'. cbn. by rewrite lookup_alter_ne.
Qed.
Lemma deriveAccount_spec' i id chain b a : binv b a → cleanly (i 3%nat) →
  kpost (deriveAccount passphrase i id chain) b (λ b' r,
    (∃ w info, av_wallets a !! id = Some w ∧ r = Some (Ok info) ∧ derived_account w chain info ∧
       binv b' (with_account id w info a) ∧ in_memory b' id) ∨
    (unanswered r ∧ binv b' a ∧ ∀ w, av_wallets a !! id = Some w → any_failing i ∨ underivable w chain)).
Proof.
  intros Hb Hc. apply kpost_bind. eapply derive_start_spec; [done| |].
  - intros b' st w info Hb' Hl Hd. eapply derive_finish_spec; [done..| | |done].
    + intros b2 Hb2 Hm. left. exists w, info. split_and!; [apply Hl|done..].
    + intros b2 r Hb2 Hr Hio. right. split_and!; [done..|]. intros w' _. left. by exists 3%nat.
  - intros b' r Hb' Hr Hw. destruct Hr as [->|[e ->]]; right; split_and!; done || no_answer.
Qed.
(** What a listing shows: every account with its key. *)
Definition listed (w : AbsWallet) (infos : list AccountInfo) : Prop :=
  map entry_of infos = aw_accounts w ∧
  Forall (λ info, account_key (seed_of w) (ai_chain info) (ai_index info) = Ok (ai_address info, ai_publicKey info)) infos.
Lemma account_infos_ok seed accounts :
  (∀ e, e ∈ accounts → ∃ pub, account_key seed (ac_chain e) (ac_index e) = Ok (ac_address e, pub)) →
  ∃ infos, account_infos seed accounts = Ok infos ∧ map entry_of infos = accounts ∧
    Forall (λ info, account_key seed (ai_chain info) (ai_index info) = Ok (ai_address info, ai_publicKey info)) infos.
Proof.
  induction accounts as [|e l IH]; [by exists []|]. intros Hl.
  destruct (Hl e ltac:(set_solver)) as [pub Hk]. destruct IH as (infos & Hi & Hm & Hf); [set_solver|].
  cbn [account_infos]. rewrite Hk. cbn [mbind result_bind]. rewrite Hi. eexists. split; [done|]. cbn.
  rewrite Hm. split; [by destruct e|]. by constructor.
Qed.
Lemma accounts_ok_key seed l e : accounts_ok seed l → e ∈ l →
  ∃ pub, account_key seed (ac_chain e) (ac_index e) = Ok (ac_address e, pub).
Proof. intros Hl [k Hk]%list_elem_of_lookup_1. by apply Hl in Hk as [_ ?]. Qed.
Lemma listAccounts_spec' i id b a : binv b a →
  kpost (listAccounts passphrase i id) b (λ b' r, binv b' a ∧
    ((∃ w infos, av_wallets a !! id = Some w ∧ r = Some (Ok infos) ∧ listed w infos) ∨
     (unanswered r ∧ refused a id (any_failing i)))).
Proof.
  intros Hb. apply kpost_bind. eapply ensureWalletState_spec; [done| |].
  - intros b' st seed w Hb' _ (Hw & _ & Ha & _ & ->). apply kpost_ret. split; [done|]. left. rewrite Ha.
    destruct (account_infos_ok (seed_of w) (aw_accounts w)) as (infos & -> & ? & ?).
    { intros e. apply accounts_ok_key, (wo_accounts _ _ (ao_wallets a (bi_abs _ _ Hb) id w Hw)). }
    by exists w, infos.
  - intros e He. split; [done|]. right. split; [no_answer|done].
Qed.
Lemma getXmtpIdentityKey_inv i id index b a : binv b a →
  kpost (getXmtpIdentityKey passphrase i id index) b (λ b' _, binv b' a).
Proof.
  intros Hb. apply kpost_bind. eapply ensureWalletState_spec; [done| |done].
  intros b' st seed w Hb' _ _. by destruct (List.find _ _).
Qed.

(** *** Signatures *)
Lemma find_account seed l index : accounts_ok seed l →
  List.find (λ e, ac_index e =? index) l = (if decide (0 <= index) then l !! Z.to_nat index else None).
Proof.
  intros Hok. destruct (List.find _ l) as [e|] eqn:E.
  - apply List.find_some in E as [Hin Hi]. apply Z.eqb_eq in Hi.
    apply list_elem_of_In, list_elem_of_lookup_1 in Hin as [k Hk]. destruct (Hok k e Hk) as [He _].
    rewrite decide_True by lia. by replace (Z.to_nat index) with k by lia.
  - case_decide as Hi; [|done]. destruct (l !! Z.to_nat index) as [e|] eqn:Hk; [|done].
    destruct (Hok _ e Hk) as [He _]. pose proof (List.find_none _ _ E e) as Hn. cbn in Hn.
    rewrite (proj2 (Z.eqb_eq _ _)) in Hn by lia. discriminate Hn. apply list_elem_of_In. by eapply list_elem_of_lookup_2.
Qed.
(** [e] is the account [index] of the wallet. *)
Definition account_at (w : AbsWallet) (index : Z) (e : AccountEntry) : Prop :=
  0 <= index ∧ aw_accounts w !! Z.to_nat index = Some e.
Lemma resolveAndSign_spec id seed index data b a w (Q : _ → _ → Prop) : binv b a → av_wallets a !! id = Some w →
  (∀ e, account_at w index e → Q b (of_throw (signWithSeed seed index (ac_chain e) data))) →
  (∀ err, category err = not_found → (∀ e, account_at w index e → ¬ in_memory b id) → Q b (Some (Err err))) →
  kpost (resolveAndSign id seed index data) b Q.
Proof.
  intros Hb Hw H1 H2. unfold kpost, resolveAndSign, chainAt. destruct (om_get id (kb_states b)) as [st|] eqn:Hst; cbn [mbind option_bind].
  2: { apply H2; [done|]. unfold in_memory. rewrite Hst. by intros e _ []. }
  destruct (bi_states _ _ Hb id st Hst) as (w' & Hw' & Ha & _). simplify_eq. rewrite Ha.
  rewrite (find_account (seed_of w)) by apply (wo_accounts _ _ (ao_wallets a (bi_abs _ _ Hb) id w Hw)).
  case_decide as Hi.
  - destruct (aw_accounts w !! Z.to_nat index) as [e|] eqn:E; cbn [fmap option_fmap option_map kret fst snd].
    + by apply H1.
    + apply H2; [done|]. intros e [_ ?]. congruence.
  - apply H2; [done|]. by intros e [? _].
Qed.
Lemma resolveAndSign_unknown id seed index data b a : binv b a → av_wallets a !! id = None →
  ∃ err, resolveAndSign id seed index data b = (b, Some (Err err)) ∧ category err = not_found.
Proof.
  intros Hb Hw. unfold resolveAndSign, chainAt. destruct (om_get id (kb_states b)) as [st|] eqn:Hst; cbn.
  - destruct (bi_states _ _ Hb id st Hst) as (w' & Hw' & _). congruence.
  - by eexists.
Qed.
(** A signature is made with the key that has the account's address. *)
Lemma signing_key seed index chain data r : signWithSeed seed index chain data = Ok r →
  ∃ address, account_key seed chain index = Ok (address, bytes_hex (sr_publicKey r)).
Proof.
  destruct chain; cbn [signWithSeed account_key].
  - unfold deriveEvmKey, derivePath. destruct (parsePath _) as [p|]; cbn [mbind result_bind]; [|done].
    destruct (derive_segments _ _ p) as [[k c]|]; cbn [mbind result_bind fst snd]; [|done].
    destruct (kl_secp_public k false) as [pub|] eqn:Hp; cbn [mbind result_bind evm_privateKey dk_privateKey dk_publicKey]; [|done].
    destruct (kl_secp_sign _ k) as [sig|]; cbn [mbind result_bind]; [|done].
    rewrite Hp. cbn [mbind result_bind]. intros [= <-]. by eexists.
  - unfold deriveEd25519Key. destruct (deriveEd25519Path _ _) as [[k c]|]; cbn [mbind result_bind]; [|done].
    intros [= <-]. by eexists.
Qed.
Definition signed (w : AbsWallet) (e : AccountEntry) (data : bytes) (r : SigningResult) : Prop :=
  signWithSeed (seed_of w) (ac_index e) (ac_chain e) data = Ok r ∧
  account_key (seed_of w) (ac_chain e) (ac_index e) = Ok (ac_address e, bytes_hex (sr_publicKey r)).
Lemma signed_ok b a id w index e data r : binv b a → av_wallets a !! id = Some w → account_at w index e →
  of_throw (signWithSeed (seed_of w) index (ac_chain e) data) = Some (Ok r) → signed w e data r.
Proof.
  intros Hb Hw [Hi He]. destruct (wo_accounts _ _ (ao_wallets a (bi_abs _ _ Hb) id w Hw) _ e He) as [Hk [pub Hpub]].
  rewrite Z2Nat.id in Hk by lia. subst index. destruct (signWithSeed _ _ _ _) as [r'|] eqn:E; [|done]. intros [= ->].
  split; [done|]. destruct (signing_key _ _ _ _ _ E) as [address Ha]. rewrite Hpub in Ha |- *. by injection Ha as _ ->.
Qed.
Lemma sign_spec' i id index data b a : binv b a →
  kpost (sign passphrase i id index data) b (λ b' r, b' = b ∧
    ((∃ w e, av_wallets a !! id = Some w ∧ account_at w index e ∧
        r = of_throw (signWithSeed (seed_of w) index (ac_chain e) data)) ∨
     ((∃ err, r = Some (Err err)) ∧
      ∀ w e, av_wallets a !! id = Some w → account_at w index e → failing i ∨ ¬ in_memory b id))).
Proof.
  intros Hb. apply kpost_bind. eapply getSeed_spec; [done| |].
  - intros w Hw. cbn [snd]. eapply resolveAndSign_spec; [done..| |].
    + intros e He. split; [done|]. left. by exists w, e.
    + intros err _ Hno. split; [done|]. right. split; [by eexists|]. intros w' e' Hw' He'. simplify_eq.
      right. by eapply Hno.
  - intros e He. split; [done|]. right. split; [by eexists|]. intros w e' Hw _. left. apply He. by eexists.
Qed.
Lemma token_cases a token : (∃ id k, av_keys a !! id = Some k ∧ ak_token k = token) ∨
  ∀ id k, av_keys a !! id = Some k → ak_token k ≠ token.
Proof.
  destruct (map_choose_or_empty (filter (λ kv, ak_token kv.2 = token) (av_keys a))) as [(id & k & Hk)|He].
  - left. apply map_lookup_filter_Some in Hk as [? ?]. by exists id, k.
  - right. intros id k Hk Ht. pose proof (map_lookup_filter_Some_2 (λ kv, ak_token kv.2 = token) _ _ _ Hk Ht) as Hf.
    by rewrite He in Hf.
Qed.
Lemma signWithApiKey_spec' i token index data b a : binv b a →
  kpost (signWithApiKey i token index data) b (λ b' r, b' = b ∧
    ((∃ kid k w e, av_keys a !! kid = Some k ∧ ak_token k = token ∧ av_wallets a !! ak_walletId k = Some w ∧
        account_at w index e ∧ r = of_throw (signWithSeed (seed_of w) index (ac_chain e) data)) ∨
     ((∃ err, r = Some (Err err)) ∧
      ∀ kid k w e, av_keys a !! kid = Some k → ak_token k = token → av_wallets a !! ak_walletId k = Some w →
        account_at w index e → failing i ∨ ¬ in_memory b (ak_walletId k)))).
Proof.
  intros Hb. apply kpost_bind. eapply kpost_read; [apply (vc_readApiKey i token _ a), Hb| |].
  2: { intros e He. split; [done|]. right. split; [by eexists|]. by left. }
  intros r [Hyes Hno]. destruct (token_cases a token) as [(kid & k & Hk & Ht)|Hnone].
  2: { destruct (Hno Hnone) as [e ->]. split; [done|]. right. split; [by eexists|]. intros kid k w e' Hk Ht. by destruct (Hnone kid k). }
  rewrite (Hyes kid k Hk Ht). destruct (av_wallets a !! ak_walletId k) as [w|] eqn:Hw.
  - rewrite (ao_keys a (bi_abs _ _ Hb) kid k w Hk Hw). eapply resolveAndSign_spec; [done..| |].
    + intros e He. split; [done|]. left. by exists kid, k, w, e.
    + intros err _ Hn. split; [done|]. right. split; [by eexists|]. intros kid' k' w' e' Hk' Ht' Hw' He'. right.
      assert (kid' = kid) as -> by (eapply (ao_tokens a (bi_abs _ _ Hb)); [done..|congruence]). simplify_eq. by eapply Hn.
  - unfold kpost. destruct (resolveAndSign_unknown _ (mnemonicToSeed (ak_mnemonic k) None) index data b a Hb Hw) as (err & -> & _).
    split; [done|]. right. split; [by eexists|]. intros kid' k' w' e' Hk' Ht' Hw' He'.
    assert (kid' = kid) as -> by (eapply (ao_tokens a (bi_abs _ _ Hb)); [done..|congruence]). congruence.
Qed.

(** *** API keys *)
Lemma new_key_inv s b a kid walletId w token : binv b a → av_wallets a !! walletId = Some w → token_fresh kid token a →
  R s (set_keys <[kid := mkAbsKey walletId (aw_mnemonic w) token]> a) →
  binv (mkBackend s (kb_states b)) (set_keys <[kid := mkAbsKey walletId (aw_mnemonic w) token]> a).
Proof.
  intros [H1 [H2 H3 H4] H5] Hw Hf Hs. split; cbn; [done| |done]. split; cbn; [done| |].
  - intros j k w' [[<- <-]|[? Hj]]%lookup_insert_Some Hw'; [cbn in *; congruence|by eapply H3].
  - intros j1 j2 k1 k2 [[<- <-]|[? E1]]%lookup_insert_Some [[<- <-]|[? E2]]%lookup_insert_Some Ht; cbn in Ht.
    + done.
    + symmetry. by eapply (Hf j2 k2).
    + by eapply (Hf j1 k1).
    + by eapply H4.
Qed.
Lemma createApiKey_spec' i random walletId kid expiresAt b a : binv b a → kid ≠ "" →
  token_fresh kid (generateToken random) a → whole (i 1%nat) →
  kpost (createApiKey passphrase i random walletId kid expiresAt) b (λ b' r,
    (∃ w, av_wallets a !! walletId = Some w ∧
       r = Some (Ok (mkApiKeyInfo kid walletId (generateToken random) expiresAt)) ∧
       binv b' (set_keys <[kid := mkAbsKey walletId (aw_mnemonic w) (generateToken random)]> a)) ∨
    (unanswered r ∧ refused a walletId (any_failing i) ∧
       (binv b' a ∨ ∃ w, av_wallets a !! walletId = Some w ∧ ¬ cleanly (i 1%nat) ∧
          binv b' (set_keys <[kid := mkAbsKey walletId (aw_mnemonic w) (generateToken random)]> a)))).
Proof.
  intros Hb Hne Hf Hi. apply kpost_bind.
  eapply (kpost_read (i 0%nat)); [apply (vc_readWallet (i 0%nat) walletId passphrase _ a), Hb| |].
  2: { intros e He. right. split_and!; [no_answer| |by left]. intros _. by exists 0%nat. }
  intros r. destruct (av_wallets a !! walletId) as [w|] eqn:Hw; cbn [found].
  2: { intros (e & -> & _). right. split_and!; [no_answer| |by left]. intros [w' ?]. congruence. }
  pose proof (ao_wallets a (bi_abs _ _ Hb) walletId w Hw) as [W1 W2 W3 _].
  rewrite decide_True by done. intros ->. apply kpost_bind.
  eapply (kpost_writes (i 1%nat));
    [apply (vc_createApiKey (i 1%nat) kid walletId (aw_mnemonic w) (generateToken random) expiresAt _ a (bi_vault _ _ Hb) Hne);
       [by apply payload_plain|done..]| | |].
  - intros s r Hs ->. left. exists w. split_and!; [done..|]. by apply new_key_inv.
  - intros s e Hio Hs. right. split_and!; [no_answer|intros _; by exists 1%nat|left]. destruct Hb. by split.
  - intros s e Hio Hc Hs. right. split_and!; [no_answer|intros _; by exists 1%nat|right]. exists w. split_and!; [done..|]. by apply new_key_inv.
Qed.
Lemma revokeApiKey_spec' i kid b a : binv b a →
  kpost (revokeApiKey i kid) b (λ b' r,
    (binv b' (set_keys (delete kid) a) ∧ (r = Some (Ok tt) ↔ is_Some (av_keys a !! kid))) ∨
    (unanswered r ∧ binv b' a ∧ failing i)).
Proof.
  intros [H1 H2 H3]. eapply kpost_write; [apply (vc_revokeApiKey i kid _ a H1)| |].
  2: { intros s r Hio Hs Hr%failed_unanswered. by right. }
  intros s r Hs Hr. left. split.
  - destruct H2 as [H2 H4 H5]. split; cbn; [done| |done]. split; cbn; [done| |].
    + intros j k w [_ Hj]%lookup_delete_Some. by eapply H4.
    + intros j1 j2 k1 k2 [_ E1]%lookup_delete_Some [_ E2]%lookup_delete_Some. by eapply H5.
  - destruct (av_keys a !! kid); cbn [found] in Hr; [rewrite Hr; split; [by eexists|done]|].
    destruct Hr as (e & -> & _). split; [done|by intros []].
Qed.

(** *** Histories

    A fresh wallet id or token is one the vault does not know.  No write is cut
    short; and the update of a derivation that throws has changed nothing: were
    only its mode not set, the vault would have an account that the memory does
    not. *)
Inductive backend_step b : Backend → Prop :=
  | bs_createWallet i uuid entropy now label : (∀ a, R (kb_vault b) a → wallet_fresh uuid a) → plain_text uuid = true → whole i →
      backend_step b (createWallet passphrase i uuid entropy now label b).1
  | bs_deleteWallet i id : backend_step b (deleteWallet i id b).1
  | bs_deriveAccount i id chain : cleanly (i 3%nat) → backend_step b (deriveAccount passphrase i id chain b).1
  | bs_listAccounts i id : backend_step b (listAccounts passphrase i id b).1
  | bs_getXmtpIdentityKey i id index : backend_step b (getXmtpIdentityKey passphrase i id index b).1
  | bs_sign i id index data : backend_step b (sign passphrase i id index data b).1
  | bs_createApiKey i random id kid expiresAt : kid ≠ "" →
      (∀ a, R (kb_vault b) a → token_fresh kid (generateToken random) a) → whole (i 1%nat) →
      backend_step b (createApiKey passphrase i random id kid expiresAt b).1
  | bs_revokeApiKey i kid : backend_step b (revokeApiKey i kid b).1
  | bs_signWithApiKey i token index data : backend_step b (signWithApiKey i token index data b).1
  | bs_restart : backend_step b (restart b).
Lemma kpost_inv {A} (m : KOp A) b (Q : _ → _ → Prop) : kpost m b Q → (∀ b' r, Q b' r → ∃ a, binv b' a) →
  ∃ a, binv (m b).1 a.
Proof. intros H HP. by eapply HP. Qed.
Lemma backend_step_inv b b' a : backend_step b b' → binv b a → ∃ a', binv b' a'.
Proof.
  intros [i uuid entropy now label Hf Hp Hi|i id|i id chain Hi|i id|i id index|i id index data|i random id kid ex Hk Ht Hi|i kid
         |i token index data|] Hb.
  - apply (createWallet_inv i uuid entropy now label _ a Hb); [apply Hf, Hb|done..].
  - eapply kpost_inv; [by apply deleteWallet_spec'|]. intros b2 r [[? _]|(_ & ? & _)]; eauto.
  - eapply kpost_inv; [by apply deriveAccount_spec'|]. intros b2 r [(w & info & _ & _ & _ & ? & _)|(_ & ? & _)]; eauto.
  - eapply kpost_inv; [by apply listAccounts_spec'|]. intros b2 r [? _]; eauto.
  - eapply kpost_inv; [by apply getXmtpIdentityKey_inv|]. intros b2 r ?; by exists a.
  - eapply kpost_inv; [by apply sign_spec'|]. intros b2 r [-> _]; eauto.
  - eapply kpost_inv; [apply (createApiKey_spec' i random id kid ex _ a Hb Hk); [apply Ht, Hb|done]|].
    intros b2 r [(w & _ & _ & ?)|(_ & _ & [?|(w & _ & _ & ?)])]; eauto.
  - eapply kpost_inv; [by apply revokeApiKey_spec'|]. intros b2 r [[? _]|(_ & ? & _)]; eauto.
  - eapply kpost_inv; [by apply signWithApiKey_spec'|]. intros b2 r [-> _]; eauto.
  - exists a. destruct Hb. by split.
Qed.
(** A backend over a vault that was empty at first. *)
Definition reachable b : Prop := ∃ s, R s (mkAbs ∅ ∅ ∅) ∧ rtc backend_step (mkBackend s []) b.
Lemma backend_reachable_inv b : reachable b → ∃ a, binv b a.
Proof.
  intros (s & Hs & Hr). assert (∃ a, binv (mkBackend s []) a) as Hinv.
  { eexists. split; [done| |done]. split; cbn; intros *; by rewrite lookup_empty. }
  clear Hs. induction Hr as [|b1 b2 b3 Hstep _ IH]; [done|]. apply IH. destruct Hinv as [a Ha]. by eapply backend_step_inv.
Qed.
Definition answered {A} (m : KOp (S := S) A) b (x : A) : Prop := (m b).2 = Some (Ok x).
Definition calm (i : nat → VaultInput) : Prop := ∀ n, in_io (i n) = None.
Lemma calm_not_failing i : calm i → ¬ any_failing i.
Proof. intros Hc [n [x Hx]]. by rewrite Hc in Hx. Qed.
Lemma calm_clean i n : calm i → cleanly (i n).
Proof. intros Hc f. by rewrite Hc. Qed.

(** after any history of operations and restarts, over either vault, the
    accounts of every wallet are numbered from zero without gaps, each with
    the address of the key derived from the wallet's mnemonic at its number;
    unless the file system throws, listing shows exactly these accounts with
    their public keys, and deriving appends the next number to them, in
    memory and in the vault. *)
Theorem accounts_numbered b : reachable b → ∃ a, R (kb_vault b) a ∧
  ∀ id w, av_wallets a !! id = Some w →
    accounts_ok (seed_of w) (aw_accounts w) ∧
    ∀ i, calm i →
      (∃ infos, answered (listAccounts passphrase i id) b infos ∧ listed w infos) ∧
      ∀ chain, ¬ underivable w chain → ∃ info, answered (deriveAccount passphrase i id chain) b info ∧
        derived_account w chain info ∧
        ∃ st, R (kb_vault (deriveAccount passphrase i id chain b).1) (with_account id w info a) ∧
          om_get id (kb_states (deriveAccount passphrase i id chain b).1) = Some st ∧
          ws_accounts st = aw_accounts w ++ [entry_of info].
Proof.
  intros [a Hb]%backend_reachable_inv. exists a. split; [apply Hb|]. intros id w Hw.
  split; [apply (wo_accounts _ _ (ao_wallets a (bi_abs _ _ Hb) id w Hw))|]. intros i Hcalm. pose proof (calm_not_failing i Hcalm) as Hi. split.
  - destruct (listAccounts_spec' i id b a Hb) as [_ [(w' & infos & Hw' & Hr & Hl)|[_ Hio]]].
    + simplify_eq. by exists infos.
    + destruct Hi. apply Hio. by eexists.
  - intros chain Hd. destruct (deriveAccount_spec' i id chain b a Hb (calm_clean i 3 Hcalm)) as [(w' & info & Hw' & Hr & Hinfo & Hb' & st & Hst)|(_ & _ & Hf)].
    2: { by destruct (Hf w Hw). }
    simplify_eq. exists info. split_and!; [done..|]. exists st. split_and!; [apply Hb'|done|].
    destruct (bi_states _ _ Hb' id st Hst) as (w2 & Hw2 & -> & _). cbn in Hw2. rewrite lookup_alter_eq, Hw in Hw2.
    by injection Hw2 as <-.
Qed.

(** whatever happened before, a signature is made only for an account of
    a wallet in the vault, with the key that has the account's recorded
    address and on the chain it is for; with an API key's token only for the
    wallet of a key that is in the vault, and with the mnemonic of that
    wallet; and once a key is revoked, its token signs nothing. *)
Theorem signatures_by_account b : reachable b → ∃ a, R (kb_vault b) a ∧
  (∀ i id index data r, answered (sign passphrase i id index data) b r →
     ∃ w e, av_wallets a !! id = Some w ∧ account_at w index e ∧ signed w e data r) ∧
  (∀ i token index data r, answered (signWithApiKey i token index data) b r →
     ∃ kid k w e, av_keys a !! kid = Some k ∧ ak_token k = token ∧ av_wallets a !! ak_walletId k = Some w ∧
       account_at w index e ∧ signed w e data r) ∧
  (∀ i kid k i' index data r, av_keys a !! kid = Some k → answered (revokeApiKey i kid) b tt →
     ¬ answered (signWithApiKey i' (ak_token k) index data) (revokeApiKey i kid b).1 r).
Proof.
  intros [a Hb]%backend_reachable_inv. exists a. split; [apply Hb|]. split_and!.
  - intros i id index data r Hr. destruct (sign_spec' i id index data b a Hb) as [_ [(w & e & Hw & He & Hs)|[[err Hs] _]]].
    2: { by rewrite Hr in Hs. }
    exists w, e. split_and!; [done..|]. eapply signed_ok; [done..|]. by rewrite <- Hs.
  - intros i token index data r Hr.
    destruct (signWithApiKey_spec' i token index data b a Hb) as [_ [(kid & k & w & e & Hk & Ht & Hw & He & Hs)|[[err Hs] _]]].
    2: { by rewrite Hr in Hs. }
    exists kid, k, w, e. split_and!; [done..|]. eapply signed_ok; [done..|]. by rewrite <- Hs.
  - intros i kid k i' index data r Hk Hrev Hr.
    destruct (revokeApiKey_spec' i kid b a Hb) as [[Hb' _]|([Hn|[e Hn]] & _)]; [|by rewrite Hrev in Hn..].
    destruct (signWithApiKey_spec' i' (ak_token k) index data _ _ Hb') as [_ [(j & kj & w & e & Hj & Ht & _)|[[err Hs] _]]].
    + cbn in Hj. apply lookup_delete_Some in Hj as [Hne Hj]. apply Hne. by eapply (ao_tokens a (bi_abs _ _ Hb)).
    + by rewrite Hr in Hs.
Qed.
End spec.

(** ** Witnesses *)
Lemma demo_texts : @TextLaws demo_vault.
Proof.
  split.
  - intros s _. apply String.string_of_list_byte_of_string.
  - intros m id Hm Hid. change (demo_parse (api_key_payload m id) = Some (JObj [("mnemonic", JStr m); ("walletId", JStr id)])).
    unfold demo_parse, api_key_payload. cbn [print map str_join]. unfold json_quote.
    rewrite (plain_escapes m), (plain_escapes id) by done.
    assert (∀ s, plain_text s = true → str_without dquote s = true) as Hq.
    { intros s. apply str_forallb_impl. intros c Hc. apply negb_true_iff, bool_decide_eq_false. by intros ->. }
    apply Hq in Hm, Hid. repeat (rewrite ?str_cons_app, ?str_nil_app, ?str_app_assoc).
    set (rest := String "," _). set (pick := λ l : list string, match l with
      | [_; _; _; m; _; _; _; id; _] => Some (JObj [("mnemonic", JStr m); ("walletId", JStr id)]) | _ => None end).
    change (pick ("{" :: "mnemonic" :: ":" :: str_split dquote (m +:+ String dquote rest)) =
      Some (JObj [("mnemonic", JStr m); ("walletId", JStr id)])).
    rewrite str_split_app by done. unfold rest.
    change (pick ("{" :: "mnemonic" :: ":" :: m :: "," :: "walletId" :: ":" :: str_split dquote (id +:+ String dquote "}")) =
      Some (JObj [("mnemonic", JStr m); ("walletId", JStr id)])).
    by rewrite str_split_app by done.
Qed.
Definition demo_backend : Backend := mkBackend (mkMemory [] [] [] []) [].
Definition demo_created : Backend (S := MemoryVault) :=
  (@createWallet demo_vault _ (@memory_vault demo_vault) "pass" demo_input "w1" (map to_byte (seq 7 32)) "2024" "main" demo_backend).1.
Lemma demo_created_reachable : @reachable demo_vault _ (@memory_vault demo_vault) (@memory_rel demo_vault) "pass" demo_created.
Proof.
  exists (mkMemory [] [] [] []). split; [apply empty_memory|]. apply rtc_once. apply bs_createWallet; [|done|done].
  intros a [_ Hw Hk _]. split.
  - by destruct (plain_lookup _ _ _ "w1" Hw) as [[_ H]|(x & y & H & _)].
  - intros id k Hid. by destruct (plain_lookup _ _ _ id Hk) as [[_ H]|(x & y & H & _)]; simplify_eq.
Qed.
Definition demo_inputs : nat → VaultInput := λ _, demo_input.
Lemma accounts_numbered_witness : ∃ a, @memory_rel demo_vault (kb_vault demo_created) a ∧
  ∀ id w, av_wallets a !! id = Some w → @accounts_ok demo_vault (@seed_of demo_vault w) (aw_accounts w) ∧
    ∃ infos, @answered MemoryVault (list AccountInfo) (@listAccounts demo_vault _ (@memory_vault demo_vault) "pass" demo_inputs id)
               demo_created infos ∧ @listed demo_vault w infos.
Proof.
  destruct (@accounts_numbered demo_vault demo_texts _ (@memory_vault demo_vault) (@memory_rel demo_vault)
    (@memory_contract demo_vault demo_vault_laws) "pass" demo_created demo_created_reachable) as (a & Ha & H).
  exists a. split; [exact Ha|]. intros id w Hw. destruct (H id w Hw) as [Hok Hops].
  split; [exact Hok|]. exact (proj1 (Hops demo_inputs (λ _, eq_refl))).
Defined.
(** With one account and a key. *)
Definition demo_account : Backend (S := MemoryVault) :=
  (@deriveAccount demo_vault _ (@memory_vault demo_vault) "pass" demo_inputs "w1" evm demo_created).1.
Definition demo_token_bytes : bytes := map to_byte (seq 1 32).
Definition demo_keyed : Backend (S := MemoryVault) :=
  (@createApiKey _ (@memory_vault demo_vault) "pass" demo_inputs demo_token_bytes "w1" "cred_1" "2025" demo_account).1.
Lemma demo_keyed_reachable : @reachable demo_vault _ (@memory_vault demo_vault) (@memory_rel demo_vault) "pass" demo_keyed.
Proof.
  destruct demo_created_reachable as (s & Hs & Hr). exists s. split; [done|].
  apply (rtc_r _ demo_account); [apply (rtc_r _ demo_created _ Hr); unfold demo_account; by apply bs_deriveAccount|].
  unfold demo_keyed. apply bs_createApiKey; [done| |done].
  intros a [_ _ Hk _] id k Hid. fold demo_account in Hk.
  assert (mv_apiKeys (kb_vault demo_account) = []) as E by by vm_compute. rewrite E in Hk. clear E.
  destruct (plain_lookup _ _ _ id Hk) as [[_ H]|(x & y & H & _)]; [by rewrite H in Hid|discriminate H].
Qed.
Lemma signatures_by_account_witness : ∃ a, @memory_rel demo_vault (kb_vault demo_keyed) a ∧
  ∃ r kid k w e,
    @answered MemoryVault SigningResult (@signWithApiKey demo_vault _ (@memory_vault demo_vault) demo_input
      (generateToken demo_token_bytes) 0 [Byte.x09]) demo_keyed r ∧
    av_keys a !! kid = Some k ∧ ak_token k = generateToken demo_token_bytes ∧
    av_wallets a !! ak_walletId k = Some w ∧ account_at w 0 e ∧ @signed demo_vault w e [Byte.x09] r.
Proof.
  destruct (@signatures_by_account demo_vault demo_texts _ (@memory_vault demo_vault) (@memory_rel demo_vault)
    (@memory_contract demo_vault demo_vault_laws) "pass" demo_keyed demo_keyed_reachable) as (a & Ha & _ & Htok & _).
  exists a. split; [exact Ha|].
  destruct ((@signWithApiKey demo_vault _ (@memory_vault demo_vault) demo_input
      (generateToken demo_token_bytes) 0 [Byte.x09]) demo_keyed).2 as [[r|e]|] eqn:E.
  - destruct (Htok demo_input (generateToken demo_token_bytes) 0 [Byte.x09] r E) as (kid & k & w & e & H).
    exists r, kid, k, w, e. split; [exact E|exact H].
  - exfalso. vm_compute in E. discriminate E.
  - exfalso. vm_compute in E. discriminate E.
Defined.

(** Two derivations that overlap take the same number, and the later write
    drops the other account from the vault. *)
Lemma overlapping_derivations_collide :
  let start chain := (@derive_start demo_vault _ (@memory_vault demo_vault) "pass" demo_inputs "w1" chain demo_created).2 in
  let finish d b := @derive_finish _ (@memory_vault demo_vault) demo_input "w1" d b in
  match start evm, start ed25519 with
  | Some (Ok d1), Some (Ok d2) =>
      match finish d1 demo_created with
      | (b1, Some (Ok i1)) =>
          match finish d2 b1 with
          | (b2, Some (Ok i2)) =>
              ai_index i1 = 0 ∧ ai_index i2 = 0 ∧ ai_address i1 ≠ ai_address i2 ∧
              mem_getWalletAccounts "w1" (kb_vault b2) = Some (Ok [entry_of i2])
          | _ => False
          end
      | _ => False
      end
  | _, _ => False
  end.
Proof. vm_compute. by split_and!. Qed.
(** A signature with the passphrase right after a restart is refused, though
    the account is there: only the derivation and listing of accounts load the
    state of a wallet. *)
Lemma sign_needs_loading :
  isOk (default (Err (InternalError_create "" None))
    (@sign demo_vault _ (@memory_vault demo_vault) "pass" demo_input "w1" 0 [] demo_account).2) = true ∧
  isOk (default (Err (InternalError_create "" None))
    (@sign demo_vault _ (@memory_vault demo_vault) "pass" demo_input "w1" 0 [] (restart demo_account)).2) = false.
Proof. split; by vm_compute. Qed.
