(* ===== verification/KeyManager.v ===== *)
(** * The key manager

    [keys/src/key-manager-compat.ts], with [biometric-gate.ts],
    [crypto-keys.ts] and [platform.ts]'s trust tiers: the surface through
    which the daemon uses keys.  Secrets live in the vault, with files of an
    older layout migrated when they are read; operational and credential keys
    live in memory.

    The seal stamper and the keys made on first use are programs that let
    anything else run at their awaits; the other operations are atomic.  A
    private key of WebCrypto is its bytes; what
    WebCrypto, the prompter and the file system answer is an argument, and
    [thrown] is the text of whatever WebCrypto throws.  Old files are taken to
    be ASCII. *)
From S2P Require Import Prelude Bytes JsDate Programs Text Json Errors Ids Base64 Jwt KeyDerivation Vault VaultSpec KeyBackend.
Local Open Scope Z_scope.

(** ** Operations with a state; [None]: the promise rejects *)
Definition Op (T A : Type) : Type := T → T * outcome A.
Definition oret {T A} (r : outcome A) : Op T A := λ t, (t, r).
Definition obind {T A B} (m : Op T A) (f : A → Op T B) : Op T B := λ t,
  match m t with
  | (t', Some (Ok x)) => f x t'
  | (t', Some (Err e)) => (t', Some (Err e))
  | (t', None) => (t', None)
  end.
Definition omod {T} (f : T → T) : Op T unit := λ t, (f t, Some (Ok tt)).

(** Programs: what is awaited only lets the rest of the system run.  [alone]:
    nothing else runs meanwhile. *)
Inductive yeff : Type → Type := YTick : yeff unit.
Definition tick_answer {A} (e : yeff A) : A := match e with YTick => tt end.
Fixpoint alone {T R} (p : prog T yeff R) (t : T) : T * R :=
  match p with
  | Ret r => (t, r)
  | Sync f k => alone (k (f t).2) (f t).1
  | Await e k => alone (k (tick_answer e)) t
  end.
(** At each await, the next of [others] runs. *)
Fixpoint meanwhile {T R} (others : list (T → T)) (p : prog T yeff R) (t : T) : T * R :=
  match p with
  | Ret r => (t, r)
  | Sync f k => meanwhile others (k (f t).2) (f t).1
  | Await e k => meanwhile (tail others) (k (tick_answer e)) (default id (head others) t)
  end.
(** A call that is awaited, and a step without one. *)
Definition awaited {T A} (f : T → T * A) : prog T yeff A := sync x <- f ;; await _ <- YTick ;; Ret x.
Definition looked {T A} (f : T → A) (t : T) : T * A := (t, f t).

(** ** Gated operations *)
Inductive GatedOperation :=
  rootKeyCreation | operationalKeyRotation | scopeExpansion | egressExpansion | agentCreation | adminReadElevation.
Definition operation_name (o : GatedOperation) : string :=
  match o with
  | rootKeyCreation => "rootKeyCreation" | operationalKeyRotation => "operationalKeyRotation"
  | scopeExpansion => "scopeExpansion" | egressExpansion => "egressExpansion"
  | agentCreation => "agentCreation" | adminReadElevation => "adminReadElevation"
  end.
(** What the prompter does; what is thrown, and whether it is an [Error]. *)
Inductive Prompt := pr_answer (r : res unit) | pr_throw (message : option string) (text : string).
Definition createBiometricGate (config : GatedOperation → bool) (operation : GatedOperation) (prompt : Prompt) : res unit :=
  if negb (config operation) then Ok tt
  else match prompt with
       | pr_answer r => r
       | pr_throw (Some message) text =>
           if str_includes "cancel" message
           then Err (CancelledError_create ("Biometric authentication cancelled for " +:+ operation_name operation))
           else Err (InternalError_create ("Biometric authentication failed for " +:+ operation_name operation)
                      (Some [("cause", JStr text)]))
       | pr_throw None text =>
           Err (InternalError_create ("Biometric authentication failed for " +:+ operation_name operation)
                  (Some [("cause", JStr text)]))
       end.

(** ** Trust tiers *)
Inductive PlatformCapability := secure_enclave | keychain_software | tpm | software_vault.
Inductive TrustTier := unverified | source_verified.
Definition platformToTrustTier (p : PlatformCapability) : TrustTier :=
  match p with software_vault => unverified | secure_enclave | keychain_software | tpm => source_verified end.

(** ** Old files: numbers in hexadecimal, read by [Number.parseInt] *)
Definition hex_val (c : ascii) : option nat :=
  let n := nat_of_ascii c in
  if ((48 <=? n) && (n <=? 57))%nat then Some (n - 48)%nat
  else if ((97 <=? n) && (n <=? 102))%nat then Some (n - 87)%nat
  else if ((65 <=? n) && (n <=? 70))%nat then Some (n - 55)%nat else None.
Definition space_char (c : ascii) : bool := bool_decide (nat_of_ascii c ∈ [9; 10; 11; 12; 13; 32]%nat).
(** Two characters as an element of a [Uint8Array]: [NaN] becomes 0. *)
Definition parse_pair (a b : ascii) : nat :=
  if space_char a || bool_decide (a = "+"%char) then default 0%nat (hex_val b)
  else if bool_decide (a = "-"%char) then ((256 - default 0 (hex_val b)) mod 256)%nat
  else match hex_val a with
       | None => 0%nat
       | Some x =>
           if bool_decide (a = "0"%char) && (bool_decide (b = "x"%char) || bool_decide (b = "X"%char)) then 0%nat
           else match hex_val b with Some y => (16 * x + y)%nat | None => x end
       end.
Fixpoint hexToBytes (hex : string) : option bytes :=
  match hex with
  | EmptyString => Some []
  | String a (String b hex) => l ← hexToBytes hex; Some (to_byte (parse_pair a b) :: l)
  | String _ EmptyString => None
  end.
Definition toBase64Url (data : bytes) : string := replaceAll "/" "_" (replaceAll "+" "-" (replaceAll "=" "" (btoa data))).

(** ** Keys of WebCrypto *)
Class KeyCrypto := {
  kc_vault :: VaultLib;
  kc_jwt :: JwtLib;
  kc_exportPublic : bytes → option bytes;
  kc_exportPrivate : bytes → option bytes;
  kc_importPrivate : bytes → option bytes
}.
Record OperationalKey := mkOperational {
  opk_keyId : string; opk_identityId : string; opk_groupId : option string; opk_publicKey : string;
  opk_fingerprint : string; opk_createdAt : string; opk_rotatedAt : option string
}.
Record CredentialKey := mkCredentialKey {
  ck_keyId : string; ck_credentialId : string; ck_fingerprint : string; ck_expiresAt : string; ck_createdAt : string
}.
Record RootKeyHandle := mkRoot {
  rk_keyRef : string; rk_publicKey : string; rk_policy : string; rk_platform : PlatformCapability; rk_createdAt : string
}.
Record AdminKeyInfo := mkAdminInfo { adm_publicKey : string; adm_fingerprint : string }.

Section manager.
Context {X : KeyCrypto} {D : JsDate} {S : Type} {Ops : VaultOps S} (thrown : string).
Definition from_webcrypto {A} (msg : string) (o : option A) : res A :=
  match o with Some a => Ok a | None => Err (InternalError_create msg (Some [("cause", JStr thrown)])) end.
Definition generateEd25519KeyPair (pair : option bytes) : res bytes :=
  from_webcrypto "Failed to generate Ed25519 key pair" pair.
Definition signEd25519 (privateKey data : bytes) : res bytes :=
  from_webcrypto "Ed25519 signing failed" (jl_sign privateKey data).
Definition exportPublicKey (key : bytes) : res bytes :=
  from_webcrypto "Failed to export public key" (kc_exportPublic key).
Definition exportPrivateKey (key : bytes) : res bytes :=
  from_webcrypto "Failed to export private key" (kc_exportPrivate key).
Definition importEd25519PrivateKey (pkcs8 : bytes) : res bytes :=
  from_webcrypto "Failed to import Ed25519 private key" (kc_importPrivate pkcs8).
Definition fingerprint (key : bytes) : res string :=
  exported ← exportPublicKey key; Ok (bytes_hex (kl_sha256 exported)).

(** ** The secret store over the vault and the old files

    [kv_legacy]: the old directory, if there is one; each file is its text. *)
Record KvStore := mkKv { kv_vault : S; kv_legacy : option (omap string string) }.
(** What the file system throws when an old file is read, and whether it
    refuses to remove one or the directory. *)
Record LegacyIo := mkLegacyIo { lio_read : option string; lio_unlink : bool; lio_rmdir : bool }.
Definition kv_with {A} (f : S → S * outcome A) : Op KvStore A := λ s,
  let '(v, r) := f (kv_vault s) in (mkKv v (kv_legacy s), r).
Definition legacy_file (key : string) (s : KvStore) : option string :=
  kv_legacy s ≫= om_get (vl_encodeURI key).
Definition readLegacyKvEntry (l : LegacyIo) (key : string) (s : KvStore) : res bytes :=
  let failed cause := Err (InternalError_create "Failed to read legacy compat vault entry"
                             (Some [("key", JStr key); ("cause", JStr cause)])) in
  match legacy_file key s with
  | None => Err (NotFoundError_create "kv-entry" key)
  | Some hex =>
      match lio_read l with
      | Some cause => failed cause
      | None => match hexToBytes hex with Some b => Ok b | None => failed "Invalid typed array length" end
      end
  end.
Definition removeLegacyKvEntry (l : LegacyIo) (key : string) (s : KvStore) : KvStore :=
  match kv_legacy s with
  | Some files =>
      if negb (om_has (vl_encodeURI key) files) || lio_unlink l then s
      else let files := om_delete (vl_encodeURI key) files in
           mkKv (kv_vault s) (match files with [] => if lio_rmdir l then Some files else None | _ => Some files end)
  | None => s
  end.
Definition is_not_found (e : SignetError) : bool := bool_decide (_tag e = NotFoundError).
Definition kv_get (i : nat → VaultInput) (l : LegacyIo) (key : string) : Op KvStore bytes := λ s,
  match v_get (i 0%nat) key (kv_vault s) with
  | Some (Err e) =>
      if negb (is_not_found e) then (s, Some (Err e))
      else match readLegacyKvEntry l key s with
           | Err e => (s, Some (Err e))
           | Ok legacy =>
               obind (kv_with (v_set (i 1%nat) key legacy)) (λ _,
               obind (omod (removeLegacyKvEntry l key)) (λ _, oret (Some (Ok legacy)))) s
           end
  | current => (s, current)
  end.
Definition kv_set (i : VaultInput) (l : LegacyIo) (key : string) (value : bytes) : Op KvStore unit :=
  obind (kv_with (v_set i key value)) (λ _, omod (removeLegacyKvEntry l key)).
Definition kv_delete (i : VaultInput) (l : LegacyIo) (key : string) : Op KvStore unit := λ s,
  let '(v, current) := v_delete i key (kv_vault s) in
  let s := mkKv v (kv_legacy s) in
  let hadLegacy := bool_decide (is_Some (legacy_file key s)) in
  let removed := if hadLegacy then removeLegacyKvEntry l key s else s in
  match current with
  | Some (Ok _) => (removed, current)
  | Some (Err e) => if is_not_found e && hadLegacy then (removed, Some (Ok tt)) else (s, current)
  | None => (s, None)
  end.
(** [None]: a file name is not a well-formed URI component. *)
Definition listLegacyKvEntries (s : KvStore) : option (list string) :=
  match kv_legacy s with Some files => mapM vl_decodeURI (vl_readdir files.*1) | None => Some [] end.
Definition kv_list (s : KvStore) : option (list string) :=
  legacy ← listLegacyKvEntries s; Some (js_set (v_list (kv_vault s) ++ legacy)).

(** ** The manager *)
Record OperationalKeyEntry := mkOpEntry { oe_key : OperationalKey; oe_privateKey : bytes }.
Record CredentialKeyEntry := mkCredEntry { ce_key : CredentialKey; ce_privateKey : bytes }.
Record KeyManagerConfig := mkConfig {
  cfg_rootKeyPolicy : string; cfg_gating : GatedOperation → bool; cfg_rotationIntervalSeconds : Z;
  cfg_platform : PlatformCapability
}.
Record KeyManager := mkManager {
  km_kv : KvStore; km_opKeys : omap string OperationalKeyEntry; km_groupIdIndex : omap string string;
  km_credentialKeys : omap string CredentialKeyEntry; km_rootKeyHandle : option RootKeyHandle;
  km_rotationTimer : bool; km_adminPublicKeyHex : option string; km_adminPrivateKey : option bytes;
  km_walletBackend : option (string * omap string WalletState)
}.
Context (config : KeyManagerConfig).
Definition createKeyManager (kv : KvStore) : KeyManager := mkManager kv [] [] [] None false None None None.
Definition on_kv {A} (m : Op KvStore A) : Op KeyManager A := λ s,
  let '(kv, r) := m (km_kv s) in
  (mkManager kv (km_opKeys s) (km_groupIdIndex s) (km_credentialKeys s) (km_rootKeyHandle s) (km_rotationTimer s)
     (km_adminPublicKeyHex s) (km_adminPrivateKey s) (km_walletBackend s), r).
Definition with_op (opKeys : omap string OperationalKeyEntry) (index : omap string string) (s : KeyManager) : KeyManager :=
  mkManager (km_kv s) opKeys index (km_credentialKeys s) (km_rootKeyHandle s) (km_rotationTimer s)
    (km_adminPublicKeyHex s) (km_adminPrivateKey s) (km_walletBackend s).
Definition with_credentials (f : omap string CredentialKeyEntry → omap string CredentialKeyEntry) (s : KeyManager) : KeyManager :=
  mkManager (km_kv s) (km_opKeys s) (km_groupIdIndex s) (f (km_credentialKeys s)) (km_rootKeyHandle s)
    (km_rotationTimer s) (km_adminPublicKeyHex s) (km_adminPrivateKey s) (km_walletBackend s).
Definition with_admin (publicKey : option string) (privateKey : option bytes) (s : KeyManager) : KeyManager :=
  mkManager (km_kv s) (km_opKeys s) (km_groupIdIndex s) (km_credentialKeys s) (km_rootKeyHandle s)
    (km_rotationTimer s) publicKey privateKey (km_walletBackend s).
Definition with_root (h : option RootKeyHandle) (s : KeyManager) : KeyManager :=
  mkManager (km_kv s) (km_opKeys s) (km_groupIdIndex s) (km_credentialKeys s) h
    (km_rotationTimer s) (km_adminPublicKeyHex s) (km_adminPrivateKey s) (km_walletBackend s).
Definition with_timer (t : bool) (s : KeyManager) : KeyManager :=
  mkManager (km_kv s) (km_opKeys s) (km_groupIdIndex s) (km_credentialKeys s) (km_rootKeyHandle s)
    t (km_adminPublicKeyHex s) (km_adminPrivateKey s) (km_walletBackend s).
Definition gate (operation : GatedOperation) (prompt : Prompt) : Op KeyManager unit :=
  oret (Some (createBiometricGate (cfg_gating config) operation prompt)).
Definition of_res {A} (r : res A) : Op KeyManager A := oret (Some r).

(** *** Wallets: the backend is made when it is first needed *)
Definition with_backend {A} (secret : res string) (k : string → KOp (S := S) A) : Op KeyManager A := λ s,
  let run passphrase states :=
    let '(b, r) := k passphrase (mkBackend (kv_vault (km_kv s)) states) in
    (mkManager (mkKv (KeyBackend.kb_vault b) (kv_legacy (km_kv s))) (km_opKeys s) (km_groupIdIndex s)
       (km_credentialKeys s) (km_rootKeyHandle s) (km_rotationTimer s) (km_adminPublicKeyHex s)
       (km_adminPrivateKey s) (Some (passphrase, kb_states b)), r) in
  match km_walletBackend s with
  | Some (passphrase, states) => run passphrase states
  | None => match secret with Ok passphrase => run passphrase [] | Err e => (s, Some (Err e)) end
  end.
Definition km_createWallet (secret : res string) (i : VaultInput) (uuid : string) (entropy : bytes) (now label : string) :=
  with_backend secret (λ p, createWallet p i uuid entropy now label).
Definition km_listWallets (secret : res string) (i : VaultInput) := with_backend secret (λ _, listWallets i).
Definition km_getWallet (secret : res string) (i : VaultInput) (walletId : string) :=
  with_backend secret (λ _, getWallet i walletId).
Definition km_listWalletAccounts (secret : res string) (i : nat → VaultInput) (walletId : string) :=
  with_backend secret (λ p, listAccounts p i walletId).

(** *** The administrator's key

    [None]: [hexToBytes] throws on the stored key. *)
Definition readAdminInfo (s : KeyManager) : outcome AdminKeyInfo :=
  match km_adminPublicKeyHex s with
  | None => missing "admin-key" "admin"
  | Some hex => b ← hexToBytes hex; Some (Ok (mkAdminInfo hex (bytes_hex (kl_sha256 b))))
  end.
Definition admin_exists (s : KeyManager) : bool := bool_decide (is_Some (km_adminPublicKeyHex s)).
Definition admin_create (i : nat → VaultInput) (l : LegacyIo) (prompt : Prompt) (pair : option bytes) : Op KeyManager AdminKeyInfo := λ s,
  if admin_exists s then (s, Some (Err (InternalError_create "Admin key already exists" None)))
  else
    obind (gate rootKeyCreation prompt) (λ _,
    obind (of_res (generateEd25519KeyPair pair)) (λ key,
    obind (of_res (exportPublicKey key)) (λ publicKey,
    obind (of_res (exportPrivateKey key)) (λ privateKey,
    obind (omod (with_admin (Some (bytes_hex publicKey)) (Some key))) (λ _,
    obind (on_kv (kv_set (i 0%nat) l "admin-key" privateKey)) (λ _,
    obind (on_kv (kv_set (i 1%nat) l "admin-key-pub" (utf8 (bytes_hex publicKey)))) (λ _ s,
    match readAdminInfo s with
    | Some (Err _) => (s, Some (Err (InternalError_create "Failed to read created admin key metadata" None)))
    | r => (s, r)
    end))))))) s.
Definition compat_part (v : json) : string := toBase64Url (utf8 (print (strip v))).
Definition admin_claims (publicKeyHex : option string) (nowMs ttlSeconds : Z) (nonce : bytes) : list (string * json) :=
  let now := nowMs / 1000 in
  [("iat", JNum now); ("exp", JNum (now + ttlSeconds)); ("sub", JStr "admin");
   ("iss", JStr (default "compat-admin" publicKeyHex)); ("jti", JStr (bytes_hex nonce))].
Definition admin_signJwt (nowMs ttlSeconds : Z) (nonce : bytes) (s : KeyManager) : res string :=
  match km_adminPrivateKey s with
  | None => Err (InternalError_create "Admin key not initialized" None)
  | Some key =>
      let message := compat_part JWT_HEADER +:+ "." +:+
        compat_part (JObj (admin_claims (km_adminPublicKeyHex s) nowMs ttlSeconds nonce)) in
      signature ← signEd25519 key (utf8 message);
      Ok (message +:+ "." +:+ toBase64Url signature)
  end.
Definition admin_verifyJwt (token : string) (nowMs : Z) (s : KeyManager) : outcome AdminJwtPayload :=
  match km_adminPublicKeyHex s with
  | None => Some (Err (InternalError_create "Admin key not initialized" None))
  | Some hex => b ← hexToBytes hex; verifyJwt token b None nowMs
  end.
Definition initialize (i : nat → VaultInput) (l : LegacyIo) (now : string) : Op KeyManager RootKeyHandle := λ s,
  match km_rootKeyHandle s with
  | Some h => (s, Some (Ok h))
  | None =>
      let finish := λ s,
        let h := mkRoot "root-compat" (default "compat-root" (km_adminPublicKeyHex s)) (cfg_rootKeyPolicy config)
                   (cfg_platform config) now in
        (with_root (Some h) s, Some (Ok h)) in
      let '(s, existingPublic) := on_kv (kv_get i l "admin-key-pub") s in
      match existingPublic with
      | None => (s, None)
      | Some public =>
          let s := match public with
                   | Ok b => with_admin (Some (vl_decodeUtf8 b)) (km_adminPrivateKey s) s
                   | Err _ => s
                   end in
          let '(s, existingPrivate) := on_kv (kv_get (λ n, i (n + 2)%nat) l "admin-key") s in
          match existingPrivate with
          | None => (s, None)
          | Some (Err _) => finish s
          | Some (Ok b) =>
              match importEd25519PrivateKey b with
              | Err e => (s, Some (Err e))
              | Ok key => finish (with_admin (km_adminPublicKeyHex s) (Some key) s)
              end
          end
      end
  end.

(** *** Operational keys; [pair] is the key pair generated *)
Definition createOperationalKeyRecord (pair : option bytes) (now identityId : string) (groupId : option string)
  : Op KeyManager OperationalKey :=
  obind (of_res (generateEd25519KeyPair pair)) (λ key,
  obind (of_res (exportPublicKey key)) (λ publicKey,
  obind (of_res (fingerprint key)) (λ fp,
  let operationalKey := mkOperational ("op-" +:+ str_take 16 fp) identityId groupId (bytes_hex publicKey) fp now None in
  obind (omod (λ s,
    with_op (om_set identityId (mkOpEntry operationalKey key) (km_opKeys s))
      (match groupId with Some g => om_set g identityId (km_groupIdIndex s) | None => km_groupIdIndex s end) s)) (λ _,
  oret (Some (Ok operationalKey)))))).
Definition no_operational {A} (id : string) : res A := Err (NotFoundError_create "operational-key" id).
Definition createOperationalKey (prompt : Prompt) (pair : option bytes) (now identityId : string) (groupId : option string) :=
  obind (gate agentCreation prompt) (λ _, createOperationalKeyRecord pair now identityId groupId).
Definition getOperationalKey (identityId : string) (s : KeyManager) : res OperationalKey :=
  match om_get identityId (km_opKeys s) with Some entry => Ok (oe_key entry) | None => no_operational identityId end.
Definition getOperationalKeyByGroupId (groupId : string) (s : KeyManager) : res OperationalKey :=
  match om_get groupId (km_groupIdIndex s) with
  | Some identityId => getOperationalKey identityId s
  | None => no_operational groupId
  end.
Definition rotateOperationalKey (prompt : Prompt) (pair : option bytes) (now identityId : string) : Op KeyManager OperationalKey := λ s,
  match om_get identityId (km_opKeys s) with
  | None => (s, Some (no_operational identityId))
  | Some existing =>
      obind (gate operationalKeyRotation prompt) (λ _,
        createOperationalKeyRecord pair now identityId (opk_groupId (oe_key existing))) s
  end.
Definition listOperationalKeys (s : KeyManager) : list OperationalKey := map oe_key (km_opKeys s).*2.
Definition signWithOperationalKey (identityId : string) (data : bytes) (s : KeyManager) : res bytes :=
  match om_get identityId (km_opKeys s) with
  | Some entry => signEd25519 (oe_privateKey entry) data
  | None => no_operational identityId
  end.
Definition startAutoRotation (s : KeyManager) : KeyManager :=
  if (cfg_rotationIntervalSeconds config <=? 0) || km_rotationTimer s then s else with_timer true s.
Definition stopAutoRotation (s : KeyManager) : KeyManager := with_timer false s.
(** One firing of the timer: every key in turn, failures ignored. *)
Definition rotate_all (prompts : string → Prompt) (pairs : string → option bytes) (now : string) (ids : list string)
  (s : KeyManager) : KeyManager :=
  foldl (λ s id, (rotateOperationalKey (prompts id) (pairs id) now id s).1) s ids.
Definition on_rotation_timer (prompts : string → Prompt) (pairs : string → option bytes) (now : string) (s : KeyManager)
  : KeyManager :=
  if km_rotationTimer s then rotate_all prompts pairs now (km_opKeys s).*1 s else s.

(** *** Credential keys *)
Definition issueCredentialKey (pair : option bytes) (nowMs : Z) (credentialId : string) (ttlSeconds : Z) : Op KeyManager CredentialKey :=
  obind (of_res (generateEd25519KeyPair pair)) (λ key,
  obind (of_res (fingerprint key)) (λ fp,
  match date_toISOString (nowMs + ttlSeconds * 1000), date_toISOString nowMs with
  | Some expiresAt, Some createdAt =>
      let credentialKey := mkCredentialKey ("credkey-" +:+ str_take 16 fp) credentialId fp expiresAt createdAt in
      obind (omod (with_credentials (om_set (ck_keyId credentialKey) (mkCredEntry credentialKey key)))) (λ _,
      oret (Some (Ok credentialKey)))
  | _, _ => oret None
  end)).
Definition revokeCredentialKey (keyId : string) (s : KeyManager) : KeyManager * res unit :=
  if om_has keyId (km_credentialKeys s) then (with_credentials (om_delete keyId) s, Ok tt)
  else (s, Err (NotFoundError_create "credential-key" keyId)).
Definition signWithCredentialKey (nowMs : Z) (keyId : string) (data : bytes) : Op KeyManager bytes := λ s,
  let absent := Some (Err (NotFoundError_create "credential-key" keyId)) in
  match om_get keyId (km_credentialKeys s) with
  | None => (s, absent)
  | Some entry =>
      if num_leb (date_getTime (ck_expiresAt (ce_key entry))) (Some nowMs)
      then (with_credentials (om_delete keyId) s, absent)
      else (s, Some (signEd25519 (ce_privateKey entry) data))
  end.

(** *** Secrets *)
(** [kv_get] and [kv_set] with their awaits, as [getOrCreate] calls them. *)
Definition on_vault_of {A} (f : S → S * outcome A) : KeyManager → KeyManager * outcome A := on_kv (kv_with f).
Definition kv_getting (i : nat → VaultInput) (l : LegacyIo) (key : string) : prog KeyManager yeff (outcome bytes) :=
  do current <- awaited (looked (λ s, v_get (i 0%nat) key (kv_vault (km_kv s)))) ;;
  match current with
  | Some (Err e) =>
      if negb (is_not_found e) then Ret current
      else sync legacy <- looked (λ s, readLegacyKvEntry l key (km_kv s)) ;;
           match legacy with
           | Err e => Ret (Some (Err e))
           | Ok legacy =>
               do migrated <- awaited (on_vault_of (v_set (i 1%nat) key legacy)) ;;
               match migrated with
               | Some (Ok _) => sync _ <- on_kv (omod (removeLegacyKvEntry l key)) ;; Ret (Some (Ok legacy))
               | Some (Err e) => Ret (Some (Err e))
               | None => Ret None
               end
           end
  | _ => Ret current
  end.
Definition kv_setting (i : VaultInput) (l : LegacyIo) (key : string) (value : bytes) : prog KeyManager yeff (outcome unit) :=
  do result <- awaited (on_vault_of (v_set i key value)) ;;
  match result with
  | Some (Ok _) => sync _ <- on_kv (omod (removeLegacyKvEntry l key)) ;; Ret result
  | _ => Ret result
  end.
Definition getOrCreate (i : nat → VaultInput) (l : LegacyIo) (random : bytes) (key : string) : prog KeyManager yeff (outcome bytes) :=
  do existing <- kv_getting i l key ;;
  match existing with
  | Some (Err e) =>
      if negb (is_not_found e) then Ret existing
      else do setResult <- kv_setting (i 2%nat) l key random ;;
           Ret (match setResult with Some (Ok _) => Some (Ok random) | Some (Err e) => Some (Err e) | None => None end)
  | _ => Ret existing
  end.
Definition getOrCreateDbKey (i : nat → VaultInput) (l : LegacyIo) (random : bytes) (identityId : string) : prog KeyManager yeff (outcome bytes) :=
  getOrCreate i l random ("db-key:" +:+ identityId).
Definition getOrCreateXmtpIdentityKey (i : nat → VaultInput) (l : LegacyIo) (random : bytes) (identityId : string)
  : prog KeyManager yeff (outcome string) :=
  do key <- getOrCreate i l random ("xmtp-identity-key:" +:+ identityId) ;;
  Ret (match key with Some (Ok b) => Some (Ok ("0x" +:+ bytes_hex b)) | Some (Err e) => Some (Err e) | None => None end).
Definition vaultSet (i : VaultInput) (l : LegacyIo) (name : string) (value : bytes) : Op KeyManager unit :=
  on_kv (kv_set i l name value).
Definition vaultGet (i : nat → VaultInput) (l : LegacyIo) (name : string) : Op KeyManager bytes := on_kv (kv_get i l name).
Definition vaultDelete (i : VaultInput) (l : LegacyIo) (name : string) : Op KeyManager unit := on_kv (kv_delete i l name).
Definition vaultList (s : KeyManager) : option (list string) := kv_list (km_kv s).

(** *** Signer and seal stamper of an identity *)
Definition signer_getPublicKey (identityId : string) (s : KeyManager) : outcome bytes :=
  match getOperationalKey identityId s with
  | Err e => Some (Err e)
  | Ok key => b ← hexToBytes (opk_publicKey key); Some (Ok b)
  end.
Definition signer_getFingerprint (identityId : string) (s : KeyManager) : res string :=
  key ← getOperationalKey identityId s; Ok (opk_fingerprint key).
(** Up to the signature, and from there on. *)
Definition stamp_bytes (payload : json) : bytes := utf8 (canonicalize payload).
Definition stamp_begin (identityId : string) (payload : json) (s : KeyManager) : res bytes :=
  signWithOperationalKey identityId (stamp_bytes payload) s.
Definition stamp_seal (identityId : string) (payload : json) (signature : bytes) (s : KeyManager) : res json :=
  key ← getOperationalKey identityId s;
  Ok (JObj [("chain", JObj [("current", payload);
                            ("delta", JObj [("added", JArr []); ("removed", JArr []); ("changed", JArr [])])]);
            ("signature", JStr (btoa signature)); ("keyId", JStr (opk_publicKey key)); ("algorithm", JStr "Ed25519")]).
Definition stamp_revocation (identityId : string) (payload : json) (signature : bytes) (s : KeyManager) : res json :=
  key ← getOperationalKey identityId s;
  Ok (JObj [("revocation", payload); ("signature", JStr (btoa signature)); ("signatureAlgorithm", JStr "Ed25519");
            ("signerKeyRef", JStr (opk_publicKey key))]).
Definition stamper (finish : bytes → KeyManager → res json) (identityId : string) (payload : json) : prog KeyManager yeff (res json) :=
  do signature <- awaited (looked (stamp_begin identityId payload)) ;;
  match signature with
  | Err e => Ret (Err e)
  | Ok signature => sync env <- looked (finish signature) ;; Ret env
  end.
Definition stamper_sign (identityId : string) (payload : json) : prog KeyManager yeff (res json) :=
  stamper (stamp_seal identityId payload) identityId payload.
Definition stamper_signRevocation (identityId : string) (payload : json) : prog KeyManager yeff (res json) :=
  stamper (stamp_revocation identityId payload) identityId payload.
End manager.

(** ** The store is a map *)
Section store.
Context {X : KeyCrypto} {Laws : VaultLaws} {S : Type} {Ops : VaultOps S} (R : S → AbsVault → Prop) {C : VaultContract S R}.
Implicit Types (s : KvStore (S := S)) (m lm : gmap string bytes).
Definition legacy_rel (legacy : option (omap string string)) lm : Prop :=
  mrel vl_encodeURI (λ _ hex v, hexToBytes hex = Some v) (default [] legacy) lm.
(** What the vault has comes before what an old file has. *)
Definition kv_rel s m : Prop := ∃ a lm, R (kv_vault s) a ∧ legacy_rel (kv_legacy s) lm ∧ m = av_secrets a ∪ lm.
#[local] Instance encodeURI_inj : Inj (=) (=) vl_encodeURI.
Proof. intros x y H%(f_equal vl_decodeURI). rewrite !law_uri in H. by injection H. Qed.
Lemma legacy_lookup legacy lm key v : legacy_rel (kv_legacy (mkKv v legacy)) lm →
  (legacy_file key (mkKv (S := S) v legacy) = None ∧ lm !! key = None) ∨
  (∃ hex b, legacy_file key (mkKv (S := S) v legacy) = Some hex ∧ lm !! key = Some b ∧ hexToBytes hex = Some b).
Proof.
  intros H. destruct (mrel_lookup _ _ _ _ key H) as [[H1 H2]|(hex & b & H1 & H2 & H3)].
  - left. split; [|done]. unfold legacy_file. cbn in *. by destruct legacy.
  - right. exists hex, b. split_and!; [|done..]. unfold legacy_file. cbn in *. by destruct legacy.
Qed.
(** Removing an old file: it is gone, or the file system refused. *)
Lemma removeLegacy_ok l key s lm : legacy_rel (kv_legacy s) lm →
  kv_vault (removeLegacyKvEntry l key s) = kv_vault s ∧
  ∃ lm', legacy_rel (kv_legacy (removeLegacyKvEntry l key s)) lm' ∧
    (lm' = delete key lm ∨ lio_unlink l = true ∧ lm' = lm).
Proof.
  intros H. assert (kv_vault (removeLegacyKvEntry l key s) = kv_vault s ∧
    (legacy_rel (kv_legacy (removeLegacyKvEntry l key s)) (delete key lm) ∨
     lio_unlink l = true ∧ legacy_rel (kv_legacy (removeLegacyKvEntry l key s)) lm)) as [Hv Hr].
  2: { split; [done|]. destruct Hr as [Hr|[Hu Hr]]; eexists; (split; [exact Hr|]); auto. }
  unfold removeLegacyKvEntry. destruct (kv_legacy s) as [files|] eqn:E.
  - pose proof (mrel_has vl_encodeURI _ files lm key H) as Hh.
    destruct (lio_unlink l) eqn:El.
    { rewrite orb_true_r, E. split; [done|]. by right. }
    rewrite orb_false_r, Hh. destruct (lm !! key) as [b|] eqn:Hk.
    + rewrite bool_decide_true by by eexists. cbn [negb].
      pose proof (mrel_delete vl_encodeURI _ files lm key H) as Hd. split; [done|left].
      destruct (om_delete _ files) as [|f fs]; [by destruct (lio_rmdir l)|done].
    + rewrite bool_decide_false by by intros []. cbn [negb]. split; [done|left]. by rewrite E, delete_id.
  - rewrite E. split; [done|left]. destruct (lm !! key) as [b|] eqn:Hk; [|by rewrite delete_id].
    destruct (mrel_lookup _ _ _ _ key H) as [[_ ?]|(? & ? & Hf & _)]; [congruence|done].
Qed.
Lemma is_not_found_category e : is_not_found e = bool_decide (category e = not_found).
Proof. unfold is_not_found, category. by destruct (_tag e). Qed.
Lemma union_insert_shadow a lm lm' key v : a !! key = None → lm !! key = Some v →
  lm' = lm ∨ lm' = delete key lm → <[key := v]> a ∪ lm' = a ∪ lm.
Proof.
  intros Ha Hl Hlm. apply map_eq. intros j. rewrite !lookup_union. destruct (decide (j = key)) as [->|Hj].
  - rewrite lookup_insert_eq, Ha, Hl. by destruct Hlm as [->| ->]; rewrite ?lookup_delete_eq, ?Hl.
  - rewrite lookup_insert_ne by done. by destruct Hlm as [->| ->]; rewrite ?lookup_delete_ne.
Qed.
Definition kv_calm (i : nat → VaultInput) (l : LegacyIo) : Prop := calm i ∧ lio_read l = None ∧ lio_unlink l = false.
Lemma kv_get_ok i l key s m : kv_rel s m → input_ok (i 1%nat) →
  kv_rel (kv_get i l key s).1 m ∧
  (found (m !! key) returns (kv_get i l key s).2 ∨ ¬ kv_calm i l ∧ unanswered (kv_get i l key s).2).
Proof.
  destruct s as [v legacy]. intros (a & lm & Ha & Hl & ->) Hi. unfold kv_get. cbn [kv_vault].
  assert (kv_rel (mkKv v legacy) (av_secrets a ∪ lm)) as Hs by by exists a, lm.
  destruct (vc_get (i 0%nat) key v a Ha) as [Hf|[Hio (e & -> & He)]].
  2: { rewrite is_not_found_category, bool_decide_false by by rewrite He. split; [done|right].
       split; [|no_answer]. intros [Hc _]. destruct Hio as [x Hx]. by rewrite Hc in Hx. }
  rewrite lookup_union. destruct (av_secrets a !! key) as [b|] eqn:Hk; cbn [found] in Hf.
  { rewrite Hf. split; [done|left]. cbn. by destruct (lm !! key). }
  destruct Hf as (e & -> & He). rewrite is_not_found_category, bool_decide_true by done. cbn [negb].
  unfold readLegacyKvEntry. destruct (legacy_lookup legacy lm key v Hl) as [[-> Hlm]|(hex & b & -> & Hlm & Hhex)]; rewrite Hlm.
  { split; [done|left]. by eexists. }
  destruct (lio_read l) as [cause|] eqn:El.
  { split; [done|right]. split; [|no_answer]. intros (_ & ? & _). congruence. }
  rewrite Hhex. unfold obind, kv_with. cbn [kv_vault kv_legacy].
  destruct (vc_set (i 1%nat) key b v a Ha Hi) as [[HR Hr]|(Hio & HR & e' & Hr & He')];
    destruct (v_set (i 1%nat) key b v) as [v' r]; cbn [fst snd] in *; unfold returns in Hr; subst r.
  - cbn [fst snd omod oret]. split; [|by left].
    destruct (removeLegacy_ok l key (mkKv v' legacy) lm Hl) as [Hv (lm' & Hrel & Hlm')].
    exists (set_secrets <[key:=b]> a), lm'. rewrite Hv. split_and!; [done..|]. symmetry.
    apply union_insert_shadow; [done..|]. destruct Hlm' as [->|[_ ->]]; auto.
  - assert (¬ kv_calm i l) as Hnc. { intros [Hc _]. destruct Hio as [x Hx]. by rewrite Hc in Hx. }
    split; [|right; split; [done|no_answer]]. destruct HR as [HR|[_ HR]]; [by exists a, lm|].
    exists (set_secrets <[key:=b]> a), lm. split_and!; [done..|]. symmetry. apply union_insert_shadow; auto.
Qed.
Lemma union_insert_over a lm lm' key v : lm' = lm ∨ lm' = delete key lm →
  <[key := v]> a ∪ lm' = <[key := v]> (a ∪ lm) :> gmap string bytes.
Proof.
  intros [->| ->]; rewrite <- insert_union_l; [done|]. apply map_eq. intros j. destruct (decide (j = key)) as [->|Hj].
  - by rewrite !lookup_insert_eq.
  - by rewrite !lookup_insert_ne, !lookup_union, lookup_delete_ne by done.
Qed.
Lemma kv_set_ok i l key value s m : kv_rel s m → input_ok i →
  (kv_rel (kv_set i l key value s).1 (<[key := value]> m) ∧ (kv_set i l key value s).2 = Some (Ok tt)) ∨
  (failing i ∧ (kv_rel (kv_set i l key value s).1 m ∨ ¬ cleanly i ∧ kv_rel (kv_set i l key value s).1 (<[key := value]> m)) ∧
   unanswered (kv_set i l key value s).2).
Proof.
  destruct s as [v legacy]. intros (a & lm & Ha & Hl & ->) Hi. unfold kv_set, obind, kv_with. cbn [kv_vault kv_legacy].
  destruct (vc_set i key value v a Ha Hi) as [[HR Hr]|(Hio & HR & e' & Hr & He')];
    destruct (v_set i key value v) as [v' r]; cbn [fst snd] in *; unfold returns in Hr; subst r.
  - cbn [fst snd omod]. left. split; [|done].
    destruct (removeLegacy_ok l key (mkKv v' legacy) lm Hl) as [Hv (lm' & Hrel & Hlm')].
    exists (set_secrets <[key:=value]> a), lm'. rewrite Hv. split_and!; [done..|].
    symmetry. apply union_insert_over. destruct Hlm' as [->|[_ ->]]; auto.
  - right. split_and!; [done| |no_answer]. destruct HR as [HR|[Hc HR]]; [left; by exists a, lm|right; split; [done|]].
    exists (set_secrets <[key:=value]> a), lm. split_and!; [done..|]. symmetry. apply union_insert_over. by left.
Qed.
Lemma kv_delete_ok i l key s m : kv_rel s m → lio_unlink l = false →
  (kv_rel (kv_delete i l key s).1 (delete key m) ∧ found (m !! key) (λ _, returns tt) (kv_delete i l key s).2) ∨
  (failing i ∧ kv_rel (kv_delete i l key s).1 m ∧ unanswered (kv_delete i l key s).2).
Proof.
  destruct s as [v legacy]. intros (a & lm & Ha & Hl & ->) Hu. unfold kv_delete. cbn [kv_vault kv_legacy].
  destruct (vc_delete i key v a Ha) as [[HR Hr]|(Hio & HR & Hr)]; destruct (v_delete i key v) as [v' r]; cbn [fst snd] in *.
  2: { assert (kv_rel (mkKv v' legacy) (av_secrets a ∪ lm)) as Hs' by by exists a, lm.
       right. destruct Hr as [->|(e & -> & He)]; [split_and!; done || no_answer|].
       rewrite is_not_found_category, bool_decide_false by by rewrite He. split_and!; done || no_answer. }
  left. destruct (removeLegacy_ok l key (mkKv v' legacy) lm Hl) as [Hv (lm' & Hrel & [->|[Hu' _]])]; [|congruence].
  assert (kv_rel (removeLegacyKvEntry l key (mkKv v' legacy)) (delete key (av_secrets a ∪ lm))) as Hremoved.
  { exists (set_secrets (delete key) a), (delete key lm). rewrite Hv. split_and!; [done..|]. apply delete_union. }
  assert (lm !! key = None → kv_rel (mkKv v' legacy) (delete key (av_secrets a ∪ lm))) as Hkept.
  { intros Hn. exists (set_secrets (delete key) a), lm. split_and!; [done..|]. cbn.
    rewrite delete_union. by rewrite (delete_id lm). }
  rewrite lookup_union.
  destruct (legacy_lookup legacy lm key v' Hl) as [[-> Hlm]|(hex & b & -> & Hlm & _)]; rewrite Hlm.
  - rewrite bool_decide_false by by intros []. assert (∀ o : option bytes, o ∪ None = o) as -> by by intros [].
    destruct (av_secrets a !! key); cbn [found] in Hr; [rewrite Hr; split; [by apply Hkept|done]|].
    destruct Hr as (e & -> & He). rewrite andb_false_r. split; [by apply Hkept|]. by exists e.
  - rewrite bool_decide_true by by eexists. destruct (av_secrets a !! key); cbn [found] in Hr.
    + rewrite Hr. by split.
    + destruct Hr as (e & -> & He). rewrite is_not_found_category, bool_decide_true by done. by split.
Qed.
Lemma elem_of_keys {A} (m : gmap string A) k : k ∈ (map_to_list m).*1 ↔ is_Some (m !! k).
Proof.
  rewrite list_elem_of_fmap. split.
  - intros ([k' x] & -> & H%elem_of_map_to_list). by eexists.
  - intros [x Hx]. exists (k, x). split; [done|]. by apply elem_of_map_to_list.
Qed.
Lemma mapM_decode ks : mapM vl_decodeURI (map vl_encodeURI ks) = Some ks.
Proof. induction ks as [|k ks IH]; [done|]. cbn [map mapM]. rewrite law_uri. cbn [mbind option_bind]. by rewrite IH. Qed.
Lemma legacy_names legacy lm : legacy_rel legacy lm → ∃ ks,
  match legacy with Some files => mapM vl_decodeURI (vl_readdir files.*1) | None => Some [] end = Some ks ∧
  ks ≡ₚ (map_to_list lm).*1.
Proof.
  intros Hl. destruct (mrel_list _ _ _ _ Hl) as (l & Hp & Hf).
  assert ((default [] legacy).*1 = map vl_encodeURI l.*1) as Hnames.
  { clear Hp Hl. induction Hf as [|[p x] [k v] f l [E _] _ IH]; [done|]. cbn in *. by rewrite E, IH. }
  destruct legacy as [files|]; cbn [default] in Hnames.
  - assert (vl_readdir files.*1 ≡ₚ map vl_encodeURI l.*1) as Hr by by rewrite law_readdir, <- Hnames.
    apply Permutation_map_inv in Hr as (ks & -> & Hks). rewrite mapM_decode. exists ks.
    split; [done|]. by rewrite <- Hks, Hp.
  - exists []. split; [done|]. inversion Hf; subst. by rewrite <- Hp.
Qed.
Lemma kv_list_ok s m : kv_rel s m → ∃ l, kv_list s = Some l ∧ l ≡ₚ (map_to_list m).*1.
Proof.
  intros (a & lm & Ha & Hl & ->). unfold kv_list. rewrite (vc_list (kv_vault s) a Ha).
  destruct (legacy_names (kv_legacy s) lm Hl) as (ks & Hks & Hp).
  change (listLegacyKvEntries s) with
    (match kv_legacy s with Some files => mapM vl_decodeURI (vl_readdir files.*1) | None => Some [] end).
  rewrite Hks. cbn [mbind option_bind]. eexists. split; [done|]. apply NoDup_Permutation.
  - apply NoDup_js_set.
  - apply NoDup_fst_map_to_list.
  - intros k. rewrite elem_of_js_set, elem_of_app, merge_sort_Permutation, Hp, !elem_of_keys, lookup_union.
    destruct (av_secrets a !! k), (lm !! k); cbn; split; intros; (by eexists) || (by destruct_or?; destruct_and?) || naive_solver.
Qed.

(** *** The keys that are made once *)
Lemma alone_bind {T A B} (p : prog T yeff A) (f : A → prog T yeff B) t : alone (bind p f) t = alone (f (alone p t).2) (alone p t).1.
Proof. revert t. induction p as [a|Y e k IH|Y g k IH]; intros t; cbn; [done|apply IH..]. Qed.
Lemma kv_getting_alone i l key (s : KeyManager (S := S)) : alone (kv_getting i l key) s = on_kv (kv_get i l key) s.
Proof.
  unfold kv_getting, on_kv, kv_get. rewrite alone_bind. cbn [awaited alone looked fst snd].
  destruct (v_get (i 0%nat) key (kv_vault (km_kv s))) as [[b|e]|]; [by destruct s| |by destruct s].
  destruct (negb _); [by destruct s|]. cbn [alone looked fst snd].
  destruct (readLegacyKvEntry l key (km_kv s)) as [b|e']; [|by destruct s].
  rewrite alone_bind. cbn [awaited alone fst snd on_vault_of]. unfold on_vault_of, on_kv, obind, kv_with, omod, oret.
  destruct (v_set (i 1%nat) key b (kv_vault (km_kv s))) as [v [[[]|e']|]]; done.
Qed.
Lemma kv_setting_alone i l key value (s : KeyManager (S := S)) : alone (kv_setting i l key value) s = on_kv (kv_set i l key value) s.
Proof.
  unfold kv_setting, on_kv, kv_set. rewrite alone_bind. cbn [awaited alone fst snd]. unfold on_vault_of, on_kv, obind, kv_with, omod.
  destruct (v_set i key value (kv_vault (km_kv s))) as [v [[[]|e']|]]; done.
Qed.
(** The vault has the entry, wherever else it may be. *)
Definition vault_has (key : string) (v : bytes) (s : KeyManager (S := S)) : Prop :=
  ∃ a, R (kv_vault (km_kv s)) a ∧ av_secrets a !! key = Some v.
Lemma removeLegacy_vault l key (kv : KvStore (S := S)) : kv_vault (removeLegacyKvEntry l key kv) = kv_vault kv.
Proof. unfold removeLegacyKvEntry. destruct (kv_legacy kv); [|done]. by destruct (negb _ || _). Qed.
Lemma kv_get_vault i l key s m v : kv_rel s m → input_ok (i 1%nat) → (kv_get i l key s).2 = Some (Ok v) →
  ∃ a, R (kv_vault (kv_get i l key s).1) a ∧ av_secrets a !! key = Some v.
Proof.
  intros (a & lm & Ha & _ & _) Hi. unfold kv_get. destruct (vc_get (i 0%nat) key (kv_vault s) a Ha) as [Hf|[Hio (e & -> & He)]].
  2: { rewrite is_not_found_category, bool_decide_false; [done|by rewrite He]. }
  destruct (av_secrets a !! key) as [b|] eqn:Hk; cbn [found] in Hf.
  { unfold returns in Hf. rewrite !Hf. cbn. intros [= <-]. by exists a. }
  destruct Hf as (e & -> & He). destruct (negb _); [done|]. destruct (readLegacyKvEntry l key s) as [b|]; [|done].
  unfold obind, kv_with, omod, oret. destruct (vc_set (i 1%nat) key b _ a Ha Hi) as [[HR Hr]|(_ & _ & e' & Hr & _)];
    destruct (v_set (i 1%nat) key b (kv_vault s)) as [v' r]; cbn [fst snd] in *; unfold returns in *; subst r; cbn [fst snd]; [|done].
  intros [= <-]. rewrite removeLegacy_vault. eexists. split; [exact HR|]. cbn. by rewrite lookup_insert_eq.
Qed.
Lemma kv_set_vault i l key v s m : kv_rel s m → input_ok i → (kv_set i l key v s).2 = Some (Ok tt) →
  ∃ a, R (kv_vault (kv_set i l key v s).1) a ∧ av_secrets a !! key = Some v.
Proof.
  intros (a & lm & Ha & _ & _) Hi. unfold kv_set, obind, kv_with, omod.
  destruct (vc_set i key v _ a Ha Hi) as [[HR Hr]|(_ & _ & e' & Hr & _)];
    destruct (v_set i key v (kv_vault s)) as [v' r]; cbn [fst snd] in *; unfold returns in *; subst r; cbn [fst snd]; [|done].
  intros _. rewrite removeLegacy_vault. eexists. split; [exact HR|]. cbn. by rewrite lookup_insert_eq.
Qed.
(** Once the vault has a key, using it gives that key, whatever runs at the
    awaits and leaves the entry alone. *)
Lemma getOrCreate_stable env i l random key v (s : KeyManager (S := S)) :
  (∀ w w' : KeyManager (S := S), env w w' → vault_has key v w → vault_has key v w') → vault_has key v s →
  wp env (getOrCreate i l random key) s [] (λ _ mgr r, vault_has key v mgr ∧
    (r = Some (Ok v) ∨ failing (i 0%nat) ∧ ∃ e, r = Some (Err e))).
Proof.
  intros Henv Hs. unfold getOrCreate, kv_getting. apply wp_bind, wp_bind. cbn [awaited wp looked fst snd]. intros w [] Hw.
  apply (Henv _ _ Hw) in Hs as Hs'. destruct Hs as (a & Ha & Hk).
  destruct (vc_get (i 0%nat) key _ a Ha) as [Hf|[Hio (e & -> & He)]].
  - rewrite Hk in Hf. cbn [found] in Hf. unfold returns in Hf. rewrite Hf. cbn [wp]. split; [done|by left].
  - assert (negb (is_not_found e) = true) as Hn
      by (rewrite is_not_found_category, bool_decide_false; [done|by rewrite He]).
    rewrite Hn. cbn [wp]. rewrite Hn. cbn [wp]. split; [done|right; split; [done|by eexists]].
Qed.
Lemma getOrCreate_ok i l random key (s : KeyManager (S := S)) m : kv_rel (km_kv s) m → (∀ n, input_ok (i n)) → kv_calm i l →
  let value := default random (m !! key) in let x := alone (getOrCreate i l random key) s in
  kv_rel (km_kv x.1) (<[key := value]> m) ∧ vault_has key value x.1 ∧ x.2 = Some (Ok value).
Proof.
  intros Hs Hi Hc. unfold getOrCreate. cbv zeta. rewrite alone_bind, kv_getting_alone. unfold on_kv.
  destruct (kv_get_ok i l key _ m Hs (Hi 1%nat)) as [Hs' [Hf|[Hn _]]]; [|done].
  pose proof (λ v, kv_get_vault i l key _ m v Hs (Hi 1%nat)) as Hv.
  destruct (kv_get i l key (km_kv s)) as [kv r]. cbn [fst snd] in *. destruct (m !! key) as [v|] eqn:Hk; cbn [found default] in *.
  { rewrite Hf in *. destruct (Hv v eq_refl) as (a & ? & ?). cbn. split_and!; [by rewrite insert_id|by exists a|done]. }
  destruct Hf as (e & -> & He). rewrite is_not_found_category, bool_decide_true by done. cbn [negb].
  rewrite alone_bind, kv_setting_alone. unfold on_kv. cbn [km_kv].
  destruct (kv_set_ok (i 2%nat) l key random kv m Hs' (Hi 2%nat)) as [[Hs2 Hr]|([x Hx] & _)].
  2: { destruct Hc as [Hc _]. by rewrite Hc in Hx. }
  destruct (kv_set_vault (i 2%nat) l key random kv m Hs' (Hi 2%nat) Hr) as (a & ? & ?).
  destruct (kv_set (i 2%nat) l key random kv) as [kv2 r2]. cbn [fst snd alone] in *. rewrite Hr. split_and!; [done|by exists a|done].
Qed.

(** C32: the store behind the secrets is one map, though its entries are in
    the vault, in old files or in both.  Reading gives the entry, and keeps the
    map even when it migrates a file or the file system throws.  Writing
    changes that entry alone; when the file system throws it fails, and the
    map is as before or has the new entry.  Deleting removes that entry alone,
    as long as the old file can be removed; when the vault's file cannot be
    removed it fails and nothing has changed.  The listing has every name once.
    A key made on first use, with a working file system and no other call
    meanwhile, is in the vault; and from then on every use gives it, whatever
    else runs at the awaits as long as it leaves the entry alone, or fails
    because the file system throws.  No write is cut short. *)
Theorem compat_store_refines s m : kv_rel s m →
  (∀ i l key, input_ok (i 1%nat) →
     kv_rel (kv_get i l key s).1 m ∧
     (found (m !! key) returns (kv_get i l key s).2 ∨ ¬ kv_calm i l ∧ unanswered (kv_get i l key s).2)) ∧
  (∀ i l key value, input_ok i →
     (kv_rel (kv_set i l key value s).1 (<[key := value]> m) ∧ (kv_set i l key value s).2 = Some (Ok tt)) ∨
     (failing i ∧ (kv_rel (kv_set i l key value s).1 m ∨ ¬ cleanly i ∧ kv_rel (kv_set i l key value s).1 (<[key := value]> m)) ∧
      unanswered (kv_set i l key value s).2)) ∧
  (∀ i l key, lio_unlink l = false →
     (kv_rel (kv_delete i l key s).1 (delete key m) ∧ found (m !! key) (λ _, returns tt) (kv_delete i l key s).2) ∨
     (failing i ∧ kv_rel (kv_delete i l key s).1 m ∧ unanswered (kv_delete i l key s).2)) ∧
  (∃ names, kv_list s = Some names ∧ names ≡ₚ (map_to_list m).*1) ∧
  (∀ i l random key (mgr : KeyManager (S := S)), km_kv mgr = s → (∀ n, input_ok (i n)) → kv_calm i l →
     let value := default random (m !! key) in let x := alone (getOrCreate i l random key) mgr in
     kv_rel (km_kv x.1) (<[key := value]> m) ∧ vault_has key value x.1 ∧ x.2 = Some (Ok value)) ∧
  (∀ env i l random key value (mgr : KeyManager (S := S)), (∀ w w' : KeyManager (S := S), env w w' → vault_has key value w → vault_has key value w') →
     vault_has key value mgr →
     wp env (getOrCreate i l random key) mgr [] (λ _ mgr' r, vault_has key value mgr' ∧
       (r = Some (Ok value) ∨ failing (i 0%nat) ∧ ∃ e, r = Some (Err e)))).
Proof.
  intros Hs. split_and!.
  - intros i l key Hi. by apply kv_get_ok.
  - intros i l key value Hi. by apply kv_set_ok.
  - intros i l key Hu. by apply kv_delete_ok.
  - by apply kv_list_ok.
  - intros i l random key mgr <- Hi Hc. by apply getOrCreate_ok.
  - intros *. apply getOrCreate_stable.
Qed.
End store.

(** ** The administrator's key *)
Lemma old_hex_back b : hexToBytes (bytes_hex b) = Some b.
Proof.
  induction b as [|x b IH]; [done|]. cbn [bytes_hex]. unfold byte_hex. rewrite !str_cons_app, str_nil_app.
  cbn [hexToBytes]. rewrite IH. by destruct x.
Qed.
Lemma replaceAll_remove c l p : c ∉ l → replaceAll c "" (chars (l ++ replicate p c)) = chars l.
Proof.
  intros Hc. induction l as [|d l IH].
  - cbn [app]. induction p as [|p IH]; [done|]. change (chars (replicate (Datatypes.S p) c)) with (String c (chars (replicate p c))).
    cbn [replaceAll]. by rewrite decide_True.
  - change (chars ((d :: l) ++ replicate p c)) with (String d (chars (l ++ replicate p c))). cbn [replaceAll].
    rewrite decide_False by set_solver. rewrite IH by set_solver. done.
Qed.
Lemma toBase64Url_eq b : toBase64Url b = base64urlEncode b.
Proof.
  rewrite base64urlEncode_chars. unfold toBase64Url, btoa.
  change ("="%char) with pad_char. rewrite replaceAll_remove.
  - by rewrite !replaceAll_chars, !map_map.
  - intros (n & Hp & Hn)%list_elem_of_fmap. pose proof (sextets_in_range b) as Hr. unfold sextets_ok in Hr.
    rewrite Forall_forall in Hr. by destruct (url_char_back n (Hr n Hn)) as (_ & _ & ? & _).
Qed.
Lemma compat_part_eq v : compat_part v = jwt_part v.
Proof. apply toBase64Url_eq. Qed.

Class KeyCryptoLaws `{KeyCrypto} : Prop := {
  kcl_vault :: VaultLaws; kcl_text :: TextLaws; kcl_jwt : JwtLibLaws;
  kcl_public k p : kc_exportPublic k = Some p → p = jl_public k;
  kcl_private k e : kc_exportPrivate k = Some e → kc_importPrivate e = Some k
}.
Section admin.
Context {X : KeyCrypto} {Laws : KeyCryptoLaws} {D : JsDate} {S : Type} {Ops : VaultOps S} (R : S → AbsVault → Prop)
  {C : VaultContract S R} (thrown : string) (config : KeyManagerConfig).
Implicit Types (s : KeyManager (S := S)).
(** The manager has the administrator's key pair of [k] loaded. *)
Definition holds s (k : bytes) : Prop :=
  km_adminPrivateKey s = Some k ∧ km_adminPublicKeyHex s = Some (bytes_hex (jl_public k)).
(** The store has it. *)
Definition stored (m : gmap string bytes) (k : bytes) : Prop :=
  m !! "admin-key-pub" = Some (utf8 (bytes_hex (jl_public k))) ∧ ∃ e, m !! "admin-key" = Some e ∧ kc_importPrivate e = Some k.
Lemma obind_ok {T A B} (m : Op T A) (f : A → Op T B) t t' y : obind m f t = (t', Some (Ok y)) →
  ∃ t1 x, m t = (t1, Some (Ok x)) ∧ f x t1 = (t', Some (Ok y)).
Proof. unfold obind. destruct (m t) as [t1 [[x|e]|]]; [|done..]. eauto. Qed.
Lemma from_webcrypto_ok {A} msg (o : option A) x : from_webcrypto thrown msg o = Ok x → o = Some x.
Proof. destruct o; [by intros [= ->]|done]. Qed.
Lemma on_kv_set_ok i l key value s s' m : kv_rel R (km_kv s) m → input_ok i →
  on_kv (kv_set i l key value) s = (s', Some (Ok tt)) →
  kv_rel R (km_kv s') (<[key := value]> m) ∧ (∀ k, holds s k → holds s' k).
Proof.
  intros Hs Hi. unfold on_kv. pose proof (kv_set_ok R i l key value _ m Hs Hi) as H.
  destruct (kv_set i l key value (km_kv s)) as [kv r]. cbn [fst snd] in H. intros [= <- ->].
  split; [|done]. destruct H as [[? _]|(_ & _ & [?|[e ?]])]; done.
Qed.
Lemma admin_create_ok i l prompt pair s m s' info : kv_rel R (km_kv s) m → (∀ n, input_ok (i n)) →
  admin_create thrown config i l prompt pair s = (s', Some (Ok info)) →
  ∃ k m', kv_rel R (km_kv s') m' ∧ stored m' k ∧ holds s' k ∧ adm_publicKey info = bytes_hex (jl_public k).
Proof.
  intros Hs Hi. unfold admin_create. destruct (admin_exists s); [done|].
  intros (s1 & [] & Hg & H)%obind_ok. unfold gate, oret in Hg. injection Hg as <- _.
  apply obind_ok in H as (s1 & k & Hk & H). unfold of_res, oret in Hk. injection Hk as <- Hk%from_webcrypto_ok.
  apply obind_ok in H as (s1 & pub & Hp & H). unfold of_res, oret in Hp. injection Hp as <- Hp%from_webcrypto_ok%kcl_public.
  apply obind_ok in H as (s1 & e & He & H). unfold of_res, oret in He. injection He as <- He%from_webcrypto_ok%kcl_private.
  apply obind_ok in H as (s1 & [] & [= <-] & H). subst pub.
  apply obind_ok in H as (s2 & [] & H1 & H). apply (on_kv_set_ok _ _ _ _ _ _ m) in H1 as [Hs2 Hh2]; [|done..].
  apply obind_ok in H as (s3 & [] & H2 & H). apply (on_kv_set_ok _ _ _ _ _ _ _ Hs2) in H2 as [Hs3 Hh3]; [|done..].
  assert (holds s3 k) as Hh by by apply Hh3, Hh2.
  unfold readAdminInfo in H. rewrite (proj2 Hh), old_hex_back in H. cbn [mbind option_bind] in H. injection H as <- <-.
  eexists k, _. split_and!; [exact Hs3| |done|done]. split.
  - by rewrite lookup_insert_eq.
  - exists e. by rewrite lookup_insert_ne, lookup_insert_eq.
Qed.
Lemma on_kv_get_ok i l key s m v : kv_rel R (km_kv s) m → input_ok (i 1%nat) → kv_calm i l → m !! key = Some v →
  ∃ kv, kv_rel R kv m ∧ on_kv (kv_get i l key) s =
    (mkManager kv (km_opKeys s) (km_groupIdIndex s) (km_credentialKeys s) (km_rootKeyHandle s) (km_rotationTimer s)
       (km_adminPublicKeyHex s) (km_adminPrivateKey s) (km_walletBackend s), Some (Ok v)).
Proof.
  intros Hs Hi Hc Hk. unfold on_kv. destruct (kv_get_ok R i l key _ m Hs Hi) as [Hs' [Hf|[Hn _]]]; [|done].
  rewrite Hk in Hf. destruct (kv_get i l key (km_kv s)) as [kv r]. cbn in *. rewrite Hf. by exists kv.
Qed.
Lemma hex_printable b : printable (bytes_hex b) = true.
Proof.
  induction b as [|x b IH]; [done|]. cbn [bytes_hex]. unfold printable in *. rewrite str_forallb_app, IH.
  by destruct x.
Qed.
Lemma initialize_ok i l now kv m k : kv_rel R kv m → stored m k → (∀ n, input_ok (i n)) → kv_calm i l →
  ∃ s h, initialize thrown config i l now (createKeyManager kv) = (s, Some (Ok h)) ∧ holds s k ∧
    rk_publicKey h = bytes_hex (jl_public k).
Proof.
  intros Hs [Hpub (e & Hpriv & He)] Hi Hc. unfold initialize. cbn [km_rootKeyHandle createKeyManager].
  destruct (on_kv_get_ok i l "admin-key-pub" (createKeyManager kv) m _ Hs (Hi 1%nat) Hc Hpub) as (kv1 & Hs1 & ->).
  rewrite law_text by apply hex_printable.
  edestruct (on_kv_get_ok (λ n, i (n + 2)%nat) l "admin-key") as (kv2 & Hs2 & ->); [exact Hs1|apply Hi| |exact Hpriv|].
  { destruct Hc as [Hc Hl]. split; [|done]. intros n. apply Hc. }
  unfold importEd25519PrivateKey, from_webcrypto. rewrite He. eexists _, _. split; [done|]. done.
Qed.

(** once the administrator's key has been made, its owner stays
    authenticated: the key is in memory and in the store, a manager started
    later over that store loads the same key, and a token signed by either is
    accepted by either from the skew before its issue until the skew after
    its expiry, and refused with the right error outside. *)
Theorem admin_key_survives i l prompt pair s m s1 info : kv_rel R (km_kv s) m → (∀ n, input_ok (i n)) →
  admin_create thrown config i l prompt pair s = (s1, Some (Ok info)) →
  ∃ k, holds s1 k ∧ adm_publicKey info = bytes_hex (jl_public k) ∧
    (∀ i' l' now, (∀ n, input_ok (i' n)) → kv_calm i' l' → ∃ s2 h,
       initialize thrown config i' l' now (createKeyManager (km_kv s1)) = (s2, Some (Ok h)) ∧ holds s2 k ∧
       rk_publicKey h = adm_publicKey info) ∧
    (∀ sa sb now ttl nonce token now', holds sa k → holds sb k → admin_signJwt thrown now ttl nonce sa = Ok token →
       0 < now / 1000 → 0 < now / 1000 + ttl → parses_back JWT_HEADER →
       parses_back (JObj (admin_claims (km_adminPublicKeyHex sa) now ttl nonce)) →
       admin_verifyJwt token now' sb = Some (
         if now / 1000 + ttl + 30 <=? now' / 1000 then Err (AuthError_create "Admin token expired" None)
         else if now' / 1000 + 30 <? now / 1000
              then Err (ValidationError_create "jwt.iat" "Token issued in future" None)
         else Ok (mkPayload (adm_publicKey info) (now / 1000) (now / 1000 + ttl) (bytes_hex nonce)))).
Proof.
  intros Hs Hi Hcreate. destruct (admin_create_ok _ _ _ _ _ _ _ _ Hs Hi Hcreate) as (k & m' & Hs1 & Hst & Hh & Hinfo).
  exists k. split_and!; [done|done| |].
  - intros i' l' now Hi' Hc. destruct (initialize_ok i' l' now (km_kv s1) m' k Hs1 Hst Hi' Hc) as (s2 & h & ? & ? & ?).
    exists s2, h. by rewrite Hinfo.
  - intros sa sb now ttl nonce token now' [Ha1 Ha2] [Hb1 Hb2] Htok Hnow Httl Hp1 Hp2.
    unfold admin_signJwt in Htok. rewrite Ha1 in Htok. rewrite !compat_part_eq in Htok.
    destruct (signEd25519 thrown k _) as [sig|] eqn:Hsig; [|done]. cbn [mbind result_bind] in Htok. injection Htok as <-.
    apply from_webcrypto_ok in Hsig. rewrite toBase64Url_eq.
    unfold admin_verifyJwt. rewrite Hb2, old_hex_back. cbn [mbind option_bind].
    rewrite Ha2 in *. cbn [default] in *.
    set (p := mkPayload (bytes_hex (jl_public k)) (now / 1000) (now / 1000 + ttl) (bytes_hex nonce)).
    assert (parse_payload (JObj (admin_claims (Some (bytes_hex (jl_public k))) now ttl nonce)) = Some p) as Hp.
    { transitivity (if bool_decide ("admin" = "admin") && (0 <? now / 1000) && (0 <? now / 1000 + ttl) then Some p else None);
        [reflexivity|]. by rewrite bool_decide_true, (proj2 (Z.ltb_lt _ _) Hnow), (proj2 (Z.ltb_lt _ _) Httl). }
    pose proof (signed_token_verifies (Laws := kcl_jwt) k _ p sig None now' Hsig Hp Hp1 Hp2) as Hv.
    unfold encodeJwt in Hv. rewrite Hv, Hinfo. done.
Qed.
End admin.

(** ** Operational and credential keys *)
Section keys.
Context {X : KeyCrypto} {Laws : KeyCryptoLaws} {D : JsDate} {S : Type} {Ops : VaultOps S}
  (thrown : string) (config : KeyManagerConfig).
Implicit Types (s : KeyManager (S := S)).
(** Each key is stored under its identity, with the public key of the private
    key beside it; the index of groups names identities that have a key, and
    the expiry of a credential key is a date. *)
Definition op_entry_ok (id : string) (e : OperationalKeyEntry) : Prop :=
  opk_identityId (oe_key e) = id ∧ opk_publicKey (oe_key e) = bytes_hex (jl_public (oe_privateKey e)).
Record op_inv s : Prop := {
  oi_keys : ∀ id e, om_get id (km_opKeys s) = Some e → op_entry_ok id e;
  oi_index : ∀ g id, om_get g (km_groupIdIndex s) = Some id → is_Some (om_get id (km_opKeys s));
  oi_cred : NoDup (km_credentialKeys s).*1;
  oi_expiry : ∀ id e, om_get id (km_credentialKeys s) = Some e → is_Some (date_getTime (ck_expiresAt (ce_key e)))
}.
Inductive key_step s : KeyManager → Prop :=
  | ks_create prompt pair now id g : key_step s (createOperationalKey thrown config prompt pair now id g s).1
  | ks_rotate prompt pair now id : key_step s (rotateOperationalKey thrown config prompt pair now id s).1
  | ks_timer prompts pairs now : key_step s (on_rotation_timer thrown config prompts pairs now s)
  | ks_start : key_step s (startAutoRotation config s)
  | ks_stop : key_step s (stopAutoRotation s)
  | ks_issue pair nowMs id ttl : key_step s (issueCredentialKey thrown pair nowMs id ttl s).1
  | ks_revoke id : key_step s (revokeCredentialKey id s).1
  | ks_sign_credential nowMs id data : key_step s (signWithCredentialKey thrown nowMs id data s).1
  (* the operations on wallets, secrets and the administrator's key *)
  | ks_other s' : km_opKeys s' = km_opKeys s → km_groupIdIndex s' = km_groupIdIndex s →
      km_credentialKeys s' = km_credentialKeys s → key_step s s'.
(** A step that makes no credential key with the id [id]. *)
Definition issues (id : string) s s' : Prop := ∃ pair nowMs cid ttl key,
  issueCredentialKey thrown pair nowMs cid ttl s = (s', Some (Ok key)) ∧ ck_keyId key = id.
Definition quiet_step (id : string) s s' : Prop := key_step s s' ∧ ¬ issues id s s'.
Lemma record_cases pair now id g s :
  let r := createOperationalKeyRecord thrown pair now id g s in
  (r.1 = s ∧ ∃ e, r.2 = Some (Err e)) ∨
  ∃ k key, r.2 = Some (Ok key) ∧ op_entry_ok id (mkOpEntry key k) ∧ opk_groupId key = g ∧
    r.1 = with_op (om_set id (mkOpEntry key k) (km_opKeys s))
            (match g with Some g => om_set g id (km_groupIdIndex s) | None => km_groupIdIndex s end) s.
Proof.
  unfold createOperationalKeyRecord, obind, of_res, oret. cbn [fst snd].
  destruct (generateEd25519KeyPair thrown pair) as [k|e]; [|left; split; [done|by eexists]].
  destruct (exportPublicKey thrown k) as [p|e] eqn:Hp; [|left; split; [done|by eexists]].
  apply from_webcrypto_ok, kcl_public in Hp. subst p.
  destruct (fingerprint thrown k) as [fp|e]; [|left; split; [done|by eexists]].
  right. cbn [omod fst snd]. by eexists k, _.
Qed.
Lemma with_op_inv id e g s : op_inv s → op_entry_ok id e →
  op_inv (with_op (om_set id e (km_opKeys s)) (match g with Some g => om_set g id (km_groupIdIndex s) | None => km_groupIdIndex s end) s).
Proof.
  intros [H1 H2 H3 H4] He. split; cbn; [| |done|done].
  - intros id' e'. rewrite om_get_set. case_decide as E; [intros [= <-]; by subst|apply H1].
  - assert (∀ id', is_Some (om_get id' (km_opKeys s)) → is_Some (om_get id' (om_set id e (km_opKeys s)))) as Hk.
    { intros id' Hid. rewrite om_get_set. case_decide; [by eexists|done]. }
    intros g' id' Hg. destruct g as [g|]; [|by eapply Hk, H2]. rewrite om_get_set in Hg. case_decide; [|by eapply Hk, H2].
    injection Hg as <-. rewrite om_get_set_eq. by eexists.
Qed.
Lemma record_inv pair now id g s : op_inv s → op_inv (createOperationalKeyRecord thrown pair now id g s).1.
Proof.
  intros Hi. destruct (record_cases pair now id g s) as [[-> _]|(k & key & _ & He & _ & ->)]; [done|]. by apply with_op_inv.
Qed.
Lemma gated_inv {A} op prompt (m : Op KeyManager A) s : op_inv s → op_inv (m s).1 →
  op_inv (obind (gate config op prompt) (λ _, m) s).1.
Proof. intros H1 H2. unfold obind, gate, oret. by destruct (createBiometricGate _ _ _) as [[]|]. Qed.
Lemma rotate_inv prompt pair now id s : op_inv s → op_inv (rotateOperationalKey thrown config prompt pair now id s).1.
Proof.
  intros Hi. unfold rotateOperationalKey. destruct (om_get id (km_opKeys s)) as [e|]; [|done].
  apply gated_inv; [done|]. by apply record_inv.
Qed.
Lemma key_issue_cases pair nowMs cid ttl s :
  let r := issueCredentialKey thrown pair nowMs cid ttl s in
  r.1 = s ∨ ∃ key k, r.2 = Some (Ok key) ∧ is_Some (date_getTime (ck_expiresAt key)) ∧
    r.1 = with_credentials (om_set (ck_keyId key) (mkCredEntry key k)) s.
Proof.
  unfold issueCredentialKey, obind, of_res, oret. destruct (generateEd25519KeyPair thrown pair) as [k|]; [|by left].
  destruct (fingerprint thrown k); [|by left].
  destruct (date_toISOString (nowMs + ttl * 1000)) eqn:E; [|by left]. destruct (date_toISOString nowMs); [|by left].
  right. cbn [omod fst snd]. eexists _, k. split_and!; [done| |done]. eexists. by apply date_roundtrip.
Qed.
Lemma forget_inv id s : op_inv s → op_inv (with_credentials (om_delete id) s).
Proof.
  intros [H1 H2 H3 H4]. split; [done|done|by apply om_delete_NoDup|]. cbn. intros id' e.
  rewrite om_get_delete. case_decide; [done|apply H4].
Qed.
Lemma key_step_inv s s' : key_step s s' → op_inv s → op_inv s'.
Proof.
  intros [prompt pair now id g|prompt pair now id|prompts pairs now| | |pair nowMs id ttl|id|nowMs id data|s'' Ho Hg Hc] Hi.
  - apply gated_inv; [done|]. by apply record_inv.
  - by apply rotate_inv.
  - unfold on_rotation_timer. destruct (km_rotationTimer s); [|done]. unfold rotate_all.
    generalize (km_opKeys s).*1. intros ids. revert s Hi. induction ids as [|id ids IH]; intros s Hi; [done|].
    apply IH. by apply rotate_inv.
  - unfold startAutoRotation. destruct (_ || _); [done|]. by destruct Hi.
  - by destruct Hi.
  - destruct (key_issue_cases pair nowMs id ttl s) as [->|(key & k & _ & Hd & ->)]; [done|].
    destruct Hi as [H1 H2 H3 H4]. split; [done|done|by apply om_set_NoDup|]. cbn. intros id' e.
    rewrite om_get_set. case_decide; [by intros [= <-]|apply H4].
  - unfold revokeCredentialKey. destruct (om_has _ _); [|done]. by apply forget_inv.
  - unfold signWithCredentialKey. destruct (om_get _ _) as [e|]; [|done]. destruct (num_leb _ _); [|done]. by apply forget_inv.
  - destruct Hi as [H1 H2 H3 H4]. split; by rewrite ?Ho, ?Hg, ?Hc.
Qed.
Lemma key_steps_inv s s' : rtc key_step s s' → op_inv s → op_inv s'.
Proof. induction 1 as [|s1 s2 s3 H12 _ IH]; [done|]. intros H1. by eapply IH, key_step_inv. Qed.
Lemma created_inv kv : op_inv (createKeyManager kv).
Proof. split; [done..|constructor|done]. Qed.
Lemma rotate_credentials prompt pair now id s :
  km_credentialKeys (rotateOperationalKey thrown config prompt pair now id s).1 = km_credentialKeys s.
Proof.
  unfold rotateOperationalKey. destruct (om_get id (km_opKeys s)) as [e|]; [|done].
  unfold obind, gate, oret. destruct (createBiometricGate _ _ _); [|done].
  by destruct (record_cases pair now id (opk_groupId (oe_key e)) s) as [[-> _]|(k & key & _ & _ & _ & ->)].
Qed.
(** A credential key that is gone comes back only when it is issued. *)
Lemma quiet_step_gone id s s' : quiet_step id s s' → om_get id (km_credentialKeys s) = None → om_get id (km_credentialKeys s') = None.
Proof.
  intros [Hst Hq] Hn.
  destruct Hst as [prompt pair now id' g|prompt pair now id'|prompts pairs now| | |pair nowMs cid ttl|id'|nowMs id' data|s'' Ho Hg Hc].
  - unfold createOperationalKey, obind, gate, oret. destruct (createBiometricGate _ _ _); [|done].
    by destruct (record_cases pair now id' g s) as [[-> _]|(k & key & _ & _ & _ & ->)].
  - by rewrite rotate_credentials.
  - unfold on_rotation_timer. destruct (km_rotationTimer s); [|done]. unfold rotate_all. clear Hq.
    generalize (km_opKeys s).*1. intros ids. revert s Hn. induction ids as [|i ids IH]; intros s Hn; [done|].
    apply IH. by rewrite rotate_credentials.
  - unfold startAutoRotation. by destruct (_ || _).
  - done.
  - destruct (key_issue_cases pair nowMs cid ttl s) as [->|(key & k & Hr & _ & Hs)]; [done|].
    rewrite Hs. cbn. rewrite om_get_set. case_decide as E; [|done]. destruct Hq. exists pair, nowMs, cid, ttl, key.
    split; [|done]. rewrite <- Hr. by destruct (issueCredentialKey _ _ _ _ _ _).
  - unfold revokeCredentialKey. destruct (om_has _ _); [|done]. cbn. rewrite om_get_delete. by case_decide.
  - unfold signWithCredentialKey. destruct (om_get id' _) as [e|]; [|done]. destruct (num_leb _ _); [|done].
    cbn. rewrite om_get_delete. by case_decide.
  - by rewrite Hc.
Qed.
(** The first half of a stamp: the key is there and verifies the signature. *)
Lemma stamp_begin_ok id payload s sig : op_inv s → stamp_begin thrown id payload s = Ok sig → ∃ pub,
  signer_getPublicKey id s = Some (Ok pub) ∧ jl_verify pub sig (stamp_bytes payload) = Some true.
Proof.
  intros [H1 _ _ _]. unfold stamp_begin, signWithOperationalKey, signer_getPublicKey, getOperationalKey.
  destruct (om_get id (km_opKeys s)) as [e|] eqn:He; [|done]. intros Hs%from_webcrypto_ok.
  destruct (H1 id e He) as [_ Hp]. exists (jl_public (oe_privateKey e)). split.
  - by rewrite Hp, old_hex_back.
  - by eapply (jl_verify_sign (JwtLibLaws := kcl_jwt)).
Qed.
(** The second half: the key of then is named. *)
Lemma getOperationalKey_public id s key : op_inv s → getOperationalKey id s = Ok key → ∃ pub,
  signer_getPublicKey id s = Some (Ok pub) ∧ opk_publicKey key = bytes_hex pub.
Proof.
  intros [H1 _ _ _] Hg. unfold signer_getPublicKey. rewrite Hg. unfold getOperationalKey in Hg.
  destruct (om_get id (km_opKeys s)) as [e|] eqn:He; [|done]. injection Hg as <-.
  destruct (H1 id e He) as [_ ->]. exists (jl_public (oe_privateKey e)). by rewrite old_hex_back.
Qed.
(** What a stamp is worth: the signature [sig] is by the key the identity had
    when the stamp began, and [named] is the key it has at its end, which is
    the same one unless the identity's key has been replaced meanwhile. *)
Definition stamped (id : string) (payload : json) s s' (named sig : json) : Prop := ∃ pub pub' b,
  signer_getPublicKey id s = Some (Ok pub) ∧ sig = JStr (btoa b) ∧ jl_verify pub b (stamp_bytes payload) = Some true ∧
  signer_getPublicKey id s' = Some (Ok pub') ∧ named = JStr (bytes_hex pub') ∧
  (om_get id (km_opKeys s') = om_get id (km_opKeys s) → pub' = pub).
Lemma stamper_ok finish id payload s (env : KeyManager → KeyManager → Prop) (Q : KeyManager → json → Prop) :
  op_inv s → (∀ w w', env w w' → rtc key_step w w') →
  (∀ s' sig v, finish sig s' = Ok v → ∃ key, getOperationalKey id s' = Ok key ∧
     (stamped id payload s s' (JStr (opk_publicKey key)) (JStr (btoa sig)) → Q s' v)) →
  wp env (stamper thrown finish id payload) s [] (λ _ s' r, ∀ v, r = Ok v → Q s' v).
Proof.
  intros Hi Henv HQ. unfold stamper. apply wp_bind. cbn [awaited looked wp fst snd]. intros s' [] Hs'.
  destruct (stamp_begin thrown id payload s) as [sig|] eqn:Hb; [|done]. cbn [wp looked fst snd]. intros v Hv.
  apply Henv in Hs'. pose proof (key_steps_inv _ _ Hs' Hi) as Hi'.
  destruct (HQ _ _ _ Hv) as (key & Hk & HQv). apply HQv.
  destruct (stamp_begin_ok _ _ _ _ Hi Hb) as (pub & Hp & Hver).
  destruct (getOperationalKey_public _ _ _ Hi' Hk) as (pub' & Hp' & ->).
  exists pub, pub', sig. split_and!; [done..|]. intros E. unfold signer_getPublicKey, getOperationalKey in *.
  rewrite E in Hp'. congruence.
Qed.

(** C33: whatever keys were made, rotated, revoked or let expire before, and
    whatever of that happens while a stamp waits for its signature: the
    signature of a seal or a revocation verifies, over the canonical bytes of
    its payload, under the public key the identity had when the stamp began;
    the key the stamp names is the one the identity has at its end, so the
    stamp verifies under the key it names unless that key was replaced while
    the signature was awaited.  A credential key signs only while it is there
    and strictly before its expiry, which is a date; and once revoked it does
    not sign in any later state, whatever steps lead there, as long as none of
    them issues a key with that same id. *)
Theorem keys_sign_as_shown kv s : rtc key_step (createKeyManager kv) s →
  (∀ id payload (env : KeyManager → KeyManager → Prop), (∀ w w', env w w' → rtc key_step w w') →
     wp env (stamper_sign thrown id payload) s [] (λ _ s' r, ∀ seal, r = Ok seal →
       jget "current" (jget "chain" seal) = payload ∧
       stamped id payload s s' (jget "keyId" seal) (jget "signature" seal)) ∧
     wp env (stamper_signRevocation thrown id payload) s [] (λ _ s' r, ∀ envelope, r = Ok envelope →
       jget "revocation" envelope = payload ∧
       stamped id payload s s' (jget "signerKeyRef" envelope) (jget "signature" envelope))) ∧
  (∀ nowMs id data sig, (signWithCredentialKey thrown nowMs id data s).2 = Some (Ok sig) → ∃ e t,
     om_get id (km_credentialKeys s) = Some e ∧ jl_verify (jl_public (ce_privateKey e)) sig data = Some true ∧
     date_getTime (ck_expiresAt (ce_key e)) = Some t ∧ nowMs < t) ∧
  (∀ id s', (revokeCredentialKey id s).2 = Ok tt → rtc (quiet_step id) (revokeCredentialKey id s).1 s' →
     ∀ nowMs data sig, (signWithCredentialKey thrown nowMs id data s').2 ≠ Some (Ok sig)).
Proof.
  intros Hr. pose proof (key_steps_inv _ _ Hr (created_inv kv)) as Hi. split_and!.
  - intros id payload env Henv. split; (apply stamper_ok; [done..|]); intros s' sig v;
      unfold stamp_seal, stamp_revocation; (destruct (getOperationalKey id s') as [key|]; [|done]); cbn [mbind result_bind];
      intros [= <-]; by exists key.
  - intros nowMs id data sig. unfold signWithCredentialKey. destruct (om_get id (km_credentialKeys s)) as [e|] eqn:He; [|done].
    destruct (oi_expiry _ Hi id e He) as [t Ht]. rewrite Ht. destruct (num_leb _ _) eqn:E; [done|]. cbn [snd].
    intros [= Hsig%from_webcrypto_ok]. exists e, t. cbn in E. apply Z.leb_gt in E. split_and!; [done| |done|done].
    by eapply (jl_verify_sign (JwtLibLaws := kcl_jwt)).
  - intros id s' Hk Hs nowMs data sig. assert (om_get id (km_credentialKeys s') = None) as Hn.
    { assert (om_get id (km_credentialKeys (revokeCredentialKey id s).1) = None) as H0.
      { unfold revokeCredentialKey in *. destruct (om_has id _); [|done]. cbn. by rewrite om_get_delete, decide_True. }
      clear Hk. revert H0. induction Hs as [|s1 s2 s3 H12 _ IH]; [done|]. intros H0. by eapply IH, quiet_step_gone. }
    unfold signWithCredentialKey. by rewrite Hn.
Qed.
End keys.

(** ** Witnesses *)
Definition demo_crypto : KeyCrypto := {|
  kc_vault := demo_vault; kc_jwt := demo_jwt; kc_exportPublic := Some; kc_exportPrivate := Some;
  kc_importPrivate := Some |}.
Lemma demo_crypto_laws : @KeyCryptoLaws demo_crypto.
Proof.
  split; [apply demo_vault_laws|apply demo_texts|apply demo_jwt_laws| |].
  - by intros k p [= ->].
  - by intros k e [= ->].
Qed.
#[local] Existing Instances demo_crypto memory_vault iso_date.
Definition demo_io : LegacyIo := mkLegacyIo None false false.
Definition demo_legacy : KvStore (S := MemoryVault) :=
  mkKv (mkMemory [] [] [] []) (Some [("db-key:x", "0a0b")]).
Definition demo_map : gmap string bytes := <["db-key:x" := [Byte.x0a; Byte.x0b]]> ∅.
Lemma demo_legacy_rel : @kv_rel demo_crypto _ (@memory_rel demo_vault) demo_legacy demo_map.
Proof.
  exists (mkAbs ∅ ∅ ∅), demo_map. split_and!; [apply empty_memory| |symmetry; apply map_empty_union].
  unfold legacy_rel, demo_map.
  change (default [] (kv_legacy demo_legacy)) with (om_set (vl_encodeURI "db-key:x") "0a0b" []).
  apply (mrel_set vl_encodeURI (λ _ hex v, hexToBytes hex = Some v) [] ∅ "db-key:x" "0a0b" [Byte.x0a; Byte.x0b]); [apply mrel_empty|done].
Qed.
(** The old file is found, migrated and removed. *)
Lemma compat_store_refines_witness :
  found (demo_map !! "db-key:x") returns (kv_get demo_inputs demo_io "db-key:x" demo_legacy).2 ∧
  kv_legacy (kv_get demo_inputs demo_io "db-key:x" demo_legacy).1 = None ∧
  (alone (getOrCreate demo_inputs demo_io [Byte.x11] "db-key:y") (createKeyManager demo_legacy)).2 = Some (Ok [Byte.x11]).
Proof.
  pose proof (@compat_store_refines demo_crypto demo_vault_laws _ _ (@memory_rel demo_vault)
    (@memory_contract demo_vault demo_vault_laws) demo_legacy demo_map demo_legacy_rel) as (H & _ & _ & _ & Hc & _).
  assert (kv_calm demo_inputs demo_io) as Hcalm by (split; [intros n; reflexivity|split; reflexivity]).
  split; [|split; [vm_compute; reflexivity|]].
  - destruct (H demo_inputs demo_io "db-key:x" demo_input_ok) as [_ [Hf|[Hn _]]]; [exact Hf|destruct (Hn Hcalm)].
  - exact (proj2 (proj2 (Hc demo_inputs demo_io [Byte.x11] "db-key:y" (createKeyManager demo_legacy) eq_refl
      (λ _, demo_input_ok) Hcalm))).
Defined.

Definition demo_config : KeyManagerConfig := mkConfig "biometric" (λ _, false) 86400 software_vault.
Definition demo_manager : KeyManager (S := MemoryVault) := createKeyManager (mkKv (mkMemory [] [] [] []) None).
Definition demo_admin := admin_create "" demo_config demo_inputs demo_io (pr_answer (Ok tt)) (Some [Byte.xab]) demo_manager.
Lemma demo_manager_rel : @kv_rel demo_crypto _ (@memory_rel demo_vault) (km_kv demo_manager) ∅.
Proof.
  exists (mkAbs ∅ ∅ ∅), ∅. split_and!; [apply empty_memory|apply mrel_empty|symmetry; apply map_empty_union].
Qed.
(** The token the new key signs is accepted by a manager started later. *)
Lemma admin_key_survives_witness : ∃ token s2,
  admin_signJwt "" 1000000 120 [Byte.x01] demo_admin.1 = Ok token ∧
  (initialize "" demo_config demo_inputs demo_io "2024" (createKeyManager (km_kv demo_admin.1))).1 = s2 ∧
  admin_verifyJwt token 1149000 s2 = Some (Ok (mkPayload "ab" 1000 1120 "01")).
Proof.
  destruct (@admin_key_survives demo_crypto demo_crypto_laws _ _ (@memory_rel demo_vault)
    (@memory_contract demo_vault demo_vault_laws) "" demo_config demo_inputs demo_io (pr_answer (Ok tt)) (Some [Byte.xab])
    demo_manager ∅ demo_admin.1 (mkAdminInfo "ab" "ab") demo_manager_rel (λ _, demo_input_ok) eq_refl)
    as (k & Hh & _ & Hinit & Htok).
  destruct (Hinit demo_inputs demo_io "2024" (λ _, demo_input_ok) (conj (λ _, eq_refl) (conj eq_refl eq_refl))) as (s2 & h & Hs2 & Hh2 & _).
  destruct (admin_signJwt "" 1000000 120 [Byte.x01] demo_admin.1) as [token|e] eqn:E; [|vm_compute in E; discriminate E].
  exists token, s2. split; [reflexivity|]. split; [exact (f_equal fst Hs2)|].
  rewrite (Htok demo_admin.1 s2 1000000 120 [Byte.x01] token 1149000 Hh Hh2 E); [reflexivity|reflexivity|reflexivity| |].
  - split; vm_compute; reflexivity.
  - split; vm_compute; reflexivity.
Defined.
Definition demo_identity : KeyManager (S := MemoryVault) :=
  (createOperationalKey "" demo_config (pr_answer (Ok tt)) (Some [Byte.x11]) "2024" "i" (Some "g1") demo_manager).1.
Definition demo_payload : json := JObj [("sealId", JStr "s"); ("chatId", JStr "c")].
Definition demo_issued : KeyManager (S := MemoryVault) :=
  (issueCredentialKey "" (Some [Byte.x33]) 1000 "cred_1" 60 demo_identity).1.
(** A stamp with nothing else going on, and a key that is revoked. *)
Lemma keys_sign_as_shown_witness :
  (∃ seal, (alone (stamper_sign "" "i" demo_payload) demo_issued).2 = Ok seal ∧
     stamped "i" demo_payload demo_issued demo_issued (jget "keyId" seal) (jget "signature" seal)) ∧
  ∃ id sig, (signWithCredentialKey "" 2000 id [Byte.x01] demo_issued).2 = Some (Ok sig) ∧
    (signWithCredentialKey "" 2000 id [Byte.x01] (revokeCredentialKey id demo_issued).1).2 ≠ Some (Ok sig).
Proof.
  destruct (@keys_sign_as_shown demo_crypto demo_crypto_laws iso_date MemoryVault "" demo_config (km_kv demo_manager)
    demo_issued) as (H & _ & Hk).
  - eapply rtc_l; [|apply rtc_once]; [apply ks_create|apply ks_issue].
  - split.
    + destruct (alone (stamper_sign "" "i" demo_payload) demo_issued).2 as [seal|e] eqn:E; [|vm_compute in E; discriminate E].
      destruct (H "i" demo_payload (rtc (@key_step demo_crypto iso_date MemoryVault "" demo_config)) (λ _ _ Hw, Hw)) as [Hw _].
      pose proof (Hw demo_issued tt (rtc_refl _ _) seal) as Hs. exists seal.
      split; [reflexivity|]. exact (proj2 (Hs E)).
    + eexists "credkey-33", _. split; [vm_compute; reflexivity|].
      apply (Hk "credkey-33"); [vm_compute; reflexivity|apply rtc_refl].
Defined.

(** ** What goes wrong *)
(** A rotation while a stamp waits for its signature: the seal names the new
    key and is signed with the old one. *)
Lemma rotation_splits_stamp :
  let rotate s := (rotateOperationalKey "" demo_config (pr_answer (Ok tt)) (Some [Byte.x22]) "2025" "i" s).1 in
  match (meanwhile [rotate] (stamper_sign "" "i" demo_payload) demo_identity).2, stamp_begin "" "i" demo_payload demo_identity with
  | Ok seal, Ok sig => jget "keyId" seal = JStr (bytes_hex [Byte.x22]) ∧ jget "signature" seal = JStr (btoa sig) ∧
      jl_verify [Byte.x22] sig (stamp_bytes demo_payload) = Some false
  | _, _ => False
  end.
Proof. vm_compute. by split_and!. Qed.
(** Two first uses at the same time: both succeed with keys of their own, and
    the key of one of them is lost. *)
Lemma first_uses_race :
  let use random := getOrCreate demo_inputs demo_io random "db-key:y" in
  let other s := alone (use [Byte.x22]) s in
  let x := meanwhile [λ s, (other s).1] (use [Byte.x11]) demo_manager in
  (other demo_manager).2 = Some (Ok [Byte.x22]) ∧ x.2 = Some (Ok [Byte.x11]) ∧
  (kv_get demo_inputs demo_io "db-key:y" (km_kv x.1)).2 = Some (Ok [Byte.x11]).
Proof. vm_compute. by split_and!. Qed.
(** Two uses of a key that is still in an old file: the second finds it
    neither in the vault nor in the file, and replaces it by a new one. *)
Lemma migration_race :
  let use random := getOrCreate demo_inputs demo_io random "db-key:x" in
  let other s := alone (use [Byte.x22]) s in let s0 := createKeyManager demo_legacy in
  let x := meanwhile [λ s, (other s).1] (use [Byte.x11]) s0 in
  (other s0).2 = Some (Ok [Byte.x0a; Byte.x0b]) ∧ x.2 = Some (Ok [Byte.x11]) ∧
  (kv_get demo_inputs demo_io "db-key:x" (km_kv x.1)).2 = Some (Ok [Byte.x11]).
Proof. vm_compute. by split_and!. Qed.
(** A key made again for another group stays indexed under the first one. *)
Lemma stale_group_index :
  let again := (createOperationalKey "" demo_config (pr_answer (Ok tt)) (Some [Byte.x22]) "2025" "i" (Some "g2") demo_identity).1 in
  match getOperationalKeyByGroupId "g1" again with Ok key => opk_groupId key = Some "g2" | Err _ => False end.
Proof. by vm_compute. Qed.
(** A rotation does not record that it happened. *)
Lemma rotation_unrecorded :
  match (rotateOperationalKey "" demo_config (pr_answer (Ok tt)) (Some [Byte.x22]) "2025" "i" demo_identity).2 with
  | Some (Ok key) => opk_rotatedAt key = None ∧ opk_createdAt key = "2025" | _ => False end.
Proof. by vm_compute. Qed.
(** An administrator's key that could not be stored is kept in memory, and
    another attempt to create it is refused. *)
Lemma failed_creation_sticks :
  let files := createKeyManager (mkKv (mkFiles [] [] [] []) None) in
  let full := λ _ : nat, mkInput [] (replicate 12 Byte.x07) "" (Some (io_refused "ENOSPC")) in
  let create i := @admin_create demo_crypto FileVault (@file_vault demo_vault) "" demo_config i demo_io (pr_answer (Ok tt))
                    (Some [Byte.xab]) in
  isOk (default (Err (InternalError_create "" None)) (create full files).2) = false ∧
  admin_exists (create full files).1 = true ∧
  isOk (default (Err (InternalError_create "" None)) (create demo_inputs (create full files).1).2) = false.
Proof. vm_compute. by split_and!. Qed.
(** When an old file cannot be removed, a secret is reported as deleted and
    is there again. *)
Lemma deleted_secret_returns :
  let stuck := mkLegacyIo None true false in
  let gone := kv_delete demo_input stuck "db-key:x" demo_legacy in
  gone.2 = Some (Ok tt) ∧ (kv_get demo_inputs stuck "db-key:x" gone.1).2 = Some (Ok [Byte.x0a; Byte.x0b]).
Proof. vm_compute. by split. Qed.
