(* ===== verification/KeyActions.v ===== *)
(** * Key and wallet actions

    [keys/src/key-actions.ts] and [wallet-actions.ts]: the actions that give
    an operator its keys, over the key manager and the operator registry
    together.

    [keys.init] is a program that lets any other request run at its awaits; a
    handler that only reads, and each call of the key manager but
    [getOrCreate], is taken at one instant.  What the calls take from outside
    is a [KeyInputs]. *)
From S2P Require Import Prelude Bytes JsDate Programs Text Json Errors Ids Seals Base64 Jwt Registries KeyDerivation Vault VaultSpec KeyBackend KeyManager.

Record KeySummary := mkKeySummary {
  ks_keyId : string; ks_identityId : string; ks_operatorId : option string; ks_groupId : option string;
  ks_publicKey : string; ks_fingerprint : string; ks_createdAt : string; ks_rotatedAt : option string;
  ks_trustTier : TrustTier; ks_walletId : option string; ks_provider : option WalletProvider
}.
Record KeyInitResult := mkKeyInit {
  kr_operatorId : string; kr_walletId : string; kr_provider : WalletProvider; kr_trustTier : TrustTier;
  kr_createdWallet : bool; kr_createdOperationalKey : bool; kr_identityKeyRef : string; kr_operationalKey : KeySummary
}.
Record PublicKeyExport := mkExport {
  pe_keyId : string; pe_identityId : string; pe_publicKey : string; pe_fingerprint : string; pe_trustTier : TrustTier
}.
Record WalletDetails := mkDetails { wd_info : WalletInfo; wd_accounts : list AccountInfo }.
(** The vault's secret, the inputs of the vault's calls, of the prompt and of
    WebCrypto, and the random values. *)
Record KeyInputs := mkKeyInputs {
  kn_secret : res string; kn_vault : nat → VaultInput; kn_legacy : LegacyIo; kn_uuid : string; kn_entropy : bytes;
  kn_now : string; kn_prompt : Prompt; kn_pair : option bytes; kn_random : bytes
}.

Section actions.
Context {X : KeyCrypto} {D : JsDate} {S : Type} {Ops : VaultOps S} (thrown : string) (config : KeyManagerConfig)
  (zodIssue : OperatorConfigType → string * string).
Record KeyWorld := mkKeyWorld { kw_manager : KeyManager (S := S); kw_operators : OperatorStore }.
Definition on_manager {A} (m : Op (KeyManager (S := S)) A) : Op KeyWorld A := λ w,
  let '(s, r) := m (kw_manager w) in (mkKeyWorld s (kw_operators w), r).
Definition on_operators {A} (f : OperatorStore → OperatorStore * res A) : Op KeyWorld A := λ w,
  let '(st, r) := f (kw_operators w) in (mkKeyWorld (kw_manager w) st, Some r).
Definition ask {A} (f : KeyWorld → res A) : Op KeyWorld A := λ w, (w, Some (f w)).
(** The same for a program of the manager, and sequencing that stops at the
    first error. *)
Fixpoint in_manager {A} (p : prog (KeyManager (S := S)) yeff A) : prog KeyWorld yeff A :=
  match p with
  | Ret a => Ret a
  | Await e k => Await e (λ x, in_manager (k x))
  | Sync f k => Sync (λ w, (mkKeyWorld (f (kw_manager w)).1 (kw_operators w), (f (kw_manager w)).2)) (λ x, in_manager (k x))
  end.
Definition pthen {A B} (p : prog KeyWorld yeff (outcome A)) (f : A → prog KeyWorld yeff (outcome B)) : prog KeyWorld yeff (outcome B) :=
  do r <- p ;; match r with Some (Ok x) => f x | Some (Err e) => Ret (Some (Err e)) | None => Ret None end.
Definition answer {A} (x : A) : prog KeyWorld yeff (outcome A) := Ret (Some (Ok x)).
Definition trustTier : TrustTier := platformToTrustTier (cfg_platform config).

Definition resolve_record (operatorId : string) (w : KeyWorld) : res OperatorRecordType :=
  if startsWith "op_" operatorId then
    if negb (resourceIdSchema "op_" operatorId) then
      Err (ValidationError_create "operatorId" ("Invalid operator ID format: " +:+ operatorId) None)
    else
      match op_lookup (kw_operators w) operatorId with
      | Err e => Err e
      | Ok record => if bool_decide (or_status record = op_removed) then Err (NotFoundError_create "operator" operatorId) else Ok record
      end
  else
    match filter (λ record, oc_label (or_config record) = operatorId) (op_list (kw_operators w)) with
    | [] => Err (NotFoundError_create "operator" operatorId)
    | [record] => Ok record
    | matches => Err (ValidationError_create "operatorId" "Ambiguous operator label"
                   (Some [("label", JStr operatorId); ("matchingIds", JArr (map (λ r, JStr (or_id r)) matches))]))
    end.
Definition plain_summary (key : OperationalKey) : KeySummary :=
  mkKeySummary (opk_keyId key) (opk_identityId key) None (opk_groupId key) (opk_publicKey key) (opk_fingerprint key)
    (opk_createdAt key) (opk_rotatedAt key) trustTier None None.
Definition summarizeOperationalKey (key : OperationalKey) (w : KeyWorld) : res KeySummary :=
  match op_lookup (kw_operators w) (opk_identityId key) with
  | Err e => if negb (is_not_found e) then Err e else Ok (plain_summary key)
  | Ok operator =>
      Ok (mkKeySummary (opk_keyId key) (opk_identityId key) (Some (or_id operator)) (opk_groupId key) (opk_publicKey key)
            (opk_fingerprint key) (opk_createdAt key) (opk_rotatedAt key) trustTier (oc_walletId (or_config operator))
            (Some (oc_provider (or_config operator))))
  end.
Fixpoint summarizeOperationalKeys (keys : list OperationalKey) (w : KeyWorld) : res (list KeySummary) :=
  match keys with
  | [] => Ok []
  | key :: keys =>
      match summarizeOperationalKey key w with
      | Err e => Err e
      | Ok s => match summarizeOperationalKeys keys w with Err e => Err e | Ok l => Ok (s :: l) end
      end
  end.

(** ** [keys.init] *)
Definition wallet_change (walletId : string) : OperatorChanges :=
  {| och_label := None; och_role := None; och_scopeMode := None; och_provider := None; och_walletId := Some walletId;
     och_inboxIds := None; och_operatorDisclosures := None |}.
(** The wallet to bind, and whether it was made. *)
Definition choose_wallet (i : KeyInputs) (operator : OperatorRecordType) (walletId : option string)
  : prog KeyWorld yeff (outcome (string * bool)) :=
  match or_else walletId (oc_walletId (or_config operator)) with
  | None =>
      pthen (awaited (on_manager (km_createWallet (kn_secret i) (kn_vault i 0%nat) (kn_uuid i) (kn_entropy i) (kn_now i) (oc_label (or_config operator)))))
        (λ created, answer (wn_id created, true))
  | Some walletId =>
      pthen (awaited (on_manager (km_getWallet (kn_secret i) (kn_vault i 0%nat) walletId))) (λ _, answer (walletId, false))
  end.
Definition bind_wallet (operator : OperatorRecordType) (walletId : string) : prog KeyWorld yeff (outcome unit) :=
  if bool_decide (Some walletId ≠ oc_walletId (or_config operator)) then
    pthen (awaited (on_operators (λ st, op_update zodIssue st (or_id operator) (wallet_change walletId)))) (λ _, answer tt)
  else answer tt.
Definition ensure_operational (i : KeyInputs) (operatorId : string) : prog KeyWorld yeff (outcome (OperationalKey * bool)) :=
  sync existing <- looked (λ w, getOperationalKey operatorId (kw_manager w)) ;;
  match existing with
  | Ok key => answer (key, false)
  | Err _ =>
      pthen (awaited (on_manager (createOperationalKey thrown config (kn_prompt i) (kn_pair i) (kn_now i) operatorId None)))
        (λ key, answer (key, true))
  end.
Definition keys_init (i : KeyInputs) (operatorId : string) (walletId : option string) : prog KeyWorld yeff (outcome KeyInitResult) :=
  pthen (awaited (ask (resolve_record operatorId))) (λ operator,
  let provider := oc_provider (or_config operator) in
  match provider with
  | wallet_ows =>
    Ret (Some (Err (ValidationError_create "provider" "Only the internal wallet provider is currently supported for keys.init"
      (Some [("operatorId", JStr (or_id operator)); ("provider", JStr "ows")]))))
  | wallet_internal =>
    pthen (choose_wallet i operator walletId) (λ '(walletId, createdWallet),
    pthen (bind_wallet operator walletId) (λ _,
    pthen (ensure_operational i (or_id operator)) (λ '(operationalKey, createdOperationalKey),
    pthen (in_manager (getOrCreateXmtpIdentityKey (λ n, kn_vault i (n + 1)%nat) (kn_legacy i) (kn_random i) (or_id operator))) (λ _,
    pthen (awaited (ask (summarizeOperationalKey operationalKey))) (λ summary,
    answer (mkKeyInit (or_id operator) walletId provider trustTier createdWallet createdOperationalKey
      ("xmtp-identity-key:" +:+ or_id operator) summary))))))
  end).

(** ** The other actions *)
Definition keys_list (w : KeyWorld) : res (list KeySummary) := summarizeOperationalKeys (listOperationalKeys (kw_manager w)) w.
Definition find_key_by (keyId : string) (w : KeyWorld) : option OperationalKey :=
  List.find (λ k, bool_decide (opk_keyId k = keyId) || bool_decide (opk_identityId k = keyId)) (listOperationalKeys (kw_manager w)).
Definition keys_info (keyId : string) (w : KeyWorld) : res KeySummary :=
  match find_key_by keyId w with
  | None => Err (NotFoundError_create "key" keyId)
  | Some key => summarizeOperationalKey key w
  end.
Definition keys_export_public (keyId : string) (w : KeyWorld) : res PublicKeyExport :=
  match find_key_by keyId w with
  | None => Err (NotFoundError_create "key" keyId)
  | Some key => Ok (mkExport (opk_keyId key) (opk_identityId key) (opk_publicKey key) (opk_fingerprint key) trustTier)
  end.
Definition wallet_create (i : KeyInputs) (label : string) : Op KeyWorld WalletInfo :=
  on_manager (km_createWallet (kn_secret i) (kn_vault i 0%nat) (kn_uuid i) (kn_entropy i) (kn_now i) label).
Definition wallet_list (i : KeyInputs) : Op KeyWorld (list WalletInfo) :=
  on_manager (km_listWallets (kn_secret i) (kn_vault i 0%nat)).
Definition wallet_info (i : KeyInputs) (walletId : string) : Op KeyWorld WalletDetails :=
  obind (on_manager (km_getWallet (kn_secret i) (kn_vault i 0%nat) walletId)) (λ wallet,
  obind (on_manager (km_listWalletAccounts (kn_secret i) (λ n, kn_vault i (n + 1)%nat) walletId)) (λ accounts,
  oret (Some (Ok (mkDetails wallet accounts))))).
End actions.

(** ** Initialising an operator twice *)
Section init.
Context {X : KeyCrypto} {Laws : KeyCryptoLaws} {D : JsDate} {S : Type} {Ops : VaultOps S} (R : S → AbsVault → Prop)
  {C : VaultContract S R} (thrown : string) (config : KeyManagerConfig) (zodIssue : OperatorConfigType → string * string).
Implicit Types (s : KeyManager (S := S)) (w : KeyWorld (S := S)).
(** The vault has the wallet. *)
Definition has_wallet s (id : string) : Prop := ∃ a, R (kv_vault (km_kv s)) a ∧ is_Some (av_wallets a !! id).
Definition wallets_kept (v v' : S) : Prop := ∀ a, R v a → ∃ a', R v' a' ∧ av_wallets a' = av_wallets a.
Lemma wallets_kept_refl v : wallets_kept v v.
Proof. by intros a Ha; exists a. Qed.
Lemma set_wallets_kept i key value v : input_ok i → wallets_kept v (v_set i key value v).1.
Proof. intros Hi a Ha. destruct (vc_set i key value v a Ha Hi) as [[HR _]|(_ & [HR|[_ HR]] & _)]; by eexists. Qed.
Lemma kv_set_wallets i l key value kv : input_ok i → wallets_kept (kv_vault kv) (kv_vault (kv_set (S := S) i l key value kv).1).
Proof.
  intros Hi. unfold kv_set, obind, kv_with. pose proof (set_wallets_kept i key value (kv_vault kv) Hi) as H.
  destruct (v_set i key value (kv_vault kv)) as [v [[[]|e]|]]; cbn in *; [|done|done]. by rewrite removeLegacy_vault.
Qed.
Lemma kv_get_wallets i l key kv : input_ok (i 1%nat) → wallets_kept (kv_vault kv) (kv_vault (kv_get (S := S) i l key kv).1).
Proof.
  intros Hi. unfold kv_get. destruct (v_get _ _ _) as [[b|e]|]; [apply wallets_kept_refl| |apply wallets_kept_refl].
  destruct (negb _); [apply wallets_kept_refl|]. destruct (readLegacyKvEntry l key kv) as [b|e']; [|apply wallets_kept_refl].
  unfold obind, kv_with, omod, oret. pose proof (set_wallets_kept (i 1%nat) key b (kv_vault kv) Hi) as H.
  destruct (v_set (i 1%nat) key b (kv_vault kv)) as [v [[[]|e']|]]; cbn in *; [|done|done]. by rewrite removeLegacy_vault.
Qed.
(** What [on_kv] leaves alone. *)
Definition rest_kept s s' : Prop := km_opKeys s' = km_opKeys s ∧ km_walletBackend s' = km_walletBackend s.
Lemma getOrCreate_frame i l random key s : (∀ n, input_ok (i n)) →
  let s' := (alone (getOrCreate i l random key) s).1 in rest_kept s s' ∧ wallets_kept (kv_vault (km_kv s)) (kv_vault (km_kv s')).
Proof.
  intros Hi. unfold getOrCreate. cbv zeta. rewrite alone_bind, kv_getting_alone. unfold on_kv.
  pose proof (kv_get_wallets i l key (km_kv s) (Hi 1%nat)) as Hg.
  destruct (kv_get i l key (km_kv s)) as [kv [[b|e]|]]; cbn [fst snd] in *; [done| |done].
  destruct (negb _); [done|]. rewrite alone_bind, kv_setting_alone. unfold on_kv. cbn [km_kv].
  pose proof (kv_set_wallets (i 2%nat) l key random kv (Hi 2%nat)) as Hs.
  destruct (kv_set (i 2%nat) l key random kv) as [kv' r]; cbn [fst snd alone] in *. split; [done|].
  intros a (a1 & Ha1 & E1)%Hg. apply Hs in Ha1 as (a2 & Ha2 & E2). exists a2. cbn. by rewrite E2.
Qed.
(** Where an identity key is kept. *)
Definition identity_ref (id : string) : string := "xmtp-identity-key:" +:+ id.
Lemma identity_key_ok i l random id s m : kv_rel R (km_kv s) m → (∀ n, input_ok (i n)) → kv_calm i l →
  let v := default random (m !! identity_ref id) in
  ∃ s' k, alone (getOrCreateXmtpIdentityKey i l random id) s = (s', Some (Ok k)) ∧ kv_rel R (km_kv s') (<[identity_ref id := v]> m) ∧
    vault_has R (identity_ref id) v s' ∧ rest_kept s s' ∧ wallets_kept (kv_vault (km_kv s)) (kv_vault (km_kv s')).
Proof.
  intros Hs Hi Hc. unfold getOrCreateXmtpIdentityKey. cbv zeta. rewrite alone_bind.
  destruct (getOrCreate_ok R i l random (identity_ref id) s m Hs Hi Hc) as (Hrel & Hhas & Hok).
  destruct (getOrCreate_frame i l random (identity_ref id) s Hi) as [Hrest Hw]. unfold identity_ref in *.
  destruct (alone (getOrCreate _ _ _ _) s) as [s' r]. cbn [fst snd alone] in *. rewrite Hok. eexists s', _. by split_and!.
Qed.

(** *** Wallets *)
Definition backend_ready s : Prop := is_Some (km_walletBackend s).
Lemma with_backend_ok {A} secret (k : string → KOp (S := S) A) s s' x : with_backend secret k s = (s', Some (Ok x)) →
  ∃ passphrase states b, k passphrase (mkBackend (kv_vault (km_kv s)) states) = (b, Some (Ok x)) ∧
    km_kv s' = mkKv (KeyBackend.kb_vault b) (kv_legacy (km_kv s)) ∧ km_opKeys s' = km_opKeys s ∧ backend_ready s'.
Proof.
  unfold with_backend, backend_ready. destruct (km_walletBackend s) as [[passphrase states]|]; [|destruct secret as [passphrase|e]; [|done]];
    destruct (k passphrase _) as [b r] eqn:E; intros [= <- ->]; eexists passphrase, _, b; cbn; by split_and!.
Qed.
Definition quiet_vault (i : VaultInput) : Prop := in_io i = None.
Lemma listed_wallet i id v a infos : R v a → quiet_vault i → v_listWallets i v = Some (Ok infos) →
  List.find (λ x, bool_decide (wi_id x = id)) infos = (λ x, abs_info (id, x)) <$> av_wallets a !! id.
Proof.
  intros Ha Hi Hl. destruct (vc_listWallets i v a Ha) as [(infos' & E & Hp)|[[x Hx] _]]; [|by rewrite Hi in Hx].
  rewrite Hl in E. injection E as ->. by apply find_info.
Qed.
Lemma getWallet_ok secret i id s s' m info : kv_rel R (km_kv s) m → quiet_vault i →
  km_getWallet secret i id s = (s', Some (Ok info)) →
  kv_rel R (km_kv s') m ∧ has_wallet s' id ∧ km_opKeys s' = km_opKeys s ∧ backend_ready s'.
Proof.
  intros Hm Hi (p & states & b & Hb & Hkv & Hop & Hr)%with_backend_ok. unfold getWallet, kbind, of_vault in Hb.
  cbn [KeyBackend.kb_vault] in Hb. destruct (v_listWallets i _) as [[infos|e]|] eqn:Hl; [|done..].
  destruct Hm as (a & lm & Ha & Hlm & ->). rewrite (listed_wallet i id _ a infos Ha Hi Hl) in Hb.
  destruct (av_wallets a !! id) as [x|] eqn:Hx; [|done]. injection Hb as <- _. cbn in Hkv.
  unfold kv_rel, has_wallet. rewrite Hkv. cbn. split_and!; [by exists a, lm|by exists a; rewrite Hx|done|done].
Qed.
Lemma getWallet_found secret i id s : has_wallet s id → quiet_vault i → backend_ready s →
  ∃ info, km_getWallet secret i id s = (s, Some (Ok info)).
Proof.
  intros (a & Ha & [x Hx]) Hi [[passphrase states] Hb]. unfold km_getWallet, with_backend. rewrite Hb.
  unfold getWallet, kbind, of_vault. cbn [KeyBackend.kb_vault].
  destruct (vc_listWallets i _ a Ha) as [(infos & E & Hp)|[[y Hy] _]]; [|by rewrite Hi in Hy]. rewrite E.
  rewrite (find_info _ id infos Hp), Hx. cbn. destruct s as [[v legacy] ? ? ? ? ? ? ? ?]. cbn in *. subst. by eexists.
Qed.
Lemma createWallet_ok secret i uuid entropy now label s s' m info : kv_rel R (km_kv s) m → quiet_vault i →
  km_createWallet secret i uuid entropy now label s = (s', Some (Ok info)) →
  kv_rel R (km_kv s') m ∧ wn_id info = uuid ∧ has_wallet s' uuid ∧ km_opKeys s' = km_opKeys s ∧ backend_ready s'.
Proof.
  intros Hm Hi (p & states & b & Hb & Hkv & Hop & Hr)%with_backend_ok. unfold createWallet, kbind, kret in Hb.
  destruct (generateMnemonic entropy) as [mnemonic|t] eqn:Hg; cbn [of_throw] in Hb; [|done].
  destruct Hm as (a & lm & Ha & Hlm & ->). unfold on_vault in Hb. cbn [KeyBackend.kb_vault KeyBackend.kb_states] in Hb.
  destruct (vc_createWallet i uuid label mnemonic p _ a Ha) as [[HR _]|([y Hy] & _)];
    [by eapply law_text, plain_printable, generateMnemonic_plain|by intros c n x; rewrite Hi| |by rewrite Hi in Hy].
  destruct (v_createWallet i uuid label mnemonic p (kv_vault (km_kv s))) as [v [[[]|e]|]]; cbn in Hb, HR; [|done..].
  injection Hb as <- <-. cbn in Hkv. unfold kv_rel, has_wallet. rewrite Hkv. cbn.
  split_and!; [by eexists _, lm|done| |done|done]. eexists. split; [exact HR|]. cbn. by rewrite lookup_insert_eq; eexists.
Qed.

(** *** The handler *)
Definition world_ok w : Prop := (∃ m, kv_rel R (km_kv (kw_manager w)) m) ∧ Registries.op_inv (kw_operators w).
(** The file system works and the vault's nonces have their length. *)
Definition inputs_ok (i : KeyInputs) : Prop := (∀ n, input_ok (kn_vault i n)) ∧ kv_calm (kn_vault i) (kn_legacy i).
Lemma later_inputs i : inputs_ok i →
  (∀ n, input_ok (kn_vault i (n + 1)%nat)) ∧ kv_calm (λ n, kn_vault i (n + 1)%nat) (kn_legacy i).
Proof. intros [Hi [Hc Hl]]. split; [by intros n|]. split; [by intros n|done]. Qed.
Lemma on_manager_ok {A} (m : Op (KeyManager (S := S)) A) w w' x : on_manager m w = (w', Some (Ok x)) →
  ∃ s', m (kw_manager w) = (s', Some (Ok x)) ∧ w' = mkKeyWorld s' (kw_operators w).
Proof. unfold on_manager. destruct (m _) as [s' r]. intros [= <- ->]. by exists s'. Qed.
Lemma alone_pthen {A B} (p : prog (KeyWorld (S := S)) yeff (outcome A)) (f : A → prog KeyWorld yeff (outcome B)) w :
  alone (pthen p f) w = obind (alone p) (λ x, alone (f x)) w.
Proof. unfold pthen, obind. rewrite alone_bind. by destruct (alone p w) as [w' [[x|e]|]]. Qed.
Lemma alone_awaited {T A} (f : T → T * A) t : alone (awaited f) t = f t.
Proof. cbn. by destruct (f t). Qed.
Lemma pthen_ok {A B} (p : prog (KeyWorld (S := S)) yeff (outcome A)) (f : A → prog KeyWorld yeff (outcome B)) w w' y :
  alone (pthen p f) w = (w', Some (Ok y)) → ∃ w1 x, alone p w = (w1, Some (Ok x)) ∧ alone (f x) w1 = (w', Some (Ok y)).
Proof. rewrite alone_pthen. apply obind_ok. Qed.
Lemma awaited_ok {T A} (f : T → T * A) t x : alone (awaited f) t = x → f t = x.
Proof. by rewrite alone_awaited. Qed.
Lemma pthen_run {A B} (p : prog (KeyWorld (S := S)) yeff (outcome A)) (f : A → prog KeyWorld yeff (outcome B)) w w1 x :
  alone p w = (w1, Some (Ok x)) → alone (pthen p f) w = alone (f x) w1.
Proof. intros H. rewrite alone_pthen. unfold obind. by rewrite H. Qed.
Lemma in_manager_alone {A} (p : prog (KeyManager (S := S)) yeff A) w :
  alone (in_manager p) w = (mkKeyWorld (alone p (kw_manager w)).1 (kw_operators w), (alone p (kw_manager w)).2).
Proof. revert w. induction p as [a|Y e k IH|Y f k IH]; intros w; cbn; [by destruct w|by rewrite IH|by rewrite IH]. Qed.
Lemma resolve_record_ok name w o : Registries.op_inv (kw_operators w) → resolve_record name w = Ok o →
  om_get (or_id o) (kw_operators w) = Some o ∧ or_status o ≠ op_removed.
Proof.
  intros [Hnd Hinv]. unfold resolve_record, op_lookup. destruct (startsWith "op_" name).
  - destruct (resourceIdSchema "op_" name); cbn [negb]; [|done].
    destruct (om_get name (kw_operators w)) as [r|] eqn:Hr; [|done]. case_bool_decide; [done|]. intros [= <-].
    by destruct (Hinv _ _ Hr) as [-> _].
  - destruct (filter _ (op_list _)) as [|r [|r' l]] eqn:Hf; [done| |done]. intros [= <-].
    assert (r ∈ op_list (kw_operators w)) as Hin.
    { apply (list_elem_of_filter (λ record, oc_label (or_config record) = name)). rewrite Hf. by left. }
    unfold op_list in Hin. apply list_elem_of_filter in Hin as [Hs Hin]. split; [|done].
    apply list_elem_of_fmap in Hin as ([k v] & -> & Hin). apply om_get_NoDup in Hin; [|done]. cbn.
    by destruct (Hinv _ _ Hin) as [-> _].
Qed.
(** The first three steps. *)
Lemma choose_wallet_ok i o walletId w w' wid created m : kv_rel R (km_kv (kw_manager w)) m → inputs_ok i →
  alone (choose_wallet i o walletId) w = (w', Some (Ok (wid, created))) →
  kv_rel R (km_kv (kw_manager w')) m ∧ has_wallet (kw_manager w') wid ∧ backend_ready (kw_manager w') ∧
  km_opKeys (kw_manager w') = km_opKeys (kw_manager w) ∧ kw_operators w' = kw_operators w.
Proof.
  intros Hm [Hi [Hc _]]. unfold choose_wallet. destruct (or_else walletId _) as [id|].
  - intros (w1 & info & (s1 & H1 & ->)%awaited_ok%on_manager_ok & [= <- <- <-])%pthen_ok.
    apply (getWallet_ok _ _ _ _ _ m) in H1 as (? & ? & ? & ?); [|done|apply Hc]. by split_and!.
  - intros (w1 & info & (s1 & H1 & ->)%awaited_ok%on_manager_ok & [= <- <- <-])%pthen_ok.
    apply (createWallet_ok _ _ _ _ _ _ _ _ m) in H1 as (? & <- & ? & ? & ?); [|done|apply Hc]. by split_and!.
Qed.
Definition bound w (id wid : string) : Prop := ∃ o, om_get id (kw_operators w) = Some o ∧ or_id o = id ∧
  or_status o ≠ op_removed ∧ oc_provider (or_config o) = wallet_internal ∧ oc_walletId (or_config o) = Some wid.
Lemma bind_wallet_ok o wid w w' : Registries.op_inv (kw_operators w) → om_get (or_id o) (kw_operators w) = Some o →
  or_status o ≠ op_removed → oc_provider (or_config o) = wallet_internal →
  alone (bind_wallet zodIssue o wid) w = (w', Some (Ok tt)) →
  kw_manager w' = kw_manager w ∧ Registries.op_inv (kw_operators w') ∧ bound w' (or_id o) wid.
Proof.
  intros Hinv Ho Hs Hp. unfold bind_wallet. case_bool_decide as Hw.
  - intros (w1 & r & H1%awaited_ok & [= <-])%pthen_ok. unfold on_operators in H1.
    pose proof (op_step_inv zodIssue _ _ (os_update zodIssue (kw_operators w) (or_id o) (wallet_change wid)) Hinv) as Hinv'.
    destruct (op_update zodIssue (kw_operators w) (or_id o) (wallet_change wid)) as [st x] eqn:Hup.
    injection H1 as <- ->. cbn in *. split_and!; [done|done|]. unfold op_update in Hup. rewrite Ho in Hup.
    case_bool_decide; [done|]. destruct (op_validateConfig _ _); [done|]. injection Hup as <- _.
    eexists. split; [apply om_get_set_eq|]. by split_and!.
  - intros [= <-]. split_and!; [done|done|]. exists o. split_and!; done.
Qed.
Lemma ensure_operational_ok i id w w' key created :
  alone (ensure_operational thrown config i id) w = (w', Some (Ok (key, created))) →
  getOperationalKey id (kw_manager w') = Ok key ∧ km_kv (kw_manager w') = km_kv (kw_manager w) ∧
  km_walletBackend (kw_manager w') = km_walletBackend (kw_manager w) ∧ kw_operators w' = kw_operators w.
Proof.
  unfold ensure_operational. cbn [alone looked fst snd]. destruct (getOperationalKey id (kw_manager w)) as [k|e] eqn:Hk; [by intros [= <- <- <-]|].
  intros (w1 & k & (s1 & H1 & ->)%awaited_ok%on_manager_ok & [= <- <- <-])%pthen_ok.
  unfold createOperationalKey in H1. apply obind_ok in H1 as (s2 & [] & [= <- _] & H1).
  unfold createOperationalKeyRecord in H1. apply obind_ok in H1 as (s3 & k3 & [= <- _] & H1).
  apply obind_ok in H1 as (s4 & k4 & [= <- _] & H1). apply obind_ok in H1 as (s5 & k5 & [= <- _] & H1).
  apply obind_ok in H1 as (s6 & [] & [= <-] & [= <- <-]).
  unfold getOperationalKey. cbn. by rewrite om_get_set_eq.
Qed.
(** Everything in place: a call finds it all. *)
Lemma keys_init_again i id wid w m key summary v : resourceIdSchema "op_" id = true → bound w id wid →
  kv_rel R (km_kv (kw_manager w)) m → m !! identity_ref id = Some v → has_wallet (kw_manager w) wid → backend_ready (kw_manager w) →
  getOperationalKey id (kw_manager w) = Ok key → summarizeOperationalKey config key w = Ok summary → inputs_ok i →
  ∃ w', alone (keys_init thrown config zodIssue i id None) w =
      (w', Some (Ok (mkKeyInit id wid wallet_internal (trustTier config) false false (identity_ref id) summary))) ∧
    kw_operators w' = kw_operators w ∧ rest_kept (kw_manager w) (kw_manager w') ∧ vault_has R (identity_ref id) v (kw_manager w').
Proof.
  intros Hid (o & Ho & Hoid & Hs & Hp & Hw) Hm Hv Hwal Hb Hk Hsum Hin. pose proof Hin as [Hi [Hc _]].
  assert (startsWith "op_" id = true) as Hst by (unfold resourceIdSchema in Hid; by destruct (startsWith "op_" id)).
  unfold keys_init. erewrite (pthen_run _ _ w w o).
  2: { rewrite alone_awaited. unfold ask, resolve_record. rewrite Hst, Hid. cbn [negb]. unfold op_lookup.
       by rewrite Ho, bool_decide_eq_false_2. }
  rewrite Hp. destruct (getWallet_found (kn_secret i) (kn_vault i 0%nat) wid (kw_manager w) Hwal (Hc 0%nat) Hb) as [info Hget].
  erewrite (pthen_run _ _ w w (wid, false)).
  2: { unfold choose_wallet. rewrite Hw. cbn [or_else]. erewrite (pthen_run _ _ w w info); [done|].
       rewrite alone_awaited. unfold on_manager. rewrite Hget. by destruct w. }
  erewrite (pthen_run _ _ w w tt); [|unfold bind_wallet; by rewrite Hw, bool_decide_eq_false_2 by (by intros [])].
  erewrite (pthen_run _ _ w w (key, false)).
  2: { unfold ensure_operational. cbn [alone looked fst snd]. by rewrite Hoid, Hk. }
  destruct (later_inputs i Hin) as [Hi' Hc'].
  destruct (identity_key_ok (λ n, kn_vault i (n + 1)%nat) (kn_legacy i) (kn_random i) id _ m Hm Hi' Hc')
    as (s' & k & Hg & _ & Hhas & Hr & _). rewrite Hv in Hhas.
  erewrite (pthen_run _ _ w (mkKeyWorld s' (kw_operators w)) k); [|by rewrite in_manager_alone, Hoid, Hg].
  erewrite (pthen_run _ _ _ (mkKeyWorld s' (kw_operators w)) summary); [|rewrite alone_awaited; unfold ask; by rewrite <-Hsum].
  rewrite Hoid. eexists. split; [reflexivity|]. by split_and!.
Qed.
(** C34: initialising an operator gives it a wallet, an operational key and an
    identity key, and doing it again gives it nothing new.  When [keys.init]
    answers, with a working file system and no other request meanwhile, the
    vault has the wallet it reports and the operator is bound to it; the key
    manager has the operational key it reports; and the vault has an identity
    key at the reference it reports, the one that was stored there before if
    there was one.  Initialised again in the same circumstances, with whatever
    new randomness, the same operator is answered with the same wallet, key
    and reference, none of them created; no operator, operational key or
    wallet state has changed, and the identity key in the vault is the same. *)
Theorem keys_init_idempotent i name walletId w w1 r m : kv_rel R (km_kv (kw_manager w)) m → Registries.op_inv (kw_operators w) →
  inputs_ok i → alone (keys_init thrown config zodIssue i name walletId) w = (w1, Some (Ok r)) →
  resourceIdSchema "op_" (kr_operatorId r) = true →
  world_ok w1 ∧ has_wallet (kw_manager w1) (kr_walletId r) ∧ bound w1 (kr_operatorId r) (kr_walletId r) ∧
  (∃ key, getOperationalKey (kr_operatorId r) (kw_manager w1) = Ok key ∧ opk_keyId key = ks_keyId (kr_operationalKey r)) ∧
  kr_identityKeyRef r = identity_ref (kr_operatorId r) ∧
  ∃ identity, vault_has R (kr_identityKeyRef r) identity (kw_manager w1) ∧
    (∀ old, m !! kr_identityKeyRef r = Some old → identity = old) ∧
    ∀ i2, inputs_ok i2 → ∃ w2, alone (keys_init thrown config zodIssue i2 (kr_operatorId r) None) w1 =
        (w2, Some (Ok (mkKeyInit (kr_operatorId r) (kr_walletId r) wallet_internal (trustTier config) false false
          (kr_identityKeyRef r) (kr_operationalKey r)))) ∧
      kw_operators w2 = kw_operators w1 ∧ rest_kept (kw_manager w1) (kw_manager w2) ∧
      vault_has R (kr_identityKeyRef r) identity (kw_manager w2).
Proof.
  intros Hm Hinv Hin Hrun Hid. unfold keys_init in Hrun.
  apply pthen_ok in Hrun as (w0 & o & [= <- Ho]%awaited_ok & Hrun). apply resolve_record_ok in Ho as [Ho Hs]; [|done].
  destruct (oc_provider (or_config o)) eqn:Hp; [|done].
  apply pthen_ok in Hrun as (w2 & [wid cw] & H2 & Hrun).
  destruct (choose_wallet_ok _ _ _ _ _ _ _ _ Hm Hin H2) as (Hm2 & Hwal2 & Hb2 & Hop2 & Hops2).
  apply pthen_ok in Hrun as (w3 & [] & H3 & Hrun).
  apply bind_wallet_ok in H3 as (E3 & Hinv3 & Hbound); [|by rewrite Hops2..|done|done].
  apply pthen_ok in Hrun as (w4 & [key ck] & H4 & Hrun).
  apply ensure_operational_ok in H4 as (Hkey & E4 & B4 & Hops4).
  rewrite <-E3 in Hm2, Hwal2, Hb2. rewrite <-E4 in Hm2. destruct (later_inputs i Hin) as [Hi' Hc'].
  destruct (identity_key_ok _ _ (kn_random i) (or_id o) _ _ Hm2 Hi' Hc') as (s5 & k & H5 & Hm5 & Hhas & [Hop5 Hb5] & Hw5).
  apply pthen_ok in Hrun as (w5 & k' & E5 & Hrun). rewrite in_manager_alone, H5 in E5. injection E5 as <- <-.
  apply pthen_ok in Hrun as (w6 & summary & [= <- Hsum]%awaited_ok & [= <- <-]).
  cbn [kr_operatorId kr_walletId kr_identityKeyRef kr_operationalKey kw_manager kw_operators] in *.
  assert (has_wallet s5 wid) as Hwal5.
  { destruct Hwal2 as (a & Ha & Hx). rewrite <-E4 in Ha. destruct (Hw5 a Ha) as (a' & Ha' & E). exists a'. by rewrite E. }
  assert (bound (mkKeyWorld s5 (kw_operators w4)) (or_id o) wid) as Hbound5 by (unfold bound in *; by rewrite Hops4).
  assert (getOperationalKey (or_id o) s5 = Ok key) as Hkey5 by (unfold getOperationalKey in *; by rewrite Hop5).
  split_and!; [|done|done| |done|].
  - split; [by eexists|]. cbn. by rewrite Hops4.
  - exists key. split; [done|]. unfold summarizeOperationalKey in Hsum. cbn in Hsum.
    destruct (op_lookup _ _) as [o'|e]; [by injection Hsum as <-|]. destruct (negb _); [done|by injection Hsum as <-].
  - eexists. split_and!; [exact Hhas| |].
    + intros old Hold. unfold identity_ref. by rewrite Hold.
    + intros i2 Hin2. fold (identity_ref (or_id o)). eapply (keys_init_again _ _ _ (mkKeyWorld s5 (kw_operators w4))); [done|done|exact Hm5|apply lookup_insert_eq|done| |exact Hkey5|exact Hsum|done].
      unfold backend_ready in *. cbn. by rewrite Hb5, B4.
Qed.
End init.

(** ** Witness *)
#[local] Existing Instances demo_crypto demo_crypto_laws memory_vault iso_date.
Definition demo_inputs_of (uuid : string) : KeyInputs :=
  mkKeyInputs (Ok "pass") demo_inputs demo_io uuid (map to_byte (seq 7 32)) "2024" (pr_answer (Ok tt)) (Some [Byte.x11]) [Byte.x05].
Definition demo_operator : OperatorConfigType :=
  {| oc_label := "main"; oc_role := role_operator; oc_scopeMode := shared; oc_provider := wallet_internal; oc_walletId := None;
     oc_inboxIds := None; oc_operatorDisclosures := None |}.
Definition demo_issue : OperatorConfigType → string * string := λ _, ("config", "invalid").
Definition demo_id : string := "op_000000000000000a".
Definition demo_keyworld : KeyWorld (S := MemoryVault) :=
  mkKeyWorld demo_manager (op_create demo_issue [] demo_operator demo_id "2024").1.
Lemma demo_keyworld_ok : Registries.op_inv (kw_operators demo_keyworld).
Proof. apply (op_step_inv demo_issue [] _ (os_create demo_issue [] demo_operator demo_id "2024" eq_refl)). split; [constructor|done]. Qed.
Lemma demo_inputs_ok uuid : inputs_ok (demo_inputs_of uuid).
Proof. split; [intros n; apply demo_input_ok|split; [by intros n|done]]. Qed.
(** The operator named by its label, then by its identifier. *)
Lemma keys_init_idempotent_witness :
  match alone (keys_init "" demo_config demo_issue (demo_inputs_of "w1") "main" None) demo_keyworld with
  | (w1, Some (Ok r)) => kr_walletId r = "w1" ∧ kr_createdWallet r = true ∧
      (∃ identity, vault_has (@memory_rel demo_vault) (kr_identityKeyRef r) identity (kw_manager w1)) ∧
      match alone (keys_init "" demo_config demo_issue (demo_inputs_of "w2") demo_id None) w1 with
      | (w2, Some (Ok r2)) => kr_walletId r2 = "w1" ∧ kr_createdWallet r2 = false ∧ kw_operators w2 = kw_operators w1
      | _ => False
      end
  | _ => False
  end.
Proof.
  destruct (alone (keys_init "" demo_config demo_issue (demo_inputs_of "w1") "main" None) demo_keyworld) as [w1 [[r|e]|]] eqn:E.
  - assert (kr_operatorId r = demo_id ∧ kr_walletId r = "w1" ∧ kr_createdWallet r = true) as (Ho & Hw & Hc)
      by (vm_compute in E; injection E as _ <-; by vm_compute).
    destruct (@keys_init_idempotent demo_crypto demo_crypto_laws MemoryVault (@memory_vault demo_vault) (@memory_rel demo_vault)
      (@memory_contract demo_vault demo_vault_laws) "" demo_config demo_issue (demo_inputs_of "w1") "main" None
      demo_keyworld w1 r ∅ demo_manager_rel demo_keyworld_ok (demo_inputs_ok "w1") E) as (_ & _ & _ & _ & _ & v & Hv & _ & H); [by rewrite Ho|].
    destruct (H (demo_inputs_of "w2") (demo_inputs_ok "w2")) as (w2 & E2 & Hops & _). rewrite Ho in E2.
    split; [exact Hw|]. split; [exact Hc|]. split; [exists v; exact Hv|].
    eassert (alone (keys_init "" demo_config demo_issue (demo_inputs_of "w2") demo_id None) w1 = _) as -> by exact E2. by split_and!.
  - vm_compute in E. discriminate E.
  - vm_compute in E. discriminate E.
Defined.
(** Two requests interleaved: the second runs while the first creates its
    wallet.  The first reports [w1] and the second [w2]; the operator is bound
    to one of them. *)
Lemma init_race :
  let init uuid := keys_init "" demo_config demo_issue (demo_inputs_of uuid) "main" None in
  let other w := alone (init "w2") w in
  let x := meanwhile [id; λ w, (other w).1] (init "w1") demo_keyworld in
  match x.2, (other demo_keyworld).2, op_lookup (kw_operators x.1) demo_id with
  | Some (Ok a), Some (Ok b), Ok r => kr_walletId a = "w1" ∧ kr_walletId b = "w2" ∧ oc_walletId (or_config r) = Some "w1"
  | _, _, _ => False
  end.
Proof. vm_compute. by split_and!. Qed.
(** An operator whose label is [op_x] is never found by it. *)
Lemma op_label_unfindable :
  let st := (op_create demo_issue [] {| oc_label := "op_x"; oc_role := role_operator; oc_scopeMode := shared;
    oc_provider := wallet_internal; oc_walletId := None; oc_inboxIds := None; oc_operatorDisclosures := None |} demo_id "2024").1 in
  is_Some (om_get demo_id st) ∧ isOk (resolve_record "op_x" (mkKeyWorld demo_manager st)) = false.
Proof. by vm_compute; split; [eexists|]. Qed.
