(* ===== verification/SdkParts.v ===== *)
(** * The agent SDK: streams, request tracking, backoff and liveness

    [sdk/src/event-stream.ts], [request-tracker.ts], [reconnection.ts] and
    [heartbeat-monitor.ts], the parts that the handler of [SdkHandler]
    composes.  A promise handed out is a number; settling it appends to a log. *)
From S2P Require Import Prelude Json Errors.
Open Scope nat_scope.

(** ** [EventStream]: an asynchronous queue *)
Section stream.
Context {E : Type}.
(** [es_calls] counts the calls of [next]; the result of a call is [None] for
    [{done: true}]. *)
Record EventStream := mkStream {
  es_buffer : list E; es_done : bool; es_waiter : option nat;
  es_calls : nat; es_results : list (nat * option E)
}.
Definition createEventStream : EventStream := mkStream [] false None 0 [].
Definition es_push (e : E) (s : EventStream) : EventStream :=
  if es_done s then s
  else
    match es_waiter s with
    | Some w => mkStream (es_buffer s) (es_done s) None (es_calls s) (es_results s ++ [(w, Some e)])
    | None => mkStream (es_buffer s ++ [e]) (es_done s) None (es_calls s) (es_results s)
    end.
Definition es_complete (s : EventStream) : EventStream :=
  match es_waiter s with
  | Some w => mkStream (es_buffer s) true None (es_calls s) (es_results s ++ [(w, None)])
  | None => mkStream (es_buffer s) true None (es_calls s) (es_results s)
  end.
(** [buffer.shift()] first, then [done], then a promise that waits; a second
    waiting call takes the place of the first. *)
Definition es_next (s : EventStream) : EventStream :=
  let call := es_calls s in
  match es_buffer s with
  | e :: buffer => mkStream buffer (es_done s) (es_waiter s) (call + 1) (es_results s ++ [(call, Some e)])
  | [] =>
      if es_done s then mkStream [] true (es_waiter s) (call + 1) (es_results s ++ [(call, None)])
      else mkStream [] false (Some call) (call + 1) (es_results s)
  end.

Inductive StreamOp := SoPush (e : E) | SoComplete | SoNext.
Definition stream_op (s : EventStream) (o : StreamOp) : EventStream :=
  match o with SoPush e => es_push e s | SoComplete => es_complete s | SoNext => es_next s end.
Definition run_stream (ops : list StreamOp) : EventStream := foldl stream_op createEventStream ops.
(** The events pushed before the first completion. *)
Fixpoint accepted (ops : list StreamOp) : list E :=
  match ops with
  | [] => []
  | SoPush e :: ops => e :: accepted ops
  | SoComplete :: _ => []
  | SoNext :: ops => accepted ops
  end.
(** The consumer of [for await] asks again only when it was answered. *)
Fixpoint sequential (s : EventStream) (ops : list StreamOp) : Prop :=
  match ops with
  | [] => True
  | o :: ops => (o = SoNext → es_waiter s = None) ∧ sequential (stream_op s o) ops
  end.

(** What the events asked for so far, and those still buffered, amount to. *)
Definition answers (s : EventStream) : list (option E) := map snd (es_results s).
Record stream_inv (s : EventStream) (acc : list E) : Prop := {
  si_events : base.omap id (answers s) ++ es_buffer s = acc;
  si_waiter : es_waiter s ≠ None → es_buffer s = [] ∧ es_done s = false;
  si_calls : map fst (es_results s) =
    seq 0 (es_calls s - (if es_waiter s then 1 else 0));
  si_slot : ∀ w, es_waiter s = Some w → es_calls s = w + 1;
  si_tail : ∃ k, answers s = map Some (base.omap id (answers s)) ++ replicate k None;
  si_done : None ∈ answers s → es_done s = true ∧ es_buffer s = []
}.
Lemma omap_id_some (l : list E) : base.omap id (map Some l) = l.
Proof. induction l as [|x l IH]; [done|]. cbn. by rewrite IH. Qed.
Lemma omap_app_id (l k : list (option E)) : base.omap id (l ++ k) = base.omap id l ++ base.omap id k.
Proof. induction l as [|[x|] l IH]; [done|..]; cbn; by rewrite IH. Qed.
Lemma no_end_some (l : list (option E)) : None ∉ l → l = map Some (base.omap id l).
Proof.
  induction l as [|[x|] l IH]; [done|..]; cbn; intros Hn.
  - f_equal. apply IH. set_solver.
  - set_solver.
Qed.
Lemma map_fst_snoc {A B} (l : list (A * B)) x y : map fst (l ++ [(x, y)]) = map fst l ++ [x].
Proof. by rewrite map_app. Qed.
Lemma map_snd_snoc {A B} (l : list (A * B)) x y : map snd (l ++ [(x, y)]) = map snd l ++ [y].
Proof. by rewrite map_app. Qed.
Lemma snoc_some_tail (l : list (option E)) e :
  None ∉ l → ∃ k, l ++ [Some e] = map Some (base.omap id (l ++ [Some e])) ++ replicate k None.
Proof.
  intros Hn. exists 0. rewrite app_nil_r. apply no_end_some. rewrite elem_of_app. set_solver.
Qed.
Lemma snoc_none_tail (l : list (option E)) :
  (∃ k, l = map Some (base.omap id l) ++ replicate k None) →
  ∃ k, l ++ [None] = map Some (base.omap id (l ++ [None])) ++ replicate k None.
Proof.
  intros [k Hk]. exists (k + 1). rewrite omap_app_id. cbn. rewrite app_nil_r, Hk at 1.
  by rewrite <-app_assoc, replicate_add.
Qed.

Lemma stream_init : stream_inv createEventStream [].
Proof.
  split; cbn; try done; [by exists 0|]. intros H. by apply not_elem_of_nil in H.
Qed.
Lemma push_inv s acc e :
  stream_inv s acc → stream_inv (es_push e s) (if es_done s then acc else acc ++ [e]).
Proof.
  intros Hs. unfold es_push. destruct (es_done s) eqn:Hd; [done|]. destruct Hs as [I1 I2 I3 I4 I5 I6].
  assert (None ∉ answers s) as Hn by (intros H; destruct (I6 H); congruence).
  destruct (es_waiter s) as [w|] eqn:Hw; split; unfold answers in *;
    cbn [es_results es_buffer es_waiter es_done es_calls]; rewrite ?map_snd_snoc, ?map_fst_snoc; try done.
  - destruct (I2 ltac:(done)) as [Hb _]. rewrite Hb, app_nil_r in *. rewrite omap_app_id. cbn. by rewrite I1.
  - rewrite I3, (I4 _ eq_refl). replace (w + 1 - 1) with w by lia. rewrite Nat.sub_0_r, Nat.add_1_r, seq_S. done.
  - by apply snoc_some_tail.
  - rewrite elem_of_app, list_elem_of_singleton. by intros [?|?].
  - by rewrite <-I1, app_assoc.
Qed.
Lemma complete_inv s acc : stream_inv s acc → stream_inv (es_complete s) acc.
Proof.
  intros [I1 I2 I3 I4 I5 I6]. unfold es_complete.
  destruct (es_waiter s) as [w|] eqn:Hw; split; unfold answers in *;
    cbn [es_results es_buffer es_waiter es_done es_calls]; rewrite ?map_snd_snoc, ?map_fst_snoc; try done.
  - rewrite omap_app_id. cbn. by rewrite app_nil_r.
  - rewrite I3, (I4 _ eq_refl). replace (w + 1 - 1) with w by lia. rewrite Nat.sub_0_r, Nat.add_1_r, seq_S. done.
  - by apply snoc_none_tail.
  - intros _. by destruct (I2 ltac:(done)) as [-> _].
  - intros Hn. by destruct (I6 Hn) as [_ ->].
Qed.
Lemma next_inv s acc : es_waiter s = None → stream_inv s acc → stream_inv (es_next s) acc.
Proof.
  intros Hw [I1 I2 I3 I4 I5 I6]. unfold es_next. rewrite Hw in *. rewrite Nat.sub_0_r in I3.
  destruct (es_buffer s) as [|e b] eqn:Hb; [destruct (es_done s) eqn:Hd|]; split; unfold answers in *;
    cbn [es_results es_buffer es_waiter es_done es_calls]; rewrite ?map_snd_snoc, ?map_fst_snoc; try done.
  - rewrite omap_app_id. cbn. by rewrite app_nil_r.
  - rewrite I3, Nat.sub_0_r, Nat.add_1_r, seq_S. done.
  - by apply snoc_none_tail.
  - rewrite I3. f_equal. lia.
  - by intros w [= <-].
  - rewrite omap_app_id, <-app_assoc. done.
  - rewrite I3, Nat.sub_0_r, Nat.add_1_r, seq_S. done.
  - apply snoc_some_tail. intros Hn. by destruct (I6 Hn).
  - rewrite elem_of_app, list_elem_of_singleton. intros [Hn|?]; [|done]. by destruct (I6 Hn).
Qed.

Lemma run_stream_snoc ops o : run_stream (ops ++ [o]) = stream_op (run_stream ops) o.
Proof. unfold run_stream. by rewrite foldl_app. Qed.
Lemma sequential_snoc ops o s :
  sequential s (ops ++ [o]) → sequential s ops ∧ (o = SoNext → es_waiter (foldl stream_op s ops) = None).
Proof.
  revert s. induction ops as [|x ops IH]; intros s; cbn; [tauto|]. intros [Hx Hs].
  destruct (IH _ Hs). tauto.
Qed.
Definition completed (ops : list StreamOp) : bool :=
  existsb (λ o, match o with SoComplete => true | _ => false end) ops.
Lemma accepted_snoc ops o :
  accepted (ops ++ [o]) =
  match o with
  | SoPush e => if completed ops then accepted ops else accepted ops ++ [e]
  | _ => accepted ops
  end.
Proof.
  induction ops as [|x ops IH]; [by destruct o|]. cbn [app accepted].
  unfold completed in *. destruct x as [e| |]; cbn [existsb orb]; rewrite ?IH;
    destruct o as [e'| |]; try done. by destruct (existsb _ ops).
Qed.
Lemma es_done_completed ops : es_done (run_stream ops) = completed ops.
Proof.
  induction ops as [|o ops IH] using rev_ind; [done|]. rewrite run_stream_snoc.
  unfold completed in *. rewrite existsb_app. cbn. rewrite <-IH.
  set (s := run_stream ops). destruct o as [e| |]; cbn [stream_op]; rewrite ?orb_false_r, ?orb_true_r.
  - unfold es_push. destruct (es_done s) eqn:Hd; [done|]. by destruct (es_waiter s).
  - unfold es_complete. by destruct (es_waiter s).
  - unfold es_next. destruct (es_buffer s); [|done]. by destruct (es_done s) eqn:Hd.
Qed.
Lemma run_stream_inv ops :
  sequential createEventStream ops → stream_inv (run_stream ops) (accepted ops).
Proof.
  induction ops as [|o ops IH] using rev_ind; [intros _; apply stream_init|].
  intros [Hs Ho]%sequential_snoc. specialize (IH Hs). rewrite run_stream_snoc, accepted_snoc.
  destruct o as [e| |]; cbn [stream_op].
  - rewrite <-es_done_completed. by apply push_inv.
  - by apply complete_inv.
  - apply next_inv; [by apply Ho|done].
Qed.

(** events reach the consumer in order, once each, and none is lost: for
    a consumer that asks again only when it was answered, the calls of [next]
    are answered in the order they are made, by the events pushed before
    [complete], in their order, and then only by the end of the stream; the
    end is reported only after every such event; and a call is left waiting
    only when there is nothing to deliver and the stream is not complete, so
    that after [complete] every call is answered. *)
Theorem stream_spec ops :
  sequential createEventStream ops →
  let s := run_stream ops in
  let delivered := base.omap id (answers s) in
  map fst (es_results s) = seq 0 (length (es_results s)) ∧
  (∃ rest, accepted ops = delivered ++ rest ∧ es_buffer s = rest) ∧
  (∃ k, answers s = map Some delivered ++ replicate k None ∧
     (k ≠ 0 → completed ops = true ∧ delivered = accepted ops)) ∧
  (es_waiter s ≠ None → delivered = accepted ops ∧ completed ops = false) ∧
  (es_waiter s = None → length (es_results s) = es_calls s).
Proof.
  intros Hs%run_stream_inv s delivered. destruct Hs as [I1 I2 I3 I4 I5 I6]. fold s in I1, I2, I3, I4, I5, I6.
  split_and!.
  - rewrite I3. f_equal. apply (f_equal length) in I3. rewrite length_map, length_seq in I3. done.
  - exists (es_buffer s). by rewrite <-I1.
  - destruct I5 as [k Hk]. exists k. split; [done|]. intros Hne.
    assert (None ∈ answers s) as Hn by (rewrite Hk, elem_of_app; right; destruct k; [done|left]).
    destruct (I6 Hn) as [Hd Hb]. rewrite <-es_done_completed. split; [done|].
    rewrite <-I1. fold s. by rewrite Hb, app_nil_r.
  - intros Hw. destruct (I2 Hw) as [Hb Hd]. rewrite <-es_done_completed. split; [|done].
    rewrite <-I1, Hb. by rewrite app_nil_r.
  - intros Hw. rewrite Hw, Nat.sub_0_r in I3. apply (f_equal length) in I3.
    by rewrite length_map, length_seq in I3.
Qed.
End stream.
Arguments EventStream : clear implicits.
Arguments StreamOp : clear implicits.
(** Asking twice before an answer loses the first call. *)
Lemma overlapping_next_lost :
  let s := run_stream [SoNext; SoNext; SoPush true; SoComplete] in
  es_results s = [(1, Some true)] ∧ es_calls s = 2 ∧ es_waiter s = None.
Proof. done. Qed.

(** ** [RequestTracker] *)
(** A promise is settled once; [rt_timers] holds the armed timers, by promise,
    with the id each was armed for. *)
Record RequestTracker := mkTracker {
  rt_pending : omap string nat; rt_timers : omap nat string;
  rt_next : nat; rt_settled : omap nat (result SignetError json)
}.
Definition createRequestTracker : RequestTracker := mkTracker [] [] 0 [].
Definition settle (n : nat) (r : result SignetError json) (l : omap nat (result SignetError json)) :=
  match om_get n l with Some _ => l | None => om_set n r l end.
Definition rt_track (requestId : string) (t : RequestTracker) : RequestTracker :=
  mkTracker (om_set requestId (rt_next t) (rt_pending t))
    (om_set (rt_next t) requestId (rt_timers t)) (rt_next t + 1) (rt_settled t).
Definition rt_resolve (requestId : string) (r : result SignetError json) (t : RequestTracker)
  : RequestTracker :=
  match om_get requestId (rt_pending t) with
  | None => t
  | Some n => mkTracker (om_delete requestId (rt_pending t)) (om_delete n (rt_timers t))
                (rt_next t) (settle n r (rt_settled t))
  end.
Definition rt_rejectAll (e : SignetError) (t : RequestTracker) : RequestTracker :=
  mkTracker [] (foldl (λ tm kn, om_delete kn.2 tm) (rt_timers t) (rt_pending t)) (rt_next t)
    (foldl (λ l kn, settle kn.2 (Err e) l) (rt_settled t) (rt_pending t)).
(** The timer of promise [n] fires. *)
Definition rt_timeout (timeoutMs : Z) (n : nat) (t : RequestTracker) : RequestTracker :=
  match om_get n (rt_timers t) with
  | None => t
  | Some requestId =>
      mkTracker (om_delete requestId (rt_pending t)) (om_delete n (rt_timers t)) (rt_next t)
        (settle n (Err (TimeoutError_create "request" timeoutMs)) (rt_settled t))
  end.

Section tracker.
Context (timeoutMs : Z).
(** Request ids are fresh UUIDs: a new one is not pending. *)
Inductive tracker_step (t : RequestTracker) : RequestTracker → Prop :=
  | ts_track id : om_get id (rt_pending t) = None → tracker_step t (rt_track id t)
  | ts_resolve id r : tracker_step t (rt_resolve id r t)
  | ts_rejectAll e : tracker_step t (rt_rejectAll e t)
  | ts_timeout n : tracker_step t (rt_timeout timeoutMs n t).
Record tracker_inv (t : RequestTracker) : Prop := {
  ti_timer : ∀ id n, om_get id (rt_pending t) = Some n ↔ om_get n (rt_timers t) = Some id;
  ti_settled : ∀ n, is_Some (om_get n (rt_settled t)) ↔ n < rt_next t ∧ om_get n (rt_timers t) = None;
  ti_fresh : ∀ n, is_Some (om_get n (rt_timers t)) → n < rt_next t;
  ti_nodup : NoDup (rt_pending t).*1
}.
Lemma settle_get n r l m : om_get m (settle n r l) =
  match om_get m l with Some x => Some x | None => if decide (n = m) then Some r else None end.
Proof.
  unfold settle. destruct (om_get n l) as [y|] eqn:Hn.
  - destruct (om_get m l) eqn:Hm; [done|]. rewrite decide_False; [done|]. intros ->. congruence.
  - rewrite om_get_set. case_decide; subst; [by rewrite Hn|]. by destruct (om_get m l).
Qed.
Lemma remove_inv t id n r :
  tracker_inv t → om_get id (rt_pending t) = Some n →
  tracker_inv (mkTracker (om_delete id (rt_pending t)) (om_delete n (rt_timers t)) (rt_next t)
                 (settle n r (rt_settled t))).
Proof.
  intros [H1 H2 H3 H4] Hid. assert (om_get n (rt_timers t) = Some id) as Hn by by apply H1.
  split; cbn [rt_pending rt_timers rt_next rt_settled].
  - intros id' n'. rewrite !om_get_delete. repeat case_decide; subst; try done.
    + split; [done|]. intros Hx%H1. congruence.
    + split; [|done]. intros Hx%H1. congruence.
  - intros m. rewrite settle_get, om_get_delete. specialize (H2 m). specialize (H3 m).
    destruct (om_get m (rt_settled t)) eqn:Hm.
    + destruct (proj1 H2 ltac:(done)) as [? Ht]. case_decide; [by split|]. by rewrite Ht.
    + case_decide; subst.
      * split; [intros _; split; [|done]|done]. apply H3. by eexists.
      * split; [by intros [? ?]|]. intros [Hlt Hnone]. apply H2. done.
  - intros m. rewrite om_get_delete. case_decide; [by intros [? ?]|apply H3].
  - by apply om_delete_NoDup.
Qed.
Lemma rejectAll_fold e t l :
  tracker_inv t → rt_pending t = l →
  rt_rejectAll e t =
    mkTracker [] (rt_timers (rt_rejectAll e t)) (rt_next t) (rt_settled (rt_rejectAll e t)) ∧
  tracker_inv (rt_rejectAll e t).
Proof.
  intros Ht Hl. split; [done|]. revert t Ht Hl. induction l as [|[id n] l IH]; intros t Ht Hl.
  - unfold rt_rejectAll. rewrite Hl. cbn. destruct t; cbn in *; by subst.
  - assert (om_get id (rt_pending t) = Some n) as Hid by (rewrite Hl; cbn; by rewrite decide_True).
    pose proof (remove_inv t id n (Err e) Ht Hid) as Hi.
    assert (om_delete id (rt_pending t) = l) as Hd.
    { pose proof (ti_nodup _ Ht) as Hnd. rewrite Hl in Hnd |- *. unfold om_delete. rewrite filter_cons. cbn.
      rewrite decide_False by tauto. apply NoDup_cons in Hnd as [Hni _]. clear -Hni.
      induction l as [|[k v] l IH]; [done|]. rewrite filter_cons. cbn in *.
      apply not_elem_of_cons in Hni as [Hne Hni]. rewrite decide_True by done. by rewrite IH. }
    specialize (IH _ Hi Hd). unfold rt_rejectAll in *. cbn [rt_pending rt_timers rt_next rt_settled] in IH.
    rewrite Hd in IH. rewrite Hl. cbn [foldl snd]. exact IH.
Qed.
Lemma tracker_step_inv t t' : tracker_step t t' → tracker_inv t → tracker_inv t'.
Proof.
  intros [id Hid|id r|e|n] Ht.
  - destruct Ht as [H1 H2 H3 H4]. unfold rt_track. split; cbn [rt_pending rt_timers rt_next rt_settled].
    + intros id' n'. rewrite !om_get_set. repeat case_decide; subst; try done.
      * split; [congruence|]. intros Hx%H1. congruence.
      * split; [|congruence]. intros Hx%H1. pose proof (H3 (rt_next t) (mk_is_Some _ _ Hx)). lia.
    + intros m. rewrite H2, om_get_set. case_decide; subst; [split; [intros [? _]; lia|by intros [_ ?]]|].
      split; intros [? ?]; split; [lia|done|lia|done].
    + intros m. rewrite om_get_set. case_decide; [lia|]. intros Hx%H3. lia.
    + by apply om_set_NoDup.
  - unfold rt_resolve. destruct (om_get id (rt_pending t)) as [n|] eqn:Hid; [|done]. by apply remove_inv.
  - by eapply rejectAll_fold.
  - unfold rt_timeout. destruct (om_get n (rt_timers t)) as [id|] eqn:Hn; [|done].
    apply remove_inv; [done|]. by apply (ti_timer _ Ht).
Qed.
Definition tracker_reachable : RequestTracker → Prop := rtc tracker_step createRequestTracker.
Lemma tracker_reachable_inv t : tracker_reachable t → tracker_inv t.
Proof.
  intros Hr. assert (tracker_inv createRequestTracker) as H0.
  { split; cbn; [done| |by intros ? [? ?]|apply NoDup_nil_2]. intros n. split; [by intros [? ?]|lia]. }
  revert H0. induction Hr as [|a b c Hs _ IH]; [done|]. intros. apply IH. by eapply tracker_step_inv.
Qed.
Lemma settle_keeps t t' n r :
  tracker_step t t' → om_get n (rt_settled t) = Some r → om_get n (rt_settled t') = Some r.
Proof.
  intros [id Hid|id x|e|m] Hn.
  - done.
  - unfold rt_resolve. destruct (om_get id _); [|done]. cbn. by rewrite settle_get, Hn.
  - unfold rt_rejectAll. cbn. revert Hn. generalize (rt_settled t).
    induction (rt_pending t) as [|[k v] l IH]; intros m Hm; [done|]. cbn. apply IH. by rewrite settle_get, Hm.
  - unfold rt_timeout. destruct (om_get m _); [|done]. cbn. by rewrite settle_get, Hn.
Qed.

(** every request is answered exactly once: in every reachable state a
    tracked request is either settled or still pending with its timer armed,
    never both and never neither; its answer never changes afterwards; a
    response settles the request of its id with that response, and no other,
    and an unknown or repeated response is ignored; when its timer fires a
    request is settled with a [TimeoutError]; and [rejectAll] leaves no
    request pending. *)
Theorem tracker_spec t :
  tracker_reachable t →
  (∀ n, n < rt_next t → (is_Some (om_get n (rt_settled t)) ↔ om_get n (rt_timers t) = None) ∧
    (om_get n (rt_timers t) = None ↔ ∀ id, om_get id (rt_pending t) ≠ Some n)) ∧
  (∀ t' n r, rtc tracker_step t t' → om_get n (rt_settled t) = Some r →
    om_get n (rt_settled t') = Some r) ∧
  (∀ id n r, om_get id (rt_pending t) = Some n →
    let t' := rt_resolve id r t in
    om_get n (rt_settled t') = Some r ∧ om_get id (rt_pending t') = None ∧
    (∀ m, m ≠ n → om_get m (rt_settled t') = om_get m (rt_settled t)) ∧
    (∀ r', rt_resolve id r' t' = t')) ∧
  (∀ id r, om_get id (rt_pending t) = None → rt_resolve id r t = t) ∧
  (∀ n, is_Some (om_get n (rt_timers t)) →
    om_get n (rt_settled (rt_timeout timeoutMs n t)) =
      Some (Err (TimeoutError_create "request" timeoutMs))) ∧
  (∀ e, let t' := rt_rejectAll e t in rt_pending t' = [] ∧
    ∀ n, n < rt_next t → is_Some (om_get n (rt_settled t'))).
Proof.
  intros Hr. pose proof (tracker_reachable_inv t Hr) as Ht. destruct Ht as [H1 H2 H3 H4] eqn:Heq. clear Heq.
  split_and!.
  - intros n Hn. split; [rewrite H2; tauto|]. split.
    + intros Hnone id Hid%H1. congruence.
    + intros Hall. destruct (om_get n (rt_timers t)) as [id|] eqn:Hx; [|done].
      apply H1 in Hx. by destruct (Hall id).
  - intros t' n r Hs. clear -Hs. induction Hs as [|a b c Hab _ IH]; [done|].
    intros Hn. apply IH. by eapply settle_keeps.
  - intros id n r Hid t'. assert (om_get n (rt_settled t) = None) as Hn.
    { apply eq_None_not_Some. intros [_ Hno]%H2. apply H1 in Hid. congruence. }
    unfold t', rt_resolve. rewrite Hid. cbn [rt_settled rt_pending]. split_and!.
    + by rewrite settle_get, Hn, decide_True.
    + by rewrite om_get_delete, decide_True.
    + intros m Hm. rewrite settle_get, decide_False by done. by destruct (om_get m _).
    + intros r'. by rewrite om_get_delete, decide_True.
  - intros id r Hid. unfold rt_resolve. by rewrite Hid.
  - intros n [id Hn]. unfold rt_timeout. rewrite Hn. cbn [rt_settled]. rewrite settle_get.
    assert (om_get n (rt_settled t) = None) as ->; [|by rewrite decide_True].
    apply eq_None_not_Some. intros [_ Hno]%H2. congruence.
  - intros e t'. split; [done|]. intros n Hn.
    destruct (rejectAll_fold e t _ Ht eq_refl) as [_ Hi]. apply (ti_settled _ Hi). split; [done|].
    destruct (om_get n (rt_timers (rt_rejectAll e t))) as [id|] eqn:Hx; [|done].
    by apply (ti_timer _ Hi) in Hx.
Qed.
End tracker.
(** ** Reconnection backoff *)
Open Scope Z_scope.
Definition NON_RETRYABLE_CODES : list Z := [4001; 4002; 4004; 4009].
Definition isRetryable (closeCode : Z) : bool := negb (set_has NON_RETRYABLE_CODES closeCode).
Record ReconnectConfig := {
  rc_enabled : bool; rc_maxAttempts : nat; rc_baseDelayMs : Z; rc_maxDelayMs : Z; rc_jitter : bool
}.
Definition default_reconnect : ReconnectConfig :=
  {| rc_enabled := true; rc_maxAttempts := 10; rc_baseDelayMs := 1000; rc_maxDelayMs := 30000;
     rc_jitter := true |}.
(** The schema's checks on the two delays. *)
Definition reconnect_valid (c : ReconnectConfig) : bool :=
  (0 <? rc_baseDelayMs c) && (0 <? rc_maxDelayMs c).
(** [Math.random()] is [random / 2^53]. *)
Definition calculateDelay (attempt : nat) (config : ReconnectConfig) (random : Z) : Z :=
  let exponential := rc_baseDelayMs config * 2 ^ Z.of_nat attempt in
  let capped := Z.min exponential (rc_maxDelayMs config) in
  if rc_jitter config then random * (capped + 1) / 2 ^ 53 else capped.
(** The tracker is its attempt counter. *)
Definition exhausted (c : ReconnectConfig) (attempt : nat) : bool :=
  if (rc_maxAttempts c =? 0)%nat then false else (rc_maxAttempts c <=? attempt)%nat.
Definition nextDelay (c : ReconnectConfig) (attempt : nat) (random : Z) : nat * Z :=
  (S attempt, calculateDelay attempt c random).

(** The delays are bounded, positive without jitter, and never shrink; once
    the doubling has passed the maximum they stay there. *)
Lemma calculateDelay_spec c n m random :
  reconnect_valid c = true → 0 <= random < 2 ^ 53 → (n <= m)%nat →
  0 <= calculateDelay n c random <= rc_maxDelayMs c ∧
  calculateDelay n c random <= rc_baseDelayMs c * 2 ^ Z.of_nat n ∧
  (rc_jitter c = false → 0 < calculateDelay n c random <= calculateDelay m c random) ∧
  (rc_jitter c = false → rc_maxDelayMs c <= rc_baseDelayMs c * 2 ^ Z.of_nat n →
    calculateDelay n c random = rc_maxDelayMs c).
Proof.
  unfold reconnect_valid. intros [Hb Hm]%andb_prop Hr Hnm. apply Z.ltb_lt in Hb, Hm.
  assert (0 < 2 ^ Z.of_nat n <= 2 ^ Z.of_nat m) as [Hp Hle].
  { split; [lia|]. apply Z.pow_le_mono_r; lia. }
  unfold calculateDelay.
  set (e := rc_baseDelayMs c * 2 ^ Z.of_nat n). assert (0 < e) by (unfold e; nia).
  assert (e <= rc_baseDelayMs c * 2 ^ Z.of_nat m) by (unfold e; nia).
  destruct (rc_jitter c).
  - assert (0 <= random * (Z.min e (rc_maxDelayMs c) + 1) / 2 ^ 53 <= Z.min e (rc_maxDelayMs c)) as Hj.
    { split; [apply Z.div_pos; nia|]. apply Zlt_succ_le, Z.div_lt_upper_bound; [lia|nia]. }
    split_and!; try done; lia.
  - split_and!; lia.
Qed.

(** ** [HeartbeatMonitor] *)
Record HeartbeatConfig := { hb_intervalMs : Z; hb_missedBeforeDead : Z }.
Definition thresholdMs (c : HeartbeatConfig) : Z := hb_intervalMs c * hb_missedBeforeDead c.
(** Whether a callback is set, and when the armed timer fires. *)
Record HeartbeatMonitor := mkMonitor { hm_callback : bool; hm_deadline : option Z }.
Definition createHeartbeatMonitor : HeartbeatMonitor := mkMonitor false None.
Definition resetTimer (c : HeartbeatConfig) (now : Z) (m : HeartbeatMonitor) : HeartbeatMonitor :=
  mkMonitor (hm_callback m) (if hm_callback m then Some (now + thresholdMs c) else None).
Definition hm_start (c : HeartbeatConfig) (now : Z) (m : HeartbeatMonitor) : HeartbeatMonitor :=
  resetTimer c now (mkMonitor true (hm_deadline m)).
Definition hm_recordHeartbeat (c : HeartbeatConfig) (now : Z) (m : HeartbeatMonitor)
  : HeartbeatMonitor := resetTimer c now m.
Definition hm_stop (m : HeartbeatMonitor) : HeartbeatMonitor := mkMonitor false None.
(** Whether the timer fires at [now]. *)
Definition hm_due (now : Z) (m : HeartbeatMonitor) : bool :=
  match hm_deadline m with Some d => d <=? now | None => false end.

(** The connection is declared dead exactly a threshold after the start or the
    last heartbeat, and never once the monitor is stopped. *)
Lemma monitor_spec c t0 beats t now :
  let m := foldl (λ m t, hm_recordHeartbeat c t m) (hm_start c t0 createHeartbeatMonitor) beats in
  (last beats = Some t ∨ beats = [] ∧ t = t0 →
    hm_due now m = true ↔ t + thresholdMs c <= now) ∧
  hm_due now (hm_stop m) = false ∧
  hm_due now (hm_recordHeartbeat c t (hm_stop m)) = false.
Proof.
  split_and!; [|done..]. intros Hlast.
  assert (foldl (λ m t, hm_recordHeartbeat c t m) (hm_start c t0 createHeartbeatMonitor) beats =
    mkMonitor true (Some (t + thresholdMs c))) as ->.
  { induction beats as [|b beats _] using rev_ind.
    - destruct Hlast as [?|[_ ->]]; done.
    - rewrite last_snoc in Hlast. destruct Hlast as [[= ->]|[Hn _]]; [|by destruct beats].
      rewrite foldl_app. cbn [foldl]. unfold hm_recordHeartbeat at 1, resetTimer.
      assert (hm_callback (foldl (λ m t, hm_recordHeartbeat c t m) (hm_start c t0 createHeartbeatMonitor)
        beats) = true) as ->; [|done].
      clear. induction beats as [|b beats IH] using rev_ind; [done|]. by rewrite foldl_app. }
  unfold hm_due. cbn. apply Z.leb_le.
Qed.

(** ** Concrete runs *)
Lemma stream_spec_witness :
  let ops := [SoPush "a"; SoNext; SoNext; SoPush "b"; SoPush "c"; SoComplete; SoNext; SoNext] in
  sequential createEventStream ops ∧ answers (run_stream ops) = [Some "a"; Some "b"; Some "c"; None] ∧
  map fst (es_results (run_stream ops)) = seq 0 4.
Proof.
  cbv zeta. assert (sequential createEventStream
    [SoPush "a"; SoNext; SoNext; SoPush "b"; SoPush "c"; SoComplete; SoNext; SoNext]) as Hs by by vm_compute.
  split; [exact Hs|]. split; [reflexivity|].
  destruct (stream_spec _ Hs) as (Hm & _). exact Hm.
Defined.
(** Two requests; the second is answered, the first times out, and a late
    answer to it changes nothing. *)
Definition run_tracker : RequestTracker :=
  rt_timeout 5000 0 (rt_resolve "r2" (Ok (JNum 1)) (rt_track "r2" (rt_track "r1" createRequestTracker))).
Lemma tracker_spec_witness :
  om_get 0%nat (rt_settled run_tracker) = Some (Err (TimeoutError_create "request" 5000)) ∧
  om_get 1%nat (rt_settled run_tracker) = Some (Ok (JNum 1)) ∧
  rt_resolve "r1" (Ok JNull) run_tracker = run_tracker.
Proof.
  split; [reflexivity|]. split; [reflexivity|].
  assert (tracker_reachable 5000 run_tracker) as Hr.
  { eapply rtc_l; [by apply (ts_track _ _ "r1")|]. eapply rtc_l; [by apply (ts_track _ _ "r2")|].
    eapply rtc_l; [apply (ts_resolve _ _ "r2" (Ok (JNum 1)))|].
    eapply rtc_l; [apply (ts_timeout _ _ 0)|apply rtc_refl]. }
  destruct (tracker_spec 5000 run_tracker Hr) as (_ & _ & _ & Hn & _). by apply Hn.
Defined.
