(* ===== verification/SdkHandler.v ===== *)
(** * The agent SDK: the connection handler

    [sdk/src/handler.ts]: the state machine behind [connect], [disconnect],
    the socket's events and the timers.  Each event listener and each timer
    callback is one transition; sockets are numbered in the order they are
    opened, and what the handler does to the outside (state changes, errors,
    frames, closes, results of [connect]) is appended to a log.  [random] is
    what [Math.random] yields; [toString] is the conversion of a template. *)
From S2P Require Import Prelude Json Errors SdkParts.
Open Scope nat_scope.

(** A value used as [Record<string, unknown>]. *)
Definition as_context (v : json) : option context := match v with JObj o => Some o | _ => None end.

(** ** State *)
Inductive HandlerState :=
  | hs_disconnected | hs_connecting | hs_authenticating | hs_connected | hs_reconnecting | hs_closed.
#[export] Instance HandlerState_eq_dec : EqDecision HandlerState.
Proof. solve_decision. Defined.
Definition handler_state_name (s : HandlerState) : string :=
  match s with
  | hs_disconnected => "disconnected" | hs_connecting => "connecting"
  | hs_authenticating => "authenticating" | hs_connected => "connected"
  | hs_reconnecting => "reconnecting" | hs_closed => "closed"
  end.
Record CredentialInfo := {
  ci_connectionId : json; ci_credentialId : json; ci_operatorId : json; ci_scopes : json;
  ci_expiresAt : json
}.
(** A [WebSocket]: open (or opening) until [close()] or the close event. *)
Inductive ReadyState := rs_open | rs_closing | rs_closed.
#[export] Instance ReadyState_eq_dec : EqDecision ReadyState.
Proof. solve_decision. Defined.
(** The variables of one [connectInternal]: [authHandled], whether
    [authTimeout] is armed, and the socket. *)
Record Sock := mkSock { authHandled : bool; authTimeout : bool; ready : ReadyState }.
Inductive HOut :=
  | HoState (new previous : HandlerState)
  | HoError (e : SignetError)
  | HoAuth (sock : nat) (lastSeenSeq : json)
  | HoRequest (sock : nat) (frame : json)
  | HoClose (sock : nat) (closeCode : option Z)
  | HoResult (sock : nat) (r : result SignetError unit)
  | HoDelay (ms : Z).
(** What a transition may change, beside the state and the sockets. *)
Record Shared := mkShared {
  h_credential : option CredentialInfo; h_lastSeenSeq : json; h_stream : EventStream json;
  h_tracker : RequestTracker; h_monitor : option HeartbeatMonitor;
  h_orphans : list HeartbeatMonitor;          (** monitors replaced while running *)
  h_attempt : nat; h_reconnectTimers : nat
}.
Record Handler := mkHandler {
  h_state : HandlerState; h_ws : option nat; h_socks : omap nat Sock; h_next : nat;
  h_shared : Shared; h_out : list HOut
}.
Definition createSignetHandler : Handler :=
  mkHandler hs_disconnected None [] 0
    (mkShared None JNull createEventStream createRequestTracker None [] 0 0) [].

Definition out (o : HOut) (h : Handler) : Handler :=
  mkHandler (h_state h) (h_ws h) (h_socks h) (h_next h) (h_shared h) (h_out h ++ [o]).
Definition set_ws (w : option nat) (h : Handler) : Handler :=
  mkHandler (h_state h) w (h_socks h) (h_next h) (h_shared h) (h_out h).
Definition set_sock (n : nat) (s : Sock) (h : Handler) : Handler :=
  mkHandler (h_state h) (h_ws h) (om_set n s (h_socks h)) (h_next h) (h_shared h) (h_out h).
(** [socket.close(code)]. *)
Definition sock_close (n : nat) (closeCode : option Z) (h : Handler) : Handler :=
  let h := out (HoClose n closeCode) h in
  match om_get n (h_socks h) with
  | Some s =>
      if bool_decide (ready s = rs_open)
      then set_sock n (mkSock (authHandled s) (authTimeout s) rs_closing) h else h
  | None => h
  end.
Definition upd (f : Shared → Shared) (h : Handler) : Handler :=
  mkHandler (h_state h) (h_ws h) (h_socks h) (h_next h) (f (h_shared h)) (h_out h).
Definition with_lastSeen (v : json) (x : Shared) : Shared :=
  mkShared (h_credential x) v (h_stream x) (h_tracker x) (h_monitor x) (h_orphans x) (h_attempt x)
    (h_reconnectTimers x).
Definition with_stream (f : EventStream json → EventStream json) (x : Shared) : Shared :=
  mkShared (h_credential x) (h_lastSeenSeq x) (f (h_stream x)) (h_tracker x) (h_monitor x)
    (h_orphans x) (h_attempt x) (h_reconnectTimers x).
Definition with_tracker (f : RequestTracker → RequestTracker) (x : Shared) : Shared :=
  mkShared (h_credential x) (h_lastSeenSeq x) (h_stream x) (f (h_tracker x)) (h_monitor x)
    (h_orphans x) (h_attempt x) (h_reconnectTimers x).
Definition with_monitor (f : HeartbeatMonitor → HeartbeatMonitor) (x : Shared) : Shared :=
  mkShared (h_credential x) (h_lastSeenSeq x) (h_stream x) (h_tracker x) (f <$> h_monitor x)
    (h_orphans x) (h_attempt x) (h_reconnectTimers x).
Definition with_attempt (attempt timers : nat) (x : Shared) : Shared :=
  mkShared (h_credential x) (h_lastSeenSeq x) (h_stream x) (h_tracker x) (h_monitor x) (h_orphans x)
    attempt timers.

Definition setState (new : HandlerState) (h : Handler) : Handler :=
  if bool_decide (h_state h = new) then h
  else mkHandler new (h_ws h) (h_socks h) (h_next h) (h_shared h)
         (h_out h ++ [HoState new (h_state h)]).
Definition emitError (e : SignetError) (h : Handler) : Handler := out (HoError e) h.
Definition stream_complete (h : Handler) : Handler := upd (with_stream es_complete) h.
Definition rejectAll (msg : string) (h : Handler) : Handler :=
  upd (with_tracker (rt_rejectAll (InternalError_create msg None))) h.
Definition monitor_stop (h : Handler) : Handler := upd (with_monitor hm_stop) h.
Definition default_heartbeat : HeartbeatConfig :=
  {| hb_intervalMs := 30000; hb_missedBeforeDead := 3 |}.

Section handler.
Context (reconnect : ReconnectConfig) (requestTimeoutMs : Z).

Definition attemptReconnect (random : Z) (h : Handler) : Handler :=
  if negb (rc_enabled reconnect) then stream_complete (setState hs_disconnected h)
  else if exhausted reconnect (h_attempt (h_shared h)) then
    stream_complete (setState hs_disconnected
      (emitError (InternalError_create "Max reconnection attempts exceeded" None) h))
  else
    let h := setState hs_reconnecting h in
    let '(attempt, delay) := nextDelay reconnect (h_attempt (h_shared h)) random in
    out (HoDelay delay) (upd (λ x, with_attempt attempt (h_reconnectTimers x + 1) x) h).
Definition handleConnectionDead (random : Z) (h : Handler) : Handler :=
  let h := monitor_stop h in
  match h_ws h with
  | Some n => sock_close n None h
  | None => attemptReconnect random h
  end.

Definition response_error (error : json) : SignetError :=
  let m := jopt "message" error in
  let errMsg := if nullish m then "Request failed" else toString m in
  let errCtx := as_context (jopt "context" error) in
  match jopt "category" error with
  | JStr c =>
      if bool_decide (c = "auth") then AuthError_create errMsg errCtx
      else if bool_decide (c = "validation") then ValidationError_create "response" errMsg None
      else if bool_decide (c = "not_found") then NotFoundError_create "resource" errMsg
      else if bool_decide (c = "permission") then PermissionError_create errMsg errCtx
      else InternalError_create errMsg errCtx
  | _ => InternalError_create errMsg errCtx
  end.
(** [raw] after [JSON.parse], [None] when it throws.  On [null] and on other
    primitives the listener throws before it does anything. *)
Definition handleFrame (now : Z) (raw : option json) (h : Handler) : Handler :=
  match raw with
  | None => emitError (ValidationError_create "frame" "Invalid JSON from signet" None) h
  | Some (JObj _ as data) =>
      if bool_decide (jget "type" data = JStr "backpressure") then
        emitError (InternalError_create
          ("Backpressure: " +:+ toString (jget "buffered" data) +:+ "/" +:+
           toString (jget "limit" data) +:+ " buffered")
          (Some [("buffered", jget "buffered" data); ("limit", jget "limit" data)])) h
      else if jhas "requestId" data && jhas "ok" data then
        match jget "requestId" data with
        | JStr id =>
            upd (with_tracker (rt_resolve id
              (if truthy (jget "ok" data) then Ok (jget "data" data)
               else Err (response_error (jget "error" data))))) h
        | _ => h
        end
      else if jhas "seq" data && jhas "event" data then
        let h := upd (with_lastSeen (jget "seq" data)) h in
        let event := jget "event" data in
        let h := if bool_decide (jget "type" event = JStr "heartbeat")
                 then upd (with_monitor (hm_recordHeartbeat default_heartbeat now)) h else h in
        upd (with_stream (es_push event)) h
      else h
  | Some _ => h
  end.

(** [connectInternal], up to the listeners. *)
Definition connectInternal (h : Handler) : Handler :=
  let h := setState hs_connecting h in
  let n := h_next h in
  mkHandler (h_state h) (Some n) (om_set n (mkSock false true rs_open) (h_socks h)) (n + 1)
    (h_shared h) (h_out h).
Definition on_auth_timeout (n : nat) (h : Handler) : Handler :=
  match om_get n (h_socks h) with
  | Some (mkSock false true r) =>
      out (HoResult n (Err (InternalError_create
        ("Auth response not received within " +:+ pretty requestTimeoutMs +:+ "ms") None)))
        (setState hs_closed (sock_close n (Some 4000%Z) (set_sock n (mkSock true false r) h)))
  | _ => h
  end.
Definition on_socket_open (n : nat) (h : Handler) : Handler :=
  let h := setState hs_authenticating h in out (HoAuth n (h_lastSeenSeq (h_shared h))) h.
Definition credential_of (data : json) : CredentialInfo :=
  let c := jget "credential" data in
  {| ci_connectionId := jget "connectionId" data; ci_credentialId := jget "credentialId" c;
     ci_operatorId := jget "operatorId" c; ci_scopes := jget "effectiveScopes" data;
     ci_expiresAt := jget "expiresAt" c |}.
(** A new monitor takes the place of the old one, which is not stopped. *)
Definition authenticate (now : Z) (data : json) (x : Shared) : Shared :=
  mkShared (Some (credential_of data)) (h_lastSeenSeq x) (h_stream x) (h_tracker x)
    (Some (hm_start default_heartbeat now createHeartbeatMonitor))
    (h_orphans x ++ option_list (h_monitor x)) 0 (h_reconnectTimers x).
Definition on_socket_message (now : Z) (n : nat) (raw : option json) (h : Handler) : Handler :=
  match om_get n (h_socks h) with
  | None => h
  | Some s =>
      if authHandled s then handleFrame now raw h
      else
        match raw with
        | None =>
            out (HoResult n (Err (AuthError_create "Invalid auth response from signet" None)))
              (setState hs_closed (set_sock n (mkSock false false (ready s)) h))
        | Some JNull => h
        | Some data =>
            if bool_decide (jget "type" data = JStr "authenticated") then
              let h := set_sock n (mkSock true false (ready s)) h in
              if nullish (jget "credential" data) then h
              else out (HoResult n (Ok tt)) (setState hs_connected (upd (authenticate now data) h))
            else if bool_decide (jget "type" data = JStr "auth_error") then
              out (HoResult n (Err (AuthError_create (toString (jget "message" data))
                (Some [("code", jget "code" data)]))))
                (setState hs_closed (set_sock n (mkSock true false (ready s)) h))
            else h
        end
  end.
Definition on_socket_close (random : Z) (n : nat) (closeCode : Z) (reason : string) (h : Handler)
  : Handler :=
  match om_get n (h_socks h) with
  | None => h
  | Some s =>
      let h := set_sock n (mkSock true (authTimeout s && authHandled s) rs_closed) (monitor_stop h) in
      if negb (authHandled s) then
        if negb (isRetryable closeCode) then
          out (HoResult n (Err (AuthError_create
            (if bool_decide (reason = "") then "Connection closed during auth" else reason) None)))
            (setState hs_closed h)
        else
          out (HoResult n (Err (InternalError_create "Connection lost during auth" None)))
            (attemptReconnect random (rejectAll "Connection lost" h))
      else
        let h := rejectAll "Connection closed" (set_ws None h) in
        if negb (isRetryable closeCode) then stream_complete (setState hs_closed h)
        else if negb (bool_decide (h_state h = hs_closed)) then attemptReconnect random h
        else h
  end.
(** The reconnection timer; [throws] when [new WebSocket] does. *)
Definition on_reconnect_timer (random : Z) (throws : bool) (h : Handler) : Handler :=
  match h_reconnectTimers (h_shared h) with
  | O => h
  | S k =>
      let h := upd (λ x, with_attempt (h_attempt x) k x) h in
      if negb (bool_decide (h_state h = hs_reconnecting)) then h
      else if throws then attemptReconnect random (setState hs_connecting h)
      else connectInternal h
  end.

(** ** The interface *)
(** [connect]: an immediate result, or the socket whose result it awaits. *)
Definition connect (h : Handler) : Handler * (result SignetError unit + nat) :=
  match h_state h with
  | hs_closed =>
      (h, inl (Err (ValidationError_create "state" "Handler is closed and cannot be reused" None)))
  | hs_connected => (h, inl (Ok tt))
  | hs_connecting | hs_authenticating | hs_reconnecting =>
      (h, inl (Err (ValidationError_create "state"
         ("Connection already in progress (state: " +:+ handler_state_name (h_state h) +:+ ")") None)))
  | hs_disconnected =>
      (connectInternal (upd (with_stream (λ _, createEventStream)) h), inr (h_next h))
  end.
Definition disconnect (h : Handler) : Handler :=
  let h := rejectAll "Disconnecting" (monitor_stop h) in
  let h := match h_ws h with
           | Some n => set_ws None (sock_close n (Some 1000%Z) h)
           | None => h
           end in
  stream_complete (setState hs_closed h).
Definition sendRequest (request : list (string * json)) (requestId : string) (h : Handler)
  : Handler * (SignetError + nat) :=
  match h_ws h with
  | Some n =>
      if bool_decide (h_state h = hs_connected) then
        (out (HoRequest n (JObj (om_set "requestId" (JStr requestId) request)))
           (upd (with_tracker (rt_track requestId)) h),
         inr (rt_next (h_tracker (h_shared h))))
      else (h, inl (ValidationError_create "state" "Not connected to signet" None))
  | None => (h, inl (ValidationError_create "state" "Not connected to signet" None))
  end.
Definition hasStringFields (v : json) (fields : list string) : bool :=
  match v with
  | JObj _ => forallb (λ k, match jget k v with JStr _ => true | _ => false end) fields
  | JArr _ => forallb (λ _ : string, false) fields
  | _ => false
  end.
End handler.

(** ** Reachable handlers *)
Section reachable.
Context (reconnect : ReconnectConfig) (requestTimeoutMs : Z).
Definition monitors (h : Handler) : list HeartbeatMonitor :=
  option_list (h_monitor (h_shared h)) ++ h_orphans (h_shared h).
Definition request_timeout (k : nat) (h : Handler) : Handler :=
  upd (with_tracker (rt_timeout requestTimeoutMs k)) h.
(** Every call and every event.  A [WebSocket] opens and receives only until
    it is closed by either side, and its close event comes once; request ids
    are fresh. *)
Inductive hstep (h : Handler) : Handler → Prop :=
  | hs_connect : hstep h (connect h).1
  | hs_disconnect : hstep h (disconnect h)
  | hs_send request id :
      om_get id (rt_pending (h_tracker (h_shared h))) = None → hstep h (sendRequest request id h).1
  | hs_open n s :
      om_get n (h_socks h) = Some s → ready s = rs_open → authHandled s = false →
      hstep h (on_socket_open n h)
  | hs_message now n s raw :
      om_get n (h_socks h) = Some s → ready s = rs_open → hstep h (on_socket_message now n raw h)
  | hs_close random n s closeCode reason :
      om_get n (h_socks h) = Some s → ready s ≠ rs_closed → 
      hstep h (on_socket_close reconnect random n closeCode reason h)
  | hs_auth_timeout n : hstep h (on_auth_timeout requestTimeoutMs n h)
  | hs_reconnect random throws : hstep h (on_reconnect_timer reconnect random throws h)
  | hs_dead now m random :
      m ∈ monitors h → hm_due now m = true → hstep h (handleConnectionDead reconnect random h)
  | hs_request_timeout k : hstep h (request_timeout k h).
Definition hreachable : Handler → Prop := rtc hstep createSignetHandler.

Definition all_closed (h : Handler) : Prop :=
  ∀ n s, om_get n (h_socks h) = Some s → ready s = rs_closed.
Definition stopped (m : HeartbeatMonitor) : Prop := m = mkMonitor false None.
(** The current socket, not yet closed. *)
Definition current_sock (h : Handler) (handled : bool) : Prop :=
  ∃ n s, h_ws h = Some n ∧ om_get n (h_socks h) = Some s ∧ ready s ≠ rs_closed ∧
    (handled = true → authHandled s = true).
Record base_inv (h : Handler) : Prop := {
  bi_socks : ∀ n s, om_get n (h_socks h) = Some s → n < h_next h ∧
    (ready s ≠ rs_closed → n + 1 = h_next h) ∧ (ready s = rs_open → h_ws h = Some n) ∧
    (ready s = rs_closed → authHandled s = true);
  bi_timers : h_reconnectTimers (h_shared h) ≤ 1 ∧
    (h_reconnectTimers (h_shared h) = 1 → all_closed h);
  bi_running : ∀ m, h_monitor (h_shared h) = Some m → stopped m ∨ current_sock h true;
  bi_orphans : Forall stopped (h_orphans (h_shared h));
  bi_attempt : rc_maxAttempts reconnect ≠ 0 → h_attempt (h_shared h) ≤ rc_maxAttempts reconnect;
  bi_tracker : tracker_inv (h_tracker (h_shared h))
}.
Definition state_ok (st : HandlerState) (h : Handler) : Prop :=
  match st with
  | hs_disconnected => h_reconnectTimers (h_shared h) = 0 ∧ all_closed h
  | hs_reconnecting => h_reconnectTimers (h_shared h) = 1
  | hs_connecting | hs_authenticating => h_reconnectTimers (h_shared h) = 0 ∧ current_sock h false
  | hs_connected => h_reconnectTimers (h_shared h) = 0 ∧ current_sock h true ∧
      is_Some (h_credential (h_shared h))
  | hs_closed => True
  end.
Definition h_inv (h : Handler) : Prop := base_inv h ∧ state_ok (h_state h) h.

Lemma setState_base st h : base_inv h → base_inv (setState st h).
Proof. intros Hb. unfold setState. case_bool_decide; [done|]. by destruct Hb; split. Qed.
Lemma setState_state st h : h_state (setState st h) = st.
Proof. unfold setState. by case_bool_decide. Qed.
Lemma setState_ok st st' h : state_ok st h → state_ok st (setState st' h).
Proof. unfold setState. by case_bool_decide. Qed.
Lemma setState_inv st h : base_inv h → state_ok st h → h_inv (setState st h).
Proof.
  intros Hb Hs. split; [by apply setState_base|]. rewrite setState_state. by apply setState_ok.
Qed.
Lemma out_inv o h : h_inv h → h_inv (out o h).
Proof. intros [[] Hs]. by split. Qed.
Lemma stream_inv' f h : h_inv h → h_inv (upd (with_stream f) h).
Proof. intros [[] Hs]. split; [by split|exact Hs]. Qed.
Lemma tracker_base f h :
  (∀ t, tracker_inv t → tracker_inv (f t)) → base_inv h → base_inv (upd (with_tracker f) h).
Proof. intros Hf []. split; try done. by apply Hf. Qed.
Lemma tracker_inv' f h :
  (∀ t, tracker_inv t → tracker_inv (f t)) → h_inv h → h_inv (upd (with_tracker f) h).
Proof. intros Hf [Hb Hs]. split; [by apply tracker_base|exact Hs]. Qed.
Lemma rejectAll_base msg h : base_inv h → base_inv (rejectAll msg h).
Proof. apply tracker_base. intros t Ht. by eapply rejectAll_fold. Qed.
Lemma stop_base h : base_inv h → base_inv (monitor_stop h).
Proof.
  intros []. split; try done. intros m. cbn. destruct (h_monitor (h_shared h)); [|done].
  intros [= <-]. by left.
Qed.
Lemma all_stopped h m :
  base_inv h → (∀ m, h_monitor (h_shared h) = Some m → stopped m) → m ∈ monitors h → stopped m.
Proof.
  intros Hb Hm. unfold monitors. rewrite elem_of_app. intros [Hin|Hin].
  - destruct (h_monitor (h_shared h)); cbn in Hin; [|by apply not_elem_of_nil in Hin].
    apply list_elem_of_singleton in Hin as ->. by apply Hm.
  - by eapply Forall_forall; [apply bi_orphans|].
Qed.

Lemma closed_stopped h m :
  base_inv h → all_closed h → h_monitor (h_shared h) = Some m → stopped m.
Proof.
  intros Hb Hc Hm. destruct (bi_running _ Hb _ Hm) as [?|(n & s & _ & Hn & Hr & _)]; [done|].
  by destruct Hr, (Hc _ _ Hn).
Qed.
Lemma attemptReconnect_inv random h :
  base_inv h → all_closed h → h_reconnectTimers (h_shared h) = 0 →
  h_inv (attemptReconnect reconnect random h).
Proof.
  intros Hb Hc Ht. unfold attemptReconnect. destruct (negb _).
  { apply stream_inv', setState_inv; done. }
  destruct (exhausted _ _) eqn:He.
  { apply stream_inv', setState_inv; [|done]. by destruct Hb; split. }
  unfold nextDelay. apply out_inv.
  assert (base_inv (setState hs_reconnecting h)) as Hb' by by apply setState_base.
  assert (h_shared (setState hs_reconnecting h) = h_shared h) as Hsh
    by (unfold setState; by case_bool_decide).
  assert (all_closed (setState hs_reconnecting h)) as Hc'
    by (unfold setState; by case_bool_decide).
  pose proof (setState_state hs_reconnecting h) as Hst.
  set (h' := setState hs_reconnecting h) in *. clearbody h'.
  split; [|cbn; rewrite Hst; cbn; rewrite Hsh, Ht; done].
  destruct Hb'. split; cbn; try done.
  - rewrite Hsh, Ht. cbn. done.
  - intros Hne. rewrite Hsh. unfold exhausted in He. destruct (Nat.eqb_spec (rc_maxAttempts reconnect) 0); [done|].
    apply Nat.leb_gt in He. lia.
Qed.
Lemma connectInternal_inv h :
  base_inv h → all_closed h → h_reconnectTimers (h_shared h) = 0 → h_inv (connectInternal h).
Proof.
  intros Hb Hc Ht. unfold connectInternal.
  assert (base_inv (setState hs_connecting h)) as Hb' by by apply setState_base.
  assert (h_shared (setState hs_connecting h) = h_shared h) as Hsh
    by (unfold setState; by case_bool_decide).
  assert (all_closed (setState hs_connecting h)) as Hc'
    by (unfold setState; by case_bool_decide).
  pose proof (setState_state hs_connecting h) as Hst.
  set (h' := setState hs_connecting h) in *. clearbody h'.
  pose proof (closed_stopped h') as Hrun.
  split.
  - destruct Hb' as [B1 B2 B3 B4 B5 B6]. split; cbn [h_socks h_next h_ws h_shared]; try done.
    + intros n s. rewrite om_get_set. case_decide as Hd.
      * intros [= <-]. subst n. cbn. split_and!; [lia|done|done|done].
      * intros Hn. destruct (B1 n s Hn) as (H1 & H2 & H3 & H4). pose proof (Hc' _ _ Hn) as Hr.
        rewrite Hr. split_and!; [lia|done|done|by intros _; apply H4].
    + rewrite Hsh, Ht. split; [lia|done].
    + intros m Hm. left. by apply Hrun.
  - cbn [h_state]. rewrite Hst. cbn [state_ok h_shared]. rewrite Hsh. split; [done|].
    exists (h_next h'), (mkSock false true rs_open). cbn [h_ws h_socks]. rewrite om_get_set_eq. done.
Qed.
(** Replacing a socket's variables without opening it. *)
Lemma set_sock_base n s s' h :
  om_get n (h_socks h) = Some s → (authHandled s = true → authHandled s' = true) →
  (ready s' = ready s ∨ ready s = rs_open ∧ ready s' = rs_closing) →
  base_inv h → base_inv (set_sock n s' h).
Proof.
  intros Hn Ha Hr [B1 B2 B3 B4 B5 B6]. split; cbn [set_sock h_socks h_next h_ws h_shared]; try done.
  - intros n' x. rewrite om_get_set. case_decide as Hd; [|apply B1]. intros [= <-]. subst n'.
    destruct (B1 n s Hn) as (H1 & H2 & H3 & H4). destruct Hr as [->|[Hr ->]].
    + split_and!; [done|done|done|]. intros Hc. by apply Ha, H4.
    + split_and!; [done|intros _; apply H2; congruence|done|done].
  - split; [apply B2|]. intros Ht n' x. cbn [set_sock h_socks]. rewrite om_get_set.
    pose proof (proj2 B2 Ht) as Hc. case_decide as Hd; [|apply Hc]. intros [= <-].
    pose proof (Hc _ _ Hn). destruct Hr as [->|[? ?]]; [done|congruence].
  - intros m Hm. destruct (B3 m Hm) as [?|(k & x & Hw & Hk & Hx & Hh)]; [by left|right].
    destruct (decide (k = n)) as [->|Hne].
    + exists n, s'. cbn [set_sock h_ws h_socks]. rewrite om_get_set_eq. rewrite Hn in Hk. injection Hk as <-.
      split_and!; [done|done| |by intros _; apply Ha, Hh]. destruct Hr as [->|[_ ->]]; done.
    + exists k, x. cbn [set_sock h_ws h_socks]. by rewrite om_get_set_ne by done.
Qed.
Lemma sock_close_base n c h : base_inv h → base_inv (sock_close n c h).
Proof.
  intros Hb. unfold sock_close. cbn [out h_socks]. destruct (om_get n (h_socks h)) as [s|] eqn:Hn.
  2: { by destruct Hb; split. }
  case_bool_decide as Hr; [|by destruct Hb; split].
  apply (set_sock_base n s); [done|done|by right|]. by destruct Hb; split.
Qed.
Lemma sock_close_shared n c h :
  h_shared (sock_close n c h) = h_shared h ∧ h_state (sock_close n c h) = h_state h ∧
  h_ws (sock_close n c h) = h_ws h ∧ h_next (sock_close n c h) = h_next h.
Proof.
  unfold sock_close. cbn. destruct (om_get n _) as [s|]; [|done]. by case_bool_decide.
Qed.
Lemma sock_close_get n c h k :
  om_get k (h_socks (sock_close n c h)) =
  match om_get k (h_socks h) with
  | Some s => Some (if decide (k = n ∧ ready s = rs_open)
                    then mkSock (authHandled s) (authTimeout s) rs_closing else s)
  | None => None
  end.
Proof.
  unfold sock_close. cbn [out h_socks]. destruct (om_get n (h_socks h)) as [s|] eqn:Hn.
  - case_bool_decide as Hr; cbn [set_sock h_socks].
    + rewrite om_get_set. case_decide as Hd.
      * subst k. rewrite Hn. by rewrite decide_True.
      * destruct (om_get k _); [|done]. by rewrite decide_False by naive_solver.
    + destruct (om_get k (h_socks h)) as [x|] eqn:Hk; [|done].
      rewrite decide_False; [done|]. intros [-> ?]. congruence.
  - destruct (om_get k (h_socks h)) as [x|] eqn:Hk; [|done].
    rewrite decide_False; [done|]. intros [-> ?]. congruence.
Qed.
Lemma sock_close_current n c h b : current_sock h b → current_sock (sock_close n c h) b.
Proof.
  intros (k & s & Hw & Hk & Hr & Ha). destruct (sock_close_shared n c h) as (_ & _ & Hws & _).
  eexists k, _. rewrite Hws, sock_close_get, Hk. split_and!; [done|reflexivity|..]; by case_decide.
Qed.
Lemma sock_close_all n c h : all_closed h → all_closed (sock_close n c h).
Proof.
  intros Hc k s. rewrite sock_close_get. destruct (om_get k (h_socks h)) as [x|] eqn:Hk; [|done].
  intros [= <-]. pose proof (Hc _ _ Hk). rewrite decide_False; [done|]. intros [_ ?]. congruence.
Qed.
Lemma sock_close_inv n c h : h_inv h → h_inv (sock_close n c h).
Proof.
  intros [Hb Hs]. split; [by apply sock_close_base|].
  destruct (sock_close_shared n c h) as (Hsh & -> & _).
  destruct (h_state h); cbn in *; rewrite ?Hsh; try done.
  - destruct Hs. split; [done|by apply sock_close_all].
  - destruct Hs. split; [done|by apply sock_close_current].
  - destruct Hs. split; [done|by apply sock_close_current].
  - destruct Hs as (? & ? & ?). split_and!; [done|by apply sock_close_current|done].
Qed.

Lemma handleFrame_inv now raw h : h_inv h → h_inv (handleFrame now raw h).
Proof.
  intros Hi. unfold handleFrame. destruct raw as [data|]; [|by apply out_inv].
  destruct data as [| | | | | |o]; try done. set (data := JObj o).
  case_bool_decide; [by apply out_inv|]. destruct (_ && _).
  { destruct (jget "requestId" data); try done. apply tracker_inv'; [|done].
    intros t Ht. eapply (tracker_step_inv 0); [|exact Ht]. constructor. }
  destruct (_ && _); [|done]. cbv zeta. apply stream_inv'.
  assert (h_inv (upd (with_lastSeen (jget "seq" data)) h)) as Hi'.
  { destruct Hi as [[] Hs]. split; [by split|exact Hs]. }
  case_bool_decide; [|done]. destruct Hi' as [[B1 B2 B3 B4 B5 B6] Hs]. split; [|exact Hs].
  split; try done. intros m. cbn in *. destruct (h_monitor (h_shared h)) as [m0|]; [|done].
  intros [= <-]. destruct (B3 _ eq_refl) as [->|?]; [by left|by right].
Qed.
Lemma open_no_timer h n s :
  base_inv h → om_get n (h_socks h) = Some s → ready s ≠ rs_closed →
  h_reconnectTimers (h_shared h) = 0 ∧ n + 1 = h_next h.
Proof.
  intros Hb Hn Hr. split; [|by apply (bi_socks _ Hb n s)].
  destruct (bi_timers _ Hb) as [H1 H2]. destruct (decide (h_reconnectTimers (h_shared h) = 1)) as [H|?]; [|lia].
  by destruct Hr, (H2 H n s Hn).
Qed.
Lemma set_sock_ok n s s' h :
  om_get n (h_socks h) = Some s → (authHandled s = true → authHandled s' = true) →
  ready s' = ready s → state_ok (h_state h) h → state_ok (h_state h) (set_sock n s' h).
Proof.
  intros Hn Ha Hr. assert (all_closed h → all_closed (set_sock n s' h)) as Hall.
  { intros Hc k x. cbn [set_sock h_socks]. rewrite om_get_set. case_decide; [|apply Hc].
    intros [= <-]. rewrite Hr. by eapply Hc. }
  assert (∀ b, current_sock h b → current_sock (set_sock n s' h) b) as Hcur.
  { intros b (k & x & Hw & Hk & Hx & Hh). destruct (decide (k = n)) as [->|Hne].
    - exists n, s'. cbn [set_sock h_ws h_socks]. rewrite om_get_set_eq. rewrite Hn in Hk. injection Hk as <-.
      split_and!; [done|done|by rewrite Hr|by intros Hb; apply Ha, Hh].
    - exists k, x. cbn [set_sock h_ws h_socks]. by rewrite om_get_set_ne by done. }
  unfold state_ok. destruct (h_state h); cbn [set_sock h_shared]; naive_solver.
Qed.
Lemma message_inv now n s raw h :
  om_get n (h_socks h) = Some s → ready s = rs_open → h_inv h → h_inv (on_socket_message now n raw h).
Proof.
  intros Hn Hr Hi. unfold on_socket_message. rewrite Hn.
  destruct (authHandled s) eqn:Ha; [by apply handleFrame_inv|].
  destruct Hi as [Hb Hs].
  assert (∀ b t, base_inv (set_sock n (mkSock b t (ready s)) h)) as Hset.
  { intros b t. apply (set_sock_base n s); [done|congruence|by left|done]. }
  destruct (open_no_timer h n s Hb Hn ltac:(by rewrite Hr)) as [Ht Hnext].
  assert (h_ws h = Some n) as Hws by by apply (bi_socks _ Hb n s).
  destruct raw as [data|]; [|by apply out_inv, setState_inv].
  assert (h_inv (if bool_decide (jget "type" data = JStr "authenticated") then
    let h := set_sock n (mkSock true false (ready s)) h in
    if nullish (jget "credential" data) then h
    else out (HoResult n (Ok tt)) (setState hs_connected (upd (authenticate now data) h))
    else if bool_decide (jget "type" data = JStr "auth_error") then
      out (HoResult n (Err (AuthError_create (toString (jget "message" data))
        (Some [("code", jget "code" data)]))))
        (setState hs_closed (set_sock n (mkSock true false (ready s)) h))
    else h)) as Hgoal; [|by destruct data].
  case_bool_decide; [|case_bool_decide; [by apply out_inv, setState_inv|done]].
  cbv zeta. destruct (nullish _).
  { split; [done|]. exact (set_sock_ok n s (mkSock true false (ready s)) h Hn (λ _, eq_refl) eq_refl Hs). }
  assert (current_sock (set_sock n (mkSock true false (ready s)) h) true) as Hcur.
  { exists n, (mkSock true false (ready s)). cbn [set_sock h_ws h_socks]. rewrite om_get_set_eq.
    split_and!; [done|done|by rewrite Hr|done]. }
  apply out_inv, setState_inv.
  - specialize (Hset true false). pose proof (bi_running _ Hb) as Hrun.
    destruct Hset as [B1 B2 B3 B4 B5 B6]. split; try done.
    + cbn [upd h_shared authenticate h_monitor]. intros m [= <-]. right. exact Hcur.
    + cbn [upd set_sock h_shared authenticate h_orphans]. apply Forall_app. split; [exact B4|].
      destruct (h_monitor (h_shared h)) as [m|] eqn:Hm; [|done]. constructor; [|done].
      destruct (Hrun m eq_refl) as [?|(k & x & Hw & Hk & _ & Hh)]; [done|].
      rewrite Hws in Hw. injection Hw as <-. rewrite Hn in Hk. injection Hk as <-.
      rewrite Hh in Ha by done. done.
    + cbn. lia.
  - cbn [state_ok upd set_sock h_shared authenticate h_reconnectTimers h_credential].
    split_and!; [done|exact Hcur|by eexists].
Qed.
Lemma close_base n s t h :
  om_get n (h_socks h) = Some s → ready s ≠ rs_closed → base_inv h →
  let h' := set_sock n (mkSock true t rs_closed) (monitor_stop h) in
  base_inv h' ∧ all_closed h' ∧ h_reconnectTimers (h_shared h') = 0.
Proof.
  intros Hn Hr Hb h'. destruct (open_no_timer h n s Hb Hn Hr) as [Ht Hnext].
  assert (all_closed h') as Hall.
  { intros k x. unfold h'. cbn [set_sock monitor_stop upd h_socks]. rewrite om_get_set.
    case_decide as Hd; [by intros [= <-]|]. intros Hk. destruct (bi_socks _ Hb k x Hk) as (_ & H2 & _).
    destruct (decide (ready x = rs_closed)) as [?|Hx]; [done|]. specialize (H2 Hx). lia. }
  split_and!; [|done|exact Ht]. destruct (stop_base _ Hb) as [B1 B2 B3 B4 B5 B6].
  split; try done.
  - intros k x Hk. pose proof (Hall _ _ Hk) as Hc. rewrite Hc. unfold h' in Hk.
    cbn [set_sock monitor_stop upd h_socks] in Hk. rewrite om_get_set in Hk.
    case_decide as Hd; [injection Hk as <-; subst k|].
    + split_and!; [|done|done|done]. by apply (bi_socks _ Hb n s).
    + split_and!; [by apply (bi_socks _ Hb k x)|done|done|]. intros _. by apply (bi_socks _ Hb k x).
  - split; [exact (proj1 B2)|by intros _].
  - intros m Hm. left. unfold h' in Hm. cbn in Hm. destruct (h_monitor (h_shared h)); [|done].
    by injection Hm as <-.
Qed.
Lemma close_inv random n s c reason h :
  om_get n (h_socks h) = Some s → ready s ≠ rs_closed → h_inv h →
  h_inv (on_socket_close reconnect random n c reason h).
Proof.
  intros Hn Hr [Hb _]. unfold on_socket_close. rewrite Hn. cbv zeta.
  destruct (close_base n s (authTimeout s && authHandled s) h Hn Hr Hb) as (Hb' & Hc & Ht).
  set (h' := set_sock n _ _) in *. clearbody h'. destruct (negb (authHandled s)).
  - destruct (negb (isRetryable c)); apply out_inv; [by apply setState_inv|].
    apply attemptReconnect_inv; [by apply rejectAll_base|done|done].
  - assert (base_inv (rejectAll "Connection closed" (set_ws None h'))) as Hb2.
    { apply rejectAll_base. destruct Hb' as [B1 B2 B3 B4 B5 B6]. split; try done.
      - intros k x Hk. destruct (B1 k x Hk) as (H1 & H2 & H3 & H4). split_and!; try done.
        rewrite (Hc _ _ Hk). done.
      - intros m Hm. left. by apply (closed_stopped h'). }
    destruct (negb (isRetryable c)); [by apply stream_inv', setState_inv|].
    case_bool_decide; [|by apply attemptReconnect_inv].
    cbn [negb]. split; [done|]. cbn in *. by rewrite H.
Qed.

Lemma disconnect_inv h : h_inv h → h_inv (disconnect h).
Proof.
  intros [Hb _]. unfold disconnect. cbv zeta. apply stream_inv', setState_inv; [|done].
  pose proof (rejectAll_base "Disconnecting" _ (stop_base _ Hb)) as Hb'.
  assert (∀ m, h_monitor (h_shared (rejectAll "Disconnecting" (monitor_stop h))) = Some m → stopped m) as Hst.
  { intros m. cbn. destruct (h_monitor (h_shared h)); [|done]. by intros [= <-]. }
  set (h' := rejectAll _ _) in *. clearbody h'. destruct (h_ws h') as [n|] eqn:Hw; [|done].
  pose proof (sock_close_base n (Some 1000%Z) h' Hb') as Hb2.
  destruct (sock_close_shared n (Some 1000%Z) h') as (Hsh & _ & _ & _).
  pose proof (sock_close_get n (Some 1000%Z) h') as Hget.
  set (h2 := sock_close n (Some 1000%Z) h') in *. clearbody h2.
  destruct Hb2 as [B1 B2 B3 B4 B5 B6]. split; try done.
  - intros k x Hk. cbn in Hk. destruct (B1 k x Hk) as (H1 & H2 & H3 & H4). split_and!; try done.
    intros Hr. exfalso. rewrite Hget in Hk. destruct (om_get k (h_socks h')) as [y|] eqn:Hy; [|done].
    injection Hk as <-. case_decide as Hd; [done|]. destruct Hd. split; [|done].
    destruct (bi_socks _ Hb' k y Hy) as (_ & _ & H5 & _). specialize (H5 Hr). congruence.
  - intros m. cbn. rewrite Hsh. intros Hm. left. by apply Hst.
Qed.
Lemma hstep_inv h h' : hstep h h' → h_inv h → h_inv h'.
Proof.
  intros Hs Hi. pose proof Hi as [Hb Hok].
  destruct Hs as [| |request id Hid|n s Hn Hr Ha|now n s raw Hn Hr|random n s c reason Hn Hr|n
    |random throws|now m random Hm Hd|k].
  - unfold connect. destruct (h_state h) eqn:Hst; try done. cbn in Hok. destruct Hok.
    cbn [fst]. apply connectInternal_inv; [|done|done]. by destruct Hb; split.
  - by apply disconnect_inv.
  - unfold sendRequest. destruct (h_ws h) as [n|]; [|done]. case_bool_decide; [|done]. cbn [fst].
    apply out_inv. destruct Hi as [Hb' Hs]. split; [|exact Hs]. destruct Hb' as [B1 B2 B3 B4 B5 B6].
    split; try done. eapply (tracker_step_inv requestTimeoutMs); [by constructor|exact B6].
  - unfold on_socket_open. cbv zeta. apply out_inv, setState_inv; [done|].
    destruct (open_no_timer h n s Hb Hn ltac:(by rewrite Hr)) as [Ht _]. split; [done|].
    exists n, s. split_and!; [by apply (bi_socks _ Hb n s)|done|by rewrite Hr|done].
  - by apply (message_inv now n s).
  - by apply (close_inv random n s).
  - unfold on_auth_timeout. destruct (om_get n (h_socks h)) as [[[] [] r]|] eqn:Hn; try done.
    apply out_inv, setState_inv; [|done]. apply sock_close_base.
    apply (set_sock_base n (mkSock false true r)); [done|done|by left|done].
  - unfold on_reconnect_timer. destruct (h_reconnectTimers (h_shared h)) as [|k] eqn:Ht; [done|].
    cbv zeta. destruct (bi_timers _ Hb) as [H1 H2]. assert (k = 0) as -> by lia.
    assert (all_closed h) as Hc by (apply H2; lia).
    set (h2 := upd _ h). assert (base_inv h2) as Hb2 by (destruct Hb; split; try done; cbn; lia).
    case_bool_decide as Hst; cbn [negb].
    + destruct throws; [|by apply connectInternal_inv].
      apply attemptReconnect_inv; [by apply setState_base|unfold setState; by case_bool_decide..].
    + split; [done|]. destruct (h_state h) eqn:Hst'; cbn in *; rewrite Hst'; cbn; try done; naive_solver lia.
  - assert (∃ m, h_monitor (h_shared h) = Some m ∧ ¬ stopped m) as (m0 & Hm0 & Hns).
    { unfold monitors in Hm. apply elem_of_app in Hm as [Hm|Hm].
      - destruct (h_monitor (h_shared h)) as [m0|]; [|by apply not_elem_of_nil in Hm].
        apply list_elem_of_singleton in Hm as ->. exists m0. split; [done|]. by intros ->.
      - pose proof (bi_orphans _ Hb) as Ho. rewrite Forall_forall in Ho.
        rewrite (Ho m Hm) in Hd. done. }
    destruct (bi_running _ Hb _ Hm0) as [?|(n & s & Hw & _)]; [done|].
    unfold handleConnectionDead. cbn [monitor_stop upd h_ws]. rewrite Hw. apply sock_close_inv.
    split; [by apply stop_base|exact Hok].
  - apply tracker_inv'; [|done]. intros t Ht. eapply (tracker_step_inv requestTimeoutMs); [constructor|done].
Qed.
Lemma hreachable_inv h : hreachable h → h_inv h.
Proof.
  assert (h_inv createSignetHandler) as H0.
  { split; [|by split]. split; cbn; try done; [lia|lia|].
    apply (tracker_reachable_inv requestTimeoutMs). apply rtc_refl. }
  intros Hr. revert H0. induction Hr as [|a b c Hs _ IH]; [done|]. intros. apply IH. by eapply hstep_inv.
Qed.

(** A request is pending only while the handler is connected. *)
Definition pending_ok (h : Handler) : Prop :=
  h_state h ≠ hs_connected → rt_pending (h_tracker (h_shared h)) = [].
Lemma unhandled_not_connected n s h :
  h_inv h → om_get n (h_socks h) = Some s → authHandled s = false → h_state h ≠ hs_connected.
Proof.
  intros [Hb Hs] Hn Ha Hst. rewrite Hst in Hs. destruct Hs as (_ & (k & x & _ & Hk & Hx & Hh) & _).
  assert (ready s ≠ rs_closed) as Hr by (intros Hc; by rewrite (proj2 (proj2 (proj2 (bi_socks _ Hb n s Hn)))) in Ha).
  pose proof (proj1 (proj2 (bi_socks _ Hb n s Hn)) Hr). pose proof (proj1 (proj2 (bi_socks _ Hb k x Hk)) Hx).
  assert (k = n) as -> by lia. rewrite Hn in Hk. injection Hk as <-. by rewrite Hh in Ha.
Qed.
Lemma pending_setState st h :
  rt_pending (h_tracker (h_shared h)) = [] → pending_ok (setState st h).
Proof. intros Hp _. unfold setState. by case_bool_decide. Qed.
Lemma pending_attempt random h :
  rt_pending (h_tracker (h_shared h)) = [] → pending_ok (attemptReconnect reconnect random h).
Proof.
  intros Hp _. assert (∀ st g, h_shared (setState st g) = h_shared g) as Hset
    by (intros st g; unfold setState; by case_bool_decide).
  unfold attemptReconnect. destruct (negb _).
  { unfold stream_complete, upd. cbn. by rewrite Hset. }
  destruct (exhausted _ _); cbn; by rewrite Hset.
Qed.
Lemma pending_tracker f h :
  (∀ t, rt_pending t = [] → rt_pending (f t) = []) → pending_ok h → pending_ok (upd (with_tracker f) h).
Proof. intros Hf Hp Hst. apply Hf, Hp, Hst. Qed.
Lemma pending_frame now raw h : pending_ok h → pending_ok (handleFrame now raw h).
Proof.
  intros Hp. unfold handleFrame. destruct raw as [[]|]; try done.
  case_bool_decide; [done|]. destruct (_ && _).
  - destruct (jget "requestId" _); try done. apply pending_tracker; [|done].
    intros t Ht. unfold rt_resolve. by rewrite Ht.
  - destruct (_ && _); [|done]. cbv zeta. by case_bool_decide.
Qed.
Lemma pending_step h h' : hstep h h' → h_inv h → pending_ok h → pending_ok h'.
Proof.
  intros Hs Hi Hp. pose proof Hi as [Hb Hok].
  assert (∀ st g, h_shared (setState st g) = h_shared g) as Hset
    by (intros st g; unfold setState; by case_bool_decide).
  destruct Hs as [| |request id Hid|n s Hn Hr Ha|now n s raw Hn Hr|random n s c reason Hn Hr|n
    |random throws|now m random Hm Hd|k].
  - unfold connect. destruct (h_state h) eqn:Hst; try done. intros _.
    cbn [fst connectInternal upd h_shared]. rewrite Hset. cbn. apply Hp. by rewrite Hst.
  - intros _. unfold disconnect. cbn. rewrite Hset. destruct (h_ws h); [|done].
    cbn [set_ws h_shared]. by rewrite (proj1 (sock_close_shared _ _ _)).
  - unfold sendRequest. destruct (h_ws h); [|done]. case_bool_decide as Hst; [|done]. by intros [].
  - apply (pending_setState hs_authenticating), Hp. by eapply unhandled_not_connected.
  - unfold on_socket_message. rewrite Hn. destruct (authHandled s) eqn:Ha; [by apply pending_frame|].
    pose proof (Hp (unhandled_not_connected _ _ _ Hi Hn Ha)) as Hp'.
    destruct raw as [data|]; [|by apply (pending_setState hs_closed)].
    destruct data; try (case_bool_decide; [done|]; case_bool_decide; [|done]);
      try by apply (pending_setState hs_closed).
    all: try done.
    case_bool_decide; [|case_bool_decide; [by apply (pending_setState hs_closed)|done]].
    cbv zeta. destruct (nullish _); [done|]. by apply (pending_setState hs_connected).
  - unfold on_socket_close. rewrite Hn. cbv zeta. destruct (authHandled s) eqn:Ha; cbn [negb].
    + destruct (negb _); [by apply (pending_setState hs_closed)|].
      case_bool_decide; [done|by apply pending_attempt].
    + destruct (negb _); [|by apply (pending_attempt random)].
      apply (pending_setState hs_closed). apply Hp. by eapply unhandled_not_connected.
  - unfold on_auth_timeout. destruct (om_get n (h_socks h)) as [[[] [] r]|] eqn:Hn; try done.
    apply (pending_setState hs_closed). rewrite (proj1 (sock_close_shared _ _ _)). apply Hp.
    by eapply unhandled_not_connected.
  - unfold on_reconnect_timer. destruct (h_reconnectTimers _); [done|]. cbv zeta.
    case_bool_decide as Hst; cbn [negb]; [|done].
    assert (rt_pending (h_tracker (h_shared h)) = []) as Hp' by (apply Hp; cbn in Hst; by rewrite Hst).
    destruct throws; [by apply pending_attempt; rewrite Hset|].
    intros _. unfold connectInternal. cbn [h_shared]. by rewrite Hset.
  - unfold handleConnectionDead. cbn [monitor_stop upd h_ws]. destruct (h_ws h) as [n|] eqn:Hw.
    { intros Hst. destruct (sock_close_shared n None (monitor_stop h)) as (Hsh & Hst' & _).
      rewrite Hsh. apply Hp. rewrite Hst' in Hst. exact Hst. }
    exfalso. assert (¬ stopped m) as Hns by (by intros ->). apply Hns.
    apply (all_stopped h); [done| |done]. intros m0 Hm0.
    destruct (bi_running _ Hb _ Hm0) as [?|(? & ? & ? & _)]; [done|congruence].
  - apply pending_tracker; [|done]. intros t Ht. unfold rt_timeout.
    destruct (om_get k (rt_timers t)); [|done]. cbn. by rewrite Ht.
Qed.
Lemma hreachable_pending h : hreachable h → pending_ok h.
Proof.
  assert (h_inv createSignetHandler) as H0.
  { split; [|by split]. split; cbn; try done; [lia|lia|].
    apply (tracker_reachable_inv requestTimeoutMs). apply rtc_refl. }
  assert (pending_ok createSignetHandler) as Hp0 by done.
  intros Hr. revert H0 Hp0. induction Hr as [|a b c Hs _ IH]; [done|]. intros.
  apply IH; [by eapply hstep_inv|by eapply pending_step].
Qed.

(** The client's connection state machine: in every reachable handler at
    most one socket is not closed and it is the newest; at most one
    reconnection timer is armed, and only when every socket is closed; the
    state tells which (connecting, authenticating and connected have an open
    current socket and no timer, and connected has an authenticated socket and
    a credential; reconnecting has the timer; disconnected has neither); the
    attempts never exceed the maximum; every running heartbeat monitor is the
    current one and guards an authenticated socket, so [handleConnectionDead]
    always has a socket to close; a request is pending only while connected,
    and the request tracker is consistent. *)
Theorem handler_invariant h :
  hreachable h →
  (∀ n m s t, om_get n (h_socks h) = Some s → om_get m (h_socks h) = Some t →
     ready s ≠ rs_closed → ready t ≠ rs_closed → n = m ∧ n + 1 = h_next h) ∧
  h_reconnectTimers (h_shared h) ≤ 1 ∧
  (h_reconnectTimers (h_shared h) = 1 → all_closed h) ∧
  state_ok (h_state h) h ∧
  (rc_maxAttempts reconnect ≠ 0 → h_attempt (h_shared h) ≤ rc_maxAttempts reconnect) ∧
  (∀ now m, m ∈ monitors h → hm_due now m = true →
     h_monitor (h_shared h) = Some m ∧ current_sock h true) ∧
  (h_state h ≠ hs_connected → rt_pending (h_tracker (h_shared h)) = []) ∧
  tracker_inv (h_tracker (h_shared h)).
Proof.
  intros Hr. destruct (hreachable_inv h Hr) as [Hb Hs]. pose proof Hb as [B1 [B2 B3] B4 B5 B6 B7].
  split_and!; try done.
  - intros n m s t Hn Hm Hrs Hrt. destruct (B1 _ _ Hn) as (_ & H1 & _). destruct (B1 _ _ Hm) as (_ & H2 & _).
    specialize (H1 Hrs). specialize (H2 Hrt). lia.
  - intros now m Hm Hd. assert (¬ stopped m) as Hns by (by intros ->).
    unfold monitors in Hm. apply elem_of_app in Hm as [Hm|Hm].
    + destruct (h_monitor (h_shared h)) as [m0|]; [|by apply not_elem_of_nil in Hm].
      apply list_elem_of_singleton in Hm as ->. destruct (B4 _ eq_refl); [done|by split].
    + rewrite Forall_forall in B5. by destruct (Hns (B5 m Hm)).
  - by apply hreachable_pending.
Qed.

(** ** Disconnecting *)
(** Nothing is under way that could revive a closed handler: its sockets have
    had their authentication answer, its stream is complete and no request
    waits. *)
Definition finished (h : Handler) : Prop :=
  h_state h = hs_closed ∧ (∀ n s, om_get n (h_socks h) = Some s → authHandled s = true) ∧
  es_done (h_stream (h_shared h)) = true ∧ rt_pending (h_tracker (h_shared h)) = [].

Lemma finished_upd f h :
  finished h → (es_done (h_stream (h_shared h)) = true → es_done (h_stream (f (h_shared h))) = true) →
  (rt_pending (h_tracker (h_shared h)) = [] → rt_pending (h_tracker (f (h_shared h))) = []) →
  finished (upd f h).
Proof. intros (Hst & Ha & Hd & Hp) H1 H2. split_and!; [done|exact Ha|by apply H1|by apply H2]. Qed.
Lemma finished_out o h : finished h → finished (out o h).
Proof. done. Qed.
Lemma finished_setState h : finished h → finished (setState hs_closed h).
Proof. intros Hf. unfold setState. destruct Hf as (Hst & ?). rewrite Hst. cbn. by split. Qed.
Lemma finished_sock_close n c h : finished h → finished (sock_close n c h).
Proof.
  intros (Hst & Ha & Hd). destruct (sock_close_shared n c h) as (Hsh & Hst' & _).
  unfold finished. rewrite Hsh, Hst'. split_and!; try done; [|by apply Hd..].
  intros k s. rewrite sock_close_get. destruct (om_get k (h_socks h)) as [x|] eqn:Hk; [|done].
  intros [= <-]. specialize (Ha _ _ Hk). by case_decide.
Qed.
Lemma es_push_done {E} (e : E) (s : EventStream E) : es_done s = true → es_push e s = s.
Proof. intros H. unfold es_push. by rewrite H. Qed.
Lemma es_complete_done {E} (s : EventStream E) : es_done (es_complete s) = true.
Proof. unfold es_complete. by destruct (es_waiter s). Qed.
Lemma finished_frame now raw h : finished h → finished (handleFrame now raw h).
Proof.
  intros Hf. unfold handleFrame. destruct raw as [[]|]; try done.
  case_bool_decide; [done|]. destruct (_ && _).
  - destruct (jget "requestId" _); try done. apply finished_upd; [done..|].
    intros Hp. cbn. unfold rt_resolve. by rewrite Hp.
  - destruct (_ && _); [|done]. cbv zeta. apply finished_upd; [|by intros Hx; cbn; rewrite es_push_done|done].
    case_bool_decide; [apply finished_upd|]; try done; by apply finished_upd.
Qed.
Lemma finished_step h h' : h_inv h → finished h → hstep h h' → finished h'.
Proof.
  intros Hi Hf Hs. pose proof Hf as (Hst & Ha & Hd & Hp). pose proof Hi as [Hb _].
  destruct Hs as [| |request id Hid|n s Hn Hr Hau|now n s raw Hn Hr|random n s c reason Hn Hr|n
    |random throws|now m random Hm Hdu|k].
  - unfold connect. by rewrite Hst.
  - unfold disconnect. cbv zeta. apply finished_upd; [|by intros; apply es_complete_done|done].
    apply finished_setState.
    assert (finished (rejectAll "Disconnecting" (monitor_stop h))) as Hf' by (by split_and!).
    destruct (h_ws _); [|done]. by apply (finished_sock_close n (Some 1000%Z)) in Hf'.
  - unfold sendRequest. rewrite Hst. cbn. by destruct (h_ws h).
  - by rewrite (Ha _ _ Hn) in Hau.
  - unfold on_socket_message. rewrite Hn, (Ha _ _ Hn). by apply finished_frame.
  - unfold on_socket_close. rewrite Hn, (Ha _ _ Hn). cbn [negb]. cbv zeta.
    assert (finished (rejectAll "Connection closed" (set_ws None (set_sock n
      (mkSock true (authTimeout s && true) rs_closed) (monitor_stop h))))) as Hf'.
    { split_and!; [done| |done|done]. intros k x. cbn. rewrite om_get_set.
      case_decide; [by intros [= <-]|apply Ha]. }
    destruct (negb (isRetryable c)).
    + apply finished_upd; [by apply finished_setState|by intros; apply es_complete_done|done].
    + rewrite bool_decide_eq_true_2 by exact Hst. exact Hf'.
  - unfold on_auth_timeout. destruct (om_get n (h_socks h)) as [[[] ? ?]|] eqn:Hn; try done.
    by specialize (Ha _ _ Hn).
  - unfold on_reconnect_timer. destruct (h_reconnectTimers _); [done|]. cbv zeta.
    rewrite bool_decide_eq_false_2 by (cbn [upd h_state]; by rewrite Hst). cbn [negb]. done.
  - unfold handleConnectionDead. cbn [monitor_stop upd h_ws]. destruct (h_ws h) as [n|] eqn:Hw.
    { by apply finished_sock_close. }
    exfalso. assert (¬ stopped m) as Hns by (by intros ->). apply Hns.
    apply (all_stopped h); [done| |done]. intros m0 Hm0.
    destruct (bi_running _ Hb _ Hm0) as [?|(? & ? & ? & _)]; [done|congruence].
  - apply finished_upd; [done|done|]. intros H0. cbn. unfold rt_timeout.
    destruct (om_get k (rt_timers _)); [|done]. cbn. by rewrite H0.
Qed.
(** Disconnecting is final unless a handshake is in progress: after
    [disconnect] on a disconnected, connected or reconnecting handler, every
    later call and event leaves the state closed, the event stream complete
    and no request pending; in particular an armed reconnection timer and a
    retryable close do not reconnect. *)
Theorem disconnect_final h h' :
  hreachable h → h_state h ∈ [hs_disconnected; hs_connected; hs_reconnecting] →
  rtc hstep (disconnect h) h' → finished h'.
Proof.
  intros Hr Hst Hs. pose proof (hreachable_inv h Hr) as Hi.
  assert (h_inv (disconnect h)) as Hi' by by apply disconnect_inv.
  assert (finished (disconnect h)) as Hf.
  { destruct Hi as [Hb Hok]. assert (∀ n s, om_get n (h_socks h) = Some s → authHandled s = true) as Ha.
    { intros n s Hn. destruct (decide (ready s = rs_closed)) as [Hc|Hc]; [by eapply bi_socks|].
      destruct (bi_socks _ Hb _ _ Hn) as (_ & H1 & _). specialize (H1 Hc).
      rewrite !elem_of_cons in Hst. destruct Hst as [Hst|[Hst|[Hst|Hst]]]; [..|by apply not_elem_of_nil in Hst];
        rewrite Hst in Hok; cbn in Hok.
      - by destruct Hc, (proj2 Hok n s Hn).
      - destruct Hok as (_ & (k & x & Hw & Hk & Hx & Hh) & _).
        destruct (bi_socks _ Hb _ _ Hk) as (_ & H2 & _). specialize (H2 Hx). assert (k = n) as -> by lia.
        rewrite Hn in Hk. injection Hk as ->. by apply Hh.
      - by destruct Hc, (proj2 (bi_timers _ Hb) Hok n s Hn). }
    unfold disconnect. cbv zeta.
    assert (∀ g, h_socks (setState hs_closed g) = h_socks g ∧ h_shared (setState hs_closed g) = h_shared g)
      as Hset by (intros g; unfold setState; by case_bool_decide).
    split_and!.
    - apply setState_state.
    - intros n s. cbn [stream_complete upd h_socks]. rewrite (proj1 (Hset _)). cbn. destruct (h_ws h) as [k|].
      + unfold set_ws. cbn [h_socks]. rewrite sock_close_get. cbn. destruct (om_get n (h_socks h)) as [x|] eqn:Hn; [|done].
        intros [= <-]. specialize (Ha _ _ Hn). by case_decide.
      + cbn. apply Ha.
    - cbn. apply es_complete_done.
    - cbn [stream_complete upd h_shared]. rewrite (proj2 (Hset _)). cbn. destruct (h_ws h) as [k|]; [|done].
      cbn [set_ws h_shared]. destruct (sock_close_shared k (Some 1000%Z) (rejectAll "Disconnecting" (monitor_stop h))) as (-> & _).
      done. }
  revert Hi' Hf. induction Hs as [|a b c Hab _ IH]; [done|]. intros Hi' Hf.
  apply IH; [by eapply hstep_inv|by eapply finished_step].
Qed.

(** ** Giving up *)
(** One failed attempt: the timer fires and either [new WebSocket] throws, or
    the socket closes, opened or not, before it authenticates. *)
Inductive Failure :=
  | f_throws (random : Z) | f_close (opened : bool) (random closeCode : Z) (reason : string).
Definition retryable_failure (f : Failure) : bool :=
  match f with f_throws _ => true | f_close _ _ closeCode _ => isRetryable closeCode end.
Definition fail_round (h : Handler) (f : Failure) : Handler :=
  match f with
  | f_throws random => on_reconnect_timer reconnect random true h
  | f_close opened random closeCode reason =>
      let n := h_next h in
      let h := on_reconnect_timer reconnect random false h in
      let h := if opened then on_socket_open n h else h in
      on_socket_close reconnect random n closeCode reason h
  end.
Definition given_up (h : Handler) : Prop :=
  h_state h = hs_disconnected ∧ es_done (h_stream (h_shared h)) = true ∧
  HoError (InternalError_create "Max reconnection attempts exceeded" None) ∈ h_out h.

Lemma hreachable_rtc h h' : hreachable h → rtc hstep h h' → hreachable h'.
Proof. intros H1 H2. exact (transitivity H1 H2). Qed.
Lemma setState_shared st h : h_shared (setState st h) = h_shared h.
Proof. unfold setState. by case_bool_decide. Qed.
Lemma setState_out o st h : o ∈ h_out h → o ∈ h_out (setState st h).
Proof. unfold setState. case_bool_decide; [done|]. intros Ho. apply elem_of_app. by left. Qed.
Lemma attempt_outcome random h :
  rc_enabled reconnect = true →
  let h' := attemptReconnect reconnect random h in
  if exhausted reconnect (h_attempt (h_shared h)) then given_up h'
  else h_state h' = hs_reconnecting ∧ h_attempt (h_shared h') = S (h_attempt (h_shared h)) ∧
    h_out h' = h_out (setState hs_reconnecting h) ++
      [HoDelay (calculateDelay (h_attempt (h_shared h)) reconnect random)].
Proof.
  intros He. cbv zeta. unfold attemptReconnect. rewrite He. cbn [negb].
  destruct (exhausted _ _) eqn:Hx.
  - split_and!; [apply setState_state|apply es_complete_done|].
    cbn [stream_complete upd h_out]. apply setState_out. apply elem_of_app. right. by apply list_elem_of_singleton.
  - cbn. rewrite setState_shared, setState_state. split_and!; [done|done|by rewrite ?setState_shared].
Qed.
Lemma fail_round_steps h f :
  h_inv h → h_state h = hs_reconnecting → retryable_failure f = true →
  rtc hstep h (fail_round h f) ∧
  ∃ g random, h_attempt (h_shared g) = h_attempt (h_shared h) ∧
    fail_round h f = (match f with f_throws _ => id | _ => out (HoResult (h_next h)
      (Err (InternalError_create "Connection lost during auth" None))) end)
      (attemptReconnect reconnect random g) ∧
    h_out h `prefix_of` h_out g.
Proof.
  intros Hi Hst Hf. pose proof Hi as [_ Hok]. rewrite Hst in Hok. cbn in Hok.
  assert (∀ st g, h_out g `prefix_of` h_out (setState st g)) as Hpre.
  { intros st g. unfold setState. case_bool_decide; [done|]. by eexists. }
  destruct f as [random|opened random c reason].
  - split; [apply rtc_once, hs_reconnect|]. cbn [fail_round]. unfold on_reconnect_timer. rewrite Hok. cbv zeta.
    rewrite bool_decide_eq_true_2 by exact Hst. cbn [negb]. eexists _, random. split; [|split; [reflexivity|]].
    + by rewrite setState_shared.
    + apply (Hpre hs_connecting (upd (λ x, with_attempt (h_attempt x) 0 x) h)).
  - cbn [fail_round]. set (n := h_next h).
    assert (on_reconnect_timer reconnect random false h =
      connectInternal (upd (λ x, with_attempt (h_attempt x) 0 x) h)) as Heq.
    { unfold on_reconnect_timer. rewrite Hok. cbv zeta. by rewrite bool_decide_eq_true_2 by exact Hst. }
    cbv zeta. set (h1 := on_reconnect_timer reconnect random false h).
    set (h2 := if opened then on_socket_open n h1 else h1).
    assert (h_next (setState hs_connecting (upd (λ x, with_attempt (h_attempt x) 0 x) h)) = n) as Hn.
    { unfold setState. by case_bool_decide. }
    assert (om_get n (h_socks h1) = Some (mkSock false true rs_open)) as Hs1.
    { unfold h1. rewrite Heq. unfold connectInternal. cbn [h_socks]. rewrite Hn. apply om_get_set_eq. }
    assert (om_get n (h_socks h2) = Some (mkSock false true rs_open) ∧ rtc hstep h1 h2 ∧
      h_attempt (h_shared h2) = h_attempt (h_shared h1) ∧ h_out h1 `prefix_of` h_out h2) as (Hs2 & H12 & Hat & Hp2).
    { unfold h2. destruct opened; [|by split_and!; try done; apply rtc_refl].
      split_and!; [|apply rtc_once; by eapply hs_open| |].
      - unfold on_socket_open, setState. cbn. by case_bool_decide.
      - unfold on_socket_open. cbn [out h_shared]. by rewrite setState_shared.
      - unfold on_socket_open. cbn [out h_out]. apply prefix_app_r, Hpre. }
    split.
    { etransitivity; [apply rtc_once, hs_reconnect|].
      etransitivity; [exact H12|]. apply rtc_once. by eapply hs_close; [exact Hs2|]. }
    unfold on_socket_close. rewrite Hs2. cbn in Hf. rewrite Hf. cbn [negb authHandled authTimeout andb].
    eexists _, random. split; [|split; [reflexivity|]].
    + cbn. rewrite Hat. unfold h1. rewrite Heq. cbn. by rewrite setState_shared.
    + cbn. etransitivity; [|exact Hp2]. unfold h1. rewrite Heq. cbn. apply (Hpre hs_connecting (upd (λ x, with_attempt (h_attempt x) 0 x) h)).
Qed.
Lemma fail_round_outcome h f :
  h_inv h → rc_enabled reconnect = true → h_state h = hs_reconnecting → retryable_failure f = true →
  if exhausted reconnect (h_attempt (h_shared h)) then given_up (fail_round h f)
  else h_state (fail_round h f) = hs_reconnecting ∧
    h_attempt (h_shared (fail_round h f)) = S (h_attempt (h_shared h)).
Proof.
  intros Hi He Hst Hf. destruct (fail_round_steps h f Hi Hst Hf) as (_ & g & random & Hg & -> & _).
  pose proof (attempt_outcome random g He) as Ho. cbv zeta in Ho. rewrite Hg in Ho.
  destruct (exhausted _ _).
  - destruct Ho as (H1 & H2 & H3). destruct f; [done|]. split_and!; [done|done|].
    cbn [out h_out]. apply elem_of_app. by left.
  - destruct Ho as (H1 & H2 & _). by destruct f.
Qed.
(** C11: Reconnection gives up after exactly the configured number of attempts:
    from a reachable reconnecting handler that has made [a] of [m > 0]
    attempts, when every attempt fails retryably (the constructor throws, or
    the socket closes before authentication), the handler is still
    reconnecting after each of the next [m - a] failures and at the one after
    them it is disconnected, its event stream is complete, the error is
    reported, no timer is armed, every socket is closed and no request
    waits; each failure is made of steps of the handler. *)
Theorem reconnect_gives_up h fs :
  hreachable h → rc_enabled reconnect = true → rc_maxAttempts reconnect ≠ 0 →
  h_state h = hs_reconnecting → forallb retryable_failure fs = true →
  length fs = rc_maxAttempts reconnect - h_attempt (h_shared h) + 1 →
  (∀ k, k < length fs → h_state (foldl fail_round h (take k fs)) = hs_reconnecting ∧
     h_attempt (h_shared (foldl fail_round h (take k fs))) = h_attempt (h_shared h) + k) ∧
  let h' := foldl fail_round h fs in
  rtc hstep h h' ∧ given_up h' ∧ h_reconnectTimers (h_shared h') = 0 ∧ all_closed h' ∧
  rt_pending (h_tracker (h_shared h')) = [].
Proof.
  intros Hr He Hm Hst Hfs Hlen. cbv zeta.
  assert (∀ k, k < length fs → rtc hstep h (foldl fail_round h (take k fs)) ∧
    h_state (foldl fail_round h (take k fs)) = hs_reconnecting ∧
    h_attempt (h_shared (foldl fail_round h (take k fs))) = h_attempt (h_shared h) + k) as Hpre.
  { induction k as [|k IH]; intros Hk; [split_and!; [apply rtc_refl|done|by rewrite Nat.add_0_r]|].
    destruct (IH ltac:(lia)) as (Hrt & Hs & Ha). destruct (lookup_lt_is_Some_2 fs k) as [f Hf]; [lia|].
    rewrite (take_S_r _ _ _ Hf), foldl_app. cbn [foldl].
    assert (retryable_failure f = true) as Hfr.
    { rewrite forallb_forall in Hfs. apply Hfs. apply list_elem_of_In. by eapply list_elem_of_lookup_2. }
    assert (h_inv (foldl fail_round h (take k fs))) as Hik by (apply hreachable_inv; by eapply hreachable_rtc).
    destruct (fail_round_steps _ f Hik Hs Hfr) as [Hst1 _].
    pose proof (fail_round_outcome _ f Hik He Hs Hfr) as Ho. rewrite Ha in Ho. unfold exhausted in Ho.
    destruct (Nat.eqb_spec (rc_maxAttempts reconnect) 0); [done|].
    replace (rc_maxAttempts reconnect <=? h_attempt (h_shared h) + k) with false in Ho
      by (symmetry; apply Nat.leb_gt; lia).
    cbn in Ho. destruct Ho as [Ho1 Ho2]. split_and!; [by etransitivity; eauto|done|lia]. }
  split; [intros k Hk; by apply Hpre|].
  set (k := length fs - 1). destruct (Hpre k ltac:(lia)) as (Hrt & Hs & Ha).
  destruct (lookup_lt_is_Some_2 fs k) as [f Hf]; [lia|].
  assert (foldl fail_round h fs = fail_round (foldl fail_round h (take k fs)) f) as Heq.
  { transitivity (foldl fail_round h (take (S k) fs)); [f_equal; symmetry; apply take_ge; lia|].
    by rewrite (take_S_r _ _ _ Hf), foldl_app. }
  assert (retryable_failure f = true) as Hfr.
  { rewrite forallb_forall in Hfs. apply Hfs. apply list_elem_of_In. by eapply list_elem_of_lookup_2. }
  assert (h_inv (foldl fail_round h (take k fs))) as Hik by (apply hreachable_inv; by eapply hreachable_rtc).
  destruct (fail_round_steps _ f Hik Hs Hfr) as [Hst1 _].
  pose proof (fail_round_outcome _ f Hik He Hs Hfr) as Ho. rewrite Ha in Ho. unfold exhausted in Ho.
  destruct (Nat.eqb_spec (rc_maxAttempts reconnect) 0); [done|].
  assert (rc_maxAttempts reconnect <=? h_attempt (h_shared h) + k = true) as Hle.
  { apply Nat.leb_le. pose proof (bi_attempt _ (proj1 (hreachable_inv h Hr)) Hm). lia. }
  rewrite Hle in Ho. cbn in Ho. rewrite <-Heq in *.
  assert (rtc hstep h (foldl fail_round h fs)) as Hall by (etransitivity; [exact Hrt|exact Hst1]).
  assert (hreachable (foldl fail_round h fs)) as Hr' by by eapply hreachable_rtc.
  destruct (hreachable_inv _ Hr') as [_ Hok]. pose proof (hreachable_pending _ Hr') as Hp.
  destruct Ho as (Ho1 & Ho2 & Ho3). unfold pending_ok in Hp. rewrite Ho1 in Hok, Hp. destruct Hok.
  split_and!; try done. by apply Hp.
Qed.
End reachable.

(** ** Requests of the interface *)
Inductive MessageContent :=
  | mc_text (text : string) | mc_custom (contentType : string) (content : json).
Record MessageSent := { ms_messageId : string; ms_groupId : string; ms_sentAt : string }.
Definition sendMessage_request (groupId : string) (content : MessageContent) : list (string * json) :=
  [("type", JStr "send_message"); ("groupId", JStr groupId);
   ("contentType", JStr (match content with mc_text _ => "xmtp.org/text:1.0" | mc_custom t _ => t end));
   ("content", match content with mc_text t => JObj [("text", JStr t)] | mc_custom _ c => c end)].
Definition sendReaction_request (groupId messageId reaction : string) : list (string * json) :=
  [("type", JStr "send_reaction"); ("groupId", JStr groupId); ("messageId", JStr messageId);
   ("action", JStr "added"); ("content", JStr reaction)].
Definition jstring (v : json) : string := match v with JStr s => s | _ => "" end.
(** The answer of [sendMessage] and [sendReaction]. *)
Definition sent_result (r : result SignetError json) : result SignetError MessageSent :=
  match r with
  | Err e => Err e
  | Ok v =>
      if hasStringFields v ["messageId"; "groupId"; "sentAt"]
      then Ok {| ms_messageId := jstring (jget "messageId" v); ms_groupId := jstring (jget "groupId" v);
                 ms_sentAt := jstring (jget "sentAt" v) |}
      else Err (ValidationError_create "response"
             "Missing required fields: messageId, groupId, sentAt" None)
  end.
Definition list_conversations_request : list (string * json) := [("type", JStr "list_conversations")].
Definition listConversations_result (r : result SignetError json) : result SignetError (list json) :=
  match r with
  | Err e => Err e
  | Ok (JArr l) => Ok l
  | Ok _ => Err (ValidationError_create "response" "Expected array for list_conversations response" None)
  end.
Definition conversation_info_request (groupId : string) : list (string * json) :=
  [("type", JStr "get_conversation_info"); ("groupId", JStr groupId)].
Definition getConversationInfo_result (r : result SignetError json) : result SignetError json :=
  match r with
  | Err e => Err e
  | Ok (JObj _ as v) | Ok (JArr _ as v) => Ok v
  | Ok _ => Err (ValidationError_create "response"
             "Expected object for get_conversation_info response" None)
  end.

(** ** Concrete runs *)
Section runs.
(** Two attempts, no jitter; five-second request timeout. *)
Definition cfg : ReconnectConfig :=
  {| rc_enabled := true; rc_maxAttempts := 2; rc_baseDelayMs := 1000; rc_maxDelayMs := 30000;
     rc_jitter := false |}.
Definition auth_ok : json :=
  JObj [("type", JStr "authenticated"); ("connectionId", JStr "c1");
        ("credential", JObj [("credentialId", JStr "cred_1"); ("operatorId", JStr "op_1");
                             ("expiresAt", JStr "2030-01-01T00:00:00.000Z")]);
        ("effectiveScopes", JObj []); ("resumedFromSeq", JNull)].
Definition ev_frame (seq : Z) (name : string) : json :=
  JObj [("seq", JNum seq); ("event", JObj [("type", JStr name)])].
Definition run_connected : Handler :=
  on_socket_message 0 0 (Some auth_ok) (on_socket_open 0 (connect createSignetHandler).1).
Definition run_lost : Handler :=
  on_socket_close cfg 0 0 1006 "" (on_socket_message 5 0 (Some (ev_frame 1 "message.visible")) run_connected).
Lemma run_connected_reachable : hreachable cfg 5000 run_connected.
Proof.
  eapply rtc_l; [apply hs_connect|]. eapply rtc_l; [by apply (hs_open _ _ _ 0 (mkSock false true rs_open))|].
  eapply rtc_l; [|apply rtc_refl]. by apply (hs_message _ _ _ 0 0 (mkSock false true rs_open)).
Qed.
Lemma run_lost_reachable : hreachable cfg 5000 run_lost.
Proof.
  eapply hreachable_rtc; [apply run_connected_reachable|].
  eapply rtc_l; [by apply (hs_message _ _ _ 5 0 (mkSock true false rs_open))|].
  eapply rtc_l; [|apply rtc_refl]. by apply (hs_close _ _ _ 0 0 (mkSock true false rs_open)).
Qed.
Lemma handler_invariant_witness :
  h_state run_lost = hs_reconnecting ∧ h_reconnectTimers (h_shared run_lost) = 1 ∧
  h_attempt (h_shared run_lost) ≤ 2 ∧
  (h_state run_connected ≠ hs_connected → rt_pending (h_tracker (h_shared run_connected)) = []).
Proof.
  split; [reflexivity|].
  destruct (handler_invariant cfg 5000 run_lost run_lost_reachable) as (_ & _ & _ & Hs & Ha & _).
  destruct (handler_invariant cfg 5000 run_connected run_connected_reachable) as (_ & _ & _ & _ & _ & _ & Hp & _).
  split; [exact Hs|]. split; [by apply Ha|exact Hp].
Defined.
(** Disconnecting while the timer is armed: the timer then does nothing. *)
Lemma disconnect_final_witness :
  finished (on_reconnect_timer cfg 0 false (disconnect run_lost)) ∧
  h_state (on_socket_close cfg 0 0 1006 "" (disconnect run_connected)) = hs_closed.
Proof.
  split.
  - apply (disconnect_final cfg 5000 run_lost); [apply run_lost_reachable|by right; right; left|].
    apply rtc_once, hs_reconnect.
  - apply (disconnect_final cfg 5000 run_connected); [apply run_connected_reachable|by right; left|].
    apply rtc_once. by apply (hs_close _ _ _ 0 0 (mkSock true false rs_closing)).
Defined.
Lemma reconnect_gives_up_witness :
  h_state (fail_round cfg run_lost (f_close true 0 1006 "")) = hs_reconnecting ∧
  given_up (foldl (fail_round cfg) run_lost [f_close true 0 1006 ""; f_throws 0]).
Proof.
  destruct (reconnect_gives_up cfg 5000 run_lost [f_close true 0 1006 ""; f_throws 0] run_lost_reachable
    eq_refl ltac:(done) eq_refl eq_refl eq_refl) as (Hk & _ & Hg & _).
  split; [|exact Hg]. destruct (Hk 1 ltac:(cbn; lia)) as [H _]. exact H.
Defined.

(** [disconnect] during the handshake: the socket's close event is then taken
    for a failed authentication, and a retryable close code starts reconnecting
    the handler that was closed. *)
Lemma disconnect_during_handshake_reconnects :
  let closed := disconnect (connect createSignetHandler).1 in
  let h := on_socket_close cfg 0 0 1006 "" closed in
  h_state closed = hs_closed ∧ h_state h = hs_reconnecting ∧
  h_state (on_reconnect_timer cfg 0 false h) = hs_connecting.
Proof. vm_compute. done. Qed.
(** An unparsable first message closes the handler but neither its socket nor
    its authentication, so the next message connects the closed handler. *)
Lemma closed_handler_revived :
  let h := on_socket_message 0 0 None (on_socket_open 0 (connect createSignetHandler).1) in
  h_state h = hs_closed ∧ h_state (on_socket_message 1 0 (Some auth_ok) h) = hs_connected.
Proof. vm_compute. done. Qed.
(** After an authentication timeout the handler is closed for good while its
    event stream is not complete: with the close code of the timeout, which is
    retryable, nothing completes it. *)
Lemma auth_timeout_leaves_stream_open :
  let h := on_socket_close cfg 0 0 4000 "Auth timeout"
             (on_auth_timeout 5000 0 (connect createSignetHandler).1) in
  h_state h = hs_closed ∧ es_done (h_stream (h_shared h)) = false ∧ h_reconnectTimers (h_shared h) = 0.
Proof. vm_compute. done. Qed.
(** The data of the server's answer to [send_message] has no [groupId] and no
    [sentAt]: the message is sent and [sendMessage] reports an error. *)
Lemma sent_message_reported_as_error :
  isOk (sent_result (Ok (JObj [("messageId", JStr "m1")]))) = false.
Proof. reflexivity. Qed.
End runs.
