(* ===== verification/SdkSession.v ===== *)
(** * The SDK's handler against the server's replay buffer

    One credential with one client: the client's event handling
    ([sdk/src/handler.ts], [SdkHandler]) composed with the sequencing and the
    resumption of the server ([ws/src/server.ts], [Ws]) over a connection that
    delivers in order and may break at any moment, losing what is in flight.
    The handshake is one step, so no broadcast falls into the server's wait for
    the token fingerprint (see [WsInvalidation.event_before_authenticated]). *)
From S2P Require Import Prelude Json Errors Ws SdkParts SdkHandler.
Open Scope nat_scope.

(** A frame as the client parses it. *)
Definition frame_json (f : SequencedFrame json) : json :=
  JObj [("seq", JNum (Z.of_nat (f_seq f))); ("event", f_event f)].
(** The [lastSeenSeq] the server reads in the auth frame. *)
Definition lastSeen_of (v : json) : option nat :=
  match v with JNum z => Some (Z.to_nat z) | _ => None end.
(** The server's sequencing state, whether it has the connection registered,
    the frames in flight, the client; and every frame the client received. *)
Record Session := mkSession {
  ss_server : CredentialReplayState json; ss_registered : bool;
  ss_link : option (list (SequencedFrame json)); ss_client : Handler;
  ss_received : list (SequencedFrame json)
}.
Definition receive (now : Z) (n : nat) (f : SequencedFrame json) (h : Handler) : Handler :=
  on_socket_message now n (Some (frame_json f)) h.
(** [broadcast] with at most one connection: an event is sequenced only for a
    registered connection. *)
Definition publish (e : json) (s : Session) : Session :=
  if ss_registered s then
    let '(server, f) := sequenceEvent (ss_server s) e in
    mkSession server true ((λ w, w ++ [f]) <$> ss_link s) (ss_client s) (ss_received s)
  else s.
Definition recovery (nowISO : string) : json :=
  JObj [("type", JStr "signet.recovery.complete"); ("caughtUpThrough", JStr nowISO)].
Definition reconnect (nowISO : string) (s : Session) : Session :=
  let '(needsRecovery, frames, _) :=
    resume (ss_server s) (lastSeen_of (h_lastSeenSeq (h_shared (ss_client s)))) in
  if needsRecovery : bool then
    let '(server, f) := sequenceEvent (ss_server s) (recovery nowISO) in
    mkSession server true (Some [f]) (ss_client s) (ss_received s)
  else mkSession (ss_server s) true (Some frames) (ss_client s) (ss_received s).
Definition consume (s : Session) : Session :=
  mkSession (ss_server s) (ss_registered s) (ss_link s) (upd (with_stream es_next) (ss_client s))
    (ss_received s).

Section session.
Context (cfg : ReconnectConfig) (requestTimeoutMs : Z) (size : nat).
(** The client may take any step of its own that keeps its stream and its last
    sequence number: sockets, timers, requests.  It may reconnect before the
    server has noticed that the old connection is gone, which is registered
    until [st_unregister]. *)
Inductive sstep : Session → Session → Prop :=
  | st_publish e s : sstep s (publish e s)
  | st_deliver server reg f w h r now n sock :
      om_get n (h_socks h) = Some sock → authHandled sock = true →
      sstep (mkSession server reg (Some (f :: w)) h r)
            (mkSession server reg (Some w) (receive now n f h) (r ++ [f]))
  | st_break server reg w h r :
      sstep (mkSession server reg w h r) (mkSession server reg None h r)
  | st_unregister server reg h r :
      sstep (mkSession server reg None h r) (mkSession server false None h r)
  | st_reconnect nowISO s : ss_link s = None → sstep s (reconnect nowISO s)
  | st_client server reg w h h' r :
      hstep cfg requestTimeoutMs h h' → h_stream (h_shared h') = h_stream (h_shared h) →
      h_lastSeenSeq (h_shared h') = h_lastSeenSeq (h_shared h) →
      sstep (mkSession server reg w h r) (mkSession server reg w h' r)
  | st_consume s :
      es_waiter (h_stream (h_shared (ss_client s))) = None → sstep s (consume s).
(** A client that has received nothing yet, any history of the credential. *)
Definition session_start (h0 : list json) : Session :=
  mkSession (sequenced size h0) false None createSignetHandler [].

(** Each frame follows the one before, or is a recovery event after a gap. *)
Definition follows (f g : SequencedFrame json) : Prop :=
  f_seq g = f_seq f + 1 ∨
  (∃ nowISO, f_event g = recovery nowISO) ∧ f_seq f + size + 1 < f_seq g.
Fixpoint chain (l : list (SequencedFrame json)) : Prop :=
  match l with
  | f :: (g :: _) as t => follows f g ∧ chain t
  | _ => True
  end.
Lemma chain_snoc l g :
  chain l → (∀ f, last l = Some f → follows f g) → chain (l ++ [g]).
Proof.
  induction l as [|a [|b l] IH]; [done|intros _ Hf; split; [by apply Hf|done]|].
  intros [? Hc] Hf. split; [done|]. by apply IH.
Qed.
Lemma chain_app l k :
  chain l → chain k → (∀ f g, last l = Some f → k !! 0 = Some g → follows f g) → chain (l ++ k).
Proof.
  induction l as [|a [|b l] IH]; [done| |].
  - intros _ Hk Hf. destruct k as [|g k]; [done|]. split; [by apply Hf|done].
  - intros [? Hc] Hk Hf. split; [done|]. by apply IH.
Qed.
Lemma chain_prefix l k : chain (l ++ k) → chain l.
Proof.
  induction l as [|a [|b l] IH]; [done|done|]. cbn. intros [? ?]. split; [done|]. by apply IH.
Qed.
Lemma chain_sorted l : chain l → StronglySorted lt (map f_seq l).
Proof.
  intros Hc. apply Sorted_StronglySorted; [intros ???; lia|]. revert Hc.
  induction l as [|a [|b l] IH]; [constructor|by repeat constructor|]. intros [Hf Hc].
  constructor; [by apply IH|]. constructor. destruct Hf as [?|[_ ?]]; lia.
Qed.
Definition in_history (hist : list json) (f : SequencedFrame json) : Prop :=
  all_frames hist !! (f_seq f - 1) = Some f ∧ 0 < f_seq f.
(** Everything the client has or will have when the link is drained. *)
Definition all_sent (s : Session) : list (SequencedFrame json) :=
  ss_received s ++ default [] (ss_link s).
Record session_inv (hist : list json) (s : Session) : Prop := {
  sn_server : ss_server s = sequenced size hist;
  sn_chain : chain (all_sent s);
  sn_hist : Forall (in_history hist) (all_sent s);
  sn_seen : h_lastSeenSeq (h_shared (ss_client s)) =
    match last (ss_received s) with Some f => JNum (Z.of_nat (f_seq f)) | None => JNull end;
  sn_link : ∀ w f, ss_link s = Some w → last (all_sent s) = Some f → f_seq f = length hist;
  sn_reg : is_Some (ss_link s) → ss_registered s = true;
  sn_stream : stream_inv (h_stream (h_shared (ss_client s))) (map f_event (ss_received s));
  sn_open : es_done (h_stream (h_shared (ss_client s))) = false
}.
Lemma receive_shared now n f h sock :
  om_get n (h_socks h) = Some sock → authHandled sock = true →
  h_stream (h_shared (receive now n f h)) = es_push (f_event f) (h_stream (h_shared h)) ∧
  h_lastSeenSeq (h_shared (receive now n f h)) = JNum (Z.of_nat (f_seq f)).
Proof.
  intros Hn Ha. unfold receive, on_socket_message. rewrite Hn, Ha. unfold handleFrame, frame_json.
  change (jget "type" _) with JUndef at 1. rewrite bool_decide_eq_false_2 by done.
  change (jhas "requestId" _) with false. change (jhas "seq" _) with true.
  change (jhas "event" _) with true. cbn [andb]. cbv zeta. by case_bool_decide.
Qed.
Lemma in_history_snoc hist e f : in_history hist f → in_history (hist ++ [e]) f.
Proof. intros [Hl ?]. split; [|done]. rewrite all_frames_app. by apply lookup_app_l_Some. Qed.
Lemma in_history_new hist e : in_history (hist ++ [e]) (Frame (length hist + 1) e).
Proof.
  split; [|cbn; lia]. cbn [f_seq]. rewrite all_frames_app, Nat.add_sub, lookup_app_r; rewrite length_all_frames; [|done].
  by rewrite Nat.sub_diag.
Qed.
Lemma in_history_le hist f : in_history hist f → f_seq f ≤ length hist.
Proof. intros [Hl ?]. apply lookup_lt_Some in Hl. rewrite length_all_frames in Hl. lia. Qed.
Lemma sequenced_snoc (hist : list json) e :
  0 < size → sequenceEvent (sequenced size hist) e =
  (sequenced size (hist ++ [e]), Frame (length hist + 1) e).
Proof.
  intros Hs. destruct (sequenced_holds size hist Hs) as [_ Hn]. unfold sequenced.
  rewrite foldl_app. cbn [foldl]. fold (sequenced size hist). unfold sequenceEvent. by rewrite Hn.
Qed.
Lemma chain_drop (hist : list json) k : chain (drop k (all_frames hist)).
Proof.
  assert (∀ l n, (∀ i f, l !! i = Some f → f_seq f = n + i) → chain l) as Hg.
  { induction l as [|a [|b l] IH]; intros n Hl; [done|done|]. split.
    - left. rewrite (Hl 0 a eq_refl), (Hl 1 b eq_refl). lia.
    - apply (IH (n + 1)). intros i f Hi. rewrite (Hl (S i) f Hi). lia. }
  apply (Hg _ (k + 1)). intros i f. rewrite lookup_drop, all_frames_lookup.
  destruct (hist !! (k + i)); [|done]. intros [= <-]. cbn. lia.
Qed.
Lemma drop_history hist k : Forall (in_history hist) (drop k (all_frames hist)).
Proof.
  apply Forall_forall. intros f Hf. apply list_elem_of_lookup in Hf as [i Hi].
  rewrite lookup_drop in Hi. split.
  - pose proof Hi as Hi'. rewrite all_frames_lookup in Hi'. destruct (hist !! (k + i)); [|done].
    injection Hi' as <-. cbn. rewrite <-Hi. f_equal. lia.
  - rewrite all_frames_lookup in Hi. destruct (hist !! (k + i)); [|done]. injection Hi as <-. cbn. lia.
Qed.
Lemma drop_last (hist : list json) k f : last (drop k (all_frames hist)) = Some f → f_seq f = length hist.
Proof.
  rewrite last_lookup, length_drop, length_all_frames, lookup_drop, all_frames_lookup.
  destruct (hist !! _) as [e|] eqn:He; [|done]. apply lookup_lt_Some in He. intros [= <-]. cbn. lia.
Qed.
(** One more event is sequenced and sent. *)
Lemma send_inv hist e w h r :
  chain (r ++ w) → Forall (in_history hist) (r ++ w) →
  (∀ g, last (r ++ w) = Some g → follows g (Frame (length hist + 1) e)) →
  h_lastSeenSeq (h_shared h) = match last r with Some f => JNum (Z.of_nat (f_seq f)) | None => JNull end →
  stream_inv (h_stream (h_shared h)) (map f_event r) → es_done (h_stream (h_shared h)) = false →
  session_inv (hist ++ [e])
    (mkSession (sequenced size (hist ++ [e])) true (Some (w ++ [Frame (length hist + 1) e])) h r).
Proof.
  intros Hc Hh Hf Hl Hs Hd. split; try done; unfold all_sent; cbn [ss_link ss_received default id]; rewrite ?app_assoc.
  - by apply chain_snoc.
  - apply Forall_app. split; [|constructor; [apply in_history_new|constructor]].
    eapply Forall_impl; [exact Hh|]. intros. by apply in_history_snoc.
  - intros w' f _. rewrite ?app_assoc, last_snoc. intros [= <-]. rewrite length_app. cbn. lia.
Qed.
Lemma publish_inv hist e s :
  0 < size → session_inv hist s → ∃ hist', session_inv hist' (publish e s) ∧ hist `prefix_of` hist'.
Proof.
  intros Hs Hi. pose proof Hi as [S1 S2 S3 S4 S5 S6 S7 S8]. unfold publish.
  destruct (ss_registered s) eqn:Hr; [|by exists hist]. rewrite S1, sequenced_snoc by done.
  exists (hist ++ [e]). split; [|by eexists]. unfold all_sent in *.
  destruct (ss_link s) as [w|] eqn:Hl; cbn [default id fmap option_fmap option_map] in *.
  - apply send_inv; try done. intros g Hg. left. cbn [f_seq]. by rewrite (S5 w g eq_refl Hg).
  - split; try done. eapply Forall_impl; [exact S3|]. intros. by apply in_history_snoc.
Qed.
Lemma reconnect_inv nowISO hist s :
  0 < size → session_inv hist s → ss_link s = None →
  ∃ hist', session_inv hist' (reconnect nowISO s) ∧ hist `prefix_of` hist'.
Proof.
  intros Hs [S1 S2 S3 S4 S5 S6 S7 S8] Hl. unfold all_sent in *. rewrite Hl in *. cbn in S2, S3.
  rewrite app_nil_r in *. unfold reconnect. rewrite S1, S4. destruct (last (ss_received s)) as [f|] eqn:Hf.
  - cbn [lastSeen_of]. rewrite Nat2Z.id, resume_unseen by done.
    assert (f_seq f ≤ length hist) as Hle.
    { apply in_history_le. rewrite Forall_forall in S3. apply S3. by apply last_Some_elem_of. }
    destruct (Nat.ltb_spec (f_seq f + size) (length hist)); cbn [negb].
    + rewrite sequenced_snoc by done. exists (hist ++ [recovery nowISO]). split; [|by eexists].
      apply (send_inv hist (recovery nowISO) []); rewrite ?app_nil_r; try done.
      * intros g Hg. rewrite Hf in Hg. injection Hg as <-. right. cbn. split; [by eexists|lia].
      * by rewrite S4, Hf.
    + exists hist. split; [|done]. split; try done; unfold all_sent; cbn [ss_link ss_received default id].
      * apply chain_app; [done|apply chain_drop|]. intros a b Ha Hb. rewrite Hf in Ha. injection Ha as <-.
        left. rewrite lookup_drop, all_frames_lookup in Hb.
        destruct (hist !! _); [|done]. injection Hb as <-. cbn. lia.
      * apply Forall_app. split; [done|apply drop_history].
      * cbn [ss_client ss_received]. by rewrite S4, Hf.
      * intros w g [= <-]. destruct (decide (drop (f_seq f) (all_frames hist) = [])) as [He|Hne].
        -- rewrite He, app_nil_r, Hf. intros [= <-].
           apply (f_equal length) in He. rewrite length_drop, length_all_frames in He. cbn in He. lia.
        -- rewrite last_app. destruct (last (drop _ _)) as [x|] eqn:Hx.
           ++ intros [= <-]. by eapply drop_last.
           ++ by apply last_None in Hx.
  - cbn. exists hist. split; [|done]. split; try done; unfold all_sent; cbn [ss_link ss_received default id];
      rewrite ?app_nil_r; try done.
    + cbn [ss_client ss_received]. by rewrite S4, Hf.
    + intros w g _. by rewrite Hf.
Qed.
Lemma sstep_inv s s' hist :
  0 < size → sstep s s' → session_inv hist s → ∃ hist', session_inv hist' s' ∧ hist `prefix_of` hist'.
Proof.
  intros Hs Hst Hi. pose proof Hi as [S1 S2 S3 S4 S5 S6 S7 S8].
  destruct Hst as [e s|server reg f w h r now n sock Hn Ha|server reg w h r|server reg h r|nowISO s Hl
    |server reg w h h' r Hst Hstr Hseen|s Hw]; cbn [ss_server ss_registered ss_link ss_client ss_received] in *.
  - by apply publish_inv.
  - exists hist. split; [|done]. destruct (receive_shared now n f h sock Hn Ha) as [Hstr Hseen].
    unfold all_sent in *. cbn [ss_link ss_received default id] in *.
    split; unfold all_sent; cbn [ss_server ss_registered ss_link ss_client ss_received default id]; try done;
      rewrite <-?app_assoc; try done.
    + by rewrite Hseen, last_snoc.
    + intros w' g _. rewrite <-?app_assoc. apply (S5 _ g eq_refl).
    + intros _. by apply S6.
    + rewrite Hstr, map_app. apply (push_inv _ _ (f_event f)) in S7. by rewrite S8 in S7.
    + rewrite Hstr. unfold es_push. rewrite S8. by destruct (es_waiter _).
  - exists hist. split; [|done]. unfold all_sent in *. cbn [ss_link ss_received default id] in *.
    split; unfold all_sent; cbn [ss_server ss_registered ss_link ss_client ss_received default id]; try done;
      rewrite ?app_nil_r.
    + by eapply chain_prefix.
    + by apply Forall_app in S3 as [? _].
  - exists hist. split; [|done]. split; try done. by intros [? ?].
  - by apply reconnect_inv.
  - exists hist. split; [|done]. split; try done; cbn [ss_client ss_received];
      rewrite ?Hstr, ?Hseen; done.
  - exists hist. split; [|done]. split; try done; cbn [consume ss_client ss_received].
    + by apply next_inv.
    + cbn. unfold es_next. destruct (es_buffer _); [rewrite S8|]; done.
Qed.
Lemma session_inv_start h0 : session_inv h0 (session_start h0).
Proof.
  split; try done; [by intros [? ?]|apply stream_init].
Qed.
Lemma sreachable_inv h0 s :
  0 < size → rtc sstep (session_start h0) s → ∃ hist, session_inv hist s ∧ h0 `prefix_of` hist.
Proof.
  intros Hs Hr. assert (∀ a, rtc sstep a s → ∀ ha, session_inv ha a →
    ∃ hist, session_inv hist s ∧ ha `prefix_of` hist) as Hg.
  { clear Hr. intros a Hr. induction Hr as [a|a b c Hab _ IH]; intros ha Ha; [by exists ha|].
    destruct (sstep_inv a b ha Hs Hab Ha) as (hb & Hb & Hp). destruct (IH hb Hb) as (hc & Hc & Hp').
    exists hc. split; [done|by etransitivity]. }
  by apply (Hg _ Hr), session_inv_start.
Qed.

End session.

(** ** Concrete sessions *)
Section runs.
Definition ev (name : string) : json := JObj [("type", JStr name)].
Definition with_client (h : Handler) (s : Session) : Session :=
  mkSession (ss_server s) (ss_registered s) (ss_link s) h (ss_received s).
Definition deliver1 (n : nat) (s : Session) : Session :=
  match ss_link s with
  | Some (f :: w) =>
      mkSession (ss_server s) (ss_registered s) (Some w) (receive 0 n f (ss_client s)) (ss_received s ++ [f])
  | _ => s
  end.
Definition break (s : Session) : Session :=
  mkSession (ss_server s) false None (ss_client s) (ss_received s).
(** Connect; [a] arrives, [b] is lost in flight, the link breaks; on
    resumption [b] is replayed. *)
Definition run_up : Session :=
  reconnect "t0" (with_client run_connected (session_start 4 [])).
Definition run_broken : Session :=
  break (publish (ev "b") (deliver1 0 (publish (ev "a") run_up))).
Definition run_resumed : Session := deliver1 0 (reconnect "t1" run_broken).
Lemma deliver1_step n s sock :
  ss_link s ≠ None ∧ ss_link s ≠ Some [] →
  om_get n (h_socks (ss_client s)) = Some sock → authHandled sock = true →
  sstep cfg 5000 s (deliver1 n s).
Proof.
  destruct s as [server reg [[|f w]|] h r]; [by intros [_ ?]| |by intros [? _]].
  intros _. apply st_deliver.
Qed.
Lemma break_steps s : rtc (sstep cfg 5000) s (break s).
Proof.
  destruct s as [server reg w h r]. eapply rtc_l; [apply st_break|]. apply rtc_once, st_unregister.
Qed.
Lemma run_up_steps : rtc (sstep cfg 5000) (session_start 4 []) run_up.
Proof.
  eapply rtc_l; [apply st_client; [apply hs_connect|reflexivity|reflexivity]|].
  eapply rtc_l; [apply st_client; [by apply (hs_open _ _ _ 0 (mkSock false true rs_open))|reflexivity|reflexivity]|].
  eapply rtc_l; [apply st_client; [by apply (hs_message _ _ _ 0 0 (mkSock false true rs_open) (Some auth_ok))
    |reflexivity|reflexivity]|].
  apply rtc_once. by apply st_reconnect.
Qed.
Lemma run_broken_steps : rtc (sstep cfg 5000) run_up run_broken.
Proof.
  eapply rtc_l; [apply (st_publish _ _ (ev "a"))|].
  eapply rtc_l.
  { apply (deliver1_step 0 _ (mkSock true false rs_open)); [split|..]; by vm_compute. }
  eapply rtc_l; [apply (st_publish _ _ (ev "b"))|]. apply break_steps.
Qed.
Lemma run_resumed_steps : rtc (sstep cfg 5000) run_broken run_resumed.
Proof.
  eapply rtc_l; [by apply (st_reconnect _ _ "t1")|]. apply rtc_once.
  apply (deliver1_step 0 _ (mkSock true false rs_open)); [split|..]; by vm_compute.
Qed.

(** An event broadcast while the credential has no connection is neither
    sequenced nor buffered: the resumption replays nothing, and the sequence
    numbers the client sees show no gap. *)
Lemma offline_events_lost :
  let s := publish (ev "c") (reconnect "t1" (publish (ev "b")
             (break (deliver1 0 (publish (ev "a") run_up))))) in
  ss_link s = Some [Frame 2 (ev "c")].
Proof. vm_compute. reflexivity. Qed.
(** A client that has not received a frame yet reconnects as a fresh one: what
    was lost in flight on its first connection is not replayed. *)
Lemma first_events_lost :
  ss_link (reconnect "t1" (break (publish (ev "a") run_up))) = Some [].
Proof. vm_compute. reflexivity. Qed.
End runs.
