(* ===== verification/Der.v ===== *)
(** * Binary formats of the verifier

    [verifier/src/checks/x509-key.ts] and [dsse-verify.ts]: the DER walk that
    takes a P-256 key out of a certificate, the DSSE pre-authentication
    encoding, and the conversion of DER signatures.  A [Uint8Array] is a list
    of bytes; reading outside of it is [None]; lengths are accumulated with
    JavaScript's 32-bit operators.  The unbounded loop takes fuel, and [None]
    stands for a run that is not over when it is used up. *)
From S2P Require Import Prelude Bytes Json Errors.
Open Scope Z_scope.

Abbreviation bytes := (list Z).
Definition byte_at (data : bytes) (i : Z) : option Z := if i <? 0 then None else data !! Z.to_nat i.
Definition blen (data : bytes) : Z := Z.of_nat (length data).
Definition is_bytes (data : bytes) : Prop := Forall (λ b, 0 <= b < 256) data.
(** [ToInt32]. *)
Definition int32 (x : Z) : Z := (x + 2 ^ 31) mod 2 ^ 32 - 2 ^ 31.
(** [data.slice(start, end)] for [0 <= start]. *)
Definition slice (data : bytes) (start len : Z) : bytes :=
  take (Z.to_nat len) (drop (Z.to_nat start) data).
(** [new TextEncoder().encode(s)]: strings are UTF-8 byte strings. *)
Definition encode (s : string) : bytes := map (λ c, Z.of_N (N_of_ascii c)) (String.list_ascii_of_string s).

(** ** DER elements *)
Definition TAG_SEQUENCE : Z := 48.
Definition TAG_BIT_STRING : Z := 3.
Definition EC_PUBLIC_KEY_OID : bytes := [6; 7; 42; 134; 72; 206; 61; 2; 1].
Definition SECP256R1_OID : bytes := [6; 8; 42; 134; 72; 206; 61; 3; 1; 7].
Definition P256_UNCOMPRESSED_LENGTH : Z := 65.
Definition UNCOMPRESSED_POINT_PREFIX : Z := 4.
Record Tlv := mkTlv { tag : option Z; contentStart : Z; contentLength : Z; totalLength : Z }.
(** [contentLength = (contentLength << 8) | der[pos + i]!] *)
Fixpoint long_length (der : bytes) (pos : Z) (numLenBytes : nat) (acc : Z) : Z :=
  match numLenBytes with
  | O => acc
  | S k => long_length der (pos + 1) k
             (Z.lor (int32 (Z.shiftl acc 8)) (default 0 (byte_at der pos)))
  end.
Definition parseTlv (der : bytes) (offset : Z) : result string Tlv :=
  if blen der <=? offset then Err "Unexpected end of DER data"
  else
    let pos := offset + 1 in
    if blen der <=? pos then Err "Truncated DER: missing length"
    else
      let firstLenByte := byte_at der pos in
      let pos := pos + 1 in
      let finish pos contentLength :=
        if blen der <? pos + contentLength then Err "Truncated DER: content exceeds buffer"
        else Ok (mkTlv (byte_at der offset) pos contentLength (pos - offset + contentLength)) in
      let long numLenBytes :=
        if 4 <? numLenBytes then Err "DER length exceeds 4 bytes"
        else if blen der <? pos + numLenBytes then Err "Truncated DER: incomplete length"
        else finish (pos + numLenBytes) (long_length der pos (Z.to_nat numLenBytes) 0) in
      match firstLenByte with
      | Some b =>
          if b <? 128 then finish pos b
          else if b =? 128 then Err "Indefinite length not supported"
          else long (Z.land b 127)
      | None => long 0
      end.
Definition bytesMatch (data : bytes) (offset : Z) (pattern : bytes) : bool :=
  if blen data <? offset + blen pattern then false
  else forallb (λ i, bool_decide (byte_at data (offset + Z.of_nat i) = pattern !! i)) (seq 0 (length pattern)).
Definition is_spki (der : bytes) (t : Tlv) : bool :=
  bool_decide (tag t = Some TAG_SEQUENCE) &&
  match parseTlv der (contentStart t) with
  | Ok inner => bool_decide (tag inner = Some TAG_SEQUENCE) &&
                bytesMatch der (contentStart inner) EC_PUBLIC_KEY_OID
  | Err _ => false
  end.
(** The [while] loop; the answer is the content's start and length. *)
Fixpoint findSpki (fuel : nat) (der : bytes) (pos rangeEnd : Z) : option (option (Z * Z)) :=
  match fuel with
  | O => None
  | S fuel =>
      if pos <? rangeEnd then
        match parseTlv der pos with
        | Err _ => Some None
        | Ok t => if is_spki der t then Some (Some (contentStart t, contentLength t))
                  else findSpki fuel der (pos + totalLength t) rangeEnd
        end
      else Some None
  end.
(** After the subject's public key info is found at [start]. *)
Definition spki_key (der : bytes) (start : Z) : result string bytes :=
  match parseTlv der start with
  | Err e => Err ("AlgorithmIdentifier: " +:+ e)
  | Ok algId =>
      if negb (bytesMatch der (contentStart algId) EC_PUBLIC_KEY_OID) then
        Err "Algorithm is not EC public key"
      else if negb (bytesMatch der (contentStart algId + blen EC_PUBLIC_KEY_OID) SECP256R1_OID) then
        Err "Curve is not secp256r1 (P-256)"
      else
        match parseTlv der (start + totalLength algId) with
        | Err e => Err ("BIT STRING: " +:+ e)
        | Ok bitString =>
            if negb (bool_decide (tag bitString = Some TAG_BIT_STRING)) then
              Err "Expected BIT STRING for public key"
            else
              let unusedBits := byte_at der (contentStart bitString) in
              if negb (bool_decide (unusedBits = Some 0)) then
                Err ("Unexpected unused bits in BIT STRING: " +:+
                     match unusedBits with Some b => pretty b | None => "undefined" end)
              else
                let keyStart := contentStart bitString + 1 in
                let keyLength := contentLength bitString - 1 in
                if negb (keyLength =? P256_UNCOMPRESSED_LENGTH) then
                  Err ("Expected " +:+ pretty P256_UNCOMPRESSED_LENGTH +:+ "-byte key, got " +:+
                       pretty keyLength)
                else
                  let publicKey := slice der keyStart keyLength in
                  if negb (bool_decide (byte_at publicKey 0 = Some UNCOMPRESSED_POINT_PREFIX)) then
                    Err "Public key is not an uncompressed point"
                  else Ok publicKey
        end
  end.
(** [decoded] is [atob(certBase64)]. *)
Definition extractP256PublicKey (fuel : nat) (decoded : option bytes) : option (result string bytes) :=
  match decoded with
  | None => Some (Err "Invalid base64 in certificate")
  | Some der =>
      match parseTlv der 0 with
      | Err e => Some (Err ("Certificate: " +:+ e))
      | Ok cert =>
          if negb (bool_decide (tag cert = Some TAG_SEQUENCE)) then
            Some (Err "Certificate is not a SEQUENCE")
          else
            match parseTlv der (contentStart cert) with
            | Err e => Some (Err ("tbsCertificate: " +:+ e))
            | Ok tbs =>
                if negb (bool_decide (tag tbs = Some TAG_SEQUENCE)) then
                  Some (Err "tbsCertificate is not a SEQUENCE")
                else
                  match findSpki fuel der (contentStart tbs) (contentStart tbs + contentLength tbs) with
                  | None => None
                  | Some None => Some (Err "subjectPublicKeyInfo with EC algorithm not found")
                  | Some (Some (start, _)) => Some (spki_key der start)
                  end
            end
      end
  end.

(** ** DSSE *)
Definition COMPACT_SIG_LENGTH : Z := 64.
Definition computePae (payloadType : string) (payload : bytes) : bytes :=
  let typeBytes := encode payloadType in
  let prefix := encode ("DSSEv1 " +:+ pretty (blen typeBytes) +:+ " ") in
  let middle := encode (" " +:+ pretty (blen payload) +:+ " ") in
  prefix ++ typeBytes ++ middle ++ payload.
(** [dst.set(sub, off)] *)
Definition set_at (dst : bytes) (off : Z) (sub : bytes) : bytes :=
  take (Z.to_nat off) dst ++ sub ++ drop (Z.to_nat off + length sub) dst.
(** [srcLen] is [undefined] when it was read outside of the buffer: every
    comparison with it is false, and nothing is copied. *)
Definition copyIntegerToFixed (src : bytes) (srcOffset : Z) (srcLen : option Z) (dst : bytes)
  (dstOffset fieldSize : Z) : result string bytes :=
  match srcLen with
  | None => Ok dst
  | Some srcLen =>
      let '(start, len) :=
        if (fieldSize <? srcLen) && bool_decide (byte_at src srcOffset = Some 0)
        then (srcOffset + 1, srcLen - 1) else (srcOffset, srcLen) in
      if fieldSize <? len then
        Err ("DER integer too large: " +:+ pretty len +:+ " bytes for " +:+ pretty fieldSize +:+
             "-byte field")
      else
        let padLen := fieldSize - len in
        let dst := if 0 <? padLen
                   then set_at dst dstOffset (replicate (Z.to_nat padLen) 0) else dst in
        Ok (set_at dst (dstOffset + padLen) (slice src start len))
  end.
Definition derSigToCompact (der : bytes) : result string bytes :=
  if blen der =? COMPACT_SIG_LENGTH then Ok der
  else if (blen der <? 8) || negb (bool_decide (byte_at der 0 = Some 48)) then
    Err "Not a DER-encoded signature"
  else
    let b1 := default 0 (byte_at der 1) in
    let pos := if 128 <=? b1 then 2 + Z.land b1 127 else 2 in
    let compact := replicate 64 0 in
    if negb (bool_decide (byte_at der pos = Some 2)) then Err "Expected INTEGER tag for r"
    else
      let rLen := byte_at der (pos + 1) in
      let pos := pos + 2 in
      match copyIntegerToFixed der pos rLen compact 0 32 with
      | Err e => Err e
      | Ok compact =>
          match rLen with
          | None => Err "Expected INTEGER tag for s"
          | Some rLen =>
              let pos := pos + rLen in
              if negb (bool_decide (byte_at der pos = Some 2)) then Err "Expected INTEGER tag for s"
              else
                let sLen := byte_at der (pos + 1) in
                copyIntegerToFixed der (pos + 2) sLen compact 32 32
          end
      end.

(** ** Reading what was written *)
Lemma byte_at_app_r pre l i :
  0 <= i -> byte_at (pre ++ l) (blen pre + i) = byte_at l i.
Proof.
  intros Hi. unfold byte_at, blen. destruct (Z.ltb_spec (Z.of_nat (length pre) + i) 0); [lia|].
  destruct (Z.ltb_spec i 0); [lia|]. rewrite lookup_app_r by lia. f_equal. lia.
Qed.
Lemma byte_at_here pre b l : byte_at (pre ++ b :: l) (blen pre) = Some b.
Proof. pose proof (byte_at_app_r pre (b :: l) 0 ltac:(lia)) as Hb. by rewrite Z.add_0_r in Hb. Qed.
Lemma byte_at_app_l l post i : i < blen l -> byte_at (l ++ post) i = byte_at l i.
Proof.
  intros Hi. unfold byte_at, blen in *. destruct (Z.ltb_spec i 0); [done|]. apply lookup_app_l. lia.
Qed.
Lemma byte_at_nat l (i : nat) : byte_at l (Z.of_nat i) = l !! i.
Proof. unfold byte_at. destruct (Z.ltb_spec (Z.of_nat i) 0); [lia|]. by rewrite Nat2Z.id. Qed.
Lemma blen_app l k : blen (l ++ k) = blen l + blen k.
Proof. unfold blen. rewrite length_app. lia. Qed.
Lemma blen_cons b l : blen (b :: l) = 1 + blen l.
Proof. unfold blen. cbn. lia. Qed.
Lemma blen_nonneg l : 0 <= blen l.
Proof. unfold blen. lia. Qed.
Lemma slice_app pre l post : slice (pre ++ l ++ post) (blen pre) (blen l) = l.
Proof.
  unfold slice, blen. rewrite !Nat2Z.id, drop_app_length. apply take_app_length.
Qed.
Lemma int32_small x : - 2 ^ 31 <= x < 2 ^ 31 -> int32 x = x.
Proof. intros H. unfold int32. rewrite Z.mod_small; lia. Qed.
(** Big-endian value of a byte list. *)
Definition be_val (l : bytes) : Z := foldl (λ a b, a * 256 + b) 0 l.
Lemma be_val_app l k : be_val (l ++ k) = be_val l * 256 ^ blen k + be_val k.
Proof.
  unfold be_val. rewrite foldl_app. generalize (foldl (λ a b, a * 256 + b) 0 l) as x. intros x.
  induction k as [|b k IH] using rev_ind; [change (256 ^ blen []) with 1; cbn [foldl]; lia|].
  rewrite !foldl_app. cbn [foldl]. rewrite IH, blen_app, Z.pow_add_r by apply blen_nonneg.
  change (256 ^ blen [b]) with 256. ring.
Qed.
Lemma be_val_bound l : is_bytes l -> 0 <= be_val l < 256 ^ blen l.
Proof.
  induction l as [|b l IH] using rev_ind; intros Hl; [done|].
  apply Forall_app in Hl as [Hl Hb]. apply Forall_cons in Hb as [Hb _]. specialize (IH Hl).
  rewrite be_val_app, blen_app, Z.pow_add_r by apply blen_nonneg.
  cbv beta in Hb. change (256 ^ blen [b]) with 256. change (be_val [b]) with b. nia.
Qed.
Lemma long_length_val pre l post acc :
  is_bytes l -> 0 <= acc -> acc * 256 ^ blen l + be_val l < 2 ^ 31 ->
  long_length (pre ++ l ++ post) (blen pre) (length l) acc = acc * 256 ^ blen l + be_val l.
Proof.
  revert pre acc. induction l as [|b l IH]; intros pre acc Hl Hacc Hb; [change (256 ^ blen []) with 1; cbn; lia|].
  apply Forall_cons in Hl as [Hb0 Hl]. cbv beta in Hb0. pose proof (be_val_bound l Hl). pose proof (blen_nonneg l).
  assert (0 < 256 ^ blen l) by (apply Z.pow_pos_nonneg; lia).
  rewrite blen_cons, Z.pow_add_r, Z.pow_1_r in * by lia.
  assert (be_val (b :: l) = b * 256 ^ blen l + be_val l) as Hbe.
  { change (b :: l) with ([b] ++ l). rewrite be_val_app. done. }
  rewrite Hbe in *. cbn [length long_length].
  rewrite <-(Z.add_0_r (blen pre)), byte_at_app_r by lia. change (byte_at _ 0) with (Some b). cbn [default id].
  assert (acc * 256 < 2 ^ 31) by nia.
  rewrite int32_small by (rewrite Z.shiftl_mul_pow2 by lia; change (2 ^ 8) with 256; lia).
  rewrite lor_add by lia. rewrite Z.add_0_r.
  assert (pre ++ (b :: l) ++ post = (pre ++ [b]) ++ l ++ post) as -> by by rewrite <-app_assoc.
  replace (blen pre + 1) with (blen (pre ++ [b])) by by rewrite blen_app.
  rewrite IH; [ring|done|lia|]. nia.
Qed.

(** ** Elements as they are written *)
(** Short form, or one to four length bytes below the sign bit. *)
Inductive der_len : Z → bytes → Prop :=
  | dl_short n : 0 <= n < 128 → der_len n [n]
  | dl_long l : is_bytes l → (1 <= length l <= 4)%nat → be_val l < 2 ^ 31 →
      der_len (be_val l) (128 + blen l :: l).
Definition element (t : Z) (content elt : bytes) : Prop :=
  ∃ lenBytes, der_len (blen content) lenBytes ∧ elt = t :: lenBytes ++ content.
Lemma blen_element t content elt :
  element t content elt → blen content + 2 <= blen elt.
Proof.
  intros (l & Hl & ->). rewrite blen_cons, blen_app. destruct Hl; rewrite ?blen_cons;
    pose proof (blen_nonneg []); [cbn; lia|]. pose proof (blen_nonneg l). lia.
Qed.
Lemma parseTlv_element pre t content elt post :
  element t content elt →
  parseTlv (pre ++ elt ++ post) (blen pre) =
  Ok (mkTlv (Some t) (blen pre + (blen elt - blen content)) (blen content) (blen elt)).
Proof.
  intros He. pose proof (blen_element _ _ _ He). destruct He as (lb & Hl & ->).
  pose proof (blen_nonneg content). pose proof (blen_nonneg post). pose proof (blen_nonneg pre).
  unfold parseTlv. set (der := pre ++ _ ++ post).
  assert (blen der = blen pre + blen (t :: lb ++ content) + blen post) as Hlen
    by (unfold der; rewrite !blen_app; lia).
  destruct (Z.leb_spec (blen der) (blen pre)); [lia|].
  destruct (Z.leb_spec (blen der) (blen pre + 1)); [lia|].
  assert (byte_at der (blen pre) = Some t) as ->.
  { rewrite <-(Z.add_0_r (blen pre)). unfold der. by rewrite byte_at_app_r. }
  rewrite blen_cons, blen_app in *. remember (blen content) as m eqn:Hm.
  destruct Hl as [n Hn|l Hl Hk Hv].
  - assert (byte_at der (blen pre + 1) = Some n) as ->.
    { unfold der. rewrite byte_at_app_r by lia. done. }
    destruct (Z.ltb_spec n 128); [|lia]. change (blen [n]) with 1 in *.
    destruct (Z.ltb_spec (blen der) (blen pre + 1 + 1 + n)); [lia|]. f_equal. f_equal; lia.
  - assert (byte_at der (blen pre + 1) = Some (128 + blen l)) as ->.
    { unfold der. rewrite byte_at_app_r by lia. done. }
    rewrite blen_cons in *. pose proof (blen_nonneg l).
    destruct (Z.ltb_spec (128 + blen l) 128); [lia|].
    destruct (Z.eqb_spec (128 + blen l) 128); [unfold blen in *; lia|].
    assert (Z.land (128 + blen l) 127 = blen l) as ->.
    { unfold blen. assert (length l = 1 ∨ length l = 2 ∨ length l = 3 ∨ length l = 4)%nat
        as [->|[->|[->| ->]]] by lia; done. }
    destruct (Z.ltb_spec 4 (blen l)); [unfold blen in *; lia|].
    destruct (Z.ltb_spec (blen der) (blen pre + 1 + 1 + blen l)); [lia|].
    assert (long_length der (blen pre + 1 + 1) (Z.to_nat (blen l)) 0 = be_val l) as ->.
    { unfold blen at 2. rewrite Nat2Z.id.
      assert (der = (pre ++ [t; 128 + blen l]) ++ l ++ content ++ post) as ->.
      { unfold der. rewrite <-!app_assoc. cbn. by rewrite <-app_assoc. }
      replace (blen pre + 1 + 1) with (blen (pre ++ [t; 128 + blen l])) by (rewrite blen_app; change (blen [t; 128 + blen l]) with 2; lia).
      rewrite long_length_val; [lia|done|lia|lia]. }
    destruct (Z.ltb_spec (blen der) (blen pre + 1 + 1 + blen l + be_val l)); [lia|]. f_equal. f_equal; lia.
Qed.
Lemma bytesMatch_app pre p post : bytesMatch (pre ++ p ++ post) (blen pre) p = true.
Proof.
  unfold bytesMatch. rewrite !blen_app. pose proof (blen_nonneg post).
  destruct (Z.ltb_spec (blen pre + (blen p + blen post)) (blen pre + blen p)); [lia|].
  apply forallb_forall. intros i Hi%in_seq. apply bool_decide_eq_true.
  rewrite byte_at_app_r, byte_at_app_l by (unfold blen; lia). by rewrite byte_at_nat.
Qed.
Lemma bytesMatch_spec data off p :
  bytesMatch data off p = true → ∀ i : nat, (i < length p)%nat → byte_at data (off + Z.of_nat i) = p !! i.
Proof.
  unfold bytesMatch. destruct (_ <? _); [done|]. rewrite forallb_forall. intros H i Hi.
  apply (bool_decide_eq_true (byte_at data (off + Z.of_nat i) = p !! i)), H, in_seq. lia.
Qed.

(** ** Termination *)
(** No length wraps around to a negative one. *)
Definition lengths_ok (der : bytes) : Prop :=
  ∀ offset t, 0 <= offset → parseTlv der offset = Ok t → 0 <= contentLength t.
Lemma parseTlv_bounds der offset t :
  parseTlv der offset = Ok t →
  offset < blen der ∧ offset + 2 <= contentStart t ∧ contentStart t + contentLength t <= blen der ∧
  totalLength t = contentStart t - offset + contentLength t.
Proof.
  unfold parseTlv. repeat match goal with |- context [if ?a <=? ?b then _ else _] =>
    destruct (Z.leb_spec a b); [done|] end.
  cbv zeta. intros Ht.
  assert (∀ n, (if 4 <? n then Err "DER length exceeds 4 bytes" else
    if blen der <? offset + 1 + 1 + n then Err "Truncated DER: incomplete length" else
    (let c := long_length der (offset + 1 + 1) (Z.to_nat n) 0 in
    if blen der <? offset + 1 + 1 + n + c then Err "Truncated DER: content exceeds buffer"
    else Ok (mkTlv (byte_at der offset) (offset + 1 + 1 + n) c (offset + 1 + 1 + n - offset + c)))) = Ok t →
    0 <= n → offset < blen der ∧ offset + 2 <= contentStart t ∧ contentStart t + contentLength t <= blen der ∧
    totalLength t = contentStart t - offset + contentLength t) as Hlong.
  { intros n. destruct (4 <? n); [done|]. cbv zeta. destruct (blen der <? offset + 1 + 1 + n); [done|].
    destruct (Z.ltb_spec (blen der) (offset + 1 + 1 + n + long_length der (offset + 1 + 1) (Z.to_nat n) 0));
      [done|]. intros [= <-] Hn. cbn. lia. }
  destruct (byte_at der (offset + 1)) as [b|]; [|apply (Hlong 0); [exact Ht|lia]].
  destruct (b <? 128).
  - destruct (Z.ltb_spec (blen der) (offset + 1 + 1 + b)); [done|]. injection Ht as <-. cbn. lia.
  - destruct (b =? 128); [done|]. apply (Hlong _ Ht). apply Z.land_nonneg. right. lia.
Qed.
Lemma findSpki_total der pos rangeEnd fuel :
  lengths_ok der → 0 <= pos → (0 < fuel)%nat → blen der - pos < Z.of_nat fuel →
  findSpki fuel der pos rangeEnd ≠ None.
Proof.
  intros Hok. revert pos. induction fuel as [|fuel IH]; intros pos Hp Hf Hm; [lia|].
  cbn [findSpki]. destruct (pos <? rangeEnd); [|done]. destruct (parseTlv der pos) as [t|e] eqn:Ht; [|done].
  destruct (is_spki der t); [done|]. pose proof (parseTlv_bounds _ _ _ Ht). pose proof (Hok _ _ Hp Ht).
  apply IH; lia.
Qed.

(** ** The key of a certificate *)
(** A field the scan passes by: not a sequence, or one whose first element is
    none. *)
Definition plain_field (elt : bytes) : Prop :=
  ∃ t content, element t content elt ∧
  (t ≠ TAG_SEQUENCE ∨ ∃ t' c' e' r, element t' c' e' ∧ content = e' ++ r ∧ t' ≠ TAG_SEQUENCE).
(** A certificate: fields, the subject, possibly empty, and the key's info. *)
Record certificate (key der : bytes) (fields : list bytes) : Prop := {
  cert_shape : ∃ tbs subject spki alg bits tbs_rest rest spki_rest alg_rest,
    element TAG_SEQUENCE (tbs ++ rest) der ∧
    element TAG_SEQUENCE (concat fields ++ subject ++ spki ++ tbs_rest) tbs ∧
    element TAG_SEQUENCE (alg ++ bits ++ spki_rest) spki ∧
    element TAG_SEQUENCE (EC_PUBLIC_KEY_OID ++ SECP256R1_OID ++ alg_rest) alg ∧
    element TAG_BIT_STRING (0 :: key) bits ∧
    (subject = [] ∨ element TAG_SEQUENCE [] subject);
  cert_fields : Forall plain_field fields;
  cert_key : blen key = 65 ∧ byte_at key 0 = Some 4
}.

(** The element at the front of the content of another one. *)
Lemma parse_inner pre t content elt t' c' e' r post :
  element t content elt → element t' c' e' → content = e' ++ r →
  parseTlv (pre ++ elt ++ post) (blen pre + (blen elt - blen content)) =
  Ok (mkTlv (Some t') (blen pre + (blen elt - blen content) + (blen e' - blen c')) (blen c') (blen e')).
Proof.
  intros (lb & _ & ->) He' ->.
  assert (pre ++ (t :: lb ++ e' ++ r) ++ post = (pre ++ t :: lb) ++ e' ++ (r ++ post)) as ->
    by (rewrite <-!app_assoc; cbn; by rewrite <-!app_assoc).
  replace (blen pre + (blen (t :: lb ++ e' ++ r) - blen (e' ++ r))) with (blen (pre ++ t :: lb))
    by (rewrite ?blen_app, ?blen_cons, ?blen_app; lia).
  by apply parseTlv_element.
Qed.
Lemma plain_not_spki pre elt post t :
  plain_field elt → parseTlv (pre ++ elt ++ post) (blen pre) = Ok t →
  is_spki (pre ++ elt ++ post) t = false ∧ totalLength t = blen elt ∧ 2 <= blen elt.
Proof.
  intros (ty & content & He & Hty) Ht. rewrite (parseTlv_element _ _ _ _ _ He) in Ht. injection Ht as <-.
  pose proof (blen_element _ _ _ He). pose proof (blen_nonneg content). split; [|cbn; lia].
  unfold is_spki. cbn [tag contentStart]. destruct Hty as [Hty|(t' & c' & e' & r & He' & Hc & Ht')].
  { rewrite bool_decide_eq_false_2; [done|congruence]. }
  rewrite (parse_inner pre ty content elt t' c' e' r post He He' Hc). cbn [tag].
  rewrite (bool_decide_eq_false_2 (Some t' = _)) by congruence. by rewrite andb_false_r.
Qed.
Lemma findSpki_fields fields pre rest rangeEnd fuel :
  Forall plain_field fields → blen pre + blen (concat fields) <= rangeEnd →
  findSpki (length fields + fuel) (pre ++ concat fields ++ rest) (blen pre) rangeEnd =
  findSpki fuel (pre ++ concat fields ++ rest) (blen pre + blen (concat fields)) rangeEnd.
Proof.
  revert pre. induction fields as [|f fields IH]; intros pre Hf Hr.
  { cbn. by rewrite Z.add_0_r. }
  apply Forall_cons in Hf as [Hp Hf]. cbn [concat length] in *. rewrite blen_app in *.
  pose proof (blen_nonneg (concat fields)). rewrite <-app_assoc.
  destruct Hp as (t & content & He & Hty). cbn [Nat.add findSpki].
  pose proof (parseTlv_element pre t content f (concat fields ++ rest) He) as Ht.
  destruct (plain_not_spki pre f (concat fields ++ rest) _ ltac:(by exists t, content) Ht) as (Hn & Hl & H2).
  destruct (Z.ltb_spec (blen pre) rangeEnd); [|lia]. rewrite Ht, Hn. cbn [totalLength].
  assert (pre ++ f ++ concat fields ++ rest = (pre ++ f) ++ concat fields ++ rest) as -> by by rewrite app_assoc.
  rewrite <-blen_app, IH; [|done|rewrite blen_app; lia]. rewrite blen_app. f_equal. lia.
Qed.
Lemma element_inv t content elt : element t content elt → ∃ lb, elt = (t :: lb) ++ content.
Proof. intros (lb & _ & ->). by exists lb. Qed.
(** The key of a well-formed info, wherever it lies. *)
Lemma spki_key_correct pre alg bits spki_rest alg_rest key post :
  element TAG_SEQUENCE (EC_PUBLIC_KEY_OID ++ SECP256R1_OID ++ alg_rest) alg →
  element TAG_BIT_STRING (0 :: key) bits → blen key = 65 → byte_at key 0 = Some 4 →
  spki_key (pre ++ (alg ++ bits ++ spki_rest) ++ post) (blen pre) = Ok key.
Proof.
  intros Ha Hb Hk H4. unfold spki_key. set (der := pre ++ _ ++ post).
  assert (der = pre ++ alg ++ bits ++ spki_rest ++ post) as Hd1
    by (unfold der; by rewrite <-!app_assoc).
  assert (parseTlv der (blen pre) = Ok (mkTlv (Some TAG_SEQUENCE) (blen pre +
    (blen alg - blen (EC_PUBLIC_KEY_OID ++ SECP256R1_OID ++ alg_rest)))
    (blen (EC_PUBLIC_KEY_OID ++ SECP256R1_OID ++ alg_rest)) (blen alg))) as ->
    by (rewrite Hd1; by apply parseTlv_element).
  cbn [contentStart totalLength]. destruct (element_inv _ _ _ Ha) as [lb Hlb].
  assert (blen pre + (blen alg - blen (EC_PUBLIC_KEY_OID ++ SECP256R1_OID ++ alg_rest)) =
    blen (pre ++ TAG_SEQUENCE :: lb)) as -> by (rewrite Hlb, !blen_app; lia).
  assert (bytesMatch der (blen (pre ++ TAG_SEQUENCE :: lb)) EC_PUBLIC_KEY_OID = true) as ->.
  { rewrite Hd1, Hlb, <-!app_assoc, (app_assoc pre). apply bytesMatch_app. }
  assert (bytesMatch der (blen (pre ++ TAG_SEQUENCE :: lb) + blen EC_PUBLIC_KEY_OID) SECP256R1_OID = true) as ->.
  { rewrite <-blen_app, Hd1, Hlb, <-!app_assoc, (app_assoc pre), (app_assoc (pre ++ _)).
    rewrite <-(app_assoc pre (TAG_SEQUENCE :: lb)), !(app_assoc pre). apply bytesMatch_app. }
  cbn [negb].
  assert (der = (pre ++ alg) ++ bits ++ spki_rest ++ post) as Hd2 by by rewrite Hd1, app_assoc.
  assert (parseTlv der (blen pre + blen alg) = Ok (mkTlv (Some TAG_BIT_STRING)
    (blen pre + blen alg + (blen bits - blen (0 :: key))) (blen (0 :: key)) (blen bits))) as ->
    by (rewrite <-blen_app, Hd2; by apply parseTlv_element).
  cbn [tag contentStart contentLength]. rewrite bool_decide_eq_true_2 by done. cbn [negb].
  destruct (element_inv _ _ _ Hb) as [lk Hlk].
  assert (blen pre + blen alg + (blen bits - blen (0 :: key)) = blen (pre ++ alg ++ TAG_BIT_STRING :: lk)) as ->
    by (rewrite Hlk, !blen_app; lia).
  assert (der = (pre ++ alg ++ TAG_BIT_STRING :: lk) ++ (0 :: key) ++ spki_rest ++ post) as Hd3
    by (rewrite Hd2, Hlk, <-!app_assoc; done).
  assert (byte_at der (blen (pre ++ alg ++ TAG_BIT_STRING :: lk)) = Some 0) as ->.
  { rewrite <-(Z.add_0_r (blen _)), Hd3. by rewrite byte_at_app_r. }
  rewrite bool_decide_eq_true_2 by done. cbn [negb]. rewrite blen_cons, Hk.
  change (1 + 65 - 1 =? P256_UNCOMPRESSED_LENGTH) with true. cbn [negb].
  assert (slice der (blen (pre ++ alg ++ TAG_BIT_STRING :: lk) + 1) (1 + 65 - 1) = key) as ->.
  { replace (1 + 65 - 1) with (blen key) by lia.
    assert (der = (pre ++ alg ++ TAG_BIT_STRING :: lk ++ [0]) ++ key ++ spki_rest ++ post) as ->
      by (rewrite Hd3, <-!app_assoc; cbn; by rewrite <-!app_assoc).
    replace (blen (pre ++ alg ++ TAG_BIT_STRING :: lk) + 1)
      with (blen (pre ++ alg ++ TAG_BIT_STRING :: lk ++ [0])); [apply slice_app|].
    rewrite !blen_app, !blen_cons, blen_app. change (blen [0]) with 1. lia. }
  rewrite H4. by rewrite bool_decide_eq_true_2.
Qed.
Section cert.
Context (pre alg bits spki subject spki_rest alg_rest post key : bytes) (rangeEnd : Z).
Context (Hs : element TAG_SEQUENCE (alg ++ bits ++ spki_rest) spki)
  (Ha : element TAG_SEQUENCE (EC_PUBLIC_KEY_OID ++ SECP256R1_OID ++ alg_rest) alg).
(** The scan stops at the info, passing an empty subject by. *)
Lemma findSpki_here fuel :
  blen pre + blen spki <= rangeEnd → (0 < fuel)%nat →
  findSpki fuel (pre ++ spki ++ post) (blen pre) rangeEnd =
  Some (Some (blen pre + (blen spki - blen (alg ++ bits ++ spki_rest)), blen (alg ++ bits ++ spki_rest))).
Proof using Hs Ha.
  intros Hr Hf. destruct fuel as [|fuel]; [lia|]. cbn [findSpki]. pose proof (blen_element _ _ _ Hs).
  pose proof (blen_nonneg (alg ++ bits ++ spki_rest)). destruct (Z.ltb_spec (blen pre) rangeEnd); [|lia].
  rewrite (parseTlv_element _ _ _ _ _ Hs). unfold is_spki. cbn [tag contentStart].
  rewrite (parse_inner pre _ _ spki _ _ alg (bits ++ spki_rest) post Hs Ha eq_refl). cbn [tag contentStart].
  rewrite !bool_decide_eq_true_2 by done. cbn [andb].
  assert (bytesMatch (pre ++ spki ++ post) (blen pre + (blen spki - blen (alg ++ bits ++ spki_rest)) +
    (blen alg - blen (EC_PUBLIC_KEY_OID ++ SECP256R1_OID ++ alg_rest))) EC_PUBLIC_KEY_OID = true) as ->; [|done].
  destruct (element_inv _ _ _ Hs) as [l1 Hl1], (element_inv _ _ _ Ha) as [l2 Hl2].
  set (p := pre ++ (TAG_SEQUENCE :: l1) ++ (TAG_SEQUENCE :: l2)).
  assert (blen pre + (blen spki - blen (alg ++ bits ++ spki_rest)) +
    (blen alg - blen (EC_PUBLIC_KEY_OID ++ SECP256R1_OID ++ alg_rest)) = blen p) as ->
    by (rewrite Hl1; unfold p; rewrite Hl2, !blen_app; lia).
  assert (pre ++ spki ++ post = p ++ EC_PUBLIC_KEY_OID ++ (SECP256R1_OID ++ alg_rest) ++ bits ++ spki_rest ++ post)
    as -> by (rewrite Hl1, Hl2; unfold p; by rewrite <-!app_assoc).
  apply bytesMatch_app.
Qed.
Lemma findSpki_subject fuel :
  subject = [] ∨ element TAG_SEQUENCE [] subject → blen pre + blen subject + blen spki <= rangeEnd →
  (1 < fuel)%nat →
  findSpki fuel (pre ++ subject ++ spki ++ post) (blen pre) rangeEnd =
  findSpki (if decide (subject = []) then fuel else pred fuel) (pre ++ subject ++ spki ++ post)
    (blen (pre ++ subject)) rangeEnd.
Proof using Hs Ha.
  intros [->|He] Hr Hf; [by rewrite app_nil_r|].
  assert (subject ≠ []) as Hne by (destruct He as (? & _ & ->); done). rewrite decide_False by done.
  destruct fuel as [|fuel]; [lia|]. cbn [pred findSpki]. pose proof (blen_element _ _ _ He) as H2.
  change (blen []) with 0 in H2. pose proof (blen_nonneg spki).
  destruct (Z.ltb_spec (blen pre) rangeEnd); [|lia]. rewrite (parseTlv_element _ _ _ _ _ He).
  change (blen []) with 0. cbn [totalLength].
  assert (is_spki (pre ++ subject ++ spki ++ post) (mkTlv (Some TAG_SEQUENCE) (blen pre + (blen subject - 0)) 0
    (blen subject)) = false) as ->; [|by rewrite blen_app].
  unfold is_spki. cbn [tag contentStart].
  replace (blen pre + (blen subject - 0)) with (blen (pre ++ subject)) by (rewrite blen_app; lia).
  rewrite app_assoc, (parseTlv_element _ _ _ _ _ Hs). cbn [tag contentStart].
  rewrite bool_decide_eq_true_2 by done. cbn [andb].
  set (off := blen (pre ++ subject) + _).
  destruct (bytesMatch _ off EC_PUBLIC_KEY_OID) eqn:Hm; [|done].
  apply bytesMatch_spec with (i := 0%nat) in Hm; [|cbn; lia].
  destruct (element_inv _ _ _ Hs) as [l1 Hl1], (element_inv _ _ _ Ha) as [l2 Hl2].
  exfalso. revert Hm. unfold off. rewrite Z.add_0_r.
  assert (blen (pre ++ subject) + (blen spki - blen (alg ++ bits ++ spki_rest)) =
    blen ((pre ++ subject) ++ TAG_SEQUENCE :: l1)) as -> by (rewrite Hl1, !blen_app; lia).
  rewrite Hl1, <-(Z.add_0_r (blen _)), (app_assoc (pre ++ subject)), (app_assoc (pre ++ subject)).
  rewrite <-(app_assoc _ (alg ++ bits ++ spki_rest) post), byte_at_app_r by lia. by rewrite Hl2.
Qed.
End cert.

Lemma extract_certificate fuel der key fields :
  certificate key der fields → (length fields + 2 <= fuel)%nat →
  extractP256PublicKey fuel (Some der) = Some (Ok key).
Proof.
  intros [(tbs & subject & spki & alg & bits & tr & rest & sr & ar & Hd & Ht & Hs & Ha & Hb & Hsub) Hf [Hk H4]] Hfuel.
  destruct (element_inv _ _ _ Hd) as [l1 H1], (element_inv _ _ _ Ht) as [l2 H2].
  unfold extractP256PublicKey. pose proof (parseTlv_element [] _ _ _ [] Hd) as Hp. rewrite app_nil_r in Hp.
  change ([] ++ der) with der in Hp. change (blen []) with 0 in Hp. rewrite Hp.
  cbn [tag contentStart]. rewrite bool_decide_eq_true_2 by done. cbn [negb].
  replace (0 + (blen der - blen (tbs ++ rest))) with (blen (TAG_SEQUENCE :: l1)) by (rewrite H1, !blen_app; lia).
  pose proof (parseTlv_element (TAG_SEQUENCE :: l1) _ _ _ rest Ht) as Hp2. rewrite <-H1 in Hp2. rewrite Hp2.
  cbn [tag contentStart contentLength]. rewrite bool_decide_eq_true_2 by done. cbn [negb].
  set (inner := concat fields ++ subject ++ spki ++ tr) in *.
  set (p := (TAG_SEQUENCE :: l1) ++ (TAG_SEQUENCE :: l2)).
  assert (blen (TAG_SEQUENCE :: l1) + (blen tbs - blen inner) = blen p) as ->
    by (unfold p; rewrite H2, !blen_app; lia).
  assert (der = p ++ concat fields ++ (subject ++ spki ++ tr ++ rest)) as Hder
    by (rewrite H1, H2; unfold p, inner; by rewrite <-!app_assoc).
  assert (blen inner = blen (concat fields) + blen subject + blen spki + blen tr) as Hin
    by (unfold inner; rewrite !blen_app; lia).
  pose proof (blen_nonneg subject). pose proof (blen_nonneg spki). pose proof (blen_nonneg tr).
  replace fuel with (length fields + (fuel - length fields))%nat by lia.
  rewrite Hder, findSpki_fields by (done || lia). rewrite <-blen_app.
  rewrite (app_assoc p). rewrite (findSpki_subject (p ++ concat fields) alg bits spki subject sr ar (tr ++ rest));
    try done; [|rewrite blen_app; lia|lia].
  rewrite (app_assoc (p ++ _) subject).
  rewrite (findSpki_here ((p ++ concat fields) ++ subject) alg bits spki sr ar (tr ++ rest)); try done;
    [|rewrite !blen_app; lia|destruct (decide (subject = [])); lia].
  destruct (element_inv _ _ _ Hs) as [l3 Hl3]. f_equal.
  assert (blen ((p ++ concat fields) ++ subject) + (blen spki - blen (alg ++ bits ++ sr)) =
    blen (((p ++ concat fields) ++ subject) ++ TAG_SEQUENCE :: l3)) as -> by (rewrite Hl3, !blen_app; lia).
  rewrite Hl3 at 1. rewrite <-(app_assoc (TAG_SEQUENCE :: l3)), (app_assoc ((p ++ _) ++ _)).
  by apply (spki_key_correct _ alg bits sr ar key).
Qed.
Lemma spki_key_sound der start key :
  spki_key der start = Ok key →
  blen key = 65 ∧ byte_at key 0 = Some UNCOMPRESSED_POINT_PREFIX ∧
  ∃ o k, bytesMatch der o EC_PUBLIC_KEY_OID = true ∧
    bytesMatch der (o + blen EC_PUBLIC_KEY_OID) SECP256R1_OID = true ∧
    byte_at der (k - 1) = Some 0 ∧ key = slice der k 65.
Proof.
  unfold spki_key. destruct (parseTlv der start) as [alg|]; [|done].
  destruct (bytesMatch der (contentStart alg) _) eqn:Hm1; [|done].
  destruct (bytesMatch der (contentStart alg + _) _) eqn:Hm2; [|done]. cbn [negb].
  destruct (parseTlv der (start + totalLength alg)) as [bs|] eqn:Hb; [|done].
  destruct (bool_decide (tag bs = _)); [|done]. cbn [negb].
  case_bool_decide as Hu; [|done]. cbn [negb]. destruct (Z.eqb_spec (contentLength bs - 1) P256_UNCOMPRESSED_LENGTH)
    as [Hl|]; [|done]. cbn [negb]. case_bool_decide as H4; [|done]. intros [= <-].
  apply parseTlv_bounds in Hb. rewrite Hl. split; [|split; [by rewrite <-Hl|]].
  - assert (0 <= contentStart bs) by (unfold byte_at in Hu; destruct (Z.ltb_spec (contentStart bs) 0); [done|lia]).
    unfold P256_UNCOMPRESSED_LENGTH in *. unfold slice, blen in *. rewrite length_take, length_drop. lia.
  - exists (contentStart alg), (contentStart bs + 1).
    split_and!; try done. by replace (contentStart bs + 1 - 1) with (contentStart bs) by lia.
Qed.

(** C40: The key is taken out of the certificate: for every certificate (DER or
    BER lengths below 2^31, any fields before the subject that are not sequences
    of sequences, the subject possibly empty) whose key info names an
    uncompressed P-256 key, the walk answers exactly that key; and whatever
    the input, an answered key has 65 bytes, begins with the prefix of an
    uncompressed point and lies in the certificate, which names the P-256
    object identifiers.  When no encoded length wraps around to a negative
    32-bit number the walk terminates. *)
Theorem extractP256PublicKey_spec fuel der key fields :
  (certificate key der fields → (length fields + 2 <= fuel)%nat →
     extractP256PublicKey fuel (Some der) = Some (Ok key)) ∧
  (extractP256PublicKey fuel (Some der) = Some (Ok key) →
     blen key = 65 ∧ byte_at key 0 = Some UNCOMPRESSED_POINT_PREFIX ∧
     ∃ o k, bytesMatch der o EC_PUBLIC_KEY_OID = true ∧
       bytesMatch der (o + blen EC_PUBLIC_KEY_OID) SECP256R1_OID = true ∧
       byte_at der (k - 1) = Some 0 ∧ key = slice der k 65) ∧
  (lengths_ok der → (length der < fuel)%nat → extractP256PublicKey fuel (Some der) ≠ None).
Proof.
  split_and!; [apply extract_certificate|..]; unfold extractP256PublicKey;
    destruct (parseTlv der 0) as [cert|] eqn:Hc; try done; destruct (negb _); try done;
    destruct (parseTlv der (contentStart cert)) as [tbs|] eqn:Ht; try done; destruct (negb _); try done.
  - destruct (findSpki _ _ _ _) as [[[st ln]|]|]; try done. intros [= Hk]. by eapply spki_key_sound.
  - intros Hok Hf. pose proof (parseTlv_bounds _ _ _ Hc). pose proof (parseTlv_bounds _ _ _ Ht).
    pose proof (findSpki_total der (contentStart tbs) (contentStart tbs + contentLength tbs) fuel Hok) as Hn.
    destruct (findSpki _ _ _ _) as [[[st ln]|]|]; try done. exfalso. apply Hn; [|lia| |done].
    + lia.
    + unfold blen. lia.
Qed.

(** ** Encodings of signatures *)
Lemma encode_app (a b : string) : encode (a +:+ b) = encode a ++ encode b.
Proof. induction a as [|c a IH]; [done|]. exact (f_equal (cons (Z.of_N (N_of_ascii c))) IH). Qed.
Lemma encode_inj (a b : string) : encode a = encode b → a = b.
Proof.
  unfold encode. revert b. induction a as [|c a IH]; intros [|d b]; try done. cbn.
  intros Hab. injection Hab as Hc Hab. f_equal; [|by apply IH].
  apply N2Z.inj in Hc. by rewrite <-(ascii_N_embedding c), Hc, ascii_N_embedding.
Qed.
Definition SP : Z := 32.
Lemma pretty_no_space (z : Z) : SP ∉ encode (pretty z).
Proof.
  pose proof (pretty_Z_num z) as Hn. revert Hn. generalize (pretty z) as s. intros s.
  induction s as [|c s IH]; [intros _; apply not_elem_of_nil|].
  cbn. intros [Hc Hs]%andb_prop. rewrite elem_of_cons. intros [He|He]; [|by apply IH].
  destruct c as [[] [] [] [] [] [] [] []]; done.
Qed.
Lemma split_at_space (a b x y : bytes) :
  SP ∉ a → SP ∉ b → a ++ SP :: x = b ++ SP :: y → a = b ∧ x = y.
Proof.
  revert b. induction a as [|c a IH]; intros [|d b] Ha Hb; cbn; try done; rewrite ?elem_of_cons in *.
  - by intros [= ->].
  - intros [= <- _]. naive_solver.
  - intros [= -> _]. naive_solver.
  - intros [= -> Hab]. destruct (IH b ltac:(naive_solver) ltac:(naive_solver) Hab) as [-> ->]. done.
Qed.
(** The pre-authentication encoding that a DSSE signature covers determines
    what is signed: two envelopes with the same encoding have the same payload
    type and the same payload, whatever bytes these contain. *)
Theorem computePae_injective t p t' p' :
  computePae t p = computePae t' p' → t = t' ∧ p = p'.
Proof.
  unfold computePae. rewrite !encode_app. change (encode " ") with [SP]. rewrite <-!app_assoc. cbn [app].
  intros Hp%app_inv_head. apply split_at_space in Hp as [Hn Hp]; [|apply pretty_no_space..].
  apply encode_inj, (inj pretty) in Hn. apply (app_inj_1 (encode t) (encode t')) in Hp as [Ht Hp];
    [|unfold blen in Hn; lia].
  split; [by apply encode_inj|]. injection Hp as Hp.
  by apply split_at_space in Hp as [_ Hp]; [|apply pretty_no_space..].
Qed.

(** A DER integer of a signature: at most 32 bytes, or 33 with a sign byte. *)
Definition der_integer (l : bytes) : Prop :=
  (length l <= 32)%nat ∨ length l = 33%nat ∧ head l = Some 0.
Definition der_signature (total : Z) (r s : bytes) : bytes :=
  48 :: total :: 2 :: blen r :: r ++ 2 :: blen s :: s.
(** Its 32-byte field. *)
Definition field32 (l : bytes) : bytes :=
  if decide (length l = 33%nat) then tail l else replicate (32 - length l) 0 ++ l.
Lemma length_field32 l : der_integer l → length (field32 l) = 32%nat.
Proof.
  unfold field32. intros [Hl|[Hl _]]; case_decide; rewrite ?length_app, ?length_replicate; try lia.
  destruct l; cbn in *; lia.
Qed.
Lemma be_val_field32 l : der_integer l → be_val (field32 l) = be_val l.
Proof.
  unfold field32. intros Hl. case_decide as Hd.
  - destruct Hl as [Hl|[_ Hl]]; [lia|]. destruct l as [|b l]; [done|]. injection Hl as ->. done.
  - rewrite be_val_app. assert (∀ n, be_val (replicate n 0) = 0) as ->; [|lia].
    induction n as [|n IH]; [done|]. exact IH.
Qed.
Lemma set_at_set_at d o a b :
  0 <= o → o + blen a <= blen d →
  set_at (set_at d o a) (o + blen a) b = set_at d o (a ++ b).
Proof.
  unfold set_at, blen. intros Ho Hl. set (x := take (Z.to_nat o) d).
  assert (length (x ++ a) = Z.to_nat (o + Z.of_nat (length a))) as Hlen
    by (unfold x; rewrite length_app, length_take; lia).
  rewrite (app_assoc x a), <-Hlen, take_app_length, drop_app_add, drop_drop, <-!app_assoc, length_app.
  do 4 f_equal. lia.
Qed.
Lemma copyInteger_spec pre l post dst off :
  der_integer l → 0 <= off → off + 32 <= blen dst →
  copyIntegerToFixed (pre ++ l ++ post) (blen pre) (Some (blen l)) dst off 32 = Ok (set_at dst off (field32 l)).
Proof.
  intros Hl Ho Hd. unfold copyIntegerToFixed, field32. unfold der_integer in Hl.
  destruct (Z.ltb_spec 32 (blen l)) as [Hlt|Hge].
  - destruct Hl as [Hl|[Hl Hh]]; [unfold blen in Hlt; lia|]. rewrite decide_True by done.
    destruct l as [|b l]; [done|]. injection Hh as ->.
    rewrite <-(Z.add_0_r (blen pre)), byte_at_app_r, bool_decide_eq_true_2 by done. cbn [andb].
    rewrite blen_cons. assert (blen l = 32) as Hl32 by (unfold blen; cbn in Hl; lia).
    rewrite Hl32. cbv beta iota zeta. change (32 <? 1 + 32 - 1) with false.
    change (0 <? 32 - (1 + 32 - 1)) with false. cbv iota. change (32 - (1 + 32 - 1)) with 0.
    change (1 + 32 - 1) with 32. rewrite !Z.add_0_r, <-Hl32.
    assert (pre ++ (0 :: l) ++ post = (pre ++ [0]) ++ l ++ post) as -> by by rewrite <-app_assoc.
    replace (blen pre + 1) with (blen (pre ++ [0])) by by rewrite blen_app.
    by rewrite slice_app.
  - cbn [andb]. destruct (Z.ltb_spec 32 (blen l)); [lia|]. rewrite slice_app.
    rewrite decide_False by (unfold blen in *; lia).
    assert (Z.to_nat (32 - blen l) = (32 - length l)%nat) as -> by (unfold blen; lia).
    assert (blen (replicate (32 - length l) 0) = 32 - blen l) as Hr by (unfold blen in *; rewrite length_replicate; lia).
    rewrite <-Hr. destruct (Z.ltb_spec 0 (blen (replicate (32 - length l) 0))) as [Hp|Hp].
    + rewrite set_at_set_at; [done|lia|]. pose proof (blen_nonneg l). rewrite Hr. lia.
    + assert (replicate (32 - length l) 0 = []) as ->.
      { apply nil_length_inv. pose proof (blen_nonneg l). unfold blen in *. lia. }
      cbn. by rewrite Z.add_0_r.
Qed.
(** A DER signature is converted faithfully: for the encoding of any two
    integers of at most 32 significant bytes that is not 64 bytes long, the
    result has 64 bytes, of which the first half is the first integer and the
    second half the second one. *)
Theorem derSigToCompact_spec total r s :
  total < 128 → der_integer r → der_integer s → (1 <= length r)%nat → (1 <= length s)%nat →
  blen (der_signature total r s) ≠ 64 →
  ∃ c, derSigToCompact (der_signature total r s) = Ok c ∧ length c = 64%nat ∧
    be_val (take 32 c) = be_val r ∧ be_val (drop 32 c) = be_val s.
Proof.
  intros Ht Hr Hs Hr1 Hs1 Hne. exists (field32 r ++ field32 s).
  pose proof (length_field32 r Hr) as Lr. pose proof (length_field32 s Hs) as Ls.
  split; [|split_and!].
  - unfold derSigToCompact, COMPACT_SIG_LENGTH. rewrite (proj2 (Z.eqb_neq _ _)) by done.
    assert (8 <= blen (der_signature total r s)).
    { unfold der_signature. rewrite !blen_cons, blen_app, !blen_cons. unfold blen. lia. }
    destruct (Z.ltb_spec (blen (der_signature total r s)) 8); [lia|].
    change (byte_at (der_signature total r s) 0) with (Some 48).
    change (byte_at (der_signature total r s) 1) with (Some total). cbn [orb negb default id].
    rewrite bool_decide_eq_true_2 by done. cbn [negb].
    destruct (Z.leb_spec 128 total); [lia|].
    change (byte_at (der_signature total r s) 2) with (Some 2). rewrite bool_decide_eq_true_2 by done. cbn [negb].
    change (byte_at (der_signature total r s) (2 + 1)) with (Some (blen r)).
    change (der_signature total r s) with ([48; total; 2; blen r] ++ r ++ (2 :: blen s :: s)).
    change (2 + 2) with (blen [48; total; 2; blen r]).
    rewrite (copyInteger_spec _ r) by (done || lia).
    set (p := [48; total; 2; blen r]). rewrite app_assoc, <-blen_app.
    rewrite byte_at_here, bool_decide_eq_true_2 by done. cbn [negb].
    rewrite byte_at_app_r by lia. change (byte_at (2 :: blen s :: s) 1) with (Some (blen s)).
    replace (blen (p ++ r) + 2) with (blen ((p ++ r) ++ [2; blen s])) by by rewrite (blen_app (p ++ r)).
    assert ((p ++ r) ++ 2 :: blen s :: s = ((p ++ r) ++ [2; blen s]) ++ s ++ []) as ->
      by (rewrite app_nil_r, <-(app_assoc (p ++ r)); done).
    rewrite copyInteger_spec; [|done|lia|].
    + f_equal. unfold set_at. rewrite Lr, Ls. change (Z.to_nat 0) with 0%nat. change (Z.to_nat 32) with 32%nat.
      change (take 0 (replicate 64 0)) with (@nil Z). change (drop (0 + 32) (replicate 64 0)) with (replicate 32 0).
      cbn [app]. rewrite <-Lr at 1. rewrite take_app_length.
      rewrite drop_ge; [by rewrite app_nil_r|]. rewrite length_app, length_replicate. lia.
    + unfold set_at, blen. rewrite Lr, !length_app, length_take, length_drop, length_replicate, Lr. lia.
  - rewrite length_app. lia.
  - rewrite <-Lr, take_app_length. by apply be_val_field32.
  - rewrite <-Lr, drop_app_length. by apply be_val_field32.
Qed.

(** ** Concrete inputs *)
(** An element with a short length. *)
Definition tlv (t : Z) (content : bytes) : bytes := t :: blen content :: content.
Lemma tlv_element t content : blen content < 128 → element t content (tlv t content).
Proof.
  intros H. exists [blen content]. split; [|done]. apply dl_short. pose proof (blen_nonneg content). lia.
Qed.
Definition demo_key : bytes := 4 :: replicate 64 7.
Definition demo_alg : bytes := tlv 48 (EC_PUBLIC_KEY_OID ++ SECP256R1_OID).
Definition demo_bits : bytes := tlv 3 (0 :: demo_key).
Definition demo_spki : bytes := tlv 48 (demo_alg ++ demo_bits).
(** A serial number and a validity, an empty subject. *)
Definition demo_fields : list bytes := [tlv 2 [1]; tlv 48 (tlv 23 [50; 48])].
Definition demo_cert : bytes := tlv 48 (tlv 48 (concat demo_fields ++ tlv 48 [] ++ demo_spki) ++ []).
Lemma extractP256PublicKey_spec_witness :
  certificate demo_key demo_cert demo_fields ∧
  extractP256PublicKey 4 (Some demo_cert) = Some (Ok demo_key) ∧ blen demo_key = 65.
Proof.
  assert (certificate demo_key demo_cert demo_fields) as Hc.
  { split; [|repeat constructor|done].
    - exists (tlv 48 (concat demo_fields ++ tlv 48 [] ++ demo_spki)), (tlv 48 []), demo_spki, demo_alg, demo_bits,
        [], [], [], [].
      split_and!; [by apply tlv_element..|right; by apply tlv_element].
    - exists 2, [1]. split; [by apply tlv_element|by left].
    - exists 48, (tlv 23 [50; 48]). split; [by apply tlv_element|right].
      exists 23, [50; 48], (tlv 23 [50; 48]), []. split; [by apply tlv_element|done]. }
  destruct (extractP256PublicKey_spec 4 demo_cert demo_key demo_fields) as (Hk & Hs & _).
  pose proof (Hk Hc ltac:(cbn; lia)) as He. split; [exact Hc|]. split; [exact He|]. exact (proj1 (Hs He)).
Defined.
Lemma derSigToCompact_spec_witness :
  ∃ c, derSigToCompact (der_signature 70 (0 :: replicate 32 255) (replicate 32 3)) = Ok c ∧
    length c = 64%nat ∧ be_val (take 32 c) = 2 ^ 256 - 1.
Proof.
  destruct (derSigToCompact_spec 70 (0 :: replicate 32 255) (replicate 32 3) ltac:(lia)
    (or_intror (conj eq_refl eq_refl)) ltac:(left; cbn; lia) ltac:(cbn; lia) ltac:(cbn; lia) ltac:(done))
    as (c & Hc & Hl & Hr & _).
  exists c. split; [exact Hc|]. split; [exact Hl|]. rewrite Hr. vm_compute. reflexivity.
Defined.
Lemma computePae_injective_witness :
  computePae "a" [32; 49; 32] = computePae "a" [32; 49; 32] ∧ computePae "a" [] ≠ computePae "" [97].
Proof.
  split; [reflexivity|]. intros Heq. destruct (computePae_injective _ _ _ _ Heq) as [Ht _]. discriminate Ht.
Defined.

(** A length of four bytes with the sign bit set wraps around: here the element
    counts zero bytes in all, and the scan stands still for ever. *)
Definition stuck_cert : bytes := [48; 8; 48; 6; 2; 132; 255; 255; 255; 250].
Lemma findSpki_diverges fuel : extractP256PublicKey fuel (Some stuck_cert) = None.
Proof.
  assert (findSpki fuel stuck_cert 4 10 = None) as Hf.
  { induction fuel as [|fuel IH]; [done|]. exact IH. }
  change (extractP256PublicKey fuel (Some stuck_cert)) with
    (match findSpki fuel stuck_cert 4 10 with
     | None => None
     | Some None => Some (Err "subjectPublicKeyInfo with EC algorithm not found")
     | Some (Some (start, _)) => Some (spki_key stuck_cert start)
     end). by rewrite Hf.
Qed.
(** A DER signature that happens to have 64 bytes is taken for a compact one. *)
Lemma short_der_signature_misread :
  let sig := der_signature 62 (replicate 29 1) (replicate 29 1) in
  derSigToCompact sig = Ok sig ∧ be_val (take 32 sig) ≠ be_val (replicate 29 1).
Proof. vm_compute. done. Qed.
