(* ===== verification/Verifier.v ===== *)
(** * The verifier

    [verifier/src]: the rate limiter, the six checks, the verdict and the
    service that signs a statement.  The network ([fetch] with [response.json]),
    [new URL], [atob], [JSON.parse] on its result, Web Crypto and the P-256
    library are arguments.  File names, digests and host names are taken to be
    ASCII, where lower-casing and slicing act on bytes. *)
From S2P Require Import Prelude JsDate Json Errors Ids Scopes Policy Seals SealDelta Der.
Open Scope Z_scope.

(** ** Verdicts *)
Inductive CheckVerdict := cv_pass | cv_fail | cv_skip.
#[export] Instance CheckVerdict_eq_dec : EqDecision CheckVerdict.
Proof. solve_decision. Defined.
(** [evidence] is [JNull] or an object. *)
Record VerificationCheck := mkCheck {
  checkId : string; cv_verdict : CheckVerdict; vc_reason : string; evidence : json
}.
Inductive VerificationVerdict := vv_verified | vv_partial | vv_rejected.
#[export] Instance VerificationVerdict_eq_dec : EqDecision VerificationVerdict.
Proof. solve_decision. Defined.
Definition determineVerdict (verdicts : list CheckVerdict) : VerificationVerdict :=
  if existsb (λ v, bool_decide (v = cv_fail)) verdicts then vv_rejected
  else if existsb (λ v, bool_decide (v = cv_skip)) verdicts then vv_partial
  else vv_verified.
Definition tierRank (t : TrustTier) : Z :=
  match t with unverified => 0 | source_verified => 1 | reproducibly_verified => 2 | runtime_attested => 3 end.
Definition determineVerifiedTier (verdict : VerificationVerdict) (requestedTier : TrustTier) : TrustTier :=
  if bool_decide (verdict = vv_rejected) then unverified
  else
    let effectiveRank := Z.min (tierRank requestedTier) (tierRank source_verified) in
    if bool_decide (verdict = vv_verified) && (tierRank source_verified <=? effectiveRank)
    then source_verified else unverified.

(** ** The rate limiter *)
Fixpoint findIndex (f : Z → bool) (l : list Z) : option nat :=
  match l with [] => None | x :: l => if f x then Some 0%nat else S <$> findIndex f l end.
Definition RateLimiter := omap string (list Z).
Definition rl_check (maxRequests windowMs now : Z) (requesterId : string) (timestamps : RateLimiter)
  : RateLimiter * bool :=
  let windowStart := now - windowMs in
  match om_get requesterId timestamps with
  | None => (om_set requesterId [now] timestamps, true)
  | Some entries =>
      let entries := match findIndex (λ t, windowStart <=? t) entries with
                     | Some firstValid => if (0 <? firstValid)%nat then drop firstValid entries else entries
                     | None => if (0 <? length entries)%nat then [] else entries
                     end in
      let timestamps := om_set requesterId entries timestamps in
      if (length entries =? 0)%nat then
        (om_set requesterId [now] (om_delete requesterId timestamps), true)
      else if maxRequests <=? Z.of_nat (length entries) then (timestamps, false)
      else (om_set requesterId (entries ++ [now]) timestamps, true)
  end.
Definition rl_reset (timestamps : RateLimiter) : RateLimiter := [].

(** ** Requests *)
Record VerificationRequest := {
  vr_requestId : string; vr_agentInboxId : string; vr_signetInboxId : string; vr_groupId : option string;
  vr_seal : option SealPayload; vr_sealEnvelope : option SealEnvelope; vr_sealPublicKey : option string;
  vr_artifactDigest : string; vr_buildProvenanceBundle : option string; vr_sourceRepoUrl : string;
  vr_releaseTag : option string; vr_requestedTier : TrustTier; vr_challengeNonce : string
}.
(** How a check ends: with a value, with an error result, by an exception
    (the promise rejects), or not at all. *)
Inductive Outcome (A : Type) := Done (r : result SignetError A) | Throws | Diverges.
Arguments Done {A} r.
Arguments Throws {A}.
Arguments Diverges {A}.
Definition done_check (id : string) (v : CheckVerdict) (reason : string) (e : json)
  : Outcome VerificationCheck := Done (Ok (mkCheck id v reason e)).

(** ** Strings *)
Definition endsWith (s suffix : string) : bool :=
  let n := (String.length s - String.length suffix)%nat in
  (String.length suffix <=? String.length s)%nat && bool_decide (str_drop n s = suffix).
Fixpoint includes (s sub : string) : bool :=
  startsWith sub s || match s with String _ s => includes s sub | EmptyString => false end.
Definition lower_char (c : ascii) : ascii :=
  let n := N_of_ascii c in
  if ((65 <=? n) && (n <=? 90))%N then ascii_of_N (n + 32) else c.
Fixpoint toLowerCase (s : string) : string :=
  match s with EmptyString => EmptyString | String c s => String (lower_char c) (toLowerCase s) end.
(** [s.split("/")] *)
Fixpoint split_slash (s : string) : list string :=
  match s with
  | EmptyString => [""]
  | String c s =>
      match split_slash s with
      | p :: l => if bool_decide (c = "/"%char) then "" :: p :: l else String c p :: l
      | [] => []
      end
  end.

(** ** Source availability *)
Definition SOURCE_AVAILABLE_CHECK_ID : string := "source_available".
(** [response]: the message of a failed fetch, or the status. *)
Definition response_ok (status : Z) : bool := (200 <=? status) && (status <=? 299).
Definition source_available (response : result string Z) (elapsed : Z) (request : VerificationRequest)
  : Outcome VerificationCheck :=
  match response with
  | Ok status =>
      done_check SOURCE_AVAILABLE_CHECK_ID (if response_ok status then cv_pass else cv_fail)
        (if response_ok status then "Source repository accessible (HTTP " +:+ pretty status +:+ ")"
         else "Source repository returned HTTP " +:+ pretty status)
        (JObj [("url", JStr (vr_sourceRepoUrl request)); ("statusCode", JNum status);
               ("responseTimeMs", JNum elapsed)])
  | Err message =>
      done_check SOURCE_AVAILABLE_CHECK_ID cv_fail ("Source repository unreachable: " +:+ message)
        (JObj [("url", JStr (vr_sourceRepoUrl request)); ("responseTimeMs", JNum elapsed);
               ("error", JStr message)])
  end.

(** ** Release signing *)
Definition RELEASE_SIGNING_CHECK_ID : string := "release_signing".
(** [parsed]: host name and path name of [new URL(url)]. *)
Definition parseGitHubRepo (parsed : option (string * string)) : option (string * string) :=
  match parsed with
  | None => None
  | Some (hostname, pathname) =>
      if negb (bool_decide (hostname = "github.com")) then None
      else
        let p := if startsWith "/" pathname then str_drop 1 pathname else pathname in
        let p := if endsWith p ".git" then str_take (String.length p - 4) p else p in
        match split_slash p with
        | owner :: repo :: _ => if bool_decide (owner = "") || bool_decide (repo = "") then None
                                else Some (owner, repo)
        | _ => None
        end
  end.
Definition isSigningAssetForDigest (name digest : string) : bool :=
  let lower := toLowerCase name in
  let shortDigest := toLowerCase (str_take 12 digest) in
  (endsWith lower ".sig" || endsWith lower ".sigstore" || endsWith lower ".sigstore.json" ||
   endsWith lower ".intoto.jsonl") && includes lower shortDigest.
(** The GitHub API's answer: no response, or a status and the body when it is
    JSON. *)
Definition asset_name (a : json) : string :=
  toString (match jget "name" a with JUndef | JNull => JStr "" | v => v end).
Definition release_signing (parsedUrl : option (string * string)) (response : option (Z * option json))
  (request : VerificationRequest) : Outcome VerificationCheck :=
  let skip reason e := done_check RELEASE_SIGNING_CHECK_ID cv_skip reason e in
  let fail reason e := done_check RELEASE_SIGNING_CHECK_ID cv_fail reason e in
  match vr_releaseTag request with
  | None => skip "No release tag provided" JNull
  | Some releaseTag =>
      match parseGitHubRepo parsedUrl with
      | None => skip "Source repository is not a GitHub URL — release signing check requires GitHub"
                  (JObj [("sourceRepoUrl", JStr (vr_sourceRepoUrl request))])
      | Some (owner, repo) =>
          let unreachable := skip "Failed to fetch release from GitHub API (timeout or network error)"
                               (JObj [("releaseTag", JStr releaseTag)]) in
          match response with
          | None => unreachable
          | Some (status, body) =>
              if status =? 404 then
                fail ("No GitHub release found for tag " +:+ releaseTag)
                  (JObj [("releaseTag", JStr releaseTag); ("repo", JStr (owner +:+ "/" +:+ repo))])
              else if negb (response_ok status) then
                skip ("GitHub API returned " +:+ pretty status)
                  (JObj [("releaseTag", JStr releaseTag); ("statusCode", JNum status)])
              else
                match body with
                | None => unreachable
                | Some JNull | Some JUndef => Throws
                | Some releaseData =>
                    let isDraft := bool_decide (jget "draft" releaseData = JBool true) in
                    let isPrerelease := bool_decide (jget "prerelease" releaseData = JBool true) in
                    let assets := match jget "assets" releaseData with JArr l => l | _ => [] end in
                    let tagName := toString (match jget "tag_name" releaseData with
                                             | JUndef | JNull => JStr "" | v => v end) in
                    if isDraft then
                      fail "Release is still in draft — not published"
                        (JObj [("releaseTag", JStr tagName); ("draft", JBool true)])
                    else if existsb nullish assets then Throws
                    else
                      let signingAssets :=
                        List.filter (λ a, isSigningAssetForDigest (asset_name a) (vr_artifactDigest request))
                          assets in
                      if (length signingAssets =? 0)%nat then
                        fail ("Release " +:+ tagName +:+ " found but no signing artifacts for digest " +:+
                              str_take 12 (vr_artifactDigest request) +:+ "...")
                          (JObj [("releaseTag", JStr tagName); ("prerelease", JBool isPrerelease);
                                 ("totalAssets", JNum (Z.of_nat (length assets)));
                                 ("allAssetNames", JArr (map (λ a, JStr (asset_name a)) assets));
                                 ("artifactDigest", JStr (vr_artifactDigest request))])
                      else
                        done_check RELEASE_SIGNING_CHECK_ID cv_pass
                          ("Release " +:+ tagName +:+ " found with " +:+
                           pretty (length signingAssets) +:+
                           " signing artifact(s) for the requested digest")
                          (JObj [("releaseTag", JStr tagName); ("prerelease", JBool isPrerelease);
                                 ("totalAssets", JNum (Z.of_nat (length assets)));
                                 ("signingAssets", JArr (map (λ a, JStr (asset_name a)) signingAssets));
                                 ("artifactDigest", JStr (vr_artifactDigest request));
                                 ("htmlUrl", match jget "html_url" releaseData with
                                             | JUndef => JNull | v => v end)])
                end
          end
      end
  end.

(** ** Build provenance *)
Record SigstoreBundle := {
  sb_payload : string; sb_payloadType : string; sb_signatures : list string; sb_rawBytes : string
}.
Record InTotoStatement := {
  it_subject : list (string * string); it_predicateType : string; it_predicate : json
}.
Definition is_string (v : json) : bool := match v with JStr _ => true | _ => false end.
Definition str_of (v : json) : string := match v with JStr s => s | _ => "" end.
Definition is_object (v : json) : bool := match v with JObj _ => true | _ => false end.
Definition nonempty_array (ok : json → bool) (v : json) : bool :=
  match v with JArr (x :: l) => forallb ok (x :: l) | _ => false end.
Definition DsseSignature_ok (v : json) : bool :=
  is_object v && is_string (jget "sig" v) && is_string (jget "keyid" v).
Definition DsseEnvelope_ok (v : json) : bool :=
  is_object v && is_string (jget "payload" v) && is_string (jget "payloadType" v) &&
  nonempty_array DsseSignature_ok (jget "signatures" v).
Definition VerificationMaterial_ok (v : json) : bool :=
  is_object v && is_object (jget "certificate" v) && is_string (jget "rawBytes" (jget "certificate" v)) &&
  match jget "tlogEntries" v with JUndef | JArr _ => true | _ => false end.
Definition elements (v : json) : list json := match v with JArr l => l | _ => [] end.
Definition Subject_ok (v : json) : bool :=
  is_object v && is_string (jget "name" v) && is_object (jget "digest" v) &&
  is_string (jget "sha256" (jget "digest" v)).
Definition InTotoStatement_parse (v : json) : option InTotoStatement :=
  if is_object v && bool_decide (jget "_type" v = JStr "https://in-toto.io/Statement/v1") &&
     nonempty_array Subject_ok (jget "subject" v) && is_string (jget "predicateType" v)
  then Some {| it_subject := map (λ s, (str_of (jget "name" s), str_of (jget "sha256" (jget "digest" s))))
                 (elements (jget "subject" v));
               it_predicateType := str_of (jget "predicateType" v); it_predicate := jget "predicate" v |}
  else None.

Section provenance.
(** [atob]; [JSON.parse] of the decoded text; the message of zod's first issue. *)
Context (atob : string → option bytes) (parseJSON : bytes → option json) (zodIssue : json → string).
(** [p256.verify(signature, message, key)], [None] when it throws. *)
Context (p256_verify : bytes → bytes → bytes → option bool).

Definition parseSigstoreBundle (base64Bundle : string)
  : result string (SigstoreBundle * InTotoStatement) :=
  match atob base64Bundle with
  | None => Err "Bundle is not valid base64"
  | Some decoded =>
      match parseJSON decoded with
      | None => Err "Bundle is not valid JSON"
      | Some raw =>
          let dsse := jget "dsseEnvelope" raw in
          let material := jget "verificationMaterial" raw in
          if negb (is_object raw) then Err ("Invalid bundle structure: " +:+ zodIssue raw)
          else if negb (DsseEnvelope_ok dsse) then Err "Bundle is missing required DSSE envelope"
          else if negb (VerificationMaterial_ok material) then
            Err "Bundle is missing required verification material"
          else if negb (is_string (jget "mediaType" raw)) then
            Err ("Invalid bundle structure: " +:+ zodIssue raw)
          else
            match atob (str_of (jget "payload" dsse)) ≫= parseJSON with
            | None => Err "DSSE envelope payload is not valid base64 JSON"
            | Some payloadJson =>
                match InTotoStatement_parse payloadJson with
                | None => Err "DSSE payload is not a valid in-toto statement"
                | Some statement =>
                    Ok ({| sb_payload := str_of (jget "payload" dsse);
                           sb_payloadType := str_of (jget "payloadType" dsse);
                           sb_signatures := map (λ s, str_of (jget "sig" s))
                                              (elements (jget "signatures" dsse));
                           sb_rawBytes := str_of (jget "rawBytes" (jget "certificate" material)) |},
                        statement)
                end
            end
      end
  end.
Definition findMatchingSubject (statement : InTotoStatement) (expectedDigest : string)
  : option (string * string) :=
  List.find (λ s, bool_decide (toLowerCase s.2 = toLowerCase expectedDigest)) (it_subject statement).
Definition verifyDsseSignature (b : SigstoreBundle) (publicKey : bytes) : result string unit :=
  match List.find (λ s, negb (bool_decide (s = ""))) (sb_signatures b) with
  | None => Err "No non-empty signature in DSSE envelope"
  | Some sig =>
      match atob sig with
      | None => Err "Signature is not valid base64"
      | Some sigDerBytes =>
          match derSigToCompact sigDerBytes with
          | Err e => Err ("Signature format error: " +:+ e)
          | Ok compact =>
              match atob (sb_payload b) with
              | None => Err "Payload is not valid base64"
              | Some payloadBytes =>
                  match p256_verify compact (computePae (sb_payloadType b) payloadBytes) publicKey with
                  | None => Err "Signature verification threw an error"
                  | Some false => Err "DSSE signature is invalid"
                  | Some true => Ok tt
                  end
              end
          end
      end
  end.

Definition BUILD_PROVENANCE_CHECK_ID : string := "build_provenance".
Record BuildProvenanceConfig := {
  expectedOidcIssuer : option string; expectedIdentityPattern : option string
}.
(** A configured string that is set and not empty. *)
Definition configured (config : option BuildProvenanceConfig)
  (field : BuildProvenanceConfig → option string) : option string :=
  match config ≫= field with Some "" => None | o => o end.
(** The OIDC issuer: the answer when it differs from the configured one. *)
Definition issuer_failure (config : option BuildProvenanceConfig) (predicate : json)
  : option VerificationCheck :=
  match configured config expectedOidcIssuer with
  | None => None
  | Some expected =>
      let actual := match jopt "oidcIssuer" (jopt "metadata" (jopt "runDetails" predicate)) with
                    | JUndef => JNull | v => v end in
      if bool_decide (actual = JStr expected) then None
      else Some (mkCheck BUILD_PROVENANCE_CHECK_ID cv_fail "OIDC issuer does not match expected value"
             (JObj [("expectedIssuer", JStr expected); ("actualIssuer", actual)]))
  end.
(** The build identity; a truthy identity that is no string has no
    [startsWith]. *)
Inductive IdentityAnswer := ia_ok | ia_fail (c : VerificationCheck) | ia_throws.
Definition identity_answer (config : option BuildProvenanceConfig) (predicate : json) : IdentityAnswer :=
  match configured config expectedIdentityPattern with
  | None => ia_ok
  | Some pattern =>
      let actual := match jopt "identity" (jopt "buildConfigSource" (jopt "metadata"
                            (jopt "runDetails" predicate))) with JUndef => JNull | v => v end in
      let failure := mkCheck BUILD_PROVENANCE_CHECK_ID cv_fail
                       "Build identity does not match expected pattern"
                       (JObj [("expectedPattern", JStr pattern); ("actualIdentity", actual)]) in
      if negb (truthy actual) then ia_fail failure
      else match actual with
           | JStr s => if startsWith pattern s then ia_ok else ia_fail failure
           | _ => ia_throws
           end
  end.
Definition build_provenance (fuel : nat) (config : option BuildProvenanceConfig)
  (request : VerificationRequest) : Outcome VerificationCheck :=
  let check v reason e := done_check BUILD_PROVENANCE_CHECK_ID v reason e in
  match vr_buildProvenanceBundle request with
  | None => check cv_skip "No build provenance bundle provided" JNull
  | Some base64 =>
      match parseSigstoreBundle base64 with
      | Err e => check cv_fail e
          (JObj [("bundlePresent", JBool true); ("artifactDigest", JStr (vr_artifactDigest request))])
      | Ok (bundle, statement) =>
          if negb (existsb (λ s, negb (bool_decide (s = ""))) (sb_signatures bundle)) then
            check cv_fail "DSSE envelope has no non-empty signatures"
              (JObj [("signatureCount", JNum (Z.of_nat (length (sb_signatures bundle))));
                     ("allEmpty", JBool true)])
          else
            match findMatchingSubject statement (vr_artifactDigest request) with
            | None =>
                check cv_fail "Artifact digest does not match any subject in the in-toto statement"
                  (JObj [("expectedDigest", JStr (vr_artifactDigest request));
                         ("statementDigests", JArr (map (λ s, JStr s.2) (it_subject statement)))])
            | Some (name, digest) =>
                let matched := [("matchedSubject", JStr name); ("matchedDigest", JStr digest)] in
                match issuer_failure config (it_predicate statement) with
                | Some c => Done (Ok c)
                | None =>
                    match identity_answer config (it_predicate statement) with
                    | ia_throws => Throws
                    | ia_fail c => Done (Ok c)
                    | ia_ok =>
                        match extractP256PublicKey fuel (atob (sb_rawBytes bundle)) with
                        | None => Diverges
                        | Some (Err e) =>
                            check cv_fail ("Certificate key extraction failed: " +:+ e)
                              (JObj (matched ++ [("certificateError", JStr e)]))
                        | Some (Ok key) =>
                            match verifyDsseSignature bundle key with
                            | Err e =>
                                check cv_fail ("DSSE signature verification failed: " +:+ e)
                                  (JObj (matched ++ [("signatureError", JStr e)]))
                            | Ok _ =>
                                check cv_skip "DSSE signature is cryptographically valid but Fulcio certificate chain and Rekor inclusion proof verification are not yet implemented"
                                  (JObj (matched ++
                                     [("predicateType", JStr (it_predicateType statement));
                                      ("hasCertificate", JBool (negb (bool_decide (sb_rawBytes bundle = ""))));
                                      ("subjectCount", JNum (Z.of_nat (length (it_subject statement))));
                                      ("signatureCount", JNum (Z.of_nat (length (sb_signatures bundle))));
                                      ("cryptoVerified", JBool true)]))
                            end
                        end
                    end
                end
            end
      end
  end.
End provenance.

(** ** The seal's checks *)
Section seal_checks.
Context `{JsDate}.
(** Structural failures of the payload, in the order they are collected. *)
Definition failures_of (l : list (bool * string)) : list string :=
  map snd (List.filter fst l).
Definition empty_str (s : string) : bool := bool_decide (s = "").
Definition chainWalked (e : SealEnvelope) : json := JBool (is_some (previous (chain e))).
(** Both checks compare the canonical bytes of the claimed and the signed
    payload. *)
Definition payload_matches (seal : SealPayload) (e : SealEnvelope) : bool :=
  bool_decide (canonicalize (payload_json seal) = canonicalize (payload_json (current (chain e)))).

Definition SEAL_CHAIN_CHECK_ID : string := "seal_chain".
Definition seal_chain_failures (seal : SealPayload) : list string :=
  failures_of [(empty_str (sealId seal), "Missing sealId"); (empty_str (chatId seal), "Missing chatId");
               (empty_str (operatorId seal), "Missing operatorId");
               (empty_str (credentialId seal), "Missing credentialId")].
Definition seal_chain (request : VerificationRequest) : Outcome VerificationCheck :=
  let check v reason e := done_check SEAL_CHAIN_CHECK_ID v reason e in
  match vr_seal request with
  | None => check cv_skip "No seal provided" JNull
  | Some seal =>
      let failures := seal_chain_failures seal in
      if (0 <? length failures)%nat then
        check cv_fail ("Seal chain validation failed: " +:+ str_join "; " failures)
          (JObj [("failures", strs_json failures); ("sealId", JStr (sealId seal));
                 ("chainValid", JBool false); ("chainWalked", JBool false)])
      else
        match vr_sealEnvelope request with
        | None =>
            check cv_skip "Seal payload structurally valid; full chain validation requires the local envelope"
              (JObj [("sealId", JStr (sealId seal)); ("chainWalked", JBool false); ("chainValid", JBool true)])
        | Some e =>
            let no_walk := [("chainValid", JBool false); ("chainWalked", JBool false)] in
            let walk := JObj [("sealId", JStr (sealId seal)); ("chainValid", JBool false);
                              ("chainWalked", chainWalked e)] in
            if negb (bool_decide (sealId (current (chain e)) = sealId seal)) then
              check cv_fail "Seal envelope does not match the requested seal payload"
                (JObj ([("expectedSealId", JStr (sealId seal));
                        ("envelopeSealId", JStr (sealId (current (chain e))))] ++ no_walk))
            else if negb (payload_matches seal e) then
              check cv_fail "Seal payload does not match signed envelope content"
                (JObj ([("sealId", JStr (sealId seal))] ++ no_walk))
            else
              match validateSealChain (chain e) with
              | Err err => check cv_fail (message err) walk
              | Ok _ =>
                  match verifyChainDelta (chain e) with
                  | Err err => check cv_fail (message err) walk
                  | Ok _ => check cv_pass "Seal chain and stored delta validated locally"
                      (JObj [("sealId", JStr (sealId seal)); ("chainWalked", chainWalked e);
                             ("chainValid", JBool true)])
                  end
              end
        end
  end.

(** [importKey] and [verify] of Web Crypto (an error is what the helpers make
    of an exception); [decodeBase64] never fails, since [Buffer.from] does not. *)
Context {CryptoKey : Type} (importKey : string → result SignetError CryptoKey)
  (decodeBase64 : string → string) (verify : CryptoKey → string → string → result SignetError bool).
Definition SEAL_SIGNATURE_CHECK_ID : string := "seal_signature".
(** [scopeMode] is a member of its enumeration, hence truthy. *)
Definition issuedAt_failure (issued : string) : list string :=
  if empty_str issued then ["Missing issuedAt timestamp"]
  else match date_getTime issued with
       | Some t => if bool_decide (date_toISOString t = Some issued) then []
                   else ["Invalid or non-canonical issuedAt timestamp"]
       | None => ["Invalid or non-canonical issuedAt timestamp"]
       end.
Definition seal_signature_failures (seal : SealPayload) : list string :=
  failures_of [(empty_str (operatorId seal), "Missing operatorId field")] ++
  issuedAt_failure (issuedAt seal).
Definition seal_signature (request : VerificationRequest) : Outcome VerificationCheck :=
  let check v reason e := done_check SEAL_SIGNATURE_CHECK_ID v reason e in
  match vr_seal request with
  | None => check cv_skip "No seal provided" JNull
  | Some seal =>
      let failures := seal_signature_failures seal in
      if (0 <? length failures)%nat then
        check cv_fail ("Seal structural validation failed: " +:+ str_join "; " failures)
          (JObj [("failures", strs_json failures); ("signatureVerified", JBool false)])
      else
        match vr_sealEnvelope request, vr_sealPublicKey request with
        | Some e, Some publicKey =>
            if negb (bool_decide (sealId (current (chain e)) = sealId seal)) then
              check cv_fail "Seal envelope does not match the requested seal payload"
                (JObj [("expectedSealId", JStr (sealId seal));
                       ("envelopeSealId", JStr (sealId (current (chain e))));
                       ("signatureVerified", JBool false)])
            else if negb (payload_matches seal e) then
              check cv_fail "Seal payload does not match signed envelope content"
                (JObj [("sealId", JStr (sealId seal)); ("signatureVerified", JBool false)])
            else
              match importKey publicKey with
              | Err err => Done (Err err)
              | Ok key =>
                  match verify key (canonicalize (payload_json (current (chain e))))
                          (decodeBase64 (signature e)) with
                  | Err err => Done (Err err)
                  | Ok false => check cv_fail "Seal signature verification failed"
                      (JObj [("keyId", JStr (keyId e)); ("signatureVerified", JBool false)])
                  | Ok true => check cv_pass "Seal signature verified against the local signer public key"
                      (JObj [("keyId", JStr (keyId e)); ("signatureVerified", JBool true)])
                  end
              end
        | _, _ =>
            check cv_skip "Seal structural validation passed; signature verification requires a local envelope and signer public key"
              (JObj [("operatorId", JStr (operatorId seal)); ("signatureVerified", JNull)])
        end
  end.

(** zod's [datetime()] and the issues of a refused payload. *)
Context (datetime : string → bool) (issues : SealPayload → list (string * string)).
Definition SCHEMA_COMPLIANCE_CHECK_ID : string := "schema_compliance".
Definition schema_compliance (request : VerificationRequest) : Outcome VerificationCheck :=
  match vr_seal request with
  | None => done_check SCHEMA_COMPLIANCE_CHECK_ID cv_skip "No seal provided" JNull
  | Some seal =>
      if SealPayload_valid datetime seal then
        done_check SCHEMA_COMPLIANCE_CHECK_ID cv_pass "Seal conforms to SealPayload schema" JNull
      else
        let l := issues seal in
        done_check SCHEMA_COMPLIANCE_CHECK_ID cv_fail
          ("Seal schema validation failed: " +:+ pretty (length l) +:+ " issue(s)")
          (JObj [("errors", JArr (map (λ i, JObj [("path", JStr i.1); ("message", JStr i.2)]) l))])
  end.
End seal_checks.

(** ** The service *)
Definition HOUR_MS : Z := 3600000.
Definition ALL_CHECK_IDS : list string :=
  ["source_available"; "build_provenance"; "release_signing"; "seal_signature"; "seal_chain";
   "schema_compliance"].
Definition SUPPORTED_VERIFIER_TIERS : list TrustTier := [source_verified].
Definition DEFAULT_STATEMENT_TTL_SECONDS : Z := 86400.
Definition DEFAULT_MAX_REQUESTS_PER_HOUR : Z := 10.
Record VerifierConfig := {
  verifierInboxId : string; vc_sourceRepoUrl : string; statementTtlSeconds : option Z;
  maxRequestsPerRequesterPerHour : option Z; buildProvenance : option BuildProvenanceConfig
}.
(** A statement without its signature, and with it. *)
Record StatementFields := {
  statementId : string; st_requestId : string; st_verifierInboxId : string; st_signetInboxId : string;
  st_agentInboxId : string; verdict : VerificationVerdict; verifiedTier : TrustTier;
  st_checks : list VerificationCheck; st_challengeNonce : string; st_issuedAt : string; st_expiresAt : string
}.
Record VerificationStatement := { st_fields : StatementFields; st_signature : string }.
Definition CheckVerdict_name (v : CheckVerdict) : string :=
  match v with cv_pass => "pass" | cv_fail => "fail" | cv_skip => "skip" end.
Definition VerificationVerdict_name (v : VerificationVerdict) : string :=
  match v with vv_verified => "verified" | vv_partial => "partial" | vv_rejected => "rejected" end.
Definition check_json (c : VerificationCheck) : json :=
  JObj [("checkId", JStr (checkId c)); ("verdict", JStr (CheckVerdict_name (cv_verdict c)));
        ("reason", JStr (vc_reason c)); ("evidence", evidence c)].
Definition statement_json (f : StatementFields) : json :=
  JObj [("statementId", JStr (statementId f)); ("requestId", JStr (st_requestId f));
        ("verifierInboxId", JStr (st_verifierInboxId f)); ("signetInboxId", JStr (st_signetInboxId f));
        ("agentInboxId", JStr (st_agentInboxId f));
        ("verdict", JStr (VerificationVerdict_name (verdict f)));
        ("verifiedTier", JStr (TrustTier_name (verifiedTier f)));
        ("checks", JArr (map check_json (st_checks f))); ("challengeNonce", JStr (st_challengeNonce f));
        ("issuedAt", JStr (st_issuedAt f)); ("expiresAt", JStr (st_expiresAt f))].

Section service.
Context `{JsDate} (config : VerifierConfig).
(** [sign] on canonical bytes; an error is the message of what it throws. *)
Context (sign : string → result string string).
Definition max_requests : Z := default DEFAULT_MAX_REQUESTS_PER_HOUR (maxRequestsPerRequesterPerHour config).
Definition ttlSeconds : Z := default DEFAULT_STATEMENT_TTL_SECONDS (statementTtlSeconds config).

Definition buildAndSignStatement (fields : StatementFields) : result SignetError VerificationStatement :=
  match sign (canonicalize (statement_json fields)) with
  | Ok sig => Ok {| st_fields := fields; st_signature := sig |}
  | Err msg => Err (InternalError_create ("Failed to sign statement: " +:+ msg) None)
  end.
(** The statement of a verdict, issued at [now]; [toISOString] throws on an
    invalid time. *)
Definition issue_statement (newId : string) (now : Z) (request : VerificationRequest)
  (v : VerificationVerdict) (tier : TrustTier) (checks : list VerificationCheck)
  : Outcome VerificationStatement :=
  match date_toISOString now, date_toISOString (now + ttlSeconds * 1000) with
  | Some issued, Some expires =>
      Done (buildAndSignStatement
        {| statementId := newId; st_requestId := vr_requestId request;
           st_verifierInboxId := verifierInboxId config; st_signetInboxId := vr_signetInboxId request;
           st_agentInboxId := vr_agentInboxId request; verdict := v; verifiedTier := tier;
           st_checks := checks; st_challengeNonce := vr_challengeNonce request;
           st_issuedAt := issued; st_expiresAt := expires |})
  | _, _ => Throws
  end.
Definition rateLimitCheck (senderInboxId : string) : VerificationCheck :=
  mkCheck "rate_limit_exceeded" cv_fail
    ("Rate limit exceeded: max " +:+ pretty max_requests +:+ " requests per hour")
    (JObj [("senderInboxId", JStr senderInboxId); ("limit", JNum max_requests)]).
Definition is_diverging {A} (o : Outcome A) : bool := match o with Diverges => true | _ => false end.
Definition is_throwing {A} (o : Outcome A) : bool := match o with Throws => true | _ => false end.
Fixpoint collect (results : list (Outcome VerificationCheck)) : result SignetError (list VerificationCheck) :=
  match results with
  | Done (Ok c) :: l => match collect l with Ok cs => Ok (c :: cs) | Err e => Err e end
  | Done (Err e) :: _ => Err e
  | _ => Ok []
  end.
(** [checks] are the handlers; [now0] is read by the limiter, [now] when the
    checks are done.  A check that does not return blocks the event loop. *)
Definition handleRequest (checks : list (VerificationRequest → Outcome VerificationCheck))
  (now0 now : Z) (newId : string) (request : VerificationRequest) (senderInboxId : string)
  (limiter : RateLimiter) : RateLimiter * Outcome VerificationStatement :=
  let '(limiter, allowed) := rl_check max_requests HOUR_MS now0 senderInboxId limiter in
  if negb allowed then
    (limiter, issue_statement newId now request vv_rejected unverified [rateLimitCheck senderInboxId])
  else
    let results := map (λ execute, execute request) checks in
    if existsb is_diverging results then (limiter, Diverges)
    else if existsb is_throwing results then (limiter, Throws)
    else
      match collect results with
      | Err e => (limiter, Done (Err e))
      | Ok completed =>
          let v := determineVerdict (map cv_verdict completed) in
          (limiter, issue_statement newId now request v
                      (determineVerifiedTier v (vr_requestedTier request)) completed)
      end.

(** The cached self-seal: promises are numbered, [cachedSelfSeal] is one of
    them, and a promise that settles with an error clears the cache. *)
Record VerifierSelfSeal := {
  sf_verifierInboxId : string; sf_supportedTiers : list TrustTier; sf_supportedChecks : list string;
  sf_maxRequestsPerHour : Z; sf_sourceRepoUrl : string; sf_issuedAt : string; sf_signature : string
}.
Definition self_seal_json (issued : string) : json :=
  JObj [("verifierInboxId", JStr (verifierInboxId config));
        ("capabilities", JObj [("supportedTiers", strs_json (map TrustTier_name SUPPORTED_VERIFIER_TIERS));
                               ("supportedChecks", strs_json ALL_CHECK_IDS);
                               ("maxRequestsPerHour", JNum max_requests)]);
        ("sourceRepoUrl", JStr (vc_sourceRepoUrl config)); ("issuedAt", JStr issued)].
Definition buildAndSignSelfSeal (issued : string) : result SignetError VerifierSelfSeal :=
  match sign (canonicalize (self_seal_json issued)) with
  | Ok sig => Ok {| sf_verifierInboxId := verifierInboxId config;
                    sf_supportedTiers := SUPPORTED_VERIFIER_TIERS; sf_supportedChecks := ALL_CHECK_IDS;
                    sf_maxRequestsPerHour := max_requests; sf_sourceRepoUrl := vc_sourceRepoUrl config;
                    sf_issuedAt := issued; sf_signature := sig |}
  | Err msg => Err (InternalError_create ("Failed to sign self-seal: " +:+ msg) None)
  end.
End service.
Record SelfSealCache := mkCache {
  cachedSelfSeal : option nat; sc_next : nat; sc_started : omap nat string;
  sc_settled : omap nat (result SignetError VerifierSelfSeal)
}.
Definition new_cache : SelfSealCache := mkCache None 0 [] [].
(** [selfSeal()]: the promise it returns; [issued] is the time it reads. *)
Definition selfSeal (issued : string) (c : SelfSealCache) : SelfSealCache * nat :=
  match cachedSelfSeal c with
  | Some n => (c, n)
  | None => (mkCache (Some (sc_next c)) (sc_next c + 1) (om_set (sc_next c) issued (sc_started c))
               (sc_settled c), sc_next c)
  end.
Definition selfSeal_settles (n : nat) (r : result SignetError VerifierSelfSeal) (c : SelfSealCache)
  : SelfSealCache :=
  mkCache (if isOk r then cachedSelfSeal c else None) (sc_next c) (sc_started c) (om_set n r (sc_settled c)).

(** ** The sliding window *)
Section limiter.
Context (maxRequests windowMs : Z).
(** A run of [check] calls, and the log of the accepted ones. *)
Definition rl_step (s : RateLimiter * list (string * Z)) (call : Z * string)
  : RateLimiter * list (string * Z) :=
  let '(st, allowed) := rl_check maxRequests windowMs call.1 call.2 s.1 in
  (st, if allowed then s.2 ++ [(call.2, call.1)] else s.2).
Definition rl_run (calls : list (Z * string)) : RateLimiter * list (string * Z) := foldl rl_step ([], []) calls.
Definition accepted_times (id : string) (log : list (string * Z)) : list Z :=
  map snd (List.filter (λ c, bool_decide (c.1 = id)) log).
(** How many of them lie in a window. *)
Definition in_window (from to : Z) (l : list Z) : nat :=
  length (List.filter (λ t, (from <=? t) && (t <=? to)) l).

Lemma filter_none {A} (p : A → bool) l : (∀ x, x ∈ l → p x = false) → List.filter p l = [].
Proof.
  induction l as [|x l IH]; intros Hp; [done|]. cbn. rewrite Hp by left. apply IH. intros. apply Hp. by right.
Qed.
Definition evict (windowStart : Z) (entries : list Z) : list Z :=
  match findIndex (λ t, windowStart <=? t) entries with
  | Some firstValid => if (0 <? firstValid)%nat then drop firstValid entries else entries
  | None => if (0 <? length entries)%nat then [] else entries
  end.
Lemma evict_sorted ws l :
  StronglySorted Z.le l →
  evict ws l = List.filter (λ t, ws <=? t) l ∧ ∃ d, l = d ++ evict ws l ∧ Forall (λ t, t < ws) d.
Proof.
  unfold evict. induction l as [|x l IH]; [intros _; split; [done|by exists []]|].
  intros Hs. apply StronglySorted_inv in Hs as [Hs Hx]. specialize (IH Hs) as [IH1 (d & IH2 & IH3)].
  cbn [findIndex List.filter]. destruct (Z.leb_spec ws x) as [Hle|Hlt].
  - cbn. split; [|by exists []]. f_equal. symmetry. apply List.forallb_filter_id, forallb_forall.
    intros y Hy. apply Z.leb_le. rewrite Forall_forall in Hx. specialize (Hx y). rewrite list_elem_of_In in Hx.
    specialize (Hx Hy). lia.
  - destruct (findIndex _ l) as [n|] eqn:Hn; cbn [fmap option_fmap option_map].
    + change ((0 <? S n)%nat) with true. cbv iota. cbn [drop].
      assert (drop n l = (if (0 <? n)%nat then drop n l else l)) as Hd by by destruct n.
      split; [by rewrite Hd|]. exists (x :: d). split; [|by constructor]. cbn. f_equal. by rewrite Hd.
    + change ((0 <? length (x :: l))%nat) with true. cbv iota.
      assert (l = [] ∨ (if (0 <? length l)%nat then [] else l) = []) as Hl by (destruct l; auto).
      split; [|exists (x :: l); rewrite app_nil_r; split; [done|]].
      * rewrite <-IH1. by destruct l.
      * constructor; [done|]. destruct Hl as [->|Hl]; [done|]. rewrite Hl, app_nil_r in IH2. by subst d.
Qed.
Lemma rl_check_evict now id st entries :
  om_get id st = Some entries →
  let e := evict (now - windowMs) entries in
  rl_check maxRequests windowMs now id st =
  (if (length e =? 0)%nat then
     (om_set id [now] (om_delete id (om_set id e st)), true)
   else if maxRequests <=? Z.of_nat (length e) then (om_set id e st, false)
   else (om_set id (e ++ [now]) (om_set id e st), true)).
Proof. intros He. unfold rl_check. by rewrite He. Qed.

(** What the entries of a requester are: its accepted calls, less some that
    no window still reaches. *)
Definition rl_inv (last : Z) (s : RateLimiter * list (string * Z)) : Prop :=
  ∀ id, StronglySorted Z.le (accepted_times id s.2) ∧ Forall (λ t, t <= last) (accepted_times id s.2) ∧
  match om_get id s.1 with
  | None => accepted_times id s.2 = []
  | Some e => ∃ d, accepted_times id s.2 = d ++ e ∧ Forall (λ t, t < last - windowMs) d
  end.
Lemma rl_accepted_snoc id id' now log :
  accepted_times id (log ++ [(id', now)]) =
  accepted_times id log ++ (if decide (id' = id) then [now] else []).
Proof.
  unfold accepted_times. rewrite List.filter_app, map_app. f_equal. cbn. unfold bool_decide.
  by destruct (decide_rel eq id' id), (decide (id' = id)).
Qed.
Lemma sorted_snoc (l : list Z) x :
  StronglySorted Z.le l → Forall (λ t, t <= x) l → StronglySorted Z.le (l ++ [x]).
Proof.
  induction 1 as [|y l Hs IH Hy]; intros Hf; [by repeat constructor|].
  apply Forall_cons in Hf as [? Hf]. constructor; [by apply IH|]. apply Forall_app. by split; [|constructor].
Qed.
Lemma sorted_suffix (d e : list Z) : StronglySorted Z.le (d ++ e) → StronglySorted Z.le e.
Proof. induction d as [|x d IH]; [done|]. intros Hs. apply StronglySorted_inv in Hs as [Hs _]. by apply IH. Qed.
(** The decision of one call. *)
Lemma rl_check_decision last now id s :
  0 < maxRequests → last <= now → rl_inv last s →
  let '(st, allowed) := rl_check maxRequests windowMs now id s.1 in
  (allowed = true ↔
   Z.of_nat (length (List.filter (λ t, now - windowMs <=? t) (accepted_times id s.2))) < maxRequests) ∧
  (∀ id', id' ≠ id → om_get id' st = om_get id' s.1) ∧
  ∃ d e, om_get id st = Some (e ++ (if allowed then [now] else [])) ∧ accepted_times id s.2 = d ++ e ∧
    Forall (λ t, t < now - windowMs) d.
Proof.
  intros Hm Hn Hi. destruct (Hi id) as (Hs & Hl & He). destruct (om_get id s.1) as [entries|] eqn:Hg.
  - rewrite (rl_check_evict now id s.1 entries Hg). cbv zeta. destruct He as (d & Hd & Hf).
    rewrite Hd in Hs. apply sorted_suffix in Hs. destruct (evict_sorted (now - windowMs) entries Hs) as (Hev & d' & Hd' & Hf').
    assert (List.filter (λ t, now - windowMs <=? t) (accepted_times id s.2) = evict (now - windowMs) entries) as Hfl.
    { rewrite Hd, List.filter_app, Hev. rewrite (filter_none _ d); [done|].
      intros x Hx. rewrite Forall_forall in Hf. specialize (Hf x Hx). apply Z.leb_gt. lia. }
    rewrite Hfl. set (e := evict (now - windowMs) entries) in *.
    assert (accepted_times id s.2 = (d ++ d') ++ e) as Hacc by by rewrite Hd, Hd' at 1; rewrite app_assoc.
    assert (Forall (λ t, t < now - windowMs) (d ++ d')) as Hfd.
    { apply Forall_app. split; [|done]. eapply Forall_impl; [exact Hf|]. cbn. lia. }
    destruct (Nat.eqb_spec (length e) 0) as [H0|H0]; [|destruct (Z.leb_spec maxRequests (Z.of_nat (length e)))].
    + split_and!; [by split; [lia|]|intros; by rewrite om_get_set_ne, om_get_delete, decide_False, om_get_set_ne by done|].
      exists (d ++ d'), []. apply nil_length_inv in H0. rewrite om_get_set_eq, Hacc, H0. by rewrite app_nil_r.
    + split_and!; [by split; [|lia]|intros; by rewrite om_get_set_ne by done|].
      exists (d ++ d'), e. by rewrite om_get_set_eq, app_nil_r.
    + split_and!; [by split; [lia|]|intros; by rewrite !om_get_set_ne by done|].
      exists (d ++ d'), e. by rewrite om_get_set_eq.
  - unfold rl_check. rewrite Hg, He. cbn. split_and!; [by split; [lia|]|intros; by rewrite om_get_set_ne by done|].
    exists [], []. by rewrite om_get_set_eq.
Qed.
Lemma rl_step_inv last now id s :
  0 < maxRequests → last <= now → rl_inv last s → rl_inv now (rl_step s (now, id)).
Proof.
  intros Hm Hn Hi. pose proof (rl_check_decision last now id s Hm Hn Hi) as Hdec.
  unfold rl_step. cbn [fst snd]. destruct (rl_check _ _ now id s.1) as [st allowed].
  destruct Hdec as (_ & Hoth & d & e & Hg & Ha & Hf).
  intros id'. cbn [fst snd]. destruct (Hi id') as (Hs & Hl & He).
  assert (Forall (λ t, t <= now) (accepted_times id' s.2)) as Hl'
    by (eapply Forall_impl; [exact Hl|]; cbn; lia).
  destruct (decide (id' = id)) as [->|Hne].
  - rewrite Hg. destruct allowed.
    + rewrite rl_accepted_snoc, decide_True by done. split_and!; [by apply sorted_snoc|by apply Forall_app; split; [|repeat constructor; lia]|].
      exists d. by rewrite Ha, app_assoc.
    + split_and!; [done|done|]. exists d. by rewrite app_nil_r.
  - rewrite Hoth by done.
    assert (accepted_times id' (if allowed then s.2 ++ [(id, now)] else s.2) = accepted_times id' s.2) as ->.
    { destruct allowed; [|done]. rewrite rl_accepted_snoc, decide_False by done. by rewrite app_nil_r. }
    split_and!; [done|done|]. destruct (om_get id' s.1); [|done]. destruct He as (d' & ? & Hf').
    exists d'. split; [done|]. eapply Forall_impl; [exact Hf'|]. cbn. lia.
Qed.
(** The run up to a point, with the time of its last call. *)
Definition clock_ok (calls : list (Z * string)) : Prop := StronglySorted Z.le (map fst calls).
Lemma clock_snoc calls now id :
  clock_ok (calls ++ [(now, id)]) → clock_ok calls ∧ Forall (λ t, t <= now) (map fst calls).
Proof.
  unfold clock_ok. rewrite map_app. cbn. induction (map fst calls) as [|x l IH]; intros Hs; [split; constructor|].
  apply StronglySorted_inv in Hs as [Hs Hf]. apply Forall_app in Hf as [Hf Hx].
  apply Forall_cons in Hx as [Hx _]. destruct (IH Hs). split; constructor; done.
Qed.
Lemma rl_run_snoc calls c : rl_run (calls ++ [c]) = rl_step (rl_run calls) c.
Proof. unfold rl_run. by rewrite foldl_app. Qed.
Lemma rl_run_inv calls now :
  0 < maxRequests → clock_ok calls → Forall (λ t, t <= now) (map fst calls) → rl_inv now (rl_run calls).
Proof.
  intros Hm. revert now. induction calls as [|[t id] calls IH] using rev_ind; intros now Hc Hf.
  { intros id. split_and!; [constructor|constructor|done]. }
  apply clock_snoc in Hc as [Hc Ht]. rewrite map_app in Hf. apply Forall_app in Hf as [_ Hn].
  apply Forall_cons in Hn as [Hn _]. cbn in Hn. rewrite rl_run_snoc.
  pose proof (rl_step_inv t t id _ Hm ltac:(lia) (IH t Hc Ht)) as Hi. intros id'.
  destruct (Hi id') as (H1 & H2 & H3). split_and!; [done|eapply Forall_impl; [exact H2|cbn; lia]|].
  destruct (om_get id' _); [|done]. destruct H3 as (d & ? & Hd). exists d. split; [done|].
  eapply Forall_impl; [exact Hd|]. cbn. lia.
Qed.
Lemma in_window_snoc from to l x :
  in_window from to (l ++ [x]) = (in_window from to l + (if ((from <=? x) && (x <=? to))%Z then 1 else 0))%nat.
Proof. unfold in_window. rewrite List.filter_app, length_app. cbn. by destruct (_ && _). Qed.
Lemma in_window_le from to from' l :
  from' <= from → (in_window from to l <= length (List.filter (λ t, (from' <=? t)%Z) l))%nat.
Proof.
  intros Hf. unfold in_window. induction l as [|x l IH]; [done|]. cbn.
  destruct (Z.leb_spec from x), (Z.leb_spec x to), (Z.leb_spec from' x); cbn; lia.
Qed.
End limiter.

(** C39: The verifier's rate limit is a sliding window: with a clock that does
    not run backwards, a request is admitted exactly when fewer than the
    maximum of the requester's requests were admitted in the window that ends
    now, whatever other requesters do; and so no window of that length,
    wherever it begins, contains more than the maximum. *)
Theorem rate_limiter_spec maxRequests windowMs calls now id from :
  0 < maxRequests → 0 <= windowMs → clock_ok (calls ++ [(now, id)]) →
  let '(st, log) := rl_run maxRequests windowMs calls in
  ((rl_check maxRequests windowMs now id st).2 = true ↔
   Z.of_nat (length (List.filter (λ t, now - windowMs <=? t) (accepted_times id log))) < maxRequests) ∧
  Z.of_nat (in_window from (from + windowMs) (accepted_times id log)) <= maxRequests.
Proof.
  intros Hm Hw Hc. apply clock_snoc in Hc as [Hc Hf].
  pose proof (rl_run_inv maxRequests windowMs calls now Hm Hc Hf) as Hi.
  pose proof (rl_check_decision maxRequests windowMs now now id _ Hm ltac:(lia) Hi) as Hd.
  assert (Z.of_nat (in_window from (from + windowMs) (accepted_times id (rl_run maxRequests windowMs calls).2))
    <= maxRequests) as Hb.
  { clear Hf Hi Hd. induction calls as [|[t id'] calls IH] using rev_ind; [cbn; lia|].
    apply clock_snoc in Hc as [Hc Hf]. specialize (IH Hc). rewrite rl_run_snoc. unfold rl_step. cbn [fst snd].
    pose proof (rl_run_inv maxRequests windowMs calls t Hm Hc Hf) as Hi.
    pose proof (rl_check_decision maxRequests windowMs t t id' _ Hm ltac:(lia) Hi) as Hd.
    destruct (rl_check _ _ t id' _) as [st allowed]. cbn [fst snd]. destruct allowed; [|done].
    destruct Hd as (Hd & _). rewrite rl_accepted_snoc. destruct (decide (id' = id)) as [->|]; [|by rewrite app_nil_r].
    rewrite in_window_snoc. destruct (Z.leb_spec from t), (Z.leb_spec t (from + windowMs)); cbn [andb]; try lia.
    pose proof (in_window_le from (from + windowMs) (t - windowMs)
      (accepted_times id (rl_run maxRequests windowMs calls).2) ltac:(lia)).
    pose proof (proj1 Hd eq_refl). lia. }
  destruct (rl_run maxRequests windowMs calls) as [st log]. cbn [fst snd] in *.
  destruct (rl_check _ _ now id st) as [st' allowed]. destruct Hd as (Hd & _). by split.
Qed.

(** ** What the seal's checks establish *)
Section seal_checks_spec.
Context `{JsDate} {CryptoKey : Type} (importKey : string → result SignetError CryptoKey)
  (decodeBase64 : string → string) (verify : CryptoKey → string → string → result SignetError bool).

Lemma payload_matches_spec seal e : payload_matches seal e = true ↔ seal = current (chain e).
Proof.
  unfold payload_matches. rewrite bool_decide_eq_true. split; [|by intros ->].
  rewrite canonicalize_same by (try apply payload_json_wf; discriminate). apply same_payload.
Qed.
Definition passes (o : Outcome VerificationCheck) : Prop :=
  ∃ c, o = Done (Ok c) ∧ cv_verdict c = cv_pass.
Lemma passes_done id v reason e : passes (done_check id v reason e) ↔ v = cv_pass.
Proof. split; [by intros (c & [= <-] & Hv)|intros ->; by eexists]. Qed.
Lemma seal_chain_passes request :
  passes (seal_chain request) ↔
  ∃ e, vr_seal request = Some (current (chain e)) ∧ vr_sealEnvelope request = Some e ∧
    seal_chain_failures (current (chain e)) = [] ∧
    validateSealChain (chain e) = Ok tt ∧ verifyChainDelta (chain e) = Ok tt.
Proof.
  unfold seal_chain. destruct (vr_seal request) as [seal|]; [|rewrite passes_done; naive_solver].
  destruct (Nat.ltb_spec 0 (length (seal_chain_failures seal))) as [Hf|Hf].
  { rewrite passes_done. split; [done|]. intros (e & [= ->] & _ & Hn & _). rewrite Hn in Hf. cbn in Hf. lia. }
  assert (seal_chain_failures seal = []) as Hnil by (apply nil_length_inv; lia).
  destruct (vr_sealEnvelope request) as [e|]; [|rewrite passes_done; naive_solver].
  case_bool_decide as Hid; cbn [negb].
  2: { rewrite passes_done. split; [done|]. intros (e' & [= ->] & [= <-] & _). by destruct Hid. }
  destruct (payload_matches seal e) eqn:Hm; cbn [negb].
  2: { rewrite passes_done. split; [done|]. intros (e' & [= Hs] & [= <-] & _).
       apply payload_matches_spec in Hs. congruence. }
  apply payload_matches_spec in Hm as ->.
  destruct (validateSealChain (chain e)) as [[]|err] eqn:Hv.
  2: { rewrite passes_done. split; [done|]. intros (e' & _ & [= <-] & _ & Hv' & _). congruence. }
  destruct (verifyChainDelta (chain e)) as [[]|err] eqn:Hd; rewrite passes_done.
  - split; [|done]. intros _. by exists e.
  - split; [done|]. intros (e' & _ & [= <-] & _ & _ & Hd'). congruence.
Qed.
Lemma seal_signature_passes request :
  passes (seal_signature importKey decodeBase64 verify request) ↔
  ∃ e pk key, vr_seal request = Some (current (chain e)) ∧ vr_sealEnvelope request = Some e ∧
    vr_sealPublicKey request = Some pk ∧ seal_signature_failures (current (chain e)) = [] ∧
    importKey pk = Ok key ∧
    verify key (canonicalize (payload_json (current (chain e)))) (decodeBase64 (signature e)) = Ok true.
Proof.
  unfold seal_signature. destruct (vr_seal request) as [seal|]; [|rewrite passes_done; naive_solver].
  destruct (Nat.ltb_spec 0 (length (seal_signature_failures seal))) as [Hf|Hf].
  { rewrite passes_done. split; [done|]. intros (e & pk & key & [= ->] & _ & _ & Hn & _). rewrite Hn in Hf. cbn in Hf. lia. }
  assert (seal_signature_failures seal = []) as Hnil by (apply nil_length_inv; lia).
  destruct (vr_sealEnvelope request) as [e|], (vr_sealPublicKey request) as [pk|];
    try (rewrite passes_done; naive_solver).
  case_bool_decide as Hid; cbn [negb].
  2: { rewrite passes_done. split; [done|]. intros (e' & pk' & key & [= ->] & [= <-] & _). by destruct Hid. }
  destruct (payload_matches seal e) eqn:Hm; cbn [negb].
  2: { rewrite passes_done. split; [done|]. intros (e' & pk' & key & [= Hs] & [= <-] & _).
       apply payload_matches_spec in Hs. congruence. }
  apply payload_matches_spec in Hm as ->.
  destruct (importKey pk) as [key|err] eqn:Hk.
  2: { split; [by intros (? & ? & ?)|]. intros (e' & pk' & key & _ & _ & [= <-] & _ & Hk' & _). congruence. }
  destruct (verify key _ _) as [[]|err] eqn:Hv.
  - rewrite passes_done. split; [|done]. intros _. by exists e, pk, key.
  - rewrite passes_done. split; [done|]. intros (e' & pk' & key' & _ & [= <-] & [= <-] & _ & Hk' & Hv').
    rewrite Hk in Hk'. injection Hk' as <-. congruence.
  - split; [by intros (? & ? & ?)|]. intros (e' & pk' & key' & _ & [= <-] & [= <-] & _ & Hk' & Hv').
    rewrite Hk in Hk'. injection Hk' as <-. congruence.
Qed.

(** A chain that is built on a predecessor of the same operator, credential and
    chat, not issued later, is valid. *)
Lemma issued_chain_valid datetime zodMessage input prev newId now iso r :
  date_toISOString now = Some iso → buildSeal datetime zodMessage input prev newId iso = Ok r →
  (∀ p, prev = Some p → operatorId p = in_operatorId input ∧ credentialId p = in_credentialId input ∧
     chatId p = in_chatId input ∧ ∀ t, date_getTime (issuedAt p) = Some t → t <= now) →
  validateSealChain (b_chain r) = Ok tt.
Proof.
  intros Hiso Hb Hprev. destruct (buildSeal_spec datetime zodMessage input prev newId iso) as [Hok _].
  destruct (Hok r Hb) as (_ & Hcur & Hpr & _ & _ & _ & Hch). destruct prev as [p|].
  - destruct (Hprev p eq_refl) as (Ho & Hc & Hi & Ht). apply (Hch p); [done..|].
    rewrite (date_roundtrip _ _ Hiso). destruct (date_getTime (issuedAt p)) as [t|] eqn:E; [|done].
    cbn. apply Z.ltb_ge. by apply Ht.
  - unfold validateSealChain. by rewrite Hpr.
Qed.
(** C38: The verifier's seal checks agree with the issuer.  The chain check
    passes exactly when the request carries an envelope whose current payload
    is the claimed one, field by field (although only canonical bytes are
    compared), has its four ids, and whose chain and stored delta are valid;
    the signature check passes exactly when the request carries an envelope
    whose current payload is the claimed one, that payload has an operator id
    and a canonical issue time, and the request carries a public key that can
    be imported and verifies the signature over the payload's canonical bytes.
    And a seal that was issued passes both: when [buildSeal] returned its chain
    at an issue time that [toISOString] wrote, on no predecessor or one of the
    same operator, credential and chat that was not issued later, and its
    signature is what a signer made of the payload's canonical bytes whose
    signatures verify under the key in the request. *)
Theorem seal_checks_spec request :
  (passes (seal_chain request) ↔
   ∃ e, vr_seal request = Some (current (chain e)) ∧ vr_sealEnvelope request = Some e ∧
     seal_chain_failures (current (chain e)) = [] ∧
     validateSealChain (chain e) = Ok tt ∧ verifyChainDelta (chain e) = Ok tt) ∧
  (passes (seal_signature importKey decodeBase64 verify request) ↔
   ∃ e pk key, vr_seal request = Some (current (chain e)) ∧ vr_sealEnvelope request = Some e ∧
     vr_sealPublicKey request = Some pk ∧ seal_signature_failures (current (chain e)) = [] ∧
     importKey pk = Ok key ∧
     verify key (canonicalize (payload_json (current (chain e)))) (decodeBase64 (signature e)) = Ok true) ∧
  (∀ datetime zodMessage input prev newId now iso r e pk key sign,
     date_toISOString now = Some iso → iso ≠ "" →
     buildSeal datetime zodMessage input prev newId iso = Ok r →
     (∀ p, prev = Some p → operatorId p = in_operatorId input ∧ credentialId p = in_credentialId input ∧
        chatId p = in_chatId input ∧ ∀ t, date_getTime (issuedAt p) = Some t → t <= now) →
     importKey pk = Ok key → (∀ message, verify key message (sign message) = Ok true) →
     chain e = b_chain r → decodeBase64 (signature e) = sign (canonicalize (payload_json (current (b_chain r)))) →
     vr_seal request = Some (current (b_chain r)) → vr_sealEnvelope request = Some e →
     vr_sealPublicKey request = Some pk →
     passes (seal_chain request) ∧ passes (seal_signature importKey decodeBase64 verify request)).
Proof.
  split; [apply seal_chain_passes|]. split; [apply seal_signature_passes|].
  intros datetime zodMessage input prev newId now iso r e pk key sign Hiso Hne Hb Hprev Hk Hver Hc Hs H1 H2 H3.
  rewrite seal_chain_passes, seal_signature_passes.
  pose proof (issued_chain_valid _ _ _ _ _ _ _ _ Hiso Hb Hprev) as Hv. unfold buildSeal in Hb.
  destruct (SealPayload_valid datetime _) eqn:Hval; [|done]. injection Hb as <-. cbn [b_chain] in *.
  set (raw := build_raw input newId iso) in *.
  assert (∀ p s, resourceIdSchema p s = true → p ≠ "" → s ≠ "") as Hid.
  { intros p s Hp Hn ->. unfold resourceIdSchema in Hp. destruct p; [done|]. by cbn in Hp. }
  unfold SealPayload_valid in Hval. rewrite !andb_true_iff in Hval.
  destruct Hval as (((((((V1 & V2) & V3) & V4) & _) & _) & _) & _).
  apply Hid in V1, V2, V3, V4; try done.
  split.
  - exists e. rewrite Hc. cbn [current]. split_and!; try done.
    + unfold seal_chain_failures, failures_of, empty_str. by rewrite !bool_decide_eq_false_2.
    + unfold verifyChainDelta. cbn [current previous chain_delta]. by rewrite deltaEquals_refl by apply expected_NoDup.
  - exists e, pk, key. rewrite Hs, Hc. cbn [current] in *. split_and!; try done.
    unfold seal_signature_failures, failures_of, empty_str, issuedAt_failure.
    rewrite (bool_decide_eq_false_2 (operatorId raw = "")) by done. cbn [List.filter map fst snd app].
    change (issuedAt raw) with iso. unfold empty_str. rewrite bool_decide_eq_false_2 by done.
    rewrite (date_roundtrip _ _ Hiso). by rewrite bool_decide_eq_true_2.
Qed.
End seal_checks_spec.

(** ** What a statement states *)
Lemma determineVerdict_spec l :
  (determineVerdict l = vv_verified ↔ ∀ v, v ∈ l → v = cv_pass) ∧
  (determineVerdict l = vv_rejected ↔ cv_fail ∈ l) ∧
  (determineVerdict l = vv_partial ↔ cv_fail ∉ l ∧ cv_skip ∈ l).
Proof.
  assert (∀ x, existsb (λ v, bool_decide (v = x)) l = true ↔ x ∈ l) as He.
  { intros x. rewrite existsb_exists. setoid_rewrite <-list_elem_of_In. setoid_rewrite bool_decide_eq_true.
    naive_solver. }
  unfold determineVerdict. destruct (existsb (λ v, bool_decide (v = cv_fail)) l) eqn:Hf.
  - apply He in Hf. split_and!; split; try done; intros Hx; [|naive_solver]. by specialize (Hx _ Hf).
  - assert (cv_fail ∉ l) as Hnf by (rewrite <-He; congruence).
    destruct (existsb (λ v, bool_decide (v = cv_skip)) l) eqn:Hs.
    + apply He in Hs. split_and!; split; try done. intros Hx. by specialize (Hx _ Hs).
    + assert (cv_skip ∉ l) as Hns by (rewrite <-He; congruence).
      split_and!; split; try done; [|naive_solver]. intros _ [] Hv; [done|by destruct Hnf|by destruct Hns].
Qed.
Lemma determineVerifiedTier_spec v t :
  (determineVerifiedTier v t = source_verified ↔ v = vv_verified ∧ t ≠ unverified) ∧
  (determineVerifiedTier v t = unverified ∨ determineVerifiedTier v t = source_verified).
Proof. destruct v, t; vm_compute; naive_solver. Qed.
Lemma collect_ok results :
  existsb is_diverging results = false → existsb is_throwing results = false →
  (∀ cs, collect results = Ok cs ↔ results = map (λ c, Done (Ok c)) cs) ∧
  (∀ e, collect results = Err e → Done (Err e) ∈ results).
Proof.
  induction results as [|[[c|e]| |] l IH]; intros Hd Ht; try done; cbn in *.
  - split; [|done]. intros [|]; naive_solver.
  - destruct (IH Hd Ht) as [IH1 IH2]. destruct (collect l) as [cs|e'] eqn:Hc.
    + split; [|done]. intros cs'. rewrite (proj1 (IH1 cs) eq_refl). split; [by intros [= <-]|].
      destruct cs' as [|c' cs']; [done|]. cbn. intros [= -> Hm]. f_equal. f_equal.
      assert (Ok (E:=SignetError) cs = Ok cs') as [= ->]; [|done]. rewrite IH1. by rewrite (proj1 (IH1 cs) eq_refl).
    + split; [|intros e [= <-]; right; by apply IH2]. intros [|c' cs']; [done|]. split; [done|].
      cbn. intros [= _ Hl]. apply IH1 in Hl. done.
  - split; [|intros e' [= <-]; left]. intros [|]; done.
Qed.

Section service_spec.
Context `{JsDate} (config : VerifierConfig) (sign : string → result string string).
Lemma issue_statement_ok newId now request v tier checks s :
  issue_statement config sign newId now request v tier checks = Done (Ok s) →
  let f := st_fields s in
  statementId f = newId ∧ st_requestId f = vr_requestId request ∧
  st_verifierInboxId f = verifierInboxId config ∧
  st_signetInboxId f = vr_signetInboxId request ∧ st_agentInboxId f = vr_agentInboxId request ∧
  st_challengeNonce f = vr_challengeNonce request ∧
  verdict f = v ∧ verifiedTier f = tier ∧ st_checks f = checks ∧
  date_getTime (st_issuedAt f) = Some now ∧
  date_getTime (st_expiresAt f) = Some (now + ttlSeconds config * 1000) ∧
  sign (canonicalize (statement_json f)) = Ok (st_signature s).
Proof.
  unfold issue_statement. destruct (date_toISOString now) as [i|] eqn:Hi; [|done].
  destruct (date_toISOString (now + ttlSeconds config * 1000)) as [x|] eqn:Hx; [|done].
  unfold buildAndSignStatement. destruct (sign _) as [sig|] eqn:Hs; [|done]. intros [= <-]. cbn.
  split_and!; try done; by apply date_roundtrip.
Qed.

(** A signed statement means what it says: it answers this request (id,
    nonce, inboxes) in this verifier's name, its signature covers all of its
    fields, it expires exactly the configured time after its issue.  For an
    admitted request it lists one result per check, in order; its verdict is
    verified exactly when every check passed, rejected exactly when one
    failed; and it grants source-verified exactly for a verified verdict on a
    request for some tier, and nothing above it.  A request over the rate
    limit is rejected with that reason alone, and a check's error is never
    turned into a statement. *)
Theorem statement_spec checks now0 now newId request sender limiter s :
  (handleRequest config sign checks now0 now newId request sender limiter).2 = Done (Ok s) →
  let f := st_fields s in
  st_requestId f = vr_requestId request ∧ st_challengeNonce f = vr_challengeNonce request ∧
  st_verifierInboxId f = verifierInboxId config ∧ st_signetInboxId f = vr_signetInboxId request ∧
  st_agentInboxId f = vr_agentInboxId request ∧
  sign (canonicalize (statement_json f)) = Ok (st_signature s) ∧
  date_getTime (st_issuedAt f) = Some now ∧
  date_getTime (st_expiresAt f) = Some (now + ttlSeconds config * 1000) ∧
  if (rl_check (max_requests config) HOUR_MS now0 sender limiter).2 then
    map (λ execute, execute request) checks = map (λ c, Done (Ok c)) (st_checks f) ∧
    (verdict f = vv_verified ↔ ∀ c, c ∈ st_checks f → cv_verdict c = cv_pass) ∧
    (verdict f = vv_rejected ↔ ∃ c, c ∈ st_checks f ∧ cv_verdict c = cv_fail) ∧
    (verifiedTier f = source_verified ↔ verdict f = vv_verified ∧ vr_requestedTier request ≠ unverified) ∧
    (verifiedTier f = unverified ∨ verifiedTier f = source_verified)
  else verdict f = vv_rejected ∧ verifiedTier f = unverified ∧
       st_checks f = [rateLimitCheck config sender].
Proof.
  unfold handleRequest. destruct (rl_check _ _ now0 sender limiter) as [lim allowed]. cbn [snd].
  destruct allowed; cbn [negb].
  2: { intros Hs. cbn [snd] in Hs. apply issue_statement_ok in Hs. cbv zeta in Hs |- *. naive_solver. }
  destruct (existsb is_diverging _) eqn:Hd; [done|]. destruct (existsb is_throwing _) eqn:Ht; [done|].
  destruct (collect_ok _ Hd Ht) as [Hc _]. destruct (collect _) as [cs|e]; [|done].
  intros Hs. cbn [snd] in Hs. apply issue_statement_ok in Hs. cbv zeta in Hs |- *.
  destruct Hs as (_ & H1 & H2 & H3 & H4 & H5 & H6 & H7 & H8 & H9 & H10 & H11).
  rewrite H6, H7, H8. split_and!; try done.
  - by apply Hc.
  - destruct (determineVerdict_spec (map cv_verdict cs)) as (Hv & _). rewrite Hv.
    setoid_rewrite list_elem_of_fmap. naive_solver.
  - destruct (determineVerdict_spec (map cv_verdict cs)) as (_ & Hv & _). rewrite Hv.
    rewrite list_elem_of_fmap. naive_solver.
  - destruct (determineVerifiedTier_spec (determineVerdict (map cv_verdict cs)) (vr_requestedTier request)) as [Hv _].
    exact Hv.
  - apply determineVerifiedTier_spec.
Qed.

(** The handlers [createVerifierService] installs. *)
Definition default_checks (source build release sig chain schema : VerificationRequest → Outcome VerificationCheck)
  : list (VerificationRequest → Outcome VerificationCheck) := [source; build; release; sig; chain; schema].
Lemma issuer_failure_fails bp p c : issuer_failure bp p = Some c → cv_verdict c = cv_fail.
Proof. unfold issuer_failure. repeat case_match; try done; by intros [= <-]. Qed.
Lemma identity_fails bp p c : identity_answer bp p = ia_fail c → cv_verdict c = cv_fail.
Proof. unfold identity_answer. repeat case_match; try done; by intros [= <-]. Qed.
Lemma build_provenance_never_passes atob parseJSON zodIssue p256_verify fuel bp request :
  ¬ passes (build_provenance atob parseJSON zodIssue p256_verify fuel bp request).
Proof.
  unfold build_provenance. intros Hp. repeat case_match; try (by rewrite passes_done in Hp);
    try (by destruct Hp as (? & ? & ?)); destruct Hp as (c' & Hc & Hv); simplify_eq/=.
  - by erewrite issuer_failure_fails in Hv.
  - by erewrite identity_fails in Hv.
Qed.
(** The verifier as it is installed fails closed: with the checks that
    [createVerifierService] puts in, whatever the request, the network, the
    certificates and the signatures are, no statement has the verdict verified
    and no statement grants a tier above unverified, because the build
    provenance check never passes (the certificate chain is not verified
    yet); so the tier the service advertises is granted to nobody. *)
Theorem default_verifier_grants_nothing atob parseJSON zodIssue p256_verify fuel response elapsed
  parsedUrl release {K} (importKey : string → result SignetError K) decode verify datetime issues
  now0 now newId request sender limiter s :
  let checks := default_checks (source_available response elapsed)
    (build_provenance atob parseJSON zodIssue p256_verify fuel (buildProvenance config))
    (release_signing parsedUrl release) (seal_signature importKey decode verify) seal_chain
    (schema_compliance datetime issues) in
  (handleRequest config sign checks now0 now newId request sender limiter).2 = Done (Ok s) →
  verdict (st_fields s) ≠ vv_verified ∧ verifiedTier (st_fields s) = unverified.
Proof.
  intros checks Hs. unfold handleRequest in Hs. destruct (rl_check _ _ now0 sender limiter) as [lim allowed].
  destruct allowed; cbn [negb] in Hs.
  2: { cbn [snd] in Hs. apply issue_statement_ok in Hs. destruct Hs as (_ & _ & _ & _ & _ & _ & -> & -> & _). done. }
  destruct (existsb is_diverging _) eqn:Hd; [done|]. destruct (existsb is_throwing _) eqn:Ht; [done|].
  destruct (collect_ok _ Hd Ht) as [Hc _]. destruct (collect _) as [cs|e]; [|done].
  cbn [snd] in Hs. apply issue_statement_ok in Hs. cbv zeta in Hs.
  destruct Hs as (_ & _ & _ & _ & _ & _ & H6 & H7 & _). rewrite H6, H7.
  assert (determineVerdict (map cv_verdict cs) ≠ vv_verified) as Hne.
  { intros Hv. pose proof (proj1 (proj1 (determineVerdict_spec _)) Hv) as Hall.
    pose proof (proj1 (Hc cs) eq_refl) as Hm. unfold checks, default_checks in Hm. cbn [map] in Hm.
    destruct cs as [|c1 [|c2 cs]]; try done. apply (f_equal (λ l, l !! 1%nat)) in Hm. injection Hm as Hm.
    apply (build_provenance_never_passes atob parseJSON zodIssue p256_verify fuel (buildProvenance config) request).
    exists c2. split; [exact Hm|]. apply Hall. right. left. }
  split; [done|]. destruct (determineVerifiedTier_spec (determineVerdict (map cv_verdict cs))
    (vr_requestedTier request)) as [H1 [H2|H2]]; [done|]. by apply H1 in H2 as [? _].
Qed.
End service_spec.

(** ** The self-seal's cache *)
Inductive cache_step (c : SelfSealCache) : SelfSealCache → Prop :=
  | ca_call issued : cache_step c (selfSeal issued c).1
  | ca_settle n issued r :
      om_get n (sc_started c) = Some issued → om_get n (sc_settled c) = None →
      cache_step c (selfSeal_settles n r c).
(** A started promise that has not settled, or has settled well, is the cached
    one; so one signing is under way at a time. *)
Record cache_inv (c : SelfSealCache) : Prop := {
  ca_fresh : ∀ n, is_Some (om_get n (sc_started c)) → (n < sc_next c)%nat;
  ca_pending : ∀ n, is_Some (om_get n (sc_started c)) →
    (om_get n (sc_settled c) = None ∨ ∃ s, om_get n (sc_settled c) = Some (Ok s)) → cachedSelfSeal c = Some n;
  ca_cached : ∀ n, cachedSelfSeal c = Some n → is_Some (om_get n (sc_started c));
  ca_settled : ∀ n, is_Some (om_get n (sc_settled c)) → is_Some (om_get n (sc_started c))
}.
Lemma cache_step_inv c c' : cache_step c c' → cache_inv c → cache_inv c'.
Proof.
  intros Hs [I1 I2 I3 I4]. destruct Hs as [issued|n issued r Hn Hr].
  - unfold selfSeal. destruct (cachedSelfSeal c) as [m|] eqn:Hc; cbn [fst]; [by rewrite <-Hc in *; split|].
    assert (om_get (sc_next c) (sc_settled c) = None) as Hnone.
    { destruct (om_get (sc_next c) (sc_settled c)) eqn:Hg; [|done].
      assert (is_Some (om_get (sc_next c) (sc_started c))) as Hx by (apply I4; by eexists). apply I1 in Hx. lia. }
    split; cbn.
    + intros n. rewrite om_get_set. case_decide; [lia|]. intros Hx. apply I1 in Hx. lia.
    + intros n. rewrite om_get_set. case_decide; [by subst|]. intros Hx Hy. specialize (I2 n Hx Hy). done.
    + intros n [= <-]. by rewrite om_get_set_eq.
    + intros n Hx. rewrite om_get_set. case_decide; [done|]. by apply I4.
  - split; cbn; [done|..].
    + intros m Hm. rewrite om_get_set. case_decide as Hd.
      * subst m. intros [?|[s Hs]]; [done|]. injection Hs as ->. cbn. apply I2; [done|by left].
      * intros Hy. pose proof (I2 m Hm Hy) as Hcm. pose proof (I2 n ltac:(by eexists) (or_introl Hr)). congruence.
    + intros m. destruct (isOk r); [apply I3|done].
    + intros m. rewrite om_get_set. case_decide as Hd; [subst m; by eexists|apply I4].
Qed.
(** Self-seals are signed once: at any time at most one signing is under
    way and a later call returns its promise; once a signing has succeeded
    every later call returns that very promise, and only after a failure does
    a call sign again. *)
Lemma self_seal_cached c :
  rtc cache_step new_cache c →
  (∀ n m issued, is_Some (om_get n (sc_started c)) → is_Some (om_get m (sc_started c)) →
     om_get n (sc_settled c) = None → om_get m (sc_settled c) = None →
     n = m ∧ selfSeal issued c = (c, n)) ∧
  (∀ n s issued, om_get n (sc_settled c) = Some (Ok s) → selfSeal issued c = (c, n)) ∧
  (∀ n issued, cachedSelfSeal c = None → is_Some (om_get n (sc_started c)) →
     (∃ e, om_get n (sc_settled c) = Some (Err e)) ∧ (selfSeal issued c).2 ≠ n).
Proof.
  intros Hr. assert (cache_inv c) as [I1 I2 I3 I4].
  { assert (cache_inv new_cache) as H0 by (split; [by intros n [? ?]|by intros n [? ?]|done|by intros n [? ?]]).
    revert H0. induction Hr as [|a b c Hab _ IH]; [done|]. intros Ha. apply IH. by eapply cache_step_inv. }
  split_and!.
  - intros n m issued Hn Hm Sn Sm. pose proof (I2 n Hn (or_introl Sn)) as C1.
    pose proof (I2 m Hm (or_introl Sm)) as C2. unfold selfSeal. rewrite C1. split; [congruence|done].
  - intros n s issued Hs. unfold selfSeal. rewrite (I2 n); [done| |right; by eexists]. apply I4. by eexists.
  - intros n issued Hc Hn. unfold selfSeal. rewrite Hc. cbn [snd]. split.
    + destruct (om_get n (sc_settled c)) as [[s|e]|] eqn:Hs; [|by eexists|];
        exfalso; rewrite (I2 n) in Hc; try done; [right; by eexists|by left].
    + intros <-. apply I1 in Hn. lia.
Qed.

(** ** Provenance derived from a statement *)
(** No check is mapped to a provenance field, so only the tier is derived. *)
Definition CHECK_TO_PROVENANCE_FIELDS : omap string (list ProvenanceKey) := [].
Definition pm_set_trustTier (r : ClaimProvenanceRecord) (m : ProvenanceMap) : ProvenanceMap :=
  {| pm_inferenceMode := pm_inferenceMode m; pm_inferenceProviders := pm_inferenceProviders m;
     pm_contentEgressScope := pm_contentEgressScope m; pm_retentionAtProvider := pm_retentionAtProvider m;
     pm_hostingMode := pm_hostingMode m; pm_trustTier := Some r |}.
Definition empty_provenance : ProvenanceMap := {| pm_inferenceMode := None; pm_inferenceProviders := None;
  pm_contentEgressScope := None; pm_retentionAtProvider := None; pm_hostingMode := None; pm_trustTier := None |}.
Definition verified_record (f : StatementFields) : ClaimProvenanceRecord :=
  {| pr_source := pv_verified; attestedBy := Some (st_verifierInboxId f); attestedAt := Some (st_issuedAt f);
     pr_expiresAt := Some (st_expiresAt f) |}.
Definition deriveProvenanceMap (statement : VerificationStatement) : ProvenanceMap :=
  let f := st_fields statement in
  let map := foldl (λ m check,
      if negb (bool_decide (cv_verdict check = cv_pass)) then m
      else match om_get (checkId check) CHECK_TO_PROVENANCE_FIELDS with
           | None => m
           | Some fields => foldl (λ m _, pm_set_trustTier (verified_record f) m) m fields
           end) empty_provenance (st_checks f) in
  if bool_decide (verifiedTier f ≠ unverified) then pm_set_trustTier (verified_record f) map else map.
Lemma deriveProvenanceMap_spec s :
  deriveProvenanceMap s =
  if bool_decide (verifiedTier (st_fields s) ≠ unverified)
  then pm_set_trustTier (verified_record (st_fields s)) empty_provenance else empty_provenance.
Proof.
  unfold deriveProvenanceMap. cbv zeta.
  assert (∀ l m, foldl (λ m check, if negb (bool_decide (cv_verdict check = cv_pass)) then m
      else match om_get (checkId check) CHECK_TO_PROVENANCE_FIELDS with
           | None => m
           | Some fields => foldl (λ m _, pm_set_trustTier (verified_record (st_fields s)) m) m fields
           end) m l = m) as ->; [|done].
  induction l as [|c l IH]; intros m; [done|]. cbn. by case_bool_decide.
Qed.

(** ** Concrete runs *)
Section runs.
Lemma rate_limiter_spec_witness :
  let calls := [(0, "a"); (10, "a"); (20, "b")] in
  let '(st, log) := rl_run 2 100 calls in
  (rl_check 2 100 50 "a" st).2 = false ∧ (rl_check 2 100 105 "a" st).2 = true ∧
  Z.of_nat (in_window 0 (0 + 100) (accepted_times "a" log)) <= 2 ∧
  ((rl_check 2 100 50 "a" st).2 = true ↔
   Z.of_nat (length (List.filter (λ t, 50 - 100 <=? t) (accepted_times "a" log))) < 2).
Proof.
  cbv zeta. assert (clock_ok ([(0, "a"); (10, "a"); (20, "b")] ++ [(50, "a")])) as Hc.
  { unfold clock_ok. cbn. repeat constructor; lia. }
  pose proof (rate_limiter_spec 2 100 [(0, "a"); (10, "a"); (20, "b")] 50 "a" 0 ltac:(lia) ltac:(lia) Hc) as Hs.
  destruct (rl_run 2 100 [(0, "a"); (10, "a"); (20, "b")]) as [st log] eqn:Hr.
  destruct Hs as [H1 H2]. vm_compute in Hr. injection Hr as Hst Hlog.
  split; [rewrite <-Hst; reflexivity|]. split; [rewrite <-Hst; reflexivity|]. split; [exact H2|exact H1].
Defined.

Definition demo_request (seal : option SealPayload) (e : option SealEnvelope) (pk bundle : option string)
  : VerificationRequest :=
  {| vr_requestId := "r1"; vr_agentInboxId := "agent"; vr_signetInboxId := "signet"; vr_groupId := None;
     vr_seal := seal; vr_sealEnvelope := e; vr_sealPublicKey := pk; vr_artifactDigest := "abc";
     vr_buildProvenanceBundle := bundle; vr_sourceRepoUrl := "https://github.com/o/r"; vr_releaseTag := None;
     vr_requestedTier := source_verified; vr_challengeNonce := "n1" |}.
Definition demo_seal_input : SealInput :=
  mkInput "cred_0000000000000001" "op_0000000000000001" "conv_0000000000000001"
    per_chat {| allow := []; deny := [] |} None false None None None.
Definition demo_chain : SealChain :=
  {| current := build_raw demo_seal_input "seal_0000000000000001" "2026-01-01T00:00:00.000Z";
     previous := None; chain_delta := emptyDelta |}.
Definition demo_envelope : SealEnvelope := {| chain := demo_chain; signature := "sig"; keyId := "k" |}.
(** A key that accepts one signature. *)
Definition demo_verify (key data sig : string) : result SignetError bool := Ok (bool_decide (sig = "sig")).
Lemma seal_checks_spec_witness :
  let request := demo_request (Some (current demo_chain)) (Some demo_envelope) (Some "pk") None in
  passes (seal_chain request) ∧ passes (seal_signature (λ k, Ok k) id demo_verify request).
Proof.
  intros request.
  destruct (seal_checks_spec (λ k : string, Ok k) id demo_verify request) as (_ & _ & Hok).
  apply (Hok (λ _, true) (λ _, "") demo_seal_input None "seal_0000000000000001" 1767225600000
    "2026-01-01T00:00:00.000Z" {| b_chain := demo_chain; serialized := canonicalize (chain_json demo_chain) |}
    demo_envelope "pk" "pk" (λ _, "sig")); first [by intros p [=]|discriminate|intros; vm_compute; reflexivity].
Defined.

Definition demo_config : VerifierConfig :=
  {| verifierInboxId := "verifier"; vc_sourceRepoUrl := "https://x"; statementTtlSeconds := None;
     maxRequestsPerRequesterPerHour := None; buildProvenance := None |}.
Definition always (v : CheckVerdict) (request : VerificationRequest) : Outcome VerificationCheck :=
  done_check "c" v "" JNull.
Definition demo_run (checks : list (VerificationRequest → Outcome VerificationCheck)) :=
  handleRequest demo_config (λ _, Ok "sig") checks 0 0 "s1" (demo_request None None None None) "x" [].
Lemma statement_spec_witness :
  match (demo_run [always cv_pass; always cv_pass]).2 with
  | Done (Ok s) => verdict (st_fields s) = vv_verified ∧ verifiedTier (st_fields s) = source_verified ∧
      st_challengeNonce (st_fields s) = "n1" ∧
      date_getTime (st_expiresAt (st_fields s)) = Some 86400000
  | _ => False
  end.
Proof.
  assert (∃ s, (demo_run [always cv_pass; always cv_pass]).2 = Done (Ok s)) as [s Hs]
    by (eexists; vm_compute; reflexivity).
  rewrite Hs. pose proof (statement_spec demo_config (λ _, Ok "sig") [always cv_pass; always cv_pass] 0 0 "s1"
    (demo_request None None None None) "x" [] s Hs) as Hst. cbv zeta in Hst.
  destruct Hst as (_ & Hn & _ & _ & _ & _ & _ & He & Hv).
  vm_compute in Hs. injection Hs as <-. split; [reflexivity|]. split; [reflexivity|]. split; [exact Hn|exact He].
Defined.
Definition demo_default : list (VerificationRequest → Outcome VerificationCheck) :=
  default_checks (source_available (Ok 200) 5)
    (build_provenance (λ _, None) (λ _, None) (λ _, "") (λ _ _ _, None) 10 (buildProvenance demo_config))
    (release_signing None None) (seal_signature (λ k : string, Ok k) id demo_verify) seal_chain
    (schema_compliance (λ _, true) (λ _, [])).
Lemma default_verifier_grants_nothing_witness :
  match (demo_run demo_default).2 with
  | Done (Ok s) => verdict (st_fields s) = vv_partial ∧ verdict (st_fields s) ≠ vv_verified ∧
      verifiedTier (st_fields s) = unverified
  | _ => False
  end.
Proof.
  assert (∃ s, (demo_run demo_default).2 = Done (Ok s)) as [s Hs] by (eexists; vm_compute; reflexivity).
  rewrite Hs. destruct (default_verifier_grants_nothing demo_config (λ _, Ok "sig") (λ _, None) (λ _, None)
    (λ _, "") (λ _ _ _, None) 10 (Ok 200) 5 None None (λ k : string, Ok k) id demo_verify (λ _, true)
    (λ _, []) 0 0 "s1" (demo_request None None None None) "x" [] s Hs) as [H1 H2].
  split; [|split; [exact H1|exact H2]]. vm_compute in Hs. by injection Hs as <-.
Defined.

(** A request with a crafted certificate never returns from the build
    provenance check: the service's thread is blocked for good. *)
Definition crafted_atob (s : string) : option bytes :=
  if bool_decide (s = "CERT") then Some stuck_cert else Some (encode s).
Definition crafted_json (b : bytes) : option json :=
  if bool_decide (b = encode "BUNDLE") then
    Some (JObj [("mediaType", JStr "m");
      ("verificationMaterial", JObj [("certificate", JObj [("rawBytes", JStr "CERT")])]);
      ("dsseEnvelope", JObj [("payload", JStr "STATEMENT"); ("payloadType", JStr "t");
         ("signatures", JArr [JObj [("sig", JStr "s"); ("keyid", JStr "")]])])])
  else
    Some (JObj [("_type", JStr "https://in-toto.io/Statement/v1"); ("predicateType", JStr "p");
      ("subject", JArr [JObj [("name", JStr "a"); ("digest", JObj [("sha256", JStr "abc")])]])]).
Lemma crafted_bundle_blocks_verifier fuel :
  build_provenance crafted_atob crafted_json (λ _, "") (λ _ _ _, None) fuel None
    (demo_request None None None (Some "BUNDLE")) = Diverges.
Proof.
  pose proof (findSpki_diverges fuel) as Hd. unfold build_provenance.
  cbn [vr_buildProvenanceBundle demo_request].
  assert (∃ b st, parseSigstoreBundle crafted_atob crafted_json (λ _, "") "BUNDLE" = Ok (b, st) ∧
    existsb (λ s, negb (bool_decide (s = ""))) (sb_signatures b) = true ∧ sb_rawBytes b = "CERT" ∧
    findMatchingSubject st "abc" = Some ("a", "abc")) as (b & st & -> & Hs & Hc & Hm)
    by (do 2 eexists; vm_compute; done).
  rewrite Hs, Hc. cbn [negb vr_artifactDigest demo_request]. rewrite Hm. cbn [issuer_failure identity_answer configured mbind option_bind].
  change (crafted_atob "CERT") with (Some stuck_cert). by rewrite Hd.
Qed.
(** An empty digest is contained in every file name: any signature file of the
    release passes for it. *)
Lemma empty_digest_is_signed : isSigningAssetForDigest "other.sig" "" = true.
Proof. reflexivity. Qed.
End runs.
